(* ===== verification/_CoqProject ===== *)
-Q . S2P
Prelude.v
Floats.v
Io.v
VarInt.v
Framing.v
Cipher.v
Position.v
Collections.v
KeyedList.v
Sums.v
Identifier.v
Registry.v
ItemStack.v
Containers.v
Slots.v
Click.v
MenuBehavior.v
Menu.v
MenuSync.v
TickList.v
TickScheduler.v
BitPack.v
PalettedContainer.v
PaletteEncoding.v
ChunkPyramid.v
TicketLevel.v
ChunkTracker.v
TicketType.v
TicketStorage.v
PlayerTickets.v
ChunkScheduler.v
PacketQueue.v
PacketWorkers.v
Strings.v
PermissionKey.v
PermissionContext.v
RuleExpression.v
PermissionSet.v
PermissionMetadata.v
PermissionGroups.v
RegionFormat.v
Files.v
RegionManager.v
RegionStore.v
RegionStorage.v
StorageRefinement.v
Random.v
LegacyRandom.v
Xoroshiro.v
RandomSource.v
CommandReader.v
CommandGraph.v
CommandParse.v
CommandQueue.v
CommandTick.v
