(* ===== verification/Prelude.v ===== *)
(** * SteelMC: a verification library

    SteelMC is a Minecraft server written in Rust.  This library models the
    parts of it that carry its own core logic and proves them correct.

    ** Parts, and the files that model them

    Wire format (crates [steel-utils], [steel-protocol]):
    - [Io]: byte lists, cursors, the [ReadFrom]/[WriteTo] traits and the
      length-prefixed forms ([steel-utils/src/serial]).
    - [VarInt]: variable-length integers and the buffer with room for a prefix
      ([codec/variable_integer.rs], [front_vec.rs]).
    - [Framing]: packets to frames and back, with compression
      ([packet_traits.rs], [packet_reader.rs], [steel-protocol/src/utils.rs]).
    - [Cipher]: the encrypted stream over a sink that may accept part of a
      write ([packet_writer.rs], [utils.rs]).
    A packet is written by [Framing.from_packet_data] over [VarInt], goes
    through [Cipher.poll_write] and comes back through [Cipher.poll_read],
    [Framing.get_raw_packet] and [Framing.parse_packet].

    Coordinates: [Position] (packed block, chunk and section positions and the
    iterators over boxes and Manhattan shells of [types/position.rs] and
    [packed_position.rs]).

    Collections of the Rust standard library that the sources lean on:
    [Collections] (comparators as the class [OrdLaws], binary heaps, ordered
    sets, sorting).

    Scheduled ticks ([world/tick_scheduler]): [TickList] is the queue of one
    chunk, [TickScheduler] the scheduler of a world: containers behind shared
    addresses, the index of head deadlines, selection of a batch.

    Chunk sections: [PalettedContainer] (three representations of a cube of
    values), [PaletteEncoding] (its network form, with the thread-local index
    table), [BitPack] (its storage form).

    Chunk tickets ([steel-core/src/chunk]): [ChunkPyramid] (which neighbours a
    generation status needs), [TicketLevel] (what a level permits),
    [ChunkTracker] (incremental propagation of levels), [TicketType] (kinds
    of tickets and their flags), [TicketStorage] (the tickets held at every
    position), [PlayerTickets] (players in view of chunks), [ChunkScheduler]
    (the coordinator).  Gameplay submits operations to
    [ChunkScheduler.TicketOperationIngress], which changes the storage and the
    player tickets and remembers dirty positions; a scheduling run projects
    the dirty positions to source levels ([take_source_projections]) and gives
    them to the two trackers, which report the changed levels.  A run is two
    steps, since submissions of other threads can fall between the ingress
    lock's release and the trackers' propagation.

    Names and registries ([steel-utils/src/types/identifier.rs],
    [steel-registry/src/macros.rs]): [Identifier], [Registry].  [KeyedList]
    is the library for vectors searched by a key, which the ticket storage
    uses.

    Inventories ([steel-core/src/inventory], [player/player_inventory]): a
    click packet goes through the files in this order.
    - [Click] decodes it and computes the amounts drags place, in [f32].
    - [MenuSync] is [process_container_click]: it runs the click, takes the
      client's predicted slots as its new beliefs about the screen, and sends
      what differs; a [Screen] specifies the client.
    - [Menu] is [Menu::clicked] with the hooks of a [MenuKind], shift-clicks by
      routes, swaps with the hotbar, double clicks, and closing.
    - [MenuBehavior] is the shared state of a menu (slots, cursor, drag) and
      the clicks on one slot.
    - [Slots] is the [Slot] trait: a record of the overridable methods, the
      provided ones as functions of it, and the world of containers reached
      through a guard.  The class [StorageSlot] is what menus rely on; the
      plain, restricted, armour, fuel and enchanting slots are instances.
    - [Containers] is the container trait, the player's inventory and its
      [add]; [ItemStack] the stacks and component patches beneath.
    [Sums] has the sums over lists and maps that counting items takes.

    Inbound packets ([steel-core/src/server/packet_processor.rs]):
    [PacketQueue] is the queue of session lanes with its ready and order heaps,
    one function per method, each returning the notifications it makes.
    [PacketWorkers] puts it under its threads: workers that sleep on the
    condition variable, the game loop that opens and drains it around each
    tick, and tasks that submit, pause, resume, discard and stop, as a step
    relation with fair executions.

    Permissions ([steel-core/src/permission]): [Strings] has the operations of
    [str] the texts take; [PermissionKey] the dotted keys;
    [PermissionContext] the contexts rules are restricted to;
    [RuleExpression] the text of a rule; [PermissionSet] the choice of the rule
    that decides and the expressions over rules; [PermissionMetadata] the
    same for values; [PermissionGroups] groups that inherit, what they give
    a subject, and the manager that replaces their configuration.

    Chunk storage ([steel-core/src/chunk_saver]): [RegionFormat] is the table
    of a region file, its bytes and the search for free sectors; [Files] the
    operations of [tokio::fs], each of which may fail; [RegionManager] every
    operation of the region manager, the storage in memory and the
    [ChunkStorage] that is either; [RegionStore] what the files store and the
    allocation that keeps chunks apart; [RegionStorage] the operations on
    it; [StorageRefinement] the disk against the memory.

    Random sources ([steel-utils/src/random]): [Random] is the trait of the
    generators, what it promises ([InRange], [Returns]), and the shuffles and
    weighted choices over any generator; [LegacyRandom] the linear
    congruential generator; [Xoroshiro] the other one and the generator of the
    decoration stage over it; [RandomSource] the enum of both, the splitters
    and the hashes of names.  [Floats] is [f32] and [f64] as the standard
    library's [SpecFloat], which [Click] uses too.

    Commands ([steel-core/src/command], [server/run_loop.rs]): a command line
    goes through the files in this order.
    - [CommandTick] has the bounded queues that connections submit to, the
      tick that takes requests, and the executions that are suspended, with
      the barriers that hold later commands back.
    - [CommandParse] parses the line along the graph to a chain of stages.
    - [CommandQueue] runs a chain: its queue of actions, its limits, forks,
      suspensions, and the return command.
    - [CommandGraph] is the arena of nodes and the registration of trees;
      [CommandReader] the reader and the parsers of built-in arguments.
    The class [CommandRuntime] is what a runtime supplies, [RuntimeLaws] what
    parsing needs of its argument parsers, [CommandExecution] and [CustomLaws]
    what the queue needs of sources, suspensions and custom executors.

    ** How the code is modelled

    - A [w]-bit integer is a [Z]; an operation that can leave its range is
      followed by the wrap of its type ([u8], [i32], ...).  Indices and lengths
      are [nat].  Where the code panics (an assertion, an out-of-range index),
      the model returns [Panic]; debug assertions are included.  Arithmetic
      that could only overflow beyond any reachable value wraps, as in a
      release build.
    - A result is [Ok], [Err] or [Panic] ([outcome]); a method on [&mut self]
      takes the old state and returns the new one.
    - A hash map is a [gmap].  Where its visiting order could matter it is an
      argument ([ChunkTracker.hash_iter]) and the theorems hold for every order.
      [sort_unstable] is a sort: every list sorted that way has distinct keys.
    - A [&'static] reference compared by address is the pair of its place and
      its immutable value ([TicketType.TicketTypeRef]).
    - Counters of type [u64] and [usize] that are checked for exhaustion
      panic there in the model too.
    - Objects shared by several owners live in a store of addresses
      ([TickScheduler.store]).  A method that holds a lock for its whole body
      is one atomic step.
    - A file is its bytes, and a schedule says which file operations fail and
      after how many bytes ([Files.Fs]).  An operation of the region manager
      holds the lock of the regions throughout; a load gives it up while
      it decodes, and takes what others do meanwhile as an argument.  A crash
      between two writes is not modelled: the table on disk may be older
      than the one in memory until it is written.
    - Third-party code is a parameter: the compressor and the block cipher are
      arguments with their documented laws as hypotheses, the registries
      (generated code) are represented by the values the code reads.

    ** What the theorems show

    - Round trips: integers, strings, packets, frames, encrypted streams,
      palettes, saved ticks and tickets, permission rules.
    - Safety: decoders never panic on any input, encoders never on any
      packet, the scheduler's assertions hold after any history.
    - Refinement: a paletted container is a plain array; the encrypted stream
      is the identity; the heap-based queues yield sorted selections.
    - Exactness: ticks are collected exactly, levels are exactly the distance
      to the ticket sources, dependencies exactly the transitive closure, player tickets are
      held exactly where a player is in view, and after a scheduling run both
      trackers hold exactly the levels of the tickets at its projection,
      whatever was submitted meanwhile.
    - Persistence: saved tickets reload exactly, in an order independent of
      the hash map's; a bad entry is skipped alone; expiry by a stale
      snapshot never touches a refreshed ticket.
    - Conservation: no click, swap, drag, throw or closing of a menu of
      storage slots creates or destroys an item for a player without infinite
      materials, whatever the packet holds; shift-clicks and throws end.
    - Inbound packets: each session's packets are handled in order, none lost
      or twice; exclusive and serialized packets are ordered against all others;
      no wake-up is lost, and in a fair execution every drain ends, with no
      packet below its cutoff in a lane unless the queue was stopped.
    - Permissions: texts round-trip, matching on text is matching by segments,
      the deciding rule is the best that matches whatever the order of the rules,
      inheritance is accepted exactly when it is well-founded, each inherited
      group contributes once, and only valid groups are ever served.
    - Chunk storage: the disk answers any sequence of calls in which chunks
      are loaded from regions that are held as a map in memory does;
      a failing save costs no other chunk; a load discards only data that did
      not decode; closing loses nothing.  The same map is what a restart finds.
    - Random numbers: bounded draws are uniform and those of the legacy
      generator always return, skipping equals drawing, shuffles are fair, no
      generator degenerates.
    - Commands: parsing always returns, along nodes that the source may use,
      and finds the literals that the source is allowed; registration keeps
      the graph well-formed; the queue of actions is direct evaluation up to
      the command limit, runs no more than that in all its ticks and always
      stops; each sender's commands start in order,
      and no command line makes the server's tick panic.
    - Synchronisation: after the answer to a click whose reports describe the
      client's screen, it shows the menu;
      comparing hashed predictions is exact but for hash collisions.

    ** Fuel

    [TickScheduler.collect_loop] and [drain_current] take as much fuel as
    there are ticks, which the theorems show is enough; [from_cube]'s run loop
    takes the number of cells.  [ChunkTracker.propagate] is given fuel by its
    caller: [tracker_exact] shows that some amount is enough and any larger
    one gives the same result; the variant is ten times the weight of the
    pending chunks, by powers of ten of their distance from the limit, plus
    the queue's length.  The loops of shift-clicks and throws take out an item
    per round, so 102 rounds, three more than the largest stack, are enough
    ([Menu.click_loops_terminate]).  The two recursions over inherited groups
    go at most one level deeper than there are groups
    ([PermissionGroups.inheritance_validated], [effective_permissions_exact]).

    The rejection loops of random draws take fuel too: the orbit of the legacy
    generator passes through 0 from every state, so some amount is enough
    ([LegacyRandom.legacy_draws_return]); a draw of the other generator returns
    at its first accepted word ([Xoroshiro.xoro_first_accepted]).

    [CommandParse.parse_nodes] calls itself after a character was read, so one
    more than the characters left is enough ([parse_nodes_ok]); a queue of
    commands stops within its load, the sum of the weights of its actions
    ([CommandQueue.execution_returns]).

    ** Not modelled, and why

    The entities, block behaviours, world generation, physics and what the
    built-in commands do are game rules in floating point over generated registries; the chunk
    pipeline is asynchronous work over the generator, and what a persisted
    chunk holds is built from the live world, so the region manager takes its
    serialized form, and the compressor, as parameters; NBT, text components and
    login call third-party parsers, cryptography and services; packet
    definitions are plain records with derived serializers.  Of inventories,
    the result slots' handlers and the menu kinds with hooks of their own
    (crafting, anvil, furnaces, beacon) are not, nor what creative mode may
    create; a stack handed to the world as a dropped item stays in the list of
    dropped stacks, and a guard that releases its locks to notify an owner or
    to drop an item does so with no other thread in between.  Lock contention
    and memory ordering inside an atomic step are outside the model.  The
    handlers that packets run are outside it too, and the files and copies
    of permissions kept per player. *)

From Stdlib Require Import ZArith Lia String.
From stdpp Require Import prelude list strings.

#[global] Open Scope Z_scope.

(** ** Outcomes

    A Rust computation either returns [Ok], returns an error value, or
    panics (a failed assertion, an out-of-range index, an arithmetic
    overflow in a build with overflow checks). *)

Inductive outcome (E A : Type) : Type :=
| Ok (a : A)
| Err (e : E)
| Panic.
Arguments Ok {E A} a.
Arguments Err {E A} e.
Arguments Panic {E A}.

Definition obind {E A B} (m : outcome E A) (k : A -> outcome E B) : outcome E B :=
  match m with
  | Ok a => k a
  | Err e => Err e
  | Panic => Panic
  end.

Definition map_err {E F A} (f : E -> F) (m : outcome E A) : outcome F A :=
  match m with
  | Ok a => Ok a
  | Err e => Err (f e)
  | Panic => Panic
  end.

Definition ok_or {E A} (e : E) (o : option A) : outcome E A :=
  match o with Some a => Ok a | None => Err e end.

(** A loop that is given fuel, and says when it used it up *)
Inductive exhausted := OutOfFuel.
Notation run A := (outcome exhausted A) (only parsing).

Declare Scope outcome_scope.
Delimit Scope outcome_scope with outcome.
Notation "'let?' x ':=' m 'in' k" := (obind m (fun x => k))
  (at level 10, x name, m at level 100, k at level 200) : outcome_scope.
Notation "'let?' ' p ':=' m 'in' k" := (obind m (fun x => match x with p => k end))
  (at level 10, p pattern, m at level 100, k at level 200) : outcome_scope.
#[global] Open Scope outcome_scope.

(** ** Machine integers

    A w-bit integer is a [Z] in its range; every operation that can leave
    the range is followed by the wrap of its type. *)

Definition wrapu (w z : Z) : Z := z mod 2 ^ w.
Definition wraps (w z : Z) : Z := (z + 2 ^ (w - 1)) mod 2 ^ w - 2 ^ (w - 1).

Definition u8 := wrapu 8.
Definition u32 := wrapu 32.
Definition u64 := wrapu 64.
Definition i32 := wraps 32.
Definition i64 := wraps 64.

Definition is_u (w z : Z) : Prop := 0 <= z < 2 ^ w.
Definition is_s (w z : Z) : Prop := - 2 ^ (w - 1) <= z < 2 ^ (w - 1).

Definition i32_max : Z := 2147483647.
Definition i32_min : Z := -2147483648.
Definition u32_max : Z := 4294967295.
Definition i64_max : Z := 9223372036854775807.
Definition i64_min : Z := -9223372036854775808.
Definition usize_max : Z := 18446744073709551615.

Lemma wrapu_range w z : 0 <= w -> is_u w (wrapu w z).
Proof. intros. apply Z.mod_pos_bound, Z.pow_pos_nonneg; lia. Qed.

Lemma wrapu_id w z : is_u w z -> wrapu w z = z.
Proof. apply Z.mod_small. Qed.

Lemma pow2_half w : 0 < w -> 2 ^ w = 2 * 2 ^ (w - 1).
Proof. intros. rewrite <- Z.pow_succ_r by lia. f_equal. lia. Qed.

Lemma wraps_range w z : 0 < w -> is_s w (wraps w z).
Proof.
  intros. unfold is_s, wraps. pose proof (pow2_half w).
  pose proof (Z.mod_pos_bound (z + 2 ^ (w - 1)) (2 ^ w) ltac:(apply Z.pow_pos_nonneg; lia)).
  lia.
Qed.

Lemma wraps_id w z : 0 < w -> is_s w z -> wraps w z = z.
Proof.
  unfold is_s, wraps. intros. pose proof (pow2_half w). rewrite Z.mod_small by lia. lia.
Qed.

Lemma wraps_cong w a b : 0 < w -> a mod 2 ^ w = b mod 2 ^ w -> wraps w a = wraps w b.
Proof.
  intros. unfold wraps. rewrite Z.add_mod, H0, <- Z.add_mod; [done | |];
    apply Z.pow_nonzero; lia.
Qed.

Lemma wraps_wrapu w z : 0 < w -> wraps w (wrapu w z) = wraps w z.
Proof. intros. apply wraps_cong; [done|]. apply Z.mod_mod, Z.pow_nonzero; lia. Qed.

Lemma wrapu_wraps w z : 0 < w -> wrapu w (wraps w z) = wrapu w z.
Proof.
  intros. unfold wrapu, wraps. assert (2 ^ w <> 0) by (apply Z.pow_nonzero; lia).
  rewrite Zminus_mod_idemp_l. f_equal. lia.
Qed.

(** ** Automation *)

(** Decide the integer tests of the goal that the context settles. *)
Ltac zbool :=
  repeat match goal with
    | |- context [?x <? ?y] =>
        first [rewrite (proj2 (Z.ltb_lt x y)) by lia | rewrite (proj2 (Z.ltb_ge x y)) by lia]
    | |- context [?x <=? ?y] =>
        first [rewrite (proj2 (Z.leb_le x y)) by lia | rewrite (proj2 (Z.leb_gt x y)) by lia]
    | |- context [?x =? ?y] =>
        first [rewrite (proj2 (Z.eqb_eq x y)) by lia | rewrite (proj2 (Z.eqb_neq x y)) by lia]
    end.

(** ** Bits *)

Lemma testbit_high w z i : is_u w z -> 0 <= w <= i -> Z.testbit z i = false.
Proof.
  intros Hz Hi. rewrite <- (Z.mod_small z (2 ^ w)) by exact Hz.
  apply Z.mod_pow2_bits_high. lia.
Qed.

(** A field placed above [w] low bits does not interact with them. *)
Lemma lor_shiftl_add w a b : 0 <= w -> is_u w a -> Z.lor a (Z.shiftl b w) = a + 2 ^ w * b.
Proof.
  intros Hw Ha. rewrite Z.add_comm, Z.mul_comm, <- Z.shiftl_mul_pow2, Z.lor_comm by done.
  symmetry. rewrite Z.add_nocarry_lxor.
  - apply Z.bits_inj'. intros i Hi. rewrite Z.lxor_spec, Z.lor_spec, Z.shiftl_spec by done.
    destruct (Z.ltb_spec i w).
    + rewrite Z.testbit_neg_r by lia. by destruct (Z.testbit a i).
    + rewrite (testbit_high w a i) by (done || lia). by destruct (Z.testbit b (i - w)).
  - apply Z.bits_inj'. intros i Hi. rewrite Z.land_spec, Z.shiftl_spec, Z.bits_0 by done.
    destruct (Z.ltb_spec i w).
    + rewrite Z.testbit_neg_r by lia. done.
    + rewrite (testbit_high w a i) by (done || lia). apply andb_false_r.
Qed.

Lemma land_ones_mod a w : 0 <= w -> Z.land a (Z.ones w) = a mod 2 ^ w.
Proof. intros. by apply Z.land_ones. Qed.

Lemma wrapu_lor w a b : 0 <= w -> wrapu w (Z.lor a b) = Z.lor (wrapu w a) (wrapu w b).
Proof.
  intros. unfold wrapu. rewrite <- !Z.land_ones by done.
  apply Z.bits_inj'. intros. rewrite !Z.lor_spec, !Z.land_spec, Z.lor_spec.
  by destruct (Z.testbit a n), (Z.testbit b n), (Z.testbit (Z.ones w) n).
Qed.

Lemma wrapu_land w a b : 0 <= w -> wrapu w (Z.land a b) = Z.land (wrapu w a) (wrapu w b).
Proof.
  intros. unfold wrapu. rewrite <- !Z.land_ones by done.
  apply Z.bits_inj'. intros. rewrite !Z.land_spec.
  by destruct (Z.testbit a n), (Z.testbit b n), (Z.testbit (Z.ones w) n).
Qed.

Lemma is_u_lor w a b : 0 <= w -> is_u w a -> is_u w b -> is_u w (Z.lor a b).
Proof.
  intros Hw Ha Hb. rewrite <- (wrapu_id w a Ha), <- (wrapu_id w b Hb), <- wrapu_lor by done.
  by apply wrapu_range.
Qed.

Lemma is_u_land w a b : 0 <= w -> is_u w a -> is_u w b -> is_u w (Z.land a b).
Proof.
  intros Hw Ha Hb. rewrite <- (wrapu_id w a Ha), <- (wrapu_id w b Hb), <- wrapu_land by done.
  by apply wrapu_range.
Qed.

Lemma is_u8_256 z : 0 <= z < 256 <-> is_u 8 z.
Proof. done. Qed.

(** Two little-endian words are or-ed byte by byte. *)
Lemma lor_horner a r m s :
  0 <= a < 256 -> 0 <= m < 256 ->
  Z.lor (a + 256 * r) (m + 256 * s) = Z.lor a m + 256 * Z.lor r s.
Proof.
  rewrite !is_u8_256. intros Ha Hm. change 256 with (2 ^ 8).
  rewrite <- !lor_shiftl_add by (try apply is_u_lor; done).
  apply Z.bits_inj'. intros i Hi. rewrite !Z.lor_spec, !Z.shiftl_spec, Z.lor_spec by done.
  destruct (Z.testbit a i), (Z.testbit m i), (Z.testbit r (i - 8)), (Z.testbit s (i - 8)); done.
Qed.

Lemma land_horner a r m s :
  0 <= a < 256 -> 0 <= m < 256 ->
  Z.land (a + 256 * r) (m + 256 * s) = Z.land a m + 256 * Z.land r s.
Proof.
  rewrite !is_u8_256. intros Ha Hm. change 256 with (2 ^ 8).
  rewrite <- !lor_shiftl_add by (try apply is_u_land; done).
  apply Z.bits_inj'. intros i Hi.
  rewrite !Z.land_spec, !Z.lor_spec, !Z.shiftl_spec, !Z.land_spec by done.
  destruct (Z.ltb_spec i 8).
  - rewrite !(Z.testbit_neg_r _ (i - 8)) by lia. by rewrite !orb_false_r.
  - by rewrite (testbit_high 8 a i), (testbit_high 8 m i) by (done || lia).
Qed.

(** The sign bit of a two's-complement value fills its high bits. *)
Lemma wraps_sign w z :
  0 < w -> wraps w z = wrapu w z + 2 ^ w * (if Z.testbit z (w - 1) then -1 else 0).
Proof.
  intros Hw. pose proof (pow2_half w Hw).
  assert (0 < 2 ^ (w - 1)) by (apply Z.pow_pos_nonneg; lia).
  assert (Hr : is_u w (wrapu w z)) by (apply wrapu_range; lia).
  rewrite <- wraps_wrapu by done.
  assert (Hb : Z.testbit z (w - 1) = Z.testbit (wrapu w z) (w - 1))
    by (unfold wrapu; rewrite Z.mod_pow2_bits_low by lia; done).
  rewrite Hb. set (r := wrapu w z) in *. clearbody r. unfold is_u in Hr.
  destruct (Z.testbit r (w - 1)) eqn:Et.
  - assert (2 ^ (w - 1) <= r).
    { destruct (Z.le_gt_cases (2 ^ (w - 1)) r); [done|].
      rewrite (testbit_high (w - 1)) in Et by (unfold is_u; lia). done. }
    unfold wraps. replace (r + 2 ^ (w - 1)) with (r - 2 ^ (w - 1) + 1 * 2 ^ w) by lia.
    rewrite Z.mod_add, Z.mod_small by lia. lia.
  - assert (r < 2 ^ (w - 1)).
    { destruct (Z.le_gt_cases (2 ^ (w - 1)) r); [|done].
      apply Z.testbit_false in Et; [|lia].
      assert (Hq : r / 2 ^ (w - 1) = 1) by (symmetry; apply Z.div_unique with (r - 2 ^ (w - 1)); lia).
      rewrite Hq in Et. done. }
    rewrite wraps_id; [lia|done|unfold is_s; lia].
Qed.

Lemma wraps_testbit w z i :
  0 < w -> 0 <= i -> Z.testbit (wraps w z) i = Z.testbit z (Z.min i (w - 1)).
Proof.
  intros Hw Hi. rewrite wraps_sign, <- lor_shiftl_add by (try apply wrapu_range; lia).
  rewrite Z.lor_spec, Z.shiftl_spec by done. unfold wrapu.
  destruct (Z.ltb_spec i w).
  - rewrite Z.mod_pow2_bits_low, (Z.testbit_neg_r _ (i - w)), orb_false_r by lia. f_equal. lia.
  - rewrite Z.mod_pow2_bits_high by lia. replace (Z.min i (w - 1)) with (w - 1) by lia.
    destruct (Z.testbit z (w - 1)); [apply Z.bits_m1; lia | apply Z.bits_0].
Qed.

Lemma wraps_lor w a b : 0 < w -> wraps w (Z.lor a b) = Z.lor (wraps w a) (wraps w b).
Proof.
  intros. apply Z.bits_inj'. intros. by rewrite Z.lor_spec, !wraps_testbit, Z.lor_spec.
Qed.

(** Facts about bytes by enumeration. *)
Lemma byte_forall (P : Z -> bool) :
  forallb P (seqZ 0 256) = true -> forall b, 0 <= b < 256 -> P b = true.
Proof.
  intros HP b Hb. rewrite forallb_forall in HP. apply HP.
  apply list_elem_of_In, elem_of_seqZ. lia.
Qed.

(** Push [Z.testbit] through the bit operations; the side conditions are
    linear. *)
Ltac bits :=
  repeat first
    [ rewrite Z.lor_spec | rewrite Z.land_spec | rewrite Z.lxor_spec
    | rewrite wraps_testbit by lia
    | rewrite Z.shiftr_spec by lia | rewrite Z.shiftl_spec by lia
    | rewrite Z.testbit_ones_nonneg by lia ].

(** The shift pair [(z << (n - k)) >> (n - k)] on an [n]-bit signed integer
    sign-extends the low [k] bits. *)
Definition sext (n k z : Z) : Z := Z.shiftr (wraps n (Z.shiftl z (n - k))) (n - k).

Lemma sext_wraps n k z : 0 < k <= n -> sext n k z = wraps k z.
Proof.
  intros Hk. unfold sext. apply Z.bits_inj'. intros i Hi. bits. f_equal. lia.
Qed.

Lemma is_s_lor w a b : 0 < w -> is_s w a -> is_s w b -> is_s w (Z.lor a b).
Proof.
  intros Hw Ha Hb. rewrite <- (wraps_id w a), <- (wraps_id w b), <- wraps_lor by done.
  by apply wraps_range.
Qed.

(** A [k]-bit mask fits any wider signed type. *)
Lemma is_s_mask w k a : 0 <= k < w -> is_s w (Z.land a (Z.ones k)).
Proof.
  intros Hk. rewrite Z.land_ones by lia. unfold is_s.
  pose proof (Z.mod_pos_bound a (2 ^ k) ltac:(apply Z.pow_pos_nonneg; lia)).
  assert (2 ^ k <= 2 ^ (w - 1)) by (apply Z.pow_le_mono_r; lia). lia.
Qed.

Lemma is_s_weaken k w a : 0 < k <= w -> is_s k a -> is_s w a.
Proof.
  unfold is_s. intros Hk Ha.
  assert (2 ^ (k - 1) <= 2 ^ (w - 1)) by (apply Z.pow_le_mono_r; lia). lia.
Qed.

(** ** Lists *)

Lemma list_filter_fmap {A B} (f : A -> B) (P : B -> Prop) `{!forall x, Decision (P x)} (l : list A) :
  filter P (f <$> l) = f <$> filter (fun x => P (f x)) l.
Proof.
  induction l as [|x l IH]; [done|]. rewrite fmap_cons, !filter_cons, IH. by case_decide.
Qed.

Lemma NoDup_fmap_inj {A B} (f : A -> B) (l : list A) x y :
  NoDup (f <$> l) -> x ∈ l -> y ∈ l -> f x = f y -> x = y.
Proof.
  intros Hn [i Hi]%list_elem_of_lookup [j Hj]%list_elem_of_lookup Hf.
  assert (i = j) as ->; [|congruence].
  apply (NoDup_lookup (f <$> l) i j (f x) Hn); rewrite list_lookup_fmap; [by rewrite Hi|].
  by rewrite Hj, Hf.
Qed.

Lemma list_filter_ext {A} (P Q : A -> Prop) `{!forall x, Decision (P x)} `{!forall x, Decision (Q x)} (l : list A) :
  (forall x, x ∈ l -> P x <-> Q x) -> filter P l = filter Q l.
Proof.
  induction l as [|x l IH]; intros HP; [done|]. rewrite !filter_cons, IH by (intros; apply HP; by right).
  pose proof (HP x ltac:(by left)). repeat case_decide; naive_solver.
Qed.

Lemma list_filter_none {A} (P : A -> Prop) `{!forall x, Decision (P x)} (l : list A) :
  (forall x, x ∈ l -> ~ P x) -> filter P l = [].
Proof.
  induction l as [|x l IH]; intros HP; [done|]. rewrite filter_cons, decide_False by (apply HP; by left).
  apply IH. intros; apply HP; by right.
Qed.

Lemma list_filter_every {A} (P : A -> Prop) `{!forall x, Decision (P x)} (l : list A) :
  (forall x, x ∈ l -> P x) -> filter P l = l.
Proof.
  induction l as [|x l IH]; intros HP; [done|]. rewrite filter_cons, decide_True by (apply HP; by left).
  f_equal. apply IH. intros; apply HP; by right.
Qed.

(** [Vec::swap_remove]: the last element takes the removed one's place. *)
Definition swap_remove {A} (i : nat) (l : list A) : list A :=
  match last l with
  | Some e => take (length l - 1) (<[i := e]> l)
  | None => l
  end.

Lemma swap_remove_perm {A} i (l : list A) e : l !! i = Some e -> l ≡ₚ e :: swap_remove i l.
Proof.
  intros Hi. pose proof (lookup_lt_Some _ _ _ Hi) as Hlt. unfold swap_remove.
  destruct (last l) as [z|] eqn:El; [|apply last_None in El; subst l; simpl in Hlt; lia].
  apply last_Some in El as [l' ->]. rewrite length_app in *. simpl in *.
  replace (length l' + 1 - 1)%nat with (length l') by lia.
  destruct (decide (i < length l')%nat) as [Hl|Hl].
  - rewrite insert_app_l, take_app_le, take_ge by (rewrite ?length_insert; lia).
    rewrite lookup_app_l in Hi by done. rewrite <- (take_drop_middle l' i e Hi) at 1.
    rewrite insert_take_drop by done.
    rewrite <- app_assoc. simpl. rewrite <- !Permutation_middle. f_equiv.
    rewrite app_assoc, Permutation_app_comm. done.
  - assert (i = length l') as -> by lia. rewrite list_lookup_middle in Hi by done. injection Hi as ->.
    rewrite insert_app_r_alt, Nat.sub_diag, take_app_length by done. simpl. by rewrite Permutation_app_comm.
Qed.
