(* ===== verification/Floats.v ===== *)
(** * Floating-point numbers

    An [f32] or [f64] is a [spec_float] of its precision, rounded to nearest,
    ties to even.  [f64::ln] has no specified precision: the code that calls
    it takes it as an argument.

    [mul_pow2_exact]: an integer that fits the precision, scaled by a negative
    power of two, is exact. *)

From Stdlib Require Import Lia ZArith SpecFloat.
From stdpp Require Import prelude.
From S2P Require Import Prelude.

Definition f32 := spec_float.
Definition f64 := spec_float.

(** [as f32], [as f64] of an integer *)
Definition f32_of_int (z : Z) : f32 := binary_normalize 24 128 z 0 false.
Definition f64_of_int (z : Z) : f64 := binary_normalize 53 1024 z 0 false.

Definition f32_div : f32 -> f32 -> f32 := SFdiv 24 128.
Definition f32_add : f32 -> f32 -> f32 := SFadd 24 128.
Definition f32_sub : f32 -> f32 -> f32 := SFsub 24 128.
Definition f32_mul : f32 -> f32 -> f32 := SFmul 24 128.
Definition f64_add : f64 -> f64 -> f64 := SFadd 53 1024.
Definition f64_sub : f64 -> f64 -> f64 := SFsub 53 1024.
Definition f64_mul : f64 -> f64 -> f64 := SFmul 53 1024.
Definition f64_div : f64 -> f64 -> f64 := SFdiv 53 1024.
Definition f64_sqrt : f64 -> f64 := SFsqrt 53 1024.

(** The decimal literal [n / d], rounded *)
Definition f32_literal (n d : positive) : f32 := f32_div (S754_finite false n 0) (S754_finite false d 0).

Definition is_nan (x : spec_float) : bool :=
  match x with S754_nan => true | _ => false end.

(** [f64::from(x : f32)] *)
Definition f64_from_f32 (x : f32) : f64 :=
  match x with
  | S754_finite s m e => binary_round 53 1024 s m e
  | _ => x
  end.

(** [floor() as i32]: the cast saturates, and takes NaN to 0. *)
Definition f32_floor_i32 (x : f32) : Z :=
  match x with
  | S754_zero _ | S754_nan => 0
  | S754_infinity s => if s then i32_min else i32_max
  | S754_finite s m e =>
      let n := if s then Zneg m else Zpos m in
      Z.max i32_min (Z.min i32_max (if 0 <=? e then n * 2 ^ e else n / 2 ^ (- e)))
  end.

(** ** Exact products *)

Lemma digits2_log2 p : Zpos (digits2_pos p) = Z.log2 (Zpos p) + 1.
Proof.
  induction p as [p IH|p IH|]; [| |done]; simpl digits2_pos; rewrite Pos2Z.inj_succ, IH.
  - rewrite Pos2Z.inj_xI, Z.log2_succ_double by done. lia.
  - rewrite Pos2Z.inj_xO, Z.log2_double by done. lia.
Qed.

Lemma iter_xO p d : Zpos (Pos.iter xO p d) = Zpos p * 2 ^ Zpos d.
Proof.
  revert d. apply Pos.peano_ind; [change (Zpos p~0 = Zpos p * 2); lia|]. intros d IH.
  rewrite Pos.iter_succ, Pos2Z.inj_xO, IH, Pos2Z.inj_succ, Z.pow_succ_r by lia. lia.
Qed.

Lemma iter_pos_succ {A} (f : A -> A) p x : SpecFloat.iter_pos f (Pos.succ p) x = f (SpecFloat.iter_pos f p x).
Proof.
  assert (Hc : forall q y, SpecFloat.iter_pos f q (f y) = f (SpecFloat.iter_pos f q y)).
  { induction q as [q IH|q IH|]; intros y; simpl; by rewrite ?IH. }
  revert x. induction p as [p IH|p IH|]; intros x; simpl.
  - by rewrite !IH, !Hc.
  - by rewrite !Hc.
  - done.
Qed.

Lemma shr_exact q d : SpecFloat.iter_pos shr_1 d (Build_shr_record (Zpos q * 2 ^ Zpos d) false false) =
  Build_shr_record (Zpos q) false false.
Proof.
  revert q. induction d as [|d IH] using Pos.peano_ind; intros q.
  - change (2 ^ 1) with 2. rewrite Z.mul_comm. done.
  - rewrite iter_pos_succ, Pos2Z.inj_succ, Z.pow_succ_r by lia.
    replace (Zpos q * (2 * 2 ^ Zpos d)) with (Zpos q~0 * 2 ^ Zpos d) by (rewrite Pos2Z.inj_xO; lia).
    by rewrite IH.
Qed.

Section Format.
Context (prec emax : Z) (Hprec : 1 < prec) (Hemax : prec < emax).

Lemma round_aux_exact s q d e :
  0 <= d -> Z.log2 (Zpos q) + 1 = prec -> emin prec emax <= e + d -> e + d <= emax - prec ->
  binary_round_aux prec emax s (Zpos q * 2 ^ d) e loc_Exact = S754_finite s q (e + d).
Proof.
  intros Hd Hq Hmin Hmax. unfold binary_round_aux, shr_fexp.
  assert (Hdig : forall p, Zdigits2 (Zpos p) = Z.log2 (Zpos p) + 1) by (intros; apply digits2_log2).
  assert (exists m, Zpos q * 2 ^ d = Zpos m) as [m Hm].
  { assert (0 < Zpos q * 2 ^ d) by (pose proof (Z.pow_pos_nonneg 2 d); nia).
    destruct (Zpos q * 2 ^ d); [lia|eauto|lia]. }
  assert (Hl : Z.log2 (Zpos m) = Z.log2 (Zpos q) + d) by (rewrite <- Hm, Z.log2_mul_pow2; lia).
  rewrite Hm, Hdig. unfold fexp at 1.
  replace (Z.max _ _ - e) with d by lia.
  rewrite <- Hm. replace (shr _ e d) with (Build_shr_record (Zpos q) false false, e + d).
  2: { destruct d as [|d|]; [|by simpl; rewrite shr_exact|lia]. simpl. by rewrite Z.add_0_r, Z.mul_1_r. }
  cbn [loc_of_shr_record round_nearest_even shr_m]. rewrite Hdig. unfold fexp.
  replace (Z.max _ _ - (e + d)) with 0 by lia. simpl. by zbool.
Qed.

Lemma normalize_exact p e :
  Z.log2 (Zpos p) < prec -> emin prec emax <= Z.log2 (Zpos p) + 1 + e - prec ->
  Z.log2 (Zpos p) + 1 + e <= emax -> exists q,
  binary_normalize prec emax (Zpos p) e false = S754_finite false q (Z.log2 (Zpos p) + 1 + e - prec) /\
  Z.log2 (Zpos q) + 1 = prec /\ Zpos q = Zpos p * 2 ^ (prec - 1 - Z.log2 (Zpos p)).
Proof.
  intros Hp Hmin Hmax. unfold binary_normalize, binary_round, shl_align. rewrite digits2_log2.
  set (l := Z.log2 (Zpos p)) in *. unfold fexp.
  replace (Z.max _ _) with (l + 1 + e - prec) by lia.
  destruct (l + 1 + e - prec - e) as [|d|d] eqn:Ed; [|lia|].
  - exists p. assert (l + 1 = prec) as Hl by lia. split; [|split; [done|]].
    + replace (Zpos p) with (Zpos p * 2 ^ 0) by lia. rewrite round_aux_exact by lia. f_equal. lia.
    + replace (prec - 1 - l) with 0 by lia. lia.
  - pose proof (iter_xO p d) as Hi. remember (Pos.iter xO p d) as q. exists q.
    assert (Hq : Z.log2 (Zpos q) + 1 = prec).
    { rewrite Hi, Z.log2_mul_pow2 by lia. fold l. lia. }
    split; [|split; [done|]].
    + replace (Zpos q) with (Zpos q * 2 ^ 0) by lia. rewrite round_aux_exact by lia. f_equal. lia.
    + rewrite Hi. do 2 f_equal. lia.
Qed.

(** [n * 2^-k], for an [n] within the precision, is exact. *)
Lemma mul_pow2_exact n k :
  0 <= n < 2 ^ prec -> 0 <= k -> emin prec emax <= 1 - k - prec ->
  SFmul prec emax (binary_normalize prec emax n 0 false) (binary_normalize prec emax 1 (- k) false) =
  binary_normalize prec emax n (- k) false.
Proof.
  intros Hn Hk Hmin. destruct n as [|p|]; [| |lia].
  - destruct (normalize_exact 1 (- k)) as (q & -> & _); change (Z.log2 1) with 0; try lia. done.
  - assert (Hl : Z.log2 (Zpos p) < prec) by (apply Z.log2_lt_pow2; lia).
    pose proof (Z.log2_nonneg (Zpos p)).
    destruct (normalize_exact p 0) as (q & -> & Hq & Hqp); [lia..|].
    destruct (normalize_exact 1 (- k)) as (t & -> & Ht & Htv); change (Z.log2 1) with 0 in *; [lia..|].
    destruct (normalize_exact p (- k)) as (q' & -> & Hq' & Hqp'); [lia..|].
    assert (q' = q) as -> by congruence. cbn [SFmul xorb].
    replace (Zpos (q * t)) with (Zpos q * 2 ^ (prec - 1)) by (rewrite Pos2Z.inj_mul, Htv; f_equal; rewrite Z.mul_1_l; f_equal; lia).
    rewrite round_aux_exact by lia. f_equal. lia.
Qed.
End Format.
