(* ===== verification/Io.v ===== *)
(** * Byte cursors, writers and the fixed-width wire types

    Models [steel-utils/src/serial/]: the traits [ReadFrom], [WriteTo],
    [PrefixedRead] and [PrefixedWrite], and their implementations for the
    fixed-width integers, [bool], [Option], arrays, pairs, vectors and UUIDs.
    [std::io::Cursor<&[u8]>] is a buffer with a position; a reader threads it
    and keeps the position it reached when it fails. Writing to a [Vec<u8>]
    or a [FrontVec] cannot fail, so a writer is the list of bytes it appends.

    [Wire] is the interface between a wire type and its clients: the pair of
    operations, with the round-trip law [WireOk] that the framing, chat and
    registry codecs rely on. *)

From stdpp Require Import prelude list strings.
From S2P Require Import Prelude.

(** ** Errors and cursors *)

Inductive ErrorKind := UnexpectedEof | InvalidData | InvalidInput | OtherKind.

Record io_error := mk_error { error_kind : ErrorKind; error_message : string }.

Definition error_other (msg : string) : io_error := mk_error OtherKind msg.

Record Cursor := mk_cursor { cur_data : list Z; cur_pos : nat }.

Definition Reader (A : Type) : Type := Cursor -> outcome io_error A * Cursor.

Definition rret {A} (a : A) : Reader A := fun c => (Ok a, c).
Definition rfail {A} (e : io_error) : Reader A := fun c => (Err e, c).
Definition rbind {A B} (m : Reader A) (k : A -> Reader B) : Reader B := fun c =>
  match m c with
  | (Ok a, c') => k a c'
  | (Err e, c') => (Err e, c')
  | (Panic, c') => (Panic, c')
  end.

Declare Scope reader_scope.
Delimit Scope reader_scope with reader.
Notation "x <-- m ;; k" := (rbind m (fun x => k))
  (at level 100, m at next level, right associativity) : reader_scope.
#[global] Open Scope reader_scope.

(** [Cursor::read_exact]: the position is moved to the end on a short read. *)
Definition eof_error : io_error := mk_error UnexpectedEof "failed to fill whole buffer".

Definition read_exact (n : nat) : Reader (list Z) := fun c =>
  let rest := drop (cur_pos c) (cur_data c) in
  if decide (n <= length rest)%nat
  then (Ok (take n rest), mk_cursor (cur_data c) (cur_pos c + n))
  else (Err eof_error, mk_cursor (cur_data c) (length (cur_data c))).

(** ** Fixed-width integers *)

Fixpoint to_le_bytes (n : nat) (z : Z) : list Z :=
  match n with
  | O => []
  | S n' => z mod 256 :: to_le_bytes n' (z / 256)
  end.

Fixpoint from_le_bytes (bs : list Z) : Z :=
  match bs with
  | [] => 0
  | b :: bs' => b + 256 * from_le_bytes bs'
  end.

Definition to_be_bytes (n : nat) (z : Z) : list Z := reverse (to_le_bytes n z).
Definition from_be_bytes (bs : list Z) : Z := from_le_bytes (reverse bs).

Definition read_unsigned (n : nat) : Reader Z :=
  buf <-- read_exact n ;; rret (from_be_bytes buf).
Definition read_signed (n : nat) : Reader Z :=
  buf <-- read_exact n ;; rret (wraps (8 * Z.of_nat n) (from_be_bytes buf)).

Definition read_u8 : Reader Z := read_unsigned 1.
Definition read_u16 : Reader Z := read_unsigned 2.
Definition read_u32 : Reader Z := read_unsigned 4.
Definition read_u64 : Reader Z := read_unsigned 8.
Definition read_i8 : Reader Z := read_signed 1.
Definition read_i16 : Reader Z := read_signed 2.
Definition read_i32 : Reader Z := read_signed 4.
Definition read_i64 : Reader Z := read_signed 8.

Definition Writer (A : Type) : Type := A -> outcome io_error (list Z).

Definition write_bytes (n : nat) : Writer Z := fun z => Ok (to_be_bytes n z).

Definition write_u8 : Writer Z := write_bytes 1.
Definition write_u16 : Writer Z := write_bytes 2.
Definition write_u32 : Writer Z := write_bytes 4.
Definition write_u64 : Writer Z := write_bytes 8.
Definition write_i8 : Writer Z := write_bytes 1.
Definition write_i16 : Writer Z := write_bytes 2.
Definition write_i32 : Writer Z := write_bytes 4.
Definition write_i64 : Writer Z := write_bytes 8.

Definition read_bool : Reader bool := byte <-- read_u8 ;; rret (negb (byte =? 0)).
Definition write_bool : Writer bool := fun b => write_u8 (if b then 1 else 0).

(** Two writes to the same writer, the first error winning. *)
Definition wseq (a b : outcome io_error (list Z)) : outcome io_error (list Z) :=
  let? x := a in let? y := b in Ok (x ++ y).

(** ** Composite types *)

Definition read_option {A} (r : Reader A) : Reader (option A) :=
  b <-- read_bool ;;
  if (b : bool) then (a <-- r ;; rret (Some a)) else rret None.

Definition write_option {A} (w : Writer A) : Writer (option A) := fun o =>
  match o with
  | Some a => wseq (write_bool true) (w a)
  | None => write_bool false
  end.

(** [array::try_from_fn] and the item loop of [Vec]: [n] reads in order. *)
Fixpoint read_n {A} (r : Reader A) (n : nat) : Reader (list A) :=
  match n with
  | O => rret []
  | S n' => a <-- r ;; (l <-- read_n r n' ;; rret (a :: l))
  end.

Fixpoint write_slice {A} (w : Writer A) (l : list A) : outcome io_error (list Z) :=
  match l with
  | [] => Ok []
  | a :: l' => wseq (w a) (write_slice w l')
  end.

Definition write_pair {A B} (w : Writer A) (v : Writer B) : Writer (A * B) := fun p =>
  wseq (w p.1) (v p.2).

(** A UUID travels as its two big-endian 64-bit halves. *)
Record Uuid := mk_uuid { uuid_most : Z; uuid_least : Z }.
Definition read_uuid : Reader Uuid :=
  m <-- read_u64 ;; (l <-- read_u64 ;; rret (mk_uuid m l)).
Definition write_uuid : Writer Uuid := fun u =>
  wseq (write_u64 (uuid_most u)) (write_u64 (uuid_least u)).

(** ** Length prefixes

    The type parameter [P] of the prefixed codecs: its reader and writer and
    its conversions with [usize]. *)

Record Prefix := {
  prefix_read : Reader Z;
  prefix_write : Writer Z;
  prefix_to_usize : Z -> option Z;
  prefix_of_usize : Z -> option Z
}.

Definition DEFAULT_BOUND : Z := 32767.

Definition prefix_len (P : Prefix) (bound : Z) : Reader nat :=
  p <-- prefix_read P ;;
  match prefix_to_usize P p with
  | None => rfail (error_other "Invalid Prefix")
  | Some len => if bound <? len then rfail (error_other "To long") else rret (Z.to_nat len)
  end.

Definition read_prefixed_vec {A} (P : Prefix) (r : Reader A) (bound : Z) : Reader (list A) :=
  len <-- prefix_len P bound ;; read_n r len.

Definition prefix_put (P : Prefix) (bound len : Z) : outcome io_error (list Z) :=
  if bound <? len then Err (error_other "Too long")
  else match prefix_of_usize P len with
       | None => Err (error_other "This cant happen")
       | Some p => prefix_write P p
       end.

Definition write_prefixed_slice {A} (P : Prefix) (w : Writer A) (bound : Z) : Writer (list A) :=
  fun l => wseq (prefix_put P bound (Z.of_nat (length l))) (write_slice w l).

Definition read_prefixed_option {A} (r : Reader A) : Reader (option A) := read_option r.
Definition write_prefixed_option {A} (w : Writer A) : Writer (option A) := write_option w.

(** A string is its UTF-8 bytes; [String::from_utf8] validates them
    ([valid_utf8] is the standard library's test). *)
Definition read_prefixed_string (valid_utf8 : list Z -> bool) (P : Prefix) (bound : Z)
    : Reader (list Z) :=
  len <-- prefix_len P bound ;;
  (buf <-- read_exact len ;;
   if valid_utf8 buf then rret buf else rfail (error_other "invalid utf-8")).

Definition write_prefixed_string (P : Prefix) (bound : Z) : Writer (list Z) := fun s =>
  wseq (prefix_put P bound (Z.of_nat (length s))) (Ok s).

(** ** Facts about bytes *)

Definition is_byte (b : Z) : Prop := 0 <= b < 256.

Lemma length_to_le_bytes n z : length (to_le_bytes n z) = n.
Proof. revert z. induction n; intros; simpl; [done|]. by rewrite IHn. Qed.

Lemma to_le_bytes_byte n z : Forall is_byte (to_le_bytes n z).
Proof.
  revert z. induction n; intros; simpl; constructor; [|done].
  apply Z.mod_pos_bound. lia.
Qed.

Lemma from_to_le_bytes n z : from_le_bytes (to_le_bytes n z) = z mod 2 ^ (8 * Z.of_nat n).
Proof.
  revert z. induction n as [|n IH]; intros z; [by rewrite Z.mod_1_r|].
  cbn [to_le_bytes from_le_bytes]. rewrite IH.
  replace (8 * Z.of_nat (S n)) with (8 + 8 * Z.of_nat n) by lia.
  rewrite Z.pow_add_r by lia. change (2 ^ 8) with 256.
  rewrite Z.rem_mul_r; [done | lia | apply Z.pow_pos_nonneg; lia].
Qed.

Lemma to_from_le_bytes bs : Forall is_byte bs -> to_le_bytes (length bs) (from_le_bytes bs) = bs.
Proof.
  induction 1 as [|b bs Hb _ IH]; simpl; [done|]. unfold is_byte in Hb.
  rewrite (Z.mul_comm 256), Z.mod_add, Z.div_add, Z.mod_small, Z.div_small by lia.
  by rewrite Z.add_0_l, IH.
Qed.

Lemma from_le_bytes_range bs : Forall is_byte bs -> is_u (8 * Z.of_nat (length bs)) (from_le_bytes bs).
Proof.
  intros H. rewrite <- (to_from_le_bytes bs H) at 2. rewrite from_to_le_bytes.
  apply wrapu_range. lia.
Qed.

(** ** Decoding a known prefix of the input *)

Definition decodes {A} (r : Reader A) (bs : list Z) (a : A) : Prop :=
  forall pre post,
    r (mk_cursor (pre ++ bs ++ post) (length pre)) =
      (Ok a, mk_cursor (pre ++ bs ++ post) (length pre + length bs)).

Lemma decodes_ret {A} (a : A) : decodes (rret a) [] a.
Proof. intros pre post. unfold rret. simpl. by rewrite Nat.add_0_r. Qed.

Lemma decodes_bind {A B} (r : Reader A) (k : A -> Reader B) b1 b2 a b :
  decodes r b1 a -> decodes (k a) b2 b -> decodes (rbind r k) (b1 ++ b2) b.
Proof.
  intros H1 H2 pre post. unfold rbind.
  specialize (H1 pre (b2 ++ post)). specialize (H2 (pre ++ b1) post).
  rewrite <- !app_assoc, H1. rewrite !length_app in *. rewrite <- !app_assoc in H2.
  rewrite H2. by rewrite Nat.add_assoc.
Qed.

Lemma decodes_bind_ret {A B} (r : Reader A) (f : A -> B) bs a :
  decodes r bs a -> decodes (rbind r (fun x => rret (f x))) bs (f a).
Proof.
  intros H. rewrite <- (app_nil_r bs). eapply decodes_bind; [exact H|]. apply decodes_ret.
Qed.

Lemma decodes_read_exact bs : decodes (read_exact (length bs)) bs bs.
Proof.
  intros pre post. unfold read_exact. simpl. rewrite drop_app_length, length_app.
  rewrite decide_True by lia. by rewrite take_app_length.
Qed.

Lemma length_to_be_bytes n z : length (to_be_bytes n z) = n.
Proof. unfold to_be_bytes. by rewrite length_reverse, length_to_le_bytes. Qed.

Lemma from_to_be_bytes n z : from_be_bytes (to_be_bytes n z) = z mod 2 ^ (8 * Z.of_nat n).
Proof. unfold from_be_bytes, to_be_bytes. by rewrite reverse_involutive, from_to_le_bytes. Qed.

Lemma decodes_be_bytes n z : decodes (read_exact n) (to_be_bytes n z) (to_be_bytes n z).
Proof. rewrite <- (length_to_be_bytes n z) at 1. apply decodes_read_exact. Qed.

Lemma decodes_unsigned n z :
  is_u (8 * Z.of_nat n) z -> decodes (read_unsigned n) (to_be_bytes n z) z.
Proof.
  intros Hz. rewrite <- (wrapu_id _ _ Hz) at 2. unfold wrapu. rewrite <- from_to_be_bytes.
  apply decodes_bind_ret, decodes_be_bytes.
Qed.

Lemma decodes_signed n z :
  (0 < n)%nat -> is_s (8 * Z.of_nat n) z -> decodes (read_signed n) (to_be_bytes n z) z.
Proof.
  intros Hn Hz. rewrite <- (wraps_id (8 * Z.of_nat n) z ltac:(lia) Hz) at 2.
  rewrite <- wraps_wrapu by lia. unfold wrapu. rewrite <- from_to_be_bytes.
  apply (decodes_bind_ret _ (fun buf => wraps _ (from_be_bytes buf))), decodes_be_bytes.
Qed.

(** ** The wire interface *)

Record Wire (A : Type) := mk_wire { wire_write : Writer A; wire_read : Reader A }.
Arguments mk_wire {A}.
Arguments wire_write {A}.
Arguments wire_read {A}.

Class WireOk {A} (w : Wire A) (dom : A -> Prop) : Prop :=
  wire_ok : forall a, dom a -> exists bs, wire_write w a = Ok bs /\ decodes (wire_read w) bs a.

Definition wire_unsigned (n : nat) := mk_wire (write_bytes n) (read_unsigned n).
Definition wire_signed (n : nat) := mk_wire (write_bytes n) (read_signed n).
Definition wire_bool := mk_wire write_bool read_bool.
Definition wire_uuid := mk_wire write_uuid read_uuid.
Definition wire_option {A} (w : Wire A) :=
  mk_wire (write_option (wire_write w)) (read_option (wire_read w)).

#[export] Instance wire_unsigned_ok n : WireOk (wire_unsigned n) (is_u (8 * Z.of_nat n)).
Proof. intros z Hz. eexists. split; [done|]. by apply decodes_unsigned. Qed.

#[export] Instance wire_signed_ok n : WireOk (wire_signed (S n)) (is_s (8 * Z.of_nat (S n))).
Proof. intros z Hz. eexists. split; [done|]. apply decodes_signed; [lia|done]. Qed.

#[export] Instance wire_bool_ok : WireOk wire_bool (fun _ => True).
Proof.
  intros b _. eexists. split; [done|].
  set (z := if b then 1 else 0).
  assert (Hb : b = negb (z =? 0)) by (by destruct b). rewrite Hb.
  apply (decodes_bind_ret read_u8 (fun byte => negb (byte =? 0))), decodes_unsigned.
  unfold is_u, z. destruct b; simpl; lia.
Qed.

#[export] Instance wire_option_ok {A} (w : Wire A) dom `{!WireOk w dom} :
  WireOk (wire_option w) (fun o => match o with Some a => dom a | None => True end).
Proof.
  intros [a|] Ha.
  - destruct (wire_ok (w := w) a Ha) as (bs & Hw & Hr).
    destruct (wire_ok (w := wire_bool) true I) as (tb & Hwt & Hrt).
    cbn [wire_bool wire_write wire_read] in Hwt, Hrt.
    exists (tb ++ bs). cbn [wire_option wire_write wire_read write_option].
    unfold wseq. rewrite Hwt, Hw. split; [done|].
    eapply decodes_bind; [exact Hrt|]. simpl. by apply decodes_bind_ret.
  - destruct (wire_ok (w := wire_bool) false I) as (tb & Hwt & Hrt).
    cbn [wire_bool wire_write wire_read] in Hwt, Hrt.
    exists tb. split; [exact Hwt|]. rewrite <- (app_nil_r tb).
    eapply decodes_bind; [exact Hrt|]. apply decodes_ret.
Qed.

#[export] Instance wire_uuid_ok :
  WireOk wire_uuid (fun u => is_u 64 (uuid_most u) /\ is_u 64 (uuid_least u)).
Proof.
  intros [m l] [Hm Hl]. eexists. split; [done|].
  eapply decodes_bind; [by apply (decodes_unsigned 8)|].
  apply (decodes_bind_ret read_u64 (mk_uuid m)). by apply (decodes_unsigned 8).
Qed.

(** ** Sequences *)

Lemma wire_slice_ok {A} (w : Wire A) dom `{!WireOk w dom} l :
  Forall dom l ->
  exists bs, write_slice (wire_write w) l = Ok bs /\ decodes (read_n (wire_read w) (length l)) bs l.
Proof.
  induction 1 as [|a l Ha _ (bs & Hw & Hr)]; simpl.
  - exists []. split; [done|]. apply decodes_ret.
  - destruct (wire_ok (w := w) a Ha) as (b1 & Hw1 & Hr1).
    exists (b1 ++ bs). unfold wseq. rewrite Hw1, Hw. split; [done|].
    eapply decodes_bind; [exact Hr1|]. by apply (decodes_bind_ret _ (cons a)).
Qed.

(** What a prefix type promises for lengths up to [bound]. *)
Class PrefixOk (P : Prefix) (bound : Z) : Prop :=
  prefix_ok : forall len, 0 <= len <= bound ->
    exists p bs, prefix_of_usize P len = Some p /\ prefix_write P p = Ok bs /\
      decodes (prefix_read P) bs p /\ prefix_to_usize P p = Some len.

Lemma prefix_len_ok P bound `{!PrefixOk P bound} n :
  Z.of_nat n <= bound ->
  exists bs, prefix_put P bound (Z.of_nat n) = Ok bs /\ decodes (prefix_len P bound) bs n.
Proof.
  intros Hn. destruct (prefix_ok (P := P) (bound := bound) (Z.of_nat n)) as (p & bs & Hp & Hw & Hr & Hu); [lia|].
  exists bs. unfold prefix_put, prefix_len.
  assert (Hb : (bound <? Z.of_nat n) = false) by (apply Z.ltb_ge; lia).
  rewrite Hb, Hp. split; [done|]. rewrite <- (app_nil_r bs).
  eapply decodes_bind; [exact Hr|]. rewrite Hu, Hb, Nat2Z.id. apply decodes_ret.
Qed.

Lemma prefixed_vec_ok {A} (w : Wire A) dom `{!WireOk w dom} P bound `{!PrefixOk P bound} l :
  Forall dom l -> Z.of_nat (length l) <= bound ->
  exists bs, write_prefixed_slice P (wire_write w) bound l = Ok bs /\
    decodes (read_prefixed_vec P (wire_read w) bound) bs l.
Proof.
  intros Hl Hn. destruct (wire_slice_ok w dom l Hl) as (b2 & Hw2 & Hr2).
  destruct (prefix_len_ok P bound (length l) Hn) as (b1 & Hw1 & Hr1).
  exists (b1 ++ b2). unfold write_prefixed_slice, wseq. rewrite Hw1, Hw2. split; [done|].
  by eapply decodes_bind.
Qed.

Lemma prefixed_string_ok valid_utf8 P bound `{!PrefixOk P bound} s :
  valid_utf8 s = true -> Z.of_nat (length s) <= bound ->
  exists bs, write_prefixed_string P bound s = Ok bs /\
    decodes (read_prefixed_string valid_utf8 P bound) bs s.
Proof.
  intros Hv Hn. destruct (prefix_len_ok P bound (length s) Hn) as (b1 & Hw1 & Hr1).
  exists (b1 ++ s). unfold write_prefixed_string, wseq. rewrite Hw1. split; [done|].
  eapply decodes_bind; [exact Hr1|]. rewrite <- (app_nil_r s) at 2.
  eapply decodes_bind; [apply decodes_read_exact|]. rewrite Hv. apply decodes_ret.
Qed.

(** A string or vector over the bound is refused by the writer, and a prefix
    over the bound is refused by the reader before any item is read. *)
Lemma write_prefixed_too_long {A} (w : Writer A) P bound l :
  bound < Z.of_nat (length l) ->
  write_prefixed_slice P w bound l = Err (error_other "Too long").
Proof.
  intros H. unfold write_prefixed_slice, prefix_put, wseq.
  by rewrite (proj2 (Z.ltb_lt _ _) H).
Qed.
