(* ===== verification/VarInt.v ===== *)
(** * Variable-length integers and the front-reserving buffer

    Models [steel-utils/src/codec/variable_integer.rs] ([VarInt], [VarLong],
    [VarUint]) and [steel-utils/src/front_vec.rs] ([FrontVec]).

    The writers of [VarInt] and [VarLong] spread the payload bits over byte
    lanes with [pack_payload] and or the continuation bits in one word; the
    theorems show that they produce exactly the bytes of the textbook
    base-128 encoding [leb], which is also what the loop of [VarUint] writes,
    that the size functions give the length of those bytes, and that every
    reader inverts its writer. *)

From stdpp Require Import prelude list strings.
From S2P Require Import Prelude Io.

(** ** [FrontVec] *)

Module FrontVec.

Record t := mk { buf : list Z; front_space : nat }.

Definition capacity (reserve : nat) : t := mk (replicate reserve 0) reserve.
Definition new (reserve : nat) : t := capacity reserve.

(** [self.buf.len() - self.front_space] would panic below zero. *)
Definition len (v : t) : nat := length (buf v) - front_space v.
Definition is_empty (v : t) : bool := bool_decide (len v = 0%nat).
Definition push (v : t) (b : Z) : t := mk (buf v ++ [b]) (front_space v).
Definition extend_from_slice (v : t) (bs : list Z) : t := mk (buf v ++ bs) (front_space v).

(** [assert!(front_space >= other.len())], then the copy into
    [buf[new_start..front_space]]. *)
Definition set_in_front {E} (v : t) (bs : list Z) : outcome E t :=
  if decide (length bs <= front_space v)%nat then
    let new_start := (front_space v - length bs)%nat in
    Ok (mk (take new_start (buf v) ++ bs ++ drop (front_space v) (buf v)) new_start)
  else Panic.

Definition as_slice (v : t) : list Z := drop (front_space v) (buf v).

(** The reserved space lies inside the buffer. *)
Definition wf (v : t) : Prop := (front_space v <= length (buf v))%nat.

Lemma capacity_wf n : wf (capacity n).
Proof. unfold wf. simpl. by rewrite length_replicate. Qed.

Lemma as_slice_capacity n : as_slice (capacity n) = [].
Proof. unfold as_slice. simpl. by rewrite drop_ge by (rewrite length_replicate; lia). Qed.

Lemma extend_wf v bs : wf v -> wf (extend_from_slice v bs).
Proof. unfold wf. simpl. rewrite length_app. lia. Qed.

Lemma as_slice_extend v bs : wf v -> as_slice (extend_from_slice v bs) = as_slice v ++ bs.
Proof. intros. unfold as_slice. simpl. by rewrite drop_app_le. Qed.

Lemma len_as_slice v : len v = length (as_slice v).
Proof. unfold len, as_slice. by rewrite length_drop. Qed.

Lemma set_in_front_ok {E} v bs :
  wf v -> (length bs <= front_space v)%nat ->
  exists v', set_in_front (E := E) v bs = Ok v' /\ wf v' /\
    as_slice v' = bs ++ as_slice v /\ front_space v' = (front_space v - length bs)%nat.
Proof.
  intros Hwf Hle. unfold set_in_front. rewrite decide_True by done. eexists. split; [done|].
  unfold wf in *. simpl. rewrite !length_app, length_take, length_drop.
  split; [lia|]. split; [|done]. unfold as_slice. simpl. apply drop_app_length'.
  rewrite length_take. lia.
Qed.

Lemma set_in_front_panic {E} v bs :
  (front_space v < length bs)%nat -> set_in_front (E := E) v bs = Panic.
Proof. intros. unfold set_in_front. by rewrite decide_False by lia. Qed.

End FrontVec.

(** ** Byte lanes *)

Definition pack_payload (value : Z) : Z :=
  Z.lor (Z.lor (Z.lor (Z.lor (Z.lor (Z.lor (Z.lor
    (Z.land value 0x7f)
    (Z.shiftl (Z.land value 0x3f80) 1))
    (Z.shiftl (Z.land value 0x001fc000) 2))
    (Z.shiftl (Z.land value 0x0fe00000) 3))
    (Z.shiftl (Z.land value 0x00000007f0000000) 4))
    (Z.shiftl (Z.land value 0x000003f800000000) 5))
    (Z.shiftl (Z.land value 0x0001fc0000000000) 6))
    (Z.shiftl (Z.land value 0x00fe000000000000) 7).

(** [leading_zeros] of a [w]-bit pattern. *)
Definition leading_zeros (w z : Z) : Z := if z =? 0 then w else w - 1 - Z.log2 z.

Definition div_ceil (a b : Z) : Z := (a + b - 1) / b.

(** ** The shared read loop

    [for i in 0..MAX_SIZE { let byte = u8::read(read)?; ... }], where [wrap]
    is the type of the accumulator. *)
Fixpoint read_loop (wrap : Z -> Z) (byte : Reader Z) (too_long : io_error)
    (iters : nat) (i val : Z) : Reader Z :=
  match iters with
  | O => rfail too_long
  | S iters' =>
      b <-- byte ;;
      let val := Z.lor val (wrap (Z.shiftl (Z.land b 0x7F) (i * 7))) in
      if Z.land b 0x80 =? 0 then rret val
      else read_loop wrap byte too_long iters' (i + 1) val
  end.

Module VarInt.

Definition MAX_SIZE : nat := 5.

(** [val] is an [i32]; [leading_zeros] sees its bit pattern. *)
Definition written_size (val : Z) : Z :=
  if val =? 0 then 1 else (31 - leading_zeros 32 (u32 val)) / 7 + 1.

Definition read : Reader Z := read_loop i32 read_u8 (error_other "VarInt to long") MAX_SIZE 0 0.

(** [read_async]: the byte source's error keeps its kind. *)
Definition read_u8_async : Reader Z := fun c =>
  match read_u8 c with
  | (Err e, c') => (Err (mk_error (error_kind e) "VarInt"), c')
  | r => r
  end.
Definition read_async : Reader Z :=
  read_loop i32 read_u8_async (error_other "VarInt") MAX_SIZE 0 0.

Definition write : Writer Z := fun self =>
  let value := u32 self in
  if value <? 0x80 then Ok [u8 value]
  else if value <? 0x4000 then Ok [Z.lor (u8 value) 0x80; u8 (Z.shiftr value 7)]
  else if value <? 0x200000 then
    Ok [Z.lor (u8 value) 0x80; Z.lor (u8 (Z.shiftr value 7)) 0x80; u8 (Z.shiftr value 14)]
  else
    let packed := pack_payload value in
    if value <? Z.shiftl 1 28
    then Ok (take 4 (to_le_bytes 8 (Z.lor packed 0x00808080)))
    else Ok (take 5 (to_le_bytes 8 (Z.lor packed 0x80808080))).

(** [debug_assert_eq!(varint_size, written_size)], which also keeps the shift
    and the slice [..varint_size] of the first [MAX_SIZE] bytes in range. *)
Definition set_in_front {E} (self : Z) (vec : FrontVec.t) (varint_size : Z) : outcome E FrontVec.t :=
  if negb (varint_size =? written_size self) then Panic
  else
    let continuation := Z.shiftr 0x0080808080808080 ((8 - varint_size) * 8) in
    let bytes := to_le_bytes 8 (Z.lor (pack_payload (u32 self)) continuation) in
    FrontVec.set_in_front vec (take (Z.to_nat varint_size) (take MAX_SIZE bytes)).

(** [From<usize>], [From<VarInt> for usize]. *)
Definition from_usize (z : Z) : Z := i32 z.
Definition to_usize (v : Z) : Z := u64 v.

End VarInt.

Module VarLong.

Definition MAX_SIZE : nat := 10.

Definition read : Reader Z := read_loop i64 read_u8 (error_other "VarLong too long") MAX_SIZE 0 0.

Definition write : Writer Z := fun self =>
  let value := u64 self in
  if value <? 0x80 then Ok [u8 value]
  else if value <=? u32_max then VarInt.write (i32 value)
  else
    let packed := pack_payload value in
    if Z.shiftl 1 56 <=? value then
      let low := to_le_bytes 8 (Z.lor packed 0x8080808080808080) in
      let bytes := low ++ [u8 (Z.shiftr value 56); 1] in
      if 0 <=? self then Ok (take 9 bytes) else Ok bytes
    else
      let size := div_ceil (64 - leading_zeros 64 value) 7 in
      let continuation := Z.shiftr 0x0080808080808080 ((8 - size) * 8) in
      let bytes := to_le_bytes 8 (Z.lor packed continuation) in
      if size =? 5 then Ok (take 5 bytes)
      else if size =? 6 then Ok (take 6 bytes)
      else if size =? 7 then Ok (take 7 bytes)
      else Ok bytes.

End VarLong.

Module VarUint.

Definition MAX_SIZE : nat := 5.

Definition written_size (self : Z) : Z := div_ceil (Z.max (32 - leading_zeros 32 self) 1) 7.

(** The [loop] of [VarUint::write]; [None] when the fuel runs out before the
    [break] ([write_total] shows that [MAX_SIZE] iterations are enough). *)
Fixpoint write_loop (fuel : nat) (val : Z) : option (list Z) :=
  match fuel with
  | O => None
  | S fuel' =>
      let byte := u8 (Z.land val 0x7F) in
      let val := Z.shiftr val 7 in
      let byte := if val =? 0 then byte else Z.lor byte 0x80 in
      if val =? 0 then Some [byte]
      else match write_loop fuel' val with
           | Some bs => Some (byte :: bs)
           | None => None
           end
  end.

Definition write (self : Z) : option (list Z) := write_loop MAX_SIZE self.

Definition read : Reader Z := read_loop u32 read_u8 (error_other "Malformed VarUint") MAX_SIZE 0 0.

End VarUint.

(** [VarInt] as the length prefix of strings and vectors: both conversions
    with [usize] are infallible casts. *)
Definition varint_prefix : Prefix := {|
  prefix_read := VarInt.read;
  prefix_write := VarInt.write;
  prefix_to_usize := fun v => Some (VarInt.to_usize v);
  prefix_of_usize := fun n => Some (VarInt.from_usize n)
|}.

(** ** The reference encoding *)

Fixpoint leb (n : nat) (z : Z) : list Z :=
  match n with
  | O => []
  | S n' => if z <? 128 then [z] else (128 + z mod 128) :: leb n' (z / 128)
  end.

(** The value of a base-128 string, continuation bits ignored. *)
Fixpoint payload (bs : list Z) : Z :=
  match bs with
  | [] => 0
  | b :: bs' => Z.lor (Z.land b 127) (Z.shiftl (payload bs') 7)
  end.

(** Only the last byte has a clear continuation bit. *)
Fixpoint terminated (bs : list Z) : bool :=
  match bs with
  | [] => false
  | [b] => Z.land b 128 =? 0
  | b :: bs' => negb (Z.land b 128 =? 0) && terminated bs'
  end.

(** ** Seven-bit digits *)

Lemma digit_facts b : 0 <= b < 128 ->
  Z.land b 128 = 0 /\ Z.land b 127 = b /\ Z.lor b 128 = 128 + b /\
  Z.land (128 + b) 128 = 128 /\ Z.land (128 + b) 127 = b.
Proof.
  intros Hb.
  pose proof (byte_forall (fun b => implb (b <? 128)
    ((Z.land b 128 =? 0) && (Z.land b 127 =? b) && (Z.lor b 128 =? 128 + b) &&
     (Z.land (128 + b) 128 =? 128) && (Z.land (128 + b) 127 =? b)))
    ltac:(by vm_compute) b ltac:(lia)) as H.
  cbv beta in H. rewrite (proj2 (Z.ltb_lt b 128)) in H by lia. cbn [implb] in H.
  rewrite !andb_true_iff, !Z.eqb_eq in H. tauto.
Qed.

Lemma lor_128 b : 0 <= b < 256 -> Z.lor b 128 = 128 + b mod 128.
Proof.
  intros Hb. apply Z.eqb_eq.
  exact (byte_forall (fun b => Z.lor b 128 =? 128 + b mod 128) ltac:(by vm_compute) b Hb).
Qed.

Lemma land_127 z : Z.land z 127 = z mod 128.
Proof. apply (Z.land_ones z 7). lia. Qed.

Lemma mod_digit z : 0 <= z mod 128 < 128.
Proof. apply Z.mod_pos_bound. lia. Qed.

(** Induction step for encodings: the bound of the quotient. *)
Lemma leb_bound_step n z :
  0 <= z < 2 ^ (7 * Z.of_nat (S n)) -> 0 <= z / 128 < 2 ^ (7 * Z.of_nat n).
Proof.
  replace (7 * Z.of_nat (S n)) with (7 + 7 * Z.of_nat n) by lia.
  rewrite Z.pow_add_r by lia. change (2 ^ 7) with 128. intros Hz.
  split; [apply Z.div_pos; lia|]. apply Z.div_lt_upper_bound; lia.
Qed.

Lemma leb_cons n z : 128 <= z -> leb (S n) z = (128 + z mod 128) :: leb n (z / 128).
Proof. intros. cbn [leb]. by rewrite (proj2 (Z.ltb_ge z 128)). Qed.

Lemma leb_last n z : z < 128 -> leb (S n) z = [z].
Proof. intros. cbn [leb]. by rewrite (proj2 (Z.ltb_lt z 128)). Qed.

Lemma leb_nonempty n z : leb (S n) z <> [].
Proof. cbn [leb]. by destruct (z <? 128). Qed.

Lemma leb_bytes n z : 0 <= z -> Forall is_byte (leb n z).
Proof.
  revert z. induction n as [|n IH]; intros z Hz; [constructor|]. cbn [leb].
  destruct (Z.ltb_spec z 128); constructor; try done; unfold is_byte.
  - lia.
  - pose proof (mod_digit z). lia.
  - apply IH, Z.div_pos; lia.
Qed.

Lemma leb_terminated n z :
  0 <= z < 2 ^ (7 * Z.of_nat (S n)) -> terminated (leb (S n) z) = true.
Proof.
  revert z. induction n as [|n IH]; intros z Hz.
  - change (2 ^ (7 * Z.of_nat 1)) with 128 in Hz. rewrite leb_last by lia.
    cbn [terminated]. by destruct (digit_facts z Hz) as [-> _].
  - destruct (Z.lt_ge_cases z 128).
    { rewrite leb_last by done. cbn [terminated].
      by destruct (digit_facts z ltac:(lia)) as [-> _]. }
    rewrite leb_cons by done. pose proof (IH (z / 128) (leb_bound_step _ _ Hz)) as IHz.
    destruct (leb (S n) (z / 128)) as [|b bs] eqn:E; [by apply leb_nonempty in E|].
    cbn [terminated] in *. destruct (digit_facts (z mod 128) (mod_digit z)) as (_ & _ & _ & -> & _).
    by rewrite IHz.
Qed.

Lemma leb_payload n z : 0 <= z < 2 ^ (7 * Z.of_nat n) -> payload (leb n z) = z.
Proof.
  revert z. induction n as [|n IH]; intros z Hz.
  { change (2 ^ (7 * Z.of_nat 0)) with 1 in Hz. simpl. lia. }
  destruct (Z.lt_ge_cases z 128).
  - rewrite leb_last by done. cbn [payload]. destruct (digit_facts z ltac:(lia)) as (_ & -> & _).
    by rewrite Z.shiftl_0_l, Z.lor_0_r.
  - rewrite leb_cons by done. cbn [payload]. rewrite (IH (z / 128)) by by apply leb_bound_step.
    destruct (digit_facts (z mod 128) (mod_digit z)) as (_ & _ & _ & _ & ->).
    rewrite lor_shiftl_add by (done || apply (mod_digit z)). change (2 ^ 7) with 128.
    pose proof (Z.div_mod z 128). lia.
Qed.

(** ** Readers *)

Lemma decodes_byte b : is_byte b -> decodes read_u8 [b] b.
Proof.
  intros Hb. assert (H : to_be_bytes 1 b = [b]) by (cbn; by rewrite Z.mod_small).
  rewrite <- H. by apply (decodes_unsigned 1).
Qed.

Section ReadLoop.
Context (wrap : Z -> Z) (too_long : io_error).
Context (wrap_lor : forall a b, wrap (Z.lor a b) = Z.lor (wrap a) (wrap b)).
Context (wrap_0 : wrap 0 = 0).
Context (byte : Reader Z) (byte_ok : forall b, is_byte b -> decodes byte [b] b).

(** What the loop returns on a terminated string that fits its bound. *)
Lemma read_loop_decodes iters i val bs :
  0 <= i -> Forall is_byte bs -> terminated bs = true -> (length bs <= iters)%nat ->
  decodes (read_loop wrap byte too_long iters i val) bs
    (Z.lor val (wrap (Z.shiftl (payload bs) (i * 7)))).
Proof.
  revert iters i val. induction bs as [|b bs IH]; intros iters i val Hi Hbs Ht Hlen; [done|].
  destruct iters as [|iters]; [simpl in Hlen; lia|]. inversion_clear Hbs as [|? ? Hb Hbs'].
  assert (Hpay : Z.lor val (wrap (Z.shiftl (payload (b :: bs)) (i * 7))) =
    Z.lor (Z.lor val (wrap (Z.shiftl (Z.land b 127) (i * 7))))
      (wrap (Z.shiftl (payload bs) ((i + 1) * 7)))).
  { cbn [payload]. rewrite Z.shiftl_lor, Z.shiftl_shiftl, wrap_lor, Z.lor_assoc by lia.
    do 3 f_equal. lia. }
  rewrite Hpay. cbn [read_loop]. change (b :: bs) with ([b] ++ bs).
  eapply decodes_bind; [by apply byte_ok|]. cbv zeta beta.
  destruct bs as [|b' bs].
  - cbn [terminated] in Ht. rewrite Ht. cbn [payload].
    rewrite Z.shiftl_0_l, wrap_0, Z.lor_0_r. apply decodes_ret.
  - cbn [terminated] in Ht. apply andb_true_iff in Ht as [Hc Ht].
    apply negb_true_iff in Hc. rewrite Hc. apply IH; [lia|done|done|]. simpl in *. lia.
Qed.
End ReadLoop.

(** ** Writers *)

Definition digit (k v : Z) : Z := (v / 2 ^ (7 * k)) mod 128.

Lemma digit_range k v : 0 <= digit k v < 128.
Proof. apply mod_digit. Qed.

(** One lane of [pack_payload]: the [k]-th digit moves from bit [7k] to [8k]. *)
Lemma pack_lane v k :
  0 <= k -> Z.shiftl (Z.land v (Z.shiftl 127 (7 * k))) k = Z.shiftl (digit k v) (8 * k).
Proof.
  intros Hk. unfold digit. rewrite <- land_127, <- Z.shiftr_div_pow2 by lia.
  apply Z.bits_inj'. intros i Hi. rewrite !Z.shiftl_spec, Z.land_spec by lia.
  destruct (Z.lt_ge_cases i (8 * k)).
  - rewrite (Z.testbit_neg_r _ (i - 8 * k)) by lia.
    destruct (Z.lt_ge_cases i k); [by rewrite Z.testbit_neg_r by lia|].
    rewrite Z.shiftl_spec, (Z.testbit_neg_r 127) by lia. apply andb_false_r.
  - rewrite Z.land_spec, Z.shiftl_spec, Z.shiftr_spec by lia. f_equal; f_equal; lia.
Qed.

Lemma pack_payload_horner v :
  pack_payload v = digit 0 v + 256 * (digit 1 v + 256 * (digit 2 v + 256 * (digit 3 v +
    256 * (digit 4 v + 256 * (digit 5 v + 256 * (digit 6 v + 256 * digit 7 v)))))).
Proof.
  unfold pack_payload.
  replace (Z.land v 0x7f) with (digit 0 v) by (symmetry; exact (pack_lane v 0 ltac:(lia))).
  change 0x3f80 with (Z.shiftl 127 (7 * 1)). change 0x001fc000 with (Z.shiftl 127 (7 * 2)).
  change 0x0fe00000 with (Z.shiftl 127 (7 * 3)). change 0x7f0000000 with (Z.shiftl 127 (7 * 4)).
  change 0x3f800000000 with (Z.shiftl 127 (7 * 5)). change 0x1fc0000000000 with (Z.shiftl 127 (7 * 6)).
  change 0xfe000000000000 with (Z.shiftl 127 (7 * 7)).
  rewrite !pack_lane by lia.
  pose proof (fun k => digit_range k v) as D.
  pose proof (D 0); pose proof (D 1); pose proof (D 2); pose proof (D 3);
  pose proof (D 4); pose proof (D 5); pose proof (D 6); pose proof (D 7).
  change (8 * 1) with 8. change (8 * 2) with 16. change (8 * 3) with 24. change (8 * 4) with 32.
  change (8 * 5) with 40. change (8 * 6) with 48. change (8 * 7) with 56.
  rewrite (lor_shiftl_add 8), (lor_shiftl_add 16), (lor_shiftl_add 24), (lor_shiftl_add 32),
    (lor_shiftl_add 40), (lor_shiftl_add 48), (lor_shiftl_add 56) by (unfold is_u; lia). lia.
Qed.

Definition digits8 (v : Z) : list Z := (fun j => digit (Z.of_nat j) v) <$> seq 0 8.

Lemma digits8_bytes v : Forall is_byte (digits8 v).
Proof.
  apply Forall_fmap, Forall_true. intros j. simpl. unfold is_byte.
  pose proof (digit_range (Z.of_nat j) v). lia.
Qed.

Lemma pack_payload_bytes v : pack_payload v = from_le_bytes (digits8 v).
Proof.
  rewrite pack_payload_horner. unfold digits8.
  change (seq 0 8) with [0;1;2;3;4;5;6;7]%nat. cbn [fmap list_fmap from_le_bytes].
  change (Z.of_nat 0) with 0. change (Z.of_nat 1) with 1. change (Z.of_nat 2) with 2.
  change (Z.of_nat 3) with 3. change (Z.of_nat 4) with 4. change (Z.of_nat 5) with 5.
  change (Z.of_nat 6) with 6. change (Z.of_nat 7) with 7. lia.
Qed.

(** Or-ing two words acts on their little-endian bytes. *)
Lemma to_le_bytes_lor xs ys :
  Forall is_byte xs -> Forall is_byte ys -> length xs = length ys ->
  to_le_bytes (length xs) (Z.lor (from_le_bytes xs) (from_le_bytes ys)) = zip_with Z.lor xs ys.
Proof.
  intros Hx. revert ys. induction Hx as [|x xs Hx _ IH]; intros [|y ys] Hy Hl; try done.
  inversion_clear Hy as [|? ? Hyb Hys]. cbn [length to_le_bytes from_le_bytes zip_with].
  rewrite lor_horner by done.
  assert (0 <= Z.lor x y < 256) by (apply (is_u_lor 8); done || lia).
  rewrite (Z.mul_comm 256), Z.mod_add, Z.div_add, Z.mod_small, Z.div_small, Z.add_0_l by lia.
  f_equal. apply IH; [done|]. simpl in Hl. lia.
Qed.

(** The encoding with [k + 1] bytes. *)
Definition leb_of (k : nat) (v : Z) : list Z :=
  ((fun j => 128 + digit (Z.of_nat j) v) <$> seq 0 k) ++ [digit (Z.of_nat k) v].

Definition cont_mask (k : nat) : Z := from_le_bytes (replicate k 128 ++ replicate (8 - k) 0).

Lemma packed_bytes k v :
  (k < 8)%nat -> take (S k) (to_le_bytes 8 (Z.lor (pack_payload v) (cont_mask k))) = leb_of k v.
Proof.
  intros Hk. rewrite pack_payload_bytes. unfold cont_mask.
  rewrite (to_le_bytes_lor (digits8 v)).
  - assert (L : forall j, Z.lor (digit j v) 128 = 128 + digit j v)
      by (intros j; by destruct (digit_facts _ (digit_range j v)) as (_ & _ & -> & _)).
    unfold leb_of, digits8. do 8 (destruct k as [|k];
      [cbn [zip_with take seq replicate app fmap list_fmap Nat.sub]; by rewrite ?L, ?Z.lor_0_r|]).
    lia.
  - apply digits8_bytes.
  - apply Forall_app. split; apply Forall_replicate; unfold is_byte; lia.
  - rewrite length_app, !length_replicate. unfold digits8. rewrite length_fmap, length_seq. lia.
Qed.

Lemma digit_succ k v : 0 <= k -> digit (k + 1) v = digit k (v / 128).
Proof.
  intros. unfold digit. rewrite Z.div_div by (try apply Z.pow_pos_nonneg; lia).
  replace (7 * (k + 1)) with (7 + 7 * k) by lia. by rewrite Z.pow_add_r by lia.
Qed.

Lemma leb_digits n k v :
  (k < n)%nat -> 0 <= v < 2 ^ (7 * Z.of_nat (S k)) -> (k = 0%nat \/ 2 ^ (7 * Z.of_nat k) <= v) ->
  leb n v = leb_of k v.
Proof.
  revert k v. induction n as [|n IH]; intros k v Hk Hv Hlow; [lia|].
  destruct k as [|k].
  - change (2 ^ (7 * Z.of_nat 1)) with 128 in Hv. rewrite leb_last by lia. unfold leb_of, digit.
    cbn. rewrite Z.div_1_r, Z.mod_small by lia. done.
  - destruct Hlow as [?|Hlow]; [done|].
    assert (Hlow' : 2 ^ (7 * Z.of_nat k) <= v / 128).
    { apply Z.div_le_lower_bound; [lia|].
      replace (7 * Z.of_nat (S k)) with (7 + 7 * Z.of_nat k) in Hlow by lia.
      by rewrite Z.pow_add_r in Hlow by lia. }
    assert (0 < 2 ^ (7 * Z.of_nat k)) by (apply Z.pow_pos_nonneg; lia).
    assert (128 <= v).
    { apply Z.nlt_ge. intros Hlt. rewrite Z.div_small in Hlow' by lia. lia. }
    rewrite leb_cons by done. rewrite (IH k) by (lia || by apply leb_bound_step || by right).
    unfold leb_of. cbn [seq]. rewrite <- fmap_S_seq. cbn [fmap list_fmap app].
    f_equal; [unfold digit; by rewrite Z.div_1_r|]. rewrite <- list_fmap_compose. f_equal.
    + apply list_fmap_ext. intros i j _. simpl. rewrite Nat2Z.inj_succ, <- Z.add_1_r.
      by rewrite digit_succ by lia.
    + by rewrite Nat2Z.inj_succ, <- Z.add_1_r, digit_succ by lia.
Qed.

Lemma log2_digits v k :
  0 <= k -> 2 ^ (7 * k) <= v < 2 ^ (7 * (k + 1)) -> Z.log2 v / 7 = k.
Proof.
  intros Hk Hv. assert (0 < 2 ^ (7 * k)) by (apply Z.pow_pos_nonneg; lia).
  symmetry. apply Z.div_unique with (Z.log2 v - 7 * k); [left|lia].
  assert (7 * k <= Z.log2 v) by (apply Z.log2_le_pow2; lia).
  assert (Z.log2 v < 7 * (k + 1)) by (apply Z.log2_lt_pow2; lia). lia.
Qed.

(** The number of digits of a value below [2 ^ (7 * S n)]. *)
Lemma digit_count n v :
  0 <= v < 2 ^ (7 * Z.of_nat (S n)) ->
  exists k, (k <= n)%nat /\ 0 <= v < 2 ^ (7 * Z.of_nat (S k)) /\
    (k = 0%nat \/ 2 ^ (7 * Z.of_nat k) <= v).
Proof.
  induction n as [|n IH]; intros Hv; [exists 0%nat; auto|].
  destruct (Z.lt_ge_cases v (2 ^ (7 * Z.of_nat (S n)))) as [Hlt|Hge].
  - destruct IH as (k & ? & ? & ?); [lia|]. exists k. split; [lia|auto].
  - exists (S n). auto.
Qed.

Lemma length_leb_of k v : length (leb_of k v) = S k.
Proof. unfold leb_of. rewrite length_app, length_fmap, length_seq. simpl. lia. Qed.

Lemma cont_shift k :
  (k < 8)%nat -> Z.shiftr 0x0080808080808080 ((8 - Z.of_nat (S k)) * 8) = cont_mask k.
Proof. intros Hk. do 8 (destruct k as [|k]; [by vm_compute|]). lia. Qed.

Section VarIntFacts.

Lemma written_size_digits k v :
  (k < 5)%nat -> is_u 32 v -> 0 <= v < 2 ^ (7 * Z.of_nat (S k)) ->
  (k = 0%nat \/ 2 ^ (7 * Z.of_nat k) <= v) ->
  (if v =? 0 then 1 else (31 - leading_zeros 32 v) / 7 + 1) = Z.of_nat (S k).
Proof.
  intros Hk H32 Hv Hlow. unfold leading_zeros. destruct (Z.eqb_spec v 0) as [->|Hnz].
  - destruct Hlow as [->|Hlow]; [done|].
    pose proof (Z.pow_pos_nonneg 2 (7 * Z.of_nat k)). lia.
  - replace (31 - (32 - 1 - Z.log2 v)) with (Z.log2 v) by lia.
    rewrite (log2_digits v (Z.of_nat k)); [lia|lia|].
    replace (7 * (Z.of_nat k + 1)) with (7 * Z.of_nat (S k)) by lia.
    destruct Hlow as [->|Hlow]; [|lia]. change (2 ^ (7 * Z.of_nat 0)) with 1. lia.
Qed.

Lemma u8_mod_digit v : 128 + u8 v mod 128 = 128 + digit 0 v.
Proof. unfold u8, wrapu, digit. rewrite Z.div_1_r. f_equal. change (2 ^ 8) with (128 * 2).
  rewrite Z.rem_mul_r by lia. rewrite Z.add_mod, (Z.mul_comm 128), Z.mod_mul by lia.
  by rewrite Z.add_0_r, !Z.mod_mod by lia.
Qed.

Lemma u8_shift_digit k v : 0 <= k -> 128 + u8 (Z.shiftr v (7 * k)) mod 128 = 128 + digit k v.
Proof.
  intros. rewrite u8_mod_digit. unfold digit.
  by rewrite Z.div_1_r, Z.shiftr_div_pow2 by lia.
Qed.

Lemma u8_last_digit k v :
  0 <= k -> 0 <= v < 2 ^ (7 * (k + 1)) -> u8 (Z.shiftr v (7 * k)) = digit k v.
Proof.
  intros Hk Hv. unfold u8, wrapu, digit. rewrite Z.shiftr_div_pow2 by lia.
  replace (7 * (k + 1)) with (7 * k + 7) in Hv by lia. rewrite Z.pow_add_r in Hv by lia.
  change (2 ^ 7) with 128 in Hv. assert (0 < 2 ^ (7 * k)) by (apply Z.pow_pos_nonneg; lia).
  assert (0 <= v / 2 ^ (7 * k) < 128)
    by (split; [apply Z.div_pos; lia | apply Z.div_lt_upper_bound; lia]).
  by rewrite !Z.mod_small by lia.
Qed.

Lemma u8_byte z : 0 <= u8 z < 256.
Proof. apply (wrapu_range 8). lia. Qed.

(** The [VarInt] writer, by the number of bytes. *)
Lemma varint_write_leb_of k v :
  (k < 5)%nat -> is_u 32 (u32 v) -> 0 <= u32 v < 2 ^ (7 * Z.of_nat (S k)) ->
  (k = 0%nat \/ 2 ^ (7 * Z.of_nat k) <= u32 v) ->
  VarInt.write v = Ok (leb_of k (u32 v)).
Proof.
  intros Hk H32 Hv Hlow. unfold VarInt.write. set (w := u32 v) in *. clearbody w.
  destruct k as [|[|[|[|[|k]]]]]; [..|lia]; (destruct Hlow as [?|Hlow]; [try done|]);
    repeat match goal with
      H : context [2 ^ (7 * Z.of_nat ?n)] |- _ =>
        let c := eval vm_compute in (2 ^ (7 * Z.of_nat n)) in
        change (2 ^ (7 * Z.of_nat n)) with c in H end;
    change (Z.shiftl 1 28) with 268435456.
  all: zbool.
  - change [u8 w] with [u8 (Z.shiftr w (7 * 0))]. by rewrite u8_last_digit by lia.
  - change [u8 w] with [u8 (Z.shiftr w (7 * 0))]. by rewrite u8_last_digit by lia.
  - rewrite lor_128 by apply u8_byte.
    change (Z.shiftr w 7) with (Z.shiftr w (7 * 1)). by rewrite u8_mod_digit, u8_last_digit by lia.
  - rewrite !lor_128 by apply u8_byte. change (Z.shiftr w 14) with (Z.shiftr w (7 * 2)).
    change (Z.shiftr w 7) with (Z.shiftr w (7 * 1)).
    by rewrite u8_mod_digit, u8_shift_digit, u8_last_digit by lia.
  - change 0x00808080 with (cont_mask 3). by rewrite packed_bytes by lia.
  - change 0x80808080 with (cont_mask 4). by rewrite packed_bytes by lia.
Qed.

End VarIntFacts.

Lemma u32_range z : is_u 32 (u32 z).
Proof. apply wrapu_range. lia. Qed.

Lemma u32_digits z : 0 <= u32 z < 2 ^ (7 * Z.of_nat 5).
Proof. pose proof (u32_range z) as H. unfold is_u in H. change (2 ^ (7 * Z.of_nat 5)) with (2 ^ 35). lia. Qed.

(** The [VarInt] writer produces the base-128 encoding of the bit pattern. *)
Lemma varint_write_eq v : VarInt.write v = Ok (leb 5 (u32 v)).
Proof.
  destruct (digit_count 4 (u32 v) (u32_digits v)) as (k & Hk & Hv & Hlow).
  rewrite (leb_digits 5 k) by (done || lia). apply varint_write_leb_of; try done; [lia|].
  apply u32_range.
Qed.

Lemma varint_written_size_eq v : is_s 32 v -> VarInt.written_size v = Z.of_nat (length (leb 5 (u32 v))).
Proof.
  intros Hs. destruct (digit_count 4 (u32 v) (u32_digits v)) as (k & Hk & Hv & Hlow).
  rewrite (leb_digits 5 k), length_leb_of by (done || lia).
  rewrite <- (written_size_digits k (u32 v)) by (done || lia || apply u32_range).
  unfold VarInt.written_size. destruct (Z.eqb_spec v 0) as [->|Hv0]; [done|].
  destruct (Z.eqb_spec (u32 v) 0) as [H0|]; [|done]. exfalso. apply Hv0.
  rewrite <- (wraps_id 32 v) by (done || lia). rewrite <- wraps_wrapu by lia.
  unfold u32 in H0. by rewrite H0.
Qed.

Lemma i32_u32 v : is_s 32 v -> i32 (u32 v) = v.
Proof. intros. unfold i32, u32. rewrite wraps_wrapu by lia. by apply wraps_id; [lia|]. Qed.

Lemma read_loop_leb wrap byte err n z :
  (forall a b, wrap (Z.lor a b) = Z.lor (wrap a) (wrap b)) -> wrap 0 = 0 ->
  (forall b, is_byte b -> decodes byte [b] b) ->
  0 <= z < 2 ^ (7 * Z.of_nat (S n)) ->
  decodes (read_loop wrap byte err (S n) 0 0) (leb (S n) z) (wrap z).
Proof.
  intros Hlor H0 Hb Hz.
  pose proof (read_loop_decodes wrap err Hlor H0 byte Hb (S n) 0 0 (leb (S n) z)) as H.
  rewrite Z.mul_0_l, Z.shiftl_0_r, leb_payload, Z.lor_0_l in H by done.
  apply H; [lia|apply leb_bytes; lia|by apply leb_terminated|].
  clear. revert z. induction (S n) as [|m IH]; intros z; [done|].
  cbn [leb]. destruct (z <? 128); simpl; [lia|]. specialize (IH (z / 128)). lia.
Qed.

Definition wire_varint := mk_wire VarInt.write VarInt.read.

#[export] Instance wire_varint_ok : WireOk wire_varint (is_s 32).
Proof.
  intros v Hv. exists (leb 5 (u32 v)). split; [apply varint_write_eq|].
  rewrite <- (i32_u32 v Hv) at 2. apply read_loop_leb; try done.
  - intros. by apply wraps_lor.
  - apply decodes_byte.
  - apply u32_digits.
Qed.

(** ** [VarLong] *)

Lemma packed_all_continue v :
  to_le_bytes 8 (Z.lor (pack_payload v) 0x8080808080808080) =
    (fun j => 128 + digit (Z.of_nat j) v) <$> seq 0 8.
Proof.
  rewrite pack_payload_bytes. change 0x8080808080808080 with (from_le_bytes (replicate 8 128)).
  rewrite (to_le_bytes_lor (digits8 v)); [|apply digits8_bytes| |done].
  - unfold digits8. cbn [replicate seq fmap list_fmap zip_with].
    assert (L : forall j, Z.lor (digit j v) 128 = 128 + digit j v)
      by (intros j; by destruct (digit_facts _ (digit_range j v)) as (_ & _ & -> & _)).
    by rewrite !L.
  - apply Forall_replicate. unfold is_byte. lia.
Qed.

Lemma div_ceil_digits k v :
  0 <= k -> 2 ^ (7 * k) <= v < 2 ^ (7 * (k + 1)) ->
  div_ceil (64 - leading_zeros 64 v) 7 = k + 1.
Proof.
  intros Hk Hv. pose proof (Z.pow_pos_nonneg 2 (7 * k)).
  unfold leading_zeros. destruct (Z.eqb_spec v 0); [lia|]. unfold div_ceil.
  replace (64 - (64 - 1 - Z.log2 v) + 7 - 1) with (Z.log2 v + 1 * 7) by lia.
  rewrite Z.div_add, (log2_digits v k) by lia. done.
Qed.

Lemma u64_range z : is_u 64 (u64 z).
Proof. apply wrapu_range. lia. Qed.

Lemma u64_sign v : is_s 64 v -> (0 <=? v) = (u64 v <? 2 ^ 63).
Proof.
  unfold is_s, u64, wrapu. change (2 ^ (64 - 1)) with 9223372036854775808.
  change (2 ^ 63) with 9223372036854775808. change (2 ^ 64) with 18446744073709551616. intros Hv.
  destruct (Z.leb_spec 0 v).
  - rewrite Z.mod_small by lia. symmetry. apply Z.ltb_lt. lia.
  - rewrite <- (Z.mod_add v 1), Z.mod_small by lia. symmetry. apply Z.ltb_ge. lia.
Qed.

Lemma varlong_wide k v :
  (8 <= k <= 9)%nat -> is_s 64 v -> 2 ^ (7 * Z.of_nat k) <= u64 v < 2 ^ (7 * Z.of_nat (S k)) ->
  VarLong.write v = Ok (leb_of k (u64 v)).
Proof.
  intros Hk Hs Hv. unfold VarLong.write. rewrite u64_sign, packed_all_continue by done.
  pose proof (u64_range v) as Hr. unfold is_u in Hr. set (w := u64 v) in *. clearbody w.
  change (Z.shiftl 1 56) with (2 ^ 56). unfold u32_max.
  assert (Hc : k = 8%nat \/ k = 9%nat) by lia.
  destruct Hc as [-> | ->];
    [change (2 ^ (7 * Z.of_nat 8)) with (2 ^ 56) in Hv; change (2 ^ (7 * Z.of_nat 9)) with (2 ^ 63) in Hv
    |change (2 ^ (7 * Z.of_nat 9)) with (2 ^ 63) in Hv].
  all: zbool.
  - change (Z.shiftr w 56) with (Z.shiftr w (7 * 8)).
    rewrite u8_last_digit by (change (7 * (8 + 1)) with 63; lia). done.
  - change (Z.shiftr w 56) with (Z.shiftr w (7 * 8)).
    assert (Hd9 : digit 9 w = 1).
    { unfold digit. change (7 * 9) with 63.
      assert (Hq : 1 = w / 2 ^ 63) by (apply Z.div_unique with (w - 2 ^ 63); lia).
      by rewrite <- Hq. }
    assert (Hu8 : u8 (Z.shiftr w (7 * 8)) = 128 + digit 8 w).
    { rewrite <- u8_shift_digit by lia. unfold u8, wrapu. rewrite Z.shiftr_div_pow2 by lia.
      change (7 * 8) with 56.
      assert (128 <= w / 2 ^ 56 < 256)
        by (split; [apply Z.div_le_lower_bound | apply Z.div_lt_upper_bound]; lia).
      rewrite (Z.mod_small (w / 2 ^ 56)) by lia.
      rewrite <- (Z.mod_add (w / 2 ^ 56) (-1)), Z.mod_small by lia. lia. }
    rewrite Hu8. unfold leb_of. change (Z.of_nat 9) with 9. rewrite Hd9. done.
Qed.

Lemma varlong_middle k v :
  (4 <= k <= 7)%nat -> u32_max < u64 v ->
  2 ^ (7 * Z.of_nat k) <= u64 v < 2 ^ (7 * Z.of_nat (S k)) ->
  VarLong.write v = Ok (leb_of k (u64 v)).
Proof.
  intros Hk Hmin Hv. unfold VarLong.write.
  set (w := u64 v) in *. clearbody w. change (Z.shiftl 1 56) with (2 ^ 56). unfold u32_max in *.
  assert (Hd : div_ceil (64 - leading_zeros 64 w) 7 = Z.of_nat (S k)).
  { rewrite (div_ceil_digits (Z.of_nat k)) by
      (rewrite ?Z.add_1_r, <- ?Nat2Z.inj_succ; done || lia). lia. }
  rewrite Hd. rewrite cont_shift by lia.
  assert (w < 2 ^ 56).
  { apply Z.lt_le_trans with (2 ^ (7 * Z.of_nat (S k))); [lia|]. apply Z.pow_le_mono_r; lia. }
  zbool. rewrite <- packed_bytes by lia.
  destruct k as [|[|[|[|[|[|[|[|k]]]]]]]]; try lia; done.
Qed.

Lemma varlong_write_eq v : is_s 64 v -> VarLong.write v = Ok (leb 10 (u64 v)).
Proof.
  intros Hs. pose proof (u64_range v) as Hr. unfold is_u in Hr.
  assert (Hd : 0 <= u64 v < 2 ^ (7 * Z.of_nat 10)) by (change (2 ^ (7 * Z.of_nat 10)) with (2 ^ 70); lia).
  destruct (digit_count 9 (u64 v) Hd) as (k & Hk & Hv & Hlow).
  rewrite (leb_digits 10 k) by (done || lia).
  destruct (Z.le_gt_cases (u64 v) u32_max) as [Hsmall|Hbig].
  - unfold VarLong.write. unfold u32_max in Hsmall.
    destruct (Z.ltb_spec (u64 v) 0x80).
    + rewrite <- (leb_digits 10 k), leb_last by (done || lia).
      do 2 f_equal. apply Z.mod_small. change (2 ^ 8) with 256. lia.
    + rewrite (proj2 (Z.leb_le (u64 v) u32_max)) by done.
      rewrite varint_write_eq. unfold u32, i32. rewrite wrapu_wraps by lia.
      rewrite wrapu_id by (unfold is_u; lia).
      assert (k < 5)%nat.
      { destruct Hlow as [->|Hlow]; [lia|]. apply Nat.nle_gt. intros H5.
        assert (2 ^ 35 <= 2 ^ (7 * Z.of_nat k)) by (apply Z.pow_le_mono_r; lia). lia. }
      by rewrite (leb_digits 5 k) by (done || lia).
  - unfold u32_max in Hbig. assert (4 <= k)%nat.
    { apply Nat.nlt_ge. intros H4. assert (2 ^ (7 * Z.of_nat (S k)) <= 2 ^ 28)
        by (apply Z.pow_le_mono_r; lia). lia. }
    destruct Hlow as [->|Hlow]; [lia|].
    destruct (decide (k <= 7)%nat); [apply varlong_middle | apply varlong_wide]; done || lia.
Qed.

Definition wire_varlong := mk_wire VarLong.write VarLong.read.

#[export] Instance wire_varlong_ok : WireOk wire_varlong (is_s 64).
Proof.
  intros v Hv. exists (leb 10 (u64 v)). split; [by apply varlong_write_eq|].
  assert (Hi : i64 (u64 v) = v).
  { unfold i64, u64. rewrite wraps_wrapu by lia. by apply wraps_id; [lia|]. }
  rewrite <- Hi at 2. apply read_loop_leb; try done.
  - intros. by apply wraps_lor.
  - apply decodes_byte.
  - pose proof (u64_range v) as Hr. unfold is_u in Hr. change (2 ^ (7 * Z.of_nat 10)) with (2 ^ 70). lia.
Qed.

(** ** [VarUint] *)

Lemma varuint_write_loop_eq n v :
  0 <= v < 2 ^ (7 * Z.of_nat (S n)) -> VarUint.write_loop (S n) v = Some (leb (S n) v).
Proof.
  revert v. induction n as [|n IH]; intros v Hv; cbn [VarUint.write_loop];
    rewrite Z.shiftr_div_pow2, land_127 by lia; change (2 ^ 7) with 128;
    (assert (Hu : u8 (v mod 128) = v mod 128)
      by (pose proof (mod_digit v); apply Z.mod_small; change (2 ^ 8) with 256; lia));
    rewrite Hu; destruct (Z.lt_ge_cases v 128).
  1, 3: by rewrite leb_last, Z.div_small, Z.mod_small by lia.
  - change (2 ^ (7 * Z.of_nat 1)) with 128 in Hv. lia.
  - rewrite leb_cons by done. pose proof (Z.div_le_mono 128 v 128).
    rewrite Z.div_same in H0 by lia. rewrite (proj2 (Z.eqb_neq (v / 128) 0)) by lia.
    pose proof (IH (v / 128) (leb_bound_step _ _ Hv)) as IHv. cbn [VarUint.write_loop] in IHv.
    rewrite IHv. by destruct (digit_facts (v mod 128) (mod_digit v)) as (_ & _ & -> & _).
Qed.

Lemma varuint_bound v : is_u 32 v -> 0 <= v < 2 ^ (7 * Z.of_nat 5).
Proof. unfold is_u. change (2 ^ (7 * Z.of_nat 5)) with (2 ^ 35). lia. Qed.

(** ** Sizes and prefixes *)

Lemma varint_size_range v : is_s 32 v -> 1 <= VarInt.written_size v <= 5.
Proof.
  intros Hv. rewrite varint_written_size_eq by done.
  destruct (digit_count 4 (u32 v) (u32_digits v)) as (k & Hk & Hd & Hlow).
  rewrite (leb_digits 5 k), length_leb_of by (done || lia). lia.
Qed.

Lemma varint_set_in_front_ok {E} v vec :
  is_s 32 v -> FrontVec.wf vec -> VarInt.written_size v <= Z.of_nat (FrontVec.front_space vec) ->
  exists vec', VarInt.set_in_front (E := E) v vec (VarInt.written_size v) = Ok vec' /\
    FrontVec.wf vec' /\ FrontVec.as_slice vec' = leb 5 (u32 v) ++ FrontVec.as_slice vec /\
    Z.of_nat (FrontVec.front_space vec') = Z.of_nat (FrontVec.front_space vec) - VarInt.written_size v.
Proof.
  intros Hv Hwf Hsp. unfold VarInt.set_in_front. rewrite Z.eqb_refl. cbn [negb].
  rewrite varint_written_size_eq in * by done.
  destruct (digit_count 4 (u32 v) (u32_digits v)) as (k & Hk & Hd & Hlow).
  rewrite (leb_digits 5 k), length_leb_of in * by (done || lia).
  rewrite cont_shift, Nat2Z.id, take_take by lia.
  rewrite (Nat.min_l (S k)) by (unfold VarInt.MAX_SIZE; lia).
  rewrite packed_bytes by lia.
  destruct (FrontVec.set_in_front_ok (E := E) vec (leb_of k (u32 v))) as (vec' & -> & Hwf' & Hs & Hf);
    [done|rewrite length_leb_of; lia|].
  exists vec'. rewrite length_leb_of in Hf. repeat split; [done|done|lia].
Qed.

#[export] Instance varint_prefix_ok bound : bound <= i32_max -> PrefixOk varint_prefix bound.
Proof.
  intros Hb len Hlen. unfold i32_max in Hb.
  assert (Hs : is_s 32 len) by (unfold is_s; change (2 ^ (32 - 1)) with 2147483648; lia).
  exists len. destruct (wire_varint_ok len Hs) as (bs & Hw & Hr). exists bs.
  cbn [varint_prefix prefix_of_usize prefix_write prefix_read prefix_to_usize].
  unfold VarInt.from_usize, i32. rewrite wraps_id by (done || lia).
  repeat split; try done. unfold VarInt.to_usize, u64.
  rewrite wrapu_id; [done|]. unfold is_u. change (2 ^ 64) with 18446744073709551616. lia.
Qed.

(** ** What a successful read means *)

Lemma read_u8_inv c b c' :
  read_u8 c = (Ok b, c') ->
  exists x rest, drop (cur_pos c) (cur_data c) = x :: rest /\ b = x /\
    c' = mk_cursor (cur_data c) (cur_pos c + 1).
Proof.
  unfold read_u8, read_unsigned, rbind, read_exact.
  destruct (drop (cur_pos c) (cur_data c)) as [|x rest] eqn:E; [done|].
  rewrite decide_True by (simpl; lia). intros H. injection H as <- <-.
  exists x, rest. split; [done|]. split; [|done]. unfold from_be_bytes.
  rewrite take_0, reverse_singleton. cbn [from_le_bytes]. lia.
Qed.

Lemma payload_bound bs : 0 <= payload bs < 2 ^ (7 * Z.of_nat (length bs)).
Proof.
  induction bs as [|b bs IH]; [by cbn|]. cbn [payload length].
  assert (H7 : 0 <= Z.land b 127 < 128) by (rewrite land_127; apply mod_digit).
  rewrite lor_shiftl_add by (done || lia). change (2 ^ 7) with 128.
  replace (7 * Z.of_nat (S (length bs))) with (7 + 7 * Z.of_nat (length bs)) by lia.
  rewrite Z.pow_add_r by lia. change (2 ^ 7) with 128. lia.
Qed.

Section ReadSound.
Context (wrap : Z -> Z) (too_long : io_error).
Context (wrap_lor : forall a b, wrap (Z.lor a b) = Z.lor (wrap a) (wrap b)).

Lemma read_loop_inv iters i val c v c' :
  0 <= i -> read_loop wrap read_u8 too_long iters i val c = (Ok v, c') ->
  exists bs rest, drop (cur_pos c) (cur_data c) = bs ++ rest /\ terminated bs = true /\
    (1 <= length bs <= iters)%nat /\ v = Z.lor val (wrap (Z.shiftl (payload bs) (i * 7))) /\
    c' = mk_cursor (cur_data c) (cur_pos c + length bs).
Proof.
  revert i val c. induction iters as [|iters IH]; intros i val c Hi; [done|].
  cbn [read_loop]. unfold rbind at 1. destruct (read_u8 c) as [[b|e|] c1] eqn:E; try done.
  apply read_u8_inv in E as (x & rest & Hd & -> & ->).
  destruct (Z.land x 0x80 =? 0) eqn:Ec.
  - intros H. injection H as <- <-. exists [x], rest. cbn [terminated payload length].
    rewrite Z.shiftl_0_l, Z.lor_0_r. repeat split; done || lia.
  - intros H. apply IH in H as (bs & rest' & Hd' & Ht & Hl & -> & ->); [|lia].
    cbn [cur_data cur_pos] in *. rewrite <- drop_drop, Hd in Hd'.
    change (drop 1 (x :: rest)) with (drop 0 rest) in Hd'. rewrite drop_0 in Hd'. subst rest.
    exists (x :: bs), rest'. split; [done|]. split.
    { destruct bs; [done|]. cbn [terminated]. cbn [terminated] in Ht. by rewrite Ec, Ht. }
    split; [simpl; lia|]. split; [|simpl; f_equal; lia]. cbn [payload].
    rewrite Z.shiftl_lor, Z.shiftl_shiftl, wrap_lor, Z.lor_assoc by lia. do 3 f_equal. lia.
Qed.
End ReadSound.

Lemma leb_length_bound n m z :
  (1 <= m <= n)%nat -> 0 <= z < 2 ^ (7 * Z.of_nat m) -> (length (leb n z) <= m)%nat.
Proof.
  intros Hm Hz. destruct m as [|m]; [lia|].
  destruct (digit_count m z Hz) as (k & Hk & Hv & Hlow).
  rewrite (leb_digits n k), length_leb_of by (done || lia). lia.
Qed.

Lemma varint_read_inv c v c' :
  VarInt.read c = (Ok v, c') ->
  exists bs rest, drop (cur_pos c) (cur_data c) = bs ++ rest /\ terminated bs = true /\
    v = i32 (payload bs) /\ c' = mk_cursor (cur_data c) (cur_pos c + length bs) /\
    (1 <= length bs <= 5)%nat /\ VarInt.written_size v <= Z.of_nat (length bs).
Proof.
  intros H. apply read_loop_inv in H as (bs & rest & Hd & Ht & Hl & Hv & Hc);
    [|intros; by apply wraps_lor|lia].
  rewrite Z.mul_0_l, Z.shiftl_0_r, Z.lor_0_l in Hv. unfold VarInt.MAX_SIZE in Hl.
  exists bs, rest. do 5 (split; [done|]).
  assert (Hs : is_s 32 v) by (subst v; apply wraps_range; lia).
  destruct (decide (length bs = 5%nat)) as [->|H5]; [pose proof (varint_size_range v Hs); lia|].
  rewrite varint_written_size_eq by done. apply inj_le.
  apply leb_length_bound; [lia|].
  assert (Hu : u32 v = payload bs).
  { subst v. unfold u32, i32. rewrite wrapu_wraps by lia. apply wrapu_id.
    pose proof (payload_bound bs). unfold is_u.
    assert (2 ^ (7 * Z.of_nat (length bs)) <= 2 ^ 28) by (apply Z.pow_le_mono_r; lia). lia. }
  rewrite Hu. apply payload_bound.
Qed.

(** ** Properties *)

(** The branch-free [VarInt] writer produces, for every [i32], exactly the
    bytes that the base-128 loop of [VarUint] writes for its bit pattern, and
    [VarInt::written_size] is their number. *)
Theorem varint_write_is_loop v :
  is_s 32 v ->
  exists bs, VarInt.write v = Ok bs /\ VarUint.write (u32 v) = Some bs /\
    VarInt.written_size v = Z.of_nat (length bs) /\ 1 <= VarInt.written_size v <= 5.
Proof.
  intros Hv. exists (leb 5 (u32 v)). split; [apply varint_write_eq|].
  split; [apply varuint_write_loop_eq, u32_digits|].
  split; [by apply varint_written_size_eq | by apply varint_size_range].
Qed.

Lemma varint_write_is_loop_witness :
  exists bs, VarInt.write (-1) = Ok bs /\ VarUint.write (u32 (-1)) = Some bs /\
    VarInt.written_size (-1) = Z.of_nat (length bs) /\ 1 <= VarInt.written_size (-1) <= 5.
Proof. apply varint_write_is_loop. unfold is_s. cbn. lia. Defined.

(** [VarInt] and [VarLong] round trip: at any position of any buffer, the
    reader returns the written value and stops right after its bytes. *)
Theorem var_roundtrip v w :
  is_s 32 v -> is_s 64 w ->
  (exists bs, VarInt.write v = Ok bs /\ decodes VarInt.read bs v) /\
  (exists bs, VarLong.write w = Ok bs /\ decodes VarLong.read bs w).
Proof. intros Hv Hw. split; [exact (wire_varint_ok v Hv) | exact (wire_varlong_ok w Hw)]. Qed.

Lemma var_roundtrip_witness :
  (exists bs, VarInt.write (-300) = Ok bs /\ decodes VarInt.read bs (-300)) /\
  (exists bs, VarLong.write (2 ^ 40) = Ok bs /\ decodes VarLong.read bs (2 ^ 40)).
Proof. apply var_roundtrip; unfold is_s; cbn; lia. Defined.

(** the [VarLong] writer, in each of its size classes, produces the
    base-128 encoding of the 64-bit pattern, of 1 to 10 bytes. *)
Theorem varlong_write_is_leb v :
  is_s 64 v ->
  VarLong.write v = Ok (leb 10 (u64 v)) /\ (1 <= length (leb 10 (u64 v)) <= 10)%nat.
Proof.
  intros Hv. split; [by apply varlong_write_eq|].
  pose proof (u64_range v) as Hr. unfold is_u in Hr. split.
  - destruct (leb 10 (u64 v)) eqn:E; [by apply leb_nonempty in E | simpl; lia].
  - apply leb_length_bound; [lia|]. change (2 ^ (7 * Z.of_nat 10)) with (2 ^ 70). lia.
Qed.

Lemma varlong_write_is_leb_witness :
  VarLong.write (-5) = Ok (leb 10 (u64 (-5))) /\ (1 <= length (leb 10 (u64 (-5))) <= 10)%nat.
Proof. apply varlong_write_is_leb. unfold is_s. cbn. lia. Defined.

(** A successful [VarInt] read consumed one to five bytes of which only the
    last has a clear continuation bit, returned the [i32] with their payload,
    and re-encoding that value never takes more bytes than were consumed (the
    subtraction the packet decoder makes cannot underflow). *)
Theorem varint_read_sound c v c' :
  VarInt.read c = (Ok v, c') ->
  exists bs rest, drop (cur_pos c) (cur_data c) = bs ++ rest /\ terminated bs = true /\
    v = i32 (payload bs) /\ c' = mk_cursor (cur_data c) (cur_pos c + length bs) /\
    (1 <= length bs <= 5)%nat /\ VarInt.written_size v <= Z.of_nat (length bs).
Proof. apply varint_read_inv. Qed.

Lemma varint_read_sound_witness :
  exists bs rest, drop 1 [9; 0xAC; 0x02; 7] = bs ++ rest /\ terminated bs = true /\
    300 = i32 (payload bs) /\ mk_cursor [9; 0xAC; 0x02; 7] 3 = mk_cursor [9; 0xAC; 0x02; 7] (1 + length bs) /\
    (1 <= length bs <= 5)%nat /\ VarInt.written_size 300 <= Z.of_nat (length bs).
Proof. apply (varint_read_sound (mk_cursor [9; 0xAC; 0x02; 7] 1)). vm_compute. reflexivity. Defined.
