(* ===== verification/Framing.v ===== *)
(** * Packet framing: length prefixes, compression and packet ids

    Models [steel-protocol/src/packet_traits.rs] (encoding of clientbound
    packets), [packet_reader.rs] (decoding of serverbound frames) and the
    shared types of [utils.rs].

    Zlib is outside the repository: [deflate] compresses a whole buffer at a
    level, and [inflate] gives the bytes a decoder over an input would yield
    before it reports the end of the stream or an error. The theorems use one
    fact about them, that decompression inverts compression. *)

From stdpp Require Import prelude list strings pretty.
From S2P Require Import Prelude Io VarInt.

Definition MAX_PACKET_SIZE : Z := 2097152.
Definition MAX_PACKET_DATA_SIZE : Z := 8388608.

Inductive ConnectionProtocol := Handshake | Play | Status | Login | Config.

#[export] Instance ConnectionProtocol_eq_dec : EqDecision ConnectionProtocol.
Proof. solve_decision. Defined.

Definition protocol_debug (p : ConnectionProtocol) : string :=
  match p with
  | Handshake => "Handshake"
  | Play => "Play"
  | Status => "Status"
  | Login => "Login"
  | Config => "Config"
  end.

Inductive PacketError :=
| DecodeID
| TooLong (n : Z)
| OutOfBounds
| MalformedLength (msg : string)
| MalformedValue (msg : string)
| DecompressionFailed (msg : string)
| CompressionFailed (msg : string)
| NotCompressed
| DecryptionFailed (msg : string)
| EncryptionFailed (msg : string)
| ConnectionClosed
| SendError (msg : string)
| OtherError (msg : string)
| InvalidProtocol (msg : string).

(** [From<io::Error> for PacketError] *)
Definition packet_error_of_io (e : io_error) : PacketError := MalformedValue (error_message e).

(** ** Raw packets *)

Record RawPacket := mk_raw { raw_id : Z; raw_buffer : list Z; raw_payload_start : Z }.

Definition raw_new (id : Z) (payload : list Z) : RawPacket := mk_raw id payload 0.

(** The two [debug_assert!]s, then the narrowing of [payload_start]. *)
Definition raw_from_buffer (id : Z) (buffer : list Z) (payload_start : nat)
    : outcome PacketError RawPacket :=
  if decide (length buffer < payload_start)%nat then Panic
  else if MAX_PACKET_DATA_SIZE <? Z.of_nat payload_start then Panic
  else Ok (mk_raw id buffer (u32 (Z.of_nat payload_start))).

Definition raw_payload (p : RawPacket) : list Z := drop (Z.to_nat (raw_payload_start p)) (raw_buffer p).

(** ** Encoding *)

Record CompressionInfo := mk_compression { threshold : Z; level : Z }.

Definition DEFAULT_THRESHOLD : Z := 256.
Definition DEFAULT_LEVEL : Z := 4.
Definition compression_default : CompressionInfo := mk_compression DEFAULT_THRESHOLD DEFAULT_LEVEL.

(** [threshold] is a [NonZeroU32], [level] an [i32]. *)
Definition compression_wf (c : CompressionInfo) : Prop :=
  0 < threshold c /\ is_u 32 (threshold c) /\ is_s 32 (level c).

(** What a [ClientPacket] implementation provides. *)
Record ClientPacket := mk_client {
  get_id : ConnectionProtocol -> option Z;
  packet_body : outcome io_error (list Z)
}.

Section Encoder.
(** [ZlibEncoder] with [Compression::new(level)], written and finished. *)
Context (deflate : Z -> list Z -> outcome string (list Z)).

Definition write_packet (p : ClientPacket) (protocol : ConnectionProtocol) (w : FrontVec.t)
    : outcome PacketError FrontVec.t :=
  match get_id p protocol with
  | None => Err (InvalidProtocol ("Invalid protocol " +:+ protocol_debug protocol))
  | Some packet_id =>
      let? idb := map_err packet_error_of_io (VarInt.write packet_id) in
      let? body := map_err packet_error_of_io (packet_body p) in
      Ok (FrontVec.extend_from_slice (FrontVec.extend_from_slice w idb) body)
  end.

Definition from_data_uncompressed (packet_data : FrontVec.t) : outcome PacketError FrontVec.t :=
  let data_len := Z.of_nat (FrontVec.len packet_data) in
  let varint_size := VarInt.written_size (i32 data_len) in
  let complete_len := varint_size + data_len in
  if MAX_PACKET_SIZE <? complete_len then Err (TooLong complete_len)
  else VarInt.set_in_front (i32 data_len) packet_data varint_size.

Definition from_packet_data (packet_data : FrontVec.t) (compression : CompressionInfo)
    : outcome PacketError FrontVec.t :=
  let data_len := Z.of_nat (FrontVec.len packet_data) in
  if MAX_PACKET_DATA_SIZE <? data_len + Z.of_nat VarInt.MAX_SIZE * 2 then Err (TooLong data_len)
  else if threshold compression <=? data_len then
    let? compressed :=
      map_err CompressionFailed (deflate (u32 (level compression)) (FrontVec.as_slice packet_data)) in
    let buf := FrontVec.extend_from_slice (FrontVec.new 10) compressed in
    let varint_size := VarInt.written_size (i32 data_len) in
    let full_len := varint_size + Z.of_nat (FrontVec.len buf) in
    let full_varint_size := VarInt.written_size (i32 full_len) in
    let? buf := VarInt.set_in_front (i32 data_len) buf varint_size in
    VarInt.set_in_front (i32 full_len) buf full_varint_size
  else
    let data_len_with_header := data_len + 1 in
    let varint_size := VarInt.written_size (i32 data_len_with_header) in
    let? packet_data := VarInt.set_in_front 0 packet_data 1 in
    VarInt.set_in_front (i32 data_len_with_header) packet_data varint_size.

Definition write_vec (p : ClientPacket) (protocol : ConnectionProtocol)
    : outcome PacketError FrontVec.t :=
  write_packet p protocol (FrontVec.new 6).

Definition from_data (buf : FrontVec.t) (compression : option CompressionInfo)
    : outcome PacketError FrontVec.t :=
  match compression with
  | Some c => from_packet_data buf c
  | None => from_data_uncompressed buf
  end.

Definition from_bare (p : ClientPacket) (compression : option CompressionInfo)
    (protocol : ConnectionProtocol) : outcome PacketError FrontVec.t :=
  let? buf := write_vec p protocol in from_data buf compression.
End Encoder.

(** ** Decoding *)

Section Decoder.
(** [ZlibDecoder] over an input: the bytes it yields, then [None] for the
    end of the stream or [Some] error. *)
Context (inflate : list Z -> list Z * option string).

(** [read_exact] of [n] bytes, then the one-byte overflow read. *)
Definition decompress (n : nat) (input : list Z) : outcome PacketError (list Z) :=
  let '(out, stop) := inflate input in
  if decide (n <= length out)%nat then
    if decide (n < length out)%nat
    then Err (DecompressionFailed
             ("decompressed packet exceeds declared length of " +:+ pretty (N.of_nat n)))
    else match stop with
         | Some e => Err (DecompressionFailed e)
         | None => Ok out
         end
  else match stop with
       | Some e => Err (DecompressionFailed e)
       | None => Err (DecompressionFailed (error_message eof_error))
       end.

(** The body of a frame, and where the packet id starts in it. *)
Definition frame_body (compression : option Z) (packet_data : list Z)
    : outcome PacketError (list Z * nat) :=
  match compression with
  | None => Ok (packet_data, 0%nat)
  | Some threshold =>
      match VarInt.read (mk_cursor packet_data 0) with
      | (Err e, _) => Err (packet_error_of_io e)
      | (Panic, _) => Panic
      | (Ok v, cursor) =>
          let decompressed_len := u64 v in
          let written := VarInt.written_size (i32 decompressed_len) in
          if Z.of_nat (length packet_data) <? written then Panic
          else
            let raw_packet_len := Z.of_nat (length packet_data) - written in
            if MAX_PACKET_DATA_SIZE <? decompressed_len then Err (TooLong decompressed_len)
            else if 0 <? decompressed_len then
              let? d := decompress (Z.to_nat decompressed_len)
                          (drop (cur_pos cursor) (cur_data cursor)) in
              Ok (d, 0%nat)
            else if threshold <? raw_packet_len then Err NotCompressed
            else Ok (packet_data, cur_pos cursor)
      end
  end.

Definition parse_packet (packet_buffer : list Z) (packet_data_start : nat)
    : outcome PacketError RawPacket :=
  if decide (length packet_buffer < packet_data_start)%nat then Panic
  else match VarInt.read (mk_cursor (drop packet_data_start packet_buffer) 0) with
       | (Err e, _) => Err (packet_error_of_io e)
       | (Panic, _) => Panic
       | (Ok packet_id, cursor) =>
           raw_from_buffer packet_id packet_buffer (packet_data_start + cur_pos cursor)
       end.

(** [TCPNetworkDecoder::get_raw_packet] on the byte stream of the connection. *)
Definition get_raw_packet (compression : option Z) (stream : Cursor)
    : outcome PacketError RawPacket * Cursor :=
  match VarInt.read_async stream with
  | (Err e, s) => (Err (packet_error_of_io e), s)
  | (Panic, s) => (Panic, s)
  | (Ok v, s) =>
      let packet_len := u64 v in
      if MAX_PACKET_SIZE <? packet_len then (Err OutOfBounds, s)
      else match read_exact (Z.to_nat packet_len) s with
           | (Err e, s) => (Err (OtherError (error_message e)), s)
           | (Panic, s) => (Panic, s)
           | (Ok packet_data, s) =>
               (let? '(packet_buffer, start) := frame_body compression packet_data in
                parse_packet packet_buffer start, s)
           end
  end.
End Decoder.

(** ** Reader facts *)

Definition no_panic {E A} (o : outcome E A) : Prop :=
  match o with Panic => False | _ => True end.

Lemma read_u8_no_panic c : no_panic (read_u8 c).1.
Proof. unfold read_u8, read_unsigned, rbind, read_exact. by case_decide. Qed.

Lemma read_loop_no_panic wrap byte err n i val c :
  (forall c, no_panic (byte c).1) -> no_panic (read_loop wrap byte err n i val c).1.
Proof.
  intros Hb. revert i val c. induction n as [|n IH]; intros i val c; [done|].
  cbn [read_loop]. unfold rbind. specialize (Hb c). destruct (byte c) as [[b|e|] c']; try done.
  destruct (_ =? 0); [done|]. apply IH.
Qed.

Lemma read_u8_async_no_panic c : no_panic (VarInt.read_u8_async c).1.
Proof.
  pose proof (read_u8_no_panic c). unfold VarInt.read_u8_async.
  destruct (read_u8 c) as [[b|e|] c']; done.
Qed.

Lemma decodes_byte_async b : is_byte b -> decodes VarInt.read_u8_async [b] b.
Proof.
  intros Hb pre post. unfold VarInt.read_u8_async. by rewrite (decodes_byte b Hb pre post).
Qed.

(** [VarInt::read_async] accepts what [VarInt::write] writes. *)
Lemma decodes_async v : is_s 32 v -> decodes VarInt.read_async (leb 5 (u32 v)) v.
Proof.
  intros Hv. rewrite <- (i32_u32 v Hv) at 2. apply read_loop_leb; try done.
  - intros. by apply wraps_lor.
  - apply decodes_byte_async.
  - apply u32_digits.
Qed.

Lemma decodes_varint v : is_s 32 v -> decodes VarInt.read (leb 5 (u32 v)) v.
Proof.
  intros Hv. destruct (wire_varint_ok v Hv) as (bs & Hw & Hr).
  cbn [wire_varint wire_write wire_read] in Hw, Hr. rewrite varint_write_eq in Hw. by injection Hw as <-.
Qed.

(** A decoded value with its cursor started at the front of a buffer. *)
Lemma decodes_at_front {A} (r : Reader A) bs a rest :
  decodes r bs a -> r (mk_cursor (bs ++ rest) 0) = (Ok a, mk_cursor (bs ++ rest) (length bs)).
Proof. intros H. exact (H [] rest). Qed.

Lemma i32_u64 v : is_s 32 v -> i32 (u64 v) = v.
Proof.
  intros Hv. unfold i32, u64, wrapu. rewrite <- (wraps_id 32 v) at 2 by (done || lia).
  apply wraps_cong; [lia|]. change (2 ^ 64) with (2 ^ 32 * 2 ^ 32).
  rewrite Z.rem_mul_r by lia. rewrite Z.add_mod, (Z.mul_comm (2 ^ 32)), Z.mod_mul by lia.
  by rewrite Z.add_0_r, !Z.mod_mod by lia.
Qed.

Lemma small_s32 z : 0 <= z <= MAX_PACKET_DATA_SIZE + 10 -> is_s 32 z.
Proof. unfold is_s, MAX_PACKET_DATA_SIZE. change (2 ^ (32 - 1)) with 2147483648. lia. Qed.

Lemma small_i32 z : 0 <= z <= MAX_PACKET_DATA_SIZE + 10 -> i32 z = z.
Proof. intros. unfold i32. apply wraps_id; [lia|by apply small_s32]. Qed.

Lemma small_u64 z : 0 <= z <= MAX_PACKET_DATA_SIZE + 10 -> u64 z = z.
Proof.
  unfold MAX_PACKET_DATA_SIZE. intros. apply Z.mod_small.
  change (2 ^ 64) with 18446744073709551616. lia.
Qed.

(** The decoder sees exactly the bytes the encoder framed. *)
Lemma get_raw_packet_frame inflate compression pre body post :
  Z.of_nat (length body) <= MAX_PACKET_SIZE ->
  get_raw_packet inflate compression
    (mk_cursor (pre ++ (leb 5 (Z.of_nat (length body)) ++ body) ++ post) (length pre)) =
  (let? '(packet_buffer, start) := frame_body inflate compression body in
   parse_packet packet_buffer start,
   mk_cursor (pre ++ (leb 5 (Z.of_nat (length body)) ++ body) ++ post)
     (length pre + (length (leb 5 (Z.of_nat (length body))) + length body))).
Proof.
  intros Hlen. set (n := Z.of_nat (length body)) in *.
  assert (Hn : 0 <= n <= MAX_PACKET_DATA_SIZE + 10) by (unfold MAX_PACKET_SIZE, MAX_PACKET_DATA_SIZE in *; lia).
  assert (Hu : u32 n = n).
  { apply Z.mod_small. unfold MAX_PACKET_DATA_SIZE in Hn. change (2 ^ 32) with 4294967296. lia. }
  pose proof (decodes_async n (small_s32 n Hn)) as Hd. rewrite Hu in Hd.
  unfold get_raw_packet. rewrite <- !app_assoc. rewrite (Hd pre (body ++ post)).
  rewrite small_u64 by done. unfold MAX_PACKET_SIZE in *. zbool.
  pose proof (decodes_read_exact body (pre ++ leb 5 n) post) as Hr.
  rewrite length_app, <- app_assoc in Hr. unfold n at 1 2 3. rewrite Nat2Z.id.
  fold n. rewrite Hr. by rewrite Nat.add_assoc.
Qed.

(** ** The encoder, branch by branch *)

(** The bytes a packet contributes before framing: its id, then its body. *)
Definition bare_bytes (id : Z) (body : list Z) : list Z := leb 5 (u32 id) ++ body.

Lemma write_vec_ok p protocol id body :
  get_id p protocol = Some id -> packet_body p = Ok body ->
  exists v, write_vec p protocol = Ok v /\ FrontVec.wf v /\ FrontVec.front_space v = 6%nat /\
    FrontVec.as_slice v = bare_bytes id body.
Proof.
  intros Hid Hb. unfold write_vec, write_packet. rewrite Hid, varint_write_eq, Hb. cbn [map_err obind].
  eexists. split; [done|]. split; [by do 2 apply FrontVec.extend_wf; apply FrontVec.capacity_wf|].
  split; [done|]. rewrite !FrontVec.as_slice_extend by
    (try apply FrontVec.extend_wf; apply FrontVec.capacity_wf).
  by rewrite FrontVec.as_slice_capacity.
Qed.

(** Prepending any length needs at most five bytes of front space. *)
Lemma set_front_len {E} (x : Z) v :
  FrontVec.wf v -> (5 <= FrontVec.front_space v)%nat ->
  exists v', VarInt.set_in_front (E := E) (i32 x) v (VarInt.written_size (i32 x)) = Ok v' /\
    FrontVec.wf v' /\ FrontVec.as_slice v' = leb 5 (u32 (i32 x)) ++ FrontVec.as_slice v /\
    Z.of_nat (FrontVec.front_space v') = Z.of_nat (FrontVec.front_space v) - VarInt.written_size (i32 x).
Proof.
  intros Hwf Hsp. assert (Hs : is_s 32 (i32 x)) by (apply wraps_range; lia).
  apply varint_set_in_front_ok; try done. pose proof (varint_size_range _ Hs). lia.
Qed.

Lemma set_front_zero {E} v :
  FrontVec.wf v -> (1 <= FrontVec.front_space v)%nat ->
  exists v', VarInt.set_in_front (E := E) 0 v 1 = Ok v' /\ FrontVec.wf v' /\
    FrontVec.as_slice v' = 0 :: FrontVec.as_slice v /\
    FrontVec.front_space v' = (FrontVec.front_space v - 1)%nat.
Proof.
  intros Hwf Hsp. change 1 with (VarInt.written_size 0).
  destruct (varint_set_in_front_ok (E := E) 0 v) as (v' & Hv & Hwf' & Hs & Hf); try done.
  - change (VarInt.written_size 0) with 1. lia.
  - exists v'. change (VarInt.written_size 0) with 1 in Hf. repeat split; try done. lia.
Qed.

Lemma u32_small z : 0 <= z <= MAX_PACKET_DATA_SIZE + 10 -> u32 (i32 z) = z.
Proof.
  intros Hz. rewrite small_i32 by done. unfold MAX_PACKET_DATA_SIZE in Hz.
  apply Z.mod_small. change (2 ^ 32) with 4294967296. lia.
Qed.

Lemma uncompressed_ok v out :
  FrontVec.wf v -> FrontVec.front_space v = 6%nat ->
  from_data_uncompressed v = Ok out ->
  FrontVec.as_slice out =
    leb 5 (Z.of_nat (length (FrontVec.as_slice v))) ++ FrontVec.as_slice v.
Proof.
  intros Hwf Hsp. unfold from_data_uncompressed. rewrite FrontVec.len_as_slice.
  set (n := Z.of_nat (length (FrontVec.as_slice v))).
  destruct (Z.ltb_spec MAX_PACKET_SIZE (VarInt.written_size (i32 n) + n)) as [|Hle]; [done|].
  destruct (set_front_len (E := PacketError) n v) as (v' & -> & _ & Hs & _); [done|lia|].
  intros H. injection H as <-. rewrite Hs, u32_small; [done|].
  pose proof (varint_size_range (i32 n) ltac:(apply wraps_range; lia)).
  unfold MAX_PACKET_SIZE, MAX_PACKET_DATA_SIZE in *. lia.
Qed.

Lemma below_threshold_ok deflate v c :
  FrontVec.wf v -> FrontVec.front_space v = 6%nat ->
  Z.of_nat (length (FrontVec.as_slice v)) + 10 <= MAX_PACKET_DATA_SIZE ->
  Z.of_nat (length (FrontVec.as_slice v)) < threshold c ->
  exists out, from_packet_data deflate v c = Ok out /\
    FrontVec.as_slice out =
      leb 5 (Z.of_nat (length (0 :: FrontVec.as_slice v))) ++ 0 :: FrontVec.as_slice v.
Proof.
  intros Hwf Hsp Hmax Hth. unfold from_packet_data. rewrite FrontVec.len_as_slice.
  set (n := Z.of_nat (length (FrontVec.as_slice v))) in *.
  change (Z.of_nat VarInt.MAX_SIZE * 2) with 10. zbool.
  destruct (set_front_zero (E := PacketError) v) as (v1 & -> & Hwf1 & Hs1 & Hf1); [done|lia|].
  cbn [obind].
  destruct (set_front_len (E := PacketError) (n + 1) v1) as (v2 & -> & _ & Hs2 & _); [done|lia|].
  exists v2. split; [done|]. rewrite Hs2, Hs1, u32_small by (unfold MAX_PACKET_DATA_SIZE in *; lia).
  do 2 f_equal. simpl length. lia.
Qed.

Lemma compressed_ok deflate v c z :
  FrontVec.wf v ->
  Z.of_nat (length (FrontVec.as_slice v)) + 10 <= MAX_PACKET_DATA_SIZE ->
  threshold c <= Z.of_nat (length (FrontVec.as_slice v)) ->
  deflate (u32 (level c)) (FrontVec.as_slice v) = Ok z ->
  exists out, from_packet_data deflate v c = Ok out /\
    FrontVec.as_slice out =
      let inner := leb 5 (Z.of_nat (length (FrontVec.as_slice v))) ++ z in
      leb 5 (u32 (i32 (Z.of_nat (length inner)))) ++ inner.
Proof.
  intros Hwf Hmax Hth Hz. unfold from_packet_data. rewrite FrontVec.len_as_slice.
  set (n := Z.of_nat (length (FrontVec.as_slice v))) in *.
  change (Z.of_nat VarInt.MAX_SIZE * 2) with 10. zbool. rewrite Hz. cbn [map_err obind].
  set (b0 := FrontVec.extend_from_slice (FrontVec.new 10) z).
  assert (Hb0 : FrontVec.wf b0) by (apply FrontVec.extend_wf, FrontVec.capacity_wf).
  assert (Hs0 : FrontVec.as_slice b0 = z).
  { unfold b0. rewrite FrontVec.as_slice_extend by apply FrontVec.capacity_wf.
    unfold FrontVec.new. by rewrite FrontVec.as_slice_capacity. }
  assert (Hn : 0 <= n <= MAX_PACKET_DATA_SIZE + 10) by lia.
  pose proof (varint_size_range (i32 n) ltac:(apply wraps_range; lia)) as Hws.
  destruct (set_front_len (E := PacketError) n b0) as (v1 & -> & Hwf1 & Hs1 & Hf1); [done|cbn; lia|].
  cbn [obind]. rewrite FrontVec.len_as_slice, Hs0.
  set (full := VarInt.written_size (i32 n) + Z.of_nat (length z)).
  destruct (set_front_len (E := PacketError) full v1) as (v2 & -> & _ & Hs2 & _); [done| |].
  { change (Z.of_nat (FrontVec.front_space b0)) with 10 in Hf1. lia. }
  exists v2. split; [done|]. rewrite Hs2, Hs1, Hs0, (u32_small n) by done. cbv zeta.
  assert (Hfull : full = Z.of_nat (length (leb 5 n ++ z))); [|by rewrite Hfull].
  unfold full. rewrite varint_written_size_eq by (apply wraps_range; lia).
  rewrite u32_small, length_app by done. lia.
Qed.

(** ** The decoder on what the encoder produced *)

Lemma parse_packet_at buffer start id body :
  is_s 32 id -> (start <= length buffer)%nat -> drop start buffer = bare_bytes id body ->
  Z.of_nat (length buffer) <= MAX_PACKET_DATA_SIZE ->
  exists raw, parse_packet buffer start = Ok raw /\ raw_id raw = id /\ raw_payload raw = body.
Proof.
  intros Hid Hst Hd Hmax. unfold parse_packet. rewrite decide_False by lia. rewrite Hd.
  unfold bare_bytes. rewrite (decodes_at_front _ _ _ _ (decodes_varint id Hid)). cbn [cur_pos].
  assert (Hl : (start + length (leb 5 (u32 id)) <= length buffer)%nat).
  { apply (f_equal length) in Hd. rewrite length_drop in Hd. unfold bare_bytes in Hd.
    rewrite length_app in Hd. lia. }
  unfold raw_from_buffer. rewrite decide_False by lia.
  rewrite (proj2 (Z.ltb_ge _ _)) by lia. eexists. split; [done|]. split; [done|].
  unfold raw_payload. cbn [raw_payload_start raw_buffer]. unfold u32, MAX_PACKET_DATA_SIZE in *.
  rewrite wrapu_id by (unfold is_u; change (2 ^ 32) with 4294967296; lia).
  rewrite Nat2Z.id, <- drop_drop, Hd. unfold bare_bytes. apply drop_app_length.
Qed.

Lemma frame_body_zero inflate th data :
  Z.of_nat (length data) <= th ->
  frame_body inflate (Some th) (0 :: data) = Ok (0 :: data, 1%nat).
Proof.
  intros Hth. unfold frame_body. change (0 :: data) with (leb 5 (u32 0) ++ data) at 1.
  rewrite (decodes_at_front _ _ _ _ (decodes_varint 0 ltac:(done))).
  change (i32 (u64 0)) with 0. change (VarInt.written_size 0) with 1.
  change (u64 0) with 0. change (length (leb 5 (u32 0))) with 1%nat. cbn [length cur_pos].
  unfold MAX_PACKET_DATA_SIZE. zbool. done.
Qed.

Lemma frame_body_compressed inflate th data z :
  0 < Z.of_nat (length data) <= MAX_PACKET_DATA_SIZE -> inflate z = (data, None) ->
  frame_body inflate (Some th) (leb 5 (Z.of_nat (length data)) ++ z) = Ok (data, 0%nat).
Proof.
  intros Hlen Hz. unfold frame_body. set (n := Z.of_nat (length data)) in *.
  assert (Hn : 0 <= n <= MAX_PACKET_DATA_SIZE + 10) by lia.
  assert (Hu : u32 n = n) by (rewrite <- (u32_small n Hn) at 2; by rewrite small_i32).
  pose proof (decodes_varint n (small_s32 n Hn)) as Hd. rewrite Hu in Hd.
  rewrite (decodes_at_front _ _ _ _ Hd). rewrite small_u64, small_i32 by done. cbn [cur_pos cur_data].
  rewrite varint_written_size_eq, Hu, length_app by by apply small_s32.
  zbool. rewrite drop_app_length. unfold decompress. rewrite Hz. unfold n. rewrite Nat2Z.id.
  rewrite decide_True, decide_False by lia. done.
Qed.

(** ** Properties *)

Section RoundTrip.
Context (deflate : Z -> list Z -> outcome string (list Z)).
Context (inflate : list Z -> list Z * option string).

(** A zlib decoder yields exactly the bytes that were compressed. *)
Definition zlib_inverse : Prop :=
  forall lvl data z, deflate lvl data = Ok z -> inflate z = (data, None).

Context (zlib : zlib_inverse).

(** Every accepted buffer becomes one length-prefixed frame whose body the
    decoder turns back into the buffer's bytes. *)
Lemma from_data_frame b compression v :
  FrontVec.wf b -> FrontVec.front_space b = 6%nat -> FrontVec.as_slice b <> [] ->
  from_data deflate b compression = Ok v ->
  Z.of_nat (length (FrontVec.as_slice v)) <= MAX_PACKET_SIZE ->
  exists inner buffer start,
    FrontVec.as_slice v = leb 5 (Z.of_nat (length inner)) ++ inner /\
    frame_body inflate (threshold <$> compression) inner = Ok (buffer, start) /\
    (start <= length buffer)%nat /\ drop start buffer = FrontVec.as_slice b /\
    Z.of_nat (length buffer) <= MAX_PACKET_DATA_SIZE.
Proof.
  intros Hwf Hsp Hne Hv Hmax.
  assert (Hpos : (0 < length (FrontVec.as_slice b))%nat)
    by (destruct (FrontVec.as_slice b); [done | simpl; lia]).
  destruct compression as [c|]; cbn [from_data fmap option_fmap option_map] in *.
  - destruct (Z.le_gt_cases (Z.of_nat (length (FrontVec.as_slice b)) + 10) MAX_PACKET_DATA_SIZE) as [Hd|Hd].
    2: { unfold from_packet_data in Hv. rewrite FrontVec.len_as_slice in Hv.
         change (Z.of_nat VarInt.MAX_SIZE * 2) with 10 in Hv.
         by rewrite (proj2 (Z.ltb_lt _ _)) in Hv by lia. }
    destruct (Z.le_gt_cases (threshold c) (Z.of_nat (length (FrontVec.as_slice b)))) as [Ht|Ht].
    + destruct (deflate (u32 (level c)) (FrontVec.as_slice b)) as [z|e|] eqn:Ez.
      2, 3: unfold from_packet_data in Hv; rewrite FrontVec.len_as_slice, Ez in Hv;
        change (Z.of_nat VarInt.MAX_SIZE * 2) with 10 in Hv;
        by rewrite (proj2 (Z.ltb_ge _ _)), (proj2 (Z.leb_le _ _)) in Hv by lia.
      destruct (compressed_ok deflate b c z Hwf Hd Ht Ez) as (out & Ho & Hs).
      rewrite Ho in Hv. injection Hv as ->. cbv zeta in Hs.
      set (inner := leb 5 (Z.of_nat (length (FrontVec.as_slice b))) ++ z) in *.
      assert (length inner <= length (FrontVec.as_slice v))%nat by (rewrite Hs, length_app; lia).
      rewrite u32_small in Hs by (unfold MAX_PACKET_SIZE, MAX_PACKET_DATA_SIZE in *; lia).
      exists inner, (FrontVec.as_slice b), 0%nat. split; [done|].
      split; [apply frame_body_compressed; [lia | by eapply zlib]|].
      split; [lia|]. split; [by rewrite drop_0|lia].
    + destruct (below_threshold_ok deflate b c Hwf Hsp Hd Ht) as (out & Ho & Hs).
      rewrite Ho in Hv. injection Hv as ->.
      exists (0 :: FrontVec.as_slice b), (0 :: FrontVec.as_slice b), 1%nat.
      split; [done|]. split; [apply frame_body_zero; lia|]. simpl length.
      split; [lia|]. split; [done|lia].
  - apply uncompressed_ok in Hv; [|done|done].
    exists (FrontVec.as_slice b), (FrontVec.as_slice b), 0%nat. split; [done|]. split; [done|].
    split; [lia|]. rewrite drop_0. split; [done|]. rewrite Hv, length_app in Hmax.
    unfold MAX_PACKET_SIZE, MAX_PACKET_DATA_SIZE in *. lia.
Qed.

(** C1: framing round trip. Whatever the compression setting, if the encoder
    accepts a packet and the frame respects the protocol's size limit, then
    the decoder with the same threshold, reading the frame anywhere in a
    stream, returns the packet's id and exactly its body, and stops at the
    end of the frame. *)
Theorem packet_roundtrip p compression protocol id body v pre post :
  get_id p protocol = Some id -> is_s 32 id -> packet_body p = Ok body ->
  (forall c, compression = Some c -> compression_wf c) ->
  from_bare deflate p compression protocol = Ok v ->
  Z.of_nat (length (FrontVec.as_slice v)) <= MAX_PACKET_SIZE ->
  exists raw,
    get_raw_packet inflate (threshold <$> compression)
      (mk_cursor (pre ++ FrontVec.as_slice v ++ post) (length pre)) =
      (Ok raw, mk_cursor (pre ++ FrontVec.as_slice v ++ post)
                 (length pre + length (FrontVec.as_slice v))) /\
    raw_id raw = id /\ raw_payload raw = body.
Proof.
  intros Hid Hids Hbody Hc Hv Hmax. unfold from_bare in Hv.
  destruct (write_vec_ok p protocol id body Hid Hbody) as (b & Hw & Hwf & Hsp & Hs).
  rewrite Hw in Hv. cbn [obind] in Hv.
  assert (Hne : FrontVec.as_slice b <> []).
  { rewrite Hs. unfold bare_bytes. destruct (leb 5 (u32 id)) eqn:E; [|done].
    by apply leb_nonempty in E. }
  destruct (from_data_frame b compression v Hwf Hsp Hne Hv Hmax)
    as (inner & buffer & start & Hv' & Hf & Hst & Hd & Hlen).
  rewrite Hs in Hd. destruct (parse_packet_at buffer start id body Hids Hst Hd Hlen)
    as (raw & Hraw & Hrid & Hrp).
  exists raw. split; [|done]. rewrite Hv' in *.
  rewrite get_raw_packet_frame by (rewrite length_app in Hmax; lia).
  rewrite Hf. cbn [obind]. by rewrite Hraw, length_app.
Qed.
End RoundTrip.

(** A compressor that stores its input, the simplest pair that satisfies
    [zlib_inverse]. *)
Definition stored_deflate (_ : Z) (data : list Z) : outcome string (list Z) := Ok (7 :: data).
Definition stored_inflate (z : list Z) : list Z * option string :=
  match z with
  | 7 :: data => (data, None)
  | _ => ([], Some "corrupt deflate stream"%string)
  end.

Lemma stored_zlib : zlib_inverse stored_deflate stored_inflate.
Proof. intros lvl data z H. by injection H as <-. Qed.

Definition ping_packet : ClientPacket :=
  mk_client (fun pr => if decide (pr = Play) then Some 300 else None) (Ok [1; 2; 3]).

Lemma packet_roundtrip_witness :
  exists v raw,
    from_bare stored_deflate ping_packet (Some (mk_compression 4 4)) Play = Ok v /\
    get_raw_packet stored_inflate (Some 4) (mk_cursor ([9] ++ FrontVec.as_slice v ++ [8]) 1) =
      (Ok raw, mk_cursor ([9] ++ FrontVec.as_slice v ++ [8]) (1 + length (FrontVec.as_slice v))) /\
    raw_id raw = 300 /\ raw_payload raw = [1; 2; 3].
Proof.
  destruct (from_bare stored_deflate ping_packet (Some (mk_compression 4 4)) Play) as [v|e|] eqn:E;
    [|vm_compute in E; discriminate E|vm_compute in E; discriminate E].
  destruct (packet_roundtrip stored_deflate stored_inflate stored_zlib ping_packet
    (Some (mk_compression 4 4)) Play 300 [1; 2; 3] v [9] [8]) as (raw & H1 & H2 & H3).
  - reflexivity.
  - unfold is_s. cbn. lia.
  - reflexivity.
  - intros c Hc. injection Hc as <-. unfold compression_wf, is_u, is_s. cbn. lia.
  - exact E.
  - vm_compute in E. injection E as <-. vm_compute. discriminate.
  - exists v, raw. auto.
Defined.

(** ** Arbitrary input *)

(** The result of a [VarInt] read at the front of a buffer stays inside it. *)
Lemma varint_read_front data v c :
  VarInt.read (mk_cursor data 0) = (Ok v, c) ->
  is_s 32 v /\ cur_data c = data /\ (cur_pos c <= length data)%nat /\
  VarInt.written_size v <= Z.of_nat (length data).
Proof.
  intros H. apply varint_read_inv in H as (bs & rest & Hd & _ & -> & -> & _ & Hw).
  cbn [cur_pos cur_data] in *. rewrite drop_0 in Hd.
  assert (length bs <= length data)%nat by (rewrite Hd, length_app; lia).
  split; [apply wraps_range; lia|]. split; [done|]. split; lia.
Qed.

Lemma varint_read_no_panic c : no_panic (VarInt.read c).1.
Proof. apply read_loop_no_panic, read_u8_no_panic. Qed.

Definition raw_wf (p : RawPacket) : Prop :=
  is_s 32 (raw_id p) /\ raw_payload_start p <= Z.of_nat (length (raw_buffer p)) <= MAX_PACKET_DATA_SIZE /\
  0 <= raw_payload_start p.

(** An outcome that is not a panic and whose value satisfies [P]. *)
Definition safe {E A} (P : A -> Prop) (o : outcome E A) : Prop :=
  match o with Ok a => P a | Err _ => True | Panic => False end.

Lemma parse_packet_safe buffer start :
  (start <= length buffer)%nat -> Z.of_nat (length buffer) <= MAX_PACKET_DATA_SIZE ->
  safe raw_wf (parse_packet buffer start).
Proof.
  intros Hst Hmax. unfold parse_packet. rewrite decide_False by lia.
  pose proof (varint_read_no_panic (mk_cursor (drop start buffer) 0)) as Hnp.
  destruct (VarInt.read (mk_cursor (drop start buffer) 0)) as [[v|e|] c] eqn:E; [|done|done].
  apply varint_read_front in E as (Hs & Hdata & Hpos & _). rewrite length_drop in Hpos.
  assert (start + cur_pos c <= length buffer)%nat by lia.
  unfold raw_from_buffer. rewrite decide_False by lia. rewrite (proj2 (Z.ltb_ge _ _)) by lia.
  cbn [safe]. unfold raw_wf. cbn. unfold u32. unfold MAX_PACKET_DATA_SIZE in *.
  rewrite wrapu_id by (unfold is_u; change (2 ^ 32) with 4294967296; lia). split; [done|lia].
Qed.

Lemma decompress_safe inflate n input :
  safe (fun d => length d = n) (decompress inflate n input).
Proof.
  unfold decompress. destruct (inflate input) as [out [e|]]; repeat case_decide; cbn; try done; lia.
Qed.

Lemma frame_body_safe inflate compression data :
  Z.of_nat (length data) <= MAX_PACKET_SIZE ->
  safe (fun '(buffer, start) => (start <= length buffer)%nat /\
          Z.of_nat (length buffer) <= MAX_PACKET_DATA_SIZE) (frame_body inflate compression data).
Proof.
  intros Hlen. assert (Hm : MAX_PACKET_SIZE <= MAX_PACKET_DATA_SIZE) by (vm_compute; discriminate).
  unfold frame_body. destruct compression as [th|]; [|cbn; lia].
  pose proof (varint_read_no_panic (mk_cursor data 0)) as Hnp.
  destruct (VarInt.read (mk_cursor data 0)) as [[v|e|] c] eqn:E; [|done|done].
  apply varint_read_front in E as (Hs & Hdata & Hpos & Hw). rewrite i32_u64 by done.
  rewrite (proj2 (Z.ltb_ge _ _)) by lia.
  destruct (Z.ltb_spec MAX_PACKET_DATA_SIZE (u64 v)); [done|].
  destruct (Z.ltb_spec 0 (u64 v)).
  - pose proof (decompress_safe inflate (Z.to_nat (u64 v)) (drop (cur_pos c) (cur_data c))) as Hd.
    destruct (decompress _ _ _) as [d|e|]; cbn in *; [lia|done|done].
  - destruct (th <? _); cbn; [done|]. lia.
Qed.

(** C16: a hostile peer cannot make the packet decoder panic: on every byte
    stream and every compression setting, [get_raw_packet] returns an error or
    a packet whose buffer respects the size limit and whose payload offset
    lies inside its buffer. *)
Theorem decoder_never_panics inflate compression stream :
  safe raw_wf (get_raw_packet inflate compression stream).1.
Proof.
  unfold get_raw_packet.
  pose proof (read_loop_no_panic i32 VarInt.read_u8_async (error_other "VarInt") VarInt.MAX_SIZE 0 0
    stream read_u8_async_no_panic) as Hnp. fold VarInt.read_async in Hnp.
  destruct (VarInt.read_async stream) as [[v|e|] s]; [|done|done].
  destruct (Z.ltb_spec MAX_PACKET_SIZE (u64 v)); [done|].
  unfold read_exact. case_decide as Hl; cbn; [|done].
  pose proof (frame_body_safe inflate compression
    (take (Z.to_nat (u64 v)) (drop (cur_pos s) (cur_data s)))) as Hf.
  rewrite length_take, Nat.min_l in Hf by done.
  pose proof (u64_range v) as Hu. unfold is_u in Hu. specialize (Hf ltac:(lia)).
  destruct (frame_body _ _ _) as [[buffer start]|e|]; cbn in *; [|done|done].
  apply parse_packet_safe; lia.
Qed.

(** Encoding a packet never panics: with the six bytes of front space the
    server reserves, every prefix fits, whatever the body, the compression
    setting and the compressor's output. *)
Theorem encoder_never_panics deflate p compression protocol :
  no_panic (packet_body p) -> (forall l d, no_panic (deflate l d)) ->
  no_panic (from_bare deflate p compression protocol).
Proof.
  intros Hb Hz. unfold from_bare.
  destruct (get_id p protocol) as [id|] eqn:Hid;
    [|unfold write_vec, write_packet; by rewrite Hid].
  destruct (packet_body p) as [body|e|] eqn:Hbody; [| |done].
  2: { unfold write_vec, write_packet. by rewrite Hid, varint_write_eq, Hbody. }
  destruct (write_vec_ok p protocol id body Hid Hbody) as (b & -> & Hwf & Hsp & Hs).
  cbn [obind]. destruct compression as [c|]; cbn [from_data].
  - destruct (Z.le_gt_cases (Z.of_nat (length (FrontVec.as_slice b)) + 10) MAX_PACKET_DATA_SIZE) as [Hd|Hd].
    + destruct (Z.le_gt_cases (threshold c) (Z.of_nat (length (FrontVec.as_slice b)))) as [Ht|Ht].
      * destruct (deflate (u32 (level c)) (FrontVec.as_slice b)) as [z|e|] eqn:Ez.
        -- by destruct (compressed_ok deflate b c z Hwf Hd Ht Ez) as (out & -> & _).
        -- unfold from_packet_data. rewrite FrontVec.len_as_slice, Ez.
           change (Z.of_nat VarInt.MAX_SIZE * 2) with 10. by zbool.
        -- specialize (Hz (u32 (level c)) (FrontVec.as_slice b)). by rewrite Ez in Hz.
      * by destruct (below_threshold_ok deflate b c Hwf Hsp Hd Ht) as (out & -> & _).
    + unfold from_packet_data. rewrite FrontVec.len_as_slice.
      change (Z.of_nat VarInt.MAX_SIZE * 2) with 10. by zbool.
  - unfold from_data_uncompressed. destruct (_ <? _); [done|].
    rewrite FrontVec.len_as_slice.
    by destruct (set_front_len (E := PacketError) (Z.of_nat (length (FrontVec.as_slice b))) b)
      as (v' & -> & _); [done|lia|].
Qed.

Lemma encoder_never_panics_witness :
  no_panic (from_bare stored_deflate ping_packet (Some compression_default) Play).
Proof. apply encoder_never_panics; [exact I|]. intros l d. exact I. Defined.

(** With compression enabled the encoder enforces only the 8 MiB data
    limit: a packet that stays below the compression threshold is framed even
    when the frame exceeds [MAX_PACKET_SIZE], and the decoder of the same
    protocol refuses such a frame as out of bounds. *)
Theorem oversized_frame_refused deflate inflate b c pre post :
  FrontVec.wf b -> FrontVec.front_space b = 6%nat ->
  MAX_PACKET_SIZE <= Z.of_nat (length (FrontVec.as_slice b)) ->
  Z.of_nat (length (FrontVec.as_slice b)) + 10 <= MAX_PACKET_DATA_SIZE ->
  Z.of_nat (length (FrontVec.as_slice b)) < threshold c ->
  exists v, from_data deflate b (Some c) = Ok v /\
    (get_raw_packet inflate (Some (threshold c))
       (mk_cursor (pre ++ FrontVec.as_slice v ++ post) (length pre))).1 = Err OutOfBounds.
Proof.
  intros Hwf Hsp Hbig Hmax Hth.
  destruct (below_threshold_ok deflate b c Hwf Hsp Hmax Hth) as (v & Hv & Hs).
  exists v. split; [done|]. rewrite Hs. set (inner := 0 :: FrontVec.as_slice b).
  assert (Hin : Z.of_nat (length inner) = Z.of_nat (length (FrontVec.as_slice b)) + 1)
    by (unfold inner; simpl length; lia).
  set (n := Z.of_nat (length inner)) in *. clearbody n.
  assert (Hn : 0 <= n <= MAX_PACKET_DATA_SIZE + 10) by (unfold MAX_PACKET_SIZE, MAX_PACKET_DATA_SIZE in *; lia).
  assert (Hu : u32 n = n) by (rewrite <- (u32_small n Hn) at 2; by rewrite small_i32).
  pose proof (decodes_async n (small_s32 n Hn)) as Hd. rewrite Hu in Hd.
  unfold get_raw_packet. rewrite <- app_assoc, (Hd pre (inner ++ post)), small_u64 by done.
  by rewrite (proj2 (Z.ltb_lt _ _)) by lia.
Qed.

Lemma oversized_frame_refused_witness :
  exists v, from_data stored_deflate
      (FrontVec.extend_from_slice (FrontVec.new 6) (replicate (Z.to_nat 3000000) 0))
      (Some (mk_compression 4000000 4)) = Ok v /\
    (get_raw_packet stored_inflate (Some 4000000)
       (mk_cursor ([] ++ FrontVec.as_slice v ++ []) 0)).1 = Err OutOfBounds.
Proof.
  set (b := FrontVec.extend_from_slice (FrontVec.new 6) (replicate (Z.to_nat 3000000) 0)).
  assert (Hlen : Z.of_nat (length (FrontVec.as_slice b)) = 3000000).
  { unfold b. rewrite FrontVec.as_slice_extend by apply FrontVec.capacity_wf.
    unfold FrontVec.new. rewrite FrontVec.as_slice_capacity. cbn [app].
    rewrite length_replicate. lia. }
  apply (oversized_frame_refused stored_deflate stored_inflate b (mk_compression 4000000 4) [] []).
  - apply FrontVec.extend_wf, FrontVec.capacity_wf.
  - reflexivity.
  - rewrite Hlen. vm_compute. discriminate.
  - rewrite Hlen. vm_compute. discriminate.
  - rewrite Hlen. reflexivity.
Defined.
