(* ===== verification/Position.v ===== *)
(** * Positions and their packed forms

    Models [steel-utils/src/types/position.rs] (chunk, block and section
    positions, the box iterator and the Manhattan-distance iterator),
    [packed_position.rs] (the 64-bit, 16-bit and 8-bit packed layouts) and the
    geometry of [direction.rs].

    Coordinates are [i32]; the additions of the source wrap as they do in a
    release build, and the theorems name the ranges in which they do not. *)

From stdpp Require Import prelude list countable sorting.
From S2P Require Import Prelude Io.

(** ** Directions *)

Inductive Axis := AxisX | AxisY | AxisZ.
Inductive Direction := Down | Up | North | South | West | East.

#[export] Instance Axis_eq_dec : EqDecision Axis.
Proof. solve_decision. Defined.
#[export] Instance Direction_eq_dec : EqDecision Direction.
Proof. solve_decision. Defined.

Record BlockPos := mk_block { bx : Z; by_ : Z; bz : Z }.
Record ChunkPos := mk_chunk { cx : Z; cy : Z }.
Record SectionPos := mk_section { sx : Z; sy : Z; sz : Z }.

#[export] Instance BlockPos_eq_dec : EqDecision BlockPos.
Proof. solve_decision. Defined.
#[export] Instance ChunkPos_eq_dec : EqDecision ChunkPos.
Proof. solve_decision. Defined.
#[export] Instance SectionPos_eq_dec : EqDecision SectionPos.
Proof. solve_decision. Defined.

#[export] Program Instance BlockPos_countable : Countable BlockPos :=
  inj_countable' (fun p => (bx p, by_ p, bz p)) (fun t => mk_block t.1.1 t.1.2 t.2) _.
Next Obligation. by intros []. Qed.
#[export] Program Instance ChunkPos_countable : Countable ChunkPos :=
  inj_countable' (fun p => (cx p, cy p)) (fun t => mk_chunk t.1 t.2) _.
Next Obligation. by intros []. Qed.

Definition dir_offset (d : Direction) : Z * Z * Z :=
  match d with
  | Down => (0, -1, 0)
  | Up => (0, 1, 0)
  | North => (0, 0, -1)
  | South => (0, 0, 1)
  | West => (-1, 0, 0)
  | East => (1, 0, 0)
  end.

Definition get_axis (d : Direction) : Axis :=
  match d with
  | Down | Up => AxisY
  | North | South => AxisZ
  | West | East => AxisX
  end.

Definition opposite (d : Direction) : Direction :=
  match d with
  | Down => Up
  | Up => Down
  | North => South
  | South => North
  | West => East
  | East => West
  end.

Definition get_3d_data_value (d : Direction) : Z :=
  match d with Down => 0 | Up => 1 | North => 2 | South => 3 | West => 4 | East => 5 end.

(** ** Block positions *)

Definition offset (p : BlockPos) (dx dy dz : Z) : BlockPos :=
  mk_block (i32 (bx p + dx)) (i32 (by_ p + dy)) (i32 (bz p + dz)).

Definition above (p : BlockPos) := offset p 0 1 0.
Definition below (p : BlockPos) := offset p 0 (-1) 0.
Definition north (p : BlockPos) := offset p 0 0 (-1).
Definition south (p : BlockPos) := offset p 0 0 1.
Definition west (p : BlockPos) := offset p (-1) 0 0.
Definition east (p : BlockPos) := offset p 1 0 0.

Definition relative (p : BlockPos) (d : Direction) : BlockPos :=
  let '(x, y, z) := dir_offset d in offset p x y z.

(** [Vec3i.hashCode]: all operations wrap. *)
Definition java_hash_code (p : BlockPos) : Z :=
  i32 (i32 (i32 (by_ p + i32 (bz p * 31)) * 31) + bx p).

Definition is_block (p : BlockPos) : Prop := is_s 32 (bx p) /\ is_s 32 (by_ p) /\ is_s 32 (bz p).

(** ** Sections and chunks *)

Definition SECTION_MASK : Z := 15.
Definition block_to_section_coord (c : Z) : Z := Z.shiftr c 4.

Definition chunk_from_block_pos (p : BlockPos) : ChunkPos :=
  mk_chunk (block_to_section_coord (bx p)) (block_to_section_coord (bz p)).
Definition section_from_block_pos (p : BlockPos) : SectionPos :=
  mk_section (block_to_section_coord (bx p)) (block_to_section_coord (by_ p))
    (block_to_section_coord (bz p)).

Definition MAX_HORIZONTAL_COORDINATE : Z := Z.quot (Z.shiftl 1 26) 2 - 1.
Definition SAFETY_MARGIN_CHUNKS : Z := (32 + 12 + 1) * 2.
Definition MAX_COORDINATE_VALUE : Z :=
  block_to_section_coord MAX_HORIZONTAL_COORDINATE - SAFETY_MARGIN_CHUNKS.

Definition chunk_is_valid (x z : Z) : bool :=
  Z.max (i32 (Z.abs x)) (i32 (Z.abs z)) <=? MAX_COORDINATE_VALUE.

Definition chunk_neighbors (c : ChunkPos) : list ChunkPos :=
  (fun '(dx, dy) => mk_chunk (i32 (cx c + dx)) (i32 (cy c + dy))) <$>
    [(-1, -1); (0, -1); (1, -1); (-1, 0); (1, 0); (-1, 1); (0, 1); (1, 1)].

(** ** Packed layouts *)

Module PackedChunkPos.
Definition of_chunk (p : ChunkPos) : Z :=
  Z.lor (Z.land (cx p) 0xFFFFFFFF) (i64 (Z.shiftl (Z.land (cy p) 0xFFFFFFFF) 32)).
Definition to_chunk_pos (raw : Z) : ChunkPos :=
  mk_chunk (i32 (Z.land raw 0xFFFFFFFF)) (i32 (Z.shiftr raw 32)).
End PackedChunkPos.

Module PackedBlockPos.
Definition HORIZONTAL_BITS : Z := 26.
Definition Y_BITS : Z := 12.
Definition X_OFFSET : Z := HORIZONTAL_BITS + Y_BITS.
Definition Z_OFFSET : Z := Y_BITS.
Definition XZ_MASK : Z := Z.shiftl 1 HORIZONTAL_BITS - 1.
Definition Y_MASK : Z := Z.shiftl 1 Y_BITS - 1.

Definition of_block (p : BlockPos) : Z :=
  Z.lor (Z.lor (i64 (Z.shiftl (Z.land (bx p) XZ_MASK) X_OFFSET))
               (i64 (Z.shiftl (Z.land (bz p) XZ_MASK) Z_OFFSET)))
        (Z.land (by_ p) Y_MASK).

Definition to_block_pos (raw : Z) : BlockPos :=
  let x := Z.shiftr raw X_OFFSET in
  let y := Z.land raw Y_MASK in
  let z := Z.land (Z.shiftr raw Z_OFFSET) XZ_MASK in
  mk_block (i32 (sext 64 HORIZONTAL_BITS x)) (i32 (sext 64 Y_BITS y)) (i32 (sext 64 HORIZONTAL_BITS z)).
End PackedBlockPos.

Module PackedSectionPos.
Definition XZ_BITS : Z := 22.
Definition Y_BITS : Z := 20.
Definition X_OFFSET : Z := XZ_BITS + Y_BITS.
Definition Z_OFFSET : Z := Y_BITS.
Definition XZ_MASK : Z := Z.shiftl 1 XZ_BITS - 1.
Definition Y_MASK : Z := Z.shiftl 1 Y_BITS - 1.

Definition of_section (p : SectionPos) : Z :=
  Z.lor (Z.lor (i64 (Z.shiftl (Z.land (sx p) XZ_MASK) X_OFFSET))
               (i64 (Z.shiftl (Z.land (sz p) XZ_MASK) Z_OFFSET)))
        (Z.land (sy p) Y_MASK).

Definition to_section_pos (raw : Z) : SectionPos :=
  let x := Z.shiftr raw X_OFFSET in
  let z := Z.land (Z.shiftr raw Z_OFFSET) XZ_MASK in
  let y := Z.land raw Y_MASK in
  mk_section (i32 (sext 64 XZ_BITS x)) (i32 (sext 64 Y_BITS y)) (i32 (sext 64 XZ_BITS z)).
End PackedSectionPos.

Module PackedChunkLocalXZ.
Definition from_local_unchecked (x z : Z) : Z := Z.lor (u8 (Z.shiftl x 4)) z.
Definition from_block_pos (p : BlockPos) : Z :=
  from_local_unchecked (u8 (Z.land (bx p) SECTION_MASK)) (u8 (Z.land (bz p) SECTION_MASK)).
Definition from_local_xz (x z : Z) : option Z :=
  if (x <? 16) && (z <? 16) then Some (from_local_unchecked x z) else None.
Definition x (raw : Z) : Z := Z.land (Z.shiftr raw 4) 0x0f.
Definition z (raw : Z) : Z := Z.land raw 0x0f.
End PackedChunkLocalXZ.

Module PackedSectionBlockPos.
Definition RAW_MASK : Z := 0x0fff.
Definition from_local_unchecked (x y z : Z) : Z :=
  Z.lor (Z.lor (wrapu 16 (Z.shiftl x 8)) (wrapu 16 (Z.shiftl z 4))) y.
Definition from_block_pos (p : BlockPos) : Z :=
  from_local_unchecked (u8 (Z.land (bx p) SECTION_MASK)) (u8 (Z.land (by_ p) SECTION_MASK))
    (u8 (Z.land (bz p) SECTION_MASK)).
Definition from_local_xyz (x y z : Z) : option Z :=
  if (x <? 16) && (y <? 16) && (z <? 16) then Some (from_local_unchecked x y z) else None.
(** [raw & !RAW_MASK == 0] on [u16]. *)
Definition from_raw (raw : Z) : option Z :=
  if Z.land raw (wrapu 16 (Z.lnot RAW_MASK)) =? 0 then Some raw else None.
Definition x (raw : Z) : Z := u8 (Z.land (Z.shiftr raw 8) 0x0f).
Definition y (raw : Z) : Z := u8 (Z.land raw 0x0f).
Definition z (raw : Z) : Z := u8 (Z.land (Z.shiftr raw 4) 0x0f).
End PackedSectionBlockPos.

Definition relative_to_block_x (s : SectionPos) (r : Z) : Z :=
  i32 (i32 (Z.shiftl (sx s) 4) + PackedSectionBlockPos.x r).
Definition relative_to_block_y (s : SectionPos) (r : Z) : Z :=
  i32 (i32 (Z.shiftl (sy s) 4) + PackedSectionBlockPos.y r).
Definition relative_to_block_z (s : SectionPos) (r : Z) : Z :=
  i32 (i32 (Z.shiftl (sz s) 4) + PackedSectionBlockPos.z r).
Definition relative_to_block_pos (s : SectionPos) (r : Z) : BlockPos :=
  mk_block (relative_to_block_x s r) (relative_to_block_y s r) (relative_to_block_z s r).

(** Block and section positions on the wire. *)
Definition read_block_pos : Reader BlockPos := r <-- read_i64 ;; rret (PackedBlockPos.to_block_pos r).
Definition write_block_pos : Writer BlockPos := fun p => write_i64 (PackedBlockPos.of_block p).
Definition read_section_pos : Reader SectionPos := r <-- read_i64 ;; rret (PackedSectionPos.to_section_pos r).
Definition write_section_pos : Writer SectionPos := fun p => write_i64 (PackedSectionPos.of_section p).

(** ** Bijections *)

(** The three-field layout shared by block and section positions: [x] above
    [z] above [y], with [h] bits for [x] and [z] and [v] bits for [y]. *)
Section ThreeFields.
Context (h v : Z) (Hh : 0 < h <= 32) (Hv : 0 < v <= 32) (Hsum : 2 * h + v = 64).

Definition pack3 (x y z : Z) : Z :=
  Z.lor (Z.lor (i64 (Z.shiftl (Z.land x (Z.ones h)) (h + v)))
               (i64 (Z.shiftl (Z.land z (Z.ones h)) v)))
        (Z.land y (Z.ones v)).

Lemma pack3_bit x y z i :
  0 <= i < 64 ->
  Z.testbit (pack3 x y z) i =
    if i <? v then Z.testbit y i
    else if i <? h + v then Z.testbit z (i - v) else Z.testbit x (i - (h + v)).
Proof.
  intros Hi. unfold pack3, i64. rewrite !Z.lor_spec, !wraps_testbit, !Z.shiftl_spec by lia.
  replace (Z.min i (64 - 1)) with i by lia.
  destruct (Z.ltb_spec i v).
  - rewrite (Z.testbit_neg_r _ (i - (h + v))), (Z.testbit_neg_r _ (i - v)) by lia. bits.
    zbool. by rewrite andb_true_r.
  - rewrite (Z.land_spec y), Z.testbit_ones_nonneg by lia.
    destruct (Z.ltb_spec i (h + v)).
    + rewrite (Z.testbit_neg_r _ (i - (h + v))) by lia. bits. zbool.
      by rewrite andb_true_r, andb_false_r, orb_false_r.
    + bits. zbool. by rewrite andb_true_r, !andb_false_r, !orb_false_r.
Qed.

Lemma pack3_x x y z : wraps h (Z.shiftr (pack3 x y z) (h + v)) = wraps h x.
Proof.
  apply Z.bits_inj'. intros i Hi. rewrite !wraps_testbit, Z.shiftr_spec, pack3_bit by lia.
  zbool. f_equal. lia.
Qed.

Lemma pack3_z x y z : wraps h (Z.land (Z.shiftr (pack3 x y z) v) (Z.ones h)) = wraps h z.
Proof.
  apply Z.bits_inj'. intros i Hi.
  rewrite !wraps_testbit, Z.land_spec, Z.testbit_ones_nonneg, Z.shiftr_spec, pack3_bit by lia.
  zbool. rewrite andb_true_r. f_equal. lia.
Qed.

Lemma pack3_y x y z : wraps v (Z.land (pack3 x y z) (Z.ones v)) = wraps v y.
Proof.
  apply Z.bits_inj'. intros i Hi.
  rewrite !wraps_testbit, Z.land_spec, Z.testbit_ones_nonneg, pack3_bit by lia.
  zbool. by rewrite andb_true_r.
Qed.

Lemma pack3_range x y z : is_s 64 (pack3 x y z).
Proof.
  apply is_s_lor; [lia|apply is_s_lor; [lia|apply wraps_range; lia..]|apply is_s_mask; lia].
Qed.

(** Unpacking and packing again restores every 64-bit pattern. *)
Lemma pack3_unpack raw :
  is_s 64 raw ->
  pack3 (wraps h (Z.shiftr raw (h + v))) (wraps v (Z.land raw (Z.ones v)))
    (wraps h (Z.land (Z.shiftr raw v) (Z.ones h))) = raw.
Proof.
  intros Hr. rewrite <- (wraps_id 64 raw) at 4 by (done || lia).
  transitivity (wraps 64 (pack3 (wraps h (Z.shiftr raw (h + v))) (wraps v (Z.land raw (Z.ones v)))
    (wraps h (Z.land (Z.shiftr raw v) (Z.ones h))))).
  { symmetry. apply wraps_id; [lia|]. apply pack3_range. }
  apply Z.bits_inj'. intros i Hi. rewrite !wraps_testbit, pack3_bit by lia.
  set (j := Z.min i (64 - 1)). assert (0 <= j < 64) by lia. clearbody j.
  destruct (Z.ltb_spec j v); [|destruct (Z.ltb_spec j (h + v))]; bits; zbool;
    rewrite ?andb_true_r; f_equal; lia.
Qed.
End ThreeFields.

Lemma i32_sext k z : 0 < k <= 32 -> i32 (sext 64 k z) = wraps k z.
Proof.
  intros Hk. rewrite sext_wraps by lia. apply wraps_id; [lia|].
  apply (is_s_weaken k); [lia|]. apply wraps_range. lia.
Qed.

Lemma block_pack3 p : PackedBlockPos.of_block p = pack3 26 12 (bx p) (by_ p) (bz p).
Proof. done. Qed.

Lemma block_unpack3 raw :
  PackedBlockPos.to_block_pos raw =
    mk_block (wraps 26 (Z.shiftr raw (26 + 12))) (wraps 12 (Z.land raw (Z.ones 12)))
      (wraps 26 (Z.land (Z.shiftr raw 12) (Z.ones 26))).
Proof. unfold PackedBlockPos.to_block_pos. by rewrite !i32_sext by (vm_compute; done). Qed.

Lemma section_unpack3 raw :
  PackedSectionPos.to_section_pos raw =
    mk_section (wraps 22 (Z.shiftr raw (22 + 20))) (wraps 20 (Z.land raw (Z.ones 20)))
      (wraps 22 (Z.land (Z.shiftr raw 20) (Z.ones 22))).
Proof. unfold PackedSectionPos.to_section_pos. by rewrite !i32_sext by (vm_compute; done). Qed.

(** Unpacking a packed position reduces each coordinate to its field. *)
Lemma block_unpack_pack p :
  PackedBlockPos.to_block_pos (PackedBlockPos.of_block p) =
    mk_block (wraps 26 (bx p)) (wraps 12 (by_ p)) (wraps 26 (bz p)).
Proof.
  rewrite block_unpack3, block_pack3.
  by rewrite pack3_x, pack3_y, pack3_z by lia.
Qed.

Lemma section_unpack_pack p :
  PackedSectionPos.to_section_pos (PackedSectionPos.of_section p) =
    mk_section (wraps 22 (sx p)) (wraps 20 (sy p)) (wraps 22 (sz p)).
Proof.
  rewrite section_unpack3. change (PackedSectionPos.of_section p) with (pack3 22 20 (sx p) (sy p) (sz p)).
  by rewrite pack3_x, pack3_y, pack3_z by lia.
Qed.

Lemma section_local_split c : Z.shiftl (Z.shiftr c 4) 4 + Z.land c 15 = c.
Proof.
  rewrite Z.shiftl_mul_pow2, Z.shiftr_div_pow2 by lia.
  change 15 with (Z.ones 4). rewrite Z.land_ones by lia.
  pose proof (Z.div_mod c (2 ^ 4)). lia.
Qed.

Lemma land15 c : 0 <= Z.land c 15 < 16.
Proof. change 15 with (Z.ones 4). rewrite Z.land_ones by lia. apply Z.mod_pos_bound. lia. Qed.

Lemma nibble_forall (P : Z -> bool) :
  forallb P (seqZ 0 16) = true -> forall b, 0 <= b < 16 -> P b = true.
Proof.
  intros HP b Hb. rewrite forallb_forall in HP. apply HP.
  apply list_elem_of_In, elem_of_seqZ. lia.
Qed.

(** The 12-bit section-local code, by enumeration of its 4096 points. *)
Lemma section_code x y z :
  0 <= x < 16 -> 0 <= y < 16 -> 0 <= z < 16 ->
  let r := PackedSectionBlockPos.from_local_unchecked x y z in
  PackedSectionBlockPos.x r = x /\ PackedSectionBlockPos.y r = y /\ PackedSectionBlockPos.z r = z /\
  PackedSectionBlockPos.from_raw r = Some r /\ 0 <= r < 4096.
Proof.
  intros Hx Hy Hz. cbv zeta.
  pose proof (nibble_forall (fun x => forallb (fun y => forallb (fun z =>
    let r := PackedSectionBlockPos.from_local_unchecked x y z in
    (PackedSectionBlockPos.x r =? x) && (PackedSectionBlockPos.y r =? y) &&
    (PackedSectionBlockPos.z r =? z) && (0 <=? r) && (r <? 4096) &&
    bool_decide (PackedSectionBlockPos.from_raw r = Some r)) (seqZ 0 16)) (seqZ 0 16))
    ltac:(by vm_compute) x Hx) as H.
  apply (fun H => nibble_forall _ H y Hy) in H. apply (fun H => nibble_forall _ H z Hz) in H.
  cbv beta zeta in H. rewrite !andb_true_iff, !Z.eqb_eq, Z.leb_le, Z.ltb_lt, bool_decide_eq_true in H.
  tauto.
Qed.

Lemma u8_nibble c : u8 (Z.land c 15) = Z.land c 15.
Proof. apply wrapu_id. pose proof (land15 c). unfold is_u. change (2 ^ 8) with 256. lia. Qed.

Lemma shiftr4_range c : is_s 32 c -> is_s 32 (Z.shiftl (Z.shiftr c 4) 4).
Proof.
  intros Hc. pose proof (section_local_split c). pose proof (land15 c).
  unfold is_s in *. change (2 ^ (32 - 1)) with 2147483648 in *.
  rewrite Z.shiftl_mul_pow2, Z.shiftr_div_pow2 in * by lia.
  change (2 ^ 4) with 16 in *. pose proof (Z.div_le_lower_bound c 16 (-134217728)). lia.
Qed.

Lemma relative_coord c : is_s 32 c -> i32 (i32 (Z.shiftl (Z.shiftr c 4) 4) + Z.land c 15) = c.
Proof.
  intros Hc. unfold i32. rewrite (wraps_id 32 (Z.shiftl _ _)) by (lia || by apply shiftr4_range).
  rewrite section_local_split. by apply wraps_id; [lia|].
Qed.

(** ** The box iterator *)

Record BetweenClosed := mk_between {
  bc_min_x : Z; bc_min_y : Z; bc_min_z : Z;
  bc_width : Z; bc_height : Z; bc_index : Z; bc_end : Z
}.

Definition between_closed_coords (min_x min_y min_z max_x max_y max_z : Z) : BetweenClosed :=
  let width := i32 (max_x - min_x + 1) in
  let height := i32 (max_y - min_y + 1) in
  let depth := i32 (max_z - min_z + 1) in
  mk_between min_x min_y min_z width height 0 (i32 (i32 (width * height) * depth)).

Definition between_closed (a b : BlockPos) : BetweenClosed :=
  between_closed_coords (Z.min (bx a) (bx b)) (Z.min (by_ a) (by_ b)) (Z.min (bz a) (bz b))
    (Z.max (bx a) (bx b)) (Z.max (by_ a) (by_ b)) (Z.max (bz a) (bz b)).

Definition between_next (it : BetweenClosed) : option BlockPos * BetweenClosed :=
  if bc_index it =? bc_end it then (None, it)
  else
    let x := Z.rem (bc_index it) (bc_width it) in
    let slice := Z.quot (bc_index it) (bc_width it) in
    let y := Z.rem slice (bc_height it) in
    let z := Z.quot slice (bc_height it) in
    (Some (mk_block (i32 (bc_min_x it + x)) (i32 (bc_min_y it + y)) (i32 (bc_min_z it + z))),
     mk_between (bc_min_x it) (bc_min_y it) (bc_min_z it) (bc_width it) (bc_height it)
       (i32 (bc_index it + 1)) (bc_end it)).

(** Running an iterator to its end, with at most [fuel] items; [None] when the
    fuel runs out first. *)
Section Collect.
Context {I A : Type} (next : I -> option A * I).
Fixpoint collect (fuel : nat) (it : I) : option (list A) :=
  match fuel with
  | O => None
  | S fuel' =>
      match next it with
      | (None, _) => Some []
      | (Some a, it') => match collect fuel' it' with Some l => Some (a :: l) | None => None end
      end
  end.
End Collect.

(** The positions of a box in iteration order: [x] fastest, then [y], then [z]. *)
Definition box_positions (x0 y0 z0 x1 y1 z1 : Z) : list BlockPos :=
  z ← seqZ z0 (z1 - z0 + 1); y ← seqZ y0 (y1 - y0 + 1); x ← seqZ x0 (x1 - x0 + 1); [mk_block x y z].

Lemma bind_seqZ_shift {A} (f : Z -> list A) s n : seqZ s n ≫= f = seqZ 0 n ≫= (fun r => f (s + r)).
Proof.
  rewrite <- (Z.add_0_r s) at 1. rewrite <- fmap_add_seqZ, list_fmap_bind. done.
Qed.

(** Two loops that agree on the indices they visit. *)
Lemma bind_seqZ_ext {A} (f g : Z -> list A) s n :
  (forall i, s <= i < s + n -> f i = g i) -> seqZ s n ≫= f = seqZ s n ≫= g.
Proof. intros H. apply Forall_bind_ext, Forall_seqZ. intros m Hm. apply H. lia. Qed.

Lemma fmap_bind_out {A B C} (f : B -> C) (g : A -> list B) l :
  f <$> (l ≫= g) = l ≫= (fun a => f <$> g a).
Proof. induction l as [|a l IH]; [done|]. by rewrite !bind_cons, fmap_app, IH. Qed.

(** A linear scan of [w * m] indices is [m] rows of [w]. *)
Lemma seqZ_rows {A} (f : Z -> list A) w m :
  0 <= w -> 0 <= m ->
  seqZ 0 (w * m) ≫= f = seqZ 0 m ≫= (fun q => seqZ 0 w ≫= (fun r => f (q * w + r))).
Proof.
  intros Hw Hm. rewrite <- (Z2Nat.id m Hm). induction (Z.to_nat m) as [|k IH].
  - by rewrite Z.mul_0_r.
  - rewrite seqZ_S, bind_app, bind_singleton, Z.add_0_l, <- IH.
    replace (w * Z.of_nat (S k)) with (w * Z.of_nat k + w) by lia.
    rewrite seqZ_app, bind_app by lia. f_equal.
    rewrite bind_seqZ_shift. apply bind_seqZ_ext. intros i _. f_equal. lia.
Qed.

Section Box.
Context (x0 y0 z0 x1 y1 z1 : Z).
Context (Hx : x0 <= x1) (Hy : y0 <= y1) (Hz : z0 <= z1).
Let w := x1 - x0 + 1.
Let h := y1 - y0 + 1.
Let d := z1 - z0 + 1.

Definition box_at (i : Z) : BlockPos :=
  mk_block (x0 + i mod w) (y0 + (i / w) mod h) (z0 + i / w / h).

Lemma box_linear :
  seqZ 0 (w * h * d) ≫= (fun i => [box_at i]) = box_positions x0 y0 z0 x1 y1 z1.
Proof.
  assert (0 < w /\ 0 < h /\ 0 < d) as (Hw & Hh & Hd) by (unfold w, h, d; lia).
  rewrite <- Z.mul_assoc, !seqZ_rows by nia. unfold box_positions. fold w h d.
  rewrite (bind_seqZ_shift _ z0). apply bind_seqZ_ext. intros z Hz'.
  rewrite (bind_seqZ_shift _ y0). apply bind_seqZ_ext. intros y Hy'.
  rewrite (bind_seqZ_shift _ x0). apply bind_seqZ_ext. intros x Hx'.
  unfold box_at. rewrite (Z.add_comm (_ * w)), Z.mod_add, Z.div_add, (Z.mod_small x),
    (Z.div_small x), Z.add_0_l by lia.
  by rewrite (Z.add_comm (_ * h)), Z.mod_add, Z.div_add, (Z.mod_small y), (Z.div_small y) by lia.
Qed.

Lemma box_positions_spec p :
  p ∈ box_positions x0 y0 z0 x1 y1 z1 <->
    x0 <= bx p <= x1 /\ y0 <= by_ p <= y1 /\ z0 <= bz p <= z1.
Proof.
  unfold box_positions. setoid_rewrite list_elem_of_bind. split.
  - intros (z & Hz' & Hin). apply elem_of_seqZ in Hin.
    apply list_elem_of_bind in Hz' as (y & Hy' & Hyin). apply elem_of_seqZ in Hyin.
    apply list_elem_of_bind in Hy' as (x & Hp & Hxin). apply elem_of_seqZ in Hxin.
    apply list_elem_of_singleton in Hp. subst p. simpl. lia.
  - intros (Hpx & Hpy & Hpz). exists (bz p). split; [|apply elem_of_seqZ; lia].
    apply list_elem_of_bind. exists (by_ p). split; [|apply elem_of_seqZ; lia].
    apply list_elem_of_bind. exists (bx p). split; [|apply elem_of_seqZ; lia].
    apply list_elem_of_singleton. by destruct p.
Qed.

Lemma box_positions_NoDup : NoDup (box_positions x0 y0 z0 x1 y1 z1).
Proof.
  unfold box_positions.
  repeat (apply NoDup_bind; [| intros |apply NoDup_seqZ]); try apply NoDup_singleton;
    intros ? ? p _ _ H1 H2;
    repeat match goal with
      | H : p ∈ (_ ≫= _) |- _ => apply list_elem_of_bind in H as (? & H & _)
      | H : p ∈ [_] |- _ => apply list_elem_of_singleton in H
    end; congruence.
Qed.
End Box.

(** Unfolding [i32] on values that fit. *)
Lemma i32_id z : i32_min <= z <= i32_max -> i32 z = z.
Proof.
  unfold i32_min, i32_max. intros. apply wraps_id; [lia|]. unfold is_s.
  change (2 ^ (32 - 1)) with 2147483648. lia.
Qed.

Lemma collect_between it (n : nat) :
  0 < bc_width it -> 0 < bc_height it -> 0 <= bc_index it ->
  Z.of_nat n = bc_end it - bc_index it -> bc_end it <= i32_max ->
  (forall i, 0 <= i < bc_end it ->
     i32_min <= bc_min_x it + i mod bc_width it <= i32_max /\
     i32_min <= bc_min_y it + (i / bc_width it) mod bc_height it <= i32_max /\
     i32_min <= bc_min_z it + i / bc_width it / bc_height it <= i32_max) ->
  collect between_next (S n) it =
    Some (seqZ (bc_index it) (Z.of_nat n) ≫= (fun i =>
      [mk_block (bc_min_x it + i mod bc_width it) (bc_min_y it + (i / bc_width it) mod bc_height it)
         (bc_min_z it + i / bc_width it / bc_height it)])).
Proof.
  revert it. induction n as [|n IH]; intros it Hw Hh Hi Hn Hend Hr.
  - cbn [collect]. unfold between_next. by zbool.
  - change (collect between_next (S (S n)) it) with (match between_next it with
      | (None, _) => Some []
      | (Some a, it') => match collect between_next (S n) it' with
                         | Some l => Some (a :: l) | None => None end end).
    unfold between_next. zbool. cbv zeta. rewrite i32_id by (unfold i32_min; lia).
    rewrite IH; cbn [bc_width bc_height bc_index bc_end bc_min_x bc_min_y bc_min_z]; try done; try lia.
    rewrite (seqZ_cons (bc_index it)) by lia. rewrite bind_cons.
    replace (Z.pred (Z.of_nat (S n))) with (Z.of_nat n) by lia. cbn [app].
    destruct (Hr (bc_index it)) as (H1 & H2 & H3); [lia|].
    assert (0 <= bc_index it / bc_width it) by (apply Z.div_pos; lia).
    rewrite !Z.rem_mod_nonneg, !Z.quot_div_nonneg by (rewrite ?Z.quot_div_nonneg by lia; lia).
    by rewrite !i32_id by lia.
Qed.

Lemma between_closed_collect x0 y0 z0 x1 y1 z1 :
  i32_min <= x0 <= x1 /\ x1 <= i32_max -> i32_min <= y0 <= y1 /\ y1 <= i32_max ->
  i32_min <= z0 <= z1 /\ z1 <= i32_max ->
  (x1 - x0 + 1) * (y1 - y0 + 1) * (z1 - z0 + 1) <= i32_max ->
  collect between_next (S (Z.to_nat ((x1 - x0 + 1) * (y1 - y0 + 1) * (z1 - z0 + 1))))
    (between_closed_coords x0 y0 z0 x1 y1 z1) = Some (box_positions x0 y0 z0 x1 y1 z1).
Proof.
  intros Hx Hy Hz Hvol. set (w := x1 - x0 + 1) in *. set (h := y1 - y0 + 1) in *.
  set (d := z1 - z0 + 1) in *.
  assert (0 < w /\ 0 < h /\ 0 < d) as (Hw & Hh & Hd) by (unfold w, h, d; lia).
  assert (Hm : forall a b, 0 < a -> 0 < b -> a <= a * b) by (intros; nia).
  assert (w * h <= w * h * d) by (apply Hm; nia).
  assert (w <= w * h) by (apply Hm; lia).
  assert (h <= w * h) by (rewrite Z.mul_comm; apply Hm; lia).
  assert (d <= w * h * d) by (rewrite (Z.mul_comm (w * h)); apply Hm; nia).
  assert (Hit : between_closed_coords x0 y0 z0 x1 y1 z1 = mk_between x0 y0 z0 w h 0 (w * h * d)).
  { unfold between_closed_coords. fold w h d.
    rewrite !i32_id by (rewrite ?i32_id by (unfold i32_min; nia); unfold i32_min; nia). done. }
  rewrite Hit, collect_between;
    cbn [bc_width bc_height bc_index bc_end bc_min_x bc_min_y bc_min_z]; try lia.
  - rewrite Z2Nat.id by lia. by rewrite <- box_linear by lia.
  - intros i Hi. pose proof (Z.mod_pos_bound i w Hw). pose proof (Z.mod_pos_bound (i / w) h Hh).
    assert (0 <= i / w / h < d).
    { split; [do 2 (apply Z.div_pos; [|lia]); lia|].
      apply Z.div_lt_upper_bound; [lia|]. apply Z.div_lt_upper_bound; lia. }
    lia.
Qed.

(** ** The Manhattan iterator *)

Record BlockPosWithinManhattan := mk_manhattan {
  wm_origin : BlockPos;
  wm_reach_x : Z; wm_reach_y : Z; wm_reach_z : Z;
  wm_max_depth : Z; wm_current_depth : Z;
  wm_max_x : Z; wm_max_y : Z; wm_x : Z; wm_y : Z;
  wm_pending : option BlockPos; wm_done : bool
}.

Definition within_manhattan (origin : BlockPos) (rx ry rz : Z) : BlockPosWithinManhattan :=
  mk_manhattan origin rx ry rz (i32 (i32 (rx + ry) + rz)) 0 0 0 0 0 None false.

(** The start of a [loop] iteration: advance to the next [x] or depth when the
    current [y] range is exhausted; [None] is the [return None] that sets
    [done]. *)
Definition wm_advance (s : BlockPosWithinManhattan) : option BlockPosWithinManhattan :=
  if wm_max_y s <? wm_y s then
    let x := i32 (wm_x s + 1) in
    let turn (depth max_x x : Z) :=
      let max_y := Z.min (wm_reach_y s) (i32 (depth - Z.abs x)) in
      Some (mk_manhattan (wm_origin s) (wm_reach_x s) (wm_reach_y s) (wm_reach_z s) (wm_max_depth s)
              depth max_x max_y x (i32 (- max_y)) (wm_pending s) (wm_done s)) in
    if wm_max_x s <? x then
      let depth := i32 (wm_current_depth s + 1) in
      if wm_max_depth s <? depth then None
      else let max_x := Z.min (wm_reach_x s) depth in turn depth max_x (i32 (- max_x))
    else turn (wm_current_depth s) (wm_max_x s) x
  else Some s.

Definition wm_set_done (s : BlockPosWithinManhattan) : BlockPosWithinManhattan :=
  mk_manhattan (wm_origin s) (wm_reach_x s) (wm_reach_y s) (wm_reach_z s) (wm_max_depth s)
    (wm_current_depth s) (wm_max_x s) (wm_max_y s) (wm_x s) (wm_y s) (wm_pending s) true.

Definition wm_step_y (s : BlockPosWithinManhattan) (pending : option BlockPos) : BlockPosWithinManhattan :=
  mk_manhattan (wm_origin s) (wm_reach_x s) (wm_reach_y s) (wm_reach_z s) (wm_max_depth s)
    (wm_current_depth s) (wm_max_x s) (wm_max_y s) (wm_x s) (i32 (wm_y s + 1)) pending (wm_done s).

(** The [loop]; [None] when the fuel runs out. *)
Fixpoint wm_loop (fuel : nat) (s : BlockPosWithinManhattan)
    : option (option BlockPos * BlockPosWithinManhattan) :=
  match fuel with
  | O => None
  | S fuel' =>
      match wm_advance s with
      | None => Some (None, wm_set_done s)
      | Some s =>
          let x := wm_x s in
          let y := wm_y s in
          let z := i32 (i32 (wm_current_depth s - Z.abs x) - Z.abs y) in
          if wm_reach_z s <? z then wm_loop fuel' (wm_step_y s (wm_pending s))
          else
            let mirror := if z =? 0 then wm_pending s else Some (offset (wm_origin s) x y (- z)) in
            Some (Some (offset (wm_origin s) x y z), wm_step_y s mirror)
      end
  end.

Definition wm_take_pending (s : BlockPosWithinManhattan) : BlockPosWithinManhattan :=
  mk_manhattan (wm_origin s) (wm_reach_x s) (wm_reach_y s) (wm_reach_z s) (wm_max_depth s)
    (wm_current_depth s) (wm_max_x s) (wm_max_y s) (wm_x s) (wm_y s) None (wm_done s).

Definition wm_next (fuel : nat) (s : BlockPosWithinManhattan)
    : option (option BlockPos * BlockPosWithinManhattan) :=
  match wm_pending s with
  | Some pos => Some (Some pos, wm_take_pending s)
  | None => if wm_done s then Some (None, s) else wm_loop fuel s
  end.

(** [Iterator::find] over the iterator, each [next] with its own fuel. *)
Fixpoint wm_find (fuel : nat) (predicate : BlockPos -> bool) (n : nat) (s : BlockPosWithinManhattan)
    : option (option BlockPos) :=
  match n with
  | O => None
  | S n' =>
      match wm_next fuel s with
      | None => None
      | Some (None, _) => Some None
      | Some (Some p, s') => if predicate p then Some (Some p) else wm_find fuel predicate n' s'
      end
  end.

Definition find_closest_match (fuel n : nat) (self : BlockPos) (horizontal vertical : Z)
    (predicate : BlockPos -> bool) : option (option BlockPos) :=
  wm_find fuel predicate n (within_manhattan self horizontal vertical horizontal).

(** ** The iterator as nested loops *)

Section Manhattan.
Context (o : BlockPos) (rx ry rz : Z).
Context (Hrx : 0 <= rx) (Hry : 0 <= ry) (Hrz : 0 <= rz) (Hsmall : rx + ry + rz < i32_max - 1).

Definition mx (d : Z) : Z := Z.min rx d.
Definition my (d x : Z) : Z := Z.min ry (d - Z.abs x).

Definition rows (d x y : Z) : list (Z * Z * Z) :=
  (fun y => (d, x, y)) <$> seqZ y (my d x - y + 1).
Definition cols (d x : Z) : list (Z * Z * Z) :=
  seqZ x (mx d - x + 1) ≫= (fun x => rows d x (- my d x)).
Definition depths (d : Z) : list (Z * Z * Z) :=
  seqZ d (rx + ry + rz - d + 1) ≫= (fun d => cols d (- mx d)).

(** What one [(depth, x, y)] triple contributes: the position at
    [z = depth - |x| - |y|] and its mirror. *)
Definition emit_offsets (t : Z * Z * Z) : list (Z * Z * Z) :=
  let '(d, x, y) := t in
  let z := d - Z.abs x - Z.abs y in
  if rz <? z then [] else if z =? 0 then [(x, y, z)] else [(x, y, z); (x, y, - z)].

Definition at_offset (t : Z * Z * Z) : BlockPos := let '(x, y, z) := t in offset o x y z.
Definition emit (t : Z * Z * Z) : list BlockPos := at_offset <$> emit_offsets t.

(** The triples the iterator has not visited yet. *)
Definition todo (s : BlockPosWithinManhattan) : list (Z * Z * Z) :=
  if wm_done s then []
  else rows (wm_current_depth s) (wm_x s) (wm_y s) ++
       cols (wm_current_depth s) (wm_x s + 1) ++ depths (wm_current_depth s + 1).

Definition remaining (s : BlockPosWithinManhattan) : list BlockPos :=
  option_list (wm_pending s) ++ (todo s ≫= emit).

Definition wm_inv (s : BlockPosWithinManhattan) : Prop :=
  wm_origin s = o /\ wm_reach_x s = rx /\ wm_reach_y s = ry /\ wm_reach_z s = rz /\
  wm_max_depth s = rx + ry + rz /\ 0 <= wm_current_depth s <= rx + ry + rz /\
  wm_max_x s = mx (wm_current_depth s) /\ - wm_max_x s <= wm_x s <= wm_max_x s /\
  wm_max_y s = my (wm_current_depth s) (wm_x s) /\ - wm_max_y s <= wm_y s <= wm_max_y s + 1.

Lemma rows_cons d x y : y <= my d x -> rows d x y = (d, x, y) :: rows d x (y + 1).
Proof.
  intros. unfold rows. rewrite seqZ_cons by lia. cbn [fmap list_fmap]. f_equal. do 2 f_equal. lia.
Qed.
Lemma rows_nil d x y : my d x < y -> rows d x y = [].
Proof. intros. unfold rows. by rewrite seqZ_nil by lia. Qed.
Lemma cols_cons d x : x <= mx d -> cols d x = rows d x (- my d x) ++ cols d (x + 1).
Proof.
  intros. unfold cols. rewrite seqZ_cons, bind_cons by lia. do 2 f_equal. f_equal. lia.
Qed.
Lemma cols_nil d x : mx d < x -> cols d x = [].
Proof. intros. unfold cols. by rewrite seqZ_nil by lia. Qed.
Lemma depths_cons d : d <= rx + ry + rz -> depths d = cols d (- mx d) ++ depths (d + 1).
Proof.
  intros. unfold depths. rewrite seqZ_cons, bind_cons by lia. do 2 f_equal. f_equal. lia.
Qed.
Lemma depths_nil d : rx + ry + rz < d -> depths d = [].
Proof. intros. unfold depths. by rewrite seqZ_nil by lia. Qed.

Lemma advance_spec s :
  wm_inv s -> wm_done s = false ->
  match wm_advance s with
  | None => todo s = []
  | Some s' => wm_inv s' /\ wm_y s' <= wm_max_y s' /\ wm_done s' = false /\
      wm_pending s' = wm_pending s /\ todo s' = todo s
  end.
Proof.
  intros (Ho & H1 & H2 & H3 & H4 & H5 & H6 & H7 & H8 & H9) Hd. unfold wm_advance, i32_max in *.
  destruct (Z.ltb_spec (wm_max_y s) (wm_y s)) as [Hy|Hy];
    [|split; [unfold wm_inv; auto 12|auto]].
  unfold todo. rewrite Hd, (rows_nil _ _ (wm_y s)) by lia. cbn [app].
  unfold mx, my in *. rewrite (i32_id (wm_x s + 1)) by (unfold i32_min, i32_max; lia).
  destruct (Z.ltb_spec (wm_max_x s) (wm_x s + 1)) as [Hx|Hx].
  - rewrite cols_nil by (unfold mx; lia). cbn [app].
    rewrite (i32_id (wm_current_depth s + 1)) by (unfold i32_min, i32_max; lia).
    destruct (Z.ltb_spec (wm_max_depth s) (wm_current_depth s + 1)) as [Hdp|Hdp];
      [apply depths_nil; lia|].
    set (d := wm_current_depth s + 1) in *.
    rewrite H1, H2, (i32_id (- Z.min rx d)) by (unfold i32_min, i32_max; lia).
    rewrite !i32_id by (unfold i32_min, i32_max; rewrite ?i32_id by (unfold i32_min, i32_max; lia); lia).
    cbn. split; [unfold wm_inv, mx, my; cbn; repeat split; try done; lia|].
    split; [lia|]. split; [done|]. split; [done|].
    rewrite (depths_cons d), (cols_cons d (- mx d)) by (unfold mx; lia). unfold mx, my.
    by rewrite <- app_assoc.
  - rewrite H2. rewrite !i32_id by
      (unfold i32_min, i32_max; rewrite ?i32_id by (unfold i32_min, i32_max; lia); lia).
    cbn. split; [unfold wm_inv, mx, my; cbn; repeat split; try done; lia|].
    split; [lia|]. split; [done|]. split; [done|].
    rewrite (cols_cons (wm_current_depth s) (wm_x s + 1)) by (unfold mx; lia). unfold my.
    by rewrite <- app_assoc.
Qed.

Lemma step_y_spec s p :
  wm_inv s -> wm_done s = false -> wm_y s <= wm_max_y s ->
  wm_inv (wm_step_y s p) /\ wm_done (wm_step_y s p) = false /\
  todo s = (wm_current_depth s, wm_x s, wm_y s) :: todo (wm_step_y s p).
Proof.
  intros Hinv Hd Hy. pose proof Hinv as (Ho & H1 & H2 & H3 & H4 & H5 & H6 & H7 & H8 & H9).
  unfold i32_max, mx, my in *.
  assert (Hi : i32 (wm_y s + 1) = wm_y s + 1) by (apply i32_id; unfold i32_min, i32_max; lia).
  split; [unfold wm_inv, wm_step_y, mx, my; cbn; rewrite Hi; repeat split; done || lia|].
  split; [done|]. unfold todo, wm_step_y. cbn. rewrite Hd, Hi.
  by rewrite (rows_cons _ _ (wm_y s)) by (unfold my; lia).
Qed.

Lemma loop_not_done fuel s p s' :
  wm_done s = false -> wm_loop fuel s = Some (Some p, s') -> wm_done s' = false.
Proof.
  revert s. induction fuel as [|fuel IH]; intros s Hd H; [done|]. cbn [wm_loop] in H.
  assert (Ha : forall s1, wm_advance s = Some s1 -> wm_done s1 = false).
  { unfold wm_advance. intros s1 Hs. repeat case_match; simplify_eq; done. }
  destruct (wm_advance s) as [s1|]; [|done]. specialize (Ha s1 eq_refl).
  destruct (_ <? _); [by apply IH in H|]. by simplify_eq.
Qed.

Lemma loop_spec fuel s :
  wm_inv s -> wm_done s = false -> wm_pending s = None -> (length (todo s) < fuel)%nat ->
  exists r s', wm_loop fuel s = Some (r, s') /\
    match r with
    | None => remaining s = []
    | Some p => wm_inv s' /\ remaining s = p :: remaining s' /\ (length (todo s') <= length (todo s))%nat
    end.
Proof.
  revert s. induction fuel as [|fuel IH]; intros s Hinv Hd Hp Hf; [lia|].
  pose proof (advance_spec s Hinv Hd) as Ha. cbn [wm_loop].
  destruct (wm_advance s) as [s1|].
  2: { exists None, (wm_set_done s). split; [done|]. unfold remaining. by rewrite Hp, Ha. }
  destruct Ha as (Hinv1 & Hy1 & Hd1 & Hp1 & Ht1). rewrite Hp in Hp1.
  pose proof Hinv1 as (Ho & H1 & H2 & H3 & H4 & H5 & H6 & H7 & H8 & H9).
  assert (Hz : i32 (i32 (wm_current_depth s1 - Z.abs (wm_x s1)) - Z.abs (wm_y s1)) =
    wm_current_depth s1 - Z.abs (wm_x s1) - Z.abs (wm_y s1)).
  { unfold mx, my, i32_max in *. rewrite !i32_id by
      (unfold i32_min, i32_max; rewrite ?i32_id by (unfold i32_min, i32_max; lia); lia). done. }
  cbv zeta. rewrite Hz, Hp1, Ho, H3.
  assert (Hrem : remaining s = emit (wm_current_depth s1, wm_x s1, wm_y s1) ++
    (todo (wm_step_y s1 None) ≫= emit)).
  { unfold remaining. rewrite Hp, <- Ht1. by destruct (step_y_spec s1 None Hinv1 Hd1 Hy1) as (_ & _ & ->). }
  assert (Hlen : forall p, length (todo s) = S (length (todo (wm_step_y s1 p)))).
  { intros p. rewrite <- Ht1. by destruct (step_y_spec s1 p Hinv1 Hd1 Hy1) as (_ & _ & ->). }
  rewrite Hrem. unfold emit, emit_offsets. destruct (rz <? _).
  - destruct (step_y_spec s1 None Hinv1 Hd1 Hy1) as (Hi2 & Hd2 & _).
    destruct (IH (wm_step_y s1 None) Hi2 Hd2 eq_refl) as (r & s' & Hl & Hr).
    { specialize (Hlen None). lia. }
    exists r, s'. split; [done|]. specialize (Hlen None). cbn [app fmap list_fmap].
    unfold remaining in Hr at 1. unfold remaining in Hr at 1. cbn [wm_pending wm_step_y option_list app] in Hr.
    destruct r; [|exact Hr]. destruct Hr as (? & Hr & ?). split; [done|]. split; [exact Hr|lia].
  - destruct (_ =? 0);
      (eexists; eexists; split; [reflexivity|]; split; [by apply step_y_spec|]; split; [done|]).
    all: match goal with |- (length (todo (wm_step_y _ ?p)) <= _)%nat => rewrite (Hlen p) end; lia.
Qed.

Lemma next_spec fuel s :
  wm_inv s -> wm_done s = false -> (length (todo s) < fuel)%nat ->
  exists r s', wm_next fuel s = Some (r, s') /\
    match r with
    | None => remaining s = []
    | Some p => wm_inv s' /\ wm_done s' = false /\ remaining s = p :: remaining s' /\
        (length (todo s') <= length (todo s))%nat
    end.
Proof.
  intros Hinv Hd Hf. unfold wm_next. destruct (wm_pending s) as [p|] eqn:Hp.
  - exists (Some p), (wm_take_pending s). split; [done|]. split; [exact Hinv|].
    split; [exact Hd|]. split; [|done]. unfold remaining. by rewrite Hp.
  - rewrite Hd. destruct (loop_spec fuel s Hinv Hd Hp Hf) as (r & s' & Hl & Hr).
    exists r, s'. split; [done|]. destruct r; [|done]. destruct Hr as (Hi & Hrem & Hle).
    split; [done|]. split; [|done]. by eapply loop_not_done.
Qed.

Lemma find_remaining fuel n s pred :
  wm_inv s -> wm_done s = false -> (length (todo s) < fuel)%nat -> (length (remaining s) < n)%nat ->
  wm_find fuel pred n s = Some (List.find pred (remaining s)).
Proof.
  revert s. induction n as [|n IH]; intros s Hinv Hd Hf Hn; [lia|]. cbn [wm_find].
  destruct (next_spec fuel s Hinv Hd Hf) as ([p|] & s' & -> & Hr); [|by rewrite Hr].
  destruct Hr as (Hi & Hd' & Hrem & Hle). rewrite Hrem. cbn [List.find].
  destruct (pred p); [done|]. apply IH; try done; [lia|].
  rewrite Hrem in Hn. simpl in Hn. lia.
Qed.

(** All positions, in the iterator's order. *)
Definition all_offsets : list (Z * Z * Z) := depths 0 ≫= emit_offsets.

Lemma initial_spec :
  let s := within_manhattan o rx ry rz in
  wm_inv s /\ wm_done s = false /\ todo s = depths 0 /\ remaining s = at_offset <$> all_offsets.
Proof.
  cbv zeta. unfold within_manhattan. unfold i32_max in Hsmall.
  rewrite !i32_id by (unfold i32_min, i32_max; rewrite ?i32_id by (unfold i32_min, i32_max; lia); lia).
  assert (Ht : rows 0 0 0 ++ cols 0 1 ++ depths 1 = depths 0).
  { rewrite (depths_cons 0) by lia. unfold mx. replace (- Z.min rx 0) with 0 by lia.
    rewrite (cols_cons 0 0) by (unfold mx; lia). unfold my. rewrite Z.abs_0, Z.sub_0_r.
    replace (- Z.min ry 0) with 0 by lia. by rewrite <- app_assoc. }
  split; [unfold wm_inv, mx, my; cbn; repeat split; lia|]. split; [done|].
  unfold remaining, todo. cbn [wm_done wm_current_depth wm_x wm_y wm_pending option_list app].
  change (0 + 1) with 1. rewrite Ht. split; [done|].
  unfold all_offsets. rewrite fmap_bind_out. done.
Qed.

Definition distance (t : Z * Z * Z) : Z := let '(x, y, z) := t in Z.abs x + Z.abs y + Z.abs z.
Definition in_reach (t : Z * Z * Z) : Prop :=
  let '(x, y, z) := t in Z.abs x <= rx /\ Z.abs y <= ry /\ Z.abs z <= rz.

Lemma emit_distance d x y t :
  Z.abs x + Z.abs y <= d -> t ∈ emit_offsets (d, x, y) -> distance t = d.
Proof.
  intros Hd. unfold emit_offsets. destruct (Z.ltb_spec rz (d - Z.abs x - Z.abs y)); [by intros ?%elem_of_nil|].
  destruct (_ =? 0) eqn:E.
  - intros ->%list_elem_of_singleton. unfold distance. lia.
  - rewrite elem_of_cons, list_elem_of_singleton. intros [-> | ->]; unfold distance; lia.
Qed.

Lemma elem_of_depths d0 d x y :
  (d, x, y) ∈ depths d0 <->
    d0 <= d <= rx + ry + rz /\ - mx d <= x <= mx d /\ - my d x <= y <= my d x.
Proof.
  unfold depths, cols, rows. split.
  - intros (d' & H & Hd)%list_elem_of_bind. apply elem_of_seqZ in Hd.
    apply list_elem_of_bind in H as (x' & H & Hx). apply elem_of_seqZ in Hx.
    apply list_elem_of_fmap in H as (y' & Heq & Hy). apply elem_of_seqZ in Hy. simplify_eq. lia.
  - intros (Hd & Hx & Hy). apply list_elem_of_bind. exists d. split; [|apply elem_of_seqZ; lia].
    apply list_elem_of_bind. exists x. split; [|apply elem_of_seqZ; lia].
    apply list_elem_of_fmap. exists y. split; [done|apply elem_of_seqZ; lia].
Qed.

(** Exactly the offsets within reach are visited. *)
Lemma all_offsets_complete t : t ∈ all_offsets <-> in_reach t.
Proof.
  destruct t as [[x y] z]. unfold all_offsets. rewrite list_elem_of_bind. split.
  - intros ([[d x'] y'] & He & Ht). apply elem_of_depths in Ht. unfold mx, my in Ht.
    unfold emit_offsets in He. destruct (Z.ltb_spec rz (d - Z.abs x' - Z.abs y')); [by apply elem_of_nil in He|].
    unfold in_reach. destruct (_ =? 0).
    + apply list_elem_of_singleton in He. simplify_eq. lia.
    + apply elem_of_cons in He as [He|He%list_elem_of_singleton]; simplify_eq; lia.
  - intros Hr. unfold in_reach in Hr. exists (Z.abs x + Z.abs y + Z.abs z, x, y).
    split; [|apply elem_of_depths; unfold mx, my; lia]. unfold emit_offsets.
    replace (Z.abs x + Z.abs y + Z.abs z - Z.abs x - Z.abs y) with (Z.abs z) by lia. zbool.
    destruct (Z.eqb_spec (Z.abs z) 0); [apply list_elem_of_singleton; do 2 f_equal; lia|].
    rewrite elem_of_cons, list_elem_of_singleton.
    destruct (Z.le_gt_cases 0 z); [left|right]; do 2 f_equal; lia.
Qed.

Lemma sorted_blocks (f : Z -> list (Z * Z * Z)) s n :
  (forall d t, s <= d < s + n -> t ∈ f d -> distance t = d) ->
  StronglySorted (fun a b => distance a <= distance b) (seqZ s n ≫= f).
Proof.
  intros Hf. destruct (Z.le_gt_cases n 0) as [Hn|Hn]; [by rewrite seqZ_nil by lia; constructor|].
  rewrite <- (Z2Nat.id n) in * by lia. clear Hn. revert s Hf.
  induction (Z.to_nat n) as [|k IH]; intros s Hf; [constructor|].
  rewrite seqZ_cons, bind_cons by lia. replace (Z.pred (Z.of_nat (S k))) with (Z.of_nat k) by lia.
  apply StronglySorted_app_2.
  - intros a b Ha Hb. apply list_elem_of_bind in Hb as (d & Hb & Hd). apply elem_of_seqZ in Hd.
    rewrite (Hf s a), (Hf d b) by (done || lia). lia.
  - assert (Hs : forall a, a ∈ f s -> distance a = s) by (intros; apply Hf; [lia|done]).
    clear -Hs. induction (f s) as [|a l IHl]; constructor.
    + apply IHl. intros b Hb. apply Hs. by apply elem_of_cons; right.
    + apply Forall_forall. intros b Hb. rewrite (Hs a), (Hs b); [lia|..]; apply elem_of_cons; auto.
  - apply IH. intros d t Hd Ht. apply Hf; [lia|done].
Qed.

Lemma all_offsets_sorted : StronglySorted (fun a b => distance a <= distance b) all_offsets.
Proof.
  assert (Heq : all_offsets = seqZ 0 (rx + ry + rz - 0 + 1) ≫= (fun d => cols d (- mx d) ≫= emit_offsets)).
  { unfold all_offsets, depths. generalize (seqZ 0 (rx + ry + rz - 0 + 1)) as l.
    induction l as [|d l IH]; [done|]. by rewrite !bind_cons, bind_app, IH. }
  rewrite Heq. apply sorted_blocks. intros d t Hd Ht.
  apply list_elem_of_bind in Ht as ([[d' x] y] & Ht & Hc).
  assert (Hin : (d', x, y) ∈ depths d).
  { rewrite depths_cons by lia. apply elem_of_app. by left. }
  assert (d' = d).
  { unfold cols, rows in Hc. apply list_elem_of_bind in Hc as (x' & Hc & _).
    apply list_elem_of_fmap in Hc as (y' & Hc & _). by simplify_eq. }
  subst d'. apply elem_of_depths in Hin. unfold my in Hin.
  apply (emit_distance d x y); [lia|done].
Qed.

(** The first match of a list sorted by distance is a closest one. *)
Lemma find_sorted (pred : BlockPos -> bool) (l : list (Z * Z * Z)) :
  StronglySorted (fun a b => distance a <= distance b) l ->
  match List.find pred (at_offset <$> l) with
  | Some p => exists t, t ∈ l /\ p = at_offset t /\ pred p = true /\
      forall t', t' ∈ l -> pred (at_offset t') = true -> distance t <= distance t'
  | None => forall t, t ∈ l -> pred (at_offset t) = false
  end.
Proof.
  induction 1 as [|a l _ IH Ha]; cbn [fmap list_fmap List.find]; [by intros t ?%elem_of_nil|].
  destruct (pred (at_offset a)) eqn:E.
  - exists a. split; [apply elem_of_cons; by left|]. split; [done|]. split; [done|].
    rewrite Forall_forall in Ha. intros t' [->|Ht']%elem_of_cons _; [lia|by apply Ha].
  - destruct (List.find pred _).
    + destruct IH as (t & Ht & Hp & Hpred & Hmin). exists t. split; [apply elem_of_cons; by right|].
      split; [done|]. split; [done|]. intros t' [->|Ht']%elem_of_cons Hp'; [congruence|auto].
    + intros t [->|Ht]%elem_of_cons; auto.
Qed.
End Manhattan.

(** ** Properties *)

(** The packed block position is a bijection: every 64-bit pattern
    unpacks to a position that packs back to it, and a position survives
    packing exactly when its coordinates fit their 26, 12 and 26 bit fields. *)
Theorem packed_block_bijection raw p :
  is_s 64 raw ->
  PackedBlockPos.of_block (PackedBlockPos.to_block_pos raw) = raw /\
  (PackedBlockPos.to_block_pos (PackedBlockPos.of_block p) = p <->
     is_s 26 (bx p) /\ is_s 12 (by_ p) /\ is_s 26 (bz p)).
Proof.
  intros Hr. split.
  - rewrite block_unpack3, block_pack3. by apply pack3_unpack; try lia.
  - rewrite block_unpack_pack. split.
    + intros H. rewrite <- H. cbn [bx by_ bz]. repeat split; apply wraps_range; lia.
    + intros (Hx & Hy & Hz). rewrite !wraps_id by (done || lia). by destruct p.
Qed.

Lemma packed_block_bijection_witness :
  PackedBlockPos.of_block (PackedBlockPos.to_block_pos (-12345)) = -12345 /\
  (PackedBlockPos.to_block_pos (PackedBlockPos.of_block (mk_block 100 (-64) (-3))) = mk_block 100 (-64) (-3) <->
     is_s 26 100 /\ is_s 12 (-64) /\ is_s 26 (-3)).
Proof. apply packed_block_bijection. unfold is_s. cbn. lia. Defined.

(** a block position is recovered from its section and its 12-bit
    section-local code, for every [i32] position, negative coordinates
    included. *)
Theorem section_local_recovers p :
  is_block p ->
  relative_to_block_pos (section_from_block_pos p) (PackedSectionBlockPos.from_block_pos p) = p.
Proof.
  intros (Hx & Hy & Hz). unfold PackedSectionBlockPos.from_block_pos, SECTION_MASK.
  rewrite !u8_nibble.
  destruct (section_code (Z.land (bx p) 15) (Z.land (by_ p) 15) (Z.land (bz p) 15)
    (land15 _) (land15 _) (land15 _)) as (Ex & Ey & Ez & _).
  unfold relative_to_block_pos, relative_to_block_x, relative_to_block_y, relative_to_block_z.
  rewrite Ex, Ey, Ez. cbn [section_from_block_pos sx sy sz]. unfold block_to_section_coord.
  rewrite !relative_coord by done. by destruct p.
Qed.

Lemma section_local_recovers_witness :
  relative_to_block_pos (section_from_block_pos (mk_block (-17) 70 33))
    (PackedSectionBlockPos.from_block_pos (mk_block (-17) 70 33)) = mk_block (-17) 70 33.
Proof. apply section_local_recovers. unfold is_block, is_s. cbn. lia. Defined.

(** [BlockPos::between_closed] visits every position of the closed box
    spanned by two corners exactly once, whatever the order of the corners,
    when the box's volume fits an [i32]. *)
Theorem between_closed_enumerates a b :
  is_block a -> is_block b ->
  (Z.max (bx a) (bx b) - Z.min (bx a) (bx b) + 1) * (Z.max (by_ a) (by_ b) - Z.min (by_ a) (by_ b) + 1) *
    (Z.max (bz a) (bz b) - Z.min (bz a) (bz b) + 1) <= i32_max ->
  exists fuel l, collect between_next fuel (between_closed a b) = Some l /\ NoDup l /\
    forall p, p ∈ l <->
      Z.min (bx a) (bx b) <= bx p <= Z.max (bx a) (bx b) /\
      Z.min (by_ a) (by_ b) <= by_ p <= Z.max (by_ a) (by_ b) /\
      Z.min (bz a) (bz b) <= bz p <= Z.max (bz a) (bz b).
Proof.
  unfold is_block, is_s. change (2 ^ (32 - 1)) with 2147483648. intros Ha Hb Hvol.
  unfold between_closed. eexists. eexists. split.
  - apply between_closed_collect; unfold i32_min, i32_max in *; lia.
  - split; [apply box_positions_NoDup | intros p; apply box_positions_spec]; lia.
Qed.

Lemma between_closed_enumerates_witness :
  exists fuel l, collect between_next fuel (between_closed (mk_block 1 5 0) (mk_block (-1) 4 3)) = Some l /\
    NoDup l /\ forall p, p ∈ l <-> Z.min 1 (-1) <= bx p <= Z.max 1 (-1) /\
      Z.min 5 4 <= by_ p <= Z.max 5 4 /\ Z.min 0 3 <= bz p <= Z.max 0 3.
Proof.
  apply (between_closed_enumerates (mk_block 1 5 0) (mk_block (-1) 4 3));
    [unfold is_block, is_s; cbn; lia | unfold is_block, is_s; cbn; lia | vm_compute; discriminate].
Defined.

(** [BlockPos::find_closest_match] terminates and returns a matching
    position whose Manhattan distance is minimal among all matches within the
    horizontal and vertical radii, and [None] only when nothing in reach
    matches. *)
Theorem find_closest_is_closest o horizontal vertical pred :
  0 <= horizontal -> 0 <= vertical -> horizontal + vertical + horizontal < i32_max - 1 ->
  exists fuel n r, find_closest_match fuel n o horizontal vertical pred = Some r /\
    match r with
    | Some p => exists t, in_reach horizontal vertical horizontal t /\ p = at_offset o t /\
        pred p = true /\
        forall t', in_reach horizontal vertical horizontal t' -> pred (at_offset o t') = true ->
          distance t <= distance t'
    | None => forall t, in_reach horizontal vertical horizontal t -> pred (at_offset o t) = false
    end.
Proof.
  intros Hh Hv Hs.
  destruct (initial_spec o horizontal vertical horizontal Hh Hv Hh Hs) as (Hinv & Hd & _ & Hrem).
  set (s := within_manhattan o horizontal vertical horizontal) in *.
  exists (S (length (todo horizontal vertical horizontal s))),
    (S (length (remaining o horizontal vertical horizontal s))).
  eexists. split.
  - unfold find_closest_match. fold s.
    apply (find_remaining o horizontal vertical horizontal Hh Hv Hh Hs); done || lia.
  - rewrite Hrem.
    pose proof (find_sorted o pred _ (all_offsets_sorted horizontal vertical horizontal)) as Hf.
    destruct (List.find pred _).
    + destruct Hf as (t & Ht & Hp & Hpr & Hmin). exists t.
      rewrite all_offsets_complete in Ht by done. split; [done|]. split; [done|]. split; [done|].
      intros t' Ht'. apply Hmin. by apply all_offsets_complete.
    + intros t Ht. apply Hf. by apply all_offsets_complete.
Qed.

Lemma find_closest_is_closest_witness :
  exists fuel n r, find_closest_match fuel n (mk_block 0 0 0) 3 2 (fun p => bx p =? 2) = Some r /\
    match r with
    | Some p => exists t, in_reach 3 2 3 t /\ p = at_offset (mk_block 0 0 0) t /\
        (bx p =? 2) = true /\
        forall t', in_reach 3 2 3 t' -> (bx (at_offset (mk_block 0 0 0) t') =? 2) = true ->
          distance t <= distance t'
    | None => forall t, in_reach 3 2 3 t -> (bx (at_offset (mk_block 0 0 0) t) =? 2) = false
    end.
Proof.
  apply (find_closest_is_closest (mk_block 0 0 0) 3 2 (fun p => bx p =? 2)); [lia|lia|reflexivity].
Defined.
