(* ===== verification/Collections.v ===== *)
(** * Ordered collections of the Rust standard library

    The sources use [Ordering] combinators ([then_with], [reverse]),
    [BinaryHeap] and [BTreeSet].  A heap is the list of its elements: the
    array layout of [BinaryHeap] is not observable through [push], [peek]
    and [pop], except that [pop] returns an arbitrary one of several maximal
    elements; here the one pushed last is left for later.  A [BTreeSet] is a
    finite set whose [first] is its least element.

    [OrdLaws] is the contract a Rust [Ord] implementation owes its
    collections; the comparators of the development discharge it. *)

From Stdlib Require Import Lia ZArith.
From stdpp Require Import prelude list gmap sorting.
From S2P Require Import Prelude.

(** ** Comparators *)

Class OrdLaws {A : Type} (cmp : A -> A -> comparison) : Prop := {
  ord_opp : forall x y, cmp y x = CompOpp (cmp x y);
  ord_trans : forall x y z, cmp x y <> Gt -> cmp y z <> Gt -> cmp x z <> Gt
}.

Arguments ord_opp {A} cmp {_} x y.
Arguments ord_trans {A} cmp {_} x y z.

Definition then_with (c1 c2 : comparison) : comparison :=
  match c1 with Eq => c2 | c => c end.
Definition reverse (c : comparison) : comparison := CompOpp c.
Definition contramap {A B} (f : A -> B) (cmp : B -> B -> comparison) (x y : A) : comparison :=
  cmp (f x) (f y).

Section OrdFacts.
Context {A : Type} (cmp : A -> A -> comparison) `{!OrdLaws cmp}.

Lemma ord_refl x : cmp x x = Eq.
Proof. pose proof (ord_opp cmp x x). by destruct (cmp x x). Qed.

Lemma ord_gt_lt x y : cmp x y = Gt <-> cmp y x = Lt.
Proof. rewrite (ord_opp cmp x y). by destruct (cmp x y). Qed.

Lemma ord_total x y : cmp x y <> Gt \/ cmp y x <> Gt.
Proof. rewrite (ord_opp cmp x y). destruct (cmp x y); auto. Qed.

Lemma ord_eq_sym x y : cmp x y = Eq -> cmp y x = Eq.
Proof. rewrite (ord_opp cmp x y). by intros ->. Qed.

Lemma ord_eq_l x y z : cmp x y = Eq -> cmp x z = cmp y z.
Proof.
  intros E. pose proof (ord_eq_sym _ _ E) as E'.
  pose proof (ord_trans cmp x y z) as T1. pose proof (ord_trans cmp y x z) as T2.
  pose proof (ord_trans cmp z x y) as T3. pose proof (ord_trans cmp z y x) as T4.
  rewrite (ord_opp cmp x z), (ord_opp cmp y z) in *. rewrite E, E' in *.
  destruct (cmp x z), (cmp y z); naive_solver.
Qed.

Lemma ord_lt_le_trans x y z : cmp x y = Lt -> cmp y z <> Gt -> cmp x z = Lt.
Proof.
  intros H1 H2. pose proof (ord_trans cmp x y z ltac:(congruence) H2).
  destruct (cmp x z) eqn:E; [|done..]. exfalso. apply H2, ord_gt_lt.
  by rewrite <- (ord_eq_l _ _ y E).
Qed.

Lemma ord_le_lt_trans x y z : cmp x y <> Gt -> cmp y z = Lt -> cmp x z = Lt.
Proof.
  intros H1 H2. pose proof (ord_trans cmp x y z H1 ltac:(congruence)).
  destruct (cmp x z) eqn:E; [|done..]. exfalso. apply H1.
  rewrite (ord_eq_l _ _ y E), ord_gt_lt. done.
Qed.

#[export] Instance reverse_laws : OrdLaws (fun x y => reverse (cmp x y)).
Proof.
  split; unfold reverse.
  - intros x y. by rewrite (ord_opp cmp x y).
  - intros x y z. rewrite <- !(ord_opp cmp). intros H1 H2. by apply (ord_trans cmp) with y.
Qed.

Lemma flip_laws : OrdLaws (fun x y => cmp y x).
Proof.
  split.
  - intros x y. apply (ord_opp cmp).
  - intros x y z H1 H2. by apply (ord_trans cmp) with y.
Qed.

Lemma contramap_laws {B} (f : B -> A) : OrdLaws (contramap f cmp).
Proof.
  split; unfold contramap.
  - intros. apply (ord_opp cmp).
  - intros x y z. apply (ord_trans cmp).
Qed.
End OrdFacts.

#[export] Instance Z_compare_laws : OrdLaws Z.compare.
Proof.
  split.
  - intros. apply Z.compare_antisym.
  - intros x y z. rewrite !Z.compare_le_iff. lia.
Qed.

#[export] Instance then_with_laws {A} (c1 c2 : A -> A -> comparison) `{!OrdLaws c1, !OrdLaws c2} :
  OrdLaws (fun x y => then_with (c1 x y) (c2 x y)).
Proof.
  split.
  - intros x y. rewrite (ord_opp c1 x y), (ord_opp c2 x y). by destruct (c1 x y).
  - intros x y z. unfold then_with.
    pose proof (ord_eq_l c1 x y z). pose proof (ord_lt_le_trans c1 x y z).
    pose proof (ord_trans c2 x y z).
    destruct (c1 x y), (c1 y z), (c1 x z); naive_solver.
Qed.

#[export] Hint Resolve ord_refl : ord.

(** ** [BinaryHeap]: a max-heap *)

Section BinaryHeap.
Context {A : Type} (cmp : A -> A -> comparison).

Definition heap_push (h : list A) (x : A) : list A := h ++ [x].

Fixpoint heap_pop (h : list A) : option (A * list A) :=
  match h with
  | [] => None
  | x :: t =>
      match heap_pop t with
      | Some (m, rest) => match cmp m x with Gt => Some (m, x :: rest) | _ => Some (x, t) end
      | None => Some (x, [])
      end
  end.

Definition heap_peek (h : list A) : option A := fst <$> heap_pop h.

Lemma heap_pop_none h : heap_pop h = None <-> h = [].
Proof.
  destruct h as [|x t]; simpl; [done|]. split; [|done].
  destruct (heap_pop t) as [[m r]|]; [destruct (cmp m x)|]; done.
Qed.

Lemma heap_peek_none h : heap_peek h = None <-> h = [].
Proof. unfold heap_peek. rewrite fmap_None. apply heap_pop_none. Qed.

Lemma heap_pop_perm h m r : heap_pop h = Some (m, r) -> h ≡ₚ m :: r.
Proof.
  revert m r. induction h as [|x t IH]; simpl; [done|]. intros m r.
  destruct (heap_pop t) as [[m' r']|] eqn:E.
  - specialize (IH m' r' eq_refl).
    destruct (cmp m' x); intros [= <- <-]; try done. rewrite IH. apply Permutation_swap.
  - apply heap_pop_none in E as ->. by intros [= <- <-].
Qed.

Lemma heap_peek_pop h m : heap_peek h = Some m -> exists r, heap_pop h = Some (m, r).
Proof.
  unfold heap_peek. destruct (heap_pop h) as [[m' r]|]; simpl; [|done]. intros [= ->]. by exists r.
Qed.

Lemma heap_pop_length h m r : heap_pop h = Some (m, r) -> length h = S (length r).
Proof. intros ->%heap_pop_perm. done. Qed.

Context `{!OrdLaws cmp}.

Lemma heap_pop_max h m r y : heap_pop h = Some (m, r) -> y ∈ h -> cmp y m <> Gt.
Proof.
  revert m r. induction h as [|x t IH]; simpl; [done|]. intros m r.
  destruct (heap_pop t) as [[m' r']|] eqn:E; intros Hp [->|Hy]%elem_of_cons;
    try (apply heap_pop_none in E as ->; inversion Hy).
  - destruct (cmp m' x) eqn:C; injection Hp as <- <-; rewrite ?ord_refl; try done.
    rewrite (ord_opp cmp m' x), C. done.
  - specialize (IH _ _ eq_refl Hy).
    destruct (cmp m' x) eqn:C; injection Hp as <- <-; try done;
      apply (ord_trans cmp) with m'; congruence.
  - injection Hp as <- <-. by rewrite ord_refl.
Qed.

Lemma heap_peek_max h m y : heap_peek h = Some m -> y ∈ h -> cmp y m <> Gt.
Proof. intros [r Hr]%heap_peek_pop Hy. by apply heap_pop_max with h r. Qed.

Lemma heap_peek_elem h m : heap_peek h = Some m -> m ∈ h.
Proof. intros [r ->%heap_pop_perm]%heap_peek_pop. by left. Qed.
End BinaryHeap.

(** ** [BTreeSet] of pairs of integers *)

Definition pair_cmp (a b : Z * Z) : comparison := then_with (Z.compare a.1 b.1) (Z.compare a.2 b.2).

#[export] Instance pair_cmp_laws : OrdLaws pair_cmp.
Proof.
  exact (then_with_laws _ _ (OrdLaws0 := contramap_laws Z.compare fst)
           (OrdLaws1 := contramap_laws Z.compare snd)).
Qed.

Definition btree_first (X : gset (Z * Z)) : option (Z * Z) :=
  heap_peek (fun a b => reverse (pair_cmp a b)) (elements X).

Lemma pair_cmp_eq a b : pair_cmp a b = Eq -> a = b.
Proof.
  destruct a as [a1 a2], b as [b1 b2]. unfold pair_cmp. simpl.
  destruct (Z.compare_spec a1 b1), (Z.compare_spec a2 b2); simpl; congruence.
Qed.

Lemma btree_first_none X : btree_first X = None <-> X = ∅.
Proof. unfold btree_first. by rewrite heap_peek_none, elements_empty_iff, leibniz_equiv_iff. Qed.

Lemma btree_first_some X m :
  btree_first X = Some m -> m ∈ X /\ forall y, y ∈ X -> m.1 <= y.1.
Proof.
  unfold btree_first. intros H. split.
  - by apply elem_of_elements, (heap_peek_elem _ _ _ H).
  - intros y Hy%elem_of_elements. pose proof (heap_peek_max _ _ _ _ H Hy) as Hc.
    unfold pair_cmp, reverse in Hc.
    destruct (Z.compare_spec y.1 m.1); simpl in Hc; try lia. done.
Qed.

Lemma StronglySorted_lookup_lt {A} (R : A -> A -> Prop) (l : list A) i j x y :
  StronglySorted R l -> l !! i = Some x -> l !! j = Some y -> (i < j)%nat -> R x y.
Proof.
  intros Hs. revert i j. induction Hs as [|z l Hs IH Hz]; intros i j Hi Hj Hlt; [done|].
  destruct i as [|i], j as [|j]; simpl in *; try lia.
  - injection Hi as ->. rewrite Forall_forall in Hz. by apply Hz, list_elem_of_lookup_2 with j.
  - apply (IH i j); try done. lia.
Qed.

(** ** [slice::sort_by]: a stable sort *)

Section SortBy.
Context {A : Type} (cmp : A -> A -> comparison).

Fixpoint sort_insert (x : A) (l : list A) : list A :=
  match l with
  | [] => [x]
  | y :: t => match cmp x y with Gt => y :: sort_insert x t | _ => x :: l end
  end.

Definition sort_by (l : list A) : list A := foldr sort_insert [] l.

Definition ord_le (x y : A) : Prop := cmp x y <> Gt.

Lemma sort_insert_perm x l : sort_insert x l ≡ₚ x :: l.
Proof.
  induction l as [|y t IH]; simpl; [done|].
  destruct (cmp x y); try done. rewrite IH. apply Permutation_swap.
Qed.

Lemma sort_by_perm l : sort_by l ≡ₚ l.
Proof. induction l as [|x l IH]; simpl; [done|]. by rewrite sort_insert_perm, IH. Qed.

Context `{!OrdLaws cmp}.

Lemma sort_insert_sorted x l :
  StronglySorted ord_le l -> StronglySorted ord_le (sort_insert x l).
Proof.
  induction 1 as [|y t Hs IH Hy]; simpl; [by repeat constructor|].
  assert (Hle : cmp x y <> Gt -> Forall (ord_le x) (y :: t)).
  { intros Hxy. constructor; [done|]. eapply Forall_impl; [exact Hy|].
    intros z Hz. unfold ord_le in *. by apply (ord_trans cmp) with y. }
  destruct (cmp x y) eqn:E; try by (constructor; [by constructor | by apply Hle]).
  constructor; [done|]. rewrite sort_insert_perm. constructor; [|done].
  unfold ord_le. rewrite (ord_opp cmp x y), E. done.
Qed.

Lemma sort_by_sorted l : StronglySorted ord_le (sort_by l).
Proof. induction l; simpl; [constructor | by apply sort_insert_sorted]. Qed.
End SortBy.

(** Popping a heap until it is empty, or until its maximum fails a test,
    yields a sorted list. *)
Section Drain.
Context {A : Type} (cmp : A -> A -> comparison) `{!OrdLaws cmp} (ready : A -> bool).

Fixpoint heap_drain (fuel : nat) (h : list A) : list A :=
  match fuel with
  | O => []
  | S n =>
      match heap_pop cmp h with
      | Some (m, r) => if ready m then m :: heap_drain n r else []
      | None => []
      end
  end.

Lemma heap_drain_perm fuel h :
  (length h <= fuel)%nat ->
  (forall x y, cmp x y <> Gt -> ready x -> ready y) ->
  heap_drain fuel h ≡ₚ filter (fun x => ready x) h.
Proof.
  intros Hf Hup. revert h Hf. induction fuel as [|n IH]; intros h Hf; simpl.
  - destruct h; simpl in *; [done|lia].
  - destruct (heap_pop cmp h) as [[m r]|] eqn:E.
    + pose proof (heap_pop_length _ _ _ _ E). rewrite (heap_pop_perm _ _ _ _ E).
      destruct (ready m) eqn:Em.
      * rewrite (filter_cons_True (fun x => ready x)) by by apply Is_true_true. rewrite IH by lia. done.
      * rewrite (filter_cons_False (fun x => ready x)) by (rewrite Em; tauto).
        destruct (filter (fun x => ready x) r) as [|x l] eqn:Ef; [done|].
        assert (x ∈ filter (fun x => ready x) r) as [Hr Hx]%list_elem_of_filter
          by (rewrite Ef; by left).
        assert (ready m) as Hm; [|by rewrite Em in Hm].
        apply Hup with x; [|done]. eapply heap_pop_max; [done..|].
        rewrite (heap_pop_perm _ _ _ _ E). by right.
    + apply heap_pop_none in E as ->. done.
Qed.

Lemma heap_drain_elem fuel h x : x ∈ heap_drain fuel h -> x ∈ h.
Proof.
  revert h. induction fuel as [|n IH]; intros h; simpl; [by intros ?%elem_of_nil|].
  destruct (heap_pop cmp h) as [[m r]|] eqn:E; [|by intros ?%elem_of_nil].
  destruct (ready m); [|by intros ?%elem_of_nil]. rewrite (heap_pop_perm _ _ _ _ E).
  intros [->|Hx]%elem_of_cons; [by left | right; by apply IH].
Qed.

Lemma heap_drain_sorted fuel h : StronglySorted (fun x y => cmp y x <> Gt) (heap_drain fuel h).
Proof.
  revert h. induction fuel as [|n IH]; intros h; simpl; [constructor|].
  destruct (heap_pop cmp h) as [[m r]|] eqn:E; [|constructor].
  destruct (ready m); constructor; [done|]. rewrite Forall_forall. intros x Hx%heap_drain_elem.
  apply (heap_pop_max _ h m r x E). rewrite (heap_pop_perm _ _ _ _ E). by right.
Qed.
End Drain.

(** Draining does not depend on the order of the heap's elements when the
    comparator tells them apart. *)
Lemma heap_drain_perm_eq {A} (cmp : A -> A -> comparison) `{!OrdLaws cmp} (ready : A -> bool) n h h' :
  h ≡ₚ h' -> (length h <= n)%nat ->
  (forall x y, cmp x y <> Gt -> ready x -> ready y) ->
  (forall x y, x ∈ h -> y ∈ h -> cmp x y = Eq -> x = y) ->
  heap_drain cmp ready n h = heap_drain cmp ready n h'.
Proof.
  intros Hp Hn Hup Heq.
  eapply (StronglySorted_unique_strong (fun x y => cmp y x <> Gt));
    [|by apply heap_drain_sorted|by apply heap_drain_sorted|].
  - intros x y Hx%heap_drain_elem Hy%heap_drain_elem H1 H2. rewrite <- Hp in Hy. apply Heq; [done..|].
    pose proof (ord_opp cmp x y). destruct (cmp x y), (cmp y x); naive_solver.
  - transitivity (filter (fun x => ready x) h); [by apply heap_drain_perm|].
    symmetry. rewrite Hp. apply heap_drain_perm; [done| |done]. by rewrite <- Hp.
Qed.

(** Two heaps related by an order isomorphism drain in step. *)
Section DrainRelated.
Context {A B : Type} (cmpA : A -> A -> comparison) (cmpB : B -> B -> comparison).
Context (readyA : A -> bool) (readyB : B -> bool).

Lemma heap_pop_related (P : list (A * B)) :
  (forall x y, x ∈ P -> y ∈ P -> cmpB x.2 y.2 = cmpA x.1 y.1) ->
  heap_pop cmpA P.*1 = (fun p => (p.1.1, p.2.*1)) <$> heap_pop (contramap fst cmpA) P /\
  heap_pop cmpB P.*2 = (fun p => (p.1.2, p.2.*2)) <$> heap_pop (contramap fst cmpA) P.
Proof.
  induction P as [|x P IH]; intros Hc; [done|]. csimpl.
  destruct IH as [-> ->]; [intros; apply Hc; by right|].
  destruct (heap_pop (contramap fst cmpA) P) as [[m R]|] eqn:E; simpl; [|done].
  rewrite Hc; [|right; rewrite (heap_pop_perm _ _ _ _ E); by left | by left].
  unfold contramap. by destruct (cmpA m.1 x.1).
Qed.

Lemma heap_drain_related n (P : list (A * B)) :
  (forall x y, x ∈ P -> y ∈ P -> cmpB x.2 y.2 = cmpA x.1 y.1) ->
  (forall x, x ∈ P -> readyB x.2 = readyA x.1) ->
  exists Q, heap_drain cmpA readyA n P.*1 = Q.*1 /\ heap_drain cmpB readyB n P.*2 = Q.*2 /\
    forall x, x ∈ Q -> x ∈ P.
Proof.
  revert P. induction n as [|n IH]; intros P Hc Hr; simpl.
  { exists []. split_and!; [done..|]. by intros ? ?%elem_of_nil. }
  destruct (heap_pop_related P Hc) as [-> ->].
  destruct (heap_pop (contramap fst cmpA) P) as [[m R]|] eqn:E; simpl;
    [|exists []; split_and!; [done..|]; by intros ? ?%elem_of_nil].
  apply heap_pop_perm in E.
  rewrite Hr by (rewrite E; by left). destruct (readyA m.1);
    [|exists []; split_and!; [done..|]; by intros ? ?%elem_of_nil].
  destruct (IH R) as (Q & H1 & H2 & H3).
  - intros x y Hx Hy. apply Hc; rewrite E; by right.
  - intros x Hx. apply Hr. rewrite E. by right.
  - exists (m :: Q). simpl. rewrite H1, H2. split_and!; [done..|].
    intros x [->|Hx]%elem_of_cons; rewrite E; [by left | right; by apply H3].
Qed.
End DrainRelated.
