(* ===== verification/KeyedList.v ===== *)
(** * Vectors searched by key

    Several sources keep a [Vec] whose elements have distinct keys, search it
    with [iter().find(..)] or [position(..)], update the element found in
    place, [push] new ones and [swap_remove] old ones.  Such a vector is a
    finite map from keys to elements; the lemmas here say so, whatever the
    order of the vector. *)

From Stdlib Require Import Lia.
From stdpp Require Import prelude list.
From S2P Require Import Prelude.

(** Overwriting the element to be removed changes nothing. *)
Lemma swap_remove_insert {A} i (x : A) l : swap_remove i (<[i := x]> l) = swap_remove i l.
Proof.
  destruct l as [|z l _] using rev_ind; [done|].
  destruct (Nat.lt_total i (length l)) as [Hi|[->|Hi]].
  - rewrite insert_app_l by done. unfold swap_remove. rewrite !last_snoc, !length_app, length_insert.
    rewrite !insert_app_l by (rewrite ?length_insert; done). by rewrite list_insert_insert_eq.
  - rewrite insert_app_r_alt, Nat.sub_diag by done. cbn. unfold swap_remove. rewrite !last_snoc, !length_app.
    rewrite !insert_app_r_alt, !Nat.sub_diag by done. cbn [insert list_insert length].
    rewrite Nat.add_sub. by rewrite !take_app_length.
  - by rewrite list_insert_ge by (rewrite length_app; simpl; lia).
Qed.

Section Keyed.
Context {A K : Type} `{!EqDecision K} (f : A -> K).

(** The element with key [k]. *)
Definition lookup_key (k : K) (l : list A) : option A := snd <$> list_find (fun a => f a = k) l.

Definition keyed (l : list A) : Prop := NoDup (f <$> l).

Lemma lookup_key_cons k a l : lookup_key k (a :: l) = if decide (f a = k) then Some a else lookup_key k l.
Proof. unfold lookup_key. cbn [list_find]. case_decide; [done|]. by destruct (list_find _ l) as [[]|]. Qed.

Lemma lookup_key_elem k l a : lookup_key k l = Some a -> a ∈ l /\ f a = k.
Proof.
  unfold lookup_key. rewrite fmap_Some. intros ([i b] & Hf & ->).
  apply list_find_Some in Hf as (Hi & Hk & _). split; [by apply list_elem_of_lookup_2 with i|done].
Qed.

Lemma lookup_key_None k l : lookup_key k l = None <-> k ∉ f <$> l.
Proof.
  unfold lookup_key. rewrite fmap_None, list_find_None, Forall_forall, list_elem_of_fmap. naive_solver.
Qed.

Lemma lookup_key_Some k l a : keyed l -> lookup_key k l = Some a <-> a ∈ l /\ f a = k.
Proof.
  intros Hn. split; [apply lookup_key_elem|]. intros [Ha <-].
  destruct (lookup_key (f a) l) as [b|] eqn:E.
  - apply lookup_key_elem in E as [Hb Hf]. f_equal. by apply (NoDup_fmap_inj f l).
  - apply lookup_key_None in E. destruct E. by apply list_elem_of_fmap_2.
Qed.

Lemma lookup_key_is_Some k l : is_Some (lookup_key k l) <-> k ∈ f <$> l.
Proof.
  destruct (lookup_key k l) as [a|] eqn:E.
  - apply lookup_key_elem in E as [Ha <-]. split; [intros _; by apply list_elem_of_fmap_2|done].
  - apply lookup_key_None in E. split; [by intros []|done].
Qed.

Lemma lookup_key_perm k l l' : keyed l -> l ≡ₚ l' -> lookup_key k l = lookup_key k l'.
Proof.
  intros Hn Hp. assert (Hn' : keyed l') by (unfold keyed; by rewrite <- Hp).
  apply option_eq. intros a. by rewrite !lookup_key_Some, Hp.
Qed.

(** [push] of an element with a new key *)
Lemma lookup_key_push k l b : keyed l -> f b ∉ f <$> l ->
  keyed (l ++ [b]) /\ lookup_key k (l ++ [b]) = if decide (k = f b) then Some b else lookup_key k l.
Proof.
  intros Hn Hb. assert (Hn' : keyed (l ++ [b])).
  { unfold keyed. rewrite fmap_app. apply NoDup_app. split_and!; [done| |apply NoDup_singleton].
    intros x Hx Hs%list_elem_of_singleton. congruence. }
  split; [done|]. apply option_eq. intros a. rewrite lookup_key_Some by done.
  rewrite elem_of_app, list_elem_of_singleton. case_decide as Hk.
  - split; [intros [[Ha| ->] Ha']; [|done]|by intros [= <-]; auto].
    destruct Hb. rewrite <- Hk, <- Ha'. by apply list_elem_of_fmap_2.
  - rewrite lookup_key_Some by done. naive_solver.
Qed.

(** In-place update that keeps the key *)
Lemma lookup_key_update k l i a b : keyed l -> l !! i = Some a -> f b = f a ->
  keyed (<[i := b]> l) /\ lookup_key k (<[i := b]> l) = if decide (k = f a) then Some b else lookup_key k l.
Proof.
  intros Hn Hi Hb.
  assert (Hf : f <$> <[i := b]> l = f <$> l).
  { rewrite list_fmap_insert, Hb. apply list_insert_id. by rewrite list_lookup_fmap, Hi. }
  assert (Hn' : keyed (<[i := b]> l)) by (unfold keyed; by rewrite Hf).
  split; [done|]. apply option_eq. intros c. rewrite lookup_key_Some by done. case_decide as Hk.
  - split; [|intros [= <-]; split; [|congruence]].
    + intros [Hc Hck]. f_equal. apply (NoDup_fmap_inj f (<[i := b]> l)); [done| |done|congruence].
      apply list_elem_of_lookup_2 with i, list_lookup_insert_eq. by apply lookup_lt_Some with a.
    + apply list_elem_of_lookup_2 with i, list_lookup_insert_eq. by apply lookup_lt_Some with a.
  - rewrite lookup_key_Some by done. rewrite !list_elem_of_lookup. split.
    + intros [[j Hj] Hc]. split; [|done]. exists j. rewrite list_lookup_insert_ne in Hj; [done|].
      intros ->. rewrite list_lookup_insert_eq in Hj by (by apply lookup_lt_Some with a). congruence.
    + intros [[j Hj] Hc]. split; [|done]. exists j. rewrite list_lookup_insert_ne; [done|]. intros ->. congruence.
Qed.

(** [swap_remove] *)
Lemma lookup_key_remove k l i a : keyed l -> l !! i = Some a ->
  keyed (swap_remove i l) /\ lookup_key k (swap_remove i l) = if decide (k = f a) then None else lookup_key k l.
Proof.
  intros Hn Hi. pose proof (swap_remove_perm i l a Hi) as Hp.
  assert (Hn' : keyed (a :: swap_remove i l)) by (unfold keyed in *; by rewrite <- Hp).
  unfold keyed in Hn'. rewrite fmap_cons in Hn'. apply NoDup_cons in Hn' as [Ha Hr]. split; [done|].
  case_decide as Hk; [subst k; by apply lookup_key_None|].
  apply option_eq. intros b. rewrite !lookup_key_Some by done.
  assert (Hb : b ∈ l <-> b ∈ a :: swap_remove i l) by by apply elem_of_Permutation_proper.
  rewrite Hb, elem_of_cons. naive_solver.
Qed.

(** The predicate of a search by key picks out the element with the key. *)
Lemma find_key (P : A -> Prop) `{!forall a, Decision (P a)} k l :
  (forall a, a ∈ l -> P a <-> f a = k) -> snd <$> list_find P l = lookup_key k l.
Proof.
  intros HP. unfold lookup_key. f_equal. induction l as [|a l IH]; [done|]. cbn [list_find].
  pose proof (HP a ltac:(by left)). rewrite IH by (intros; apply HP; by right). by repeat case_decide; try tauto.
Qed.

Lemma fmap_empty_keyed : keyed [].
Proof. constructor. Qed.
End Keyed.
