(* ===== verification/Sums.v ===== *)
(** * Sums

    Sums of integers over lists and maps, and how they change when one
    element does. *)

From Stdlib Require Import Lia ZArith.
From stdpp Require Import prelude list gmap.
From S2P Require Import Prelude.

(** ** Over a list *)

Definition list_sum {A} (f : A -> Z) (l : list A) : Z := foldr (fun x a => f x + a) 0 l.

Lemma list_sum_app {A} (f : A -> Z) l l' : list_sum f (l ++ l') = list_sum f l + list_sum f l'.
Proof. induction l as [|x l IH]; simpl; lia. Qed.

Lemma list_sum_insert {A} (f : A -> Z) l i x y :
  l !! i = Some x -> list_sum f (<[i := y]> l) = list_sum f l - f x + f y.
Proof.
  revert i. induction l as [|z l IH]; intros [|i] H; simpl in *; [done..| |].
  - injection H as ->. lia.
  - rewrite (IH i H). lia.
Qed.

Lemma list_sum_nonneg {A} (f : A -> Z) l : (forall x, x ∈ l -> 0 <= f x) -> 0 <= list_sum f l.
Proof.
  induction l as [|x l IH]; intros H; simpl; [lia|].
  pose proof (H x ltac:(left)). assert (0 <= list_sum f l); [|lia]. apply IH. intros y Hy. apply H. by right.
Qed.

(** ** Over a map *)

Definition map_sum `{Countable K} {A} (g : K -> A -> Z) (m : gmap K A) : Z :=
  map_fold (fun p c a => g p c + a) 0 m.

Definition weight_at {K A} (g : K -> A -> Z) (o : option A) (p : K) : Z :=
  match o with Some c => g p c | None => 0 end.

Section MapSum.
Context `{EqK : EqDecision K, CK : !Countable K} {A : Type} (g : K -> A -> Z).
Implicit Types m : gmap K A.

Lemma map_sum_insert_new m p c : m !! p = None -> map_sum g (<[p := c]> m) = g p c + map_sum g m.
Proof. intros H. unfold map_sum. apply (map_fold_insert_L (fun p c a => g p c + a)); [|done]. intros; lia. Qed.

Lemma map_sum_delete m p : map_sum g (delete p m) = map_sum g m - weight_at g (m !! p) p.
Proof.
  destruct (m !! p) as [c|] eqn:E; simpl.
  - rewrite <- (insert_delete_id m p c E) at 2. rewrite map_sum_insert_new by apply lookup_delete_eq. lia.
  - rewrite delete_id by done. lia.
Qed.

Lemma map_sum_insert m p c : map_sum g (<[p := c]> m) = map_sum g m - weight_at g (m !! p) p + g p c.
Proof.
  rewrite <- insert_delete_eq, map_sum_insert_new by apply lookup_delete_eq. rewrite map_sum_delete. lia.
Qed.

Lemma map_sum_ext g' m : (forall p c, m !! p = Some c -> g p c = g' p c) -> map_sum g m = map_sum g' m.
Proof.
  induction m as [|p c m Hp IH] using map_ind; intros H; [done|].
  rewrite map_sum_insert_new by done. rewrite IH.
  - unfold map_sum at 2. rewrite (map_fold_insert_L (fun p c a => g' p c + a)); [|intros; lia|done].
    by rewrite (H p c) by apply lookup_insert_eq.
  - intros q d Hq. apply H. rewrite lookup_insert_ne; [done|]. congruence.
Qed.

Lemma map_sum_nonneg m : (forall p c, m !! p = Some c -> 0 <= g p c) -> 0 <= map_sum g m.
Proof.
  induction m as [|p c m Hp IH] using map_ind; intros H; [done|].
  rewrite map_sum_insert_new by done. pose proof (H p c (lookup_insert_eq _ _ _)).
  assert (0 <= map_sum g m); [|lia]. apply IH. intros q d Hq. apply H. rewrite lookup_insert_ne; [done|]. congruence.
Qed.
End MapSum.

Lemma map_sum_zero `{Countable K} {A} (m : gmap K A) : map_sum (fun _ _ => 0) m = 0.
Proof. induction m as [|p c m Hp IH] using map_ind; [done|]. by rewrite map_sum_insert_new. Qed.
