(* ===== verification/Identifier.v ===== *)
(** * Identifiers

    Models [steel-utils/src/types/identifier.rs]: the [namespace:path] names
    of registry entries, their syntax, parser, printer and order.  A [str] is
    the string of its UTF-8 bytes: the valid characters are ASCII, and every
    byte of a character that is not is refused as the character is. *)

From Stdlib Require Import Lia ZArith String Ascii.
From stdpp Require Import prelude list gmap strings.
From S2P Require Import Prelude Collections.

#[local] Open Scope string_scope.

Record Identifier := mk_id { namespace : string; path : string }.

#[export] Instance Identifier_eq_dec : EqDecision Identifier.
Proof. solve_decision. Defined.
#[export] Program Instance Identifier_countable : Countable Identifier :=
  inj_countable' (fun i => (namespace i, path i)) (fun t => mk_id t.1 t.2) _.
Next Obligation. by intros []. Qed.

Definition VANILLA_NAMESPACE : string := "minecraft".
Definition STEEL_NAMESPACE : string := "steel".

Definition new_static (namespace path : string) : Identifier := mk_id namespace path.
Definition from_steel (path : string) : Identifier := new_static STEEL_NAMESPACE path.
Definition vanilla_static (path : string) : Identifier := mk_id VANILLA_NAMESPACE path.

(** ** Syntax *)

Definition in_range (lo hi : ascii) (c : ascii) : bool :=
  (N_of_ascii lo <=? N_of_ascii c)%N && (N_of_ascii c <=? N_of_ascii hi)%N.

Definition valid_namespace_char (c : ascii) : bool :=
  Ascii.eqb c "_" || Ascii.eqb c "-" || in_range "a" "z" c || in_range "0" "9" c || Ascii.eqb c ".".
Definition valid_char (c : ascii) : bool := valid_namespace_char c || Ascii.eqb c "/".

(** [str::chars().all(..)] *)
Fixpoint all_chars (P : ascii -> bool) (s : string) : bool :=
  match s with EmptyString => true | String c s => P c && all_chars P s end.

Definition validate_namespace (namespace : string) : bool :=
  negb (String.eqb namespace "..") && all_chars valid_namespace_char namespace.
Definition validate_path (path : string) : bool := all_chars valid_char path.
Definition validate (namespace path : string) : bool :=
  validate_namespace namespace && validate_path path.

(** ** Printing, parsing and order *)

(** [Display] *)
Definition to_string (i : Identifier) : string := namespace i ++ String ":" (path i).

(** [str::split_once(':')] *)
Fixpoint split_once (s : string) : option (string * string) :=
  match s with
  | EmptyString => None
  | String c s =>
      if Ascii.eqb c ":" then Some (EmptyString, s)
      else match split_once s with Some (a, b) => Some (String c a, b) | None => None end
  end.

Inductive IdentifierError := InvalidNamespace | InvalidPath.

(** The [match] of [from_str]. *)
Definition split_name (s : string) : string * string :=
  match split_once s with
  | Some (EmptyString, path) => (VANILLA_NAMESPACE, path)
  | Some (namespace, path) => (namespace, path)
  | None => (VANILLA_NAMESPACE, s)
  end.

Definition from_str (s : string) : outcome IdentifierError Identifier :=
  let '(namespace, path) := split_name s in
  if negb (validate_namespace namespace) then Err InvalidNamespace
  else if negb (validate_path path) then Err InvalidPath
  else Ok (mk_id namespace path).

(** [Ord]: by path first. *)
Definition id_cmp (a b : Identifier) : comparison :=
  then_with (String.compare (path a) (path b)) (String.compare (namespace a) (namespace b)).

(** ** Facts *)

Lemma ascii_compare_N a b : Ascii.compare a b = (N_of_ascii a ?= N_of_ascii b)%N.
Proof. reflexivity. Qed.

#[export] Instance string_compare_laws : OrdLaws String.compare.
Proof.
  split.
  - intros x y. apply String.compare_antisym.
  - intros x y z. revert y z. induction x as [|a x IH]; intros [|b y] [|c z]; try done. simpl.
    rewrite !ascii_compare_N. specialize (IH y z).
    destruct (N.compare_spec (N_of_ascii a) (N_of_ascii b)), (N.compare_spec (N_of_ascii b) (N_of_ascii c)),
      (N.compare_spec (N_of_ascii a) (N_of_ascii c)); try done; try lia; by auto.
Qed.

#[export] Instance id_cmp_laws : OrdLaws id_cmp.
Proof.
  exact (then_with_laws _ _ (OrdLaws0 := contramap_laws String.compare path)
           (OrdLaws1 := contramap_laws String.compare namespace)).
Qed.

Lemma id_cmp_eq a b : id_cmp a b = Eq -> a = b.
Proof.
  destruct a as [n p], b as [n' p']. unfold id_cmp. simpl.
  destruct (String.compare p p') eqn:E; try done. simpl. intros E'.
  by rewrite (String.compare_eq_iff _ _ E), (String.compare_eq_iff _ _ E').
Qed.

Lemma no_colon c : valid_namespace_char c = true -> Ascii.eqb c ":" = false.
Proof. intros H. destruct (Ascii.eqb_spec c ":") as [->|]; [vm_compute in H; discriminate|done]. Qed.

Lemma split_once_app n p :
  all_chars valid_namespace_char n = true -> split_once (n ++ String ":" p) = Some (n, p).
Proof.
  induction n as [|c n IH]; [done|]. simpl. intros [Hc Hn]%andb_true_iff. by rewrite (no_colon c Hc), (IH Hn).
Qed.

Lemma split_once_shape s n p : split_once s = Some (n, p) -> s = n ++ String ":" p.
Proof.
  revert n. induction s as [|c s IH]; intros n; [done|]. simpl. destruct (Ascii.eqb_spec c ":") as [->|].
  - by intros [= <- <-].
  - destruct (split_once s) as [[a b]|]; [|done]. intros [= <- <-]. by rewrite (IH a eq_refl).
Qed.

Lemma from_str_ok s i : from_str s = Ok i -> namespace i <> "" /\ validate (namespace i) (path i) = true.
Proof.
  unfold from_str, validate.
  assert (Hr : (split_name s).1 <> "") by (unfold split_name; by destruct (split_once s) as [[[|c n] p]|]).
  destruct (split_name s) as [n p]. simpl in Hr. destruct (validate_namespace n) eqn:E1; [|done]. cbn [negb].
  destruct (validate_path p) eqn:E2; [|done]. intros [= <-]. cbn [namespace path negb]. by rewrite E1, E2.
Qed.

Lemma from_str_to_string i :
  validate (namespace i) (path i) = true -> namespace i <> "" -> from_str (to_string i) = Ok i.
Proof.
  destruct i as [n p]. unfold validate, to_string, from_str, split_name. cbn [namespace path]. intros [Hn Hp]%andb_true_iff Hne.
  rewrite split_once_app by (by apply andb_true_iff in Hn as [_ Hn']).
  destruct n as [|c n]; [done|]. by rewrite Hn, Hp.
Qed.

(** Identifiers survive printing and parsing exactly when they are valid
    and have a namespace: every identifier the parser returns is such, and
    an identifier with invalid characters, or with the namespace [..], is not
    accepted back under any name. *)
Theorem identifier_roundtrip i :
  (from_str (to_string i) = Ok i <-> validate (namespace i) (path i) = true /\ namespace i <> "") /\
  (forall s, from_str s = Ok i -> from_str (to_string i) = Ok i) /\
  (forall s, from_str s = Ok i -> s = to_string i \/ (namespace i = VANILLA_NAMESPACE /\ (s = path i \/ s = String ":" (path i)))).
Proof.
  split; [split|split].
  - intros [H1 H2]%from_str_ok. done.
  - intros [H1 H2]. by apply from_str_to_string.
  - intros s [H1 H2]%from_str_ok. by apply from_str_to_string.
  - intros s. unfold from_str, split_name. destruct (split_once s) as [[n p]|] eqn:E; [apply split_once_shape in E; subst s; destruct n as [|c n]|];
      destruct (negb _); try done; destruct (negb _); try done; intros [= <-]; auto.
Qed.
