(* ===== verification/Registry.v ===== *)
(** * Registries

    Models the methods that [steel-registry/src/macros.rs] generates for
    every registry: registration under an id and a key, freezing, and the
    lookups.  The entry type, its key, and whether a registry refuses
    duplicate keys are the macros' arguments. *)

From Stdlib Require Import Lia ZArith String.
From stdpp Require Import prelude list gmap.
From S2P Require Import Prelude Identifier.

Record Registry (Entry : Type) := mk_registry {
  by_id_field : list Entry;
  by_key_field : gmap Identifier nat;
  allows_registering : bool
}.
Arguments mk_registry {Entry} _ _ _.
Arguments by_id_field {Entry} _.
Arguments by_key_field {Entry} _.
Arguments allows_registering {Entry} _.

Section Registry.
Context {Entry : Type} (key : Entry -> Identifier) (refuses_duplicates : bool).

Definition registry_new : Registry Entry := mk_registry [] ∅ true.

Definition register {E} (r : Registry Entry) (entry : Entry) : outcome E (nat * Registry Entry) :=
  if negb (allows_registering r) then Panic
  else if refuses_duplicates && bool_decide (is_Some (by_key_field r !! key entry)) then Panic
  else
    let id := length (by_id_field r) in
    Ok (id, mk_registry (by_id_field r ++ [entry]) (<[key entry := id]> (by_key_field r)) (allows_registering r)).

Definition iter (r : Registry Entry) : list (nat * Entry) := imap pair (by_id_field r).
Definition freeze (r : Registry Entry) : Registry Entry := mk_registry (by_id_field r) (by_key_field r) false.
Definition by_id (r : Registry Entry) (id : nat) : option Entry := by_id_field r !! id.
Definition by_key (r : Registry Entry) (k : Identifier) : option Entry :=
  match by_key_field r !! k with Some id => by_id_field r !! id | None => None end.
Definition id_from_key (r : Registry Entry) (k : Identifier) : option nat := by_key_field r !! k.
Definition registry_len (r : Registry Entry) : nat := length (by_id_field r).
Definition registry_is_empty (r : Registry Entry) : bool := bool_decide (by_id_field r = []).

(** A sequence of [register] calls. *)
Fixpoint register_all {E} (r : Registry Entry) (entries : list Entry) : outcome E (Registry Entry) :=
  match entries with
  | [] => Ok r
  | e :: rest => let? '(_, r) := register r e in register_all r rest
  end.

(** Every registry the methods produce from an empty one. *)
Inductive registry_built : Registry Entry -> Prop :=
| registry_built_new : registry_built registry_new
| registry_built_register r e id r' : registry_built r -> register (E := Empty_set) r e = Ok (id, r') -> registry_built r'
| registry_built_freeze r : registry_built r -> registry_built (freeze r).

Record registry_ok (r : Registry Entry) : Prop := {
  key_points : forall k id, by_key_field r !! k = Some id -> exists e, by_id_field r !! id = Some e /\ key e = k;
  id_keyed : refuses_duplicates = true -> forall id e, by_id_field r !! id = Some e -> by_key_field r !! key e = Some id
}.

Lemma register_ok {E} r e id r' :
  registry_ok r -> register (E := E) r e = Ok (id, r') ->
  registry_ok r' /\ id = registry_len r /\ by_id_field r' = by_id_field r ++ [e] /\
  by_key_field r' = <[key e := id]> (by_key_field r).
Proof.
  intros [H1 H2]. unfold register. destruct (negb _); [done|].
  destruct (refuses_duplicates && _) eqn:Ed; [done|]. intros [= <- <-]. cbn [by_id_field by_key_field].
  split; [|done]. constructor; cbn [by_id_field by_key_field].
  - intros k id'. rewrite lookup_insert_Some. intros [[<- <-]|[Hne Hk]].
    + exists e. by rewrite list_lookup_middle.
    + destruct (H1 _ _ Hk) as (e' & He & <-). exists e'. split; [|done]. by apply lookup_app_l_Some.
  - intros Hr id' e'. rewrite Hr in Ed. cbn [andb] in Ed. apply bool_decide_eq_false in Ed.
    intros [Hl|[Hg Hl]]%lookup_app_Some.
    + specialize (H2 Hr _ _ Hl). rewrite lookup_insert_ne; [done|]. intros Hk. rewrite Hk, H2 in Ed. by destruct Ed.
    + apply list_lookup_singleton_Some in Hl as [Hz <-]. rewrite lookup_insert_eq. f_equal. lia.
Qed.

Lemma registry_built_ok r : registry_built r -> registry_ok r.
Proof.
  induction 1 as [|r e id r' _ IH Hr|r _ IH].
  - split; cbn [registry_new by_key_field by_id_field]; [intros k id; by rewrite lookup_empty|done].
  - by apply (register_ok (E := Empty_set) r e id).
  - destruct IH. by split.
Qed.

Lemma register_any {E F} r e x : register (E := E) r e = Ok x -> register (E := F) r e = Ok x.
Proof.
  unfold register. destruct (negb _); [done|]. destruct (refuses_duplicates && _); [done|]. by intros [= <-].
Qed.

Lemma register_all_built {E} r entries r' :
  registry_built r -> register_all (E := E) r entries = Ok r' -> registry_built r'.
Proof.
  revert r. induction entries as [|e l IH]; intros r Hb; cbn [register_all]; [by intros [= <-]|].
  destruct (register r e) as [[id r1]|e'|] eqn:Er; cbn [obind]; [|done..].
  apply IH. by apply (registry_built_register r e id), (register_any r e (id, r1) Er).
Qed.

Lemma by_key_of_id r id e :
  registry_ok r -> refuses_duplicates = true -> by_id r id = Some e ->
  by_key r (key e) = Some e /\ id_from_key r (key e) = Some id.
Proof. intros [_ H] Hr He. unfold by_key, id_from_key. by rewrite (H Hr _ _ He). Qed.
End Registry.

(** Registry lookups agree.  In every registry that refuses duplicate keys,
    an entry found by id is found, with that id, by its key, an entry found
    by key has that key, and registering appends the next id, keeps every
    earlier entry, and panics exactly on a taken key or a frozen registry. *)
Theorem registry_lookups_agree {Entry} (key : Entry -> Identifier) r :
  registry_built key true r ->
  (forall id e, by_id r id = Some e -> by_key r (key e) = Some e /\ id_from_key r (key e) = Some id) /\
  (forall k e, by_key r k = Some e -> key e = k) /\
  (forall e, match register (E := Empty_set) key true r e with
             | Ok (id, r') => allows_registering r = true /\ by_key r (key e) = None /\ id = registry_len r /\
                 by_key r' (key e) = Some e /\ forall id' e', by_id r id' = Some e' -> by_id r' id' = Some e'
             | Err _ => False
             | Panic => allows_registering r = false \/ is_Some (by_key r (key e))
             end).
Proof.
  intros Hb. pose proof (registry_built_ok _ _ _ Hb) as Hok. split_and!.
  - intros id e. by apply (by_key_of_id key true).
  - intros k e. unfold by_key. destruct (by_key_field r !! k) as [id|] eqn:E; [|done].
    destruct (key_points _ _ _ Hok _ _ E) as (e' & He & <-). rewrite He. by intros [= <-].
  - intros e. destruct (register (E := Empty_set) key true r e) as [[id r']|[]|] eqn:E.
    + destruct (register_ok _ _ _ _ _ _ Hok E) as (Hok' & -> & Hi & Hk). unfold register in E.
      destruct (allows_registering r); [|done]. cbn [negb andb] in E. case_bool_decide as Hd; [done|].
      split; [done|]. split_and!; [|done| |].
      * unfold by_key. destruct (by_key_field r !! key e); [by destruct Hd|done].
      * unfold by_key. by rewrite Hk, lookup_insert_eq, Hi, list_lookup_middle.
      * intros id' e' He. unfold by_id. rewrite Hi. by apply lookup_app_l_Some.
    + unfold register in E. destruct (allows_registering r); [|by left]. right. cbn [negb andb] in E.
      case_bool_decide as Hd; [|done]. destruct Hd as [id Hid]. destruct (key_points _ _ _ Hok _ _ Hid) as (e' & He & _).
      unfold by_key. rewrite Hid, He. done.
Qed.

Lemma registry_lookups_agree_witness :
  let portal := vanilla_static "portal"%string in
  exists r, register (E := Empty_set) (fun i => i) true registry_new portal = Ok (0%nat, r) /\
    by_key r portal = Some portal /\ id_from_key r portal = Some 0%nat.
Proof.
  intros portal. set (r := mk_registry [portal] {[ portal := 0%nat ]} true).
  assert (Hr : register (E := Empty_set) (fun i => i) true registry_new portal = Ok (0%nat, r)) by reflexivity.
  exists r. split; [exact Hr|].
  destruct (registry_lookups_agree (fun i => i) r) as [Hid _].
  - exact (registry_built_register _ _ registry_new portal 0 r (registry_built_new _ _) Hr).
  - apply (Hid 0%nat portal). reflexivity.
Defined.
