(* ===== verification/ItemStack.v ===== *)
(** * Item stacks

    Models the parts of [steel-registry/src/item_stack.rs] and
    [data_components/registry/patch.rs] that inventories rely on: component
    patches over an item's prototype, the tests for empty and equal stacks,
    and the counts.

    A component value is seen up to equality; integers and the slot of an
    [Equippable] are also read.  The prototypes of the items are generated
    code and a parameter ([Items]); an item is identified by its key, as
    [Item]'s [PartialEq] does. *)

From Stdlib Require Import Lia ZArith String.
From stdpp Require Import prelude list gmap.
From S2P Require Import Prelude Identifier.

(** ** Components *)

Inductive EquipmentSlot := MainHand | OffHand | Feet | Legs | Chest | Head | Body | Saddle.
#[export] Instance EquipmentSlot_eq_dec : EqDecision EquipmentSlot.
Proof. solve_decision. Defined.

Inductive ComponentData :=
| IntData (value : Z)
| EquippableData (slot : EquipmentSlot) (rest : Z)
| OtherData (value : Z).
#[export] Instance ComponentData_eq_dec : EqDecision ComponentData.
Proof. solve_decision. Defined.

Notation DataComponentMap := (gmap Identifier ComponentData).

Inductive ComponentPatchEntry := Set_ (data : ComponentData) | Removed.
Definition is_set (e : ComponentPatchEntry) : bool := match e with Set_ _ => true | Removed => false end.
#[export] Instance ComponentPatchEntry_eq_dec : EqDecision ComponentPatchEntry.
Proof. solve_decision. Defined.

Notation DataComponentPatch := (gmap Identifier ComponentPatchEntry).

Definition get_entry (p : DataComponentPatch) (key : Identifier) : option ComponentPatchEntry := p !! key.
Definition is_removed (p : DataComponentPatch) (key : Identifier) : bool :=
  match p !! key with Some Removed => true | _ => false end.
Definition set_component_data (p : DataComponentPatch) (key : Identifier) (data : ComponentData) : DataComponentPatch :=
  <[key := Set_ data]> p.
Definition patch_remove (p : DataComponentPatch) (key : Identifier) : DataComponentPatch := <[key := Removed]> p.
Definition patch_clear (p : DataComponentPatch) (key : Identifier) : DataComponentPatch := delete key p.
Definition apply (p added : DataComponentPatch) : DataComponentPatch := added ∪ p.

(** The predicate of [retain]. *)
Definition entry_needed (prototype : DataComponentMap) (key : Identifier) (entry : ComponentPatchEntry) : bool :=
  match entry with
  | Set_ value => negb (bool_decide (prototype !! key = Some value))
  | Removed => bool_decide (is_Some (prototype !! key))
  end.
Definition sanitize_against (p : DataComponentPatch) (prototype : DataComponentMap) : DataComponentPatch :=
  filter (fun e => entry_needed prototype e.1 e.2 = true) p.

(** ** Stacks *)

(** The generated item registry. *)
Class Items := prototype_of : Identifier -> DataComponentMap.

Definition AIR : Identifier := vanilla_static "air".
Definition MAX_STACK_SIZE : Identifier := vanilla_static "max_stack_size".
Definition MAX_DAMAGE : Identifier := vanilla_static "max_damage".
Definition DAMAGE : Identifier := vanilla_static "damage".
Definition UNBREAKABLE : Identifier := vanilla_static "unbreakable".
Definition EQUIPPABLE : Identifier := vanilla_static "equippable".

Record ItemStack := mk_stack {
  item_field : Identifier;
  count_field : Z;
  patch_field : DataComponentPatch
}.
#[export] Instance ItemStack_eq_dec : EqDecision ItemStack.
Proof. solve_decision. Defined.

(** [i32::clamp] *)
Definition i32_clamp {E} (value lo hi : Z) : outcome E Z :=
  if hi <? lo then Panic else Ok (Z.max lo (Z.min value hi)).

(** What an item is, apart from its number. *)
Notation ItemKind := (Identifier * DataComponentMap)%type.

Section Stacks.
Context {items : Items}.

Definition empty_stack : ItemStack := mk_stack AIR 0 ∅.
Definition with_count (item : Identifier) (count : Z) : ItemStack := mk_stack item count ∅.
Definition stack_new (item : Identifier) : ItemStack := with_count item 1.
Definition prototype (self : ItemStack) : DataComponentMap := prototype_of (item_field self).
Definition with_count_and_patch (item : Identifier) (count : Z) (patch : DataComponentPatch) : ItemStack :=
  mk_stack item count (sanitize_against patch (prototype_of item)).

Definition is_empty (self : ItemStack) : bool := bool_decide (item_field self = AIR) || (count_field self <=? 0).
Definition item (self : ItemStack) : Identifier := if is_empty self then AIR else item_field self.
Definition count (self : ItemStack) : Z := if is_empty self then 0 else count_field self.
Definition components_patch (self : ItemStack) : DataComponentPatch := if is_empty self then ∅ else patch_field self.

Definition set_count (self : ItemStack) (count : Z) : ItemStack := mk_stack (item_field self) count (patch_field self).
Definition grow (self : ItemStack) (amount : Z) : ItemStack := set_count self (i32 (count_field self + amount)).
Definition shrink (self : ItemStack) (amount : Z) : ItemStack := set_count self (i32 (count_field self - amount)).

(** The stack split off, and what is left. *)
Definition split (self : ItemStack) (amount : Z) : ItemStack * ItemStack :=
  let take := Z.min amount (count_field self) in
  (mk_stack (item_field self) take (patch_field self), shrink self take).

Definition copy_with_count (self : ItemStack) (count : Z) : ItemStack :=
  if is_empty self then empty_stack else mk_stack (item_field self) count (patch_field self).
Definition consume (self : ItemStack) (amount : Z) (has_infinite_materials : bool) : ItemStack :=
  if negb has_infinite_materials then shrink self amount else self.
Definition consume_and_return (self : ItemStack) (amount : Z) (has_infinite_materials : bool) : ItemStack * ItemStack :=
  (copy_with_count self amount, consume self amount has_infinite_materials).

Definition get_effective_value_raw (self : ItemStack) (key : Identifier) : option ComponentData :=
  if is_empty self then None
  else match patch_field self !! key with
       | Some (Set_ data) => Some data
       | Some Removed => None
       | None => prototype self !! key
       end.
Definition has (self : ItemStack) (key : Identifier) : bool :=
  if is_empty self then false
  else match patch_field self !! key with
       | Some (Set_ _) => true
       | Some Removed => false
       | None => bool_decide (is_Some (prototype self !! key))
       end.
(** [get] at a component of integers. *)
Definition get_int (self : ItemStack) (key : Identifier) : option Z :=
  match get_effective_value_raw self key with Some (IntData z) => Some z | _ => None end.

Definition set (self : ItemStack) (key : Identifier) (value : ComponentData) : ItemStack :=
  mk_stack (item_field self) (count_field self)
    (if bool_decide (prototype self !! key = Some value) then patch_clear (patch_field self) key
     else set_component_data (patch_field self) key value).
Definition remove (self : ItemStack) (key : Identifier) : ItemStack :=
  mk_stack (item_field self) (count_field self)
    (if bool_decide (is_Some (prototype self !! key)) then patch_remove (patch_field self) key
     else patch_clear (patch_field self) key).
Definition clear (self : ItemStack) (key : Identifier) : ItemStack :=
  mk_stack (item_field self) (count_field self) (patch_clear (patch_field self) key).

Definition max_stack_size (self : ItemStack) : Z := default 1 (get_int self MAX_STACK_SIZE).
Definition get_max_damage (self : ItemStack) : Z := default 0 (get_int self MAX_DAMAGE).
Definition get_damage_value {E} (self : ItemStack) : outcome E Z :=
  i32_clamp (default 0 (get_int self DAMAGE)) 0 (get_max_damage self).
Definition set_damage_value {E} (self : ItemStack) (value : Z) : outcome E ItemStack :=
  let? clamped := i32_clamp value 0 (get_max_damage self) in Ok (set self DAMAGE (IntData clamped)).
Definition is_damageable_item (self : ItemStack) : bool :=
  has self MAX_DAMAGE && negb (has self UNBREAKABLE) && has self DAMAGE.
Definition is_damaged {E} (self : ItemStack) : outcome E bool :=
  if is_damageable_item self then let? d := get_damage_value self in Ok (0 <? d) else Ok false.
Definition is_stackable {E} (self : ItemStack) : outcome E bool :=
  if 1 <? max_stack_size self then
    if negb (is_damageable_item self) then Ok true
    else let? damaged := is_damaged self in Ok (negb damaged)
  else Ok false.
Definition is_broken {E} (self : ItemStack) : outcome E bool :=
  if is_damageable_item self then let? d := get_damage_value self in Ok (get_max_damage self <=? d) else Ok false.

Definition get_equippable_slot (self : ItemStack) : option EquipmentSlot :=
  match get_effective_value_raw self EQUIPPABLE with Some (EquippableData slot _) => Some slot | _ => None end.
Definition is_equippable_in_slot (self : ItemStack) (slot : EquipmentSlot) : bool :=
  bool_decide (get_equippable_slot self = Some slot).

(** The keys [components_equal] collects from one side. *)
Definition own_keys (self : ItemStack) : gset Identifier :=
  filter (fun key => is_removed (patch_field self) key = false) (dom (prototype self)) ∪
  dom (filter (fun e => is_set e.2 = true) (patch_field self)).
Definition same_value (a b : ItemStack) (key : Identifier) : bool :=
  match get_effective_value_raw a key, get_effective_value_raw b key with
  | Some x, Some y => bool_decide (x = y)
  | None, None => true
  | _, _ => false
  end.
Definition components_equal (self other : ItemStack) : bool :=
  forallb (same_value self other) (elements (own_keys self ∪ own_keys other)).

Definition is_same_item (a b : ItemStack) : bool := bool_decide (item a = item b).
Definition is_same_item_same_components (a b : ItemStack) : bool :=
  if negb (is_same_item a b) then false
  else if is_empty a && is_empty b then true
  else components_equal a b.
Definition matches (a b : ItemStack) : bool := (count a =? count b) && is_same_item_same_components a b.
Definition is_of (self : ItemStack) (i : Identifier) : bool := bool_decide (item self = i).

(** ** Facts *)

(** The components a stack has. *)
Definition effective (self : ItemStack) : DataComponentMap :=
  merge (fun entry value => match entry with Some (Set_ data) => Some data | Some Removed => None | None => value end)
    (patch_field self) (prototype self).

Lemma lookup_effective self key :
  effective self !! key =
  match patch_field self !! key with Some (Set_ data) => Some data | Some Removed => None | None => prototype self !! key end.
Proof.
  unfold effective. rewrite lookup_merge. unfold diag_None.
  by destruct (patch_field self !! key) as [[]|], (prototype self !! key).
Qed.

Lemma raw_effective self key : is_empty self = false -> get_effective_value_raw self key = effective self !! key.
Proof. intros H. unfold get_effective_value_raw. by rewrite H, lookup_effective. Qed.

Lemma own_keys_effective self : own_keys self = dom (effective self).
Proof.
  apply set_eq. intros key. unfold own_keys. rewrite elem_of_union, elem_of_filter, !elem_of_dom, lookup_effective.
  unfold is_Some at 2. setoid_rewrite map_lookup_filter_Some. unfold is_removed, is_set.
  destruct (patch_field self !! key) as [[d|]|] eqn:E; naive_solver.
Qed.

Lemma components_equal_spec a b :
  is_empty a = false -> is_empty b = false -> components_equal a b = true <-> effective a = effective b.
Proof.
  intros Ha Hb. unfold components_equal. rewrite forallb_forall, !own_keys_effective. split.
  - intros H. apply map_eq. intros key.
    destruct (decide (key ∈ dom (effective a) ∪ dom (effective b))) as [Hk|Hk].
    + apply elem_of_elements, list_elem_of_In, H in Hk. revert Hk. unfold same_value.
      rewrite !raw_effective by done.
      destruct (effective a !! key), (effective b !! key); try done. by intros ->%bool_decide_eq_true.
    + apply not_elem_of_union in Hk as [?%not_elem_of_dom ?%not_elem_of_dom]. congruence.
  - intros H key _. unfold same_value. rewrite !raw_effective, H by done.
    destruct (effective b !! key); [by apply bool_decide_eq_true|done].
Qed.

Definition kind_of (self : ItemStack) : ItemKind := (item_field self, effective self).

Lemma empty_item self : is_empty self = true -> item self = AIR.
Proof. unfold item. by intros ->. Qed.
Lemma full_item self : is_empty self = false -> item self = item_field self /\ item_field self <> AIR.
Proof.
  intros H. unfold item. rewrite H. split; [done|]. unfold is_empty in H.
  by apply orb_false_iff in H as [?%bool_decide_eq_false _].
Qed.

Lemma same_kind a b : is_empty a = false -> is_empty b = false ->
  is_same_item_same_components a b = true <-> kind_of a = kind_of b.
Proof.
  intros Ha Hb. unfold is_same_item_same_components, is_same_item.
  rewrite (proj1 (full_item a Ha)), (proj1 (full_item b Hb)), Ha. simpl. unfold kind_of.
  destruct (decide (item_field a = item_field b)) as [E|E].
  - rewrite (bool_decide_eq_true_2 _ E). simpl. rewrite components_equal_spec by done. split; [by intros ->; rewrite E|congruence].
  - rewrite (bool_decide_eq_false_2 _ E). simpl. split; [done|congruence].
Qed.

(** Patches written by the operations below hold no entry the prototype makes
    redundant. *)
Definition canonical (self : ItemStack) : Prop :=
  forall key entry, patch_field self !! key = Some entry -> entry_needed (prototype self) key entry = true.

Lemma canonical_sanitized item count patch : canonical (with_count_and_patch item count patch).
Proof.
  intros key entry. unfold with_count_and_patch, sanitize_against, prototype. simpl.
  by intros [_ H]%map_lookup_filter_Some.
Qed.

Lemma effective_sanitized item count patch :
  effective (with_count_and_patch item count patch) = effective (mk_stack item count patch).
Proof.
  apply map_eq. intros key. rewrite !lookup_effective. unfold with_count_and_patch, sanitize_against, prototype. simpl.
  destruct (filter _ patch !! key) as [e|] eqn:E.
  - apply map_lookup_filter_Some in E as [-> _]. done.
  - apply map_lookup_filter_None in E as [->|E]; [done|]. destruct (patch !! key) as [e|] eqn:Ee; [|done].
    specialize (E e eq_refl). simpl in E. unfold entry_needed in E. destruct e as [d|].
    + apply not_true_iff_false, negb_false_iff, bool_decide_eq_true in E. done.
    + apply not_true_iff_false, bool_decide_eq_false, eq_None_not_Some in E. done.
Qed.

(** A canonical patch is determined by the item and its components. *)
Lemma canonical_unique a b : canonical a -> canonical b -> kind_of a = kind_of b -> patch_field a = patch_field b.
Proof.
  intros Ha Hb [= Hi He]. assert (Hp : prototype a = prototype b) by (unfold prototype; by rewrite Hi).
  apply map_eq. intros key. specialize (Ha key). specialize (Hb key).
  assert (E : effective a !! key = effective b !! key) by (by rewrite He). rewrite !lookup_effective, Hp in E.
  rewrite Hp in Ha. unfold entry_needed in *.
  destruct (patch_field a !! key) as [[d|]|] eqn:Ea, (patch_field b !! key) as [[d'|]|] eqn:Eb; simplify_eq; try done.
  all: try specialize (Ha _ eq_refl); try specialize (Hb _ eq_refl); simpl in *.
  all: repeat match goal with
       | H : negb _ = true |- _ => apply negb_true_iff, bool_decide_eq_false in H
       | H : bool_decide _ = true |- _ => apply bool_decide_eq_true in H; destruct H; simplify_eq
       end; congruence.
Qed.

Lemma effective_set self key value :
  effective (set self key value) = <[key := value]> (effective self).
Proof.
  apply map_eq. intros k. rewrite lookup_effective. unfold set, patch_clear, set_component_data, prototype. simpl.
  destruct (decide (k = key)) as [->|Hk].
  - rewrite lookup_insert_eq. case_bool_decide as E; [by rewrite lookup_delete_eq|by rewrite lookup_insert_eq].
  - rewrite lookup_insert_ne, lookup_effective by done. case_bool_decide; by simplify_map_eq.
Qed.

Lemma effective_remove self key : effective (remove self key) = delete key (effective self).
Proof.
  apply map_eq. intros k. rewrite lookup_effective. unfold remove, patch_clear, patch_remove, prototype. simpl.
  destruct (decide (k = key)) as [->|Hk].
  - rewrite lookup_delete_eq. case_bool_decide as E; [by rewrite lookup_insert_eq|].
    rewrite lookup_delete_eq. by apply eq_None_not_Some.
  - rewrite lookup_delete_ne, lookup_effective by done. case_bool_decide; by simplify_map_eq.
Qed.

Lemma canonical_set self key value : canonical self -> canonical (set self key value).
Proof.
  intros H k e. unfold set, patch_clear, set_component_data, prototype. simpl. case_bool_decide as E; intros Hk.
  - apply lookup_delete_Some in Hk as [_ Hk]. by apply H.
  - apply lookup_insert_Some in Hk as [[-> <-]|[_ Hk]]; [|by apply H].
    simpl. by apply negb_true_iff, bool_decide_eq_false.
Qed.

Lemma canonical_remove self key : canonical self -> canonical (remove self key).
Proof.
  intros H k e. unfold remove, patch_clear, patch_remove, prototype. simpl. case_bool_decide as E; intros Hk.
  - apply lookup_insert_Some in Hk as [[-> <-]|[_ Hk]]; [|by apply H]. simpl. by apply bool_decide_eq_true.
  - apply lookup_delete_Some in Hk as [_ Hk]. by apply H.
Qed.

(** ** Amounts and well-formed stacks *)

Definition kind_int (k : ItemKind) (key : Identifier) : option Z :=
  match k.2 !! key with Some (IntData z) => Some z | _ => None end.
Definition kind_max (k : ItemKind) : Z := default 1 (kind_int k MAX_STACK_SIZE).

(** What the codecs of saved data admit for the two components. *)
Definition kind_ok (k : ItemKind) : Prop := 1 <= kind_max k <= 99 /\ 0 <= default 0 (kind_int k MAX_DAMAGE).

Definition stack_ok (s : ItemStack) : Prop :=
  0 <= count_field s <= 99 /\ (is_empty s = false -> count_field s <= kind_max (kind_of s) /\ kind_ok (kind_of s)).

Definition amount (k : ItemKind) (s : ItemStack) : Z :=
  if decide (is_empty s = false /\ kind_of s = k) then count_field s else 0.

Lemma empty_cases s : is_empty s = false <-> item_field s <> AIR /\ 0 < count_field s.
Proof. unfold is_empty. rewrite orb_false_iff, bool_decide_eq_false. split; intros []; split; lia || done. Qed.

Lemma kind_set_count s n : kind_of (set_count s n) = kind_of s.
Proof. done. Qed.

Lemma get_int_kind s key : is_empty s = false -> get_int s key = kind_int (kind_of s) key.
Proof. intros H. unfold get_int. by rewrite raw_effective. Qed.

Lemma max_stack_kind s : is_empty s = false -> max_stack_size s = kind_max (kind_of s).
Proof. intros H. unfold max_stack_size. by rewrite get_int_kind. Qed.

Lemma is_stackable_total {E} s : stack_ok s -> is_empty s = false -> exists b, is_stackable (E := E) s = Ok b.
Proof.
  intros [_ Hs] H. specialize (Hs H) as [_ [_ Hd]]. unfold is_stackable. case_match; [|by eexists].
  case_match; [by eexists|]. unfold is_damaged. case_match; [|by eexists]. simpl.
  unfold get_damage_value, i32_clamp, get_max_damage. rewrite (get_int_kind s MAX_DAMAGE) by done. zbool. simpl. by eexists.
Qed.

Lemma is_damaged_total {E} s : stack_ok s -> is_empty s = false -> exists b, is_damaged (E := E) s = Ok b.
Proof.
  intros [_ Hs] H. specialize (Hs H) as [_ [_ Hd]]. unfold is_damaged. case_match; [|by eexists]. simpl.
  unfold get_damage_value, i32_clamp, get_max_damage. rewrite (get_int_kind s MAX_DAMAGE) by done. zbool. simpl. by eexists.
Qed.

Lemma amount_empty k s : is_empty s = true -> amount k s = 0.
Proof. intros H. unfold amount. rewrite decide_False; [done|]. intros [? _]. congruence. Qed.

Lemma amount_full k s : is_empty s = false -> amount k s = if decide (kind_of s = k) then count_field s else 0.
Proof. intros H. unfold amount. repeat case_decide; naive_solver. Qed.

Lemma amount_nonneg k s : 0 <= amount k s.
Proof. unfold amount. case_decide as H; [|done]. destruct H as [[_ ?]%empty_cases _]. lia. Qed.

(** The same items in another number. *)
Lemma amount_set_count k s n :
  is_empty s = false -> 0 <= n -> amount k (set_count s n) = if decide (kind_of s = k) then n else 0.
Proof.
  intros [Hi _]%empty_cases Hn. destruct (decide (n = 0)) as [->|].
  - rewrite amount_empty; [by case_decide|]. unfold is_empty. simpl. apply orb_true_r.
  - rewrite amount_full; [done|]. apply empty_cases. simpl. split; [done|lia].
Qed.

Lemma set_count_ok s n :
  stack_ok s -> is_empty s = false -> 0 <= n <= kind_max (kind_of s) -> stack_ok (set_count s n).
Proof.
  intros [Hc Hs] H Hn. destruct (Hs H) as [_ [Hk Hd]]. split; simpl; [lia|]. intros _. split; [exact (proj2 Hn)|done].
Qed.

Lemma empty_ok : stack_ok empty_stack.
Proof. split; [simpl; lia|]. done. Qed.

Lemma shrink_exact s n : stack_ok s -> 0 <= n <= 1000 -> shrink s n = set_count s (count_field s - n).
Proof. intros [Hc _] Hn. unfold shrink, i32. rewrite wraps_id; [done|lia|]. unfold is_s. lia. Qed.

Lemma grow_exact s n : stack_ok s -> -1000 <= n <= 1000 -> grow s n = set_count s (count_field s + n).
Proof. intros [Hc _] Hn. unfold grow, i32. rewrite wraps_id; [done|lia|]. unfold is_s. lia. Qed.

Lemma split_exact s n : stack_ok s -> 0 <= n ->
  split s n = (set_count s (Z.min n (count_field s)), set_count s (count_field s - Z.min n (count_field s))).
Proof. intros Hs Hn. unfold split. rewrite shrink_exact; [done|done|]. destruct Hs. lia. Qed.

End Stacks.

(** Two stacks stack together exactly when both are empty, or both hold
    the same item with the same components in effect, whatever patches say so;
    the operations that write patches keep them canonical and have the effect
    they name, and for canonical patches the test is equality of the patches. *)
Theorem stacks_compare_exact {items : Items} :
  (forall a b, is_same_item_same_components a b = true <->
     is_empty a = true /\ is_empty b = true \/
     is_empty a = false /\ is_empty b = false /\ item_field a = item_field b /\
     forall key, get_effective_value_raw a key = get_effective_value_raw b key) /\
  (forall a b, canonical a -> canonical b -> is_empty a = false -> is_empty b = false ->
     is_same_item_same_components a b = true <-> item_field a = item_field b /\ patch_field a = patch_field b) /\
  (forall item count patch, canonical (with_count_and_patch item count patch)) /\
  (forall s key value, canonical s -> is_empty s = false ->
     (canonical (set s key value) /\
      forall k, get_effective_value_raw (set s key value) k =
        if decide (k = key) then Some value else get_effective_value_raw s k) /\
     (canonical (remove s key) /\
      forall k, get_effective_value_raw (remove s key) k =
        if decide (k = key) then None else get_effective_value_raw s k)).
Proof.
  split_and!.
  - intros a b. destruct (is_empty a) eqn:Ea, (is_empty b) eqn:Eb.
    + unfold is_same_item_same_components, is_same_item. rewrite !empty_item, Ea, Eb by done. simpl. naive_solver.
    + unfold is_same_item_same_components, is_same_item. destruct (full_item b Eb) as [-> ?].
      rewrite (empty_item a), bool_decide_eq_false_2 by done. naive_solver.
    + unfold is_same_item_same_components, is_same_item. destruct (full_item a Ea) as [-> ?].
      rewrite (empty_item b), bool_decide_eq_false_2 by done. naive_solver.
    + rewrite same_kind by done. unfold kind_of. split.
      * intros [= Hi He]. right. split_and!; [done..|]. intros key. by rewrite !raw_effective, He by done.
      * intros [[? _]|(_ & _ & Hi & He)]; [done|]. rewrite Hi. f_equal. apply map_eq. intros key.
        by rewrite <- !raw_effective.
  - intros a b Ca Cb Ea Eb. rewrite same_kind by done. split.
    + intros Hk. split; [by injection Hk|]. by apply canonical_unique.
    + destruct a, b. simpl. by intros [-> ->].
  - apply canonical_sanitized.
  - intros s key value Hc He. split; (split; [by auto using canonical_set, canonical_remove|]); intros k.
    + rewrite !raw_effective, effective_set by done. case_decide as E; [by rewrite E, lookup_insert_eq|].
      by rewrite lookup_insert_ne by congruence.
    + rewrite !raw_effective, effective_remove by done. case_decide as E; [by rewrite E, lookup_delete_eq|].
      by rewrite lookup_delete_ne by congruence.
Qed.

(** The network codec of [max_damage] does not check its range, and
    [get_damage_value] clamps to it: a stack whose [max_damage] is negative
    cannot be tested for stackability. *)
Lemma negative_max_damage_panics {items : Items} {E} :
  is_stackable (E := E)
    (mk_stack (vanilla_static "stone") 1
       {[ MAX_STACK_SIZE := Set_ (IntData 64); MAX_DAMAGE := Set_ (IntData (-1));
          DAMAGE := Set_ (IntData 0); UNBREAKABLE := Removed ]}) = Panic.
Proof. reflexivity. Qed.

#[global] Arguments split : simpl never.
#[global] Arguments grow : simpl never.
#[global] Arguments shrink : simpl never.
#[global] Arguments is_empty : simpl never.
