(* ===== verification/Containers.v ===== *)
(** * Containers

    Models [steel-core/src/inventory/container/mod.rs] and the containers a
    menu shows: those with the trait's default methods ([SimpleContainer],
    [CraftingContainer], the ender chest's), the block storages that cap
    their stacks ([BarrelContainer], [ShulkerBoxContainer]) and
    [PlayerInventory]; and the guard of [inventory/lock.rs] through which
    menus reach them.

    The containers live in a [World] by their identity; a guard is the set of
    the containers it has locked.  Releasing the locks to notify an owner has
    no effect on the items here: another thread's steps are separate steps. *)

From Stdlib Require Import Lia ZArith.
From stdpp Require Import prelude list gmap.
From S2P Require Import Prelude Sums Identifier ItemStack.

Notation ContainerId := Z (only parsing).

Inductive ContainerKind :=
| SimpleContainer
| BarrelContainer
| PlayerInventory (selected : nat).

Record Container := mk_container {
  container_kind : ContainerKind;
  items_of : list ItemStack;
  times_changed : Z
}.

Definition BARREL_SLOTS : nat := 27.
Definition INVENTORY_SIZE : nat := 36.
Definition CONTAINER_SIZE : nat := 43.
Definition SLOT_OFFHAND : nat := 40.

(** A computation that may panic; the only error is a loop out of fuel. *)
Notation total A := (outcome exhausted A).

Section Containers.
Context {items : Items}.

Definition with_items (l : list ItemStack) (self : Container) : Container :=
  mk_container (container_kind self) l (times_changed self).

Definition set_changed (self : Container) : Container :=
  mk_container (container_kind self) (items_of self) (u32 (times_changed self + 1)).

(** [items()[slot]] *)
Definition item_at (self : Container) (slot : nat) : total ItemStack :=
  match items_of self !! slot with Some s => Ok s | None => Panic end.
(** [items_mut()[slot] = stack] *)
Definition put_at (self : Container) (slot : nat) (stack : ItemStack) : total Container :=
  match items_of self !! slot with Some _ => Ok (with_items (<[slot := stack]> (items_of self)) self) | None => Panic end.

Definition get_item (self : Container) (slot : nat) : total ItemStack :=
  match container_kind self with
  | PlayerInventory _ => if (slot <? CONTAINER_SIZE)%nat then item_at self slot else Ok empty_stack
  | _ => item_at self slot
  end.

(** A write through [get_item_mut]. *)
Definition put_item (self : Container) (slot : nat) (stack : ItemStack) : total Container := put_at self slot stack.

Definition get_max_stack_size (self : Container) : Z :=
  match container_kind self with BarrelContainer => 64 | _ => 99 end.
Definition get_max_stack_size_for_item (self : Container) (i : ItemStack) : Z :=
  Z.min (get_max_stack_size self) (max_stack_size i).

(** [slot_to_equipment], then the index [EntityEquipment::set] writes. *)
Definition is_equipment_slot (slot : nat) : bool := (INVENTORY_SIZE <=? slot)%nat && (slot <? CONTAINER_SIZE)%nat.

Definition set_item (self : Container) (slot : nat) (stack : ItemStack) : total Container :=
  match container_kind self with
  | SimpleContainer => put_at self slot stack
  | BarrelContainer =>
      if (slot <? BARREL_SLOTS)%nat then
        let max_stack_size := get_max_stack_size_for_item self stack in
        let stack := if negb (is_empty stack) && (max_stack_size <? count stack) then set_count stack max_stack_size else stack in
        put_at self slot stack
      else Ok self
  | PlayerInventory selected =>
      if (slot =? selected)%nat then let? self := put_at self slot stack in Ok (set_changed self)
      else if is_equipment_slot slot then let? self := put_at self slot stack in Ok (set_changed self)
      else
        let? self := if (slot <? INVENTORY_SIZE)%nat then put_at self slot stack else Ok self in
        Ok (set_changed self)
  end.

Definition remove_item (self : Container) (slot : nat) (count : Z) : total (ItemStack * Container) :=
  let? s := item_at self slot in
  if is_empty s || (count <=? 0) then Ok (empty_stack, self)
  else
    let '(taken, rest) := split s count in
    let? self := put_at self slot rest in Ok (taken, self).

(** ** [PlayerInventory::add] *)

(** Top up one stack of the inventory: the body of the first two loops. *)
Definition top_up (max_size : Z) (st : Container * ItemStack * bool) (slot : nat) : total (Container * ItemStack * bool) :=
  let '(self, stack, changed) := st in
  let? existing := item_at self slot in
  if negb (is_empty existing) && is_same_item_same_components existing stack then
    let space := max_size - count existing in
    if 0 <? space then
      let to_add := Z.min (count stack) space in
      let? self := put_at self slot (grow existing to_add) in
      Ok (self, shrink stack to_add, true)
    else Ok st
  else Ok st.

(** Place into an empty slot: the body of the last loop. *)
Definition place_empty (max_size : Z) (st : Container * ItemStack * bool) (slot : nat) : total (Container * ItemStack * bool) :=
  let '(self, stack, changed) := st in
  let? existing := item_at self slot in
  if is_empty existing then
    let '(placed, rest) := split stack (Z.min (count stack) max_size) in
    let? self := put_at self slot placed in
    Ok (self, rest, true)
  else Ok st.

(** A [for] loop that returns once the stack is empty. *)
Fixpoint until_empty (f : Container * ItemStack * bool -> nat -> total (Container * ItemStack * bool))
    (st : Container * ItemStack * bool) (slots : list nat) : total (Container * ItemStack * bool) :=
  match slots with
  | [] => Ok st
  | slot :: slots => if is_empty st.1.2 then Ok st else let? st := f st slot in until_empty f st slots
  end.

Definition player_add (self : Container) (selected : nat) (stack : ItemStack) : total (bool * ItemStack * Container) :=
  if is_empty stack then Ok (true, stack, self)
  else
    let max_size := get_max_stack_size_for_item self stack in
    let? stackable := is_stackable stack in
    let? st :=
      if stackable then
        let? st := until_empty (top_up max_size) (self, stack, false) [selected; SLOT_OFFHAND] in
        until_empty (top_up max_size) st (filter (fun slot => slot <> selected) (seq 0 INVENTORY_SIZE))
      else Ok (self, stack, false) in
    let? '(self, stack, changed) := until_empty (place_empty max_size) st (seq 0 INVENTORY_SIZE) in
    Ok (is_empty stack, stack, if changed : bool then set_changed self else self).

(** ** Facts *)

Record container_ok (self : Container) : Prop := {
  stacks_ok : forall i s, items_of self !! i = Some s -> stack_ok s;
  shape_ok : match container_kind self with
             | SimpleContainer => True
             | BarrelContainer => length (items_of self) = BARREL_SLOTS
             | PlayerInventory selected => length (items_of self) = CONTAINER_SIZE /\ (selected < 9)%nat
             end
}.

(** How many items of a kind a container holds. *)
Definition held_in (k : ItemKind) (self : Container) : Z := list_sum (amount k) (items_of self).

Lemma put_at_some self slot old stack :
  items_of self !! slot = Some old ->
  put_at self slot stack = Ok (with_items (<[slot := stack]> (items_of self)) self) /\
  (forall k, held_in k (with_items (<[slot := stack]> (items_of self)) self) = held_in k self - amount k old + amount k stack).
Proof.
  intros H. unfold put_at. rewrite H. split; [done|]. intros k. unfold held_in. simpl. by apply list_sum_insert.
Qed.

Lemma with_items_ok self slot stack :
  container_ok self -> stack_ok stack -> container_ok (with_items (<[slot := stack]> (items_of self)) self).
Proof.
  intros [Hs Hk] H. split; simpl.
  - intros i s [[-> [-> _]]|[_ ?]]%list_lookup_insert_Some; [done|by eapply Hs].
  - by rewrite length_insert.
Qed.

Lemma set_changed_ok self : container_ok self -> container_ok (set_changed self).
Proof. by intros [Hs Hk]. Qed.

Lemma count_full s : is_empty s = false -> count s = count_field s.
Proof. intros H. unfold count. by rewrite H. Qed.

(** The loop rule: [P l st] says what holds after the slots [l]. *)
Lemma until_empty_rule (f : Container * ItemStack * bool -> nat -> total (Container * ItemStack * bool))
    (P : list nat -> Container * ItemStack * bool -> Prop) slots l st :
  (forall l st slot, slot ∈ slots -> P l st -> is_empty st.1.2 = false ->
     exists st', f st slot = Ok st' /\ P (l ++ [slot]) st') ->
  P l st ->
  exists st' l', until_empty f st slots = Ok st' /\ P l' st' /\ (is_empty st'.1.2 = false -> l' = l ++ slots).
Proof.
  revert l st. induction slots as [|slot slots IH]; intros l st Hf HP; simpl.
  - exists st, l. by rewrite app_nil_r.
  - destruct (is_empty st.1.2) eqn:E; [exists st, l; split_and!; [done..|congruence]|].
    destruct (Hf l st slot ltac:(left) HP E) as (st1 & -> & HP1). simpl.
    destruct (IH (l ++ [slot]) st1) as (st' & l' & H1 & H2 & H3).
    + intros l2 st2 slot2 Hin. apply Hf. by right.
    + done.
    + exists st', l'. split_and!; [done..|]. intros He. by rewrite (H3 He), <- app_assoc.
Qed.

Section Adding.
Context (c0 : Container) (s0 : ItemStack) (allowed : nat -> Prop).
Context (Hc0 : container_ok c0) (Hs0 : stack_ok s0) (Hne : is_empty s0 = false).
Notation k0 := (kind_of s0).

(** Nothing more of the added kind fits on top of this slot. *)
Definition full_at (c : Container) (i : nat) : Prop :=
  forall x, items_of c !! i = Some x -> is_empty x = false -> kind_of x = k0 -> kind_max k0 <= count_field x.
Definition taken_at (c : Container) (i : nat) : Prop := forall x, items_of c !! i = Some x -> is_empty x = false.

Record adding (c : Container) (s : ItemStack) : Prop := {
  adding_ok : container_ok c;
  adding_kind : container_kind c = container_kind c0;
  adding_length : length (items_of c) = length (items_of c0);
  adding_stack : exists n, s = set_count s0 n /\ 0 <= n <= count_field s0;
  adding_sum k : held_in k c + amount k s = held_in k c0 + amount k s0;
  adding_frame i : ~ allowed i -> items_of c !! i = items_of c0 !! i
}.

Lemma adding_start : adding c0 s0.
Proof.
  split; try done. exists (count_field s0). destruct Hs0. split; [by destruct s0|lia].
Qed.

Lemma stack_left n : 0 <= n <= count_field s0 ->
  stack_ok (set_count s0 n) /\ (is_empty (set_count s0 n) = false <-> 0 < n) /\
  (forall k, amount k (set_count s0 n) = if decide (k0 = k) then n else 0) /\ n <= kind_max k0 <= 99.
Proof.
  intros Hn. destruct Hs0 as [Hc Hs]. destruct (Hs Hne) as [Hm [Hk Hd]]. split_and!; try lia.
  - apply set_count_ok; [done..|lia].
  - rewrite empty_cases. simpl. apply empty_cases in Hne as [? _]. naive_solver.
  - intros k. apply amount_set_count; [done|lia].
Qed.

(** Moving [m] items onto the slot [i]. *)
Lemma adding_move c n i old new m :
  allowed i -> adding c (set_count s0 n) -> items_of c !! i = Some old ->
  0 <= m <= n -> n <= count_field s0 -> stack_ok new ->
  (forall k, amount k new = amount k old + if decide (k0 = k) then m else 0) ->
  put_at c i new = Ok (with_items (<[i := new]> (items_of c)) c) /\
  adding (with_items (<[i := new]> (items_of c)) c) (set_count s0 (n - m)).
Proof.
  intros Hi Ha Hold Hm Hn Hnew Hamt. destruct (put_at_some c i old new Hold) as [Hp Hsum].
  split; [done|]. destruct Ha as [A1 A2 A3 A4 A5 A6]. split; simpl.
  - by apply with_items_ok.
  - done.
  - by rewrite length_insert.
  - exists (n - m). split; [done|lia].
  - intros k. rewrite Hsum, Hamt. specialize (A5 k).
    destruct (stack_left n ltac:(lia)) as (_ & _ & E & _). destruct (stack_left (n - m) ltac:(lia)) as (_ & _ & E' & _).
    rewrite E in A5. rewrite E'. case_decide; lia.
  - intros j Hj. rewrite list_lookup_insert_ne; [by apply A6|]. by intros ->.
Qed.
End Adding.

End Containers.

Section Steps.
Context {items : Items} (c0 : Container) (s0 : ItemStack) (allowed : nat -> Prop).
Context (Hc0 : container_ok c0) (Hs0 : stack_ok s0) (Hne : is_empty s0 = false).
Notation k0 := (kind_of s0).
Notation adding := (adding c0 s0 allowed).

Lemma top_up_step c n ch i :
  allowed i -> (i < length (items_of c0))%nat -> adding c (set_count s0 n) -> 0 < n <= count_field s0 ->
  exists c' n' ch', top_up (kind_max k0) (c, set_count s0 n, ch) i = Ok (c', set_count s0 n', ch') /\
    adding c' (set_count s0 n') /\ 0 <= n' <= n /\ (0 < n' -> full_at s0 c' i) /\
    (forall j, full_at s0 c j -> full_at s0 c' j) /\ (forall j, taken_at c j -> taken_at c' j).
Proof.
  intros Hi Hlt Ha Hn. destruct (lookup_lt_is_Some_2 (items_of c) i) as [old Hold].
  { by rewrite (adding_length _ _ _ _ _ Ha). }
  assert (Hok : stack_ok old) by (eapply stacks_ok; [apply (adding_ok _ _ _ _ _ Ha)|done]).
  destruct (stack_left s0 Hs0 Hne n ltac:(lia)) as (Hsn & Hen & Han & Hmax).
  assert (Hnn : is_empty (set_count s0 n) = false) by (apply Hen; lia).
  assert (Hstay : full_at s0 c i -> exists c' n' ch', Ok (c, set_count s0 n, ch) = Ok (E := exhausted) (c', set_count s0 n', ch') /\
    adding c' (set_count s0 n') /\ 0 <= n' <= n /\ (0 < n' -> full_at s0 c' i) /\
    (forall j, full_at s0 c j -> full_at s0 c' j) /\ (forall j, taken_at c j -> taken_at c' j)).
  { intros Hf. exists c, n, ch. split_and!; (done || lia || auto). }
  unfold top_up, item_at. rewrite Hold. simpl. destruct (is_empty old) eqn:Ee; simpl.
  { apply Hstay. intros x Hx. congruence. }
  destruct (is_same_item_same_components old (set_count s0 n)) eqn:Es.
  2:{ apply Hstay. intros x Hx He Hk. assert (x = old) as -> by congruence. apply not_true_iff_false in Es. contradict Es. exact (proj2 (same_kind _ _ He Hnn) Hk). }
  apply same_kind in Es; [|done..]. rewrite kind_set_count in Es. rewrite !count_full by done.
  destruct (Z.ltb_spec 0 (kind_max k0 - count_field old)) as [Hsp|Hsp].
  2:{ apply Hstay. intros x Hx He Hk. assert (x = old) as -> by congruence. lia. }
  set (m := Z.min n (kind_max k0 - count_field old)).
  assert (Hm : Z.min (count_field (set_count s0 n)) (kind_max k0 - count_field old) = m) by done. rewrite Hm.
  destruct Hok as [Hoc Hom]. assert (Hok : stack_ok old) by done.
  rewrite (grow_exact old m), (shrink_exact _ m) by (done || lia).
  apply empty_cases in Ee as Eo.
  destruct (adding_move c0 s0 allowed Hs0 Hne c n i old (set_count old (count_field old + m)) m) as [-> Hadd];
    try done; try lia.
  { apply set_count_ok; [done..|]. rewrite Es. lia. }
  { intros k. rewrite amount_set_count, amount_full, Es by (done || lia). case_decide; lia. }
  simpl. eexists _, (n - m), true. split; [done|]. split; [exact Hadd|]. split_and!; try lia.
  - intros Hpos x. simpl. rewrite list_lookup_insert_eq by by eapply lookup_lt_Some. intros [= <-] _ _. simpl. lia.
  - intros j Hj x. simpl. intros [[<- [<- _]]|[_ Hx]]%list_lookup_insert_Some; [|by apply Hj].
    intros _ _. simpl. specialize (Hj old Hold Ee Es). lia.
  - intros j Hj x. simpl. intros [[<- [<- _]]|[_ Hx]]%list_lookup_insert_Some; [|by apply Hj].
    apply empty_cases. simpl. split; [tauto|lia].
Qed.

Lemma place_step c n ch i :
  allowed i -> (i < length (items_of c0))%nat -> adding c (set_count s0 n) -> 0 < n <= count_field s0 ->
  exists c' n' ch', place_empty (kind_max k0) (c, set_count s0 n, ch) i = Ok (c', set_count s0 n', ch') /\
    adding c' (set_count s0 n') /\ 0 <= n' <= n /\ taken_at c' i /\
    (0 < n' -> forall j, full_at s0 c j -> full_at s0 c' j) /\ (forall j, taken_at c j -> taken_at c' j).
Proof.
  intros Hi Hlt Ha Hn. destruct (lookup_lt_is_Some_2 (items_of c) i) as [old Hold].
  { by rewrite (adding_length _ _ _ _ _ Ha). }
  assert (Hok : stack_ok old) by (eapply stacks_ok; [apply (adding_ok _ _ _ _ _ Ha)|done]).
  destruct (stack_left s0 Hs0 Hne n ltac:(lia)) as (Hsn & Hen & Han & Hmax).
  assert (Hnn : is_empty (set_count s0 n) = false) by (apply Hen; lia).
  unfold place_empty, item_at. rewrite Hold. cbn [obind]. destruct (is_empty old) eqn:Ee.
  2:{ exists c, n, ch. split_and!; try done; try lia. intros x Hx. congruence. }
  rewrite count_full, split_exact by (done || simpl; lia). cbn [count_field set_count].
  rewrite (Z.min_l n (kind_max k0)), Z.min_id by lia. change (set_count (set_count s0 n) ?m) with (set_count s0 m).
  destruct (adding_move c0 s0 allowed Hs0 Hne c n i old (set_count s0 n) n) as [-> Hadd]; try done; try lia.
  { intros k. rewrite Han, amount_empty by done. lia. }
  simpl. eexists _, (n - n), true. split; [done|]. split; [exact Hadd|]. split_and!; try lia.
  - intros x. simpl. rewrite list_lookup_insert_eq by by eapply lookup_lt_Some. by intros [= <-].
  - intros j Hj x. simpl. intros [[<- [<- _]]|[_ Hx]]%list_lookup_insert_Some; [done|by apply Hj].
Qed.
End Steps.

(** ** What the player's inventory takes *)

Definition main_or_offhand (i : nat) : Prop := (i < INVENTORY_SIZE)%nat \/ i = SLOT_OFFHAND.

Section PlayerAdd.
Context {items : Items} (c : Container) (s : ItemStack) (selected : nat).
Context (Hc : container_ok c) (Hkind : container_kind c = PlayerInventory selected) (Hs : stack_ok s).
Context (He : is_empty s = false).
Notation top := (top_up (kind_max (kind_of s))).
Notation main_slots := (seq 0 INVENTORY_SIZE).

(** What holds in a loop whose steps establish [Q] at their slot. *)
Definition add_state (Q : Container -> nat -> Prop) (l : list nat) (st : Container * ItemStack * bool) : Prop :=
  exists n, st.1.2 = set_count s n /\ 0 <= n <= count_field s /\
    adding c s main_or_offhand st.1.1 (set_count s n) /\ (0 < n -> Forall (Q st.1.1) l).

Lemma player_shape : length (items_of c) = CONTAINER_SIZE /\ (selected < 9)%nat.
Proof. pose proof (shape_ok c Hc) as H. by rewrite Hkind in H. Qed.

Lemma slot_exists i : main_or_offhand i -> (i < length (items_of c))%nat.
Proof.
  rewrite (proj1 player_shape). unfold CONTAINER_SIZE.
  intros [?| ->]; unfold INVENTORY_SIZE, SLOT_OFFHAND in *; lia.
Qed.

Lemma add_state_start Q : add_state Q [] (c, s, false).
Proof.
  pose proof (adding_start c s main_or_offhand Hc Hs) as H. exists (count_field s). cbn [fst snd].
  replace (set_count s (count_field s)) with s by by destruct s. destruct Hs. split_and!; [done|lia|lia|exact (H He)|by intros; constructor].
Qed.

Lemma left_pos n : 0 <= n <= count_field s -> is_empty (set_count s n) = false <-> 0 < n.
Proof. intros Hn. by apply (stack_left s Hs He n Hn). Qed.

Lemma top_loop l st slots :
  (forall i, i ∈ slots -> main_or_offhand i) -> add_state (full_at s) l st ->
  exists st' l', until_empty top st slots = Ok st' /\ add_state (full_at s) l' st' /\
    (is_empty st'.1.2 = false -> l' = l ++ slots).
Proof.
  intros Hin HP. apply until_empty_rule; [|done].
  intros l1 [[c1 s1] ch] i Hi (n & Hn & Hr & Ha & Hf) Hne. cbn [fst snd] in *. subst s1. apply left_pos in Hne; [|done].
  destruct (top_up_step c s main_or_offhand Hs He c1 n ch i) as (c' & n' & ch' & -> & Ha' & Hn' & Hfi & Hmono & _);
    [by apply Hin|by apply slot_exists, Hin|done|lia|].
  eexists. split; [done|]. exists n'. split_and!; [done|lia|lia|done|]. intros Hpos. cbn [fst].
  apply Forall_app. split; [|by constructor; [apply Hfi|constructor]].
  eapply Forall_impl; [apply Hf; lia|]. intros j. apply Hmono.
Qed.

(** The two topping loops, when the stack is stackable. *)
Lemma topping (b : bool) :
  exists st l,
    (if b then
       let? st := until_empty top (c, s, false) [selected; SLOT_OFFHAND] in
       until_empty top st (filter (fun slot => slot <> selected) main_slots)
     else Ok (c, s, false)) = Ok st /\ add_state (full_at s) l st /\
    (is_empty st.1.2 = false -> b = true -> forall i, (i < INVENTORY_SIZE)%nat -> i ∈ l).
Proof.
  destruct b; [|exists (c, s, false), []; split_and!; [done|apply add_state_start|done]].
  destruct (top_loop [] (c, s, false) [selected; SLOT_OFFHAND]) as (st1 & l1 & -> & HP1 & Hl1); [|apply add_state_start|].
  { intros i [->|[->|[]%not_elem_of_nil]%elem_of_cons]%elem_of_cons; [left|by right].
    pose proof (proj2 player_shape). unfold INVENTORY_SIZE. lia. }
  cbn [obind]. destruct (top_loop l1 st1 (filter (fun slot => slot <> selected) main_slots)) as (st2 & l2 & H2 & HP2 & Hl2).
  { intros i [_ [_ ?]%elem_of_seq]%list_elem_of_filter. by left. }
  { done. }
  exists st2, l2. split_and!; [done..|]. intros Hne _ i Hi. rewrite (Hl2 Hne). apply elem_of_app.
  destruct (decide (i = selected)) as [->|Hd].
  - left. destruct (is_empty st1.1.2) eqn:E1; [|rewrite (Hl1 eq_refl); left].
    exfalso. destruct (filter _ _) in H2; cbn [until_empty] in H2; rewrite ?E1 in H2; congruence.
  - right. apply list_elem_of_filter. split; [done|]. apply elem_of_seq. lia.
Qed.

(** The placing loop keeps the full slots full while items are left. *)
Lemma placing l1 st1 :
  add_state (full_at s) l1 st1 ->
  exists st l, until_empty (place_empty (kind_max (kind_of s))) st1 main_slots = Ok st /\ add_state taken_at l st /\
    (is_empty st.1.2 = false -> l = main_slots /\ is_empty st1.1.2 = false /\ Forall (full_at s st.1.1) l1).
Proof.
  intros (n1 & Hn1 & Hr1 & Ha1 & Hf1).
  destruct (until_empty_rule (place_empty (kind_max (kind_of s)))
    (fun l st => add_state taken_at l st /\
       (is_empty st.1.2 = false -> is_empty st1.1.2 = false /\ Forall (full_at s st.1.1) l1)) main_slots [] st1)
    as (st & l & H1 & [H2 H3] & Hl).
  - intros l [[c3 s3] ch3] i [_ Hi]%elem_of_seq [(n & Hn & Hr & Ha & Ht) Hf] Hne. cbn [fst snd] in *. subst s3.
    destruct (Hf Hne) as [Hne1 Hall]. apply left_pos in Hne; [|done].
    destruct (place_step c s main_or_offhand Hs He c3 n ch3 i) as (c' & n' & ch' & -> & Ha' & Hn' & Hti & Hfull & Hmono);
      [by left|by apply slot_exists; left|done|lia|].
    eexists. split; [done|]. split.
    + exists n'. split_and!; [done|lia|lia|done|]. intros _. cbn [fst]. apply Forall_app.
      split; [|by repeat constructor]. eapply Forall_impl; [apply Ht; lia|]. intros j. apply Hmono.
    + intros Hne'. cbn [fst snd] in *. split; [done|]. apply left_pos in Hne'; [|lia].
      eapply Forall_impl; [exact Hall|]. intros j. by apply Hfull.
  - split; [exists n1; split_and!; [done|lia|lia|done|by intros; apply Forall_nil_2]|]. intros Hne1. split; [done|]. apply Hf1.
    rewrite Hn1 in Hne1. by apply left_pos in Hne1.
  - exists st, l. split_and!; [done..|]. intros Hne. destruct (H3 Hne). by rewrite (Hl Hne).
Qed.
End PlayerAdd.

Section PlayerAddOk.
Context {items : Items}.

Lemma player_add_ok c selected s :
  container_ok c -> container_kind c = PlayerInventory selected -> stack_ok s ->
  exists rest c', player_add c selected s = Ok (is_empty rest, rest, c') /\ stack_ok rest /\
    container_ok c' /\ container_kind c' = container_kind c /\ length (items_of c') = length (items_of c) /\
    (forall k, held_in k c' + amount k rest = held_in k c + amount k s) /\
    (forall i, ~ main_or_offhand i -> items_of c' !! i = items_of c !! i) /\
    (is_empty rest = false -> is_empty s = false /\ kind_of rest = kind_of s /\
       forall i, (i < INVENTORY_SIZE)%nat -> taken_at c' i /\ (is_stackable (E := exhausted) s = Ok true -> full_at s c' i)).
Proof.
  intros Hc Hkind Hs. unfold player_add. destruct (is_empty s) eqn:He.
  { exists s, c. rewrite He. split_and!; (done || congruence). }
  destruct (stack_left s Hs He (count_field s) ltac:(destruct Hs; lia)) as (_ & _ & _ & Hmax).
  assert (get_max_stack_size_for_item c s = kind_max (kind_of s)) as ->.
  { unfold get_max_stack_size_for_item, get_max_stack_size. rewrite Hkind, max_stack_kind by done. lia. }
  destruct (is_stackable_total (E := exhausted) s Hs He) as [b ->]. cbn [obind].
  destruct (topping c s selected Hc Hkind Hs He b) as (st1 & l1 & -> & Hst1 & Hl1). cbn [obind].
  destruct (placing c s selected Hc Hkind Hs He l1 st1 Hst1) as ([[c2 s2] ch2] & l2 & -> & (n2 & Hn2 & Hr2 & Ha2 & Ht2) & Hl2).
  cbn [obind fst snd] in *. subst s2. exists (set_count s n2), (if ch2 then set_changed c2 else c2).
  destruct Ha2 as [B1 B2 B3 B4 B5 B6].
  assert (Hsame : items_of (if ch2 then set_changed c2 else c2) = items_of c2) by by destruct ch2.
  split_and!; try done.
  - by apply (stack_left s Hs He n2).
  - destruct ch2; [by apply set_changed_ok|done].
  - by destruct ch2.
  - by rewrite Hsame.
  - intros k. unfold held_in. rewrite Hsame. apply B5.
  - intros i. rewrite Hsame. apply B6.
  - intros Hne. do 2 (split; [done|]). intros i Hi. destruct (Hl2 Hne) as (-> & Hne1 & Hall).
    apply (left_pos s Hs He n2 Hr2) in Hne. rewrite Forall_forall in Hall. specialize (Ht2 Hne). rewrite Forall_forall in Ht2.
    unfold taken_at, full_at in *. rewrite Hsame. split.
    + apply Ht2, elem_of_seq. lia.
    + intros [= ->]. apply Hall. by apply Hl1.
Qed.
End PlayerAddOk.
