(* ===== verification/Slots.v ===== *)
(** * Slots

    Models [steel-core/src/inventory/slots] and the guard of
    [inventory/lock.rs]: the world's containers, the methods of the [Slot]
    trait with their defaults, and the slots that store items.  A [dyn Slot]
    is the record of its overridable methods; the trait's provided methods
    are functions of it.  [StorageSlot] states what a slot that only stores
    items promises; menus are verified against it.

    The contents of the containers, without the change counters, are the
    [view] of a world; [updated] is the only way storage slots change it. *)

From Stdlib Require Import Lia ZArith String.
From stdpp Require Import prelude list gmap.
From S2P Require Import Prelude Sums Identifier ItemStack Containers.

(** ** The world and its guard *)

(** The containers and the stacks handed to the world as dropped items. *)
Record World := mk_world { containers : gmap ContainerId Container; dropped : list ItemStack }.

Record Player := mk_player {
  player_inventory : ContainerId;
  has_infinite_materials : bool;
  can_drop_items : bool;
  returns_menu_items_to_inventory : bool
}.

(** The containers a guard has locked. *)
Notation Locks := (gset ContainerId).

Section Guard.
Context {items : Items}.

Definition store_container (id : ContainerId) (c : Container) (w : World) : World :=
  mk_world (<[id := c]> (containers w)) (dropped w).

Definition guard_get (L : Locks) (w : World) (id : ContainerId) : option Container :=
  if decide (id ∈ L) then containers w !! id else None.

(** [expect("container not locked")] *)
Definition locked (L : Locks) (w : World) (id : ContainerId) : total Container :=
  match guard_get L w id with Some c => Ok c | None => Panic end.

Definition guard_set_item (L : Locks) (w : World) (id : ContainerId) (slot : nat) (stack : ItemStack) : total World :=
  let? c := locked L w id in let? c := set_item c slot stack in Ok (store_container id c w).
Definition guard_remove_item (L : Locks) (w : World) (id : ContainerId) (slot : nat) (amount : Z) :
    total (ItemStack * World) :=
  let? c := locked L w id in let? '(removed, c) := remove_item c slot amount in Ok (removed, store_container id c w).
Definition guard_set_changed (L : Locks) (w : World) (id : ContainerId) : total World :=
  let? c := locked L w id in Ok (store_container id (set_changed c) w).

(** [Player::drop_item]: the world takes the stack. *)
Definition drop_item (w : World) (i : ItemStack) : World :=
  if is_empty i then w else mk_world (containers w) (dropped w ++ [i]).

Definition selected_slot (c : Container) : nat :=
  match container_kind c with PlayerInventory selected => selected | _ => 0%nat end.

(** [Player::add_item_or_drop_with_guard] *)
Definition add_item_or_drop (L : Locks) (w : World) (p : Player) (i : ItemStack) : total World :=
  if is_empty i then Ok w
  else match guard_get L w (player_inventory p) with
       | Some inv =>
           let? '(added, i, inv) := player_add inv (selected_slot inv) i in
           let w := store_container (player_inventory p) inv w in
           Ok (if negb added || negb (is_empty i) then drop_item w i else w)
       | None => Ok (drop_item w i)
       end.

(** ** The trait *)

Record Slot := mk_slot {
  physical_key : option (ContainerId * nat);
  slot_get : Locks -> World -> total ItemStack;
  slot_put : Locks -> World -> ItemStack -> total World;
  slot_set : Locks -> World -> ItemStack -> total World;
  may_place : ItemStack -> bool;
  may_pickup : Locks -> World -> Player -> total bool;
  allow_modification : Locks -> World -> Player -> total bool;
  max_size : Locks -> World -> total Z;
  max_size_for_item : Locks -> World -> ItemStack -> total Z;
  slot_remove : Locks -> World -> Z -> total (ItemStack * World);
  on_take : Locks -> World -> ItemStack -> Player -> total (option ItemStack * World);
  slot_changed : Locks -> World -> total World;
  is_fake : bool;
  equipment_slot : option EquipmentSlot
}.

(** The provided methods, as functions of the methods they call. *)
Definition default_allow_modification (pickup : Locks -> World -> Player -> total bool)
    (get : Locks -> World -> total ItemStack) (place : ItemStack -> bool) (L : Locks) (w : World) (p : Player) : total bool :=
  let? b := pickup L w p in if b then let? s := get L w in Ok (place s) else Ok false.
Definition default_max_size_for_item (size : Locks -> World -> total Z) (L : Locks) (w : World) (s : ItemStack) : total Z :=
  let? m := size L w in Ok (Z.min m (max_stack_size s)).
Definition default_remove (get : Locks -> World -> total ItemStack) (put : Locks -> World -> ItemStack -> total World)
    (L : Locks) (w : World) (amount : Z) : total (ItemStack * World) :=
  let? s := get L w in
  if is_empty s || (amount <=? 0) then Ok (empty_stack, w)
  else let '(taken, rest) := split s amount in let? w := put L w rest in Ok (taken, w).
Definition default_on_take (changed : Locks -> World -> total World) (L : Locks) (w : World) (_ : ItemStack) (_ : Player) :
    total (option ItemStack * World) :=
  let? w := changed L w in Ok (None, w).

(** [set_by_player] is not overridden. *)
Definition set_by_player (s : Slot) (L : Locks) (w : World) (stack : ItemStack) : total World := slot_set s L w stack.

Definition try_remove (s : Slot) (L : Locks) (w : World) (amount max_amount : Z) (p : Player) :
    total (option ItemStack * World) :=
  let? b := may_pickup s L w p in
  if negb b then Ok (None, w)
  else
    let? i := slot_get s L w in
    let item_count := count i in
    let? m := allow_modification s L w p in
    if negb m && (max_amount <? item_count) then Ok (None, w)
    else
      let take_amount := Z.min amount max_amount in
      let? '(result, w) := slot_remove s L w take_amount in
      if is_empty result then Ok (None, w)
      else
        let? i := slot_get s L w in
        let? w := if is_empty i then set_by_player s L w empty_stack else Ok w in
        Ok (Some result, w).

(** [on_take], and the remainder given to the player. *)
Definition take_callback (s : Slot) (L : Locks) (w : World) (taken : ItemStack) (p : Player) : total World :=
  let? '(remainder, w) := on_take s L w taken p in
  match remainder with Some r => add_item_or_drop L w p r | None => Ok w end.

(** A removal followed by its callback. *)
Definition remove_and_notify (s : Slot) (L : Locks) (w : World) (amount max_amount : Z) (p : Player) :
    total (option ItemStack * World) :=
  let? '(taken, w) := try_remove s L w amount max_amount p in
  match taken with
  | Some taken => let? w := take_callback s L w taken p in Ok (Some taken, w)
  | None => Ok (None, w)
  end.

Definition safe_take (s : Slot) (L : Locks) (w : World) (amount max_amount : Z) (p : Player) : total (ItemStack * World) :=
  let? '(taken, w) := remove_and_notify s L w amount max_amount p in
  Ok (match taken with Some taken => taken | None => empty_stack end, w).

Definition safe_insert (s : Slot) (L : Locks) (w : World) (input : ItemStack) (amount : Z) : total (ItemStack * World) :=
  if is_empty input || negb (may_place s input) then Ok (input, w)
  else
    let? slot_stack := slot_get s L w in
    let? m := max_size_for_item s L w input in
    let transferable := Z.min (Z.min amount (count_field input)) (i32 (m - count_field slot_stack)) in
    if transferable <=? 0 then Ok (input, w)
    else if is_empty slot_stack then
      let '(placed, rest) := split input transferable in
      let? w := set_by_player s L w placed in Ok (rest, w)
    else if is_same_item_same_components slot_stack input then
      let? w := set_by_player s L w (grow slot_stack transferable) in Ok (shrink input transferable, w)
    else Ok (input, w).

(** ** Slots over one position of a container *)

Definition backed_get (id : ContainerId) (index : nat) (L : Locks) (w : World) : total ItemStack :=
  let? c := locked L w id in get_item c index.
Definition backed_put (id : ContainerId) (index : nat) (L : Locks) (w : World) (s : ItemStack) : total World :=
  let? c := locked L w id in let? c := put_item c index s in Ok (store_container id c w).
Definition backed_changed (id : ContainerId) (L : Locks) (w : World) : total World := guard_set_changed L w id.
Definition backed_set (id : ContainerId) (index : nat) (L : Locks) (w : World) (s : ItemStack) : total World :=
  let? w := guard_set_item L w id index s in backed_changed id L w.
Definition backed_max (id : ContainerId) (L : Locks) (w : World) : total Z :=
  let? c := locked L w id in Ok (get_max_stack_size c).

(** [NormalSlot::remove] *)
Definition normal_remove (id : ContainerId) (index : nat) (L : Locks) (w : World) (amount : Z) : total (ItemStack * World) :=
  if amount <=? 0 then Ok (empty_stack, w)
  else let? s := backed_get id index L w in
       if is_empty s then Ok (empty_stack, w) else guard_remove_item L w id index amount.

Definition always_pickup (_ : Locks) (_ : World) (_ : Player) : total bool := Ok true.

Definition NormalSlot (id : ContainerId) (index : nat) : Slot := {|
  physical_key := Some (id, index);
  slot_get := backed_get id index;
  slot_put := backed_put id index;
  slot_set := backed_set id index;
  may_place := fun _ => true;
  may_pickup := always_pickup;
  allow_modification := default_allow_modification always_pickup (backed_get id index) (fun _ => true);
  max_size := backed_max id;
  max_size_for_item := default_max_size_for_item (backed_max id);
  slot_remove := normal_remove id index;
  on_take := default_on_take (backed_changed id);
  slot_changed := backed_changed id;
  is_fake := false;
  equipment_slot := None
|}.

(** The other slots wrap a [NormalSlot] and do not forward [remove]. *)
Definition wrapped (id : ContainerId) (index : nat) (place : ItemStack -> bool) (pickup : Locks -> World -> Player -> total bool)
    (size : Locks -> World -> total Z) (size_for : Locks -> World -> ItemStack -> total Z) (equipment : option EquipmentSlot) : Slot := {|
  physical_key := Some (id, index);
  slot_get := backed_get id index;
  slot_put := backed_put id index;
  slot_set := backed_set id index;
  may_place := place;
  may_pickup := pickup;
  allow_modification := default_allow_modification pickup (backed_get id index) place;
  max_size := size;
  max_size_for_item := size_for;
  slot_remove := default_remove (backed_get id index) (backed_put id index);
  on_take := default_on_take (backed_changed id);
  slot_changed := backed_changed id;
  is_fake := false;
  equipment_slot := equipment
|}.

Record RestrictedRules := mk_rules {
  rule_place : nat -> ItemStack -> bool;
  rule_pickup : option (nat -> ItemStack -> World -> Player -> bool)
}.

Definition RestrictedSlot (id : ContainerId) (index : nat) (rules : RestrictedRules) : Slot :=
  wrapped id index (rule_place rules index)
    (fun L w p => match rule_pickup rules with
                  | None => Ok true
                  | Some it => let? s := backed_get id index L w in Ok (it index s w p)
                  end)
    (backed_max id) (default_max_size_for_item (backed_max id)) None.

(** [prevents_armor_change] stands for the enchantment effect, which comes
    from the generated enchantments. *)
Definition ArmorSlot (prevents_armor_change : ItemStack -> bool) (id : ContainerId) (index : nat) (slot : EquipmentSlot) : Slot :=
  let size := fun (_ : Locks) (_ : World) => Ok 1 in
  wrapped id index (fun stack => is_equippable_in_slot stack slot)
    (fun L w p => let? i := backed_get id index L w in
                  Ok (is_empty i || has_infinite_materials p || negb (prevents_armor_change i)))
    size (default_max_size_for_item size) (Some slot).

(** [is_fuel] stands for the table of fuels. *)
Definition FurnaceFuelSlot (is_fuel : Identifier -> bool) (id : ContainerId) (index : nat) : Slot :=
  let BUCKET := vanilla_static "bucket" in
  wrapped id index (fun stack => is_fuel (item stack) || is_of stack BUCKET) always_pickup (backed_max id)
    (fun L w stack => if is_of stack BUCKET then Ok 1 else default_max_size_for_item (backed_max id) L w stack) None.

Definition EnchantItemSlot (id : ContainerId) (index : nat) : Slot :=
  let size := fun (_ : Locks) (_ : World) => Ok 1 in
  wrapped id index (fun _ => true) always_pickup size (default_max_size_for_item size) None.

Record ResultHandler := mk_handler {
  result_container : ContainerId;
  on_result_taken : Locks -> World -> Player -> total (option ItemStack * World);
  is_result_valid : Locks -> World -> Player -> total bool
}.

Definition ResultSlot (handler : ResultHandler) : Slot :=
  let id := result_container handler in {|
  physical_key := Some (id, 0%nat);
  slot_get := backed_get id 0;
  slot_put := backed_put id 0;
  slot_set := fun L w s => let? c := locked L w id in let? c := set_item c 0 s in Ok (store_container id c w);
  may_place := fun _ => false;
  may_pickup := is_result_valid handler;
  allow_modification := fun _ _ _ => Ok false;
  max_size := backed_max id;
  max_size_for_item := default_max_size_for_item (backed_max id);
  slot_remove := fun L w _ => let? s := backed_get id 0 L w in let? w := backed_put id 0 L w empty_stack in Ok (s, w);
  on_take := fun L w _ p => on_result_taken handler L w p;
  slot_changed := fun L w => let? c := locked L w id in Ok (store_container id (set_changed c) w);
  is_fake := true;
  equipment_slot := None
|}.

End Guard.

(** ** Views *)

Notation Key := (ContainerId * nat)%type.
Notation View := (gmap ContainerId (ContainerKind * list ItemStack)).

Section Views.
Context {items : Items}.

Definition shape (c : Container) : ContainerKind * list ItemStack := (container_kind c, items_of c).
Definition view (w : World) : View := shape <$> containers w.
Definition cell (v : View) (key : Key) : option ItemStack := x ← v !! key.1; x.2 !! key.2.
Definition updated (key : Key) (s : ItemStack) (v : View) : View :=
  alter (fun x => (x.1, <[key.2 := s]> x.2)) key.1 v.

(** The kinds of the containers never change. *)
Definition kinds (w : World) : gmap ContainerId ContainerKind := fst <$> view w.

(** Same contents; the change counters may differ. *)
Definition same_world (w w' : World) : Prop := view w' = view w /\ dropped w' = dropped w.

Record world_ok (w : World) : Prop := {
  world_containers id c : containers w !! id = Some c -> container_ok c;
  world_dropped s : s ∈ dropped w -> stack_ok s
}.

(** All items of a kind, in containers and dropped. *)
Definition view_total (k : ItemKind) (v : View) : Z := map_sum (fun _ x => list_sum (amount k) x.2) v.
Definition world_total (k : ItemKind) (w : World) : Z := view_total k (view w) + list_sum (amount k) (dropped w).

#[export] Instance same_world_equiv : Equivalence same_world.
Proof.
  split; [done|by intros ?? []|]. intros w1 w2 w3 [] []. split; congruence.
Qed.

#[export] Instance world_total_same k : Proper (same_world ==> eq) (world_total k).
Proof. intros w w' [H1 H2]. unfold world_total. by rewrite H1, H2. Qed.

(** Being well-formed only depends on the contents. *)
Lemma container_ok_shape c c' : shape c' = shape c -> container_ok c -> container_ok c'.
Proof. destruct c, c'. intros [= -> ->] [H1 H2]. by split. Qed.

Lemma view_lookup w id x : view w !! id = Some x <-> exists c, containers w !! id = Some c /\ shape c = x.
Proof. unfold view. rewrite lookup_fmap, fmap_Some. naive_solver. Qed.

#[export] Instance world_ok_same : Proper (same_world ==> iff) world_ok.
Proof.
  assert (Himp : forall w w', same_world w w' -> world_ok w -> world_ok w').
  { intros w w' [H1 H2] [A B]. split.
    - intros id c Hc. assert (Hv : view w' !! id = Some (shape c)) by (apply view_lookup; by exists c).
      rewrite H1 in Hv. apply view_lookup in Hv as (c0 & Hc0 & Hs). eapply container_ok_shape; [by symmetry|by eapply A].
    - rewrite H2. apply B. }
  intros w w' Hw. split; [by eauto|]. symmetry in Hw. by eauto.
Qed.

Lemma cell_some v key s : cell v key = Some s <-> exists kd l, v !! key.1 = Some (kd, l) /\ l !! key.2 = Some s.
Proof. unfold cell. rewrite bind_Some. split; [intros ([kd l] & ? & ?); eauto|intros (kd & l & ? & ?); by exists (kd, l)]. Qed.

Lemma cell_updated v key s old : cell v key = Some old -> cell (updated key s v) key = Some s.
Proof.
  intros (kd & l & Hv & Hl)%cell_some. apply cell_some. exists kd, (<[key.2 := s]> l). unfold updated.
  rewrite lookup_alter_eq, Hv. split; [done|]. apply list_lookup_insert_eq. by eapply lookup_lt_Some.
Qed.

Lemma cell_updated_ne v key key' s : key <> key' -> cell (updated key s v) key' = cell v key'.
Proof.
  intros Hne. unfold cell, updated. destruct key as [id i], key' as [id' i']. simpl.
  destruct (decide (id = id')) as [<-|Hid]; [|by rewrite lookup_alter_ne].
  rewrite lookup_alter_eq. destruct (v !! id) as [[kd l]|]; [|done]. simpl. apply list_lookup_insert_ne. congruence.
Qed.

Lemma view_total_updated k v key s old :
  cell v key = Some old -> view_total k (updated key s v) = view_total k v - amount k old + amount k s.
Proof.
  intros (kd & l & Hv & Hl)%cell_some. unfold view_total, updated.
  rewrite <- (insert_id v key.1 (kd, l) Hv) at 1. rewrite alter_insert_eq, map_sum_insert, Hv. simpl. rewrite (list_sum_insert _ _ _ _ _ Hl). lia.
Qed.

Lemma kinds_updated (v : View) key s : fst <$> updated key s v = fst <$> v.
Proof.
  unfold updated. apply map_eq. intros id. rewrite !lookup_fmap.
  destruct (decide (id = key.1)) as [->|]; [|by rewrite lookup_alter_ne].
  rewrite lookup_alter_eq. by destruct (v !! key.1).
Qed.

Lemma view_updated_id v key s : cell v key = Some s -> updated key s v = v.
Proof.
  intros (kd & l & Hv & Hl)%cell_some. unfold updated. apply map_eq. intros id.
  destruct (decide (id = key.1)) as [->|]; [|by rewrite lookup_alter_ne].
  rewrite lookup_alter_eq, Hv. simpl. by rewrite list_insert_id.
Qed.

Lemma updated_twice v key s s' : updated key s' (updated key s v) = updated key s' v.
Proof.
  unfold updated. apply map_eq. intros id.
  destruct (decide (id = key.1)) as [->|]; [|by rewrite !lookup_alter_ne].
  rewrite !lookup_alter_eq. destruct (v !! key.1) as [[kd l]|]; [|done]. simpl. by rewrite list_insert_insert_eq.
Qed.

(** A world after a write of a well-formed stack. *)
Definition wrote (key : Key) (s : ItemStack) (w w' : World) : Prop :=
  view w' = updated key s (view w) /\ dropped w' = dropped w.

Lemma wrote_ok key s w w' : world_ok w -> stack_ok s -> wrote key s w w' -> world_ok w'.
Proof.
  intros [A B] Hs [Hv Hd]. split; [|by rewrite Hd].
  intros id c Hc. assert (Hsh : view w' !! id = Some (shape c)) by (apply view_lookup; by exists c).
  rewrite Hv in Hsh. unfold updated in Hsh. destruct (decide (id = key.1)) as [->|Hne].
  - rewrite lookup_alter_eq in Hsh. apply fmap_Some in Hsh as ([kd l] & Hl & Hc').
    apply view_lookup in Hl as (c0 & Hc0 & [= <- <-]). simpl in Hc'.
    apply (container_ok_shape (with_items (<[key.2 := s]> (items_of c0)) c0) c); [done|]. apply with_items_ok; [by eapply A|done].
  - rewrite lookup_alter_ne in Hsh by done. apply view_lookup in Hsh as (c0 & Hc0 & Hc').
    eapply container_ok_shape; [by symmetry|by eapply A].
Qed.

Lemma wrote_total k key s old w w' :
  cell (view w) key = Some old -> wrote key s w w' -> world_total k w' = world_total k w - amount k old + amount k s.
Proof. intros Hc [Hv Hd]. unfold world_total. rewrite Hv, Hd, (view_total_updated _ _ _ _ _ Hc). lia. Qed.

Lemma cell_ok w key s : world_ok w -> cell (view w) key = Some s -> stack_ok s.
Proof.
  intros [A _] (kd & l & Hv & Hl)%cell_some. apply view_lookup in Hv as (c & Hc & [= <- <-]).
  eapply stacks_ok; [by eapply A|done].
Qed.
End Views.

(** ** The interface of storage slots *)

Section Storage.
Context {items : Items}.

(** A stack may be set into a slot. *)
Definition fits (s : Slot) (L : Locks) (w : World) (st : ItemStack) : Prop :=
  is_empty st = true \/ exists m, max_size_for_item s L w st = Ok m /\ count_field st <= m.

Class StorageSlot (s : Slot) (key : Key) : Prop := {
  storage_key : physical_key s = Some key;
  storage_fake : is_fake s = false;
  storage_get L w old : world_ok w -> key.1 ∈ L -> cell (view w) key = Some old -> slot_get s L w = Ok old;
  storage_put L w old st : world_ok w -> key.1 ∈ L -> cell (view w) key = Some old ->
    exists w', slot_put s L w st = Ok w' /\ wrote key st w w';
  storage_set L w old st : world_ok w -> key.1 ∈ L -> cell (view w) key = Some old -> stack_ok st -> fits s L w st ->
    exists w', slot_set s L w st = Ok w' /\ wrote key st w w';
  storage_max L w old st : world_ok w -> key.1 ∈ L -> cell (view w) key = Some old -> stack_ok st -> is_empty st = false ->
    exists m, max_size_for_item s L w st = Ok m /\ 1 <= m <= kind_max (kind_of st);
  storage_max_stable L L' w w' st : key.1 ∈ L -> key.1 ∈ L' -> kinds w' = kinds w ->
    max_size_for_item s L' w' st = max_size_for_item s L w st;
  storage_max_kind L w a b : is_empty a = false -> is_empty b = false -> kind_of a = kind_of b ->
    max_size_for_item s L w a = max_size_for_item s L w b;
  storage_remove L w old n : world_ok w -> key.1 ∈ L -> cell (view w) key = Some old ->
    if is_empty old || (n <=? 0) then slot_remove s L w n = Ok (empty_stack, w)
    else exists w', slot_remove s L w n = Ok ((split old n).1, w') /\ wrote key (split old n).2 w w';
  storage_changed L w old : world_ok w -> key.1 ∈ L -> cell (view w) key = Some old ->
    exists w', slot_changed s L w = Ok w' /\ same_world w w';
  storage_on_take L w old st p : world_ok w -> key.1 ∈ L -> cell (view w) key = Some old ->
    exists w', on_take s L w st p = Ok (None, w') /\ same_world w w';
  storage_pickup L w old p : world_ok w -> key.1 ∈ L -> cell (view w) key = Some old -> exists b, may_pickup s L w p = Ok b;
  storage_allow L w old p : world_ok w -> key.1 ∈ L -> cell (view w) key = Some old -> exists b, allow_modification s L w p = Ok b
}.

(** ** The slots over a container keep it *)

Section Backed.
Context (id : ContainerId) (i : nat).

Lemma cell_locked L w old :
  world_ok w -> id ∈ L -> cell (view w) (id, i) = Some old ->
  exists c, locked L w id = Ok c /\ containers w !! id = Some c /\ items_of c !! i = Some old /\ container_ok c.
Proof.
  intros Hw HL (kd & l & Hv & Hl)%cell_some. apply view_lookup in Hv as (c & Hc & [= <- <-]). cbn [fst snd] in *.
  exists c. unfold locked, guard_get. rewrite decide_True, Hc by done. split_and!; try done. by eapply world_containers.
Qed.

Lemma wrote_put w c s :
  containers w !! id = Some c -> wrote (id, i) s w (store_container id (with_items (<[i := s]> (items_of c)) c) w).
Proof.
  intros Hc. split; [|done]. unfold view, store_container, updated. simpl.
  rewrite fmap_insert. rewrite <- (insert_id (shape <$> containers w) id (shape c)) at 2 by by rewrite lookup_fmap, Hc.
  by rewrite alter_insert_eq.
Qed.

Lemma same_put w c c' : containers w !! id = Some c -> shape c' = shape c -> same_world w (store_container id c' w).
Proof.
  intros Hc Hs. split; [|done]. unfold view, store_container. simpl. rewrite fmap_insert, Hs.
  apply insert_id. by rewrite lookup_fmap, Hc.
Qed.

Lemma backed_get_ok L w old : world_ok w -> id ∈ L -> cell (view w) (id, i) = Some old -> backed_get id i L w = Ok old.
Proof.
  intros Hw HL Hc. destruct (cell_locked L w old Hw HL Hc) as (c & E & _ & Hi & Hok). unfold backed_get. rewrite E. cbn [obind].
  unfold get_item, item_at. rewrite Hi. destruct (container_kind c) eqn:Ek; [done..|].
  pose proof (shape_ok c Hok) as Hl. rewrite Ek in Hl. destruct Hl as [Hl _].
  apply lookup_lt_Some in Hi. rewrite Hl in Hi. apply Nat.ltb_lt in Hi. by rewrite Hi.
Qed.

Lemma backed_put_ok L w old st :
  world_ok w -> id ∈ L -> cell (view w) (id, i) = Some old -> exists w', backed_put id i L w st = Ok w' /\ wrote (id, i) st w w'.
Proof.
  intros Hw HL Hc. destruct (cell_locked L w old Hw HL Hc) as (c & E & Hcw & Hi & Hok). unfold backed_put. rewrite E. cbn [obind].
  unfold put_item. rewrite (proj1 (put_at_some c i old st Hi)). cbn [obind]. eexists. split; [done|]. by apply wrote_put.
Qed.

Lemma backed_changed_ok L w old :
  world_ok w -> id ∈ L -> cell (view w) (id, i) = Some old -> exists w', backed_changed id L w = Ok w' /\ same_world w w'.
Proof.
  intros Hw HL Hc. destruct (cell_locked L w old Hw HL Hc) as (c & E & Hcw & Hi & Hok).
  unfold backed_changed, guard_set_changed. rewrite E. cbn [obind]. eexists. split; [done|]. by eapply same_put.
Qed.

(** A stack below the container's limit is stored as it is. *)
Lemma set_item_ok c old st :
  container_ok c -> items_of c !! i = Some old ->
  is_empty st = true \/ count_field st <= get_max_stack_size_for_item c st ->
  exists c', set_item c i st = Ok c' /\ shape c' = shape (with_items (<[i := st]> (items_of c)) c).
Proof.
  intros Hok Hi Hfit. destruct (put_at_some c i old st Hi) as [Hp _]. apply lookup_lt_Some in Hi.
  pose proof (shape_ok c Hok) as Hl. unfold set_item. destruct (container_kind c) as [| |sel] eqn:Ek.
  - eexists. split; [exact Hp|done].
  - rewrite Hl in Hi. apply Nat.ltb_lt in Hi. rewrite Hi.
    assert (negb (is_empty st) && (get_max_stack_size_for_item c st <? count st) = false) as ->.
    { destruct Hfit as [->|Hle]; [done|]. destruct (is_empty st) eqn:Ee; [done|]. rewrite count_full by done. simpl. by apply Z.ltb_ge. }
    eexists. split; [exact Hp|done].
  - destruct Hl as [Hl _]. rewrite Hl in Hi. rewrite Hp. cbn [obind]. unfold is_equipment_slot.
    apply Nat.ltb_lt in Hi as Hi'. rewrite Hi', andb_true_r.
    destruct (i =? sel)%nat; [by eexists|]. destruct (Nat.leb_spec INVENTORY_SIZE i); [by eexists|].
    rewrite (proj2 (Nat.ltb_lt _ _)) by done. by eexists.
Qed.

Lemma backed_set_ok L w old st :
  world_ok w -> id ∈ L -> cell (view w) (id, i) = Some old -> stack_ok st ->
  (is_empty st = true \/ exists m, backed_max id L w = Ok m /\ count_field st <= Z.min m (max_stack_size st)) ->
  exists w', backed_set id i L w st = Ok w' /\ wrote (id, i) st w w'.
Proof.
  intros Hw HL Hc Hst Hfit. destruct (cell_locked L w old Hw HL Hc) as (c & E & Hcw & Hi & Hok).
  unfold backed_set, guard_set_item. unfold backed_max in Hfit. rewrite E in *. cbn [obind] in *.
  destruct (set_item_ok c old st Hok Hi) as (c' & Hset & Hsh).
  { destruct Hfit as [?|(m & [= <-] & ?)]; [by left|by right]. }
  rewrite Hset. cbn [obind]. set (w1 := store_container id c' w).
  assert (H1 : wrote (id, i) st w w1).
  { destruct (wrote_put w c st Hcw) as [Hv Hd]. split; [|done]. rewrite <- Hv. unfold w1, view, store_container. simpl.
    by rewrite !fmap_insert, Hsh. }
  destruct (backed_changed_ok L w1 st) as (w' & Hch & Hv' & Hd').
  { by eapply wrote_ok. } { done. } { rewrite (proj1 H1). by eapply cell_updated. }
  exists w'. split; [done|]. split; [by rewrite Hv', (proj1 H1)|by rewrite Hd', (proj2 H1)].
Qed.

Lemma backed_max_ok L w old :
  world_ok w -> id ∈ L -> cell (view w) (id, i) = Some old -> exists m, backed_max id L w = Ok m /\ 1 <= m.
Proof.
  intros Hw HL Hc. destruct (cell_locked L w old Hw HL Hc) as (c & E & _). unfold backed_max. rewrite E. cbn [obind].
  eexists. split; [done|]. unfold get_max_stack_size. by case_match.
Qed.

Lemma default_remove_ok L w old n :
  world_ok w -> id ∈ L -> cell (view w) (id, i) = Some old ->
  if is_empty old || (n <=? 0) then default_remove (backed_get id i) (backed_put id i) L w n = Ok (empty_stack, w)
  else exists w', default_remove (backed_get id i) (backed_put id i) L w n = Ok ((split old n).1, w') /\
       wrote (id, i) (split old n).2 w w'.
Proof.
  intros Hw HL Hc. unfold default_remove. rewrite (backed_get_ok L w old) by done. cbn [obind].
  destruct (is_empty old || (n <=? 0)); [done|]. destruct (split old n) as [a r].
  destruct (backed_put_ok L w old r Hw HL Hc) as (w' & -> & H). by exists w'.
Qed.

Lemma normal_remove_ok L w old n :
  world_ok w -> id ∈ L -> cell (view w) (id, i) = Some old ->
  if is_empty old || (n <=? 0) then normal_remove id i L w n = Ok (empty_stack, w)
  else exists w', normal_remove id i L w n = Ok ((split old n).1, w') /\ wrote (id, i) (split old n).2 w w'.
Proof.
  intros Hw HL Hc. unfold normal_remove. rewrite (backed_get_ok L w old) by done. cbn [obind].
  destruct (n <=? 0) eqn:En; [by rewrite orb_true_r|]. rewrite orb_false_r. destruct (is_empty old) eqn:Ee; [done|].
  destruct (cell_locked L w old Hw HL Hc) as (c & E & Hcw & Hi & Hok). unfold guard_remove_item. rewrite E. cbn [obind].
  unfold remove_item, item_at. rewrite Hi. cbn [obind]. rewrite Ee, En. cbn [orb]. destruct (split old n) as [a r].
  rewrite (proj1 (put_at_some c i old r Hi)). cbn [obind]. eexists. split; [done|]. by apply wrote_put.
Qed.
End Backed.

Lemma stack_max st : stack_ok st -> is_empty st = false -> max_stack_size st = kind_max (kind_of st) /\ 1 <= kind_max (kind_of st) <= 99.
Proof. intros [_ H] He. split; [by apply max_stack_kind|]. by destruct (H He) as [_ [? _]]. Qed.

(** The laws of a wrapped slot, from what its own methods do. *)
Lemma wrapped_storage id i place pickup size size_for equipment :
  (forall L w old st, world_ok w -> id ∈ L -> cell (view w) (id, i) = Some old -> stack_ok st -> is_empty st = false ->
     exists m, size_for L w st = Ok m /\ 1 <= m <= kind_max (kind_of st) /\
       exists m', backed_max id L w = Ok m' /\ m <= m') ->
  (forall L w old p, world_ok w -> id ∈ L -> cell (view w) (id, i) = Some old -> exists b, pickup L w p = Ok b) ->
  (forall L L' w w' st, id ∈ L -> id ∈ L' -> kinds w' = kinds w -> size_for L' w' st = size_for L w st) ->
  (forall L w a b, is_empty a = false -> is_empty b = false -> kind_of a = kind_of b -> size_for L w a = size_for L w b) ->
  StorageSlot (wrapped id i place pickup size size_for equipment) (id, i).
Proof.
  intros Hsize Hpick Hstable Hsame. split; cbn [wrapped physical_key is_fake slot_get slot_put slot_set max_size_for_item slot_remove
    slot_changed on_take may_pickup allow_modification fst snd]; try done.
  - intros L w old. apply backed_get_ok.
  - intros L w old st. apply backed_put_ok.
  - intros L w old st Hw HL Hc Hst Hfit. eapply backed_set_ok; [done..|].
    destruct (is_empty st) eqn:He; [by left|]. destruct Hfit as [?|(m & Hm & Hle)]; [congruence|].
    destruct (Hsize L w old st Hw HL Hc Hst He) as (m1 & Hm1 & Hr & m' & Hm' & Hle').
    cbn [wrapped max_size_for_item] in Hm. rewrite Hm1 in Hm. injection Hm as <-.
    right. exists m'. split; [done|]. rewrite (proj1 (stack_max st Hst He)). lia.
  - intros L w old st Hw HL Hc Hst He. destruct (Hsize L w old st Hw HL Hc Hst He) as (m & ? & ? & _). by exists m.
  - intros L w old n. apply default_remove_ok.
  - intros L w old. apply backed_changed_ok.
  - intros L w old st p Hw HL Hc. unfold default_on_take. destruct (backed_changed_ok id i L w old Hw HL Hc) as (w' & -> & ?).
    by exists w'.
  - intros L w old p Hw HL Hc. unfold default_allow_modification. destruct (Hpick L w old p Hw HL Hc) as [b ->]. cbn [obind].
    destruct b; [|by eexists]. rewrite (backed_get_ok id i L w old) by done. by eexists.
Qed.

(** The default limit is below the container's. *)
Lemma default_size_ok id i L w old st :
  world_ok w -> id ∈ L -> cell (view w) (id, i) = Some old -> stack_ok st -> is_empty st = false ->
  exists m, default_max_size_for_item (backed_max id) L w st = Ok m /\ 1 <= m <= kind_max (kind_of st) /\
    exists m', backed_max id L w = Ok m' /\ m <= m'.
Proof.
  intros Hw HL Hc Hst He. unfold default_max_size_for_item.
  destruct (backed_max_ok id i L w old Hw HL Hc) as (m' & -> & Hm'). cbn [obind].
  destruct (stack_max st Hst He) as [-> ?]. eexists. split; [done|]. split; [lia|]. exists m'. split; [done|lia].
Qed.

(** A limit of one item. *)
Lemma single_size_ok id i L w old st :
  world_ok w -> id ∈ L -> cell (view w) (id, i) = Some old -> stack_ok st -> is_empty st = false ->
  exists m, default_max_size_for_item (fun _ _ => Ok 1) L w st = Ok m /\ 1 <= m <= kind_max (kind_of st) /\
    exists m', backed_max id L w = Ok m' /\ m <= m'.
Proof.
  intros Hw HL Hc Hst He. unfold default_max_size_for_item. cbn [obind].
  destruct (backed_max_ok id i L w old Hw HL Hc) as (m' & -> & Hm').
  destruct (stack_max st Hst He) as [-> ?]. eexists. split; [done|]. split; [lia|]. exists m'. split; [done|lia].
Qed.

Lemma backed_max_stable id L L' w w' :
  id ∈ L -> id ∈ L' -> kinds w' = kinds w -> backed_max id L' w' = backed_max id L w.
Proof.
  intros HL HL' Hk. unfold backed_max, locked, guard_get. rewrite !decide_True by done.
  assert (E : kinds w' !! id = kinds w !! id) by by rewrite Hk. unfold kinds, view in E. rewrite !lookup_fmap in E.
  destruct (containers w' !! id) as [c'|], (containers w !! id) as [c|]; try done. simpl in *. injection E as E.
  unfold get_max_stack_size. by rewrite E.
Qed.

Lemma default_size_stable id L L' w w' st :
  id ∈ L -> id ∈ L' -> kinds w' = kinds w ->
  default_max_size_for_item (backed_max id) L' w' st = default_max_size_for_item (backed_max id) L w st.
Proof. intros HL HL' Hk. unfold default_max_size_for_item. by rewrite (backed_max_stable id L L' w w'). Qed.

Lemma default_size_kind size L w a b :
  is_empty a = false -> is_empty b = false -> kind_of a = kind_of b ->
  default_max_size_for_item size L w a = default_max_size_for_item size L w b.
Proof. intros Ha Hb Hk. unfold default_max_size_for_item. destruct (size L w); [|done..]. simpl. by rewrite !max_stack_kind, Hk. Qed.

#[export] Instance NormalSlot_storage id i : StorageSlot (NormalSlot id i) (id, i).
Proof.
  destruct (wrapped_storage id i (fun _ => true) always_pickup (backed_max id) (default_max_size_for_item (backed_max id)) None)
    as [H1 H2 H3 H4 H5 H6 H7 H8 H9 H10 H11 H12 H13];
    [apply default_size_ok|by eexists|apply default_size_stable|apply default_size_kind|].
  split; try done. intros L w old n. apply normal_remove_ok.
Qed.

#[export] Instance RestrictedSlot_storage id i rules : StorageSlot (RestrictedSlot id i rules) (id, i).
Proof.
  apply wrapped_storage; [apply default_size_ok| |apply default_size_stable|apply default_size_kind]. intros L w old p Hw HL Hc. destruct (rule_pickup rules); [|by eexists].
  rewrite (backed_get_ok id i L w old) by done. by eexists.
Qed.

#[export] Instance ArmorSlot_storage prevents id i slot : StorageSlot (ArmorSlot prevents id i slot) (id, i).
Proof.
  apply wrapped_storage; [apply single_size_ok| |done|apply default_size_kind]. intros L w old p Hw HL Hc.
  rewrite (backed_get_ok id i L w old) by done. by eexists.
Qed.

#[export] Instance FurnaceFuelSlot_storage is_fuel id i : StorageSlot (FurnaceFuelSlot is_fuel id i) (id, i).
Proof.
  apply wrapped_storage; [|by eexists| |].
  2:{ intros L L' w w' st HL HL' Hk. case_match; [done|by apply default_size_stable]. }
  2:{ intros L w a b Ha Hb Hk. unfold is_of. rewrite (proj1 (full_item a Ha)), (proj1 (full_item b Hb)).
      replace (item_field b) with (item_field a) by by injection Hk. case_match; [done|by apply default_size_kind]. }
  intros L w old st Hw HL Hc Hst He. case_match.
  - destruct (backed_max_ok id i L w old Hw HL Hc) as (m' & Hm & ?). destruct (stack_max st Hst He).
    exists 1. split; [done|]. split; [lia|]. by exists m'.
  - by eapply default_size_ok.
Qed.

#[export] Instance EnchantItemSlot_storage id i : StorageSlot (EnchantItemSlot id i) (id, i).
Proof. apply wrapped_storage; [apply single_size_ok|by eexists|done|apply default_size_kind]. Qed.

End Storage.

(** ** The provided methods on a storage slot *)

Section Provided.
Context {items : Items} (s : Slot) (key : Key) {Hs : StorageSlot s key} (L : Locks) (HL : key.1 ∈ L).

Lemma wrote_id w old : cell (view w) key = Some old -> wrote key old w w.
Proof. intros Hc. split; [by rewrite view_updated_id|done]. Qed.

Lemma wrote_same w w1 w2 st : wrote key st w w1 -> same_world w1 w2 -> wrote key st w w2.
Proof. intros [H1 H2] [H3 H4]. split; congruence. Qed.

Lemma wrote_wrote w w1 w2 st st' : wrote key st w w1 -> wrote key st' w1 w2 -> wrote key st' w w2.
Proof. intros [H1 H2] [H3 H4]. split; [|congruence]. by rewrite H3, H1, updated_twice. Qed.

Lemma wrote_cell w w' st old : cell (view w) key = Some old -> wrote key st w w' -> cell (view w') key = Some st.
Proof. intros Hc [-> _]. by eapply cell_updated. Qed.

(** Taking at most [n] items of a slot that held [old]. *)
Record took (old : ItemStack) (n : Z) (w : World) (taken : ItemStack) (w' : World) : Prop := {
  took_full : is_empty old = false;
  took_count : 0 < count_field taken <= n /\ count_field taken <= count_field old;
  took_stack : taken = set_count old (count_field taken);
  took_rest : exists rest, wrote key rest w w' /\ stack_ok rest /\ (forall k, amount k rest = amount k old - amount k taken) /\
    (is_empty rest = true <-> count_field taken = count_field old) /\ (fits s L w old -> fits s L w rest)
}.

Lemma taken_facts old n w taken w' : stack_ok old -> took old n w taken w' ->
  stack_ok taken /\ is_empty taken = false /\ kind_of taken = kind_of old.
Proof.
  intros Ho [He Hc Ht _]. destruct Ho as [Hc' Hk]. destruct (Hk He) as [? _]. rewrite Ht. split_and!.
  - apply set_count_ok; [by split|done|lia].
  - apply empty_cases. apply empty_cases in He as [? _]. simpl. split; [done|lia].
  - done.
Qed.

(** Fewer of what fits still fits. *)
Lemma fits_fewer w old n : stack_ok old -> is_empty old = false -> n <= count_field old ->
  fits s L w old -> fits s L w (set_count old n).
Proof.
  intros Ho He Hn [?|(m & Hm & Hle)]; [congruence|]. destruct (is_empty (set_count old n)) eqn:E; [by left|].
  right. exists m. split; [|cbn [count_field set_count]; lia]. rewrite <- Hm. by apply storage_max_kind.
Qed.

Lemma took_total k old n w taken w' :
  cell (view w) key = Some old -> took old n w taken w' -> world_total k w' + amount k taken = world_total k w.
Proof.
  intros Hc [_ _ _ (rest & Hw & _ & Ha & _)]. rewrite (wrote_total k _ _ _ _ _ Hc Hw), Ha. lia.
Qed.

Lemma try_remove_ok w old amt max p :
  world_ok w -> cell (view w) key = Some old ->
  exists r w', try_remove s L w amt max p = Ok (r, w') /\ world_ok w' /\
    match r with None => w' = w | Some taken => took old (Z.min amt max) w taken w' end.
Proof.
  intros Hw Hc. unfold try_remove. destruct (storage_pickup L w old p Hw HL Hc) as [b ->]. cbn [obind].
  destruct b; cbn [negb]; [|by exists None, w].
  rewrite (storage_get L w old Hw HL Hc). cbn [obind]. destruct (storage_allow L w old p Hw HL Hc) as [b ->]. cbn [obind].
  destruct (negb b && _); [by exists None, w|].
  pose proof (storage_remove L w old (Z.min amt max) Hw HL Hc) as Hrm.
  pose proof (cell_ok w key old Hw Hc) as Hok.
  destruct (is_empty old || (Z.min amt max <=? 0)) eqn:E; [rewrite Hrm; by exists None, w|].
  apply orb_false_iff in E as [Ee En%Z.leb_gt]. destruct Hrm as (w1 & -> & Hw1). cbn [obind].
  rewrite split_exact in Hw1 |- * by (done || lia). cbn [fst snd] in *.
  set (m := Z.min (Z.min amt max) (count_field old)) in *. apply empty_cases in Ee as Ee'.
  assert (Hm : 0 < m <= count_field old) by lia. destruct Hok as [Hcnt Hk]. destruct (Hk Ee) as [Hle _].
  assert (Hr : stack_ok (set_count old (count_field old - m))) by (apply set_count_ok; [by split|done|lia]).
  assert (Hw1ok : world_ok w1) by (by eapply wrote_ok). pose proof (wrote_cell w w1 _ old Hc Hw1) as Hc1.
  assert (is_empty (set_count old m) = false) as -> by (apply empty_cases; simpl; split; [tauto|lia]).
  rewrite (storage_get L w1 _ Hw1ok HL Hc1). cbn [obind].
  assert (Hamt : forall k, amount k (set_count old (count_field old - m)) = amount k old - amount k (set_count old m)).
  { intros k. rewrite !amount_set_count, amount_full by (done || lia). case_decide; lia. }
  assert (Hemp : is_empty (set_count old (count_field old - m)) = true <-> m = count_field old).
  { rewrite <- not_false_iff_true, empty_cases. simpl. split; [|intros <- []; lia].
    intros Hn. destruct (decide (m = count_field old)); [done|]. contradict Hn. split; [tauto|lia]. }
  destruct (is_empty (set_count old (count_field old - m))) eqn:Er.
  - destruct (storage_set L w1 _ empty_stack Hw1ok HL Hc1 empty_ok ltac:(by left)) as (w2 & Hset & Hw2).
    unfold set_by_player. rewrite Hset. cbn [obind]. exists (Some (set_count old m)), w2. split; [done|].
    assert (wrote key empty_stack w w2) by (by eapply wrote_wrote). split; [eapply wrote_ok; [exact Hw|apply empty_ok|done]|].
    split; cbn [count_field set_count]; [done|lia|done|]. exists empty_stack. split; [done|]. split; [apply empty_ok|].
    split_and!; [|tauto|intros _; by left]. intros k. rewrite <- Hamt, !amount_empty by done. done.
  - cbn [obind]. exists (Some (set_count old m)), w1. split; [done|]. split; [done|].
    split; cbn [count_field set_count]; [done|lia|done|]. exists (set_count old (count_field old - m)).
    split_and!; try done; [by rewrite Er|]. intros Hf. apply fits_fewer; (done || lia).
Qed.

Lemma take_callback_ok w old taken p :
  world_ok w -> cell (view w) key = Some old ->
  exists w', take_callback s L w taken p = Ok w' /\ same_world w w'.
Proof.
  intros Hw Hc. unfold take_callback. destruct (storage_on_take L w old taken p Hw HL Hc) as (w' & -> & H). by exists w'.
Qed.

Lemma took_same old n w taken w1 w2 : took old n w taken w1 -> same_world w1 w2 -> took old n w taken w2.
Proof.
  intros [A B C (rest & D1 & D2)] H. split; try done. exists rest. split; [|done]. by eapply wrote_same.
Qed.

Lemma took_cell old n w taken w' : cell (view w) key = Some old -> took old n w taken w' -> exists rest, cell (view w') key = Some rest.
Proof. intros Hc [_ _ _ (rest & Hw & _)]. exists rest. by eapply wrote_cell. Qed.

Lemma remove_and_notify_ok w old amt max p :
  world_ok w -> cell (view w) key = Some old ->
  exists r w', remove_and_notify s L w amt max p = Ok (r, w') /\ world_ok w' /\
    match r with None => w' = w | Some taken => took old (Z.min amt max) w taken w' end.
Proof.
  intros Hw Hc. unfold remove_and_notify. destruct (try_remove_ok w old amt max p Hw Hc) as (r & w1 & -> & Hw1 & Hr). cbn [obind].
  destruct r as [taken|]; [|by exists None, w1].
  destruct (took_cell _ _ _ _ _ Hc Hr) as [rest Hc1].
  destruct (take_callback_ok w1 rest taken p Hw1 Hc1) as (w2 & -> & Hsame). cbn [obind].
  exists (Some taken), w2. split; [done|]. split; [by rewrite <- Hsame|]. by eapply took_same.
Qed.

(** Inserting into a slot that held [old]. *)
Lemma safe_insert_ok w old input amt :
  world_ok w -> cell (view w) key = Some old -> stack_ok input -> fits s L w old ->
  exists rest w' new, safe_insert s L w input amt = Ok (rest, w') /\ world_ok w' /\ stack_ok rest /\ stack_ok new /\
    wrote key new w w' /\ fits s L w new /\ (forall k, amount k new + amount k rest = amount k old + amount k input).
Proof.
  intros Hw Hc Hin Hfit. pose proof (cell_ok w key old Hw Hc) as Hold.
  assert (Hstay : exists rest w' new, Ok (input, w) = Ok (E := exhausted) (rest, w') /\ world_ok w' /\ stack_ok rest /\ stack_ok new /\
    wrote key new w w' /\ fits s L w new /\ (forall k, amount k new + amount k rest = amount k old + amount k input)).
  { exists input, w, old. split_and!; try done. by apply wrote_id. }
  unfold safe_insert. destruct (is_empty input || negb (may_place s input)) eqn:E; [done|]. apply orb_false_iff in E as [Ee _].
  rewrite (storage_get L w old Hw HL Hc). cbn [obind].
  destruct (storage_max L w old input Hw HL Hc Hin Ee) as (m & Hm & Hmr). rewrite Hm. cbn [obind].
  destruct (stack_max input Hin Ee) as [_ Hkm]. pose proof Hold as [Hoc Hok]. pose proof Hin as [Hic Hik]. destruct (Hik Ee) as [Hile _].
  assert (i32 (m - count_field old) = m - count_field old) as -> by (apply wraps_id; [lia|]; unfold is_s; lia).
  set (t := Z.min (Z.min amt (count_field input)) (m - count_field old)). destruct (Z.leb_spec t 0) as [|Ht]; [done|].
  destruct (is_empty old) eqn:Eo.
  - rewrite split_exact by (done || lia). rewrite (Z.min_l t) by lia. unfold set_by_player.
    assert (Hok1 : stack_ok (set_count input t)) by (apply set_count_ok; [done..|lia]).
    assert (Hf1 : fits s L w (set_count input t)).
    { right. exists m. split; [|cbn [count_field set_count]; lia]. rewrite <- Hm. apply storage_max_kind; [|done..].
      apply empty_cases. apply empty_cases in Ee as [? _]. split; [done|]. cbn [count_field set_count]. lia. }
    destruct (storage_set L w old (set_count input t) Hw HL Hc Hok1 Hf1) as (w' & -> & Hw').
    cbn [obind]. exists (set_count input (count_field input - t)), w', (set_count input t). split_and!; try done.
    + by eapply wrote_ok.
    + apply set_count_ok; [done..|lia].
    + intros k. rewrite !amount_set_count, (amount_empty k old), amount_full by (done || lia). case_decide; lia.
  - destruct (is_same_item_same_components old input) eqn:Es; [|done]. apply same_kind in Es; [|done..].
    rewrite grow_exact, shrink_exact by (done || lia). unfold set_by_player.
    assert (Hok1 : stack_ok (set_count old (count_field old + t))) by (apply set_count_ok; [done..|rewrite Es; lia]).
    assert (Hf1 : fits s L w (set_count old (count_field old + t))).
    { right. exists m. split; [|cbn [count_field set_count]; lia]. rewrite <- Hm. apply storage_max_kind; [|done..].
      apply empty_cases. apply empty_cases in Eo as [? _]. split; [done|]. cbn [count_field set_count]. lia. }
    destruct (storage_set L w old (set_count old (count_field old + t)) Hw HL Hc Hok1 Hf1) as (w' & -> & Hw').
    cbn [obind]. exists (set_count input (count_field input - t)), w', (set_count old (count_field old + t)). split_and!; try done.
    + by eapply wrote_ok.
    + apply set_count_ok; [done..|lia].
    + intros k. rewrite !amount_set_count, (amount_full k old), (amount_full k input), Es by (done || lia). case_decide; lia.
Qed.
End Provided.
