(* ===== verification/Click.v ===== *)
(** * Container clicks

    Models [steel-core/src/inventory/click.rs]: the raw fields of a click
    packet, the clicks they decode to, and the amounts a drag places, computed
    in [f32] ([Floats]). *)

From Stdlib Require Import Lia ZArith SpecFloat.
From stdpp Require Import prelude list.
From S2P Require Import Prelude Floats Identifier ItemStack.

(** ** Data *)

Definition SLOT_CLICKED_OUTSIDE : Z := -999.
Definition OFFHAND_INVENTORY_SLOT : nat := 40.

(** [steel_protocol::packets::game::ClickType] *)
Inductive ClickType := TPickup | TQuickMove | TSwap | TClone | TThrow | TQuickCraft | TPickupAll.

Inductive MouseButton := Left | Right.
Inductive FillDirection := Forward | Backward.
Inductive SwapTarget := Hotbar (index : Z) | Offhand.
Inductive DragKind := DragLeft | DragRight | DragClone.
Inductive QuickCraft := Start (kind : DragKind) | AddSlot (slot : nat) | End_.
Inductive ClickOutcome := Consume | Fallthrough.

#[export] Instance MouseButton_eq_dec : EqDecision MouseButton.
Proof. solve_decision. Defined.
#[export] Instance DragKind_eq_dec : EqDecision DragKind.
Proof. solve_decision. Defined.

Inductive Click :=
| Pickup (slot : nat) (button : MouseButton)
| DropCarried (button : MouseButton)
| QuickMove (slot : nat)
| Swap (slot : nat) (with_ : SwapTarget)
| Clone (slot : nat)
| Throw (slot : nat) (whole_stack : bool)
| PickupAll (slot : nat) (direction : FillDirection)
| Craft (action : QuickCraft).

(** [Click::slot] *)
Definition click_slot (c : Click) : option nat :=
  match c with
  | Pickup slot _ | QuickMove slot | Swap slot _ | Clone slot | Throw slot _ | PickupAll slot _ => Some slot
  | DropCarried _ | Craft _ => None
  end.

Definition is_valid_for (c : Click) (slot_count : nat) : bool :=
  match c with
  | Pickup slot _ | QuickMove slot | Clone slot | Throw slot _ | PickupAll slot _ | Craft (AddSlot slot) =>
      (slot <? slot_count)%nat
  | Swap slot with_ =>
      (slot <? slot_count)%nat && match with_ with Hotbar index => index <? 9 | Offhand => true end
  | DropCarried _ | Craft (Start _) | Craft End_ => true
  end.

Definition inventory_slot (t : SwapTarget) : nat :=
  match t with Hotbar index => Z.to_nat index | Offhand => OFFHAND_INVENTORY_SLOT end.

Section Amounts.
Context {items : Items}.

Definition place_count (kind : DragKind) (slot_count : nat) (carried : ItemStack) : Z :=
  match kind with
  | DragLeft => f32_floor_i32 (f32_div (f32_of_int (count_field carried)) (f32_of_int (Z.of_nat slot_count)))
  | DragRight => 1
  | DragClone => max_stack_size carried
  end.

Definition can_item_quick_replace (slot_item carried : ItemStack) (ignore_size : bool) : bool :=
  if is_empty slot_item then true
  else if negb (is_same_item_same_components carried slot_item) then false
  else i32 (count_field slot_item + if ignore_size then 0 else count_field carried) <=? max_stack_size carried.
End Amounts.

(** ** Decoding *)

(** The closures [slot] and [mouse_button]. *)
Definition slot_of (slot_num : Z) (slot_count : nat) : option nat :=
  if (0 <=? slot_num) && (slot_num <? Z.of_nat slot_count) then Some (Z.to_nat slot_num) else None.
Definition mouse_button (button : Z) : option MouseButton :=
  if button =? 0 then Some Left else if button =? 1 then Some Right else None.

Definition parse (slot_num button : Z) (click_type : ClickType) (slot_count : nat) : option Click :=
  if (0 <=? slot_num) && (Z.of_nat slot_count <=? slot_num) then None
  else
    let slot := slot_of slot_num slot_count in
    match click_type with
    | TPickup =>
        button ← mouse_button button;
        if slot_num =? SLOT_CLICKED_OUTSIDE then Some (DropCarried button)
        else slot ← slot; Some (Pickup slot button)
    | TQuickMove => if (button =? 0) || (button =? 1) then slot ← slot; Some (QuickMove slot) else None
    | TSwap =>
        with_ ← (if (0 <=? button) && (button <=? 8) then Some (Hotbar button)
                 else if button =? 40 then Some Offhand else None);
        slot ← slot; Some (Swap slot with_)
    | TClone => slot ← slot; Some (Clone slot)
    | TThrow =>
        slot ← slot;
        if button =? 0 then Some (Throw slot false) else if button =? 1 then Some (Throw slot true) else None
    | TPickupAll =>
        slot ← slot;
        if button =? 0 then Some (PickupAll slot Forward) else if button =? 1 then Some (PickupAll slot Backward) else None
    | TQuickCraft =>
        match Z.land button 3 with
        | 0 =>
            match Z.land (Z.shiftr button 2) 3 with
            | 0 => Some (Craft (Start DragLeft))
            | 1 => Some (Craft (Start DragRight))
            | 2 => Some (Craft (Start DragClone))
            | _ => None
            end
        | 1 => slot ← slot; Some (Craft (AddSlot slot))
        | 2 => Some (Craft End_)
        | _ => None
        end
    end.

(** ** Facts *)

Lemma quotient_table :
  forallb (fun c => forallb (fun n => f32_floor_i32 (f32_div (f32_of_int c) (f32_of_int n)) =? c / n) (seqZ 1 99)) (seqZ 0 100) = true.
Proof. vm_compute. reflexivity. Qed.

(** The float division of a drag is the integer division. *)
Lemma f32_quotient c n : 0 <= c <= 99 -> 1 <= n <= 99 -> f32_floor_i32 (f32_div (f32_of_int c) (f32_of_int n)) = c / n.
Proof.
  intros Hc Hn. pose proof quotient_table as H. rewrite forallb_forall in H.
  specialize (H c). rewrite <- list_elem_of_In, elem_of_seqZ in H. specialize (H ltac:(lia)).
  rewrite forallb_forall in H. specialize (H n). rewrite <- list_elem_of_In, elem_of_seqZ in H.
  apply Z.eqb_eq, H. lia.
Qed.

Lemma place_left {items : Items} n s :
  0 <= count_field s <= 99 -> (1 <= n <= 99)%nat -> place_count DragLeft n s = count_field s / Z.of_nat n.
Proof. intros Hs Hn. apply f32_quotient; lia. Qed.

(** The fields a client sends for a click. *)
Definition encode (c : Click) : Z * Z * ClickType :=
  let button b := match b with Left => 0 | Right => 1 end in
  match c with
  | Pickup slot b => (Z.of_nat slot, button b, TPickup)
  | DropCarried b => (SLOT_CLICKED_OUTSIDE, button b, TPickup)
  | QuickMove slot => (Z.of_nat slot, 0, TQuickMove)
  | Swap slot (Hotbar index) => (Z.of_nat slot, index, TSwap)
  | Swap slot Offhand => (Z.of_nat slot, 40, TSwap)
  | Clone slot => (Z.of_nat slot, 2, TClone)
  | Throw slot whole => (Z.of_nat slot, if whole then 1 else 0, TThrow)
  | PickupAll slot d => (Z.of_nat slot, match d with Forward => 0 | Backward => 1 end, TPickupAll)
  | Craft (Start k) => (SLOT_CLICKED_OUTSIDE, match k with DragLeft => 0 | DragRight => 4 | DragClone => 8 end, TQuickCraft)
  | Craft (AddSlot slot) => (Z.of_nat slot, 1, TQuickCraft)
  | Craft End_ => (SLOT_CLICKED_OUTSIDE, 2, TQuickCraft)
  end.

Lemma slot_of_some z n slot : slot_of z n = Some slot -> z = Z.of_nat slot /\ (slot < n)%nat.
Proof.
  unfold slot_of. case_match eqn:E; [|done]. intros [= <-].
  apply andb_true_iff in E as [?%Z.leb_le ?%Z.ltb_lt]. split; lia.
Qed.

Lemma slot_of_nat n slot : (slot <? n)%nat = true -> slot_of (Z.of_nat slot) n = Some slot.
Proof. intros H%Nat.ltb_lt. unfold slot_of. zbool. simpl. by rewrite Nat2Z.id. Qed.

(** A hotbar index is unsigned. *)
Definition swap_index_ok (c : Click) : Prop :=
  match c with Swap _ (Hotbar index) => 0 <= index | _ => True end.

Lemma parse_valid z b t n c : parse z b t n = Some c -> is_valid_for c n = true /\ swap_index_ok c.
Proof.
  unfold parse. destruct ((0 <=? z) && _); [done|].
  destruct t; simpl; rewrite ?bind_Some; repeat case_match; intros; destruct_and?;
    repeat match goal with
      | H : exists _, _ |- _ => destruct H as (? & ? & ?)
      | H : _ ≫= _ = Some _ |- _ => apply bind_Some in H as (? & ? & ?)
      | H : slot_of _ _ = Some _ |- _ => apply slot_of_some in H as [? ?]
      end; simplify_eq; simpl; rewrite ?(proj2 (Nat.ltb_lt _ _)) by done; try done.
  all: simpl; lia.
Qed.

(** A click decodes only to clicks whose every index is in range for the
    menu, whatever the packet holds, and every valid click has an encoding. *)
Theorem clicks_decode :
  (forall slot_num button t n c, parse slot_num button t n = Some c -> is_valid_for c n = true /\ swap_index_ok c) /\
  (forall c n, is_valid_for c n = true -> swap_index_ok c ->
     let '(slot_num, button, t) := encode c in parse slot_num button t n = Some c).
Proof.
  split; [intros z b t n c; apply parse_valid|].
  intros c n Hv Hi. assert (Hin : forall slot, (slot <? n)%nat = true -> (0 <=? Z.of_nat slot) && (Z.of_nat n <=? Z.of_nat slot) = false).
  { intros slot H%Nat.ltb_lt. zbool. done. }
  destruct c as [slot [] | [] |slot|slot [index|]|slot|slot []|slot []|[[]|slot|]]; simpl in *; try done;
    try (apply andb_true_iff in Hv as [Hv Hx]); unfold parse; try rewrite (Hin slot Hv);
    try rewrite (slot_of_nat n slot Hv); simpl; try done.
  - unfold SLOT_CLICKED_OUTSIDE. zbool. done.
  - unfold SLOT_CLICKED_OUTSIDE. zbool. done.
  - apply Z.ltb_lt in Hx. zbool. done.
Qed.

Lemma clicks_decode_witness : parse 5 1 TThrow 46 = Some (Throw 5 true) /\ is_valid_for (Throw 5 true) 46 = true.
Proof. split; [reflexivity|]. apply (proj1 clicks_decode 5 1 TThrow 46%nat). reflexivity. Defined.
