(* ===== verification/MenuBehavior.v ===== *)
(** * Menu behaviour

    Models [steel-core/src/inventory/menu/behavior.rs]: the slots and the
    cursor of a menu, the clicks that move items between them, and the
    client's perception of both.  Every operation locks the menu's containers
    for its whole duration. *)

From Stdlib Require Import Lia ZArith.
From stdpp Require Import prelude list gmap.
From S2P Require Import Prelude Sums Identifier ItemStack Containers Slots Click.

(** ** State *)

(** The hash a client sends for a stack: the item's id, the count, the hashes
    of the components added and the ids of those removed. *)
Inductive HashedStack :=
| HashedEmpty
| HashedItem (item_id count : Z) (added_components : gmap Z Z) (removed_components : list Z).

Inductive RemoteSlot := Unknown | Known (s : ItemStack) | Hashed (hash : HashedStack).

Record MenuBehavior := mk_behavior {
  slots : list Slot;
  remote_slots : list RemoteSlot;
  carried : ItemStack;
  remote_carried : RemoteSlot;
  container_id : Z;
  state_id : Z;
  suppress_remote_updates : bool;
  quickcraft : option DragKind;
  quickcraft_slots : list nat;
  data_slots : list Z;
  remote_data_slots : list Z;
  container_refs : Locks
}.

Section Behavior.
Context {items : Items}.

Definition behavior_new (slots : list Slot) (container_id : Z) (container_refs : Locks) : MenuBehavior :=
  mk_behavior slots (replicate (length slots) Unknown) empty_stack Unknown container_id 0 false None [] [] [] container_refs.

Definition with_carried (s : ItemStack) (self : MenuBehavior) : MenuBehavior :=
  mk_behavior (slots self) (remote_slots self) s (remote_carried self) (container_id self) (state_id self)
    (suppress_remote_updates self) (quickcraft self) (quickcraft_slots self) (data_slots self) (remote_data_slots self)
    (container_refs self).
Definition with_quickcraft (kind : option DragKind) (dragged : list nat) (self : MenuBehavior) : MenuBehavior :=
  mk_behavior (slots self) (remote_slots self) (carried self) (remote_carried self) (container_id self) (state_id self)
    (suppress_remote_updates self) kind dragged (data_slots self) (remote_data_slots self) (container_refs self).
Definition reset_quick_craft (self : MenuBehavior) : MenuBehavior := with_quickcraft None [] self.

(** [self.slots[index]] *)
Definition slot_at (self : MenuBehavior) (index : nat) : total Slot :=
  match slots self !! index with Some s => Ok s | None => Panic end.

Notation locks := container_refs (only parsing).

(** ** Quick move *)

Definition update_quick_move_source (self : MenuBehavior) (L : Locks) (w : World) (slot_index : nat) (remaining : ItemStack) : total World :=
  let? slot := slot_at self slot_index in
  if is_empty remaining then set_by_player slot L w empty_stack
  else
    let? w := if negb (is_fake slot) then slot_put slot L w remaining else Ok w in
    slot_changed slot L w.

(** The walk over [start_slot, end_slot). *)
Definition dest_slots (direction : FillDirection) (start_slot end_slot : nat) : list nat :=
  let range := seq start_slot (end_slot - start_slot) in
  match direction with Forward => range | Backward => rev range end.

(** The destination is the source or an alias of its storage. *)
Definition skips (source_slot : nat) (source_key : option (ContainerId * nat)) (dest : nat) (slot : Slot) : bool :=
  (dest =? source_slot)%nat ||
  match source_key with Some key => bool_decide (physical_key slot = Some key) | None => false end.

(** Body of the first pass. *)
Definition stack_onto (L : Locks) (slot : Slot) (st : ItemStack * World * bool) : total (ItemStack * World * bool) :=
  let '(item_stack, w, changed) := st in
  let? target := slot_get slot L w in
  if negb (is_empty target) && is_same_item_same_components item_stack target then
    let total_stack := i32 (count_field target + count_field item_stack) in
    let? max_stack_size := max_size_for_item slot L w target in
    if total_stack <=? max_stack_size then
      let? w := slot_put slot L w (set_count target total_stack) in
      let? w := slot_changed slot L w in
      Ok (set_count item_stack 0, w, true)
    else if count_field target <? max_stack_size then
      let item_stack := shrink item_stack (i32 (max_stack_size - count_field target)) in
      let? w := slot_put slot L w (set_count target max_stack_size) in
      let? w := slot_changed slot L w in
      Ok (item_stack, w, true)
    else Ok st
  else Ok st.

Fixpoint stack_pass (self : MenuBehavior) (L : Locks) (source_slot : nat) (source_key : option (ContainerId * nat))
    (st : ItemStack * World * bool) (dests : list nat) : total (ItemStack * World * bool) :=
  match dests with
  | [] => Ok st
  | dest :: dests =>
      if is_empty st.1.1 then Ok st
      else
        let? slot := slot_at self dest in
        let? st := if skips source_slot source_key dest slot then Ok st else stack_onto L slot st in
        stack_pass self L source_slot source_key st dests
  end.

(** The second pass stops at the first slot it fills. *)
Fixpoint place_pass (self : MenuBehavior) (L : Locks) (source_slot : nat) (source_key : option (ContainerId * nat))
    (st : ItemStack * World * bool) (dests : list nat) : total (ItemStack * World * bool) :=
  match dests with
  | [] => Ok st
  | dest :: dests =>
      let '(item_stack, w, changed) := st in
      let? slot := slot_at self dest in
      if skips source_slot source_key dest slot then place_pass self L source_slot source_key st dests
      else
        let? target := slot_get slot L w in
        if is_empty target && may_place slot item_stack then
          let? max_stack_size := max_size_for_item slot L w item_stack in
          let to_place := Z.min (count_field item_stack) max_stack_size in
          let '(placed, rest) := split item_stack to_place in
          let? w := set_by_player slot L w placed in
          let? w := slot_changed slot L w in
          Ok (rest, w, true)
        else place_pass self L source_slot source_key st dests
  end.

(** Whether anything moved, what is left, and the world. *)
Definition move_item_stack_to (self : MenuBehavior) (L : Locks) (w : World) (source_slot : nat) (item_stack : ItemStack)
    (start_slot end_slot : nat) (direction : FillDirection) : total (bool * ItemStack * World) :=
  if (end_slot <=? start_slot)%nat then Ok (false, item_stack, w)
  else
    let? source := slot_at self source_slot in
    let source_key := physical_key source in
    let dests := dest_slots direction start_slot end_slot in
    let? stackable := is_stackable item_stack in
    let? '(item_stack, w, changed) :=
      if stackable then stack_pass self L source_slot source_key (item_stack, w, false) dests else Ok (item_stack, w, false) in
    let? '(item_stack, w, changed) :=
      if negb (is_empty item_stack) then place_pass self L source_slot source_key (item_stack, w, changed) dests
      else Ok (item_stack, w, changed) in
    Ok (changed, item_stack, w).

(** ** Clicks *)

(** What [do_pickup] does between reading the slot and notifying it: the new
    cursor and the world. *)
Definition pickup_transfer (L : Locks) (w : World) (slot : Slot) (slot_item carried : ItemStack) (button : MouseButton) (p : Player) :
    total (ItemStack * World) :=
  let requested := match button with Left => count_field carried | Right => 1 end in
  if is_empty slot_item then
    if negb (is_empty carried) && may_place slot carried then safe_insert slot L w carried requested else Ok (carried, w)
  else if is_empty carried then
    let amount := match button with Left => count_field slot_item | Right => Z.quot (i32 (count_field slot_item + 1)) 2 end in
    let? '(taken, w) := remove_and_notify slot L w amount i32_max p in
    Ok (match taken with Some taken => taken | None => empty_stack end, w)
  else
    let? pickup := may_pickup slot L w p in
    if is_same_item_same_components slot_item carried then
      if pickup && may_place slot carried then safe_insert slot L w carried requested
      else if pickup then
        let space := i32 (max_stack_size carried - count_field carried) in
        if 0 <? space then
          let? '(taken, w) := remove_and_notify slot L w (count_field slot_item) space p in
          Ok (match taken with Some taken => grow carried (count_field taken) | None => carried end, w)
        else Ok (carried, w)
      else Ok (carried, w)
    else if pickup && may_place slot carried then
      let? max := max_size_for_item slot L w carried in
      if count_field carried <=? max then let? w := set_by_player slot L w carried in Ok (slot_item, w) else Ok (carried, w)
    else Ok (carried, w).

Definition do_pickup (self : MenuBehavior) (w : World) (slot_index : nat) (button : MouseButton) (p : Player) :
    total (MenuBehavior * World) :=
  let L := locks self in
  let? slot := slot_at self slot_index in
  let? slot_item := slot_get slot L w in
  let? '(carried, w) := pickup_transfer L w slot slot_item (carried self) button p in
  let? w := slot_changed slot L w in
  Ok (with_carried carried self, w).

Definition drop_carried (self : MenuBehavior) (w : World) (button : MouseButton) : MenuBehavior * World :=
  if is_empty (carried self) then (self, w)
  else match button with
       | Left => (with_carried empty_stack self, drop_item w (carried self))
       | Right => let '(one, rest) := split (carried self) 1 in (with_carried rest self, drop_item w one)
       end.

Definition do_clone (self : MenuBehavior) (w : World) (slot_index : nat) (has_infinite_materials : bool) : total MenuBehavior :=
  if negb has_infinite_materials || negb (is_empty (carried self)) then Ok self
  else
    let? slot := slot_at self slot_index in
    let? slot_item := slot_get slot (locks self) w in
    if negb (is_empty slot_item) then Ok (with_carried (copy_with_count slot_item (max_stack_size slot_item)) self) else Ok self.

(** The [loop] of [do_throw]. *)
Fixpoint throw_loop (fuel : nat) (L : Locks) (w : World) (slot : Slot) (dropped : ItemStack) (p : Player) : total World :=
  match fuel with
  | O => Err OutOfFuel
  | S fuel =>
      let? b := may_pickup slot L w p in
      if negb b then Ok w
      else if negb (can_drop_items p) then Ok w
      else
        let? current_item := slot_get slot L w in
        if is_empty current_item || negb (is_same_item current_item dropped) then Ok w
        else
          let? '(more_dropped, w) := safe_take slot L w (count_field current_item) i32_max p in
          if is_empty more_dropped then Ok w else throw_loop fuel L (drop_item w more_dropped) slot dropped p
  end.

Definition do_throw (fuel : nat) (self : MenuBehavior) (w : World) (slot_index : nat) (whole_stack : bool) (p : Player) : total World :=
  if negb (is_empty (carried self)) then Ok w
  else
    let L := locks self in
    let? slot := slot_at self slot_index in
    let? b := may_pickup slot L w p in
    if negb b then Ok w
    else if negb (can_drop_items p) then Ok w
    else
      let? i := slot_get slot L w in
      let amount := if whole_stack then count_field i else 1 in
      let? '(dropped, w) := safe_take slot L w amount i32_max p in
      let w := drop_item w dropped in
      if whole_stack then throw_loop fuel L w slot dropped p else Ok w.

(** ** Drags *)

Definition add_drag_slot (self : MenuBehavior) (w : World) (slot_index : nat) (can_drag_to : nat -> bool) : total MenuBehavior :=
  let? slot := slot_at self slot_index in
  let? slot_item := slot_get slot (locks self) w in
  if can_item_quick_replace slot_item (carried self) true
     && may_place slot (carried self)
     && (bool_decide (quickcraft self = Some DragClone) || (Z.of_nat (length (quickcraft_slots self)) <? count_field (carried self)))
     && can_drag_to slot_index
     && negb (bool_decide (slot_index ∈ quickcraft_slots self))
  then Ok (with_quickcraft (quickcraft self) (quickcraft_slots self ++ [slot_index]) self)
  else Ok self.

(** Body of the loop over the dragged slots. *)
Definition distribute_one (self : MenuBehavior) (kind : DragKind) (can_drag_to : nat -> bool) (w : World) (remaining : Z)
    (slot_index : nat) : total (Z * World) :=
  let L := locks self in
  let source := carried self in
  let n := length (quickcraft_slots self) in
  let? slot := slot_at self slot_index in
  let? slot_item := slot_get slot L w in
  if can_item_quick_replace slot_item (carried self) true
     && may_place slot (carried self)
     && (bool_decide (kind = DragClone) || (Z.of_nat n <=? count_field (carried self)))
     && can_drag_to slot_index
  then
    let current_count := if is_empty slot_item then 0 else count_field slot_item in
    let? m := max_size_for_item slot L w source in
    let max_size := Z.min (max_stack_size source) m in
    let new_count := Z.min (i32 (place_count kind n source + current_count)) max_size in
    let? w := set_by_player slot L w (set_count source new_count) in
    Ok (i32 (remaining - i32 (new_count - current_count)), w)
  else Ok (remaining, w).

Fixpoint distribute (self : MenuBehavior) (kind : DragKind) (can_drag_to : nat -> bool) (w : World) (remaining : Z)
    (dragged : list nat) : total (Z * World) :=
  match dragged with
  | [] => Ok (remaining, w)
  | slot_index :: dragged =>
      let? '(remaining, w) := distribute_one self kind can_drag_to w remaining slot_index in
      distribute self kind can_drag_to w remaining dragged
  end.

Definition finish_quick_craft (self : MenuBehavior) (w : World) (p : Player) (can_drag_to : nat -> bool) :
    total (MenuBehavior * World) :=
  match quickcraft self with
  | None => Ok (reset_quick_craft self, w)
  | Some kind =>
      match quickcraft_slots self with
      | [] => Ok (reset_quick_craft self, w)
      | [slot] =>
          let self := reset_quick_craft self in
          match kind with
          | DragLeft => do_pickup self w slot Left p
          | DragRight => do_pickup self w slot Right p
          | DragClone => Ok (self, w)
          end
      | dragged =>
          if is_empty (carried self) then Ok (reset_quick_craft self, w)
          else
            let? '(remaining, w) := distribute self kind can_drag_to w (count_field (carried self)) dragged in
            Ok (reset_quick_craft (with_carried (set_count (carried self) remaining) self), w)
      end
  end.

Definition do_quick_craft (self : MenuBehavior) (w : World) (action : QuickCraft) (has_infinite_materials : bool) (p : Player)
    (can_drag_to : nat -> bool) : total (MenuBehavior * World) :=
  let valid_transition :=
    match action with Start _ => bool_decide (quickcraft self = None) | AddSlot _ | End_ => negb (bool_decide (quickcraft self = None)) end in
  if negb valid_transition then Ok (reset_quick_craft self, w)
  else if is_empty (carried self) then Ok (reset_quick_craft self, w)
  else match action with
       | Start kind =>
           if bool_decide (kind = DragClone) && negb has_infinite_materials then Ok (reset_quick_craft self, w)
           else Ok (with_quickcraft (Some kind) [] self, w)
       | AddSlot slot_index => let? self := add_drag_slot self w slot_index can_drag_to in Ok (self, w)
       | End_ => finish_quick_craft self w p can_drag_to
       end.

End Behavior.

(** ** The menu's invariant *)

Section Invariant.
Context {items : Items} (ss : list Slot) (L : Locks) (p : Player).

(** The slots only store items in locked containers; slots over the same
    position agree on its limit, and the player's own slots have none. *)
Record menu_static : Prop := {
  static_storage s : s ∈ ss -> exists key, StorageSlot s key /\ key.1 ∈ L;
  static_alias s s' : s ∈ ss -> s' ∈ ss -> physical_key s = physical_key s' -> max_size_for_item s = max_size_for_item s';
  static_inventory s i w st selected : s ∈ ss -> physical_key s = Some (player_inventory p, i) -> main_or_offhand i ->
    kinds w !! player_inventory p = Some (PlayerInventory selected) -> is_empty st = false ->
    max_size_for_item s L w st = Ok (Z.min 99 (max_stack_size st))
}.

(** Every stack is well-formed and within the limit of its slot. *)
Record menu_world (w : World) : Prop := {
  mw_ok : world_ok w;
  mw_cells s key : s ∈ ss -> physical_key s = Some key -> is_Some (cell (view w) key);
  mw_within s key x : s ∈ ss -> physical_key s = Some key -> cell (view w) key = Some x -> fits s L w x;
  mw_inventory : exists selected, kinds w !! player_inventory p = Some (PlayerInventory selected)
}.

Lemma wrote_kinds key st w w' : wrote key st w w' -> kinds w' = kinds w.
Proof. intros [H _]. unfold kinds. by rewrite H, kinds_updated. Qed.

Lemma same_kinds w w' : same_world w w' -> kinds w' = kinds w.
Proof. intros [H _]. unfold kinds. by rewrite H. Qed.

Context (Hstatic : menu_static).

Lemma fits_stable s w w' st : s ∈ ss -> kinds w' = kinds w -> fits s L w st -> fits s L w' st.
Proof.
  intros Hs Hk [?|(m & Hm & ?)]; [by left|]. destruct (static_storage Hstatic s Hs) as (key & HS & HL).
  right. exists m. split; [|done]. rewrite <- Hm. by apply storage_max_stable.
Qed.

Lemma menu_wrote s key st w w' :
  menu_world w -> s ∈ ss -> physical_key s = Some key -> wrote key st w w' -> stack_ok st -> fits s L w st -> menu_world w'.
Proof.
  intros [A B C D] Hs Hkey Hw Hst Hf. pose proof (wrote_kinds _ _ _ _ Hw) as Hk. split.
  - by eapply wrote_ok.
  - intros s' key' Hs' Hkey'. destruct (B s key Hs Hkey) as [old Hold]. rewrite (proj1 Hw).
    destruct (decide (key = key')) as [<-|Hne]; [rewrite (cell_updated _ _ _ _ Hold); by eexists|].
    rewrite cell_updated_ne by done. by eapply B.
  - intros s' key' x Hs' Hkey' Hx. destruct (B s key Hs Hkey) as [old Hold]. rewrite (proj1 Hw) in Hx.
    apply (fits_stable s' w); [done..|]. destruct (decide (key = key')) as [<-|Hne].
    + rewrite (cell_updated _ _ _ _ Hold) in Hx. injection Hx as <-. unfold fits in *.
      rewrite (static_alias Hstatic s' s) by congruence. done.
    + rewrite cell_updated_ne in Hx by done. by eapply C.
  - by rewrite Hk.
Qed.

Lemma menu_same w w' : same_world w w' -> menu_world w -> menu_world w'.
Proof.
  intros Hw [A B C D]. pose proof (same_kinds _ _ Hw) as Hk. split.
  - by rewrite <- Hw.
  - rewrite (proj1 Hw). apply B.
  - intros s key x Hs Hkey Hx. rewrite (proj1 Hw) in Hx. apply (fits_stable s w); [done..|]. by eapply C.
  - by rewrite Hk.
Qed.

Lemma menu_drop w st : stack_ok st -> menu_world w -> menu_world (drop_item w st).
Proof.
  intros Hst [A B C D]. unfold drop_item. destruct (is_empty st); [done|]. split; try done.
  - destruct A as [A1 A2]. split; [done|]. simpl. intros s [?| ->%list_elem_of_singleton]%elem_of_app; [by apply A2|done].
  - intros s key x Hs Hkey Hx. apply (fits_stable s w); [done..|]. by eapply C.
Qed.

Lemma drop_total k w st : world_total k (drop_item w st) = world_total k w + amount k st.
Proof.
  unfold drop_item. destruct (is_empty st) eqn:E; [rewrite amount_empty by done; lia|].
  unfold world_total. simpl. rewrite list_sum_app. simpl. change (view (mk_world (containers w) (dropped w ++ [st]))) with (view w). lia.
Qed.

Lemma menu_took s key old n w taken w' :
  menu_world w -> s ∈ ss -> StorageSlot s key -> cell (view w) key = Some old -> took s key L old n w taken w' -> menu_world w'.
Proof.
  intros Hmw Hs HS Hc [_ _ _ (rest & Hw & Hok & _ & _ & Hf)].
  eapply menu_wrote; [done|done|apply storage_key|done|done|]. apply Hf. eapply mw_within; [done|done|apply storage_key|done].
Qed.

(** Everything an operation on a slot needs. *)
Lemma open_slot self w i :
  slots self = ss -> menu_world w -> (i < length ss)%nat ->
  exists s key old, slot_at self i = Ok s /\ s ∈ ss /\ StorageSlot s key /\ key.1 ∈ L /\ physical_key s = Some key /\
    cell (view w) key = Some old /\ slot_get s L w = Ok old /\ stack_ok old /\ fits s L w old.
Proof.
  intros Hss Hw [s Hs]%lookup_lt_is_Some. unfold slot_at. rewrite Hss, Hs. apply list_elem_of_lookup_2 in Hs.
  destruct (static_storage Hstatic s Hs) as (key & HS & HL). destruct (mw_cells w Hw s key Hs storage_key) as [old Hold].
  exists s, key, old. split_and!; try done.
  - apply storage_key.
  - apply storage_get; [by apply mw_ok|done..].
  - eapply cell_ok; [by apply mw_ok|done].
  - eapply mw_within; [done|done|apply storage_key|done].
Qed.

(** The cursor and the world hold the same items as before. *)
Record conserves (c : ItemStack) (w : World) (c' : ItemStack) (w' : World) : Prop := {
  conserves_cursor : stack_ok c';
  conserves_world : menu_world w';
  conserves_kinds : kinds w' = kinds w;
  conserves_total k : amount k c' + world_total k w' = amount k c + world_total k w
}.

Lemma conserves_same c w c' w1 w2 : conserves c w c' w1 -> same_world w1 w2 -> conserves c w c' w2.
Proof.
  intros [A B C D] H. split; [done|by eapply menu_same|by rewrite (same_kinds _ _ H)|]. intros k. by rewrite <- H.
Qed.

Lemma conserves_refl c w : stack_ok c -> menu_world w -> conserves c w c w.
Proof. by split. Qed.

Lemma conserves_trans c w c1 w1 c2 w2 : conserves c w c1 w1 -> conserves c1 w1 c2 w2 -> conserves c w c2 w2.
Proof. intros [A B C D] [A' B' C' D']. split; [done|done|congruence|]. intros k. by rewrite D'. Qed.

(** A write that exchanges items with the cursor. *)
Lemma conserves_wrote s key old st c c' w w' :
  menu_world w -> s ∈ ss -> physical_key s = Some key -> cell (view w) key = Some old -> wrote key st w w' ->
  stack_ok st -> fits s L w st -> stack_ok c' ->
  (forall k, amount k st + amount k c' = amount k old + amount k c) -> conserves c w c' w'.
Proof.
  intros Hw Hs Hkey Hc Hwr Hst Hf Hc' Hk. split; [done|by eapply menu_wrote|by eapply wrote_kinds|].
  intros k. rewrite (wrote_total k _ _ _ _ _ Hc Hwr). specialize (Hk k). lia.
Qed.
End Invariant.

(** ** Clicks on one slot *)

Section Clicks.
Context {items : Items} (self : MenuBehavior) (p : Player) (Hstatic : menu_static (slots self) (container_refs self) p).
Notation L := (container_refs self).
Notation ss := (slots self).
Notation menu_world := (menu_world ss L p).
Notation conserves := (conserves ss L p).

(** Inserting part of the cursor. *)
Lemma insert_conserves s key old w c amt :
  menu_world w -> s ∈ ss -> StorageSlot s key -> key.1 ∈ L -> cell (view w) key = Some old -> stack_ok c -> fits s L w old ->
  exists c' w', safe_insert s L w c amt = Ok (c', w') /\ conserves c w c' w'.
Proof.
  intros Hw Hs HS HL Hc Hok Hf.
  destruct (safe_insert_ok s key L HL w old c amt) as (c' & w' & new & -> & _ & Hc' & Hnew & Hwr & Hfn & Hk);
    [by apply mw_ok in Hw|done..|].
  exists c', w'. split; [done|]. eapply conserves_wrote; [done|done|done|apply storage_key|done..].
Qed.

(** Taking from a slot. *)
Lemma take_conserves s key old w amt max :
  menu_world w -> s ∈ ss -> StorageSlot s key -> key.1 ∈ L -> cell (view w) key = Some old ->
  exists r w', remove_and_notify s L w amt max p = Ok (r, w') /\
    match r with None => w' = w | Some taken => took s key L old (Z.min amt max) w taken w' /\ menu_world w' end.
Proof.
  intros Hw Hs HS HL Hc. pose proof (mw_ok _ _ _ _ Hw) as Hwok.
  destruct (remove_and_notify_ok s key L HL w old amt max p Hwok Hc) as (r & w' & -> & Hw' & Hr).
  exists r, w'. split; [done|]. destruct r; [|done]. split; [done|]. by eapply menu_took.
Qed.

Lemma take_merge s key old n w taken w' c c' :
  menu_world w -> StorageSlot s key -> cell (view w) key = Some old -> took s key L old n w taken w' -> menu_world w' ->
  stack_ok c' -> (forall k, amount k c' = amount k c + amount k taken) -> conserves c w c' w'.
Proof.
  intros Hw HS Hc Ht Hw' Hc' Hk. pose proof Ht as [_ _ _ (rest & Hwr & _)].
  split; [done|done|by eapply wrote_kinds|]. intros k. rewrite Hk. pose proof (took_total s key L k old n w taken w' Hc Ht). lia.
Qed.

Lemma changed_ok s key w old :
  menu_world w -> StorageSlot s key -> key.1 ∈ L -> cell (view w) key = Some old ->
  exists w', slot_changed s L w = Ok w' /\ same_world w w'.
Proof. intros Hw HS HL Hc. eapply storage_changed; [by apply mw_ok in Hw|done|done]. Qed.

Lemma pickup_transfer_ok s key old w button c :
  menu_world w -> s ∈ ss -> StorageSlot s key -> key.1 ∈ L -> cell (view w) key = Some old -> stack_ok c -> fits s L w old ->
  exists c' w', pickup_transfer L w s old c button p = Ok (c', w') /\ conserves c w c' w'.
Proof.
  intros Hw Hs HS HL Hc Hok Hfit. pose proof (mw_ok _ _ _ _ Hw) as Hwok. pose proof (cell_ok w key old Hwok Hc) as Hold.
  assert (Hins : forall amt, exists c' w', safe_insert s L w c amt = Ok (c', w') /\ conserves c w c' w') by (intros; by eapply insert_conserves).
  assert (Hstay : exists c' w', Ok (c, w) = Ok (E := exhausted) (c', w') /\ conserves c w c' w') by (exists c, w; split; [done|by apply conserves_refl]).
  unfold pickup_transfer. destruct (is_empty old) eqn:Eo; [by case_match|].
  destruct (is_empty c) eqn:Ec.
  - destruct (take_conserves s key old w (match button with Left => count_field old | Right => i32 (count_field old + 1) ÷ 2 end)
      i32_max Hw Hs HS HL Hc) as (r & w' & -> & Hr). cbn [obind]. destruct r as [taken|].
    + destruct Hr as [Ht Hw']. exists taken, w'. split; [done|]. eapply take_merge; try done.
      * by eapply taken_facts.
      * intros k. rewrite (amount_empty k c) by done. lia.
    + subst w'. exists empty_stack, w. split; [done|]. split; [apply empty_ok|done|done|]. intros k. by rewrite !amount_empty.
  - destruct (storage_pickup L w old p Hwok HL Hc) as [pick ->]. cbn [obind].
    destruct (is_same_item_same_components old c) eqn:Es.
    + destruct (pick && may_place s c); [done|]. destruct pick; [|done].
      destruct Hok as [Hcc Hck]. assert (Hok : stack_ok c) by done. destruct (Hck Ec) as [Hle [Hmax _]].
      rewrite max_stack_kind by done.
      assert (i32 (kind_max (kind_of c) - count_field c) = kind_max (kind_of c) - count_field c) as ->
        by (apply wraps_id; [lia|]; unfold is_s; lia).
      destruct (Z.ltb_spec 0 (kind_max (kind_of c) - count_field c)); [|done].
      destruct (take_conserves s key old w (count_field old) (kind_max (kind_of c) - count_field c) Hw Hs HS HL Hc) as (r & w' & -> & Hr).
      cbn [obind]. destruct r as [taken|]; [|by subst w'].
      destruct Hr as [Ht Hw']. pose proof Ht as [_ [Hn1 Hn2] _ _]. destruct (taken_facts _ _ _ _ _ _ _ _ Hold Ht) as (Htok & Htf & Htk).
      apply same_kind in Es; [|done..]. rewrite grow_exact by (done || lia).
      exists (set_count c (count_field c + count_field taken)), w'. split; [done|]. eapply take_merge; try done.
      * apply set_count_ok; [done..|lia].
      * intros k. rewrite amount_set_count, (amount_full k c), (amount_full k taken), Htk, Es by (done || lia). case_decide; lia.
    + destruct (pick && may_place s c); [|done].
      destruct (storage_max L w old c Hwok HL Hc Hok Ec) as (m & Hm & Hmr). rewrite Hm. cbn [obind].
      destruct (Z.leb_spec (count_field c) m); [|done].
      assert (Hfc : fits s L w c) by (right; eauto).
      destruct (storage_set L w old c Hwok HL Hc Hok Hfc) as (w' & Hset & Hwr). unfold set_by_player. rewrite Hset. cbn [obind].
      exists old, w'. split; [done|]. eapply conserves_wrote; [done|done|done|apply storage_key|done..|]. intros k. lia.
Qed.

Lemma do_pickup_ok w i button :
  menu_world w -> stack_ok (carried self) -> (i < length ss)%nat ->
  exists c' w', do_pickup self w i button p = Ok (with_carried c' self, w') /\ conserves (carried self) w c' w'.
Proof.
  intros Hw Hok Hi. destruct (open_slot ss L p Hstatic self w i eq_refl Hw Hi) as (s & key & old & Es & Hs & HS & HL & Hkey & Hc & Hget & Hold & Hfit).
  unfold do_pickup. rewrite Es. cbn [obind]. rewrite Hget. cbn [obind].
  destruct (pickup_transfer_ok s key old w button (carried self) Hw Hs HS HL Hc Hok Hfit) as (c' & w1 & -> & Hcons). cbn [obind].
  pose proof (conserves_world _ _ _ _ _ _ _ Hcons) as Hw1. destruct (mw_cells _ _ _ _ Hw1 s key Hs Hkey) as [x Hx].
  destruct (changed_ok s key w1 x Hw1 HS HL Hx) as (w2 & -> & Hsame). cbn [obind].
  exists c', w2. split; [done|]. by eapply conserves_same.
Qed.
End Clicks.

(** ** Dropping and throwing *)

Section Throws.
Context {items : Items} (self : MenuBehavior) (p : Player) (Hstatic : menu_static (slots self) (container_refs self) p).
Notation L := (container_refs self).
Notation ss := (slots self).
Notation menu_world := (menu_world ss L p).
Notation conserves := (conserves ss L p).

Lemma drop_kinds w st : kinds (drop_item w st) = kinds w.
Proof. unfold drop_item. by case_match. Qed.

Lemma drop_cell w st key : cell (view (drop_item w st)) key = cell (view w) key.
Proof. unfold drop_item. by case_match. Qed.

Lemma drop_carried_ok w button :
  menu_world w -> stack_ok (carried self) ->
  exists c' w', drop_carried self w button = (with_carried c' self, w') /\ conserves (carried self) w c' w'.
Proof.
  intros Hw Hok. unfold drop_carried. destruct (is_empty (carried self)) eqn:Ee.
  { exists (carried self), w. split; [by destruct self|by apply conserves_refl]. }
  destruct Hok as [Hc Hk]. assert (Hok : stack_ok (carried self)) by done. destruct (Hk Ee) as [Hle _].
  apply empty_cases in Ee as Ee'. destruct button.
  - eexists _, _. split; [done|]. split; [apply empty_ok|by apply menu_drop|apply drop_kinds|].
    intros k. rewrite drop_total, amount_empty by done. lia.
  - rewrite split_exact by (done || lia). eexists _, _. split; [done|]. split.
    + apply set_count_ok; [done..|lia].
    + apply menu_drop; [done| |done]. apply set_count_ok; [done..|lia].
    + apply drop_kinds.
    + intros k. rewrite drop_total, !amount_set_count, amount_full by (done || lia). case_decide; lia.
Qed.

Lemma rest_count old taken rest :
  is_empty old = false -> is_empty taken = false -> kind_of taken = kind_of old -> stack_ok rest ->
  (forall k, amount k rest = amount k old - amount k taken) -> count rest = count old - count_field taken.
Proof.
  intros Ho Ht Hk [Hr _] Ha. rewrite (count_full old) by done. unfold count. destruct (is_empty rest) eqn:Er.
  - specialize (Ha (kind_of old)). rewrite (amount_empty _ rest), !amount_full, Hk, !decide_True in Ha by done. lia.
  - apply empty_cases in Er as Er'. destruct (decide (kind_of rest = kind_of old)) as [E|E].
    + specialize (Ha (kind_of old)). rewrite !amount_full, Hk, E, !decide_True in Ha by done. lia.
    + specialize (Ha (kind_of rest)). rewrite !amount_full, Hk, decide_True, !decide_False in Ha by done. lia.
Qed.

(** Handing a slot's items to the world. *)
Lemma toss_ok s key old w amt :
  menu_world w -> s ∈ ss -> StorageSlot s key -> key.1 ∈ L -> cell (view w) key = Some old ->
  exists taken w', safe_take s L w amt i32_max p = Ok (taken, w') /\
    menu_world (drop_item w' taken) /\ kinds w' = kinds w /\
    (forall k, world_total k (drop_item w' taken) = world_total k w) /\
    (is_empty taken = false -> exists rest, cell (view (drop_item w' taken)) key = Some rest /\ count rest < count old).
Proof.
  intros Hw Hs HS HL Hc. pose proof (mw_ok _ _ _ _ Hw) as Hwok. pose proof (cell_ok w key old Hwok Hc) as Hold.
  unfold safe_take. destruct (take_conserves self p Hstatic s key old w amt i32_max Hw Hs HS HL Hc) as (r & w' & -> & Hr). cbn [obind].
  destruct r as [taken|].
  - destruct Hr as [Ht Hw']. destruct (taken_facts _ _ _ _ _ _ _ _ Hold Ht) as (Htok & Htf & Htk).
    exists taken, w'. split; [done|]. split; [by apply menu_drop|].
    pose proof Ht as [Hof [Hn1 Hn2] _ (rest & Hwr & Hrok & Hra & _)]. split; [by eapply wrote_kinds|]. split.
    + intros k. rewrite drop_total. pose proof (took_total s key L k old _ w taken w' Hc Ht). lia.
    + intros _. exists rest. rewrite drop_cell. split; [by eapply wrote_cell|].
      rewrite (rest_count old taken rest) by done. lia.
  - subst w'. exists empty_stack, w. split; [done|]. unfold drop_item. simpl. split_and!; done.
Qed.
(** Each round leaves fewer items, so a round per item is enough. *)
Lemma throw_loop_ok fuel w s key old thrown :
  menu_world w -> s ∈ ss -> StorageSlot s key -> key.1 ∈ L -> cell (view w) key = Some old -> (Z.to_nat (count old) < fuel)%nat ->
  exists w', throw_loop fuel L w s thrown p = Ok w' /\ menu_world w' /\ kinds w' = kinds w /\
    (forall k, world_total k w' = world_total k w).
Proof.
  revert w old. induction fuel as [|fuel IH]; intros w old Hw Hs HS HL Hc Hfuel; [lia|]. simpl.
  pose proof (mw_ok _ _ _ _ Hw) as Hwok. destruct (storage_pickup L w old p Hwok HL Hc) as [b ->]. cbn [obind].
  destruct (negb b); [by exists w|]. destruct (negb (can_drop_items p)); [by exists w|].
  rewrite (storage_get L w old Hwok HL Hc). cbn [obind]. destruct (is_empty old || _) eqn:E; [by exists w|].
  apply orb_false_iff in E as [Eo _]. pose proof (cell_ok w key old Hwok Hc) as [Hcnt _].
  destruct (toss_ok s key old w (count_field old) Hw Hs HS HL Hc) as (taken & w1 & -> & Hw1 & Hk1 & Ht1 & Hcell). cbn [obind].
  destruct (is_empty taken) eqn:Et.
  - assert (Hd : drop_item w1 taken = w1) by (unfold drop_item; by rewrite Et). rewrite Hd in *. by exists w1.
  - destruct (Hcell eq_refl) as (rest & Hrest & Hlt).
    assert (0 <= count rest). { unfold count. case_match eqn:Er; [done|]. apply empty_cases in Er. lia. }
    destruct (IH (drop_item w1 taken) rest) as (w' & -> & Hw' & Hk' & Ht'); [done..|lia|].
    exists w'. split_and!; [done|done|by rewrite Hk', drop_kinds, Hk1|]. intros k. by rewrite Ht', Ht1.
Qed.

Lemma do_throw_ok fuel w i whole :
  menu_world w -> stack_ok (carried self) -> (i < length ss)%nat -> (100 <= fuel)%nat ->
  exists w', do_throw fuel self w i whole p = Ok w' /\ conserves (carried self) w (carried self) w'.
Proof.
  intros Hw Hok Hi Hfuel. assert (Hstay : exists w', Ok w = Ok (E := exhausted) w' /\ conserves (carried self) w (carried self) w')
    by (exists w; split; [done|by apply conserves_refl]).
  unfold do_throw. destruct (negb (is_empty (carried self))); [done|].
  destruct (open_slot ss L p Hstatic self w i eq_refl Hw Hi) as (s & key & old & Es & Hs & HS & HL & Hkey & Hc & Hget & Hold & Hfit).
  rewrite Es. cbn [obind]. destruct (storage_pickup L w old p (mw_ok _ _ _ _ Hw) HL Hc) as [b ->]. cbn [obind].
  destruct (negb b); [done|]. destruct (negb (can_drop_items p)); [done|]. rewrite Hget. cbn [obind].
  destruct (toss_ok s key old w (if whole then count_field old else 1) Hw Hs HS HL Hc) as (taken & w1 & -> & Hw1 & Hk1 & Ht1 & Hcell).
  cbn [obind]. destruct whole.
  - destruct (mw_cells _ _ _ _ Hw1 s key Hs Hkey) as [x Hx].
    pose proof (cell_ok _ key x (mw_ok _ _ _ _ Hw1) Hx) as [Hcnt _].
    destruct (throw_loop_ok fuel (drop_item w1 taken) s key x taken) as (w' & -> & Hw' & Hk' & Ht'); try done.
    { unfold count. case_match; lia. }
    exists w'. split; [done|]. split; [done|done|by rewrite Hk', drop_kinds|]. intros k. by rewrite Ht', Ht1.
  - exists (drop_item w1 taken). split; [done|]. split; [done|done|by rewrite drop_kinds|]. intros k. by rewrite Ht1.
Qed.
End Throws.

(** ** Drags *)

Section Drags.
Context {items : Items} (self : MenuBehavior) (p : Player) (Hstatic : menu_static (slots self) (container_refs self) p).
Notation L := (container_refs self).
Notation ss := (slots self).
Notation menu_world := (menu_world ss L p).
Notation conserves := (conserves ss L p).
Notation c := (carried self).
Notation n := (length (quickcraft_slots self)).
Context (Hok : stack_ok c) (Hne : is_empty c = false).
Context (kind : DragKind) (Hkind : kind <> DragClone) (can_drag_to : nat -> bool).

Definition share : Z := place_count kind n c.
Definition in_hand (k : ItemKind) (r : Z) : Z := if decide (kind_of c = k) then r else 0.

Lemma share_bounds : (2 <= n)%nat -> Z.of_nat n <= count_field c -> 1 <= share /\ share * Z.of_nat n <= count_field c.
Proof.
  intros Hn Hle. destruct Hok as [Hc _]. unfold share. destruct kind; [| |done].
  - rewrite place_left by lia. pose proof (Z.div_le_lower_bound (count_field c) (Z.of_nat n) 1 ltac:(lia) ltac:(lia)).
    pose proof (Z.mul_div_le (count_field c) (Z.of_nat n) ltac:(lia)). lia.
  - simpl. lia.
Qed.

Lemma distribute_one_ok w r i :
  menu_world w -> (i < length ss)%nat -> Z.of_nat n <= count_field c -> 1 <= share <= r -> r <= count_field c ->
  exists r' w', distribute_one self kind can_drag_to w r i = Ok (r', w') /\ r - share <= r' <= r /\
    menu_world w' /\ kinds w' = kinds w /\ (forall k, in_hand k r' + world_total k w' = in_hand k r + world_total k w).
Proof.
  intros Hw Hi Hn Hshare Hr. destruct (open_slot ss L p Hstatic self w i eq_refl Hw Hi) as (s & key & x & Es & Hs & HS & HL & Hkey & Hc & Hget & Hx & Hfit).
  unfold distribute_one. rewrite Es. cbn [obind]. rewrite Hget. cbn [obind]. destruct (_ && can_drag_to i) eqn:E.
  2:{ exists r, w. split_and!; (done || lia). }
  apply andb_true_iff in E as [E _]. do 2 apply andb_true_iff in E as [E _].
  pose proof (mw_ok _ _ _ _ Hw) as Hwok. destruct (storage_max L w x c Hwok HL Hc Hok Hne) as (m & Hm & Hmr). rewrite Hm. cbn [obind].
  pose proof Hok as [Hcc Hck]. destruct (Hck Hne) as [Hle [Hmax _]]. rewrite max_stack_kind, (Z.min_r _ m) by (done || lia).
  set (cur := if is_empty x then 0 else count_field x).
  (* the slot holds less than its limit, of the dragged kind *)
  assert (Hcur : 0 <= cur <= m /\ forall k, amount k x = in_hand k cur).
  { unfold cur. unfold can_item_quick_replace in E. destruct (is_empty x) eqn:Ex.
    - split; [lia|]. intros k. rewrite amount_empty by done. unfold in_hand. by case_decide.
    - destruct (is_same_item_same_components c x) eqn:Es'; [|done]. apply same_kind in Es'; [|done..].
      destruct Hfit as [?|(m' & Hm' & ?)]; [congruence|]. rewrite (storage_max_kind L w x c), Hm in Hm' by done. injection Hm' as <-.
      destruct Hx as [? _]. split; [lia|]. intros k. rewrite amount_full by done. unfold in_hand. by rewrite Es'. }
  destruct Hcur as [Hcur Hamt]. fold share.
  assert (i32 (share + cur) = share + cur) as -> by (apply wraps_id; [lia|]; unfold is_s; lia).
  set (new := Z.min (share + cur) m). assert (Hnew : 1 <= new /\ cur <= new <= m /\ new - cur <= share) by lia.
  assert (Hnewok : stack_ok (set_count c new)) by (apply set_count_ok; [done..|lia]).
  assert (Hnewfit : fits s L w (set_count c new)).
  { right. exists m. split; [|cbn [count_field set_count]; lia]. rewrite <- Hm. apply storage_max_kind; [|done..].
    apply empty_cases. apply empty_cases in Hne as [? _]. split; [done|]. cbn [count_field set_count]. lia. }
  destruct (storage_set L w x (set_count c new) Hwok HL Hc Hnewok Hnewfit) as (w' & Hset & Hwr).
  unfold set_by_player. rewrite Hset. cbn [obind].
  assert (i32 (new - cur) = new - cur) as -> by (apply wraps_id; [lia|]; unfold is_s; lia).
  assert (i32 (r - (new - cur)) = r - (new - cur)) as -> by (apply wraps_id; [lia|]; unfold is_s; lia).
  exists (r - (new - cur)), w'. split; [done|]. split; [lia|]. split; [by eapply menu_wrote|]. split; [by eapply wrote_kinds|].
  intros k. rewrite (wrote_total k _ _ _ _ _ Hc Hwr), Hamt, amount_set_count by (done || lia). unfold in_hand. case_decide; lia.
Qed.

Lemma distribute_ok dragged w r :
  menu_world w -> Forall (fun i => (i < length ss)%nat) dragged -> Z.of_nat n <= count_field c -> 1 <= share ->
  share * Z.of_nat (length dragged) <= r <= count_field c ->
  exists r' w', distribute self kind can_drag_to w r dragged = Ok (r', w') /\ 0 <= r' <= r /\
    menu_world w' /\ kinds w' = kinds w /\ (forall k, in_hand k r' + world_total k w' = in_hand k r + world_total k w).
Proof.
  revert w r. induction dragged as [|i dragged IH]; intros w r Hw Hin Hn Hsh Hr; cbn [distribute].
  { exists r, w. split_and!; (done || simpl in *; lia). }
  apply Forall_cons in Hin as [Hi Hin]. simpl in Hr.
  destruct (distribute_one_ok w r i Hw Hi Hn ltac:(nia) ltac:(lia)) as (r1 & w1 & -> & Hr1 & Hw1 & Hk1 & Ht1). cbn [obind].
  destruct (IH w1 r1 Hw1 Hin Hn Hsh ltac:(nia)) as (r2 & w2 & -> & Hr2 & Hw2 & Hk2 & Ht2).
  exists r2, w2. split_and!; try done; try lia; [congruence|]. intros k. by rewrite Ht2.
Qed.

(** With fewer items than slots nothing is placed. *)
Lemma distribute_few dragged w r :
  menu_world w -> Forall (fun i => (i < length ss)%nat) dragged -> count_field c < Z.of_nat n ->
  distribute self kind can_drag_to w r dragged = Ok (r, w).
Proof.
  intros Hw Hin Hn. induction dragged as [|i dragged IH]; cbn [distribute]; [done|]. apply Forall_cons in Hin as [Hi Hin].
  destruct (open_slot ss L p Hstatic self w i eq_refl Hw Hi) as (s & key & x & Es & Hs & HS & HL & Hkey & Hc & Hget & Hx & Hfit).
  unfold distribute_one at 1. rewrite Es. cbn [obind]. rewrite Hget. cbn [obind].
  rewrite (bool_decide_eq_false_2 (kind = DragClone)) by done. cbn [orb]. rewrite (proj2 (Z.leb_gt _ _)) by done.
  rewrite andb_false_r. cbn [andb obind]. by apply IH.
Qed.
End Drags.

(** What a menu remembers of a drag. *)
Definition drag_ok {items : Items} (self : MenuBehavior) : Prop :=
  quickcraft self <> Some DragClone /\ Forall (fun i => (i < length (slots self))%nat) (quickcraft_slots self).

Section DragPhases.
Context {items : Items} (self : MenuBehavior) (p : Player) (Hstatic : menu_static (slots self) (container_refs self) p).
Notation L := (container_refs self).
Notation ss := (slots self).
Notation menu_world := (menu_world ss L p).
Notation conserves := (conserves ss L p).

Lemma finish_quick_craft_ok w can_drag_to :
  menu_world w -> stack_ok (carried self) -> drag_ok self ->
  exists c' w', finish_quick_craft self w p can_drag_to = Ok (reset_quick_craft (with_carried c' self), w') /\
    conserves (carried self) w c' w'.
Proof.
  intros Hw Hok [Hq Hin].
  assert (Hstay : exists c' w', Ok (reset_quick_craft self, w) = Ok (E := exhausted) (reset_quick_craft (with_carried c' self), w') /\
    conserves (carried self) w c' w') by (exists (carried self), w; split; [by destruct self|by apply conserves_refl]).
  unfold finish_quick_craft. destruct (quickcraft self) as [kind|]; [|done].
  assert (Hkind : kind <> DragClone) by congruence.
  destruct (quickcraft_slots self) as [|i [|j rest]] eqn:Eq; [done| |].
  - apply Forall_cons in Hin as [Hi _].
    destruct kind; [| |done].
    + destruct (do_pickup_ok (reset_quick_craft self) p Hstatic w i Left Hw Hok Hi) as (c' & w' & -> & Hc). by exists c', w'.
    + destruct (do_pickup_ok (reset_quick_craft self) p Hstatic w i Right Hw Hok Hi) as (c' & w' & -> & Hc). by exists c', w'.
  - rewrite <- Eq in *. destruct (is_empty (carried self)) eqn:Ee; [done|].
    assert (Hlen : (2 <= length (quickcraft_slots self))%nat) by (rewrite Eq; simpl; lia).
    destruct (Z.le_gt_cases (Z.of_nat (length (quickcraft_slots self))) (count_field (carried self))) as [Hle|Hgt].
    + destruct (share_bounds self Hok kind Hkind Hlen Hle) as [Hs1 Hs2].
      destruct (distribute_ok self p Hstatic Hok Ee kind can_drag_to (quickcraft_slots self) w (count_field (carried self)))
        as (r & w' & -> & Hr & Hw' & Hk' & Ht'); try done; try lia.
      cbn [obind]. exists (set_count (carried self) r), w'. split; [done|]. split; [|done|done|].
      * pose proof (proj2 Hok Ee) as [? _]. apply set_count_ok; [done..|lia].
      * intros k. specialize (Ht' k). unfold in_hand in Ht'. rewrite amount_set_count, amount_full by (done || lia). done.
    + rewrite (distribute_few self p Hstatic kind Hkind) by done. cbn [obind].
      replace (set_count (carried self) (count_field (carried self))) with (carried self) by by destruct (carried self).
      exists (carried self), w. split; [by destruct self|by apply conserves_refl].
Qed.

(** A drag of a player without infinite materials. *)
Lemma do_quick_craft_ok w action can_drag_to :
  menu_world w -> stack_ok (carried self) -> drag_ok self ->
  match action with AddSlot i => (i < length ss)%nat | _ => True end ->
  exists q d c' w', do_quick_craft self w action false p can_drag_to = Ok (with_quickcraft q d (with_carried c' self), w') /\
    conserves (carried self) w c' w' /\ drag_ok (with_quickcraft q d (with_carried c' self)).
Proof.
  intros Hw Hok Hdrag Hi.
  assert (Hreset : exists q d c' w', Ok (reset_quick_craft self, w) = Ok (E := exhausted) (with_quickcraft q d (with_carried c' self), w') /\
    conserves (carried self) w c' w' /\ drag_ok (with_quickcraft q d (with_carried c' self))).
  { exists None, [], (carried self), w. split; [by destruct self|]. split; [by apply conserves_refl|done]. }
  unfold do_quick_craft. destruct (negb _) eqn:Ev; [done|]. destruct (is_empty (carried self)) eqn:Ee; [done|]. destruct action as [kind|i|].
  - destruct (bool_decide (kind = DragClone)) eqn:Ek; [done|]. cbn [andb]. apply bool_decide_eq_false in Ek.
    exists (Some kind), [], (carried self), w. split; [by destruct self|]. split; [by apply conserves_refl|]. split; [|done].
    simpl. congruence.
  - destruct (open_slot ss L p Hstatic self w i eq_refl Hw Hi) as (s & key & x & Es & Hs & HS & HL & Hkey & Hc & Hget & Hx & Hfit).
    unfold add_drag_slot. rewrite Es. cbn [obind]. rewrite Hget. cbn [obind]. destruct Hdrag as [Hq Hin].
    destruct (_ && negb _); cbn [obind].
    + exists (quickcraft self), (quickcraft_slots self ++ [i]), (carried self), w. split; [by destruct self|].
      split; [by apply conserves_refl|]. split; [done|]. apply Forall_app. by split; [|constructor].
    + exists (quickcraft self), (quickcraft_slots self), (carried self), w. split; [by destruct self|].
      split; [by apply conserves_refl|done].
  - destruct (finish_quick_craft_ok w can_drag_to Hw Hok Hdrag) as (c' & w' & -> & Hcons).
    exists None, [], c', w'. split; [done|]. split; [done|]. done.
Qed.
End DragPhases.

(** ** Quick moves *)

Section Moves.
Context {items : Items} (self : MenuBehavior) (p : Player) (Hstatic : menu_static (slots self) (container_refs self) p).
Notation L := (container_refs self).
Notation ss := (slots self).
Notation menu_world := (menu_world ss L p).
Context (source_slot : nat) (source_key : Key) (clicked : ItemStack) (Hok : stack_ok clicked) (Hfull : is_empty clicked = false).
Context (w0 : World).

(** While [n] of the clicked items are on their way, the source still shows
    all of them. *)
Record moving (n : Z) (st : ItemStack * World * bool) : Prop := {
  moving_stack : st.1.1 = set_count clicked n;
  moving_range : 0 <= n <= count_field clicked;
  moving_world : menu_world st.1.2;
  moving_kinds : kinds st.1.2 = kinds w0;
  moving_source : cell (view st.1.2) source_key = Some clicked;
  moving_total k : amount k (set_count clicked n) + world_total k st.1.2 = amount k clicked + world_total k w0;
  moving_changed : st.2 = false -> n = count_field clicked
}.

Lemma clicked_facts n : 0 <= n <= count_field clicked ->
  1 <= count_field clicked <= kind_max (kind_of clicked) /\ kind_max (kind_of clicked) <= 99 /\
  stack_ok (set_count clicked n) /\ (n <> 0 -> is_empty (set_count clicked n) = false) /\ (n = 0 -> is_empty (set_count clicked n) = true).
Proof.
  intros Hn. pose proof Hok as [Hc Hk]. destruct (Hk Hfull) as [Hle [Hmax _]]. apply empty_cases in Hfull as [Hi Hp].
  split_and!; try lia.
  - apply set_count_ok; [done|by apply empty_cases|lia].
  - intros Hnz. apply empty_cases. cbn [count_field set_count]. split; [done|lia].
  - intros ->. unfold is_empty. cbn [count_field set_count]. by rewrite orb_true_r.
Qed.

(** A write to a slot other than the source. *)
Lemma moving_wrote n n' st changed s key old new w' w'' :
  moving n st -> 0 <= n' <= count_field clicked -> s ∈ ss -> physical_key s = Some key -> key <> source_key ->
  cell (view st.1.2) key = Some old -> stack_ok new -> fits s L st.1.2 new -> wrote key new st.1.2 w' -> same_world w' w'' ->
  (forall k, amount k new + amount k (set_count clicked n') = amount k old + amount k (set_count clicked n)) ->
  changed = true -> moving n' (set_count clicked n', w'', changed).
Proof.
  intros [A B C D E F G] Hn Hs Hkey Hne Hc Hnew Hf Hw Hsame Hk ->.
  pose proof (menu_wrote _ _ _ Hstatic _ _ _ _ _ C Hs Hkey Hw Hnew Hf) as Hw'. split; cbn [fst snd]; try done.
  - by eapply menu_same.
  - rewrite (same_kinds _ _ Hsame), (wrote_kinds _ _ _ _ Hw). done.
  - rewrite (proj1 Hsame), (proj1 Hw), cell_updated_ne by done. done.
  - intros k. rewrite <- Hsame, (wrote_total k _ _ _ _ _ Hc Hw), <- F. specialize (Hk k). lia.
Qed.

Lemma stack_onto_ok n st s key :
  moving n st -> n <> 0 -> s ∈ ss -> StorageSlot s key -> key.1 ∈ L -> key <> source_key ->
  exists n' st', stack_onto L s st = Ok st' /\ moving n' st'.
Proof.
  intros Hm Hn Hs HS HL Hne. pose proof Hm as [A B C D E F G]. destruct st as [[item_stack w] changed]. cbn [fst snd] in *. subst item_stack.
  destruct (clicked_facts n B) as (Hcl & Hmx & Hsok & Hse & _). specialize (Hse Hn).
  pose proof (mw_ok _ _ _ _ C) as Hwok. destruct (mw_cells _ _ _ _ C s key Hs storage_key) as [old Hc].
  pose proof (cell_ok _ _ _ Hwok Hc) as Hold. pose proof (mw_within _ _ _ _ C s key old Hs storage_key Hc) as Hfit.
  unfold stack_onto. rewrite (storage_get L w old Hwok HL Hc). cbn [obind]. destruct (negb (is_empty old) && _) eqn:Es; [|by eauto].
  apply andb_true_iff in Es as [Eo%negb_true_iff Es]. apply same_kind in Es; [|done..].
  assert (Hk : kind_of old = kind_of clicked) by (by rewrite <- Es).
  destruct (storage_max L w old old Hwok HL Hc Hold Eo) as (m & Hmo & Hmr).
  destruct Hfit as [?|(m' & Hm' & Hle)]; [congruence|]. rewrite Hmo in Hm'. injection Hm' as <-. rewrite Hmo.
  pose proof (proj1 (empty_cases _) Eo) as [_ Hpos]. cbn [count_field set_count].
  assert (i32 (count_field old + n) = count_field old + n) as -> by (apply wraps_id; [lia|]; unfold is_s; rewrite Hk in *; lia).
  assert (Hput : forall t, count_field old <= t <= m -> t <= count_field old + n ->
    exists w' w'', slot_put s L w (set_count old t) = Ok w' /\ slot_changed s L w' = Ok w'' /\
      moving (count_field old + n - t) (set_count clicked (count_field old + n - t), w'', true)).
  { intros t Ht Htn. destruct (storage_put L w old (set_count old t) Hwok HL Hc) as (w' & Hp & Hwr).
    assert (Hnok : stack_ok (set_count old t)) by (apply set_count_ok; [done..|lia]).
    pose proof (wrote_ok _ _ _ _ Hwok Hnok Hwr) as Hw'. pose proof (wrote_cell key w w' _ old Hc Hwr) as Hc'.
    destruct (storage_changed L w' _ Hw' HL Hc') as (w'' & Hch & Hsame). exists w', w''. split; [done|]. split; [done|].
    eapply (moving_wrote n _ (set_count clicked n, w, changed) true s key old (set_count old t)); try done; try lia; [apply storage_key| |].
    - right. exists m. split; [|cbn [count_field set_count]; lia]. rewrite <- Hmo. apply storage_max_kind; [|done..].
      apply empty_cases. apply empty_cases in Eo as [? _]. split; [done|]. cbn [count_field set_count]. lia.
    - intros k. rewrite !amount_set_count, (amount_full k old), Hk by (done || lia). case_decide; lia. }
  cbn [obind]. destruct (Z.leb_spec (count_field old + n) m).
  - destruct (Hput (count_field old + n) ltac:(lia) ltac:(lia)) as (w' & w'' & -> & Hch & Hmv). cbn [obind]. rewrite Hch. cbn [obind].
    rewrite Z.sub_diag in Hmv. by exists 0, (set_count clicked 0, w'', true).
  - destruct (Z.ltb_spec (count_field old) m); [|by eauto].
    assert (i32 (m - count_field old) = m - count_field old) as -> by (apply wraps_id; [lia|]; unfold is_s; rewrite Hk in *; lia).
    rewrite shrink_exact by (done || cbn [count_field set_count]; lia).
    destruct (Hput m ltac:(lia) ltac:(lia)) as (w' & w'' & -> & Hch & Hmv). cbn [obind]. rewrite Hch. cbn [obind].
    eexists _, _. split; [done|]. cbn [count_field set_count]. replace (n - (m - count_field old)) with (count_field old + n - m) by lia. done.
Qed.

(** Slots the walk visits. *)
Definition in_range (dests : list nat) : Prop := Forall (fun i => (i < length ss)%nat) dests.

Lemma visit dest w : menu_world w -> (dest < length ss)%nat ->
  exists s key, slot_at self dest = Ok s /\ s ∈ ss /\ StorageSlot s key /\ key.1 ∈ L /\
    (skips source_slot (Some source_key) dest s = false -> key <> source_key).
Proof.
  intros Hw Hd. destruct (open_slot ss L p Hstatic self w dest eq_refl Hw Hd) as (s & key & old & Es & Hs & HS & HL & Hkey & _).
  exists s, key. split_and!; try done. unfold skips. rewrite Hkey. intros [_ H]%orb_false_iff. apply bool_decide_eq_false in H. congruence.
Qed.

Lemma stack_pass_ok dests : in_range dests -> forall n st, moving n st ->
  exists n' st', stack_pass self L source_slot (Some source_key) st dests = Ok st' /\ moving n' st'.
Proof.
  induction 1 as [|dest dests Hd _ IH]; intros n st Hm; cbn [stack_pass]; [by eauto|].
  destruct (is_empty st.1.1) eqn:E; [by eauto|]. rewrite (moving_stack _ _ Hm) in E.
  assert (n <> 0). { intros ->. destruct (clicked_facts 0 (moving_range _ _ Hm)) as (_ & _ & _ & _ & H0). rewrite H0 in E; done. }
  destruct (visit dest st.1.2 (moving_world _ _ Hm) Hd) as (s & key & -> & Hs & HS & HL & Hskip). cbn [obind].
  destruct (skips _ _ dest s) eqn:Ek; cbn [obind]; [by eapply IH|].
  destruct (stack_onto_ok n st s key Hm ltac:(done) Hs HS HL (Hskip eq_refl)) as (n' & st' & -> & Hm'). cbn [obind]. by eapply IH.
Qed.

Lemma place_one_ok n st s key old :
  moving n st -> n <> 0 -> s ∈ ss -> StorageSlot s key -> key.1 ∈ L -> key <> source_key -> cell (view st.1.2) key = Some old -> is_empty old = true ->
  exists m w' w'' n', max_size_for_item s L st.1.2 (set_count clicked n) = Ok m /\
    set_by_player s L st.1.2 (split (set_count clicked n) (Z.min n m)).1 = Ok w' /\ slot_changed s L w' = Ok w'' /\
    (split (set_count clicked n) (Z.min n m)).2 = set_count clicked n' /\ moving n' (set_count clicked n', w'', true).
Proof.
  intros Hm Hn Hs HS HL Hne Hc Eo.
  pose proof Hm as [A B C D E F G]. pose proof (mw_ok _ _ _ _ C) as Hwok.
  destruct (clicked_facts n B) as (Hcl & Hmx & Hsok & Hse & _). specialize (Hse Hn).
  destruct (storage_max L _ old (set_count clicked n) Hwok HL Hc Hsok Hse) as (m & Hmo & Hmr).
  exists m. rewrite split_exact by (done || lia). cbn [fst snd count_field set_count].
  change (kind_of (set_count clicked n)) with (kind_of clicked) in Hmr.
  set (t := Z.min (Z.min n m) n). assert (Ht : 1 <= t <= n /\ t <= m) by lia.
  change (set_count (set_count clicked n) t) with (set_count clicked t).
  change (set_count (set_count clicked n) (n - t)) with (set_count clicked (n - t)).
  destruct (clicked_facts t ltac:(lia)) as (_ & _ & Htok & Hte & _). specialize (Hte ltac:(lia)).
  assert (Hf : fits s L st.1.2 (set_count clicked t)).
  { right. exists m. split; [|cbn [count_field set_count]; lia]. rewrite <- Hmo. by apply storage_max_kind. }
  destruct (storage_set L _ old (set_count clicked t) Hwok HL Hc Htok Hf) as (w' & Hset & Hwr).
  pose proof (wrote_ok _ _ _ _ Hwok Htok Hwr) as Hw'. pose proof (wrote_cell key _ w' _ old Hc Hwr) as Hc'.
  destruct (storage_changed L w' _ Hw' HL Hc') as (w'' & Hch & Hsame). exists w', w'', (n - t). split_and!; try done.
  eapply (moving_wrote n _ st true s key old (set_count clicked t)); try done; try lia; [apply storage_key|].
  intros k. rewrite !amount_set_count, (amount_empty k old) by (done || lia). case_decide; lia.
Qed.

Lemma place_pass_ok dests : in_range dests -> forall n st, moving n st -> n <> 0 ->
  exists n' st', place_pass self L source_slot (Some source_key) st dests = Ok st' /\ moving n' st'.
Proof.
  induction 1 as [|dest dests Hd _ IH]; intros n [[item_stack w] changed] Hm Hn; cbn [place_pass]; [by eauto|].
  destruct (visit dest w (moving_world _ _ Hm) Hd) as (s & key & -> & Hs & HS & HL & Hskip). cbn [obind].
  destruct (skips _ _ dest s) eqn:Ek; cbn [obind]; [by eapply IH|].
  pose proof (moving_world _ _ Hm) as Hw. cbn [fst snd] in Hw. destruct (mw_cells _ _ _ _ Hw s key Hs storage_key) as [old Hc].
  rewrite (storage_get L w old (mw_ok _ _ _ _ Hw) HL Hc). cbn [obind]. destruct (is_empty old && _) eqn:Eo; [|by eapply IH].
  apply andb_true_iff in Eo as [Eo _]. pose proof (moving_stack _ _ Hm) as Hst. cbn [fst snd] in Hst. subst item_stack.
  destruct (place_one_ok n _ s key old Hm Hn Hs HS HL (Hskip eq_refl) Hc Eo) as (m & w' & w'' & n' & Hmax & Hset & Hch & Hrest & Hm').
  cbn [fst snd] in *. rewrite Hmax. cbn [obind count_field set_count]. destruct (split _ _) as [placed rest]. cbn [fst snd] in *.
  rewrite Hset. cbn [obind]. rewrite Hch. cbn [obind]. rewrite Hrest. by eauto.
Qed.

Lemma dest_slots_range direction start_slot end_slot : (end_slot <= length ss)%nat -> in_range (dest_slots direction start_slot end_slot).
Proof.
  intros He. apply Forall_forall. intros i Hi. unfold dest_slots in Hi.
  assert (Hs : i ∈ seq start_slot (end_slot - start_slot)) by (destruct direction; [done|by rewrite <- Permutation_rev in Hi]).
  apply elem_of_seq in Hs. lia.
Qed.

Lemma move_item_stack_to_ok n w start_slot end_slot direction s0 :
  moving n (set_count clicked n, w, false) -> slot_at self source_slot = Ok s0 -> physical_key s0 = Some source_key ->
  (end_slot <= length ss)%nat ->
  exists n' w' changed, move_item_stack_to self L w source_slot (set_count clicked n) start_slot end_slot direction =
      Ok (changed, set_count clicked n', w') /\ moving n' (set_count clicked n', w', changed).
Proof.
  intros Hm Hs0 Hk0 He. unfold move_item_stack_to. destruct (end_slot <=? start_slot)%nat; [by eauto 10|].
  rewrite Hs0. cbn [obind]. rewrite Hk0. pose proof (dest_slots_range direction start_slot end_slot He) as Hr.
  destruct (clicked_facts n (moving_range _ _ Hm)) as (_ & _ & Hsok & Hse & _).
  assert (Hn : n <> 0). { pose proof (moving_changed _ _ Hm eq_refl) as ->. apply empty_cases in Hfull. lia. }
  destruct (is_stackable_total (E := exhausted) (set_count clicked n) Hsok (Hse Hn)) as [b ->]. cbn [obind].
  assert (H1 : exists n1 st1, (if b then stack_pass self L source_slot (Some source_key) (set_count clicked n, w, false) (dest_slots direction start_slot end_slot)
    else Ok (set_count clicked n, w, false)) = Ok st1 /\ moving n1 st1) by (destruct b; [by apply (stack_pass_ok _ Hr n)|by eauto]).
  destruct H1 as (n1 & [[i1 w1] ch1] & -> & Hm1). cbn [obind]. pose proof (moving_stack _ _ Hm1) as Hi1. cbn [fst snd] in Hi1. subst i1.
  destruct (is_empty (set_count clicked n1)) eqn:E1; cbn [negb obind]; [by eauto 10|].
  assert (n1 <> 0). { intros ->. destruct (clicked_facts 0 (moving_range _ _ Hm1)) as (_ & _ & _ & _ & H0). rewrite H0 in E1; done. }
  destruct (place_pass_ok _ Hr n1 _ Hm1 ltac:(done)) as (n2 & [[i2 w2] ch2] & -> & Hm2). cbn [obind].
  pose proof (moving_stack _ _ Hm2) as Hi2. cbn [fst snd] in Hi2. subst i2. by eauto 10.
Qed.

(** The source keeps what did not move. *)
Lemma update_quick_move_source_ok n w changed s0 :
  moving n (set_count clicked n, w, changed) -> slot_at self source_slot = Ok s0 -> s0 ∈ ss -> StorageSlot s0 source_key -> source_key.1 ∈ L ->
  exists w', update_quick_move_source self L w source_slot (set_count clicked n) = Ok w' /\ menu_world w' /\ kinds w' = kinds w0 /\
    (forall k, world_total k w' = world_total k w0) /\ (exists rest, cell (view w') source_key = Some rest /\ count rest = n).
Proof.
  intros Hm Hs0 Hin HS HL. pose proof Hm as [A B C D E F G]. cbn [fst snd] in *. pose proof (mw_ok _ _ _ _ C) as Hwok.
  destruct (clicked_facts n B) as (Hcl & _ & Hsok & Hse & Hsn). pose proof (mw_within _ _ _ _ C s0 source_key _ Hin storage_key E) as Hfit.
  unfold update_quick_move_source. rewrite Hs0. cbn [obind].
  assert (Hdone : forall st w', wrote source_key st w w' -> stack_ok st -> fits s0 L w st -> (forall k, amount k st = amount k (set_count clicked n)) ->
    menu_world w' /\ kinds w' = kinds w0 /\ (forall k, world_total k w' = world_total k w0)).
  { intros st w' Hwr Hst Hf Hk. split; [by eapply menu_wrote; [done|done|done|apply storage_key|..]|]. split; [by rewrite (wrote_kinds _ _ _ _ Hwr)|].
    intros k. rewrite (wrote_total k _ _ _ _ _ E Hwr), Hk. specialize (F k). lia. }
  destruct (is_empty (set_count clicked n)) eqn:En.
  - assert (n = 0). { destruct (decide (n = 0)) as [|Hn]; [done|]. specialize (Hse Hn). congruence. } subst n.
    destruct (storage_set L w clicked empty_stack Hwok HL E empty_ok ltac:(by left)) as (w' & Hset & Hwr). unfold set_by_player. rewrite Hset.
    exists w'. split; [done|]. destruct (Hdone empty_stack w' Hwr empty_ok ltac:(by left)) as (? & ? & ?).
    { intros k. by rewrite !amount_empty. }
    split_and!; try done. exists empty_stack. split; [by eapply wrote_cell|done].
  - assert (Hn : n <> 0) by (intros Hz; specialize (Hsn Hz); congruence). rewrite storage_fake. cbn [negb].
    destruct (storage_put L w clicked (set_count clicked n) Hwok HL E) as (w1 & -> & Hwr). cbn [obind].
    assert (Hf : fits s0 L w (set_count clicked n)) by (apply (fits_fewer s0 source_key L w clicked n); (done || lia)).
    destruct (Hdone _ w1 Hwr Hsok Hf ltac:(done)) as (Hw1 & Hk1 & Ht1). pose proof (wrote_cell source_key w w1 _ clicked E Hwr) as Hc1.
    destruct (storage_changed L w1 _ (mw_ok _ _ _ _ Hw1) HL Hc1) as (w' & -> & Hsame). exists w'. split; [done|].
    split; [by eapply menu_same|]. split; [by rewrite (same_kinds _ _ Hsame)|]. split; [intros k; by rewrite <- Hsame|].
    exists (set_count clicked n). split; [by rewrite (proj1 Hsame)|]. unfold count. by rewrite En.
Qed.
End Moves.
