(* ===== verification/Menu.v ===== *)
(** * Menus

    Models [steel-core/src/inventory/menu/mod.rs], [menu/layout.rs] and
    [menu/kind.rs]: a menu is its behavior, its shift-click routes and drained
    sections, and a kind whose hooks run around the clicks.  A [dyn MenuKind]
    is the record of its methods over its own state; [ConservingKind] states
    what the shared machinery needs of it, and [BasicKind], with the trait's
    default methods, provides it.

    A click is run with fuel for its two loops; the theorems show that a
    hundred rounds are enough for menus of storage slots. *)

From Stdlib Require Import Lia ZArith String.
From stdpp Require Import prelude list gmap.
From S2P Require Import Prelude Sums Identifier ItemStack Containers Slots Click MenuBehavior.

(** ** State *)

Inductive FakeResultRemainderPolicy := DropRemainder | DiscardRemainder.

#[export] Instance FakeResultRemainderPolicy_eq_dec : EqDecision FakeResultRemainderPolicy.
Proof. solve_decision. Defined.

(** Ranges are pairs of a start and an exclusive end. *)
Record Route := mk_route {
  route_from : nat * nat;
  route_targets : list (nat * nat);
  route_direction : FillDirection;
  fake_result_remainder : FakeResultRemainderPolicy
}.

Record MenuLayout := mk_layout { routes : list Route; drain_sections : list (nat * nat) }.

(** The hooks over the kind's state [K]; [None] of [kind_quick_move] falls
    back to the routes. *)
Record MenuKind (K : Type) := mk_kind {
  kind_slots_changed : K -> MenuBehavior -> World -> Player -> total (K * MenuBehavior * World);
  kind_removed : K -> MenuBehavior -> World -> Player -> total (K * MenuBehavior * World);
  kind_on_slot_clicked : K -> MenuBehavior -> World -> Click -> Player -> total (ClickOutcome * K * MenuBehavior * World);
  kind_on_drag : K -> MenuBehavior -> World -> QuickCraft -> Player -> total (ClickOutcome * K * MenuBehavior * World);
  kind_can_drag_to : K -> nat -> bool;
  kind_can_take_item_for_pick_all : K -> ItemStack -> nat -> bool;
  kind_quick_move : K -> MenuBehavior -> World -> nat -> Player -> total (option ItemStack * K * MenuBehavior * World);
  kind_on_rename : K -> MenuBehavior -> World -> string -> Player -> total (K * MenuBehavior * World);
  kind_click_menu_button : K -> MenuBehavior -> World -> Z -> Player -> total (bool * K * MenuBehavior * World);
  kind_on_open : K -> MenuBehavior -> World -> Player -> total (K * MenuBehavior * World);
  kind_on_tick : K -> MenuBehavior -> World -> Player -> total (K * MenuBehavior * World);
  kind_still_valid : K -> MenuBehavior -> World -> Player -> bool;
  kind_on_update_effects : K -> MenuBehavior -> World -> option Z -> option Z -> total (bool * K * MenuBehavior * World)
}.
Arguments kind_slots_changed {K}.
Arguments kind_removed {K}.
Arguments kind_on_slot_clicked {K}.
Arguments kind_on_drag {K}.
Arguments kind_can_drag_to {K}.
Arguments kind_can_take_item_for_pick_all {K}.
Arguments kind_quick_move {K}.
Arguments kind_on_rename {K}.
Arguments kind_click_menu_button {K}.
Arguments kind_on_open {K}.
Arguments kind_on_tick {K}.
Arguments kind_still_valid {K}.
Arguments kind_on_update_effects {K}.

(** The trait's provided methods. *)
Definition BasicKind : MenuKind unit := {|
  kind_slots_changed := fun k b w _ => Ok (k, b, w);
  kind_removed := fun k b w _ => Ok (k, b, w);
  kind_on_slot_clicked := fun k b w _ _ => Ok (Fallthrough, k, b, w);
  kind_on_drag := fun k b w _ _ => Ok (Fallthrough, k, b, w);
  kind_can_drag_to := fun _ _ => true;
  kind_can_take_item_for_pick_all := fun _ _ _ => true;
  kind_quick_move := fun k b w _ _ => Ok (None, k, b, w);
  kind_on_rename := fun k b w _ _ => Ok (k, b, w);
  kind_click_menu_button := fun k b w _ _ => Ok (false, k, b, w);
  kind_on_open := fun k b w _ => Ok (k, b, w);
  kind_on_tick := fun k b w _ => Ok (k, b, w);
  kind_still_valid := fun _ _ _ _ => true;
  kind_on_update_effects := fun k b w _ _ => Ok (true, k, b, w)
|}.

Record Menu (K : Type) := mk_menu { behavior : MenuBehavior; layout : MenuLayout; kind : K }.
Arguments mk_menu {K}.
Arguments behavior {K}.
Arguments layout {K}.
Arguments kind {K}.

Section Menus.
Context {items : Items}.

(** ** Shift-clicks by the route table *)

Definition range_contains (r : nat * nat) (i : nat) : bool := (r.1 <=? i)%nat && (i <? r.2)%nat.

(** [any] over the targets: stops at the first that takes something. *)
Fixpoint route_any (b : MenuBehavior) (w : World) (slot_index : nat) (direction : FillDirection) (remaining : ItemStack)
    (targets : list (nat * nat)) : total (bool * ItemStack * World) :=
  match targets with
  | [] => Ok (false, remaining, w)
  | target :: targets =>
      let? '(moved, remaining, w) := move_item_stack_to b (container_refs b) w slot_index remaining target.1 target.2 direction in
      if moved : bool then Ok (true, remaining, w) else route_any b w slot_index direction remaining targets
  end.

Definition quick_move (self : MenuLayout) (b : MenuBehavior) (w : World) (slot_index : nat) (p : Player) : total (ItemStack * World) :=
  let L := container_refs b in
  match List.find (fun r => range_contains (route_from r) slot_index) (routes self) with
  | None => Ok (empty_stack, w)
  | Some route =>
      let? slot := slot_at b slot_index in
      let? clicked := slot_get slot L w in
      if is_empty clicked then Ok (empty_stack, w)
      else
        let? pickup := may_pickup slot L w p in
        if negb pickup then Ok (empty_stack, w)
        else
          let? '(moved, remaining, w) := route_any b w slot_index (route_direction route) clicked (route_targets route) in
          if negb moved then Ok (empty_stack, w)
          else
            let? w := update_quick_move_source b L w slot_index remaining in
            if count_field remaining =? count_field clicked then Ok (empty_stack, w)
            else
              let? w := take_callback slot L w remaining p in
              let w := if is_fake slot && negb (is_empty remaining) && bool_decide (fake_result_remainder route = DropRemainder)
                       then drop_item w remaining else w in
              Ok (clicked, w)
  end.

(** ** Closing *)

(** One slot of a drained section. *)
Definition drain_slot (b : MenuBehavior) (L : Locks) (w : World) (p : Player) (return_to_inventory : bool) (slot_index : nat) : total World :=
  let? slot := slot_at b slot_index in
  let? i := slot_get slot L w in
  let? w := slot_put slot L w empty_stack in
  if is_empty i then Ok w
  else
    let? w := slot_changed slot L w in
    if return_to_inventory then add_item_or_drop L w p i else Ok (drop_item w i).

Fixpoint drain_slots (b : MenuBehavior) (L : Locks) (w : World) (p : Player) (return_to_inventory : bool) (indices : list nat) : total World :=
  match indices with
  | [] => Ok w
  | i :: indices => let? w := drain_slot b L w p return_to_inventory i in drain_slots b L w p return_to_inventory indices
  end.

Definition range_indices (r : nat * nat) : list nat := seq r.1 (r.2 - r.1).

Definition return_drained_items (self : MenuLayout) (b : MenuBehavior) (w : World) (p : Player) (return_to_inventory : bool) : total World :=
  match drain_sections self with
  | [] => Ok w
  | sections =>
      let L := if return_to_inventory then container_refs b ∪ {[player_inventory p]} else container_refs b in
      drain_slots b L w p return_to_inventory (concat (range_indices <$> sections))
  end.

Section Kind.
Context {K : Type} (hooks : MenuKind K).

Definition with_behavior (b : MenuBehavior) (m : Menu K) : Menu K := mk_menu b (layout m) (kind m).

Definition still_valid (m : Menu K) (w : World) (p : Player) : bool := kind_still_valid hooks (kind m) (behavior m) w p.

Definition set_item_name (m : Menu K) (w : World) (name : string) (p : Player) : total (Menu K * World) :=
  let? '(k, b, w) := kind_on_rename hooks (kind m) (behavior m) w name p in Ok (mk_menu b (layout m) k, w).

Definition click_menu_button (m : Menu K) (w : World) (button_id : Z) (p : Player) : total (bool * Menu K * World) :=
  let? '(handled, k, b, w) := kind_click_menu_button hooks (kind m) (behavior m) w button_id p in Ok (handled, mk_menu b (layout m) k, w).

Definition on_open (m : Menu K) (w : World) (p : Player) : total (Menu K * World) :=
  let? '(k, b, w) := kind_on_open hooks (kind m) (behavior m) w p in Ok (mk_menu b (layout m) k, w).

Definition on_tick (m : Menu K) (w : World) (p : Player) : total (Menu K * World) :=
  let? '(k, b, w) := kind_on_tick hooks (kind m) (behavior m) w p in Ok (mk_menu b (layout m) k, w).

Definition removed (m : Menu K) (w : World) (p : Player) : total (Menu K * World) :=
  let return_to_inventory := returns_menu_items_to_inventory p in
  let held := carried (behavior m) in
  let b := with_carried empty_stack (behavior m) in
  let? w := if is_empty held then Ok w
            else if return_to_inventory then add_item_or_drop {[player_inventory p]} w p held
            else Ok (drop_item w held) in
  let? w := return_drained_items (layout m) b w p return_to_inventory in
  let? '(k, b, w) := kind_removed hooks (kind m) b w p in
  Ok (mk_menu b (layout m) k, w).

(** ** Clicks that need the whole menu *)

Definition quick_move_stack (m : Menu K) (w : World) (slot_index : nat) (p : Player) : total (ItemStack * Menu K * World) :=
  let? '(result, k, b, w) := kind_quick_move hooks (kind m) (behavior m) w slot_index p in
  let m := mk_menu b (layout m) k in
  match result with
  | Some result => Ok (result, m, w)
  | None => let? '(result, w) := quick_move (layout m) (behavior m) w slot_index p in Ok (result, m, w)
  end.

(** The [while] loop of [do_quick_move]. *)
Fixpoint quick_move_loop (fuel : nat) (m : Menu K) (w : World) (slot_index : nat) (p : Player) (result : ItemStack) : total (Menu K * World) :=
  match fuel with
  | O => Err OutOfFuel
  | S fuel =>
      if is_empty result then Ok (m, w)
      else
        let? slot := slot_at (behavior m) slot_index in
        let? current_item := slot_get slot (container_refs (behavior m)) w in
        if negb (is_same_item current_item result) then Ok (m, w)
        else
          let? '(result, m, w) := quick_move_stack m w slot_index p in
          quick_move_loop fuel m w slot_index p result
  end.

Definition do_quick_move (fuel : nat) (m : Menu K) (w : World) (slot_index : nat) (p : Player) : total (Menu K * World) :=
  let L := container_refs (behavior m) in
  let? slot := slot_at (behavior m) slot_index in
  let? pickup := may_pickup slot L w p in
  if negb pickup then Ok (m, w)
  else
    let? initial_item := slot_get slot L w in
    if is_empty initial_item then Ok (m, w)
    else
      let? '(result, m, w) := quick_move_stack m w slot_index p in
      quick_move_loop fuel m w slot_index p result.

(** [inv.get_item_mut(slot).split(amount)] *)
Definition guard_split (L : Locks) (w : World) (id : ContainerId) (slot : nat) (amount : Z) : total (ItemStack * World) :=
  let? c := locked L w id in
  let? s := item_at c slot in
  let '(taken, rest) := split s amount in
  let? c := put_item c slot rest in
  Ok (taken, store_container id c w).

(** The displaced item goes to the inventory, and to the world when it does
    not fit. *)
Definition give_displaced (L : Locks) (w : World) (p : Player) (displaced : ItemStack) : total World :=
  let? inv := locked L w (player_inventory p) in
  let? '(added, displaced, inv) := player_add inv (selected_slot inv) displaced in
  let w := store_container (player_inventory p) inv w in
  Ok (if negb added && negb (has_infinite_materials p) then drop_item w displaced else w).

Definition do_swap (m : Menu K) (w : World) (slot_index : nat) (with_ : SwapTarget) (p : Player) : total World :=
  let id := player_inventory p in
  let L := container_refs (behavior m) ∪ {[id]} in
  let inventory_slot := inventory_slot with_ in
  let? target_slot := slot_at (behavior m) slot_index in
  let? target_item := slot_get target_slot L w in
  let? inventory := locked L w id in
  let? source_item := get_item inventory inventory_slot in
  if is_empty source_item && is_empty target_item then Ok w
  else if is_empty source_item then
    let? pickup := may_pickup target_slot L w p in
    if pickup then
      let? w := guard_set_item L w id inventory_slot target_item in
      let? w := set_by_player target_slot L w empty_stack in
      take_callback target_slot L w target_item p
    else Ok w
  else if is_empty target_item then
    if may_place target_slot source_item then
      let? max_size := max_size_for_item target_slot L w source_item in
      if max_size <? count_field source_item then
        let? '(to_place, w) := guard_split L w id inventory_slot max_size in
        set_by_player target_slot L w to_place
      else
        let? w := guard_set_item L w id inventory_slot empty_stack in
        set_by_player target_slot L w source_item
    else Ok w
  else
    let? pickup := may_pickup target_slot L w p in
    if pickup && may_place target_slot source_item then
      let? max_size := max_size_for_item target_slot L w source_item in
      if max_size <? count_field source_item then
        let? '(to_place, w) := guard_split L w id inventory_slot max_size in
        let? w := set_by_player target_slot L w to_place in
        let? w := take_callback target_slot L w target_item p in
        give_displaced L w p target_item
      else
        let? w := guard_set_item L w id inventory_slot target_item in
        let? w := set_by_player target_slot L w source_item in
        take_callback target_slot L w target_item p
    else Ok w.

(** One slot of a pickup-all pass; [second] is the pass that takes full stacks. *)
Definition pickup_from (m : Menu K) (w : World) (carried_item : ItemStack) (max_stack : Z) (second : bool) (p : Player) (i : nat) :
    total (Menu K * World) :=
  let b := behavior m in
  let L := container_refs b in
  let? target_slot := slot_at b i in
  let? target_item := slot_get target_slot L w in
  if negb (is_empty target_item) && can_item_quick_replace target_item carried_item true then
    let? pickup := may_pickup target_slot L w p in
    if pickup && kind_can_take_item_for_pick_all hooks (kind m) carried_item i
       && (second || negb (count_field target_item =? max_stack_size target_item)) then
      let can_take := i32 (max_stack - count_field (carried b)) in
      let to_take := Z.min (count_field target_item) can_take in
      let? '(taken, w) := safe_take target_slot L w to_take can_take p in
      Ok (with_behavior (with_carried (grow (carried b) (Z.min (count_field taken) can_take)) b) m, w)
    else Ok (m, w)
  else Ok (m, w).

Fixpoint pickup_pass (m : Menu K) (w : World) (carried_item : ItemStack) (max_stack : Z) (second : bool) (p : Player) (indices : list nat) :
    total (Menu K * World) :=
  match indices with
  | [] => Ok (m, w)
  | i :: indices =>
      if count_field (carried (behavior m)) <? max_stack then
        let? '(m, w) := pickup_from m w carried_item max_stack second p i in
        pickup_pass m w carried_item max_stack second p indices
      else Ok (m, w)
  end.

Definition do_pickup_all (m : Menu K) (w : World) (slot_index : nat) (direction : FillDirection) (p : Player) : total (Menu K * World) :=
  let b := behavior m in
  let L := container_refs b in
  let? slot := slot_at b slot_index in
  let? i := slot_get slot L w in
  let? slot_may_pickup := may_pickup slot L w p in
  if is_empty (carried b) || (negb (is_empty i) && slot_may_pickup) then Ok (m, w)
  else
    let max_stack := max_stack_size (carried b) in
    let carried_item := carried b in
    let indices := match direction with Forward => seq 0 (length (slots b)) | Backward => rev (seq 0 (length (slots b))) end in
    let? '(m, w) := pickup_pass m w carried_item max_stack false p indices in
    pickup_pass m w carried_item max_stack true p indices.

(** ** [Menu::clicked] *)

(** The stacks worn in the armour slots. *)
Fixpoint armor_items (L : Locks) (w : World) (ss : list Slot) : total (list (EquipmentSlot * ItemStack)) :=
  match ss with
  | [] => Ok []
  | s :: ss =>
      match equipment_slot s with
      | None => armor_items L w ss
      | Some e => let? i := slot_get s L w in let? rest := armor_items L w ss in Ok ((e, i) :: rest)
      end
  end.

(** The calls to [on_equip_item]: slot, previous and current stack. *)
Definition equipment_changes (before after : list (EquipmentSlot * ItemStack)) : list (EquipmentSlot * ItemStack * ItemStack) :=
  zip_with (fun b a => (b.1, b.2, a.2)) before after.

(** The default handling of a click that is not a drag. *)
Definition default_click (fuel : nat) (m : Menu K) (w : World) (click : Click) (p : Player) : total (Menu K * World) :=
  match click with
  | Pickup slot button => let? '(b, w) := do_pickup (behavior m) w slot button p in Ok (with_behavior b m, w)
  | DropCarried button => let '(b, w) := drop_carried (behavior m) w button in Ok (with_behavior b m, w)
  | QuickMove slot => do_quick_move fuel m w slot p
  | Swap slot with_ => let? w := do_swap m w slot with_ p in Ok (m, w)
  | Clone slot => let? b := do_clone (behavior m) w slot (has_infinite_materials p) in Ok (with_behavior b m, w)
  | Throw slot whole_stack => let? w := do_throw fuel (behavior m) w slot whole_stack p in Ok (m, w)
  | PickupAll slot direction => do_pickup_all m w slot direction p
  | Craft _ => Panic
  end.

(** The click itself, before recipes are recomputed. *)
Definition handle_click (fuel : nat) (m : Menu K) (w : World) (click : Click) (p : Player) : total (Menu K * World) :=
  match click with
  | Craft action =>
      let? '(outcome, k, b, w) := kind_on_drag hooks (kind m) (behavior m) w action p in
      match outcome with
      | Consume => Ok (mk_menu (reset_quick_craft b) (layout m) k, w)
      | Fallthrough =>
          let? '(b, w) := do_quick_craft b w action (has_infinite_materials p) p (kind_can_drag_to hooks k) in
          Ok (mk_menu b (layout m) k, w)
      end
  | _ =>
      let b := match quickcraft (behavior m) with Some _ => reset_quick_craft (behavior m) | None => behavior m end in
      let? '(outcome, k, b, w) := kind_on_slot_clicked hooks (kind m) b w click p in
      let m := mk_menu b (layout m) k in
      match outcome with
      | Consume => Ok (m, w)
      | Fallthrough => default_click fuel m w click p
      end
  end.

Definition should_recompute (m : Menu K) (click : Click) : bool :=
  match click with
  | DropCarried _ => false
  | Craft _ => negb (length (slots (behavior m)) =? 0)%nat
  | _ => true
  end.

Definition clicked (fuel : nat) (m : Menu K) (w : World) (click : Click) (p : Player) :
    total (Menu K * World * list (EquipmentSlot * ItemStack * ItemStack)) :=
  if negb (is_valid_for click (length (slots (behavior m)))) then Ok (m, w, [])
  else
    let? armor_before := armor_items (container_refs (behavior m)) w (slots (behavior m)) in
    let? '(m, w) := handle_click fuel m w click p in
    let? '(m, w) :=
      if should_recompute m click then
        let? '(k, b, w) := kind_slots_changed hooks (kind m) (behavior m) w p in Ok (mk_menu b (layout m) k, w)
      else Ok (m, w) in
    let? armor_after := armor_items (container_refs (behavior m)) w (slots (behavior m)) in
    Ok (m, w, equipment_changes armor_before armor_after).

(** [set_slot_by_player], for the creative mode packet. *)
Definition set_slot_by_player (m : Menu K) (w : World) (slot_index : nat) (stack : ItemStack) :
    total (World * list (EquipmentSlot * ItemStack * ItemStack)) :=
  let b := behavior m in
  let L := container_refs b in
  let? armor_before := armor_items L w (slots b) in
  match slots b !! slot_index with
  | None => Ok (w, [])
  | Some slot =>
      let? _ := slot_get slot L w in
      let? w := set_by_player slot L w stack in
      let? armor_after := armor_items L w (slots b) in
      Ok (w, equipment_changes armor_before armor_after)
  end.
End Kind.
End Menus.

(** ** Steps of a menu *)

Section Steps.
Context {items : Items}.

(** What the shared machinery keeps: well-formed slots over locked storage,
    stacks within their limits, and a drag over existing slots. *)
Record menu_ok (p : Player) (b : MenuBehavior) (w : World) : Prop := {
  ok_static : menu_static (slots b) (container_refs b) p;
  ok_world : menu_world (slots b) (container_refs b) p w;
  ok_carried : stack_ok (carried b);
  ok_drag : drag_ok b
}.

(** What the server believes of the client is not touched. *)
Definition same_remote (b b' : MenuBehavior) : Prop :=
  remote_slots b' = remote_slots b /\ remote_carried b' = remote_carried b /\ remote_data_slots b' = remote_data_slots b /\
  length (data_slots b') = length (data_slots b) /\ suppress_remote_updates b' = suppress_remote_updates b /\
  container_id b' = container_id b /\ state_id b' = state_id b.

(** No item of any kind appears or disappears. *)
Record menu_step (p : Player) (b : MenuBehavior) (w : World) (b' : MenuBehavior) (w' : World) : Prop := {
  step_slots : slots b' = slots b;
  step_refs : container_refs b' = container_refs b;
  step_remote : same_remote b b';
  step_ok : menu_ok p b' w';
  step_kinds : kinds w' = kinds w;
  step_total k : amount k (carried b') + world_total k w' = amount k (carried b) + world_total k w
}.

Lemma step_refl p b w : menu_ok p b w -> menu_step p b w b w.
Proof. by split. Qed.

Lemma step_trans p b w b1 w1 b2 w2 : menu_step p b w b1 w1 -> menu_step p b1 w1 b2 w2 -> menu_step p b w b2 w2.
Proof.
  intros [A B R C D E] [A' B' R' C' D' E']. split; [congruence..| |done|congruence|intros k; by rewrite E'].
  unfold same_remote in *. destruct_and?. split_and!; congruence.
Qed.

(** A new cursor and world that conserve the items. *)
Lemma conserves_step p b w c w' :
  menu_ok p b w -> conserves (slots b) (container_refs b) p (carried b) w c w' -> menu_step p b w (with_carried c b) w'.
Proof. intros [A B C D] [E F G H]. by split. Qed.

Lemma world_step p b w w' :
  menu_ok p b w -> conserves (slots b) (container_refs b) p (carried b) w (carried b) w' -> menu_step p b w b w'.
Proof. intros Hok H. apply (conserves_step _ _ _ _ _ Hok) in H. by destruct b. Qed.

Lemma drag_step p b w q d c w' :
  menu_ok p b w -> conserves (slots b) (container_refs b) p (carried b) w c w' -> drag_ok (with_quickcraft q d (with_carried c b)) ->
  menu_step p b w (with_quickcraft q d (with_carried c b)) w'.
Proof. intros [A B C D] [E F G H] Hd. by split. Qed.

Lemma reset_step p b w : menu_ok p b w -> menu_step p b w (reset_quick_craft b) w.
Proof. intros [A B C D]. by split. Qed.

(** How many items the storage of a slot holds. *)
Definition source_count (b : MenuBehavior) (w : World) (i : nat) : Z :=
  match (s ← slots b !! i; physical_key s) with
  | Some key => match cell (view w) key with Some st => count st | None => 0 end
  | None => 0
  end.

(** What the machinery needs of a menu's kind: its hooks return, conserve the
    items, and a shift-click override makes progress. *)
Class ConservingKind {K} (hooks : MenuKind K) : Prop := {
  conserving_changed k b w p : menu_ok p b w ->
    exists k' b' w', kind_slots_changed hooks k b w p = Ok (k', b', w') /\ menu_step p b w b' w';
  conserving_removed k b w p : menu_ok p b w ->
    exists k' b' w', kind_removed hooks k b w p = Ok (k', b', w') /\ menu_step p b w b' w';
  conserving_clicked k b w c p : menu_ok p b w ->
    exists o k' b' w', kind_on_slot_clicked hooks k b w c p = Ok (o, k', b', w') /\ menu_step p b w b' w';
  conserving_drag k b w a p : menu_ok p b w ->
    exists o k' b' w', kind_on_drag hooks k b w a p = Ok (o, k', b', w') /\ menu_step p b w b' w';
  conserving_quick_move k b w i p : menu_ok p b w -> (i < length (slots b))%nat ->
    exists r k' b' w', kind_quick_move hooks k b w i p = Ok (r, k', b', w') /\ menu_step p b w b' w' /\
      match r with
      | Some r => is_empty r = false -> source_count b' w' i < source_count b w i
      | None => source_count b' w' i <= source_count b w i
      end
}.

#[export] Instance BasicKind_conserving : ConservingKind BasicKind.
Proof.
  split; intros; try (by eexists _, _, _; split; [done|apply step_refl]); try (by eexists _, _, _, _; split; [done|apply step_refl]).
  eexists None, _, _, _. split; [done|]. split; [by apply step_refl|]. lia.
Qed.

(** Routes only name slots of the menu. *)
Definition layout_ok (ly : MenuLayout) (n : nat) : Prop :=
  (forall r t, r ∈ routes ly -> t ∈ route_targets r -> (t.2 <= n)%nat) /\ (forall r, r ∈ drain_sections ly -> (r.2 <= n)%nat).

(** Opening a slot of a well-formed menu. *)
Lemma open_menu_slot p b w i :
  menu_ok p b w -> (i < length (slots b))%nat ->
  exists s key old, slot_at b i = Ok s /\ slots b !! i = Some s /\ s ∈ slots b /\ StorageSlot s key /\ key.1 ∈ container_refs b /\
    cell (view w) key = Some old /\ slot_get s (container_refs b) w = Ok old /\ stack_ok old /\ fits s (container_refs b) w old.
Proof.
  intros [A B C D] Hi. destruct (open_slot _ _ _ A b w i eq_refl B Hi) as (s & key & old & Es & Hs & HS & HL & Hkey & Hc & Hget & Hold & Hfit).
  exists s, key, old. unfold slot_at in Es |- *. destruct (slots b !! i); [|done]. split_and!; try done. congruence.
Qed.

Lemma source_count_at b w i s key old :
  slots b !! i = Some s -> StorageSlot s key -> cell (view w) key = Some old -> source_count b w i = count old.
Proof. intros Hs HS Hc. unfold source_count. rewrite Hs. simpl. rewrite storage_key. by rewrite Hc. Qed.
End Steps.

(** ** Shift-clicks *)

Section QuickMoves.
Context {items : Items}.

Lemma route_any_ok p b w0 key clicked i s0 direction targets :
  menu_static (slots b) (container_refs b) p -> stack_ok clicked -> is_empty clicked = false ->
  slot_at b i = Ok s0 -> physical_key s0 = Some key -> (forall t, t ∈ targets -> (t.2 <= length (slots b))%nat) ->
  forall n w, moving b p key clicked w0 n (set_count clicked n, w, false) ->
  exists n' w' moved, route_any b w i direction (set_count clicked n) targets = Ok (moved, set_count clicked n', w') /\
    moving b p key clicked w0 n' (set_count clicked n', w', moved).
Proof.
  intros Hst Hok Hf Hs0 Hkey. induction targets as [|t targets IH]; intros Ht n w Hm; cbn [route_any]; [by eauto 10|].
  destruct (move_item_stack_to_ok b p Hst i key clicked Hok Hf w0 n w t.1 t.2 direction s0 Hm Hs0 Hkey) as (n1 & w1 & moved & -> & Hm1).
  { apply Ht. by left. }
  cbn [obind]. destruct moved; [by eauto 10|]. apply IH; [|done]. intros t' ?. apply Ht. by right.
Qed.

Lemma quick_move_ok p ly b w i :
  menu_ok p b w -> layout_ok ly (length (slots b)) -> (i < length (slots b))%nat ->
  exists r w', quick_move ly b w i p = Ok (r, w') /\ menu_step p b w b w' /\
    (is_empty r = false -> source_count b w' i < source_count b w i).
Proof.
  intros Hok [Hroutes _] Hi. assert (Hstay : exists r w', Ok (empty_stack, w) = Ok (E := exhausted) (r, w') /\ menu_step p b w b w' /\
    (is_empty r = false -> source_count b w' i < source_count b w i)) by (exists empty_stack, w; split; [done|]; split; [by apply step_refl|done]).
  unfold quick_move. destruct (List.find _ (routes ly)) as [route|] eqn:Er; [|done].
  apply List.find_some in Er as [Hr _]. apply list_elem_of_In in Hr.
  destruct (open_menu_slot p b w i Hok Hi) as (s & key & clicked & Es & Hls & Hs & HS & HL & Hc & Hget & Hclk & Hfit).
  rewrite Es. cbn [obind]. rewrite Hget. cbn [obind]. destruct (is_empty clicked) eqn:Ee; [done|].
  pose proof Hok as [A B C D]. pose proof (mw_ok _ _ _ _ B) as Hwok.
  destruct (storage_pickup _ w clicked p Hwok HL Hc) as [pick ->]. cbn [obind]. destruct pick; [|done]. cbn [negb].
  assert (Hcc : set_count clicked (count_field clicked) = clicked) by (by destruct clicked).
  assert (Hpos : 0 <= count_field clicked) by (destruct Hclk; lia).
  assert (Hm : moving b p key clicked w (count_field clicked) (set_count clicked (count_field clicked), w, false)).
  { rewrite Hcc. split; cbn [fst snd]; done || (intros k; by rewrite Hcc). }
  destruct (route_any_ok p b w key clicked i s (route_direction route) (route_targets route) A Hclk Ee Es storage_key
    ltac:(intros t ?; by eapply Hroutes) _ _ Hm) as (n & w1 & moved & Hany & Hm1).
  rewrite Hcc in Hany. rewrite Hany. cbn [obind]. destruct moved; cbn [negb].
  2:{ exists empty_stack, w1. split; [done|]. destruct Hm1 as [M1 M2 M3 M4 M5 M6 M7]. cbn [fst snd] in *. specialize (M7 eq_refl). subst n.
      split; [|done]. apply world_step; [done|]. split; try done. intros k. specialize (M6 k). rewrite Hcc in M6. lia. }
  destruct (update_quick_move_source_ok b p A i key clicked Hclk Ee w n w1 true s Hm1 Es Hs HS HL) as (w2 & -> & Hw2 & Hk2 & Ht2 & rest & Hc2 & Hn).
  cbn [obind count_field set_count]. assert (Hcons : conserves (slots b) (container_refs b) p (carried b) w (carried b) w2).
  { split; [done..|]. intros k. by rewrite Ht2. }
  destruct (Z.eqb_spec n (count_field clicked)); [exists empty_stack, w2; split; [done|]; split; [by apply world_step|done]|].
  destruct (take_callback_ok s key (container_refs b) HL w2 rest (set_count clicked n) p (mw_ok _ _ _ _ Hw2) Hc2) as (w3 & -> & Hsame).
  cbn [obind]. rewrite storage_fake. cbn [andb]. exists clicked, w3. split; [done|]. split.
  { apply world_step; [done|]. by eapply conserves_same. }
  intros _. rewrite (source_count_at b w i s key clicked), (source_count_at b w3 i s key rest) by (done || by rewrite (proj1 Hsame)).
  destruct Hm1 as [_ M2 _ _ _ _ _]. rewrite Hn, count_full by done. lia.
Qed.
End QuickMoves.

Section QuickMoveLoop.
Context {items : Items} {K : Type} (hooks : MenuKind K) {Hkind : ConservingKind hooks} (p : Player).

Lemma quick_move_stack_ok m w i :
  menu_ok p (behavior m) w -> layout_ok (layout m) (length (slots (behavior m))) -> (i < length (slots (behavior m)))%nat ->
  exists r m' w', quick_move_stack hooks m w i p = Ok (r, m', w') /\ layout m' = layout m /\
    menu_step p (behavior m) w (behavior m') w' /\
    (is_empty r = false -> source_count (behavior m') w' i < source_count (behavior m) w i).
Proof.
  intros Hok Hly Hi. unfold quick_move_stack.
  destruct (conserving_quick_move (kind m) (behavior m) w i p Hok Hi) as (r & k' & b' & w1 & -> & Hstep & Hr). cbn [obind].
  destruct r as [r|]; [by eexists r, _, w1|].
  pose proof Hstep as [S1 S2 _ S3 S4 S5]. destruct (quick_move_ok p (layout m) b' w1 i) as (r & w2 & Hq & Hstep2 & Hr2); [done|by rewrite S1..|].
  cbn [layout behavior]. rewrite Hq. cbn [obind]. eexists r, _, w2. split; [done|]. split; [done|]. cbn [behavior].
  split; [by eapply step_trans|]. intros Hne. specialize (Hr2 Hne). lia.
Qed.

Lemma source_count_bounds b w i : menu_ok p b w -> (i < length (slots b))%nat -> 0 <= source_count b w i <= 99.
Proof.
  intros Hok Hi. destruct (open_menu_slot p b w i Hok Hi) as (s & key & old & _ & Hls & _ & HS & _ & Hc & _ & Hold & _).
  rewrite (source_count_at b w i s key old) by done. unfold count. destruct (is_empty old) eqn:E; [lia|].
  destruct Hold as [Hc1 Hk]. destruct (Hk E). lia.
Qed.

(** Every round moves an item out of the source. *)
Lemma quick_move_loop_ok fuel m w i r :
  menu_ok p (behavior m) w -> layout_ok (layout m) (length (slots (behavior m))) -> (i < length (slots (behavior m)))%nat ->
  (S (Z.to_nat (source_count (behavior m) w i)) < fuel)%nat ->
  exists m' w', quick_move_loop hooks fuel m w i p r = Ok (m', w') /\ layout m' = layout m /\ menu_step p (behavior m) w (behavior m') w'.
Proof.
  revert m w r. induction fuel as [|fuel IH]; intros m w r Hok Hly Hi Hfuel; [lia|]. cbn [quick_move_loop].
  assert (Hstay : exists m' w', Ok (m, w) = Ok (E := exhausted) (m', w') /\ layout m' = layout m /\
    menu_step p (behavior m) w (behavior m') w') by (exists m, w; split; [done|]; split; [done|by apply step_refl]).
  destruct (is_empty r); [done|].
  destruct (open_menu_slot p _ w i Hok Hi) as (s & key & old & Es & Hls & Hs & HS & HL & Hc & Hget & _). rewrite Es. cbn [obind].
  rewrite Hget. cbn [obind]. destruct (negb _); [done|].
  destruct (quick_move_stack_ok m w i Hok Hly Hi) as (r1 & m1 & w1 & -> & Hly1 & Hstep & Hr). cbn [obind].
  pose proof Hstep as [S1 _ _ S3 _ _]. assert (Hi1 : (i < length (slots (behavior m1)))%nat) by (by rewrite S1).
  destruct (is_empty r1) eqn:Er.
  - exists m1, w1. split; [|done]. destruct fuel; [lia|]. cbn [quick_move_loop]. by rewrite Er.
  - specialize (Hr eq_refl). pose proof (source_count_bounds _ w1 i S3 Hi1).
    destruct (IH m1 w1 r1 S3) as (m' & w' & -> & Hly' & Hstep'); [by rewrite Hly1, S1|done|lia|].
    exists m', w'. split; [done|]. split; [congruence|by eapply step_trans].
Qed.

Lemma do_quick_move_ok fuel m w i :
  menu_ok p (behavior m) w -> layout_ok (layout m) (length (slots (behavior m))) -> (i < length (slots (behavior m)))%nat -> (102 <= fuel)%nat ->
  exists m' w', do_quick_move hooks fuel m w i p = Ok (m', w') /\ layout m' = layout m /\ menu_step p (behavior m) w (behavior m') w'.
Proof.
  intros Hok Hly Hi Hfuel. assert (Hstay : exists m' w', Ok (m, w) = Ok (E := exhausted) (m', w') /\ layout m' = layout m /\ menu_step p (behavior m) w (behavior m') w') by (exists m, w; split; [done|]; split; [done|by apply step_refl]).
  destruct (open_menu_slot p _ w i Hok Hi) as (s & key & old & Es & Hls & Hs & HS & HL & Hc & Hget & _).
  unfold do_quick_move. rewrite Es. cbn [obind].
  destruct (storage_pickup _ w old p (mw_ok _ _ _ _ (ok_world _ _ _ Hok)) HL Hc) as [pick ->]. cbn [obind]. destruct (negb pick); [done|].
  rewrite Hget. cbn [obind]. destruct (is_empty old); [done|].
  destruct (quick_move_stack_ok m w i Hok Hly Hi) as (r1 & m1 & w1 & -> & Hly1 & Hstep & _). cbn [obind].
  pose proof Hstep as [S1 _ _ S3 _ _]. assert (Hi1 : (i < length (slots (behavior m1)))%nat) by (by rewrite S1).
  pose proof (source_count_bounds _ w1 i S3 Hi1).
  destruct (quick_move_loop_ok fuel m1 w1 i r1 S3) as (m' & w' & -> & Hly' & Hstep'); [by rewrite Hly1, S1|done|lia|].
  exists m', w'. split; [done|]. split; [congruence|by eapply step_trans].
Qed.
End QuickMoveLoop.

(** ** The player's inventory under a menu *)

Section Inventory.
Context {items : Items} (ss : list Slot) (p : Player).
Notation inv := (player_inventory p).

(** Locking more containers changes nothing for the slots. *)
Lemma fits_more (L L' : Locks) w s st : menu_static ss L p -> L ⊆ L' -> s ∈ ss -> fits s L w st <-> fits s L' w st.
Proof.
  intros Hst HL Hs. destruct (static_storage _ _ _ Hst s Hs) as (key & HS & Hk).
  assert (E : max_size_for_item s L' w st = max_size_for_item s L w st) by (apply storage_max_stable; [done|by apply HL|done]).
  unfold fits. by rewrite E.
Qed.

Lemma static_more (L L' : Locks) : menu_static ss L p -> L ⊆ L' -> menu_static ss L' p.
Proof.
  intros Hst HL. pose proof Hst as [A B C]. split; [|done|].
  - intros s Hs. destruct (A s Hs) as (key & HS & Hk). exists key. split; [done|by apply HL].
  - intros s i w st selected Hs Hkey Hi Hk He. destruct (A s Hs) as (key & HS & HkL).
    rewrite (storage_max_stable L L' w w) by (done || by apply HL). by eapply C.
Qed.

Lemma world_more (L L' : Locks) w : menu_static ss L p -> L ⊆ L' -> menu_world ss L p w <-> menu_world ss L' p w.
Proof.
  intros Hst HL. split; intros [A B C D]; split; try done; intros s key x Hs Hkey Hx; specialize (C s key x Hs Hkey Hx).
  - by apply (fits_more L L').
  - by apply (fits_more L L').
Qed.

Lemma conserves_more (L L' : Locks) c w c' w' : menu_static ss L p -> L ⊆ L' -> conserves ss L' p c w c' w' -> conserves ss L p c w c' w'.
Proof. intros Hst HL [A B C D]. split; try done. by apply (world_more L L'). Qed.

Context (L : Locks) (Hst : menu_static ss L p).

Lemma inventory_container w : menu_world ss L p w ->
  exists c selected, containers w !! inv = Some c /\ container_kind c = PlayerInventory selected /\ container_ok c /\ length (items_of c) = 43%nat.
Proof.
  intros [A _ _ (selected & Hk)]. unfold kinds in Hk. rewrite lookup_fmap in Hk. apply fmap_Some in Hk as ([kd l] & Hv & Hk). simpl in Hk. subst kd.
  apply view_lookup in Hv as (c & Hc & Hsh). exists c, selected. pose proof (world_containers _ A _ _ Hc) as Hok.
  unfold shape in Hsh. injection Hsh as Hkind Hl. split_and!; try done. pose proof (shape_ok c Hok) as Hs. rewrite Hkind in Hs. by destruct Hs.
Qed.

Lemma inventory_cell w i : menu_world ss L p w -> (i < 43)%nat -> exists old, cell (view w) (inv, i) = Some old.
Proof.
  intros Hw Hi. destruct (inventory_container w Hw) as (c & sel & Hc & Hk & Hok & Hlen).
  rewrite <- Hlen in Hi. apply lookup_lt_is_Some in Hi as [old Hold]. exists old. apply cell_some. exists (container_kind c), (items_of c).
  split; [|done]. apply view_lookup. by exists c.
Qed.

(** Any well-formed stack fits the player's own positions. *)
Lemma fits_inventory w s i st : menu_world ss L p w -> s ∈ ss -> physical_key s = Some (inv, i) -> main_or_offhand i -> stack_ok st -> fits s L w st.
Proof.
  intros [_ _ _ (sel & Hk)] Hs Hkey Hi Hok. destruct (is_empty st) eqn:He; [by left|]. right.
  exists (Z.min 99 (max_stack_size st)). split; [by eapply (static_inventory _ _ _ Hst)|].
  destruct (stack_max st Hok He) as [-> ?]. destruct Hok as [? Hok]. destruct (Hok He). lia.
Qed.

Lemma menu_wrote_inventory w w' i st :
  menu_world ss L p w -> main_or_offhand i -> stack_ok st -> wrote (inv, i) st w w' -> menu_world ss L p w'.
Proof.
  intros Hw Hi Hok Hwr. destruct (inventory_cell w i Hw) as [old Hold]. { unfold main_or_offhand in Hi. unfold INVENTORY_SIZE, SLOT_OFFHAND in Hi. lia. }
  pose proof (wrote_kinds _ _ _ _ Hwr) as Hk. pose proof Hw as [A B C D]. split; [by eapply wrote_ok| | |by rewrite Hk].
  - intros s key Hs Hkey. rewrite (proj1 Hwr). destruct (decide ((inv, i) = key)) as [<-|Hne]; [rewrite (cell_updated _ _ _ _ Hold); by eexists|].
    rewrite cell_updated_ne by done. by eapply B.
  - intros s key x Hs Hkey Hx. rewrite (proj1 Hwr) in Hx. apply (fits_stable ss L p Hst s w); [done..|].
    destruct (decide ((inv, i) = key)) as [<-|Hne].
    + rewrite (cell_updated _ _ _ _ Hold) in Hx. injection Hx as <-. by eapply fits_inventory.
    + rewrite cell_updated_ne in Hx by done. by eapply C.
Qed.

(** Setting a position of the inventory. *)
Lemma set_inventory_ok w i st : menu_world ss L p w -> inv ∈ L -> main_or_offhand i -> stack_ok st ->
  exists w', guard_set_item L w inv i st = Ok w' /\ wrote (inv, i) st w w' /\ menu_world ss L p w'.
Proof.
  intros Hw HL Hi Hok. destruct (inventory_cell w i Hw) as [old Hold]. { unfold main_or_offhand, INVENTORY_SIZE, SLOT_OFFHAND in Hi. lia. }
  destruct (cell_locked inv i L w old (mw_ok _ _ _ _ Hw) HL Hold) as (c & E & Hcw & Hci & Hcok).
  destruct (inventory_container w Hw) as (c0 & sel & Hc0 & Hkind & _). rewrite Hcw in Hc0. injection Hc0 as <-.
  destruct (set_item_ok i c old st Hcok Hci) as (c' & Hset & Hsh).
  { destruct (is_empty st) eqn:He; [by left|]. right. unfold get_max_stack_size_for_item, get_max_stack_size. rewrite Hkind.
    destruct (stack_max st Hok He) as [-> ?]. destruct Hok as [? Hk]. destruct (Hk He). lia. }
  unfold guard_set_item. rewrite E. cbn [obind]. rewrite Hset. cbn [obind]. eexists. split; [done|].
  assert (Hwr : wrote (inv, i) st w (store_container inv c' w)).
  { destruct (wrote_put inv i w c st Hcw) as [Hv Hd]. split; [|done]. rewrite <- Hv. unfold view, store_container. simpl. by rewrite !fmap_insert, Hsh. }
  split; [done|]. by eapply menu_wrote_inventory.
Qed.

(** Splitting a stack of the inventory. *)
Lemma split_inventory_ok w i old n : menu_world ss L p w -> inv ∈ L -> main_or_offhand i -> cell (view w) (inv, i) = Some old ->
  0 <= n <= count_field old -> is_empty old = false ->
  exists w', guard_split L w inv i n = Ok (set_count old n, w') /\ wrote (inv, i) (set_count old (count_field old - n)) w w' /\ menu_world ss L p w'.
Proof.
  intros Hw HL Hi Hold Hn He. destruct (cell_locked inv i L w old (mw_ok _ _ _ _ Hw) HL Hold) as (c & E & Hcw & Hci & Hcok).
  pose proof (cell_ok _ _ _ (mw_ok _ _ _ _ Hw) Hold) as Hok. unfold guard_split. rewrite E. cbn [obind]. unfold item_at. rewrite Hci. cbn [obind].
  rewrite split_exact by (done || lia). rewrite Z.min_l by lia. unfold put_item. rewrite (proj1 (put_at_some c i old _ Hci)). cbn [obind].
  pose proof (wrote_put inv i w c (set_count old (count_field old - n)) Hcw) as Hwr. eexists. split; [done|]. split; [done|].
  assert (stack_ok (set_count old (count_field old - n))). { pose proof (proj2 Hok He) as [? _]. apply set_count_ok; [done..|lia]. }
  by eapply menu_wrote_inventory.
Qed.
End Inventory.

(** ** Giving items to the player *)

Section Giving.
Context {items : Items} (ss : list Slot) (L : Locks) (p : Player) (Hst : menu_static ss L p).
Notation inv := (player_inventory p).

Lemma list_sum_total k w id c c' :
  containers w !! id = Some c -> world_total k (store_container id c' w) = world_total k w - held_in k c + held_in k c'.
Proof.
  intros Hc. unfold world_total, view_total, view, store_container. cbn [containers dropped]. rewrite fmap_insert, map_sum_insert.
  rewrite lookup_fmap, Hc. simpl. unfold held_in, shape. simpl. lia.
Qed.

(** [PlayerInventory::add] in the world. *)
Lemma player_add_world w c sel s :
  menu_world ss L p w -> containers w !! inv = Some c -> container_kind c = PlayerInventory sel -> stack_ok s ->
  exists rest c', player_add c sel s = Ok (is_empty rest, rest, c') /\ stack_ok rest /\
    menu_world ss L p (store_container inv c' w) /\ kinds (store_container inv c' w) = kinds w /\
    (forall k, world_total k (store_container inv c' w) + amount k rest = world_total k w + amount k s) /\
    (forall key, key.1 <> inv -> cell (view (store_container inv c' w)) key = cell (view w) key).
Proof.
  intros Hw Hc Hkind Hs. pose proof Hw as [A B C D]. pose proof (world_containers _ A _ _ Hc) as Hcok.
  destruct (player_add_ok c sel s Hcok Hkind Hs) as (rest & c' & -> & Hr & Hc'ok & Hk' & Hl' & Hsum & Hkeep & _).
  exists rest, c'. split; [done|]. split; [done|]. set (w' := store_container inv c' w).
  assert (Hkinds : kinds w' = kinds w).
  { unfold kinds, w', view, store_container. cbn [containers]. rewrite fmap_insert, fmap_insert. unfold shape at 1. cbn [fst]. rewrite Hk'.
    apply insert_id. rewrite !lookup_fmap, Hc. done. }
  assert (Hcell : forall key, cell (view w') key = if decide (key.1 = inv) then items_of c' !! key.2 else cell (view w) key).
  { intros [id i]. unfold cell, w', view, store_container. cbn [containers fst snd]. rewrite fmap_insert. case_decide as E.
    - rewrite E. by rewrite lookup_insert_eq.
    - by rewrite lookup_insert_ne. }
  split; [|split; [done|]].
  - split; [| | |by rewrite Hkinds].
    + destruct A as [A1 A2]. split; [|done]. intros id x. unfold w', store_container. cbn [containers].
      intros [[<- <-]|[_ ?]]%lookup_insert_Some; [done|by eapply A1].
    + intros s' key Hs' Hkey. rewrite Hcell. case_decide as E; [|by eapply B]. destruct (B s' key Hs' Hkey) as [old Hold].
      apply cell_some in Hold as (kd & l & Hv & Hl). rewrite E in Hv. apply view_lookup in Hv as (c0 & Hc0 & Hsh). rewrite Hc in Hc0. injection Hc0 as <-.
      unfold shape in Hsh. injection Hsh as _ <-. apply lookup_lt_is_Some. rewrite Hl'. by eapply lookup_lt_Some.
    + intros s' [id i] x Hs' Hkey Hx. rewrite Hcell in Hx. apply (fits_stable ss L p Hst s' w); [done..|]. cbn [fst snd] in Hx. case_decide as E; [|by eapply C].
      subst id. assert (stack_ok x) by (by eapply (stacks_ok c')). destruct (decide (main_or_offhand i)) as [Hm|Hm].
      * by eapply fits_inventory.
      * rewrite Hkeep in Hx by done. apply (C s' (inv, i)); [done..|]. apply cell_some. exists (container_kind c), (items_of c). split; [|done].
        apply view_lookup. by exists c.
  - split; [|intros key Hne; rewrite Hcell; by rewrite decide_False].
    intros k. unfold w'. rewrite (list_sum_total k w inv c c' Hc). specialize (Hsum k). lia.
Qed.

Lemma drop_ok w s : menu_world ss L p w -> stack_ok s ->
  menu_world ss L p (drop_item w s) /\ kinds (drop_item w s) = kinds w /\ (forall k, world_total k (drop_item w s) = world_total k w + amount k s).
Proof.
  intros Hw Hs. split; [by apply menu_drop|]. split; [apply drop_kinds|]. intros k. apply drop_total.
Qed.

(** Whatever happens, the item stays in the world; [M] locks the inventory or
    does not. *)
Lemma add_item_or_drop_ok (M : Locks) w s : menu_world ss L p w -> stack_ok s ->
  exists w', add_item_or_drop M w p s = Ok w' /\ menu_world ss L p w' /\ kinds w' = kinds w /\
    (forall k, world_total k w' = world_total k w + amount k s) /\ (forall key, key.1 <> inv -> cell (view w') key = cell (view w) key).
Proof.
  intros Hw Hs. unfold add_item_or_drop. destruct (is_empty s) eqn:He.
  { exists w. split_and!; try done. intros k. rewrite amount_empty by done. lia. }
  destruct (inventory_container ss p L w Hw) as (c & sel & Hc & Hkind & _). unfold guard_get. case_decide; [rewrite Hc|].
  - assert (selected_slot c = sel) as -> by (unfold selected_slot; by rewrite Hkind).
    destruct (player_add_world w c sel s Hw Hc Hkind Hs) as (rest & c' & -> & Hr & Hw' & Hk' & Ht' & Hcell). cbn [obind].
    eexists. split; [done|]. destruct (is_empty rest) eqn:Er; cbn [negb orb].
    + do 2 (split; [done|]). split; [|done]. intros k. specialize (Ht' k). rewrite (amount_empty k rest) in Ht' by done. lia.
    + destruct (drop_ok _ rest Hw' Hr) as (D1 & D2 & D3). split; [done|]. split; [by rewrite D2|].
      split; [intros k; rewrite D3, <- Ht'; done|]. intros key Hne. rewrite drop_cell. by apply Hcell.
  - eexists. split; [done|]. destruct (drop_ok _ s Hw Hs) as (D1 & D2 & D3). do 3 (split; [done|]). intros key _. apply drop_cell.
Qed.

Lemma give_displaced_ok w s : menu_world ss L p w -> player_inventory p ∈ L -> stack_ok s -> has_infinite_materials p = false ->
  exists w', give_displaced L w p s = Ok w' /\ menu_world ss L p w' /\ kinds w' = kinds w /\
    (forall k, world_total k w' = world_total k w + amount k s).
Proof.
  intros Hw HL Hs Hinf. unfold give_displaced. destruct (inventory_container ss p L w Hw) as (c & sel & Hc & Hkind & _).
  unfold locked, guard_get. rewrite decide_True, Hc by done. cbn [obind].
  assert (selected_slot c = sel) as -> by (unfold selected_slot; by rewrite Hkind).
  destruct (player_add_world w c sel s Hw Hc Hkind Hs) as (rest & c' & -> & Hr & Hw' & Hk' & Ht' & _). cbn [obind]. rewrite Hinf.
  eexists. split; [done|]. destruct (is_empty rest) eqn:Er; cbn [negb andb].
  - split; [done|]. split; [done|]. intros k. specialize (Ht' k). rewrite (amount_empty k rest) in Ht' by done. lia.
  - destruct (drop_ok _ rest Hw' Hr) as (D1 & D2 & D3). split; [done|]. split; [by rewrite D2|]. intros k. rewrite D3, <- Ht'. done.
Qed.
End Giving.

(** ** Swaps with the inventory *)

Section Swaps.
Context {items : Items} (ss : list Slot) (L : Locks) (p : Player) (Hst : menu_static ss L p).
Notation inv := (player_inventory p).
Context (HL : player_inventory p ∈ L) (s : Slot) (key : Key) (Hs : s ∈ ss) {HS : StorageSlot s key}.

Record kept (w w' : World) : Prop := {
  kept_world : menu_world ss L p w';
  kept_kinds : kinds w' = kinds w;
  kept_total k : world_total k w' = world_total k w
}.

Lemma slot_locked : key.1 ∈ L.
Proof. destruct (static_storage _ _ _ Hst s Hs) as (key' & HS' & H). pose proof (@storage_key _ s key HS). pose proof (@storage_key _ s key' HS'). congruence. Qed.

Lemma set_slot_ok w st : menu_world ss L p w -> stack_ok st -> fits s L w st ->
  exists w', set_by_player s L w st = Ok w' /\ wrote key st w w' /\ menu_world ss L p w'.
Proof.
  intros Hw Hok Hf. destruct (mw_cells _ _ _ _ Hw s key Hs storage_key) as [old Hc].
  destruct (storage_set L w old st (mw_ok _ _ _ _ Hw) slot_locked Hc Hok Hf) as (w' & Hset & Hwr). exists w'. split; [done|]. split; [done|].
  eapply (menu_wrote ss L p Hst); [done|done|apply storage_key|done..].
Qed.

Lemma callback_kept w w1 taken : kept w w1 -> exists w', take_callback s L w1 taken p = Ok w' /\ kept w w'.
Proof.
  intros [A B C]. destruct (mw_cells _ _ _ _ A s key Hs storage_key) as [old Hc].
  destruct (take_callback_ok s key L slot_locked w1 old taken p (mw_ok _ _ _ _ A) Hc) as (w' & -> & Hsame). exists w'. split; [done|].
  split; [by eapply menu_same|by rewrite (same_kinds _ _ Hsame)|]. intros k. by rewrite <- Hsame.
Qed.

Context (w : World) (j : nat) (target source : ItemStack) (Hw : menu_world ss L p w) (Hj : main_or_offhand j)
  (Ht : cell (view w) key = Some target) (Hsrc : cell (view w) (inv, j) = Some source).

(** The position and the slot exchange their stacks, also when they are the
    same storage. *)
Lemma exchange_ok target' source' :
  stack_ok target' -> stack_ok source' -> (forall k, amount k target' = amount k target) -> (forall k, amount k source' = amount k source) ->
  fits s L w source' ->
  exists w1 w2, guard_set_item L w inv j target' = Ok w1 /\ set_by_player s L w1 source' = Ok w2 /\ kept w w2.
Proof.
  intros Ht' Hs' Hat Has Hf. destruct (set_inventory_ok ss p L Hst w j target' Hw HL Hj Ht') as (w1 & H1 & Hwr1 & Hw1).
  pose proof (wrote_kinds _ _ _ _ Hwr1) as Hk1. destruct (set_slot_ok w1 source' Hw1 Hs') as (w2 & H2 & Hwr2 & Hw2).
  { by apply (fits_stable ss L p Hst s w). }
  exists w1, w2. split; [done|]. split; [done|]. split; [done|by rewrite (wrote_kinds _ _ _ _ Hwr2)|]. intros k.
  assert (exists x, cell (view w1) key = Some x /\ amount k x = amount k target) as (x & Hx & Hax).
  { rewrite (proj1 Hwr1). destruct (decide ((inv, j) = key)) as [<-|]; [rewrite (cell_updated _ _ _ _ Hsrc); by exists target'|].
    rewrite cell_updated_ne by done. by exists target. }
  rewrite (wrote_total k _ _ _ _ _ Hx Hwr2), (wrote_total k _ _ _ _ _ Hsrc Hwr1), Hat, Has. lia.
Qed.

(** A stack too large for the slot is split; the target's is in hand. *)
Lemma partial_ok m : is_empty source = false -> max_size_for_item s L w source = Ok m -> 1 <= m < count_field source ->
  exists w1 w2, guard_split L w inv j m = Ok (set_count source m, w1) /\ set_by_player s L w1 (set_count source m) = Ok w2 /\
    menu_world ss L p w2 /\ kinds w2 = kinds w /\ (forall k, world_total k w2 + amount k target = world_total k w).
Proof.
  intros He Hm Hmc. pose proof (cell_ok _ _ _ (mw_ok _ _ _ _ Hw) Hsrc) as Hok.
  destruct (split_inventory_ok ss p L Hst w j source m Hw HL Hj Hsrc ltac:(lia) He) as (w1 & H1 & Hwr1 & Hw1).
  assert (Hne : (inv, j) <> key).
  { intros E. rewrite E in Hsrc. destruct (mw_within _ _ _ _ Hw s key source Hs storage_key Hsrc) as [?|(m' & Hm' & ?)]; [congruence|].
    rewrite Hm in Hm'. injection Hm' as <-. lia. }
  pose proof (proj2 Hok He) as [Hle _].
  assert (Hok1 : stack_ok (set_count source m)) by (apply set_count_ok; [done..|lia]).
  assert (Hf : fits s L w (set_count source m)).
  { right. exists m. split; [|cbn [count_field set_count]; lia]. rewrite <- Hm. apply storage_max_kind; [|done..].
    apply empty_cases. apply empty_cases in He as [? _]. split; [done|]. cbn [count_field set_count]. lia. }
  destruct (set_slot_ok w1 (set_count source m) Hw1 Hok1) as (w2 & H2 & Hwr2 & Hw2).
  { apply (fits_stable ss L p Hst s w); [done| |done]. by eapply wrote_kinds. }
  exists w1, w2. do 3 (split; [done|]). split; [by rewrite (wrote_kinds _ _ _ _ Hwr2), (wrote_kinds _ _ _ _ Hwr1)|]. intros k.
  assert (Hx : cell (view w1) key = Some target) by (rewrite (proj1 Hwr1); by rewrite cell_updated_ne).
  rewrite (wrote_total k _ _ _ _ _ Hx Hwr2), (wrote_total k _ _ _ _ _ Hsrc Hwr1), !amount_set_count, amount_full by (done || lia).
  case_decide; lia.
Qed.
End Swaps.

Section Swapping.
Context {items : Items} {K : Type} (m : Menu K) (p : Player) (Hinf : has_infinite_materials p = false).
Notation b := (behavior m).
Notation ss := (slots b).
Notation L := (container_refs b ∪ {[player_inventory p]}).

(** The transfer of [do_swap], with everything locked. *)
Lemma swap_kept w i with_ : menu_static ss L p -> menu_world ss L p w -> (i < length ss)%nat -> main_or_offhand (inventory_slot with_) ->
  exists w', do_swap m w i with_ p = Ok w' /\ kept ss L p w w'.
Proof.
  intros Hst Hw Hi Hj. assert (HL : player_inventory p ∈ L) by set_solver. pose proof (mw_ok _ _ _ _ Hw) as Hwok.
  destruct (open_slot ss L p Hst b w i eq_refl Hw Hi) as (s & key & target & Es & Hs & HS & HkL & Hkey & Hc & Hget & Ht & Hft).
  destruct (inventory_cell ss p L w (inventory_slot with_) Hw) as [source Hsrc]. { unfold main_or_offhand, INVENTORY_SIZE, SLOT_OFFHAND in Hj. lia. }
  assert (Hstay : exists w', Ok w = Ok (E := exhausted) w' /\ kept ss L p w w') by (exists w; split; [done|by split]).
  pose proof (cell_ok _ _ _ Hwok Hsrc) as Hso. unfold do_swap. rewrite Es. cbn [obind]. rewrite Hget. cbn [obind].
  pose proof (backed_get_ok (player_inventory p) (inventory_slot with_) L w source Hwok HL Hsrc) as Hg. unfold backed_get in Hg.
  destruct (locked L w (player_inventory p)) as [c| |]; [|done..]. cbn [obind] in Hg |- *. rewrite Hg. cbn [obind].
  destruct (storage_pickup L w target p Hwok HkL Hc) as [pick Hpick].
  pose proof (exchange_ok ss L p Hst HL s key Hs w (inventory_slot with_) target source Hw Hj Hc Hsrc) as Hex.
  pose proof (partial_ok ss L p Hst HL s key Hs w (inventory_slot with_) target source Hw Hj Hc Hsrc) as Hpa.
  destruct (is_empty source) eqn:Ese; [destruct (is_empty target) eqn:Ete; [done|]|destruct (is_empty target) eqn:Ete].
  - cbn [andb]. rewrite Hpick. cbn [obind]. destruct pick; [|done].
    destruct (Hex target empty_stack Ht empty_ok ltac:(done) ltac:(intros; by rewrite !amount_empty) ltac:(by left)) as (w1 & w2 & -> & H2 & Hk).
    cbn [obind]. rewrite H2. cbn [obind]. by eapply callback_kept.
  - cbn [andb]. destruct (may_place s source); [|done].
    destruct (storage_max L w target source Hwok HkL Hc Hso Ese) as (mx & Hm & Hmr). rewrite Hm. cbn [obind].
    destruct (Z.ltb_spec mx (count_field source)).
    + destruct (Hpa mx eq_refl Hm ltac:(lia)) as (w1 & w2 & -> & H2 & Hw2 & Hk2 & Ht2). cbn [obind]. rewrite H2.
      exists w2. split; [done|]. split; [done..|]. intros k. specialize (Ht2 k). rewrite (amount_empty k target) in Ht2 by done. lia.
    + destruct (Hex empty_stack source empty_ok Hso ltac:(intros; by rewrite !amount_empty) ltac:(done) ltac:(right; by exists mx)) as (w1 & w2 & -> & H2 & Hk).
      cbn [obind]. by exists w2.
  - cbn [andb]. rewrite Hpick. cbn [obind]. destruct (pick && may_place s source); [|done].
    destruct (storage_max L w target source Hwok HkL Hc Hso Ese) as (mx & Hm & Hmr). rewrite Hm. cbn [obind].
    destruct (Z.ltb_spec mx (count_field source)).
    + destruct (Hpa mx eq_refl Hm ltac:(lia)) as (w1 & w2 & -> & H2 & Hw2 & Hk2 & Ht2). cbn [obind]. rewrite H2. cbn [obind].
      destruct (callback_kept ss L p Hst HL s key Hs w2 w2 target ltac:(by split)) as (w3 & -> & [K1 K2 K3]). cbn [obind].
      destruct (give_displaced_ok ss L p Hst w3 target K1 HL Ht Hinf) as (w4 & -> & G1 & G2 & G3). exists w4. split; [done|].
      split; [done|congruence|]. intros k. rewrite G3, K3. apply Ht2.
    + destruct (Hex target source Ht Hso ltac:(done) ltac:(done) ltac:(right; by exists mx)) as (w1 & w2 & -> & H2 & Hk).
      cbn [obind]. rewrite H2. cbn [obind]. by eapply callback_kept.
Qed.

Lemma do_swap_ok w i with_ : menu_ok p b w -> (i < length ss)%nat -> main_or_offhand (inventory_slot with_) ->
  exists w', do_swap m w i with_ p = Ok w' /\ menu_step p b w b w'.
Proof.
  intros Hok Hi Hj. pose proof Hok as [A B C D]. assert (HL : container_refs b ⊆ L) by set_solver.
  destruct (swap_kept w i with_) as (w' & -> & [K1 K2 K3]); [by eapply static_more|by apply (world_more ss p (container_refs b) L)|done..|].
  exists w'. split; [done|]. apply world_step; [done|]. eapply conserves_more; [done|exact HL|]. split; [done..|]. intros k. by rewrite K3.
Qed.
End Swapping.

(** ** Double clicks *)

Section PickupAll.
Context {items : Items} {K : Type} (hooks : MenuKind K) (p : Player) (ci : ItemStack) (Hci : stack_ok ci) (Hne : is_empty ci = false).
Notation max_stack := (kind_max (kind_of ci)).

(** The cursor holds [n] of the item it started with. *)
Record gathered (m : Menu K) (w : World) (n : Z) (m' : Menu K) (w' : World) (n' : Z) : Prop := {
  gathered_cursor : carried (behavior m') = set_count ci n';
  gathered_more : n <= n' <= max_stack;
  gathered_layout : layout m' = layout m;
  gathered_slots : slots (behavior m') = slots (behavior m);
  gathered_step : menu_step p (behavior m) w (behavior m') w'
}.

Lemma gathered_refl m w n : menu_ok p (behavior m) w -> carried (behavior m) = set_count ci n -> n <= max_stack -> gathered m w n m w n.
Proof. intros Hok Hc Hn. split; [done|lia|done|done|by apply step_refl]. Qed.

Lemma pickup_from_ok m w n second i :
  menu_ok p (behavior m) w -> carried (behavior m) = set_count ci n -> 1 <= n < max_stack -> (i < length (slots (behavior m)))%nat ->
  exists m' w' n', pickup_from hooks m w ci max_stack second p i = Ok (m', w') /\ gathered m w n m' w' n'.
Proof.
  intros Hok Hcar Hn Hi. assert (Hstay : exists m' w' n', Ok (m, w) = Ok (E := exhausted) (m', w') /\ gathered m w n m' w' n')
    by (exists m, w, n; split; [done|]; apply gathered_refl; (done || lia)).
  destruct (open_menu_slot p _ w i Hok Hi) as (s & key & old & Es & Hls & Hs & HS & HL & Hc & Hget & Hold & Hfit).
  pose proof Hok as [A B C D]. pose proof (mw_ok _ _ _ _ B) as Hwok. unfold pickup_from. rewrite Es. cbn [obind]. rewrite Hget. cbn [obind].
  destruct (negb (is_empty old) && _) eqn:E; [|done]. apply andb_true_iff in E as [Eo%negb_true_iff E].
  assert (Hk : kind_of old = kind_of ci).
  { unfold can_item_quick_replace in E. rewrite Eo in E. destruct (is_same_item_same_components ci old) eqn:Es'; [|done].
    symmetry. by apply same_kind. }
  destruct (storage_pickup _ w old p Hwok HL Hc) as [pick ->]. cbn [obind]. destruct (pick && _ && _); [|done].
  rewrite Hcar. cbn [count_field set_count].
  assert (Hmax : max_stack <= 99). { destruct (stack_max ci Hci Hne). lia. }
  assert (i32 (max_stack - n) = max_stack - n) as -> by (apply wraps_id; [lia|]; unfold is_s; lia).
  unfold safe_take.
  destruct (take_conserves (behavior m) p A s key old w (Z.min (count_field old) (max_stack - n)) (max_stack - n) B Hs HS HL Hc) as (r & w' & -> & Hr).
  cbn [obind]. destruct r as [taken|].
  - destruct Hr as [Ht Hw']. destruct (taken_facts _ _ _ _ _ _ _ _ Hold Ht) as (Htok & Htf & Htk). pose proof Ht as [_ [Hn1 Hn2] _ _].
    assert (Hnok : forall x, 0 <= x <= max_stack -> stack_ok (set_count ci x)) by (intros; by apply set_count_ok).
    rewrite Z.min_l by lia. rewrite grow_exact by ((apply Hnok; lia) || lia). cbn [count_field set_count].
    eexists _, w', (n + count_field taken). split; [done|]. split; cbn [with_behavior behavior layout]; [done|lia|done|done|].
    apply conserves_step; [done|]. eapply (take_merge (behavior m) p s key old); try done.
    + apply (Hnok (n + count_field taken)). lia.
    + intros k. rewrite Hcar. change (set_count (set_count ci n) (n + count_field taken)) with (set_count ci (n + count_field taken)).
      rewrite !amount_set_count, (amount_full k taken), Htk, Hk by (done || lia). case_decide; lia.
  - subst w'. assert (grow (set_count ci n) (Z.min (count_field empty_stack) (max_stack - n)) = set_count ci n) as Hg.
    { rewrite Z.min_l by (cbn [count_field empty_stack]; lia). rewrite grow_exact; [|apply set_count_ok; (done || lia)|cbn [count_field empty_stack]; lia].
      cbn [count_field set_count empty_stack]. by rewrite Z.add_0_r. }
    eexists _, w, n. split; [done|]. rewrite Hg. rewrite <- Hcar. unfold with_behavior. cbn [behavior layout kind].
    replace (with_carried (carried (behavior m)) (behavior m)) with (behavior m) by by destruct (behavior m).
    split; [done|lia|done|done|]. by apply step_refl.
Qed.

Lemma pickup_pass_ok second indices m w n :
  menu_ok p (behavior m) w -> carried (behavior m) = set_count ci n -> 1 <= n <= max_stack ->
  Forall (fun i => (i < length (slots (behavior m)))%nat) indices ->
  exists m' w' n', pickup_pass hooks m w ci max_stack second p indices = Ok (m', w') /\ gathered m w n m' w' n'.
Proof.
  revert m w n. induction indices as [|i indices IH]; intros m w n Hok Hcar Hn Hin; cbn [pickup_pass].
  { exists m, w, n. split; [done|]. apply gathered_refl; (done || lia). }
  apply Forall_cons in Hin as [Hi Hin]. rewrite Hcar. cbn [count_field set_count]. destruct (Z.ltb_spec n max_stack).
  2:{ exists m, w, n. split; [done|]. apply gathered_refl; (done || lia). }
  destruct (pickup_from_ok m w n second i Hok Hcar ltac:(lia) Hi) as (m1 & w1 & n1 & -> & [G1 G2 G3 G4 G5]). cbn [obind].
  destruct (IH m1 w1 n1) as (m2 & w2 & n2 & -> & [F1 F2 F3 F4 F5]); [by apply G5|done|lia|by rewrite G4|].
  exists m2, w2, n2. split; [done|]. split; [done|lia|congruence..|by eapply step_trans].
Qed.
End PickupAll.

Section Clicked.
Context {items : Items} {K : Type} (hooks : MenuKind K) {Hkind : ConservingKind hooks} (p : Player) (Hinf : has_infinite_materials p = false).

Lemma all_indices n direction : Forall (fun i => (i < n)%nat) (match direction with Forward => seq 0 n | Backward => rev (seq 0 n) end).
Proof.
  apply Forall_forall. intros i Hi. assert (i ∈ seq 0 n) as Hs by (destruct direction; [done|by rewrite <- Permutation_rev in Hi]).
  apply elem_of_seq in Hs. lia.
Qed.

Lemma do_pickup_all_ok m w i direction :
  menu_ok p (behavior m) w -> (i < length (slots (behavior m)))%nat ->
  exists m' w', do_pickup_all hooks m w i direction p = Ok (m', w') /\ layout m' = layout m /\ menu_step p (behavior m) w (behavior m') w'.
Proof.
  intros Hok Hi. destruct (open_menu_slot p _ w i Hok Hi) as (s & key & old & Es & Hls & Hs & HS & HL & Hc & Hget & Hold & Hfit).
  unfold do_pickup_all. rewrite Es. cbn [obind]. rewrite Hget. cbn [obind].
  destruct (storage_pickup _ w old p (mw_ok _ _ _ _ (ok_world _ _ _ Hok)) HL Hc) as [pick ->]. cbn [obind].
  destruct (is_empty (carried (behavior m)) || _) eqn:E; [exists m, w; split; [done|]; split; [done|by apply step_refl]|].
  apply orb_false_iff in E as [Ee _]. pose proof (ok_carried _ _ _ Hok) as Hc0. set (ci := carried (behavior m)) in *.
  destruct (stack_max ci Hc0 Ee) as [-> Hmax]. pose proof (proj2 Hc0 Ee) as [Hle _]. pose proof (proj1 (empty_cases _) Ee) as [_ Hpos].
  assert (Hci : carried (behavior m) = set_count ci (count_field ci)) by (unfold ci; by destruct (carried (behavior m))).
  destruct (pickup_pass_ok hooks p ci Hc0 Ee false _ m w _ Hok Hci ltac:(lia) (all_indices (length (slots (behavior m))) direction))
    as (m1 & w1 & n1 & -> & [G1 G2 G3 G4 G5]). cbn [obind].
  destruct (pickup_pass_ok hooks p ci Hc0 Ee true (match direction with Forward => seq 0 (length (slots (behavior m))) | Backward => rev (seq 0 (length (slots (behavior m)))) end) m1 w1 n1)
    as (m2 & w2 & n2 & -> & [F1 F2 F3 F4 F5]); [by apply G5|done|lia|rewrite G4; apply all_indices|].
  exists m2, w2. split; [done|]. split; [congruence|by eapply step_trans].
Qed.

Lemma swap_target_ok with_ : match with_ with Hotbar index => 0 <= index < 9 | Offhand => True end -> main_or_offhand (inventory_slot with_).
Proof.
  unfold main_or_offhand, INVENTORY_SIZE. destruct with_ as [index|]; cbn [inventory_slot]; [intros [? ?]|by right].
  left. apply Nat2Z.inj_lt. rewrite Z2Nat.id by done. lia.
Qed.

Lemma default_click_ok fuel m w click :
  menu_ok p (behavior m) w -> layout_ok (layout m) (length (slots (behavior m))) -> (102 <= fuel)%nat ->
  is_valid_for click (length (slots (behavior m))) = true -> swap_index_ok click -> (forall a, click <> Craft a) ->
  exists m' w', default_click hooks fuel m w click p = Ok (m', w') /\ layout m' = layout m /\ menu_step p (behavior m) w (behavior m') w'.
Proof.
  intros Hok Hly Hfuel Hv Hidx Hnc. pose proof Hok as [A B C D]. destruct click as [i button|button|i|i t|i|i whole|i dir|a];
    cbn [default_click is_valid_for] in *; [| | | | | | |by destruct (Hnc a)].
  - apply Nat.ltb_lt in Hv. destruct (do_pickup_ok (behavior m) p A w i button B C Hv) as (c' & w' & -> & Hc). cbn [obind].
    eexists _, w'. split; [done|]. split; [done|]. by apply conserves_step.
  - destruct (drop_carried_ok (behavior m) p A w button B C) as (c' & w' & -> & Hc).
    eexists _, w'. split; [done|]. split; [done|]. by apply conserves_step.
  - apply Nat.ltb_lt in Hv. by apply do_quick_move_ok.
  - apply andb_true_iff in Hv as [Hv%Nat.ltb_lt Ht]. destruct (do_swap_ok m p Hinf w i t Hok Hv) as (w' & -> & Hstep).
    { apply swap_target_ok. destruct t; [|done]. cbn [swap_index_ok] in Hidx. lia. }
    cbn [obind]. by exists m, w'.
  - unfold do_clone. rewrite Hinf. cbn [negb orb obind]. eexists _, w. split; [done|]. split; [done|]. by apply step_refl.
  - apply Nat.ltb_lt in Hv. destruct (do_throw_ok (behavior m) p A fuel w i whole B C Hv ltac:(lia)) as (w' & -> & Hc). cbn [obind].
    exists m, w'. split; [done|]. split; [done|]. by apply world_step.
  - apply Nat.ltb_lt in Hv. by apply do_pickup_all_ok.
Qed.
End Clicked.

(** ** A click *)

Section HandleClick.
Context {items : Items} {K : Type} (hooks : MenuKind K) {Hkind : ConservingKind hooks} (p : Player) (Hinf : has_infinite_materials p = false).

Lemma armor_items_ok b w : menu_ok p b w -> exists l, armor_items (container_refs b) w (slots b) = Ok l.
Proof.
  intros [A B _ _]. assert (Hall : forall s, s ∈ slots b -> exists old, slot_get s (container_refs b) w = Ok old).
  { intros s Hs. destruct (static_storage _ _ _ A s Hs) as (key & HS & HL). destruct (mw_cells _ _ _ _ B s key Hs storage_key) as [old Hc].
    exists old. apply storage_get; [by eapply mw_ok|done..]. }
  revert Hall. generalize (slots b). intros ss. induction ss as [|s ss IH]; intros Hall; cbn [armor_items]; [by exists []|].
  destruct (IH ltac:(intros s' ?; apply Hall; by right)) as [l Hl]. destruct (equipment_slot s); [|by exists l].
  destruct (Hall s ltac:(by left)) as [old ->]. cbn [obind]. rewrite Hl. by eexists.
Qed.

Lemma quick_craft_step b w action can_drag :
  menu_ok p b w -> match action with AddSlot i => (i < length (slots b))%nat | _ => True end ->
  exists b' w', do_quick_craft b w action false p can_drag = Ok (b', w') /\ menu_step p b w b' w'.
Proof.
  intros Hok Ha. pose proof Hok as [A B C D].
  destruct (do_quick_craft_ok b p A w action can_drag B C D Ha) as (q & d & c' & w' & -> & Hc & Hd).
  eexists _, w'. split; [done|]. by apply drag_step.
Qed.

Lemma handle_click_ok fuel m w click :
  menu_ok p (behavior m) w -> layout_ok (layout m) (length (slots (behavior m))) -> (102 <= fuel)%nat ->
  is_valid_for click (length (slots (behavior m))) = true -> swap_index_ok click ->
  exists m' w', handle_click hooks fuel m w click p = Ok (m', w') /\ layout m' = layout m /\ menu_step p (behavior m) w (behavior m') w'.
Proof.
  intros Hok Hly Hfuel Hv Hidx. assert ((exists a, click = Craft a) \/ ~ (exists a, click = Craft a)) as [[action ->]|Hnc] by (destruct click; [right; by intros []..|left; by eexists]).
  - cbn [handle_click]. destruct (conserving_drag (kind m) (behavior m) w action p Hok) as (o & k & b & w1 & -> & Hstep). cbn [obind].
    pose proof Hstep as [S1 _ _ S3 _ _]. destruct o.
    + eexists _, w1. split; [done|]. split; [done|]. cbn [behavior]. eapply step_trans; [done|]. by apply reset_step.
    + rewrite Hinf. destruct (quick_craft_step b w1 action (kind_can_drag_to hooks k) S3) as (b' & w' & -> & Hstep').
      { cbn [is_valid_for] in Hv. destruct action; try done. apply Nat.ltb_lt in Hv. by rewrite S1. }
      cbn [obind]. eexists _, w'. split; [done|]. split; [done|]. by eapply step_trans.
  - set (b0 := match quickcraft (behavior m) with Some _ => reset_quick_craft (behavior m) | None => behavior m end).
    assert (Hstep0 : menu_step p (behavior m) w b0 w) by (unfold b0; destruct (quickcraft (behavior m)); [by apply reset_step|by apply step_refl]).
    destruct (conserving_clicked (kind m) b0 w click p (step_ok _ _ _ _ _ Hstep0)) as (o & k & b & w1 & Hclick & Hstep1).
    pose proof (step_trans _ _ _ _ _ _ _ Hstep0 Hstep1) as Hstep. pose proof Hstep as [S1 _ _ S3 _ _].
    assert (handle_click hooks fuel m w click p =
      match o with Consume => Ok (mk_menu b (layout m) k, w1) | Fallthrough => default_click hooks fuel (mk_menu b (layout m) k) w1 click p end) as ->.
    { destruct click; try (destruct Hnc; by eexists); cbn [handle_click]; fold b0; by rewrite Hclick. }
    destruct o; [by eexists _, w1|].
    destruct (default_click_ok hooks p Hinf fuel (mk_menu b (layout m) k) w1 click) as (m' & w' & -> & Hly' & Hstep');
      cbn [behavior layout]; [done|by rewrite S1|done|by rewrite S1|done|intros a ->; apply Hnc; by exists a|].
    exists m', w'. split; [done|]. split; [done|]. by eapply step_trans.
Qed.

Lemma clicked_ok fuel m w click :
  menu_ok p (behavior m) w -> layout_ok (layout m) (length (slots (behavior m))) -> (102 <= fuel)%nat -> swap_index_ok click ->
  exists m' w' events, clicked hooks fuel m w click p = Ok (m', w', events) /\ layout m' = layout m /\ menu_step p (behavior m) w (behavior m') w'.
Proof.
  intros Hok Hly Hfuel Hidx. unfold clicked. destruct (is_valid_for click _) eqn:Hv; cbn [negb].
  2:{ exists m, w, []. split; [done|]. split; [done|by apply step_refl]. }
  destruct (armor_items_ok (behavior m) w Hok) as [before ->]. cbn [obind].
  destruct (handle_click_ok fuel m w click Hok Hly Hfuel Hv Hidx) as (m1 & w1 & -> & Hly1 & Hstep1). cbn [obind].
  assert (Hre : exists m2 w2, (if should_recompute m1 click then
      let? '(k, b, w) := kind_slots_changed hooks (kind m1) (behavior m1) w1 p in Ok (mk_menu b (layout m1) k, w) else Ok (m1, w1)) = Ok (m2, w2) /\
      layout m2 = layout m1 /\ menu_step p (behavior m1) w1 (behavior m2) w2).
  { pose proof (step_ok _ _ _ _ _ Hstep1) as Hok1. destruct (should_recompute m1 click).
    - destruct (conserving_changed (kind m1) (behavior m1) w1 p Hok1) as (k & b & w2 & -> & Hs). cbn [obind]. by eexists _, w2.
    - exists m1, w1. split; [done|]. split; [done|by apply step_refl]. }
  destruct Hre as (m2 & w2 & -> & Hly2 & Hstep2). cbn [obind].
  destruct (armor_items_ok (behavior m2) w2 (step_ok _ _ _ _ _ Hstep2)) as [after ->]. cbn [obind].
  eexists m2, w2, _. split; [done|]. split; [congruence|by eapply step_trans].
Qed.
End HandleClick.

(** ** Closing a menu *)

Section Closing.
Context {items : Items} (p : Player) (b : MenuBehavior) (L : Locks).
Notation ss := (slots b).
Notation inv := (player_inventory p).
Context (Hst : menu_static ss L p).

(** A drained slot is not over the player's own inventory. *)
Definition drainable (i : nat) : Prop := exists s key, ss !! i = Some s /\ physical_key s = Some key /\ key.1 <> inv.

Lemma drain_slot_ok w ret i : menu_world ss L p w -> drainable i ->
  exists w' s key, drain_slot b L w p ret i = Ok w' /\ ss !! i = Some s /\ physical_key s = Some key /\
    kept ss L p w w' /\ cell (view w') key = Some empty_stack /\
    (forall key', key'.1 <> inv -> key' <> key -> cell (view w') key' = cell (view w) key').
Proof.
  intros Hw (s & key & Hls & Hkey & Hne). assert (Hi : (i < length ss)%nat) by by eapply lookup_lt_Some.
  assert (Hs : s ∈ ss) by by eapply list_elem_of_lookup_2. destruct (static_storage _ _ _ Hst s Hs) as (key1 & HS & HL).
  pose proof (@storage_key _ s key1 HS) as E. rewrite Hkey in E. injection E as <-.
  destruct (mw_cells _ _ _ _ Hw s key Hs Hkey) as [old Hc]. pose proof (mw_ok _ _ _ _ Hw) as Hwok. pose proof (cell_ok _ _ _ Hwok Hc) as Hold.
  unfold drain_slot, slot_at. rewrite Hls. cbn [obind]. rewrite (storage_get L w old Hwok HL Hc). cbn [obind].
  destruct (storage_put L w old empty_stack Hwok HL Hc) as (w1 & -> & Hwr). cbn [obind].
  pose proof (menu_wrote ss L p Hst s key empty_stack w w1 Hw Hs Hkey Hwr empty_ok ltac:(by left)) as Hw1.
  pose proof (wrote_kinds _ _ _ _ Hwr) as Hk1. pose proof (wrote_cell key _ _ _ _ Hc Hwr) as Hc1.
  assert (Ht1 : forall k, world_total k w1 + amount k old = world_total k w).
  { intros k. rewrite (wrote_total k _ _ _ _ _ Hc Hwr), (amount_empty k empty_stack) by done. lia. }
  assert (Hoth : forall key', key' <> key -> cell (view w1) key' = cell (view w) key') by (intros; rewrite (proj1 Hwr); by rewrite cell_updated_ne).
  destruct (is_empty old) eqn:Eo.
  { exists w1, s, key. split_and!; try done; [|intros; by apply Hoth]. split; [done..|]. intros k. rewrite <- Ht1, (amount_empty k old) by done. lia. }
  destruct (storage_changed L w1 _ (mw_ok _ _ _ _ Hw1) HL Hc1) as (w2 & -> & Hsame). cbn [obind].
  pose proof (menu_same _ _ _ Hst _ _ Hsame Hw1) as Hw2. pose proof (same_kinds _ _ Hsame) as Hk2.
  assert (exists w3, (if ret then add_item_or_drop L w2 p old else Ok (drop_item w2 old)) = Ok w3 /\ menu_world ss L p w3 /\ kinds w3 = kinds w2 /\
    (forall k, world_total k w3 = world_total k w2 + amount k old) /\ (forall key', key'.1 <> inv -> cell (view w3) key' = cell (view w2) key'))
    as (w3 & -> & Hw3 & Hk3 & Ht3 & Hc3).
  { destruct ret; [by apply add_item_or_drop_ok|]. eexists. split; [done|]. destruct (drop_ok ss L p Hst w2 old Hw2 Hold) as (? & ? & ?).
    do 3 (split; [done|]). intros. apply drop_cell. }
  exists w3, s, key. split_and!; try done.
  - split; [done|congruence|]. intros k. rewrite Ht3, <- Ht1. by rewrite <- Hsame.
  - rewrite Hc3 by done. by rewrite (proj1 Hsame).
  - intros key' Hn1 Hn2. rewrite Hc3 by done. rewrite (proj1 Hsame). by apply Hoth.
Qed.

Lemma drain_slots_ok ret indices w : menu_world ss L p w -> Forall drainable indices ->
  exists w', drain_slots b L w p ret indices = Ok w' /\ kept ss L p w w' /\
    (forall i s key, i ∈ indices -> ss !! i = Some s -> physical_key s = Some key -> cell (view w') key = Some empty_stack) /\
    (forall key, key.1 <> inv -> cell (view w) key = Some empty_stack -> cell (view w') key = Some empty_stack).
Proof.
  intros Hw Hall. revert w Hw. induction Hall as [|i indices Hd Hall IH]; intros w Hw; cbn [drain_slots].
  { exists w. split_and!; try done. intros ? ? ? H. by apply not_elem_of_nil in H. }
  destruct (drain_slot_ok w ret i Hw Hd) as (w1 & s & key & -> & Hls & Hkey & [K1 K2 K3] & Hc1 & Ho1). cbn [obind].
  destruct (IH w1 K1) as (w2 & -> & [J1 J2 J3] & Hall2 & Hkeep). exists w2. split; [done|]. split; [split; [done|congruence|intros k; by rewrite J3]|].
  destruct Hd as (s1 & key1 & Hls1 & Hkey1 & Hne). rewrite Hls in Hls1. injection Hls1 as <-. rewrite Hkey in Hkey1. injection Hkey1 as <-.
  split.
  - intros j s' key' [->|Hj]%elem_of_cons Hls' Hkey'; [|by eapply Hall2].
    rewrite Hls in Hls'. injection Hls' as <-. rewrite Hkey in Hkey'. injection Hkey' as <-. by apply Hkeep.
  - intros key' Hn' Hc'. apply Hkeep; [done|]. destruct (decide (key' = key)) as [->|]; [done|]. by rewrite Ho1.
Qed.
End Closing.

(** ** Plain menus *)

(** A menu of plain slots over in-range positions of locked containers is
    well-formed as soon as its world is. *)
Lemma plain_menu {items : Items} ss (L : Locks) p w :
  (forall s, s ∈ ss -> exists id i c, s = NormalSlot id i /\ id ∈ L /\ containers w !! id = Some c /\ (i < length (items_of c))%nat) ->
  world_ok w ->
  (forall id c x, containers w !! id = Some c -> x ∈ items_of c -> is_empty x = false -> count_field x <= get_max_stack_size c) ->
  (exists c selected, containers w !! player_inventory p = Some c /\ container_kind c = PlayerInventory selected) ->
  menu_static ss L p /\ menu_world ss L p w.
Proof.
  intros Hss Hw Hlim (ci & sel & Hci & Hkind). split; split; try done.
  - intros s Hs. destruct (Hss s Hs) as (id & i & c & -> & HL & _). exists (id, i). split; [apply _|done].
  - intros s s' Hs Hs'. destruct (Hss s Hs) as (id & i & c & -> & _), (Hss s' Hs') as (id' & i' & c' & -> & _). by intros [= -> ->].
  - intros s i w' st selected Hs Hkey _ Hk He. destruct (Hss s Hs) as (id & i' & c & -> & HL & _). simpl in Hkey. injection Hkey as -> ->.
    cbn [NormalSlot max_size_for_item]. unfold default_max_size_for_item, backed_max, locked, guard_get. rewrite decide_True by done.
    unfold kinds in Hk. rewrite lookup_fmap in Hk. apply fmap_Some in Hk as ([kd l] & Hv & Hk). simpl in Hk. subst kd.
    apply view_lookup in Hv as (c' & -> & Hsh). cbn [obind]. unfold get_max_stack_size. injection Hsh as -> _. done.
  - intros s key Hs Hkey. destruct (Hss s Hs) as (id & i & c & -> & HL & Hc & Hi). injection Hkey as <-. apply lookup_lt_is_Some in Hi as [x Hx].
    exists x. apply cell_some. exists (container_kind c), (items_of c). split; [|done]. apply view_lookup. by exists c.
  - intros s key x Hs Hkey Hx. destruct (Hss s Hs) as (id & i & c & -> & HL & Hc & Hi). injection Hkey as <-.
    destruct (is_empty x) eqn:He; [by left|right]. pose proof (cell_ok _ _ _ Hw Hx) as Hok. destruct (stack_max x Hok He) as [Hmx _].
    pose proof (proj2 Hok He) as [Hle _]. exists (Z.min (get_max_stack_size c) (max_stack_size x)). split.
    + cbn [NormalSlot max_size_for_item]. unfold default_max_size_for_item, backed_max, locked, guard_get. by rewrite decide_True, Hc by done.
    + apply cell_some in Hx as (kd & l & Hv & Hl). apply view_lookup in Hv as (c' & Hc' & Hsh). cbn [fst snd] in *. rewrite Hc in Hc'. injection Hc' as <-.
      injection Hsh as _ <-. apply list_elem_of_lookup_2 in Hl. specialize (Hlim id c x Hc Hl He). lia.
  - exists sel. unfold kinds. rewrite lookup_fmap. unfold view. rewrite lookup_fmap, Hci. simpl. by rewrite Hkind.
Qed.

(** ** Fuel *)

Section Fuel.
Context {items : Items} {K : Type} (hooks : MenuKind K) (p : Player).

Lemma quick_move_loop_more fuel fuel' m w i r x : quick_move_loop hooks fuel m w i p r = Ok x -> (fuel <= fuel')%nat ->
  quick_move_loop hooks fuel' m w i p r = Ok x.
Proof.
  revert fuel' m w r. induction fuel as [|fuel IH]; intros [|fuel'] m w r; cbn [quick_move_loop]; try done; [lia|]. intros H Hle.
  destruct (is_empty r); [done|]. destruct (slot_at _ i) as [s| |]; [|done..]. cbn [obind] in *.
  destruct (slot_get s _ w) as [c| |]; [|done..]. cbn [obind] in *. destruct (negb _); [done|].
  destruct (quick_move_stack hooks m w i p) as [[[r1 m1] w1]| |]; [|done..]. cbn [obind] in *. apply IH; [done|lia].
Qed.

Lemma throw_loop_more fuel fuel' (L : Locks) w s dropped x : throw_loop fuel L w s dropped p = Ok x -> (fuel <= fuel')%nat ->
  throw_loop fuel' L w s dropped p = Ok x.
Proof.
  revert fuel' w. induction fuel as [|fuel IH]; intros [|fuel'] w; cbn [throw_loop]; try done; [lia|]. intros H Hle.
  destruct (may_pickup s L w p) as [b| |]; [|done..]. cbn [obind] in *. destruct (negb b); [done|]. destruct (negb (can_drop_items p)); [done|].
  destruct (slot_get s L w) as [c| |]; [|done..]. cbn [obind] in *. destruct (is_empty c || _); [done|].
  destruct (safe_take s L w _ _ p) as [[t w1]| |]; [|done..]. cbn [obind] in *. destruct (is_empty t); [done|]. apply IH; [done|lia].
Qed.

Lemma do_quick_move_more fuel fuel' m w i x : do_quick_move hooks fuel m w i p = Ok x -> (fuel <= fuel')%nat -> do_quick_move hooks fuel' m w i p = Ok x.
Proof.
  unfold do_quick_move. intros H Hle. destruct (slot_at _ i) as [s| |]; [|done..]. cbn [obind] in *.
  destruct (may_pickup s _ w p) as [b| |]; [|done..]. cbn [obind] in *. destruct (negb b); [done|].
  destruct (slot_get s _ w) as [c| |]; [|done..]. cbn [obind] in *. destruct (is_empty c); [done|].
  destruct (quick_move_stack hooks m w i p) as [[[r1 m1] w1]| |]; [|done..]. cbn [obind] in *. by eapply quick_move_loop_more.
Qed.

Lemma do_throw_more fuel fuel' b w i whole x : do_throw fuel b w i whole p = Ok x -> (fuel <= fuel')%nat -> do_throw fuel' b w i whole p = Ok x.
Proof.
  unfold do_throw. intros H Hle. destruct (negb _); [done|]. destruct (slot_at b i) as [s| |]; [|done..]. cbn [obind] in *.
  destruct (may_pickup s _ w p) as [pk| |]; [|done..]. cbn [obind] in *. destruct (negb pk); [done|]. destruct (negb (can_drop_items p)); [done|].
  destruct (slot_get s _ w) as [c| |]; [|done..]. cbn [obind] in *. destruct (safe_take s _ w _ _ p) as [[t w1]| |]; [|done..]. cbn [obind] in *.
  destruct whole; [|done]. by eapply throw_loop_more.
Qed.
End Fuel.

(** ** Theorems *)

(** C3: a click of a player without infinite materials conserves items.
    Whatever fields the packet holds, if they decode to a click then the menu
    handles it without panicking, every stack stays within the limit of its
    slot, and for every item kind the count over the containers, the cursor
    and the dropped stacks is what it was.  The menu's slots are storage
    slots, its kind any whose hooks conserve items. *)
Theorem clicks_conserve_items {items : Items} {K} (hooks : MenuKind K) {Hkind : ConservingKind hooks}
    (m : Menu K) (w : World) (p : Player) (slot_num button : Z) (t : ClickType) (click : Click) (fuel : nat) :
  has_infinite_materials p = false ->
  menu_ok p (behavior m) w -> layout_ok (layout m) (length (slots (behavior m))) -> (102 <= fuel)%nat ->
  parse slot_num button t (length (slots (behavior m))) = Some click ->
  exists m' w' events, clicked hooks fuel m w click p = Ok (m', w', events) /\
    menu_ok p (behavior m') w' /\ kinds w' = kinds w /\
    (forall k, amount k (carried (behavior m')) + world_total k w' = amount k (carried (behavior m)) + world_total k w).
Proof.
  intros Hinf Hok Hly Hfuel [_ Hidx]%parse_valid.
  destruct (clicked_ok hooks p Hinf fuel m w click Hok Hly Hfuel Hidx) as (m' & w' & ev & -> & _ & [_ _ _ S3 S4 S5]). by exists m', w', ev.
Qed.

(** The loops of shift-clicks and of throwing a stack end: a hundred and
    two rounds are always enough, and more change nothing. *)
Theorem click_loops_terminate {items : Items} {K} (hooks : MenuKind K) {Hkind : ConservingKind hooks}
    (m : Menu K) (w : World) (p : Player) (i : nat) :
  menu_ok p (behavior m) w -> layout_ok (layout m) (length (slots (behavior m))) -> (i < length (slots (behavior m)))%nat ->
  (exists result, forall fuel, (102 <= fuel)%nat -> do_quick_move hooks fuel m w i p = Ok result) /\
  (forall whole, exists w', forall fuel, (102 <= fuel)%nat -> do_throw fuel (behavior m) w i whole p = Ok w').
Proof.
  intros Hok Hly Hi. split.
  - destruct (do_quick_move_ok hooks p 102 m w i Hok Hly Hi ltac:(lia)) as (m' & w' & H & _). exists (m', w').
    intros fuel Hf. by eapply do_quick_move_more.
  - intros whole. destruct (do_throw_ok (behavior m) p (ok_static _ _ _ Hok) 102 w i whole (ok_world _ _ _ Hok) (ok_carried _ _ _ Hok) Hi ltac:(lia))
      as (w' & H & _). exists w'. intros fuel Hf. by eapply do_throw_more.
Qed.

(** Closing a menu hands everything back.  Before the kind's own cleanup
    the cursor is empty, every slot of a drained section is empty, and for
    every item kind nothing was lost: the items are in the player's inventory
    or dropped; the cleanup then keeps that.  Drained slots are not over the
    player's own inventory. *)
Theorem closing_returns_items {items : Items} {K} (hooks : MenuKind K) {Hkind : ConservingKind hooks} (m : Menu K) (w : World) (p : Player) :
  menu_ok p (behavior m) w ->
  Forall (drainable p (behavior m)) (concat (range_indices <$> drain_sections (layout m))) ->
  exists w1 k' b' w', removed hooks m w p = Ok (mk_menu b' (layout m) k', w') /\
    kind_removed hooks (kind m) (with_carried empty_stack (behavior m)) w1 p = Ok (k', b', w') /\
    (forall i s key, i ∈ concat (range_indices <$> drain_sections (layout m)) -> slots (behavior m) !! i = Some s ->
       physical_key s = Some key -> cell (view w1) key = Some empty_stack) /\
    (forall k, world_total k w1 = amount k (carried (behavior m)) + world_total k w) /\
    (forall k, amount k (carried b') + world_total k w' = amount k (carried (behavior m)) + world_total k w).
Proof.
  intros Hok Hdr. pose proof Hok as [A B C D]. unfold removed. set (held := carried (behavior m)) in *.
  assert (exists w0, (if is_empty held then Ok w else if returns_menu_items_to_inventory p then add_item_or_drop {[player_inventory p]} w p held
      else Ok (drop_item w held)) = Ok w0 /\ menu_world (slots (behavior m)) (container_refs (behavior m)) p w0 /\ kinds w0 = kinds w /\
      (forall k, world_total k w0 = world_total k w + amount k held)) as (w0 & -> & Hw0 & Hk0 & Ht0).
  { destruct (is_empty held) eqn:Eh; [exists w; split_and!; try done; intros k; rewrite amount_empty by done; lia|].
    destruct (returns_menu_items_to_inventory p).
    - destruct (add_item_or_drop_ok _ _ p A {[player_inventory p]} w held B C) as (w0 & H0 & H1 & H2 & H3 & _). by exists w0.
    - eexists. split; [done|]. by eapply drop_ok. }
  cbn [obind]. set (b1 := with_carried empty_stack (behavior m)).
  set (L' := if returns_menu_items_to_inventory p then container_refs b1 ∪ {[player_inventory p]} else container_refs b1).
  assert (HL' : container_refs (behavior m) ⊆ L') by (unfold L'; destruct (returns_menu_items_to_inventory p); set_solver).
  destruct (drain_slots_ok p b1 L' (static_more _ _ _ _ A HL') (returns_menu_items_to_inventory p) _ w0
    (proj1 (world_more _ _ _ L' _ A HL') Hw0) Hdr) as (w1 & Hd & [K1 K2 K3] & Hall & _).
  assert (return_drained_items (layout m) b1 w0 p (returns_menu_items_to_inventory p) = Ok w1) as ->.
  { unfold return_drained_items. destruct (drain_sections (layout m)); [by injection Hd as ->|]. exact Hd. }
  cbn [obind]. assert (Hw1 : menu_world (slots (behavior m)) (container_refs (behavior m)) p w1) by (by apply (world_more _ _ _ L')).
  assert (Hstep : menu_step p (behavior m) w b1 w1).
  { apply conserves_step; [done|]. split; [apply empty_ok|done|by rewrite K2|]. intros k. rewrite K3, Ht0, (amount_empty k empty_stack) by done. unfold held. lia. }
  destruct (conserving_removed (kind m) b1 w1 p (step_ok _ _ _ _ _ Hstep)) as (k' & b' & w' & Hr & Hstep'). rewrite Hr. cbn [obind].
  exists w1, k', b', w'. split_and!; try done.
  - intros k. rewrite K3, Ht0. lia.
  - intros k. by rewrite (step_total _ _ _ _ _ Hstep' k), (step_total _ _ _ _ _ Hstep k).
Qed.

(** ** A chest *)

Module Chest.

#[local] Instance stone_items : Items := fun _ => {[ MAX_STACK_SIZE := IntData 64 ]}.

Definition stone (n : Z) : ItemStack := mk_stack (vanilla_static "stone"%string) n ∅.
Definition player : Player := mk_player 0 false true true.
(** A chest with stones in its first slot, and an empty inventory. *)
Definition world (n : Z) : World :=
  mk_world {[ 0 := mk_container (PlayerInventory 0) (replicate 43 empty_stack) 0;
              1 := mk_container BarrelContainer (stone n :: replicate 26 empty_stack) 0 ]} [].
Definition chest_slots : list Slot := (NormalSlot 1 <$> seq 0 27) ++ (NormalSlot 0 <$> (seq 9 27 ++ seq 0 9)).
Definition menu : Menu unit :=
  mk_menu (behavior_new chest_slots 1 {[ 1; 0 ]})
    (mk_layout [mk_route (0, 27)%nat [(27, 63)%nat] Backward DropRemainder; mk_route (27, 63)%nat [(0, 27)%nat] Forward DropRemainder]
       [(0, 27)%nat]) ().

Lemma stone_ok n : 0 <= n <= 64 -> stack_ok (stone n).
Proof. intros Hn. split; [simpl; lia|]. intros _. assert (kind_max (kind_of (stone n)) = 64) as E by (vm_compute; done). split; [simpl; lia|].
  split; [rewrite E; lia|]. assert (default 0 (kind_int (kind_of (stone n)) MAX_DAMAGE) = 0) as -> by (vm_compute; done). done. Qed.

Lemma menu_good n : 0 <= n <= 64 -> menu_ok player (behavior menu) (world n).
Proof.
  intros Hn. assert (Hstacks : forall id c x, containers (world n) !! id = Some c -> x ∈ items_of c -> x = empty_stack \/ x = stone n /\ id = 1).
  { intros id c x. unfold world. cbn [containers]. intros [[<- <-]|[_ [<- <-]%lookup_singleton_Some]]%lookup_insert_Some; cbn [items_of].
    - intros [-> _]%elem_of_replicate. by left.
    - intros [->|[-> _]%elem_of_replicate]%elem_of_cons; [by right|by left]. }
  destruct (plain_menu chest_slots {[1; 0]} player (world n)) as [A B].
  - intros s Hs. unfold chest_slots in Hs. apply elem_of_app in Hs as [(i & -> & Hi%elem_of_seq)%list_elem_of_fmap|(i & -> & Hi)%list_elem_of_fmap].
    + eexists 1, i, _. split; [done|]. split; [set_solver|]. split; [reflexivity|]. simpl. lia.
    + eexists 0, i, _. split; [done|]. split; [set_solver|]. split; [reflexivity|]. simpl. apply elem_of_app in Hi as [Hi%elem_of_seq|Hi%elem_of_seq]; lia.
  - split; [|by intros s Hs%not_elem_of_nil]. intros id c Hc. split.
    + intros i s Hs%list_elem_of_lookup_2. destruct (Hstacks id c s Hc Hs) as [->|[-> _]]; [apply empty_ok|by apply stone_ok].
    + unfold world in Hc. cbn [containers] in Hc. apply lookup_insert_Some in Hc as [[<- <-]|[_ [<- <-]%lookup_singleton_Some]]; simpl; [by split; [|lia]|done].
  - intros id c x Hc Hx He. destruct (Hstacks id c x Hc Hx) as [->|[-> ->]]; [done|].
    change (Some (mk_container BarrelContainer (stone n :: replicate 26 empty_stack) 0) = Some c) in Hc. injection Hc as <-.
    change (n <= 64). lia.
  - by eexists _, 0%nat.
  - split; [done|done|apply empty_ok|]. by split.
Qed.

Lemma layout_good : layout_ok (layout menu) (length (slots (behavior menu))).
Proof.
  split.
  - intros r t [->|[->|[]%not_elem_of_nil]%elem_of_cons]%elem_of_cons; intros ->%list_elem_of_singleton; simpl; lia.
  - intros r ->%list_elem_of_singleton. simpl. lia.
Qed.
End Chest.

(** A shift-click on the chest's stones. *)
Lemma clicks_conserve_items_witness :
  let items := Chest.stone_items in
  exists m' w' events, clicked BasicKind 102 Chest.menu (Chest.world 10) (QuickMove 0) Chest.player = Ok (m', w', events) /\
    menu_ok Chest.player (behavior m') w' /\ kinds w' = kinds (Chest.world 10) /\
    (forall k, amount k (carried (behavior m')) + world_total k w' = amount k (carried (behavior Chest.menu)) + world_total k (Chest.world 10)).
Proof.
  intros items. apply (clicks_conserve_items BasicKind Chest.menu (Chest.world 10) Chest.player 0 0 TQuickMove (QuickMove 0) 102).
  - reflexivity.
  - apply Chest.menu_good. lia.
  - apply Chest.layout_good.
  - lia.
  - reflexivity.
Defined.

Lemma click_loops_terminate_witness :
  let items := Chest.stone_items in
  (exists result, forall fuel, (102 <= fuel)%nat -> do_quick_move BasicKind fuel Chest.menu (Chest.world 10) 0 Chest.player = Ok result) /\
  (forall whole, exists w', forall fuel, (102 <= fuel)%nat -> do_throw fuel (behavior Chest.menu) (Chest.world 10) 0 whole Chest.player = Ok w').
Proof.
  intros items. apply (click_loops_terminate BasicKind Chest.menu (Chest.world 10) Chest.player 0).
  - apply Chest.menu_good. lia.
  - apply Chest.layout_good.
  - vm_compute. lia.
Defined.

Lemma closing_returns_items_witness :
  let items := Chest.stone_items in
  exists w1 k' b' w', removed BasicKind Chest.menu (Chest.world 10) Chest.player = Ok (mk_menu b' (layout Chest.menu) k', w') /\
    cell (view w1) (1, 0%nat) = Some empty_stack /\
    (forall k, amount k (carried b') + world_total k w' = amount k (carried (behavior Chest.menu)) + world_total k (Chest.world 10)).
Proof.
  intros items. destruct (closing_returns_items BasicKind Chest.menu (Chest.world 10) Chest.player) as (w1 & k' & b' & w' & H1 & _ & H2 & _ & H3).
  - apply Chest.menu_good. lia.
  - apply Forall_forall. intros i Hi. exists (NormalSlot 1 i), (1, i). change (i ∈ seq 0 27 ++ []) in Hi. rewrite app_nil_r in Hi. apply elem_of_seq in Hi.
    split; [|by split]. cbn [Chest.menu behavior slots behavior_new]. unfold Chest.chest_slots. rewrite lookup_app_l by (simpl; lia).
    rewrite list_lookup_fmap, lookup_seq_lt by lia. done.
  - exists w1, k', b', w'. split; [done|]. split; [|done]. apply (H2 0%nat (NormalSlot 1 0)); [|done|done].
    change (0%nat ∈ seq 0 27 ++ []). rewrite app_nil_r. apply elem_of_seq. lia.
Defined.
