(* ===== verification/MenuSync.v ===== *)
(** * Menu synchronisation

    Models what [menu/behavior.rs] keeps of the client's screen and how it is
    brought up to date, and [Player::process_container_click], which runs a
    click and then answers the client's prediction.  Sending a packet appends
    it to the list a function returns; [Screen] and [client_apply] specify
    the client that receives them.

    The ids of the registries and the hash of a component are parameters,
    [Hashing]. *)

From Stdlib Require Import Lia ZArith String.
From stdpp Require Import prelude list gmap.
From S2P Require Import Prelude Sums Identifier ItemStack Containers Slots Click MenuBehavior Menu.

(** ** Hashed stacks *)

Class Hashing := {
  registry_item_id : Identifier -> Z;
  id_from_key : Identifier -> option Z;
  get_key_by_id : Z -> option Identifier;
  compute_hash : Z -> ComponentData -> option Z
}.

Section Sync.
Context {items : Items} {hashing : Hashing}.

(** The ids of the components a patch removes. *)
Definition removed_ids (patch : DataComponentPatch) : gset Z :=
  list_to_set (omap (fun e => match e.2 with Removed => id_from_key e.1 | Set_ _ => None end) (map_to_list patch)).

Definition entry_hash_matches (added : gmap Z Z) (e : Identifier * ComponentPatchEntry) : bool :=
  match e.2 with
  | Removed => true
  | Set_ value =>
      match id_from_key e.1 with
      | None => true
      | Some id =>
          match added !! id, compute_hash id value with
          | Some expected_hash, Some actual_hash => actual_hash =? expected_hash
          | _, _ => false
          end
      end
  end.

Definition added_id_known (patch : DataComponentPatch) (id : Z) : bool :=
  match get_key_by_id id with
  | None => false
  | Some key => match patch !! key with Some (Set_ _) => true | _ => false end
  end.

Definition validate_component_hashes (added : gmap Z Z) (removed : list Z) (patch : DataComponentPatch) : bool :=
  bool_decide (removed_ids patch = list_to_set removed)
  && forallb (entry_hash_matches added) (map_to_list patch)
  && forallb (added_id_known patch) (elements (dom added)).

Definition hashed_stack_matches (hash : HashedStack) (i : ItemStack) : bool :=
  match hash with
  | HashedEmpty => is_empty i
  | HashedItem id n added removed =>
      negb (is_empty i) && (registry_item_id (item_field i) =? id) && (count_field i =? n)
      && validate_component_hashes added removed (patch_field i)
  end.

(** [RemoteSlot::matches] *)
Definition remote_matches (r : RemoteSlot) (local : ItemStack) : bool :=
  match r with
  | Unknown => false
  | Known remote => matches remote local
  | Hashed hash => hashed_stack_matches hash local
  end.

(** ** Packets *)

Inductive Packet :=
| CContainerSetContent (container_id state_id : Z) (items : list ItemStack) (carried_item : ItemStack)
| CContainerSetSlot (container_id state_id slot : Z) (item_stack : ItemStack)
| CSetCursorItem (item_stack : ItemStack)
| CContainerSetData (container_id id value : Z).

Definition with_remote (slots_ : list RemoteSlot) (carried_ : RemoteSlot) (state : Z) (data : list Z) (self : MenuBehavior) : MenuBehavior :=
  mk_behavior (slots self) slots_ (carried self) carried_ (container_id self) state
    (suppress_remote_updates self) (quickcraft self) (quickcraft_slots self) (data_slots self) data (container_refs self).
Definition with_suppress (b : bool) (self : MenuBehavior) : MenuBehavior :=
  mk_behavior (slots self) (remote_slots self) (carried self) (remote_carried self) (container_id self) (state_id self)
    b (quickcraft self) (quickcraft_slots self) (data_slots self) (remote_data_slots self) (container_refs self).

Definition with_remote_slots (l : list RemoteSlot) (self : MenuBehavior) : MenuBehavior :=
  with_remote l (remote_carried self) (state_id self) (remote_data_slots self) self.
Definition with_remote_carried (r : RemoteSlot) (self : MenuBehavior) : MenuBehavior :=
  with_remote (remote_slots self) r (state_id self) (remote_data_slots self) self.
Definition with_remote_data (l : list Z) (self : MenuBehavior) : MenuBehavior :=
  with_remote (remote_slots self) (remote_carried self) (state_id self) l self.

Definition add_data_slot (initial_value : Z) (self : MenuBehavior) : MenuBehavior :=
  mk_behavior (slots self) (remote_slots self) (carried self) (remote_carried self) (container_id self) (state_id self)
    (suppress_remote_updates self) (quickcraft self) (quickcraft_slots self) (data_slots self ++ [initial_value])
    (remote_data_slots self ++ [0]) (container_refs self).
Definition get_data (index : nat) (self : MenuBehavior) : option Z := data_slots self !! index.
Definition set_data (index : nat) (value : Z) (self : MenuBehavior) : MenuBehavior :=
  mk_behavior (slots self) (remote_slots self) (carried self) (remote_carried self) (container_id self) (state_id self)
    (suppress_remote_updates self) (quickcraft self) (quickcraft_slots self) (<[index := value]> (data_slots self))
    (remote_data_slots self) (container_refs self).

Definition suppress_updates : MenuBehavior -> MenuBehavior := with_suppress true.
Definition resume_remote_updates : MenuBehavior -> MenuBehavior := with_suppress false.

(** 15 bits *)
Definition increment_state_id (self : MenuBehavior) : MenuBehavior :=
  with_remote (remote_slots self) (remote_carried self) (Z.land (u32 (state_id self + 1)) 32767) (remote_data_slots self) self.

Definition i16 (z : Z) : Z := wraps 16 z.

(** ** Reported perceptions *)

Definition set_remote_slot_known (slot : nat) (i : ItemStack) (self : MenuBehavior) : MenuBehavior :=
  with_remote_slots (<[slot := Known i]> (remote_slots self)) self.
Definition mark_remote_slot_unknown (slot : nat) (self : MenuBehavior) : MenuBehavior :=
  with_remote_slots (<[slot := Unknown]> (remote_slots self)) self.
Definition set_remote_slot (slot : nat) (hash : HashedStack) (self : MenuBehavior) : MenuBehavior :=
  with_remote_slots (<[slot := Hashed hash]> (remote_slots self)) self.
Definition set_remote_carried (hash : HashedStack) (self : MenuBehavior) : MenuBehavior :=
  with_remote_carried (Hashed hash) self.

(** The other menu's perception of a position; later slots win. *)
Definition remote_of (other : MenuBehavior) (key : ContainerId * nat) : option RemoteSlot :=
  match List.find (fun x => bool_decide (physical_key x.1 = Some key) && negb (is_fake x.1)) (rev (zip (slots other) (remote_slots other))) with
  | Some x => Some x.2
  | None => None
  end.
Definition transferred (other : MenuBehavior) (s : Slot) (own : RemoteSlot) : RemoteSlot :=
  if is_fake s then own
  else match physical_key s with
       | Some key => default own (remote_of other key)
       | None => own
       end.
Definition transfer_state (other self : MenuBehavior) : MenuBehavior :=
  with_remote_slots (zip_with (transferred other) (slots self) (remote_slots self)) self.

(** ** Sending *)

Fixpoint read_slots (L : Locks) (w : World) (ss : list Slot) : total (list ItemStack) :=
  match ss with
  | [] => Ok []
  | s :: ss => let? i := slot_get s L w in let? rest := read_slots L w ss in Ok (i :: rest)
  end.

(** Stops at the shorter list. *)
Fixpoint force_all (remote : list RemoteSlot) (stacks : list ItemStack) : list RemoteSlot :=
  match remote, stacks with
  | _ :: remote, i :: stacks => Known i :: force_all remote stacks
  | _, _ => remote
  end.

(** From data slot [i] on: the remote values and the packets; [all] sends the
    unchanged values too. *)
Fixpoint sync_data (all : bool) (cid : Z) (i : nat) (data remote : list Z) : total (list Z * list Packet) :=
  match data with
  | [] => Ok (remote, [])
  | current :: data =>
      match remote with
      | [] => Panic
      | r :: remote =>
          let? '(remote, sent) := sync_data all cid (S i) data remote in
          if all || negb (current =? r) then Ok (current :: remote, CContainerSetData cid (i16 (Z.of_nat i)) current :: sent)
          else Ok (r :: remote, sent)
      end
  end.

Definition send_all_data_to_remote (self : MenuBehavior) (w : World) : total (MenuBehavior * list Packet) :=
  let? stacks := read_slots (container_refs self) w (slots self) in
  let self := increment_state_id self in
  let self := with_remote_slots (force_all (remote_slots self) stacks) self in
  let self := with_remote_carried (Known (carried self)) self in
  let? '(data, sent) := sync_data true (container_id self) 0 (data_slots self) (remote_data_slots self) in
  Ok (with_remote_data data self, CContainerSetContent (container_id self) (state_id self) stacks (carried self) :: sent).

(** The first loop of [broadcast_changes]: the cached perceptions and the
    slots to send. *)
Fixpoint compare_slots (L : Locks) (w : World) (index : nat) (ss : list Slot) (remote : list RemoteSlot) :
    total (list RemoteSlot * list (nat * ItemStack)) :=
  match ss with
  | [] => Ok (remote, [])
  | s :: ss =>
      let? i := slot_get s L w in
      match remote with
      | [] => Panic
      | r :: remote =>
          let? '(remote, changed) := compare_slots L w (S index) ss remote in
          if remote_matches r i then Ok (match r with Hashed _ => Known i | _ => r end :: remote, changed)
          else Ok (r :: remote, (index, i) :: changed)
      end
  end.

Definition synchronize_slot_to_remote (self : MenuBehavior) (slot : nat) (i : ItemStack) : MenuBehavior * list Packet :=
  if suppress_remote_updates self then (self, [])
  else
    let self := increment_state_id self in
    (with_remote_slots (<[slot := Known i]> (remote_slots self)) self,
     [CContainerSetSlot (container_id self) (state_id self) (i16 (Z.of_nat slot)) i]).

Fixpoint synchronize_slots (self : MenuBehavior) (changed : list (nat * ItemStack)) : MenuBehavior * list Packet :=
  match changed with
  | [] => (self, [])
  | (slot, i) :: changed =>
      let '(self, sent) := synchronize_slot_to_remote self slot i in
      let '(self, more) := synchronize_slots self changed in
      (self, sent ++ more)
  end.

Definition synchronize_carried_to_remote (self : MenuBehavior) : MenuBehavior * list Packet :=
  if suppress_remote_updates self then (self, [])
  else (with_remote_carried (Known (carried self)) self, [CSetCursorItem (carried self)]).

Definition synchronize_data_slots (self : MenuBehavior) : total (MenuBehavior * list Packet) :=
  if suppress_remote_updates self then Ok (self, [])
  else
    let? '(data, sent) := sync_data false (container_id self) 0 (data_slots self) (remote_data_slots self) in
    Ok (with_remote_data data self, sent).

Definition broadcast_changes (self : MenuBehavior) (w : World) : total (MenuBehavior * list Packet) :=
  let? '(remote, changed) := compare_slots (container_refs self) w 0 (slots self) (remote_slots self) in
  let self := with_remote_slots remote self in
  let '(self, sent) := synchronize_slots self changed in
  let '(self, cursor) :=
    if remote_matches (remote_carried self) (carried self) then
      (match remote_carried self with Hashed _ => with_remote_carried (Known (carried self)) self | _ => self end, [])
    else synchronize_carried_to_remote self in
  let? '(self, data) := synchronize_data_slots self in
  Ok (self, sent ++ cursor ++ data).

(** ** Click packets *)

Record ClickPacket := mk_click_packet {
  slot_num : Z;
  button_num : Z;
  packet_click_type : ClickType;
  packet_state_id : Z;
  changed_slots : list (Z * HashedStack);
  carried_item : HashedStack
}.

(** Whether a click that decodes to nothing cancels a drag. *)
Definition cancels_drag (packet : ClickPacket) : bool :=
  let quick_craft_header := Z.land (button_num packet) 3 in
  let quick_craft_type := Z.land (Z.shiftr (button_num packet) 2) 3 in
  match packet_click_type packet with
  | TQuickCraft => (quick_craft_header =? 3) || (quick_craft_header =? 0) && (quick_craft_type =? 3)
  | _ => true
  end.

(** One reported slot; a negative number is no index. *)
Definition report_slot (self : MenuBehavior) (report : Z * HashedStack) : MenuBehavior :=
  if report.1 <? 0 then self
  else
    let slot := Z.to_nat report.1 in
    match slots self !! slot with
    | Some s => if is_fake s then mark_remote_slot_unknown slot self else set_remote_slot slot report.2 self
    | None => set_remote_slot slot report.2 self
    end.

Definition receive_reports (self : MenuBehavior) (packet : ClickPacket) : MenuBehavior :=
  set_remote_carried (carried_item packet) (foldl report_slot self (changed_slots packet)).

Section Kind.
Context {K : Type} (hooks : MenuKind K).

(** [Menu::update_effects] *)
Definition update_effects (m : Menu K) (w : World) (primary secondary : option Z) : total (bool * Menu K * World * list Packet) :=
  let? '(accepted, k, b, w) := kind_on_update_effects hooks (kind m) (behavior m) w primary secondary in
  let? '(b, sent) := broadcast_changes b w in
  Ok (accepted, mk_menu b (layout m) k, w, sent).

(** [spectator_or_dead] is what the player answers. *)
Definition process_container_click (fuel : nat) (m : Menu K) (w : World) (p : Player) (spectator_or_dead : bool)
    (packet : ClickPacket) : total (Menu K * World * list Packet) :=
  if spectator_or_dead then
    let? '(b, sent) := send_all_data_to_remote (behavior m) w in Ok (with_behavior b m, w, sent)
  else if negb (still_valid hooks m w p) then Ok (m, w, [])
  else
    let slot_count := length (slots (behavior m)) in
    if negb ((slot_num packet <? 0) || (slot_num packet <? Z.of_nat slot_count)) then Ok (m, w, [])
    else
      let click := parse (slot_num packet) (button_num packet) (packet_click_type packet) slot_count in
      let m := match click with
               | None => if cancels_drag packet then with_behavior (reset_quick_craft (behavior m)) m else m
               | Some _ => m
               end in
      let full_resync_needed := negb (u32 (packet_state_id packet) =? state_id (behavior m)) in
      let m := with_behavior (suppress_updates (behavior m)) m in
      let? '(m, w) := match click with
                      | Some click => let? '(m, w, _) := clicked hooks fuel m w click p in Ok (m, w)
                      | None => Ok (m, w)
                      end in
      let b := resume_remote_updates (receive_reports (behavior m) packet) in
      let? '(b, sent) := if full_resync_needed then send_all_data_to_remote b w else broadcast_changes b w in
      Ok (with_behavior b m, w, sent).

(** [throttled] is the spam throttler's answer, [update_crafting_result] the
    inventory menu's own recipe lookup. *)
Definition handle_set_creative_mode_slot (update_crafting_result : Menu K -> World -> total (Menu K * World)) (m : Menu K) (w : World) (creative throttled : bool) (slot : Z) (i : ItemStack) :
    total (Menu K * World * list Packet) :=
  if negb creative then Ok (m, w, [])
  else
    let drop := slot <? 0 in
    let valid_slot := (1 <=? slot) && (slot <=? 45) in
    let valid_data := is_empty i || (count_field i <=? max_stack_size i) in
    if valid_slot && valid_data then
      let slot_index := Z.to_nat slot in
      let? '(w, _) := set_slot_by_player m w slot_index i in
      let? '(m, w) := if (1 <=? slot) && (slot <=? 4) then update_crafting_result m w else Ok (m, w) in
      let b := set_remote_slot_known slot_index i (behavior m) in
      let? '(b, sent) := broadcast_changes b w in
      Ok (with_behavior b m, w, sent)
    else if drop && valid_data then
      if throttled then Ok (m, w, []) else Ok (m, drop_item w i, [])
    else Ok (m, w, []).
End Kind.

End Sync.

(** ** The client *)

(** What the client's screen shows. *)
Record Screen := mk_screen { screen_id : Z; shown_slots : list ItemStack; shown_carried : ItemStack; shown_data : list Z }.

(** A client applies the packets of the menu it has open. *)
Definition client_apply (s : Screen) (packet : Packet) : Screen :=
  match packet with
  | CContainerSetContent id _ stacks cursor => if id =? screen_id s then mk_screen id stacks cursor (shown_data s) else s
  | CContainerSetSlot id _ slot i =>
      if (id =? screen_id s) && (0 <=? slot) then mk_screen id (<[Z.to_nat slot := i]> (shown_slots s)) (shown_carried s) (shown_data s) else s
  | CSetCursorItem i => mk_screen (screen_id s) (shown_slots s) i (shown_data s)
  | CContainerSetData id index value =>
      if (id =? screen_id s) && (0 <=? index) then mk_screen id (shown_slots s) (shown_carried s) (<[Z.to_nat index := value]> (shown_data s)) else s
  end.

Section Facts.
Context {items : Items} {hashing : Hashing}.

(** Stacks a player cannot tell apart. *)
Definition alike (a b : ItemStack) : Prop := matches a b = true.

Lemma alike_iff a b : alike a b <->
  is_empty a = true /\ is_empty b = true \/
  is_empty a = false /\ is_empty b = false /\ count_field a = count_field b /\ kind_of a = kind_of b.
Proof.
  unfold alike, matches. rewrite andb_true_iff, Z.eqb_eq. unfold count. destruct (is_empty a) eqn:Ea, (is_empty b) eqn:Eb.
  - split; [by left|]. intros _. split; [done|]. unfold is_same_item_same_components, is_same_item.
    by rewrite !empty_item, bool_decide_eq_true_2, Ea, Eb by done.
  - apply empty_cases in Eb as H. split; [intros [? _]; lia|]. intros [[_ ?]|[? _]]; congruence.
  - apply empty_cases in Ea as H. split; [intros [? _]; lia|]. intros [[? _]|(_ & ? & _)]; congruence.
  - rewrite same_kind by done. split; [intros []; by right|]. intros [[? _]|(_ & _ & ? & ?)]; [congruence|done].
Qed.

#[export] Instance alike_equiv : Equivalence alike.
Proof.
  split.
  - intros a. apply alike_iff. destruct (is_empty a); [by left|by right].
  - intros a b. rewrite !alike_iff. intuition congruence.
  - intros a b c. rewrite !alike_iff. intuition congruence.
Qed.

(** A belief is right about what the client shows; a reported hash is when no
    stack it matches looks different. *)
Definition perceives (r : RemoteSlot) (shown : ItemStack) : Prop :=
  match r with
  | Unknown => True
  | Known s => alike s shown
  | Hashed h => forall local, hashed_stack_matches h local = true -> alike local shown
  end.

Lemma perceives_matches r shown local : perceives r shown -> remote_matches r local = true -> alike local shown.
Proof.
  destruct r as [|s|h]; simpl; [done| |by auto]. intros H E. change (alike s local) in E. by rewrite <- E.
Qed.

(** The server's beliefs are right. *)
Record believes (b : MenuBehavior) (s : Screen) : Prop := {
  believes_id : screen_id s = container_id b;
  believes_slots : Forall2 perceives (remote_slots b) (shown_slots s);
  believes_carried : perceives (remote_carried b) (shown_carried s);
  believes_data : remote_data_slots b = shown_data s
}.

(** The screen shows the menu. *)
Record shows (s : Screen) (b : MenuBehavior) (stacks : list ItemStack) : Prop := {
  shows_slots : Forall2 alike stacks (shown_slots s);
  shows_carried : alike (carried b) (shown_carried s);
  shows_data : shown_data s = data_slots b
}.

(** Lists that are as long as the menu, with indices of 16 bits. *)
Record well_shaped (b : MenuBehavior) : Prop := {
  shaped_slots : length (remote_slots b) = length (slots b);
  shaped_data : length (remote_data_slots b) = length (data_slots b);
  shaped_small : Z.of_nat (length (slots b)) <= 32767 /\ Z.of_nat (length (data_slots b)) <= 32767
}.

Lemma i16_nat n : Z.of_nat n <= 32767 -> i16 (Z.of_nat n) = Z.of_nat n.
Proof. intros H. apply wraps_id; [lia|]. unfold is_s. lia. Qed.

(** ** Data slots *)

(** The packets write the data slots from [i] on. *)
Lemma sync_data_ok all cid data : forall i remote pre s, length remote = length data -> Z.of_nat (i + length data) <= 32767 ->
  screen_id s = cid -> shown_data s = pre ++ remote -> length pre = i ->
  exists sent, sync_data all cid i data remote = Ok (data, sent) /\
    foldl client_apply s sent = mk_screen cid (shown_slots s) (shown_carried s) (pre ++ data) /\
    (all = false -> remote = data -> sent = []).
Proof.
  induction data as [|d data IH]; intros i [|r remote] pre s Hlen Hi Hid Hsh Hpre; try done; cbn [sync_data].
  { exists []. split; [done|]. split; [|done]. cbn [foldl]. rewrite <- Hsh. destruct s. simpl in *. by subst. }
  simpl in Hlen, Hi.
  assert (Hgo : forall s1 x, screen_id s1 = cid -> shown_data s1 = (pre ++ [x]) ++ remote ->
    exists sent, sync_data all cid (S i) data remote = Ok (data, sent) /\
      foldl client_apply s1 sent = mk_screen cid (shown_slots s1) (shown_carried s1) (pre ++ x :: data) /\
      (all = false -> remote = data -> sent = [])).
  { intros s1 x H1 H2. destruct (IH (S i) remote (pre ++ [x]) s1) as (sent & ? & ? & ?); [lia|lia|done|done|rewrite length_app; simpl; lia|].
    exists sent. split; [done|]. split; [|done]. by rewrite <- app_assoc in *. }
  set (s1 := client_apply s (CContainerSetData cid (i16 (Z.of_nat i)) d)).
  assert (Hs1 : s1 = mk_screen cid (shown_slots s) (shown_carried s) ((pre ++ [d]) ++ remote)).
  { unfold s1. cbn [client_apply]. rewrite i16_nat by lia. rewrite Hid, Z.eqb_refl, Nat2Z.id, (proj2 (Z.leb_le 0 _)) by lia. cbn [andb]. f_equal.
    rewrite Hsh, <- Hpre, insert_app_r_alt, Nat.sub_diag by lia. by rewrite <- app_assoc. }
  destruct (all || negb (d =? r)) eqn:E.
  - destruct (Hgo s1 d ltac:(by rewrite Hs1) ltac:(by rewrite Hs1)) as (sent & Hok & Hfold & Hq). rewrite Hok. cbn [obind].
    eexists. split; [done|]. cbn [foldl]. fold s1. split; [rewrite Hfold, Hs1; done|].
    intros -> [= -> ->]. by rewrite Z.eqb_refl in E.
  - apply orb_false_iff in E as [-> E%negb_false_iff%Z.eqb_eq]. subst r.
    destruct (Hgo s d Hid ltac:(by rewrite <- app_assoc)) as (sent & Hok & Hfold & Hq). rewrite Hok. cbn [obind].
    eexists. split; [done|]. split; [done|]. intros _ [= ->]. by apply Hq.
Qed.

(** ** Slots *)

Lemma force_all_ok stacks : forall remote, length remote = length stacks -> force_all remote stacks = Known <$> stacks.
Proof. induction stacks as [|i stacks IH]; intros [|r remote] H; try done. simpl in *. rewrite IH; [done|lia]. Qed.

(** What the walk finds, from the stacks it reads. *)
Fixpoint compared (index : nat) (stacks : list ItemStack) (remote : list RemoteSlot) : list RemoteSlot * list (nat * ItemStack) :=
  match stacks, remote with
  | i :: stacks, r :: remote =>
      let rest := compared (S index) stacks remote in
      if remote_matches r i then (match r with Hashed _ => Known i | _ => r end :: rest.1, rest.2)
      else (r :: rest.1, (index, i) :: rest.2)
  | _, _ => (remote, [])
  end.

Lemma compare_slots_ok (L : Locks) w ss : forall index remote stacks, length remote = length ss -> read_slots L w ss = Ok stacks ->
  compare_slots L w index ss remote = Ok (compared index stacks remote).
Proof.
  induction ss as [|s ss IH]; intros index [|r remote] stacks Hlen; cbn [read_slots compare_slots]; try done.
  - by intros [= <-].
  - destruct (slot_get s L w) as [i| |]; [|done..]. cbn [obind]. destruct (read_slots L w ss) as [rest| |] eqn:E; [|done..]. cbn [obind].
    intros [= <-]. rewrite (IH (S index) remote rest) by (done || simpl in Hlen; lia). cbn [obind compared].
    destruct (compared (S index) rest remote). by destruct (remote_matches r i).
Qed.

Lemma read_slots_length (L : Locks) w ss : forall stacks, read_slots L w ss = Ok stacks -> length stacks = length ss.
Proof.
  induction ss as [|s ss IH]; intros stacks; cbn [read_slots]; [by intros [= <-]|].
  destruct (slot_get s L w); [|done..]. cbn [obind]. destruct (read_slots L w ss); [|done..]. cbn [obind]. intros [= <-]. simpl. by rewrite IH.
Qed.

(** What the slots sent do to a list: of beliefs, or of stacks shown. *)
Definition overwrite {A} (f : ItemStack -> A) (changed : list (nat * ItemStack)) (l : list A) : list A :=
  foldl (fun l x => <[x.1 := f x.2]> l) l changed.

Lemma overwrite_length {A} (f : ItemStack -> A) changed : forall l, length (overwrite f changed l) = length l.
Proof. induction changed as [|x changed IH]; intros l; [done|]. unfold overwrite in *. cbn [foldl]. by rewrite IH, length_insert. Qed.

Lemma overwrite_other {A} (f : ItemStack -> A) changed j : forall l, (forall i, (j, i) ∉ changed) -> overwrite f changed l !! j = l !! j.
Proof.
  induction changed as [|[k x] changed IH]; intros l Hn; [done|]. unfold overwrite in *. cbn [foldl fst snd].
  rewrite IH by (intros i Hi; apply (Hn i); by right). apply list_lookup_insert_ne. intros ->. apply (Hn x). by left.
Qed.

Lemma overwrite_in {A} (f : ItemStack -> A) (stacks : list ItemStack) changed j i : Forall (fun x => stacks !! x.1 = Some x.2) changed ->
  stacks !! j = Some i -> (j, i) ∈ changed -> forall l, (j < length l)%nat -> overwrite f changed l !! j = Some (f i).
Proof.
  intros Hall Hj. induction Hall as [|[k x] changed Hx Hall IH]; intros Hin l Hl; [by apply not_elem_of_nil in Hin|].
  unfold overwrite in *. cbn [foldl fst snd] in *. destruct (decide ((j, i) ∈ changed)) as [H|H].
  - apply IH; [done|]. by rewrite length_insert.
  - apply elem_of_cons in Hin as [[= <- <-]|?]; [|done]. change (overwrite f changed (<[j:=f i]> l) !! j = Some (f i)).
    rewrite overwrite_other; [by apply list_lookup_insert_eq|]. intros i' Hi'. pose proof (proj1 (Forall_forall _ _) Hall _ Hi') as E. cbn [fst snd] in E.
    rewrite Hj in E. injection E as <-. done.
Qed.

Lemma compared_spec stacks : forall index remote, length remote = length stacks ->
  length (compared index stacks remote).1 = length stacks /\
  Forall (fun x => exists j, x.1 = (index + j)%nat /\ stacks !! j = Some x.2) (compared index stacks remote).2 /\
  forall j i r, stacks !! j = Some i -> remote !! j = Some r ->
    if remote_matches r i then exists k, (compared index stacks remote).1 !! j = Some (Known k) /\ alike k i
    else ((index + j)%nat, i) ∈ (compared index stacks remote).2.
Proof.
  induction stacks as [|i stacks IH]; intros index [|r remote] Hlen; try done; cbn [compared].
  destruct (IH (S index) remote ltac:(simpl in Hlen; lia)) as (H1 & H2 & H3).
  assert (H2' : Forall (fun x => exists j, x.1 = (index + j)%nat /\ (i :: stacks) !! j = Some x.2) (compared (S index) stacks remote).2).
  { eapply Forall_impl; [exact H2|]. intros x (j & E & ?). exists (S j). split; [lia|done]. }
  destruct (remote_matches r i) eqn:Em; cbn [fst snd]; (split; [simpl; by rewrite H1|]); split.
  - done.
  - intros [|j] i' r' Hi Hr; cbn [lookup list_lookup] in Hi, Hr |- *.
    + injection Hi as <-. injection Hr as <-. rewrite Em. rewrite ?Em. destruct r as [|s|h]; [done| |].
      * exists s. by split.
      * exists i. by split.
    + specialize (H3 j i' r' Hi Hr). destruct (remote_matches r' i'); [done|]. by replace (index + S j)%nat with (S index + j)%nat by lia.
  - constructor; [exists 0%nat; split; [simpl; lia|done]|done].
  - intros [|j] i' r' Hi Hr; cbn [lookup list_lookup] in Hi, Hr |- *.
    + injection Hi as <-. injection Hr as <-. rewrite Em. replace (index + 0)%nat with index by lia. by left.
    + specialize (H3 j i' r' Hi Hr). destruct (remote_matches r' i'); [done|]. right. by replace (index + S j)%nat with (S index + j)%nat by lia.
Qed.

(** Once sent, every belief is the exact stack. *)
Definition settled (remote : list RemoteSlot) (stacks : list ItemStack) : Prop :=
  Forall2 (fun r i => exists k, r = Known k /\ alike k i) remote stacks.

Lemma settled_quiet remote stacks : settled remote stacks -> forall index, compared index stacks remote = (remote, []).
Proof.
  induction 1 as [|r i remote stacks (k & -> & Hk) _ IH]; intros index; cbn [compared]; [done|]. rewrite IH. cbn [remote_matches]. by rewrite Hk.
Qed.

Lemma settled_perceives remote stacks shown : settled remote stacks -> Forall2 alike stacks shown -> Forall2 perceives remote shown.
Proof.
  intros H. revert shown. induction H as [|r i remote stacks (k & -> & Hk) _ IH]; intros shown Hs; inversion Hs; subst; constructor; [|by apply IH].
  simpl. by rewrite Hk.
Qed.

Lemma slots_settle stacks remote shown : length remote = length stacks -> Forall2 perceives remote shown ->
  let '(cached, changed) := compared 0 stacks remote in
  settled (overwrite Known changed cached) stacks /\ Forall2 alike stacks (overwrite (fun i => i) changed shown).
Proof.
  intros Hlen Hp. destruct (compared_spec stacks 0 remote Hlen) as (H1 & H2 & H3). destruct (compared 0 stacks remote) as [cached changed]. cbn [fst snd] in *.
  assert (Hf : Forall (fun x => stacks !! x.1 = Some x.2) changed) by (eapply Forall_impl; [exact H2|]; by intros x (j & -> & ?)).
  pose proof (Forall2_length _ _ _ Hp) as Hl. assert (Hpt : forall j i, stacks !! j = Some i ->
    exists k sh, overwrite Known changed cached !! j = Some (Known k) /\ alike k i /\ overwrite (fun i => i) changed shown !! j = Some sh /\ alike i sh).
  { intros j i Hj. pose proof (lookup_lt_Some _ _ _ Hj) as Hjl. destruct (lookup_lt_is_Some_2 remote j ltac:(lia)) as [r Hr].
    destruct (decide ((j, i) ∈ changed)) as [Hin|Hnin].
    - exists i, i. rewrite !(overwrite_in _ stacks changed j i) by (done || lia). by split_and!.
    - specialize (H3 j i r Hj Hr). destruct (remote_matches r i) eqn:Em; [|done]. destruct H3 as (k & Hk & Hki).
      destruct (Forall2_lookup_l _ _ _ _ _ Hp Hr) as (sh & Hsh & Hper). exists k, sh.
      rewrite !overwrite_other by (intros i' Hi'; pose proof (proj1 (Forall_forall _ _) Hf _ Hi') as E; cbn [fst snd] in E; congruence).
      split_and!; try done. by eapply perceives_matches. }
  split; apply Forall2_same_length_lookup_2.
  - by rewrite overwrite_length, H1.
  - intros j r i Hr Hi. destruct (Hpt j i Hi) as (k & sh & Ho & Hk & _). exists k. split; [congruence|done].
  - rewrite overwrite_length. lia.
  - intros j i sh Hi Hsh. destruct (Hpt j i Hi) as (k & sh' & _ & _ & Ho & ?). congruence.
Qed.

(** ** Broadcasting *)

(** A behavior that differs only in its beliefs. *)
Definition same_menu (b b' : MenuBehavior) : Prop :=
  slots b' = slots b /\ carried b' = carried b /\ container_id b' = container_id b /\ data_slots b' = data_slots b /\
  container_refs b' = container_refs b /\ suppress_remote_updates b' = suppress_remote_updates b /\
  quickcraft b' = quickcraft b /\ quickcraft_slots b' = quickcraft_slots b.

Lemma synchronize_slots_ok changed : forall b s, suppress_remote_updates b = false -> screen_id s = container_id b ->
  Forall (fun x => Z.of_nat x.1 <= 32767) changed ->
  exists b' sent, synchronize_slots b changed = (b', sent) /\ same_menu b b' /\
    remote_slots b' = overwrite Known changed (remote_slots b) /\ remote_carried b' = remote_carried b /\ remote_data_slots b' = remote_data_slots b /\
    foldl client_apply s sent = mk_screen (screen_id s) (overwrite (fun i => i) changed (shown_slots s)) (shown_carried s) (shown_data s) /\
    (changed = [] -> b' = b /\ sent = []).
Proof.
  induction changed as [|[slot i] changed IH]; intros b s Hsup Hid Hsmall; cbn [synchronize_slots].
  { exists b, []. split_and!; try done. by destruct s. }
  apply Forall_cons in Hsmall as [Hslot Hsmall]. cbn [fst] in Hslot. unfold synchronize_slot_to_remote. rewrite Hsup.
  set (b1 := with_remote_slots _ _). set (pk := CContainerSetSlot _ _ _ _).
  set (s1 := mk_screen (screen_id s) (<[slot := i]> (shown_slots s)) (shown_carried s) (shown_data s)).
  destruct (IH b1 s1 Hsup Hid Hsmall) as (b' & sent & -> & Hsame & H1 & H2 & H3 & H4 & _). exists b', (pk :: sent). split; [done|].
  split; [exact Hsame|]. split; [exact H1|]. split; [exact H2|]. split; [exact H3|]. split; [|done].
  cbn [foldl]. assert (client_apply s pk = s1) as ->; [|exact H4]. unfold pk, s1. cbn [client_apply]. rewrite i16_nat, Nat2Z.id by done.
  change (container_id (increment_state_id b)) with (container_id b). rewrite Hid, Z.eqb_refl, (proj2 (Z.leb_le 0 _)) by lia. done.
Qed.

Lemma carried_settles b s : suppress_remote_updates b = false -> perceives (remote_carried b) (shown_carried s) ->
  exists b' sent, (if remote_matches (remote_carried b) (carried b) then
      (match remote_carried b with Hashed _ => with_remote_carried (Known (carried b)) b | _ => b end, []) else synchronize_carried_to_remote b) = (b', sent) /\
    same_menu b b' /\ remote_slots b' = remote_slots b /\ remote_data_slots b' = remote_data_slots b /\
    (exists k, remote_carried b' = Known k /\ alike k (carried b)) /\
    (exists sh, foldl client_apply s sent = mk_screen (screen_id s) (shown_slots s) sh (shown_data s) /\ alike (carried b) sh) /\
    ((exists k, remote_carried b = Known k /\ alike k (carried b)) -> b' = b /\ sent = []).
Proof.
  intros Hsup Hp. destruct (remote_matches (remote_carried b) (carried b)) eqn:E.
  - pose proof (perceives_matches _ _ _ Hp E) as Hal. destruct (remote_carried b) as [|k|h] eqn:Er; [done| |].
    + exists b, []. split_and!; try done; [by exists k|]. exists (shown_carried s). split; [by destruct s|done].
    + eexists _, []. split_and!; try done; [by exists (carried b)| |by intros (k & [=] & _)]. exists (shown_carried s). split; [by destruct s|done].
  - unfold synchronize_carried_to_remote. rewrite Hsup. eexists _, _. split; [done|]. split_and!; try done; [by exists (carried b)|by exists (carried b)|].
    intros (k & Hk & Hal). rewrite Hk in E. cbn [remote_matches] in E. unfold alike in Hal. congruence.
Qed.

Lemma broadcast_ok b w s stacks : well_shaped b -> believes b s -> suppress_remote_updates b = false ->
  read_slots (container_refs b) w (slots b) = Ok stacks ->
  exists b' sent, broadcast_changes b w = Ok (b', sent) /\ same_menu b b' /\ well_shaped b' /\
    believes b' (foldl client_apply s sent) /\ shows (foldl client_apply s sent) b stacks /\
    settled (remote_slots b') stacks /\ (exists k, remote_carried b' = Known k /\ alike k (carried b)) /\ remote_data_slots b' = data_slots b /\
    (settled (remote_slots b) stacks -> (exists k, remote_carried b = Known k /\ alike k (carried b)) -> remote_data_slots b = data_slots b -> b' = b /\ sent = []).
Proof.
  intros [Hl1 Hl2 [Hl3 Hl4]] [Hb1 Hb2 Hb3 Hb4] Hsup Hread. pose proof (read_slots_length _ _ _ _ Hread) as Hlen.
  unfold broadcast_changes. rewrite (compare_slots_ok _ _ _ 0 _ stacks Hl1 Hread).
  pose proof (compared_spec stacks 0 (remote_slots b) ltac:(lia)) as (Hc1 & Hc2 & _).
  pose proof (slots_settle stacks (remote_slots b) (shown_slots s) ltac:(lia) Hb2) as Hset.
  assert (Hquiet : settled (remote_slots b) stacks -> compared 0 stacks (remote_slots b) = (remote_slots b, [])) by (intros; by apply settled_quiet).
  destruct (compared 0 stacks (remote_slots b)) as [cached changed]. cbn [obind fst snd] in *. destruct Hset as [Hs1 Hs2].
  destruct (synchronize_slots_ok changed (with_remote_slots cached b) s Hsup Hb1) as (b1 & sent1 & -> & (A1 & A2 & A3 & A4 & A5 & A6 & A7 & A8) & B1 & B2 & B3 & B4 & B5).
  { eapply Forall_impl; [exact Hc2|]. intros x (j & E & Hj). apply lookup_lt_Some in Hj. simpl in E. lia. }
  set (s1 := foldl client_apply s sent1) in *. cbn [with_remote_slots with_remote slots carried container_id data_slots container_refs suppress_remote_updates quickcraft quickcraft_slots remote_slots remote_carried remote_data_slots] in *.
  destruct (carried_settles b1 s1) as (b2 & sent2 & -> & (C1 & C2 & C3 & C4 & C5 & C6 & C7 & C8) & D1 & D2 & D3 & (sh & D4 & D5) & D6);
    [by rewrite A6|by rewrite B2, B4|].
  unfold synchronize_data_slots. rewrite C6, A6, Hsup, C4, A4, D2, B3.
  destruct (sync_data_ok false (container_id b2) (data_slots b) 0 (remote_data_slots b) [] (foldl client_apply s1 sent2)) as (sent3 & -> & E1 & E2);
    [done|lia|by rewrite D4, B4, C3, A3|by rewrite D4, B4|done|].
  cbn [obind]. eexists _, _. split; [done|].
  assert (Hfold : foldl client_apply s (sent1 ++ sent2 ++ sent3) = mk_screen (container_id b2) (overwrite (fun i => i) changed (shown_slots s)) sh (data_slots b)).
  { rewrite !foldl_app. fold s1. rewrite E1, D4, B4. done. }
  rewrite Hfold. rewrite A2 in *. split; [unfold same_menu; cbn; split_and!; congruence|].
  split; [split; cbn; [by rewrite D1, B1, overwrite_length, Hc1, C1, A1|by rewrite C4, A4|by rewrite C1, C4, A1, A4]|].
  split; [split; cbn; [done|rewrite D1, B1; by eapply settled_perceives| |done]|].
  { destruct D3 as (k & -> & Hk). simpl. by rewrite Hk. }
  split; [by split|]. split; [cbn; by rewrite D1, B1|]. split; [exact D3|]. split; [done|].
  intros Q1 Q2 Q3. specialize (Hquiet Q1). injection Hquiet as -> ->. destruct (B5 eq_refl) as [-> ->].
  destruct (D6 Q2) as [-> ->]. rewrite (E2 eq_refl Q3). split; [|done]. rewrite <- Q3. by destruct b.
Qed.

Lemma send_all_ok b w s stacks : well_shaped b -> screen_id s = container_id b -> shown_data s = remote_data_slots b ->
  read_slots (container_refs b) w (slots b) = Ok stacks ->
  exists b' sent, send_all_data_to_remote b w = Ok (b', sent) /\ same_menu b b' /\ well_shaped b' /\
    believes b' (foldl client_apply s sent) /\ shows (foldl client_apply s sent) b stacks.
Proof.
  intros [Hl1 Hl2 [Hl3 Hl4]] Hid Hdata Hread. pose proof (read_slots_length _ _ _ _ Hread) as Hlen.
  unfold send_all_data_to_remote. rewrite Hread. cbn [obind]. set (b1 := with_remote_carried _ _).
  set (pk := CContainerSetContent (container_id b1) (state_id b1) stacks (carried b1)).
  assert (Hs1 : client_apply s pk = mk_screen (screen_id s) stacks (carried b) (shown_data s)).
  { unfold pk. cbn [client_apply]. change (container_id b1) with (container_id b). rewrite Hid, Z.eqb_refl. done. }
  destruct (sync_data_ok true (container_id b1) (data_slots b1) 0 (remote_data_slots b1) [] (client_apply s pk)) as (sent & -> & Hfold & _);
    [done|cbn; lia|by rewrite Hs1|by rewrite Hs1|done|].
  cbn [obind]. fold pk. eexists _, _. split; [done|]. cbn [foldl]. rewrite Hfold, Hs1. cbn [app].
  assert (Hrs : remote_slots b1 = Known <$> stacks) by (apply force_all_ok; cbn; lia).
  split; [by unfold same_menu|]. split; [split; cbn; [rewrite force_all_ok, length_fmap by lia; lia|done|done]|]. split.
  - split; cbn [screen_id shown_slots shown_carried shown_data]; [done| |simpl; reflexivity|done].
    change (Forall2 perceives (remote_slots b1) stacks). rewrite Hrs. apply Forall2_fmap_l. clear. induction stacks; constructor; [simpl; reflexivity|done].
  - split; cbn [screen_id shown_slots shown_carried shown_data]; [|reflexivity|done]. clear. induction stacks; constructor; [reflexivity|done].
Qed.

(** ** What clients report *)

(** The hash of a stack as a client computes it. *)
Definition hashes (s : ItemStack) (h : HashedStack) : Prop :=
  match h with
  | HashedEmpty => is_empty s = true
  | HashedItem id n added removed =>
      is_empty s = false /\ id = registry_item_id (item_field s) /\ n = count_field s /\
      (forall i x, added !! i = Some x <-> exists k v, patch_field s !! k = Some (Set_ v) /\ id_from_key k = Some i /\ compute_hash i v = Some x) /\
      (forall i, i ∈ removed <-> exists k, patch_field s !! k = Some Removed /\ id_from_key k = Some i)
  end.

(** The registries are one-to-one. *)
Record registered : Prop := {
  registered_items i j : registry_item_id i = registry_item_id j -> i = j;
  registered_components k i : id_from_key k = Some i <-> get_key_by_id i = Some k
}.

(** Every component of the stack has an id and a hash. *)
Definition hashable (s : ItemStack) : Prop :=
  forall k e, patch_field s !! k = Some e -> exists i, id_from_key k = Some i /\
    match e with Set_ v => is_Some (compute_hash i v) | Removed => True end.

(** The values the two stacks give a component have different hashes unless
    they are equal. *)
Definition no_collision (a b : ItemStack) : Prop :=
  forall k i v v', patch_field a !! k = Some (Set_ v) -> patch_field b !! k = Some (Set_ v') -> id_from_key k = Some i ->
    compute_hash i v = compute_hash i v' -> v = v'.

Lemma elem_of_removed_ids patch i : i ∈ removed_ids patch <-> exists k, patch !! k = Some Removed /\ id_from_key k = Some i.
Proof.
  unfold removed_ids. rewrite elem_of_list_to_set, list_elem_of_omap. split.
  - intros ([k e] & Hin & He). apply elem_of_map_to_list in Hin. cbn [fst snd] in He. destruct e; [done|]. by exists k.
  - intros (k & Hk & Hi). exists (k, Removed). split; [by apply elem_of_map_to_list|done].
Qed.

Lemma validate_spec added removed patch : validate_component_hashes added removed patch = true <->
  (forall i, i ∈ removed <-> exists k, patch !! k = Some Removed /\ id_from_key k = Some i) /\
  (forall k v i, patch !! k = Some (Set_ v) -> id_from_key k = Some i -> exists x, added !! i = Some x /\ compute_hash i v = Some x) /\
  (forall i, is_Some (added !! i) -> exists k v, get_key_by_id i = Some k /\ patch !! k = Some (Set_ v)).
Proof.
  unfold validate_component_hashes. rewrite !andb_true_iff, bool_decide_eq_true, !forallb_forall, set_eq. split.
  - intros [[Hr He] Ha]. split_and!.
    + intros i. rewrite <- elem_of_removed_ids, Hr. by rewrite elem_of_list_to_set.
    + intros k v i Hk Hi. specialize (He (k, Set_ v)). unfold entry_hash_matches in He. cbn [fst snd] in He. rewrite Hi in He.
      rewrite <- list_elem_of_In, elem_of_map_to_list in He. specialize (He Hk).
      destruct (added !! i) as [x|]; [|done]. destruct (compute_hash i v) as [y|]; [|done]. apply Z.eqb_eq in He. subst. by exists x.
    + intros i Hi. specialize (Ha i). rewrite <- list_elem_of_In, elem_of_elements, elem_of_dom in Ha. specialize (Ha Hi). unfold added_id_known in Ha.
      destruct (get_key_by_id i) as [k|]; [|done]. destruct (patch !! k) as [[v|]|] eqn:E; [|done..]. by exists k, v.
  - intros (Hr & He & Ha). split_and!.
    + intros i. rewrite elem_of_removed_ids, elem_of_list_to_set. symmetry. apply Hr.
    + intros [k e] Hin%list_elem_of_In%elem_of_map_to_list. unfold entry_hash_matches. cbn [fst snd]. destruct e as [v|]; [|done].
      destruct (id_from_key k) as [i|] eqn:Hi; [|done]. destruct (He k v i Hin Hi) as (x & -> & ->). apply Z.eqb_refl.
    + intros i Hi%list_elem_of_In%elem_of_elements%elem_of_dom. destruct (Ha i Hi) as (k & v & Hk & Hv). unfold added_id_known. by rewrite Hk, Hv.
Qed.

(** The patches agree as soon as the hashes do. *)
Lemma validated_patch s local id n added removed : registered -> hashable s -> hashable local -> no_collision s local ->
  hashes s (HashedItem id n added removed) -> validate_component_hashes added removed (patch_field local) = true -> patch_field s = patch_field local.
Proof.
  intros [_ Hreg] Hs Hl Hnc (_ & _ & _ & Hadd & Hrem) (Vr & Vs & Va)%validate_spec.
  assert (Hinj : forall k k' i, id_from_key k = Some i -> id_from_key k' = Some i -> k = k') by (intros k k' i H1%Hreg H2%Hreg; congruence).
  apply map_eq. intros k. destruct (patch_field local !! k) as [[v'|]|] eqn:El.
  - destruct (Hl k _ El) as (i & Hi & _). destruct (Vs k v' i El Hi) as (x & Hx & Hc). apply Hadd in Hx as (k2 & v & Hk2 & Hi2 & Hc2).
    rewrite (Hinj k k2 i Hi Hi2) in *. rewrite Hk2. do 2 f_equal. apply (Hnc k2 i); [done..|congruence].
  - destruct (Hl k _ El) as (i & Hi & _). assert (Hin : i ∈ removed) by (apply Vr; by exists k).
    apply Hrem in Hin as (k2 & Hk2 & Hi2). by rewrite (Hinj k k2 i Hi Hi2).
  - destruct (patch_field s !! k) as [[v|]|] eqn:Es; [| |done]; destruct (Hs k _ Es) as (i & Hi & Hh).
    + destruct Hh as [x Hx]. destruct (Va i) as (k2 & v2 & Hk2%Hreg & Hv2); [exists x; apply Hadd; by exists k, v|].
      rewrite (Hinj k k2 i Hi Hk2) in El. congruence.
    + assert (Hin : i ∈ removed) by (apply Hrem; by exists k). apply Vr in Hin as (k2 & Hk2 & Hi2).
      rewrite (Hinj k k2 i Hi Hi2) in El. congruence.
Qed.

Lemma hash_match_iff s local h : registered -> hashable s -> hashable local -> no_collision s local -> hashes s h ->
  hashed_stack_matches h local = true <->
  is_empty s = true /\ is_empty local = true \/
  is_empty s = false /\ is_empty local = false /\ item_field s = item_field local /\ count_field s = count_field local /\ patch_field s = patch_field local.
Proof.
  intros Hreg Hs Hl Hnc Hh. destruct h as [|id n added removed]; cbn [hashed_stack_matches].
  { cbn [hashes] in Hh. rewrite Hh. naive_solver. }
  pose proof Hh as (He & -> & -> & Hadd & Hrem). rewrite !andb_true_iff, negb_true_iff, !Z.eqb_eq. split.
  - intros [[[He' Hid] Hcnt] Hv]. right. split_and!; try done; [symmetry; by apply (registered_items Hreg)|by eapply validated_patch].
  - intros [[? _]|(_ & He' & Hid & Hcnt & Hp)]; [congruence|]. rewrite Hid, Hcnt. split_and!; try done. apply validate_spec. rewrite <- Hp. split_and!; [done| |].
    + intros k v i Hk Hi. destruct (Hs k _ Hk) as (i' & Hi' & x & Hx). assert (i' = i) as -> by congruence.
      exists x. split; [|done]. apply Hadd. by exists k, v.
    + intros i [x Hx]. apply Hadd in Hx as (k & v & Hk & Hi & _). exists k, v. split; [by apply (registered_components Hreg)|done].
Qed.
End Facts.

(** ** Click packets *)

Section ClickPackets.
Context {items : Items} {hashing : Hashing}.

Lemma read_slots_ok p b w : menu_ok p b w -> exists stacks, read_slots (container_refs b) w (slots b) = Ok stacks.
Proof.
  intros [A B _ _]. assert (Hall : forall s, s ∈ slots b -> exists old, slot_get s (container_refs b) w = Ok old).
  { intros s Hs. destruct (static_storage _ _ _ A s Hs) as (key & HS & HL). destruct (mw_cells _ _ _ _ B s key Hs storage_key) as [old Hc].
    exists old. apply storage_get; [by eapply mw_ok|done..]. }
  revert Hall. generalize (slots b). intros ss. induction ss as [|s ss IH]; intros Hall; cbn [read_slots]; [by exists []|].
  destruct (Hall s ltac:(by left)) as [old ->]. cbn [obind]. destruct (IH ltac:(intros s' ?; apply Hall; by right)) as [l ->]. by eexists.
Qed.

(** Reports change the perceptions of slots and cursor only. *)
Lemma report_shape b report :
  slots (report_slot b report) = slots b /\ container_refs (report_slot b report) = container_refs b /\ carried (report_slot b report) = carried b /\
  data_slots (report_slot b report) = data_slots b /\ remote_data_slots (report_slot b report) = remote_data_slots b /\
  container_id (report_slot b report) = container_id b /\ suppress_remote_updates (report_slot b report) = suppress_remote_updates b /\
  quickcraft (report_slot b report) = quickcraft b /\ quickcraft_slots (report_slot b report) = quickcraft_slots b /\
  length (remote_slots (report_slot b report)) = length (remote_slots b).
Proof.
  unfold report_slot. destruct (report.1 <? 0); [by split_and!|].
  destruct (slots b !! Z.to_nat report.1) as [s|]; [destruct (is_fake s)|];
    unfold mark_remote_slot_unknown, set_remote_slot, with_remote_slots; cbn; by rewrite ?length_insert.
Qed.

(** The reports only depend on what the click left alone. *)
Lemma reports_remote packet : forall b b', slots b' = slots b -> remote_slots b' = remote_slots b ->
  slots (foldl report_slot b' packet) = slots (foldl report_slot b packet) /\
  remote_slots (foldl report_slot b' packet) = remote_slots (foldl report_slot b packet).
Proof.
  induction packet as [|r packet IH]; intros b b' Hs Hr; [done|]. cbn [foldl]. apply IH.
  - by rewrite !(proj1 (report_shape _ _)).
  - unfold report_slot. rewrite Hs. destruct (r.1 <? 0); [done|].
    destruct (slots b !! Z.to_nat r.1) as [s|]; [destruct (is_fake s)|];
      unfold mark_remote_slot_unknown, set_remote_slot, with_remote_slots; cbn; by rewrite Hr.
Qed.

Lemma reports_shape packet : forall b,
  slots (foldl report_slot b packet) = slots b /\ container_refs (foldl report_slot b packet) = container_refs b /\
  carried (foldl report_slot b packet) = carried b /\ data_slots (foldl report_slot b packet) = data_slots b /\
  remote_data_slots (foldl report_slot b packet) = remote_data_slots b /\ container_id (foldl report_slot b packet) = container_id b /\
  length (remote_slots (foldl report_slot b packet)) = length (remote_slots b).
Proof.
  induction packet as [|r packet IH]; intros b; [done|]. cbn [foldl]. destruct (IH (report_slot b r)) as (H1 & H2 & H3 & H4 & H5 & H6 & H7).
  destruct (report_shape b r) as (R1 & R2 & R3 & R4 & R5 & R6 & _ & _ & _ & R7). split_and!; congruence.
Qed.

(** What is sent after a click on [b], when the screen is right about the
    reports. *)
Lemma answer_ok b0 b w s packet (resync : bool) stacks :
  same_remote b0 b -> slots b = slots b0 -> well_shaped b0 -> believes (receive_reports b0 packet) s ->
  read_slots (container_refs b) w (slots b) = Ok stacks ->
  exists b' sent, (if resync then send_all_data_to_remote (resume_remote_updates (receive_reports b packet)) w
                   else broadcast_changes (resume_remote_updates (receive_reports b packet)) w) = Ok (b', sent) /\
    slots b' = slots b /\ carried b' = carried b /\ container_refs b' = container_refs b /\
    believes b' (foldl client_apply s sent) /\ shows (foldl client_apply s sent) b stacks.
Proof.
  intros (R1 & R2 & R3 & R4 & R5 & R6 & R7) Hslots [W1 W2 [W3 W4]] [B1 B2 B3 B4] Hread.
  set (b1 := resume_remote_updates (receive_reports b packet)).
  destruct (reports_shape (changed_slots packet) b) as (S1 & S2 & S3 & S4 & S5 & S6 & S7).
  destruct (reports_shape (changed_slots packet) b0) as (T1 & T2 & T3 & T4 & T5 & T6 & T7).
  destruct (reports_remote (changed_slots packet) b0 b Hslots R1) as [_ U].
  assert (Hshape : well_shaped b1) by (split; cbn; [congruence|congruence|rewrite S1, S4, R4, Hslots; done]).
  assert (Hbel : believes b1 s).
  { split; cbn in *; [by rewrite S6, R6, <- T6|by rewrite U|done|by rewrite S5, R3, <- T5]. }
  assert (Hread1 : read_slots (container_refs b1) w (slots b1) = Ok stacks) by (cbn; by rewrite S1, S2).
  assert (Hsh : forall b' s', same_menu b1 b' -> believes b' s' -> shows s' b1 stacks -> slots b' = slots b /\ carried b' = carried b /\ container_refs b' = container_refs b /\
    believes b' s' /\ shows s' b stacks).
  { intros b' s' (M1 & M2 & M3 & M4 & M5 & M6 & M7 & M8) Hb' [V1 V2 V3]. cbn in *. do 3 (split; [congruence|]). split; [done|].
    split; [done|by rewrite <- S3|congruence]. }
  destruct resync.
  - destruct (send_all_ok b1 w s stacks Hshape (believes_id _ _ Hbel) (eq_sym (believes_data _ _ Hbel)) Hread1) as (b' & sent & -> & M & _ & Hb' & Hs').
    exists b', sent. split; [done|]. by apply Hsh.
  - destruct (broadcast_ok b1 w s stacks Hshape Hbel eq_refl Hread1) as (b' & sent & -> & M & _ & Hb' & Hs' & _).
    exists b', sent. split; [done|]. by apply Hsh.
Qed.
End ClickPackets.

(** ** Theorems *)

(** C38: broadcasting brings the client up to date.  If the server's beliefs
    about the screen are right, then after applying the packets the screen
    shows every slot, the cursor and the data slots of the menu, the beliefs
    are still right, and broadcasting again sends nothing. *)
Theorem broadcast_syncs_client {items : Items} {hashing : Hashing} (b : MenuBehavior) (w : World) (s : Screen) (stacks : list ItemStack) :
  well_shaped b -> believes b s -> suppress_remote_updates b = false -> read_slots (container_refs b) w (slots b) = Ok stacks ->
  exists b' sent, broadcast_changes b w = Ok (b', sent) /\ believes b' (foldl client_apply s sent) /\
    shows (foldl client_apply s sent) b stacks /\ broadcast_changes b' w = Ok (b', []).
Proof.
  intros Hshape Hbel Hsup Hread. destruct (broadcast_ok b w s stacks Hshape Hbel Hsup Hread)
    as (b' & sent & -> & M & Hshape' & Hbel' & Hshows & Q1 & (k & Q2 & Q3) & Q4 & _).
  exists b', sent. split; [done|]. split; [done|]. split; [done|]. destruct M as (M1 & M2 & M3 & M4 & M5 & M6 & M7 & M8).
  destruct (broadcast_ok b' w _ stacks Hshape' Hbel') as (b2 & sent2 & -> & _ & _ & _ & _ & _ & _ & _ & Hq); [congruence|by rewrite M1, M5|].
  destruct Hq as [-> ->]; [done|exists k; by rewrite M2|congruence|done].
Qed.

(** Comparing a client's hash is exact.  With one-to-one registries, the
    hash a client computes of a stack matches the server's stack exactly when
    both are empty or they have the same item, count and patch, unless two
    different values of one component have the same hash. *)
Theorem hash_matches_exact {items : Items} {hashing : Hashing} (s local : ItemStack) (h : HashedStack) :
  registered -> hashable s -> hashable local -> no_collision s local -> hashes s h ->
  hashed_stack_matches h local = true <->
  is_empty s = true /\ is_empty local = true \/
  is_empty s = false /\ is_empty local = false /\ item_field s = item_field local /\ count_field s = count_field local /\
    patch_field s = patch_field local.
Proof. apply hash_match_iff. Qed.

(** C14: a click packet is answered.  A living, not spectating player without infinite
    materials (a creative one creates items by cloning), with the menu open and
    the slot in range, sends a click together with what its screen shows after
    predicting it.  Whatever click the packet holds, if its reports describe the
    client's screen ([believes]) then the menu handles it, no item of any kind
    appears or disappears, and after the answer the screen shows the menu. *)
Theorem click_packet_resyncs {items : Items} {hashing : Hashing} {K} (hooks : MenuKind K) {Hkind : ConservingKind hooks}
    (fuel : nat) (m : Menu K) (w : World) (p : Player) (packet : ClickPacket) (s : Screen) :
  has_infinite_materials p = false -> menu_ok p (behavior m) w -> layout_ok (layout m) (length (slots (behavior m))) -> (102 <= fuel)%nat ->
  well_shaped (behavior m) -> slot_num packet < Z.of_nat (length (slots (behavior m))) ->
  still_valid hooks m w p = true -> believes (receive_reports (behavior m) packet) s ->
  exists m' w' sent stacks, process_container_click hooks fuel m w p false packet = Ok (m', w', sent) /\
    read_slots (container_refs (behavior m')) w' (slots (behavior m')) = Ok stacks /\
    believes (behavior m') (foldl client_apply s sent) /\ Forall2 alike stacks (shown_slots (foldl client_apply s sent)) /\
    alike (carried (behavior m')) (shown_carried (foldl client_apply s sent)) /\
    (forall k, amount k (carried (behavior m')) + world_total k w' = amount k (carried (behavior m)) + world_total k w).
Proof.
  intros Hinf Hok Hly Hfuel Hshape Hslot Hvalid Hbel. unfold process_container_click. rewrite Hvalid. cbn [negb].
  assert ((slot_num packet <? 0) || (slot_num packet <? Z.of_nat (length (slots (behavior m)))) = true) as ->
    by (apply orb_true_iff; right; by apply Z.ltb_lt).
  cbn [negb]. set (click := parse _ _ _ _).
  set (b0 := match click with None => if cancels_drag packet then reset_quick_craft (behavior m) else behavior m | Some _ => behavior m end).
  assert (Hm0 : (match click with None => if cancels_drag packet then with_behavior (reset_quick_craft (behavior m)) m else m | Some _ => m end) =
    with_behavior b0 m) by (unfold b0; destruct m, click; [done|]; by destruct (cancels_drag packet)).
  rewrite Hm0. change (behavior (with_behavior b0 m)) with b0.
  assert (Hstep0 : menu_step p (behavior m) w b0 w).
  { unfold b0. destruct click; [by apply step_refl|]. destruct (cancels_drag packet); [by apply reset_step|by apply step_refl]. }
  set (m1 := mk_menu (suppress_updates b0) (layout m) (kind m)).
  change (with_behavior (suppress_updates b0) (with_behavior b0 m)) with m1.
  assert (Hok1 : menu_ok p (suppress_updates b0) w) by (destruct Hstep0 as [_ _ _ [O1 O2 O3 O4] _ _]; by split).
  assert (Hsl : slots b0 = slots (behavior m)) by apply Hstep0.
  assert (Hclick : exists m2 w2, match click with
      | Some click => let? '(m, w, _) := clicked hooks fuel m1 w click p in Ok (m, w)
      | None => Ok (m1, w) end = Ok (m2, w2) /\ menu_step p (suppress_updates b0) w (behavior m2) w2).
  { destruct click as [c|] eqn:Ec; [|exists m1, w; split; [done|by apply step_refl]].
    destruct (clicked_ok hooks p Hinf fuel m1 w c) as (m2 & w2 & ev & Hc & _ & Hst); [done|cbn; by rewrite Hsl|done|by eapply parse_valid|].
    exists m2, w2. split; [by rewrite Hc|done]. }
  destruct Hclick as (m2 & w2 & Hclick & Hstep). rewrite Hclick. cbn [obind].
  destruct (read_slots_ok p (behavior m2) w2 (step_ok _ _ _ _ _ Hstep)) as [stacks Hread].
  pose proof (step_remote _ _ _ _ _ Hstep) as (Q1 & Q2 & Q3 & Q4 & Q5 & Q6 & Q7). pose proof (step_remote _ _ _ _ _ Hstep0) as (P1 & P2 & P3 & P4 & P5 & P6 & P7).
  assert (Hslots : slots (behavior m2) = slots (behavior m)) by (rewrite (step_slots _ _ _ _ _ Hstep); exact Hsl).
  assert (Hans : exists b' sent, (if negb (u32 (packet_state_id packet) =? state_id b0) then send_all_data_to_remote (resume_remote_updates (receive_reports (behavior m2) packet)) w2
      else broadcast_changes (resume_remote_updates (receive_reports (behavior m2) packet)) w2) = Ok (b', sent) /\
    slots b' = slots (behavior m2) /\ carried b' = carried (behavior m2) /\ container_refs b' = container_refs (behavior m2) /\
    believes b' (foldl client_apply s sent) /\ shows (foldl client_apply s sent) (behavior m2) stacks).
  { apply (answer_ok (with_suppress (suppress_remote_updates (behavior m2)) (behavior m))); try done.
    - unfold same_remote in *. cbn in *. split_and!; congruence.
    - by split; destruct Hshape.
    - assert (Hgen : forall b x, believes (receive_reports b packet) s -> believes (receive_reports (with_suppress x b) packet) s).
      { intros b x [G1 G2 G3 G4]. destruct (reports_remote (changed_slots packet) b (with_suppress x b) eq_refl eq_refl) as [_ E].
        destruct (reports_shape (changed_slots packet) b) as (_ & _ & _ & _ & E5 & E6 & _).
        destruct (reports_shape (changed_slots packet) (with_suppress x b)) as (_ & _ & _ & _ & F5 & F6 & _).
        split; cbn in *; [congruence|by rewrite E|done|congruence]. }
      by apply Hgen. }
  destruct Hans as (b' & sent & -> & X1 & X2 & X3 & X4 & [Y1 Y2 Y3]). cbn [obind].
  eexists _, w2, sent, stacks. split; [done|]. cbn [behavior with_behavior]. split; [by rewrite X1, X3|]. split; [done|]. split; [done|].
  split; [by rewrite X2|]. intros k. rewrite X2, (step_total _ _ _ _ _ Hstep k). apply Hstep0.
Qed.

(** ** A client of the chest *)

Module Client.

#[local] Instance stone_items : Items := Chest.stone_items.
(** The id of a key is its code; only numbers are hashed. *)
#[local] Instance hashing : Hashing := {|
  registry_item_id k := Z.pos (countable.encode k);
  id_from_key k := Some (Z.pos (countable.encode k));
  get_key_by_id i := match i with Z.pos x => k ← countable.decode x; if decide (countable.encode k = x) then Some k else None | _ => None end;
  compute_hash _ v := match v with IntData z => Some z | _ => None end
|}.

Definition screen : Screen := mk_screen 1 (replicate 63 empty_stack) empty_stack [].

Lemma chest_shaped : well_shaped (behavior Chest.menu).
Proof. by split. Qed.

Lemma screen_believed : believes (behavior Chest.menu) screen.
Proof.
  split; try done. change (Forall2 perceives (replicate 63 Unknown) (replicate 63 empty_stack)). by apply Forall2_replicate.
Qed.

Lemma keys_registered : registered.
Proof.
  split.
  - intros i j [= H]. by apply (inj countable.encode).
  - intros k i. cbn [id_from_key get_key_by_id hashing]. split.
    + intros [= <-]. by rewrite decode_encode; simpl; rewrite decide_True.
    + destruct i as [|x|]; [done| |done]. rewrite bind_Some. intros (k' & _ & H). case_decide as E; [|done]. injection H as ->. by rewrite E.
Qed.
End Client.

Lemma broadcast_syncs_client_witness :
  let items := Client.stone_items in let hashing := Client.hashing in
  exists stacks b' sent, broadcast_changes (behavior Chest.menu) (Chest.world 10) = Ok (b', sent) /\
    believes b' (foldl client_apply Client.screen sent) /\ shows (foldl client_apply Client.screen sent) (behavior Chest.menu) stacks /\
    broadcast_changes b' (Chest.world 10) = Ok (b', []).
Proof.
  intros items hashing. destruct (read_slots_ok Chest.player (behavior Chest.menu) (Chest.world 10)) as [stacks Hread]; [apply Chest.menu_good; lia|].
  exists stacks. apply broadcast_syncs_client; [apply Client.chest_shaped|apply Client.screen_believed|reflexivity|exact Hread].
Defined.

Lemma hash_matches_exact_witness :
  let items := Client.stone_items in let hashing := Client.hashing in
  hashed_stack_matches (HashedItem (registry_item_id (vanilla_static "stone"%string)) 10 ∅ []) (Chest.stone 10) = true.
Proof.
  intros items hashing. apply (hash_matches_exact (Chest.stone 10) (Chest.stone 10)).
  - apply Client.keys_registered.
  - intros k e He. cbn in He. by rewrite lookup_empty in He.
  - intros k e He. cbn in He. by rewrite lookup_empty in He.
  - intros k i v v' Hv. cbn in Hv. by rewrite lookup_empty in Hv.
  - split_and!; try reflexivity.
    + intros i x. rewrite lookup_empty. split; [done|]. intros (k & v & Hk & _). cbn in Hk. by rewrite lookup_empty in Hk.
    + intros i. split; [by intros ?%not_elem_of_nil|]. intros (k & Hk & _). cbn in Hk. by rewrite lookup_empty in Hk.
  - right. by split_and!.
Defined.

(** A shift-click whose prediction reports nothing but an empty cursor. *)
Lemma click_packet_resyncs_witness :
  let items := Client.stone_items in let hashing := Client.hashing in
  let packet := mk_click_packet 0 0 TQuickMove 0 [] HashedEmpty in
  exists m' w' sent stacks, process_container_click BasicKind 102 Chest.menu (Chest.world 10) Chest.player false packet = Ok (m', w', sent) /\
    read_slots (container_refs (behavior m')) w' (slots (behavior m')) = Ok stacks /\
    believes (behavior m') (foldl client_apply Client.screen sent) /\ Forall2 alike stacks (shown_slots (foldl client_apply Client.screen sent)) /\
    alike (carried (behavior m')) (shown_carried (foldl client_apply Client.screen sent)) /\
    (forall k, amount k (carried (behavior m')) + world_total k w' = amount k (carried (behavior Chest.menu)) + world_total k (Chest.world 10)).
Proof.
  intros items hashing packet. apply (click_packet_resyncs BasicKind 102 Chest.menu (Chest.world 10) Chest.player packet Client.screen).
  - reflexivity.
  - apply Chest.menu_good. lia.
  - apply Chest.layout_good.
  - lia.
  - apply Client.chest_shaped.
  - by vm_compute.
  - reflexivity.
  - destruct Client.screen_believed as [H1 H2 H3 H4]. split; [exact H1|exact H2| |exact H4].
    intros local Hl. apply alike_iff. left. by split.
Defined.
