(* ===== verification/TickList.v ===== *)
(** * Scheduled ticks of one chunk

    Models [steel-core/src/world/tick_scheduler/list.rs], [run_batch.rs] and
    the data types of [tick_scheduler/mod.rs]: the per-chunk priority queue
    of scheduled block or fluid ticks, its deduplication set, the pending
    (saved or proto-chunk) entries, packing for storage and unpacking.

    A tick target ([BlockRef] or [FluidRef]) is a reference to a registry
    entry; it is modelled by its address, which is what [TickKey::key]
    returns. *)

From Stdlib Require Import Lia ZArith.
From stdpp Require Import prelude list gmap sorting.
From S2P Require Import Prelude Position Collections.

(** ** Data *)

Inductive TickPriority :=
| ExtremelyHigh | VeryHigh | High | Normal | Low | VeryLow | ExtremelyLow.

#[export] Instance TickPriority_eq_dec : EqDecision TickPriority.
Proof. solve_decision. Defined.

(** The [repr(i8)] discriminant, which the derived [Ord] compares. *)
Definition priority_value (p : TickPriority) : Z :=
  match p with
  | ExtremelyHigh => -3 | VeryHigh => -2 | High => -1 | Normal => 0
  | Low => 1 | VeryLow => 2 | ExtremelyLow => 3
  end.

Definition by_value (value : Z) : TickPriority :=
  match value with
  | -3 => ExtremelyHigh
  | -2 => VeryHigh
  | -1 => High
  | 0 => Normal
  | 1 => Low
  | 2 => VeryLow
  | 3 => ExtremelyLow
  | _ => if value <? priority_value ExtremelyHigh then ExtremelyHigh else ExtremelyLow
  end.

Definition priority_cmp (a b : TickPriority) : comparison :=
  Z.compare (priority_value a) (priority_value b).

Definition TickRef := Z.
Definition tick_key_of (t : TickRef) : Z := t.

Record ScheduledTick := mk_tick {
  tick_type : TickRef;
  tick_pos : BlockPos;
  trigger_tick : Z;
  priority : TickPriority;
  sub_tick_order : Z
}.

Record SavedTick := mk_saved {
  saved_type : TickRef;
  saved_pos : BlockPos;
  delay : Z;
  saved_priority : TickPriority
}.

Definition ScheduledTickKey : Type := BlockPos * Z.
Definition tick_key (t : ScheduledTick) : ScheduledTickKey := (tick_pos t, tick_key_of (tick_type t)).
Definition saved_key (s : SavedTick) : ScheduledTickKey := (saved_pos s, tick_key_of (saved_type s)).

Definition intra_tick_drain_order
    (left_priority : TickPriority) (left_sub_tick_order : Z)
    (right_priority : TickPriority) (right_sub_tick_order : Z) : comparison :=
  then_with (priority_cmp left_priority right_priority)
    (Z.compare left_sub_tick_order right_sub_tick_order).

Definition drain_order (a b : ScheduledTick) : comparison :=
  then_with (Z.compare (trigger_tick a) (trigger_tick b))
    (intra_tick_drain_order (priority a) (sub_tick_order a) (priority b) (sub_tick_order b)).

Record QueuedTick := mk_queued { tick : ScheduledTick; insertion_order : Z }.

Definition queued_cmp (a b : QueuedTick) : comparison :=
  then_with (reverse (drain_order (tick a) (tick b)))
    (Z.compare (insertion_order b) (insertion_order a)).

Record TickList := mk_list {
  pending_ticks : option (list SavedTick);
  ticks : list QueuedTick;
  scheduled : gset ScheduledTickKey;
  next_insertion_order : Z
}.

Definition new_tick_list : TickList := mk_list None [] ∅ 0.
Definition new_pending : TickList := mk_list (Some []) [] ∅ 0.

(** [FxHashSet::insert] and [remove] answer whether the set changed. *)
Definition set_insert (k : ScheduledTickKey) (X : gset ScheduledTickKey) :
    bool * gset ScheduledTickKey :=
  (negb (bool_decide (k ∈ X)), {[k]} ∪ X).

Definition from_saved_ticks (saved : list SavedTick) : TickList :=
  mk_list (Some saved) []
    (foldl (fun X s => (set_insert (saved_key s) X).2) ∅ saved) 0.

Definition push_unchecked (l : TickList) (t : ScheduledTick) : TickList :=
  mk_list (pending_ticks l)
    (heap_push (ticks l) (mk_queued t (next_insertion_order l)))
    (scheduled l) (wrapu 64 (next_insertion_order l + 1)).

Definition schedule (l : TickList) (ty : TickRef) (pos : BlockPos) (trigger : Z)
    (prio : TickPriority) (order : Z) : bool * TickList :=
  let '(fresh, keys) := set_insert (pos, tick_key_of ty) (scheduled l) in
  if negb fresh then (false, l)
  else (true, push_unchecked
                (mk_list (pending_ticks l) (ticks l) keys (next_insertion_order l))
                (mk_tick ty pos trigger prio order)).

Definition schedule_saved_pending (l : TickList) (s : SavedTick) : bool * TickList :=
  let '(fresh, keys) := set_insert (saved_key s) (scheduled l) in
  if negb fresh then (false, l)
  else (true, mk_list (Some (default [] (pending_ticks l) ++ [s])) (ticks l) keys
                (next_insertion_order l)).

Definition schedule_pending (l : TickList) (ty : TickRef) (pos : BlockPos) (prio : TickPriority) :
    bool * TickList :=
  schedule_saved_pending l (mk_saved ty pos 0 prio).

Definition from_proto_saved_ticks (saved : list SavedTick) : TickList :=
  foldl (fun l s => (schedule_saved_pending l s).2) new_pending saved.

Definition has_tick (l : TickList) (pos : BlockPos) (ty : TickRef) : bool :=
  bool_decide ((pos, tick_key_of ty) ∈ scheduled l).

Definition pending_entries (l : TickList) : list SavedTick := default [] (pending_ticks l).

(** [Vec::retain] with the removal from [scheduled] in its closure. *)
Fixpoint retain_pending (predicate : SavedTick -> bool) (pending : list SavedTick)
    (X : gset ScheduledTickKey) : list SavedTick * gset ScheduledTickKey :=
  match pending with
  | [] => ([], X)
  | s :: rest =>
      if negb (predicate s) then
        let '(kept, X') := retain_pending predicate rest X in (s :: kept, X')
      else retain_pending predicate rest (X ∖ {[saved_key s]})
  end.

Definition remove_pending_matching (l : TickList) (predicate : SavedTick -> bool) : Z * TickList :=
  match pending_ticks l with
  | None => (0, l)
  | Some pending =>
      let '(kept, X) := retain_pending predicate pending (scheduled l) in
      (Z.of_nat (length pending) - Z.of_nat (length kept),
       mk_list (Some kept) (ticks l) X (next_insertion_order l))
  end.

(** ** Packing for storage *)

Record TickListPackingSnapshot := mk_snapshot {
  snap_pending : list SavedTick;
  snap_live : list (ScheduledTick * Z)
}.

Definition packing_snapshot (l : TickList) : TickListPackingSnapshot :=
  mk_snapshot (pending_entries l) ((fun q => (tick q, insertion_order q)) <$> ticks l).

Definition live_cmp (a b : ScheduledTick * Z) : comparison :=
  then_with (Z.compare (sub_tick_order a.1) (sub_tick_order b.1)) (Z.compare a.2 b.2).

Definition save_tick (current_tick : Z) (t : ScheduledTick) : SavedTick :=
  mk_saved (tick_type t) (tick_pos t)
    (i32 (i64 (trigger_tick t - current_tick))) (priority t).

Definition pack (s : TickListPackingSnapshot) (current_tick : Z) : list SavedTick :=
  snap_pending s ++ ((fun p => save_tick current_tick p.1) <$> sort_by live_cmp (snap_live s)).

Fixpoint unpack_loop (current_tick tick_count index : Z) (pending : list SavedTick) (l : TickList) :
    TickList :=
  match pending with
  | [] => l
  | s :: rest =>
      unpack_loop current_tick tick_count (index + 1) rest
        (push_unchecked l
           (mk_tick (saved_type s) (saved_pos s) (i64 (current_tick + delay s))
              (saved_priority s) (i64 (- tick_count + index))))
  end.

Definition unpack (l : TickList) (current_tick : Z) : TickList :=
  match pending_ticks l with
  | None => l
  | Some pending =>
      unpack_loop current_tick (i64 (Z.of_nat (length pending))) 0 pending
        (mk_list None (ticks l) (scheduled l) (next_insertion_order l))
  end.

Definition list_len (l : TickList) : Z :=
  Z.of_nat (length (ticks l)) + Z.of_nat (from_option length 0%nat (pending_ticks l)).

(** ** Selection *)

Definition peek (l : TickList) : option ScheduledTick := tick <$> heap_peek queued_cmp (ticks l).

Definition peek_ready (l : TickList) (current_tick : Z) : option ScheduledTick :=
  t ← peek l; if trigger_tick t <=? current_tick then Some t else None.

Definition pop_ready (l : TickList) (current_tick : Z) : option (ScheduledTick * TickList) :=
  _ ← peek_ready l current_tick;
  '(q, rest) ← heap_pop queued_cmp (ticks l);
  Some (tick q, mk_list (pending_ticks l) rest (scheduled l ∖ {[tick_key (tick q)]})
                  (next_insertion_order l)).

(** The loop of [drain_ready]; every round removes one queued tick. *)
Fixpoint drain_loop (fuel : nat) (l : TickList) (current_tick : Z) : list ScheduledTick * TickList :=
  match fuel with
  | O => ([], l)
  | S n =>
      match pop_ready l current_tick with
      | Some (t, l') => let '(ready, l'') := drain_loop n l' current_tick in (t :: ready, l'')
      | None => ([], l)
      end
  end.

Definition drain_ready (l : TickList) (current_tick : Z) : list ScheduledTick * TickList :=
  drain_loop (S (length (ticks l))) l current_tick.

(** ** Batches under execution *)

Record ScheduledTickRunBatch := mk_batch {
  batch_ticks : list ScheduledTick;
  next_index : nat;
  lookup_table : option (gmap ScheduledTickKey nat)
}.

Definition new_batch (ts : list ScheduledTick) : ScheduledTickRunBatch := mk_batch ts 0 None.

Definition start (b : ScheduledTickRunBatch) (index : nat) : outcome Empty_set ScheduledTickRunBatch :=
  if (index <? length (batch_ticks b))%nat
  then Ok (mk_batch (batch_ticks b) (index + 1) (lookup_table b))
  else Panic.

(** [collect] into a map: a later entry replaces an earlier one. *)
Fixpoint index_keys (ts : list ScheduledTick) (index : nat) (m : gmap ScheduledTickKey nat) :
    gmap ScheduledTickKey nat :=
  match ts with
  | [] => m
  | t :: rest => index_keys rest (S index) (<[tick_key t := index]> m)
  end.

Definition contains (b : ScheduledTickRunBatch) (pos : BlockPos) (ty : TickRef) :
    bool * ScheduledTickRunBatch :=
  let initial_index := next_index b in
  if (length (batch_ticks b) <=? initial_index)%nat then (false, b)
  else
    let lookup :=
      match lookup_table b with
      | Some m => m
      | None => index_keys (drop initial_index (batch_ticks b)) initial_index ∅
      end in
    (match lookup !! (pos, tick_key_of ty) with
     | Some index => (next_index b <=? index)%nat
     | None => false
     end,
     mk_batch (batch_ticks b) (next_index b) (Some lookup)).

(** ** Orders *)

Lemma drain_order_laws : OrdLaws drain_order.
Proof.
  exact (then_with_laws _ _
    (OrdLaws0 := contramap_laws Z.compare trigger_tick)
    (OrdLaws1 := then_with_laws _ _
      (OrdLaws0 := contramap_laws Z.compare (fun t => priority_value (priority t)))
      (OrdLaws1 := contramap_laws Z.compare sub_tick_order))).
Qed.

#[export] Instance queued_cmp_laws : OrdLaws queued_cmp.
Proof.
  exact (then_with_laws _ _
    (OrdLaws0 := reverse_laws _ (OrdLaws0 := contramap_laws _ tick (OrdLaws0 := drain_order_laws)))
    (OrdLaws1 := flip_laws _ (OrdLaws0 := contramap_laws Z.compare insertion_order))).
Qed.

#[export] Instance live_cmp_laws : OrdLaws live_cmp.
Proof.
  exact (then_with_laws _ _
    (OrdLaws0 := contramap_laws Z.compare (fun a : ScheduledTick * Z => sub_tick_order a.1))
    (OrdLaws1 := contramap_laws Z.compare (fun a : ScheduledTick * Z => a.2))).
Qed.

(** A tick that precedes another in drain order is due no later. *)
Lemma queued_cmp_trigger a b :
  queued_cmp a b <> Gt -> trigger_tick (tick b) <= trigger_tick (tick a).
Proof.
  unfold queued_cmp, drain_order.
  destruct (Z.compare_spec (trigger_tick (tick a)) (trigger_tick (tick b))); simpl; try lia. done.
Qed.

Lemma queued_cmp_insertion a b :
  queued_cmp a b = Eq -> insertion_order a = insertion_order b.
Proof.
  unfold queued_cmp. destruct (reverse _); simpl; try done. intros ->%Z.compare_eq. done.
Qed.

(** ** Queue lemmas *)

Lemma peek_none l : peek l = None <-> ticks l = [].
Proof. unfold peek. rewrite fmap_None. apply heap_peek_none. Qed.

Lemma pop_ready_inv l now t l' :
  pop_ready l now = Some (t, l') ->
  exists q, heap_pop queued_cmp (ticks l) = Some (q, ticks l') /\ tick q = t /\
    trigger_tick t <= now /\ peek l = Some t /\
    pending_ticks l' = pending_ticks l /\ scheduled l' = scheduled l ∖ {[tick_key t]} /\
    next_insertion_order l' = next_insertion_order l.
Proof.
  unfold pop_ready, peek_ready, peek, heap_peek.
  destruct (heap_pop queued_cmp (ticks l)) as [[q rest]|] eqn:E; simpl; [|done].
  destruct (Z.leb_spec (trigger_tick (tick q)) now); simpl; [|done].
  intros [= <- <-]. exists q. by split_and!.
Qed.

Lemma pop_ready_none l now :
  pop_ready l now = None ->
  match peek l with Some t => now < trigger_tick t | None => True end.
Proof.
  unfold pop_ready, peek_ready, peek, heap_peek.
  destruct (heap_pop queued_cmp (ticks l)) as [[q rest]|] eqn:E; simpl; [|done].
  destruct (Z.leb_spec (trigger_tick (tick q)) now); simpl; done.
Qed.

Lemma peek_ready_pop l now t :
  peek_ready l now = Some t -> exists l', pop_ready l now = Some (t, l').
Proof.
  unfold pop_ready. intros E. rewrite E. unfold peek_ready, peek, heap_peek in E.
  destruct (heap_pop queued_cmp (ticks l)) as [[q rest]|]; simpl in *; [|done].
  destruct (trigger_tick (tick q) <=? now); [|done]. injection E as ->. eauto.
Qed.

Lemma peek_least l t q : peek l = Some t -> q ∈ ticks l -> trigger_tick t <= trigger_tick (tick q).
Proof.
  unfold peek. intros (m & Hm & ->)%fmap_Some Hq.
  by apply queued_cmp_trigger, (heap_peek_max _ _ _ _ Hm).
Qed.

Definition is_ready (now : Z) (q : QueuedTick) : bool := trigger_tick (tick q) <=? now.

Lemma drain_loop_heap fuel l now :
  (drain_loop fuel l now).1 = tick <$> heap_drain queued_cmp (is_ready now) fuel (ticks l).
Proof.
  revert l. induction fuel as [|n IH]; intros l; simpl; [done|].
  unfold pop_ready, peek_ready, peek, heap_peek, is_ready.
  destruct (heap_pop queued_cmp (ticks l)) as [[q rest]|] eqn:E; simpl; [|done].
  destruct (trigger_tick (tick q) <=? now); simpl; [|done].
  destruct (drain_loop _ _ _) as [r l''] eqn:D. simpl. f_equal.
  pose proof (IH (mk_list (pending_ticks l) rest (scheduled l ∖ {[tick_key (tick q)]})
    (next_insertion_order l))) as H. rewrite D in H. exact H.
Qed.

Lemma drain_loop_rest fuel l now :
  (length (ticks l) < fuel)%nat -> pop_ready (drain_loop fuel l now).2 now = None.
Proof.
  revert l. induction fuel as [|n IH]; intros l Hf; simpl; [lia|].
  destruct (pop_ready l now) as [[t l']|] eqn:E; [|done].
  destruct (pop_ready_inv _ _ _ _ E) as (q & Hp & _). apply heap_pop_length in Hp.
  specialize (IH l' ltac:(lia)). destruct (drain_loop n l' now). done.
Qed.

(** The two ways of reading the ticks of a queue. *)
Definition all_ticks (l : TickList) : list ScheduledTick := tick <$> ticks l.

Lemma drain_loop_conserves fuel l now :
  all_ticks l ≡ₚ (drain_loop fuel l now).1 ++ all_ticks (drain_loop fuel l now).2.
Proof.
  revert l. induction fuel as [|n IH]; intros l; simpl; [done|].
  destruct (pop_ready l now) as [[t l']|] eqn:E; simpl; [|done].
  destruct (pop_ready_inv _ _ _ _ E) as (q & Hp & <- & _).
  specialize (IH l'). destruct (drain_loop n l' now) as [r l'']. simpl in *.
  rewrite <- IH. unfold all_ticks. by rewrite (heap_pop_perm _ _ _ _ Hp).
Qed.

(** ** Deduplication *)

(** The keys of every tick the list holds, pending or live. *)
Definition keys (l : TickList) : list ScheduledTickKey :=
  (saved_key <$> pending_entries l) ++ (tick_key <$> all_ticks l).

Definition dedup (l : TickList) : Prop :=
  NoDup (keys l) /\ scheduled l = list_to_set (keys l).

Lemma dedup_add l l' k :
  dedup l -> k ∉ scheduled l -> keys l' ≡ₚ k :: keys l -> scheduled l' = {[k]} ∪ scheduled l ->
  dedup l'.
Proof.
  intros [Hn Hs] Hk Hp Hs'. rewrite Hs in Hk. split.
  - rewrite Hp. constructor; [|done]. set_solver.
  - rewrite Hs', Hs. apply leibniz_equiv. rewrite Hp. set_solver.
Qed.

Lemma dedup_remove l l' k :
  dedup l -> keys l ≡ₚ k :: keys l' -> scheduled l' = scheduled l ∖ {[k]} -> dedup l'.
Proof.
  intros [Hn Hs] Hp Hs'. rewrite Hp in Hn. apply NoDup_cons in Hn as [Hk Hn]. split; [done|].
  rewrite Hs', Hs. apply leibniz_equiv. rewrite Hp. set_solver.
Qed.

Lemma dedup_perm l l' :
  dedup l -> keys l ≡ₚ keys l' -> scheduled l' = scheduled l -> dedup l'.
Proof.
  intros [Hn Hs] Hp Hs'. split; [by rewrite <- Hp|].
  rewrite Hs', Hs. apply leibniz_equiv. by rewrite Hp.
Qed.

Lemma keys_push l t :
  keys (push_unchecked l t) ≡ₚ tick_key t :: keys l.
Proof.
  unfold keys, all_ticks, push_unchecked, heap_push, pending_entries. simpl.
  rewrite !fmap_app, app_assoc, Permutation_app_comm. done.
Qed.

Lemma schedule_dedup l ty pos trig prio ord :
  dedup l -> dedup (schedule l ty pos trig prio ord).2.
Proof.
  intros Hd. unfold schedule, set_insert. case_bool_decide as Hin; simpl; [done|].
  eapply dedup_add; [exact Hd | exact Hin | by rewrite keys_push | done].
Qed.

Lemma schedule_saved_pending_dedup l s : dedup l -> dedup (schedule_saved_pending l s).2.
Proof.
  intros Hd. unfold schedule_saved_pending, set_insert. case_bool_decide as Hin; simpl; [done|].
  eapply dedup_add; [exact Hd | exact Hin | | done].
  unfold keys, pending_entries, all_ticks. simpl.
  rewrite fmap_app, (Permutation_app_comm (saved_key <$> default [] _)). done.
Qed.

Lemma retain_pending_keys predicate pending X K kept X' :
  retain_pending predicate pending X = (kept, X') ->
  NoDup ((saved_key <$> pending) ++ K) -> X = list_to_set ((saved_key <$> pending) ++ K) ->
  NoDup ((saved_key <$> kept) ++ K) /\ X' = list_to_set ((saved_key <$> kept) ++ K).
Proof.
  revert X K kept X'. induction pending as [|s rest IH]; intros X K kept X'; simpl.
  { by intros [= <- <-]. }
  destruct (predicate s); simpl; intros E [Hs Hn]%NoDup_cons HX.
  - eapply IH; [exact E | done |]. rewrite HX. set_solver.
  - destruct (retain_pending predicate rest X) as [kept' X''] eqn:R. injection E as <- <-.
    destruct (IH X (saved_key s :: K) kept' X'' R) as [H1 H2].
    + rewrite <- Permutation_middle. by constructor.
    + rewrite HX. set_solver.
    + rewrite <- Permutation_middle in H1. split; [done|]. rewrite H2. simpl.
      apply leibniz_equiv. by rewrite <- Permutation_middle.
Qed.

Lemma remove_pending_dedup l predicate : dedup l -> dedup (remove_pending_matching l predicate).2.
Proof.
  intros [Hn Hs]. unfold remove_pending_matching, dedup, keys, pending_entries in *.
  destruct (pending_ticks l) as [pending|] eqn:E; [|simpl; rewrite E; done]. simpl in *.
  destruct (retain_pending predicate pending (scheduled l)) as [kept X] eqn:R. simpl.
  by apply (retain_pending_keys _ _ _ _ _ _ R).
Qed.

Lemma unpack_loop_keys now n i pending l :
  pending_ticks l = None ->
  let l' := unpack_loop now n i pending l in
  keys l' ≡ₚ (saved_key <$> pending) ++ keys l /\ scheduled l' = scheduled l /\
  pending_ticks l' = None.
Proof.
  revert i l. induction pending as [|s rest IH]; intros i l Hl; simpl; [done|].
  destruct (IH (i + 1) (push_unchecked l (mk_tick (saved_type s) (saved_pos s)
    (i64 (now + delay s)) (saved_priority s) (i64 (- n + i)))) Hl) as (H1 & H2 & H3).
  split_and!; [|done..]. rewrite H1, keys_push. simpl. by rewrite <- Permutation_middle.
Qed.

Lemma unpack_dedup l now : dedup l -> dedup (unpack l now).
Proof.
  intros Hd. unfold unpack. destruct (pending_ticks l) as [pending|] eqn:E; [|done].
  destruct (unpack_loop_keys now (i64 (Z.of_nat (length pending))) 0 pending
    (mk_list None (ticks l) (scheduled l) (next_insertion_order l)) eq_refl) as (H1 & H2 & _).
  eapply dedup_perm; [exact Hd | | exact H2]. rewrite H1. unfold keys, pending_entries.
  by rewrite E.
Qed.

Lemma pop_ready_dedup l now t l' : pop_ready l now = Some (t, l') -> dedup l -> dedup l'.
Proof.
  intros (q & Hp & <- & _ & _ & Hpend & Hs & _)%pop_ready_inv Hd.
  eapply dedup_remove; [exact Hd | | exact Hs].
  unfold keys, all_ticks, pending_entries. rewrite Hpend, (heap_pop_perm _ _ _ _ Hp). simpl.
  by rewrite <- Permutation_middle.
Qed.

#[export] Hint Resolve schedule_dedup schedule_saved_pending_dedup remove_pending_dedup
  unpack_dedup : ticks.

(** The lists a chunk can hold: fresh, loaded as a proto chunk, or loaded as
    a full chunk from a saved list without repeated keys; then any sequence
    of operations. *)
Inductive reachable : TickList -> Prop :=
| reach_new : reachable new_tick_list
| reach_proto saved : reachable (from_proto_saved_ticks saved)
| reach_saved saved : NoDup (saved_key <$> saved) -> reachable (from_saved_ticks saved)
| reach_schedule l ty pos trig prio ord :
    reachable l -> reachable (schedule l ty pos trig prio ord).2
| reach_pending l ty pos prio : reachable l -> reachable (schedule_pending l ty pos prio).2
| reach_remove l predicate : reachable l -> reachable (remove_pending_matching l predicate).2
| reach_unpack l now : reachable l -> reachable (unpack l now)
| reach_pop l now t l' : reachable l -> pop_ready l now = Some (t, l') -> reachable l'.

Lemma from_saved_scheduled saved X :
  foldl (fun X s => (set_insert (saved_key s) X).2) X saved =
  list_to_set (saved_key <$> saved) ∪ X.
Proof. revert X. induction saved as [|s r IH]; intros X; simpl; [set_solver|]. rewrite IH. set_solver. Qed.

Lemma from_proto_dedup saved : dedup (from_proto_saved_ticks saved).
Proof.
  unfold from_proto_saved_ticks. assert (Hd : dedup new_pending) by (split; [constructor|done]).
  revert Hd. generalize new_pending. induction saved as [|s r IH]; simpl; [done|].
  intros l Hl. apply IH. auto with ticks.
Qed.

Lemma reachable_dedup l : reachable l -> dedup l.
Proof.
  induction 1; eauto using from_proto_dedup, pop_ready_dedup with ticks.
  - split; [constructor|done].
  - split; unfold keys, pending_entries, from_saved_ticks; simpl; rewrite app_nil_r; [done|].
    rewrite from_saved_scheduled. set_solver.
  - by apply schedule_saved_pending_dedup.
Qed.

(** On every list a chunk can hold, [has_tick] answers exactly whether a
    tick with that position and type is queued (pending or live), no key is
    queued twice, and [schedule] adds a tick exactly when none was queued. *)
Theorem has_tick_exact l :
  reachable l ->
  NoDup (keys l) /\
  (forall pos ty, has_tick l pos ty = true <-> (pos, tick_key_of ty) ∈ keys l) /\
  (forall ty pos trig prio ord,
     let '(added, l') := schedule l ty pos trig prio ord in
     (added = true <-> (pos, tick_key_of ty) ∉ keys l) /\
     (added = true -> keys l' ≡ₚ (pos, tick_key_of ty) :: keys l) /\
     (added = false -> l' = l)).
Proof.
  intros [Hn Hs]%reachable_dedup. split_and!; [done| |].
  - intros pos ty. unfold has_tick. rewrite bool_decide_eq_true, Hs. set_solver.
  - intros ty pos trig prio ord. unfold schedule, set_insert. rewrite Hs.
    case_bool_decide as Hin; simpl.
    + rewrite elem_of_list_to_set in Hin. naive_solver.
    + rewrite elem_of_list_to_set in Hin. split_and!; [done| |done]. intros _. by rewrite keys_push.
Qed.

Lemma has_tick_exact_witness :
  exists l, ticks l <> [] /\ (has_tick l (mk_block 1 2 3) 5 = true <-> (mk_block 1 2 3, tick_key_of 5) ∈ keys l).
Proof.
  pose (saved := [mk_saved 5 (mk_block 1 2 3) 4 Low; mk_saved 5 (mk_block 1 2 3) 9 High]).
  pose proof (reach_schedule _ 7 (mk_block 1 2 3) 102 Normal 0 (reach_unpack _ 100 (reach_proto saved))) as Hl.
  destruct (has_tick_exact _ Hl) as (_ & H & _).
  refine (ex_intro _ _ (conj _ (H (mk_block 1 2 3) 5))). vm_compute. congruence.
Defined.

(** Repeatedly popping ready ticks returns exactly the queued ticks whose
    deadline has passed, each once, in drain order (deadline, then priority,
    then sub-tick order); what stays queued is exactly the rest. *)
Theorem drain_ready_exact l now :
  let '(ready, l') := drain_ready l now in
  ready ≡ₚ filter (fun t => trigger_tick t <= now) (all_ticks l) /\
  all_ticks l' ≡ₚ filter (fun t => now < trigger_tick t) (all_ticks l) /\
  StronglySorted (fun a b => drain_order a b <> Gt) ready.
Proof.
  unfold drain_ready. assert (Hn : (length (ticks l) <= S (length (ticks l)))%nat) by lia.
  revert Hn. generalize (S (length (ticks l))) as n. intros n Hn.
  pose proof (drain_loop_heap n l now) as Hh. pose proof (drain_loop_conserves n l now) as Hc.
  pose proof (heap_drain_perm queued_cmp (is_ready now) n (ticks l) Hn) as Hp.
  pose proof (heap_drain_sorted queued_cmp (is_ready now) n (ticks l)) as Hs.
  destruct (drain_loop n l now) as [ready l']. simpl in Hh, Hc. subst ready.
  assert (Hr : tick <$> heap_drain queued_cmp (is_ready now) n (ticks l)
    ≡ₚ filter (fun t => trigger_tick t <= now) (all_ticks l)).
  { rewrite Hp by (intros x y; unfold is_ready; intros ?%queued_cmp_trigger;
      rewrite !Is_true_true, !Z.leb_le; lia).
    unfold all_ticks. rewrite list_filter_fmap.
    rewrite (list_filter_iff (fun q => is_ready now q) (fun q => trigger_tick (tick q) <= now));
      [done|]. intros q. unfold is_ready. by rewrite Is_true_true, Z.leb_le. }
  split_and!; [done| |].
  - rewrite Hr in Hc.
    rewrite <- (filter_app_complement (fun t => trigger_tick t <= now) (all_ticks l)) in Hc at 1.
    apply Permutation_app_inv_l in Hc. rewrite <- Hc.
    rewrite (list_filter_iff _ (fun t => now < trigger_tick t)); [done|]. intros t. lia.
  - clear -Hs. induction Hs as [|q r Hs IH Hq]; simpl; constructor; [done|].
    apply Forall_fmap. eapply Forall_impl; [exact Hq|]. intros q'. simpl. unfold queued_cmp.
    rewrite (ord_opp drain_order (OrdLaws := drain_order_laws) (tick q) (tick q')).
    by destruct (drain_order (tick q) (tick q')).
Qed.

(** ** Saving and reloading *)

Definition reload (now' n : Z) (i : nat) (s : SavedTick) : ScheduledTick :=
  mk_tick (saved_type s) (saved_pos s) (i64 (now' + delay s)) (saved_priority s)
    (i64 (- n + Z.of_nat i)).

Lemma unpack_loop_ticks now' n k pending l :
  next_insertion_order l + Z.of_nat (length pending) < 2 ^ 64 -> 0 <= next_insertion_order l ->
  ticks (unpack_loop now' n (Z.of_nat k) pending l) =
  ticks l ++ imap (fun i s => mk_queued (reload now' n (k + i) s)
                                (next_insertion_order l + Z.of_nat i)) pending.
Proof.
  revert k l. induction pending as [|s rest IH]; intros k l Hb H0; simpl.
  { by rewrite app_nil_r. }
  simpl in Hb. replace (Z.of_nat k + 1) with (Z.of_nat (S k)) by lia.
  rewrite IH; unfold push_unchecked; simpl; rewrite ?wrapu_id by (unfold is_u; lia); try lia.
  unfold heap_push. rewrite <- app_assoc. simpl. f_equal. f_equal.
  - unfold reload. rewrite Nat.add_0_r, Z.add_0_r. done.
  - apply imap_ext. intros i x _. simpl. f_equal; [f_equal; lia | lia].
Qed.

(** The live part of a list, in saved order, against its reloaded form. *)
Definition reloaded_pairs (now now' : Z) (S : list (ScheduledTick * Z)) :
    list (QueuedTick * QueuedTick) :=
  imap (fun i p => (mk_queued p.1 p.2,
    mk_queued (reload now' (Z.of_nat (length S)) i (save_tick now p.1)) (Z.of_nat i))) S.

Lemma queued_cmp_live a b :
  queued_cmp a b =
  reverse (then_with (Z.compare (trigger_tick (tick a)) (trigger_tick (tick b)))
    (then_with (priority_cmp (priority (tick a)) (priority (tick b)))
       (live_cmp (tick a, insertion_order a) (tick b, insertion_order b)))).
Proof.
  unfold queued_cmp, drain_order, intra_tick_drain_order, live_cmp. simpl.
  rewrite (Z.compare_antisym (insertion_order a) (insertion_order b)).
  by destruct (_ ?= _), (priority_cmp _ _), (_ ?= _), (_ ?= _).
Qed.

Section SaveReload.
Context (now now' : Z) (S : list (ScheduledTick * Z)).
Hypothesis Hsorted : StronglySorted (ord_le live_cmp) S.
Hypothesis Hdistinct : NoDup S.*2.
Hypothesis Hlen : Z.of_nat (length S) < 2 ^ 62.
Hypothesis Hdelay : forall p, p ∈ S ->
  is_s 32 (trigger_tick p.1 - now) /\ is_s 64 (now' + (trigger_tick p.1 - now)).

Lemma live_cmp_index i j p q :
  S !! i = Some p -> S !! j = Some q -> live_cmp p q = Z.compare (Z.of_nat i) (Z.of_nat j).
Proof.
  assert (Hlt : forall i j p q, S !! i = Some p -> S !! j = Some q -> (i < j)%nat -> live_cmp p q = Lt).
  { clear i j p q. intros i j p q Hi Hj Hij.
    pose proof (StronglySorted_lookup_lt _ _ _ _ _ _ Hsorted Hi Hj Hij) as Hle.
    destruct (live_cmp p q) eqn:E; [|done|by destruct Hle].
    assert (i = j); [|lia]. apply (NoDup_lookup S.*2 i j p.2 Hdistinct);
      rewrite list_lookup_fmap, ?Hi, ?Hj; [done|]. simpl. f_equal. symmetry.
    unfold live_cmp in E. destruct (_ ?= _); simpl in E; try done. by apply Z.compare_eq. }
  intros Hi Hj. destruct (Z.compare_spec (Z.of_nat i) (Z.of_nat j)) as [E|E|E].
  - assert (i = j) as -> by lia. rewrite Hi in Hj. injection Hj as ->. apply (ord_refl live_cmp).
  - apply (Hlt i j); [done..|lia].
  - apply (ord_gt_lt live_cmp), (Hlt j i); [done..|lia].
Qed.

Lemma delay_exact p : p ∈ S ->
  i64 (now' + delay (save_tick now p.1)) = now' + (trigger_tick p.1 - now).
Proof.
  intros [H1 H2]%Hdelay. unfold save_tick. simpl. unfold i64, i32.
  assert (E : wraps 64 (trigger_tick p.1 - now) = trigger_tick p.1 - now).
  { apply wraps_id; [lia|]. by apply (is_s_weaken 32 64); [lia|]. }
  by rewrite E, (wraps_id 32), wraps_id by (done || lia).
Qed.

Lemma pairs_elem x : x ∈ reloaded_pairs now now' S ->
  exists i p, S !! i = Some p /\ p ∈ S /\ x.1 = mk_queued p.1 p.2 /\ insertion_order x.2 = Z.of_nat i /\
    tick x.2 = mk_tick (tick_type p.1) (tick_pos p.1) (now' + (trigger_tick p.1 - now))
      (priority p.1) (- Z.of_nat (length S) + Z.of_nat i).
Proof.
  intros [i Hi]%list_elem_of_lookup. unfold reloaded_pairs in Hi.
  rewrite list_lookup_imap in Hi. destruct (S !! i) as [p|] eqn:Ep; [|done]. injection Hi as <-.
  pose proof (lookup_lt_Some _ _ _ Ep). pose proof (list_elem_of_lookup_2 _ _ _ Ep) as Hp.
  exists i, p. split_and!; [done..|]. unfold reload, tick, snd. rewrite delay_exact by done.
  f_equal. unfold i64. apply wraps_id; [lia|]. unfold is_s. change (2 ^ (64 - 1)) with (2 * 2 ^ 62). lia.
Qed.

Lemma pairs_cmp x y :
  x ∈ reloaded_pairs now now' S -> y ∈ reloaded_pairs now now' S ->
  queued_cmp x.2 y.2 = queued_cmp x.1 y.1.
Proof.
  intros (i & p & Hi & _ & Ex & Ei & Et)%pairs_elem (j & q & Hj & _ & Ey & Ej & Eu)%pairs_elem.
  rewrite !queued_cmp_live, Ex, Ey, Et, Eu, Ei, Ej. simpl.
  assert (Hl : forall a b c d, live_cmp (mk_tick a b c d (- Z.of_nat (length S) + Z.of_nat i), Z.of_nat i)
    (mk_tick (tick_type q.1) (tick_pos q.1) (now' + (trigger_tick q.1 - now)) (priority q.1)
       (- Z.of_nat (length S) + Z.of_nat j), Z.of_nat j) = Z.compare (Z.of_nat i) (Z.of_nat j)).
  { intros. unfold live_cmp. simpl. rewrite Z.add_compare_mono_l. by destruct (Z.of_nat i ?= Z.of_nat j). }
  rewrite Hl. destruct p as [p1 p2], q as [q1 q2]. simpl. rewrite (live_cmp_index i j (p1, p2) (q1, q2)) by done.
  f_equal. f_equal. destruct (Z.compare_spec (trigger_tick p1) (trigger_tick q1));
    [apply Z.compare_eq_iff | apply Z.compare_lt_iff | apply Z.compare_gt_iff]; lia.
Qed.

Lemma pairs_ready h x :
  x ∈ reloaded_pairs now now' S -> is_ready (now' + h) x.2 = is_ready (now + h) x.1.
Proof.
  intros (i & p & Hi & _ & Ex & Ei & Et)%pairs_elem. unfold is_ready. rewrite Ex, Et. simpl.
  destruct (Z.leb_spec (now' + (trigger_tick p.1 - now)) (now' + h)); zbool; done.
Qed.
End SaveReload.

(** What a drained tick does and how long after [now] it was due. *)
Definition due_after (now : Z) (t : ScheduledTick) : TickRef * BlockPos * TickPriority * Z :=
  (tick_type t, tick_pos t, priority t, trigger_tick t - now).

Lemma snapshot_ticks l :
  (fun p => mk_queued p.1 p.2) <$> snap_live (packing_snapshot l) = ticks l.
Proof.
  unfold packing_snapshot. simpl. rewrite <- list_fmap_compose.
  rewrite <- (list_fmap_id (ticks l)) at 2. apply list_fmap_ext. by intros _ [] _.
Qed.

Lemma reloaded_ticks l now now' :
  pending_ticks l = None -> Z.of_nat (length (ticks l)) < 2 ^ 62 ->
  ticks (unpack (from_saved_ticks (pack (packing_snapshot l) now)) now') =
  (reloaded_pairs now now' (sort_by live_cmp (snap_live (packing_snapshot l)))).*2.
Proof.
  intros Hnone Hlen. set (S := sort_by live_cmp _).
  assert (HS : length S = length (ticks l)).
  { unfold S. rewrite sort_by_perm. unfold packing_snapshot. simpl. apply length_fmap. }
  assert (Hpack : pack (packing_snapshot l) now = (fun p => save_tick now p.1) <$> S)
    by (unfold pack, packing_snapshot, pending_entries; simpl; by rewrite Hnone).
  unfold unpack, from_saved_ticks. cbn [pending_ticks ticks scheduled next_insertion_order].
  rewrite (unpack_loop_ticks now' _ 0); cbn [next_insertion_order ticks]; rewrite ?Hpack, ?length_fmap; try lia.
  unfold reloaded_pairs. rewrite fmap_imap, imap_fmap. simpl. apply imap_ext. intros i p _. simpl.
  unfold i64. rewrite (wraps_id 64 (Z.of_nat (length S))); [done|lia|].
  unfold is_s. change (2 ^ (64 - 1)) with (2 * 2 ^ 62). lia.
Qed.

(** Saving a chunk's live ticks and loading them later preserves the
    schedule: for every horizon [h], the reloaded list drains at [now' + h]
    the same ticks, in the same order and due after the same delays, as the
    saved list does at [now + h].  The delays must fit the [i32] in which
    they are stored and the new deadlines an [i64]. *)
Theorem save_reload_schedule l now now' h :
  pending_ticks l = None ->
  NoDup (insertion_order <$> ticks l) ->
  Z.of_nat (length (ticks l)) < 2 ^ 62 ->
  (forall t, t ∈ all_ticks l ->
     is_s 32 (trigger_tick t - now) /\ is_s 64 (now' + (trigger_tick t - now))) ->
  let l' := unpack (from_saved_ticks (pack (packing_snapshot l) now)) now' in
  due_after now' <$> (drain_ready l' (now' + h)).1 = due_after now <$> (drain_ready l (now + h)).1.
Proof.
  intros Hnone Hins Hlen Hdelay l'. unfold drain_ready. rewrite !drain_loop_heap.
  pose proof (reloaded_ticks l now now' Hnone Hlen) as Ht. fold l' in Ht. rewrite Ht.
  set (S := sort_by live_cmp (snap_live (packing_snapshot l))) in *.
  assert (HS : (fun p => mk_queued p.1 p.2) <$> S ≡ₚ ticks l)
    by (unfold S; rewrite sort_by_perm; by rewrite snapshot_ticks).
  assert (Hfst : (reloaded_pairs now now' S).*1 = (fun p => mk_queued p.1 p.2) <$> S)
    by (unfold reloaded_pairs; rewrite fmap_imap; apply imap_const).
  assert (Hn : length (reloaded_pairs now now' S).*2 = length (ticks l))
    by (unfold reloaded_pairs; rewrite length_fmap, length_imap, <- HS; by rewrite length_fmap).
  rewrite Hn. set (n := Datatypes.S (length (ticks l))).
  assert (HSl : length ((fun p => mk_queued p.1 p.2) <$> S) = length (ticks l)) by by rewrite HS.
  assert (Hd : NoDup S.*2).
  { rewrite <- HS, <- list_fmap_compose in Hins. exact Hins. }
  assert (HSd : forall p, p ∈ S ->
    is_s 32 (trigger_tick p.1 - now) /\ is_s 64 (now' + (trigger_tick p.1 - now))).
  { intros p Hp. apply Hdelay. unfold all_ticks. rewrite <- HS, <- list_fmap_compose.
    by apply (list_elem_of_fmap_2 (tick ∘ (fun p => mk_queued p.1 p.2))). }
  rewrite length_fmap in HSl. rewrite <- (heap_drain_perm_eq _ (is_ready (now + h)) n _ _ HS), <- Hfst.
  - destruct (heap_drain_related queued_cmp queued_cmp (is_ready (now + h)) (is_ready (now' + h)) n
      (reloaded_pairs now now' S)) as (Q & -> & -> & HQ).
    + intros x y. apply pairs_cmp; [apply (sort_by_sorted live_cmp)|done|lia|done].
    + intros x. apply pairs_ready; [lia|done].
    + rewrite <- !list_fmap_compose. apply list_fmap_ext. intros i x Hx%list_elem_of_lookup_2%HQ.
      apply pairs_elem in Hx as (k & p & _ & _ & E1 & _ & E2); [|lia|done].
      unfold due_after, compose. rewrite E1, E2. simpl. f_equal. lia.
  - rewrite length_fmap. lia.
  - intros x y Hc%queued_cmp_trigger. unfold is_ready. rewrite !Is_true_true, !Z.leb_le. lia.
  - intros x y Hx Hy Hc%queued_cmp_insertion. rewrite HS in Hx, Hy.
    by apply (NoDup_fmap_inj insertion_order (ticks l)).
Qed.

Lemma save_reload_schedule_witness :
  let l := (schedule (schedule new_tick_list 7 (mk_block 1 2 3) 110 Normal 0).2
              8 (mk_block 4 5 6) 105 High 1).2 in
  due_after 200 <$> (drain_ready (unpack (from_saved_ticks (pack (packing_snapshot l) 100)) 200) (200 + 7)).1
  = due_after 100 <$> (drain_ready l (100 + 7)).1 /\
  due_after 100 <$> (drain_ready l (100 + 7)).1 = [(8, mk_block 4 5 6, High, 5)].
Proof.
  split; [|vm_compute; reflexivity]. apply save_reload_schedule.
  - reflexivity.
  - vm_compute. repeat constructor; set_solver.
  - vm_compute. reflexivity.
  - intros t Ht. vm_compute in Ht. unfold is_s.
    repeat (apply elem_of_cons in Ht as [->|Ht]; [simpl; lia|]). by apply elem_of_nil in Ht.
Defined.

(** ** Batches under execution *)

Lemma index_keys_spec ts i m k n :
  (forall k' v, m !! k' = Some v -> (v < i)%nat) ->
  (exists v, index_keys ts i m !! k = Some v /\ (n <= v)%nat) <->
  (exists j t, ts !! j = Some t /\ tick_key t = k /\ (n <= i + j)%nat) \/
  (exists v, m !! k = Some v /\ (n <= v)%nat).
Proof.
  revert i m. induction ts as [|t ts IH]; intros i m Hm; simpl.
  { split; [by right|]. by intros [(? & ? & ? & _)|]. }
  rewrite IH.
  2:{ intros k' v [[_ <-]|[_ Hv]]%lookup_insert_Some; [lia|]. apply Hm in Hv. lia. }
  split.
  - intros [(j & u & Hj & Hk & Hn)|(v & [[<- <-]|[_ Hv]]%lookup_insert_Some & Hn)].
    + left. exists (S j), u. split_and!; [done..|lia].
    + left. exists 0%nat, t. split_and!; [done..|lia].
    + right. by exists v.
  - intros [([|j] & u & Hj & Hk & Hn)|(v & Hv & Hn)].
    + right. simpl in Hj. injection Hj as ->. exists i. rewrite <- Hk, lookup_insert_eq. split; [done|lia].
    + left. exists j, u. split_and!; [done..|lia].
    + right. destruct (decide (tick_key t = k)) as [<-|].
      * exists i. rewrite lookup_insert_eq. apply Hm in Hv. split; [done|lia].
      * exists v. by rewrite lookup_insert_ne.
Qed.

(** The states of a batch under execution: queries from callbacks, and ticks
    started in increasing order. *)
Inductive batch_run (ts : list ScheduledTick) : ScheduledTickRunBatch -> Prop :=
| run_new : batch_run ts (new_batch ts)
| run_contains b pos ty : batch_run ts b -> batch_run ts (contains b pos ty).2
| run_start b index b' :
    batch_run ts b -> (next_index b <= index)%nat -> start b index = Ok b' -> batch_run ts b'.

Definition batch_inv (ts : list ScheduledTick) (b : ScheduledTickRunBatch) : Prop :=
  batch_ticks b = ts /\
  forall m, lookup_table b = Some m ->
    exists init, (init <= next_index b)%nat /\ m = index_keys (drop init ts) init ∅.

Lemma batch_run_inv ts b : batch_run ts b -> batch_inv ts b.
Proof.
  induction 1 as [|b pos ty _ [Ht Hl]|b index b' _ [Ht Hl] Hi Hs]; [done| |].
  - unfold contains. destruct (_ <=? _)%nat; [done|]. split; [done|]. simpl.
    intros m [= <-]. destruct (lookup_table b) as [m|]; [by apply Hl|].
    exists (next_index b). split; [done|]. by rewrite Ht.
  - unfold start in Hs. destruct (_ <? _)%nat; [|done]. injection Hs as <-. split; [done|]. simpl.
    intros m (init & Hle & ->)%Hl. exists init. split; [lia|done].
Qed.

(** While a batch executes, [contains] (vanilla's [willTickThisTick])
    answers exactly whether a tick with that position and type is still to
    start, however the lazily built index was first materialised. *)
Theorem batch_contains_exact ts b pos ty :
  batch_run ts b ->
  (contains b pos ty).1 = true <->
  exists i t, (next_index b <= i)%nat /\ ts !! i = Some t /\ tick_key t = (pos, tick_key_of ty).
Proof.
  intros [Ht Hl]%batch_run_inv. unfold contains. rewrite Ht.
  destruct (Nat.leb_spec (length ts) (next_index b)); simpl.
  { split; [done|]. intros (i & t & Hi & Hlk%lookup_lt_Some & _). lia. }
  assert (exists init, (init <= next_index b)%nat /\
    match lookup_table b with Some m => m | None => index_keys (drop (next_index b) ts) (next_index b) ∅ end
    = index_keys (drop init ts) init ∅) as (init & Hinit & ->).
  { destruct (lookup_table b) as [m|]; [by apply Hl | by exists (next_index b)]. }
  pose proof (index_keys_spec (drop init ts) init ∅ (pos, tick_key_of ty) (next_index b)
    ltac:(intros ? ? ?%lookup_empty_Some; done)) as Hs.
  transitivity (exists v, index_keys (drop init ts) init ∅ !! (pos, tick_key_of ty) = Some v /\ (next_index b <= v)%nat).
  { destruct (_ !! _) as [v|]; [rewrite Nat.leb_le|]; naive_solver. }
  rewrite Hs. split.
  - intros [(j & t & Hj & Hk & Hn)|(v & Hv & _)]; [|by apply lookup_empty_Some in Hv].
    exists (init + j)%nat, t. by rewrite lookup_drop in Hj.
  - intros (i & t & Hi & Hlk & Hk). left. exists (i - init)%nat, t.
    rewrite lookup_drop. replace (init + (i - init))%nat with i by lia. split_and!; [done..|lia].
Qed.

Lemma batch_contains_exact_witness :
  let t k := mk_tick k (mk_block 0 0 0) 1 Normal 0 in
  exists b, next_index b = 1%nat /\ ((contains b (mk_block 0 0 0) 5).1 = true <->
  exists i u, (next_index b <= i)%nat /\ [t 4; t 5] !! i = Some u /\ tick_key u = (mk_block 0 0 0, tick_key_of 5)).
Proof.
  intros t. pose (b := mk_batch [t 4; t 5] 1 (lookup_table (contains (new_batch [t 4; t 5]) (mk_block 0 0 0) 4).2)).
  exists b. split; [reflexivity|]. apply batch_contains_exact.
  apply (run_start _ (contains (new_batch [t 4; t 5]) (mk_block 0 0 0) 4).2 0);
    [apply run_contains, run_new | vm_compute; lia | reflexivity].
Defined.
