(* ===== verification/TickScheduler.v ===== *)
(** * The world tick scheduler

    Models [steel-core/src/world/tick_scheduler/scheduler.rs] and the chunk
    containers of [tick_scheduler/mod.rs]: every full chunk owns a container
    with a block and a fluid [TickList]; the world keeps, per registered
    chunk, the deadline of each list's head, and, for the chunks in
    simulation range, two ordered indexes of those deadlines from which the
    ready ticks of one game tick are selected.

    An [Arc<ChunkTickContainer>] is an address into a store of containers, so
    that the chunk, the world index and a collection in progress share one
    container; [Arc::ptr_eq] compares addresses.  Every operation holds the
    container's lock, or the phase lock in write mode, from its first read to
    its last write, so operations are atomic steps. *)

From Stdlib Require Import Lia ZArith.
From stdpp Require Import prelude list gmap sorting.
From S2P Require Import Prelude Position Collections TickList.

(** ** Containers *)

Inductive TickKind := Block | Fluid.

#[export] Instance TickKind_eq_dec : EqDecision TickKind.
Proof. solve_decision. Defined.

Record ChunkTickLists := mk_lists { block_list : TickList; fluid_list : TickList }.

Definition get_list (kind : TickKind) (l : ChunkTickLists) : TickList :=
  match kind with Block => block_list l | Fluid => fluid_list l end.
Definition put_list (kind : TickKind) (x : TickList) (l : ChunkTickLists) : ChunkTickLists :=
  match kind with
  | Block => mk_lists x (fluid_list l)
  | Fluid => mk_lists (block_list l) x
  end.

Inductive ChunkTickContainerLifecycle := Proto | PrePublication | Registered | Finalized.

#[export] Instance Lifecycle_eq_dec : EqDecision ChunkTickContainerLifecycle.
Proof. solve_decision. Defined.

Record ChunkTickContainerState := mk_container {
  lifecycle : ChunkTickContainerLifecycle;
  lists : ChunkTickLists
}.

Definition container_new (l : ChunkTickLists) := mk_container PrePublication l.
Definition container_new_proto (l : ChunkTickLists) := mk_container Proto l.

Definition promote_to_full (c : ChunkTickContainerState) : bool * ChunkTickContainerState :=
  if decide (lifecycle c <> Proto) then (false, c)
  else (true, mk_container PrePublication (lists c)).

(** [schedule_unregistered_block] and [schedule_unregistered_fluid]. *)
Definition schedule_unregistered (kind : TickKind) (c : ChunkTickContainerState) (ty : TickRef)
    (pos : BlockPos) (trigger : Z) (prio : TickPriority) (order : Z) :
    option bool * ChunkTickContainerState :=
  if decide (lifecycle c = PrePublication) then
    let '(added, l) := schedule (get_list kind (lists c)) ty pos trigger prio order in
    (Some added, mk_container (lifecycle c) (put_list kind l (lists c)))
  else (None, c).

(** [schedule_pending_block] and [schedule_pending_fluid]. *)
Definition container_schedule_pending (kind : TickKind) (c : ChunkTickContainerState) (ty : TickRef)
    (pos : BlockPos) (prio : TickPriority) : option bool * ChunkTickContainerState :=
  if decide (lifecycle c = Proto) then
    let '(added, l) := schedule_pending (get_list kind (lists c)) ty pos prio in
    (Some added, mk_container (lifecycle c) (put_list kind l (lists c)))
  else (None, c).

Definition pending_snapshot (kind : TickKind) (c : ChunkTickContainerState) : option (list SavedTick) :=
  if decide (lifecycle c = Proto) then Some (pending_entries (get_list kind (lists c))) else None.

Definition remove_pending_blocks_matching (c : ChunkTickContainerState) (predicate : SavedTick -> bool) :
    option Z * ChunkTickContainerState :=
  if decide (lifecycle c = Proto) then
    let '(n, l) := remove_pending_matching (block_list (lists c)) predicate in
    (Some n, mk_container (lifecycle c) (put_list Block l (lists c)))
  else (None, c).

(** [has_block] and [has_fluid]. *)
Definition container_has (kind : TickKind) (c : ChunkTickContainerState) (pos : BlockPos) (ty : TickRef) :
    option bool :=
  if decide (lifecycle c <> Finalized) then Some (has_tick (get_list kind (lists c)) pos ty) else None.

(** The persisted form of both queues. *)
Definition container_snapshot (c : ChunkTickContainerState) (current_tick : Z) :
    option (list SavedTick * list SavedTick) :=
  if decide (lifecycle c <> Finalized) then
    Some (pack (packing_snapshot (block_list (lists c))) current_tick,
          pack (packing_snapshot (fluid_list (lists c))) current_tick)
  else None.

(** ** The world index *)

Notation ContainerId := Z (only parsing).

Record ActiveChunkRank := mk_rank { generation : Z; rank : nat }.

Record RegisteredChunkTicks := mk_registered {
  reg_container : ContainerId;
  block_head : option Z;
  fluid_head : option Z;
  active : option ActiveChunkRank
}.

Record WorldTickSchedulerState := mk_state {
  chunks : gmap ChunkPos RegisteredChunkTicks;
  active_block_deadlines : gset (Z * Z);
  active_fluid_deadlines : gset (Z * Z);
  active_generation : Z
}.

Inductive TickSchedulerError :=
| AlreadyRegistered (pos : ChunkPos)
| MissingContainer (pos : ChunkPos)
| ContainerMismatch (pos : ChunkPos).

Record ActiveTickContainer := mk_active {
  ac_pos : ChunkPos;
  ac_rank : nat;
  ac_container : ContainerId
}.

Record TickHeadUpdate := mk_update { up_pos : ChunkPos; up_trigger : option Z }.

Definition head (r : RegisteredChunkTicks) (kind : TickKind) : option Z :=
  match kind with Block => block_head r | Fluid => fluid_head r end.

Definition reg_set_head (kind : TickKind) (t : option Z) (r : RegisteredChunkTicks) :
    RegisteredChunkTicks :=
  match kind with
  | Block => mk_registered (reg_container r) t (fluid_head r) (active r)
  | Fluid => mk_registered (reg_container r) (block_head r) t (active r)
  end.

Definition active_rank (r : RegisteredChunkTicks) (gen : Z) : option nat :=
  match active r with
  | Some a => if generation a =? gen then Some (rank a) else None
  | None => None
  end.

Definition deadlines (st : WorldTickSchedulerState) (kind : TickKind) : gset (Z * Z) :=
  match kind with Block => active_block_deadlines st | Fluid => active_fluid_deadlines st end.

Definition set_deadlines (st : WorldTickSchedulerState) (kind : TickKind) (X : gset (Z * Z)) :
    WorldTickSchedulerState :=
  match kind with
  | Block => mk_state (chunks st) X (active_fluid_deadlines st) (active_generation st)
  | Fluid => mk_state (chunks st) (active_block_deadlines st) X (active_generation st)
  end.

Definition set_chunks (st : WorldTickSchedulerState) (m : gmap ChunkPos RegisteredChunkTicks) :
    WorldTickSchedulerState :=
  mk_state m (active_block_deadlines st) (active_fluid_deadlines st) (active_generation st).

(** [assert!(deadlines.remove(&x))] and [assert!(deadlines.insert(x))]. *)
Definition deadline_remove (st : WorldTickSchedulerState) (kind : TickKind) (x : Z * Z) :
    outcome TickSchedulerError WorldTickSchedulerState :=
  if decide (x ∈ deadlines st kind) then Ok (set_deadlines st kind (deadlines st kind ∖ {[x]})) else Panic.
Definition deadline_insert (st : WorldTickSchedulerState) (kind : TickKind) (x : Z * Z) :
    outcome TickSchedulerError WorldTickSchedulerState :=
  if decide (x ∈ deadlines st kind) then Panic else Ok (set_deadlines st kind ({[x]} ∪ deadlines st kind)).

Definition is_active (r : RegisteredChunkTicks) (gen : Z) : bool :=
  match active_rank r gen with Some _ => true | None => false end.

Definition advance_active_generation (st : WorldTickSchedulerState) : Z * WorldTickSchedulerState :=
  if active_generation st + 1 <=? usize_max then
    let g := active_generation st + 1 in
    (g, mk_state (chunks st) (active_block_deadlines st) (active_fluid_deadlines st) g)
  else
    (1, mk_state
          ((fun r => mk_registered (reg_container r) (block_head r) (fluid_head r) None) <$> chunks st)
          (active_block_deadlines st) (active_fluid_deadlines st) 1).

Definition set_head (st : WorldTickSchedulerState) (pos : ChunkPos) (kind : TickKind) (trigger : option Z) :
    outcome TickSchedulerError WorldTickSchedulerState :=
  match chunks st !! pos with
  | None => Err (MissingContainer pos)
  | Some registered =>
      let act := is_active registered (active_generation st) in
      let previous := head registered kind in
      if decide (previous = trigger) then Ok st
      else
        let packed := PackedChunkPos.of_chunk pos in
        let? st := match act, previous with
                   | true, Some p => deadline_remove st kind (p, packed)
                   | _, _ => Ok st
                   end in
        match chunks st !! pos with
        | None => Err (MissingContainer pos)
        | Some registered =>
            let st := set_chunks st (<[pos := reg_set_head kind trigger registered]> (chunks st)) in
            match act, trigger with
            | true, Some t => deadline_insert st kind (t, packed)
            | _, _ => Ok st
            end
        end
  end.

(** One round of the loop of [take_due]; every round removes a deadline. *)
Fixpoint take_due_loop (fuel : nat) (st : WorldTickSchedulerState) (kind : TickKind) (current_tick : Z)
    (due : list ActiveTickContainer) :
    outcome TickSchedulerError (WorldTickSchedulerState * list ActiveTickContainer) :=
  match fuel with
  | O => Panic
  | S n =>
      match btree_first (deadlines st kind) with
      | None => Ok (st, due)
      | Some (trigger, packed) =>
          if current_tick <? trigger then Ok (st, due)
          else
            let st := set_deadlines st kind (deadlines st kind ∖ {[(trigger, packed)]}) in
            let pos := PackedChunkPos.to_chunk_pos packed in
            match chunks st !! pos with
            | None => Panic
            | Some registered =>
                if decide (head registered kind = Some trigger) then
                  match active_rank registered (active_generation st) with
                  | None => Panic
                  | Some rk =>
                      take_due_loop n
                        (set_chunks st (<[pos := reg_set_head kind None registered]> (chunks st)))
                        kind current_tick
                        (due ++ [mk_active pos rk (reg_container registered)])
                  end
                else Panic
            end
      end
  end.

Definition take_due (st : WorldTickSchedulerState) (kind : TickKind) (current_tick : Z) :
    outcome TickSchedulerError (WorldTickSchedulerState * list ActiveTickContainer) :=
  take_due_loop (S (size (deadlines st kind))) st kind current_tick [].

(** ** Selecting one tick's batch *)

Notation Store := (gmap ContainerId ChunkTickContainerState) (only parsing).

Record ReadyContainer := mk_ready {
  rc_pos : ChunkPos;
  rc_rank : nat;
  rc_container : ContainerId;
  rc_priority : TickPriority;
  rc_sub_tick_order : Z;
  dirty_reported : bool
}.

Definition ready_new (a : ActiveTickContainer) (t : ScheduledTick) (dirty : bool) : ReadyContainer :=
  mk_ready (ac_pos a) (ac_rank a) (ac_container a) (priority t) (sub_tick_order t) dirty.

Definition refresh (r : ReadyContainer) (t : ScheduledTick) : ReadyContainer :=
  mk_ready (rc_pos r) (rc_rank r) (rc_container r) (priority t) (sub_tick_order t) (dirty_reported r).

Definition report_dirty (r : ReadyContainer) : ReadyContainer :=
  mk_ready (rc_pos r) (rc_rank r) (rc_container r) (rc_priority r) (rc_sub_tick_order r) true.

Definition ready_cmp (a b : ReadyContainer) : comparison :=
  then_with
    (reverse (intra_tick_drain_order (rc_priority a) (rc_sub_tick_order a)
                (rc_priority b) (rc_sub_tick_order b)))
    (Z.compare (Z.of_nat (rc_rank b)) (Z.of_nat (rc_rank a))).

Fixpoint prepare_ready_containers (store : Store) (kind : TickKind) (current_tick : Z)
    (due : list ActiveTickContainer) (ready : list ReadyContainer) (updates : list TickHeadUpdate) :
    outcome TickSchedulerError (list ReadyContainer * list TickHeadUpdate) :=
  match due with
  | [] => Ok (ready, updates)
  | a :: rest =>
      match store !! ac_container a with
      | None => Panic
      | Some c =>
          if decide (lifecycle c = Registered) then
            let hd := peek (get_list kind (lists c)) in
            let skip := prepare_ready_containers store kind current_tick rest ready
                          (updates ++ [mk_update (ac_pos a) (trigger_tick <$> hd)]) in
            match hd with
            | Some t =>
                if trigger_tick t <=? current_tick then
                  prepare_ready_containers store kind current_tick rest
                    (heap_push ready (ready_new a t false)) updates
                else skip
            | None => skip
            end
          else Panic
      end
  end.

(** The inner loop: keep draining the current container while its next head
    is no later than the best competing container. *)
Fixpoint drain_current (fuel : nat) (l : TickList) (current_tick : Z) (max_ticks : nat)
    (competitor : option (TickPriority * Z)) (ts : list ScheduledTick) :
    outcome TickSchedulerError (TickList * list ScheduledTick) :=
  match fuel with
  | O => Panic
  | S n =>
      if (length ts <? max_ticks)%nat then
        match peek_ready l current_tick with
        | None => Ok (l, ts)
        | Some next =>
            let loses :=
              match competitor with
              | Some (p, s) =>
                  match intra_tick_drain_order (priority next) (sub_tick_order next) p s with
                  | Gt => true
                  | _ => false
                  end
              | None => false
              end in
            if loses then Ok (l, ts)
            else
              match pop_ready l current_tick with
              | None => Ok (l, ts)
              | Some (t, l') => drain_current n l' current_tick max_ticks competitor (ts ++ [t])
              end
        end
      else Ok (l, ts)
  end.

Record Collection := mk_collection {
  c_store : Store;
  c_ready : list ReadyContainer;
  c_ticks : list ScheduledTick;
  c_changed : list nat;
  c_updates : list TickHeadUpdate
}.

Definition put_container (kind : TickKind) (id : ContainerId) (c : ChunkTickContainerState) (l : TickList)
    (store : Store) : Store :=
  <[id := mk_container (lifecycle c) (put_list kind l (lists c))]> store.

(** One round of the outer loop, for the popped container [r]. *)
Definition collect_round (kind : TickKind) (current_tick : Z) (max_ticks : nat)
    (r : ReadyContainer) (s : Collection) : outcome TickSchedulerError Collection :=
  match c_store s !! rc_container r with
  | None => Panic
  | Some c =>
      if decide (lifecycle c = Registered) then
        let l := get_list kind (lists c) in
        match pop_ready l current_tick with
        | None =>
            Ok (mk_collection (c_store s) (c_ready s) (c_ticks s) (c_changed s)
                  (c_updates s ++ [mk_update (rc_pos r) (trigger_tick <$> peek l)]))
        | Some (t, l) =>
            let changed := if dirty_reported r then c_changed s else c_changed s ++ [rc_rank r] in
            let r := report_dirty r in
            let competitor :=
              (fun x => (rc_priority x, rc_sub_tick_order x)) <$> heap_peek ready_cmp (c_ready s) in
            let? '(l, ts) := drain_current (S (length (ticks l))) l current_tick max_ticks competitor
                               (c_ticks s ++ [t]) in
            let store := put_container kind (rc_container r) c l (c_store s) in
            match peek l with
            | Some next =>
                if (length ts <? max_ticks)%nat && (trigger_tick next <=? current_tick) then
                  Ok (mk_collection store (heap_push (c_ready s) (refresh r next)) ts changed (c_updates s))
                else
                  Ok (mk_collection store (c_ready s) ts changed
                        (c_updates s ++ [mk_update (rc_pos r) (Some (trigger_tick next))]))
            | None =>
                Ok (mk_collection store (c_ready s) ts changed (c_updates s ++ [mk_update (rc_pos r) None]))
            end
        end
      else Panic
  end.

Fixpoint collect_loop (fuel : nat) (kind : TickKind) (current_tick : Z) (max_ticks : nat)
    (s : Collection) : outcome TickSchedulerError Collection :=
  match fuel with
  | O => Panic
  | S n =>
      if (length (c_ticks s) <? max_ticks)%nat then
        match heap_pop ready_cmp (c_ready s) with
        | None => Ok s
        | Some (r, rest) =>
            let? s' := collect_round kind current_tick max_ticks r
                         (mk_collection (c_store s) rest (c_ticks s) (c_changed s) (c_updates s)) in
            collect_loop n kind current_tick max_ticks s'
        end
      else Ok s
  end.

(** The final loop over the containers still in the heap. *)
Fixpoint remaining_updates (store : Store) (kind : TickKind) (ready : list ReadyContainer) :
    outcome TickSchedulerError (list TickHeadUpdate) :=
  match ready with
  | [] => Ok []
  | r :: rest =>
      match store !! rc_container r with
      | None => Panic
      | Some c =>
          let? us := remaining_updates store kind rest in
          Ok (mk_update (rc_pos r) (trigger_tick <$> peek (get_list kind (lists c))) :: us)
      end
  end.

Record ScheduledTickBatch := mk_tick_batch {
  collected : list ScheduledTick;
  changed_containers : list nat
}.

Definition collect_registered_ticks (store : Store) (due : list ActiveTickContainer) (kind : TickKind)
    (current_tick : Z) (max_ticks : nat) :
    outcome TickSchedulerError (Store * ScheduledTickBatch * list TickHeadUpdate) :=
  let? '(ready, updates) := prepare_ready_containers store kind current_tick due [] [] in
  let? s := collect_loop (S (max_ticks + length ready)) kind current_tick max_ticks
              (mk_collection store ready [] [] updates) in
  let? more := remaining_updates (c_store s) kind (c_ready s) in
  Ok (c_store s, mk_tick_batch (c_ticks s) (c_changed s), c_updates s ++ more).

(** ** The scheduler's operations *)

Record WorldTickScheduler := mk_world {
  next_sub_tick_order : Z;
  state : WorldTickSchedulerState;
  store : Store
}.

(** A full chunk as the scheduler sees it: its position and its container. *)
Record FullChunk := mk_chunk_ref { chunk_pos : ChunkPos; scheduled_tick_container : ContainerId }.

Definition with_state (w : WorldTickScheduler) (st : WorldTickSchedulerState) : WorldTickScheduler :=
  mk_world (next_sub_tick_order w) st (store w).
Definition with_store (w : WorldTickScheduler) (s : Store) : WorldTickScheduler :=
  mk_world (next_sub_tick_order w) (state w) s.

Definition Step (A : Type) : Type := WorldTickScheduler * outcome TickSchedulerError A.

Definition scheduler_new : WorldTickScheduler := mk_world 0 (mk_state ∅ ∅ ∅ 0) ∅.

Definition take_sub_tick_order (w : WorldTickScheduler) : WorldTickScheduler * Z :=
  (mk_world (i64 (next_sub_tick_order w + 1)) (state w) (store w), next_sub_tick_order w).

Definition head_of (kind : TickKind) (c : ChunkTickContainerState) : option Z :=
  trigger_tick <$> peek (get_list kind (lists c)).

Definition register_chunk (w : WorldTickScheduler) (chunk : FullChunk) : Step unit :=
  match store w !! scheduled_tick_container chunk with
  | None => (w, Panic)
  | Some c =>
      if decide (lifecycle c <> PrePublication) then (w, Err (AlreadyRegistered (chunk_pos chunk)))
      else
        match chunks (state w) !! chunk_pos chunk with
        | Some _ => (w, Err (AlreadyRegistered (chunk_pos chunk)))
        | None =>
            let reg := mk_registered (scheduled_tick_container chunk) (head_of Block c) (head_of Fluid c) None in
            (mk_world (next_sub_tick_order w)
               (set_chunks (state w) (<[chunk_pos chunk := reg]> (chunks (state w))))
               (<[scheduled_tick_container chunk := mk_container Registered (lists c)]> (store w)),
             Ok ())
        end
  end.

Definition set_head_step (w : WorldTickScheduler) (pos : ChunkPos) (kind : TickKind) (t : option Z) : Step unit :=
  match set_head (state w) pos kind t with
  | Ok st => (with_state w st, Ok ())
  | Err e => (w, Err e)
  | Panic => (w, Panic)
  end.

Definition unpack_chunk (w : WorldTickScheduler) (pos : ChunkPos) (current_tick : Z) : Step unit :=
  match chunks (state w) !! pos with
  | None => (w, Err (MissingContainer pos))
  | Some registered =>
      match store w !! reg_container registered with
      | None => (w, Panic)
      | Some c =>
          if decide (lifecycle c <> Registered) then (w, Err (MissingContainer pos))
          else
            let c := mk_container (lifecycle c)
                       (mk_lists (unpack (block_list (lists c)) current_tick)
                          (unpack (fluid_list (lists c)) current_tick)) in
            let w := with_store w (<[reg_container registered := c]> (store w)) in
            match set_head_step w pos Block (head_of Block c) with
            | (w, Ok _) => set_head_step w pos Fluid (head_of Fluid c)
            | (w, r) => (w, r)
            end
      end
  end.

Definition drop_head (registered : RegisteredChunkTicks) (packed : Z) (kind : TickKind)
    (st : WorldTickSchedulerState) : outcome TickSchedulerError WorldTickSchedulerState :=
  match is_active registered (active_generation st), head registered kind with
  | true, Some h => deadline_remove st kind (h, packed)
  | _, _ => Ok st
  end.

Definition unregister_chunk (w : WorldTickScheduler) (pos : ChunkPos) : Step unit :=
  match chunks (state w) !! pos with
  | None => (w, Ok ())
  | Some registered =>
      let st := set_chunks (state w) (delete pos (chunks (state w))) in
      let packed := PackedChunkPos.of_chunk pos in
      match obind (drop_head registered packed Block st) (drop_head registered packed Fluid) with
      | Ok st =>
          match store w !! reg_container registered with
          | None => (w, Panic)
          | Some c =>
              (mk_world (next_sub_tick_order w) st
                 (<[reg_container registered := mk_container Finalized (lists c)]> (store w)), Ok ())
          end
      | Err e => (w, Err e)
      | Panic => (w, Panic)
      end
  end.

Definition activate (r : RegisteredChunkTicks) (gen : Z) (rk : nat) : RegisteredChunkTicks :=
  mk_registered (reg_container r) (block_head r) (fluid_head r) (Some (mk_rank gen rk)).

Definition add_head (r : RegisteredChunkTicks) (packed : Z) (kind : TickKind)
    (st : WorldTickSchedulerState) : outcome TickSchedulerError WorldTickSchedulerState :=
  match head r kind with
  | Some h => deadline_insert st kind (h, packed)
  | None => Ok st
  end.

(** The loop of [reconcile_active_chunks] over the ticking snapshot.  Its
    lookup cannot fail: every position was checked before the loop. *)
Fixpoint reconcile_loop (gen : Z) (rk : nat) (positions : list ChunkPos) (st : WorldTickSchedulerState) :
    outcome TickSchedulerError WorldTickSchedulerState :=
  match positions with
  | [] => Ok st
  | pos :: rest =>
      match chunks st !! pos with
      | None => Err (MissingContainer pos)
      | Some r =>
          if is_active r gen then Panic
          else
            let st := set_chunks st (<[pos := activate r gen rk]> (chunks st)) in
            let packed := PackedChunkPos.of_chunk pos in
            let? st := add_head r packed Block st in
            let? st := add_head r packed Fluid st in
            reconcile_loop gen (S rk) rest st
      end
  end.

Definition reconcile_active_chunks (w : WorldTickScheduler) (positions : list ChunkPos) : Step unit :=
  match list_find (fun pos => chunks (state w) !! pos = None) positions with
  | Some (_, pos) => (w, Err (MissingContainer pos))
  | None =>
      let st := mk_state (chunks (state w)) ∅ ∅ (active_generation (state w)) in
      let '(gen, st) := advance_active_generation st in
      match reconcile_loop gen 0 positions st with
      | Ok st => (with_state w st, Ok ())
      | Err e => (w, Err e)
      | Panic => (w, Panic)
      end
  end.

(** [schedule_block] and [schedule_fluid]. *)
Definition schedule_kind (kind : TickKind) (w : WorldTickScheduler) (chunk : FullChunk) (ty : TickRef)
    (pos : BlockPos) (trigger : Z) (prio : TickPriority) (order : Z) : Step bool :=
  let id := scheduled_tick_container chunk in
  match store w !! id with
  | None => (w, Panic)
  | Some c =>
      let '(added, l) := schedule (get_list kind (lists c)) ty pos trigger prio order in
      let w' := with_store w (put_container kind id c l (store w)) in
      if decide (lifecycle c = PrePublication) then (w', Ok added)
      else if decide (lifecycle c = Finalized) then (w, Err (MissingContainer (chunk_pos chunk)))
      else if negb added then (w', Ok false)
      else if decide (trigger_tick <$> peek l = head_of kind c) then (w', Ok true)
      else
        match chunks (state w) !! chunk_pos chunk with
        | None => (w', Err (MissingContainer (chunk_pos chunk)))
        | Some registered =>
            if decide (reg_container registered = id) then
              match set_head_step w' (chunk_pos chunk) kind (trigger_tick <$> peek l) with
              | (w'', Ok _) => (w'', Ok true)
              | (w'', Err e) => (w'', Err e)
              | (w'', Panic) => (w'', Panic)
              end
            else (w', Err (ContainerMismatch (chunk_pos chunk)))
        end
  end.

Definition empty_batch : ScheduledTickBatch := mk_tick_batch [] [].

(** Writing the head updates back to the index; an error there panics. *)
Fixpoint apply_updates (st : WorldTickSchedulerState) (kind : TickKind) (us : list TickHeadUpdate) :
    outcome TickSchedulerError WorldTickSchedulerState :=
  match us with
  | [] => Ok st
  | u :: rest =>
      match set_head st (up_pos u) kind (up_trigger u) with
      | Ok st => apply_updates st kind rest
      | _ => Panic
      end
  end.

(** [begin_tick] is [collect_ticks Block], [collect_fluid_ticks] is
    [collect_ticks Fluid]. *)
Definition collect_ticks (kind : TickKind) (w : WorldTickScheduler) (current_tick : Z) (max_ticks : nat) :
    Step ScheduledTickBatch :=
  if decide (max_ticks = 0%nat) then (w, Ok empty_batch)
  else
    match take_due (state w) kind current_tick with
    | Ok (st, []) => (with_state w st, Ok empty_batch)
    | Ok (st, due) =>
        match collect_registered_ticks (store w) due kind current_tick max_ticks with
        | Ok (s, batch, us) =>
            match apply_updates st kind us with
            | Ok st => (mk_world (next_sub_tick_order w) st s, Ok batch)
            | _ => (w, Panic)
            end
        | _ => (w, Panic)
        end
    | _ => (w, Panic)
    end.

(** ** Index keys *)

Definition is_chunk (p : ChunkPos) : Prop := is_s 32 (cx p) /\ is_s 32 (cy p).

Lemma chunk_pack_unpack p : is_chunk p -> PackedChunkPos.to_chunk_pos (PackedChunkPos.of_chunk p) = p.
Proof.
  destruct p as [x y]. unfold is_chunk, PackedChunkPos.to_chunk_pos, PackedChunkPos.of_chunk, i32, i64.
  simpl. change 4294967295 with (Z.ones 32). intros [Hx Hy]. f_equal.
  - rewrite <- (wraps_id 32 x) at 2 by (done || lia). apply Z.bits_inj'. intros i Hi. bits.
    rewrite (Z.testbit_neg_r _ (_ - 32)) by lia. rewrite orb_false_r. zbool. by rewrite !andb_true_r.
  - rewrite <- (wraps_id 32 y) at 2 by (done || lia). apply Z.bits_inj'. intros i Hi. bits.
    replace (Z.min (Z.min i (32 - 1) + 32) (64 - 1) - 32) with (Z.min i (32 - 1)) by lia.
    zbool. by rewrite andb_false_r, andb_true_r.
Qed.

Lemma of_chunk_inj p q :
  is_chunk p -> is_chunk q -> PackedChunkPos.of_chunk p = PackedChunkPos.of_chunk q -> p = q.
Proof. intros Hp Hq E. by rewrite <- (chunk_pack_unpack p), E, chunk_pack_unpack. Qed.

(** ** The index invariant *)

Lemma head_set_same k t r : head (reg_set_head k t r) k = t.
Proof. by destruct k. Qed.
Lemma head_set_other k k' t r : k <> k' -> head (reg_set_head k t r) k' = head r k'.
Proof. by destruct k, k'. Qed.
Lemma active_set_head k t r g : is_active (reg_set_head k t r) g = is_active r g.
Proof. by destruct k. Qed.
Lemma rank_set_head k t r g : active_rank (reg_set_head k t r) g = active_rank r g.
Proof. by destruct k. Qed.
Lemma container_set_head k t r : reg_container (reg_set_head k t r) = reg_container r.
Proof. by destruct k. Qed.
Lemma head_set_id k r : reg_set_head k (head r k) r = r.
Proof. by destruct k, r. Qed.
Lemma deadlines_set k st X : deadlines (set_deadlines st k X) k = X.
Proof. by destruct k. Qed.
Lemma deadlines_set_other k k' st X : k <> k' -> deadlines (set_deadlines st k X) k' = deadlines st k'.
Proof. by destruct k, k'. Qed.
Lemma chunks_set_deadlines k st X : chunks (set_deadlines st k X) = chunks st.
Proof. by destruct k. Qed.
Lemma generation_set_deadlines k st X : active_generation (set_deadlines st k X) = active_generation st.
Proof. by destruct k. Qed.
Lemma deadlines_set_chunks k st m : deadlines (set_chunks st m) k = deadlines st k.
Proof. by destruct k. Qed.

Lemma chunks_set_chunks st m : chunks (set_chunks st m) = m.
Proof. done. Qed.
Lemma generation_set_chunks st m : active_generation (set_chunks st m) = active_generation st.
Proof. done. Qed.

Create HintDb sched.
#[export] Hint Rewrite chunks_set_chunks generation_set_chunks head_set_same active_set_head rank_set_head container_set_head deadlines_set
  chunks_set_deadlines generation_set_deadlines deadlines_set_chunks : sched.
Ltac sched := autorewrite with sched in *.

(** The chunk at [p] is in simulation range and its [k] list's head is due
    at [t]. *)
Definition indexed (m : gmap ChunkPos RegisteredChunkTicks) (gen : Z) (k : TickKind) (p : ChunkPos) (t : Z) : Prop :=
  exists r, m !! p = Some r /\ is_active r gen = true /\ head r k = Some t.

(** The deadline index holds exactly the heads of the active chunks. *)
Record index_ok (st : WorldTickSchedulerState) : Prop := {
  ix_valid : forall p r, chunks st !! p = Some r -> is_chunk p;
  ix_deadlines : forall k t raw, (t, raw) ∈ deadlines st k <->
    exists p, raw = PackedChunkPos.of_chunk p /\ indexed (chunks st) (active_generation st) k p t;
  ix_generation : 0 <= active_generation st <= usize_max /\
    forall p r a, chunks st !! p = Some r -> active r = Some a -> generation a <= active_generation st
}.

Lemma index_ok_entry st k p r t :
  index_ok st -> chunks st !! p = Some r -> is_active r (active_generation st) = true ->
  (t, PackedChunkPos.of_chunk p) ∈ deadlines st k <-> head r k = Some t.
Proof.
  intros Hi Hp Ha. rewrite (ix_deadlines _ Hi). split.
  - intros (q & E & r' & Hq & _ & Ht). apply of_chunk_inj in E; [|by eapply ix_valid..].
    subst q. by rewrite Hp in Hq; injection Hq as ->.
  - intros Ht. exists p. split; [done|]. by exists r.
Qed.

(** Changing the entry of one position, with the index following it. *)
Lemma index_ok_change st st' p (o : option RegisteredChunkTicks) :
  index_ok st -> is_chunk p -> active_generation st' = active_generation st ->
  (forall q, chunks st' !! q = if decide (q = p) then o else chunks st !! q) ->
  (forall r a, o = Some r -> active r = Some a -> generation a <= active_generation st) ->
  (forall k x, x ∈ deadlines st' k <->
     (x ∈ deadlines st k /\ x.2 <> PackedChunkPos.of_chunk p) \/
     (exists r, o = Some r /\ is_active r (active_generation st) = true /\ head r k = Some x.1 /\
        x.2 = PackedChunkPos.of_chunk p)) ->
  index_ok st'.
Proof.
  intros Hi Hp Hg Hc Ho HD. pose proof (ix_valid _ Hi) as Hv. split.
  - intros q r. rewrite Hc. case_decide; [by subst q | apply Hv].
  - intros k t raw. rewrite HD, (ix_deadlines _ Hi), Hg. unfold indexed. simpl. split.
    + intros [[(q & -> & r & Hq & Ha & Hh) Hne]|(r & -> & Ha & Hh & ->)].
      * exists q. split; [done|]. exists r. rewrite Hc, decide_False by congruence. done.
      * exists p. split; [done|]. exists r. by rewrite Hc, decide_True.
    + intros (q & -> & r & Hq & Ha & Hh). rewrite Hc in Hq. case_decide as E.
      * right. subst q. by exists r.
      * left. split; [exists q; split; [done|]; by exists r|].
        intros E'%of_chunk_inj; [done|eauto..].
  - rewrite Hg. split; [apply (ix_generation _ Hi)|]. intros q r a. rewrite Hc. case_decide; [apply Ho|].
    apply (ix_generation _ Hi).
Qed.

(** Replacing one head. *)
Lemma index_ok_replace st k p r t D :
  index_ok st -> chunks st !! p = Some r ->
  (forall x, x ∈ D <->
     (x ∈ deadlines st k /\ x.2 <> PackedChunkPos.of_chunk p) \/
     (is_active r (active_generation st) = true /\ t = Some x.1 /\ x.2 = PackedChunkPos.of_chunk p)) ->
  index_ok (set_deadlines (set_chunks st (<[p := reg_set_head k t r]> (chunks st))) k D).
Proof.
  intros Hi Hp HD. apply (index_ok_change st _ p (Some (reg_set_head k t r))); [done|by eapply ix_valid|..].
  - by sched.
  - intros q. sched. case_decide; [subst q; apply lookup_insert_eq | by rewrite lookup_insert_ne].
  - intros r' a [= <-] Ha. eapply (ix_generation _ Hi); [exact Hp|]. by destruct k.
  - intros k' [u raw]. destruct (decide (k = k')) as [<-|Hk]; simpl.
    + rewrite deadlines_set, HD. simpl. split; (intros [H|H]; [by left|right]).
      * exists (reg_set_head k t r). by sched.
      * destruct H as (r' & [= <-] & H). by sched.
    + rewrite deadlines_set_other, deadlines_set_chunks by done.
      pose proof (index_ok_entry st k' p r u Hi Hp) as He.
      destruct (decide (raw = PackedChunkPos.of_chunk p)) as [->|Hne].
      2:{ split; [by left|]. intros [[? _]|(? & _ & _ & _ & ?)]; done. }
      split.
      * intros Hin. right. exists (reg_set_head k t r). rewrite head_set_other by done. sched.
        apply (ix_deadlines _ Hi) in Hin as (q & E & r' & Hq & Ha & Hh).
        apply of_chunk_inj in E; [|by eapply ix_valid..]. subst q. rewrite Hp in Hq. by injection Hq as <-.
      * intros [[_ []]|(r' & [= <-] & Ha & Hh & _)]; [done|]. rewrite head_set_other in Hh by done. sched.
        by apply He.
Qed.

Lemma set_deadlines_id st k : set_deadlines st k (deadlines st k) = st.
Proof. by destruct st, k. Qed.

Lemma set_chunks_id st : set_chunks st (chunks st) = st.
Proof. by destruct st. Qed.

(** [set_head] on a registered chunk succeeds, keeps the invariant and
    changes that head only. *)
Lemma set_head_ok st p k t r :
  index_ok st -> chunks st !! p = Some r ->
  exists D, let st' := set_deadlines (set_chunks st (<[p := reg_set_head k t r]> (chunks st))) k D in
    set_head st p k t = Ok st' /\ index_ok st'.
Proof.
  intros Hi Hp. pose proof (index_ok_entry st k p r) as He. unfold set_head. rewrite Hp.
  case_decide as Heq.
  { exists (deadlines st k). rewrite <- Heq, head_set_id, insert_id, set_chunks_id, set_deadlines_id by done.
    done. }
  destruct (is_active r (active_generation st)) eqn:Ha.
  - exists (match t with Some u => {[(u, PackedChunkPos.of_chunk p)]} | None => ∅ end ∪
      (deadlines st k ∖ match head r k with Some v => {[(v, PackedChunkPos.of_chunk p)]} | None => ∅ end)).
    set (D := _ ∪ _). split.
    + destruct (head r k) as [v|] eqn:Hh; simpl.
      * unfold deadline_remove. rewrite decide_True by (apply He; done). simpl. sched. rewrite Hp.
        destruct t as [u|]; [|subst D; rewrite union_empty_l_L; by destruct k].
        unfold deadline_insert. sched. rewrite decide_False.
        -- subst D. by destruct k.
        -- rewrite elem_of_difference, (He u) by done. intros [[= ->] _]. congruence.
      * rewrite Hp. destruct t as [u|]; [|congruence]. unfold deadline_insert. sched.
        rewrite decide_False by (rewrite (He u); congruence). subst D. rewrite difference_empty_L. by destruct k.
    + apply index_ok_replace; [done..|]. intros [u raw]. subst D. simpl.
      rewrite elem_of_union, elem_of_difference. specialize (He u Hi Hp eq_refl).
      assert (Hne : raw = PackedChunkPos.of_chunk p ->
        (u, raw) ∈ deadlines st k -> head r k = Some u) by (intros ->; by apply He).
      destruct (head r k) as [v|] eqn:Hh, t as [w|]; rewrite ?elem_of_singleton, ?elem_of_empty;
        destruct (decide (raw = PackedChunkPos.of_chunk p)); naive_solver.
  - exists (deadlines st k). simpl. rewrite Hp. split; [by destruct k, st|].
    apply index_ok_replace; [done..|]. intros x. split; [|intros [[Hx _]|[Ha' _]]; [exact Hx|congruence]].
    intros Hx. left. split; [done|]. destruct x as [u raw]. simpl. intros ->.
    apply (ix_deadlines _ Hi) in Hx as (q & E & r' & Hq & Ha' & _).
    apply of_chunk_inj in E; [|by eapply ix_valid..]. subst q. congruence.
Qed.

(** ** Taking the due containers *)

(** The containers taken from index [st0] have their heads cleared in [st]. *)
Record taken (st0 : WorldTickSchedulerState) (k : TickKind) (now : Z)
    (st : WorldTickSchedulerState) (due : list ActiveTickContainer) : Prop := {
  tk_index : index_ok st;
  tk_generation : active_generation st = active_generation st0;
  tk_nodup : NoDup (ac_pos <$> due);
  tk_due : forall a, a ∈ due -> exists r t,
    chunks st0 !! ac_pos a = Some r /\ reg_container r = ac_container a /\
    active_rank r (active_generation st0) = Some (ac_rank a) /\ head r k = Some t /\ t <= now;
  tk_chunks : forall p, chunks st !! p =
    (if decide (p ∈ ac_pos <$> due) then reg_set_head k None <$> chunks st0 !! p else chunks st0 !! p)
}.

Lemma taken_start st k now : index_ok st -> taken st k now st [].
Proof.
  intros Hi. split; [done..|constructor| |].
  - by intros a ?%elem_of_nil.
  - intros p. by rewrite decide_False by apply not_elem_of_nil.
Qed.

Lemma active_rank_is_active r g : is_active r g = true -> exists k, active_rank r g = Some k.
Proof. unfold is_active. destruct (active_rank r g); eauto. done. Qed.

(** One round: the first deadline is due. *)
Lemma taken_step st0 k now st due t raw :
  taken st0 k now st due -> (t, raw) ∈ deadlines st k -> t <= now ->
  exists r rk, let p := PackedChunkPos.to_chunk_pos raw in
    chunks st !! p = Some r /\ head r k = Some t /\
    active_rank r (active_generation st) = Some rk /\
    taken st0 k now
      (set_chunks (set_deadlines st k (deadlines st k ∖ {[(t, raw)]})) (<[p := reg_set_head k None r]> (chunks st)))
      (due ++ [mk_active p rk (reg_container r)]).
Proof.
  intros [Hi Hg Hn Hd Hc] Hin Hle. pose proof Hin as Hin'.
  apply (ix_deadlines _ Hi) in Hin' as (p & -> & r & Hp & Ha & Hh).
  rewrite chunk_pack_unpack by (by eapply ix_valid).
  destruct (active_rank_is_active _ _ Ha) as [rk Hrk]. exists r, rk. split_and!; [done..|].
  assert (Hp0 : p ∉ ac_pos <$> due).
  { intros Hp'. rewrite Hc, decide_True in Hp by done. apply fmap_Some in Hp as (r0 & _ & ->). by sched. }
  assert (Hr0 : chunks st0 !! p = Some r) by (rewrite <- Hp, Hc, decide_False; done).
  split.
  - replace (set_chunks _ _) with (set_deadlines (set_chunks st (<[p := reg_set_head k None r]> (chunks st)))
      k (deadlines st k ∖ {[(t, PackedChunkPos.of_chunk p)]})) by (by destruct k).
    apply index_ok_replace; [done..|]. intros [u raw]. simpl.
    rewrite elem_of_difference, elem_of_singleton. pose proof (index_ok_entry st k p r u Hi Hp Ha) as He.
    destruct (decide (raw = PackedChunkPos.of_chunk p)) as [->|]; naive_solver.
  - by sched.
  - rewrite fmap_app. apply NoDup_app. split_and!; [done| |apply NoDup_singleton].
    intros q Hq Hq'%list_elem_of_singleton. by subst q.
  - intros a Ha'. apply elem_of_app in Ha' as [Ha'|Ha'%list_elem_of_singleton]; [by apply Hd|]. subst a.
    exists r, t. simpl. rewrite <- Hg. done.
  - intros q. sched. rewrite fmap_app. simpl. destruct (decide (p = q)) as [<-|Hpq].
    + rewrite lookup_insert_eq, decide_True by set_solver. by rewrite Hr0.
    + rewrite lookup_insert_ne, Hc by done. clear -Hpq. repeat case_decide; set_solver.
Qed.

Lemma take_due_loop_ok st0 k now fuel st due :
  taken st0 k now st due -> (size (deadlines st k) < fuel)%nat ->
  exists st' due', take_due_loop fuel st k now due = Ok (st', due') /\ taken st0 k now st' due' /\
    forall x, x ∈ deadlines st' k -> now < x.1.
Proof.
  revert st due. induction fuel as [|n IH]; intros st due Ht Hf; [lia|]. simpl.
  destruct (btree_first (deadlines st k)) as [[t raw]|] eqn:E.
  2:{ apply btree_first_none in E. exists st, due. split_and!; [done..|]. rewrite E. by intros ? ?%elem_of_empty. }
  apply btree_first_some in E as [Hin Hmin]. simpl in Hmin.
  destruct (Z.ltb_spec now t) as [Hlt|Hle].
  { exists st, due. split_and!; [done..|]. intros x Hx%Hmin. lia. }
  destruct (taken_step st0 k now st due t raw Ht Hin Hle) as (r & rk & Hp & Hh & Hrk & Ht').
  sched. rewrite Hp, decide_True, Hrk by done. apply IH; [done|]. sched.
  rewrite size_difference by set_solver. rewrite size_singleton.
  assert (size (deadlines st k) <> 0)%nat; [|lia]. rewrite size_non_empty_iff. set_solver.
Qed.

Lemma take_due_ok st k now :
  index_ok st ->
  exists st' due, take_due st k now = Ok (st', due) /\ taken st k now st' due /\
    forall x, x ∈ deadlines st' k -> now < x.1.
Proof. intros Hi. apply take_due_loop_ok; [by apply taken_start | lia]. Qed.

(** ** Collecting a batch *)

Section Collect.
Context (k : TickKind) (now : Z) (max : nat).

(** The ticks of kind [k] held by the containers [ids]. *)
Definition held (s : Store) (id : ContainerId) : list ScheduledTick :=
  from_option (fun c => all_ticks (get_list k (lists c))) [] (s !! id).
Definition total (s : Store) (ids : list ContainerId) : list ScheduledTick := ids ≫= held s.

#[export] Instance total_proper s : Proper (Permutation ==> Permutation) (total s).
Proof. intros ids ids' H. unfold total. by rewrite H. Qed.

Lemma held_put s id c l : held (put_container k id c l s) id = all_ticks l.
Proof. unfold held, put_container. rewrite lookup_insert_eq. by destruct k. Qed.

Lemma held_put_ne s id id' c l : id <> id' -> held (put_container k id c l s) id' = held s id'.
Proof. intros. unfold held, put_container. by rewrite lookup_insert_ne. Qed.

Lemma total_put s ids id c l popped :
  NoDup ids -> id ∈ ids -> s !! id = Some c ->
  all_ticks (get_list k (lists c)) ≡ₚ popped ++ all_ticks l ->
  total s ids ≡ₚ popped ++ total (put_container k id c l s) ids.
Proof.
  intros Hn Hin Hc Hp. apply elem_of_Permutation in Hin as [rest Hr]. rewrite Hr in Hn |- *.
  apply NoDup_cons in Hn as [Hid Hn]. unfold total. rewrite !bind_cons, held_put.
  unfold held at 1. rewrite Hc. simpl. rewrite Hp, <- app_assoc. do 2 f_equiv.
  clear Hr Hn. induction rest as [|x rest IH]; [done|].
  apply not_elem_of_cons in Hid as [Hne Hid]. rewrite !bind_cons, IH, held_put_ne by done. done.
Qed.

Lemma drain_current_ok fuel l competitor ts :
  (length (ticks l) < fuel)%nat -> (length ts <= max)%nat ->
  exists l' popped, drain_current fuel l now max competitor ts = Ok (l', ts ++ popped) /\
    (length (ts ++ popped) <= max)%nat /\ all_ticks l ≡ₚ popped ++ all_ticks l' /\
    Forall (fun t => trigger_tick t <= now) popped.
Proof.
  revert l ts. induction fuel as [|n IH]; intros l ts Hf Hl; [lia|]. simpl.
  assert (Hstop : exists l' popped, Ok (l, ts) = @Ok TickSchedulerError _ (l', ts ++ popped) /\
    (length (ts ++ popped) <= max)%nat /\ all_ticks l ≡ₚ popped ++ all_ticks l' /\
    Forall (fun t => trigger_tick t <= now) popped) by (exists l, []; rewrite app_nil_r; auto).
  destruct (Nat.ltb_spec (length ts) max); [|exact Hstop].
  destruct (peek_ready l now) as [next|] eqn:E; [|exact Hstop].
  destruct (match competitor with Some _ => _ | None => _ end); [exact Hstop|].
  destruct (peek_ready_pop _ _ _ E) as [l1 Hp]. rewrite Hp.
  apply pop_ready_inv in Hp as (q & Hq & <- & Hle & _).
  pose proof (heap_pop_length _ _ _ _ Hq).
  destruct (IH l1 (ts ++ [tick q])) as (l' & popped & -> & H1 & H2 & H3).
  { lia. } { rewrite length_app. simpl. lia. }
  exists l', (tick q :: popped). rewrite <- app_assoc in *. simpl in *. split_and!; [done..| |by constructor].
  unfold all_ticks at 1. rewrite (heap_pop_perm _ _ _ _ Hq), fmap_cons. by rewrite <- H2.
Qed.
End Collect.

(** Two containers that differ in their [k] list only. *)
Definition same_but (k : TickKind) (c0 c : ChunkTickContainerState) : Prop :=
  lifecycle c = lifecycle c0 /\ forall k', k' <> k -> get_list k' (lists c) = get_list k' (lists c0).

Section Loop.
Context (k : TickKind) (now : Z) (max : nat) (s0 : Store) (due : list ActiveTickContainer).
Hypothesis Hids : NoDup (ac_container <$> due).
Hypothesis Hpos : NoDup (ac_pos <$> due).
Hypothesis Hreg : forall a, a ∈ due -> exists c, s0 !! ac_container a = Some c /\ lifecycle c = Registered.

(** What every round preserves. *)
Record collecting (s : Collection) : Prop := {
  co_partition : (rc_pos <$> c_ready s) ++ (up_pos <$> c_updates s) ≡ₚ ac_pos <$> due;
  co_ready : forall r, r ∈ c_ready s -> exists a, a ∈ due /\ rc_pos r = ac_pos a /\
    rc_container r = ac_container a /\ rc_rank r = ac_rank a /\
    (dirty_reported r = true -> rc_rank r ∈ c_changed s);
  co_updates : forall u, u ∈ c_updates s -> exists a c, a ∈ due /\ up_pos u = ac_pos a /\
    c_store s !! ac_container a = Some c /\ up_trigger u = head_of k c;
  co_frame : forall id, id ∉ ac_container <$> due -> c_store s !! id = s0 !! id;
  co_store : forall a c0, a ∈ due -> s0 !! ac_container a = Some c0 ->
    exists c, c_store s !! ac_container a = Some c /\ same_but k c0 c /\
      (c_store s !! ac_container a <> s0 !! ac_container a -> ac_rank a ∈ c_changed s);
  co_bound : (length (c_ticks s) <= max)%nat;
  co_ticks : Forall (fun t => trigger_tick t <= now) (c_ticks s);
  co_total : total k s0 (ac_container <$> due) ≡ₚ c_ticks s ++ total k (c_store s) (ac_container <$> due);
  co_drained : (length (c_ticks s) < max)%nat ->
    forall u t, u ∈ c_updates s -> up_trigger u = Some t -> now < t
}.

Lemma due_pos_inj a b : a ∈ due -> b ∈ due -> ac_pos a = ac_pos b -> a = b.
Proof. by apply NoDup_fmap_inj. Qed.
Lemma due_id_inj a b : a ∈ due -> b ∈ due -> ac_container a = ac_container b -> a = b.
Proof. by apply NoDup_fmap_inj. Qed.

Lemma collecting_ready_perm s ready :
  collecting s -> ready ≡ₚ c_ready s ->
  collecting (mk_collection (c_store s) ready (c_ticks s) (c_changed s) (c_updates s)).
Proof.
  intros [] Hp. split; simpl; try done.
  - by rewrite Hp.
  - intros r. rewrite Hp. auto.
Qed.

(** A container whose head is not ready leaves the heap with a head update. *)
Lemma collecting_retire s r rest c :
  collecting s -> c_ready s ≡ₚ r :: rest -> c_store s !! rc_container r = Some c ->
  ((length (c_ticks s) < max)%nat -> forall t, head_of k c = Some t -> now < t) ->
  collecting (mk_collection (c_store s) rest (c_ticks s) (c_changed s)
    (c_updates s ++ [mk_update (rc_pos r) (head_of k c)])).
Proof.
  intros [] Hp Hc Hd. split; simpl; try done.
  - rewrite <- co_partition0, Hp, fmap_app. csimpl.
    rewrite app_assoc, Permutation_app_comm. done.
  - intros r' Hr'. apply co_ready0. rewrite Hp. by right.
  - intros u Hu. apply elem_of_app in Hu as [Hu|Hu%list_elem_of_singleton]; [by apply co_updates0|].
    subst u. destruct (co_ready0 r) as (a & Ha & E1 & E2 & _); [rewrite Hp; by left|].
    exists a, c. simpl. rewrite <- E2. done.
  - intros Hl u t Hu. apply elem_of_app in Hu as [Hu|Hu%list_elem_of_singleton]; [by apply co_drained0|].
    subst u. simpl. by apply Hd.
Qed.

Lemma same_but_put c0 c l :
  same_but k c0 c -> same_but k c0 (mk_container (lifecycle c) (put_list k l (lists c))).
Proof.
  intros [H1 H2]. split; [done|]. intros k' Hk. simpl. rewrite <- H2 by done. by destruct k, k'.
Qed.

(** Draining the container [r] of the heap. *)
Lemma collecting_drain s r rest c l popped (changed : list nat) :
  collecting s -> c_ready s ≡ₚ r :: rest -> c_store s !! rc_container r = Some c ->
  all_ticks (get_list k (lists c)) ≡ₚ popped ++ all_ticks l -> popped <> [] ->
  Forall (fun t => trigger_tick t <= now) popped ->
  (length (c_ticks s ++ popped) <= max)%nat ->
  (forall x, x ∈ changed <-> x = rc_rank r \/ x ∈ c_changed s) ->
  collecting (mk_collection (put_container k (rc_container r) c l (c_store s)) (report_dirty r :: rest)
    (c_ticks s ++ popped) changed (c_updates s)).
Proof.
  intros [] Hp Hc Hpop Hne Hr Hb Hch.
  destruct (co_ready0 r) as (a & Ha & E1 & E2 & E3 & E4); [rewrite Hp; by left|].
  assert (Hin : rc_container r ∈ ac_container <$> due) by (rewrite E2; by apply list_elem_of_fmap_2).
  split; simpl; try done.
  - rewrite <- co_partition0, Hp. done.
  - intros r' [->|Hr']%elem_of_cons.
    + exists a. simpl. split_and!; [done..|]. intros _. apply Hch. by left.
    + destruct (co_ready0 r') as (b & Hb' & F1 & F2 & F3 & F4); [rewrite Hp; by right|].
      exists b. split_and!; [done..|]. intros HD. apply Hch. right. auto.
  - intros u Hu. destruct (co_updates0 u Hu) as (b & cb & Hb' & F1 & F2 & F3).
    exists b, cb. split_and!; [done..| |done]. unfold put_container. rewrite lookup_insert_ne; [done|].
    rewrite E2. intros E. assert (a = b) as <- by by apply due_id_inj.
    rewrite <- co_partition0, Hp in Hpos. simpl in Hpos. apply NoDup_cons in Hpos as [Hx _].
    apply Hx. rewrite E1, <- F1. apply elem_of_app. right. by apply list_elem_of_fmap_2.
  - intros id Hid. unfold put_container. rewrite lookup_insert_ne by congruence. auto.
  - intros b c0 Hb' Hc0. unfold put_container. destruct (co_store0 b c0 Hb' Hc0) as (cb & F1 & F2 & F3).
    destruct (decide (ac_container b = rc_container r)) as [E|Hn].
    + rewrite E in *. rewrite lookup_insert_eq. eexists. split_and!; [done| |].
      * apply same_but_put. congruence.
      * intros _. apply Hch. left. assert (a = b) as <- by (apply due_id_inj; congruence). done.
    + rewrite lookup_insert_ne by done. exists cb. split_and!; [done..|]. intros HD. apply Hch. auto.
  - by apply Forall_app.
  - rewrite co_total0, <- app_assoc. f_equiv. by apply total_put.
  - rewrite length_app. intros Hl. apply co_drained0. lia.
Qed.

Lemma collecting_push s r t :
  collecting s -> r ∈ c_ready s -> forall rest, c_ready s ≡ₚ r :: rest ->
  collecting (mk_collection (c_store s) (heap_push rest (refresh r t)) (c_ticks s) (c_changed s) (c_updates s)).
Proof.
  intros [] Hr rest Hp. unfold heap_push. split; simpl; try done.
  - rewrite <- co_partition0, Hp, fmap_app, (Permutation_app_comm (rc_pos <$> rest)). done.
  - intros r' Hr'. apply elem_of_app in Hr' as [Hr'|Hr'%list_elem_of_singleton].
    + apply co_ready0. rewrite Hp. by right.
    + subst r'. simpl. by apply co_ready0.
Qed.

Definition measure (s : Collection) : nat := max - length (c_ticks s) + length (c_ready s).

Lemma collecting_container s r :
  collecting s -> r ∈ c_ready s ->
  exists c, c_store s !! rc_container r = Some c /\ lifecycle c = Registered.
Proof.
  intros Hs Hr. destruct (co_ready _ Hs r Hr) as (a & Ha & _ & E & _). rewrite E.
  destruct (Hreg a Ha) as (c0 & H0 & HL). destruct (co_store _ Hs a c0 Ha H0) as (c & Hc & [HL' _] & _).
  exists c. split; [done|congruence].
Qed.

Lemma collect_round_ok s r rest :
  collecting s -> c_ready s ≡ₚ r :: rest -> (length (c_ticks s) < max)%nat ->
  exists s', collect_round k now max r
      (mk_collection (c_store s) rest (c_ticks s) (c_changed s) (c_updates s)) = Ok s' /\
    collecting s' /\ (measure s' < measure s)%nat.
Proof.
  intros Hs Hp Hl. unfold collect_round. cbn [c_store c_ready c_ticks c_changed c_updates].
  destruct (collecting_container s r Hs) as (c & Hc & HR); [rewrite Hp; by left|].
  assert (Hlen : length (c_ready s) = S (length rest)) by (by rewrite Hp).
  rewrite Hc, decide_True by done.
  destruct (pop_ready (get_list k (lists c)) now) as [[t l]|] eqn:Epop.
  2:{ eexists. split; [done|]. split; [|unfold measure; simpl; lia].
      apply (collecting_retire s r rest c); [done..|]. intros _ u Hu.
      apply pop_ready_none in Epop. unfold head_of in Hu.
      destruct (peek (get_list k (lists c))); [|done]. injection Hu as <-. done. }
  apply pop_ready_inv in Epop as (q & Hq & <- & Hle & _).
  destruct (drain_current_ok now max (S (length (ticks l))) l
    ((fun x => (rc_priority x, rc_sub_tick_order x)) <$> heap_peek ready_cmp rest) (c_ticks s ++ [tick q]))
    as (l' & popped & Hdr & Hb & Hperm & Hall); [lia|rewrite length_app; simpl; lia|].
  rewrite Hdr. cbn [obind]. set (changed := if dirty_reported r then _ else _).
  rewrite <- app_assoc in *.
  assert (Hd : collecting (mk_collection (put_container k (rc_container r) c l' (c_store s))
    (report_dirty r :: rest) (c_ticks s ++ tick q :: popped) changed (c_updates s))).
  { apply (collecting_drain s r rest c l' (tick q :: popped)); try done.
    - unfold all_ticks at 1. rewrite (heap_pop_perm _ _ _ _ Hq), fmap_cons. simpl. by rewrite <- Hperm.
    - by constructor.
    - intros x. destruct (co_ready _ Hs r) as (a & _ & _ & _ & _ & E4); [rewrite Hp; by left|].
      subst changed. destruct (dirty_reported r); [naive_solver|]. set_solver. }
  assert (Hstore : c_store s !! rc_container r = Some c) by done.
  assert (Hput : put_container k (rc_container r) c l' (c_store s) !! rc_container r =
    Some (mk_container (lifecycle c) (put_list k l' (lists c)))) by apply lookup_insert_eq.
  assert (Hh : head_of k (mk_container (lifecycle c) (put_list k l' (lists c))) = trigger_tick <$> peek l')
    by (unfold head_of; by destruct k).
  assert (Hm : (length (c_ticks s ++ tick q :: popped) <= max)%nat) by exact Hb.
  rewrite length_app in Hm. simpl in Hm.
  destruct (peek l') as [next|] eqn:Epk.
  - destruct (Nat.ltb_spec (length (c_ticks s ++ [tick q] ++ popped)) max) as [Hlt|Hge];
      destruct (Z.leb_spec (trigger_tick next) now) as [Hle'|Hgt]; simpl.
    1: { eexists. split; [done|]. split.
         - apply (collecting_push _ (report_dirty r) next Hd); [by left|done].
         - unfold measure, heap_push. simpl. rewrite !length_app. simpl. lia. }
    all: eexists; split; [done|]; split;
      [|unfold measure; simpl; rewrite ?length_app; simpl; lia].
    all: pose proof (collecting_retire _ (report_dirty r) rest _ Hd (Permutation_refl _) Hput) as Hret;
      rewrite Hh in Hret; apply Hret; intros Hl' u [= <-]; try done.
    all: simpl in Hl', Hge; rewrite !length_app in *; simpl in *; lia.
  - eexists. split; [done|]. split; [|unfold measure; simpl; rewrite ?length_app; simpl; lia].
    pose proof (collecting_retire _ (report_dirty r) rest _ Hd (Permutation_refl _) Hput) as Hret.
    rewrite Hh in Hret. by apply Hret.
Qed.

Lemma collect_loop_ok fuel s :
  collecting s -> (measure s < fuel)%nat ->
  exists s', collect_loop fuel k now max s = Ok s' /\ collecting s' /\
    ((length (c_ticks s') < max)%nat -> c_ready s' = []).
Proof.
  revert s. induction fuel as [|n IH]; intros s Hs Hf; [lia|]. simpl.
  destruct (Nat.ltb_spec (length (c_ticks s)) max) as [Hl|Hl].
  2:{ exists s. split_and!; [done..|]. lia. }
  destruct (heap_pop ready_cmp (c_ready s)) as [[r rest]|] eqn:E.
  2:{ apply heap_pop_none in E. exists s. by split_and!. }
  destruct (collect_round_ok s r rest Hs (heap_pop_perm _ _ _ _ E) Hl) as (s' & -> & Hs' & Hm). simpl.
  apply IH; [done|lia].
Qed.

Lemma remaining_updates_ok s :
  collecting s -> ((length (c_ticks s) < max)%nat -> c_ready s = []) ->
  exists us, remaining_updates (c_store s) k (c_ready s) = Ok us /\
    collecting (mk_collection (c_store s) [] (c_ticks s) (c_changed s) (c_updates s ++ us)).
Proof.
  destruct s as [st ready ts ch us0]. simpl. revert us0.
  induction ready as [|r rest IH]; intros us0 Hs Hl; simpl.
  { exists []. by rewrite app_nil_r. }
  destruct (collecting_container _ r Hs) as (c & Hc & _); [by left|]. simpl in Hc. rewrite Hc.
  destruct (IH (us0 ++ [mk_update (rc_pos r) (head_of k c)])) as (us & -> & Hus).
  - eapply (collecting_retire _ r rest c Hs); [done..|]. intros Hlt. by specialize (Hl Hlt).
  - intros Hlt. by specialize (Hl Hlt).
  - exists (mk_update (rc_pos r) (head_of k c) :: us). split; [done|]. by rewrite <- app_assoc in Hus.
Qed.

(** The heap and the head updates before the first round. *)
Definition prepared (rest : list ActiveTickContainer) (ready : list ReadyContainer)
    (updates : list TickHeadUpdate) (out : list ReadyContainer * list TickHeadUpdate) : Prop :=
  (rc_pos <$> out.1) ++ (up_pos <$> out.2) ≡ₚ
    ((rc_pos <$> ready) ++ (up_pos <$> updates)) ++ (ac_pos <$> rest) /\
  (forall r, r ∈ out.1 -> r ∈ ready \/
     exists a, a ∈ due /\ rc_pos r = ac_pos a /\ rc_container r = ac_container a /\
       rc_rank r = ac_rank a /\ dirty_reported r = false) /\
  (forall u, u ∈ out.2 -> u ∈ updates \/
     exists a c, a ∈ due /\ up_pos u = ac_pos a /\ s0 !! ac_container a = Some c /\
       up_trigger u = head_of k c /\ forall t, up_trigger u = Some t -> now < t).

Lemma prepared_skip a c rest ready updates out :
  a ∈ due -> s0 !! ac_container a = Some c -> (forall t, head_of k c = Some t -> now < t) ->
  prepared rest ready (updates ++ [mk_update (ac_pos a) (head_of k c)]) out ->
  prepared (a :: rest) ready updates out.
Proof.
  intros Ha Hc Hnow (H1 & H2 & H3). split_and!; [|exact H2|].
  - rewrite H1, fmap_app. csimpl. rewrite (app_assoc _ _ [_]), <- (app_assoc _ [_]). done.
  - intros u [Hu|Hu]%H3; [|by right]. apply elem_of_app in Hu as [Hu|Hu%list_elem_of_singleton]; [by left|].
    right. subst u. by exists a, c.
Qed.

Lemma prepared_push a t rest ready updates out :
  a ∈ due -> prepared rest (heap_push ready (ready_new a t false)) updates out ->
  prepared (a :: rest) ready updates out.
Proof.
  intros Ha (H1 & H2 & H3). split_and!; [| |exact H3].
  - rewrite H1. unfold heap_push. rewrite fmap_app. csimpl.
    rewrite <- !app_assoc. f_equiv. simpl. by rewrite Permutation_middle.
  - intros r [Hr|Hr]%H2; [|by right]. apply elem_of_app in Hr as [Hr|Hr%list_elem_of_singleton]; [by left|].
    right. subst r. by exists a.
Qed.

Lemma prepare_ok rest ready updates :
  (forall a, a ∈ rest -> a ∈ due) ->
  exists out, prepare_ready_containers s0 k now rest ready updates = Ok out /\
    prepared rest ready updates out.
Proof.
  revert ready updates. induction rest as [|a rest IH]; intros ready updates Hrest; simpl.
  { exists (ready, updates). split; [done|]. split_and!; [by rewrite app_nil_r | auto..]. }
  assert (Ha : a ∈ due) by (apply Hrest; by left).
  assert (Hrest' : forall a, a ∈ rest -> a ∈ due) by (intros; apply Hrest; by right).
  destruct (Hreg a Ha) as (c & Hc & HR). rewrite Hc, decide_True by done.
  destruct (IH ready (updates ++ [mk_update (ac_pos a) (head_of k c)]) Hrest') as (out & Hout & Hprep).
  pose proof (fun H => prepared_skip a c rest ready updates out Ha Hc H Hprep) as Hskip.
  unfold head_of in *. destruct (peek (get_list k (lists c))) as [t|]; simpl in *.
  - destruct (Z.leb_spec (trigger_tick t) now).
    + destruct (IH (heap_push ready (ready_new a t false)) updates Hrest') as (out' & H1 & H2).
      exists out'. split; [done|]. by apply prepared_push with t.
    + exists out. split; [done|]. apply Hskip. by intros ? [= <-].
  - exists out. split; [done|]. by apply Hskip.
Qed.

Lemma collect_registered_ok :
  exists s, collect_registered_ticks s0 due k now max =
      Ok (c_store s, mk_tick_batch (c_ticks s) (c_changed s), c_updates s) /\
    collecting s /\ c_ready s = [].
Proof.
  unfold collect_registered_ticks.
  destruct (prepare_ok due [] []) as ([ready us] & -> & H1 & H2 & H3); [done|]. cbn [obind fst snd] in *.
  assert (Hs : collecting (mk_collection s0 ready [] [] us)).
  { split; simpl; try done.
    - intros r [Hr|(a & Ha & E1 & E2 & E3 & E4)]%H2; [by apply elem_of_nil in Hr|].
      exists a. rewrite E4. done.
    - intros u [Hu|(a & c & Ha & E1 & E2 & E3 & E4)]%H3; [by apply elem_of_nil in Hu|]. by exists a, c.
    - intros a c0 Ha Hc. exists c0. done.
    - lia.
    - intros _ u t [Hu|(a & c & Ha & E1 & E2 & E3 & E4)]%H3; [by apply elem_of_nil in Hu|]. auto. }
  destruct (collect_loop_ok (S (max + length ready)) _ Hs) as (s & -> & Hs' & Hend);
    [unfold measure; simpl; lia|]. cbn [obind].
  destruct (remaining_updates_ok s Hs' Hend) as (more & -> & Hfin). cbn [obind].
  exists (mk_collection (c_store s) [] (c_ticks s) (c_changed s) (c_updates s ++ more)). done.
Qed.
End Loop.

(** ** The scheduler invariant *)

(** Every registered chunk's container is live and its indexed heads are the
    heads of its queues; containers are not shared; registered containers
    are exactly those of the index. *)
Record inv (w : WorldTickScheduler) : Prop := {
  inv_index : index_ok (state w);
  inv_heads : forall p r, chunks (state w) !! p = Some r ->
    exists c, store w !! reg_container r = Some c /\ lifecycle c = Registered /\
      forall k, head r k = head_of k c;
  inv_owner : forall p q r r', chunks (state w) !! p = Some r -> chunks (state w) !! q = Some r' ->
    reg_container r = reg_container r' -> p = q;
  inv_registered : forall id c, store w !! id = Some c -> lifecycle c = Registered ->
    exists p r, chunks (state w) !! p = Some r /\ reg_container r = id
}.

Lemma apply_updates_ok k us st :
  index_ok st -> NoDup (up_pos <$> us) -> (forall u, u ∈ us -> is_Some (chunks st !! up_pos u)) ->
  exists st', apply_updates st k us = Ok st' /\ index_ok st' /\
    active_generation st' = active_generation st /\
    (forall u, u ∈ us -> chunks st' !! up_pos u = reg_set_head k (up_trigger u) <$> chunks st !! up_pos u) /\
    (forall p, p ∉ up_pos <$> us -> chunks st' !! p = chunks st !! p).
Proof.
  revert st. induction us as [|u us IH]; intros st Hi Hn Hs; simpl.
  { exists st. split_and!; [done..| |done]. by intros ? ?%elem_of_nil. }
  apply NoDup_cons in Hn as [Hu Hn]. destruct (Hs u) as [r Hr]; [by left|].
  destruct (set_head_ok st (up_pos u) k (up_trigger u) r Hi Hr) as (D & -> & Hi').
  set (st1 := set_deadlines _ k D) in *.
  assert (Hch : chunks st1 = <[up_pos u := reg_set_head k (up_trigger u) r]> (chunks st)) by (by destruct k).
  assert (Hne : forall v, v ∈ us -> up_pos v <> up_pos u)
    by (intros v Hv E; apply Hu; rewrite <- E; by apply list_elem_of_fmap_2).
  destruct (IH st1 Hi' Hn) as (st' & -> & H1 & H2 & H3 & H4).
  { intros v Hv. rewrite Hch, lookup_insert_ne by (apply not_eq_sym; auto). apply Hs. by right. }
  exists st'. split_and!; [done..| | |].
  - rewrite H2. by destruct k.
  - intros v [->|Hv]%elem_of_cons.
    + rewrite H4, Hch, lookup_insert_eq, Hr by done. done.
    + rewrite H3, Hch, lookup_insert_ne by (done || apply not_eq_sym; auto). done.
  - intros p [Hp1 Hp2]%not_elem_of_cons. by rewrite H4, Hch, lookup_insert_ne by done.
Qed.

(** The index entries after a collection: only the [k] heads of due chunks
    move, to the heads of their drained queues. *)
Lemma collected_heads w k now max st due s st' :
  inv w -> taken (state w) k now st due ->
  collecting k now max (store w) due s -> c_ready s = [] ->
  (forall u, u ∈ c_updates s -> chunks st' !! up_pos u = reg_set_head k (up_trigger u) <$> chunks st !! up_pos u) ->
  (forall p, p ∉ up_pos <$> c_updates s -> chunks st' !! p = chunks st !! p) ->
  forall p r', chunks st' !! p = Some r' ->
  exists r c, chunks (state w) !! p = Some r /\ reg_container r' = reg_container r /\
    active_rank r' (active_generation (state w)) = active_rank r (active_generation (state w)) /\
    c_store s !! reg_container r = Some c /\ lifecycle c = Registered /\ (forall k', head r' k' = head_of k' c).
Proof.
  intros Hw Ht Hs Hr H1 H2 p r' Hr'.
  pose proof (co_partition _ _ _ _ _ _ Hs) as Hpart. rewrite Hr in Hpart. simpl in Hpart.
  destruct (decide (p ∈ up_pos <$> c_updates s)) as [Hin|Hin].
  - apply list_elem_of_fmap in Hin as (u & -> & Hu).
    destruct (co_updates _ _ _ _ _ _ Hs u Hu) as (a & c & Ha & Ep & Hc & Et).
    destruct (tk_due _ _ _ _ _ Ht a Ha) as (r & t & Hra & Hca & Hrk & Hh & Hle).
    assert (Hst : chunks st !! up_pos u = Some (reg_set_head k None r)).
    { rewrite (tk_chunks _ _ _ _ _ Ht), decide_True by (rewrite Ep; by apply list_elem_of_fmap_2).
      by rewrite Ep, Hra. }
    rewrite H1, Hst in Hr' by done. injection Hr' as <-.
    destruct (inv_heads _ Hw _ _ Hra) as (c0 & Hc0 & HR & Hheads). rewrite Hca in Hc0.
    destruct (co_store _ _ _ _ _ _ Hs a c0 Ha Hc0) as (c' & Hc' & [HL HO] & _).
    assert (c' = c) as -> by congruence.
    exists r, c. rewrite Ep, Hca. sched. split_and!; [done..|congruence|].
    intros k'. destruct (decide (k = k')) as [<-|Hk]; [by sched|].
    rewrite !head_set_other, Hheads by done. unfold head_of. by rewrite HO.
  - rewrite H2 in Hr' by done. rewrite Hpart in Hin.
    rewrite (tk_chunks _ _ _ _ _ Ht), decide_False in Hr' by done.
    destruct (inv_heads _ Hw _ _ Hr') as (c & Hc & HR & Hheads). exists r', c. split_and!; try done.
    rewrite (co_frame _ _ _ _ _ _ Hs); [done|]. intros (a & Ea & Ha)%list_elem_of_fmap.
    destruct (tk_due _ _ _ _ _ Ht a Ha) as (r & t & Hra & Hca & _).
    apply Hin. rewrite (inv_owner _ Hw _ _ _ _ Hr' Hra) by congruence. by apply list_elem_of_fmap_2.
Qed.

Lemma collected_dom w k now st due (us : list TickHeadUpdate) st' p r :
  taken (state w) k now st due ->
  (forall u, u ∈ us -> chunks st' !! up_pos u = reg_set_head k (up_trigger u) <$> chunks st !! up_pos u) ->
  (forall p, p ∉ up_pos <$> us -> chunks st' !! p = chunks st !! p) ->
  chunks (state w) !! p = Some r ->
  exists r', chunks st' !! p = Some r' /\ reg_container r' = reg_container r.
Proof.
  intros Ht H1 H2 Hp.
  assert (exists r1, chunks st !! p = Some r1 /\ reg_container r1 = reg_container r) as (r1 & Hr1 & E1).
  { rewrite (tk_chunks _ _ _ _ _ Ht), Hp. case_decide; simpl; eexists; (split; [done|]); by sched. }
  destruct (decide (p ∈ up_pos <$> us)) as [(u & -> & Hu)%list_elem_of_fmap|Hin].
  - rewrite H1, Hr1 by done. eexists. split; [done|]. by sched.
  - rewrite H2 by done. by exists r1.
Qed.

(** What collecting a batch guarantees. *)
Record collected_ok (k : TickKind) (now : Z) (max : nat) (w w' : WorldTickScheduler)
    (batch : ScheduledTickBatch) : Prop := {
  cd_inv : inv w';
  cd_bound : (length (collected batch) <= max)%nat;
  cd_due : Forall (fun t => trigger_tick t <= now) (collected batch);
  cd_complete : (length (collected batch) < max)%nat ->
    forall p r c, chunks (state w') !! p = Some r -> is_active r (active_generation (state w')) = true ->
    store w' !! reg_container r = Some c -> peek_ready (get_list k (lists c)) now = None;
  cd_conserved : exists ids, NoDup ids /\
    (forall id, id ∈ ids -> exists p r, chunks (state w) !! p = Some r /\
       is_active r (active_generation (state w)) = true /\ reg_container r = id) /\
    total k (store w) ids ≡ₚ collected batch ++ total k (store w') ids /\
    (forall id, id ∉ ids -> store w' !! id = store w !! id);
  cd_dirty : forall id, store w' !! id <> store w !! id ->
    exists p r rk, chunks (state w) !! p = Some r /\ reg_container r = id /\
      active_rank r (active_generation (state w)) = Some rk /\ rk ∈ changed_containers batch;
  cd_other : forall id c, store w !! id = Some c -> exists c', store w' !! id = Some c' /\ same_but k c c'
}.

Lemma peek_ready_future k now c :
  (forall t, head_of k c = Some t -> now < t) -> peek_ready (get_list k (lists c)) now = None.
Proof.
  unfold head_of, peek_ready. destruct (peek _) as [t|]; simpl; [|done]. intros H.
  specialize (H _ eq_refl). by zbool.
Qed.

Lemma same_but_refl k c : same_but k c c.
Proof. by split. Qed.

Lemma due_ids_nodup w k now st due :
  inv w -> taken (state w) k now st due -> NoDup (ac_container <$> due).
Proof.
  intros Hw Ht. apply NoDup_fmap_2_strong.
  - intros a b Ha Hb E.
    destruct (tk_due _ _ _ _ _ Ht a Ha) as (r & t & Hra & Hca & _).
    destruct (tk_due _ _ _ _ _ Ht b Hb) as (r' & t' & Hrb & Hcb & _).
    apply (NoDup_fmap_inj ac_pos due); [apply (tk_nodup _ _ _ _ _ Ht)|done..|].
    apply (inv_owner _ Hw _ _ _ _ Hra Hrb). congruence.
  - eapply NoDup_fmap_1, (tk_nodup _ _ _ _ _ Ht).
Qed.

Section Finish.
Context (k : TickKind) (now : Z) (max : nat) (w : WorldTickScheduler) (st st' : WorldTickSchedulerState).
Context (due : list ActiveTickContainer) (s : Collection).
Hypothesis Hw : inv w.
Hypothesis Ht : taken (state w) k now st due.
Hypothesis Hs : collecting k now max (store w) due s.
Hypothesis Hr : c_ready s = [].
Hypothesis Hlate : forall x, x ∈ deadlines st k -> now < x.1.
Hypothesis Hix : index_ok st'.
Hypothesis Hgen : active_generation st' = active_generation st.
Hypothesis H1 : forall u, u ∈ c_updates s ->
  chunks st' !! up_pos u = reg_set_head k (up_trigger u) <$> chunks st !! up_pos u.
Hypothesis H2 : forall p, p ∉ up_pos <$> c_updates s -> chunks st' !! p = chunks st !! p.

Let w' := mk_world (next_sub_tick_order w) st' (c_store s).

Lemma finish_inv : inv w'.
Proof.
  pose proof (collected_heads w k now max st due s st' Hw Ht Hs Hr H1 H2) as Hc. split; simpl; [done|..].
  - intros p r' Hp. destruct (Hc p r' Hp) as (r & c & _ & E & _ & Hst & HR & Hh). rewrite E. by exists c.
  - intros p q r r' Hp Hq E. destruct (Hc p r Hp) as (r1 & _ & Hp1 & E1 & _).
    destruct (Hc q r' Hq) as (r2 & _ & Hq1 & E2 & _). apply (inv_owner _ Hw _ _ _ _ Hp1 Hq1). congruence.
  - intros id c Hid HR.
    assert (exists p r, chunks (state w) !! p = Some r /\ reg_container r = id) as (p & r & Hp & E).
    { destruct (decide (id ∈ ac_container <$> due)) as [(a & -> & Ha)%list_elem_of_fmap|Hn].
      - destruct (tk_due _ _ _ _ _ Ht a Ha) as (r & t & Hra & Hca & _). eauto.
      - rewrite (co_frame _ _ _ _ _ _ Hs) in Hid by done. by apply (inv_registered _ Hw id c). }
    destruct (collected_dom w k now st due _ st' p r Ht H1 H2 Hp) as (r' & Hp' & E').
    exists p, r'. split; [done|congruence].
Qed.

Lemma finish_head_late p r t :
  (length (c_ticks s) < max)%nat -> chunks st' !! p = Some r ->
  is_active r (active_generation st') = true -> head r k = Some t -> now < t.
Proof.
  intros Hl Hp Ha Hh. destruct (decide (p ∈ up_pos <$> c_updates s)) as [(u & -> & Hu)%list_elem_of_fmap|Hin].
  - rewrite H1 in Hp by done. apply fmap_Some in Hp as (r0 & _ & ->). sched.
    by apply (co_drained _ _ _ _ _ _ Hs Hl u).
  - rewrite H2 in Hp by done. rewrite Hgen in Ha.
    apply (Hlate (t, PackedChunkPos.of_chunk p)).
    by apply (index_ok_entry st k p r t (tk_index _ _ _ _ _ Ht)).
Qed.

Lemma collect_finish : collected_ok k now max w w' (mk_tick_batch (c_ticks s) (c_changed s)).
Proof.
  split; simpl.
  - apply finish_inv.
  - apply (co_bound _ _ _ _ _ _ Hs).
  - apply (co_ticks _ _ _ _ _ _ Hs).
  - intros Hl p r c Hp Ha Hc. apply peek_ready_future. intros t Hh.
    destruct (collected_heads w k now max st due s st' Hw Ht Hs Hr H1 H2 p r Hp)
      as (r0 & c' & _ & E & _ & Hc' & _ & Hheads).
    rewrite E, Hc' in Hc. injection Hc as ->. rewrite <- Hheads in Hh.
    by apply (finish_head_late p r t).
  - exists (ac_container <$> due). split_and!.
    + by apply (due_ids_nodup w k now st).
    + intros id (a & -> & Ha)%list_elem_of_fmap.
      destruct (tk_due _ _ _ _ _ Ht a Ha) as (r & t & Hra & Hca & Hrk & _).
      exists (ac_pos a), r. unfold is_active. by rewrite Hrk.
    + apply (co_total _ _ _ _ _ _ Hs).
    + apply (co_frame _ _ _ _ _ _ Hs).
  - intros id Hne. destruct (decide (id ∈ ac_container <$> due)) as [(a & -> & Ha)%list_elem_of_fmap|Hn].
    + destruct (tk_due _ _ _ _ _ Ht a Ha) as (r & t & Hra & Hca & Hrk & _).
      destruct (inv_heads _ Hw _ _ Hra) as (c0 & Hc0 & _). rewrite Hca in Hc0.
      destruct (co_store _ _ _ _ _ _ Hs a c0 Ha Hc0) as (c & _ & _ & Hch). exists (ac_pos a), r, (ac_rank a). auto.
    + by rewrite (co_frame _ _ _ _ _ _ Hs) in Hne.
  - intros id c Hc. destruct (decide (id ∈ ac_container <$> due)) as [(a & -> & Ha)%list_elem_of_fmap|Hn].
    + destruct (co_store _ _ _ _ _ _ Hs a c Ha Hc) as (c' & Hc' & Hsame & _). by exists c'.
    + exists c. rewrite (co_frame _ _ _ _ _ _ Hs) by done. auto using same_but_refl.
Qed.
End Finish.

Lemma collecting_nil k now max s0 : collecting k now max s0 [] (mk_collection s0 [] [] [] []).
Proof.
  split; simpl; try done; try lia.
  - by intros ? ?%elem_of_nil.
  - by intros ? ?%elem_of_nil.
  - by intros ? ? ?%elem_of_nil.
  - by intros _ ? ? ?%elem_of_nil.
Qed.

Lemma collect_ticks_spec k w now max :
  inv w ->
  exists batch, let '(w', res) := collect_ticks k w now max in
    res = Ok batch /\ collected_ok k now max w w' batch.
Proof.
  intros Hw. unfold collect_ticks. case_decide as Hmax.
  { exists empty_batch. split; [done|]. subst max. split; simpl; try done; try lia.
    - exists []. split_and!; try done; [constructor|]. by intros ? ?%elem_of_nil.
    - intros id c Hc. exists c. auto using same_but_refl. }
  destruct (take_due_ok (state w) k now (inv_index _ Hw)) as (st & due & -> & Ht & Hlate).
  destruct due as [|a due'] eqn:Edue.
  { exists empty_batch. split; [done|].
    apply (collect_finish k now max w st st [] (mk_collection (store w) [] [] [] []));
      try done; try apply collecting_nil; [by eapply tk_index|]. by intros ? ?%elem_of_nil. }
  rewrite <- Edue in *. clear a due' Edue.
  destruct (collect_registered_ok k now max (store w) due) as (s & -> & Hs & Hr).
  - by eapply due_ids_nodup.
  - by eapply tk_nodup.
  - intros a Ha. destruct (tk_due _ _ _ _ _ Ht a Ha) as (r & t & Hra & Hca & _).
    destruct (inv_heads _ Hw _ _ Hra) as (c & Hc & HR & _). rewrite Hca in Hc. eauto.
  - pose proof (co_partition _ _ _ _ _ _ Hs) as Hpart. rewrite Hr in Hpart. simpl in Hpart.
    destruct (apply_updates_ok k (c_updates s) st (tk_index _ _ _ _ _ Ht)) as (st' & -> & H1 & H2 & H3 & H4).
    + rewrite Hpart. by eapply tk_nodup.
    + intros u Hu. assert (Hp : up_pos u ∈ ac_pos <$> due) by (rewrite <- Hpart; by apply list_elem_of_fmap_2).
      rewrite (tk_chunks _ _ _ _ _ Ht), decide_True by done.
      apply list_elem_of_fmap in Hp as (a & -> & Ha).
      destruct (tk_due _ _ _ _ _ Ht a Ha) as (r & t & -> & _). eauto.
    + eexists. split; [done|]. by apply collect_finish with st due.
Qed.

(** C10: Collecting a batch in a consistent scheduler never panics and keeps
    it consistent.  The batch holds at most [max] ticks, all due, taken from
    the queues of chunks in simulation range: those queues together held
    exactly the batch and what they still hold, and no other queue changed.
    A batch below the limit leaves no due tick in range behind. *)
Theorem collect_ticks_exact k w now max :
  inv w ->
  exists batch, let '(w', res) := collect_ticks k w now max in
    res = Ok batch /\ inv w' /\
    (length (collected batch) <= max)%nat /\
    Forall (fun t => trigger_tick t <= now) (collected batch) /\
    ((length (collected batch) < max)%nat ->
     forall p r c, chunks (state w') !! p = Some r -> is_active r (active_generation (state w')) = true ->
     store w' !! reg_container r = Some c -> peek_ready (get_list k (lists c)) now = None) /\
    exists ids, NoDup ids /\
      (forall id, id ∈ ids -> exists p r, chunks (state w) !! p = Some r /\
         is_active r (active_generation (state w)) = true /\ reg_container r = id) /\
      total k (store w) ids ≡ₚ collected batch ++ total k (store w') ids /\
      (forall id, id ∉ ids -> store w' !! id = store w !! id).
Proof.
  intros Hw. destruct (collect_ticks_spec k w now max Hw) as [batch H]. exists batch.
  destruct (collect_ticks k w now max) as [w' res]. destruct H as [-> []]. done.
Qed.

(** A collection reports every container it changed: a chunk whose
    persisted ticks differ afterwards has its snapshot rank among
    [changed_containers] (so it is marked dirty), and its queue of the other
    kind and its lifecycle are untouched. *)
Theorem collect_reports_changes k w now max :
  inv w ->
  exists batch, let '(w', res) := collect_ticks k w now max in
    res = Ok batch /\
    (forall id, store w' !! id <> store w !! id ->
       exists p r rk, chunks (state w) !! p = Some r /\ reg_container r = id /\
         active_rank r (active_generation (state w)) = Some rk /\ rk ∈ changed_containers batch) /\
    (forall id c, store w !! id = Some c -> exists c', store w' !! id = Some c' /\ same_but k c c').
Proof.
  intros Hw. destruct (collect_ticks_spec k w now max Hw) as [batch H]. exists batch.
  destruct (collect_ticks k w now max) as [w' res]. destruct H as [-> []]. done.
Qed.

(** ** The other operations keep the invariant *)

(** A registered chunk's container and index entry change together. *)
Lemma inv_put w n p r c' st' r' :
  inv w -> chunks (state w) !! p = Some r -> lifecycle c' = Registered ->
  index_ok st' -> (forall q, chunks st' !! q = if decide (q = p) then Some r' else chunks (state w) !! q) ->
  reg_container r' = reg_container r -> (forall k, head r' k = head_of k c') ->
  inv (mk_world n st' (<[reg_container r := c']> (store w))).
Proof.
  intros Hw Hp HL Hi Hc Hcont Hh.
  assert (Hback : forall q rq, chunks st' !! q = Some rq ->
    exists r0, chunks (state w) !! q = Some r0 /\ reg_container rq = reg_container r0).
  { intros q rq. rewrite Hc. case_decide as E; [subst q; intros [= <-]; by exists r|eauto]. }
  split; simpl; [done|..].
  - intros q rq Hq. rewrite Hc in Hq. case_decide as E.
    + injection Hq as <-. rewrite Hcont, lookup_insert_eq. by exists c'.
    + destruct (inv_heads _ Hw q rq Hq) as (c & Hst & HR & Hhd). exists c.
      rewrite lookup_insert_ne; [done|]. intros Heq. apply E. symmetry. by apply (inv_owner _ Hw _ _ _ _ Hp Hq).
  - intros q1 q2 r1 r2 (s1 & H1 & E1)%Hback (s2 & H2 & E2)%Hback E.
    apply (inv_owner _ Hw _ _ _ _ H1 H2). congruence.
  - intros id c Hid HR. assert (exists q rq, chunks (state w) !! q = Some rq /\ reg_container rq = id)
      as (q & rq & Hq & Eq).
    { apply lookup_insert_Some in Hid as [[<- _]|[_ Hid]]; [by eauto | by apply (inv_registered _ Hw id c)]. }
    destruct (decide (q = p)) as [->|Hn]; [exists p, r' | exists q, rq]; rewrite Hc; case_decide; try done.
    split; [done|]. rewrite Hp in Hq. injection Hq as ->. congruence.
Qed.

(** A container outside the index changes. *)
Lemma inv_unregistered w id c' :
  inv w -> (forall c, store w !! id = Some c -> lifecycle c <> Registered) -> lifecycle c' <> Registered ->
  inv (with_store w (<[id := c']> (store w))).
Proof.
  intros Hw Hc HL. split; simpl; [apply Hw|..].
  - intros p r Hp. destruct (inv_heads _ Hw p r Hp) as (c & Hst & HR & Hh). exists c.
    rewrite lookup_insert_ne; [done|]. intros E. apply (Hc c); congruence.
  - apply (inv_owner _ Hw).
  - intros i c [[_ <-]|[_ Hi]]%lookup_insert_Some HR; [done|]. by apply (inv_registered _ Hw i c).
Qed.

Lemma register_chunk_ok w chunk :
  inv w -> is_chunk (chunk_pos chunk) -> is_Some (store w !! scheduled_tick_container chunk) ->
  (register_chunk w chunk).2 <> Panic /\ inv (register_chunk w chunk).1.
Proof.
  intros Hw Hp [c Hc]. unfold register_chunk. rewrite Hc. case_decide as HL; [done|].
  assert (HL' : lifecycle c = PrePublication) by (by destruct (decide (lifecycle c = PrePublication))).
  destruct (chunks (state w) !! chunk_pos chunk) as [r|] eqn:Er; [done|]. simpl. split; [done|].
  set (id := scheduled_tick_container chunk) in *. set (p := chunk_pos chunk) in *.
  assert (Hid : forall q rq, chunks (state w) !! q = Some rq -> reg_container rq <> id).
  { intros q rq Hq E. destruct (inv_heads _ Hw q rq Hq) as (c1 & H1 & HR & _). congruence. }
  split; simpl.
  - apply (index_ok_change (state w) _ p (Some (mk_registered id (head_of Block c) (head_of Fluid c) None)));
      [apply Hw|done|done|..].
    + intros q. simpl. case_decide; [subst q; apply lookup_insert_eq | by rewrite lookup_insert_ne].
    + by intros r a [= <-].
    + intros k x. rewrite deadlines_set_chunks. split; [|intros [[? _]|(r & [= <-] & ? & _)]; done].
      intros Hx. left. split; [done|]. destruct x as [t raw]. simpl.
      apply (ix_deadlines _ (inv_index _ Hw)) in Hx as (q & -> & r & Hq & _).
      intros E%of_chunk_inj; [congruence | by eapply (ix_valid _ (inv_index _ Hw)) | done].
  - intros q r [[<- <-]|[Hn Hq]]%lookup_insert_Some; simpl.
    + rewrite lookup_insert_eq. eexists. split_and!; [done..|]. by intros [].
    + rewrite lookup_insert_ne by (apply not_eq_sym; eauto). by apply (inv_heads _ Hw q).
  - intros q1 q2 r1 r2 [[<- <-]|[N1 H1]]%lookup_insert_Some [[<- <-]|[N2 H2]]%lookup_insert_Some E;
      simpl in E; [done| | |by apply (inv_owner _ Hw _ _ _ _ H1 H2)].
    + by destruct (Hid _ _ H2).
    + by destruct (Hid _ _ H1).
  - intros i c1 [[<- <-]|[N Hi]]%lookup_insert_Some HR.
    + exists p. eexists. by rewrite lookup_insert_eq.
    + destruct (inv_registered _ Hw i c1 Hi HR) as (q & r & Hq & E). exists q, r.
      rewrite lookup_insert_ne; [done|]. intros ->. congruence.
Qed.

(** The chunk's container, if registered, is registered at the chunk's own
    position. *)
Definition owns (w : WorldTickScheduler) (chunk : FullChunk) : Prop :=
  forall p r, chunks (state w) !! p = Some r -> reg_container r = scheduled_tick_container chunk ->
  p = chunk_pos chunk.

Lemma head_of_put k k' c l :
  head_of k' (mk_container (lifecycle c) (put_list k l (lists c))) =
  if decide (k = k') then trigger_tick <$> peek l else head_of k' c.
Proof. unfold head_of. by destruct k, k'. Qed.

Lemma schedule_kind_ok k w chunk ty pos trig prio ord :
  inv w -> owns w chunk -> is_Some (store w !! scheduled_tick_container chunk) ->
  let '(w', res) := schedule_kind k w chunk ty pos trig prio ord in res <> Panic /\ inv w'.
Proof.
  intros Hw Hown [c Hc]. unfold schedule_kind. rewrite Hc.
  destruct (schedule (get_list k (lists c)) ty pos trig prio ord) as [added l] eqn:Es.
  set (id := scheduled_tick_container chunk) in *.
  assert (Hun : lifecycle c <> Registered -> inv (with_store w (put_container k id c l (store w)))).
  { intros HL. apply inv_unregistered; [done| |done]. intros c0 H0. congruence. }
  case_decide as HP; [split; [done|]; apply Hun; congruence|].
  case_decide as HF; [done|].
  destruct (decide (lifecycle c = Registered)) as [HR|HR].
  - destruct (inv_registered _ Hw id c Hc HR) as (p & r & Hp & Er).
    assert (p = chunk_pos chunk) as -> by (by apply (Hown p r)).
    destruct (inv_heads _ Hw _ _ Hp) as (c1 & Hc1 & _ & Hh). rewrite Er, Hc in Hc1. injection Hc1 as <-.
    assert (Hsame : trigger_tick <$> peek l = head_of k c ->
      inv (with_store w (put_container k id c l (store w)))).
    { intros E. unfold put_container. rewrite <- Er. apply (inv_put _ _ (chunk_pos chunk) r _ _ r);
        [done..|apply Hw| |done|].
      - intros q. case_decide; [by subst q|done].
      - intros k'. rewrite head_of_put. case_decide; [subst k'; by rewrite E, Hh | apply Hh]. }
    destruct added; simpl.
    2:{ split; [done|]. apply Hsame. unfold schedule in Es.
        destruct (set_insert _ _) as [[] X]; simpl in Es; [done|]. by injection Es as <-. }
    case_decide as Eh; [auto|]. rewrite Hp, decide_True by done. unfold set_head_step. simpl.
    destruct (set_head_ok (state w) _ k (trigger_tick <$> peek l) r (inv_index _ Hw) Hp) as (D & -> & Hi).
    split; [done|]. unfold put_container, with_state. simpl. rewrite <- Er.
    apply (inv_put _ _ (chunk_pos chunk) r _ _ (reg_set_head k (trigger_tick <$> peek l) r)); try done.
    + intros q. sched. case_decide; [subst q; apply lookup_insert_eq | by rewrite lookup_insert_ne].
    + by sched.
    + intros k'. rewrite head_of_put. case_decide; [subst k'; by sched|]. by rewrite head_set_other.
  - specialize (Hun HR). destruct added; simpl; [|done]. case_decide; [done|].
    destruct (chunks (state w) !! chunk_pos chunk) as [r|] eqn:Er; [|done].
    rewrite decide_False; [done|]. intros E. destruct (inv_heads _ Hw _ _ Er) as (c1 & Hc1 & HR1 & _). congruence.
Qed.

Lemma unpack_chunk_ok w p now :
  inv w -> let '(w', res) := unpack_chunk w p now in res <> Panic /\ inv w'.
Proof.
  intros Hw. unfold unpack_chunk. destruct (chunks (state w) !! p) as [r|] eqn:Hp; [|done].
  destruct (inv_heads _ Hw _ _ Hp) as (c & Hc & HR & Hh). rewrite Hc, decide_False by (rewrite HR; tauto).
  set (c' := mk_container _ _). unfold set_head_step at 1. simpl.
  destruct (set_head_ok (state w) p Block (head_of Block c') r (inv_index _ Hw) Hp) as (D & -> & Hi).
  set (st1 := set_deadlines _ Block D) in *.
  assert (Hp1 : chunks st1 !! p = Some (reg_set_head Block (head_of Block c') r)) by apply lookup_insert_eq.
  unfold set_head_step. simpl.
  destruct (set_head_ok st1 p Fluid (head_of Fluid c') _ Hi Hp1) as (D' & -> & Hi').
  split; [done|]. unfold with_state, with_store. simpl.
  eapply (inv_put w _ p r c' _ (reg_set_head Fluid _ (reg_set_head Block _ r))); [done..|exact Hi'| |done|].
  - intros q. simpl. case_decide; [subst q; apply lookup_insert_eq|]. by rewrite !lookup_insert_ne.
  - by intros [].
Qed.

(** The deadlines an unregistered chunk leaves behind. *)
Definition dropped (r : RegisteredChunkTicks) (gen packed : Z) (k : TickKind) : gset (Z * Z) :=
  if is_active r gen then match head r k with Some h => {[(h, packed)]} | None => ∅ end else ∅.

Lemma drop_head_ok r packed k st :
  (forall h, is_active r (active_generation st) = true -> head r k = Some h -> (h, packed) ∈ deadlines st k) ->
  drop_head r packed k st =
  Ok (set_deadlines st k (deadlines st k ∖ dropped r (active_generation st) packed k)).
Proof.
  intros H. unfold drop_head, dropped.
  destruct (is_active r _); [|by rewrite difference_empty_L, set_deadlines_id].
  destruct (head r k) as [h|]; [|by rewrite difference_empty_L, set_deadlines_id].
  unfold deadline_remove. by rewrite decide_True by auto.
Qed.

Lemma dropped_spec st p r k x :
  index_ok st -> chunks st !! p = Some r ->
  x ∈ deadlines st k ∖ dropped r (active_generation st) (PackedChunkPos.of_chunk p) k <->
  x ∈ deadlines st k /\ x.2 <> PackedChunkPos.of_chunk p.
Proof.
  intros Hi Hp. destruct x as [t raw]. rewrite elem_of_difference. simpl. unfold dropped.
  pose proof (index_ok_entry _ k p r t Hi Hp) as He. destruct (is_active r _) eqn:Ha.
  - specialize (He eq_refl). destruct (decide (raw = PackedChunkPos.of_chunk p)) as [->|Hne];
      destruct (head r k) as [h|]; rewrite ?elem_of_singleton, ?elem_of_empty; naive_solver.
  - rewrite elem_of_empty. split; [|naive_solver]. intros [Hx _]. split; [done|]. intros ->.
    apply (ix_deadlines _ Hi) in Hx as (q & E & r' & Hq & Ha' & _).
    apply of_chunk_inj in E; [|by eapply ix_valid..]. subst q. congruence.
Qed.

Lemma unregister_chunk_ok w p :
  inv w -> let '(w', res) := unregister_chunk w p in res = Ok () /\ inv w' /\ chunks (state w') !! p = None.
Proof.
  intros Hw. unfold unregister_chunk. destruct (chunks (state w) !! p) as [r|] eqn:Hp; [|done].
  destruct (inv_heads _ Hw _ _ Hp) as (c & Hc & HR & Hh). pose proof (inv_index _ Hw) as Hi.
  assert (He : forall k h, is_active r (active_generation (state w)) = true -> head r k = Some h ->
    (h, PackedChunkPos.of_chunk p) ∈ deadlines (state w) k)
    by (intros k h Ha E; by apply (index_ok_entry _ k p r h Hi Hp Ha)).
  rewrite drop_head_ok by (intros h; apply (He Block)). cbn [obind].
  rewrite drop_head_ok by (intros h; apply (He Fluid)). rewrite Hc.
  split; [done|]. simpl. split; [|apply lookup_delete_eq]. split; simpl.
  - apply (index_ok_change (state w) _ p None); [done|by eapply ix_valid|done|..|done|].
    + intros q. simpl. case_decide; [subst q; apply lookup_delete_eq | by rewrite lookup_delete_ne].
    + intros k x. pose proof (dropped_spec _ p r k x Hi Hp) as Hd.
      transitivity (x ∈ deadlines (state w) k ∖ dropped r (active_generation (state w)) (PackedChunkPos.of_chunk p) k);
        [by destruct k|]. rewrite Hd. naive_solver.
  - intros q rq [N Hq]%lookup_delete_Some. destruct (inv_heads _ Hw _ _ Hq) as (c1 & H1 & HR1 & Hh1).
    exists c1. rewrite lookup_insert_ne; [done|]. intros E. apply N. by apply (inv_owner _ Hw _ _ _ _ Hp Hq).
  - intros q1 q2 r1 r2 [_ H1]%lookup_delete_Some [_ H2]%lookup_delete_Some. by apply (inv_owner _ Hw).
  - intros id c1 [[<- <-]|[N H1]]%lookup_insert_Some HR1; [done|].
    destruct (inv_registered _ Hw id c1 H1 HR1) as (q & rq & Hq & E). exists q, rq.
    rewrite lookup_delete_ne; [done|]. intros <-. congruence.
Qed.

Definition added (r : RegisteredChunkTicks) (packed : Z) (k : TickKind) : gset (Z * Z) :=
  match head r k with Some h => {[(h, packed)]} | None => ∅ end.

Lemma add_head_ok r packed k st :
  (forall h, (h, packed) ∉ deadlines st k) ->
  add_head r packed k st = Ok (set_deadlines st k (added r packed k ∪ deadlines st k)).
Proof.
  intros H. unfold add_head, added. destruct (head r k) as [h|].
  - unfold deadline_insert. by rewrite decide_False by apply H.
  - by rewrite union_empty_l_L, set_deadlines_id.
Qed.

Lemma activate_active r gen rk : is_active (activate r gen rk) gen = true.
Proof. unfold is_active, active_rank, activate. simpl. by rewrite Z.eqb_refl. Qed.

Lemma reconcile_loop_ok gen rk positions st :
  index_ok st -> gen = active_generation st -> NoDup positions ->
  (forall p, p ∈ positions -> exists r, chunks st !! p = Some r /\ is_active r gen = false) ->
  exists st', reconcile_loop gen rk positions st = Ok st' /\ index_ok st' /\
    active_generation st' = gen /\
    (forall q, q ∉ positions -> chunks st' !! q = chunks st !! q) /\
    (forall i q r, positions !! i = Some q -> chunks st !! q = Some r ->
       chunks st' !! q = Some (activate r gen (rk + i))).
Proof.
  intros Hi Hg Hn Hp. revert rk st Hi Hg Hp.
  induction positions as [|p rest IH]; intros rk st Hi Hg Hp; simpl; [by exists st|].
  apply NoDup_cons in Hn as [Hpr Hn]. destruct (Hp p) as (r & Hr & Ha); [by left|]. rewrite Hr, Ha.
  set (st0 := set_chunks st _).
  assert (Hfresh : forall k h, (h, PackedChunkPos.of_chunk p) ∉ deadlines st k).
  { intros k h (q & E & r' & Hq & Ha' & _)%(ix_deadlines _ Hi).
    apply of_chunk_inj in E; [|by eapply ix_valid..]. subst q. rewrite <- Hg in Ha'. congruence. }
  rewrite add_head_ok by (intros h; apply (Hfresh Block)). cbn [obind].
  rewrite add_head_ok by (intros h; apply (Hfresh Fluid)). cbn [obind].
  set (st1 := set_deadlines _ Fluid _).
  assert (Hch : forall q, chunks st1 !! q = if decide (q = p) then Some (activate r gen rk) else chunks st !! q).
  { intros q. simpl. case_decide; [subst q; apply lookup_insert_eq | by rewrite lookup_insert_ne]. }
  destruct (IH Hn (S rk) st1) as (st' & -> & Hi' & Hg' & Hout & Hin).
  - apply (index_ok_change st _ p (Some (activate r gen rk))); [done|by eapply ix_valid|done|done|..].
    + intros r' a [= <-] [= <-]. simpl. lia.
    + intros k [t raw]. transitivity ((t, raw) ∈ added r (PackedChunkPos.of_chunk p) k ∪ deadlines st k);
        [by destruct k|]. rewrite elem_of_union. unfold added. pose proof (activate_active r gen rk) as Hact.
      assert (Hh : head (activate r gen rk) k = head r k) by (by destruct k).
      specialize (Hfresh k t). simpl. split.
      * destruct (decide (raw = PackedChunkPos.of_chunk p)) as [->|Hne].
        -- intros [Hx|Hx]; [|done]. right. exists (activate r gen rk). rewrite Hh, <- Hg.
           destruct (head r k); [|by apply elem_of_empty in Hx].
           apply elem_of_singleton in Hx as [= ->]. done.
        -- intros [Hx|Hx]; [|by left]. destruct (head r k); [|by apply elem_of_empty in Hx].
           by apply elem_of_singleton in Hx as [= ? ->].
      * intros [[Hx _]|(r' & [= <-] & _ & Ht & ->)]; [by right|]. left. rewrite Hh in Ht. rewrite Ht.
        by apply elem_of_singleton.
  - done.
  - intros q Hq. destruct (Hp q) as (rq & Hrq & Haq); [by right|]. exists rq. rewrite Hch, decide_False; [done|].
    intros ->. done.
  - exists st'. split_and!; [done..| |].
    + intros q [N1 N2]%not_elem_of_cons. rewrite Hout, Hch, decide_False by done. done.
    + intros [|i] q rq Hq Hrq; simpl in Hq.
      * injection Hq as ->. rewrite Hout, Hch, decide_True by done. rewrite Hr in Hrq. injection Hrq as ->.
        by rewrite Nat.add_0_r.
      * rewrite Nat.add_succ_r. apply (Hin i q rq Hq). rewrite Hch, decide_False; [done|].
        intros ->. by apply list_elem_of_lookup_2 in Hq.
Qed.

(** Entries that agree on everything but the activity rank. *)
Definition same_entry (r r' : RegisteredChunkTicks) : Prop :=
  reg_container r' = reg_container r /\ forall k, head r' k = head r k.

Lemma inv_reindex w st' :
  inv w -> index_ok st' ->
  (forall p, match chunks (state w) !! p, chunks st' !! p with
             | Some r, Some r' => same_entry r r'
             | None, None => True
             | _, _ => False
             end) ->
  inv (with_state w st').
Proof.
  intros Hw Hi Hm. split; simpl; [done|..].
  - intros p r' Hp. specialize (Hm p). rewrite Hp in Hm.
    destruct (chunks (state w) !! p) as [r|] eqn:Er; [|done]. destruct Hm as [E Hh].
    destruct (inv_heads _ Hw _ _ Er) as (c & Hc & HR & Hh'). exists c. rewrite E.
    split_and!; [done..|]. intros k. by rewrite Hh.
  - intros p q r1 r2 Hp Hq E. pose proof (Hm p) as H1. pose proof (Hm q) as H2. rewrite Hp in H1. rewrite Hq in H2.
    destruct (chunks (state w) !! p) as [s1|] eqn:E1; [|done]. destruct (chunks (state w) !! q) as [s2|] eqn:E2; [|done].
    destruct H1 as [H1 _], H2 as [H2 _]. apply (inv_owner _ Hw _ _ _ _ E1 E2). congruence.
  - intros id c Hc HR. destruct (inv_registered _ Hw id c Hc HR) as (p & r & Hp & E). specialize (Hm p).
    rewrite Hp in Hm. destruct (chunks st' !! p) as [r'|] eqn:Er; [|done]. exists p, r'.
    destruct Hm as [E' _]. split; [done|congruence].
Qed.

Lemma advance_ok st :
  index_ok st ->
  let '(gen, st') := advance_active_generation (mk_state (chunks st) ∅ ∅ (active_generation st)) in
  index_ok st' /\ active_generation st' = gen /\
  (forall p, match chunks st !! p, chunks st' !! p with
             | Some r, Some r' => same_entry r r' /\ is_active r' gen = false
             | None, None => True
             | _, _ => False
             end).
Proof.
  intros Hi. destruct (ix_generation _ Hi) as [Hrange Hle]. unfold advance_active_generation. simpl.
  assert (Hempty : forall st', (forall k, deadlines st' k = ∅) ->
    (forall p r, chunks st' !! p = Some r -> is_chunk p /\ is_active r (active_generation st') = false) ->
    forall k t raw, (t, raw) ∈ deadlines st' k <->
    exists p, raw = PackedChunkPos.of_chunk p /\ indexed (chunks st') (active_generation st') k p t).
  { intros st' Hd Hc k t raw. rewrite Hd. split; [by intros ?%elem_of_empty|].
    intros (p & _ & r & Hp & Ha & _). destruct (Hc p r Hp) as [_ E]. congruence. }
  destruct (Z.leb_spec (active_generation st + 1) usize_max) as [Hin|Hov].
  - assert (Hold : forall p r, chunks st !! p = Some r -> is_active r (active_generation st + 1) = false).
    { intros p r Hp. unfold is_active, active_rank. destruct (active r) as [a|] eqn:Ea; [|done].
      specialize (Hle p r a Hp Ea). by zbool. }
    split_and!; [|done|].
    + split; simpl; [apply (ix_valid _ Hi)| |split; [lia|]; intros; specialize (Hle p r a); naive_solver lia].
      apply Hempty; [by intros []|]. simpl. intros p r Hp. split; [by eapply ix_valid | by eapply Hold].
    + intros p. simpl. destruct (chunks st !! p) eqn:E; [|done]. split; [by split|]. by eapply Hold.
  - split_and!; [|done|].
    + split; simpl.
      * intros p r. rewrite lookup_fmap, fmap_Some. intros (r0 & H0 & _). by eapply ix_valid.
      * apply Hempty; [by intros []|]. simpl. intros p r. rewrite lookup_fmap, fmap_Some.
        intros (r0 & H0 & ->). split; [by eapply ix_valid|done].
      * unfold usize_max. split; [lia|]. intros p r a. rewrite lookup_fmap, fmap_Some. by intros (r0 & _ & ->).
    + intros p. simpl. rewrite lookup_fmap. destruct (chunks st !! p); simpl; [|done]. split; [|done].
      by split; [|intros []].
Qed.

Lemma reconcile_ok w positions :
  inv w -> NoDup positions ->
  let '(w', res) := reconcile_active_chunks w positions in
  inv w' /\
  ((res = Ok () /\ forall i p, positions !! i = Some p ->
      exists r, chunks (state w') !! p = Some r /\ active_rank r (active_generation (state w')) = Some i) \/
   (w' = w /\ exists p, p ∈ positions /\ chunks (state w) !! p = None /\ res = Err (MissingContainer p))).
Proof.
  intros Hw Hn. unfold reconcile_active_chunks.
  destruct (list_find _ positions) as [[i p]|] eqn:Ef.
  { split; [done|]. right. split; [done|]. apply list_find_Some in Ef as (Hi & Hp & _).
    exists p. split_and!; try done. by apply list_elem_of_lookup_2 with i. }
  assert (Hall : forall p, p ∈ positions -> chunks (state w) !! p <> None).
  { intros p Hp. by apply list_find_None, Forall_forall with (x := p) in Ef. }
  pose proof (advance_ok (state w) (inv_index _ Hw)) as Hadv.
  destruct (advance_active_generation _) as [gen st]. destruct Hadv as (Hi & Hg & Hm).
  destruct (reconcile_loop_ok gen 0 positions st Hi (eq_sym Hg) Hn) as (st' & -> & Hi' & Hg' & Hout & Hin).
  { intros p Hp%Hall. specialize (Hm p). destruct (chunks (state w) !! p) as [r0|]; [|done].
    destruct (chunks st !! p) as [r|]; [|done]. exists r. naive_solver. }
  assert (Hst : forall i p, positions !! i = Some p -> exists r, chunks st !! p = Some r).
  { intros i p Hp%list_elem_of_lookup_2%Hall. specialize (Hm p).
    destruct (chunks (state w) !! p), (chunks st !! p); naive_solver. }
  split.
  - apply inv_reindex; [done..|]. intros p. specialize (Hm p).
    destruct (decide (p ∈ positions)) as [[i Hp]%list_elem_of_lookup|Hp].
    + destruct (Hst i p Hp) as [r Hr]. rewrite (Hin i p r Hp Hr). rewrite Hr in Hm.
      destruct (chunks (state w) !! p) as [r0|]; [|done]. destruct Hm as [[E Hh] _]. split; [done|].
      intros k. rewrite <- Hh. by destruct k.
    + rewrite (Hout p Hp). destruct (chunks (state w) !! p), (chunks st !! p); naive_solver.
  - left. split; [done|]. intros i p Hp. destruct (Hst i p Hp) as [r Hr]. simpl.
    exists (activate r gen i). split; [by rewrite (Hin i p r Hp Hr)|].
    unfold active_rank, activate. simpl. by rewrite Hg', Z.eqb_refl.
Qed.

(** ** Histories *)

(** The operations a server performs on the scheduler and on its chunks'
    containers. *)
Inductive scheduler_op :=
| OpCreate (id : ContainerId) (proto : bool) (l : ChunkTickLists)
| OpPromote (id : ContainerId)
| OpScheduleUnregistered (k : TickKind) (id : ContainerId) (ty : TickRef) (pos : BlockPos) (trigger : Z)
    (prio : TickPriority) (order : Z)
| OpSchedulePending (k : TickKind) (id : ContainerId) (ty : TickRef) (pos : BlockPos) (prio : TickPriority)
| OpRemovePending (id : ContainerId) (predicate : SavedTick -> bool)
| OpRegister (chunk : FullChunk)
| OpUnpack (p : ChunkPos) (now : Z)
| OpUnregister (p : ChunkPos)
| OpReconcile (positions : list ChunkPos)
| OpSchedule (k : TickKind) (chunk : FullChunk) (ty : TickRef) (pos : BlockPos) (trigger : Z)
    (prio : TickPriority) (order : Z)
| OpCollect (k : TickKind) (now : Z) (max : nat).

Definition ignore {A} (s : Step A) : Step unit :=
  (s.1, match s.2 with Ok _ => Ok () | Err e => Err e | Panic => Panic end).

(** An operation on one container, through its address. *)
Definition at_container (w : WorldTickScheduler) (id : ContainerId)
    (f : ChunkTickContainerState -> ChunkTickContainerState) : Step unit :=
  match store w !! id with
  | Some c => (with_store w (<[id := f c]> (store w)), Ok ())
  | None => (w, Panic)
  end.

Definition perform (w : WorldTickScheduler) (op : scheduler_op) : Step unit :=
  match op with
  | OpCreate id proto l =>
      (with_store w (<[id := if proto then container_new_proto l else container_new l]> (store w)), Ok ())
  | OpPromote id => at_container w id (fun c => (promote_to_full c).2)
  | OpScheduleUnregistered k id ty pos t prio ord =>
      at_container w id (fun c => (schedule_unregistered k c ty pos t prio ord).2)
  | OpSchedulePending k id ty pos prio =>
      at_container w id (fun c => (container_schedule_pending k c ty pos prio).2)
  | OpRemovePending id predicate => at_container w id (fun c => (remove_pending_blocks_matching c predicate).2)
  | OpRegister chunk => register_chunk w chunk
  | OpUnpack p now => unpack_chunk w p now
  | OpUnregister p => unregister_chunk w p
  | OpReconcile positions => reconcile_active_chunks w positions
  | OpSchedule k chunk ty pos t prio ord => ignore (schedule_kind k w chunk ty pos t prio ord)
  | OpCollect k now max => ignore (collect_ticks k w now max)
  end.

(** What the callers guarantee: a new container has a fresh address, an
    address they hold is live, chunk coordinates are [i32], a snapshot lists
    a chunk once, and a chunk's container is registered, if at all, under the
    chunk's own position. *)
Definition allowed (w : WorldTickScheduler) (op : scheduler_op) : Prop :=
  match op with
  | OpCreate id _ _ => store w !! id = None
  | OpPromote id | OpScheduleUnregistered _ id _ _ _ _ _ | OpSchedulePending _ id _ _ _
  | OpRemovePending id _ => is_Some (store w !! id)
  | OpRegister chunk => is_chunk (chunk_pos chunk) /\ is_Some (store w !! scheduled_tick_container chunk)
  | OpReconcile positions => NoDup positions
  | OpSchedule _ chunk _ _ _ _ _ => owns w chunk /\ is_Some (store w !! scheduled_tick_container chunk)
  | OpUnpack _ _ | OpUnregister _ | OpCollect _ _ _ => True
  end.

Inductive history : WorldTickScheduler -> Prop :=
| history_new : history scheduler_new
| history_step w op : history w -> allowed w op -> history (perform w op).1.

Lemma inv_new : inv scheduler_new.
Proof.
  split; simpl; try done. split; simpl; try done.
  intros k t raw. split; [by destruct k; intros ?%elem_of_empty|].
  by intros (p & _ & r & Hr & _).
Qed.

(** An operation that leaves registered containers alone. *)
Lemma at_container_ok w id f :
  inv w -> is_Some (store w !! id) ->
  (forall c, lifecycle c = Registered -> f c = c) ->
  (forall c, lifecycle c <> Registered -> lifecycle (f c) <> Registered) ->
  (at_container w id f).2 <> Panic /\ inv (at_container w id f).1.
Proof.
  intros Hw [c Hc] H1 H2. unfold at_container. rewrite Hc. split; [done|]. simpl.
  destruct (decide (lifecycle c = Registered)) as [HR|HR].
  - rewrite H1, insert_id by done. by destruct w.
  - apply inv_unregistered; [done|intros c0 H0; congruence|auto].
Qed.

Lemma perform_ok w op : inv w -> allowed w op -> (perform w op).2 <> Panic /\ inv (perform w op).1.
Proof.
  intros Hw Ha. destruct op; simpl in *.
  - split; [done|]. apply inv_unregistered; [done|congruence|by destruct proto].
  - apply at_container_ok; [done..| |]; unfold promote_to_full; intros c HL;
      case_decide as Hd; simpl; [done| |done|discriminate].
    congruence.
  - apply at_container_ok; [done..| |]; unfold schedule_unregistered; intros c HL;
      case_decide; try done; try congruence; by destruct (schedule _ _ _ _ _ _).
  - apply at_container_ok; [done..| |]; unfold container_schedule_pending; intros c HL;
      case_decide; try done; try congruence; by destruct (schedule_pending _ _ _ _).
  - apply at_container_ok; [done..| |]; unfold remove_pending_blocks_matching; intros c HL;
      case_decide; try done; try congruence; by destruct (remove_pending_matching _ _).
  - destruct Ha. by apply register_chunk_ok.
  - pose proof (unpack_chunk_ok w p now Hw). by destruct (unpack_chunk w p now).
  - pose proof (unregister_chunk_ok w p Hw). destruct (unregister_chunk w p) as [w' res]. destruct H as (-> & H & _). done.
  - pose proof (reconcile_ok w positions Hw Ha). destruct (reconcile_active_chunks w positions) as [w' res].
    destruct H as [H [[-> _]|(_ & p & _ & _ & ->)]]; done.
  - destruct Ha as [H1 H2]. pose proof (schedule_kind_ok k w chunk ty pos trigger prio order Hw H1 H2).
    destruct (schedule_kind _ _ _ _ _ _ _ _) as [w' []]; simpl; destruct H; done.
  - destruct (collect_ticks_spec k w now max Hw) as [batch H].
    destruct (collect_ticks k w now max) as [w' res]. destruct H as [-> H]. split; [done|]. apply (cd_inv _ _ _ _ _ _ H).
Qed.

Lemma history_inv w : history w -> inv w.
Proof. induction 1; [apply inv_new | by apply perform_ok]. Qed.

(** C27: No assertion of the scheduler ever fails: after any history of
    operations from the empty scheduler, in any order, the deadline indexes
    hold exactly the queue heads of the chunks in simulation range, and the
    next operation does not panic. *)
Theorem scheduler_never_panics w op :
  history w -> allowed w op ->
  (perform w op).2 <> Panic /\
  (forall k t raw, (t, raw) ∈ deadlines (state w) k <->
     exists p r c, raw = PackedChunkPos.of_chunk p /\ chunks (state w) !! p = Some r /\
       is_active r (active_generation (state w)) = true /\
       store w !! reg_container r = Some c /\ head_of k c = Some t).
Proof.
  intros Hw%history_inv Ha. split; [by apply perform_ok|]. intros k t raw.
  rewrite (ix_deadlines _ (inv_index _ Hw)). split.
  - intros (p & -> & r & Hp & Hact & Hh). destruct (inv_heads _ Hw _ _ Hp) as (c & Hc & _ & Hheads).
    exists p, r, c. by rewrite <- Hheads.
  - intros (p & r & c & -> & Hp & Hact & Hc & Hh). exists p. split; [done|]. exists r. split_and!; [done..|].
    destruct (inv_heads _ Hw _ _ Hp) as (c' & Hc' & _ & Hheads). rewrite Hheads. congruence.
Qed.

(** ** Concrete instances *)

Definition demo_tick (ty : TickRef) (t : Z) : TickList -> TickList :=
  fun l => (schedule l ty (mk_block 3 64 5) t Normal 0).2.

(** Two registered chunks in range, the first with a tick due at 4 and one at
    9, the second with one due at 2. *)
Definition demo_ops : list scheduler_op :=
  [OpCreate 1 false (mk_lists (demo_tick 8 9 (demo_tick 7 4 new_tick_list)) new_tick_list);
   OpCreate 2 false (mk_lists (demo_tick 7 2 new_tick_list) new_tick_list);
   OpRegister (mk_chunk_ref (mk_chunk 0 0) 1);
   OpRegister (mk_chunk_ref (mk_chunk 0 (-1)) 2);
   OpReconcile [mk_chunk 0 (-1); mk_chunk 0 0]].

Definition demo_world : WorldTickScheduler := foldl (fun w op => (perform w op).1) scheduler_new demo_ops.

Lemma demo_history : history demo_world.
Proof.
  unfold demo_world, demo_ops. cbn [foldl].
  repeat (apply history_step; [|first
    [ vm_compute; reflexivity
    | split; [split; vm_compute; split; congruence | vm_compute; eauto]
    | vm_compute; repeat constructor; set_solver ]]).
  apply history_new.
Qed.

Lemma scheduler_never_panics_witness :
  allowed demo_world (OpUnregister (mk_chunk 0 0)) /\
  (perform demo_world (OpUnregister (mk_chunk 0 0))).2 <> Panic.
Proof.
  split; [exact I|]. apply (scheduler_never_panics _ (OpUnregister (mk_chunk 0 0)) demo_history I).
Defined.

Lemma collect_ticks_exact_witness :
  exists batch, let '(w', res) := collect_ticks Block demo_world 5 10 in
    res = Ok batch /\ inv w' /\ (length (collected batch) <= 10)%nat /\
    (tick_type <$> collected batch) = [7; 7].
Proof.
  destruct (collect_ticks_exact Block demo_world 5 10 (history_inv _ demo_history)) as [batch H].
  exists batch. destruct (collect_ticks Block demo_world 5 10) as [w' res] eqn:E.
  destruct H as (Hr & Hi & Hb & _). split_and!; [exact Hr|exact Hi|exact Hb|].
  assert (Hc : (collect_ticks Block demo_world 5 10).2 = Ok batch) by (rewrite E; exact Hr).
  vm_compute in Hc. injection Hc as <-. reflexivity.
Defined.

Lemma collect_reports_changes_witness :
  exists batch, let '(w', res) := collect_ticks Block demo_world 5 1 in
    res = Ok batch /\ changed_containers batch = [0%nat].
Proof.
  destruct (collect_reports_changes Block demo_world 5 1 (history_inv _ demo_history)) as [batch H].
  exists batch. destruct (collect_ticks Block demo_world 5 1) as [w' res] eqn:E.
  destruct H as (Hr & _). split; [exact Hr|].
  assert (Hc : (collect_ticks Block demo_world 5 1).2 = Ok batch) by (rewrite E; exact Hr).
  vm_compute in Hc. injection Hc as <-. reflexivity.
Defined.
