(* ===== verification/BitPack.v ===== *)
(** * Packed index arrays

    Models [steel-core/src/chunk_saver/bit_pack.rs], the on-disk form of a
    section's palette indices, and the word layout it shares with the network
    encoder of [chunk/paletted_container/encode.rs]: [64 / bits] entries per
    64-bit word, low bits first, no entry spanning two words. *)

From Stdlib Require Import Lia ZArith.
From stdpp Require Import prelude list.
From S2P Require Import Prelude.

(** ** Definitions *)

Definition bits_for_palette_len (palette_len : nat) : option nat :=
  if (palette_len <=? 1)%nat then None
  else if (palette_len <=? 2)%nat then Some 1%nat
  else if (palette_len <=? 4)%nat then Some 2%nat
  else if (palette_len <=? 16)%nat then Some 4%nat
  else if (palette_len <=? 256)%nat then Some 8%nat
  else Some 16%nat.

Definition nat_div_ceil (a b : nat) : nat := ((a + (b - 1)) / b)%nat.

(** [u8::is_power_of_two] for the widths that can pass the assertion. *)
Definition is_pack_width (bits : nat) : bool :=
  existsb (Nat.eqb bits) [1; 2; 4; 8; 16]%nat.

(** [data[i / values_per_u64] |= u64::from(index) << ((i % values_per_u64) * bits)]
    for every index; [i / values_per_u64] is always in range. *)
Fixpoint pack_loop (bits values_per_u64 i : nat) (indices data : list Z) : list Z :=
  match indices with
  | [] => data
  | index :: rest =>
      pack_loop bits values_per_u64 (S i) rest
        (alter (fun w => Z.lor w (u64 (Z.shiftl index (Z.of_nat (i mod values_per_u64 * bits)%nat))))
           (i / values_per_u64)%nat data)
  end.

Definition pack_indices_from_iter (indices : list Z) (bits : nat) : outcome Empty_set (list Z) :=
  if negb (is_pack_width bits) then Panic
  else if (length indices =? 0)%nat then Ok []
  else
    let values_per_u64 := (64 / bits)%nat in
    let num_u64s := nat_div_ceil (length indices) values_per_u64 in
    Ok (pack_loop bits values_per_u64 0 indices (replicate num_u64s 0)).

Definition mask_of (bits : nat) : Z := u64 (Z.shiftl 1 (Z.of_nat bits)) - 1.

Definition word_entry (bits : nat) (word : Z) (j : nat) : Z :=
  Z.land (Z.shiftr word (Z.of_nat (j * bits)%nat)) (mask_of bits).

Definition unpack_indices (data : list Z) (bits : nat) : list Z :=
  data ≫= fun word => (fun j => u32 (word_entry bits word j)) <$> seq 0 (64 / bits)%nat.

(** ** The word layout *)

(** The word holding [ids], first entry lowest. *)
Fixpoint word_of (bits : nat) (ids : list Z) : Z :=
  match ids with
  | [] => 0
  | x :: t => x + 2 ^ Z.of_nat bits * word_of bits t
  end.

(** [slice::chunks]. *)
Fixpoint chunks_loop {A} (fuel n : nat) (l : list A) : list (list A) :=
  match fuel with
  | O => []
  | S f => match l with [] => [] | _ => take n l :: chunks_loop f n (drop n l) end
  end.
Definition chunks {A} (n : nat) (l : list A) : list (list A) := chunks_loop (length l) n l.

Definition words (bits : nat) (ids : list Z) : list Z := word_of bits <$> chunks (64 / bits)%nat ids.

Definition fits (bits : nat) (id : Z) : Prop := is_u (Z.of_nat bits) id.

Lemma chunks_loop_fuel {A} n (l : list A) f f' :
  (0 < n)%nat -> (length l <= f)%nat -> (length l <= f')%nat -> chunks_loop f n l = chunks_loop f' n l.
Proof.
  intros Hn. revert f' l. induction f as [|f IH]; intros f' l Hf Hf'.
  - destruct l; simpl in Hf; [by destruct f' | lia].
  - destruct f' as [|f']; [destruct l; [done|simpl in *; lia]|]. simpl. destruct l as [|x l]; [done|].
    f_equal. apply IH; rewrite length_drop; simpl in *; lia.
Qed.

Lemma chunks_cons {A} n (l : list A) :
  (0 < n)%nat -> l <> [] -> chunks n l = take n l :: chunks n (drop n l).
Proof.
  intros Hn Hl. unfold chunks. destruct l as [|x l]; [done|]. cbn [length chunks_loop]. f_equal.
  apply chunks_loop_fuel; [done|..]; rewrite length_drop; simpl; lia.
Qed.

Lemma chunks_lookup {A} n (l : list A) k :
  (0 < n)%nat -> (k * n < length l)%nat -> chunks n l !! k = Some (take n (drop (k * n)%nat l)).
Proof.
  intros Hn. revert l. induction k as [|k IH]; intros l Hk;
    assert (Hl : l <> []) by (intros ->; simpl in Hk; lia); rewrite chunks_cons by done; simpl.
  - done.
  - rewrite IH by (rewrite length_drop; simpl in Hk; lia). by rewrite drop_drop.
Qed.

Lemma nat_div_ceil_pos a b : (0 < b)%nat -> (0 < a)%nat -> nat_div_ceil a b = S (nat_div_ceil (a - b)%nat b).
Proof.
  intros Hb Ha. unfold nat_div_ceil. destruct (le_lt_dec b a).
  - replace (a + (b - 1))%nat with (1 * b + (a - b + (b - 1)))%nat by lia.
    rewrite Nat.div_add_l by lia. done.
  - replace (a - b)%nat with 0%nat by lia. rewrite (Nat.div_small (0 + (b - 1))%nat) by lia.
    replace (a + (b - 1))%nat with (1 * b + (a - 1))%nat by lia.
    rewrite Nat.div_add_l, Nat.div_small by lia. done.
Qed.

Lemma length_chunks {A} n (l : list A) : (0 < n)%nat -> length (chunks n l) = nat_div_ceil (length l) n.
Proof.
  intros Hn. remember (length l) as m eqn:Em. revert l Em.
  induction m as [m IH] using lt_wf_ind. intros l ->. destruct l as [|x l].
  - unfold nat_div_ceil. simpl. by rewrite Nat.div_small by lia.
  - rewrite chunks_cons by done. rewrite nat_div_ceil_pos by (simpl; lia). cbn [length]. f_equal.
    rewrite (IH (length (drop n (x :: l)))); [by rewrite length_drop | rewrite length_drop; simpl; lia|done].
Qed.

(** ** Words and entries *)

Lemma word_of_range bits ids :
  Forall (fits bits) ids -> is_u (Z.of_nat (length ids * bits)%nat) (word_of bits ids).
Proof.
  induction 1 as [|x t Hx Ht IH]; unfold fits, is_u in *; simpl in *; [done|].
  rewrite Nat2Z.inj_add, Z.pow_add_r by lia.
  assert (2 ^ Z.of_nat bits * word_of bits t <= 2 ^ Z.of_nat bits * (2 ^ Z.of_nat (length t * bits) - 1))
    as Hle by (apply Z.mul_le_mono_nonneg_l; lia).
  assert (0 <= 2 ^ Z.of_nat bits * word_of bits t) by (apply Z.mul_nonneg_nonneg; lia).
  rewrite Z.mul_sub_distr_l, Z.mul_1_r in Hle. lia.
Qed.

Lemma shiftr_word bits ids s :
  Forall (fits bits) ids -> Z.shiftr (word_of bits ids) (Z.of_nat (s * bits)%nat) = word_of bits (drop s ids).
Proof.
  intros Hf. revert s. induction Hf as [|x t Hx Ht IH]; intros s; [by rewrite drop_nil, Z.shiftr_0_l|].
  destruct s as [|s]; [done|]. simpl. rewrite <- IH, Nat2Z.inj_add, <- Z.shiftr_shiftr by lia. f_equal.
  rewrite Z.shiftr_div_pow2 by lia. unfold fits, is_u in Hx.
  rewrite Z.mul_comm, Z.div_add, Z.div_small by lia. lia.
Qed.

Lemma mask_ones bits : (bits < 64)%nat -> mask_of bits = Z.ones (Z.of_nat bits).
Proof.
  intros. unfold mask_of, u64. rewrite Z.shiftl_1_l, wrapu_id; [unfold Z.ones; rewrite Z.shiftl_1_l; lia|].
  unfold is_u. split; [lia|]. apply Z.pow_lt_mono_r; lia.
Qed.

Lemma word_entry_spec bits ids j :
  (bits < 64)%nat -> Forall (fits bits) ids ->
  word_entry bits (word_of bits ids) j = default 0 (ids !! j).
Proof.
  intros Hb Hf. unfold word_entry. rewrite shiftr_word, mask_ones, Z.land_ones by (done || lia).
  rewrite <- (Nat.add_0_r j) at 2. rewrite <- lookup_drop.
  pose proof (Forall_drop _ j _ Hf) as Hd. destruct (drop j ids) as [|x t]; [done|].
  simpl. apply Forall_cons in Hd as [Hx _]. unfold fits, is_u in Hx.
  rewrite Z.mul_comm, Z.mod_add, Z.mod_small by lia. done.
Qed.

(** Or-ing the entries one by one builds the word. *)
Fixpoint fold_slots (bits s : nat) (ids : list Z) (acc : Z) : Z :=
  match ids with
  | [] => acc
  | x :: t => fold_slots bits (S s) t (Z.lor acc (u64 (Z.shiftl x (Z.of_nat (s * bits)%nat))))
  end.

Lemma fold_slots_word bits s ids acc :
  ((s + length ids) * bits <= 64)%nat -> Forall (fits bits) ids -> is_u (Z.of_nat (s * bits)%nat) acc ->
  fold_slots bits s ids acc = acc + 2 ^ Z.of_nat (s * bits)%nat * word_of bits ids.
Proof.
  intros Hb Hf. revert s acc Hb. induction Hf as [|x t Hx Ht IH]; intros s acc Hb Ha; simpl; [lia|].
  simpl in Hb. unfold fits, is_u in Hx.
  assert (Hp : 0 < 2 ^ Z.of_nat (s * bits)%nat) by (apply Z.pow_pos_nonneg; lia).
  assert (Hsum : 2 ^ Z.of_nat (S s * bits)%nat = 2 ^ Z.of_nat (s * bits)%nat * 2 ^ Z.of_nat bits)
    by (rewrite <- Z.pow_add_r by lia; f_equal; lia).
  assert (Hx64 : is_u 64 (Z.shiftl x (Z.of_nat (s * bits)%nat))).
  { rewrite Z.shiftl_mul_pow2 by lia. unfold is_u.
    assert (2 ^ Z.of_nat (S s * bits)%nat <= 2 ^ 64) by (apply Z.pow_le_mono_r; lia). nia. }
  unfold u64. rewrite wrapu_id by done. unfold is_u in Ha.
  rewrite lor_shiftl_add by (done || lia). rewrite IH; [rewrite Hsum; lia|lia|].
  unfold is_u. rewrite Hsum. nia.
Qed.

(** ** Packing *)

Lemma alter_middle {A} (f : A -> A) pre x post : alter f (length pre) (pre ++ x :: post) = pre ++ f x :: post.
Proof. induction pre as [|y pre IH]; simpl; [done|]. by f_equal. Qed.

Lemma pack_loop_chunk bits vpu s c rest pre acc post :
  (s + length c <= vpu)%nat ->
  pack_loop bits vpu (length pre * vpu + s)%nat (c ++ rest) (pre ++ acc :: post) =
  pack_loop bits vpu (length pre * vpu + (s + length c))%nat rest (pre ++ fold_slots bits s c acc :: post).
Proof.
  revert s acc. induction c as [|x c IH]; intros s acc Hs; simpl in *; [by rewrite Nat.add_0_r|].
  rewrite Nat.add_comm, Nat.Div0.mod_add, Nat.mod_small, Nat.div_add, Nat.div_small by lia.
  rewrite Nat.add_0_l, alter_middle. replace (S (s + length pre * vpu)) with (length pre * vpu + S s)%nat by lia.
  rewrite IH by lia. f_equal. lia.
Qed.

Lemma pack_loop_words bits ids pre :
  (0 < bits <= 16)%nat -> Forall (fits bits) ids ->
  pack_loop bits (64 / bits) (length pre * (64 / bits))%nat ids
    (pre ++ replicate (nat_div_ceil (length ids) (64 / bits)) 0) = pre ++ words bits ids.
Proof.
  intros Hb. set (vpu := (64 / bits)%nat).
  assert (Hv : (0 < vpu /\ vpu * bits <= 64)%nat).
  { subst vpu. split; [apply Nat.div_str_pos; lia|]. rewrite Nat.mul_comm. apply Nat.Div0.mul_div_le. }
  remember (length ids) as n eqn:En. revert ids pre En.
  induction n as [n IH] using lt_wf_ind. intros ids pre En Hf.
  destruct (decide (ids = [])) as [->|Hne].
  { subst n. simpl. unfold nat_div_ceil. rewrite Nat.div_small by lia. done. }
  assert (0 < n)%nat by (subst n; destruct ids; simpl; [done|lia]).
  unfold words. fold vpu. rewrite chunks_cons, nat_div_ceil_pos by (done || lia). simpl.
  pose proof (pack_loop_chunk bits vpu 0 (take vpu ids) (drop vpu ids) pre 0
    (replicate (nat_div_ceil (n - vpu) vpu) 0)) as Hc.
  rewrite take_drop, Nat.add_0_r, length_take in Hc. rewrite Hc by lia.
  rewrite fold_slots_word; [|rewrite length_take; nia|by apply Forall_take|done].
  rewrite Z.add_0_l, Z.mul_1_l, (cons_middle _ pre), app_assoc.
  destruct (decide (drop vpu ids = [])) as [Hd|Hd].
  - rewrite Hd. assert (n - vpu = 0)%nat as -> by (apply (f_equal length) in Hd; rewrite length_drop in Hd; simpl in Hd; lia).
    unfold nat_div_ceil. rewrite Nat.div_small by lia. by rewrite <- app_assoc.
  - assert (Hlen : (vpu < n)%nat).
    { destruct (le_lt_dec n vpu); [|done]. destruct Hd. apply drop_ge. lia. }
    rewrite Nat.min_l by lia.
    replace (length pre * vpu + (0 + vpu))%nat with (length (pre ++ [word_of bits (take vpu ids)]) * vpu)%nat
      by (rewrite length_app; simpl; lia).
    rewrite (IH (n - vpu)%nat); [by rewrite <- app_assoc|lia|by rewrite length_drop; lia|by apply Forall_drop].
Qed.

Lemma pack_width_spec bits : is_pack_width bits = true -> (0 < bits <= 16)%nat.
Proof. unfold is_pack_width. rewrite existsb_exists. intros (x & Hx & ->%Nat.eqb_eq). simpl in Hx. lia. Qed.

Lemma words_entries bits ids i :
  (0 < bits <= 16)%nat -> Forall (fits bits) ids -> (i < length ids)%nat ->
  exists w, words bits ids !! (i / (64 / bits))%nat = Some w /\
    word_entry bits w (i mod (64 / bits)) = default 0 (ids !! i).
Proof.
  intros Hb Hf Hi. set (vpu := (64 / bits)%nat).
  assert (Hv : (0 < vpu)%nat) by (apply Nat.div_str_pos; lia).
  pose proof (Nat.div_mod_eq i vpu) as Hdm. pose proof (Nat.mod_upper_bound i vpu ltac:(lia)).
  unfold words. rewrite list_lookup_fmap. fold vpu. rewrite chunks_lookup by lia. eexists. split; [done|].
  rewrite word_entry_spec by (try lia; by apply Forall_take, Forall_drop).
  rewrite lookup_take_lt, lookup_drop by lia. do 2 f_equal. lia.
Qed.

Lemma words_range bits ids :
  (0 < bits <= 16)%nat -> Forall (fits bits) ids -> Forall (is_u 64) (words bits ids).
Proof.
  intros Hb Hf. unfold words. apply Forall_fmap, Forall_forall. intros c Hc.
  assert (Hv : (0 < 64 / bits /\ 64 / bits * bits <= 64)%nat).
  { split; [apply Nat.div_str_pos; lia|]. rewrite Nat.mul_comm. apply Nat.Div0.mul_div_le. }
  apply list_elem_of_lookup in Hc as [k Hk].
  pose proof (lookup_lt_Some _ _ _ Hk) as Hlt. rewrite length_chunks in Hlt by lia.
  assert (k * (64 / bits) < length ids)%nat.
  { unfold nat_div_ceil in Hlt. set (n := length ids) in *. set (v := (64 / bits)%nat) in *.
    pose proof (Nat.Div0.mul_div_le (n + (v - 1)) v). nia. }
  rewrite chunks_lookup in Hk by lia. injection Hk as <-. simpl.
  pose proof (word_of_range bits (take (64 / bits) (drop (k * (64 / bits))%nat ids))
    ltac:(by apply Forall_take, Forall_drop)) as Hr.
  unfold is_u in *. split; [lia|]. eapply Z.lt_le_trans; [apply Hr|]. apply Z.pow_le_mono_r; [lia|].
  rewrite length_take. nia.
Qed.

(** ** Unpacking *)

Lemma entries_chunk bits c :
  (0 < bits <= 16)%nat -> Forall (fits bits) c -> (length c <= 64 / bits)%nat ->
  (fun j => u32 (word_entry bits (word_of bits c) j)) <$> seq 0 (64 / bits)%nat =
  c ++ replicate (64 / bits - length c) 0.
Proof.
  intros Hb Hf Hl. apply list_eq. intros i. rewrite list_lookup_fmap.
  destruct (decide (i < 64 / bits)%nat) as [Hi|Hi].
  - rewrite lookup_seq_lt by done. simpl. rewrite word_entry_spec by (done || lia).
    destruct (decide (i < length c)%nat) as [Hc|Hc].
    + rewrite lookup_app_l by done. destruct (lookup_lt_is_Some_2 c i Hc) as [x Hx]. rewrite Hx. simpl. f_equal.
      apply wrapu_id. rewrite Forall_forall in Hf. specialize (Hf x (list_elem_of_lookup_2 _ _ _ Hx)).
      unfold fits, is_u in *. split; [lia|]. eapply Z.lt_le_trans; [apply Hf|]. apply Z.pow_le_mono_r; lia.
    + rewrite lookup_ge_None_2, lookup_app_r, lookup_replicate_2 by lia. done.
  - rewrite lookup_seq_ge, lookup_ge_None_2; [done| |lia]. rewrite length_app, length_replicate. lia.
Qed.

Lemma unpack_words bits ids :
  (0 < bits <= 16)%nat -> Forall (fits bits) ids ->
  exists pad, unpack_indices (words bits ids) bits = ids ++ replicate pad 0.
Proof.
  intros Hb. remember (length ids) as n eqn:En. revert ids En.
  induction n as [n IH] using lt_wf_ind. intros ids En Hf.
  assert (Hv : (0 < 64 / bits)%nat) by (apply Nat.div_str_pos; lia).
  destruct (decide (ids = [])) as [->|Hne]; [by exists 0%nat|].
  assert (0 < n)%nat by (subst n; destruct ids; simpl; [done|lia]).
  unfold words. rewrite chunks_cons by done. unfold unpack_indices. csimpl.
  rewrite entries_chunk by (done || (rewrite length_take; lia) || by apply Forall_take).
  destruct (IH (length (drop (64 / bits) ids))%nat) with (ids := drop (64 / bits) ids) as [pad Hpad];
    [rewrite length_drop; lia|done|by apply Forall_drop|].
  unfold words, unpack_indices in Hpad. rewrite Hpad.
  destruct (le_lt_dec n (64 / bits)) as [Hle|Hlt].
  - rewrite take_ge, drop_ge by lia. simpl. rewrite <- app_assoc, <- replicate_add. by eexists.
  - rewrite length_take, Nat.min_l, Nat.sub_diag by lia. simpl. rewrite app_nil_r, app_assoc, take_drop. by exists pad.
Qed.

Lemma pack_indices_words bits ids :
  is_pack_width bits = true -> Forall (fits bits) ids ->
  pack_indices_from_iter ids bits = Ok (words bits ids).
Proof.
  intros Hw Hf. pose proof (pack_width_spec bits Hw) as Hb. unfold pack_indices_from_iter. rewrite Hw. simpl.
  destruct (Nat.eqb_spec (length ids) 0) as [H0|H0]; [by destruct ids|].
  f_equal. apply (pack_loop_words bits ids []); done.
Qed.

(** For every supported width, packing indices that fit it and unpacking
    the words returns the indices (followed by the padding of the last word);
    the packed array has [ceil(n / (64 / bits))] words, each a [u64]. *)
Theorem pack_unpack_indices bits ids :
  is_pack_width bits = true -> Forall (fits bits) ids ->
  exists data, pack_indices_from_iter ids bits = Ok data /\
    length data = nat_div_ceil (length ids) (64 / bits) /\ Forall (is_u 64) data /\
    take (length ids) (unpack_indices data bits) = ids.
Proof.
  intros Hw Hf. pose proof (pack_width_spec bits Hw) as Hb. exists (words bits ids).
  rewrite pack_indices_words by done. split_and!; [done| |by apply words_range|].
  - unfold words. rewrite length_fmap, length_chunks; [done|]. apply Nat.div_str_pos. lia.
  - destruct (unpack_words bits ids Hb Hf) as [pad ->]. by rewrite take_app_length.
Qed.

Lemma pack_unpack_indices_witness :
  exists data, pack_indices_from_iter [1; 3; 0; 2] 2 = Ok data /\ data = [141] /\
    take 4 (unpack_indices data 2) = [1; 3; 0; 2].
Proof.
  destruct (pack_unpack_indices 2 [1; 3; 0; 2]) as (data & H1 & _ & _ & H2).
  - reflexivity.
  - repeat constructor; vm_compute; congruence.
  - exists data. split_and!; [exact H1| |exact H2]. vm_compute in H1. congruence.
Defined.

(** A palette of [n] entries gets a width that holds every index of the
    palette, from the supported widths, and the smallest such. *)
Theorem palette_width_minimal n :
  Z.of_nat n <= 65536 ->
  match bits_for_palette_len n with
  | None => (n <= 1)%nat
  | Some bits => is_pack_width bits = true /\ (1 < n)%nat /\
      (forall i, (i < n)%nat -> fits bits (Z.of_nat i)) /\
      (forall b, is_pack_width b = true -> (forall i, (i < n)%nat -> fits b (Z.of_nat i)) -> (bits <= b)%nat)
  end.
Proof.
  intros Hn. unfold bits_for_palette_len.
  assert (Hmin : forall bits lo, (lo < n)%nat ->
    (forall b, is_pack_width b = true -> (b < bits)%nat -> 2 ^ Z.of_nat b <= Z.of_nat lo) ->
    forall b, is_pack_width b = true -> (forall i, (i < n)%nat -> fits b (Z.of_nat i)) -> (bits <= b)%nat).
  { intros bits lo Hlo Hb b Hw Hfit. destruct (le_lt_dec bits b); [done|].
    specialize (Hb b Hw ltac:(done)). specialize (Hfit lo Hlo). unfold fits, is_u in Hfit. lia. }
  assert (Hpow : forall bits lo, (lo < n)%nat -> existsb (fun b => (b <? bits)%nat && (Z.of_nat lo <? 2 ^ Z.of_nat b)) [1; 2; 4; 8; 16]%nat = false ->
    forall b, is_pack_width b = true -> (b < bits)%nat -> 2 ^ Z.of_nat b <= Z.of_nat lo).
  { intros bits lo Hlo He b Hw Hb. unfold is_pack_width in Hw. apply existsb_exists in Hw as (x & Hx & ->%Nat.eqb_eq).
    destruct (Z.le_gt_cases (2 ^ Z.of_nat x) (Z.of_nat lo)); [done|].
    assert (existsb (fun b => (b <? bits)%nat && (Z.of_nat lo <? 2 ^ Z.of_nat b)) [1; 2; 4; 8; 16]%nat = true); [|congruence].
    apply existsb_exists. exists x. split; [done|]. apply andb_true_iff. split; [by apply Nat.ltb_lt|by apply Z.ltb_lt]. }
  repeat match goal with |- context [(?a <=? ?b)%nat] => destruct (Nat.leb_spec a b) end; try lia;
    (split; [done|split; [lia|split;
      [intros i Hi; unfold fits, is_u; change (Z.of_nat 1) with 1; cbn; lia|]]]).
  - apply (Hmin _ 1%nat), Hpow; [lia..|done].
  - apply (Hmin _ 2%nat), Hpow; [lia..|done].
  - apply (Hmin _ 4%nat), Hpow; [lia..|done].
  - apply (Hmin _ 16%nat), Hpow; [lia..|done].
  - apply (Hmin _ 256%nat), Hpow; [lia..|done].
Qed.

Lemma palette_width_minimal_witness :
  Z.of_nat 17 <= 65536 /\ match bits_for_palette_len 17 with Some b => b = 8%nat | None => False end /\
  match bits_for_palette_len 17 with
  | None => (17 <= 1)%nat
  | Some bits => is_pack_width bits = true /\ (1 < 17)%nat /\
      (forall i, (i < 17)%nat -> fits bits (Z.of_nat i)) /\
      (forall b, is_pack_width b = true -> (forall i, (i < 17)%nat -> fits b (Z.of_nat i)) -> (bits <= b)%nat)
  end.
Proof.
  assert (H : Z.of_nat 17 <= 65536) by (vm_compute; congruence).
  split; [exact H|]. split; [reflexivity|]. exact (palette_width_minimal 17 H).
Defined.
