(* ===== verification/PalettedContainer.v ===== *)
(** * Paletted containers

    Models [steel-core/src/chunk/paletted_container.rs]: the block-state and
    biome storage of a chunk section, in its three representations
    (homogeneous, palette with counts, raw cube while building).

    The cube [[[V; DIM]; DIM]; DIM] is contiguous, so it is the list of its
    cells in y, z, x order; [cube[y][z][x]] is the cell at
    [(y * DIM + z) * DIM + x].  Indices are [nat] ([usize]); an out-of-range
    index panics. *)

From Stdlib Require Import Lia ZArith.
From stdpp Require Import prelude list.
From S2P Require Import Prelude Io.

Section Container.
Context {V : Type} `{!EqDecision V} (DIM : nat).

Definition VOLUME : nat := (DIM * DIM * DIM)%nat.

Record HeterogeneousPalette := mk_het { cube : list V; palette : list (V * Z) }.

Inductive PalettedContainer :=
| Homogeneous (value : V)
| Heterogeneous (data : HeterogeneousPalette)
| Building (raw : list V).

(** ** Cells *)

Definition flat_index (x y z : nat) : nat := ((y * DIM + z) * DIM + x)%nat.

Definition in_cube (x y z : nat) : bool := ((x <? DIM) && (y <? DIM) && (z <? DIM))%nat.

Definition or_panic {A} (o : option A) : outcome io_error A :=
  match o with Some a => Ok a | None => Panic end.

Definition cube_get (c : list V) (x y z : nat) : outcome io_error V :=
  if in_cube x y z then or_panic (c !! flat_index x y z) else Panic.

Definition cube_get_at (c : list V) (index : nat) : outcome io_error V :=
  cube_get c (index mod DIM)%nat (index / (DIM * DIM))%nat (index / DIM mod DIM)%nat.

Definition het_get (h : HeterogeneousPalette) := cube_get (cube h).
Definition het_get_at_index (h : HeterogeneousPalette) (index : nat) : outcome io_error V :=
  if (index <? VOLUME)%nat then cube_get_at (cube h) index else Panic.

(** ** Palette counts *)

(** Add [n] cells holding [v]: the first entry of [v], or a new last one.
    Counts are [u16]. *)
Fixpoint palette_add (v : V) (n : Z) (p : list (V * Z)) : list (V * Z) :=
  match p with
  | [] => [(v, n)]
  | (w, c) :: t => if decide (w = v) then (w, wrapu 16 (c + n)) :: t else (w, c) :: palette_add v n t
  end.

(** Remove one cell holding [v]. *)
Definition palette_drop (v : V) (p : list (V * Z)) : list (V * Z) :=
  match list_find (fun e => e.1 = v) p with
  | Some (index, (w, count)) =>
      let count := wrapu 16 (count - 1) in
      if count =? 0 then swap_remove index (<[index := (w, count)]> p) else <[index := (w, count)]> p
  | None => p
  end.

Definition het_set (h : HeterogeneousPalette) (x y z : nat) (value : V) :
    outcome io_error (V * HeterogeneousPalette) :=
  let? old_value := cube_get (cube h) x y z in
  let p := palette_add value 1 (palette h) in
  let p := palette_drop old_value p in
  Ok (old_value, mk_het (<[flat_index x y z := value]> (cube h)) p).

(** The inner loop of [from_cube]: the run of cells equal to [v]. *)
Fixpoint run_end (v : V) (l : list V) : nat :=
  match l with
  | x :: t => if decide (x = v) then S (run_end v t) else O
  | [] => O
  end.

Fixpoint count_runs (fuel : nat) (flat : list V) (p : list (V * Z)) : list (V * Z) :=
  match fuel, flat with
  | S f, v :: t =>
      let run_len := S (run_end v t) in
      count_runs f (drop run_len flat) (palette_add v (wrapu 16 (Z.of_nat run_len)) p)
  | _, _ => p
  end.

Definition from_cube (c : list V) : PalettedContainer :=
  let p := count_runs (length c) c [] in
  match p with
  | [(v, _)] => Homogeneous v
  | _ => Heterogeneous (mk_het c p)
  end.

(** ** The container *)

Definition get (s : PalettedContainer) (x y z : nat) : outcome io_error V :=
  match s with
  | Homogeneous value => Ok value
  | Heterogeneous data => het_get data x y z
  | Building raw => cube_get raw x y z
  end.

Definition get_at_index (s : PalettedContainer) (index : nat) : outcome io_error V :=
  if negb (index <? VOLUME)%nat then Panic
  else
    match s with
    | Homogeneous value => Ok value
    | Heterogeneous data => het_get_at_index data index
    | Building raw => cube_get_at raw index
    end.

(** The values of the column at [(x, z)], bottom to top. *)
Fixpoint column_loop (c : list V) (x z y n : nat) : outcome io_error (list V) :=
  match n with
  | O => Ok []
  | S n' =>
      let? v := cube_get c x y z in
      let? rest := column_loop c x z (S y) n' in
      Ok (v :: rest)
  end.

Definition copy_column_into (s : PalettedContainer) (x z : nat) (out : list V) :
    outcome io_error (list V) :=
  if negb ((x <? DIM) && (z <? DIM) && (DIM <=? length out))%nat then Panic
  else
    let? col := match s with
                | Homogeneous value => Ok (replicate DIM value)
                | Heterogeneous data => column_loop (cube data) x z 0 DIM
                | Building raw => column_loop raw x z 0 DIM
                end in
    Ok (col ++ drop DIM out).

Definition maybe_has (s : PalettedContainer) (predicate : V -> bool) : bool :=
  match s with
  | Homogeneous value => predicate value
  | Heterogeneous data => existsb (fun e => predicate e.1) (palette data)
  | Building raw => existsb predicate raw
  end.

Definition collect_values (s : PalettedContainer) : list V :=
  match s with
  | Homogeneous value => replicate VOLUME value
  | Heterogeneous data => cube data
  | Building raw => raw
  end.

Definition enter_building_mode (s : PalettedContainer) : PalettedContainer :=
  match s with
  | Building raw => Building raw
  | Homogeneous value => Building (replicate VOLUME value)
  | Heterogeneous data => Building (cube data)
  end.

Definition finalize_building (s : PalettedContainer) : PalettedContainer :=
  match s with
  | Building raw => from_cube raw
  | _ => s
  end.

Definition set (s : PalettedContainer) (x y z : nat) (value : V) :
    outcome io_error (V * PalettedContainer) :=
  if negb (in_cube x y z) then Panic
  else
    match s with
    | Homogeneous original =>
        if decide (value <> original) then
          Ok (original, from_cube (<[flat_index x y z := value]> (replicate VOLUME original)))
        else Ok (original, s)
    | Heterogeneous data =>
        let? '(original, data) := het_set data x y z value in
        Ok (original, match palette data with
                      | [(v, _)] => Homogeneous v
                      | _ => Heterogeneous data
                      end)
    | Building raw =>
        let? old := cube_get raw x y z in
        Ok (old, Building (<[flat_index x y z := value]> raw))
    end.

(** ** Invariants *)

Definition count (v : V) (l : list V) : Z := Z.of_nat (length (filter (fun w => w = v) l)).

(** Every value of the cube has exactly one entry, with its count. *)
Definition palette_ok (l : list V) (p : list (V * Z)) : Prop :=
  NoDup p.*1 /\ forall v c, (v, c) ∈ p <-> c = count v l /\ 0 < c.

Definition wf (s : PalettedContainer) : Prop :=
  match s with
  | Homogeneous _ => True
  | Heterogeneous data =>
      length (cube data) = VOLUME /\ palette_ok (cube data) (palette data) /\ (2 <= length (palette data))%nat
  | Building raw => length raw = VOLUME
  end.
End Container.
Arguments Homogeneous {V} value.
Arguments Heterogeneous {V} data.
Arguments Building {V} raw.
Arguments mk_het {V} cube palette.
Arguments PalettedContainer V : clear implicits.

(** ** Palette lemmas *)

Section Palette.
Context {V : Type} `{!EqDecision V}.
Implicit Types (p : list (V * Z)) (l : list V).

Lemma delete_insert_here {A} i (x : A) (l : list A) : delete i (<[i := x]> l) = delete i l.
Proof. revert i. induction l as [|y l IH]; intros [|i]; simpl; [done..|]. by f_equal. Qed.

Lemma palette_key p v c : (v, c) ∈ p -> v ∈ p.*1.
Proof. intros H. by apply (list_elem_of_fmap_2 fst p (v, c)). Qed.

Lemma palette_fun p v c c' : NoDup p.*1 -> (v, c) ∈ p -> (v, c') ∈ p -> c = c'.
Proof. intros Hn H H'. by pose proof (NoDup_fmap_inj fst p (v, c) (v, c') Hn H H' eq_refl) as [= ->]. Qed.

Lemma palette_add_keys v n p w : w ∈ (palette_add v n p).*1 <-> w = v \/ w ∈ p.*1.
Proof. induction p as [|[u c] p IH]; simpl; [set_solver|]. case_decide; csimpl; set_solver. Qed.

Lemma palette_add_nodup v n p : NoDup p.*1 -> NoDup (palette_add v n p).*1.
Proof.
  induction p as [|[u c] p IH]; simpl; [intros _; apply NoDup_singleton|].
  intros [Hu Hn]%NoDup_cons. case_decide; csimpl; apply NoDup_cons; split; auto.
  rewrite palette_add_keys. naive_solver.
Qed.

Lemma palette_add_elem v n p w c :
  NoDup p.*1 ->
  (w, c) ∈ palette_add v n p <->
  (w <> v /\ (w, c) ∈ p) \/
  (w = v /\ ((exists c0, (v, c0) ∈ p /\ c = wrapu 16 (c0 + n)) \/ (v ∉ p.*1 /\ c = n))).
Proof.
  induction p as [|[u cu] p IH]; simpl.
  - intros _. rewrite list_elem_of_singleton. split.
    + intros [= -> ->]. right. split; [done|]. right. split; [apply not_elem_of_nil|done].
    + intros [[_ H]|[-> [(c0 & H & _)|[_ ->]]]]; [by apply elem_of_nil in H..|done].
  - intros [Hu Hn]%NoDup_cons. case_decide as E.
    + subst u. rewrite !elem_of_cons. split.
      * intros [[= -> ->]|Hin].
        -- right. split; [done|]. left. exists cu. split; [by left|done].
        -- left. split; [|by right]. intros ->. apply Hu. by eapply palette_key.
      * intros [[Hne [[= -> ->]|Hin]]|[-> [(c0 & Hin & ->)|[Hin _]]]].
        -- done.
        -- by right.
        -- left. apply elem_of_cons in Hin as [[= ->]|Hin]; [done|]. apply palette_key in Hin. done.
        -- destruct Hin. by left.
    + rewrite elem_of_cons, (IH Hn), elem_of_cons. setoid_rewrite elem_of_cons. split.
      * intros [[= -> ->]|[[Hne Hin]|[-> [(c0 & Hin & ->)|[Hin ->]]]]]; [left; auto..|right|right].
        -- split; [done|]. left. exists c0. auto.
        -- split; [done|]. right. split; [|done]. csimpl. set_solver.
      * intros [[Hne [[= -> ->]|Hin]]|[-> [(c0 & [[= -> ->]|Hin] & ->)|[Hin ->]]]]; [by left|auto|done|..].
        -- right. right. split; [done|]. left. by exists c0.
        -- right. right. split; [done|]. right. split; [|done]. csimpl in Hin. set_solver.
Qed.

Lemma palette_drop_spec v p c :
  NoDup p.*1 -> (v, c) ∈ p -> 0 < c < 2 ^ 16 ->
  NoDup (palette_drop v p).*1 /\
  forall w d, (w, d) ∈ palette_drop v p <-> (w <> v /\ (w, d) ∈ p) \/ (w = v /\ d = c - 1 /\ d <> 0).
Proof.
  intros Hn Hin Hc. unfold palette_drop.
  destruct (list_find (fun e => e.1 = v) p) as [[i [w cw]]|] eqn:Ef.
  2:{ exfalso. eapply list_find_None in Ef. rewrite Forall_forall in Ef. by apply (Ef _ Hin). }
  apply list_find_Some in Ef as (Hi & Hw & _). simpl in Hw. subst w.
  assert (cw = c) as -> by (eapply palette_fun; [done|by eapply list_elem_of_lookup_2|done]).
  rewrite wrapu_id by (unfold is_u; lia).
  assert (Hp : p ≡ₚ (v, c) :: delete i p) by (by apply delete_Permutation).
  assert (Hp' : <[i := (v, c - 1)]> p ≡ₚ (v, c - 1) :: delete i p).
  { rewrite (delete_Permutation (<[i := (v, c - 1)]> p) i (v, c - 1)); [|apply list_lookup_insert_eq; by eapply lookup_lt_Some].
    by rewrite delete_insert_here. }
  set (q := delete i p) in *. clearbody q.
  assert (Hrest : forall w d, (w, d) ∈ q <-> w <> v /\ (w, d) ∈ p).
  { intros w d. rewrite Hp in Hn |- *. csimpl in Hn. apply NoDup_cons in Hn as [Hv Hn].
    rewrite elem_of_cons. split; [intros H; split; [|by right]|].
    - intros ->. apply Hv. by eapply palette_key.
    - intros [Hne [[= -> ->]|H]]; done. }
  rewrite Hp in Hn. csimpl in Hn. apply NoDup_cons in Hn as [Hv Hn].
  destruct (Z.eqb_spec (c - 1) 0) as [E|E].
  - assert (Hs : swap_remove i (<[i := (v, c - 1)]> p) ≡ₚ q).
    { apply (Permutation_cons_inv (a := (v, c - 1))). rewrite <- Hp'. symmetry.
      apply swap_remove_perm, list_lookup_insert_eq. by eapply lookup_lt_Some. }
    rewrite Hs. split; [done|]. intros w d. rewrite Hs, Hrest. naive_solver.
  - rewrite Hp'. csimpl. split; [by apply NoDup_cons|]. intros w d. rewrite Hp', elem_of_cons, Hrest.
    split; [intros [[= -> ->]|H]; [right|left]; auto|]. intros [H|(-> & -> & _)]; [by right|by left].
Qed.
End Palette.

(** ** Counts *)

Section Counts.
Context {V : Type} `{!EqDecision V}.
Implicit Types (p : list (V * Z)) (l : list V).

Lemma count_app v l l' : count v (l ++ l') = count v l + count v l'.
Proof. unfold count. rewrite filter_app, length_app. lia. Qed.

Lemma count_cons (v x : V) l : count v (x :: l) = (if decide (x = v) then 1 else 0) + count v l.
Proof. unfold count. rewrite filter_cons. case_decide; simpl; lia. Qed.

Lemma count_nonneg v l : 0 <= count v l.
Proof. unfold count. lia. Qed.

Lemma count_length v l : count v l <= Z.of_nat (length l).
Proof. unfold count. pose proof (length_filter (fun w => w = v) l). lia. Qed.

Lemma count_replicate (v w : V) n : count v (replicate n w) = if decide (w = v) then Z.of_nat n else 0.
Proof. induction n as [|n IH]; simpl; [by case_decide|]. rewrite count_cons, IH. case_decide; lia. Qed.

Lemma count_insert (v : V) l i x old :
  l !! i = Some old ->
  count v (<[i := x]> l) =
  count v l - (if decide (old = v) then 1 else 0) + (if decide (x = v) then 1 else 0).
Proof.
  intros Hi. pose proof (lookup_lt_Some _ _ _ Hi). rewrite insert_take_drop by done.
  rewrite <- (take_drop_middle l i old Hi) at 3. rewrite !count_app, !count_cons. lia.
Qed.

Lemma count_pos v l : 0 < count v l <-> v ∈ l.
Proof.
  induction l as [|x l IH]; [rewrite elem_of_nil; unfold count; simpl; lia|].
  rewrite count_cons, elem_of_cons. pose proof (count_nonneg v l). case_decide; naive_solver lia.
Qed.

Lemma palette_ok_nil : palette_ok (V := V) [] [].
Proof. split; [constructor|]. intros v c. unfold count. simpl. rewrite elem_of_nil. lia. Qed.

Lemma palette_ok_key l p v : palette_ok l p -> v ∈ p.*1 <-> v ∈ l.
Proof.
  intros [_ Hp]. rewrite <- (count_pos v l). split.
  - intros ([w c] & -> & Hin)%list_elem_of_fmap. apply Hp in Hin as [-> H]. done.
  - intros H. apply (palette_key p v (count v l)). by apply Hp.
Qed.

Lemma palette_ok_add l p v n :
  palette_ok l p -> (0 < n)%nat -> Z.of_nat (length l + n) < 2 ^ 16 ->
  palette_ok (l ++ replicate n v) (palette_add v (wrapu 16 (Z.of_nat n)) p).
Proof.
  intros Hok Hn Hlen. pose proof Hok as [Hnd Hp]. split; [by apply palette_add_nodup|].
  intros w c. rewrite palette_add_elem, count_app, count_replicate by done.
  rewrite (wrapu_id 16 (Z.of_nat n)) by (unfold is_u; lia).
  assert (Hw : forall c0, (v, c0) ∈ p -> wrapu 16 (c0 + Z.of_nat n) = c0 + Z.of_nat n).
  { intros c0 [-> _]%Hp. pose proof (count_length v l). pose proof (count_nonneg v l).
    apply wrapu_id. unfold is_u. lia. }
  case_decide as E.
  - subst w. split.
    + intros [[? _]|[_ [(c0 & Hin & ->)|[Hin ->]]]]; [done| |].
      * rewrite Hw by done. apply Hp in Hin as [-> ?]. lia.
      * rewrite (palette_ok_key l) in Hin by done. rewrite <- count_pos in Hin.
        pose proof (count_nonneg v l). lia.
    + intros [-> Hpos]. right. split; [done|]. destruct (decide (0 < count v l)) as [H0|H0].
      * left. exists (count v l). assert ((v, count v l) ∈ p) by by apply Hp. by rewrite Hw.
      * right. rewrite (palette_ok_key l), <- count_pos by done. pose proof (count_nonneg v l). split; lia.
  - rewrite Hp, Z.add_0_r. naive_solver.
Qed.

Lemma palette_ok_set l p i old v :
  palette_ok l p -> l !! i = Some old -> Z.of_nat (length l) + 1 < 2 ^ 16 ->
  palette_ok (<[i := v]> l) (palette_drop old (palette_add v 1 p)).
Proof.
  intros Hok Hi Hlen.
  pose proof (palette_ok_add l p v 1 Hok ltac:(lia) ltac:(lia)) as [Hn Hp].
  change (wrapu 16 (Z.of_nat 1)) with 1 in *. set (p1 := palette_add v 1 p) in *. simpl in Hp.
  assert (Hold : 0 < count old (l ++ [v])).
  { apply count_pos, elem_of_app. left. by eapply list_elem_of_lookup_2. }
  pose proof (count_length old (l ++ [v])) as Hcl. rewrite length_app in Hcl. simpl in Hcl.
  destruct (palette_drop_spec old p1 (count old (l ++ [v])) Hn) as [Hn' Hd];
    [by apply Hp|lia|]. split; [done|].
  intros w c. rewrite Hd, Hp, (count_insert _ _ _ _ old Hi), count_app, count_cons.
  rewrite count_app, count_cons in *. change (count w []) with 0. change (count old []) with 0 in *.
  pose proof (count_nonneg w l). repeat case_decide; naive_solver lia.
Qed.
End Counts.

(** ** The container as an array *)

Section Refinement.
Context {V : Type} `{!EqDecision V} (DIM : nat).
Hypothesis Hdim : (0 < DIM)%nat.
Hypothesis Hvol : Z.of_nat (VOLUME DIM) + 1 < 2 ^ 16.
Notation idx := (flat_index DIM).

Lemma run_end_take (v : V) l : (run_end v l <= length l)%nat /\ take (run_end v l) l = replicate (run_end v l) v.
Proof.
  induction l as [|x l [IH1 IH2]]; simpl; [done|]. case_decide as E; simpl; [|split; [lia|done]].
  subst x. split; [lia|]. by rewrite IH2.
Qed.

Lemma count_runs_ok fuel (flat pre : list V) p :
  palette_ok pre p -> (length flat <= fuel)%nat -> Z.of_nat (length pre + length flat) < 2 ^ 16 ->
  palette_ok (pre ++ flat) (count_runs fuel flat p).
Proof.
  revert flat pre p. induction fuel as [|f IH]; intros flat pre p Hok Hf Hl.
  { destruct flat; [by rewrite app_nil_r|simpl in Hf; lia]. }
  destruct flat as [|v t]; simpl; [by rewrite app_nil_r|].
  destruct (run_end_take v t) as [Hle Htake]. simpl in Hf, Hl.
  replace (pre ++ v :: t) with ((pre ++ replicate (S (run_end v t)) v) ++ drop (run_end v t) t).
  - apply IH.
    + apply palette_ok_add; [done|lia|lia].
    + rewrite length_drop. lia.
    + rewrite length_app, length_replicate, length_drop. lia.
  - rewrite <- app_assoc. f_equal. simpl. f_equal. rewrite <- Htake. apply take_drop.
Qed.

Lemma palette_ok_single l (v : V) c : palette_ok l [(v, c)] -> l = replicate (length l) v.
Proof.
  intros Hok. apply list_eq. intros i. destruct (l !! i) as [x|] eqn:E.
  - rewrite lookup_replicate_2 by by eapply lookup_lt_Some. f_equal.
    apply list_elem_of_lookup_2, (palette_ok_key l _ x Hok) in E. csimpl in E. by apply list_elem_of_singleton in E.
  - symmetry. apply lookup_ge_None_2. rewrite length_replicate. by apply lookup_ge_None.
Qed.

Lemma palette_ok_nonempty l p : palette_ok (V := V) l p -> (0 < length l)%nat -> p <> [].
Proof.
  intros [_ Hp] Hl ->. destruct l as [|x l]; [simpl in Hl; lia|].
  apply (not_elem_of_nil (x, count x (x :: l))), Hp. split; [done|]. apply count_pos. by left.
Qed.

(** A representation chosen from an exact palette. *)
Lemma from_palette_ok l p :
  palette_ok (V := V) l p -> length l = VOLUME DIM ->
  let s := match p with [(v, _)] => Homogeneous v | _ => Heterogeneous (mk_het l p) end in
  wf DIM s /\ collect_values DIM s = l.
Proof.
  intros Hok Hl. pose proof (palette_ok_nonempty l p Hok) as Hne.
  assert (0 < length l)%nat by (rewrite Hl; unfold VOLUME; lia).
  destruct p as [|[v c] [|e p]]; [by destruct Hne| |]; simpl.
  - split; [done|]. rewrite <- Hl. symmetry. by apply palette_ok_single with c.
  - split; [|done]. split_and!; [done..|lia].
Qed.

Lemma from_cube_ok l :
  length l = VOLUME DIM -> wf DIM (from_cube (V := V) l) /\ collect_values DIM (from_cube l) = l.
Proof.
  intros Hl. unfold from_cube. apply (from_palette_ok l); [|done].
  apply (count_runs_ok _ l []); [apply palette_ok_nil|lia|simpl; lia].
Qed.

Lemma values_length (s : PalettedContainer V) : wf DIM s -> length (collect_values DIM s) = VOLUME DIM.
Proof. destruct s; simpl; [intros _; apply length_replicate|naive_solver|done]. Qed.

Lemma in_cube_spec x y z : in_cube DIM x y z = true <-> (x < DIM /\ y < DIM /\ z < DIM)%nat.
Proof. unfold in_cube. rewrite !andb_true_iff, !Nat.ltb_lt. tauto. Qed.

Lemma flat_index_range x y z : in_cube DIM x y z = true -> (idx x y z < VOLUME DIM)%nat.
Proof. rewrite in_cube_spec. unfold flat_index, VOLUME. nia. Qed.

Lemma flat_index_of i :
  (i < VOLUME DIM)%nat ->
  in_cube DIM (i mod DIM) (i / (DIM * DIM)) (i / DIM mod DIM) = true /\
  idx (i mod DIM) (i / (DIM * DIM)) (i / DIM mod DIM) = i.
Proof.
  intros Hi. unfold VOLUME in Hi. rewrite in_cube_spec. unfold flat_index.
  pose proof (Nat.div_mod_eq i DIM). pose proof (Nat.div_mod_eq (i / DIM) DIM).
  pose proof (Nat.mod_upper_bound i DIM ltac:(lia)). pose proof (Nat.mod_upper_bound (i / DIM) DIM ltac:(lia)).
  rewrite <- Nat.Div0.div_div in *. split; [split_and!; [done| |done]|nia].
  apply Nat.Div0.div_lt_upper_bound, Nat.Div0.div_lt_upper_bound. lia.
Qed.

Lemma cube_get_ok (l : list V) x y z :
  length l = VOLUME DIM -> in_cube DIM x y z = true ->
  exists v, l !! idx x y z = Some v /\ cube_get DIM l x y z = Ok v.
Proof.
  intros Hl Hin. unfold cube_get. rewrite Hin.
  destruct (lookup_lt_is_Some_2 l (idx x y z)) as [v Hv]; [rewrite Hl; by apply flat_index_range|].
  exists v. by rewrite Hv.
Qed.

Lemma get_ok (s : PalettedContainer V) x y z :
  wf DIM s -> in_cube DIM x y z = true ->
  exists v, collect_values DIM s !! idx x y z = Some v /\ get DIM s x y z = Ok v.
Proof.
  intros Hw Hin. pose proof (values_length s Hw). destruct s as [v|h|raw]; simpl in *.
  - exists v. rewrite lookup_replicate_2 by by apply flat_index_range. done.
  - by apply cube_get_ok.
  - by apply cube_get_ok.
Qed.

Lemma get_at_index_ok (s : PalettedContainer V) i :
  wf DIM s -> (i < VOLUME DIM)%nat ->
  exists v, collect_values DIM s !! i = Some v /\ get_at_index DIM s i = Ok v.
Proof.
  intros Hw Hi. destruct (flat_index_of i Hi) as [Hin E].
  destruct (get_ok s _ _ _ Hw Hin) as (v & Hv & Hg). rewrite E in Hv. exists v. split; [done|].
  unfold get_at_index. rewrite (proj2 (Nat.ltb_lt i (VOLUME DIM))) by done. simpl.
  destruct s as [w|h|raw]; simpl in *; [done| |done].
  unfold het_get_at_index. rewrite (proj2 (Nat.ltb_lt i (VOLUME DIM))) by done. done.
Qed.

Lemma set_ok (s : PalettedContainer V) x y z v :
  wf DIM s -> in_cube DIM x y z = true ->
  exists old s', set DIM s x y z v = Ok (old, s') /\ wf DIM s' /\
    collect_values DIM s !! idx x y z = Some old /\
    collect_values DIM s' = <[idx x y z := v]> (collect_values DIM s).
Proof.
  intros Hw Hin. pose proof (flat_index_range x y z Hin) as Hi. pose proof (values_length s Hw) as Hlen.
  unfold set. rewrite Hin. simpl. destruct s as [o|h|raw]; simpl in *.
  - exists o. case_decide as E.
    + eexists. split; [done|].
      destruct (from_cube_ok (<[idx x y z := v]> (replicate (VOLUME DIM) o))) as [H1 H2];
        [by rewrite length_insert|]. rewrite H2, lookup_replicate_2 by done. done.
    + exists (Homogeneous o). assert (v = o) as -> by (destruct (decide (v = o)); [done|by destruct E]).
      simpl. rewrite lookup_replicate_2, insert_replicate by done. done.
  - destruct Hw as (Hl & Hok & _). destruct (cube_get_ok (cube h) x y z Hl Hin) as (old & Hold & Hg).
    unfold het_set. rewrite Hg. simpl. exists old. eexists. split; [done|].
    pose proof (palette_ok_set _ _ _ old v Hok Hold ltac:(rewrite Hl; lia)) as Hok'.
    destruct (from_palette_ok (<[idx x y z := v]> (cube h)) _ Hok') as [H1 H2]; [by rewrite length_insert|].
    done.
  - destruct (cube_get_ok raw x y z Hw Hin) as (old & Hold & Hg). rewrite Hg. simpl.
    exists old, (Building (<[idx x y z := v]> raw)). simpl. by rewrite length_insert.
Qed.

Lemma column_loop_ok (l : list V) x z y n :
  length l = VOLUME DIM -> (x < DIM)%nat -> (z < DIM)%nat -> (y + n <= DIM)%nat ->
  exists col, column_loop DIM l x z y n = Ok col /\
    Some <$> col = (fun j => l !! idx x j z) <$> seq y n.
Proof.
  intros Hl Hx Hz. revert y. induction n as [|n IH]; intros y Hy; simpl; [by exists []|].
  destruct (cube_get_ok l x y z Hl) as (v & Hv & ->); [apply in_cube_spec; lia|]. simpl.
  destruct (IH (S y)) as (col & -> & Hcol); [lia|]. exists (v :: col). split; [done|]. csimpl. by rewrite Hv, Hcol.
Qed.
End Refinement.

(** ** Simulation by a plain array *)

Inductive container_op (V : Type) :=
| OpGet (x y z : nat)
| OpGetAt (index : nat)
| OpSet (x y z : nat) (value : V)
| OpColumn (x z : nat) (out : list V)
| OpMaybeHas (predicate : V -> bool)
| OpEnterBuilding
| OpFinalizeBuilding.
Arguments OpGet {V} x y z.
Arguments OpGetAt {V} index.
Arguments OpSet {V} x y z value.
Arguments OpColumn {V} x z out.
Arguments OpMaybeHas {V} predicate.
Arguments OpEnterBuilding {V}.
Arguments OpFinalizeBuilding {V}.

Inductive answer (V : Type) := AValue (v : V) | AColumn (l : list V) | ABool (b : bool) | ADone.
Arguments AValue {V} v.
Arguments AColumn {V} l.
Arguments ABool {V} b.
Arguments ADone {V}.

Section Simulation.
Context {V : Type} `{!EqDecision V} (DIM : nat).
Notation idx := (flat_index DIM).

Definition op_in_range (op : container_op V) : bool :=
  match op with
  | OpGet x y z | OpSet x y z _ => in_cube DIM x y z
  | OpGetAt i => (i <? VOLUME DIM)%nat
  | OpColumn x z out => ((x <? DIM) && (z <? DIM) && (DIM <=? length out))%nat
  | _ => true
  end.

Definition run_op (s : PalettedContainer V) (op : container_op V) :
    outcome io_error (answer V * PalettedContainer V) :=
  match op with
  | OpGet x y z => let? v := get DIM s x y z in Ok (AValue v, s)
  | OpGetAt i => let? v := get_at_index DIM s i in Ok (AValue v, s)
  | OpSet x y z v => let? '(old, s) := set DIM s x y z v in Ok (AValue old, s)
  | OpColumn x z out => let? l := copy_column_into DIM s x z out in Ok (AColumn l, s)
  | OpMaybeHas f => Ok (ABool (maybe_has s f), s)
  | OpEnterBuilding => Ok (ADone, enter_building_mode DIM s)
  | OpFinalizeBuilding => Ok (ADone, finalize_building s)
  end.

Fixpoint run_ops (s : PalettedContainer V) (ops : list (container_op V)) :
    outcome io_error (list (answer V) * PalettedContainer V) :=
  match ops with
  | [] => Ok ([], s)
  | op :: rest =>
      let? '(a, s) := run_op s op in
      let? '(l, s) := run_ops s rest in
      Ok (a :: l, s)
  end.

(** The same operations on the flat array of the cells. *)
Definition value_at (l : list V) (i : nat) : answer V :=
  match l !! i with Some v => AValue v | None => ADone end.

Definition array_op (l : list V) (op : container_op V) : answer V * list V :=
  match op with
  | OpGet x y z => (value_at l (idx x y z), l)
  | OpGetAt i => (value_at l i, l)
  | OpSet x y z v => (value_at l (idx x y z), <[idx x y z := v]> l)
  | OpColumn x z out => (AColumn (omap (fun y => l !! idx x y z) (seq 0 DIM) ++ drop DIM out), l)
  | OpMaybeHas f => (ABool (existsb f l), l)
  | OpEnterBuilding | OpFinalizeBuilding => (ADone, l)
  end.

Fixpoint array_ops (l : list V) (ops : list (container_op V)) : list (answer V) * list V :=
  match ops with
  | [] => ([], l)
  | op :: rest =>
      let '(a, l) := array_op l op in
      let '(as_, l) := array_ops l rest in (a :: as_, l)
  end.

Hypothesis Hdim : (0 < DIM)%nat.
Hypothesis Hvol : Z.of_nat (VOLUME DIM) + 1 < 2 ^ 16.

Lemma omap_total {A B} (f : A -> option B) (l : list A) (l' : list B) : Some <$> l' = f <$> l -> omap f l = l'.
Proof.
  revert l'. induction l as [|x l IH]; intros [|y l']; csimpl; try done. intros [= <- H]. by rewrite (IH l').
Qed.

Lemma existsb_ext_elem (f : V -> bool) (l l' : list V) :
  (forall v, v ∈ l <-> v ∈ l') -> existsb f l = existsb f l'.
Proof.
  intros H. apply eq_true_iff_eq. rewrite !existsb_exists.
  setoid_rewrite <- list_elem_of_In. naive_solver.
Qed.

Lemma maybe_has_ok (s : PalettedContainer V) f :
  wf DIM s -> maybe_has s f = existsb f (collect_values DIM s).
Proof.
  destruct s as [v|h|raw]; simpl; [intros _| |done].
  - transitivity (existsb f [v]); [simpl; by rewrite orb_false_r|]. apply existsb_ext_elem. intros w.
    rewrite list_elem_of_singleton, elem_of_replicate. split; [|naive_solver].
    intros ->. split; [done|]. unfold VOLUME. lia.
  - intros (_ & Hok & _). transitivity (existsb f (palette h).*1).
    + generalize (palette h) as p. clear. intros p. induction p as [|e p IH]; simpl; [done|]. by rewrite IH.
    + apply existsb_ext_elem. intros v. by apply palette_ok_key.
Qed.

Lemma copy_column_ok (s : PalettedContainer V) x z out :
  wf DIM s -> (x < DIM)%nat -> (z < DIM)%nat -> (DIM <= length out)%nat ->
  copy_column_into DIM s x z out =
  Ok (omap (fun y => collect_values DIM s !! idx x y z) (seq 0 DIM) ++ drop DIM out).
Proof.
  intros Hw Hx Hz Ho. unfold copy_column_into.
  rewrite (proj2 (Nat.ltb_lt x DIM)), (proj2 (Nat.ltb_lt z DIM)), (proj2 (Nat.leb_le DIM (length out))) by done.
  simpl. destruct s as [v|h|raw]; simpl in *.
  - rewrite (omap_total _ _ (replicate DIM v)); [done|]. apply list_eq. intros i.
    rewrite !list_lookup_fmap. destruct (decide (i < DIM)%nat).
    + rewrite lookup_replicate_2, lookup_seq_lt by done. simpl. rewrite lookup_replicate_2; [done|].
      apply flat_index_range; [done|]. apply in_cube_spec. lia.
    + rewrite lookup_seq_ge, (proj2 (lookup_ge_None (replicate DIM v) i)) by (rewrite ?length_replicate; lia). done.
  - destruct Hw as (Hl & _). destruct (column_loop_ok DIM Hdim (cube h) x z 0 DIM Hl Hx Hz ltac:(lia)) as (col & -> & Hc).
    simpl. by rewrite (omap_total _ _ col Hc).
  - destruct (column_loop_ok DIM Hdim raw x z 0 DIM Hw Hx Hz ltac:(lia)) as (col & -> & Hc).
    simpl. by rewrite (omap_total _ _ col Hc).
Qed.

Lemma run_op_ok s op :
  wf DIM s -> op_in_range op = true ->
  exists s', run_op s op = Ok ((array_op (collect_values DIM s) op).1, s') /\ wf DIM s' /\
    collect_values DIM s' = (array_op (collect_values DIM s) op).2.
Proof.
  intros Hw Hin. destruct op; simpl in *.
  - destruct (get_ok DIM Hdim s x y z Hw Hin) as (v & Hv & ->). unfold value_at. rewrite Hv. by exists s.
  - apply Nat.ltb_lt in Hin. destruct (get_at_index_ok DIM Hdim s index Hw Hin) as (v & Hv & ->).
    unfold value_at. rewrite Hv. by exists s.
  - destruct (set_ok DIM Hdim Hvol s x y z value Hw Hin) as (old & s' & -> & Hw' & Hv & Hs).
    unfold value_at. rewrite Hv. by exists s'.
  - rewrite !andb_true_iff, !Nat.ltb_lt, Nat.leb_le in Hin. destruct Hin as [[Hx Hz] Ho].
    rewrite copy_column_ok by done. by exists s.
  - rewrite (maybe_has_ok s) by done. by exists s.
  - exists (enter_building_mode DIM s). split; [done|]. destruct s; simpl in *; [by rewrite length_replicate|naive_solver|done].
  - exists (finalize_building s). split; [done|]. destruct s as [v|h|raw]; simpl in *; [done..|].
    by apply from_cube_ok.
Qed.
End Simulation.

(** C34: A container is a plain array of [DIM^3] cells.  From any well-formed
    representation (homogeneous, palette with counts, or building), every
    sequence of in-range operations, with representation changes anywhere,
    runs without panicking and gives the answers and final contents that the
    flat array gives, and ends in a well-formed representation. *)
Theorem container_refines_array {V : Type} `{!EqDecision V} DIM (s : PalettedContainer V) ops :
  (0 < DIM)%nat -> Z.of_nat (VOLUME DIM) + 1 < 2 ^ 16 ->
  wf DIM s -> forallb (op_in_range DIM) ops = true ->
  exists s', run_ops DIM s ops = Ok ((array_ops DIM (collect_values DIM s) ops).1, s') /\ wf DIM s' /\
    collect_values DIM s' = (array_ops DIM (collect_values DIM s) ops).2.
Proof.
  intros Hd Hv. revert s. induction ops as [|op ops IH]; intros s Hw Hin; simpl in *; [by exists s|].
  apply andb_true_iff in Hin as [H1 H2].
  destruct (run_op_ok DIM Hd Hv s op Hw H1) as (s1 & -> & Hw1 & E1). simpl.
  destruct (IH s1 Hw1 H2) as (s2 & -> & Hw2 & E2). simpl. rewrite E1 in *.
  destruct (array_op DIM (collect_values DIM s) op) as [a l1]. simpl in *.
  destruct (array_ops DIM l1 ops) as [al l2]. by exists s2.
Qed.

Lemma container_refines_array_witness :
  exists s', run_ops 2 (Homogeneous 7) [OpSet 1 0 1 9; OpGetAt 3; OpSet 1 0 1 7; OpMaybeHas (Z.eqb 9)] =
    Ok ([AValue 7; AValue 9; AValue 9; ABool false], s') /\ wf 2 s'.
Proof.
  destruct (container_refines_array 2 (Homogeneous 7)
    [OpSet 1 0 1 9; OpGetAt 3; OpSet 1 0 1 7; OpMaybeHas (Z.eqb 9)]) as (s' & Hr & Hw & _).
  - lia.
  - vm_compute. reflexivity.
  - exact I.
  - reflexivity.
  - exists s'. split; [|exact Hw]. rewrite Hr. vm_compute. reflexivity.
Defined.

(** ** Non-empty blocks of a [BlockPalette] *)

(** [count += c] over the palette entries that are not block state 0. *)
Fixpoint palette_blocks (p : list (Z * Z)) (count : Z) : Z :=
  match p with
  | [] => count
  | (v, c) :: rest => palette_blocks rest (if negb (v =? 0) then wrapu 16 (count + c) else count)
  end.

Fixpoint raw_blocks (raw : list Z) (count : Z) : Z :=
  match raw with
  | [] => count
  | v :: rest => raw_blocks rest (if negb (v =? 0) then wrapu 16 (count + 1) else count)
  end.

Definition non_empty_block_count (s : PalettedContainer Z) : Z :=
  match s with
  | Homogeneous v => if v =? 0 then 0 else wrapu 16 (Z.of_nat (VOLUME 16))
  | Heterogeneous data => palette_blocks (palette data) 0
  | Building raw => raw_blocks raw 0
  end.

(** The cells that hold a block and whose state is one of [ks]. *)
Definition blocks_in (ks l : list Z) : Z := Z.of_nat (length (filter (fun v => v <> 0 /\ v ∈ ks) l)).

Section Blocks.
Implicit Types (l : list Z) (p : list (Z * Z)).

Lemma blocks_in_cons k ks l :
  k ∉ ks -> blocks_in (k :: ks) l = (if k =? 0 then 0 else count k l) + blocks_in ks l.
Proof.
  intros Hk. unfold blocks_in, count. induction l as [|v l IH]; [by case_match|].
  rewrite !filter_cons. destruct (decide (v = k)) as [->|Hv].
  - rewrite (decide_False (P := k <> 0 /\ k ∈ ks)) by naive_solver.
    destruct (Z.eqb_spec k 0) as [->|Hk0].
    + rewrite decide_False by naive_solver. exact IH.
    + rewrite decide_True by (split; [done|by left]). simpl. lia.
  - destruct (decide (v <> 0 /\ v ∈ ks)) as [[H1 H2]|Hn].
    + rewrite decide_True by (split; [done|by right]). simpl. lia.
    + rewrite decide_False; [exact IH|]. intros [H1 H2]. apply elem_of_cons in H2 as [->|H2]; naive_solver.
Qed.

Lemma blocks_in_nonneg ks l : 0 <= blocks_in ks l <= Z.of_nat (length l).
Proof. unfold blocks_in. pose proof (length_filter (fun v => v <> 0 /\ v ∈ ks) l). lia. Qed.

Lemma palette_blocks_ok l p acc :
  NoDup p.*1 -> (forall v c, (v, c) ∈ p -> c = count v l) -> 0 <= acc ->
  acc + blocks_in p.*1 l < 2 ^ 16 -> palette_blocks p acc = acc + blocks_in p.*1 l.
Proof.
  revert acc. induction p as [|[k c] p IH]; intros acc Hn Hc Ha Hb; csimpl in *.
  { unfold blocks_in. rewrite list_filter_none; [simpl; lia|]. intros v _ [_ Hv]. by apply elem_of_nil in Hv. }
  apply NoDup_cons in Hn as [Hk Hn]. rewrite blocks_in_cons in * by done.
  pose proof (blocks_in_nonneg p.*1 l). pose proof (count_nonneg k l).
  rewrite (Hc k c) by (by left). destruct (k =? 0); simpl.
  - rewrite IH; [lia|done| |done|lia]. intros v d Hv. apply Hc. by right.
  - rewrite wrapu_id by (unfold is_u; lia).
    rewrite IH; [lia|done| |lia|lia]. intros v d Hv. apply Hc. by right.
Qed.

Lemma raw_blocks_ok l acc :
  0 <= acc -> acc + Z.of_nat (length l) < 2 ^ 16 ->
  raw_blocks l acc = acc + Z.of_nat (length (filter (fun v => v <> 0) l)).
Proof.
  revert acc. induction l as [|v l IH]; intros acc Ha Hb; simpl in *; [lia|].
  rewrite filter_cons. destruct (Z.eqb_spec v 0) as [->|Hv]; cbn [negb].
  - rewrite decide_False by naive_solver. apply IH; lia.
  - rewrite decide_True by done. rewrite wrapu_id by (unfold is_u; lia). simpl. rewrite IH; lia.
Qed.
End Blocks.

(** The block count of a section, which the server reads off the palette's
    counts instead of the cells, is the number of cells that are not block
    state 0, in each of the three representations. *)
Theorem block_count_exact (s : PalettedContainer Z) :
  wf 16 s ->
  non_empty_block_count s = Z.of_nat (length (filter (fun v => v <> 0) (collect_values 16 s))).
Proof.
  destruct s as [v|h|raw]; intros Hw; unfold non_empty_block_count.
  - cbn [collect_values]. destruct (Z.eqb_spec v 0) as [->|Hv].
    + rewrite list_filter_none; [done|]. intros w [-> _]%elem_of_replicate Hn. done.
    + rewrite list_filter_every, length_replicate; [by vm_compute|]. by intros w [-> _]%elem_of_replicate.
  - destruct Hw as (Hl & Hok & _). cbn [collect_values].
    assert (Hv : Z.of_nat (VOLUME 16) = 4096) by by vm_compute.
    pose proof (blocks_in_nonneg (palette h).*1 (cube h)) as Hn. rewrite Hl, Hv in Hn.
    rewrite (palette_blocks_ok (cube h)); [|apply Hok|intros v c Hin; destruct Hok as [_ Hok]; by apply Hok in Hin as [-> _]|lia|lia].
    unfold blocks_in. rewrite Z.add_0_l. do 2 f_equal. apply list_filter_ext. intros v Hin.
    rewrite (palette_ok_key _ _ v Hok). naive_solver.
  - simpl in Hw |- *. rewrite raw_blocks_ok; [done..|]. rewrite Hw. by vm_compute.
Qed.

Lemma block_count_exact_witness :
  non_empty_block_count (from_cube (replicate 4095 0 ++ [7])) = 1.
Proof.
  rewrite block_count_exact; [vm_compute; reflexivity|].
  apply from_cube_ok; [lia|vm_compute; reflexivity|vm_compute; reflexivity].
Defined.
