(* ===== verification/PaletteEncoding.v ===== *)
(** * Network encoding of paletted containers

    Models [PalettedContainer::write] with its palette strategies
    ([chunk/paletted_container.rs]) and the entry packing of
    [chunk/paletted_container/encode.rs], including the thread-local table
    from global ids to palette indices that successive encodes share.

    The registry (generated code) is represented by its two sizes:
    [next_state_id] and the number of biomes.  The decoder is the one the
    source's tests use to read a section the way the vanilla client does. *)

From Stdlib Require Import Lia ZArith.
From stdpp Require Import prelude list gmap strings.
From S2P Require Import Prelude Io VarInt BitPack PalettedContainer.

(** ** Index table *)

(** [super::BlockPalette::VOLUME.div_ceil(64 / 16) * 8] *)
Definition MAX_PACKED_BYTES : nat := (nat_div_ceil (VOLUME 16) (64 / 16) * 8)%nat.
Definition INDEX_TABLE_LEN : Z := Z.shiftl 1 16.
Definition EMPTY_SLOT : Z := 65535.

Definition invalid_data (message : string) : io_error := mk_error InvalidData message.

(** The table: a slot absent from the map holds [EMPTY_SLOT]. *)
Notation IndexTable := (gmap Z Z) (only parsing).

Definition ceil_log2 (n : Z) : Z := if n <=? 1 then 0 else Z.log2 (n - 1) + 1.

Inductive PaletteMode := Linear | Hash | Global.

Section Encode.
Context {V : Type} (to_global_id : V -> Z).

(** [PaletteIndexTable::fill]: the slots written so far stay written when it
    fails. *)
Fixpoint fill_loop (slots : IndexTable) (index : nat) (palette : list (V * Z)) :
    outcome io_error unit * IndexTable :=
  match palette with
  | [] => (Ok (), slots)
  | (value, _) :: rest =>
      if negb (Z.of_nat index <? EMPTY_SLOT) then
        (Err (invalid_data "palette has too many entries to index"), slots)
      else
        let id := to_global_id value in
        if negb (id <? INDEX_TABLE_LEN) then
          (Err (invalid_data "palette value has an out-of-range global id"), slots)
        else
          match slots !! id with
          | Some _ => (Panic, slots)
          | None => fill_loop (<[id := Z.of_nat index]> slots) (S index) rest
          end
  end.

Definition index_of (slots : IndexTable) (value : V) : option Z :=
  if to_global_id value <? INDEX_TABLE_LEN then slots !! to_global_id value else None.

(** [Drop for PaletteIndexTable]. *)
Definition drop_table (slots : IndexTable) (palette : list (V * Z)) : IndexTable :=
  foldl (fun s e => if to_global_id e.1 <? INDEX_TABLE_LEN then delete (to_global_id e.1) s else s)
    slots palette.

(** ** Packing *)

(** The loop over one long's entries. *)
Fixpoint pack_long (lookup : V -> option Z) (bits slot : nat) (entries : list V) (long : Z) (missing : bool) :
    Z * bool :=
  match entries with
  | [] => (long, missing)
  | value :: rest =>
      let id := lookup value in
      pack_long lookup bits (S slot) rest
        (Z.lor long (u64 (Z.shiftl (default 0 id) (Z.of_nat (slot * bits)%nat))))
        (missing || match id with Some _ => false | None => true end)
  end.

Fixpoint pack_chunks (lookup : V -> option Z) (bits : nat) (cs : list (list V)) (missing : bool) :
    list Z * bool :=
  match cs with
  | [] => ([], missing)
  | entries :: rest =>
      let '(long, missing) := pack_long lookup bits 0 entries 0 missing in
      let '(bytes, missing) := pack_chunks lookup bits rest missing in
      (to_be_bytes 8 long ++ bytes, missing)
  end.

Definition pack_longs (lookup : V -> option Z) (bits : nat) (values : list V) : outcome io_error (list Z) :=
  let values_per_long := (64 / bits)%nat in
  let len := (nat_div_ceil (length values) values_per_long * 8)%nat in
  if (MAX_PACKED_BYTES <? len)%nat then Err (invalid_data "container is too large to pack")
  else
    let '(packed, missing) := pack_chunks lookup bits (chunks values_per_long values) false in
    if missing then Err (invalid_data "container holds a value its palette cannot encode") else Ok packed.

Definition pack (lookup : V -> option Z) (bits : nat) (values : list V) : outcome io_error (list Z) :=
  if ((1 <=? bits) && (bits <=? 16))%nat then pack_longs lookup bits values
  else Err (invalid_data "unsupported bits per entry").

Definition pack_global_ids (values : list V) (bits : nat) : outcome io_error (list Z) :=
  let all_ids := foldl (fun a value => Z.lor a (to_global_id value)) 0 values in
  if negb (Z.shiftr all_ids (Z.of_nat bits) =? 0) then
    Err (invalid_data "container holds a global id wider than the global palette")
  else pack (fun value => Some (to_global_id value)) bits values.

Definition pack_palette_indices (table : IndexTable) (values : list V) (palette : list (V * Z)) (bits : nat) :
    outcome io_error (list Z) * IndexTable :=
  match fill_loop table 0 palette with
  | (Ok _, slots) => (pack (index_of slots) bits values, drop_table slots palette)
  | (Err e, slots) => (Err e, drop_table slots palette)
  | (Panic, slots) => (Panic, drop_table slots palette)
  end.

(** ** [PalettedContainer::write] *)

Definition calculate_strategy (DIM : nat) (next_state_id biomes : Z) (count : nat) :
    outcome io_error (nat * PaletteMode) :=
  if (DIM =? 16)%nat then
    if (count <=? 1)%nat then Panic
    else if (count <=? 16)%nat then Ok (4%nat, Linear)
    else if (count <=? 32)%nat then Ok (5%nat, Hash)
    else if (count <=? 64)%nat then Ok (6%nat, Hash)
    else if (count <=? 128)%nat then Ok (7%nat, Hash)
    else if (count <=? 256)%nat then Ok (8%nat, Hash)
    else Ok (Z.to_nat (ceil_log2 next_state_id), Global)
  else
    if (count <=? 1)%nat then Panic
    else if (count <=? 2)%nat then Ok (1%nat, Linear)
    else if (count <=? 4)%nat then Ok (2%nat, Linear)
    else if (count <=? 8)%nat then Ok (3%nat, Hash)
    else Ok (Z.to_nat (ceil_log2 biomes), Global).

Fixpoint write_palette (palette : list (V * Z)) : outcome io_error (list Z) :=
  match palette with
  | [] => Ok []
  | (val, _) :: rest => wseq (VarInt.write (i32 (to_global_id val))) (write_palette rest)
  end.

Definition write (DIM : nat) (next_state_id biomes : Z) (table : IndexTable) (s : PalettedContainer V) :
    outcome io_error (list Z) * IndexTable :=
  match s with
  | Homogeneous value => (wseq (write_u8 0) (VarInt.write (i32 (to_global_id value))), table)
  | Heterogeneous data =>
      match calculate_strategy DIM next_state_id biomes (length (palette data)) with
      | Ok (bits, mode) =>
          let '(packed, table) :=
            match mode with
            | Global => (pack_global_ids (cube data) bits, table)
            | Linear | Hash => pack_palette_indices table (cube data) (palette data) bits
            end in
          (let? packed := packed in
           wseq (write_u8 (Z.of_nat bits))
             (wseq (match mode with
                    | Global => Ok []
                    | Linear | Hash =>
                        wseq (VarInt.write (i32 (Z.of_nat (length (palette data))))) (write_palette (palette data))
                    end)
                (Ok packed)),
           table)
      | Err e => (Err e, table)
      | Panic => (Panic, table)
      end
  | Building _ => (Panic, table)
  end.
End Encode.

(** ** The client's reader *)

(** [as_chunks::<8>().0] with [u64::from_be_bytes]. *)
Fixpoint be_longs (n : nat) (bytes : list Z) : list Z :=
  match n with
  | O => []
  | S n' => from_be_bytes (take 8 bytes) :: be_longs n' (drop 8 bytes)
  end.

Fixpoint decode_entries (bits : nat) (longs : list Z) (palette : option (list Z)) (indices : list nat) :
    outcome io_error (list Z) :=
  match indices with
  | [] => Ok []
  | index :: rest =>
      let values_per_long := (64 / bits)%nat in
      match longs !! (index / values_per_long)%nat with
      | None => Panic
      | Some long =>
          let entry := word_entry bits long (index mod values_per_long)%nat in
          match palette with
          | Some p =>
              match p !! Z.to_nat entry with
              | Some id => let? l := decode_entries bits longs palette rest in Ok (id :: l)
              | None => Panic
              end
          | None => let? l := decode_entries bits longs palette rest in Ok (u32 entry :: l)
          end
      end
  end.

(** [decode_written]; a failed [expect] or assertion panics. *)
Definition decode_written (bytes : list Z) (volume max_paletted_bits : nat) : outcome io_error (list Z) :=
  match bytes with
  | [] => Panic
  | b :: _ =>
      let cursor := mk_cursor bytes 1 in
      if b =? 0 then
        match VarInt.read cursor with
        | (Ok value, c) => if (cur_pos c =? length bytes)%nat then Ok (replicate volume (u32 value)) else Panic
        | _ => Panic
        end
      else
        let bits := Z.to_nat b in
        let palette_cursor :=
          if (bits <=? max_paletted_bits)%nat then
            match VarInt.read cursor with
            | (Ok len, c) =>
                match read_n VarInt.read (Z.to_nat (u32 len)) c with
                | (Ok p, c) => Some (Some (u32 <$> p), c)
                | _ => None
                end
            | _ => None
            end
          else Some (None, cursor) in
        match palette_cursor with
        | None => Panic
        | Some (palette, c) =>
            let rest := drop (cur_pos c) bytes in
            let longs := be_longs (length rest / 8) rest in
            if (length longs =? nat_div_ceil volume (64 / bits))%nat
            then decode_entries bits longs palette (seq 0 volume)
            else Panic
        end
  end.

(** ** The table is left empty *)

Section Table.
Context {V : Type} (to_global_id : V -> Z).
Implicit Types (p : list (V * Z)) (slots : IndexTable).

Lemma drop_table_lookup slots p id :
  drop_table to_global_id slots p !! id =
  if decide (id < INDEX_TABLE_LEN /\ id ∈ (fun e => to_global_id e.1) <$> p) then None else slots !! id.
Proof.
  unfold drop_table. revert slots. induction p as [|e p IH]; intros slots; csimpl.
  { rewrite decide_False; [done|]. intros [_ H]. by apply elem_of_nil in H. }
  rewrite IH. destruct (Z.ltb_spec (to_global_id e.1) INDEX_TABLE_LEN) as [Hlt|Hge].
  - destruct (decide (to_global_id e.1 = id)) as [<-|Hne].
    + rewrite (decide_True (P := to_global_id e.1 < INDEX_TABLE_LEN /\ to_global_id e.1 ∈ _ :: _)) by (split; [done|by left]).
      case_decide; [done|]. apply lookup_delete_eq.
    + rewrite lookup_delete_ne by done. repeat case_decide; set_solver.
  - repeat case_decide; set_solver by lia.
Qed.

Lemma fill_loop_other slots i p id :
  let slots' := (fill_loop to_global_id slots i p).2 in
  slots' !! id = slots !! id \/ (id < INDEX_TABLE_LEN /\ id ∈ (fun e => to_global_id e.1) <$> p).
Proof.
  revert slots i. induction p as [|[v c] p IH]; intros slots i; csimpl; [by left|].
  destruct (Z.of_nat i <? EMPTY_SLOT); simpl; [|by left].
  destruct (Z.ltb_spec (to_global_id v) INDEX_TABLE_LEN); simpl; [|by left].
  destruct (slots !! to_global_id v); simpl; [by left|].
  destruct (IH (<[to_global_id v := Z.of_nat i]> slots) (S i)) as [-> | [H1 H2]]; [|right; split; [done|by right]].
  destruct (decide (to_global_id v = id)) as [<-|]; [right; split; [done|by left]|].
  rewrite lookup_insert_ne by done. by left.
Qed.

Lemma drop_fill p :
  drop_table to_global_id (fill_loop to_global_id ∅ 0 p).2 p = ∅.
Proof.
  apply map_eq. intros id. rewrite drop_table_lookup, lookup_empty. case_decide as Hd; [done|].
  destruct (fill_loop_other ∅ 0 p id) as [-> | H]; [apply lookup_empty|by destruct Hd].
Qed.

Lemma write_table DIM next_state_id biomes (s : PalettedContainer V) :
  (write to_global_id DIM next_state_id biomes ∅ s).2 = ∅.
Proof.
  destruct s as [v|h|raw]; simpl; [done| |done].
  destruct (calculate_strategy _ _ _ _) as [[bits mode]|e|]; [|done..].
  assert (Hp : (pack_palette_indices to_global_id ∅ (cube h) (palette h) bits).2 = ∅).
  { unfold pack_palette_indices. pose proof (drop_fill (palette h)) as H.
    by destruct (fill_loop to_global_id ∅ 0 (palette h)) as [[] slots]. }
  destruct mode; [destruct (pack_palette_indices _ _ _ _ _); exact Hp..|done].
Qed.

(** However an encode ends (packed, refused or panicking), it leaves the
    thread's index table empty, so no section is ever encoded with an index
    left over from another palette. *)
Theorem table_stays_empty DIM next_state_id biomes (s : PalettedContainer V) :
  (write to_global_id DIM next_state_id biomes ∅ s).2 = ∅.
Proof. apply write_table. Qed.

(** ** Filling the table *)

Lemma fill_loop_ok slots i p :
  Z.of_nat (i + length p) <= 65535 -> NoDup ((fun e => to_global_id e.1) <$> p) ->
  (forall e, e ∈ p -> to_global_id e.1 < INDEX_TABLE_LEN /\ slots !! to_global_id e.1 = None) ->
  exists slots', fill_loop to_global_id slots i p = (Ok (), slots') /\
    (forall id, id ∉ (fun e => to_global_id e.1) <$> p -> slots' !! id = slots !! id) /\
    (forall j e, p !! j = Some e -> slots' !! to_global_id e.1 = Some (Z.of_nat (i + j))).
Proof.
  revert slots i. induction p as [|[v c] p IH]; intros slots i Hl Hn Hs; simpl in *; [by exists slots|].
  apply NoDup_cons in Hn as [Hv Hn]. destruct (Hs (v, c)) as [Hlt Hnone]; [by left|]. simpl in *.
  rewrite (proj2 (Z.ltb_lt (Z.of_nat i) EMPTY_SLOT)) by (unfold EMPTY_SLOT; lia).
  rewrite (proj2 (Z.ltb_lt (to_global_id v) INDEX_TABLE_LEN)) by done. simpl. rewrite Hnone.
  destruct (IH (<[to_global_id v := Z.of_nat i]> slots) (S i)) as (slots' & -> & H1 & H2); [lia|done|..].
  { intros e He. destruct (Hs e) as [H1 H2]; [by right|]. split; [done|]. rewrite lookup_insert_ne; [done|].
    intros E. apply Hv. rewrite E. by apply (list_elem_of_fmap_2 (fun e => to_global_id e.1)). }
  exists slots'. split_and!; [done| |].
  - intros id Hid. csimpl in Hid. apply not_elem_of_cons in Hid as [N1 N2]. rewrite H1, lookup_insert_ne by done. done.
  - intros [|j] e He; simpl in He.
    + injection He as <-. simpl. rewrite H1, lookup_insert_eq by done. by rewrite Nat.add_0_r.
    + rewrite Nat.add_succ_r. by apply H2.
Qed.
End Table.

(** ** Packing known entries *)

Definition word_bytes (ws : list Z) : list Z := ws ≫= to_be_bytes 8.

Lemma chunks_fmap {A B} (f : A -> B) n (l : list A) :
  (0 < n)%nat -> chunks n (f <$> l) = (fmap f : list A -> list B) <$> chunks n l.
Proof.
  intros Hn. remember (length l) as m eqn:Em. revert l Em. induction m as [m IH] using lt_wf_ind. intros l ->.
  destruct (decide (l = [])) as [->|Hl]; [done|].
  assert (f <$> l <> []) by (by destruct l). rewrite (chunks_cons n l), (chunks_cons n (f <$> l)) by done. csimpl.
  rewrite <- fmap_take, <- fmap_drop. f_equal. apply (IH (length (drop n l))); [|done].
  rewrite length_drop. destruct l; simpl; [done|lia].
Qed.

Lemma chunk_bound {A} n (l : list A) c :
  (0 < n)%nat -> c ∈ chunks n l -> (length c <= n)%nat /\ forall x, x ∈ c -> x ∈ l.
Proof.
  intros Hn. remember (length l) as m eqn:Em. revert l Em. induction m as [m IH] using lt_wf_ind. intros l ->.
  destruct (decide (l = [])) as [->|Hl]; [by intros ?%elem_of_nil|].
  rewrite chunks_cons by done. intros [->|Hc]%elem_of_cons.
  - rewrite length_take. split; [lia|]. intros x Hx. rewrite <- (take_drop n l). apply elem_of_app. by left.
  - assert (Hlt : (length (drop n l) < length l)%nat) by (rewrite length_drop; destruct l; simpl; [done|lia]).
    destruct (IH _ Hlt (drop n l) eq_refl Hc) as [H1 H2].
    split; [done|]. intros x Hx%H2. rewrite <- (take_drop n l). apply elem_of_app. by right.
Qed.

Section Packing.
Context {V : Type} (lookup : V -> option Z) (f : V -> Z) (bits : nat).
Hypothesis Hb : (1 <= bits <= 16)%nat.

Lemma pack_long_ok s entries long m :
  (forall v, v ∈ entries -> lookup v = Some (f v)) ->
  pack_long lookup bits s entries long m = (fold_slots bits s (f <$> entries) long, m).
Proof.
  revert s long m. induction entries as [|v t IH]; intros s long m Hl; simpl; [done|].
  rewrite Hl by (by left). simpl. rewrite orb_false_r. apply IH. intros w Hw. apply Hl. by right.
Qed.

Lemma values_per_long : (0 < 64 / bits /\ 64 / bits * bits <= 64)%nat.
Proof. split; [apply Nat.div_str_pos; lia|]. rewrite Nat.mul_comm. apply Nat.Div0.mul_div_le. Qed.

Lemma pack_chunks_ok cs m :
  (forall c, c ∈ cs -> (length c <= 64 / bits)%nat /\ forall v, v ∈ c -> lookup v = Some (f v) /\ fits bits (f v)) ->
  pack_chunks lookup bits cs m = (word_bytes (word_of bits <$> (fmap f <$> cs)), m).
Proof.
  pose proof values_per_long as [Hv1 Hv2].
  revert m. induction cs as [|c cs IH]; intros m Hc; [done|]. cbn [pack_chunks].
  destruct (Hc c) as [Hlen Hv]; [by left|]. rewrite pack_long_ok by (intros v Hin; by apply Hv).
  rewrite IH by (intros c' Hc'; apply Hc; by right). rewrite fold_slots_word.
  - unfold word_bytes. csimpl. by rewrite Z.add_0_l, Z.mul_1_l.
  - rewrite length_fmap. nia.
  - apply Forall_fmap, Forall_forall. intros v Hin. simpl. by apply Hv.
  - done.
Qed.

Lemma packed_fits n : (n <= VOLUME 16)%nat -> (nat_div_ceil n (64 / bits) * 8 <= MAX_PACKED_BYTES)%nat.
Proof.
  intros Hn. unfold MAX_PACKED_BYTES. apply Nat.mul_le_mono_r. unfold nat_div_ceil.
  assert (H4 : (4 <= 64 / bits)%nat) by (apply Nat.div_le_lower_bound; lia).
  change (64 / 16)%nat with 4%nat. set (v := (64 / bits)%nat) in *. clearbody v.
  apply Nat.div_le_lower_bound; [lia|]. set (q := ((n + (v - 1)) / v)%nat).
  assert (Hq : (v * q <= n + (v - 1))%nat) by apply Nat.Div0.mul_div_le.
  destruct q as [|q]; [lia|]. nia.
Qed.

Lemma pack_ok values :
  (length values <= VOLUME 16)%nat ->
  (forall v, v ∈ values -> lookup v = Some (f v) /\ fits bits (f v)) ->
  pack lookup bits values = Ok (word_bytes (words bits (f <$> values))).
Proof.
  intros Hn Hv. pose proof values_per_long as [Hv1 Hv2]. unfold pack, pack_longs.
  rewrite (proj2 (Nat.leb_le 1 bits)), (proj2 (Nat.leb_le bits 16)) by lia. cbn [andb].
  rewrite (proj2 (Nat.ltb_ge MAX_PACKED_BYTES _)) by by apply packed_fits.
  rewrite pack_chunks_ok.
  - unfold words. by rewrite chunks_fmap.
  - intros c Hc. destruct (chunk_bound _ _ _ Hv1 Hc) as [H1 H2]. split; [done|]. intros v Hin. by apply Hv, H2.
Qed.
End Packing.

(** ** Reading the longs back *)

Lemma length_word_bytes ws : length (word_bytes ws) = (length ws * 8)%nat.
Proof.
  induction ws as [|w ws IH]; [done|]. unfold word_bytes in *.
  rewrite bind_cons, length_app, IH, length_to_be_bytes. cbn [length]. lia.
Qed.

Lemma be_longs_bytes ws : Forall (is_u 64) ws -> be_longs (length ws) (word_bytes ws) = ws.
Proof.
  induction 1 as [|w ws Hw Hws IH]; [done|]. unfold word_bytes in *. cbn [length be_longs]. rewrite bind_cons.
  rewrite take_app_length', drop_app_length', IH, from_to_be_bytes by by rewrite length_to_be_bytes.
  f_equal. by apply wrapu_id.
Qed.

Lemma decode_entries_ok bits ids palette out js :
  (1 <= bits <= 16)%nat -> Forall (fits bits) ids ->
  (forall i, i ∈ js -> exists id, ids !! i = Some id /\
     match palette with Some p => p !! Z.to_nat id = Some (out i) | None => out i = id end) ->
  decode_entries bits (words bits ids) palette js = Ok (out <$> js).
Proof.
  intros Hb Hf. induction js as [|i js IH]; intros H; simpl; [done|].
  destruct (H i) as (id & Hid & Hout); [by left|].
  pose proof (lookup_lt_Some _ _ _ Hid) as Hlt.
  destruct (words_entries bits ids i ltac:(lia) Hf Hlt) as (w & -> & Hw). rewrite Hw, Hid. simpl.
  rewrite IH by (intros j Hj; apply H; by right).
  rewrite Forall_forall in Hf. specialize (Hf id (list_elem_of_lookup_2 _ _ _ Hid)). unfold fits in Hf.
  destruct palette as [p|].
  - by rewrite Hout.
  - csimpl. rewrite Hout. do 2 f_equal. apply wrapu_id. unfold is_u in *. split; [lia|].
    eapply Z.lt_le_trans; [apply Hf|]. apply Z.pow_le_mono_r; lia.
Qed.

(** ** Written sections decode to their cells *)

Section Decode.
Context {V : Type} `{!EqDecision V} (to_global_id : V -> Z) (DIM : nat) (next_state_id biomes : Z).

(** The widest section palette the client accepts. *)
Definition max_paletted_bits : nat := if (DIM =? 16)%nat then 8%nat else 3%nat.
Definition registry_size : Z := if (DIM =? 16)%nat then next_state_id else biomes.

Hypothesis Hdim : DIM = 16%nat \/ DIM = 4%nat.
Hypothesis Hsize : 2 ^ Z.of_nat max_paletted_bits < registry_size <= 65536.

Lemma max_paletted_small : (max_paletted_bits <= 8)%nat.
Proof. unfold max_paletted_bits. destruct (DIM =? 16)%nat; lia. Qed.

Lemma global_bits_spec :
  let gb := Z.to_nat (ceil_log2 registry_size) in
  (max_paletted_bits < gb <= 16)%nat /\ registry_size <= 2 ^ Z.of_nat gb.
Proof.
  set (n := registry_size) in *. pose proof max_paletted_small as Hm.
  assert (1 <= 2 ^ Z.of_nat max_paletted_bits) by (apply (Z.pow_le_mono_r 2 0); lia).
  unfold ceil_log2. zbool. pose proof (Z.log2_spec (n - 1) ltac:(lia)) as [H1 H2].
  assert (Z.of_nat max_paletted_bits <= Z.log2 (n - 1)) by (apply Z.log2_le_pow2; lia).
  assert (Z.log2 (n - 1) < 16) by (apply Z.log2_lt_pow2; [lia|]; change (2 ^ 16) with 65536; lia).
  rewrite Z2Nat.id by lia. split; [lia|]. unfold Z.succ in H2. lia.
Qed.

Lemma calculate_strategy_spec count :
  (2 <= count)%nat ->
  exists bits mode, calculate_strategy DIM next_state_id biomes count = Ok (bits, mode) /\
    match mode with
    | Global => bits = Z.to_nat (ceil_log2 registry_size)
    | _ => (1 <= bits <= max_paletted_bits)%nat /\ Z.of_nat count <= 2 ^ Z.of_nat bits
    end.
Proof.
  intros Hc. unfold calculate_strategy, max_paletted_bits, registry_size.
  destruct (DIM =? 16)%nat;
    repeat match goal with |- context [(count <=? ?b)%nat] => destruct (Nat.leb_spec count b) end; try lia;
    (eexists; eexists; split; [reflexivity|]); cbn beta iota; try done; (split; [lia|]);
    match goal with |- _ <= 2 ^ Z.of_nat ?b => let p := eval vm_compute in (2 ^ Z.of_nat b) in
      change (2 ^ Z.of_nat b) with p end; lia.
Qed.

Lemma volume_small : (VOLUME DIM <= VOLUME 16)%nat.
Proof. destruct Hdim as [-> | ->]; [done|]. apply Nat.leb_le. vm_compute. done. Qed.

(** The client's reading of [pre ++ longs], its cursor at the longs. *)
Lemma decode_tail bits ids pre (palette : option (list Z)) out :
  (1 <= bits <= 16)%nat -> Forall (fits bits) ids -> length ids = VOLUME DIM ->
  (forall i id, ids !! i = Some id ->
     match palette with Some p => p !! Z.to_nat id = Some (out i) | None => out i = id end) ->
  let bytes := pre ++ word_bytes (words bits ids) in
  let rest := drop (length pre) bytes in
  (let longs := be_longs (length rest / 8) rest in
   if (length longs =? nat_div_ceil (VOLUME DIM) (64 / bits))%nat
   then decode_entries bits longs palette (seq 0 (VOLUME DIM)) else Panic)
  = Ok (out <$> seq 0 (VOLUME DIM)).
Proof.
  intros Hb Hf Hlen Hout bytes rest. subst rest bytes. rewrite drop_app_length, length_word_bytes, Nat.div_mul by lia.
  rewrite be_longs_bytes by (apply words_range; [lia|done]).
  assert (Hw : length (words bits ids) = nat_div_ceil (VOLUME DIM) (64 / bits)).
  { unfold words. rewrite length_fmap, length_chunks, Hlen; [done|]. apply Nat.div_str_pos. lia. }
  cbv zeta. rewrite Hw, Nat.eqb_refl. apply decode_entries_ok; [done..|].
  intros i Hi%elem_of_seq. destruct (lookup_lt_is_Some_2 ids i) as [id Hid]; [lia|].
  exists id. split; [done|]. by apply Hout.
Qed.

Lemma write_palette_slice p :
  write_palette to_global_id p = write_slice VarInt.write ((fun e => i32 (to_global_id e.1)) <$> p).
Proof. induction p as [|[v c] p IH]; [done|]. csimpl. by rewrite IH. Qed.

Lemma u32_i32_small z : 0 <= z < 2 ^ 31 -> u32 (i32 z) = z.
Proof.
  intros Hz. unfold i32, u32. rewrite (wraps_id 32) by (lia || (unfold is_s; change (2 ^ (32 - 1)) with (2 ^ 31); lia)).
  apply wrapu_id. unfold is_u. lia.
Qed.

Lemma seq_fmap_lookup {A} (g : A -> Z) (l : list A) (out : nat -> Z) :
  (forall i v, l !! i = Some v -> out i = g v) -> out <$> seq 0 (length l) = g <$> l.
Proof.
  intros H. apply list_eq. intros i. rewrite !list_lookup_fmap. destruct (l !! i) as [v|] eqn:E.
  - pose proof (lookup_lt_Some _ _ _ E). rewrite lookup_seq_lt by done. simpl. by rewrite (H i v).
  - rewrite lookup_seq_ge; [done|]. by apply lookup_ge_None.
Qed.

(** A homogeneous section. *)
Lemma decode_homogeneous z :
  0 <= z < 2 ^ 31 ->
  exists bytes, wseq (write_u8 0) (VarInt.write (i32 z)) = Ok bytes /\
    decode_written bytes (VOLUME DIM) max_paletted_bits = Ok (replicate (VOLUME DIM) z).
Proof.
  intros Hz. assert (Hs : is_s 32 (i32 z)) by (apply wraps_range; lia).
  destruct (wire_varint_ok (i32 z) Hs) as (bs & Hw & Hr). cbn [wire_varint wire_write wire_read] in *.
  exists (0 :: bs). rewrite Hw. split; [done|]. unfold decode_written. cbn [Z.eqb].
  specialize (Hr [0] []). rewrite app_nil_r in Hr. cbn [app length] in Hr. rewrite Hr. cbn [cur_pos length].
  by rewrite Nat.eqb_refl, u32_i32_small.
Qed.

(** A section with a palette: bits, palette, longs. *)
Lemma decode_paletted bits (gids : list Z) ids out :
  (1 <= bits <= max_paletted_bits)%nat -> Forall (fun g => 0 <= g < 2 ^ 31) gids ->
  Z.of_nat (length gids) < 2 ^ 31 -> Forall (fits bits) ids -> length ids = VOLUME DIM ->
  (forall i id, ids !! i = Some id -> gids !! Z.to_nat id = Some (out i)) ->
  exists bytes,
    wseq (write_u8 (Z.of_nat bits))
      (wseq (wseq (VarInt.write (i32 (Z.of_nat (length gids)))) (write_slice VarInt.write (i32 <$> gids)))
        (Ok (word_bytes (words bits ids)))) = Ok bytes /\
    decode_written bytes (VOLUME DIM) max_paletted_bits = Ok (out <$> seq 0 (VOLUME DIM)).
Proof.
  intros Hb Hg Hlen Hf Hl Hout. pose proof max_paletted_small as Hm.
  assert (Hs : is_s 32 (i32 (Z.of_nat (length gids)))) by (apply wraps_range; lia).
  destruct (wire_varint_ok _ Hs) as (b1 & Hw1 & Hr1).
  assert (Hgs : Forall (is_s 32) (i32 <$> gids)) by (apply Forall_fmap, Forall_true; intros; by apply wraps_range).
  destruct (wire_slice_ok wire_varint (is_s 32) (i32 <$> gids) Hgs) as (b2 & Hw2 & Hr2).
  cbn [wire_varint wire_write wire_read] in *. rewrite length_fmap in Hr2.
  exists (Z.of_nat bits :: (b1 ++ b2) ++ word_bytes (words bits ids)). unfold wseq. rewrite Hw1, Hw2. cbn [obind].
  split.
  { unfold write_u8, write_bytes, to_be_bytes. cbn [to_le_bytes obind]. rewrite Z.mod_small by lia. done. }
  unfold decode_written. rewrite (proj2 (Z.eqb_neq (Z.of_nat bits) 0)), Nat2Z.id by lia.
  rewrite (proj2 (Nat.leb_le bits max_paletted_bits)) by lia.
  specialize (Hr1 [Z.of_nat bits] (b2 ++ word_bytes (words bits ids))).
  specialize (Hr2 (Z.of_nat bits :: b1) (word_bytes (words bits ids))).
  cbn [app length] in Hr1, Hr2. rewrite <- app_assoc, Hr1, u32_i32_small, Nat2Z.id by lia.
  cbn [Nat.add]. rewrite Hr2. cbn [cur_pos].
  replace (S (length b1) + length b2)%nat with (length (Z.of_nat bits :: b1 ++ b2)) by (simpl; rewrite length_app; lia).
  replace (Z.of_nat bits :: b1 ++ b2 ++ word_bytes (words bits ids)) with
    ((Z.of_nat bits :: b1 ++ b2) ++ word_bytes (words bits ids)) by (simpl; by rewrite app_assoc).
  apply (decode_tail bits ids _ (Some (u32 <$> (i32 <$> gids)))); [lia|done|done|].
  intros i id Hid. rewrite !list_lookup_fmap, (Hout i id Hid). simpl. f_equal. apply u32_i32_small.
  rewrite Forall_forall in Hg. apply Hg. eapply list_elem_of_lookup_2, Hout, Hid.
Qed.

(** A section in the global palette: bits, longs. *)
Lemma decode_global bits ids :
  (max_paletted_bits < bits <= 16)%nat -> Forall (fits bits) ids -> length ids = VOLUME DIM ->
  exists bytes,
    wseq (write_u8 (Z.of_nat bits)) (wseq (Ok []) (Ok (word_bytes (words bits ids)))) = Ok bytes /\
    decode_written bytes (VOLUME DIM) max_paletted_bits = Ok ids.
Proof.
  intros Hb Hf Hl. exists (Z.of_nat bits :: word_bytes (words bits ids)). split.
  { unfold wseq, write_u8, write_bytes, to_be_bytes. cbn [to_le_bytes obind]. rewrite Z.mod_small by lia. done. }
  unfold decode_written. rewrite (proj2 (Z.eqb_neq (Z.of_nat bits) 0)), Nat2Z.id by lia.
  rewrite (proj2 (Nat.leb_gt bits max_paletted_bits)) by lia. cbn [cur_pos].
  pose proof (decode_tail bits ids [Z.of_nat bits] None (fun i => default 0 (ids !! i)) ltac:(lia) Hf Hl) as Ht.
  cbn [app length] in Ht. rewrite Ht; [|intros i id ->; done]. f_equal. rewrite <- Hl.
  transitivity (id <$> ids); [|apply list_fmap_id]. apply seq_fmap_lookup. by intros i v ->.
Qed.
End Decode.

(** The lookup of a filled table agrees with the palette. *)
Lemma table_index {V : Type} (to_global_id : V -> Z) p :
  Z.of_nat (length p) <= 65535 -> NoDup ((fun e : V * Z => to_global_id e.1) <$> p) ->
  (forall e, e ∈ p -> to_global_id e.1 < INDEX_TABLE_LEN) ->
  exists slots, fill_loop to_global_id ∅ 0 p = (Ok (), slots) /\
    forall j e, p !! j = Some e -> index_of to_global_id slots e.1 = Some (Z.of_nat j).
Proof.
  intros Hl Hn Hid. destruct (fill_loop_ok to_global_id ∅ 0 p Hl Hn) as (slots & Hf & _ & H).
  { intros e He. split; [by apply Hid|apply lookup_empty]. }
  exists slots. split; [done|]. intros j e He. unfold index_of.
  rewrite (proj2 (Z.ltb_lt _ _)) by (eapply Hid, list_elem_of_lookup_2, He). by apply (H j e).
Qed.

Lemma fold_ids_fit {V : Type} (to_global_id : V -> Z) bits l a :
  fits bits a -> (forall v, v ∈ l -> fits bits (to_global_id v)) ->
  fits bits (foldl (fun a v => Z.lor a (to_global_id v)) a l).
Proof.
  revert a. induction l as [|v l IH]; intros a Ha Hl; simpl; [done|]. apply IH.
  - apply is_u_lor; [lia|done|]. apply Hl. by left.
  - intros w Hw. apply Hl. by right.
Qed.

Section Write.
Context {V : Type} `{!EqDecision V} (to_global_id : V -> Z) (DIM : nat) (h : @HeterogeneousPalette V).
Hypothesis Hd : DIM = 16%nat \/ DIM = 4%nat.
Hypothesis Hw : wf DIM (Heterogeneous h).

Lemma cube_ids (f : V -> Z) : 
  (fun i => default 0 (f <$> cube h !! i)) <$> seq 0 (VOLUME DIM) = f <$> cube h.
Proof. destruct Hw as (<- & _). apply seq_fmap_lookup. by intros i v ->. Qed.

Lemma write_global bits :
  (max_paletted_bits DIM < bits <= 16)%nat -> (forall v, v ∈ cube h -> fits bits (to_global_id v)) ->
  exists packed bytes, pack_global_ids to_global_id (cube h) bits = Ok packed /\
    wseq (write_u8 (Z.of_nat bits)) (wseq (Ok []) (Ok packed)) = Ok bytes /\
    decode_written bytes (VOLUME DIM) (max_paletted_bits DIM) = Ok (to_global_id <$> cube h).
Proof.
  intros Hb Hf. destruct Hw as (Hl & _).
  assert (Hfit : Forall (fits bits) (to_global_id <$> cube h)) by (by apply Forall_fmap, Forall_forall).
  destruct (decode_global DIM Hd bits _ Hb Hfit) as (bytes & H1 & H2); [by rewrite length_fmap|].
  exists (word_bytes (words bits (to_global_id <$> cube h))), bytes. split_and!; [|done..].
  unfold pack_global_ids. rewrite Z.shiftr_div_pow2 by lia.
  assert (Hz : fits bits 0) by (unfold fits, is_u; split; [lia|apply Z.pow_pos_nonneg; lia]).
  rewrite Z.div_small by (by apply fold_ids_fit). simpl.
  apply pack_ok; [lia|rewrite Hl; by apply volume_small|]. intros v Hv. auto.
Qed.

Lemma write_paletted bits :
  (1 <= bits <= max_paletted_bits DIM)%nat -> Z.of_nat (length (palette h)) <= 2 ^ Z.of_nat bits ->
  (forall v, v ∈ cube h -> 0 <= to_global_id v < 65536) ->
  (forall v w, v ∈ cube h -> w ∈ cube h -> to_global_id v = to_global_id w -> v = w) ->
  exists packed table bytes,
    pack_palette_indices to_global_id ∅ (cube h) (palette h) bits = (Ok packed, table) /\
    wseq (write_u8 (Z.of_nat bits))
      (wseq (wseq (VarInt.write (i32 (Z.of_nat (length (palette h))))) (write_palette to_global_id (palette h)))
         (Ok packed)) = Ok bytes /\
    decode_written bytes (VOLUME DIM) (max_paletted_bits DIM) = Ok (to_global_id <$> cube h).
Proof.
  intros Hb Hlen Hid Hinj. destruct Hw as (Hl & Hok & _). pose proof (max_paletted_small DIM) as Hm.
  assert (Hp256 : 2 ^ Z.of_nat bits <= 256) by (apply (Z.pow_le_mono_r 2 _ 8); lia).
  assert (Hin : forall e, e ∈ palette h -> e.1 ∈ cube h).
  { intros [v c] He. apply (palette_ok_key _ _ v Hok). by apply (palette_key _ v c). }
  destruct (table_index to_global_id (palette h)) as (slots & Hfill & Hidx); [lia| |intros e He; by apply Hid, Hin|].
  { replace ((fun e : V * Z => to_global_id e.1) <$> palette h) with (to_global_id <$> (palette h).*1)
      by (symmetry; apply list_fmap_compose). apply NoDup_fmap_2_strong; [|apply Hok].
    intros v w ([v' c] & -> & Hv)%list_elem_of_fmap ([w' d] & -> & Hw')%list_elem_of_fmap.
    apply Hinj; [by apply (Hin (v', c))|by apply (Hin (w', d))]. }
  assert (Hcell : forall v, v ∈ cube h -> exists j c, palette h !! j = Some (v, c)).
  { intros v Hv. apply (palette_ok_key _ _ v Hok) in Hv as ([w c] & -> & He)%list_elem_of_fmap.
    apply list_elem_of_lookup in He as [j Hj]. eauto. }
  set (f := fun v => default 0 (index_of to_global_id slots v)).
  assert (Hf : forall v, v ∈ cube h -> exists j c, palette h !! j = Some (v, c) /\
    index_of to_global_id slots v = Some (f v) /\ f v = Z.of_nat j).
  { intros v Hv. destruct (Hcell v Hv) as (j & c & Hj). pose proof (Hidx j (v, c) Hj) as E. simpl in E.
    exists j, c. subst f. simpl. by rewrite E. }
  assert (Hfit : forall v, v ∈ cube h -> fits bits (f v)).
  { intros v Hv. destruct (Hf v Hv) as (j & c & Hj & _ & ->). apply lookup_lt_Some in Hj. unfold fits, is_u. lia. }
  destruct (decode_paletted DIM Hd bits ((fun e => to_global_id e.1) <$> palette h) (f <$> cube h)
    (fun i => default 0 (to_global_id <$> cube h !! i))) as (bytes & H1 & H2).
  - done.
  - apply Forall_fmap, Forall_forall. intros e He. simpl. pose proof (Hid _ (Hin e He)). lia.
  - rewrite length_fmap. lia.
  - by apply Forall_fmap, Forall_forall.
  - by rewrite length_fmap.
  - intros i g. rewrite list_lookup_fmap. intros (v & Hv & ->)%fmap_Some.
    destruct (Hf v (list_elem_of_lookup_2 _ _ _ Hv)) as (j & c & Hj & _ & ->).
    by rewrite Nat2Z.id, list_lookup_fmap, Hj, Hv.
  - exists (word_bytes (words bits (f <$> cube h))), (drop_table to_global_id slots (palette h)), bytes.
    unfold pack_palette_indices. rewrite Hfill. split_and!.
    + f_equal. apply pack_ok; [lia|rewrite Hl; by apply volume_small|]. intros v Hv.
      destruct (Hf v Hv) as (j & c & _ & E & _). auto.
    + rewrite write_palette_slice. rewrite length_fmap, <- list_fmap_compose in H1. exact H1.
    + by rewrite H2, cube_ids.
Qed.
End Write.

(** C37: Every section the server sends decodes, the way the vanilla client
    reads it, to the global ids of its cells: single-value, section-palette
    and global-palette sections alike, for block states and for biomes, when
    the ids are those of the registry and no build is in progress. *)
Theorem written_section_decodes {V : Type} `{!EqDecision V} (to_global_id : V -> Z) DIM next_state_id biomes s :
  DIM = 16%nat \/ DIM = 4%nat ->
  2 ^ Z.of_nat (max_paletted_bits DIM) < registry_size DIM next_state_id biomes <= 65536 ->
  wf DIM s -> (forall raw, s <> Building raw) ->
  (forall v, v ∈ collect_values DIM s -> 0 <= to_global_id v < registry_size DIM next_state_id biomes) ->
  (forall v w, v ∈ collect_values DIM s -> w ∈ collect_values DIM s -> to_global_id v = to_global_id w -> v = w) ->
  exists bytes, write to_global_id DIM next_state_id biomes ∅ s = (Ok bytes, ∅) /\
    decode_written bytes (VOLUME DIM) (max_paletted_bits DIM) = Ok (to_global_id <$> collect_values DIM s).
Proof.
  intros Hd Hsize Hw Hnb Hid Hinj. pose proof (write_table to_global_id DIM next_state_id biomes s) as Htab.
  assert (exists bytes, (write to_global_id DIM next_state_id biomes ∅ s).1 = Ok bytes /\
    decode_written bytes (VOLUME DIM) (max_paletted_bits DIM) = Ok (to_global_id <$> collect_values DIM s))
    as (bytes & H1 & H2); [|exists bytes; split; [|done]; destruct (write _ _ _ _ _ _); simpl in *; congruence].
  destruct s as [v|h|raw]; [| |by destruct (Hnb raw)].
  - simpl. rewrite fmap_replicate. apply decode_homogeneous; try done.
    assert (Hv : v ∈ collect_values DIM (Homogeneous v)).
    { simpl. apply elem_of_replicate. split; [done|]. destruct Hd as [-> | ->]; vm_compute; done. }
    specialize (Hid v Hv). change (2 ^ 31) with 2147483648. lia.
  - pose proof Hw as (_ & _ & H2). cbn [collect_values] in *.
    destruct (calculate_strategy_spec DIM next_state_id biomes Hd (length (palette h)) H2) as (bits & mode & Hs & Hm).
    pose proof (global_bits_spec DIM next_state_id biomes Hd Hsize) as [Hgb Hgs].
    cbn [write]. rewrite Hs. destruct mode.
    1,2: destruct Hm as [Hb Hlen];
      destruct (write_paletted to_global_id DIM h Hd Hw bits Hb Hlen) as (packed & table & bytes & -> & E1 & E2);
      [intros v Hv; specialize (Hid v Hv); lia|done|]; exists bytes; by split.
    subst bits. destruct (write_global to_global_id DIM h Hd Hw _ Hgb) as (packed & bytes & -> & E1 & E2).
    + intros v Hv. specialize (Hid v Hv). unfold fits, is_u. lia.
    + exists bytes. by split.
Qed.

Lemma written_section_decodes_witness :
  exists s bytes, write (fun v : Z => v) 4 65536 64 ∅ s = (Ok bytes, ∅) /\
    decode_written bytes 64 3 = Ok (Z.of_nat <$> seq 0 64).
Proof.
  destruct (written_section_decodes (fun v : Z => v) 4 65536 64 (from_cube (Z.of_nat <$> seq 0 64)))
    as (bytes & H1 & H2).
  - by right.
  - vm_compute. split; congruence.
  - apply from_cube_ok; [lia|vm_compute; reflexivity|reflexivity].
  - intros raw. vm_compute. congruence.
  - intros v Hv. vm_compute in Hv |- *. repeat (apply elem_of_cons in Hv as [->|Hv]; [split; congruence|]).
    by apply elem_of_nil in Hv.
  - by intros v w _ _ E.
  - exists (from_cube (Z.of_nat <$> seq 0 64)), bytes. split; [exact H1|]. etransitivity; [exact H2|]. vm_compute. reflexivity.
Defined.
