(* ===== verification/ChunkPyramid.v ===== *)
(** * Chunk statuses and generation dependencies

    Models [steel-core/src/chunk/status.rs] (the order of generation
    statuses) and [steel-core/src/chunk/chunk_pyramid.rs]: the builder that
    computes, for every status, the statuses its neighbours must have
    reached, directly and transitively, and the two pyramids the server is
    built with.

    The builder runs at compile time; an index outside an array fails the
    build ([Panic]).  A step's task (the function that does the work) plays
    no part in the computation and is left out. *)

From Stdlib Require Import Lia ZArith.
From stdpp Require Import prelude list.
From S2P Require Import Prelude.

Definition STATUS_COUNT : nat := 12.
Definition MAX_RADIUS : nat := 16.

(** ** [ChunkStatus] *)

Inductive ChunkStatus :=
| Empty | StructureStarts | StructureReferences | Biomes | Terrain | Features
| InitializeLight | Light | Spawn | Full.

#[export] Instance ChunkStatus_eq_dec : EqDecision ChunkStatus.
Proof. solve_decision. Defined.

Definition get_index (s : ChunkStatus) : nat :=
  match s with
  | Empty => 0 | StructureStarts => 1 | StructureReferences => 2 | Biomes => 3 | Terrain => 4
  | Features => 5 | InitializeLight => 6 | Light => 7 | Spawn => 8 | Full => 9
  end.

Definition from_index (index : nat) : option ChunkStatus :=
  match index with
  | 0 => Some Empty | 1 => Some StructureStarts | 2 => Some StructureReferences | 3 => Some Biomes
  | 4 => Some Terrain | 5 => Some Features | 6 => Some InitializeLight | 7 => Some Light
  | 8 => Some Spawn | 9 => Some Full | _ => None
  end%nat.

Definition next (s : ChunkStatus) : option ChunkStatus :=
  match s with
  | Empty => Some StructureStarts
  | StructureStarts => Some StructureReferences
  | StructureReferences => Some Biomes
  | Biomes => Some Terrain
  | Terrain => Some Features
  | Features => Some InitializeLight
  | InitializeLight => Some Light
  | Light => Some Spawn
  | Spawn => Some Full
  | Full => None
  end.

Definition parent (s : ChunkStatus) : option ChunkStatus :=
  match s with
  | Empty => None
  | StructureStarts => Some Empty
  | StructureReferences => Some StructureStarts
  | Biomes => Some StructureReferences
  | Terrain => Some Biomes
  | Features => Some Terrain
  | InitializeLight => Some Features
  | Light => Some InitializeLight
  | Spawn => Some Light
  | Full => Some Spawn
  end.

(** ** [ChunkDependencies] *)

Notation built A := (outcome Empty_set A) (only parsing).

Record ChunkDependencies := mk_deps {
  dependency_by_radius : list (option ChunkStatus);
  deps_len : nat;
  radius_by_dependency : list nat
}.

Definition EMPTY : ChunkDependencies :=
  mk_deps (replicate MAX_RADIUS None) 0 (replicate STATUS_COUNT 0%nat).

(** [array[j] = v] *)
Definition array_set {A} (j : nat) (v : A) (arr : list A) : built (list A) :=
  if (j <? length arr)%nat then Ok (<[j := v]> arr) else Panic.

Definition array_get {A} (arr : list A) (j : nat) : built A :=
  match arr !! j with Some v => Ok v | None => Panic end.

(** [while j < new_len]: extend with [status]; [n] is [new_len - j]. *)
Fixpoint extend_loop (n j : nat) (status : ChunkStatus) (arr : list (option ChunkStatus)) :
    built (list (option ChunkStatus)) :=
  match n with
  | O => Ok arr
  | S n' => let? arr := array_set j (Some status) arr in extend_loop n' (S j) status arr
  end.

(** [while j < limit]: raise the entries below [status]. *)
Fixpoint raise_loop (n j : nat) (status : ChunkStatus) (arr : list (option ChunkStatus)) :
    built (list (option ChunkStatus)) :=
  match n with
  | O => Ok arr
  | S n' =>
      let? entry := array_get arr j in
      let? arr :=
        match entry with
        | Some existing =>
            if (get_index existing <? get_index status)%nat then array_set j (Some status) arr else Ok arr
        | None => Ok arr
        end in
      raise_loop n' (S j) status arr
  end.

Fixpoint requirements_loop (reqs : list (ChunkStatus * nat)) (arr : list (option ChunkStatus)) (len : nat) :
    built (list (option ChunkStatus) * nat) :=
  match reqs with
  | [] => Ok (arr, len)
  | (status, radius) :: rest =>
      let new_len := S radius in
      let? '(arr, len) :=
        if (len <? new_len)%nat
        then let? arr := extend_loop (new_len - len) len status arr in Ok (arr, new_len)
        else Ok (arr, len) in
      let limit := Nat.min len new_len in
      let? arr := raise_loop limit 0 status arr in
      requirements_loop rest arr len
  end.

(** [while j <= index && j < STATUS_COUNT] *)
Fixpoint lookup_fill (n j radius : nat) (lookup : list nat) : built (list nat) :=
  match n with
  | O => Ok lookup
  | S n' => let? lookup := array_set j radius lookup in lookup_fill n' (S j) radius lookup
  end.

Fixpoint lookup_loop (n radius : nat) (deps : list (option ChunkStatus)) (lookup : list nat) :
    built (list nat) :=
  match n with
  | O => Ok lookup
  | S n' =>
      let? entry := array_get deps radius in
      let? lookup :=
        match entry with
        | Some dep => lookup_fill (Nat.min (S (get_index dep)) STATUS_COUNT) 0 radius lookup
        | None => Ok lookup
        end in
      lookup_loop n' (S radius) deps lookup
  end.

Definition build_radius_lookup (deps : list (option ChunkStatus)) (len : nat) : built (list nat) :=
  lookup_loop len 0 deps (replicate STATUS_COUNT 0%nat).

Definition from_requirements (reqs : list (ChunkStatus * nat)) (parent_status : option ChunkStatus) :
    built ChunkDependencies :=
  let arr := replicate MAX_RADIUS None in
  let? '(arr, len) :=
    match parent_status with
    | Some p => let? arr := array_set 0 (Some p) arr in Ok (arr, 1%nat)
    | None => Ok (arr, 0%nat)
    end in
  let? '(arr, len) := requirements_loop reqs arr len in
  let? lookup := build_radius_lookup arr len in
  Ok (mk_deps arr len lookup).

(** The last radius that refers to the parent status or a later one. *)
Fixpoint parent_radius_loop (n i : nat) (self : list (option ChunkStatus)) (parent_status : ChunkStatus)
    (radius_of_parent : nat) : built nat :=
  match n with
  | O => Ok radius_of_parent
  | S n' =>
      let? entry := array_get self i in
      let radius_of_parent :=
        match entry with
        | Some s => if (get_index parent_status <=? get_index s)%nat then i else radius_of_parent
        | None => radius_of_parent
        end in
      parent_radius_loop n' (S i) self parent_status radius_of_parent
  end.

Definition const_max_status (a b : option ChunkStatus) : option ChunkStatus :=
  match a, b with
  | Some sa, Some sb => if (get_index sb <? get_index sa)%nat then Some sa else Some sb
  | Some s, None | None, Some s => Some s
  | None, None => None
  end.

Fixpoint merge_loop (n dist : nat) (self parent_accumulated : ChunkDependencies) (radius_of_parent : nat)
    (accumulated : list (option ChunkStatus)) : built (list (option ChunkStatus)) :=
  match n with
  | O => Ok accumulated
  | S n' =>
      let dist_in_parent := (dist - radius_of_parent)%nat in
      let? parent_dep :=
        if (dist_in_parent <? deps_len parent_accumulated)%nat
        then array_get (dependency_by_radius parent_accumulated) dist_in_parent else Ok None in
      let? direct_dep :=
        if (dist <? deps_len self)%nat then array_get (dependency_by_radius self) dist else Ok None in
      let? accumulated := array_set dist (const_max_status direct_dep parent_dep) accumulated in
      merge_loop n' (S dist) self parent_accumulated radius_of_parent accumulated
  end.

Definition accumulate (self parent_accumulated : ChunkDependencies) (parent_status : ChunkStatus) :
    built ChunkDependencies :=
  let? radius_of_parent :=
    parent_radius_loop (deps_len self) 0 (dependency_by_radius self) parent_status 0 in
  let new_len := Nat.max (radius_of_parent + deps_len parent_accumulated) (deps_len self) in
  let capped_len := Nat.min new_len MAX_RADIUS in
  let? accumulated :=
    merge_loop capped_len 0 self parent_accumulated radius_of_parent (replicate MAX_RADIUS None) in
  let? lookup := build_radius_lookup accumulated capped_len in
  Ok (mk_deps accumulated capped_len lookup).

Definition get_radius_of (d : ChunkDependencies) (status : ChunkStatus) : nat :=
  default 0%nat (radius_by_dependency d !! get_index status).

Definition get_radius (d : ChunkDependencies) : nat := (deps_len d - 1)%nat.

Definition get (d : ChunkDependencies) (distance : nat) : option ChunkStatus :=
  if (distance <? deps_len d)%nat then default None (dependency_by_radius d !! distance) else None.

(** ** Steps and pyramids *)

Record ChunkStep := mk_step {
  target_status : ChunkStatus;
  direct_dependencies : ChunkDependencies;
  accumulated_dependencies : ChunkDependencies;
  block_state_write_radius : Z
}.

Definition PLACEHOLDER : ChunkStep := mk_step Empty EMPTY EMPTY (-1).

Definition get_accumulated_radius_of (s : ChunkStep) (status : ChunkStatus) : nat :=
  if (get_index status =? get_index (target_status s))%nat then 0%nat
  else get_radius_of (accumulated_dependencies s) status.

Record ChunkPyramid := mk_pyramid { steps : list ChunkStep }.

Definition get_step_to (p : ChunkPyramid) (status : ChunkStatus) : ChunkStep :=
  default PLACEHOLDER (steps p !! get_index status).

(** [ConstPyramidBuilder]: the steps array and the number of steps set. *)
Record ConstPyramidBuilder := mk_builder { builder_steps : list ChunkStep; builder_count : nat }.

Definition builder_new : ConstPyramidBuilder := mk_builder (replicate STATUS_COUNT PLACEHOLDER) 0.

Definition step (status : ChunkStatus) (requirements : list (ChunkStatus * nat)) (write_radius : Z)
    (b : built ConstPyramidBuilder) : built ConstPyramidBuilder :=
  let? b := b in
  let? par :=
    if (0 <? builder_count b)%nat then
      let? p := array_get (builder_steps b) (builder_count b - 1) in Ok (Some p)
    else Ok None in
  let? direct := from_requirements requirements (target_status <$> par) in
  let? accumulated :=
    match par with
    | Some p => accumulate direct (accumulated_dependencies p) (target_status p)
    | None => Ok direct
    end in
  let? arr := array_set (builder_count b) (mk_step status direct accumulated write_radius) (builder_steps b) in
  Ok (mk_builder arr (S (builder_count b))).

Definition build (b : built ConstPyramidBuilder) : ChunkPyramid :=
  match b with
  | Ok b => mk_pyramid (builder_steps b)
  | _ => mk_pyramid []
  end.

(** [define_pyramid!]: the steps in order, each with its requirements and its
    write radius. *)
Definition define_pyramid (l : list (ChunkStatus * list (ChunkStatus * nat) * Z)) : built ConstPyramidBuilder :=
  foldl (fun b '(status, requirements, write_radius) => step status requirements write_radius b)
    (Ok builder_new) l.

Definition generation_builder : built ConstPyramidBuilder := define_pyramid
  [ (Empty, [], -1);
    (StructureStarts, [], -1);
    (StructureReferences, [(StructureStarts, 8%nat)], -1);
    (Biomes, [(StructureStarts, 8%nat)], -1);
    (Terrain, [(StructureStarts, 8%nat); (Biomes, 1%nat)], 0);
    (Features, [(StructureStarts, 8%nat); (Terrain, 1%nat)], 1);
    (InitializeLight, [], -1);
    (Light, [(InitializeLight, 1%nat)], 0);
    (Spawn, [(Biomes, 1%nat)], -1);
    (Full, [], -1) ].

Definition GENERATION_PYRAMID : ChunkPyramid := build generation_builder.

Definition loading_builder : built ConstPyramidBuilder := define_pyramid
  [ (Empty, [], -1);
    (StructureStarts, [], -1);
    (StructureReferences, [], -1);
    (Biomes, [], -1);
    (Terrain, [], -1);
    (Features, [], -1);
    (InitializeLight, [], -1);
    (Light, [(InitializeLight, 1%nat)], -1);
    (Spawn, [], -1);
    (Full, [], -1) ].

Definition LOADING_PYRAMID : ChunkPyramid := build loading_builder.

Definition direct (p : ChunkPyramid) (s : ChunkStatus) (d : nat) : option ChunkStatus :=
  get (direct_dependencies (get_step_to p s)) d.
Definition accumulated (p : ChunkPyramid) (s : ChunkStatus) (d : nat) : option ChunkStatus :=
  get (accumulated_dependencies (get_step_to p s)) d.

(** ** What a step requires

    [required p s k E]: to run the step of [s] on a chunk, the chunks at
    distance [k] must have reached [E].  Either [s] asks for it directly, or
    it asks for [D] at distance [d], and [D] in turn requires [E] at distance
    [e] from there. *)
Inductive required (p : ChunkPyramid) : ChunkStatus -> nat -> ChunkStatus -> Prop :=
| required_direct s d D : direct p s d = Some D -> required p s d D
| required_through s d D e E k :
    direct p s d = Some D -> required p D e E -> (k <= d + e)%nat -> required p s k E.

Definition statuses : list ChunkStatus :=
  [Empty; StructureStarts; StructureReferences; Biomes; Terrain; Features; InitializeLight; Light; Spawn; Full].

Definition at_least (o : option ChunkStatus) (e : ChunkStatus) : bool :=
  match o with Some f => (get_index e <=? get_index f)%nat | None => false end.

(** The finite checks behind the theorems on the two pyramids. *)
Definition direct_covered (p : ChunkPyramid) : bool :=
  forallb (fun s => forallb (fun d =>
    match direct p s d with
    | None => true
    | Some D => at_least (accumulated p s d) D && (get_index D <? get_index s)%nat &&
        forallb (fun e =>
          match accumulated p D e with
          | None => true
          | Some F => forallb (fun k => at_least (accumulated p s k) F) (seq 0 (S (d + e)))
          end) (seq 0 MAX_RADIUS)
    end) (seq 0 MAX_RADIUS)) statuses.

Definition accumulated_reached (p : ChunkPyramid) : bool :=
  forallb (fun s => forallb (fun k =>
    match accumulated p s k with
    | None => true
    | Some F =>
        existsb (fun d =>
          match direct p s d with
          | None => false
          | Some D => ((d =? k)%nat && bool_decide (D = F)) ||
              existsb (fun e => (k <=? d + e)%nat && bool_decide (accumulated p D e = Some F)) (seq 0 MAX_RADIUS)
          end) (seq 0 MAX_RADIUS)
    end) (seq 0 MAX_RADIUS)) statuses.

Definition accumulated_decreasing (p : ChunkPyramid) : bool :=
  forallb (fun s => forallb (fun d =>
    match accumulated p s d with
    | None => true
    | Some F => forallb (fun k => at_least (accumulated p s k) F) (seq 0 d)
    end) (seq 0 MAX_RADIUS)) statuses.

Lemma statuses_all s : s ∈ statuses.
Proof. destruct s; unfold statuses; set_solver. Qed.

Lemma forallb_statuses (f : ChunkStatus -> bool) : forallb f statuses = true -> forall s, f s = true.
Proof. rewrite forallb_forall. intros H s. apply H, list_elem_of_In, statuses_all. Qed.

Lemma forallb_seq (f : nat -> bool) n i : forallb f (seq 0 n) = true -> (i < n)%nat -> f i = true.
Proof. rewrite forallb_forall. intros H Hi. apply H, in_seq. lia. Qed.

Lemma existsb_seq (f : nat -> bool) n : existsb f (seq 0 n) = true -> exists i, f i = true.
Proof. intros (i & _ & H)%existsb_exists. eauto. Qed.

Lemma at_least_spec o e : at_least o e = true -> exists f, o = Some f /\ (get_index e <= get_index f)%nat.
Proof. destruct o as [f|]; [|done]. intros H%Nat.leb_le. eauto. Qed.

(** Every array of a built pyramid has [MAX_RADIUS] cells at most. *)
Definition arrays_bounded (p : ChunkPyramid) : bool :=
  forallb (fun s => (deps_len (direct_dependencies (get_step_to p s)) <=? MAX_RADIUS)%nat &&
    (deps_len (accumulated_dependencies (get_step_to p s)) <=? MAX_RADIUS)%nat) statuses.

Definition pyramid_checked (p : ChunkPyramid) : bool :=
  arrays_bounded p && direct_covered p && accumulated_reached p && accumulated_decreasing p.

Lemma pyramids_checked p : p = GENERATION_PYRAMID \/ p = LOADING_PYRAMID -> pyramid_checked p = true.
Proof. intros [-> | ->]; vm_compute; reflexivity. Qed.

Section Closure.
Context (p : ChunkPyramid) (Hp : pyramid_checked p = true).

Lemma checked_parts :
  arrays_bounded p = true /\ direct_covered p = true /\ accumulated_reached p = true /\
  accumulated_decreasing p = true.
Proof. pose proof Hp as H. unfold pyramid_checked in H. rewrite !andb_true_iff in H. tauto. Qed.

Lemma get_bound d i s : get d i = Some s -> (i < deps_len d)%nat.
Proof. unfold get. destruct (Nat.ltb_spec i (deps_len d)); [done|discriminate]. Qed.

Lemma direct_bound s d D : direct p s d = Some D -> (d < MAX_RADIUS)%nat.
Proof.
  intros H%get_bound. destruct checked_parts as (Hb & _). pose proof (forallb_statuses _ Hb s) as Hs.
  rewrite andb_true_iff, !Nat.leb_le in Hs. lia.
Qed.

Lemma accumulated_bound s d D : accumulated p s d = Some D -> (d < MAX_RADIUS)%nat.
Proof.
  intros H%get_bound. destruct checked_parts as (Hb & _). pose proof (forallb_statuses _ Hb s) as Hs.
  rewrite andb_true_iff, !Nat.leb_le in Hs. lia.
Qed.

Lemma direct_cases s d D :
  direct p s d = Some D ->
  at_least (accumulated p s d) D = true /\ (get_index D < get_index s)%nat /\
  forall e F k, accumulated p D e = Some F -> (k <= d + e)%nat -> at_least (accumulated p s k) F = true.
Proof.
  intros H. pose proof (direct_bound _ _ _ H) as Hd. destruct checked_parts as (_ & Hc & _).
  pose proof (forallb_seq _ _ d (forallb_statuses _ Hc s) Hd) as Hs. cbv beta in Hs. rewrite H in Hs.
  rewrite !andb_true_iff, Nat.ltb_lt in Hs. destruct Hs as [[H1 H2] H3]. split_and!; [done..|].
  intros e F k He Hk. pose proof (forallb_seq _ _ e H3 (accumulated_bound _ _ _ He)) as Hs.
  cbv beta in Hs. rewrite He in Hs. eapply (forallb_seq _ _ k Hs). lia.
Qed.

Lemma required_covered s k E : required p s k E -> at_least (accumulated p s k) E = true.
Proof.
  induction 1 as [s d D H|s d D e E k H HD IH Hk]; [by apply direct_cases|].
  apply at_least_spec in IH as (F & HF & HE).
  pose proof (proj2 (proj2 (direct_cases _ _ _ H)) e F k HF Hk) as (F' & -> & HF')%at_least_spec.
  apply Nat.leb_le. lia.
Qed.

Lemma reached_required s : forall k F, accumulated p s k = Some F -> required p s k F.
Proof.
  remember (get_index s) as n eqn:Hn. revert s Hn. induction n as [n IH] using lt_wf_ind. intros s -> k F H.
  pose proof (accumulated_bound _ _ _ H) as Hb. destruct checked_parts as (_ & _ & Hr & _).
  pose proof (forallb_seq _ _ k (forallb_statuses _ Hr s) Hb) as Hs. cbv beta in Hs. rewrite H in Hs.
  apply existsb_seq in Hs as [d Hs]. destruct (direct p s d) as [D|] eqn:HD; [|done].
  apply orb_true_iff in Hs as [Hs|Hs].
  - apply andb_true_iff in Hs as [->%Nat.eqb_eq ->%bool_decide_eq_true]. by apply required_direct.
  - apply existsb_seq in Hs as [e Hs]. apply andb_true_iff in Hs as [Hk%Nat.leb_le He%bool_decide_eq_true].
    eapply required_through; [exact HD| |exact Hk]. eapply IH; [|done|exact He].
    apply (direct_cases _ _ _ HD).
Qed.

(** What is required at a distance is available closer by. *)
Lemma required_covered_within s d k E :
  required p s d E -> (k <= d)%nat -> at_least (accumulated p s k) E = true.
Proof.
  intros H%required_covered Hk. destruct (decide (k = d)) as [->|Hne]; [done|].
  apply at_least_spec in H as (F & HF & HE). destruct checked_parts as (_ & _ & _ & Hd).
  pose proof (forallb_seq _ _ d (forallb_statuses _ Hd s) (accumulated_bound _ _ _ HF)) as Hs.
  cbv beta in Hs. rewrite HF in Hs. pose proof (forallb_seq _ _ k Hs ltac:(lia)) as Hkk. cbv beta in Hkk.
  apply at_least_spec in Hkk as (F' & -> & HF'). apply Nat.leb_le. lia.
Qed.
End Closure.

(** The accumulated dependencies of both pyramids are exactly the
    transitive requirements of their steps: whatever running a status on a
    chunk requires of the chunks at distance [k], through any chain of direct
    dependencies, is covered by the entry at [k], and that entry itself is
    required. *)
Theorem accumulated_exact p s k :
  p = GENERATION_PYRAMID \/ p = LOADING_PYRAMID ->
  (forall E, required p s k E ->
     exists F, accumulated p s k = Some F /\ (get_index E <= get_index F)%nat) /\
  (forall F, accumulated p s k = Some F -> required p s k F).
Proof.
  intros Hp%pyramids_checked. split.
  - intros E H. by apply at_least_spec, required_covered.
  - by apply reached_required.
Qed.

Lemma accumulated_exact_witness :
  exists F, accumulated GENERATION_PYRAMID Full 2 = Some F /\ F = Terrain /\
    required GENERATION_PYRAMID Full 2 F.
Proof.
  destruct (accumulated_exact GENERATION_PYRAMID Full 2 (or_introl eq_refl)) as [_ H].
  exists Terrain. split; [vm_compute; reflexivity|]. split; [reflexivity|]. apply H. vm_compute. reflexivity.
Defined.

(** The status order: [get_index] and [from_index] are inverse,
    [next] is the status with the following index and [parent] the one with
    the preceding index. *)
Theorem status_order s :
  from_index (get_index s) = Some s /\
  (forall i, from_index i = Some s <-> i = get_index s) /\
  next s = from_index (S (get_index s)) /\
  (forall t, next s = Some t <-> parent t = Some s).
Proof.
  split_and!; [by destruct s| |by destruct s|].
  - intros i. do 10 (destruct i as [|i]; [destruct s; simpl; split; congruence|]).
    destruct s; simpl; split; congruence.
  - intros t. destruct s, t; simpl; split; congruence.
Qed.
