(* ===== verification/TicketLevel.v ===== *)
(** * Ticket levels

    Models [steel-core/src/chunk/chunk_ticket_manager.rs]: the level a ticket
    gives a chunk, what a propagated level permits (full, block ticking,
    entity ticking) and the generation status it permits, which the level
    takes from the dependency pyramid of [ChunkPyramid]. *)

From Stdlib Require Import Lia ZArith.
From stdpp Require Import prelude list.
From S2P Require Import Prelude ChunkPyramid.

Definition MAX_SUPPORTED_VIEW_DISTANCE : Z := 128.
Definition FULL_CHUNK_LEVEL_RAW : Z := MAX_SUPPORTED_VIEW_DISTANCE + 2.
Definition full_dependencies : ChunkDependencies :=
  accumulated_dependencies (get_step_to GENERATION_PYRAMID Full).
Definition RADIUS_AROUND_FULL_CHUNK : Z := u8 (Z.of_nat (get_radius_of full_dependencies Empty)).
Definition MAX_LEVEL_RAW : Z := FULL_CHUNK_LEVEL_RAW + RADIUS_AROUND_FULL_CHUNK.

(** A [ChunkTicketLevel] is its raw [u8]. *)
Definition ENTITY_TICKING_CHUNK : Z := MAX_SUPPORTED_VIEW_DISTANCE.
Definition BLOCK_TICKING_CHUNK : Z := MAX_SUPPORTED_VIEW_DISTANCE + 1.

Definition level_new (raw : Z) : option Z := if raw <=? MAX_LEVEL_RAW then Some raw else None.

(** [u8::saturating_sub] *)
Definition saturating_sub (a b : Z) : Z := Z.max 0 (a - b).

Definition for_full_chunk_radius (radius : Z) : Z := saturating_sub FULL_CHUNK_LEVEL_RAW radius.
Definition for_entity_ticking_radius (radius : Z) : Z := saturating_sub ENTITY_TICKING_CHUNK radius.

Inductive FullChunkStatus := Inaccessible | FullStatus | BlockTicking | EntityTicking.

Definition full_status_index (s : FullChunkStatus) : Z :=
  match s with Inaccessible => 0 | FullStatus => 1 | BlockTicking => 2 | EntityTicking => 3 end.

Definition is_or_after (self status : FullChunkStatus) : bool :=
  full_status_index status <=? full_status_index self.

Definition level_full_status (level : Z) : FullChunkStatus :=
  if level <=? ENTITY_TICKING_CHUNK then EntityTicking
  else if level <=? BLOCK_TICKING_CHUNK then BlockTicking
  else if level <=? FULL_CHUNK_LEVEL_RAW then FullStatus
  else Inaccessible.

Definition is_full (level : Z) : bool := level <=? FULL_CHUNK_LEVEL_RAW.
Definition level_is_block_ticking (level : Z) : bool := level <=? BLOCK_TICKING_CHUNK.
Definition level_is_entity_ticking (level : Z) : bool := level <=? ENTITY_TICKING_CHUNK.

Definition full_status (level : option Z) : FullChunkStatus :=
  match level with Some level => level_full_status level | None => Inaccessible end.
Definition is_block_ticking (level : option Z) : bool :=
  match level with Some level => level_is_block_ticking level | None => false end.
Definition is_entity_ticking (level : option Z) : bool :=
  match level with Some level => level_is_entity_ticking level | None => false end.

Definition generation_status (level : option Z) : option ChunkStatus :=
  match level with
  | None => None
  | Some level =>
      if is_full level then Some Full
      else
        let distance := Z.to_nat (level - FULL_CHUNK_LEVEL_RAW) in
        get full_dependencies distance
  end.

Definition ticket_level_for_status (status : ChunkStatus) : Z :=
  if decide (status = Full) then FULL_CHUNK_LEVEL_RAW
  else FULL_CHUNK_LEVEL_RAW + u8 (Z.of_nat (get_radius_of full_dependencies status)).

(** ** Facts *)

Lemma required_trans p s d D e E k :
  required p s d D -> required p D e E -> (k <= d + e)%nat -> required p s k E.
Proof.
  intros H. revert k. induction H as [s d D H|s d D e' D' k' H HD IH Hk']; intros k He Hk.
  - by eapply required_through.
  - eapply required_through; [exact H|apply (IH (e' + e)%nat He); lia|lia].
Qed.

Lemma level_of_distance level :
  FULL_CHUNK_LEVEL_RAW < level ->
  generation_status (Some level) = accumulated GENERATION_PYRAMID Full (Z.to_nat (level - FULL_CHUNK_LEVEL_RAW)).
Proof. intros H. unfold generation_status, is_full. by rewrite (proj2 (Z.leb_gt _ _) H). Qed.

Lemma index_le_full E : (get_index E <= get_index Full)%nat.
Proof. destruct E; simpl; lia. Qed.

(** A ticket gives a chunk enough around it: when a chunk's level permits
    status [s], and running [s] requires status [E] of the chunks at distance
    [d], every chunk whose level is at most [d] weaker, as propagation makes
    the chunks at distance [d], is permitted [E] too. *)
Theorem level_permits_dependencies level s d E level' :
  generation_status (Some level) = Some s -> required GENERATION_PYRAMID s d E ->
  0 <= level' <= level + Z.of_nat d ->
  exists F, generation_status (Some level') = Some F /\ (get_index E <= get_index F)%nat.
Proof.
  intros Hs Hr Hl. pose proof (pyramids_checked GENERATION_PYRAMID (or_introl eq_refl)) as Hp.
  destruct (Z.le_gt_cases level' FULL_CHUNK_LEVEL_RAW) as [Hf|Hf].
  { exists Full. split; [|apply index_le_full]. unfold generation_status, is_full.
    by rewrite (proj2 (Z.leb_le _ _) Hf). }
  assert (Hr' : exists i, (Z.to_nat (level' - FULL_CHUNK_LEVEL_RAW) <= i)%nat /\ required GENERATION_PYRAMID Full i E).
  { destruct (Z.le_gt_cases level FULL_CHUNK_LEVEL_RAW) as [Hg|Hg].
    - exists d. split; [lia|]. unfold generation_status, is_full in Hs.
      rewrite (proj2 (Z.leb_le _ _) Hg) in Hs. by injection Hs as <-.
    - rewrite level_of_distance in Hs by done.
      exists (Z.to_nat (level - FULL_CHUNK_LEVEL_RAW) + d)%nat. split; [lia|].
      eapply required_trans; [by apply reached_required|exact Hr|lia]. }
  destruct Hr' as (i & Hi & Hr'). rewrite level_of_distance by lia.
  by apply at_least_spec, (required_covered_within _ Hp _ i).
Qed.

Lemma level_permits_dependencies_witness :
  exists F, generation_status (Some 132) = Some F /\ (get_index Terrain <= get_index F)%nat.
Proof.
  apply (level_permits_dependencies 130 Full 2 Terrain 132).
  - vm_compute. reflexivity.
  - apply (reached_required _ (pyramids_checked _ (or_introl eq_refl))). vm_compute. reflexivity.
  - vm_compute. split; congruence.
Defined.

(** The finite check behind the next theorem. *)
Definition status_levels_checked : bool :=
  forallb (fun s => (0 <=? ticket_level_for_status s) && (ticket_level_for_status s <=? MAX_LEVEL_RAW) &&
    forallb (fun n => Bool.eqb (at_least (generation_status (Some (Z.of_nat n))) s)
                        (Z.of_nat n <=? ticket_level_for_status s)) (seq 0 256)) statuses.

(** The level a chunk request asks for is the weakest one that permits its
    status: it is a valid level, and a level permits the status or a later
    one exactly when it is at least as strong. *)
Theorem ticket_level_for_status_weakest s :
  level_new (ticket_level_for_status s) = Some (ticket_level_for_status s) /\
  forall level, 0 <= level < 256 ->
    (exists F, generation_status (Some level) = Some F /\ (get_index s <= get_index F)%nat) <->
    level <= ticket_level_for_status s.
Proof.
  assert (Hc : status_levels_checked = true) by (vm_compute; reflexivity).
  pose proof (forallb_statuses _ Hc s) as Hs. cbv beta in Hs. rewrite !andb_true_iff, !Z.leb_le in Hs.
  destruct Hs as [[H0 H1] Hl]. split; [unfold level_new; by rewrite (proj2 (Z.leb_le _ _) H1)|].
  intros level Hr. pose proof (forallb_seq _ _ (Z.to_nat level) Hl ltac:(lia)) as He. cbv beta in He.
  rewrite Z2Nat.id in He by lia. apply Bool.eqb_prop in He. rewrite <- Z.leb_le, <- He. split.
  - intros (F & -> & HF). by apply Nat.leb_le.
  - apply at_least_spec.
Qed.

Lemma ticket_level_for_status_weakest_witness :
  0 <= 132 < 256 /\ ticket_level_for_status Terrain = 132 /\
  exists F, generation_status (Some 132) = Some F /\ (get_index Terrain <= get_index F)%nat.
Proof.
  split; [lia|]. split; [vm_compute; reflexivity|].
  apply (proj2 (ticket_level_for_status_weakest Terrain) 132); vm_compute; split || idtac; congruence.
Defined.

(** The largest level kept by propagation reaches exactly the chunks a
    full chunk's generation depends on: 11 beyond the full boundary, which is
    141. *)
Theorem max_level_reaches_dependencies :
  MAX_LEVEL_RAW = 141 /\ deps_len full_dependencies = 12%nat /\
  (forall k E, required GENERATION_PYRAMID Full k E -> Z.of_nat k <= MAX_LEVEL_RAW - FULL_CHUNK_LEVEL_RAW) /\
  generation_status (Some MAX_LEVEL_RAW) = Some StructureStarts /\
  generation_status (Some (MAX_LEVEL_RAW + 1)) = None.
Proof.
  split_and!; try (vm_compute; reflexivity). intros k E Hr.
  apply (required_covered _ (pyramids_checked _ (or_introl eq_refl))) in Hr.
  apply at_least_spec in Hr as (F & HF & _). apply get_bound in HF.
  assert (deps_len full_dependencies = 12%nat) as H by (vm_compute; reflexivity). unfold full_dependencies in H.
  rewrite H in HF. assert (MAX_LEVEL_RAW - FULL_CHUNK_LEVEL_RAW = 11) as -> by (vm_compute; reflexivity). lia.
Qed.
