(* ===== verification/ChunkTracker.v ===== *)
(** * Ticket level propagation

    Models [steel-core/src/chunk/chunk_tracker/mod.rs]: the incremental
    algorithm that keeps, for every chunk, the least of [source level +
    distance] over the ticket sources, and reports what changed.

    Iterating a hash map visits its entries in an unspecified order, which is
    an argument ([hash_iter]) of the pass that iterates.  The propagation loop
    takes fuel; [OutOfFuel] is the only error value, and every theorem on a
    pass shows that enough fuel exists.  Coordinates are [i32] and wrap, so
    the plane is a torus; distances are the shorter way around. *)

From Stdlib Require Import Lia ZArith.
From stdpp Require Import prelude list gmap sorting.
From S2P Require Import Prelude Sums Collections Position ChunkPyramid TicketLevel.

(** The visiting order of a hash map. *)
Record hash_iter := mk_iter {
  entries : forall {A : Type}, gmap ChunkPos A -> list (ChunkPos * A);
  entries_perm : forall {A : Type} (m : gmap ChunkPos A), entries m ≡ₚ map_to_list m
}.

Definition some_order : hash_iter := mk_iter (fun A m => map_to_list m) (fun A m => Permutation_refl _).

(** ** [LeveledPropagationQueue] *)

Record LeveledPropagationQueue := mk_queue {
  buckets : list (list ChunkPos);
  first_queued_level : Z
}.

Definition queue_new (level_count : Z) : LeveledPropagationQueue :=
  mk_queue (replicate (Z.to_nat level_count) []) level_count.

Definition enqueue (q : LeveledPropagationQueue) (pos : ChunkPos) (level : Z) : run LeveledPropagationQueue :=
  match buckets q !! Z.to_nat level with
  | Some b => Ok (mk_queue (<[Z.to_nat level := b ++ [pos]]> (buckets q)) (Z.min (first_queued_level q) level))
  | None => Panic
  end.

(** The loop of [pop]: [n] levels are left from [first_queued_level]. *)
Fixpoint pop_loop (n : nat) (q : LeveledPropagationQueue) :
    option (ChunkPos * Z) * LeveledPropagationQueue :=
  match n with
  | O => (None, q)
  | S n' =>
      let i := Z.to_nat (first_queued_level q) in
      let bucket := default [] (buckets q !! i) in
      match last bucket with
      | Some pos =>
          (Some (pos, first_queued_level q),
           mk_queue (<[i := take (length bucket - 1) bucket]> (buckets q)) (first_queued_level q))
      | None => pop_loop n' (mk_queue (buckets q) (first_queued_level q + 1))
      end
  end.

Definition pop (q : LeveledPropagationQueue) : option (ChunkPos * Z) * LeveledPropagationQueue :=
  pop_loop (length (buckets q) - Z.to_nat (first_queued_level q)) q.

Definition queue_is_empty (q : LeveledPropagationQueue) : bool :=
  first_queued_level q =? Z.of_nat (length (buckets q)).

(** ** [ChunkTracker] *)

Record SourceLevelUpdate := mk_source { source_pos : ChunkPos; source_new : option Z }.
Record ChunkLevelChange := mk_change { change_pos : ChunkPos; new_level : option Z }.

Record ChunkTracker := mk_tracker {
  source_levels : gmap ChunkPos Z;
  pending_source_levels : gmap ChunkPos Z;
  levels : gmap ChunkPos Z;
  pending_levels : gmap ChunkPos Z;
  propagation_queue : LeveledPropagationQueue;
  changes : list ChunkLevelChange
}.

Definition set_levels (m : gmap ChunkPos Z) (t : ChunkTracker) : ChunkTracker :=
  mk_tracker (source_levels t) (pending_source_levels t) m (pending_levels t) (propagation_queue t) (changes t).
Definition set_pending (m : gmap ChunkPos Z) (t : ChunkTracker) : ChunkTracker :=
  mk_tracker (source_levels t) (pending_source_levels t) (levels t) m (propagation_queue t) (changes t).
Definition set_queue (q : LeveledPropagationQueue) (t : ChunkTracker) : ChunkTracker :=
  mk_tracker (source_levels t) (pending_source_levels t) (levels t) (pending_levels t) q (changes t).
Definition set_changes (l : list ChunkLevelChange) (t : ChunkTracker) : ChunkTracker :=
  mk_tracker (source_levels t) (pending_source_levels t) (levels t) (pending_levels t) (propagation_queue t) l.

(** [(change.pos.0.x, change.pos.0.y)] *)
Definition pos_cmp (p q : ChunkPos) : comparison := then_with (cx p ?= cx q) (cy p ?= cy q).
Definition change_cmp : ChunkLevelChange -> ChunkLevelChange -> comparison := contramap change_pos pos_cmp.

Section Tracker.
Context (MAX_LEVEL : Z).

Definition ABSENT_LEVEL : Z := MAX_LEVEL + 1.

Definition tracker_new : run ChunkTracker :=
  if MAX_LEVEL <=? MAX_LEVEL_RAW then
    Ok (mk_tracker ∅ ∅ ∅ ∅ (queue_new (ABSENT_LEVEL + 1)) [])
  else Panic.

Definition source_level (t : ChunkTracker) (pos : ChunkPos) : Z :=
  default ABSENT_LEVEL (source_levels t !! pos).
Definition level (t : ChunkTracker) (pos : ChunkPos) : Z :=
  default ABSENT_LEVEL (levels t !! pos).
Definition get_level (t : ChunkTracker) (pos : ChunkPos) : option Z := levels t !! pos.

Definition apply_source_update (t : ChunkTracker) (update : SourceLevelUpdate) : run ChunkTracker :=
  if match source_new update with Some l => l <=? MAX_LEVEL | None => true end then
    let pos := source_pos update in
    let new_level := default ABSENT_LEVEL (source_new update) in
    let old_level := source_level t pos in
    if old_level =? new_level then Ok t
    else
      let original_level := default old_level (pending_source_levels t !! pos) in
      let pending := <[pos := original_level]> (pending_source_levels t) in
      let sources :=
        if new_level =? ABSENT_LEVEL then delete pos (source_levels t)
        else <[pos := new_level]> (source_levels t) in
      let pending := if original_level =? new_level then delete pos pending else pending in
      Ok (mk_tracker sources pending (levels t) (pending_levels t) (propagation_queue t) (changes t))
  else Panic.

Fixpoint apply_source_updates (t : ChunkTracker) (updates : list SourceLevelUpdate) : run ChunkTracker :=
  match updates with
  | [] => Ok t
  | u :: rest => let? t := apply_source_update t u in apply_source_updates t rest
  end.

(** [u8::saturating_add(1)] *)
Definition saturating_succ (l : Z) : Z := Z.min 255 (l + 1).

(** The loop of [compute_level], with its early exit at 0. *)
Fixpoint compute_loop (t : ChunkTracker) (known_parent : option ChunkPos) (ns : list ChunkPos) (computed : Z) : Z :=
  match ns with
  | [] => computed
  | n :: rest =>
      if decide (Some n = known_parent) then compute_loop t known_parent rest computed
      else
        let computed := Z.min computed (saturating_succ (level t n)) in
        if computed =? 0 then computed else compute_loop t known_parent rest computed
  end.

Definition compute_level (t : ChunkTracker) (pos : ChunkPos) (known_parent : option ChunkPos)
    (level_from_parent : Z) : Z :=
  Z.min (compute_loop t known_parent (chunk_neighbors pos) (Z.min level_from_parent (source_level t pos)))
    ABSENT_LEVEL.

Definition replace_pending_level (t : ChunkTracker) (pos : ChunkPos) (current_level computed_level : Z) :
    run ChunkTracker :=
  if current_level =? computed_level then Ok (set_pending (delete pos (pending_levels t)) t)
  else
    let t := set_pending (<[pos := computed_level]> (pending_levels t)) t in
    let? q := enqueue (propagation_queue t) pos (Z.min current_level computed_level) in
    Ok (set_queue q t).

Definition check_edge (t : ChunkTracker) (known_parent : option ChunkPos) (pos : ChunkPos)
    (level_from_parent : Z) (only_decrease : bool) : run ChunkTracker :=
  let current_level := level t pos in
  let old_computed_level := default current_level (pending_levels t !! pos) in
  let new_computed_level :=
    if only_decrease then Z.min old_computed_level level_from_parent
    else compute_level t pos known_parent level_from_parent in
  replace_pending_level t pos current_level new_computed_level.

Definition check_neighbor (t : ChunkTracker) (from to : ChunkPos) (from_level : Z) (only_decrease : bool) :
    run ChunkTracker :=
  let propagated_level := Z.min (saturating_succ from_level) ABSENT_LEVEL in
  if only_decrease then check_edge t (Some from) to propagated_level true
  else
    let old_computed_level := default (level t to) (pending_levels t !! to) in
    if propagated_level =? old_computed_level then check_edge t (Some from) to ABSENT_LEVEL false else Ok t.

Fixpoint neighbors_loop (t : ChunkTracker) (pos : ChunkPos) (level : Z) (only_decrease : bool)
    (ns : list ChunkPos) : run ChunkTracker :=
  match ns with
  | [] => Ok t
  | neighbor :: rest =>
      let? t := check_neighbor t pos neighbor level only_decrease in
      neighbors_loop t pos level only_decrease rest
  end.

Definition check_neighbors_after_update (t : ChunkTracker) (pos : ChunkPos) (level : Z) (only_decrease : bool) :
    run ChunkTracker :=
  if only_decrease && (MAX_LEVEL <=? level) then Ok t
  else neighbors_loop t pos level only_decrease (chunk_neighbors pos).

Definition set_level (t : ChunkTracker) (pos : ChunkPos) (level : Z) (original_levels : gmap ChunkPos (option Z)) :
    run (ChunkTracker * gmap ChunkPos (option Z)) :=
  let original_levels :=
    match original_levels !! pos with
    | Some _ => original_levels
    | None => <[pos := levels t !! pos]> original_levels
    end in
  if level =? ABSENT_LEVEL then Ok (set_levels (delete pos (levels t)) t, original_levels)
  else
    match level_new level with
    | None => Panic
    | Some l => Ok (set_levels (<[pos := l]> (levels t)) t, original_levels)
    end.

Definition schedule_level (t : ChunkTracker) (pos : ChunkPos) (computed_level : Z) : run ChunkTracker :=
  let current_level := level t pos in
  match pending_levels t !! pos with
  | Some _ => Panic
  | None =>
      let t := set_pending (<[pos := computed_level]> (pending_levels t)) t in
      let? q := enqueue (propagation_queue t) pos (Z.min current_level computed_level) in
      Ok (set_queue q t)
  end.

Definition apply_pending_level (t : ChunkTracker) (pos : ChunkPos) (computed_level : Z)
    (original_levels : gmap ChunkPos (option Z)) : run (ChunkTracker * gmap ChunkPos (option Z)) :=
  let current_level := level t pos in
  if computed_level <? current_level then
    let? '(t, original_levels) := set_level t pos computed_level original_levels in
    let? t := check_neighbors_after_update t pos computed_level true in
    Ok (t, original_levels)
  else if current_level <? computed_level then
    let? '(t, original_levels) := set_level t pos ABSENT_LEVEL original_levels in
    let? t := if computed_level =? ABSENT_LEVEL then Ok t else schedule_level t pos computed_level in
    let? t := check_neighbors_after_update t pos current_level false in
    Ok (t, original_levels)
  else Ok (t, original_levels).

(** The [for] loop over the source changes. *)
Fixpoint source_loop (t : ChunkTracker) (source_changes : list (ChunkPos * Z)) : run ChunkTracker :=
  match source_changes with
  | [] => Ok t
  | (pos, old_level) :: rest =>
      let new_level := source_level t pos in
      let? t := check_edge t None pos new_level (new_level <? old_level) in
      source_loop t rest
  end.

(** The [while let] loop. *)
Fixpoint propagate (fuel : nat) (t : ChunkTracker) (original_levels : gmap ChunkPos (option Z)) :
    run (ChunkTracker * gmap ChunkPos (option Z)) :=
  match fuel with
  | O => Err OutOfFuel
  | S fuel =>
      match pop (propagation_queue t) with
      | (None, q) => Ok (set_queue q t, original_levels)
      | (Some (pos, queued_priority), q) =>
          let t := set_queue q t in
          match pending_levels t !! pos with
          | None => propagate fuel t original_levels
          | Some computed_level =>
              if negb (Z.min (level t pos) computed_level =? queued_priority)
              then propagate fuel t original_levels
              else
                let t := set_pending (delete pos (pending_levels t)) t in
                let? '(t, original_levels) := apply_pending_level t pos computed_level original_levels in
                propagate fuel t original_levels
          end
      end
  end.

Definition level_changes (t : ChunkTracker) (original_levels : list (ChunkPos * option Z)) :
    list ChunkLevelChange :=
  omap (fun '(pos, old_level) =>
    let new_level := levels t !! pos in
    if decide (old_level = new_level) then None else Some (mk_change pos new_level)) original_levels.

Definition run_all_updates (fuel : nat) (order : hash_iter) (t : ChunkTracker) : run ChunkTracker :=
  let t := set_changes [] t in
  if decide (pending_source_levels t = ∅) then Ok t
  else if negb (bool_decide (pending_levels t = ∅)) then Panic
  else if negb (queue_is_empty (propagation_queue t)) then Panic
  else
    let source_changes := entries order (pending_source_levels t) in
    let t := mk_tracker (source_levels t) ∅ (levels t) (pending_levels t) (propagation_queue t) (changes t) in
    let? t := source_loop t source_changes in
    let? '(t, original_levels) := propagate fuel t ∅ in
    Ok (set_changes (sort_by change_cmp (level_changes t (entries order original_levels))) t).

Definition take_changes (t : ChunkTracker) : list ChunkLevelChange * ChunkTracker :=
  (changes t, set_changes [] t).

Definition recycle_changes (t : ChunkTracker) (l : list ChunkLevelChange) : run ChunkTracker :=
  match changes t with [] => Ok (set_changes [] t) | _ => Panic end.

(** ** The specification *)

(** The shorter way around the torus of [i32] coordinates. *)
Definition chunk_distance (p q : ChunkPos) : Z :=
  Z.max (Z.abs (i32 (cx p - cx q))) (Z.abs (i32 (cy p - cy q))).

Definition is_chunk (p : ChunkPos) : Prop := is_s 32 (cx p) /\ is_s 32 (cy p).

(** The level at [p]: the least of source level + distance, if at most
    [MAX_LEVEL]. *)
Definition best (sources : gmap ChunkPos Z) (p : ChunkPos) : Z :=
  map_fold (fun s l best => Z.min best (l + chunk_distance s p)) ABSENT_LEVEL sources.
Definition reference_level (sources : gmap ChunkPos Z) (p : ChunkPos) : option Z :=
  if best sources p <=? MAX_LEVEL then Some (best sources p) else None.
End Tracker.

(** ** Geometry of the torus *)

Lemma i32_spec a : exists k, i32 a = a + k * 4294967296 /\ - 2147483648 <= i32 a < 2147483648.
Proof.
  unfold i32, wraps. change (2 ^ (32 - 1)) with 2147483648. change (2 ^ 32) with 4294967296.
  exists (- ((a + 2147483648) / 4294967296)). pose proof (Z.div_mod (a + 2147483648) 4294967296 ltac:(lia)).
  pose proof (Z.mod_pos_bound (a + 2147483648) 4294967296 ltac:(lia)). lia.
Qed.

Lemma is_s32 z : is_s 32 z <-> - 2147483648 <= z < 2147483648.
Proof. reflexivity. Qed.

Lemma in_neighbors p q :
  q ∈ chunk_neighbors p <->
  exists dx dy, -1 <= dx <= 1 /\ -1 <= dy <= 1 /\ (dx <> 0 \/ dy <> 0) /\
    q = mk_chunk (i32 (cx p + dx)) (i32 (cy p + dy)).
Proof.
  unfold chunk_neighbors. rewrite list_elem_of_fmap. split.
  - intros ([dx dy] & -> & Hin). exists dx, dy. rewrite !elem_of_cons, elem_of_nil in Hin.
    assert (-1 <= dx <= 1 /\ -1 <= dy <= 1 /\ (dx <> 0 \/ dy <> 0)) by (naive_solver lia). tauto.
  - intros (dx & dy & Hx & Hy & Hne & ->). exists (dx, dy). split; [done|]. rewrite !elem_of_cons.
    assert (dx = -1 \/ dx = 0 \/ dx = 1) as [-> | [-> | ->]] by lia;
      assert (dy = -1 \/ dy = 0 \/ dy = 1) as [-> | [-> | ->]] by lia; tauto || lia.
Qed.

Lemma neighbor_is_chunk p q : q ∈ chunk_neighbors p -> is_chunk q.
Proof. intros (dx & dy & _ & _ & _ & ->)%in_neighbors. split; by apply wraps_range. Qed.

Lemma i32_shift_back a d : is_s 32 a -> i32 (i32 (a + d) - d) = a.
Proof.
  rewrite is_s32. intros Ha. destruct (i32_spec (a + d)) as (k & H1 & H2).
  destruct (i32_spec (i32 (a + d) - d)) as (k' & H3 & H4). lia.
Qed.

Lemma neighbors_sym p q : is_chunk p -> q ∈ chunk_neighbors p -> p ∈ chunk_neighbors q.
Proof.
  intros [Hx Hy] (dx & dy & H1 & H2 & Hne & ->)%in_neighbors. apply in_neighbors.
  exists (- dx), (- dy). split_and!; try lia. cbn [cx cy]. rewrite !Z.add_opp_r, !i32_shift_back by done.
  by destruct p.
Qed.

Lemma i32_shift_neq a d d' : -1 <= d <= 1 -> -1 <= d' <= 1 -> i32 (a + d) = i32 (a + d') -> d = d'.
Proof.
  intros Hd Hd' H. destruct (i32_spec (a + d)) as (k & H1 & _).
  destruct (i32_spec (a + d')) as (k' & H2 & _). lia.
Qed.

Lemma neighbors_irrefl p : is_chunk p -> p ∉ chunk_neighbors p.
Proof.
  intros [Hx Hy] (dx & dy & H1 & H2 & Hne & E)%in_neighbors. destruct p as [x y]. cbn [cx cy] in *.
  injection E as Ex Ey. rewrite is_s32 in *.
  destruct (i32_spec (x + dx)) as (k & H3 & _). destruct (i32_spec (y + dy)) as (k' & H4 & _). lia.
Qed.

Lemma neighbors_nodup p : NoDup (chunk_neighbors p).
Proof.
  unfold chunk_neighbors. apply NoDup_fmap_2_strong; [|by apply (bool_decide_unpack _); vm_compute].
  intros [dx dy] [dx' dy'] H H' [= Ex Ey].
  assert (Hb : forall a b : Z, (a, b) ∈ [(-1, -1); (0, -1); (1, -1); (-1, 0); (1, 0); (-1, 1); (0, 1); (1, 1)] ->
    -1 <= a <= 1 /\ -1 <= b <= 1).
  { intros a b Hin. rewrite !elem_of_cons, elem_of_nil in Hin. naive_solver lia. }
  apply Hb in H as [H1 H2], H' as [H3 H4]. f_equal; by eapply i32_shift_neq.
Qed.

Lemma wrap_dist_step a b e :
  -1 <= e <= 1 -> Z.abs (i32 (a - i32 (b + e))) <= Z.abs (i32 (a - b)) + 1.
Proof.
  intros He. destruct (i32_spec (b + e)) as (k1 & H1 & _). destruct (i32_spec (a - i32 (b + e))) as (k2 & H2 & H3).
  destruct (i32_spec (a - b)) as (k3 & H4 & H5). lia.
Qed.

Lemma wrap_dist_towards a b :
  Z.abs (i32 (a - i32 (b + Z.sgn (i32 (a - b))))) = Z.max 0 (Z.abs (i32 (a - b)) - 1).
Proof.
  destruct (i32_spec (a - b)) as (k3 & H4 & H5).
  set (e := Z.sgn (i32 (a - b))). destruct (i32_spec (b + e)) as (k1 & H1 & _).
  destruct (i32_spec (a - i32 (b + e))) as (k2 & H2 & H3). lia.
Qed.

Lemma distance_neighbor s p q : q ∈ chunk_neighbors p -> chunk_distance s q <= chunk_distance s p + 1.
Proof.
  intros (dx & dy & Hx & Hy & _ & ->)%in_neighbors. unfold chunk_distance. cbn [cx cy].
  pose proof (wrap_dist_step (cx s) (cx p) dx Hx). pose proof (wrap_dist_step (cy s) (cy p) dy Hy). lia.
Qed.

Lemma distance_nonneg s p : 0 <= chunk_distance s p.
Proof. unfold chunk_distance. lia. Qed.

Lemma distance_zero s p : is_chunk s -> is_chunk p -> chunk_distance s p = 0 <-> s = p.
Proof.
  intros [Hsx Hsy] [Hpx Hpy]. rewrite is_s32 in *. unfold chunk_distance.
  destruct (i32_spec (cx s - cx p)) as (k1 & H1 & H2). destruct (i32_spec (cy s - cy p)) as (k2 & H3 & H4). split.
  - intros H. destruct s as [a b], p as [c d]. cbn [cx cy] in *. f_equal; lia.
  - intros ->. lia.
Qed.

Lemma distance_closer s p :
  0 < chunk_distance s p ->
  exists q, q ∈ chunk_neighbors p /\ chunk_distance s q = chunk_distance s p - 1.
Proof.
  unfold chunk_distance. intros H.
  set (dx := Z.sgn (i32 (cx s - cx p))). set (dy := Z.sgn (i32 (cy s - cy p))).
  exists (mk_chunk (i32 (cx p + dx)) (i32 (cy p + dy))). split.
  - apply in_neighbors. exists dx, dy. subst dx dy. split_and!; try done; lia.
  - cbn [cx cy]. subst dx dy. rewrite !wrap_dist_towards. lia.
Qed.

(** ** The equation of the levels *)

Lemma glb_eq (a b : Z) : (forall x, x <= a <-> x <= b) -> a = b.
Proof. intros H. pose proof (proj1 (H a)). pose proof (proj2 (H b)). lia. Qed.

Section Equation.
Context (MAX_LEVEL : Z).
Notation ABSENT := (ABSENT_LEVEL MAX_LEVEL).

(** The level the neighbours and the source of [p] give it. *)
Definition rhs (src lvl : ChunkPos -> Z) (p : ChunkPos) : Z :=
  foldr (fun n a => Z.min a (lvl n + 1)) (Z.min ABSENT (src p)) (chunk_neighbors p).

Lemma rhs_glb src lvl p x :
  x <= rhs src lvl p <-> x <= ABSENT /\ x <= src p /\ forall n, n ∈ chunk_neighbors p -> x <= lvl n + 1.
Proof.
  unfold rhs. generalize (chunk_neighbors p). induction l as [|n ns IH]; simpl.
  - split; [|lia]. intros H. split_and!; try lia. by intros n ?%elem_of_nil.
  - rewrite Z.min_glb_iff, IH. setoid_rewrite elem_of_cons. split.
    + intros [(H1 & H2 & H3) H4]. split_and!; try done. intros m [->|Hm]; auto.
    + intros (H1 & H2 & H3). split_and!; auto.
Qed.

Lemma best_glb sources p x :
  x <= best MAX_LEVEL sources p <->
  x <= ABSENT /\ forall s l, sources !! s = Some l -> x <= l + chunk_distance s p.
Proof.
  unfold best. apply (map_fold_weak_ind (fun b m => x <= b <-> x <= ABSENT /\
    forall s l, m !! s = Some l -> x <= l + chunk_distance s p)).
  - split; [|tauto]. intros H. split; [done|]. intros s l. by rewrite lookup_empty.
  - intros s l m r Hs IH. rewrite Z.min_glb_iff, IH. split.
    + intros [[H1 H2] H3]. split; [done|]. intros s' l' [[-> ->]|[_ Hl]]%lookup_insert_Some; [done|]. by apply H2.
    + intros [H1 H2]. split_and!; [done| |by apply H2, lookup_insert_eq].
      intros s' l' Hl. apply H2. rewrite lookup_insert_ne; [done|]. congruence.
Qed.

Lemma best_neighbor sources p n :
  is_chunk p -> n ∈ chunk_neighbors p -> best MAX_LEVEL sources p <= best MAX_LEVEL sources n + 1.
Proof.
  intros Hp Hn. assert (best MAX_LEVEL sources p - 1 <= best MAX_LEVEL sources n); [|lia].
  apply best_glb. pose proof (proj1 (best_glb sources p _) (Z.le_refl _)) as [H1 H2]. split; [lia|].
  intros s l Hl. specialize (H2 s l Hl). pose proof (distance_neighbor s n p (neighbors_sym _ _ Hp Hn)). lia.
Qed.

(** The equation has one solution, the distance to the sources. *)
Lemma rhs_unique sources lvl :
  (forall s l, sources !! s = Some l -> is_chunk s) ->
  (forall p, is_chunk p -> 0 <= lvl p) ->
  (forall p, is_chunk p -> lvl p = rhs (fun p => default ABSENT (sources !! p)) lvl p) ->
  forall p, is_chunk p -> lvl p = best MAX_LEVEL sources p.
Proof.
  intros Hs Hpos Heq.
  assert (Hle : forall p, is_chunk p -> lvl p <= best MAX_LEVEL sources p).
  { intros p Hp. pose proof (proj1 (rhs_glb _ _ p _) (Z.eq_le_incl _ _ (Heq p Hp))) as (H1 & _).
    apply best_glb. split; [done|]. intros s l Hl. pose proof (Hs _ _ Hl) as Hsc. clear H1.
    pose proof (distance_nonneg s p) as Hd. remember (chunk_distance s p) as d eqn:Ed. revert p Hp Ed.
    pattern d. apply Zlt_0_ind; [|done]. clear d Hd. intros d IH Hd p Hp ->.
    pose proof (proj1 (rhs_glb _ _ p _) (Z.eq_le_incl _ _ (Heq p Hp))) as (_ & H2 & H3).
    destruct (decide (chunk_distance s p = 0)) as [E|Hne].
    - apply distance_zero in E as Ep; [|done..]. subst s. rewrite Hl in H2. simpl in H2. lia.
    - destruct (distance_closer s p ltac:(lia)) as (q & Hq & Eq).
      specialize (H3 q Hq). specialize (IH (chunk_distance s q) ltac:(lia) q (neighbor_is_chunk _ _ Hq) eq_refl). lia. }
  intros p Hp. remember (lvl p) as v eqn:Ev. pose proof (Hpos p Hp) as H0. rewrite <- Ev in H0. revert p Hp Ev.
  pattern v. apply Zlt_0_ind; [|done]. clear v H0. intros v IH H0 p Hp ->.
  specialize (Hle p Hp). destruct (Z.le_gt_cases (best MAX_LEVEL sources p) (lvl p)); [lia|]. exfalso.
  assert (Hlt : lvl p + 1 <= rhs (fun p => default ABSENT (sources !! p)) lvl p); [|rewrite <- Heq in Hlt by done; lia].
  pose proof (proj1 (best_glb sources p (lvl p + 1)) ltac:(lia)) as [H1 H2].
  apply rhs_glb. split_and!; [done| |].
  - destruct (sources !! p) as [l|] eqn:El; [|done]. specialize (H2 p l El). simpl.
    rewrite (proj2 (distance_zero p p Hp Hp) eq_refl) in H2. lia.
  - intros n Hn. destruct (Z.le_gt_cases (lvl p) (lvl n)); [lia|]. exfalso.
    pose proof (neighbor_is_chunk _ _ Hn) as Hnc.
    pose proof (IH (lvl n) ltac:(specialize (Hpos n Hnc); lia) n Hnc eq_refl) as En.
    pose proof (best_neighbor sources p n Hp Hn). lia.
Qed.
End Equation.

(** ** The queue *)

Definition queued (q : LeveledPropagationQueue) (p : ChunkPos) (l : Z) : Prop :=
  0 <= l /\ exists b, buckets q !! Z.to_nat l = Some b /\ p ∈ b.

Definition queue_size (q : LeveledPropagationQueue) : nat := sum_list (length <$> buckets q).

Record queue_ok (levels : Z) (q : LeveledPropagationQueue) : Prop := {
  queue_buckets : Z.of_nat (length (buckets q)) = levels;
  queue_first : 0 <= first_queued_level q <= levels;
  queue_below : forall i b, Z.of_nat i < first_queued_level q -> buckets q !! i = Some b -> b = []
}.

Lemma sum_list_insert (l : list nat) i x y : l !! i = Some x -> (sum_list (<[i := y]> l) + x = sum_list l + y)%nat.
Proof.
  revert i. induction l as [|z l IH]; intros [|i] H; simpl in *; [done..| |].
  - injection H as ->. lia.
  - specialize (IH i H). lia.
Qed.

Lemma queue_new_ok n : 0 <= n -> queue_ok n (queue_new n).
Proof.
  intros Hn. constructor; cbn [queue_new buckets first_queued_level].
  - rewrite length_replicate. lia.
  - lia.
  - intros i b _ [-> _]%lookup_replicate. done.
Qed.

Lemma enqueue_ok levels q p l :
  queue_ok levels q -> 0 <= l < levels ->
  exists q', enqueue q p l = Ok q' /\ queue_ok levels q' /\ queued q' p l /\
    (forall p' l', queued q p' l' -> queued q' p' l') /\ queue_size q' = S (queue_size q).
Proof.
  intros [Hb Hf He] Hl. destruct (lookup_lt_is_Some_2 (buckets q) (Z.to_nat l)) as [b Hlb]; [lia|].
  unfold enqueue. rewrite Hlb. eexists. split; [reflexivity|]. split_and!.
  - constructor; cbn [buckets first_queued_level].
    + by rewrite length_insert.
    + lia.
    + intros i b' Hi. rewrite list_lookup_insert_ne by lia. apply He. lia.
  - split; [lia|]. cbn [buckets]. rewrite list_lookup_insert_eq by (by eapply lookup_lt_Some).
    eexists. split; [done|]. apply elem_of_app. right. by apply list_elem_of_singleton.
  - intros p' l' (Hl' & b' & Hb' & Hin). split; [done|]. cbn [buckets].
    destruct (decide (Z.to_nat l' = Z.to_nat l)) as [E|Hne].
    + rewrite E in *. rewrite list_lookup_insert_eq by (by eapply lookup_lt_Some). eexists. split; [done|].
      apply elem_of_app. left. congruence.
    + rewrite list_lookup_insert_ne by done. eauto.
  - unfold queue_size. cbn [buckets]. rewrite list_fmap_insert.
    pose proof (sum_list_insert (length <$> buckets q) (Z.to_nat l) (length b) (length (b ++ [p]))) as H.
    rewrite list_lookup_fmap, Hlb in H. specialize (H eq_refl). rewrite length_app in *. simpl in *. lia.
Qed.

Definition popped (levels : Z) (q : LeveledPropagationQueue) (r : option (ChunkPos * Z) * LeveledPropagationQueue) : Prop :=
  queue_ok levels r.2 /\
  match r.1 with
  | None => queue_is_empty r.2 = true /\ forall p l, ~ queued q p l
  | Some (p, l) =>
      queue_size q = S (queue_size r.2) /\ 0 <= l /\
      forall p' l', queued q p' l' -> l <= l' /\ (queued r.2 p' l' \/ p' = p /\ l' = l)
  end.

Lemma pop_ok levels q : queue_ok levels q -> popped levels q (pop q).
Proof.
  intros Hq. unfold pop. remember (length (buckets q) - Z.to_nat (first_queued_level q))%nat as n eqn:Hn.
  revert q Hq Hn. induction n as [|n IH]; intros q Hq Hn; destruct Hq as [Hb Hf He] eqn:Eq; cbn [pop_loop].
  - split; [done|]. split; [apply Z.eqb_eq; cbn [snd]; lia|]. intros p l (Hl & b & Hlb & Hin).
    pose proof (lookup_lt_Some _ _ _ Hlb). rewrite (He (Z.to_nat l) b ltac:(lia) Hlb) in Hin. by apply elem_of_nil in Hin.
  - set (i := Z.to_nat (first_queued_level q)).
    destruct (lookup_lt_is_Some_2 (buckets q) i) as [b Hlb]; [lia|]. rewrite Hlb. simpl.
    destruct (last b) as [p|] eqn:El.
    + apply last_Some in El as [b' ->]. rewrite length_app. simpl.
      replace (length b' + 1 - 1)%nat with (length b') by lia. rewrite take_app_length.
      split; cbn [fst snd].
      * constructor; cbn [buckets first_queued_level]; [by rewrite length_insert|done|].
        intros j bj Hj. rewrite list_lookup_insert_ne by lia. by apply He.
      * split_and!; [|lia|].
        -- unfold queue_size. cbn [buckets]. rewrite list_fmap_insert.
           pose proof (sum_list_insert (length <$> buckets q) i (length (b' ++ [p])) (length b')) as H.
           rewrite list_lookup_fmap, Hlb in H. specialize (H eq_refl). rewrite length_app in *. simpl in *. lia.
        -- intros p' l' (Hl' & bl & Hlbl & Hin). destruct (Z.lt_ge_cases l' (first_queued_level q)) as [Hlt|Hge].
           { rewrite (He (Z.to_nat l') bl ltac:(lia) Hlbl) in Hin. by apply elem_of_nil in Hin. }
           split; [done|]. destruct (decide (l' = first_queued_level q)) as [->|Hne].
           ++ assert (bl = b' ++ [p]) as -> by (subst i; congruence).
              apply elem_of_app in Hin as [Hin| ->%list_elem_of_singleton]; [|by right]. left. split; [lia|].
              cbn [buckets]. subst i. rewrite list_lookup_insert_eq by (by eapply lookup_lt_Some). eauto.
           ++ left. split; [done|]. cbn [buckets]. rewrite list_lookup_insert_ne by lia. eauto.
    + apply last_None in El as ->. set (q1 := mk_queue (buckets q) (first_queued_level q + 1)).
      assert (Hq1 : queue_ok levels q1).
      { constructor; cbn [q1 buckets first_queued_level]; [done|lia|]. intros j bj Hj Hbj.
        destruct (decide (j = i)) as [->|Hne]; [congruence|]. apply (He j); [lia|done]. }
      specialize (IH q1 Hq1 ltac:(subst q1; cbn [buckets first_queued_level]; lia)).
      destruct IH as [IH1 IH2]. split; [done|].
      assert (Hsame : forall p l, queued q p l <-> queued q1 p l) by done.
      destruct (pop_loop n q1) as [[[p l]|] q2]; cbn [fst snd] in *; exact IH2.
Qed.

(** ** Correctness of the propagation *)

Section Correct.
Context (MAX_LEVEL : Z) (Hmax : 0 <= MAX_LEVEL <= MAX_LEVEL_RAW).
Notation ABSENT := (ABSENT_LEVEL MAX_LEVEL).
Notation lvl := (level MAX_LEVEL).
Notation src := (source_level MAX_LEVEL).
Notation recompute := (compute_level MAX_LEVEL).
Notation best_level := (best MAX_LEVEL).

(** The computed level of [p]: pending, or its current one. *)
Definition computed (t : ChunkTracker) (p : ChunkPos) : Z := default (lvl t p) (pending_levels t !! p).
Definition key (t : ChunkTracker) (p : ChunkPos) (c : Z) : Z := Z.min (lvl t p) c.

(** Structure: ranges, and every pending chunk queued at its key. *)
Record settling (t : ChunkTracker) : Prop := {
  s_levels : forall p l, levels t !! p = Some l -> 0 <= l <= MAX_LEVEL /\ is_chunk p;
  s_sources : forall p l, source_levels t !! p = Some l -> 0 <= l <= MAX_LEVEL /\ is_chunk p;
  s_queue : queue_ok (ABSENT + 1) (propagation_queue t);
  s_pending : forall p c, pending_levels t !! p = Some c ->
    is_chunk p /\ 0 <= c <= ABSENT /\ c <> lvl t p /\ queued (propagation_queue t) p (key t p c)
}.

(** Everything but the pending levels and the queue is the same. *)
Definition same_levels (t t' : ChunkTracker) : Prop :=
  source_levels t' = source_levels t /\ pending_source_levels t' = pending_source_levels t /\
  levels t' = levels t /\ changes t' = changes t.

(** The computed levels satisfy the equation. *)
Definition balanced (t : ChunkTracker) : Prop :=
  forall p, is_chunk p -> computed t p = rhs MAX_LEVEL (src t) (lvl t) p.

Lemma max_small : ABSENT + 1 < 255.
Proof. unfold ABSENT_LEVEL. assert (MAX_LEVEL_RAW = 141) as E by (vm_compute; reflexivity). lia. Qed.

Lemma level_range t p : settling t -> 0 <= lvl t p <= ABSENT.
Proof.
  intros H. unfold level. destruct (levels t !! p) as [l|] eqn:E; simpl.
  - apply (s_levels t H) in E. unfold ABSENT_LEVEL. lia.
  - unfold ABSENT_LEVEL. lia.
Qed.

Lemma source_range t p : settling t -> 0 <= src t p <= ABSENT.
Proof.
  intros H. unfold source_level. destruct (source_levels t !! p) as [l|] eqn:E; simpl.
  - apply (s_sources t H) in E. unfold ABSENT_LEVEL. lia.
  - unfold ABSENT_LEVEL. lia.
Qed.

Lemma computed_range t p : settling t -> 0 <= computed t p <= ABSENT.
Proof.
  intros H. unfold computed. destruct (pending_levels t !! p) as [c|] eqn:E; simpl.
  - apply (s_pending t H) in E. tauto.
  - by apply level_range.
Qed.

Lemma pending_computed t p : settling t ->
  pending_levels t !! p = if computed t p =? lvl t p then None else Some (computed t p).
Proof.
  intros H. unfold computed. destruct (pending_levels t !! p) as [c|] eqn:E; simpl.
  - apply (s_pending t H) in E as (_ & _ & Hne & _). by rewrite (proj2 (Z.eqb_neq _ _) Hne).
  - by rewrite Z.eqb_refl.
Qed.

Lemma same_level t t' p : same_levels t t' -> lvl t' p = lvl t p.
Proof. intros (_ & _ & H & _). unfold level. by rewrite H. Qed.

Lemma same_source t t' p : same_levels t t' -> src t' p = src t p.
Proof. intros (H & _). unfold source_level. by rewrite H. Qed.

Lemma same_trans t t' t'' : same_levels t t' -> same_levels t' t'' -> same_levels t t''.
Proof. unfold same_levels. intuition congruence. Qed.

Lemma rhs_ext s s' l l' p :
  (forall q, s q = s' q) -> (forall q, l q = l' q) -> rhs MAX_LEVEL s l p = rhs MAX_LEVEL s' l' p.
Proof.
  intros Hs Hl. apply glb_eq. intros x. rewrite !rhs_glb, Hs. by setoid_rewrite Hl.
Qed.

(** [compute_level] is the equation's right-hand side, without the parent. *)
Lemma compute_loop_glb t kp ns c x : settling t -> 0 <= c ->
  x <= compute_loop MAX_LEVEL t kp ns c <->
  x <= c /\ forall n, n ∈ ns -> Some n <> kp -> x <= lvl t n + 1.
Proof.
  intros Ht. pose proof max_small. revert c. induction ns as [|n ns IH]; intros c Hc; cbn [compute_loop].
  { split; [|tauto]. intros H0. split; [done|]. by intros n ?%elem_of_nil. }
  setoid_rewrite elem_of_cons. pose proof (level_range t n Ht) as Hn.
  case_decide as Hk.
  - rewrite IH by done. split; [|intros [H1 H2]; split; auto].
    intros [H1 H2]. split; [done|]. intros m [->|Hm]; [done|auto].
  - assert (saturating_succ (lvl t n) = lvl t n + 1) as Es by (unfold saturating_succ; lia).
    rewrite Es. destruct (Z.eqb_spec (Z.min c (lvl t n + 1)) 0) as [E|_].
    + rewrite E. split; [|intros [H1 H2]; specialize (H2 n (or_introl eq_refl) Hk); lia].
      intros Hx. split; [lia|]. intros m _ _. pose proof (level_range t m Ht). lia.
    + rewrite IH by lia. rewrite Z.min_glb_iff. split.
      * intros [[H1 H2] H3]. split; [done|]. intros m [->|Hm]; auto.
      * intros [H1 H2]. split_and!; auto.
Qed.

Lemma compute_level_glb t p kp lfp x : settling t -> 0 <= lfp ->
  x <= recompute t p kp lfp <->
  x <= ABSENT /\ x <= lfp /\ x <= src t p /\
  forall n, n ∈ chunk_neighbors p -> Some n <> kp -> x <= lvl t n + 1.
Proof.
  intros Ht Hl. unfold compute_level. pose proof (source_range t p Ht).
  rewrite Z.min_glb_iff, compute_loop_glb, Z.min_glb_iff by (done || lia). tauto.
Qed.

Lemma compute_level_range t p kp lfp : settling t -> 0 <= lfp -> 0 <= recompute t p kp lfp <= ABSENT.
Proof.
  intros Ht Hl. split.
  - apply compute_level_glb; [done..|]. pose proof (source_range t p Ht). split_and!; try lia.
    intros n _ _. pose proof (level_range t n Ht). lia.
  - pose proof (proj1 (compute_level_glb t p kp lfp _ Ht Hl) (Z.le_refl _)). tauto.
Qed.

(** ** One edge *)

(** The weight of a pending chunk: larger for lower keys, so that a chunk
    leaving the queue outweighs all it can add. *)
Definition unit_weight (k : Z) : Z := 10 ^ (ABSENT - k).
Definition weight (t : ChunkTracker) (p : ChunkPos) (c : Z) : Z := unit_weight (key t p c).
Definition weight_of (t : ChunkTracker) (p : ChunkPos) (c : Z) : Z :=
  if c =? lvl t p then 0 else weight t p c.
Definition total_weight (t : ChunkTracker) : Z := map_sum (weight t) (pending_levels t).

(** The effect of giving [p] the computed level [c]. *)
Record edge (t t' : ChunkTracker) (p : ChunkPos) (c : Z) : Prop := {
  edge_settling : settling t';
  edge_same : same_levels t t';
  edge_computed : forall q, computed t' q = if decide (q = p) then c else computed t q;
  edge_size : (queue_size (propagation_queue t') <= S (queue_size (propagation_queue t)))%nat;
  edge_weight : total_weight t' = total_weight t - weight_of t p (computed t p) + weight_of t p c
}.

Lemma weight_same t t' p c : same_levels t t' -> weight t' p c = weight t p c.
Proof. intros H. unfold weight, key. by rewrite (same_level t t'). Qed.

Lemma weight_of_pending t p : settling t ->
  weight_at (weight t) (pending_levels t !! p) p = weight_of t p (computed t p).
Proof.
  intros Ht. rewrite pending_computed by done. unfold weight_of. by destruct (computed t p =? lvl t p).
Qed.

Lemma weight_of_level t p c : lvl t p = c -> weight_of t p c = 0.
Proof. intros <-. unfold weight_of. by rewrite Z.eqb_refl. Qed.

Lemma weight_of_other t p c : lvl t p <> c -> weight_of t p c = weight t p c.
Proof. intros H. unfold weight_of. by rewrite (proj2 (Z.eqb_neq _ _)) by congruence. Qed.

Lemma replace_pending_ok t p c :
  settling t -> is_chunk p -> 0 <= c <= ABSENT ->
  exists t', replace_pending_level t p (lvl t p) c = Ok t' /\ edge t t' p c.
Proof.
  intros Ht Hp Hc. unfold replace_pending_level. pose proof (level_range t p Ht) as Hl.
  destruct (Z.eqb_spec (lvl t p) c) as [E|Hne].
  - eexists. split; [reflexivity|]. split.
    + constructor; try apply Ht. intros q d. cbn [pending_levels set_pending]. intros [Hq Hd]%lookup_delete_Some. by apply (s_pending t Ht).
    + by split_and!.
    + intros q. unfold computed. cbn [pending_levels set_pending]. case_decide as Hqp.
      * subst q. rewrite lookup_delete_eq. exact E.
      * by rewrite lookup_delete_ne.
    + cbn [propagation_queue set_pending]. lia.
    + unfold total_weight. cbn [pending_levels set_pending].
      rewrite (map_sum_ext _ (weight t)) by done. rewrite map_sum_delete, weight_of_pending by done.
      rewrite (weight_of_level t p c E). lia.
  - destruct (enqueue_ok (ABSENT + 1) (propagation_queue t) p (Z.min (lvl t p) c)) as
      (q & Hq & Hqok & Hqd & Hkeep & Hsize); [apply Ht|lia|].
    cbn [propagation_queue set_pending]. rewrite Hq. cbn [obind].
    eexists. split; [reflexivity|]. split.
    + constructor; cbn [levels source_levels pending_levels propagation_queue set_queue set_pending]; try apply Ht; [done|].
      intros r d [[<- <-]|[Hr Hd]]%lookup_insert_Some.
      * split; [done|]. split; [done|]. split; [by apply not_eq_sym|exact Hqd].
      * destruct (s_pending t Ht r d Hd) as (H1 & H2 & H3 & H4). exact (conj H1 (conj H2 (conj H3 (Hkeep _ _ H4)))).
    + by split_and!.
    + intros r. unfold computed. cbn [pending_levels set_pending set_queue]. case_decide as Hrp.
      * subst r. by rewrite lookup_insert_eq.
      * by rewrite lookup_insert_ne.
    + cbn [propagation_queue set_queue]. lia.
    + unfold total_weight. cbn [pending_levels set_pending set_queue].
      rewrite (map_sum_ext _ (weight t)) by done. rewrite map_sum_insert, weight_of_pending by done.
      rewrite (weight_of_other t p c) by done. lia.
Qed.

(** ** The neighbours of a changed chunk *)

(** The computed level a neighbour gets. *)
Definition neighbor_computed (t : ChunkTracker) (from n : ChunkPos) (from_level : Z) (only_decrease : bool) : Z :=
  let propagated := Z.min (saturating_succ from_level) ABSENT in
  if only_decrease then Z.min (computed t n) propagated
  else if propagated =? computed t n then recompute t n (Some from) ABSENT else computed t n.

Lemma edge_id t p : settling t -> edge t t p (computed t p).
Proof.
  intros Ht. constructor; [done|by split_and!| |lia|lia]. intros q. case_decide as H; [by subst q|done].
Qed.

Lemma check_neighbor_ok t from n l od :
  settling t -> is_chunk n -> 0 <= l <= ABSENT ->
  exists t', check_neighbor MAX_LEVEL t from n l od = Ok t' /\ edge t t' n (neighbor_computed t from n l od).
Proof.
  intros Ht Hn Hl. pose proof (computed_range t n Ht) as Hc. pose proof max_small as Hm.
  assert (Hs : 0 <= saturating_succ l) by (unfold saturating_succ; lia).
  unfold check_neighbor, neighbor_computed. destruct od.
  - apply replace_pending_ok; [done..|]. unfold computed in *. lia.
  - change (default (lvl t n) (pending_levels t !! n)) with (computed t n).
    destruct (Z.min (saturating_succ l) ABSENT =? computed t n).
    + apply replace_pending_ok; [done..|]. apply compute_level_range; [done|lia].
    + exists t. split; [done|by apply edge_id].
Qed.

(** Agreement of two trackers outside the pending levels. *)
Lemma recompute_same t t' p kp x : settling t -> settling t' -> same_levels t t' -> 0 <= x ->
  recompute t' p kp x = recompute t p kp x.
Proof.
  intros Ht Ht' Hs Hx. apply glb_eq. intros y. rewrite !compute_level_glb, (same_source t t') by done.
  assert (Hl : forall n, lvl t' n = lvl t n) by (intros; by apply same_level). by setoid_rewrite Hl.
Qed.

Lemma neighbor_computed_same t t' from n l od :
  settling t -> settling t' -> same_levels t t' -> computed t' n = computed t n ->
  neighbor_computed t' from n l od = neighbor_computed t from n l od.
Proof.
  intros Ht Ht' Hs Hc. unfold neighbor_computed. rewrite Hc, (recompute_same t t'); try done.
  pose proof max_small. unfold ABSENT_LEVEL. lia.
Qed.

Lemma weight_of_same t t' p c : same_levels t t' -> weight_of t' p c = weight_of t p c.
Proof. intros H. unfold weight_of. by rewrite (same_level t t'), (weight_same t t'). Qed.

(** The effect of a loop that gives each of [ps] its level [f]. *)
Record edges (t t' : ChunkTracker) (ps : list ChunkPos) (f : ChunkPos -> Z) : Prop := {
  edges_settling : settling t';
  edges_same : same_levels t t';
  edges_computed : forall q, computed t' q = if decide (q ∈ ps) then f q else computed t q;
  edges_size : (queue_size (propagation_queue t') <= queue_size (propagation_queue t) + length ps)%nat;
  edges_weight : forall B, (forall p, p ∈ ps -> weight_of t p (f p) <= weight_of t p (computed t p) + B) ->
    total_weight t' <= total_weight t + Z.of_nat (length ps) * B
}.

Lemma edges_nil t f : settling t -> edges t t [] f.
Proof.
  intros Ht. constructor; [done|by split_and!| |simpl; lia|simpl; lia].
  intros q. by rewrite decide_False by apply not_elem_of_nil.
Qed.

Lemma edges_cons t t1 t2 p ps f :
  p ∉ ps -> edge t t1 p (f p) -> edges t1 t2 ps f -> edges t t2 (p :: ps) f.
Proof.
  intros Hp H1 H2. constructor.
  - apply H2.
  - eapply same_trans; [apply H1|apply H2].
  - intros q. rewrite (edges_computed _ _ _ _ H2), (edge_computed _ _ _ _ H1).
    destruct (decide (q = p)) as [->|Hq].
    + rewrite (decide_False (P := p ∈ ps)), decide_True by (done || by left). done.
    + destruct (decide (q ∈ ps)); [rewrite decide_True by (by right)|
        rewrite decide_False by (by intros [?|?]%elem_of_cons)]; done.
  - pose proof (edges_size _ _ _ _ H2). pose proof (edge_size _ _ _ _ H1). simpl. lia.
  - intros B HB. pose proof (HB p ltac:(by left)) as Hb. pose proof (edge_weight _ _ _ _ H1) as Hw.
    assert (total_weight t2 <= total_weight t1 + Z.of_nat (length ps) * B); [|cbn [length]; lia].
    apply (edges_weight _ _ _ _ H2). intros q Hq. rewrite !(weight_of_same t t1) by apply H1.
    rewrite (edge_computed _ _ _ _ H1), decide_False by (intros ->; done). apply HB. by right.
Qed.

Lemma neighbors_loop_ok t from l od ns :
  settling t -> 0 <= l <= ABSENT -> NoDup ns -> (forall n, n ∈ ns -> is_chunk n) ->
  exists t', neighbors_loop MAX_LEVEL t from l od ns = Ok t' /\
    edges t t' ns (fun n => neighbor_computed t from n l od).
Proof.
  intros Ht Hl. revert t Ht. induction ns as [|n ns IH]; intros t Ht Hnd Hns; cbn [neighbors_loop].
  { exists t. split; [done|by apply edges_nil]. }
  apply NoDup_cons in Hnd as [Hn Hnd].
  destruct (check_neighbor_ok t from n l od Ht ltac:(apply Hns; by left) Hl) as (t1 & -> & H1).
  cbn [obind]. destruct (IH t1) as (t2 & -> & H2); [apply H1|done|intros; apply Hns; by right|].
  exists t2. split; [done|]. eapply edges_cons; [done|exact H1|].
  assert (Hf : forall q, q ∈ ns -> neighbor_computed t1 from q l od = neighbor_computed t from q l od).
  { intros q Hq. apply neighbor_computed_same; [done|apply H1..|].
    rewrite (edge_computed _ _ _ _ H1), decide_False; [done|]. by intros ->. }
  destruct H2 as [A1 A2 A3 A4 A5]. constructor; [done..| | |].
  - intros q. rewrite A3. case_decide; [by apply Hf|done].
  - done.
  - intros B HB. apply A5. intros q Hq. rewrite Hf by done. by apply HB.
Qed.

(** The [for] loop over the source changes is the same kind of loop. *)
Definition source_computed (t : ChunkTracker) (p : ChunkPos) (old_level : Z) : Z :=
  if src t p <? old_level then Z.min (computed t p) (src t p) else recompute t p None (src t p).

Lemma source_edge_ok t p old_level :
  settling t -> is_chunk p ->
  exists t', check_edge MAX_LEVEL t None p (src t p) (src t p <? old_level) = Ok t' /\
    edge t t' p (source_computed t p old_level).
Proof.
  intros Ht Hp. pose proof (computed_range t p Ht) as Hc. pose proof (source_range t p Ht) as Hs.
  unfold check_edge, source_computed. change (default (lvl t p) (pending_levels t !! p)) with (computed t p).
  destruct (src t p <? old_level); (apply replace_pending_ok; [done..|]).
  - lia.
  - apply compute_level_range; [done|lia].
Qed.

Lemma source_loop_ok t l f :
  settling t -> NoDup l.*1 -> (forall p, p ∈ l.*1 -> is_chunk p) ->
  (forall p o, (p, o) ∈ l -> f p = source_computed t p o) ->
  exists t', source_loop MAX_LEVEL t l = Ok t' /\ edges t t' l.*1 f.
Proof.
  revert t. induction l as [|[p o] l IH]; intros t Ht Hnd Hps Hf; cbn [source_loop].
  { exists t. split; [done|by apply edges_nil]. }
  csimpl in *. apply NoDup_cons in Hnd as [Hp Hnd].
  destruct (source_edge_ok t p o Ht ltac:(apply Hps; by left)) as (t1 & -> & H1).
  rewrite <- (Hf p o) in H1 by (by left). cbn [obind].
  destruct (IH t1) as (t2 & -> & H2); [apply H1|done|intros; apply Hps; by right| |].
  { intros q oq Hq. rewrite (Hf q oq) by (by right).
    assert (q <> p) by (intros ->; apply Hp; by apply (list_elem_of_fmap_2 fst l (p, oq))).
    unfold source_computed. rewrite (same_source t t1), (edge_computed _ _ _ _ H1), decide_False by (done || apply H1).
    rewrite (recompute_same t t1); [done|done|apply H1..|]. pose proof (source_range t q Ht). lia. }
  exists t2. split; [done|]. by eapply edges_cons.
Qed.

(** ** Applying one pending level *)

Definition same_sources (t t' : ChunkTracker) : Prop :=
  source_levels t' = source_levels t /\ pending_source_levels t' = pending_source_levels t /\
  changes t' = changes t.

Lemma same_levels_sources t t' : same_levels t t' -> same_sources t t'.
Proof. unfold same_levels, same_sources. tauto. Qed.

Lemma same_sources_trans t t' t'' : same_sources t t' -> same_sources t' t'' -> same_sources t t''.
Proof. unfold same_sources. intuition congruence. Qed.

Lemma same_sources_src t t' p : same_sources t t' -> src t' p = src t p.
Proof. intros (H & _). unfold source_level. by rewrite H. Qed.

(** [originals] records the level at the start of the pass of every chunk
    whose level was set. *)
Definition originals_ok (t0 t : ChunkTracker) (originals : gmap ChunkPos (option Z)) : Prop :=
  forall p, match originals !! p with
            | Some o => o = levels t0 !! p
            | None => levels t !! p = levels t0 !! p
            end.

Lemma originals_same t0 t t' originals :
  levels t' = levels t -> originals_ok t0 t originals -> originals_ok t0 t' originals.
Proof. intros H Ho p. specialize (Ho p). by rewrite H. Qed.

Lemma set_level_ok t p l originals :
  settling t -> pending_levels t !! p = None -> is_chunk p -> 0 <= l <= ABSENT ->
  exists t' originals', set_level MAX_LEVEL t p l originals = Ok (t', originals') /\ settling t' /\
    (forall q, lvl t' q = if decide (q = p) then l else lvl t q) /\
    same_sources t t' /\ pending_levels t' = pending_levels t /\
    propagation_queue t' = propagation_queue t /\ total_weight t' = total_weight t /\
    forall t0, originals_ok t0 t originals -> originals_ok t0 t' originals'.
Proof.
  intros Ht Hp Hpc Hl.
  set (m := if l =? ABSENT then delete p (levels t) else <[p := l]> (levels t)).
  set (t' := set_levels m t).
  set (o' := match originals !! p with Some _ => originals | None => <[p := levels t !! p]> originals end).
  assert (Hset : set_level MAX_LEVEL t p l originals = Ok (t', o')).
  { unfold set_level. subst t' m o'. destruct (Z.eqb_spec l ABSENT) as [E|E]; [done|].
    unfold level_new. rewrite (proj2 (Z.leb_le _ _)); [done|]. unfold ABSENT_LEVEL in *. lia. }
  assert (Hm : forall q, m !! q = if decide (q = p) then (if l =? ABSENT then None else Some l) else levels t !! q).
  { intros q. subst m. case_decide as Hq.
    - subst q. destruct (l =? ABSENT); [apply lookup_delete_eq|apply lookup_insert_eq].
    - destruct (l =? ABSENT); [by apply lookup_delete_ne|by apply lookup_insert_ne]. }
  assert (Hlvl : forall q, lvl t' q = if decide (q = p) then l else lvl t q).
  { intros q. unfold level. subst t'. cbn [levels set_levels]. rewrite Hm. case_decide; [|done].
    by destruct (Z.eqb_spec l ABSENT) as [->|E]. }
  exists t', o'. split; [done|]. split_and!; try done.
  - constructor; try apply Ht.
    + intros q d. subst t'. cbn [levels set_levels]. rewrite Hm. case_decide; [|by apply Ht].
      destruct (Z.eqb_spec l ABSENT) as [->|E]; [done|]. intros [= <-]. subst q. unfold ABSENT_LEVEL in *. split; [lia|done].
    + intros q d. change (pending_levels t') with (pending_levels t). intros Hq.
      assert (Hqp : q <> p) by congruence. destruct (s_pending t Ht q d Hq) as (H1 & H2 & H3 & H4).
      unfold key in *. rewrite Hlvl, decide_False by done. done.
  - apply map_sum_ext. intros q d. change (pending_levels t') with (pending_levels t). intros Hq.
    assert (Hqp : q <> p) by congruence. unfold weight, key. by rewrite Hlvl, decide_False.
  - intros t0 Ho q. specialize (Ho q). subst t' o'. cbn [levels set_levels]. rewrite Hm.
    destruct (decide (q = p)) as [->|Hq].
    + destruct (originals !! p) eqn:E; [by rewrite E|]. by rewrite lookup_insert_eq.
    + destruct (originals !! p) eqn:E; [done|]. by rewrite lookup_insert_ne.
Qed.

Lemma unit_weight_nonneg k : 0 <= unit_weight k.
Proof. apply Z.pow_nonneg. lia. Qed.

Lemma unit_weight_mono j k : j <= k -> unit_weight k <= unit_weight j.
Proof. intros H. apply Z.pow_le_mono_r; lia. Qed.

Lemma unit_weight_succ k : k < ABSENT -> unit_weight k = 10 * unit_weight (k + 1) /\ 1 <= unit_weight (k + 1).
Proof.
  intros Hk. unfold unit_weight. replace (ABSENT - k) with (Z.succ (ABSENT - (k + 1))) by lia.
  rewrite Z.pow_succ_r by lia. pose proof (Z.pow_pos_nonneg 10 (ABSENT - (k + 1))). lia.
Qed.

(** A neighbour's weight grows by one unit of the next level at most. *)
Lemma weight_bound t n k c :
  (computed t n <> lvl t n -> k <= key t n (computed t n)) ->
  c = computed t n \/ k + 1 <= c /\ k + 1 <= computed t n ->
  weight_of t n c <= weight_of t n (computed t n) + unit_weight (k + 1).
Proof.
  intros Hmin [-> | [Hc Hn]]; [pose proof (unit_weight_nonneg (k + 1)); lia|].
  destruct (decide (lvl t n = c)) as [E|Hne].
  - rewrite (weight_of_level t n c E). pose proof (unit_weight_nonneg (k + 1)).
    assert (0 <= weight_of t n (computed t n)); [|lia].
    unfold weight_of. case_match; [lia|]. apply unit_weight_nonneg.
  - rewrite (weight_of_other t n c Hne). unfold weight. destruct (Z.le_gt_cases (k + 1) (lvl t n)) as [Hl|Hl].
    + assert (0 <= weight_of t n (computed t n)).
      { unfold weight_of. case_match; [lia|]. apply unit_weight_nonneg. }
      pose proof (unit_weight_mono (k + 1) (key t n c)). unfold key in *. lia.
    + rewrite weight_of_other by lia. unfold weight. specialize (Hmin ltac:(lia)). unfold key in *.
      replace (Z.min (lvl t n) c) with (Z.min (lvl t n) (computed t n)) by lia.
      pose proof (unit_weight_nonneg (k + 1)). lia.
Qed.

Lemma pending_key t n k :
  settling t -> (forall q d, pending_levels t !! q = Some d -> k <= key t q d) ->
  computed t n <> lvl t n -> k <= key t n (computed t n).
Proof.
  intros Ht Hmin Hne. apply Hmin. rewrite pending_computed by done. by rewrite (proj2 (Z.eqb_neq _ _) Hne).
Qed.

(** The state in which the popped chunk [p] is to be given the level [c]. *)
Record ready (t : ChunkTracker) (p : ChunkPos) (c k : Z) : Prop := {
  r_settling : settling t;
  r_none : pending_levels t !! p = None;
  r_chunk : is_chunk p;
  r_range : 0 <= c <= ABSENT;
  r_key : k = Z.min (lvl t p) c;
  r_balanced : forall q, is_chunk q ->
    (if decide (q = p) then c else computed t q) = rhs MAX_LEVEL (src t) (lvl t) q;
  r_min : forall q d, pending_levels t !! q = Some d -> k <= key t q d
}.

Record applied (t t' : ChunkTracker) (k : Z) : Prop := {
  a_settling : settling t';
  a_balanced : balanced t';
  a_same : same_sources t t';
  a_size : (queue_size (propagation_queue t') <= queue_size (propagation_queue t) + 9)%nat;
  a_weight : total_weight t' <= total_weight t + 9 * unit_weight (k + 1)
}.

Lemma computed_frame t t' q :
  pending_levels t' !! q = pending_levels t !! q -> lvl t' q = lvl t q -> computed t' q = computed t q.
Proof. intros H1 H2. unfold computed. by rewrite H1, H2. Qed.

Lemma finish_neighbors t p l od B :
  settling t -> 0 <= l <= ABSENT -> is_chunk p ->
  (forall q, is_chunk q -> q ∉ chunk_neighbors p -> computed t q = rhs MAX_LEVEL (src t) (lvl t) q) ->
  (forall q, q ∈ chunk_neighbors p -> neighbor_computed t p q l od = rhs MAX_LEVEL (src t) (lvl t) q) ->
  (forall q, q ∈ chunk_neighbors p ->
     weight_of t q (neighbor_computed t p q l od) <= weight_of t q (computed t q) + B) ->
  exists t', neighbors_loop MAX_LEVEL t p l od (chunk_neighbors p) = Ok t' /\ settling t' /\ balanced t' /\
    same_levels t t' /\
    (queue_size (propagation_queue t') <= queue_size (propagation_queue t) + 8)%nat /\
    total_weight t' <= total_weight t + 8 * B.
Proof.
  intros Ht Hl Hp Hout Hin Hw.
  destruct (neighbors_loop_ok t p l od (chunk_neighbors p) Ht Hl (neighbors_nodup p)) as (t' & Hr & H).
  { intros n. apply neighbor_is_chunk. }
  exists t'. split; [done|]. split_and!; [apply H| |apply H..|exact (edges_weight _ _ _ _ H B Hw)].
  intros q Hq. rewrite (edges_computed _ _ _ _ H).
  rewrite (rhs_ext _ (src t) _ (lvl t)); [|intros; apply same_source, H|intros; apply same_level, H].
  case_decide as Hn; [by apply Hin|by apply Hout].
Qed.

(** Whether a chunk sees the level of [p]. *)
Lemma rhs_outside s l l' p q :
  is_chunk p -> is_chunk q -> q ∉ chunk_neighbors p -> (forall r, r <> p -> l r = l' r) ->
  rhs MAX_LEVEL s l q = rhs MAX_LEVEL s l' q.
Proof.
  intros Hp Hq Hn Hl. apply glb_eq. intros x. rewrite !rhs_glb.
  assert (Hr : forall r, r ∈ chunk_neighbors q -> l r = l' r).
  { intros r Hr. apply Hl. intros ->. by apply Hn, neighbors_sym. }
  split; intros (H1 & H2 & H3); split_and!; try done; intros r Hrq; specialize (H3 r Hrq); rewrite Hr in *; done.
Qed.

Lemma apply_decrease t p c k originals :
  ready t p c k -> c < lvl t p ->
  exists t' originals', apply_pending_level MAX_LEVEL t p c originals = Ok (t', originals') /\ applied t t' k /\
    forall t0, originals_ok t0 t originals -> originals_ok t0 t' originals'.
Proof.
  intros [Ht Hnone Hp Hc Hk Hbal Hmin] Hlt. pose proof max_small as Hsm.
  pose proof (level_range t p Ht) as Hlr. assert (k = c) as -> by lia. clear Hk.
  unfold apply_pending_level. rewrite (proj2 (Z.ltb_lt _ _) Hlt).
  destruct (set_level_ok t p c originals Ht Hnone Hp Hc) as (t1 & o1 & -> & Ht1 & Hl1 & Hs1 & Hp1 & Hq1 & Hw1 & Ho1).
  cbn [obind].
  assert (Hc1 : forall q, computed t1 q = if decide (q = p) then c else computed t q).
  { intros q. case_decide as Hq.
    - subst q. unfold computed. by rewrite Hp1, Hnone, Hl1, decide_True.
    - apply computed_frame; [by rewrite Hp1|by rewrite Hl1, decide_False]. }
  assert (Hmin1 : forall q d, pending_levels t1 !! q = Some d -> c <= key t1 q d).
  { intros q d Hd. rewrite Hp1 in Hd. unfold key. rewrite Hl1, decide_False by congruence. by apply Hmin. }
  assert (Hnp : forall q, q ∈ chunk_neighbors p -> q <> p) by (intros q Hq ->; by apply (neighbors_irrefl p Hp)).
  assert (Hsrc : forall q, src t1 q = src t q) by (intros; by apply same_sources_src).
  assert (Hout : forall q, is_chunk q -> q ∉ chunk_neighbors p ->
    computed t1 q = rhs MAX_LEVEL (src t1) (lvl t1) q).
  { intros q Hq Hqn. rewrite Hc1, Hbal by done.
    transitivity (rhs MAX_LEVEL (src t) (lvl t1) q); [|by apply rhs_ext].
    apply (rhs_outside _ _ _ p); [done..|]. intros r Hr. by rewrite Hl1, decide_False. }
  assert (Hnew : forall q, q ∈ chunk_neighbors p ->
    Z.min (computed t q) (c + 1) = rhs MAX_LEVEL (src t1) (lvl t1) q).
  { intros q Hq. pose proof (Hbal q (neighbor_is_chunk _ _ Hq)) as Hb. rewrite decide_False in Hb by auto.
    rewrite Hb. apply glb_eq. intros x. rewrite Z.min_glb_iff, !rhs_glb, Hsrc.
    pose proof (neighbors_sym p q Hp Hq) as Hpq. split.
    - intros [(H1 & H2 & H3) H4]. split_and!; [done..|]. intros r Hr. rewrite Hl1. case_decide; [lia|auto].
    - intros (H1 & H2 & H3). split_and!; [done..| |].
      + intros r Hr. specialize (H3 r Hr). rewrite Hl1 in H3. case_decide; [subst r; lia|done].
      + specialize (H3 p Hpq). by rewrite Hl1, decide_True in H3. }
  assert (Hfin : exists t2, check_neighbors_after_update MAX_LEVEL t1 p c true = Ok t2 /\ settling t2 /\
    balanced t2 /\ same_levels t1 t2 /\
    (queue_size (propagation_queue t2) <= queue_size (propagation_queue t1) + 8)%nat /\
    total_weight t2 <= total_weight t1 + 8 * unit_weight (c + 1)).
  { unfold check_neighbors_after_update. cbn [andb]. destruct (Z.leb_spec MAX_LEVEL c) as [Hge|Hlt'].
    - exists t1. split; [done|]. pose proof (unit_weight_nonneg (c + 1)). split_and!; try done; try lia.
      intros q Hq. destruct (decide (q ∈ chunk_neighbors p)) as [Hn|Hn]; [|by apply Hout].
      rewrite <- Hnew, Hc1, decide_False by auto. pose proof (computed_range t q Ht). unfold ABSENT_LEVEL in *. lia.
    - assert (Hnc : forall q, q ∈ chunk_neighbors p ->
        neighbor_computed t1 p q c true = Z.min (computed t q) (c + 1)).
      { intros q Hq. unfold neighbor_computed, saturating_succ. rewrite Hc1, decide_False by auto.
        unfold ABSENT_LEVEL in *. lia. }
      apply finish_neighbors; try done.
      + intros q Hq. rewrite Hnc by done. by apply Hnew.
      + intros q Hq. rewrite Hnc by done. apply weight_bound.
        * apply pending_key; done.
        * rewrite Hc1, decide_False by auto. lia. }
  destruct Hfin as (t2 & -> & Ht2 & Hb2 & Hs2 & Hz2 & Hw2). cbn [obind]. exists t2, o1. split; [done|]. split.
  - constructor; [done..| | |].
    + eapply same_sources_trans; [exact Hs1|by apply same_levels_sources].
    + rewrite Hq1 in Hz2. lia.
    + pose proof (unit_weight_nonneg (c + 1)). lia.
  - intros t0 H0. eapply originals_same; [apply Hs2|by apply Ho1].
Qed.

Lemma schedule_level_ok t p c :
  settling t -> pending_levels t !! p = None -> is_chunk p -> 0 <= c <= ABSENT -> c <> lvl t p ->
  exists t', schedule_level MAX_LEVEL t p c = Ok t' /\ edge t t' p c.
Proof.
  intros Ht Hnone Hp Hc Hne. destruct (replace_pending_ok t p c Ht Hp Hc) as (t' & Hr & He).
  exists t'. split; [|done]. unfold schedule_level. rewrite Hnone. unfold replace_pending_level in Hr.
  by rewrite (proj2 (Z.eqb_neq _ _)) in Hr by congruence.
Qed.

(** Raising the level of [p] to absent leaves the equation of a neighbour
    that did not depend on it. *)
Lemma rhs_raise s l l' p q k :
  (forall r, r <> p -> l' r = l r) -> l p = k -> k <= l' p ->
  rhs MAX_LEVEL s l q <> Z.min (k + 1) ABSENT -> p ∈ chunk_neighbors q ->
  rhs MAX_LEVEL s l q = rhs MAX_LEVEL s l' q.
Proof.
  intros Hl Hk Hge Hne Hp. pose proof (proj1 (rhs_glb MAX_LEVEL s l q _) (Z.le_refl _)) as (G1 & _ & G3).
  specialize (G3 p Hp). rewrite Hk in G3.
  apply glb_eq. intros x. split.
  - rewrite !rhs_glb. intros (H1 & H2 & H3). split_and!; [done..|]. intros r Hr.
    destruct (decide (r = p)) as [->|Hrp]; [specialize (H3 p Hr); lia|]. rewrite Hl by done. by apply H3.
  - intros Hx. destruct (Z.le_gt_cases x (rhs MAX_LEVEL s l q)) as [|Hgt]; [done|]. exfalso.
    assert (rhs MAX_LEVEL s l q + 1 <= rhs MAX_LEVEL s l q); [|lia].
    assert (Hx' : rhs MAX_LEVEL s l q + 1 <= rhs MAX_LEVEL s l' q) by lia.
    apply rhs_glb in Hx' as (H1 & H2 & H3). apply rhs_glb. split_and!; [done..|]. intros r Hr.
    destruct (decide (r = p)) as [->|Hrp]; [lia|]. rewrite <- Hl by done. by apply H3.
Qed.

Lemma apply_increase t p c k originals :
  ready t p c k -> lvl t p < c ->
  exists t' originals', apply_pending_level MAX_LEVEL t p c originals = Ok (t', originals') /\ applied t t' k /\
    forall t0, originals_ok t0 t originals -> originals_ok t0 t' originals'.
Proof.
  intros [Ht Hnone Hp Hc Hk Hbal Hmin] Hlt. pose proof max_small as Hsm.
  pose proof (level_range t p Ht) as Hlr. assert (k = lvl t p) as Ek by lia. clear Hk.
  unfold apply_pending_level. rewrite (proj2 (Z.ltb_ge c (lvl t p))), (proj2 (Z.ltb_lt _ _) Hlt) by lia.
  destruct (set_level_ok t p ABSENT originals Ht Hnone Hp) as
    (t1 & o1 & -> & Ht1 & Hl1 & Hs1 & Hp1 & Hq1 & Hw1 & Ho1); [unfold ABSENT_LEVEL; lia|].
  cbn [obind]. rewrite <- Ek.
  assert (Hsched : exists t2, (if c =? ABSENT then Ok t1 else schedule_level MAX_LEVEL t1 p c) = Ok t2 /\ edge t1 t2 p c).
  { destruct (Z.eqb_spec c ABSENT) as [E|E].
    - exists t1. split; [done|]. replace c with (computed t1 p); [by apply edge_id|].
      unfold computed. by rewrite Hp1, Hnone, Hl1, decide_True.
    - apply schedule_level_ok; [done|by rewrite Hp1|done..|]. by rewrite Hl1, decide_True. }
  destruct Hsched as (t2 & -> & He). cbn [obind].
  pose proof (edge_settling _ _ _ _ He) as Ht2. pose proof (edge_same _ _ _ _ He) as Hs2.
  assert (Hl2 : forall q, lvl t2 q = if decide (q = p) then ABSENT else lvl t q).
  { intros q. by rewrite (same_level t1 t2). }
  assert (Hc2 : forall q, computed t2 q = if decide (q = p) then c else computed t q).
  { intros q. rewrite (edge_computed _ _ _ _ He). case_decide as Hq; [done|].
    apply computed_frame; [by rewrite Hp1|by rewrite Hl1, decide_False]. }
  assert (Hsrc : forall q, src t2 q = src t q).
  { intros q. rewrite (same_source t1 t2) by done. by apply same_sources_src. }
  assert (Hnp : forall q, q ∈ chunk_neighbors p -> q <> p) by (intros q Hq ->; by apply (neighbors_irrefl p Hp)).
  assert (Hmin2 : forall q, q <> p -> computed t2 q <> lvl t2 q -> k <= key t2 q (computed t2 q)).
  { intros q Hq. unfold key. rewrite Hc2, Hl2, !decide_False by done. by apply pending_key. }
  assert (Hprop : Z.min (saturating_succ k) ABSENT = Z.min (k + 1) ABSENT) by (unfold saturating_succ; lia).
  assert (Hrec : forall q, q ∈ chunk_neighbors p ->
    recompute t2 q (Some p) ABSENT = rhs MAX_LEVEL (src t2) (lvl t2) q).
  { intros q Hq. apply glb_eq. intros x. rewrite compute_level_glb, rhs_glb by (done || (unfold ABSENT_LEVEL; lia)). split.
    - intros (H1 & _ & H2 & H3). split_and!; [done..|]. intros r Hr. destruct (decide (r = p)) as [->|Hrp].
      + rewrite Hl2, decide_True by done. lia.
      + apply H3; [done|]. congruence.
    - intros (H1 & H2 & H3). split_and!; [done..|]. intros r Hr _. by apply H3. }
  assert (Hraise : forall q, is_chunk q ->
    rhs MAX_LEVEL (src t) (lvl t) q <= rhs MAX_LEVEL (src t2) (lvl t2) q).
  { intros q Hq. apply rhs_glb. pose proof (proj1 (rhs_glb MAX_LEVEL (src t) (lvl t) q _) (Z.le_refl _)) as (H1 & H2 & H3).
    rewrite Hsrc. split_and!; [done..|]. intros r Hr. specialize (H3 r Hr). rewrite Hl2. case_decide; [subst r; lia|done]. }
  assert (Hnc : forall q, q ∈ chunk_neighbors p ->
    neighbor_computed t2 p q k false = rhs MAX_LEVEL (src t2) (lvl t2) q /\
    (neighbor_computed t2 p q k false = computed t2 q \/
     k + 1 <= neighbor_computed t2 p q k false /\ k + 1 <= computed t2 q)).
  { intros q Hq. pose proof (neighbor_is_chunk _ _ Hq) as Hqc. pose proof (Hbal q Hqc) as Hb.
    rewrite decide_False in Hb by auto. unfold neighbor_computed. rewrite Hprop, Hc2, decide_False by auto.
    destruct (Z.eqb_spec (Z.min (k + 1) ABSENT) (computed t q)) as [E|E].
    - rewrite Hrec by done. split; [done|]. right. specialize (Hraise q Hqc). lia.
    - split; [|by left]. rewrite Hb. transitivity (rhs MAX_LEVEL (src t) (lvl t2) q); [|by apply rhs_ext].
      apply (rhs_raise _ _ _ p _ k); [|done| |by rewrite <- Hb|by apply neighbors_sym].
      + intros r Hr. by rewrite Hl2, decide_False.
      + rewrite Hl2, decide_True by done. lia. }
  destruct (finish_neighbors t2 p k false (unit_weight (k + 1))) as (t3 & Hr & Ht3 & Hb3 & Hs3 & Hz3 & Hw3);
    [done|lia|done| | | |].
  { intros q Hq Hqn. rewrite Hc2, Hbal by done.
    transitivity (rhs MAX_LEVEL (src t) (lvl t2) q); [|by apply rhs_ext].
    apply (rhs_outside _ _ _ p); [done..|]. intros r Hrp. by rewrite Hl2, decide_False. }
  { intros q Hq. by apply Hnc. }
  { intros q Hq. apply weight_bound; [|by apply Hnc]. apply Hmin2. auto. }
  unfold check_neighbors_after_update. cbn [andb]. rewrite Hr. cbn [obind]. exists t3, o1. split; [done|].
  pose proof (edge_size _ _ _ _ He) as Hz. pose proof (edge_weight _ _ _ _ He) as Hw. rewrite Hq1 in Hz. split.
  - constructor; [done..| | |].
    + eapply same_sources_trans; [exact Hs1|]. eapply same_sources_trans; by apply same_levels_sources.
    + lia.
    + assert (weight_of t1 p (computed t1 p) = 0) as E0.
      { apply weight_of_level. unfold computed. by rewrite Hp1, Hnone. }
      assert (weight_of t1 p c <= unit_weight (k + 1)).
      { unfold weight_of. case_match; [apply unit_weight_nonneg|]. unfold weight, key.
        rewrite Hl1, decide_True by done. apply unit_weight_mono. lia. }
      lia.
  - intros t0 H0. eapply originals_same; [|by apply Ho1]. destruct Hs2 as (_ & _ & E2 & _), Hs3 as (_ & _ & E3 & _). congruence.
Qed.

(** ** The loop *)

(** Every iteration of the loop decreases the variant. *)
Definition variant (t : ChunkTracker) : Z :=
  10 * total_weight t + Z.of_nat (queue_size (propagation_queue t)).

Lemma total_weight_nonneg t : 0 <= total_weight t.
Proof. apply map_sum_nonneg. intros p c _. apply unit_weight_nonneg. Qed.

(** A popped entry may be dropped unless it is the one that queues its chunk. *)
Lemma drop_entry t p k q m :
  settling t -> popped (ABSENT + 1) (propagation_queue t) (Some (p, k), q) ->
  (forall r d, m !! r = Some d -> pending_levels t !! r = Some d) ->
  (forall d, m !! p = Some d -> key t p d <> k) ->
  settling (set_pending m (set_queue q t)).
Proof.
  intros Ht (Hq & _ & _ & Hpop) Hm Hp. cbn [fst snd] in *. constructor; try apply Ht; [exact Hq|].
  cbn [pending_levels propagation_queue set_pending set_queue]. intros r d Hr.
  destruct (s_pending t Ht r d (Hm r d Hr)) as (H1 & H2 & H3 & H4). split; [done|]. split; [done|]. split; [done|].
  destruct (Hpop _ _ H4) as [_ [H5|[-> H5]]]; [exact H5|]. by destruct (Hp d Hr).
Qed.

Lemma popped_ready t p c k q :
  settling t -> balanced t -> popped (ABSENT + 1) (propagation_queue t) (Some (p, k), q) ->
  pending_levels t !! p = Some c -> key t p c = k ->
  ready (set_pending (delete p (pending_levels t)) (set_queue q t)) p c k /\ c <> lvl t p /\
  total_weight (set_pending (delete p (pending_levels t)) (set_queue q t)) = total_weight t - unit_weight k.
Proof.
  intros Ht Hb Hpop Hp Hk. destruct (s_pending t Ht p c Hp) as (H1 & H2 & H3 & _).
  set (t1 := set_pending (delete p (pending_levels t)) (set_queue q t)).
  assert (Hl : forall r, lvl t1 r = lvl t r) by done. split_and!; [|done|].
  - constructor; cbn [pending_levels t1 set_pending].
    + apply drop_entry with (p := p) (k := k); [done..| |].
      * intros r d [_ Hr]%lookup_delete_Some. done.
      * intros d. by rewrite lookup_delete_eq.
    + apply lookup_delete_eq.
    + done.
    + done.
    + by rewrite Hl.
    + intros r Hr. rewrite <- (rhs_ext (src t) _ (lvl t)) by done. rewrite <- (Hb r Hr). case_decide as E.
      * subst r. unfold computed. by rewrite Hp.
      * unfold computed. cbn [pending_levels t1 set_pending]. by rewrite lookup_delete_ne.
    + intros r d [_ Hr]%lookup_delete_Some. destruct Hpop as (_ & _ & _ & Hpop).
      destruct (s_pending t Ht r d Hr) as (_ & _ & _ & Hq). apply (Hpop r _ Hq).
  - unfold total_weight. cbn [pending_levels t1 set_pending].
    rewrite (map_sum_ext _ (weight t)) by done. rewrite map_sum_delete, Hp. simpl. unfold weight. by rewrite Hk.
Qed.

Lemma propagate_ok fuel t originals t0 :
  settling t -> balanced t -> originals_ok t0 t originals -> variant t < Z.of_nat fuel ->
  exists t' originals', propagate MAX_LEVEL fuel t originals = Ok (t', originals') /\ settling t' /\ balanced t' /\
    pending_levels t' = ∅ /\ queue_is_empty (propagation_queue t') = true /\ same_sources t t' /\
    originals_ok t0 t' originals'.
Proof.
  revert t originals. induction fuel as [|fuel IH]; intros t originals Ht Hb Ho Hv.
  { unfold variant in Hv. pose proof (total_weight_nonneg t). lia. }
  cbn [propagate]. pose proof (pop_ok _ _ (s_queue t Ht)) as Hpop.
  destruct (pop (propagation_queue t)) as [[[p k]|] q].
  2:{ destruct Hpop as (Hq & He & Hno). cbn [fst snd] in *. exists (set_queue q t), originals. split; [done|].
      assert (Hem : pending_levels t = ∅).
      { apply map_empty. intros r. destruct (pending_levels t !! r) as [d|] eqn:E; [|done].
        destruct (s_pending t Ht r d E) as (_ & _ & _ & H). by destruct (Hno _ _ H). }
      split_and!; try done. constructor; try apply Ht; [exact Hq|]. intros r d.
      cbn [pending_levels set_queue]. by rewrite Hem, lookup_empty. }
  destruct Hpop as (Hq & Hsize & Hk0 & Hqd). cbn [fst snd] in Hq, Hsize, Hk0, Hqd.
  assert (Hpop : popped (ABSENT + 1) (propagation_queue t) (Some (p, k), q)) by done.
  assert (Hstale : (forall d, pending_levels t !! p = Some d -> key t p d <> k) ->
    exists t' originals', propagate MAX_LEVEL fuel (set_queue q t) originals = Ok (t', originals') /\ settling t' /\
      balanced t' /\ pending_levels t' = ∅ /\ queue_is_empty (propagation_queue t') = true /\
      same_sources t t' /\ originals_ok t0 t' originals').
  { intros Hd. apply (IH (set_queue q t)); [|done|done|].
    - apply (drop_entry t p k q (pending_levels t) Ht Hpop); [done|done].
    - unfold variant in *. cbn [propagation_queue set_queue].
      change (total_weight (set_queue q t)) with (total_weight t). lia. }
  cbn [pending_levels set_queue]. destruct (pending_levels t !! p) as [c|] eqn:Ec; [|by apply Hstale].
  change (lvl (set_queue q t) p) with (lvl t p).
  destruct (Z.eqb_spec (Z.min (lvl t p) c) k) as [Ek|Ek]; cbn [negb].
  2:{ apply Hstale. by intros d [= <-]. }
  destruct (popped_ready t p c k q Ht Hb Hpop Ec Ek) as (Hr & Hne & Hw).
  set (t1 := set_pending (delete p (pending_levels t)) (set_queue q t)) in *.
  assert (Hstep : exists t2 o2, apply_pending_level MAX_LEVEL t1 p c originals = Ok (t2, o2) /\ applied t1 t2 k /\
    forall t0, originals_ok t0 t1 originals -> originals_ok t0 t2 o2).
  { destruct (Z.lt_trichotomy c (lvl t p)) as [H|[H|H]]; [by apply apply_decrease|done|by apply apply_increase]. }
  destruct Hstep as (t2 & o2 & -> & Ha & Ho2). cbn [obind].
  destruct (IH t2 o2) as (t3 & o3 & Hr3 & H3); [apply Ha|apply Ha|by apply Ho2| |].
  - pose proof (a_size _ _ _ Ha) as Hz. pose proof (a_weight _ _ _ Ha) as Hw2. unfold variant in *.
    change (propagation_queue t1) with q in Hz. pose proof (level_range t p Ht).
    destruct (s_pending t Ht p c Ec) as (_ & Hc & _). pose proof (unit_weight_succ k ltac:(lia)). lia.
  - exists t3, o3. split; [done|]. destruct H3 as (G1 & G2 & G3 & G4 & G5 & G6). split_and!; try done.
    eapply same_sources_trans; [|exact G5]. apply (a_same _ _ _ Ha).
Qed.

(** ** A whole pass *)

(** The source level at the end of the last pass. *)
Definition old_source (t : ChunkTracker) (p : ChunkPos) : Z :=
  default (src t p) (pending_source_levels t !! p).

(** Between passes. *)
Record tracker_ok (t : ChunkTracker) : Prop := {
  ok_settling : settling t;
  ok_pending : pending_levels t = ∅;
  ok_empty : queue_is_empty (propagation_queue t) = true;
  ok_old : forall p o, pending_source_levels t !! p = Some o ->
    is_chunk p /\ 0 <= o <= ABSENT;
  ok_levels : forall p, is_chunk p -> lvl t p = rhs MAX_LEVEL (old_source t) (lvl t) p
}.

Lemma settling_frame t t' :
  levels t' = levels t -> source_levels t' = source_levels t -> pending_levels t' = pending_levels t ->
  propagation_queue t' = propagation_queue t -> settling t -> settling t'.
Proof.
  intros E1 E2 E3 E4 [H1 H2 H3 H4]. constructor; rewrite ?E1, ?E2, ?E3, ?E4; [done..|].
  intros p c Hp. specialize (H4 p c Hp). unfold key, level in *. by rewrite E1.
Qed.

Lemma rhs_source s s' l p : s p = s' p -> rhs MAX_LEVEL s l p = rhs MAX_LEVEL s' l p.
Proof. intros H. apply glb_eq. intros x. by rewrite !rhs_glb, H. Qed.

Lemma entries_keys {A} order (m : gmap ChunkPos A) p :
  p ∈ (entries order m).*1 <-> is_Some (m !! p).
Proof.
  rewrite (fmap_Permutation fst _ _ (entries_perm order m)). rewrite list_elem_of_fmap. split.
  - intros ([q a] & -> & H%elem_of_map_to_list). eauto.
  - intros [a H]. exists (p, a). split; [done|]. by apply elem_of_map_to_list.
Qed.

Lemma entries_elem {A} order (m : gmap ChunkPos A) p a : (p, a) ∈ entries order m <-> m !! p = Some a.
Proof. by rewrite (elem_of_Permutation_proper _ _ _ (entries_perm order m)), elem_of_map_to_list. Qed.

Lemma entries_nodup {A} order (m : gmap ChunkPos A) : NoDup (entries order m).*1.
Proof. rewrite (fmap_Permutation fst _ _ (entries_perm order m)). apply NoDup_fst_map_to_list. Qed.

(** The source phase reestablishes the equation for the new sources. *)
Lemma source_phase_ok order t :
  tracker_ok t ->
  exists t', source_loop MAX_LEVEL
      (mk_tracker (source_levels t) ∅ (levels t) (pending_levels t) (propagation_queue t) [])
      (entries order (pending_source_levels t)) = Ok t' /\
    settling t' /\ balanced t' /\ levels t' = levels t /\
    source_levels t' = source_levels t /\ pending_source_levels t' = ∅ /\ changes t' = [].
Proof.
  intros [Ht Hp He Ho Hl].
  set (t1 := mk_tracker (source_levels t) ∅ (levels t) (pending_levels t) (propagation_queue t) []).
  assert (Ht1 : settling t1) by (by apply (settling_frame t)).
  assert (Hc1 : forall q, computed t1 q = lvl t q).
  { intros q. unfold computed. cbn [pending_levels t1]. by rewrite Hp, lookup_empty. }
  set (f := fun p => source_computed t1 p (default 0 (pending_source_levels t !! p))).
  destruct (source_loop_ok t1 (entries order (pending_source_levels t)) f Ht1) as (t2 & Hr & H2).
  - apply entries_nodup.
  - intros p [o Hpo]%entries_keys. by apply (Ho p o).
  - intros p o Hin%entries_elem. subst f. cbv beta. by rewrite Hin.
  - exists t2. split; [done|]. destruct (edges_same _ _ _ _ H2) as (E1 & E2 & E3 & E4).
    split; [apply H2|]. split_and!; try done.
    intros p Hpc. rewrite (edges_computed _ _ _ _ H2).
    rewrite (rhs_ext _ (src t) _ (lvl t)); [|intros; apply (same_source t1), H2|intros; apply (same_level t1), H2].
    case_decide as Hin.
    + apply entries_keys in Hin as [o Hpo]. subst f. cbv beta. rewrite Hpo. change (default 0 (Some o)) with o.
      unfold source_computed. rewrite Hc1. change (src t1 p) with (src t p).
      destruct (Ho p o Hpo) as (_ & Ho'). pose proof (source_range t p Ht) as Hsr.
      assert (Hold : old_source t p = o) by (unfold old_source; by rewrite Hpo).
      destruct (Z.ltb_spec (src t p) o) as [Hlt|Hge].
      * rewrite Hl by done. apply glb_eq. intros x. rewrite Z.min_glb_iff, !rhs_glb, Hold. split.
        -- intros [(H3 & H4 & H5) H6]. done.
        -- intros (H3 & H4 & H5). split_and!; [done|lia|done|done].
      * apply glb_eq. intros x. rewrite compute_level_glb, rhs_glb by (done || lia).
        change (src t1 p) with (src t p). split.
        -- intros (H3 & H4 & H5 & H6). split_and!; [done..|]. intros n Hn. by apply H6.
        -- intros (H3 & H4 & H5). split_and!; [done..|]. intros n Hn _. by apply H5.
    + rewrite Hc1, Hl by done. apply rhs_source. unfold old_source.
      destruct (pending_source_levels t !! p) as [o|] eqn:E; [|done]. destruct Hin. apply entries_keys. eauto.
Qed.

(** Levels that satisfy the equation are the reference levels. *)
Lemma balanced_reference t p :
  settling t -> (forall q, is_chunk q -> lvl t q = rhs MAX_LEVEL (src t) (lvl t) q) -> is_chunk p ->
  get_level t p = reference_level MAX_LEVEL (source_levels t) p.
Proof.
  intros Ht Hb Hp. unfold reference_level.
  rewrite <- (rhs_unique MAX_LEVEL (source_levels t) (lvl t)); [|intros s l Hs; by apply (s_sources t Ht s l)|
    intros; by apply level_range|exact Hb|exact Hp].
  unfold get_level, level. destruct (levels t !! p) as [l|] eqn:E; simpl.
  - apply (s_levels t Ht) in E. by rewrite (proj2 (Z.leb_le _ _)) by lia.
  - rewrite (proj2 (Z.leb_gt _ _)); [done|]. unfold ABSENT_LEVEL. lia.
Qed.

Definition changes_exact (t t' : ChunkTracker) : Prop :=
  NoDup (change_pos <$> changes t') /\ StronglySorted (ord_le change_cmp) (changes t') /\
  forall p l, mk_change p l ∈ changes t' <-> get_level t' p = l /\ get_level t p <> l.

#[export] Instance pos_cmp_laws : OrdLaws pos_cmp.
Proof.
  constructor.
  - intros [x1 y1] [x2 y2]. unfold pos_cmp. cbn [cx cy]. rewrite (Z.compare_antisym x1 x2), (Z.compare_antisym y1 y2).
    by destruct (x1 ?= x2), (y1 ?= y2).
  - intros [x1 y1] [x2 y2] [x3 y3]. unfold pos_cmp, then_with. cbn [cx cy].
    repeat match goal with |- context [?a ?= ?b] => destruct (Z.compare_spec a b) end; congruence || lia.
Qed.

#[export] Instance change_cmp_laws : OrdLaws change_cmp.
Proof.
  constructor.
  - intros x y. apply (ord_opp pos_cmp).
  - intros x y z. apply (ord_trans pos_cmp).
Qed.

Lemma level_changes_elem t l p n :
  mk_change p n ∈ level_changes t l <-> levels t !! p = n /\ exists o, (p, o) ∈ l /\ o <> n.
Proof.
  unfold level_changes. rewrite list_elem_of_omap. split.
  - intros ([q o] & Hin & H). case_decide as Hd; [done|]. injection H as -> <-. eauto.
  - intros (<- & o & Hin & Hne). exists (p, o). split; [done|]. by rewrite decide_False.
Qed.

Lemma level_changes_nodup t l : NoDup l.*1 -> NoDup (change_pos <$> level_changes t l).
Proof.
  induction l as [|[p o] l IH]; [constructor|]. csimpl. intros [Hp Hn]%NoDup_cons.
  case_decide as Hd; [by apply IH|]. csimpl. apply NoDup_cons. split; [|by apply IH].
  intros ([q n] & Hq & Hin)%list_elem_of_fmap. simpl in Hq. subst q.
  apply (level_changes_elem t l) in Hin as (_ & o' & Hin & _). apply Hp.
  by apply (list_elem_of_fmap_2 fst l (p, o')).
Qed.

Lemma pass_changes order t t' originals :
  originals_ok t t' originals -> forall c, 
  changes_exact t (set_changes (sort_by change_cmp (level_changes t' (entries order originals))) c) \/ levels c <> levels t'.
Proof.
  intros Ho c. destruct (decide (levels c = levels t')) as [Ec|]; [left|by right].
  unfold changes_exact. cbn [changes set_changes]. split_and!.
  - rewrite (fmap_Permutation change_pos _ _ (sort_by_perm change_cmp _)). apply level_changes_nodup, entries_nodup.
  - apply sort_by_sorted. apply _.
  - intros p l. rewrite (elem_of_Permutation_proper _ _ _ (sort_by_perm change_cmp _)), level_changes_elem.
    unfold get_level. cbn [levels set_changes]. rewrite Ec. setoid_rewrite entries_elem. specialize (Ho p). split.
    + intros (<- & o & Hor & Hne). rewrite Hor in Ho. split; [done|congruence].
    + intros [<- Hne]. split; [done|]. destruct (originals !! p) as [o|] eqn:E; [|congruence].
      exists o. split; [done|congruence].
Qed.

Lemma run_all_updates_ok order t :
  tracker_ok t ->
  exists n, forall fuel, (n <= fuel)%nat ->
    exists t', run_all_updates MAX_LEVEL fuel order t = Ok t' /\ tracker_ok t' /\
      source_levels t' = source_levels t /\ pending_source_levels t' = ∅ /\
      (forall p, is_chunk p -> get_level t' p = reference_level MAX_LEVEL (source_levels t) p) /\
      changes_exact t t'.
Proof.
  intros Hok. destruct (source_phase_ok order t Hok) as (t1 & Hs & Ht1 & Hb1 & Hl1 & Es1 & Ep1 & Ec1).
  exists (S (Z.to_nat (variant t1))). intros fuel Hf.
  unfold run_all_updates. cbn [pending_source_levels set_changes].
  destruct (decide (pending_source_levels t = ∅)) as [He|Hne].
  - exists (set_changes [] t). assert (Ht' : tracker_ok (set_changes [] t)).
    { destruct Hok as [H1 H2 H3 H4 H5]. constructor; [by apply (settling_frame t)|done..]. }
    split; [done|]. split; [done|]. split; [done|]. split; [done|]. split.
    + intros p Hp. apply (balanced_reference (set_changes [] t)); [apply Ht'| |done].
      intros q Hq. rewrite (ok_levels _ Ht' q Hq) at 1. apply rhs_source. unfold old_source.
      cbn [pending_source_levels set_changes]. by rewrite He, lookup_empty.
    + unfold changes_exact. cbn [changes set_changes]. split; [constructor|]. split; [constructor|].
      intros p l. split; [by intros ?%elem_of_nil|].
      unfold get_level. cbn [levels set_changes]. intros [<- Hne]. done.
  - cbn [pending_levels set_changes propagation_queue source_levels levels changes].
    rewrite bool_decide_eq_true_2 by apply Hok. rewrite (ok_empty t Hok). cbn [negb].
    rewrite Hs. cbn [obind].
    destruct (propagate_ok fuel t1 ∅ t1 Ht1 Hb1) as (t2 & o2 & Hr & Ht2 & Hb2 & Hp2 & He2 & (E1 & E2 & E3) & Ho2);
      [intros p; by rewrite lookup_empty|lia|].
    rewrite Hr. cbn [obind]. eexists. split; [reflexivity|].
    assert (Hlv : forall q, is_chunk q -> lvl t2 q = rhs MAX_LEVEL (src t2) (lvl t2) q).
    { intros q Hq. rewrite <- (Hb2 q Hq). unfold computed. by rewrite Hp2, lookup_empty. }
    split; [|split_and!].
    + constructor; cbn [pending_levels set_changes propagation_queue pending_source_levels]; try done.
      * by apply (settling_frame t2).
      * intros p o. by rewrite E2, Ep1, lookup_empty.
      * intros p Hp. change (lvl (set_changes _ t2)) with (lvl t2). rewrite (Hlv p Hp) at 1. apply rhs_source.
        unfold old_source. cbn [pending_source_levels set_changes]. by rewrite E2, Ep1, lookup_empty.
    + cbn [source_levels set_changes]. congruence.
    + cbn [pending_source_levels set_changes]. congruence.
    + intros p Hp. rewrite <- Es1, <- E1. apply (balanced_reference t2); [done|done|done].
    + destruct (pass_changes order t1 t2 o2 Ho2 t2) as [Hc|Hc]; [|done].
      unfold changes_exact, get_level in *. cbn [levels set_changes] in *. by rewrite <- Hl1.
Qed.

(** ** Reachable trackers *)

(** The update is of the types of the code: an [i32] position and a [u8]. *)
Definition typed_update (u : SourceLevelUpdate) : Prop :=
  is_chunk (source_pos u) /\ forall l, source_new u = Some l -> 0 <= l.

Definition updated_sources (m : gmap ChunkPos Z) (u : SourceLevelUpdate) : gmap ChunkPos Z :=
  match source_new u with Some l => <[source_pos u := l]> m | None => delete (source_pos u) m end.

Inductive reachable : ChunkTracker -> Prop :=
| reach_new t : tracker_new MAX_LEVEL = Ok t -> reachable t
| reach_update t u t' :
    reachable t -> typed_update u -> apply_source_update MAX_LEVEL t u = Ok t' -> reachable t'
| reach_pass t fuel order t' :
    reachable t -> run_all_updates MAX_LEVEL fuel order t = Ok t' -> reachable t'
| reach_take t : reachable t -> reachable (take_changes t).2
| reach_recycle t l t' : reachable t -> recycle_changes t l = Ok t' -> reachable t'.

Lemma tracker_new_ok t : tracker_new MAX_LEVEL = Ok t -> tracker_ok t /\ source_levels t = ∅.
Proof.
  unfold tracker_new. rewrite (proj2 (Z.leb_le _ _)) by lia. intros [= <-]. split; [|done].
  assert (Hl : forall p, lvl (mk_tracker ∅ ∅ ∅ ∅ (queue_new (ABSENT + 1)) []) p = ABSENT).
  { intros p. unfold level. cbn [levels]. by rewrite lookup_empty. }
  constructor; [constructor|..]; cbn [levels source_levels pending_levels propagation_queue pending_source_levels];
    try (intros p c; by rewrite lookup_empty); [apply queue_new_ok; unfold ABSENT_LEVEL; lia|done| |].
  - apply Z.eqb_eq. cbn [queue_new first_queued_level buckets]. rewrite length_replicate. unfold ABSENT_LEVEL. lia.
  - intros p Hp. rewrite Hl. apply glb_eq. intros x. rewrite rhs_glb. unfold old_source, source_level.
    cbn [pending_source_levels source_levels]. rewrite !lookup_empty. simpl. setoid_rewrite Hl. split; [|tauto].
    intros H. split_and!; try done. intros n _. lia.
Qed.

Lemma apply_source_update_ok t u :
  tracker_ok t -> is_chunk (source_pos u) -> (forall l, source_new u = Some l -> 0 <= l <= MAX_LEVEL) ->
  exists t', apply_source_update MAX_LEVEL t u = Ok t' /\ tracker_ok t' /\ levels t' = levels t /\
    source_levels t' = updated_sources (source_levels t) u.
Proof.
  destruct u as [p new]. cbn [source_pos source_new]. intros [Ht Hp He Ho Hl] Hpc Hnew.
  unfold apply_source_update, updated_sources. cbn [source_pos source_new].
  replace (match new with Some l => l <=? MAX_LEVEL | None => true end) with true
    by (destruct new as [l|]; [|done]; symmetry; apply Z.leb_le, (Hnew l eq_refl)).
  set (n := default ABSENT new).
  assert (Hn : 0 <= n <= ABSENT).
  { subst n. destruct new as [l|]; simpl; [specialize (Hnew l eq_refl)|]; unfold ABSENT_LEVEL; lia. }
  assert (Hna : n = ABSENT <-> new = None).
  { subst n. destruct new as [l|]; simpl; [|done]. specialize (Hnew l eq_refl). unfold ABSENT_LEVEL. split; [lia|done]. }
  set (sources := match new with Some l => <[p := l]> (source_levels t) | None => delete p (source_levels t) end).
  assert (Hsl : forall q, sources !! q = if decide (q = p) then new else source_levels t !! q).
  { intros q. subst sources. case_decide as E.
    - subst q. destruct new; [apply lookup_insert_eq|apply lookup_delete_eq].
    - destruct new; [by apply lookup_insert_ne|by apply lookup_delete_ne]. }
  destruct (Z.eqb_spec (src t p) n) as [E|Hne].
  { exists t. split; [done|]. split; [by constructor|]. split; [done|]. apply map_eq. intros q. rewrite Hsl.
    case_decide as Eq; [subst q|done]. unfold source_level in E. subst n.
    destruct (source_levels t !! p) as [l|] eqn:El, new as [l'|]; simpl in E; try done; try congruence.
    - apply (s_sources t Ht) in El as [El _]. unfold ABSENT_LEVEL in E. lia.
    - specialize (Hnew l' eq_refl). unfold ABSENT_LEVEL in E. lia. }
  assert (Es : (if n =? ABSENT then delete p (source_levels t) else <[p := n]> (source_levels t)) = sources).
  { subst sources n. destruct new as [l|]; simpl.
    - rewrite (proj2 (Z.eqb_neq _ _)); [done|]. specialize (Hnew l eq_refl). unfold ABSENT_LEVEL. lia.
    - by rewrite Z.eqb_refl. }
  rewrite Es. set (o := default (src t p) (pending_source_levels t !! p)).
  set (pend := if o =? n then delete p (<[p := o]> (pending_source_levels t)) else <[p := o]> (pending_source_levels t)).
  eexists. split; [reflexivity|]. split; [|done].
  assert (Hpend : forall q, pend !! q =
    if decide (q = p) then (if o =? n then None else Some o) else pending_source_levels t !! q).
  { intros q. subst pend. destruct (Z.eqb_spec o n); case_decide as Eq; try subst q.
    - apply lookup_delete_eq.
    - by rewrite lookup_delete_ne, lookup_insert_ne.
    - apply lookup_insert_eq.
    - by apply lookup_insert_ne. }
  assert (Ho' : 0 <= o <= ABSENT).
  { subst o. destruct (pending_source_levels t !! p) as [o'|] eqn:E; simpl; [by apply (Ho p o')|by apply source_range]. }
  set (t' := mk_tracker sources pend (levels t) (pending_levels t) (propagation_queue t) (changes t)).
  assert (Hold : forall q, old_source t' q = old_source t q).
  { intros q. unfold old_source, source_level. cbn [pending_source_levels source_levels t']. rewrite Hpend, Hsl.
    case_decide as Eq; [|done]. subst q. change (default (default ABSENT (source_levels t !! p)) (pending_source_levels t !! p)) with o.
    destruct (Z.eqb_spec o n) as [Eo|_]; [exact (eq_sym Eo)|done]. }
  constructor; cbn [pending_levels propagation_queue pending_source_levels t']; try done.
  - destruct Ht as [H1 H2 H3 H4]. constructor; cbn [levels source_levels pending_levels propagation_queue t']; try done.
    intros q l. rewrite Hsl. case_decide as Eq; [|by apply H2]. subst q. intros ->. split; [by apply Hnew|done].
  - intros q o'. rewrite Hpend. case_decide as Eq; [|by apply Ho]. subst q. by case_match; intros [= <-].
  - intros q Hq. change (lvl t' q) with (lvl t q). rewrite (Hl q Hq) at 1. by apply rhs_source.
Qed.

Lemma propagate_fuel fuel fuel' t o r :
  propagate MAX_LEVEL fuel t o = Ok r -> (fuel <= fuel')%nat -> propagate MAX_LEVEL fuel' t o = Ok r.
Proof.
  revert fuel' t o. induction fuel as [|fuel IH]; intros [|fuel'] t o; cbn [propagate]; try done; [lia|].
  intros H Hf. destruct (pop (propagation_queue t)) as [[[p k]|] q]; [|done].
  cbn [pending_levels set_queue] in *. destruct (pending_levels t !! p) as [c|]; [|apply IH; [done|lia]].
  destruct (negb _); [apply IH; [done|lia]|].
  destruct (apply_pending_level _ _ _ _ _) as [[t1 o1]|e|]; simpl in *; [|done..]. apply IH; [done|lia].
Qed.

Lemma run_all_updates_fuel fuel fuel' order t t' :
  run_all_updates MAX_LEVEL fuel order t = Ok t' -> (fuel <= fuel')%nat ->
  run_all_updates MAX_LEVEL fuel' order t = Ok t'.
Proof.
  unfold run_all_updates. intros H Hf. repeat case_match; try done.
  destruct (source_loop _ _ _) as [t1|e|]; [|done..]. cbn [obind] in *.
  destruct (propagate MAX_LEVEL fuel t1 ∅) as [r|e|] eqn:E; [|done..].
  by rewrite (propagate_fuel fuel fuel' _ _ _ E Hf).
Qed.

Lemma reachable_ok t : reachable t -> tracker_ok t.
Proof.
  induction 1 as [t Hn|t u t' _ IH [Hc Hu] Hs|t fuel order t' _ IH Hr|t _ IH|t l t' _ IH Hr].
  - by apply tracker_new_ok.
  - destruct (apply_source_update_ok t u IH Hc) as (t1 & H1 & Hok & _); [|congruence].
    intros l Hl. specialize (Hu l Hl). split; [done|]. unfold apply_source_update in Hs. rewrite Hl in Hs.
    destruct (Z.leb_spec l MAX_LEVEL); [done|discriminate].
  - destruct (run_all_updates_ok order t IH) as (n & Hn).
    destruct (Hn (Nat.max n fuel) ltac:(lia)) as (t1 & H1 & Hok & _).
    rewrite (run_all_updates_fuel fuel (Nat.max n fuel) order t t' Hr ltac:(lia)) in H1. congruence.
  - destruct IH as [H1 H2 H3 H4 H5]. constructor; [by apply (settling_frame t)|done..].
  - unfold recycle_changes in Hr. destruct (changes t); [|done]. injection Hr as <-.
    destruct IH as [H1 H2 H3 H4 H5]. constructor; [by apply (settling_frame t)|done..].
Qed.

Lemma changes_unique t t1 t2 :
  changes_exact t t1 -> changes_exact t t2 -> (forall p, get_level t1 p = get_level t2 p) -> changes t1 = changes t2.
Proof.
  intros (N1 & S1 & E1) (N2 & S2 & E2) Hl.
  assert (Hin : forall c, c ∈ changes t1 <-> c ∈ changes t2) by (intros [p l]; by rewrite E1, E2, Hl).
  apply (StronglySorted_unique_strong (ord_le change_cmp)); [|done..|].
  - intros [p1 l1] [p2 l2] H1 H2 Hle Hge. apply E1 in H1 as [<- _]. apply E2 in H2 as [<- _]. rewrite Hl.
    unfold ord_le, change_cmp, contramap, pos_cmp, then_with in *. cbn [change_pos] in *.
    assert (p1 = p2) as ->; [|done]. destruct p1 as [x1 y1], p2 as [x2 y2]. cbn [cx cy] in *.
    destruct (Z.compare_spec x1 x2), (Z.compare_spec y1 y2), (Z.compare_spec x2 x1), (Z.compare_spec y2 y1); congruence || lia.
  - apply NoDup_Permutation; [by eapply NoDup_fmap_1..|done].
Qed.

Lemma reference_range sources p l : reference_level MAX_LEVEL sources p = Some l -> l <= MAX_LEVEL.
Proof. unfold reference_level. destruct (Z.leb_spec (best_level sources p) MAX_LEVEL); [|done]. by intros [= <-]. Qed.
End Correct.

(** C15: A propagation pass is exact.  On every tracker the server can reach, by
    any history of source updates and passes, with any visiting orders of its
    hash maps, the pass terminates without panicking, and afterwards the level
    of every chunk is the least of source level + distance over all sources
    (absent beyond the tracker's limit); the reported changes are precisely
    the chunks whose level differs from before, each once, with its new level,
    sorted by position. *)
Theorem tracker_exact MAX_LEVEL order t :
  0 <= MAX_LEVEL <= MAX_LEVEL_RAW -> reachable MAX_LEVEL t ->
  exists n, forall fuel, (n <= fuel)%nat ->
    exists t', run_all_updates MAX_LEVEL fuel order t = Ok t' /\ reachable MAX_LEVEL t' /\
      (forall p, is_chunk p -> get_level t' p = reference_level MAX_LEVEL (source_levels t) p) /\
      changes_exact t t'.
Proof.
  intros Hm Hr. pose proof (reachable_ok _ Hm _ Hr) as Hok.
  destruct (run_all_updates_ok _ Hm order t Hok) as (n & Hn). exists n. intros fuel Hf.
  destruct (Hn fuel Hf) as (t' & H1 & _ & _ & _ & H2 & H3). exists t'. split; [done|]. split; [|done].
  by eapply reach_pass.
Qed.

Definition witness_tracker : ChunkTracker :=
  mk_tracker {[ mk_chunk 0 0 := 1 ]} {[ mk_chunk 0 0 := 3 ]} ∅ ∅ (queue_new 4) [].

Lemma witness_reachable : reachable 2 witness_tracker.
Proof.
  apply (reach_update 2 (mk_tracker ∅ ∅ ∅ ∅ (queue_new 4) []) (mk_source (mk_chunk 0 0) (Some 1))).
  - apply reach_new. reflexivity.
  - split; [split; vm_compute; split; congruence|]. intros l [= <-]. lia.
  - vm_compute. reflexivity.
Qed.

Lemma tracker_exact_witness :
  reachable 2 witness_tracker /\
  exists n, forall fuel, (n <= fuel)%nat ->
    exists t', run_all_updates 2 fuel some_order witness_tracker = Ok t' /\
      get_level t' (mk_chunk (-1) 1) = Some 2.
Proof.
  pose proof witness_reachable as Hr.
  split; [exact Hr|]. destruct (tracker_exact 2 some_order witness_tracker) as (n & Hn).
  - vm_compute. split; congruence.
  - exact Hr.
  - exists n. intros fuel Hf. destruct (Hn fuel Hf) as (t' & H1 & _ & H2 & _). exists t'. split; [exact H1|].
    rewrite H2 by (split; vm_compute; split; congruence). vm_compute. reflexivity.
Defined.

(** The visiting order of the hash maps is not observable: two passes over
    the same tracker, each in its own order, report the same list of changes
    and leave the same levels. *)
Theorem tracker_order_independent MAX_LEVEL t fuel1 fuel2 order1 order2 t1 t2 :
  0 <= MAX_LEVEL <= MAX_LEVEL_RAW -> reachable MAX_LEVEL t ->
  run_all_updates MAX_LEVEL fuel1 order1 t = Ok t1 -> run_all_updates MAX_LEVEL fuel2 order2 t = Ok t2 ->
  changes t1 = changes t2 /\ levels t1 = levels t2.
Proof.
  intros Hm Hr H1 H2. pose proof (reachable_ok _ Hm _ Hr) as Hok.
  assert (Hrun : forall fuel order t', run_all_updates MAX_LEVEL fuel order t = Ok t' ->
    tracker_ok MAX_LEVEL t' /\ changes_exact t t' /\
    forall p, is_chunk p -> get_level t' p = reference_level MAX_LEVEL (source_levels t) p).
  { intros fuel order t' Hf. destruct (run_all_updates_ok _ Hm order t Hok) as (n & Hn).
    destruct (Hn (Nat.max n fuel) ltac:(lia)) as (t3 & H3 & G1 & _ & _ & G2 & G3).
    rewrite (run_all_updates_fuel _ fuel (Nat.max n fuel) order t t' Hf ltac:(lia)) in H3. by injection H3 as <-. }
  destruct (Hrun _ _ _ H1) as (K1 & C1 & L1). destruct (Hrun _ _ _ H2) as (K2 & C2 & L2).
  assert (Hl : forall p, get_level t1 p = get_level t2 p).
  { intros p. destruct (get_level t1 p) as [l|] eqn:E1.
    - pose proof (proj2 (s_levels _ _ (ok_settling _ _ K1) _ _ E1)) as Hp. by rewrite <- E1, L1, L2.
    - destruct (get_level t2 p) as [l|] eqn:E2; [|done].
      pose proof (proj2 (s_levels _ _ (ok_settling _ _ K2) _ _ E2)) as Hp. by rewrite <- E1, <- E2, L1, L2. }
  split; [by apply (changes_unique t)|]. apply map_eq. exact Hl.
Qed.

Definition reversed_order : hash_iter :=
  mk_iter (fun A m => rev (map_to_list m)) (fun A m => Permutation_sym (Permutation_rev _)).

Lemma tracker_order_independent_witness :
  exists t1 t2, run_all_updates 2 60 some_order witness_tracker = Ok t1 /\
    run_all_updates 2 60 reversed_order witness_tracker = Ok t2 /\
    length (changes t1) = 9%nat /\ changes t1 = changes t2.
Proof.
  pose proof witness_reachable as Hr.
  destruct (run_all_updates 2 60 some_order witness_tracker) as [t1|e|] eqn:E1; [|vm_compute in E1; discriminate..].
  destruct (run_all_updates 2 60 reversed_order witness_tracker) as [t2|e|] eqn:E2; [|vm_compute in E2; discriminate..].
  exists t1, t2. split; [reflexivity|]. split; [reflexivity|]. split.
  - vm_compute in E1. injection E1 as <-. reflexivity.
  - refine (proj1 (tracker_order_independent 2 witness_tracker 60 60 some_order reversed_order t1 t2 _ Hr E1 E2)).
    vm_compute. split; congruence.
Defined.

(** Source updates are deferred: on a reachable tracker an update within
    the limit never panics and changes no level, only the source the next
    pass will use; an update beyond the limit panics. *)
Theorem source_update_deferred MAX_LEVEL t u :
  0 <= MAX_LEVEL <= MAX_LEVEL_RAW -> reachable MAX_LEVEL t -> typed_update u ->
  if match source_new u with Some l => l <=? MAX_LEVEL | None => true end then
    exists t', apply_source_update MAX_LEVEL t u = Ok t' /\ reachable MAX_LEVEL t' /\ levels t' = levels t /\
      source_levels t' = updated_sources (source_levels t) u
  else apply_source_update MAX_LEVEL t u = Panic.
Proof.
  intros Hm Hr Hu. pose proof (reachable_ok _ Hm _ Hr) as Hok. destruct Hu as [Hc Hl].
  destruct (match source_new u with Some l => l <=? MAX_LEVEL | None => true end) eqn:E.
  - destruct (apply_source_update_ok _ Hm t u Hok Hc) as (t' & H1 & _ & H2 & H3).
    { intros l Hn. rewrite Hn in E. apply Z.leb_le in E. split; [by apply Hl|done]. }
    exists t'. split; [done|]. split; [by eapply reach_update|done].
  - unfold apply_source_update. by rewrite E.
Qed.

Lemma source_update_deferred_witness :
  exists t', apply_source_update 2 (mk_tracker ∅ ∅ ∅ ∅ (queue_new 4) []) (mk_source (mk_chunk 0 0) (Some 1)) = Ok t' /\
    source_levels t' = {[ mk_chunk 0 0 := 1 ]}.
Proof.
  destruct (source_update_deferred 2 (mk_tracker ∅ ∅ ∅ ∅ (queue_new 4) []) (mk_source (mk_chunk 0 0) (Some 1)))
    as (t' & H1 & _ & _ & H2).
  - vm_compute. split; congruence.
  - apply reach_new. reflexivity.
  - split; [split; vm_compute; split; congruence|]. intros l [= <-]. lia.
  - exists t'. split; [exact H1|]. rewrite H2. reflexivity.
Defined.
