(* ===== verification/TicketType.v ===== *)
(** * Chunk ticket types and tickets

    Models [steel-registry/src/ticket_type.rs], [vanilla_ticket_types.rs],
    [steel_ticket_types.rs] and [steel-core/src/chunk/chunk_ticket.rs].  A
    [&'static TicketType] is a place with its immutable value; [ptr::eq]
    compares places, and since a place holds one value, comparing the pairs
    is the same. *)

From Stdlib Require Import Lia ZArith String.
From stdpp Require Import prelude list gmap strings.
From S2P Require Import Prelude Identifier Registry ChunkPyramid TicketLevel.

(** ** Flags and types *)

Definition PERSIST : Z := Z.shiftl 1 0.
Definition LOADING : Z := Z.shiftl 1 1.
Definition SIMULATION : Z := Z.shiftl 1 2.
Definition KEEP_DIMENSION_ACTIVE : Z := Z.shiftl 1 3.
Definition CAN_EXPIRE_IF_UNLOADED : Z := Z.shiftl 1 4.

(** [TicketTypeFlags::contains] and [union] of the [bitflags] crate's derived
    type, on the bits. *)
Definition contains (self other : Z) : bool := Z.land self other =? other.
Definition union (self other : Z) : Z := Z.lor self other.

Record TicketType := mk_type { key : Identifier; timeout : Z; flags : Z }.

#[export] Instance TicketType_eq_dec : EqDecision TicketType.
Proof. solve_decision. Defined.

Definition NO_TIMEOUT : Z := 0.

Definition persist (t : TicketType) : bool := contains (flags t) PERSIST.
Definition does_load (t : TicketType) : bool := contains (flags t) LOADING.
Definition does_simulate (t : TicketType) : bool := contains (flags t) SIMULATION.
Definition should_keep_dimension_active (t : TicketType) : bool := contains (flags t) KEEP_DIMENSION_ACTIVE.
Definition can_expire_if_unloaded (t : TicketType) : bool := contains (flags t) CAN_EXPIRE_IF_UNLOADED.
Definition has_timeout (t : TicketType) : bool := negb (timeout t =? NO_TIMEOUT).

(** [&'static TicketType] *)
Record TicketTypeRef := static { place : nat; deref : TicketType }.

#[export] Instance TicketTypeRef_eq_dec : EqDecision TicketTypeRef.
Proof. solve_decision. Defined.

(** [ptr::eq] *)
Definition ptr_eq (a b : TicketTypeRef) : bool := bool_decide (a = b).

(** ** The registered types *)

Definition LOADS : Z := LOADING.
Definition LOADS_AND_SIMULATES : Z := union LOADS SIMULATION.
Definition SIMULATES_AND_KEEPS_ACTIVE : Z := union SIMULATION KEEP_DIMENSION_ACTIVE.
Definition PERSISTENT_LOADING_SIMULATION : Z :=
  union (union (union PERSIST LOADING) SIMULATION) KEEP_DIMENSION_ACTIVE.
Definition LOADING_SIMULATION : Z := union (union LOADING SIMULATION) KEEP_DIMENSION_ACTIVE.
Definition LOADING_THAT_EXPIRES_IF_UNLOADED : Z := union LOADING CAN_EXPIRE_IF_UNLOADED.

Definition PLAYER_SPAWN : TicketTypeRef := static 0 (mk_type (vanilla_static "player_spawn") 20 LOADS).
Definition SPAWN_SEARCH : TicketTypeRef := static 1 (mk_type (vanilla_static "spawn_search") 1 LOADS).
Definition DRAGON : TicketTypeRef := static 2 (mk_type (vanilla_static "dragon") NO_TIMEOUT LOADS_AND_SIMULATES).
Definition PLAYER_LOADING : TicketTypeRef := static 3 (mk_type (vanilla_static "player_loading") NO_TIMEOUT LOADS).
Definition PLAYER_SIMULATION : TicketTypeRef :=
  static 4 (mk_type (vanilla_static "player_simulation") NO_TIMEOUT SIMULATES_AND_KEEPS_ACTIVE).
Definition FORCED : TicketTypeRef :=
  static 5 (mk_type (vanilla_static "forced") NO_TIMEOUT PERSISTENT_LOADING_SIMULATION).
Definition PORTAL : TicketTypeRef := static 6 (mk_type (vanilla_static "portal") 300 PERSISTENT_LOADING_SIMULATION).
Definition ENDER_PEARL : TicketTypeRef := static 7 (mk_type (vanilla_static "ender_pearl") 40 LOADING_SIMULATION).
Definition UNKNOWN : TicketTypeRef :=
  static 8 (mk_type (vanilla_static "unknown") 1 LOADING_THAT_EXPIRES_IF_UNLOADED).
Definition CHUNK_REQUEST : TicketTypeRef :=
  static 9 (mk_type (new_static "steel" "chunk_request") NO_TIMEOUT LOADING).

Definition ref_key (t : TicketTypeRef) : Identifier := key (deref t).

(** The registry of ticket types refuses duplicate keys. *)
Definition TicketTypeRegistry : Type := Registry TicketTypeRef.

Definition register_vanilla_ticket_types {E} (r : TicketTypeRegistry) : outcome E TicketTypeRegistry :=
  register_all ref_key true r
    [PLAYER_SPAWN; SPAWN_SEARCH; DRAGON; PLAYER_LOADING; PLAYER_SIMULATION; FORCED; PORTAL; ENDER_PEARL; UNKNOWN].
Definition register_steel_ticket_types {E} (r : TicketTypeRegistry) : outcome E TicketTypeRegistry :=
  register_all ref_key true r [CHUNK_REQUEST].

(** ** [ChunkTicket] *)

Record ChunkTicket := mk_ticket { ticket_type : TicketTypeRef; ticket_level : Z; ticks_left : Z }.

Definition from_saved (t : TicketTypeRef) (level ticks_left : Z) : ChunkTicket := mk_ticket t level ticks_left.
Definition ticket_new (t : TicketTypeRef) (level : Z) : ChunkTicket := from_saved t level (timeout (deref t)).
Definition ticket_for_full_chunk_radius (t : TicketTypeRef) (radius : Z) : ChunkTicket :=
  ticket_new t (for_full_chunk_radius radius).

Definition loading_level (t : ChunkTicket) : option Z :=
  if does_load (deref (ticket_type t)) then Some (ticket_level t) else None.
Definition simulation_level (t : ChunkTicket) : option Z :=
  if does_simulate (deref (ticket_type t)) then Some (ticket_level t) else None.

Definition reset_ticks_left (t : ChunkTicket) : ChunkTicket :=
  mk_ticket (ticket_type t) (ticket_level t) (timeout (deref (ticket_type t))).
Definition decrease_ticks_left (t : ChunkTicket) : ChunkTicket :=
  if has_timeout (deref (ticket_type t))
  then mk_ticket (ticket_type t) (ticket_level t) (i64 (ticks_left t - 1)) else t.
Definition is_timed_out (t : ChunkTicket) : bool :=
  has_timeout (deref (ticket_type t)) && (ticks_left t <? 0).

(** [PartialEq]: the type's identity and the level. *)
Definition ticket_eq (a b : ChunkTicket) : bool :=
  ptr_eq (ticket_type a) (ticket_type b) && (ticket_level a =? ticket_level b).

(** ** Facts *)

(** What [PartialEq] compares. *)
Definition identity (t : ChunkTicket) : TicketTypeRef * Z := (ticket_type t, ticket_level t).

Lemma ticket_eq_spec a b : ticket_eq a b = true <-> identity a = identity b.
Proof.
  unfold ticket_eq, ptr_eq, identity. rewrite andb_true_iff, bool_decide_eq_true, Z.eqb_eq.
  destruct a, b; cbn [ticket_type ticket_level]. split; [by intros [-> ->]|by intros [= -> ->]].
Qed.

Lemma identity_reset t : identity (reset_ticks_left t) = identity t.
Proof. done. Qed.

Lemma identity_decrease t : identity (decrease_ticks_left t) = identity t.
Proof. unfold decrease_ticks_left. by destruct (has_timeout _). Qed.

Lemma loading_level_identity a b : identity a = identity b -> loading_level a = loading_level b.
Proof. destruct a, b. unfold identity, loading_level. cbn [ticket_type ticket_level]. by intros [= -> ->]. Qed.

Lemma simulation_level_identity a b : identity a = identity b -> simulation_level a = simulation_level b.
Proof. destruct a, b. unfold identity, simulation_level. cbn [ticket_type ticket_level]. by intros [= -> ->]. Qed.

#[export] Hint Rewrite identity_reset identity_decrease : ticket.

(** The registry the server starts with. *)
Definition server_ticket_types : outcome Empty_set TicketTypeRegistry :=
  let? r := register_vanilla_ticket_types registry_new in
  let? r := register_steel_ticket_types r in
  Ok (freeze r).

Lemma server_ticket_types_built r : server_ticket_types = Ok r -> registry_built ref_key true r.
Proof.
  unfold server_ticket_types. destruct (register_vanilla_ticket_types registry_new) as [r1|[]|] eqn:E1; [|done].
  cbn [obind]. destruct (register_steel_ticket_types r1) as [r2|[]|] eqn:E2; [|done]. cbn [obind]. intros [= <-].
  apply registry_built_freeze. eapply register_all_built; [|exact E2]. eapply register_all_built; [|exact E1]. apply registry_built_new.
Qed.
