(* ===== verification/TicketStorage.v ===== *)
(** * Chunk ticket storage

    Models [steel-core/src/chunk/chunk_ticket_storage.rs]: the tickets held
    at every chunk position, their refresh and expiry by generation, the
    source levels they give to the two propagation trackers, and their saved
    form.  Iterating the hash map visits positions in an unspecified order
    ([hash_iter]); [sort_unstable_by] is a sort, and every sorted list here
    has distinct keys.  The generation counter is a [u64] whose exhaustion
    panics. *)

From Stdlib Require Import Lia ZArith String.
From stdpp Require Import prelude list gmap sorting.
From S2P Require Import Prelude Collections Position ChunkPyramid TicketLevel ChunkTracker KeyedList Identifier Registry TicketType.

Definition PORTAL_TICKET_RADIUS : Z := 3.
Definition ENDER_PEARL_TICKET_TIMEOUT_TICKS : Z := timeout (deref ENDER_PEARL).
Definition ENDER_PEARL_TICKET_RADIUS : Z := 2.

Definition u64_max : Z := 18446744073709551615.

(** [PersistentChunkTicket]; [PersistentChunkTickets] is the list of them. *)
Record PersistentChunkTicket := mk_persistent {
  saved_type : Identifier;
  chunk_x : Z;
  chunk_z : Z;
  saved_level : Z;
  saved_ticks_left : Z
}.

(** [deserialize_lenient_tickets]: [try_into] is the TOML library's. *)
Definition deserialize_lenient_tickets {V} (try_into : V -> option PersistentChunkTicket) (raw : list V) :
    list PersistentChunkTicket := omap try_into raw.

Inductive ChunkTicketStorageLoadError :=
| UnknownTicketType (ticket_type : Identifier)
| InvalidTicketLevel (ticket_type : Identifier) (level : Z).

Record StoredChunkTicket := mk_stored { ticket : ChunkTicket; timed_generation : option Z }.

Definition to_persistent_ticket (pos : ChunkPos) (self : StoredChunkTicket) : option PersistentChunkTicket :=
  let t := deref (ticket_type (ticket self)) in
  if persist t then
    Some (mk_persistent (key t) (cx pos) (cy pos) (ticket_level (ticket self)) (ticks_left (ticket self)))
  else None.

Record TimedTicketExpiration := mk_expiration {
  expiration_pos : ChunkPos;
  expiration_ticket : ChunkTicket;
  generation : Z
}.

Definition expires_if_unloaded (self : TimedTicketExpiration) : bool :=
  can_expire_if_unloaded (deref (ticket_type (expiration_ticket self))).

Definition portal_ticket : ChunkTicket := ticket_for_full_chunk_radius PORTAL PORTAL_TICKET_RADIUS.
Definition ender_pearl_ticket : ChunkTicket := ticket_for_full_chunk_radius ENDER_PEARL ENDER_PEARL_TICKET_RADIUS.

Record SourceProjectionChanges := mk_projection {
  load_positions : list ChunkPos;
  simulation_positions : list ChunkPos
}.

Definition no_changes : SourceProjectionChanges := mk_projection [] [].
Definition for_ticket (pos : ChunkPos) (t : ChunkTicket) : SourceProjectionChanges :=
  mk_projection (match loading_level t with Some _ => [pos] | None => [] end)
    (match simulation_level t with Some _ => [pos] | None => [] end).
Definition merge (self other : SourceProjectionChanges) : SourceProjectionChanges :=
  mk_projection (load_positions self ++ load_positions other)
    (simulation_positions self ++ simulation_positions other).

Record ChunkTicketStorage := mk_storage {
  tickets : gmap ChunkPos (list StoredChunkTicket);
  last_generation : Z
}.

Definition storage_new : ChunkTicketStorage := mk_storage ∅ 0.

Definition with_tickets (pos : ChunkPos) (l : list StoredChunkTicket) (s : ChunkTicketStorage) :
    ChunkTicketStorage := mk_storage (<[pos := l]> (tickets s)) (last_generation s).
Definition without_tickets (pos : ChunkPos) (s : ChunkTicketStorage) : ChunkTicketStorage :=
  mk_storage (delete pos (tickets s)) (last_generation s).

Definition allocate_timed_generation {E} (s : ChunkTicketStorage) : outcome E (Z * ChunkTicketStorage) :=
  if last_generation s =? u64_max then Panic
  else Ok (last_generation s + 1, mk_storage (tickets s) (last_generation s + 1)).

Definition generation_for {E} (s : ChunkTicketStorage) (t : TicketTypeRef) :
    outcome E (option Z * ChunkTicketStorage) :=
  if has_timeout (deref t) then
    let? '(g, s) := allocate_timed_generation s in Ok (Some g, s)
  else Ok (None, s).

(** [iter().position(|stored| stored.ticket == ticket)], with the element. *)
Definition find_ticket (t : ChunkTicket) (l : list StoredChunkTicket) : option (nat * StoredChunkTicket) :=
  list_find (fun stored => ticket_eq (ticket stored) t = true) l.

Definition add_ticket {E} (s : ChunkTicketStorage) (pos : ChunkPos) (t : ChunkTicket) :
    outcome E (SourceProjectionChanges * ChunkTicketStorage) :=
  let? '(timed_generation, s) := generation_for s (ticket_type t) in
  let entries := default [] (tickets s !! pos) in
  match find_ticket t entries with
  | Some (i, stored) =>
      Ok (no_changes, with_tickets pos (<[i := mk_stored (reset_ticks_left (ticket stored)) timed_generation]> entries) s)
  | None => Ok (for_ticket pos t, with_tickets pos (entries ++ [mk_stored t timed_generation]) s)
  end.

(** Store the vector left by a removal, or no entry when it is empty. *)
Definition put_rest (pos : ChunkPos) (rest : list StoredChunkTicket) (s : ChunkTicketStorage) : ChunkTicketStorage :=
  match rest with [] => without_tickets pos s | _ => with_tickets pos rest s end.

Definition remove_ticket (s : ChunkTicketStorage) (pos : ChunkPos) (t : ChunkTicket) :
    SourceProjectionChanges * ChunkTicketStorage :=
  match tickets s !! pos with
  | None => (no_changes, s)
  | Some entries =>
      match find_ticket t entries with
      | None => (no_changes, s)
      | Some (index, removed) => (for_ticket pos (ticket removed), put_rest pos (swap_remove index entries) s)
      end
  end.

(** [Iterator::min] *)
Fixpoint min_level (l : list Z) : option Z :=
  match l with
  | [] => None
  | x :: l => Some (match min_level l with Some y => Z.min x y | None => x end)
  end.

Definition load_source_level (s : ChunkTicketStorage) (pos : ChunkPos) : option Z :=
  match tickets s !! pos with
  | None => None
  | Some entries => min_level (omap (fun stored => loading_level (ticket stored)) entries)
  end.
Definition simulation_source_level (s : ChunkTicketStorage) (pos : ChunkPos) : option Z :=
  match tickets s !! pos with
  | None => None
  | Some entries =>
      min_level (filter (fun level => level_is_block_ticking level = true)
        (omap (fun stored => simulation_level (ticket stored)) entries))
  end.

Definition load_source_update (s : ChunkTicketStorage) (pos : ChunkPos) : SourceLevelUpdate :=
  mk_source pos (load_source_level s pos).
Definition simulation_source_update (s : ChunkTicketStorage) (pos : ChunkPos) : SourceLevelUpdate :=
  mk_source pos (simulation_source_level s pos).

Definition initial_sources (order : hash_iter) (s : ChunkTicketStorage)
    (source_update : ChunkTicketStorage -> ChunkPos -> SourceLevelUpdate) : list SourceLevelUpdate :=
  sort_by (contramap source_pos pos_cmp)
    (filter (fun update => is_Some (source_new update))
      ((fun e => source_update s e.1) <$> entries order (tickets s))).
Definition initial_load_sources order s := initial_sources order s load_source_update.
Definition initial_simulation_sources order s := initial_sources order s simulation_source_update.

Definition add_or_refresh_portal_ticket {E} (s : ChunkTicketStorage) (pos : ChunkPos) :=
  add_ticket (E := E) s pos portal_ticket.
Definition add_or_refresh_ender_pearl_ticket {E} (s : ChunkTicketStorage) (pos : ChunkPos) :=
  add_ticket (E := E) s pos ender_pearl_ticket.

Definition compare_expirations (left right : TimedTicketExpiration) : comparison :=
  then_with (then_with (pos_cmp (expiration_pos left) (expiration_pos right))
    (id_cmp (ref_key (ticket_type (expiration_ticket left))) (ref_key (ticket_type (expiration_ticket right)))))
    (ticket_level (expiration_ticket left) ?= ticket_level (expiration_ticket right)).

Definition timed_ticket_expirations (order : hash_iter) (s : ChunkTicketStorage) : list TimedTicketExpiration :=
  sort_by compare_expirations
    (mbind (fun e => omap (fun stored => mk_expiration e.1 (ticket stored) <$> timed_generation stored) e.2)
      (entries order (tickets s))).

(** [ChunkMap::eligible_timed_ticket_expirations]: the [retain] of
    [chunk_map/mod.rs]; whether a loaded chunk's holder is ready is the
    caller's state. *)
Definition eligible_timed_ticket_expirations (can_timed_ticket_expire : ChunkPos -> bool)
    (expirations : list TimedTicketExpiration) : list TimedTicketExpiration :=
  filter (fun e => expires_if_unloaded e || can_timed_ticket_expire (expiration_pos e) = true) expirations.

(** The [for] loop of [tick_timed_tickets]. *)
Fixpoint tick_loop (changes : SourceProjectionChanges) (s : ChunkTicketStorage)
    (expirations : list TimedTicketExpiration) : SourceProjectionChanges * ChunkTicketStorage :=
  match expirations with
  | [] => (changes, s)
  | e :: rest =>
      let pos := expiration_pos e in
      match tickets s !! pos with
      | None => tick_loop changes s rest
      | Some entries =>
          match list_find (fun stored => ticket_eq (ticket stored) (expiration_ticket e) = true /\
                             timed_generation stored = Some (generation e)) entries with
          | None => tick_loop changes s rest
          | Some (index, stored) =>
              let aged := decrease_ticks_left (ticket stored) in
              let entries := <[index := mk_stored aged (timed_generation stored)]> entries in
              if negb (is_timed_out aged) then tick_loop changes (with_tickets pos entries s) rest
              else tick_loop (merge changes (for_ticket pos aged)) (put_rest pos (swap_remove index entries) s) rest
          end
      end
  end.

Definition tick_timed_tickets (s : ChunkTicketStorage) (expirations : list TimedTicketExpiration) :=
  tick_loop no_changes s expirations.

Definition compare_persistent_tickets (left right : PersistentChunkTicket) : comparison :=
  then_with (then_with (then_with (chunk_x left ?= chunk_x right) (chunk_z left ?= chunk_z right))
    (id_cmp (saved_type left) (saved_type right))) (saved_level left ?= saved_level right).

Definition to_persistent (order : hash_iter) (s : ChunkTicketStorage) : list PersistentChunkTicket :=
  sort_by compare_persistent_tickets
    (mbind (fun e => omap (to_persistent_ticket e.1) e.2) (entries order (tickets s))).

Definition add_loaded_ticket {E} (s : ChunkTicketStorage) (pos : ChunkPos) (t : ChunkTicket) :
    outcome E ChunkTicketStorage :=
  let? '(timed_generation, s) := generation_for s (ticket_type t) in
  let entries := default [] (tickets s !! pos) in
  match find_ticket t entries with
  | Some (i, stored) =>
      Ok (with_tickets pos (<[i := mk_stored (reset_ticks_left (ticket stored)) timed_generation]> entries) s)
  | None => Ok (with_tickets pos (entries ++ [mk_stored t timed_generation]) s)
  end.

Definition add_loaded_persistent_ticket (registry : TicketTypeRegistry) (s : ChunkTicketStorage)
    (p : PersistentChunkTicket) : outcome ChunkTicketStorageLoadError ChunkTicketStorage :=
  match by_key registry (saved_type p) with
  | None => Err (UnknownTicketType (saved_type p))
  | Some t =>
      match level_new (saved_level p) with
      | None => Err (InvalidTicketLevel (saved_type p) (saved_level p))
      | Some level => add_loaded_ticket s (mk_chunk (chunk_x p) (chunk_z p)) (from_saved t level (saved_ticks_left p))
      end
  end.

(** The loop of [from_persistent]: an entry that cannot be restored is
    skipped. *)
Fixpoint load_loop {E} (registry : TicketTypeRegistry) (s : ChunkTicketStorage) (l : list PersistentChunkTicket) :
    outcome E ChunkTicketStorage :=
  match l with
  | [] => Ok s
  | p :: rest =>
      match add_loaded_persistent_ticket registry s p with
      | Ok s => load_loop registry s rest
      | Err _ => load_loop registry s rest
      | Panic => Panic
      end
  end.

Definition from_persistent {E} (registry : TicketTypeRegistry) (l : list PersistentChunkTicket) :
    outcome E ChunkTicketStorage := load_loop registry storage_new l.

(** [load]: [saved] is what the saved data manager returned. *)
Definition load {E F} (registry : TicketTypeRegistry) (saved : outcome F (list PersistentChunkTicket)) :
    outcome E ChunkTicketStorage :=
  match saved with Ok l => from_persistent registry l | Err _ => from_persistent registry [] | Panic => Panic end.

(** ** The tickets held, as a map from position and identity *)

Definition entries_at (s : ChunkTicketStorage) (p : ChunkPos) : list StoredChunkTicket := default [] (tickets s !! p).
Definition id_of (stored : StoredChunkTicket) : TicketTypeRef * Z := identity (ticket stored).
Definition held (s : ChunkTicketStorage) (p : ChunkPos) (k : TicketTypeRef * Z) : option StoredChunkTicket :=
  lookup_key id_of k (entries_at s p).

(** One logical ticket for each type and level; a timed entry has a
    generation of its own. *)
Record storage_ok (s : ChunkTicketStorage) : Prop := {
  ok_nonempty : forall p, tickets s !! p <> Some [];
  ok_keyed : forall p, keyed id_of (entries_at s p);
  ok_typed : forall p k st, held s p k = Some st -> is_chunk p /\ 0 <= k.2 <= MAX_LEVEL_RAW;
  ok_timed : forall p k st, held s p k = Some st ->
    if has_timeout (deref k.1) then exists g, timed_generation st = Some g /\ 0 < g <= last_generation s
    else timed_generation st = None;
  ok_unique : forall p k st p' k' st' g, held s p k = Some st -> held s p' k' = Some st' ->
    timed_generation st = Some g -> timed_generation st' = Some g -> p = p' /\ k = k';
  ok_counter : 0 <= last_generation s <= u64_max
}.

Lemma held_id s p k st : held s p k = Some st -> identity (ticket st) = k.
Proof. by intros [_ H]%lookup_key_elem. Qed.

Lemma held_elem s p k st : keyed id_of (entries_at s p) -> held s p k = Some st <-> st ∈ entries_at s p /\ id_of st = k.
Proof. apply lookup_key_Some. Qed.

Lemma storage_new_ok : storage_ok storage_new.
Proof.
  assert (Hn : forall p, entries_at storage_new p = []).
  { intros p. unfold entries_at. cbn [tickets storage_new]. by rewrite lookup_empty. }
  assert (Hh : forall p k, held storage_new p k = None).
  { intros p k. unfold held. by rewrite Hn. }
  constructor; try (intros p k; by rewrite Hh).
  - intros p. cbn [tickets storage_new]. by rewrite lookup_empty.
  - intros p. rewrite Hn. apply fmap_empty_keyed.
  - by vm_compute.
Qed.

(** A change of one key at one position. *)
Record updated (s s' : ChunkTicketStorage) (p : ChunkPos) (k : TicketTypeRef * Z) (o : option StoredChunkTicket)
    (g : Z) : Prop := {
  u_nonempty : forall q, tickets s' !! q <> Some [];
  u_keyed : forall q, keyed id_of (entries_at s' q);
  u_held : forall q k', held s' q k' = if decide (q = p /\ k' = k) then o else held s q k';
  u_last : last_generation s' = g
}.

Lemma entries_with s p l q : entries_at (with_tickets p l s) q = if decide (q = p) then l else entries_at s q.
Proof.
  unfold entries_at, with_tickets. cbn [tickets]. case_decide as H; [subst q; by rewrite lookup_insert_eq|].
  by rewrite lookup_insert_ne.
Qed.

Lemma entries_rest s p l q : entries_at (put_rest p l s) q = if decide (q = p) then l else entries_at s q.
Proof.
  destruct l as [|st l]; [|apply entries_with]. unfold entries_at, put_rest, without_tickets. cbn [tickets].
  case_decide as H; [subst q; by rewrite lookup_delete_eq|]. by rewrite lookup_delete_ne.
Qed.

Lemma rest_nonempty s p l q :
  (forall q, tickets s !! q <> Some []) -> tickets (put_rest p l s) !! q <> Some [].
Proof.
  intros H. destruct l as [|st l]; cbn [put_rest without_tickets with_tickets tickets].
  - rewrite lookup_delete_Some. by intros [_ ?%H].
  - rewrite lookup_insert_Some. by intros [[_ ?]|[_ ?%H]].
Qed.

Lemma updated_by s s0 s' p k o :
  storage_ok s -> tickets s0 = tickets s ->
  (forall q, tickets s' !! q <> Some []) ->
  (forall q, q <> p -> entries_at s' q = entries_at s q) ->
  (forall k', keyed id_of (entries_at s' p) /\
     lookup_key id_of k' (entries_at s' p) = if decide (k' = k) then o else lookup_key id_of k' (entries_at s p)) ->
  last_generation s' = last_generation s0 -> updated s s' p k o (last_generation s0).
Proof.
  intros Hok E Hn Ho Hk Hl. constructor; [done| | |done].
  - intros q. destruct (decide (q = p)) as [->|Hq]; [apply (Hk k)|rewrite Ho by done; by apply ok_keyed].
  - intros q k'. unfold held. destruct (decide (q = p)) as [->|Hq].
    + rewrite (proj2 (Hk k')). repeat case_decide; naive_solver.
    + rewrite Ho by done. rewrite decide_False by tauto. done.
Qed.

Section Updates.
Context (s s0 : ChunkTicketStorage) (p : ChunkPos).
Context (Hok : storage_ok s) (Hs0 : tickets s0 = tickets s).

Lemma entries_same q : entries_at s0 q = entries_at s q.
Proof. unfold entries_at. by rewrite Hs0. Qed.

Lemma nonempty_same q : tickets s0 !! q <> Some [].
Proof. rewrite Hs0. by apply ok_nonempty. Qed.

Lemma update_updated i st st' :
  entries_at s p !! i = Some st -> id_of st' = id_of st ->
  updated s (with_tickets p (<[i := st']> (entries_at s p)) s0) p (id_of st) (Some st') (last_generation s0).
Proof.
  intros Hi Hid. apply updated_by; [done..| | | |done].
  - intros q. cbn [with_tickets tickets]. rewrite lookup_insert_Some. intros [[_ H]|[_ H%nonempty_same]]; [|done].
    apply (f_equal length) in H. rewrite length_insert in H. apply lookup_lt_Some in Hi. simpl in H. lia.
  - intros q Hq. by rewrite entries_with, decide_False, entries_same.
  - intros k'. rewrite entries_with, decide_True by done.
    by apply (lookup_key_update id_of k' (entries_at s p) i st st' (ok_keyed s Hok p)).
Qed.

Lemma push_updated st :
  held s p (id_of st) = None ->
  updated s (with_tickets p (entries_at s p ++ [st]) s0) p (id_of st) (Some st) (last_generation s0).
Proof.
  intros Hh%lookup_key_None. apply updated_by; [done..| | | |done].
  - intros q. cbn [with_tickets tickets]. rewrite lookup_insert_Some. intros [[_ H]|[_ H%nonempty_same]]; [|done].
    by destruct (entries_at s p).
  - intros q Hq. by rewrite entries_with, decide_False, entries_same.
  - intros k'. rewrite entries_with, decide_True by done.
    by apply (lookup_key_push id_of k' (entries_at s p) st (ok_keyed s Hok p)).
Qed.

Lemma remove_updated i st l :
  entries_at s p !! i = Some st -> l = swap_remove i (entries_at s p) ->
  updated s (put_rest p l s0) p (id_of st) None (last_generation s0).
Proof.
  intros Hi ->. apply updated_by; [done..| | | |].
  - intros q. apply rest_nonempty, nonempty_same.
  - intros q Hq. by rewrite entries_rest, decide_False, entries_same.
  - intros k'. rewrite entries_rest, decide_True by done.
    by apply (lookup_key_remove id_of k' (entries_at s p) i st (ok_keyed s Hok p)).
  - by destruct (swap_remove i (entries_at s p)).
Qed.
End Updates.

(** The generation an entry may get: none, a fresh one, or the one it has. *)
Definition may_hold (s : ChunkTicketStorage) (g : Z) (p : ChunkPos) (k : TicketTypeRef * Z) (st : StoredChunkTicket) : Prop :=
  is_chunk p /\ 0 <= k.2 <= MAX_LEVEL_RAW /\
  (if has_timeout (deref k.1) then
     (exists n, timed_generation st = Some n /\ last_generation s < n <= g) \/
     (exists old, held s p k = Some old /\ timed_generation st = timed_generation old)
   else timed_generation st = None).

Lemma updated_ok s s' p k o g :
  storage_ok s -> updated s s' p k o g -> last_generation s <= g <= u64_max ->
  (forall st, o = Some st -> may_hold s g p k st) -> storage_ok s'.
Proof.
  intros Hok [U1 U2 U3 U4] Hg Ho.
  assert (Hgen : forall st, o = Some st -> forall n, timed_generation st = Some n -> 0 < n <= g /\
    (forall q k' st', held s q k' = Some st' -> timed_generation st' = Some n -> q = p /\ k' = k)).
  { intros st Hst n Hn. destruct (Ho st Hst) as (_ & _ & Ht). destruct (has_timeout (deref k.1)) eqn:Et; [|congruence].
    pose proof (ok_counter s Hok). destruct Ht as [(n' & Hn' & Hr)|(old & Hold & Heq)].
    - assert (n = n') as -> by congruence. split; [lia|]. intros q k' st' Hh Hn2. pose proof (ok_timed s Hok _ _ _ Hh) as Ht.
      destruct (has_timeout (deref k'.1)); [|congruence]. destruct Ht as (g' & Hg' & Hr'). assert (g' = n') by congruence. lia.
    - pose proof (ok_timed s Hok _ _ _ Hold) as Ht. rewrite Et in Ht. destruct Ht as (g' & Hg' & Hr').
      assert (g' = n) by congruence. split; [lia|]. intros q k' st' Hh Hn2.
      by apply (ok_unique s Hok q k' st' p k old n); [..|congruence]. }
  constructor; [done|done|..].
  - intros q k' st. rewrite U3. case_decide as E; [|by apply ok_typed]. destruct E as [-> ->]. intros Hst.
    by destruct (Ho st Hst) as (? & ? & _).
  - intros q k' st. rewrite U3. case_decide as E.
    + destruct E as [-> ->]. intros Hst. destruct (Ho st Hst) as (_ & _ & Ht). destruct (has_timeout (deref k.1)) eqn:Et; [|done].
      assert (exists n, timed_generation st = Some n) as [n Hn].
      { destruct Ht as [(n & ? & _)|(old & Hold & ->)]; [eauto|]. pose proof (ok_timed s Hok _ _ _ Hold) as Ht.
        rewrite Et in Ht. destruct Ht as (g' & ? & _). eauto. }
      exists n. rewrite U4. split; [done|]. by apply (Hgen st Hst).
    + intros Hh. pose proof (ok_timed s Hok _ _ _ Hh) as Ht. destruct (has_timeout _); [|done].
      destruct Ht as (g' & ? & ?). exists g'. split; [done|lia].
  - intros q k1 st q' k2 st' n. rewrite !U3. repeat case_decide; intros H1 H2 N1 N2.
    + naive_solver.
    + destruct (proj2 (Hgen st H1 n N1) q' k2 st' H2 N2). naive_solver.
    + destruct (proj2 (Hgen st' H2 n N2) q k1 st H1 N1). naive_solver.
    + by apply (ok_unique s Hok q k1 st q' k2 st' n).
  - rewrite U4. pose proof (ok_counter s Hok). lia.
Qed.

(** ** Operations on the map *)

Lemma find_ticket_Some t l i st :
  find_ticket t l = Some (i, st) -> l !! i = Some st /\ id_of st = identity t.
Proof. unfold find_ticket. intros (Hi & H%ticket_eq_spec & _)%list_find_Some. done. Qed.

Lemma find_ticket_held s p t : snd <$> find_ticket t (entries_at s p) = held s p (identity t).
Proof. apply find_key. intros st _. apply ticket_eq_spec. Qed.

(** What a ticket type asks of its entries' generation. *)
Definition generation_fits (t : TicketTypeRef) (old : Z) (gen : option Z) (g : Z) : Prop :=
  old <= g <= u64_max /\
  if has_timeout (deref t) then gen = Some g /\ g = old + 1 else gen = None /\ g = old.

Lemma generation_for_ok {E} s t :
  storage_ok s -> (has_timeout (deref t) = true -> last_generation s < u64_max) ->
  exists gen s0, generation_for (E := E) s t = Ok (gen, s0) /\ tickets s0 = tickets s /\
    generation_fits t (last_generation s) gen (last_generation s0).
Proof.
  intros Hok Hg. pose proof (ok_counter s Hok). unfold generation_for, generation_fits.
  destruct (has_timeout (deref t)); [|exists None, s; do 2 (split; [done|]); split; [lia|done]].
  specialize (Hg eq_refl). unfold allocate_timed_generation. rewrite (proj2 (Z.eqb_neq _ _)) by lia. cbn [obind].
  eexists _, _. split; [done|]. split; [done|]. cbn [last_generation]. split; [lia|]. split; [done|lia].
Qed.

Lemma fits_may_hold s p t gen g st :
  is_chunk p -> 0 <= ticket_level t <= MAX_LEVEL_RAW -> generation_fits (ticket_type t) (last_generation s) gen g ->
  timed_generation st = gen -> may_hold s g p (identity t) st.
Proof.
  intros Hp Hl [Hg Hf] Hst. split; [done|]. split; [done|]. unfold identity. cbn [fst]. rewrite Hst.
  destruct (has_timeout (deref (ticket_type t))); [|by destruct Hf]. destruct Hf as [-> Hlt]. left. exists g. split; [done|lia].
Qed.

(** The entry and the changes of adding [t] with generation [gen]. *)
Definition added_entry (s : ChunkTicketStorage) (p : ChunkPos) (t : ChunkTicket) (gen : option Z) : StoredChunkTicket :=
  mk_stored (if held s p (identity t) then reset_ticks_left t else t) gen.
Definition added_changes (s : ChunkTicketStorage) (p : ChunkPos) (t : ChunkTicket) : SourceProjectionChanges :=
  if held s p (identity t) then no_changes else for_ticket p t.

Lemma add_entry_updated s s0 p t gen :
  storage_ok s -> tickets s0 = tickets s ->
  exists s', updated s s' p (identity t) (Some (added_entry s p t gen)) (last_generation s0) /\
    match find_ticket t (default [] (tickets s0 !! p)) with
    | Some (i, stored) =>
        added_changes s p t = no_changes /\
        s' = with_tickets p (<[i := mk_stored (reset_ticks_left (ticket stored)) gen]> (default [] (tickets s0 !! p))) s0
    | None => added_changes s p t = for_ticket p t /\ s' = with_tickets p (default [] (tickets s0 !! p) ++ [mk_stored t gen]) s0
    end.
Proof.
  intros Hok E. rewrite E. change (default [] (tickets s !! p)) with (entries_at s p).
  pose proof (find_ticket_held s p t) as Hh. unfold added_entry, added_changes.
  destruct (find_ticket t (entries_at s p)) as [[i st]|] eqn:Ef; simpl in Hh; rewrite <- Hh; eexists; (split; [|done]).
  - apply find_ticket_Some in Ef as [Hi Hid]. rewrite <- Hid.
    replace (reset_ticks_left t) with (reset_ticks_left (ticket st)).
    + apply (update_updated s s0 p Hok E i st _ Hi). done.
    + destruct t as [ty lv n], st as [[ty' lv' n'] g]. unfold id_of, identity in Hid. cbn [ticket ticket_type ticket_level] in Hid.
      unfold reset_ticks_left. cbn [ticket ticket_type ticket_level]. by simplify_eq.
  - by apply (push_updated s s0 p Hok E (mk_stored t gen)).
Qed.

Section AddTicket.
Context (s : ChunkTicketStorage) (p : ChunkPos) (t : ChunkTicket) (Hok : storage_ok s).
Context (Hp : is_chunk p) (Hl : 0 <= ticket_level t <= MAX_LEVEL_RAW).
Context (Hg : has_timeout (deref (ticket_type t)) = true -> last_generation s < u64_max).

Lemma add_ticket_ok {E} :
  exists gen s', add_ticket (E := E) s p t = Ok (added_changes s p t, s') /\ storage_ok s' /\
    generation_fits (ticket_type t) (last_generation s) gen (last_generation s') /\
    updated s s' p (identity t) (Some (added_entry s p t gen)) (last_generation s').
Proof.
  destruct (generation_for_ok (E := E) s (ticket_type t) Hok Hg) as (gen & s0 & H1 & H2 & H3).
  destruct (add_entry_updated s s0 p t gen Hok H2) as (s' & Hu & Hm). exists gen, s'. unfold add_ticket.
  rewrite H1. cbn [obind]. pose proof (u_last _ _ _ _ _ _ Hu) as Hlast. rewrite Hlast.
  split; [|split; [|done]].
  - destruct (find_ticket _ _) as [[i st]|]; destruct Hm as [-> ->]; done.
  - apply (updated_ok s s' p (identity t) _ _ Hok Hu); [apply H3|]. intros st [= <-].
    by apply (fits_may_hold s p t gen).
Qed.

Lemma add_loaded_ticket_ok {E} :
  exists gen s', add_loaded_ticket (E := E) s p t = Ok s' /\ storage_ok s' /\
    generation_fits (ticket_type t) (last_generation s) gen (last_generation s') /\
    updated s s' p (identity t) (Some (added_entry s p t gen)) (last_generation s').
Proof.
  destruct (generation_for_ok (E := E) s (ticket_type t) Hok Hg) as (gen & s0 & H1 & H2 & H3).
  destruct (add_entry_updated s s0 p t gen Hok H2) as (s' & Hu & Hm). exists gen, s'. unfold add_loaded_ticket.
  rewrite H1. cbn [obind]. pose proof (u_last _ _ _ _ _ _ Hu) as Hlast. rewrite Hlast.
  split; [|split; [|done]].
  - destruct (find_ticket _ _) as [[i st]|]; destruct Hm as [_ ->]; done.
  - apply (updated_ok s s' p (identity t) _ _ Hok Hu); [apply H3|]. intros st [= <-].
    by apply (fits_may_hold s p t gen).
Qed.
End AddTicket.

Lemma find_ticket_none s p t : find_ticket t (entries_at s p) = None <-> held s p (identity t) = None.
Proof. rewrite <- find_ticket_held. by destruct (find_ticket _ _). Qed.

Lemma updated_id s p k : storage_ok s -> held s p k = None -> updated s s p k None (last_generation s).
Proof.
  intros Hok Hh. constructor; [apply ok_nonempty, Hok|apply ok_keyed, Hok| |done].
  intros q k'. case_decide as E; [|done]. by destruct E as [-> ->].
Qed.

Lemma for_ticket_identity p a b : identity a = identity b -> for_ticket p a = for_ticket p b.
Proof. intros H. unfold for_ticket. by rewrite (loading_level_identity a b H), (simulation_level_identity a b H). Qed.

Lemma remove_ticket_ok s p t :
  storage_ok s ->
  exists s', remove_ticket s p t = (if held s p (identity t) then for_ticket p t else no_changes, s') /\
    storage_ok s' /\ updated s s' p (identity t) None (last_generation s).
Proof.
  intros Hok.
  assert (Hu : exists s', remove_ticket s p t = (if held s p (identity t) then for_ticket p t else no_changes, s') /\
    updated s s' p (identity t) None (last_generation s)).
  { unfold remove_ticket. pose proof (find_ticket_held s p t) as Hh. unfold entries_at in Hh.
    destruct (tickets s !! p) as [l|] eqn:El.
    - change (default [] (Some l)) with l in Hh. destruct (find_ticket t l) as [[i st]|] eqn:Ef; simpl in Hh; rewrite <- Hh.
      + apply find_ticket_Some in Ef as [Hi Hid]. rewrite <- Hid.
        rewrite (for_ticket_identity p t (ticket st)) by (by symmetry). eexists. split; [reflexivity|].
        apply (remove_updated s s p Hok eq_refl i); unfold entries_at; by rewrite El.
      + exists s. split; [done|]. by apply updated_id.
    - simpl in Hh. rewrite <- Hh. exists s. split; [done|]. by apply updated_id. }
  destruct Hu as (s' & Hr & Hu). exists s'. split; [done|]. split; [|done].
  apply (updated_ok s s' p (identity t) None (last_generation s) Hok Hu); [|done].
  pose proof (ok_counter s Hok). lia.
Qed.

(** ** Source levels *)

Lemma min_level_glb l m : min_level l = Some m <-> m ∈ l /\ forall x, x ∈ l -> m <= x.
Proof.
  revert m. induction l as [|y l IH]; intros m; cbn [min_level].
  - split; [done|]. by intros [?%elem_of_nil _].
  - destruct (min_level l) as [z|] eqn:E.
    + destruct (proj1 (IH z) eq_refl) as [Hz Hle]. split.
      * intros [= <-]. split; [|intros x [->|Hx]%elem_of_cons; [|specialize (Hle x Hx)]; lia].
        destruct (Z.min_spec y z) as [[_ ->]|[_ ->]]; [by left|by right].
      * intros [Hm Hmin]. f_equal. pose proof (Hmin y ltac:(by left)). pose proof (Hmin z ltac:(by right)).
        apply elem_of_cons in Hm as [->|Hm]; [lia|]. specialize (Hle m Hm). lia.
    + assert (l = []) as -> by (destruct l; [done|cbn in E; by destruct (min_level l)]). split.
      * intros [= <-]. split; [by left|]. intros x [->|?%elem_of_nil]%elem_of_cons; [lia|done].
      * intros [[->|?%elem_of_nil]%elem_of_cons _]; done.
Qed.

Lemma min_level_ext l l' : (forall x, x ∈ l <-> x ∈ l') -> min_level l = min_level l'.
Proof. intros H. apply option_eq. intros m. rewrite !min_level_glb. setoid_rewrite H. done. Qed.

(** What an identity gives each tracker. *)
Definition load_of (k : TicketTypeRef * Z) : option Z := if does_load (deref k.1) then Some k.2 else None.
Definition simulation_of (k : TicketTypeRef * Z) : option Z :=
  if does_simulate (deref k.1) && level_is_block_ticking k.2 then Some k.2 else None.

(** The strongest level the tickets held at [p] give. *)
Definition strongest (g : TicketTypeRef * Z -> option Z) (s : ChunkTicketStorage) (p : ChunkPos) : option Z :=
  min_level (omap g (id_of <$> entries_at s p)).

Lemma list_omap_map {A B C} (f : A -> B) (g : B -> option C) (l : list A) : omap (fun x => g (f x)) l = omap g (f <$> l).
Proof. induction l as [|x l IH]; [done|]. csimpl. by rewrite IH. Qed.

Lemma load_strongest s p : load_source_level s p = strongest load_of s p.
Proof.
  unfold load_source_level, strongest, entries_at. destruct (tickets s !! p) as [l|]; [|done].
  f_equal. apply (list_omap_map id_of load_of).
Qed.

Lemma simulation_strongest s p : simulation_source_level s p = strongest simulation_of s p.
Proof.
  unfold simulation_source_level, strongest, entries_at. destruct (tickets s !! p) as [l|]; [|done].
  f_equal. cbn. induction l as [|st l IH]; [done|]. csimpl.
  unfold simulation_of at 1, simulation_level at 1, id_of at 1 2 3, identity at 1 2 3. cbn [fst snd].
  destruct (does_simulate _); [|exact IH]. cbn [andb]. rewrite filter_cons.
  destruct (level_is_block_ticking _); [rewrite decide_True by done; by f_equal|by rewrite decide_False].
Qed.

Lemma held_ids s p k : k ∈ id_of <$> entries_at s p <-> is_Some (held s p k).
Proof. symmetry. apply lookup_key_is_Some. Qed.

Lemma strongest_spec g s p l :
  strongest g s p = Some l <->
  (exists k, is_Some (held s p k) /\ g k = Some l) /\ forall k l', is_Some (held s p k) -> g k = Some l' -> l <= l'.
Proof.
  unfold strongest. rewrite min_level_glb. setoid_rewrite list_elem_of_omap. setoid_rewrite held_ids. naive_solver.
Qed.

Lemma strongest_same g s s' p :
  (forall k, is_Some (g k) -> is_Some (held s p k) <-> is_Some (held s' p k)) -> strongest g s p = strongest g s' p.
Proof.
  intros H. apply min_level_ext. intros x. rewrite !list_elem_of_omap. setoid_rewrite held_ids.
  split; intros (k & Hk & Hg); exists k; (split; [|done]); apply H; done || by rewrite Hg.
Qed.

(** Every position whose source level changed is among the positions of [c]. *)
Definition reported (s s' : ChunkTicketStorage) (c : SourceProjectionChanges) : Prop :=
  (forall p, load_source_level s' p <> load_source_level s p -> p ∈ load_positions c) /\
  (forall p, simulation_source_level s' p <> simulation_source_level s p -> p ∈ simulation_positions c).

Lemma reported_refl s c : reported s s c.
Proof. by split. Qed.

Lemma reported_trans s s1 s2 c1 c2 : reported s s1 c1 -> reported s1 s2 c2 -> reported s s2 (merge c1 c2).
Proof.
  intros [L1 S1] [L2 S2]. split; intros p Hp; cbn [merge load_positions simulation_positions]; apply elem_of_app.
  - destruct (decide (load_source_level s1 p = load_source_level s p)) as [E|Hne]; [right|left; auto].
    apply L2. by rewrite E.
  - destruct (decide (simulation_source_level s1 p = simulation_source_level s p)) as [E|Hne]; [right|left; auto].
    apply S2. by rewrite E.
Qed.

Lemma updated_strongest g s s' p k o n q :
  updated s s' p k o n -> strongest g s' q <> strongest g s q ->
  q = p /\ is_Some (g k) /\ (is_Some o <-> ~ is_Some (held s p k)).
Proof.
  intros Hu Hne.
  destruct (decide (q = p)) as [->|Hq]; [split; [done|]|].
  - destruct (decide (is_Some (g k))) as [Hg|Hg]; [split; [done|]|].
    + destruct (decide (is_Some o)) as [Ho|Ho], (decide (is_Some (held s p k))) as [Hh|Hh]; try tauto;
        exfalso; apply Hne, strongest_same; intros k' _; rewrite (u_held _ _ _ _ _ _ Hu); case_decide as E; naive_solver.
    + exfalso. apply Hne, strongest_same. intros k' Hk'. rewrite (u_held _ _ _ _ _ _ Hu), decide_False; [done|]. naive_solver.
  - exfalso. apply Hne, strongest_same. intros k' _. rewrite (u_held _ _ _ _ _ _ Hu), decide_False; [done|]. tauto.
Qed.

Lemma updated_reported s s' p t o n c :
  updated s s' p (identity t) o n ->
  ((is_Some o <-> ~ is_Some (held s p (identity t))) -> c = for_ticket p t) -> reported s s' c.
Proof.
  intros Hu Hc. split; intros q; rewrite ?load_strongest, ?simulation_strongest;
    intros (-> & [l Hg] & Hiff)%(updated_strongest _ _ _ _ _ _ _ _ Hu); rewrite (Hc Hiff);
    unfold for_ticket; cbn [load_positions simulation_positions].
  - change (loading_level t) with (load_of (identity t)). rewrite Hg. by left.
  - unfold simulation_of, identity in Hg. cbn [fst snd] in Hg. unfold simulation_level.
    destruct (does_simulate _); [by left|done].
Qed.

Lemma add_ticket_reported s p t gen n s' :
  updated s s' p (identity t) (Some (added_entry s p t gen)) n -> reported s s' (added_changes s p t).
Proof.
  intros Hu. apply (updated_reported _ _ _ _ _ _ _ Hu). unfold added_changes. intros Hiff.
  destruct (held s p (identity t)) as [st|]; [|done]. destruct (proj1 Hiff); eauto.
Qed.

Lemma remove_ticket_reported s p t n s' :
  updated s s' p (identity t) None n ->
  reported s s' (if held s p (identity t) then for_ticket p t else no_changes).
Proof.
  intros Hu. apply (updated_reported _ _ _ _ _ _ _ Hu). intros Hiff.
  destruct (held s p (identity t)) as [st|]; [done|]. destruct (proj2 Hiff); [|done]. by intros [].
Qed.

(** ** Expiry *)

(** A timed entry one tick later, if it has not timed out. *)
Definition aged (stored : StoredChunkTicket) : option StoredChunkTicket :=
  let t := decrease_ticks_left (ticket stored) in
  if is_timed_out t then None else Some (mk_stored t (timed_generation stored)).

Definition expiration_key (e : TimedTicketExpiration) : ChunkPos * (TicketTypeRef * Z) :=
  (expiration_pos e, identity (expiration_ticket e)).

(** [e] was taken of the very entry [stored] at [p] under [k]. *)
Definition observes (p : ChunkPos) (k : TicketTypeRef * Z) (stored : StoredChunkTicket) (e : TimedTicketExpiration) : Prop :=
  expiration_key e = (p, k) /\ timed_generation stored = Some (generation e).

#[export] Instance observes_dec p k stored e : Decision (observes p k stored e).
Proof. unfold observes. apply _. Defined.

Lemma merge_assoc a b c : merge a (merge b c) = merge (merge a b) c.
Proof. unfold merge. cbn [load_positions simulation_positions]. by rewrite !app_assoc. Qed.

Lemma merge_nil a : merge a no_changes = a.
Proof. destruct a. unfold merge. cbn [no_changes load_positions simulation_positions]. by rewrite !app_nil_r. Qed.

(** The body of the loop. *)
Lemma tick_step c s e rest :
  storage_ok s ->
  let p := expiration_pos e in
  let k := identity (expiration_ticket e) in
  exists c1 s1, tick_loop c s (e :: rest) = tick_loop (merge c c1) s1 rest /\
    storage_ok s1 /\ last_generation s1 = last_generation s /\ reported s s1 c1 /\
    updated s s1 p k (st ← held s p k; if decide (observes p k st e) then aged st else Some st) (last_generation s).
Proof.
  intros Hok p k. cbn [tick_loop]. fold p.
  assert (Hskip : (forall st, held s p k = Some st -> ~ observes p k st e) ->
    updated s s p k (st ← held s p k; if decide (observes p k st e) then aged st else Some st) (last_generation s)).
  { intros Hn. constructor; [apply ok_nonempty, Hok|apply ok_keyed, Hok| |done].
    intros q k'. case_decide as E; [|done]. destruct E as [-> ->]. destruct (held s p k) as [st|] eqn:Eh; [|done].
    cbn. by rewrite decide_False by by apply Hn. }
  assert (Hstay : (forall st, held s p k = Some st -> ~ observes p k st e) ->
    exists c1 s1, tick_loop c s rest = tick_loop (merge c c1) s1 rest /\ storage_ok s1 /\
      last_generation s1 = last_generation s /\ reported s s1 c1 /\
      updated s s1 p k (st ← held s p k; if decide (observes p k st e) then aged st else Some st) (last_generation s)).
  { intros Hn. exists no_changes, s. rewrite merge_nil. do 3 (split; [done|]). split; [apply reported_refl|by apply Hskip]. }
  destruct (tickets s !! p) as [l|] eqn:El.
  2: { apply Hstay. intros st Hh. unfold held, entries_at in Hh. by rewrite El in Hh. }
  assert (Hl : entries_at s p = l) by (unfold entries_at; by rewrite El).
  destruct (list_find _ l) as [[i st]|] eqn:Ef.
  2: { apply Hstay. intros st [Hin Hid]%held_elem [_ Hg]; [|apply Hok]. rewrite Hl in Hin.
       apply list_find_None in Ef. rewrite Forall_forall in Ef. apply (Ef st Hin). by rewrite ticket_eq_spec. }
  apply list_find_Some in Ef as (Hi & [Heq%ticket_eq_spec Hg] & _). rewrite <- Hl in Hi |- *.
  assert (Hh : held s p k = Some st) by (apply held_elem; [apply Hok|]; split; [by apply list_elem_of_lookup_2 with i|done]).
  rewrite Hh. cbn [mbind option_bind]. rewrite decide_True by done. unfold aged.
  pose proof (identity_decrease (ticket st)) as Hd. pose proof (ok_typed s Hok _ _ _ Hh) as Ht.
  pose proof (ok_counter s Hok) as Hc. pose proof (ok_timed s Hok _ _ _ Hh) as Hti.
  destruct (is_timed_out (decrease_ticks_left (ticket st))); cbn [negb].
  - rewrite swap_remove_insert. eexists _, _. split; [done|].
    assert (Hu : updated s (put_rest p (swap_remove i (entries_at s p)) s) p k None (last_generation s)).
    { rewrite <- (held_id s p k st Hh). by apply (remove_updated s s p Hok eq_refl i). }
    split; [apply (updated_ok _ _ _ _ _ _ Hok Hu); [lia|done]|]. split; [by apply Hu|]. split; [|done].
    assert (Hki : identity (decrease_ticks_left (ticket st)) = k) by (by rewrite Hd, (held_id s p k st Hh)).
    rewrite <- Hki in Hu. by apply (updated_reported _ _ _ _ _ _ _ Hu).
  - exists no_changes. eexists. split; [by rewrite merge_nil|].
    assert (Hu : updated s (with_tickets p (<[i:=mk_stored (decrease_ticks_left (ticket st)) (timed_generation st)]> (entries_at s p)) s)
      p k (Some (mk_stored (decrease_ticks_left (ticket st)) (timed_generation st))) (last_generation s)).
    { rewrite <- (held_id s p k st Hh). by apply (update_updated s s p Hok eq_refl i st _ Hi). }
    split; [|split; [by apply Hu|split; [|done]]].
    + apply (updated_ok _ _ _ _ _ _ Hok Hu); [lia|]. intros st' [= <-]. split_and!; [apply Ht..|].
      cbn [timed_generation]. destruct (has_timeout _); [right; eauto|done].
    + rewrite <- (held_id s p k st Hh) in Hu. apply (updated_reported _ _ _ _ _ _ _ Hu). intros Hiff.
      change (identity (ticket st)) with (id_of st) in Hiff. unfold id_of in Hiff. rewrite (held_id s p k st Hh), Hh in Hiff.
      destruct (proj1 Hiff); eauto.
Qed.

Lemma tick_loop_ok exps c s :
  storage_ok s ->
  exists c1 s', tick_loop c s exps = (merge c c1, s') /\ storage_ok s' /\
    last_generation s' = last_generation s /\ reported s s' c1.
Proof.
  revert c s. induction exps as [|e exps IH]; intros c s Hok.
  - exists no_changes, s. rewrite merge_nil. do 3 (split; [done|]). apply reported_refl.
  - destruct (tick_step c s e exps Hok) as (c1 & s1 & -> & Hok1 & Hg1 & Hr1 & _).
    destruct (IH (merge c c1) s1 Hok1) as (c2 & s' & -> & Hok2 & Hg2 & Hr2).
    exists (merge c1 c2), s'. rewrite merge_assoc. split_and!; [done|done|congruence|by eapply reported_trans].
Qed.

(** Distinct expirations age exactly the entries they observed, once each. *)
Lemma tick_loop_held exps c s p k :
  storage_ok s -> keyed expiration_key exps ->
  held (tick_loop c s exps).2 p k =
    (st ← held s p k; if decide (Exists (observes p k st) exps) then aged st else Some st).
Proof.
  revert c s. induction exps as [|e exps IH]; intros c s Hok Hk.
  - cbn [tick_loop snd]. destruct (held s p k) as [st|]; [|done]. cbn. by rewrite decide_False by by intros ?%Exists_nil.
  - unfold keyed in Hk. rewrite fmap_cons in Hk. apply NoDup_cons in Hk as [He Hk].
    destruct (tick_step c s e exps Hok) as (c1 & s1 & -> & Hok1 & _ & _ & Hu). rewrite (IH _ _ Hok1 Hk).
    rewrite (u_held _ _ _ _ _ _ Hu p k). case_decide as E.
    + destruct E as [Ep Ek]. rewrite <- Ep, <- Ek. destruct (held s p k) as [st|]; [|done]. cbn.
      assert (Hno : forall st', ~ Exists (observes p k st') exps).
      { intros st' (e' & He' & [Hke' _])%Exists_exists. apply He. unfold expiration_key at 1. rewrite <- Ep, <- Ek, <- Hke'.
        by apply list_elem_of_fmap_2. }
      assert (Hex : Exists (observes p k st) (e :: exps) <-> observes p k st e)
        by (rewrite Exists_cons; naive_solver).
      destruct (decide (observes p k st e)) as [Ho|Ho].
      * rewrite (decide_True (P := Exists _ _)) by by apply Hex. destruct (aged st) as [st'|]; [|done]. cbn.
        by rewrite decide_False.
      * rewrite (decide_False (P := Exists (observes p k st) (e :: exps))) by by rewrite Hex. cbn. by rewrite decide_False.
    + destruct (held s p k) as [st|]; [|done]. cbn.
      assert (Hex : Exists (observes p k st) (e :: exps) <-> Exists (observes p k st) exps).
      { rewrite Exists_cons. split; [|by right]. intros [[Hke _]|]; [|done]. unfold expiration_key in Hke. naive_solver. }
      by destruct (decide (Exists (observes p k st) exps)), (decide (Exists (observes p k st) (e :: exps))); try tauto.
Qed.

(** ** Collecting over all positions *)

Section Collect.
Context {B : Type} (g : ChunkPos -> StoredChunkTicket -> option B) (order : hash_iter) (s : ChunkTicketStorage).
Context (Hok : storage_ok s).

Definition collect : list B := mbind (fun e => omap (g e.1) e.2) (entries order (tickets s)).

Lemma collect_elem b : b ∈ collect <-> exists p k st, held s p k = Some st /\ g p st = Some b.
Proof.
  unfold collect. rewrite list_elem_of_bind. setoid_rewrite list_elem_of_omap. split.
  - intros ([p l] & (st & Hin & Hst) & Hp). cbn [fst snd] in *. apply entries_elem in Hp. exists p, (id_of st), st.
    split; [|done]. apply held_elem; [apply Hok|]. unfold entries_at. by rewrite Hp.
  - intros (p & k & st & Hh & Hb). apply held_elem in Hh as [Hin Hid]; [|apply Hok]. unfold entries_at in Hin.
    destruct (tickets s !! p) as [l|] eqn:El; [|by apply elem_of_nil in Hin].
    exists (p, l). split; [|by apply entries_elem]. by exists st.
Qed.

Context (h : B -> ChunkPos * (TicketTypeRef * Z)) (Hh : forall p st b, g p st = Some b -> h b = (p, id_of st)).

Lemma omap_keyed p l : keyed id_of l -> keyed h (omap (g p) l).
Proof.
  unfold keyed. induction l as [|st l IH]; [constructor|]. rewrite fmap_cons. intros [Hs Hl]%NoDup_cons. csimpl.
  destruct (g p st) as [b|] eqn:Eb; [|by apply IH]. csimpl. apply NoDup_cons. split; [|by apply IH].
  intros (b' & Hk & (st' & Hin & Hst)%list_elem_of_omap)%list_elem_of_fmap.
  rewrite (Hh _ _ _ Eb), (Hh _ _ _ Hst) in Hk. apply (f_equal snd) in Hk. cbn [snd] in Hk.
  apply Hs. rewrite Hk. by apply list_elem_of_fmap_2.
Qed.

Lemma collect_keyed : keyed h collect.
Proof.
  unfold collect. pose proof (entries_nodup order (tickets s)) as Hn.
  assert (He : forall p l, (p, l) ∈ entries order (tickets s) -> keyed id_of l).
  { intros p l Hp%entries_elem. pose proof (ok_keyed s Hok p) as Hk. unfold entries_at in Hk. by rewrite Hp in Hk. }
  induction (entries order (tickets s)) as [|[p l] es IH]; [constructor|].
  rewrite fmap_cons in Hn. apply NoDup_cons in Hn as [Hp Hn]. unfold keyed. csimpl. rewrite fmap_app.
  apply NoDup_app. split_and!.
  - apply omap_keyed. by apply (He p l); left.
  - intros ke (b & -> & (st & _ & Hst)%list_elem_of_omap)%list_elem_of_fmap (b' & Hk & Hin)%list_elem_of_fmap.
    apply list_elem_of_bind in Hin as ([p' l'] & Hin & Hes). apply list_elem_of_omap in Hin as (st' & _ & Hst').
    cbn [fst snd] in *. rewrite (Hh _ _ _ Hst), (Hh _ _ _ Hst') in Hk. apply (f_equal fst) in Hk. cbn [fst] in Hk. subst p'.
    apply Hp. by apply (list_elem_of_fmap_2 fst es (p, l')).
  - apply IH; [done|]. intros p' l' Hin. apply (He p'). by right.
Qed.
End Collect.

(** The snapshot takes every timed entry once. *)
Definition expiration_of (p : ChunkPos) (stored : StoredChunkTicket) : option TimedTicketExpiration :=
  mk_expiration p (ticket stored) <$> timed_generation stored.

Lemma expiration_of_Some p st e :
  expiration_of p st = Some e <->
  expiration_pos e = p /\ expiration_ticket e = ticket st /\ timed_generation st = Some (generation e).
Proof.
  unfold expiration_of. destruct (timed_generation st) as [g|]; simpl; [|naive_solver]. destruct e; simpl. naive_solver.
Qed.

Lemma snapshot_elem order s e :
  storage_ok s ->
  e ∈ timed_ticket_expirations order s <->
  exists st, held s (expiration_pos e) (identity (expiration_ticket e)) = Some st /\
    ticket st = expiration_ticket e /\ timed_generation st = Some (generation e).
Proof.
  intros Hok. unfold timed_ticket_expirations. rewrite (elem_of_Permutation_proper _ _ _ (sort_by_perm _ _)).
  rewrite (collect_elem expiration_of order s Hok). setoid_rewrite expiration_of_Some. split.
  - intros (p & k & st & Hh & <- & Ht & Hg). exists st. by rewrite Ht, (held_id _ _ _ _ Hh).
  - intros (st & Hh & Ht & Hg). by eexists _, _, st.
Qed.

Lemma snapshot_keyed order s : storage_ok s -> keyed expiration_key (timed_ticket_expirations order s).
Proof.
  intros Hok. unfold keyed, timed_ticket_expirations. rewrite (fmap_Permutation _ _ _ (sort_by_perm _ _)).
  apply (collect_keyed expiration_of order s Hok). intros p st e (<- & Ht & _)%expiration_of_Some.
  unfold expiration_key, id_of. by rewrite Ht.
Qed.

(** ** Persistence *)

(** What a saved entry restores, if anything. *)
Definition resolve (registry : TicketTypeRegistry) (p : PersistentChunkTicket) : option (ChunkPos * ChunkTicket) :=
  t ← by_key registry (saved_type p); level ← level_new (saved_level p);
  Some (mk_chunk (chunk_x p) (chunk_z p), from_saved t level (saved_ticks_left p)).

Definition entry_key (e : ChunkPos * ChunkTicket) : ChunkPos * (TicketTypeRef * Z) := (e.1, identity e.2).

(** A saved entry of the types of the code: [i32] coordinates, a [u8] level. *)
Definition typed_saved (p : PersistentChunkTicket) : Prop :=
  is_chunk (mk_chunk (chunk_x p) (chunk_z p)) /\ 0 <= saved_level p < 256.

Lemma resolve_typed registry p pos t :
  typed_saved p -> resolve registry p = Some (pos, t) -> is_chunk pos /\ 0 <= ticket_level t <= MAX_LEVEL_RAW.
Proof.
  intros [Hc Hl]. unfold resolve, level_new. destruct (by_key _ _); [|done]. cbn.
  destruct (Z.leb_spec (saved_level p) MAX_LEVEL_RAW); [|done]. cbn. intros [= <- <-]. split; [done|]. cbn. lia.
Qed.

Lemma add_loaded_resolve registry s p :
  match resolve registry p with
  | Some (pos, t) => add_loaded_persistent_ticket registry s p = add_loaded_ticket s pos t
  | None => exists e, add_loaded_persistent_ticket registry s p = Err e
  end.
Proof.
  unfold resolve, add_loaded_persistent_ticket. destruct (by_key _ _) as [t|]; cbn; [|eauto].
  destruct (level_new _) as [l|]; cbn; eauto.
Qed.

Lemma load_loop_ok {E} registry l s :
  storage_ok s -> Forall typed_saved l -> last_generation s + Z.of_nat (length l) <= u64_max ->
  exists s', load_loop (E := E) registry s l = Ok s' /\ storage_ok s' /\
    (keyed entry_key (omap (resolve registry) l) ->
     (forall e, e ∈ omap (resolve registry) l -> held s e.1 (identity e.2) = None) ->
     forall p k, ticket <$> held s' p k =
       match lookup_key entry_key (p, k) (omap (resolve registry) l) with
       | Some e => Some e.2
       | None => ticket <$> held s p k
       end).
Proof.
  revert s. induction l as [|q l IH]; intros s Hok Ht Hc; cbn [load_loop].
  { exists s. split; [done|]. by split; [done|]. }
  apply Forall_cons in Ht as [Hq Ht]. cbn [length] in Hc. pose proof (add_loaded_resolve registry s q) as Ha.
  csimpl. destruct (resolve registry q) as [[pos t]|] eqn:Er.
  2: { destruct Ha as [e ->]. apply IH; [done..|lia]. }
  destruct (resolve_typed _ _ _ _ Hq Er) as [Hp Hl]. pose proof (ok_counter s Hok).
  destruct (add_loaded_ticket_ok s pos t Hok Hp Hl ltac:(lia) (E := ChunkTicketStorageLoadError))
    as (gen & s1 & H1 & Hok1 & Hf & Hu). rewrite Ha, H1.
  assert (last_generation s1 <= last_generation s + 1).
  { destruct Hf as [_ Hf]. destruct (has_timeout _); lia. }
  destruct (IH s1 Hok1 Ht ltac:(lia)) as (s' & Hs' & Hok' & Hheld). exists s'. split; [done|]. split; [done|].
  intros Hk Hnone p k. unfold keyed in Hk. rewrite fmap_cons in Hk. apply NoDup_cons in Hk as [Hnin Hk].
  assert (Hn1 : held s pos (identity t) = None) by (apply (Hnone (pos, t)); by left).
  rewrite Hheld; [|done|].
  - rewrite lookup_key_cons. case_decide as E1.
    + unfold entry_key in E1. pose proof (f_equal fst E1) as E2. apply (f_equal snd) in E1. cbn in E1, E2. subst p k.
      apply lookup_key_None in Hnin. unfold entry_key at 2 in Hnin. cbn [fst snd] in Hnin.
      rewrite Hnin, (u_held _ _ _ _ _ _ Hu), decide_True by done. unfold added_entry. by rewrite Hn1.
    + destruct (lookup_key _ _ _); [done|]. rewrite (u_held _ _ _ _ _ _ Hu), decide_False; [done|].
      intros [-> ->]. by destruct E1.
  - intros e He. rewrite (u_held _ _ _ _ _ _ Hu), decide_False; [apply Hnone; by right|].
    intros [E1 E2]. apply Hnin. replace (entry_key (pos, t)) with (entry_key e); [by apply list_elem_of_fmap_2|].
    unfold entry_key. by rewrite E1, E2.
Qed.

(** The type of every ticket held is registered under its key. *)
Definition registered (registry : TicketTypeRegistry) (s : ChunkTicketStorage) : Prop :=
  forall p k st, held s p k = Some st -> by_key registry (ref_key k.1) = Some k.1.

Definition saved_entry (p : ChunkPos) (stored : StoredChunkTicket) : option (ChunkPos * ChunkTicket) :=
  if persist (deref (ticket_type (ticket stored))) then Some (p, ticket stored) else None.

Lemma omap_bind_entries {A B} (f : ChunkPos -> StoredChunkTicket -> option A) (g : A -> option B)
    (h : ChunkPos -> StoredChunkTicket -> option B) (es : list (ChunkPos * list StoredChunkTicket)) :
  (forall p l st, (p, l) ∈ es -> st ∈ l -> (f p st ≫= g) = h p st) ->
  omap g (es ≫= (fun e => omap (f e.1) e.2)) = es ≫= (fun e => omap (h e.1) e.2).
Proof.
  induction es as [|[p l] es IH]; intros Hfg; [done|]. csimpl. rewrite omap_app, IH by (intros; eapply Hfg; [by right|done]).
  f_equal. assert (Hl : forall st, st ∈ l -> (f p st ≫= g) = h p st) by (intros st; apply (Hfg p l st); by left).
  clear -Hl. induction l as [|st l IH]; [done|]. csimpl. rewrite <- (Hl st) by by left.
  destruct (f p st) as [a|]; csimpl; [destruct (g a); csimpl|]; try f_equal; apply IH; intros; apply Hl; by right.
Qed.

Lemma resolve_to_persistent registry s p st k :
  storage_ok s -> registered registry s -> held s p k = Some st ->
  (to_persistent_ticket p st ≫= resolve registry) = saved_entry p st.
Proof.
  intros Hok Hr Hh. pose proof (Hr _ _ _ Hh) as Hk. pose proof (ok_typed s Hok _ _ _ Hh) as [_ Hl].
  rewrite <- (held_id _ _ _ _ Hh) in Hk, Hl. unfold to_persistent_ticket, saved_entry.
  destruct (persist _); [|done]. unfold resolve. cbn [mbind option_bind saved_type saved_level chunk_x chunk_z saved_ticks_left].
  unfold identity, ref_key in Hk, Hl. cbn [fst snd] in Hk, Hl. rewrite Hk. cbn. unfold level_new.
  rewrite (proj2 (Z.leb_le _ _)) by lia. cbn. destruct p, st as [[] ?]. done.
Qed.

Lemma saved_entries registry order s :
  storage_ok s -> registered registry s ->
  omap (resolve registry) (to_persistent order s) ≡ₚ collect saved_entry order s.
Proof.
  intros Hok Hr. unfold to_persistent. rewrite (omap_Permutation _ _ _ (sort_by_perm _ _)).
  unfold collect. rewrite (omap_bind_entries _ _ saved_entry); [done|]. intros p l st Hp%entries_elem Hin.
  apply (resolve_to_persistent registry s p st (id_of st) Hok Hr). apply held_elem; [apply Hok|].
  unfold entries_at. by rewrite Hp.
Qed.

Lemma saved_entry_Some p st e :
  saved_entry p st = Some e <-> persist (deref (ticket_type (ticket st))) = true /\ e = (p, ticket st).
Proof. unfold saved_entry. destruct (persist _); naive_solver. Qed.

Lemma saved_keyed order s : storage_ok s -> keyed entry_key (collect saved_entry order s).
Proof. intros Hok. apply collect_keyed; [done|]. by intros p st e [_ ->]%saved_entry_Some. Qed.

Lemma saved_lookup order s p k :
  storage_ok s ->
  lookup_key entry_key (p, k) (collect saved_entry order s) =
    (st ← held s p k; if persist (deref k.1) then Some (p, ticket st) else None).
Proof.
  intros Hok. apply option_eq. intros e. rewrite lookup_key_Some by by apply saved_keyed.
  rewrite (collect_elem saved_entry order s Hok). setoid_rewrite saved_entry_Some. split.
  - intros [(p' & k' & st & Hh & Hper & ->) Hk]. unfold entry_key in Hk. cbn in Hk. pose proof (f_equal snd Hk) as Hk2. apply (f_equal fst) in Hk.
    cbn in Hk, Hk2. subst p'. rename Hk2 into Hk. pose proof (held_id _ _ _ _ Hh) as Hid. rewrite Hid in Hk. subst k'. rewrite Hh. cbn.
    rewrite <- Hid. unfold identity. cbn [fst]. by rewrite Hper.
  - destruct (held s p k) as [st|] eqn:Hh; [|done]. cbn. pose proof (held_id _ _ _ _ Hh) as Hid.
    destruct (persist (deref k.1)) eqn:Ep; [|done]. intros [= <-]. split; [|by rewrite <- Hid].
    exists p, k, st. split; [done|]. split; [|done]. by rewrite <- Hid in Ep.
Qed.

(** ** Reachable storages *)

Inductive storage_step (s s' : ChunkTicketStorage) : Prop :=
| step_add p t c : is_chunk p -> 0 <= ticket_level t <= MAX_LEVEL_RAW ->
    add_ticket (E := Empty_set) s p t = Ok (c, s') -> storage_step s s'
| step_remove p t c : remove_ticket s p t = (c, s') -> storage_step s s'
| step_tick exps c : tick_timed_tickets s exps = (c, s') -> storage_step s s'.

(** Storages loaded from any saved data of the right types, and what any
    operations make of them. *)
Inductive storage_reachable : ChunkTicketStorage -> Prop :=
| reach_load registry l s : Forall typed_saved l -> Z.of_nat (length l) <= u64_max ->
    from_persistent (E := Empty_set) registry l = Ok s -> storage_reachable s
| reach_step s s' : storage_reachable s -> storage_step s s' -> storage_reachable s'.

Lemma timed_range s p k st g :
  storage_ok s -> held s p k = Some st -> timed_generation st = Some g -> 0 < g <= last_generation s.
Proof.
  intros Hok Hh Hg. pose proof (ok_timed s Hok _ _ _ Hh) as Ht. destruct (has_timeout _); [|congruence].
  destruct Ht as (g' & ? & ?). by assert (g = g') as -> by congruence.
Qed.

(** An entry's generation is new, or the entry was there with it before. *)
Definition generations_kept (s s' : ChunkTicketStorage) : Prop :=
  last_generation s <= last_generation s' /\
  forall p k st g, held s' p k = Some st -> timed_generation st = Some g ->
    last_generation s < g \/ exists st0, held s p k = Some st0 /\ timed_generation st0 = Some g.

Lemma updated_kept s s' p k o n :
  updated s s' p k o n -> last_generation s <= n ->
  (forall st g, o = Some st -> timed_generation st = Some g ->
     last_generation s < g \/ exists st0, held s p k = Some st0 /\ timed_generation st0 = Some g) ->
  generations_kept s s'.
Proof.
  intros Hu Hn Ho. split; [by rewrite (u_last _ _ _ _ _ _ Hu)|]. intros q k' st g. rewrite (u_held _ _ _ _ _ _ Hu).
  case_decide as E; [|eauto]. destruct E as [-> ->]. apply Ho.
Qed.

Lemma kept_refl s : generations_kept s s.
Proof. split; [lia|eauto]. Qed.

Lemma kept_trans s s1 s2 : generations_kept s s1 -> generations_kept s1 s2 -> generations_kept s s2.
Proof.
  intros [L1 H1] [L2 H2]. split; [lia|]. intros p k st g Hh Hg.
  destruct (H2 _ _ _ _ Hh Hg) as [?|(st1 & Hh1 & Hg1)]; [left; lia|eauto].
Qed.

Lemma allocation_room {E A} s t (f : option Z * ChunkTicketStorage -> outcome E A) x :
  storage_ok s -> obind (generation_for s t) f = Ok x -> has_timeout (deref t) = true -> last_generation s < u64_max.
Proof.
  intros Hok H Ht. pose proof (ok_counter s Hok). unfold generation_for, allocate_timed_generation in H. rewrite Ht in H.
  destruct (Z.eqb_spec (last_generation s) u64_max); [done|lia].
Qed.

Lemma tick_loop_kept exps c s : storage_ok s -> generations_kept s (tick_loop c s exps).2.
Proof.
  revert c s. induction exps as [|e exps IH]; intros c s Hok; [apply kept_refl|].
  destruct (tick_step c s e exps Hok) as (c1 & s1 & -> & Hok1 & _ & _ & Hu).
  apply (kept_trans s s1); [|by apply IH]. apply (updated_kept _ _ _ _ _ _ Hu); [lia|]. intros st g Hst Hg. right.
  destruct (held s _ _) as [st0|] eqn:Eh; [|done]. exists st0. split; [done|]. cbn in Hst. case_decide; [|congruence].
  unfold aged in Hst. destruct (is_timed_out _); [done|]. injection Hst as <-. exact Hg.
Qed.

Lemma storage_step_ok s s' : storage_ok s -> storage_step s s' -> storage_ok s' /\ generations_kept s s'.
Proof.
  intros Hok [p t c Hp Hl Ha|p t c Hr|exps c Ht].
  - pose proof (allocation_room _ _ _ _ Hok Ha) as Hroom.
    destruct (add_ticket_ok s p t Hok Hp Hl Hroom (E := Empty_set)) as (gen & s1 & H1 & Hok1 & Hf & Hu).
    rewrite H1 in Ha. injection Ha as _ <-. split; [done|]. apply (updated_kept _ _ _ _ _ _ Hu); [apply Hf|].
    intros st g [= <-] Hg. left. cbn in Hg. subst gen. destruct Hf as [_ Hf]. destruct (has_timeout _); [|by destruct Hf].
    destruct Hf as [[= <-] ->]. lia.
  - destruct (remove_ticket_ok s p t Hok) as (s1 & H1 & Hok1 & Hu). rewrite H1 in Hr. injection Hr as _ <-.
    split; [done|]. by apply (updated_kept _ _ _ _ _ _ Hu).
  - destruct (tick_loop_ok exps no_changes s Hok) as (c1 & s1 & H1 & Hok1 & _).
    pose proof (tick_loop_kept exps no_changes s Hok) as Hk. unfold tick_timed_tickets in Ht. rewrite Ht in H1, Hk.
    by injection H1 as _ ->.
Qed.

Lemma storage_reachable_ok s : storage_reachable s -> storage_ok s.
Proof.
  induction 1 as [registry l s Ht Hl Hf|s s' _ IH Hs]; [|by apply (storage_step_ok s s')].
  destruct (load_loop_ok (E := Empty_set) registry l storage_new storage_new_ok Ht) as (s' & H1 & Hok & _).
  - cbn [storage_new last_generation]. lia.
  - unfold from_persistent in Hf. congruence.
Qed.

Lemma storage_steps_ok s s' : storage_ok s -> rtc storage_step s s' -> storage_ok s' /\ generations_kept s s'.
Proof.
  intros Hok H. induction H as [s|s s1 s2 H1 _ IH]; [split; [done|apply kept_refl]|].
  destruct (storage_step_ok _ _ Hok H1) as [Hok1 K1]. destruct (IH Hok1) as [Hok2 K2]. split; [done|by eapply kept_trans].
Qed.

(** ** Properties *)

(** C39: The ticket storage is a map from position, type and level to one
    ticket, whatever the order of its vectors: adding inserts the ticket or
    refreshes its timeout under a fresh generation and changes nothing else,
    removing deletes exactly the one with that type and level, the source
    levels are the strongest over the tickets of the kind held, and every
    position whose source level changes is reported, none when the set of
    tickets stayed the same. *)
Theorem ticket_storage_refines_map s p t :
  storage_reachable s -> is_chunk p -> 0 <= ticket_level t <= MAX_LEVEL_RAW -> last_generation s < u64_max ->
  (exists gen c s', add_ticket (E := Empty_set) s p t = Ok (c, s') /\ storage_reachable s' /\
     (forall q k, held s' q k = if decide (q = p /\ k = identity t)
        then Some (mk_stored (if held s p (identity t) then reset_ticks_left t else t) gen) else held s q k) /\
     c = (if held s p (identity t) then no_changes else for_ticket p t) /\ reported s s' c) /\
  (exists c s', remove_ticket s p t = (c, s') /\ storage_reachable s' /\
     (forall q k, held s' q k = if decide (q = p /\ k = identity t) then None else held s q k) /\
     c = (if held s p (identity t) then for_ticket p t else no_changes) /\ reported s s' c) /\
  (forall l, load_source_level s p = Some l <->
     (exists k, is_Some (held s p k) /\ load_of k = Some l) /\
     forall k l', is_Some (held s p k) -> load_of k = Some l' -> l <= l') /\
  (forall l, simulation_source_level s p = Some l <->
     (exists k, is_Some (held s p k) /\ simulation_of k = Some l) /\
     forall k l', is_Some (held s p k) -> simulation_of k = Some l' -> l <= l').
Proof.
  intros Hr Hp Hl Hg. pose proof (storage_reachable_ok s Hr) as Hok. split; [|split; [|split]].
  - destruct (add_ticket_ok s p t Hok Hp Hl (fun _ => Hg) (E := Empty_set)) as (gen & s' & H1 & _ & _ & Hu).
    exists gen, (added_changes s p t), s'. split; [done|]. split; [by eapply reach_step, step_add|].
    split; [apply Hu|]. split; [done|]. by eapply add_ticket_reported.
  - destruct (remove_ticket_ok s p t Hok) as (s' & H1 & _ & Hu). eexists _, s'. split; [done|].
    split; [by eapply reach_step, step_remove|]. split; [apply Hu|]. split; [done|]. by eapply remove_ticket_reported.
  - intros l. rewrite load_strongest. apply strongest_spec.
  - intros l. rewrite simulation_strongest. apply strongest_spec.
Qed.

Lemma storage_new_reachable : storage_reachable storage_new.
Proof. by apply (reach_load registry_new [] storage_new). Qed.

Lemma ticket_storage_refines_map_witness :
  exists c s', add_ticket (E := Empty_set) storage_new (mk_chunk 2 (-3)) portal_ticket = Ok (c, s') /\
    held s' (mk_chunk 2 (-3)) (PORTAL, 127) = Some (mk_stored portal_ticket (Some 1)) /\
    c = mk_projection [mk_chunk 2 (-3)] [mk_chunk 2 (-3)].
Proof.
  destruct (ticket_storage_refines_map storage_new (mk_chunk 2 (-3)) portal_ticket) as [(gen & c & s' & H1 & _ & H2 & H3 & _) _].
  - exact storage_new_reachable.
  - split; vm_compute; split; congruence.
  - vm_compute. split; congruence.
  - vm_compute. reflexivity.
  - exists c, s'. split; [exact H1|]. split; [|rewrite H3; vm_compute; reflexivity].
    rewrite H2. rewrite decide_True by (split; vm_compute; reflexivity). vm_compute in H1. injection H1 as _ <-.
    specialize (H2 (mk_chunk 2 (-3)) (PORTAL, 127)). vm_compute in H2. injection H2 as <-. vm_compute. reflexivity.
Defined.

(** A stale expiration never ages a refreshed ticket.  The world tick
    snapshots the timed tickets, keeps those whose chunk may expire, and ages
    them later, after any other operations on the storage: exactly the
    entries that a kept expiration observed, and nothing touched since, lose
    one tick, and go when it was their last; every ticket added or refreshed after the
    snapshot, and every other one, is left as it is, and every position whose
    source level changes is reported. *)
Theorem stale_expirations_spare order can_expire s0 s c s' :
  let exps := eligible_timed_ticket_expirations can_expire (timed_ticket_expirations order s0) in
  storage_reachable s0 -> rtc storage_step s0 s -> tick_timed_tickets s exps = (c, s') ->
  (forall p k, held s' p k =
     (st ← held s p k; if decide (Exists (observes p k st) exps) then aged st else Some st)) /\
  (forall s1 s2 p t c', rtc storage_step s0 s1 -> add_ticket (E := Empty_set) s1 p t = Ok (c', s2) ->
     is_chunk p -> 0 <= ticket_level t <= MAX_LEVEL_RAW ->
     rtc storage_step s2 s -> held s' p (identity t) = held s p (identity t)) /\
  reported s s' c.
Proof.
  intros exps Hr Hs Ht.
  assert (Hsub : exps `sublist_of` timed_ticket_expirations order s0) by apply sublist_filter.
  clearbody exps. pose proof (storage_reachable_ok s0 Hr) as Hok0.
  destruct (storage_steps_ok s0 s Hok0 Hs) as [Hok _]. unfold tick_timed_tickets in Ht.
  assert (Hk : keyed expiration_key exps).
  { apply (sublist_NoDup _ _ (snapshot_keyed order s0 Hok0)). by apply fmap_sublist. }
  assert (Hheld : forall p k, held s' p k =
     (st ← held s p k; if decide (Exists (observes p k st) exps) then aged st else Some st)).
  { intros p k. rewrite <- (tick_loop_held exps no_changes s p k Hok Hk). by rewrite Ht. }
  split; [done|]. split.
  - intros s1 s2 p t c' H1 Ha Hp Hl H2. rewrite Hheld. destruct (storage_steps_ok s0 s1 Hok0 H1) as [Hok1 [G1 _]].
    pose proof (allocation_room _ _ _ _ Hok1 Ha) as Hroom.
    destruct (add_ticket_ok s1 p t Hok1 Hp Hl Hroom (E := Empty_set)) as (gen & s2' & E2 & Hok2 & Hf & Hu).
    rewrite E2 in Ha. injection Ha as _ <-. destruct (storage_steps_ok s2' s Hok2 H2) as [_ [G2 Hg2]].
    destruct (held s p (identity t)) as [st|] eqn:Eh; [|done]. cbn. rewrite decide_False; [done|].
    intros (e & He & [Hke Hge])%Exists_exists. eapply elem_of_sublist in He; [|exact Hsub].
    apply snapshot_elem in He as (st0 & Hh0 & _ & Hg0); [|done].
    pose proof (timed_range s0 _ _ _ _ Hok0 Hh0 Hg0).
    destruct Hf as [Hf1 Hf2]. destruct (Hg2 _ _ _ _ Eh Hge) as [?|(st2 & Hh2 & Hgs)]; [lia|].
    rewrite (u_held _ _ _ _ _ _ Hu), decide_True in Hh2 by done. injection Hh2 as <-. cbn in Hgs.
    revert Hf2. case_match; [|by intros [? _]; congruence]. intros [-> ?]. injection Hgs as Hgs. lia.
  - destruct (tick_loop_ok exps no_changes s Hok) as (c1 & s1 & H1 & _ & _ & Hrep). rewrite Ht in H1.
    injection H1 as -> ->. by destruct c1.
Qed.

Definition one_portal (generation : Z) : ChunkTicketStorage :=
  mk_storage {[ mk_chunk 0 0 := [mk_stored portal_ticket (Some generation)] ]} generation.

Lemma one_portal_reachable :
  storage_reachable (one_portal 1) /\
  add_ticket (E := Empty_set) (one_portal 1) (mk_chunk 0 0) portal_ticket = Ok (no_changes, one_portal 2).
Proof.
  split; [|vm_compute; reflexivity].
  apply (reach_step storage_new); [exact storage_new_reachable|].
  apply (step_add _ _ (mk_chunk 0 0) portal_ticket (mk_projection [mk_chunk 0 0] [mk_chunk 0 0])).
  - split; vm_compute; split; congruence.
  - vm_compute. split; congruence.
  - vm_compute. reflexivity.
Qed.

Lemma stale_expirations_spare_witness :
  let exps := eligible_timed_ticket_expirations (fun _ => true) (timed_ticket_expirations some_order (one_portal 1)) in
  length exps = 1%nat /\
  held (tick_timed_tickets (one_portal 2) exps).2 (mk_chunk 0 0) (identity portal_ticket) =
    Some (mk_stored portal_ticket (Some 2)).
Proof.
  destruct one_portal_reachable as [Hr Ha]. split; [vm_compute; reflexivity|].
  pose proof (stale_expirations_spare some_order (fun _ => true) (one_portal 1) (one_portal 2)) as H. cbv zeta in H.
  destruct (tick_timed_tickets (one_portal 2) _) as [c s'] eqn:E in |- *. cbn [snd].
  assert (Hstep : storage_step (one_portal 1) (one_portal 2)).
  { apply (step_add _ _ (mk_chunk 0 0) portal_ticket no_changes); [| |exact Ha].
    - split; vm_compute; split; congruence.
    - vm_compute. split; congruence. }
  destruct (H c s' Hr (rtc_once _ _ Hstep) E) as (_ & Hfresh & _).
  rewrite (Hfresh (one_portal 1) (one_portal 2) (mk_chunk 0 0) portal_ticket no_changes); [vm_compute; reflexivity| | | | |].
  - apply rtc_refl.
  - exact Ha.
  - split; vm_compute; split; congruence.
  - vm_compute. split; congruence.
  - apply rtc_refl.
Defined.

#[export] Instance compare_persistent_laws : OrdLaws compare_persistent_tickets.
Proof.
  exact (then_with_laws _ _ (OrdLaws0 := then_with_laws _ _
      (OrdLaws0 := then_with_laws _ _ (OrdLaws0 := contramap_laws Z.compare chunk_x) (OrdLaws1 := contramap_laws Z.compare chunk_z))
      (OrdLaws1 := contramap_laws id_cmp saved_type)) (OrdLaws1 := contramap_laws Z.compare saved_level)).
Qed.

Lemma compare_persistent_eq a b :
  compare_persistent_tickets a b = Eq ->
  chunk_x a = chunk_x b /\ chunk_z a = chunk_z b /\ saved_type a = saved_type b /\ saved_level a = saved_level b.
Proof.
  unfold compare_persistent_tickets, then_with.
  destruct (Z.compare_spec (chunk_x a) (chunk_x b)), (Z.compare_spec (chunk_z a) (chunk_z b)); try done.
  destruct (id_cmp _ _) eqn:Ei; try done. apply id_cmp_eq in Ei.
  destruct (Z.compare_spec (saved_level a) (saved_level b)); done.
Qed.

Lemma saved_elem order s q :
  storage_ok s ->
  q ∈ to_persistent order s <-> exists p k st, held s p k = Some st /\ to_persistent_ticket p st = Some q.
Proof.
  intros Hok. unfold to_persistent. rewrite (elem_of_Permutation_proper _ _ _ (sort_by_perm _ _)).
  apply (collect_elem to_persistent_ticket order s Hok).
Qed.

Lemma to_persistent_Some p st q :
  to_persistent_ticket p st = Some q ->
  saved_type q = ref_key (ticket_type (ticket st)) /\ mk_chunk (chunk_x q) (chunk_z q) = p /\
  saved_level q = ticket_level (ticket st) /\ saved_ticks_left q = ticks_left (ticket st).
Proof. unfold to_persistent_ticket. destruct (persist _); [|done]. intros [= <-]. by destruct p. Qed.

Lemma saves_agree registry order order' s :
  storage_ok s -> registered registry s -> to_persistent order' s = to_persistent order s.
Proof.
  intros Hok Hr. eapply (StronglySorted_unique_strong (ord_le compare_persistent_tickets));
    [|apply sort_by_sorted; apply _..|].
  - intros a b Ha Hb H1 H2. apply (saved_elem order') in Ha as (p & k & st & Hh & Ha); [|done].
    apply (saved_elem order) in Hb as (p' & k' & st' & Hh' & Hb); [|done].
    assert (E : compare_persistent_tickets a b = Eq).
    { unfold ord_le in *. pose proof (ord_opp compare_persistent_tickets a b). destruct (compare_persistent_tickets a b); naive_solver. }
    apply compare_persistent_eq in E as (E1 & E2 & E3 & E4).
    pose proof (to_persistent_Some _ _ _ Ha) as (A1 & A2 & A3 & A4).
    pose proof (to_persistent_Some _ _ _ Hb) as (B1 & B2 & B3 & B4).
    assert (p = p') as <- by congruence. pose proof (Hr _ _ _ Hh) as R1. pose proof (Hr _ _ _ Hh') as R2.
    pose proof (held_id _ _ _ _ Hh) as I1. pose proof (held_id _ _ _ _ Hh') as I2.
    assert (k = k') as <-; [|congruence]. subst k k'. unfold identity in *. cbn [fst] in *.
    assert (Some (ticket_type (ticket st)) = Some (ticket_type (ticket st'))) by congruence. congruence.
  - unfold to_persistent. rewrite !sort_by_perm. apply bind_Permutation. by rewrite !entries_perm.
Qed.

(** Tickets survive a save.  The saved list does not depend on the order
    of the hash map, and loading it restores exactly the tickets of the
    persistent types, each at its position with its level and remaining
    timeout, when the registry of ticket types knows the types. *)
Theorem tickets_save_reload {E} registry order s :
  storage_reachable s -> registered registry s -> Z.of_nat (length (to_persistent order s)) <= u64_max ->
  (forall order', to_persistent order' s = to_persistent order s) /\
  exists s', from_persistent (E := E) registry (to_persistent order s) = Ok s' /\ storage_ok s' /\
    forall p k, ticket <$> held s' p k = if persist (deref k.1) then ticket <$> held s p k else None.
Proof.
  intros Hr%storage_reachable_ok Hreg Hlen. split; [intros; by apply (saves_agree registry)|].
  destruct (load_loop_ok (E := E) registry (to_persistent order s) storage_new storage_new_ok) as (s' & H1 & Hok & Hheld).
  - apply Forall_forall. intros q (p & k & st & Hh & Hq)%saved_elem; [|done]. apply to_persistent_Some in Hq as (_ & Hp & Hl & _).
    pose proof (ok_typed s Hr _ _ _ Hh) as [Hc Hk]. rewrite <- (held_id _ _ _ _ Hh) in Hk. unfold identity in Hk. cbn in Hk.
    split; [by rewrite Hp|]. rewrite Hl. assert (MAX_LEVEL_RAW = 141) as E' by (vm_compute; reflexivity). lia.
  - cbn [storage_new last_generation]. lia.
  - exists s'. split; [done|]. split; [done|]. intros p k. pose proof (saved_entries registry order s Hr Hreg) as Hperm.
    pose proof (saved_keyed order s Hr) as Hk.
    rewrite Hheld.
    + rewrite <- (lookup_key_perm entry_key (p, k) _ _ Hk (symmetry Hperm)), saved_lookup by done.
      destruct (held s p k) as [st|]; cbn; [|by destruct (persist _)]. destruct (persist _); [done|].
      unfold held, entries_at. cbn [tickets storage_new]. by rewrite lookup_empty.
    + unfold keyed. by rewrite Hperm.
    + intros e _. unfold held, entries_at. cbn [tickets storage_new]. by rewrite lookup_empty.
Qed.

(** A registry that knows portal tickets. *)
Definition portal_registry : TicketTypeRegistry := mk_registry [PORTAL] {[ ref_key PORTAL := 0%nat ]} true.

Lemma portal_registered : by_key portal_registry (ref_key PORTAL) = Some PORTAL.
Proof. unfold by_key. cbn [portal_registry by_key_field by_id_field]. by rewrite lookup_singleton_eq. Qed.

Lemma tickets_save_reload_witness :
  exists s', from_persistent (E := Empty_set) portal_registry (to_persistent some_order (one_portal 1)) = Ok s' /\
    ticket <$> held s' (mk_chunk 0 0) (identity portal_ticket) = Some portal_ticket.
Proof.
  destruct one_portal_reachable as [Hr _].
  destruct (tickets_save_reload (E := Empty_set) portal_registry some_order (one_portal 1) Hr) as (_ & s' & H1 & _ & H2).
  - intros p k st Hh. apply lookup_key_elem in Hh as [Hin <-]. unfold entries_at in Hin. cbn [one_portal tickets] in Hin.
    rewrite lookup_singleton in Hin. case_decide; [|by apply elem_of_nil in Hin].
    apply list_elem_of_singleton in Hin as ->. exact portal_registered.
  - vm_compute. congruence.
  - exists s'. split; [exact H1|]. rewrite H2. vm_compute. reflexivity.
Defined.

Lemma load_loop_skip {E} registry l1 q l2 s :
  resolve registry q = None -> load_loop (E := E) registry s (l1 ++ q :: l2) = load_loop registry s (l1 ++ l2).
Proof.
  intros Hq. revert s. induction l1 as [|p l1 IH]; intros s; cbn [app load_loop].
  - pose proof (add_loaded_resolve registry s q) as Ha. rewrite Hq in Ha. by destruct Ha as [e ->].
  - destruct (add_loaded_persistent_ticket registry s p); [apply IH..|done].
Qed.

(** A bad saved ticket costs only itself: loading saved data in which one
    entry does not parse, names no registered type, or has a level beyond the
    limit gives the storage that the other entries alone give, and a saved
    data file that cannot be read gives an empty one. *)
Theorem bad_entries_skipped {E V F} (try_into : V -> option PersistentChunkTicket) registry raw1 v raw2 (error : F) :
  (try_into v ≫= resolve registry) = None ->
  load (E := E) registry (Ok (E := F) (deserialize_lenient_tickets try_into (raw1 ++ v :: raw2))) =
    load registry (Ok (E := F) (deserialize_lenient_tickets try_into (raw1 ++ raw2))) /\
  load (E := E) registry (Err error) = Ok storage_new.
Proof.
  intros Hv. split; [|done]. unfold load, from_persistent, deserialize_lenient_tickets. rewrite !omap_app. csimpl.
  destruct (try_into v) as [q|]; [|done]. by apply load_loop_skip.
Qed.

Lemma bad_entries_skipped_witness :
  let portal level := mk_persistent (vanilla_static "portal") 0 0 level 5 in
  load (E := Empty_set) portal_registry (Ok (E := unit) (deserialize_lenient_tickets Some [portal 142; portal 130])) =
  load portal_registry (Ok (E := unit) (deserialize_lenient_tickets Some [portal 130])).
Proof.
  intros portal.
  apply (bad_entries_skipped (E := Empty_set) (F := unit) Some portal_registry [] (portal 142) [portal 130] tt).
  unfold resolve. cbn [mbind option_bind portal saved_type saved_level].
  change (vanilla_static "portal") with (ref_key PORTAL). rewrite portal_registered. vm_compute. reflexivity.
Defined.
