(* ===== verification/PlayerTickets.v ===== *)
(** * Player tickets

    Models [steel-core/src/chunk/player_ticket_tracker.rs]: which chunks
    players occupy, the reference count of the chunks in view of an occupied
    one, and the loading and simulation tickets both give.  The tracker and
    the ticket storage are mutated together; [update] carries the two with
    the changes to report.  A player is an opaque [Uuid]. *)

From Stdlib Require Import Lia ZArith String.
From stdpp Require Import prelude list gmap sorting.
From S2P Require Import Prelude Collections Position ChunkPyramid TicketLevel ChunkTracker KeyedList Identifier Registry TicketType TicketStorage.

Definition Uuid : Type := Z.

Definition player_loading_ticket : ChunkTicket := ticket_new PLAYER_LOADING ENTITY_TICKING_CHUNK.
Definition player_simulation_ticket (simulation_distance : Z) : ChunkTicket :=
  ticket_new PLAYER_SIMULATION (for_entity_ticking_radius simulation_distance).

Record PlayerTicketTracker := mk_players {
  players_by_pos : gmap ChunkPos (gset Uuid);
  player_positions : gmap Uuid ChunkPos;
  loading_coverage : gmap ChunkPos Z;
  view_distance : Z;
  simulation_distance : Z
}.

Definition players_new (view_distance simulation_distance : Z) : PlayerTicketTracker :=
  mk_players ∅ ∅ ∅ view_distance simulation_distance.

(** The two structures under the ingress lock and the changes so far. *)
Record update := mk_update {
  tracker : PlayerTicketTracker;
  storage : ChunkTicketStorage;
  so_far : SourceProjectionChanges
}.

Definition with_players (m : gmap ChunkPos (gset Uuid)) (t : PlayerTicketTracker) : PlayerTicketTracker :=
  mk_players m (player_positions t) (loading_coverage t) (view_distance t) (simulation_distance t).
Definition with_positions (m : gmap Uuid ChunkPos) (t : PlayerTicketTracker) : PlayerTicketTracker :=
  mk_players (players_by_pos t) m (loading_coverage t) (view_distance t) (simulation_distance t).
Definition with_coverage (m : gmap ChunkPos Z) (t : PlayerTicketTracker) : PlayerTicketTracker :=
  mk_players (players_by_pos t) (player_positions t) m (view_distance t) (simulation_distance t).
Definition with_distances (view simulation : Z) (t : PlayerTicketTracker) : PlayerTicketTracker :=
  mk_players (players_by_pos t) (player_positions t) (loading_coverage t) view simulation.

Definition on_tracker (f : PlayerTicketTracker -> PlayerTicketTracker) (u : update) : update :=
  mk_update (f (tracker u)) (storage u) (so_far u).

(** [changes.merge(storage.add_ticket(pos, ticket))] and its removal *)
Definition merge_add {E} (u : update) (pos : ChunkPos) (t : ChunkTicket) : outcome E update :=
  let? '(c, s) := add_ticket (storage u) pos t in Ok (mk_update (tracker u) s (merge (so_far u) c)).
Definition merge_remove (u : update) (pos : ChunkPos) (t : ChunkTicket) : update :=
  let '(c, s) := remove_ticket (storage u) pos t in mk_update (tracker u) s (merge (so_far u) c).

Definition increment_loading_coverage {E} (u : update) (pos : ChunkPos) : outcome E update :=
  match loading_coverage (tracker u) !! pos with
  | None =>
      merge_add (on_tracker (fun t => with_coverage (<[pos := 1]> (loading_coverage t)) t) u) pos player_loading_ticket
  | Some coverage =>
      if coverage =? usize_max then Panic
      else Ok (on_tracker (fun t => with_coverage (<[pos := coverage + 1]> (loading_coverage t)) t) u)
  end.

Definition decrement_loading_coverage {E} (u : update) (pos : ChunkPos) : outcome E update :=
  match loading_coverage (tracker u) !! pos with
  | None => Panic
  | Some coverage =>
      if coverage =? 0 then Panic
      else if coverage =? 1 then
        Ok (merge_remove (on_tracker (fun t => with_coverage (delete pos (loading_coverage t)) t) u) pos player_loading_ticket)
      else Ok (on_tracker (fun t => with_coverage (<[pos := coverage - 1]> (loading_coverage t)) t) u)
  end.

(** The offsets of the two nested loops. *)
Definition offsets (distance : Z) : list (Z * Z) :=
  let range := seqZ (- distance) (2 * distance + 1) in
  mbind (fun offset_x => (fun offset_z => (offset_x, offset_z)) <$> range) range.
Definition shifted (center : ChunkPos) (o : Z * Z) : ChunkPos :=
  mk_chunk (i32 (cx center + o.1)) (i32 (cy center + o.2)).

(** [for_each_square_position] and [for_each_square_ring]: the positions
    visited, in order. *)
Definition square_positions (center : ChunkPos) (distance : Z) : list ChunkPos :=
  shifted center <$> offsets distance.
Definition ring_positions (center : ChunkPos) (inner_distance outer_distance : Z) : list ChunkPos :=
  shifted center <$>
    filter (fun o => ~ (Z.max (Z.abs o.1) (Z.abs o.2) <= inner_distance)) (offsets outer_distance).

Fixpoint visit {E} (f : update -> ChunkPos -> outcome E update) (u : update) (ps : list ChunkPos) : outcome E update :=
  match ps with
  | [] => Ok u
  | p :: ps => let? u := f u p in visit f u ps
  end.

Definition for_each_square_position {E} (center : ChunkPos) (distance : Z) (f : update -> ChunkPos -> outcome E update)
    (u : update) : outcome E update := visit f u (square_positions center distance).
Definition for_each_square_ring {E} (center : ChunkPos) (inner_distance outer_distance : Z)
    (f : update -> ChunkPos -> outcome E update) (u : update) : outcome E update :=
  if inner_distance <? outer_distance then visit f u (ring_positions center inner_distance outer_distance) else Panic.

Definition remove_player_from_center {E} (u : update) (pos : ChunkPos) (player_id : Uuid) : outcome E update :=
  match players_by_pos (tracker u) !! pos with
  | None => Panic
  | Some players =>
      if bool_decide (player_id ∈ players) then
        let players := players ∖ {[ player_id ]} in
        if negb (bool_decide (players = ∅)) then
          Ok (on_tracker (fun t => with_players (<[pos := players]> (players_by_pos t)) t) u)
        else
          let u := on_tracker (fun t => with_players (delete pos (players_by_pos t)) t) u in
          let u := merge_remove u pos (player_simulation_ticket (simulation_distance (tracker u))) in
          for_each_square_position pos (view_distance (tracker u)) decrement_loading_coverage u
      else Panic
  end.

Definition forget_position (player_id : Uuid) : update -> update :=
  on_tracker (fun t => with_positions (delete player_id (player_positions t)) t).

(** The second half of [add_player]. *)
Definition insert_player {E} (u : update) (pos : ChunkPos) (player_id : Uuid) : outcome E update :=
  let players := default ∅ (players_by_pos (tracker u) !! pos) in
  let was_empty := bool_decide (players = ∅) in
  if bool_decide (player_id ∈ players) then Panic
  else if bool_decide (is_Some (player_positions (tracker u) !! player_id)) then Panic
  else
    let u := on_tracker (fun t => with_positions (<[player_id := pos]> (player_positions t))
                          (with_players (<[pos := {[ player_id ]} ∪ players]> (players_by_pos t)) t)) u in
    if was_empty then
      let? u := merge_add u pos (player_simulation_ticket (simulation_distance (tracker u))) in
      for_each_square_position pos (view_distance (tracker u)) increment_loading_coverage u
    else Ok u.

Definition add_player {E} (t : PlayerTicketTracker) (s : ChunkTicketStorage) (pos : ChunkPos) (player_id : Uuid) :
    outcome E update :=
  let u := mk_update t s no_changes in
  match player_positions t !! player_id with
  | Some previous_pos =>
      if bool_decide (previous_pos = pos) then Ok u
      else
        let? u := remove_player_from_center u previous_pos player_id in
        insert_player (forget_position player_id u) pos player_id
  | None => insert_player u pos player_id
  end.

Definition remove_player {E} (t : PlayerTicketTracker) (s : ChunkTicketStorage) (pos : ChunkPos) (player_id : Uuid) :
    outcome E update :=
  let u := mk_update t s no_changes in
  if negb (bool_decide (player_positions t !! player_id = Some pos)) then Ok u
  else
    let? u := remove_player_from_center u pos player_id in
    Ok (forget_position player_id u).

(** The loop of [set_simulation_distance]. *)
Definition replace_simulation {E} (old_ticket new_ticket : ChunkTicket) (u : update) (pos : ChunkPos) : outcome E update :=
  merge_add (merge_remove u pos old_ticket) pos new_ticket.

(** [keys().copied().collect()] *)
Definition occupied_positions (order : hash_iter) (t : PlayerTicketTracker) : list ChunkPos :=
  (entries order (players_by_pos t)).*1.

Definition set_simulation_distance {E} (order : hash_iter) (t : PlayerTicketTracker) (s : ChunkTicketStorage)
    (distance : Z) : outcome E update :=
  let u := mk_update t s no_changes in
  if simulation_distance t =? distance then Ok u
  else
    let old_ticket := player_simulation_ticket (simulation_distance t) in
    let new_ticket := player_simulation_ticket distance in
    let? u := visit (replace_simulation old_ticket new_ticket) u (occupied_positions order t) in
    Ok (on_tracker (fun t => with_distances (view_distance t) distance t) u).

(** The loop of [set_view_distance]. *)
Definition cover_ring {E} (old_distance view_distance : Z) (u : update) (center : ChunkPos) : outcome E update :=
  if old_distance <? view_distance
  then for_each_square_ring center old_distance view_distance increment_loading_coverage u
  else for_each_square_ring center view_distance old_distance decrement_loading_coverage u.

Definition set_view_distance {E} (order : hash_iter) (t : PlayerTicketTracker) (s : ChunkTicketStorage)
    (distance : Z) : outcome E update :=
  let u := mk_update t s no_changes in
  if view_distance t =? distance then Ok u
  else
    let? u := visit (cover_ring (view_distance t) distance) u (occupied_positions order t) in
    Ok (on_tracker (fun t => with_distances distance (simulation_distance t) t) u).

(** ** Squares of the torus *)

Lemma elem_of_offsets d o : o ∈ offsets d <-> - d <= o.1 <= d /\ - d <= o.2 <= d.
Proof.
  destruct o as [x z]. unfold offsets. rewrite list_elem_of_bind. cbn [fst snd]. split.
  - intros (x' & (z' & [= -> ->] & Hz%elem_of_seqZ)%list_elem_of_fmap & Hx%elem_of_seqZ). lia.
  - intros [Hx Hz]. exists x. split; [|apply elem_of_seqZ; lia]. apply list_elem_of_fmap. exists z.
    split; [done|apply elem_of_seqZ; lia].
Qed.

Lemma offsets_nodup d : NoDup (offsets d).
Proof.
  unfold offsets. apply NoDup_bind.
  - intros x1 x2 y _ _ (z1 & -> & _)%list_elem_of_fmap (z2 & [= ->] & _)%list_elem_of_fmap. done.
  - intros x _. apply NoDup_fmap; [by intros ? ? [= ->]|apply NoDup_seqZ].
  - apply NoDup_seqZ.
Qed.

Lemma i32_offset a b : i32 (i32 (a + b) - a) = i32 b.
Proof.
  destruct (i32_spec (a + b)) as (k1 & H1 & _), (i32_spec (i32 (a + b) - a)) as (k2 & H2 & H3), (i32_spec b) as (k3 & H4 & H5).
  lia.
Qed.

Lemma i32_reach a c : is_s 32 a -> i32 (c + i32 (a - c)) = a.
Proof.
  rewrite is_s32. intros Ha. destruct (i32_spec (a - c)) as (k1 & H1 & _), (i32_spec (c + i32 (a - c))) as (k2 & H2 & H3). lia.
Qed.

Lemma i32_abs_sym a b : Z.abs (i32 (a - b)) = Z.abs (i32 (b - a)).
Proof. destruct (i32_spec (a - b)) as (k1 & H1 & H2), (i32_spec (b - a)) as (k2 & H3 & H4). lia. Qed.

(** A distance that squares can have without meeting themselves. *)
Definition small (d : Z) : Prop := 0 <= d <= 255.

Lemma shifted_offset c o : is_chunk (shifted c o) /\ i32 (cx (shifted c o) - cx c) = i32 o.1 /\ i32 (cy (shifted c o) - cy c) = i32 o.2.
Proof.
  unfold shifted. cbn [cx cy]. split; [split; apply wraps_range; lia|]. split; apply i32_offset.
Qed.

Lemma i32_small z : - 255 <= z <= 255 -> i32 z = z.
Proof. intros. destruct (i32_spec z) as (k & H1 & H2). lia. Qed.

Lemma shifted_distance c o d : small d -> o ∈ offsets d -> chunk_distance (shifted c o) c = Z.max (Z.abs o.1) (Z.abs o.2).
Proof.
  intros Hd Ho%elem_of_offsets. unfold small in Hd. unfold chunk_distance. destruct (shifted_offset c o) as (_ & -> & ->).
  by rewrite !i32_small by lia.
Qed.

Lemma shifted_reaches c p d :
  small d -> is_chunk p -> chunk_distance p c <= d -> exists o, o ∈ offsets d /\ p = shifted c o.
Proof.
  intros Hd [Hx Hy] Hp. unfold chunk_distance, small in *. exists (i32 (cx p - cx c), i32 (cy p - cy c)).
  rewrite elem_of_offsets. cbn [fst snd]. split; [lia|]. destruct p as [x y]. unfold shifted. cbn [cx cy fst snd] in *.
  by rewrite !i32_reach.
Qed.

Lemma square_elem c d p : small d -> p ∈ square_positions c d <-> is_chunk p /\ chunk_distance p c <= d.
Proof.
  intros Hd. unfold square_positions. rewrite list_elem_of_fmap. split.
  - intros (o & -> & Ho). split; [apply shifted_offset|]. rewrite (shifted_distance c o d Hd Ho).
    apply elem_of_offsets in Ho. lia.
  - intros [Hp Hc]. destruct (shifted_reaches c p d Hd Hp Hc) as (o & Ho & ->). eauto.
Qed.

Lemma ring_elem c d d' p :
  small d' -> p ∈ ring_positions c d d' <-> is_chunk p /\ d < chunk_distance p c <= d'.
Proof.
  intros Hd. unfold ring_positions. rewrite list_elem_of_fmap. setoid_rewrite list_elem_of_filter. split.
  - intros (o & -> & Hn & Ho). split; [apply shifted_offset|]. rewrite (shifted_distance c o d' Hd Ho).
    apply elem_of_offsets in Ho. lia.
  - intros [Hp Hc]. destruct (shifted_reaches c p d' Hd Hp) as (o & Ho & ->); [lia|]. exists o.
    rewrite (shifted_distance c o d' Hd Ho) in Hc. split; [done|]. split; [lia|done].
Qed.

Lemma shifted_inj c d o o' : small d -> o ∈ offsets d -> o' ∈ offsets d -> shifted c o = shifted c o' -> o = o'.
Proof.
  intros Hd Ho%elem_of_offsets Ho'%elem_of_offsets E. unfold small in Hd.
  pose proof (shifted_offset c o) as (_ & X1 & Y1). pose proof (shifted_offset c o') as (_ & X2 & Y2).
  rewrite E in X1, Y1. rewrite X1, !i32_small in X2 by lia. rewrite Y1, !i32_small in Y2 by lia.
  destruct o, o'. cbn in *. congruence.
Qed.

Lemma shifted_nodup c d l : small d -> (forall o, o ∈ l -> o ∈ offsets d) -> NoDup l -> NoDup (shifted c <$> l).
Proof.
  intros Hd Hl. induction 1 as [|o l Ho _ IH]; [constructor|]. rewrite fmap_cons. apply NoDup_cons. split.
  - intros (o' & E & Ho')%list_elem_of_fmap. apply Ho.
    rewrite (shifted_inj c d o o' Hd (Hl o ltac:(by left)) (Hl o' ltac:(by right)) E). done.
  - apply IH. intros. apply Hl. by right.
Qed.

Lemma square_nodup c d : small d -> NoDup (square_positions c d).
Proof. intros Hd. by apply (shifted_nodup c d); [|intros|apply offsets_nodup]. Qed.

Lemma ring_nodup c d d' : small d' -> NoDup (ring_positions c d d').
Proof.
  intros Hd. apply (shifted_nodup c d'); [done|intros o Ho; by apply list_elem_of_filter in Ho as [_ ?]|].
  apply NoDup_filter, offsets_nodup.
Qed.

Lemma square_size c d : small d -> (length (square_positions c d) <= 511 * 511)%nat.
Proof.
  intros Hd. unfold square_positions. rewrite length_fmap. unfold offsets.
  assert (H : forall l : list Z, length (l ≫= (fun x => (fun z => (x, z)) <$> seqZ (- d) (2 * d + 1))) =
    (length l * Z.to_nat (2 * d + 1))%nat).
  { induction l as [|x l IH]; [done|]. csimpl. rewrite length_app, length_fmap, length_seqZ, IH. lia. }
  rewrite H, length_seqZ. unfold small in Hd. assert (Z.to_nat (2 * d + 1) <= 511)%nat by lia. nia.
Qed.

Lemma distance_sym p q : chunk_distance p q = chunk_distance q p.
Proof. unfold chunk_distance. f_equal; apply i32_abs_sym. Qed.

(** The centers among [X] in whose view, at distance [d], [p] is. *)
Definition viewing (X : gset ChunkPos) (d : Z) (p : ChunkPos) : gset ChunkPos := filter (fun c => chunk_distance p c <= d) X.
Definition viewers (X : gset ChunkPos) (d : Z) (p : ChunkPos) : Z := Z.of_nat (size (viewing X d p)).

Lemma viewers_bound X d p : small d -> (forall c, c ∈ X -> is_chunk c) -> 0 <= viewers X d p <= 511 * 511.
Proof.
  intros Hd HX. unfold viewers.
  assert (H : (size (viewing X d p) <= 511 * 511)%nat).
  { etransitivity; [|apply (square_size p d Hd)].
    rewrite <- (size_list_to_set (C := gset ChunkPos) (square_positions p d)) by by apply square_nodup.
    apply subseteq_size. intros c [Hc Hin]%elem_of_filter. apply elem_of_list_to_set, square_elem; [done|].
    split; [by apply HX|by rewrite distance_sym]. }
  lia.
Qed.

Lemma viewers_add X d c p : c ∉ X ->
  viewers ({[ c ]} ∪ X) d p = viewers X d p + (if decide (chunk_distance p c <= d) then 1 else 0).
Proof.
  intros Hc. unfold viewers. assert (Hn : c ∉ viewing X d p) by (unfold viewing; set_solver).
  case_decide as Hd.
  - replace (viewing ({[ c ]} ∪ X) d p) with ({[ c ]} ∪ viewing X d p) by (apply set_eq; unfold viewing; set_solver).
    rewrite size_union, size_singleton; [lia|]. set_solver.
  - replace (viewing ({[ c ]} ∪ X) d p) with (viewing X d p) by (apply set_eq; unfold viewing; set_solver). lia.
Qed.

Lemma viewers_remove X d c p : c ∈ X ->
  viewers (X ∖ {[ c ]}) d p = viewers X d p - (if decide (chunk_distance p c <= d) then 1 else 0).
Proof.
  intros Hc. rewrite (union_difference_singleton_L c X Hc) at 2. rewrite viewers_add by set_solver. lia.
Qed.

Lemma viewers_pos X d p : viewers X d p <> 0 <-> exists c, c ∈ X /\ chunk_distance p c <= d.
Proof.
  unfold viewers.
  assert (H : size (viewing X d p) <> 0%nat <-> exists c, c ∈ viewing X d p).
  { rewrite size_non_empty_iff. split; [by apply set_choose|set_solver]. }
  unfold viewing at 2 in H. setoid_rewrite elem_of_filter in H. split.
  - intros Hn. destruct (proj1 H) as (c & Hd & Hc); [lia|]. eauto.
  - intros (c & Hc & Hd) Hz. apply (proj2 H); [eauto|lia].
Qed.

(** ** One ticket at a time *)

(** What an operation that only deals in tickets of the types [K] keeps. *)
Record stepped (K : TicketTypeRef -> Prop) (u u' : update) : Prop := {
  st_ok : storage_ok (storage u');
  st_gen : last_generation (storage u') = last_generation (storage u);
  st_held : forall p k, ~ K k.1 -> held (storage u') p k = held (storage u) p k;
  st_changes : exists c, so_far u' = merge (so_far u) c /\ reported (storage u) (storage u') c
}.

Lemma stepped_refl K u : storage_ok (storage u) -> stepped K u u.
Proof. intros Hok. constructor; try done. exists no_changes. rewrite merge_nil. split; [done|apply reported_refl]. Qed.

Lemma stepped_trans K u u1 u2 : stepped K u u1 -> stepped K u1 u2 -> stepped K u u2.
Proof.
  intros [A1 A2 A3 (c1 & A4 & A5)] [B1 B2 B3 (c2 & B4 & B5)]. constructor; [done|congruence| |].
  - intros p k Hk. by rewrite B3, A3.
  - exists (merge c1 c2). rewrite B4, A4, merge_assoc. split; [done|by eapply reported_trans].
Qed.

Lemma stepped_weaken (K K' : TicketTypeRef -> Prop) u u' : (forall t, K t -> K' t) -> stepped K u u' -> stepped K' u u'.
Proof. intros HK [A1 A2 A3 A4]. constructor; [done|done| |done]. intros p k Hk. apply A3. auto. Qed.

(** Changing only the tracker is not a step of the storage. *)
Lemma stepped_tracker K f u u' : stepped K (on_tracker f u) u' -> stepped K u u'.
Proof. by intros [A1 A2 A3 A4]. Qed.

Lemma stepped_tracker_r K f u u' : stepped K u u' -> stepped K u (on_tracker f u').
Proof. by intros [A1 A2 A3 A4]. Qed.

Lemma merge_add_ok {E} u p t :
  storage_ok (storage u) -> is_chunk p -> 0 <= ticket_level t <= MAX_LEVEL_RAW -> has_timeout (deref (ticket_type t)) = false ->
  exists u', merge_add (E := E) u p t = Ok u' /\ tracker u' = tracker u /\ stepped (eq (ticket_type t)) u u' /\
    forall q k, is_Some (held (storage u') q k) <-> (q = p /\ k = identity t) \/ is_Some (held (storage u) q k).
Proof.
  intros Hok Hp Hl Ht. destruct (add_ticket_ok (storage u) p t Hok Hp Hl ltac:(congruence) (E := E)) as (gen & s' & H1 & Hok' & Hf & Hu).
  unfold merge_add. rewrite H1. cbn [obind]. eexists. split; [done|]. split; [done|]. cbn [storage].
  unfold generation_fits in Hf. rewrite Ht in Hf. split; [constructor; cbn [storage so_far]|].
  - done.
  - apply Hf.
  - intros q k Hk. rewrite (u_held _ _ _ _ _ _ Hu), decide_False; [done|]. intros [_ ->]. by apply Hk.
  - eexists. split; [done|]. by eapply add_ticket_reported.
  - intros q k. rewrite (u_held _ _ _ _ _ _ Hu). case_decide; [|tauto]. split; [tauto|eauto].
Qed.

Lemma merge_remove_ok u p t :
  storage_ok (storage u) ->
  tracker (merge_remove u p t) = tracker u /\ stepped (eq (ticket_type t)) u (merge_remove u p t) /\
  forall q k, is_Some (held (storage (merge_remove u p t)) q k) <-> ~ (q = p /\ k = identity t) /\ is_Some (held (storage u) q k).
Proof.
  intros Hok. destruct (remove_ticket_ok (storage u) p t Hok) as (s' & H1 & Hok' & Hu).
  unfold merge_remove. rewrite H1. cbn [tracker storage]. split; [done|]. split; [constructor; cbn [storage so_far]|].
  - done.
  - apply Hu.
  - intros q k Hk. rewrite (u_held _ _ _ _ _ _ Hu), decide_False; [done|]. intros [_ ->]. by apply Hk.
  - eexists. split; [done|]. by eapply remove_ticket_reported.
  - intros q k. rewrite (u_held _ _ _ _ _ _ Hu). case_decide; [|tauto]. split; [by intros []|tauto].
Qed.

(** ** Loading coverage *)

Definition loading_id : TicketTypeRef * Z := identity player_loading_ticket.

(** The coverage counts [n], and its support is where loading tickets are. *)
Record covered (u : update) (n : ChunkPos -> Z) : Prop := {
  cov_count : forall p, is_chunk p -> loading_coverage (tracker u) !! p = if n p =? 0 then None else Some (n p);
  cov_typed : forall p, is_Some (loading_coverage (tracker u) !! p) -> is_chunk p;
  cov_held : forall p k, is_chunk p -> k.1 = PLAYER_LOADING -> is_Some (held (storage u) p k) <-> k = loading_id /\ n p <> 0
}.

Definition same_players (u u' : update) : Prop := exists m, tracker u' = with_coverage m (tracker u).

Lemma same_players_refl u : same_players u u.
Proof. exists (loading_coverage (tracker u)). by destruct u as [[] ? ?]. Qed.

Lemma same_players_trans u u1 u2 : same_players u u1 -> same_players u1 u2 -> same_players u u2.
Proof. intros [m1 H1] [m2 H2]. exists m2. by rewrite H2, H1. Qed.

Lemma covered_ext u n n' : (forall p, is_chunk p -> n p = n' p) -> covered u n -> covered u n'.
Proof. intros H [A B C]. constructor; [intros p Hp; rewrite <- H by done; by apply A|done|]. intros p k Hp. rewrite <- H by done. by apply C. Qed.

Definition bump (n : ChunkPos -> Z) (p : ChunkPos) (d : Z) (q : ChunkPos) : Z := if decide (q = p) then n q + d else n q.

(** One step of a covering loop at [p]: counts change by [d] there. *)
Definition coverage_step {E} (f : update -> ChunkPos -> outcome E update) (d : Z) (pre : Z -> Prop) : Prop :=
  forall u n p, storage_ok (storage u) -> covered u n -> is_chunk p -> 0 <= n p -> pre (n p) ->
    exists u', f u p = Ok u' /\ stepped (eq PLAYER_LOADING) u u' /\ same_players u u' /\ covered u' (bump n p d).

(** The coverage moved, and nothing was done to the storage. *)
Lemma covered_recount u n p d (c : Z) :
  storage_ok (storage u) -> covered u n -> is_chunk p -> n p <> 0 -> n p + d <> 0 ->
  let u' := on_tracker (fun t => with_coverage (<[p := n p + d]> (loading_coverage t)) t) u in
  stepped (eq PLAYER_LOADING) u u' /\ same_players u u' /\ covered u' (bump n p d).
Proof.
  intros Hok [A B C] Hp Hn Hn' u'. split; [by apply stepped_tracker_r, stepped_refl|]. split; [by eexists|].
  unfold bump. constructor; cbn [u' on_tracker tracker storage with_coverage loading_coverage].
  - intros q Hq. case_decide as E; [subst q; rewrite lookup_insert_eq; by rewrite (proj2 (Z.eqb_neq _ _))|].
    rewrite lookup_insert_ne by done. by apply A.
  - intros q. destruct (decide (q = p)) as [->|Hq]; [done|]. rewrite lookup_insert_ne by done. apply B.
  - intros q k Hq Hk. rewrite (C q k Hq Hk). case_decide as E; [subst q|done]. tauto.
Qed.

Lemma increment_step {E} : coverage_step (E := E) increment_loading_coverage 1 (fun m => m < usize_max).
Proof.
  intros u n p Hok Hc Hp H0 Hm. unfold increment_loading_coverage. rewrite (cov_count u n Hc p Hp).
  destruct (Z.eqb_spec (n p) 0) as [Hz|Hz].
  - set (u1 := on_tracker _ u).
    destruct (merge_add_ok (E := E) u1 p player_loading_ticket Hok Hp) as (u' & H1 & H2 & H3 & H4);
      [vm_compute; split; congruence|reflexivity|].
    exists u'. split; [done|]. split; [exact (stepped_tracker _ _ _ _ H3)|].
    split; [eexists; exact H2|].
    destruct Hc as [A B C]. unfold bump. constructor; rewrite ?H2; cbn [u1 on_tracker tracker with_coverage loading_coverage].
    + intros q Hq. case_decide as E'; [subst q; rewrite lookup_insert_eq; by rewrite Hz|].
      rewrite lookup_insert_ne by done. by apply A.
    + intros q. destruct (decide (q = p)) as [->|Hq]; [done|]. rewrite lookup_insert_ne by done. apply B.
    + intros q k Hq Hk. rewrite H4. change (storage u1) with (storage u). rewrite (C q k Hq Hk).
      change (identity player_loading_ticket) with loading_id. case_decide as E'; [subst q; naive_solver lia|naive_solver].
  - rewrite (proj2 (Z.eqb_neq _ _)) by lia. eexists. split; [done|]. apply (covered_recount u n p 1 0); [done..|lia].
Qed.

Lemma decrement_step {E} : coverage_step (E := E) decrement_loading_coverage (-1) (fun m => 1 <= m).
Proof.
  intros u n p Hok Hc Hp H0 Hm. unfold decrement_loading_coverage. rewrite (cov_count u n Hc p Hp).
  rewrite (proj2 (Z.eqb_neq _ _)) by lia. rewrite (proj2 (Z.eqb_neq _ _)) by lia.
  destruct (Z.eqb_spec (n p) 1) as [Hz|Hz].
  - set (u1 := on_tracker _ u). destruct (merge_remove_ok u1 p player_loading_ticket Hok) as (H2 & H3 & H4).
    eexists. split; [done|]. split; [exact (stepped_tracker _ _ _ _ H3)|].
    split; [eexists; exact H2|].
    destruct Hc as [A B C]. unfold bump. constructor; rewrite ?H2; cbn [u1 on_tracker tracker with_coverage loading_coverage].
    + intros q Hq. case_decide as E'; [subst q; rewrite lookup_delete_eq; by rewrite Hz|].
      rewrite lookup_delete_ne by done. by apply A.
    + intros q. destruct (decide (q = p)) as [->|Hq]; [by rewrite lookup_delete_eq; intros []|].
      rewrite lookup_delete_ne by done. apply B.
    + intros q k Hq Hk. rewrite H4. change (storage u1) with (storage u). rewrite (C q k Hq Hk).
      change (identity player_loading_ticket) with loading_id. case_decide as E'; [subst q; naive_solver lia|naive_solver].
  - eexists. split; [done|]. apply (covered_recount u n p (-1) 0); [done..|lia|lia].
Qed.

Section Visit.
Context {E : Type} (f : update -> ChunkPos -> outcome E update) (d : Z) (pre : Z -> Prop).
Context (Hf : coverage_step f d pre) (Hd : forall m, pre m -> 0 <= m -> 0 <= m + d).

Lemma visit_coverage ps u n :
  storage_ok (storage u) -> covered u n -> NoDup ps -> (forall p, p ∈ ps -> is_chunk p) ->
  (forall p, is_chunk p -> 0 <= n p) -> (forall p, p ∈ ps -> pre (n p)) ->
  exists u', visit f u ps = Ok u' /\ stepped (eq PLAYER_LOADING) u u' /\ same_players u u' /\
    covered u' (fun q => n q + (if decide (q ∈ ps) then d else 0)).
Proof.
  intros Hok Hc Hn. revert u n Hok Hc. induction Hn as [|p ps Hp Hn IH]; intros u n Hok Hc Hch H0 Hpre; cbn [visit].
  - exists u. split; [done|]. split; [by apply stepped_refl|]. split; [apply same_players_refl|].
    apply (covered_ext u n); [|done]. intros q _. rewrite decide_False by by apply not_elem_of_nil. lia.
  - destruct (Hf u n p Hok Hc) as (u1 & -> & S1 & P1 & C1); [apply Hch; by left|apply H0, Hch; by left|apply Hpre; by left|].
    cbn [obind]. destruct (IH u1 (bump n p d)) as (u2 & H2 & S2 & P2 & C2).
    + apply S1.
    + done.
    + intros q Hq. apply Hch. by right.
    + intros q Hq. unfold bump. case_decide; [|by apply H0]. subst q. apply Hd; [apply Hpre; by left|by apply H0].
    + intros q Hq. unfold bump. rewrite decide_False by (intros ->; done). apply Hpre. by right.
    + exists u2. split; [done|]. split; [by eapply stepped_trans|]. split; [by eapply same_players_trans|].
      apply (covered_ext u2 _ _) with (2 := C2). intros q _. unfold bump. destruct (decide (q = p)) as [->|Hq].
      * rewrite (decide_False (P := p ∈ ps)) by done. rewrite (decide_True (P := p ∈ p :: ps)) by by left. lia.
      * destruct (decide (q ∈ ps)) as [Hin|Hin];
          [rewrite (decide_True (P := q ∈ p :: ps)) by by right
          |rewrite (decide_False (P := q ∈ p :: ps)) by (rewrite elem_of_cons; tauto)]; lia.
Qed.
End Visit.

(** ** The invariant *)

Definition centers (u : update) : gset ChunkPos := dom (players_by_pos (tracker u)).
Definition player_type (t : TicketTypeRef) : Prop := t = PLAYER_LOADING \/ t = PLAYER_SIMULATION.
Definition simulation_id (u : update) : TicketTypeRef * Z :=
  identity (player_simulation_ticket (simulation_distance (tracker u))).

(** Simulation tickets of [k] are held exactly at the positions [P]. *)
Definition simulated (u : update) (k : TicketTypeRef * Z) (P : ChunkPos -> Prop) : Prop :=
  forall p k', k'.1 = PLAYER_SIMULATION -> is_Some (held (storage u) p k') <-> k' = k /\ P p.

Record players_ok (u : update) : Prop := {
  p_storage : storage_ok (storage u);
  p_view : small (view_distance (tracker u));
  p_simulation : small (simulation_distance (tracker u));
  p_sync : forall id p, player_positions (tracker u) !! id = Some p <->
    exists X, players_by_pos (tracker u) !! p = Some X /\ id ∈ X;
  p_centers : forall p X, players_by_pos (tracker u) !! p = Some X -> X <> ∅ /\ is_chunk p;
  p_covered : covered u (viewers (centers u) (view_distance (tracker u)));
  p_simulated : simulated u (simulation_id u) (fun p => p ∈ centers u)
}.

Lemma center_elem u p : p ∈ centers u <-> is_Some (players_by_pos (tracker u) !! p).
Proof. apply elem_of_dom. Qed.

Lemma center_is_chunk u p : players_ok u -> p ∈ centers u -> is_chunk p.
Proof. intros Hu [X HX]%center_elem. by apply (p_centers u Hu p X). Qed.

Lemma covered_stepped K u u' n :
  covered u n -> stepped K u u' -> ~ K PLAYER_LOADING ->
  loading_coverage (tracker u') = loading_coverage (tracker u) -> covered u' n.
Proof.
  intros [A B C] Hs HK Ht. constructor; rewrite ?Ht; [done|done|]. intros p k Hp Hk.
  rewrite (st_held _ _ _ Hs) by by rewrite Hk. by apply C.
Qed.

Lemma simulated_stepped K u u' k P : simulated u k P -> stepped K u u' -> ~ K PLAYER_SIMULATION -> simulated u' k P.
Proof. intros H Hs HK p k' Hk. rewrite (st_held _ _ _ Hs) by by rewrite Hk. by apply H. Qed.

Lemma simulated_ext u u' k k' (P P' : ChunkPos -> Prop) :
  simulated u k P -> storage u' = storage u -> k = k' -> (forall p, P p <-> P' p) -> simulated u' k' P'.
Proof. intros H Hs <- HP p k1 Hk. by rewrite Hs, (H p k1 Hk), HP. Qed.

Lemma covered_tracker f u n :
  covered u n -> loading_coverage (f (tracker u)) = loading_coverage (tracker u) -> covered (on_tracker f u) n.
Proof. intros [A B C] H. constructor; cbn [on_tracker tracker storage]; rewrite ?H; done. Qed.

Lemma simulation_ticket_typed d : small d ->
  0 <= ticket_level (player_simulation_ticket d) <= MAX_LEVEL_RAW.
Proof.
  intros Hd. unfold player_simulation_ticket, ticket_new, from_saved, for_entity_ticking_radius, saturating_sub.
  cbn [ticket_level]. assert (MAX_LEVEL_RAW = 141) as -> by (vm_compute; reflexivity).
  unfold small, ENTITY_TICKING_CHUNK, MAX_SUPPORTED_VIEW_DISTANCE in *. lia.
Qed.

Lemma loading_not_simulation : PLAYER_LOADING <> PLAYER_SIMULATION.
Proof. intros H. by apply (f_equal place) in H. Qed.

(** A loop over a square around [c] that adds or takes [c] as a viewer. *)
Lemma square_viewers X X' d c e :
  small d -> (forall p, viewers X' d p = viewers X d p + (if decide (chunk_distance p c <= d) then e else 0)) ->
  forall p, is_chunk p -> viewers X d p + (if decide (p ∈ square_positions c d) then e else 0) = viewers X' d p.
Proof.
  intros Hd HX p Hp. rewrite HX. f_equal. pose proof (square_elem c d p Hd).
  destruct (decide (p ∈ square_positions c d)), (decide (chunk_distance p c <= d)); tauto.
Qed.

(** Only some tracker fields and tickets of the players' types moved. *)
Record moved (u u' : update) : Prop := {
  m_stepped : stepped player_type u u';
  m_view : view_distance (tracker u') = view_distance (tracker u);
  m_simulation : simulation_distance (tracker u') = simulation_distance (tracker u)
}.

Lemma moved_by K f u u1 u' :
  (forall t, K t -> player_type t) -> stepped K u u1 -> tracker u1 = f (tracker u) ->
  (forall t, view_distance (f t) = view_distance t /\ simulation_distance (f t) = simulation_distance t) ->
  stepped (eq PLAYER_LOADING) u1 u' -> same_players u1 u' -> moved u u'.
Proof.
  intros HK H1 Ht Hf H2 [m Hm]. constructor.
  - eapply stepped_trans; (eapply stepped_weaken; [|done]); [done|]. intros t <-. by left.
  - rewrite Hm, Ht. apply Hf.
  - rewrite Hm, Ht. apply Hf.
Qed.

Lemma remove_from_center_ok {E} u pos id :
  players_ok u -> player_positions (tracker u) !! id = Some pos ->
  exists u', remove_player_from_center (E := E) u pos id = Ok u' /\ players_ok (forget_position id u') /\
    moved u u' /\ player_positions (tracker u') = player_positions (tracker u).
Proof.
  intros Hu Hid. destruct (proj1 (p_sync u Hu id pos) Hid) as (X & HX & Hin).
  pose proof (p_centers u Hu pos X HX) as [_ Hp]. pose proof (p_storage u Hu) as Hok.
  unfold remove_player_from_center. rewrite HX, bool_decide_eq_true_2 by done. cbv zeta.
  assert (Hsync : forall Y, Y = X ∖ {[ id ]} -> forall (m : gmap ChunkPos (gset Uuid)),
    (forall q, q <> pos -> m !! q = players_by_pos (tracker u) !! q) ->
    (forall i, (exists Z, m !! pos = Some Z /\ i ∈ Z) <-> i ∈ Y) ->
    forall i q, delete id (player_positions (tracker u)) !! i = Some q <-> exists Z, m !! q = Some Z /\ i ∈ Z).
  { intros Y -> m Hm HY i q. rewrite lookup_delete_Some, (p_sync u Hu).
    destruct (decide (q = pos)) as [->|Hq]; [rewrite HY, HX, elem_of_difference, elem_of_singleton; naive_solver|].
    rewrite Hm by done. split; [by intros [_ ?]|]. intros HZ. split; [|done]. intros <-. apply Hq.
    apply (p_sync u Hu) in HZ. congruence. }
  destruct (decide (X ∖ {[ id ]} = ∅)) as [He|Hne].
  - rewrite bool_decide_eq_true_2 by done. cbn [negb]. set (u1 := on_tracker _ u). cbn zeta.
    destruct (merge_remove_ok u1 pos (player_simulation_ticket (simulation_distance (tracker u1))) Hok) as (M1 & M2 & M3).
    set (u2 := merge_remove u1 pos _) in *. rewrite !M1. cbn [u1 on_tracker tracker with_players view_distance].
    apply stepped_tracker in M2.
    assert (Hc2 : covered u2 (viewers (centers u) (view_distance (tracker u)))).
    { eapply covered_stepped; [apply (p_covered u Hu)|exact M2| |by rewrite M1].
      intros H. by apply loading_not_simulation. }
    assert (Hpc : pos ∈ centers u) by (apply center_elem; eauto).
    destruct (visit_coverage (E := E) decrement_loading_coverage (-1) (fun m => 1 <= m) decrement_step ltac:(cbv beta; intros; lia) (square_positions pos (view_distance (tracker u)))
      u2 _ (st_ok _ _ _ M2) Hc2 (square_nodup _ _ (p_view u Hu))) as (u3 & V1 & V2 & V3 & V4).
    + intros q Hq%square_elem; [|apply Hu]. apply Hq.
    + intros q _. apply viewers_bound; [apply Hu|]. intros c. by apply center_is_chunk.
    + intros q Hq%square_elem; [|apply Hu]. pose proof (viewers_bound (centers u) (view_distance (tracker u)) q (p_view u Hu)
        (fun c => center_is_chunk u c Hu)).
      assert (viewers (centers u) (view_distance (tracker u)) q <> 0) by (apply viewers_pos; exists pos; tauto). lia.
    + unfold for_each_square_position. exists u3. split; [exact V1|]. destruct V3 as [m Hm]. rewrite M1 in Hm.
      split; [|split].
      * assert (Ec : centers u3 = centers u ∖ {[ pos ]}) by (unfold centers; rewrite Hm; cbn; apply dom_delete_L).
        constructor; cbn [forget_position on_tracker tracker storage]; rewrite ?Hm;
          cbn [u1 on_tracker tracker with_coverage with_players with_positions view_distance simulation_distance player_positions players_by_pos].
        -- apply V2.
        -- apply Hu.
        -- apply Hu.
        -- apply (Hsync _ eq_refl).
           ++ intros q Hq. by apply lookup_delete_ne.
           ++ intros i. rewrite lookup_delete_eq, He. set_solver.
        -- intros q Y [_ HY]%lookup_delete_Some. by apply (p_centers u Hu).
        -- change (centers (forget_position id u3)) with (centers u3). rewrite Ec.
           apply covered_tracker; [|done]. eapply covered_ext; [|exact V4].
           apply (square_viewers (centers u) _ _ pos (-1)); [apply Hu|].
           intros q. rewrite viewers_remove by done. repeat case_decide; lia.
        -- change (centers (forget_position id u3)) with (centers u3). rewrite Ec.
           eapply (simulated_ext u3); [|done| |].
           ++ eapply (simulated_stepped _ u2); [|exact V2|apply loading_not_simulation].
              intros q k Hk. rewrite M3. change (storage u1) with (storage u). rewrite (p_simulated u Hu q k Hk).
              instantiate (1 := fun q => q ∈ centers u /\ q <> pos). change (simulation_distance (tracker u1)) with (simulation_distance (tracker u)).
              fold (simulation_id u). instantiate (1 := simulation_id u). naive_solver.
           ++ unfold simulation_id. cbn [forget_position on_tracker tracker with_positions simulation_distance]. rewrite Hm. done.
           ++ intros q. set_solver.
      * apply (moved_by (eq PLAYER_SIMULATION) (fun t => with_players (delete pos (players_by_pos t)) t) u u2); [|done|done|done|done|].
        -- intros t <-. by right.
        -- exists m. by rewrite M1.
      * rewrite Hm. done.
  - rewrite bool_decide_eq_false_2 by done. cbn [negb]. eexists. split; [done|].
    set (u1 := on_tracker _ u).
    assert (Ec : centers u1 = centers u).
    { unfold centers. cbn [u1 on_tracker tracker with_players players_by_pos]. rewrite dom_insert_L. apply elem_of_dom_2 in HX. set_solver. }
    split; [|split; [|done]].
    + constructor; cbn [forget_position u1 on_tracker tracker storage with_players with_positions view_distance simulation_distance player_positions players_by_pos];
        try apply Hu.
      * apply (Hsync _ eq_refl).
        -- intros q Hq. by apply lookup_insert_ne.
        -- intros i. rewrite lookup_insert_eq. naive_solver.
      * intros q Y. rewrite lookup_insert_Some. intros [[<- <-]|[_ HY]]; [done|]. by apply (p_centers u Hu).
      * change (centers (forget_position id u1)) with (centers u1). rewrite Ec.
        do 2 (apply covered_tracker; [|done]). apply Hu.
      * change (centers (forget_position id u1)) with (centers u1). rewrite Ec. by apply (simulated_ext u _ _ _ _ _ (p_simulated u Hu)).
    + constructor; [|done|done]. by apply stepped_tracker_r, stepped_refl.
Qed.

Lemma sync_insert u id pos (m : gmap ChunkPos (gset Uuid)) :
  players_ok u -> player_positions (tracker u) !! id = None ->
  (forall q, q <> pos -> m !! q = players_by_pos (tracker u) !! q) ->
  m !! pos = Some ({[ id ]} ∪ default ∅ (players_by_pos (tracker u) !! pos)) ->
  forall i q, <[id := pos]> (player_positions (tracker u)) !! i = Some q <-> exists Z, m !! q = Some Z /\ i ∈ Z.
Proof.
  intros Hu Hid Hm Hp i q. assert (Hsync := p_sync u Hu i q). rewrite lookup_insert_Some.
  destruct (decide (q = pos)) as [->|Hq].
  - rewrite Hp. destruct (players_by_pos (tracker u) !! pos) as [X|] eqn:EX; cbn; split.
    + intros [[<- _]|[Hne Hi]]; eexists; (split; [done|]); [set_solver|].
      apply Hsync in Hi as (Z & [= <-] & HZ). set_solver.
    + intros (Z & [= <-] & [Hi%elem_of_singleton|HX]%elem_of_union); [left; split; [congruence|done]|].
      right. split; [|apply Hsync; eauto].
      intros <-. assert (is_Some (player_positions (tracker u) !! id)) as [? ?]; [|congruence]. exists pos. apply Hsync. eauto.
    + intros [[<- _]|[Hne Hi]]; eexists; (split; [done|]); [set_solver|]. apply Hsync in Hi as (Z & ? & _). done.
    + intros (Z & [= <-] & Hi). left. split; [set_solver|done].
  - rewrite Hm by done. rewrite <- Hsync. split; [intros [[_ ?]|[_ ?]]; congruence|]. intros Hi. right. split; [|done].
    intros <-. congruence.
Qed.

Lemma insert_player_ok {E} u pos id :
  players_ok u -> is_chunk pos -> player_positions (tracker u) !! id = None ->
  exists u', insert_player (E := E) u pos id = Ok u' /\ players_ok u' /\ moved u u' /\
    player_positions (tracker u') = <[id := pos]> (player_positions (tracker u)).
Proof.
  intros Hu Hp Hid. pose proof (p_storage u Hu) as Hok. unfold insert_player. cbv zeta.
  set (players := default ∅ (players_by_pos (tracker u) !! pos)).
  assert (Hnew : id ∉ players).
  { subst players. destruct (players_by_pos (tracker u) !! pos) as [X|] eqn:EX; cbn; [|set_solver]. intros Hin.
    assert (player_positions (tracker u) !! id = Some pos) by (apply (p_sync u Hu); eauto). congruence. }
  rewrite bool_decide_eq_false_2 by done. rewrite bool_decide_eq_false_2 by (rewrite Hid; by intros []).
  set (u1 := on_tracker _ u).
  assert (Hsync : forall i q, <[id := pos]> (player_positions (tracker u)) !! i = Some q <->
    exists Z, <[pos := {[ id ]} ∪ players]> (players_by_pos (tracker u)) !! q = Some Z /\ i ∈ Z).
  { apply sync_insert; [done..| |by rewrite lookup_insert_eq]. intros q Hq. by apply lookup_insert_ne. }
  assert (Hcent : forall q X, <[pos := {[ id ]} ∪ players]> (players_by_pos (tracker u)) !! q = Some X -> X <> ∅ /\ is_chunk q).
  { intros q X. rewrite lookup_insert_Some. intros [[<- <-]|[_ HX]]; [split; [set_solver|done]|by apply (p_centers u Hu)]. }
  assert (E1 : centers u1 = {[ pos ]} ∪ centers u) by (unfold centers; cbn; apply dom_insert_L).
  destruct (decide (players = ∅)) as [He|Hne].
  - rewrite bool_decide_eq_true_2 by done.
    assert (Hpc : pos ∉ centers u).
    { intros [X HX]%center_elem. destruct (p_centers u Hu pos X HX) as [Hx _]. apply Hx. subst players.
      rewrite HX in He. exact He. }
    destruct (merge_add_ok (E := E) u1 pos (player_simulation_ticket (simulation_distance (tracker u1))) Hok Hp
      (simulation_ticket_typed _ (p_simulation u Hu)) eq_refl) as (u2 & -> & M1 & M2 & M3).
    cbn [obind]. apply stepped_tracker in M2. rewrite !M1. cbn [u1 on_tracker tracker with_players with_positions view_distance].
    assert (Hc2 : covered u2 (viewers (centers u) (view_distance (tracker u)))).
    { eapply covered_stepped; [apply (p_covered u Hu)|exact M2| |by rewrite M1].
      intros H. by apply loading_not_simulation. }
    pose proof (fun q => viewers_bound (centers u) (view_distance (tracker u)) q (p_view u Hu)
        (fun c => center_is_chunk u c Hu)) as Hb.
    destruct (visit_coverage (E := E) increment_loading_coverage 1 (fun m => m < usize_max) increment_step
      ltac:(cbv beta; intros; lia) (square_positions pos (view_distance (tracker u)))
      u2 _ (st_ok _ _ _ M2) Hc2 (square_nodup _ _ (p_view u Hu))) as (u3 & V1 & V2 & V3 & V4).
    + intros q Hq%square_elem; [|apply Hu]. apply Hq.
    + intros q _. apply Hb.
    + intros q _. specialize (Hb q). unfold usize_max. lia.
    + unfold for_each_square_position. exists u3. split; [exact V1|]. destruct V3 as [m Hm]. rewrite M1 in Hm.
      assert (Ec : centers u3 = {[ pos ]} ∪ centers u) by (unfold centers at 1; rewrite Hm; exact E1).
      split; [|split].
      * constructor; rewrite ?Ec, ?Hm;
          cbn [u1 on_tracker tracker with_coverage with_players with_positions view_distance simulation_distance player_positions players_by_pos].
        -- apply V2.
        -- apply Hu.
        -- apply Hu.
        -- exact Hsync.
        -- exact Hcent.
        -- eapply covered_ext; [|exact V4]. apply (square_viewers (centers u) _ _ pos 1); [apply Hu|].
           intros q. by rewrite viewers_add.
        -- eapply (simulated_ext u3); [|done| |].
           ++ eapply (simulated_stepped _ u2); [|exact V2|apply loading_not_simulation].
              intros q k Hk. rewrite M3. change (storage u1) with (storage u). rewrite (p_simulated u Hu q k Hk).
              instantiate (1 := fun q => q ∈ {[ pos ]} ∪ centers u). change (simulation_distance (tracker u1)) with (simulation_distance (tracker u)).
              fold (simulation_id u). instantiate (1 := simulation_id u). set_solver.
           ++ unfold simulation_id. by rewrite Hm.
           ++ done.
      * apply (moved_by (eq PLAYER_SIMULATION) (fun t => with_positions (<[id := pos]> (player_positions t))
           (with_players (<[pos := {[ id ]} ∪ players]> (players_by_pos t)) t)) u u2); [|done|done|done|done|].
        -- intros t <-. by right.
        -- exists m. by rewrite M1.
      * rewrite Hm. done.
  - rewrite bool_decide_eq_false_2 by done. exists u1. split; [done|].
    assert (Ec : centers u1 = centers u).
    { rewrite E1. assert (pos ∈ centers u); [|set_solver]. apply center_elem. subst players.
      destruct (players_by_pos (tracker u) !! pos); [eauto|done]. }
    split; [|split; [|done]].
    + constructor; rewrite ?Ec; [apply Hu..|exact Hsync|exact Hcent| |].
      * apply covered_tracker; [apply Hu|done].
      * by apply (simulated_ext u _ _ _ _ _ (p_simulated u Hu)).
    + constructor; [|done|done]. by apply stepped_tracker_r, stepped_refl.
Qed.

(** The two maps [add_player] and [remove_player] are about. *)
Lemma moved_refl u : storage_ok (storage u) -> moved u u.
Proof. intros Hok. constructor; [by apply stepped_refl|done..]. Qed.

Lemma moved_trans u u1 u2 : moved u u1 -> moved u1 u2 -> moved u u2.
Proof. intros [A1 A2 A3] [B1 B2 B3]. constructor; [by eapply stepped_trans|congruence..]. Qed.

Lemma moved_forget u u' id : moved u u' -> moved u (forget_position id u').
Proof. intros [A1 A2 A3]. constructor; [by apply stepped_tracker_r|done..]. Qed.

Lemma add_player_ok {E} t s pos id :
  let u := mk_update t s no_changes in
  players_ok u -> is_chunk pos ->
  exists u', add_player (E := E) t s pos id = Ok u' /\ players_ok u' /\ moved u u' /\
    player_positions (tracker u') = <[id := pos]> (player_positions t).
Proof.
  intros u Hu Hp. unfold add_player. fold u. destruct (player_positions t !! id) as [prev|] eqn:Eid.
  - case_bool_decide as Hprev.
    + subst prev. exists u. split; [done|]. split; [done|]. split; [by apply moved_refl, Hu|]. cbn. by rewrite insert_id.
    + destruct (remove_from_center_ok (E := E) u prev id Hu Eid) as (u1 & -> & H1 & H2 & H3). cbn [obind].
      destruct (insert_player_ok (E := E) (forget_position id u1) pos id H1 Hp) as (u2 & -> & K1 & K2 & K3).
      { cbn. apply lookup_delete_eq. }
      exists u2. split; [done|]. split; [done|]. split; [eapply moved_trans; [|done]; by apply moved_forget|].
      rewrite K3. cbn [forget_position on_tracker tracker with_positions player_positions]. rewrite H3. apply insert_delete_eq.
  - destruct (insert_player_ok (E := E) u pos id Hu Hp Eid) as (u2 & -> & K1 & K2 & K3). by exists u2.
Qed.

Lemma remove_player_ok {E} t s pos id :
  let u := mk_update t s no_changes in
  players_ok u ->
  exists u', remove_player (E := E) t s pos id = Ok u' /\ players_ok u' /\ moved u u' /\
    player_positions (tracker u') =
      if decide (player_positions t !! id = Some pos) then delete id (player_positions t) else player_positions t.
Proof.
  intros u Hu. unfold remove_player. fold u. case_bool_decide as Hid; cbn [negb].
  - destruct (remove_from_center_ok (E := E) u pos id Hu Hid) as (u1 & -> & H1 & H2 & H3). cbn [obind].
    eexists. split; [done|]. split; [done|]. split; [by apply moved_forget|].
    cbn [forget_position on_tracker tracker with_positions player_positions]. by rewrite H3, decide_True.
  - exists u. split; [done|]. split; [done|]. split; [by apply moved_refl, Hu|]. by rewrite decide_False.
Qed.

(** ** Distances *)

Section Rings.
Context {E : Type} (X : gset ChunkPos) (old new : Z).
Context (Hold : small old) (Hnew : small new) (Hne : old <> new) (HX : forall c, c ∈ X -> is_chunk c).

(** Viewer counts when the centers [D] have moved to the new distance. *)
Definition mixed (D : gset ChunkPos) (q : ChunkPos) : Z := viewers (X ∖ D) old q + viewers D new q.

Lemma mixed_bound D q : D ⊆ X -> 0 <= mixed D q < usize_max.
Proof.
  intros HD. unfold mixed, usize_max.
  pose proof (viewers_bound (X ∖ D) old q Hold ltac:(set_solver)). pose proof (viewers_bound D new q Hnew ltac:(set_solver)). lia.
Qed.

Lemma mixed_step D c q : c ∈ X -> c ∉ D ->
  mixed ({[ c ]} ∪ D) q = mixed D q + (if decide (chunk_distance q c <= new) then 1 else 0) -
    (if decide (chunk_distance q c <= old) then 1 else 0).
Proof.
  intros Hc HD. unfold mixed. replace (X ∖ ({[ c ]} ∪ D)) with ((X ∖ D) ∖ {[ c ]}) by set_solver.
  rewrite viewers_remove by set_solver. rewrite viewers_add by done. lia.
Qed.

Lemma cover_ring_ok u D c :
  storage_ok (storage u) -> covered u (mixed D) -> D ⊆ X -> c ∈ X -> c ∉ D ->
  exists u', cover_ring (E := E) old new u c = Ok u' /\ stepped (eq PLAYER_LOADING) u u' /\ same_players u u' /\
    covered u' (mixed ({[ c ]} ∪ D)).
Proof.
  intros Hok Hc HD Hcx Hcd. unfold cover_ring, for_each_square_ring. pose proof (fun q => mixed_bound D q HD) as Hb.
  destruct (Z.ltb_spec old new) as [Hlt|Hge].
  - destruct (visit_coverage (E := E) increment_loading_coverage 1 (fun m => m < usize_max) increment_step
      ltac:(cbv beta; intros; lia) (ring_positions c old new) u (mixed D) Hok Hc (ring_nodup c old new Hnew))
      as (u' & V1 & V2 & V3 & V4).
    + intros q Hq%ring_elem; [|done]. apply Hq.
    + intros q _. apply Hb.
    + intros q _. apply Hb.
    + exists u'. split; [done|]. split; [done|]. split; [done|]. eapply covered_ext; [|exact V4]. intros q Hq. cbv beta.
      rewrite mixed_step by done. pose proof (ring_elem c old new q Hnew).
      destruct (decide (q ∈ ring_positions c old new)), (decide (chunk_distance q c <= new)), (decide (chunk_distance q c <= old));
        lia || naive_solver lia.
  - rewrite (proj2 (Z.ltb_lt new old)) by lia.
    destruct (visit_coverage (E := E) decrement_loading_coverage (-1) (fun m => 1 <= m) decrement_step
      ltac:(cbv beta; intros; lia) (ring_positions c new old) u (mixed D) Hok Hc (ring_nodup c new old Hold))
      as (u' & V1 & V2 & V3 & V4).
    + intros q Hq%ring_elem; [|done]. apply Hq.
    + intros q _. apply Hb.
    + intros q Hq%ring_elem; [|done]. unfold mixed. pose proof (viewers_bound (X ∖ D) old q Hold ltac:(set_solver)).
      pose proof (viewers_bound D new q Hnew ltac:(set_solver)).
      assert (viewers (X ∖ D) old q <> 0) by (apply viewers_pos; exists c; split; [set_solver|lia]). lia.
    + exists u'. split; [done|]. split; [done|]. split; [done|]. eapply covered_ext; [|exact V4]. intros q Hq. cbv beta.
      rewrite mixed_step by done. pose proof (ring_elem c new old q Hold).
      destruct (decide (q ∈ ring_positions c new old)), (decide (chunk_distance q c <= new)), (decide (chunk_distance q c <= old));
        lia || naive_solver lia.
Qed.

Lemma visit_rings cs u D :
  storage_ok (storage u) -> covered u (mixed D) -> D ⊆ X -> NoDup cs -> (forall c, c ∈ cs -> c ∈ X /\ c ∉ D) ->
  exists u', visit (cover_ring (E := E) old new) u cs = Ok u' /\ stepped (eq PLAYER_LOADING) u u' /\ same_players u u' /\
    covered u' (mixed (list_to_set cs ∪ D)).
Proof.
  intros Hok Hc HD Hn. revert u D Hok Hc HD. induction Hn as [|c cs Hcs Hn IH]; intros u D Hok Hc HD Hin; cbn [visit].
  - exists u. split; [done|]. split; [by apply stepped_refl|]. split; [apply same_players_refl|].
    by replace (list_to_set [] ∪ D) with D by set_solver.
  - destruct (Hin c ltac:(by left)) as [Hcx Hcd].
    destruct (cover_ring_ok u D c Hok Hc HD Hcx Hcd) as (u1 & -> & S1 & P1 & C1). cbn [obind].
    destruct (IH u1 ({[ c ]} ∪ D) (st_ok _ _ _ S1) C1 ltac:(set_solver)) as (u2 & H2 & S2 & P2 & C2).
    + intros c' Hc'. destruct (Hin c' ltac:(by right)) as [? ?]. split; [done|].
      intros [->%elem_of_singleton|?]%elem_of_union; done.
    + exists u2. split; [done|]. split; [by eapply stepped_trans|]. split; [by eapply same_players_trans|].
      by replace (list_to_set (c :: cs) ∪ D) with (list_to_set cs ∪ ({[ c ]} ∪ D)) by set_solver.
Qed.
End Rings.

Lemma occupied_elem order t p : p ∈ occupied_positions order t <-> p ∈ dom (players_by_pos t).
Proof. unfold occupied_positions. by rewrite entries_keys, elem_of_dom. Qed.

Lemma set_view_distance_ok {E} order t s d :
  let u := mk_update t s no_changes in
  players_ok u -> small d ->
  exists u', set_view_distance (E := E) order t s d = Ok u' /\ players_ok u' /\ stepped player_type u u' /\
    view_distance (tracker u') = d /\ simulation_distance (tracker u') = simulation_distance t /\
    player_positions (tracker u') = player_positions t.
Proof.
  intros u Hu Hd. unfold set_view_distance. fold u. destruct (Z.eqb_spec (view_distance t) d) as [He|Hne].
  { exists u. split; [done|]. split; [done|]. split; [by apply stepped_refl, Hu|]. done. }
  assert (Hcov : covered u (mixed (centers u) (view_distance t) d ∅)).
  { eapply covered_ext; [|apply (p_covered u Hu)]. intros q _. unfold mixed, viewers at 3.
    replace (viewing ∅ d q) with (∅ : gset ChunkPos) by (unfold viewing; set_solver).
    rewrite size_empty. replace (centers u ∖ ∅) with (centers u) by set_solver. cbn [u tracker]. lia. }
  destruct (visit_rings (E := E) (centers u) (view_distance t) d (p_view u Hu) Hd Hne (fun c => center_is_chunk u c Hu)
    (occupied_positions order t) u ∅ (p_storage u Hu) Hcov ltac:(set_solver) (entries_nodup order _)) as (u1 & -> & S1 & [m P1] & C1).
  - intros c Hc%occupied_elem. split; [done|set_solver].
  - cbn [obind]. eexists. split; [done|]. set (u2 := on_tracker _ u1).
    assert (Ec : centers u2 = centers u) by (unfold centers; cbn; by rewrite P1).
    split; [|split; [|cbn; by rewrite P1]].
    + constructor; rewrite ?Ec; cbn [u2 on_tracker tracker storage with_distances]; rewrite ?P1;
        cbn [u tracker with_coverage view_distance simulation_distance player_positions players_by_pos].
      * apply S1.
      * done.
      * apply (p_simulation u Hu).
      * apply (p_sync u Hu).
      * apply (p_centers u Hu).
      * apply (covered_ext _ (mixed (centers u) (view_distance t) d (list_to_set (occupied_positions order t) ∪ ∅)));
          [|by apply covered_tracker].
        intros q _. unfold mixed.
        replace (list_to_set (occupied_positions order t) ∪ ∅) with (centers u)
          by (apply set_eq; intros c; rewrite elem_of_union, elem_of_list_to_set, occupied_elem; set_solver).
        unfold viewers at 1. replace (viewing (centers u ∖ centers u) (view_distance t) q) with (∅ : gset ChunkPos)
          by (unfold viewing; set_solver). by rewrite size_empty.
      * eapply (simulated_ext u1); [eapply simulated_stepped; [apply (p_simulated u Hu)|exact S1|apply loading_not_simulation]|done| |done].
        unfold simulation_id. cbn [u2 on_tracker tracker with_distances simulation_distance]. by rewrite P1.
    + apply stepped_tracker_r. eapply stepped_weaken; [|exact S1]. intros ? <-. by left.
Qed.

Lemma visit_replace {E} old_ticket new_ticket ps u (P : ChunkPos -> Prop) :
  ticket_type old_ticket = PLAYER_SIMULATION -> ticket_type new_ticket = PLAYER_SIMULATION ->
  0 <= ticket_level new_ticket <= MAX_LEVEL_RAW ->
  storage_ok (storage u) -> NoDup ps -> (forall p, p ∈ ps -> is_chunk p /\ ~ P p) ->
  (forall p k, k.1 = PLAYER_SIMULATION -> is_Some (held (storage u) p k) <->
     (P p /\ k = identity new_ticket) \/ (p ∈ ps /\ k = identity old_ticket)) ->
  exists u', visit (replace_simulation (E := E) old_ticket new_ticket) u ps = Ok u' /\ tracker u' = tracker u /\
    stepped (eq PLAYER_SIMULATION) u u' /\ simulated u' (identity new_ticket) (fun p => P p \/ p ∈ ps).
Proof.
  intros To Tn Hl Hok Hnd. revert u P Hok. induction Hnd as [|p ps Hp Hn IH]; intros u P Hok Hps Hh; cbn [visit].
  - exists u. split; [done|]. split; [done|]. split; [by apply stepped_refl|]. intros p k Hk. rewrite (Hh p k Hk). set_solver.
  - destruct (Hps p ltac:(by left)) as [Hch HnP]. unfold replace_simulation at 1.
    destruct (merge_remove_ok u p old_ticket Hok) as (R1 & R2 & R3). rewrite To in R2.
    destruct (merge_add_ok (E := E) (merge_remove u p old_ticket) p new_ticket (st_ok _ _ _ R2) Hch Hl ltac:(by rewrite Tn))
      as (u1 & -> & A1 & A2 & A3). rewrite Tn in A2. cbn [obind].
    destruct (IH u1 (fun q => P q \/ q = p)) as (u2 & H2 & T2 & S2 & M2).
    + apply A2.
    + intros q Hq. destruct (Hps q ltac:(by right)) as [? ?]. split; [done|]. intros [?| ->]; done.
    + intros q k Hk. rewrite A3, R3, (Hh q k Hk), elem_of_cons. destruct (decide (q = p)) as [->|Hqp]; naive_solver.
    + exists u2. split; [done|]. split; [congruence|]. split; [eapply stepped_trans; [exact R2|]; by eapply stepped_trans|].
      intros q k Hk. rewrite (M2 q k Hk), elem_of_cons. naive_solver.
Qed.

Lemma set_simulation_distance_ok {E} order t s d :
  let u := mk_update t s no_changes in
  players_ok u -> small d ->
  exists u', set_simulation_distance (E := E) order t s d = Ok u' /\ players_ok u' /\ stepped player_type u u' /\
    view_distance (tracker u') = view_distance t /\ simulation_distance (tracker u') = d /\
    player_positions (tracker u') = player_positions t.
Proof.
  intros u Hu Hd. unfold set_simulation_distance. fold u. destruct (Z.eqb_spec (simulation_distance t) d) as [He|Hne].
  { exists u. split; [done|]. split; [done|]. split; [by apply stepped_refl, Hu|]. done. }
  destruct (visit_replace (E := E) (player_simulation_ticket (simulation_distance t)) (player_simulation_ticket d)
    (occupied_positions order t) u (fun _ => False) eq_refl eq_refl (simulation_ticket_typed d Hd) (p_storage u Hu)
    (entries_nodup order _)) as (u1 & -> & T1 & S1 & M1).
  - intros p Hp%occupied_elem. split; [by apply (center_is_chunk u)|tauto].
  - intros p k Hk. rewrite (p_simulated u Hu p k Hk), occupied_elem. cbn [u tracker]. unfold simulation_id, centers. cbn. tauto.
  - cbn [obind]. eexists. split; [done|]. set (u2 := on_tracker _ u1).
    assert (Ec : centers u2 = centers u) by (unfold centers; cbn; by rewrite T1).
    split; [|split; [|cbn; by rewrite T1]].
    + constructor; rewrite ?Ec; cbn [u2 on_tracker tracker storage with_distances]; rewrite ?T1;
        cbn [u tracker view_distance simulation_distance player_positions players_by_pos].
      * apply S1.
      * apply (p_view u Hu).
      * done.
      * apply (p_sync u Hu).
      * apply (p_centers u Hu).
      * apply covered_tracker; [|done]. eapply covered_stepped; [apply (p_covered u Hu)|exact S1| |by rewrite T1].
        intros H. by apply loading_not_simulation.
      * eapply (simulated_ext u1); [exact M1|done| |].
        -- unfold simulation_id. cbn [u2 on_tracker tracker with_distances simulation_distance]. done.
        -- intros p. cbv beta. pose proof (occupied_elem order t p). unfold centers. cbn [u tracker]. tauto.
    + apply stepped_tracker_r. eapply stepped_weaken; [|exact S1]. intros ? <-. by right.
Qed.

(** ** Reachable trackers *)

(** Storage operations that are not the tracker's: other tickets, expiry. *)
Inductive other_step (s s' : ChunkTicketStorage) : Prop :=
| other_add p t c : is_chunk p -> 0 <= ticket_level t <= MAX_LEVEL_RAW -> ~ player_type (ticket_type t) ->
    add_ticket (E := Empty_set) s p t = Ok (c, s') -> other_step s s'
| other_remove p t c : ~ player_type (ticket_type t) -> remove_ticket s p t = (c, s') -> other_step s s'
| other_tick exps c : tick_timed_tickets s exps = (c, s') -> other_step s s'.

Definition player_tickets_kept (s s' : ChunkTicketStorage) : Prop :=
  forall p k, player_type k.1 -> is_Some (held s' p k) <-> is_Some (held s p k).

Lemma player_type_untimed t : player_type t -> has_timeout (deref t) = false.
Proof. by intros [->| ->]. Qed.

Lemma tick_loop_untimed exps c s p k :
  storage_ok s -> has_timeout (deref k.1) = false -> held (tick_loop c s exps).2 p k = held s p k.
Proof.
  revert c s. induction exps as [|e exps IH]; intros c s Hok Ht; [done|].
  destruct (tick_step c s e exps Hok) as (c1 & s1 & -> & Hok1 & _ & _ & Hu). rewrite IH by done.
  rewrite (u_held _ _ _ _ _ _ Hu p k). case_decide as E; [|done]. destruct E as [-> ->].
  destruct (held s _ _) as [st|] eqn:Eh; [|done]. cbn. rewrite decide_False; [done|]. intros [_ Hg].
  pose proof (ok_timed s Hok _ _ _ Eh) as Htm. rewrite Ht in Htm. congruence.
Qed.

Lemma updated_keeps s s' p k o n : updated s s' p k o n -> ~ player_type k.1 -> player_tickets_kept s s'.
Proof.
  intros Hu Hk q k' Hk'. rewrite (u_held _ _ _ _ _ _ Hu), decide_False; [done|]. intros [_ ->]. done.
Qed.

Lemma other_step_ok s s' : storage_ok s -> other_step s s' -> storage_ok s' /\ player_tickets_kept s s'.
Proof.
  intros Hok [p t c Hp Hl Ht Ha|p t c Ht Hr|exps c Ht].
  - pose proof (allocation_room _ _ _ _ Hok Ha) as Hroom.
    destruct (add_ticket_ok s p t Hok Hp Hl Hroom (E := Empty_set)) as (gen & s1 & H1 & Hok1 & Hf & Hu).
    rewrite H1 in Ha. injection Ha as _ <-. split; [done|]. by apply (updated_keeps _ _ _ _ _ _ Hu).
  - destruct (remove_ticket_ok s p t Hok) as (s1 & H1 & Hok1 & Hu). rewrite H1 in Hr. injection Hr as _ <-.
    split; [done|]. by apply (updated_keeps _ _ _ _ _ _ Hu).
  - destruct (tick_loop_ok exps no_changes s Hok) as (c1 & s1 & H1 & Hok1 & _).
    pose proof (fun p k => tick_loop_untimed exps no_changes s p k Hok) as Hk.
    unfold tick_timed_tickets in Ht. rewrite Ht in H1, Hk. injection H1 as _ <-. split; [done|].
    cbn [snd] in Hk. intros p k Hp. by rewrite (Hk p k (player_type_untimed _ Hp)).
Qed.

Definition no_player_tickets (s : ChunkTicketStorage) : Prop := forall p k, player_type k.1 -> held s p k = None.

Lemma players_new_ok s view simulation c :
  storage_ok s -> no_player_tickets s -> small view -> small simulation ->
  players_ok (mk_update (players_new view simulation) s c).
Proof.
  intros Hok Hno Hv Hs. assert (Ec : centers (mk_update (players_new view simulation) s c) = ∅) by (unfold centers; cbn; apply dom_empty_L).
  constructor; rewrite ?Ec; cbn [tracker storage players_new view_distance simulation_distance player_positions players_by_pos]; try done.
  - intros id p. rewrite lookup_empty. setoid_rewrite lookup_empty. naive_solver.
  - constructor; cbn [tracker storage players_new loading_coverage].
    + intros p _. unfold viewers. replace (viewing ∅ view p) with (∅ : gset ChunkPos) by (unfold viewing; set_solver).
      by rewrite size_empty, lookup_empty.
    + intros p. rewrite lookup_empty. by intros [].
    + intros p k _ Hk. rewrite Hno by by left. unfold viewers.
      replace (viewing ∅ view p) with (∅ : gset ChunkPos) by (unfold viewing; set_solver). rewrite size_empty.
      split; [by intros []|]. intros [_ ?]. done.
  - intros p k Hk. cbn [storage]. rewrite Hno by by right. split; [by intros []|]. set_solver.
Qed.

Lemma players_ok_other u s' c : players_ok u -> storage_ok s' -> player_tickets_kept (storage u) s' ->
  players_ok (mk_update (tracker u) s' c).
Proof.
  intros [H1 H2 H3 H4 H5 [A B C] H7] Hs Hk. constructor; [done|done|done|done|done| |].
  - constructor; [exact A|exact B|]. intros p k Hp Hl. rewrite (Hk p k ltac:(by left)). by apply C.
  - intros p k Hl. cbn [storage]. rewrite (Hk p k ltac:(by right)). by apply H7.
Qed.

(** The so-far field is only the changes of the last operation. *)
Lemma players_ok_restart u : players_ok u -> players_ok (mk_update (tracker u) (storage u) no_changes).
Proof. intros Hu. by apply (players_ok_other u (storage u)); [|apply Hu|]. Qed.

Inductive players_reachable : PlayerTicketTracker -> ChunkTicketStorage -> Prop :=
| players_start view simulation s : storage_reachable s -> no_player_tickets s -> small view -> small simulation ->
    players_reachable (players_new view simulation) s
| players_add t s pos id u : players_reachable t s -> is_chunk pos ->
    add_player (E := Empty_set) t s pos id = Ok u -> players_reachable (tracker u) (storage u)
| players_remove t s pos id u : players_reachable t s ->
    remove_player (E := Empty_set) t s pos id = Ok u -> players_reachable (tracker u) (storage u)
| players_view order t s d u : players_reachable t s -> small d ->
    set_view_distance (E := Empty_set) order t s d = Ok u -> players_reachable (tracker u) (storage u)
| players_simulation order t s d u : players_reachable t s -> small d ->
    set_simulation_distance (E := Empty_set) order t s d = Ok u -> players_reachable (tracker u) (storage u)
| players_other t s s' : players_reachable t s -> other_step s s' -> players_reachable t s'.

Lemma players_reachable_ok t s : players_reachable t s -> players_ok (mk_update t s no_changes).
Proof.
  induction 1 as [view sim s Hs%storage_reachable_ok Hn Hv Hd|t s pos id u _ IH Hp Ha|t s pos id u _ IH Hr
    |order t s d u _ IH Hd Hv|order t s d u _ IH Hd Hv|t s s' _ IH Ho].
  - by apply players_new_ok.
  - destruct (add_player_ok (E := Empty_set) t s pos id IH Hp) as (u' & E & Hu & _). rewrite Ha in E. injection E as <-.
    by apply players_ok_restart.
  - destruct (remove_player_ok (E := Empty_set) t s pos id IH) as (u' & E & Hu & _). rewrite Hr in E. injection E as <-.
    by apply players_ok_restart.
  - destruct (set_view_distance_ok (E := Empty_set) order t s d IH Hd) as (u' & E & Hu & _). rewrite Hv in E. injection E as <-.
    by apply players_ok_restart.
  - destruct (set_simulation_distance_ok (E := Empty_set) order t s d IH Hd) as (u' & E & Hu & _). rewrite Hv in E. injection E as <-.
    by apply players_ok_restart.
  - destruct (other_step_ok s s' (p_storage _ IH) Ho) as [Hok Hk]. by apply (players_ok_other (mk_update t s no_changes)).
Qed.

Lemma centers_players u p : players_ok u -> p ∈ centers u <-> exists id, player_positions (tracker u) !! id = Some p.
Proof.
  intros Hu. setoid_rewrite (p_sync u Hu). rewrite center_elem. split.
  - intros [X HX]. destruct (p_centers u Hu p X HX) as [Hne _]. apply set_choose_L in Hne as [id Hid]. eauto.
  - intros (id & X & HX & _). eauto.
Qed.

(** Every player in view of whose chunk [p] is. *)
Definition in_view (t : PlayerTicketTracker) (p : ChunkPos) : Prop :=
  exists id c, player_positions t !! id = Some c /\ chunk_distance p c <= view_distance t.

Lemma loading_held u p k :
  players_ok u -> is_chunk p -> k.1 = PLAYER_LOADING ->
  is_Some (held (storage u) p k) <-> k = loading_id /\ in_view (tracker u) p.
Proof.
  intros Hu Hp Hk. rewrite (cov_held _ _ (p_covered u Hu) p k Hp Hk), viewers_pos.
  setoid_rewrite (centers_players u _ Hu). unfold in_view. naive_solver.
Qed.

Lemma simulation_held u p k :
  players_ok u -> k.1 = PLAYER_SIMULATION ->
  is_Some (held (storage u) p k) <-> k = simulation_id u /\ exists id, player_positions (tracker u) !! id = Some p.
Proof. intros Hu Hk. by rewrite (p_simulated u Hu p k Hk), (centers_players u p Hu). Qed.

Lemma stepped_reported K t s u' : stepped K (mk_update t s no_changes) u' -> reported s (storage u') (so_far u').
Proof. intros [_ _ _ (c & -> & H)]. exact H. Qed.

(** C20: Player tickets are exactly where they are due, always.  After any
    history of players joining, moving and leaving, of view and simulation
    distance changes, and of other tickets coming, going and expiring, no
    operation panics (the reference counts are never missing, zero or
    exhausted, the two position maps agree), a chunk holds the loading ticket
    precisely when some player is within the view distance of it, and the
    simulation ticket of the current distance precisely when some player is
    in it; every position whose source level an operation changes is
    reported. *)
Theorem player_tickets_exact t s :
  players_reachable t s ->
  (forall pos id, is_chunk pos -> exists u, add_player (E := Empty_set) t s pos id = Ok u /\
     players_reachable (tracker u) (storage u) /\ reported s (storage u) (so_far u) /\
     player_positions (tracker u) = <[id := pos]> (player_positions t)) /\
  (forall pos id, exists u, remove_player (E := Empty_set) t s pos id = Ok u /\
     players_reachable (tracker u) (storage u) /\ reported s (storage u) (so_far u) /\
     player_positions (tracker u) =
       if decide (player_positions t !! id = Some pos) then delete id (player_positions t) else player_positions t) /\
  (forall order d, small d -> exists u, set_view_distance (E := Empty_set) order t s d = Ok u /\
     players_reachable (tracker u) (storage u) /\ reported s (storage u) (so_far u) /\
     player_positions (tracker u) = player_positions t /\ view_distance (tracker u) = d /\
     simulation_distance (tracker u) = simulation_distance t) /\
  (forall order d, small d -> exists u, set_simulation_distance (E := Empty_set) order t s d = Ok u /\
     players_reachable (tracker u) (storage u) /\ reported s (storage u) (so_far u) /\
     player_positions (tracker u) = player_positions t /\ simulation_distance (tracker u) = d /\
     view_distance (tracker u) = view_distance t) /\
  (forall p k, is_chunk p -> k.1 = PLAYER_LOADING ->
     is_Some (held s p k) <-> k = identity player_loading_ticket /\ in_view t p) /\
  (forall p k, k.1 = PLAYER_SIMULATION ->
     is_Some (held s p k) <-> k = identity (player_simulation_ticket (simulation_distance t)) /\
       exists id, player_positions t !! id = Some p).
Proof.
  intros Hr. pose proof (players_reachable_ok t s Hr) as Hu. split; [|split; [|split; [|split; [|split]]]].
  - intros pos id Hp. destruct (add_player_ok (E := Empty_set) t s pos id Hu Hp) as (u & E & _ & [Hm _ _] & Hpos).
    exists u. split; [done|]. split; [by eapply players_add|]. split; [by eapply stepped_reported|done].
  - intros pos id. destruct (remove_player_ok (E := Empty_set) t s pos id Hu) as (u & E & _ & [Hm _ _] & Hpos).
    exists u. split; [done|]. split; [by eapply players_remove|]. split; [by eapply stepped_reported|done].
  - intros order d Hd. destruct (set_view_distance_ok (E := Empty_set) order t s d Hu Hd) as (u & E & _ & Hm & H1 & H2 & H3).
    exists u. split; [done|]. split; [by eapply players_view|]. split; [by eapply stepped_reported|done].
  - intros order d Hd. destruct (set_simulation_distance_ok (E := Empty_set) order t s d Hu Hd) as (u & E & _ & Hm & H1 & H2 & H3).
    exists u. split; [done|]. split; [by eapply players_simulation|]. split; [by eapply stepped_reported|done].
  - intros p k Hp Hk. by apply (loading_held _ p k Hu).
  - intros p k Hk. by apply (simulation_held _ p k Hu).
Qed.

Lemma player_tickets_exact_witness :
  exists u, add_player (E := Empty_set) (players_new 2 5) storage_new (mk_chunk 0 0) 7 = Ok u /\
    is_Some (held (storage u) (mk_chunk 2 (-2)) (identity player_loading_ticket)).
Proof.
  assert (Hr : players_reachable (players_new 2 5) storage_new).
  { apply players_start; [exact storage_new_reachable| |split; lia|split; lia]. intros p k _. unfold held, entries_at.
    cbn [storage_new tickets]. by rewrite lookup_empty. }
  assert (Hc : forall x z, -100 <= x <= 100 -> -100 <= z <= 100 -> is_chunk (mk_chunk x z)).
  { intros x z Hx Hz. split; apply is_s32; cbn [cx cy]; lia. }
  destruct (player_tickets_exact _ _ Hr) as (Hadd & _ & Hview & _).
  destruct (Hadd (mk_chunk 0 0) 7 (Hc 0 0 ltac:(lia) ltac:(lia))) as (u & E & Hu & _ & Hpos).
  exists u. split; [exact E|]. destruct (player_tickets_exact _ _ Hu) as (_ & _ & _ & _ & Hload & _).
  apply (Hload (mk_chunk 2 (-2)) (identity player_loading_ticket) (Hc 2 (-2) ltac:(lia) ltac:(lia)) eq_refl).
  split; [reflexivity|]. exists 7, (mk_chunk 0 0). split; [rewrite Hpos; apply lookup_insert_eq|].
  destruct (add_player_ok (E := Empty_set) (players_new 2 5) storage_new (mk_chunk 0 0) 7) as (u' & E' & _ & [_ Hv _] & _);
    [by apply players_reachable_ok|by apply Hc; lia|]. rewrite E in E'. injection E' as <-. rewrite Hv. vm_compute. congruence.
Defined.
