(* ===== verification/ChunkScheduler.v ===== *)
(** * Chunk scheduling

    Models [steel-core/src/chunk/chunk_scheduler.rs]: the ticket operations
    gameplay submits, their receipts and the positions they dirty
    ([TicketOperationIngress]), and the coordinator that projects the dirty
    positions onto the two propagation trackers and runs them
    ([ChunkSchedulingCoordinator]).

    [run_all_updates] holds the trackers' lock throughout but the ingress
    lock only while it takes the projections, so submissions of other threads
    can fall between its two halves: a coordinator has a batch in flight
    between [begin_updates] and [finish_updates], and the steps interleave. *)

From Stdlib Require Import Lia ZArith String.
From stdpp Require Import prelude list gmap sorting.
From S2P Require Import Prelude Collections Position ChunkPyramid TicketLevel ChunkTracker KeyedList Identifier Registry TicketType TicketStorage PlayerTickets.

Inductive PlayerTicketOperation :=
| Add (pos : ChunkPos) (player_id : Uuid)
| Remove (pos : ChunkPos) (player_id : Uuid).

(** [ChunkTicketReceipt] *)
Definition INITIAL : Z := 0.
Definition receipt_next {E} (receipt : Z) : outcome E Z := if receipt =? u64_max then Panic else Ok (receipt + 1).

Record ChunkSchedulingUpdateBatch := mk_batch {
  through_receipt : Z;
  load_changes : list ChunkLevelChange;
  simulation_changes : list ChunkLevelChange
}.

Record SourceProjectionBatch := mk_projections {
  projected_receipt : Z;
  load_updates : list SourceLevelUpdate;
  simulation_updates : list SourceLevelUpdate
}.

(** ** [TicketOperationIngress] *)

Record TicketOperationIngress := mk_ingress {
  ticket_storage : ChunkTicketStorage;
  player_tickets : PlayerTicketTracker;
  chunk_request_leases : gmap (ChunkPos * Z) Z;
  latest_receipt : Z;
  dirty_load_positions : gset ChunkPos;
  dirty_simulation_positions : gset ChunkPos
}.

Definition ingress_new (s : ChunkTicketStorage) (view_distance simulation_distance : Z) : TicketOperationIngress :=
  mk_ingress s (players_new view_distance simulation_distance) ∅ INITIAL ∅ ∅.

Definition with_storage (s : ChunkTicketStorage) (i : TicketOperationIngress) : TicketOperationIngress :=
  mk_ingress s (player_tickets i) (chunk_request_leases i) (latest_receipt i) (dirty_load_positions i)
    (dirty_simulation_positions i).
Definition with_player_tickets (t : PlayerTicketTracker) (i : TicketOperationIngress) : TicketOperationIngress :=
  mk_ingress (ticket_storage i) t (chunk_request_leases i) (latest_receipt i) (dirty_load_positions i)
    (dirty_simulation_positions i).
Definition with_leases (m : gmap (ChunkPos * Z) Z) (i : TicketOperationIngress) : TicketOperationIngress :=
  mk_ingress (ticket_storage i) (player_tickets i) m (latest_receipt i) (dirty_load_positions i)
    (dirty_simulation_positions i).

Definition record_changes (c : SourceProjectionChanges) (i : TicketOperationIngress) : TicketOperationIngress :=
  mk_ingress (ticket_storage i) (player_tickets i) (chunk_request_leases i) (latest_receipt i)
    (dirty_load_positions i ∪ list_to_set (load_positions c))
    (dirty_simulation_positions i ∪ list_to_set (simulation_positions c)).

Definition allocate_receipt {E} (i : TicketOperationIngress) : outcome E (Z * TicketOperationIngress) :=
  let? r := receipt_next (latest_receipt i) in
  Ok (r, mk_ingress (ticket_storage i) (player_tickets i) (chunk_request_leases i) r (dirty_load_positions i)
           (dirty_simulation_positions i)).

(** Store the result of an operation of the player tracker and record its
    changes. *)
Definition put_update (u : update) (i : TicketOperationIngress) : TicketOperationIngress :=
  record_changes (so_far u) (with_player_tickets (tracker u) (with_storage (storage u) i)).

(** [apply_player_operation], then [record_changes] *)
Definition apply_player_operation {E} (i : TicketOperationIngress) (operation : PlayerTicketOperation) :
    outcome E TicketOperationIngress :=
  let? u :=
    match operation with
    | Add pos player_id => add_player (player_tickets i) (ticket_storage i) pos player_id
    | Remove pos player_id => remove_player (player_tickets i) (ticket_storage i) pos player_id
    end in
  Ok (put_update u i).

Definition push_player {E} (i : TicketOperationIngress) (operation : PlayerTicketOperation) :
    outcome E (Z * TicketOperationIngress) :=
  let? i := apply_player_operation i operation in allocate_receipt i.

(** The [for] loop of a batch. *)
Fixpoint each {E A} (f : TicketOperationIngress -> A -> outcome E TicketOperationIngress) (i : TicketOperationIngress)
    (l : list A) : outcome E TicketOperationIngress :=
  match l with
  | [] => Ok i
  | x :: l => let? i := f i x in each f i l
  end.

(** A batch that is empty has no receipt. *)
Definition receipted {E A} (f : TicketOperationIngress -> A -> outcome E TicketOperationIngress) (i : TicketOperationIngress)
    (l : list A) : outcome E (option Z * TicketOperationIngress) :=
  match l with
  | [] => Ok (None, i)
  | _ => let? i := each f i l in let? '(r, i) := allocate_receipt i in Ok (Some r, i)
  end.

Definition push_player_batch {E} (i : TicketOperationIngress) (operations : list PlayerTicketOperation) :=
  receipted (E := E) apply_player_operation i operations.

(** The loop bodies of the two lease operations. *)
Definition acquire_lease {E} (ticket_level : Z) (i : TicketOperationIngress) (pos : ChunkPos) :
    outcome E TicketOperationIngress :=
  let lease_count := default 0 (chunk_request_leases i !! (pos, ticket_level)) in
  if lease_count =? usize_max then Panic
  else
    let i := with_leases (<[(pos, ticket_level) := lease_count + 1]> (chunk_request_leases i)) i in
    if lease_count =? 0 then
      let? '(c, s) := add_ticket (ticket_storage i) pos (ticket_new CHUNK_REQUEST ticket_level) in
      Ok (record_changes c (with_storage s i))
    else Ok i.

Definition release_lease {E} (ticket_level : Z) (i : TicketOperationIngress) (pos : ChunkPos) :
    outcome E TicketOperationIngress :=
  match chunk_request_leases i !! (pos, ticket_level) with
  | None => Panic
  | Some lease_count =>
      if lease_count =? 1 then
        let i := with_leases (delete (pos, ticket_level) (chunk_request_leases i)) i in
        let '(c, s) := remove_ticket (ticket_storage i) pos (ticket_new CHUNK_REQUEST ticket_level) in
        Ok (record_changes c (with_storage s i))
      else Ok (with_leases (<[(pos, ticket_level) := lease_count - 1]> (chunk_request_leases i)) i)
  end.

Definition acquire_chunk_request_leases {E} (i : TicketOperationIngress) (positions : list ChunkPos) (ticket_level : Z) :=
  receipted (E := E) (acquire_lease ticket_level) i positions.
Definition release_chunk_request_leases {E} (i : TicketOperationIngress) (positions : list ChunkPos) (ticket_level : Z) :=
  receipted (E := E) (release_lease ticket_level) i positions.

Definition take_sorted_positions (positions : gset ChunkPos) : list ChunkPos := sort_by pos_cmp (elements positions).

Definition take_source_projections {E} (order : hash_iter) (i : TicketOperationIngress)
    (view_distance simulation_distance : Z) : outcome E (SourceProjectionBatch * TicketOperationIngress) :=
  let? u := set_view_distance order (player_tickets i) (ticket_storage i) view_distance in
  let i := put_update u i in
  let? u := set_simulation_distance order (player_tickets i) (ticket_storage i) simulation_distance in
  let i := put_update u i in
  let load_positions := take_sorted_positions (dirty_load_positions i) in
  let simulation_positions := take_sorted_positions (dirty_simulation_positions i) in
  let i := mk_ingress (ticket_storage i) (player_tickets i) (chunk_request_leases i) (latest_receipt i) ∅ ∅ in
  Ok (mk_projections (latest_receipt i) (load_source_update (ticket_storage i) <$> load_positions)
        (simulation_source_update (ticket_storage i) <$> simulation_positions), i).

(** ** [ChunkSchedulingCoordinator] *)

(** [LoadTicketManager] and [SimulationTicketManager] are the trackers with
    these limits. *)
Definition LOAD_LIMIT : Z := MAX_LEVEL_RAW.
Definition SIMULATION_LIMIT : Z := BLOCK_TICKING_CHUNK.

Record ChunkSchedulingCoordinator := mk_coordinator {
  ticket_ingress : TicketOperationIngress;
  load : ChunkTracker;
  simulation : ChunkTracker;
  committed_receipt : Z;
  in_flight : option SourceProjectionBatch
}.

Definition with_ingress (i : TicketOperationIngress) (c : ChunkSchedulingCoordinator) : ChunkSchedulingCoordinator :=
  mk_coordinator i (load c) (simulation c) (committed_receipt c) (in_flight c).

Definition coordinator_new (order : hash_iter) (s : ChunkTicketStorage) (view_distance simulation_distance : Z) :
    run ChunkSchedulingCoordinator :=
  let? load := tracker_new LOAD_LIMIT in
  let? load := apply_source_updates LOAD_LIMIT load (initial_load_sources order s) in
  let? simulation := tracker_new SIMULATION_LIMIT in
  let? simulation := apply_source_updates SIMULATION_LIMIT simulation (initial_simulation_sources order s) in
  Ok (mk_coordinator (ingress_new s view_distance simulation_distance) load simulation INITIAL None).

(** First half of [run_all_updates]: both locks held. *)
Definition begin_updates (order : hash_iter) (c : ChunkSchedulingCoordinator) (view_distance simulation_distance : Z) :
    run ChunkSchedulingCoordinator :=
  let? '(projections, i) := take_source_projections order (ticket_ingress c) view_distance simulation_distance in
  Ok (mk_coordinator i (load c) (simulation c) (committed_receipt c) (Some projections)).

(** Apply the updates to one tracker, propagate, take the changes. *)
Definition update_tracker (limit : Z) (fuel : nat) (order : hash_iter) (t : ChunkTracker) (updates : list SourceLevelUpdate) :
    run (list ChunkLevelChange * ChunkTracker) :=
  let? t := apply_source_updates limit t updates in
  let? t := run_all_updates limit fuel order t in
  Ok (take_changes t).

(** Second half: only the trackers' lock held. *)
Definition finish_updates (fuel : nat) (order : hash_iter) (c : ChunkSchedulingCoordinator) (projections : SourceProjectionBatch) :
    run (ChunkSchedulingUpdateBatch * ChunkSchedulingCoordinator) :=
  let? '(simulation_changes, simulation) := update_tracker SIMULATION_LIMIT fuel order (simulation c) (simulation_updates projections) in
  let? '(load_changes, load) := update_tracker LOAD_LIMIT fuel order (load c) (load_updates projections) in
  Ok (mk_batch (projected_receipt projections) load_changes simulation_changes,
      mk_coordinator (ticket_ingress c) load simulation (committed_receipt c) None).

(** [run_all_updates] without interference. *)
Definition coordinator_run_all_updates (fuel : nat) (order : hash_iter) (c : ChunkSchedulingCoordinator)
    (view_distance simulation_distance : Z) : run (ChunkSchedulingUpdateBatch * ChunkSchedulingCoordinator) :=
  let? c := begin_updates order c view_distance simulation_distance in
  match in_flight c with Some projections => finish_updates fuel order c projections | None => Panic end.

(** The single tickets and expiry, through the ingress. *)
Definition add_portal_ticket {E} (i : TicketOperationIngress) (pos : ChunkPos) : outcome E TicketOperationIngress :=
  let? '(c, s) := add_or_refresh_portal_ticket (ticket_storage i) pos in Ok (record_changes c (with_storage s i)).
Definition add_ender_pearl_ticket {E} (i : TicketOperationIngress) (pos : ChunkPos) : outcome E TicketOperationIngress :=
  let? '(c, s) := add_or_refresh_ender_pearl_ticket (ticket_storage i) pos in Ok (record_changes c (with_storage s i)).
Definition tick_tickets (i : TicketOperationIngress) (expirations : list TimedTicketExpiration) : TicketOperationIngress :=
  let '(c, s) := tick_timed_tickets (ticket_storage i) expirations in record_changes c (with_storage s i).

Definition coordinator_simulation_level (c : ChunkSchedulingCoordinator) (pos : ChunkPos) : option Z :=
  get_level (simulation c) pos.

Definition recycle_update_batch (c : ChunkSchedulingCoordinator) (batch : ChunkSchedulingUpdateBatch) :
    run ChunkSchedulingCoordinator :=
  let? load := recycle_changes (load c) (load_changes batch) in
  let? simulation := recycle_changes (simulation c) (simulation_changes batch) in
  Ok (mk_coordinator (ticket_ingress c) load simulation (committed_receipt c) (in_flight c)).

(** [fetch_max] *)
Definition publish_committed (c : ChunkSchedulingCoordinator) (receipt : Z) : ChunkSchedulingCoordinator :=
  mk_coordinator (ticket_ingress c) (load c) (simulation c) (Z.max (committed_receipt c) receipt) (in_flight c).
Definition is_receipt_committed (c : ChunkSchedulingCoordinator) (receipt : Z) : bool := receipt <=? committed_receipt c.

(** ** Trackers *)

(** An update a storage can project: a typed position, or nothing at all. *)
Definition fits (limit : Z) (u : SourceLevelUpdate) : Prop :=
  (is_chunk (source_pos u) \/ source_new u = None) /\ forall l, source_new u = Some l -> 0 <= l <= limit.

#[export] Instance is_chunk_dec p : Decision (is_chunk p).
Proof. unfold is_chunk, is_s. apply _. Defined.

Section Tracker.
Context (limit : Z) (Hlimit : 0 <= limit <= MAX_LEVEL_RAW).

Lemma apply_source_update_changes t u t' : apply_source_update limit t u = Ok t' -> changes t' = changes t.
Proof.
  unfold apply_source_update. destruct (match source_new u with Some l => _ | None => _ end); [|done].
  destruct (_ =? _); by intros [= <-].
Qed.

Lemma apply_fitting t u :
  tracker_ok limit t -> fits limit u ->
  exists t', apply_source_update limit t u = Ok t' /\ tracker_ok limit t' /\ levels t' = levels t /\
    source_levels t' = updated_sources (source_levels t) u /\ changes t' = changes t.
Proof.
  intros Hok [Hc Hl]. destruct (decide (is_chunk (source_pos u))) as [Hch|Hch].
  - destruct (apply_source_update_ok limit Hlimit t u Hok Hch Hl) as (t' & H1 & H2 & H3 & H4). exists t'.
    split_and!; try done. by eapply apply_source_update_changes.
  - destruct Hc as [|Hn]; [done|]. exists t. unfold apply_source_update, updated_sources. rewrite Hn. cbn [default].
    assert (Hs : source_levels t !! source_pos u = None).
    { destruct (source_levels t !! source_pos u) as [l|] eqn:E; [|done]. apply (s_sources _ _ (ok_settling _ _ Hok)) in E as [_ ?]. done. }
    unfold source_level. rewrite Hs. cbn. rewrite Z.eqb_refl. split; [done|]. split; [done|]. split; [done|]. split; [|done].
    symmetry. by apply delete_id.
Qed.

Lemma apply_all_fitting t us :
  tracker_ok limit t -> Forall (fits limit) us ->
  exists t', apply_source_updates limit t us = Ok t' /\ tracker_ok limit t' /\ levels t' = levels t /\
    source_levels t' = foldl updated_sources (source_levels t) us /\ changes t' = changes t.
Proof.
  intros Hok Hf. revert t Hok. induction Hf as [|u us Hu _ IH]; intros t Hok; cbn [apply_source_updates foldl].
  - by exists t.
  - destruct (apply_fitting t u Hok Hu) as (t1 & -> & Hok1 & E1 & E2 & E3). cbn [obind].
    destruct (IH t1 Hok1) as (t' & -> & Hok' & F1 & F2 & F3). exists t'. by rewrite F1, F2, F3, E1, E2, E3.
Qed.

Lemma take_changes_ok t : tracker_ok limit t -> tracker_ok limit (take_changes t).2.
Proof.
  intros [H1 H2 H3 H4 H5]. constructor; [by apply (settling_frame limit t)|done..].
Qed.

(** The changes reported between two trackers. *)
Definition reports (t t' : ChunkTracker) (cs : list ChunkLevelChange) : Prop :=
  NoDup (change_pos <$> cs) /\ StronglySorted (ord_le change_cmp) cs /\
  forall p l, mk_change p l ∈ cs <-> get_level t' p = l /\ get_level t p <> l.

Lemma update_tracker_ok order t us :
  tracker_ok limit t -> Forall (fits limit) us ->
  exists n, forall fuel, (n <= fuel)%nat ->
    exists cs t', update_tracker limit fuel order t us = Ok (cs, t') /\ tracker_ok limit t' /\ changes t' = [] /\
      source_levels t' = foldl updated_sources (source_levels t) us /\
      (forall p, is_chunk p -> get_level t' p = reference_level limit (source_levels t') p) /\ reports t t' cs.
Proof.
  intros Hok Hf. destruct (apply_all_fitting t us Hok Hf) as (t1 & H1 & Hok1 & E1 & E2 & _).
  destruct (run_all_updates_ok limit Hlimit order t1 Hok1) as (n & Hn). exists n. intros fuel Hfuel.
  destruct (Hn fuel Hfuel) as (t2 & H2 & Hok2 & E3 & _ & Hl & Hc). unfold update_tracker. rewrite H1. cbn [obind].
  rewrite H2. cbn [obind]. exists (changes t2), (take_changes t2).2. split; [done|]. split; [by apply take_changes_ok|].
  split; [done|]. cbn [take_changes snd set_changes source_levels]. split; [congruence|]. split.
  - intros p Hp. unfold get_level at 1. cbn [set_changes levels]. rewrite E3. by apply Hl.
  - unfold changes_exact, reports, get_level in *. cbn [take_changes snd set_changes levels]. by rewrite <- E1.
Qed.
End Tracker.

Lemma load_limit_ok : 0 <= LOAD_LIMIT <= MAX_LEVEL_RAW.
Proof. vm_compute. split; congruence. Qed.

Lemma simulation_limit_ok : 0 <= SIMULATION_LIMIT <= MAX_LEVEL_RAW.
Proof. vm_compute. split; congruence. Qed.

(** ** Sources of a storage *)

(** The source levels as maps. *)
Definition load_sources (s : ChunkTicketStorage) : gmap ChunkPos Z :=
  omap (fun entries => min_level (omap (fun stored => loading_level (ticket stored)) entries)) (tickets s).
Definition simulation_sources (s : ChunkTicketStorage) : gmap ChunkPos Z :=
  omap (fun entries => min_level (filter (fun level => level_is_block_ticking level = true)
    (omap (fun stored => simulation_level (ticket stored)) entries))) (tickets s).

Lemma load_sources_lookup s p : load_sources s !! p = load_source_level s p.
Proof. unfold load_sources, load_source_level. rewrite lookup_omap. by destruct (tickets s !! p). Qed.

Lemma simulation_sources_lookup s p : simulation_sources s !! p = simulation_source_level s p.
Proof. unfold simulation_sources, simulation_source_level. rewrite lookup_omap. by destruct (tickets s !! p). Qed.

Lemma load_level_fits s p : storage_ok s -> fits LOAD_LIMIT (load_source_update s p).
Proof.
  intros Hok. unfold fits, load_source_update. cbn [source_pos source_new]. rewrite load_strongest.
  destruct (strongest load_of s p) as [l|] eqn:E; [|split; [by right|done]].
  apply strongest_spec in E as [(k & [st Hst] & Hk) _]. pose proof (ok_typed s Hok _ _ _ Hst) as [Hp Hr].
  split; [by left|]. intros l' [= <-]. unfold load_of in Hk. destruct (does_load _); [|done]. injection Hk as <-. exact Hr.
Qed.

Lemma simulation_level_fits s p : storage_ok s -> fits SIMULATION_LIMIT (simulation_source_update s p).
Proof.
  intros Hok. unfold fits, simulation_source_update. cbn [source_pos source_new]. rewrite simulation_strongest.
  destruct (strongest simulation_of s p) as [l|] eqn:E; [|split; [by right|done]].
  apply strongest_spec in E as [(k & [st Hst] & Hk) _]. pose proof (ok_typed s Hok _ _ _ Hst) as [Hp Hr].
  split; [by left|]. intros l' [= <-]. unfold simulation_of, level_is_block_ticking in Hk.
  destruct (does_simulate _); [|done]. cbn [andb] in Hk. destruct (Z.leb_spec k.2 BLOCK_TICKING_CHUNK); [|done].
  injection Hk as <-. unfold SIMULATION_LIMIT. lia.
Qed.

(** Projecting the positions [ps] of a level function onto sources. *)
Lemma projected_lookup (F : ChunkPos -> option Z) ps m p :
  foldl updated_sources m ((fun p => mk_source p (F p)) <$> ps) !! p = if decide (p ∈ ps) then F p else m !! p.
Proof.
  revert m. induction ps as [|q ps IH]; intros m; [by rewrite decide_False by by apply not_elem_of_nil|].
  rewrite fmap_cons. cbn [foldl]. rewrite IH. destruct (decide (p ∈ ps)) as [Hp|Hp].
  - by rewrite decide_True by by right.
  - unfold updated_sources. cbn [source_pos source_new]. destruct (decide (p = q)) as [->|Hq].
    + rewrite decide_True by by left. destruct (F q); [apply lookup_insert_eq|apply lookup_delete_eq].
    + rewrite decide_False by (rewrite elem_of_cons; tauto). destruct (F q); [by apply lookup_insert_ne|by apply lookup_delete_ne].
Qed.

Lemma sorted_positions_elem X p : p ∈ take_sorted_positions X <-> p ∈ X.
Proof.
  unfold take_sorted_positions. rewrite (elem_of_Permutation_proper _ _ _ (sort_by_perm _ _)). apply elem_of_elements.
Qed.

(** ** The ingress *)

Definition players_of (i : TicketOperationIngress) : update := mk_update (player_tickets i) (ticket_storage i) no_changes.

(** Lease counts are positive, and the lease tickets are those counted. *)
Definition leases_ok (m : gmap (ChunkPos * Z) Z) (s : ChunkTicketStorage) : Prop :=
  (forall p l, is_Some (held s p (CHUNK_REQUEST, l)) <-> is_Some (m !! (p, l))) /\
  forall k n, m !! k = Some n -> 1 <= n.

(** The ingress against the sources [L] and [S] the trackers will have: they
    are those of the storage but at dirty positions. *)
Record ingress_ok (L S : gmap ChunkPos Z) (i : TicketOperationIngress) : Prop := {
  i_players : players_ok (players_of i);
  i_load : forall p, p ∉ dirty_load_positions i -> L !! p = load_source_level (ticket_storage i) p;
  i_simulation : forall p, p ∉ dirty_simulation_positions i -> S !! p = simulation_source_level (ticket_storage i) p;
  i_leases : leases_ok (chunk_request_leases i) (ticket_storage i);
  i_receipt : 0 <= latest_receipt i <= u64_max
}.

(** A new state of the storage and its two owners, with its changes. *)
Definition put (t : PlayerTicketTracker) (s : ChunkTicketStorage) (m : gmap (ChunkPos * Z) Z) (c : SourceProjectionChanges)
    (i : TicketOperationIngress) : TicketOperationIngress :=
  mk_ingress s t m (latest_receipt i) (dirty_load_positions i ∪ list_to_set (load_positions c))
    (dirty_simulation_positions i ∪ list_to_set (simulation_positions c)).

Lemma put_ok L S i t s m c :
  ingress_ok L S i -> players_ok (mk_update t s no_changes) -> reported (ticket_storage i) s c -> leases_ok m s ->
  ingress_ok L S (put t s m c i).
Proof.
  intros [H1 H2 H3 H4 H5] Hu [Hl Hs] Hm. constructor; cbn [put ticket_storage dirty_load_positions dirty_simulation_positions
    chunk_request_leases latest_receipt]; try done.
  - intros p [Hd Hc]%not_elem_of_union. rewrite H2 by done. destruct (decide (load_source_level s p = load_source_level (ticket_storage i) p));
      [done|]. destruct Hc. apply elem_of_list_to_set. by apply Hl.
  - intros p [Hd Hc]%not_elem_of_union. rewrite H3 by done.
    destruct (decide (simulation_source_level s p = simulation_source_level (ticket_storage i) p)); [done|].
    destruct Hc. apply elem_of_list_to_set. by apply Hs.
Qed.

Lemma request_not_player : ~ player_type CHUNK_REQUEST.
Proof. intros [H|H]; by apply (f_equal place) in H. Qed.

Lemma leases_kept m s s' :
  leases_ok m s -> (forall p l, is_Some (held s' p (CHUNK_REQUEST, l)) <-> is_Some (held s p (CHUNK_REQUEST, l))) -> leases_ok m s'.
Proof. intros [H1 H2] H. split; [|done]. intros p l. by rewrite H. Qed.

Lemma put_update_ok L S i u :
  ingress_ok L S i -> players_ok u -> stepped player_type (players_of i) u -> ingress_ok L S (put_update u i).
Proof.
  intros Hi Hu Hs. change (put_update u i) with (put (tracker u) (storage u) (chunk_request_leases i) (so_far u) i).
  apply put_ok; [done|by apply players_ok_restart|by apply (stepped_reported player_type (player_tickets i) (ticket_storage i) u)|].
  apply (leases_kept _ (ticket_storage i)); [apply Hi|]. intros p l. rewrite (st_held _ _ _ Hs); [done|]. apply request_not_player.
Qed.

Lemma put_other_ok L S i s m c :
  ingress_ok L S i -> storage_ok s -> player_tickets_kept (ticket_storage i) s -> reported (ticket_storage i) s c -> leases_ok m s ->
  ingress_ok L S (put (player_tickets i) s m c i).
Proof. intros Hi Hok Hk Hr Hm. apply put_ok; [done| |done|done]. by apply (players_ok_other (players_of i)); [apply Hi| |]. Qed.

Lemma i_storage L S i : ingress_ok L S i -> storage_ok (ticket_storage i).
Proof. intros Hi. apply (p_storage _ (i_players _ _ _ Hi)). Qed.

(** Operations of the gameplay threads, each one atomic. *)
Definition typed_operation (o : PlayerTicketOperation) : Prop :=
  match o with Add pos _ => is_chunk pos | Remove _ _ => True end.

Inductive ingress_op (i i' : TicketOperationIngress) : Prop :=
| op_player o r : typed_operation o -> push_player (E := exhausted) i o = Ok (r, i') -> ingress_op i i'
| op_players os r : Forall typed_operation os -> push_player_batch (E := exhausted) i os = Ok (r, i') -> ingress_op i i'
| op_acquire ps level r : Forall is_chunk ps -> 0 <= level <= MAX_LEVEL_RAW ->
    acquire_chunk_request_leases (E := exhausted) i ps level = Ok (r, i') -> ingress_op i i'
| op_release ps level r : release_chunk_request_leases (E := exhausted) i ps level = Ok (r, i') -> ingress_op i i'
| op_portal pos : is_chunk pos -> add_portal_ticket (E := exhausted) i pos = Ok i' -> ingress_op i i'
| op_pearl pos : is_chunk pos -> add_ender_pearl_ticket (E := exhausted) i pos = Ok i' -> ingress_op i i'
| op_tick exps : tick_tickets i exps = i' -> ingress_op i i'.

Section Ops.
Context (L S : gmap ChunkPos Z).

Lemma player_operation_ok {E} i o :
  ingress_ok L S i -> typed_operation o ->
  exists i', apply_player_operation (E := E) i o = Ok i' /\ ingress_ok L S i' /\ latest_receipt i' = latest_receipt i.
Proof.
  intros Hi Ho. pose proof (i_players _ _ _ Hi) as Hu. unfold apply_player_operation.
  destruct o as [pos id|pos id].
  - destruct (add_player_ok (E := E) (player_tickets i) (ticket_storage i) pos id Hu Ho) as (u & -> & H1 & [H2 _ _] & _).
    cbn [obind]. eexists. split; [done|]. by split; [apply put_update_ok|].
  - destruct (remove_player_ok (E := E) (player_tickets i) (ticket_storage i) pos id Hu) as (u & -> & H1 & [H2 _ _] & _).
    cbn [obind]. eexists. split; [done|]. by split; [apply put_update_ok|].
Qed.

Lemma allocate_ok {E} i r i' :
  ingress_ok L S i -> allocate_receipt (E := E) i = Ok (r, i') ->
  ingress_ok L S i' /\ latest_receipt i' = latest_receipt i + 1 /\ r = latest_receipt i'.
Proof.
  intros [H1 H2 H3 H4 H5]. unfold allocate_receipt, receipt_next. destruct (Z.eqb_spec (latest_receipt i) u64_max); [done|].
  cbn [obind]. intros [= <- <-]. split; [|done]. constructor; try done. cbn [latest_receipt]. lia.
Qed.

(** Adding or removing a ticket of no player. *)
Lemma put_added_ok {E} i p t c s' m :
  ingress_ok L S i -> is_chunk p -> 0 <= ticket_level t <= MAX_LEVEL_RAW -> ~ player_type (ticket_type t) ->
  add_ticket (E := E) (ticket_storage i) p t = Ok (c, s') ->
  ((forall q k, is_Some (held s' q k) <-> (q = p /\ k = identity t) \/ is_Some (held (ticket_storage i) q k)) -> leases_ok m s') ->
  ingress_ok L S (put (player_tickets i) s' m c i).
Proof.
  intros Hi Hp Hl Ht Ha Hm. pose proof (i_storage _ _ _ Hi) as Hok.
  pose proof (allocation_room _ _ _ _ Hok Ha) as Hroom.
  destruct (add_ticket_ok (ticket_storage i) p t Hok Hp Hl Hroom (E := E)) as (gen & s1 & H1 & Hok1 & Hf & Hu).
  rewrite H1 in Ha. injection Ha as <- <-. apply put_other_ok; [done|done|by apply (updated_keeps _ _ _ _ _ _ Hu)|by eapply add_ticket_reported|].
  apply Hm. intros q k. rewrite (u_held _ _ _ _ _ _ Hu). case_decide; [|tauto]. split; [tauto|eauto].
Qed.

Lemma put_removed_ok i p t c s' m :
  ingress_ok L S i -> ~ player_type (ticket_type t) -> remove_ticket (ticket_storage i) p t = (c, s') ->
  ((forall q k, is_Some (held s' q k) <-> ~ (q = p /\ k = identity t) /\ is_Some (held (ticket_storage i) q k)) -> leases_ok m s') ->
  ingress_ok L S (put (player_tickets i) s' m c i).
Proof.
  intros Hi Ht Hr Hm. pose proof (i_storage _ _ _ Hi) as Hok.
  destruct (remove_ticket_ok (ticket_storage i) p t Hok) as (s1 & H1 & Hok1 & Hu). rewrite H1 in Hr. injection Hr as <- <-.
  apply put_other_ok; [done|done|by apply (updated_keeps _ _ _ _ _ _ Hu)|by eapply remove_ticket_reported|].
  apply Hm. intros q k. rewrite (u_held _ _ _ _ _ _ Hu). case_decide; [|tauto]. split; [by intros []|tauto].
Qed.

Lemma acquire_lease_ok {E} level i p i' :
  ingress_ok L S i -> is_chunk p -> 0 <= level <= MAX_LEVEL_RAW -> acquire_lease (E := E) level i p = Ok i' ->
  ingress_ok L S i' /\ latest_receipt i' = latest_receipt i.
Proof.
  intros Hi Hp Hl. destruct (i_leases _ _ _ Hi) as [Hm Hn]. unfold acquire_lease. set (n := default 0 _).
  destruct (Z.eqb_spec n usize_max); [done|]. set (m := <[(p, level) := n + 1]> (chunk_request_leases i)).
  assert (H0 : 0 <= n).
  { subst n. destruct (chunk_request_leases i !! (p, level)) as [n'|] eqn:E'; cbn; [|done]. specialize (Hn _ _ E'). lia. }
  assert (Hm1 : forall k n', m !! k = Some n' -> 1 <= n').
  { intros k n'. unfold m. rewrite lookup_insert_Some. intros [[_ <-]|[_ Hk]]; [lia|by apply (Hn k)]. }
  assert (Hsome : forall q l, is_Some (m !! (q, l)) <-> (q, l) = (p, level) \/ is_Some (chunk_request_leases i !! (q, l))).
  { intros q l. unfold m. rewrite lookup_insert_is_Some. destruct (decide ((p, level) = (q, l))); naive_solver. }
  destruct (Z.eqb_spec n 0) as [Hz|Hz].
  - cbn [with_leases ticket_storage]. destruct (add_ticket _ _ _) as [[c s']|e|] eqn:Ea; [|done..]. cbn [obind].
    intros [= <-]. split; [|done]. change (record_changes c _) with (put (player_tickets i) s' m c i).
    apply (put_added_ok (E := E) i p (ticket_new CHUNK_REQUEST level)); [done|done|done|apply request_not_player|done|].
    intros Hh. split; [|done]. intros q l. rewrite Hh, Hsome, Hm. unfold identity, ticket_new, from_saved.
    cbn [ticket_type ticket_level]. naive_solver.
  - intros [= <-]. split; [|done]. destruct Hi as [H1 H2 H3 H4 H5]. constructor; try done. split; [|done].
    cbn [with_leases ticket_storage chunk_request_leases]. intros q l. rewrite Hsome, Hm. split; [tauto|]. intros [[= -> ->]|?]; [|done].
    subst n. destruct (chunk_request_leases i !! (p, level)); [eauto|done].
Qed.

Lemma release_lease_ok {E} level i p i' :
  ingress_ok L S i -> release_lease (E := E) level i p = Ok i' -> ingress_ok L S i' /\ latest_receipt i' = latest_receipt i.
Proof.
  intros Hi. destruct (i_leases _ _ _ Hi) as [Hm Hn]. unfold release_lease.
  destruct (chunk_request_leases i !! (p, level)) as [n|] eqn:En; [|done]. pose proof (Hn _ _ En).
  destruct (Z.eqb_spec n 1) as [H1|H1].
  - cbn [with_leases ticket_storage]. destruct (remove_ticket _ _ _) as [c s'] eqn:Er. intros [= <-]. split; [|done].
    change (record_changes c _) with (put (player_tickets i) s' (delete (p, level) (chunk_request_leases i)) c i).
    apply (put_removed_ok i p (ticket_new CHUNK_REQUEST level)); [done|apply request_not_player|done|].
    intros Hh. split.
    + intros q l. rewrite Hh, Hm, lookup_delete_is_Some. unfold identity, ticket_new, from_saved.
      cbn [ticket_type ticket_level]. naive_solver.
    + intros k n'. rewrite lookup_delete_Some. intros [_ Hk]. by apply (Hn k).
  - intros [= <-]. split; [|done]. destruct Hi as [G1 G2 G3 G4 G5]. constructor; try done. split; cbn [with_leases ticket_storage chunk_request_leases].
    + intros q l. rewrite Hm, lookup_insert_is_Some. destruct (decide ((p, level) = (q, l))) as [[= <- <-]|Hne]; naive_solver.
    + intros k n'. rewrite lookup_insert_Some. intros [[_ <-]|[_ Hk]]; [lia|by apply (Hn k)].
Qed.

Lemma each_ok {E A} (f : TicketOperationIngress -> A -> outcome E TicketOperationIngress) (P : A -> Prop) l i i' :
  (forall i x i', ingress_ok L S i -> P x -> f i x = Ok i' -> ingress_ok L S i' /\ latest_receipt i' = latest_receipt i) ->
  Forall P l -> ingress_ok L S i -> each f i l = Ok i' -> ingress_ok L S i' /\ latest_receipt i' = latest_receipt i.
Proof.
  intros Hf Hl. revert i. induction Hl as [|x l Hx _ IH]; intros i Hi; cbn [each]; [by intros [= <-]|].
  destruct (f i x) as [i1|e|] eqn:Ef; [|done..]. cbn [obind]. destruct (Hf _ _ _ Hi Hx Ef) as [H1 H2].
  intros He. destruct (IH i1 H1 He) as [H3 H4]. split; [done|congruence].
Qed.

Lemma receipted_ok {E A} (f : TicketOperationIngress -> A -> outcome E TicketOperationIngress) (P : A -> Prop) l i r i' :
  (forall i x i', ingress_ok L S i -> P x -> f i x = Ok i' -> ingress_ok L S i' /\ latest_receipt i' = latest_receipt i) ->
  Forall P l -> ingress_ok L S i -> receipted f i l = Ok (r, i') -> ingress_ok L S i' /\ latest_receipt i <= latest_receipt i'.
Proof.
  intros Hf Hl Hi. unfold receipted. destruct l as [|x l]; [intros [= <- <-]; done|].
  destruct (each f i (x :: l)) as [i1|e|] eqn:Ee; [|done..]. cbn [obind].
  destruct (each_ok f P _ i i1 Hf Hl Hi Ee) as [H1 H2]. destruct (allocate_receipt i1) as [[r' i2]|e|] eqn:Ea; [|done..].
  cbn [obind]. intros [= <- <-]. destruct (allocate_ok i1 r' i2 H1 Ea) as (H3 & H4 & _). split; [done|lia].
Qed.

Lemma ingress_op_ok i i' : ingress_ok L S i -> ingress_op i i' -> ingress_ok L S i' /\ latest_receipt i <= latest_receipt i'.
Proof.
  intros Hi [o r Ho H|os r Ho H|ps level r Hp Hl H|ps level r H|pos Hp H|pos Hp H|exps H].
  - destruct (player_operation_ok (E := exhausted) i o Hi Ho) as (i1 & E1 & H1 & H2). unfold push_player in H. rewrite E1 in H.
    cbn [obind] in H. destruct (allocate_ok i1 r i' H1 H) as (H3 & H4 & _). split; [done|lia].
  - eapply receipted_ok; [|exact Ho|exact Hi|exact H]. intros j x j' Hj Hx Hf.
    destruct (player_operation_ok (E := exhausted) j x Hj Hx) as (j1 & E1 & H1 & H2). by assert (j1 = j') as <- by congruence.
  - eapply receipted_ok; [|exact Hp|exact Hi|exact H]. intros j x j' Hj Hx Hf. by eapply acquire_lease_ok.
  - eapply (receipted_ok _ (fun _ => True)); [|by apply Forall_true|exact Hi|exact H]. intros j x j' Hj _ Hf. by eapply release_lease_ok.
  - unfold add_portal_ticket, add_or_refresh_portal_ticket in H. destruct (add_ticket _ _ _) as [[c s']|e|] eqn:Ea; [|done..].
    cbn [obind] in H. injection H as <-. split; [|done]. change (record_changes c _) with (put (player_tickets i) s' (chunk_request_leases i) c i).
    apply (put_added_ok (E := exhausted) i pos portal_ticket); [done|done|by vm_compute|by intros [?%(f_equal place)|?%(f_equal place)]|done|].
    intros Hh. apply (leases_kept _ (ticket_storage i)); [apply Hi|]. intros p l. rewrite Hh. split; [|tauto]. intros [[_ Hk]|?]; [|done].
    by apply (f_equal (fun k => place k.1)) in Hk.
  - unfold add_ender_pearl_ticket, add_or_refresh_ender_pearl_ticket in H. destruct (add_ticket _ _ _) as [[c s']|e|] eqn:Ea; [|done..].
    cbn [obind] in H. injection H as <-. split; [|done]. change (record_changes c _) with (put (player_tickets i) s' (chunk_request_leases i) c i).
    apply (put_added_ok (E := exhausted) i pos ender_pearl_ticket); [done|done|by vm_compute|by intros [?%(f_equal place)|?%(f_equal place)]|done|].
    intros Hh. apply (leases_kept _ (ticket_storage i)); [apply Hi|]. intros p l. rewrite Hh. split; [|tauto]. intros [[_ Hk]|?]; [|done].
    by apply (f_equal (fun k => place k.1)) in Hk.
  - unfold tick_tickets in H. destruct (tick_timed_tickets _ _) as [c s'] eqn:Et. subst i'. split; [|done].
    pose proof (i_storage _ _ _ Hi) as Hok. destruct (other_step_ok _ _ Hok (other_tick _ _ _ _ Et)) as [Hok' Hk].
    destruct (tick_loop_ok exps no_changes _ Hok) as (c1 & s1 & H1 & _ & _ & Hr).
    pose proof (fun p k => tick_loop_untimed exps no_changes (ticket_storage i) p k Hok) as Hu.
    unfold tick_timed_tickets in Et. rewrite Et in H1, Hu. injection H1 as -> ->. cbn [snd] in Hu.
    change (record_changes _ _) with (put (player_tickets i) s1 (chunk_request_leases i) (merge no_changes c1) i).
    apply put_other_ok; [done|done|done|by destruct c1|]. apply (leases_kept _ (ticket_storage i)); [apply Hi|].
    intros p l. by rewrite Hu.
Qed.
End Ops.

(** ** The coordinator *)

Definition projected (base : gmap ChunkPos Z) (us : list SourceLevelUpdate) : gmap ChunkPos Z := foldl updated_sources base us.

(** The sources the trackers have once the batch in flight is applied. *)
Definition effective_load (c : ChunkSchedulingCoordinator) : gmap ChunkPos Z :=
  projected (source_levels (load c)) (match in_flight c with Some b => load_updates b | None => [] end).
Definition effective_simulation (c : ChunkSchedulingCoordinator) : gmap ChunkPos Z :=
  projected (source_levels (simulation c)) (match in_flight c with Some b => simulation_updates b | None => [] end).

Record coordinator_ok (c : ChunkSchedulingCoordinator) : Prop := {
  c_ingress : ingress_ok (effective_load c) (effective_simulation c) (ticket_ingress c);
  c_load : tracker_ok LOAD_LIMIT (load c) /\ changes (load c) = [];
  c_simulation : tracker_ok SIMULATION_LIMIT (simulation c) /\ changes (simulation c) = [];
  c_flight : forall b, in_flight c = Some b ->
    Forall (fits LOAD_LIMIT) (load_updates b) /\ Forall (fits SIMULATION_LIMIT) (simulation_updates b) /\
    projected_receipt b <= latest_receipt (ticket_ingress c);
  c_receipts : committed_receipt c <= latest_receipt (ticket_ingress c)
}.

Inductive coordinator_step (c : ChunkSchedulingCoordinator) : ChunkSchedulingCoordinator -> Prop :=
| step_ingress i' : ingress_op (ticket_ingress c) i' -> coordinator_step c (with_ingress i' c)
| step_begin order view sim c' : in_flight c = None -> small view -> small sim ->
    begin_updates order c view sim = Ok c' -> coordinator_step c c'
| step_finish fuel order b out c' : in_flight c = Some b -> finish_updates fuel order c b = Ok (out, c') -> coordinator_step c c'
| step_recycle batch c' : in_flight c = None -> recycle_update_batch c batch = Ok c' -> coordinator_step c c'
| step_publish receipt : receipt <= latest_receipt (ticket_ingress c) -> coordinator_step c (publish_committed c receipt).

(** Storages without tickets that belong to players or requests: what the
    server loads, since neither type is saved. *)
Definition no_owned_tickets (s : ChunkTicketStorage) : Prop :=
  forall p k, player_type k.1 \/ k.1 = CHUNK_REQUEST -> held s p k = None.

Inductive coordinator_reachable : ChunkSchedulingCoordinator -> Prop :=
| coordinator_start order s view sim c : storage_reachable s -> no_owned_tickets s -> small view -> small sim ->
    coordinator_new order s view sim = Ok c -> coordinator_reachable c
| coordinator_next c c' : coordinator_reachable c -> coordinator_step c c' -> coordinator_reachable c'.

(** Seeding: the initial sources are the storage's source levels. *)
Lemma initial_sources_projected order s (F : ChunkTicketStorage -> ChunkPos -> option Z) :
  (forall p, is_Some (F s p) -> is_Some (tickets s !! p)) -> forall p,
  projected ∅ (initial_sources order s (fun s p => mk_source p (F s p))) !! p = F s p.
Proof.
  intros HF p. unfold initial_sources.
  set (l := sort_by _ _).
  assert (Hl : l = (fun p => mk_source p (F s p)) <$> (source_pos <$> l)).
  { rewrite <- list_fmap_compose. rewrite <- (list_fmap_id l) at 1. apply list_fmap_ext. intros i u Hu. cbn.
    assert (Hin : u ∈ l) by by apply list_elem_of_lookup_2 with i.
    unfold l in Hin. rewrite (elem_of_Permutation_proper _ _ _ (sort_by_perm _ _)) in Hin.
    apply list_elem_of_filter in Hin as [_ (e & -> & _)%list_elem_of_fmap]. done. }
  rewrite Hl. unfold projected. rewrite projected_lookup. case_decide as Hp; [done|]. rewrite lookup_empty.
  destruct (F s p) as [v|] eqn:Ef; [|done]. destruct Hp. apply list_elem_of_fmap. exists (mk_source p (F s p)). split; [done|].
  unfold l. rewrite (elem_of_Permutation_proper _ _ _ (sort_by_perm _ _)). apply list_elem_of_filter.
  split; [rewrite Ef; eauto|]. apply list_elem_of_fmap. destruct (HF p ltac:(eauto)) as [es Hes].
  exists (p, es). split; [done|]. by apply entries_elem.
Qed.

Lemma load_level_entry s p : is_Some (load_source_level s p) -> is_Some (tickets s !! p).
Proof. unfold load_source_level. destruct (tickets s !! p); [eauto|by intros []]. Qed.

Lemma simulation_level_entry s p : is_Some (simulation_source_level s p) -> is_Some (tickets s !! p).
Proof. unfold simulation_source_level. destruct (tickets s !! p); [eauto|by intros []]. Qed.

Lemma initial_fits order s limit (f : ChunkTicketStorage -> ChunkPos -> SourceLevelUpdate) :
  (forall p, fits limit (f s p)) -> Forall (fits limit) (initial_sources order s f).
Proof.
  intros Hf. apply Forall_forall. intros u. unfold initial_sources.
  rewrite (elem_of_Permutation_proper _ _ _ (sort_by_perm _ _)). by intros [_ (e & -> & _)%list_elem_of_fmap]%list_elem_of_filter.
Qed.

Lemma coordinator_new_ok order s view sim :
  storage_ok s -> no_owned_tickets s -> small view -> small sim ->
  exists c, coordinator_new order s view sim = Ok c /\ coordinator_ok c /\ in_flight c = None.
Proof.
  intros Hok Hno Hv Hs. unfold coordinator_new.
  assert (Hnew : forall limit, 0 <= limit <= MAX_LEVEL_RAW -> exists t, tracker_new limit = Ok t /\ tracker_ok limit t /\ source_levels t = ∅ /\ changes t = []).
  { intros limit Hl. destruct (tracker_new limit) as [t|e|] eqn:Et.
    - destruct (tracker_new_ok limit Hl t Et) as [H1 H2]. exists t. unfold tracker_new in Et. destruct (_ <=? _); [|done].
      injection Et as <-. done.
    - unfold tracker_new in Et. by destruct (_ <=? _).
    - unfold tracker_new in Et. by rewrite (proj2 (Z.leb_le _ _)) in Et by lia. }
  destruct (Hnew LOAD_LIMIT load_limit_ok) as (l0 & -> & L1 & L2 & L3). cbn [obind].
  destruct (apply_all_fitting LOAD_LIMIT load_limit_ok l0 (initial_load_sources order s) L1) as (l1 & -> & L4 & _ & L5 & L6);
    [apply initial_fits; intros p; by apply load_level_fits|]. cbn [obind].
  destruct (Hnew SIMULATION_LIMIT simulation_limit_ok) as (s0 & -> & S1 & S2 & S3). cbn [obind].
  destruct (apply_all_fitting SIMULATION_LIMIT simulation_limit_ok s0 (initial_simulation_sources order s) S1)
    as (s1 & -> & S4 & _ & S5 & S6); [apply initial_fits; intros p; by apply simulation_level_fits|]. cbn [obind].
  eexists. split; [done|]. split; [|done]. constructor; cbn [ticket_ingress load simulation in_flight committed_receipt].
  - unfold effective_load, effective_simulation. cbn [ticket_ingress load simulation in_flight]. unfold projected at 1 2. cbn [foldl].
    constructor; cbn [ingress_new ticket_storage player_tickets dirty_load_positions dirty_simulation_positions chunk_request_leases latest_receipt].
    + apply players_new_ok; [done| |done|done]. intros p k Hk. apply Hno. by left.
    + intros p _. rewrite L5, L2. apply (initial_sources_projected order s load_source_level). apply load_level_entry.
    + intros p _. rewrite S5, S2. apply (initial_sources_projected order s simulation_source_level). apply simulation_level_entry.
    + split; [|intros k n; by rewrite lookup_empty]. intros p l. rewrite Hno by by right. rewrite lookup_empty. done.
    + by vm_compute.
  - by rewrite L6, L3.
  - by rewrite S6, S3.
  - done.
  - done.
Qed.

Lemma begin_ok order c view sim :
  coordinator_ok c -> in_flight c = None -> small view -> small sim ->
  exists c1 b, begin_updates order c view sim = Ok c1 /\ coordinator_ok c1 /\ in_flight c1 = Some b /\
    load c1 = load c /\ simulation c1 = simulation c /\ projected_receipt b = latest_receipt (ticket_ingress c) /\
    latest_receipt (ticket_ingress c1) = latest_receipt (ticket_ingress c) /\
    effective_load c1 = load_sources (ticket_storage (ticket_ingress c1)) /\
    effective_simulation c1 = simulation_sources (ticket_storage (ticket_ingress c1)) /\
    player_positions (player_tickets (ticket_ingress c1)) = player_positions (player_tickets (ticket_ingress c)) /\
    view_distance (player_tickets (ticket_ingress c1)) = view /\
    simulation_distance (player_tickets (ticket_ingress c1)) = sim.
Proof.
  intros [Hi Hl Hs Hf Hr] Hfl Hv Hsim. unfold effective_load, effective_simulation in Hi. rewrite Hfl in Hi.
  unfold projected in Hi. cbn [foldl] in Hi. destruct c as [i l s com fl]. cbn [ticket_ingress load simulation in_flight committed_receipt] in *. subst fl.
  unfold begin_updates, take_source_projections. cbn [ticket_ingress load simulation in_flight committed_receipt].
  destruct (set_view_distance_ok (E := exhausted) order (player_tickets i) (ticket_storage i) view (i_players _ _ _ Hi) Hv)
    as (u1 & -> & V1 & V2 & V3 & V4 & V5). cbn [obind].
  pose proof (put_update_ok _ _ i u1 Hi V1 V2) as Hi1. set (i1 := put_update u1 i) in *.
  destruct (set_simulation_distance_ok (E := exhausted) order (player_tickets i1) (ticket_storage i1) sim (i_players _ _ _ Hi1) Hsim)
    as (u2 & -> & W1 & W2 & W3 & W4 & W5). cbn [obind].
  pose proof (put_update_ok _ _ i1 u2 Hi1 W1 W2) as Hi2. set (i2 := put_update u2 i1) in *.
  assert (Hst : storage_ok (ticket_storage i2)) by apply (i_storage _ _ _ Hi2).
  set (c1 := mk_coordinator _ _ _ _ _). exists c1.
  assert (EL : effective_load c1 = load_sources (ticket_storage i2)).
  { apply map_eq. intros p. rewrite load_sources_lookup. unfold effective_load, projected. cbn [c1 load in_flight load_updates].
    rewrite (projected_lookup (load_source_level (ticket_storage i2))). case_decide as Hp; [done|].
    rewrite sorted_positions_elem in Hp. by apply (i_load _ _ _ Hi2). }
  assert (ES : effective_simulation c1 = simulation_sources (ticket_storage i2)).
  { apply map_eq. intros p. rewrite simulation_sources_lookup. unfold effective_simulation, projected. cbn [c1 simulation in_flight simulation_updates].
    rewrite (projected_lookup (simulation_source_level (ticket_storage i2))). case_decide as Hp; [done|].
    rewrite sorted_positions_elem in Hp. by apply (i_simulation _ _ _ Hi2). }
  eexists. split; [done|]. split; [|split; [done|]].
  - constructor; cbn [c1 ticket_ingress load simulation in_flight committed_receipt]; [|done|done| |done].
    + rewrite EL, ES. destruct Hi2 as [H1 H2 H3 H4 H5]. constructor; [done| | |done|done];
        intros p _; cbn [ticket_storage]; [apply load_sources_lookup|apply simulation_sources_lookup].
    + intros b [= <-]. cbn [load_updates simulation_updates projected_receipt latest_receipt]. split_and!; [| |done].
      * apply Forall_fmap, Forall_forall. intros p _. by apply load_level_fits.
      * apply Forall_fmap, Forall_forall. intros p _. by apply simulation_level_fits.
  - split_and!; try done; cbn [c1 ticket_ingress player_tickets]; change (player_tickets i2) with (tracker u2);
      [rewrite W5; exact V5|rewrite W3; exact V3].
Qed.

Lemma finish_ok order c b :
  coordinator_ok c -> in_flight c = Some b ->
  exists n, forall fuel, (n <= fuel)%nat ->
    exists out c', finish_updates fuel order c b = Ok (out, c') /\ coordinator_ok c' /\ in_flight c' = None /\
      ticket_ingress c' = ticket_ingress c /\ through_receipt out = projected_receipt b /\
      (forall p, is_chunk p -> get_level (load c') p = reference_level LOAD_LIMIT (effective_load c) p) /\
      (forall p, is_chunk p -> get_level (simulation c') p = reference_level SIMULATION_LIMIT (effective_simulation c) p) /\
      reports (load c) (load c') (load_changes out) /\ reports (simulation c) (simulation c') (simulation_changes out).
Proof.
  intros [Hi Hl Hs Hf Hr] Hfl. destruct (Hf b Hfl) as (F1 & F2 & F3).
  destruct (update_tracker_ok SIMULATION_LIMIT simulation_limit_ok order (simulation c) _ (proj1 Hs) F2) as (n1 & N1).
  destruct (update_tracker_ok LOAD_LIMIT load_limit_ok order (load c) _ (proj1 Hl) F1) as (n2 & N2).
  exists (Nat.max n1 n2). intros fuel Hfuel.
  destruct (N1 fuel ltac:(lia)) as (cs1 & s' & E1 & S1 & S2 & S3 & S4 & S5).
  destruct (N2 fuel ltac:(lia)) as (cs2 & l' & E2 & L1 & L2 & L3 & L4 & L5).
  unfold finish_updates. rewrite E1. cbn [obind]. rewrite E2. cbn [obind]. eexists _, _. split; [done|].
  assert (EL : effective_load c = source_levels l') by (unfold effective_load, projected; by rewrite Hfl, L3).
  assert (ES : effective_simulation c = source_levels s') by (unfold effective_simulation, projected; by rewrite Hfl, S3).
  split; [|split_and!; try done; cbn [load simulation]; rewrite ?EL, ?ES; done].
  constructor; cbn [ticket_ingress load simulation in_flight committed_receipt]; try done.
  unfold effective_load, effective_simulation. cbn [load simulation in_flight]. unfold projected. cbn [foldl]. by rewrite <- EL, <- ES.
Qed.

Lemma with_ingress_ok c i' : coordinator_ok c -> ingress_op (ticket_ingress c) i' -> coordinator_ok (with_ingress i' c).
Proof.
  intros [Hi Hl Hs Hf Hr] Ho. destruct (ingress_op_ok _ _ _ _ Hi Ho) as [Hi' Hrec].
  constructor; cbn [with_ingress ticket_ingress load simulation in_flight committed_receipt]; try done; [|lia].
  intros b Hb. destruct (Hf b Hb) as (? & ? & ?). split_and!; [done|done|lia].
Qed.

Lemma recycle_ok c batch :
  coordinator_ok c -> exists c', recycle_update_batch c batch = Ok c' /\ coordinator_ok c' /\ ticket_ingress c' = ticket_ingress c /\
    levels (load c') = levels (load c) /\ levels (simulation c') = levels (simulation c).
Proof.
  intros [Hi [Hl1 Hl2] [Hs1 Hs2] Hf Hr]. unfold recycle_update_batch, recycle_changes. rewrite Hl2, Hs2. cbn [obind].
  eexists. split; [done|]. split; [|done]. constructor; cbn [ticket_ingress load simulation in_flight committed_receipt]; try done.
  - split; [|done]. by apply (take_changes_ok LOAD_LIMIT (load c)).
  - split; [|done]. by apply (take_changes_ok SIMULATION_LIMIT (simulation c)).
Qed.

Lemma finish_fuel fuel fuel' order c b r :
  finish_updates fuel order c b = Ok r -> (fuel <= fuel')%nat -> finish_updates fuel' order c b = Ok r.
Proof.
  assert (Hu : forall limit t us x, update_tracker limit fuel order t us = Ok x -> (fuel <= fuel')%nat ->
    update_tracker limit fuel' order t us = Ok x).
  { intros limit t us x. unfold update_tracker. destruct (apply_source_updates limit t us) as [t1|e|]; [|done..]. cbn [obind].
    destruct (run_all_updates limit fuel order t1) as [t2|e|] eqn:E; [|done..]. intros H Hf.
    by rewrite (run_all_updates_fuel limit fuel fuel' order t1 t2 E Hf). }
  unfold finish_updates. intros H Hf.
  destruct (update_tracker SIMULATION_LIMIT fuel order _ _) as [[cs s]|e|] eqn:E1; [|done..]. rewrite (Hu _ _ _ _ E1 Hf).
  cbn [obind] in *. destruct (update_tracker LOAD_LIMIT fuel order _ _) as [[cs' l]|e|] eqn:E2; [|done..].
  by rewrite (Hu _ _ _ _ E2 Hf).
Qed.

Lemma coordinator_step_ok c c' : coordinator_ok c -> coordinator_step c c' -> coordinator_ok c'.
Proof.
  intros Hc [i' Ho|order view sim c1 Hf Hv Hs Hb|fuel order b out c1 Hf Hr|batch c1 Hf Hr|receipt Hr].
  - by apply with_ingress_ok.
  - destruct (begin_ok order c view sim Hc Hf Hv Hs) as (c2 & b & E & Hok & _). congruence.
  - destruct (finish_ok order c b Hc Hf) as (n & Hn). destruct (Hn (Nat.max n fuel) ltac:(lia)) as (out' & c2 & E & Hok & _).
    rewrite (finish_fuel fuel (Nat.max n fuel) order c b _ Hr ltac:(lia)) in E. injection E as <- <-. done.
  - destruct (recycle_ok c batch Hc) as (c2 & E & Hok & _). congruence.
  - destruct Hc as [Hi Hl Hs Hfl Hrec]. constructor; cbn [publish_committed ticket_ingress load simulation in_flight committed_receipt]; try done. lia.
Qed.

Lemma coordinator_reachable_ok c : coordinator_reachable c -> coordinator_ok c.
Proof.
  induction 1 as [order s view sim c Hs%storage_reachable_ok Hno Hv Hsim Hc|c c' _ IH Hs]; [|by apply (coordinator_step_ok c)].
  destruct (coordinator_new_ok order s view sim Hs Hno Hv Hsim) as (c' & E & Hok & _). congruence.
Qed.

(** ** Properties *)

(** What other threads do while a batch is in flight. *)
Inductive interleaved (c : ChunkSchedulingCoordinator) : ChunkSchedulingCoordinator -> Prop :=
| interleave i' : ingress_op (ticket_ingress c) i' -> interleaved c (with_ingress i' c).

Lemma interleaved_ok c c' :
  coordinator_ok c -> rtc interleaved c c' ->
  coordinator_ok c' /\ load c' = load c /\ simulation c' = simulation c /\ in_flight c' = in_flight c /\
  (coordinator_reachable c -> coordinator_reachable c').
Proof.
  intros Hok H. induction H as [c|c c1 c2 [i' Ho] _ IH]; [done|].
  destruct (IH (with_ingress_ok c i' Hok Ho)) as (H1 & -> & -> & -> & H2). split_and!; try done.
  intros Hr. apply H2. eapply coordinator_next; [exact Hr|by constructor].
Qed.

(** Both halves of [run_all_updates] around any interference. *)
Lemma round_ok order order' c view sim c1 b c2 :
  coordinator_ok c -> in_flight c = None -> small view -> small sim ->
  begin_updates order c view sim = Ok c1 -> in_flight c1 = Some b -> rtc interleaved c1 c2 ->
  exists n, forall fuel, (n <= fuel)%nat ->
    exists out c3, finish_updates fuel order' c2 b = Ok (out, c3) /\ in_flight c3 = None /\
      ticket_ingress c3 = ticket_ingress c2 /\ through_receipt out = projected_receipt b /\
      (forall p, is_chunk p -> get_level (load c3) p =
         reference_level LOAD_LIMIT (load_sources (ticket_storage (ticket_ingress c1))) p) /\
      (forall p, is_chunk p -> get_level (simulation c3) p =
         reference_level SIMULATION_LIMIT (simulation_sources (ticket_storage (ticket_ingress c1))) p) /\
      reports (load c) (load c3) (load_changes out) /\ reports (simulation c) (simulation c3) (simulation_changes out).
Proof.
  intros Hok Hf Hv Hs Hb Hfl Hi. destruct (begin_ok order c view sim Hok Hf Hv Hs) as (c1' & b' & E & Hok1 & Hfl1 & El & Es & _ & _ & EL & ES & _).
  rewrite Hb in E. injection E as <-. rewrite Hfl in Hfl1. injection Hfl1 as <-.
  destruct (interleaved_ok c1 c2 Hok1 Hi) as (Hok2 & El2 & Es2 & Ef2 & _).
  destruct (finish_ok order' c2 b Hok2 ltac:(congruence)) as (n & Hn). exists n. intros fuel Hfuel.
  destruct (Hn fuel Hfuel) as (out & c3 & H1 & _ & H2 & H3 & H4 & H5 & H6 & H7 & H8). exists out, c3.
  assert (E1 : effective_load c2 = load_sources (ticket_storage (ticket_ingress c1))).
  { rewrite <- EL. unfold effective_load. by rewrite El2, Ef2. }
  assert (E2 : effective_simulation c2 = simulation_sources (ticket_storage (ticket_ingress c1))).
  { rewrite <- ES. unfold effective_simulation. by rewrite Es2, Ef2. }
  rewrite <- E1, <- E2. split_and!; try done; [by rewrite <- El, <- El2|by rewrite <- Es, <- Es2].
Qed.

(** C4: Scheduling is exact end to end.  Whatever the players, requests,
    portals, pearls and expiries of a server's history, with submissions of
    other threads falling between the two halves of a run, no run panics, and
    each ends with the load level of every chunk at exactly the least of
    ticket level + distance over the loading tickets held when the run took
    its projections, and the simulation level likewise over the simulation
    tickets; it returns the receipt of the last submission those include, and
    exactly the changes since the last run. *)
Theorem scheduling_exact order order' c view sim :
  coordinator_reachable c -> in_flight c = None -> small view -> small sim ->
  exists c1 b, begin_updates order c view sim = Ok c1 /\ in_flight c1 = Some b /\ coordinator_reachable c1 /\
    projected_receipt b = latest_receipt (ticket_ingress c) /\
    forall c2, rtc interleaved c1 c2 -> coordinator_reachable c2 /\
      exists n, forall fuel, (n <= fuel)%nat ->
        exists out c3, finish_updates fuel order' c2 b = Ok (out, c3) /\ coordinator_reachable c3 /\
          ticket_ingress c3 = ticket_ingress c2 /\ through_receipt out = projected_receipt b /\
          (forall p, is_chunk p -> get_level (load c3) p =
             reference_level LOAD_LIMIT (load_sources (ticket_storage (ticket_ingress c1))) p) /\
          (forall p, is_chunk p -> get_level (simulation c3) p =
             reference_level SIMULATION_LIMIT (simulation_sources (ticket_storage (ticket_ingress c1))) p) /\
          reports (load c) (load c3) (load_changes out) /\
          reports (simulation c) (simulation c3) (simulation_changes out).
Proof.
  intros Hr Hf Hv Hs. pose proof (coordinator_reachable_ok c Hr) as Hok.
  destruct (begin_ok order c view sim Hok Hf Hv Hs) as (c1 & b & Hb & Hok1 & Hfl & _ & _ & Hrec & _).
  assert (Hr1 : coordinator_reachable c1) by (eapply coordinator_next; [exact Hr|by apply (step_begin c order view sim)]).
  exists c1, b. split; [done|]. split; [done|]. split; [done|]. split; [done|]. intros c2 Hi.
  destruct (interleaved_ok c1 c2 Hok1 Hi) as (_ & _ & _ & Ef & Hr2). specialize (Hr2 Hr1). split; [done|].
  destruct (round_ok order order' c view sim c1 b c2 Hok Hf Hv Hs Hb Hfl Hi) as (n & Hn). exists n. intros fuel Hfuel.
  destruct (Hn fuel Hfuel) as (out & c3 & H1 & _ & H2). exists out, c3. split; [done|]. split; [|done].
  eapply coordinator_next; [exact Hr2|]. eapply step_finish; [by rewrite Ef|exact H1].
Qed.

(** A source within reach bounds the reference level. *)
Lemma reference_bound limit sources s l p :
  sources !! s = Some l -> l + chunk_distance s p <= limit ->
  exists l', reference_level limit sources p = Some l' /\ l' <= l + chunk_distance s p.
Proof.
  intros Hs Hl. unfold reference_level.
  destruct (proj1 (best_glb limit sources p (best limit sources p)) ltac:(lia)) as [_ Hb].
  specialize (Hb s l Hs). rewrite (proj2 (Z.leb_le _ _)) by lia. eexists. split; [done|]. lia.
Qed.

(** A ticket held is a source at least as strong. *)
Lemma held_load_source s p k l :
  is_Some (held s p k) -> load_of k = Some l -> exists l', load_sources s !! p = Some l' /\ l' <= l.
Proof.
  intros Hh Hk. rewrite load_sources_lookup, load_strongest.
  destruct (strongest load_of s p) as [l'|] eqn:E.
  - exists l'. split; [done|]. apply strongest_spec in E as [_ E]. by apply (E k).
  - unfold strongest in E. apply held_ids in Hh. assert (Hin : l ∈ omap load_of (id_of <$> entries_at s p)) by (apply list_elem_of_omap; eauto).
    destruct (omap load_of _); [by apply elem_of_nil in Hin|]. cbn in E. by destruct (min_level _).
Qed.

Lemma held_simulation_source s p k l :
  is_Some (held s p k) -> simulation_of k = Some l -> exists l', simulation_sources s !! p = Some l' /\ l' <= l.
Proof.
  intros Hh Hk. rewrite simulation_sources_lookup, simulation_strongest.
  destruct (strongest simulation_of s p) as [l'|] eqn:E.
  - exists l'. split; [done|]. apply strongest_spec in E as [_ E]. by apply (E k).
  - unfold strongest in E. apply held_ids in Hh. assert (Hin : l ∈ omap simulation_of (id_of <$> entries_at s p)) by (apply list_elem_of_omap; eauto).
    destruct (omap simulation_of _); [by apply elem_of_nil in Hin|]. cbn in E. by destruct (min_level _).
Qed.

(** Levels from tickets held: at distance [d] of a ticket of level [l]. *)
Lemma load_level_near s k l q p :
  is_Some (held s q k) -> load_of k = Some l -> l + chunk_distance p q <= LOAD_LIMIT ->
  exists l', reference_level LOAD_LIMIT (load_sources s) p = Some l' /\ l' <= l + chunk_distance p q.
Proof.
  intros Hh Hk Hl. destruct (held_load_source s q k l Hh Hk) as (l1 & H1 & H2). rewrite distance_sym in Hl |- *.
  destruct (reference_bound LOAD_LIMIT _ q l1 p H1 ltac:(lia)) as (l' & H3 & H4). exists l'. split; [done|lia].
Qed.

Lemma simulation_level_near s k l q p :
  is_Some (held s q k) -> simulation_of k = Some l -> l + chunk_distance p q <= SIMULATION_LIMIT ->
  exists l', reference_level SIMULATION_LIMIT (simulation_sources s) p = Some l' /\ l' <= l + chunk_distance p q.
Proof.
  intros Hh Hk Hl. destruct (held_simulation_source s q k l Hh Hk) as (l1 & H1 & H2). rewrite distance_sym in Hl |- *.
  destruct (reference_bound SIMULATION_LIMIT _ q l1 p H1 ltac:(lia)) as (l' & H3 & H4). exists l'. split; [done|lia].
Qed.

Lemma distance_self p : chunk_distance p p = 0.
Proof. unfold chunk_distance. by rewrite !Z.sub_diag. Qed.

(** C12: Players and requests get their chunks.  After a run, every chunk
    within the view distance of a player has a load level that permits full
    generation and entity ticking, every chunk within the simulation distance
    of one (up to 128) ticks entities in the simulation, and every requested
    chunk has a load level at least as strong as each lease on it asks. *)
Theorem players_get_chunks order order' c view sim c1 b c2 fuel out c3 :
  coordinator_reachable c -> in_flight c = None -> small view -> small sim ->
  begin_updates order c view sim = Ok c1 -> in_flight c1 = Some b -> rtc interleaved c1 c2 ->
  finish_updates fuel order' c2 b = Ok (out, c3) ->
  (forall id q p, player_positions (player_tickets (ticket_ingress c)) !! id = Some q -> is_chunk p ->
     (chunk_distance p q <= view ->
        generation_status (get_level (load c3) p) = Some Full /\ is_entity_ticking (get_level (load c3) p) = true) /\
     (chunk_distance p q <= Z.min sim 128 -> is_entity_ticking (coordinator_simulation_level c3 p) = true)) /\
  (forall p l n, chunk_request_leases (ticket_ingress c1) !! (p, l) = Some n ->
     exists l', get_level (load c3) p = Some l' /\ l' <= l).
Proof.
  intros Hr Hf Hv Hs Hb Hfl Hi Hfin. pose proof (coordinator_reachable_ok c Hr) as Hok.
  destruct (round_ok order order' c view sim c1 b c2 Hok Hf Hv Hs Hb Hfl Hi) as (n & Hn).
  destruct (Hn (Nat.max n fuel) ltac:(lia)) as (out' & c3' & E & _ & _ & _ & HL & HS & _).
  rewrite (finish_fuel fuel (Nat.max n fuel) order' c2 b _ Hfin ltac:(lia)) in E. injection E as <- <-.
  destruct (begin_ok order c view sim Hok Hf Hv Hs) as (c1' & b' & E1 & Hok1 & _ & _ & _ & _ & _ & _ & _ & Epos & Ev & Es).
  assert (c1' = c1) as -> by congruence.
  set (i := ticket_ingress c1) in *. pose proof (i_players _ _ _ (c_ingress c1 Hok1)) as Hu. fold i in Hu.
  unfold coordinator_simulation_level. split.
  - intros id q p Hid Hp. rewrite <- Epos in Hid. assert (Hq : is_chunk q).
    { apply (center_is_chunk (players_of i) q Hu), (centers_players _ _ Hu). by exists id. }
    rewrite (HL p Hp), (HS p Hp). split; intros Hd.
    + assert (Hh : is_Some (held (ticket_storage i) p loading_id)).
      { apply (loading_held (players_of i) p loading_id Hu Hp eq_refl). split; [done|]. exists id, q.
        split; [done|]. change (tracker (players_of i)) with (player_tickets i). by rewrite Ev. }
      destruct (load_level_near _ loading_id ENTITY_TICKING_CHUNK p p Hh eq_refl) as (l' & -> & Hl');
        [rewrite distance_self; vm_compute; congruence|]. rewrite distance_self in Hl'. unfold ENTITY_TICKING_CHUNK in Hl'.
      unfold generation_status, is_full, is_entity_ticking, level_is_entity_ticking, FULL_CHUNK_LEVEL_RAW, ENTITY_TICKING_CHUNK.
      rewrite !(proj2 (Z.leb_le _ _)) by lia. done.
    + assert (Hh : is_Some (held (ticket_storage i) q (simulation_id (players_of i)))).
      { apply (simulation_held (players_of i) q (simulation_id (players_of i)) Hu eq_refl). split; [done|]. by exists id. }
      assert (Hk : simulation_of (simulation_id (players_of i)) = Some (for_entity_ticking_radius sim)).
      { unfold simulation_id. change (tracker (players_of i)) with (player_tickets i). rewrite Es.
        unfold simulation_of, identity, player_simulation_ticket, ticket_new, from_saved. cbn [fst snd ticket_type ticket_level].
        change (does_simulate (deref PLAYER_SIMULATION)) with true. cbn [andb].
        unfold level_is_block_ticking, for_entity_ticking_radius, saturating_sub, ENTITY_TICKING_CHUNK, BLOCK_TICKING_CHUNK, MAX_SUPPORTED_VIEW_DISTANCE.
        unfold small in Hs. by rewrite (proj2 (Z.leb_le _ _)) by lia. }
      assert (Hle : for_entity_ticking_radius sim + chunk_distance p q <= 128).
      { unfold for_entity_ticking_radius, saturating_sub, ENTITY_TICKING_CHUNK, MAX_SUPPORTED_VIEW_DISTANCE. unfold small in Hs. lia. }
      destruct (simulation_level_near _ _ _ q p Hh Hk) as (l' & -> & Hl').
      { change SIMULATION_LIMIT with 129. lia. }
      unfold is_entity_ticking, level_is_entity_ticking. apply Z.leb_le. change ENTITY_TICKING_CHUNK with 128. lia.
  - intros p l m Hm. assert (Hh : is_Some (held (ticket_storage i) p (CHUNK_REQUEST, l))).
    { apply (proj1 (i_leases _ _ _ (c_ingress c1 Hok1))). eauto. }
    destruct Hh as [st Hst]. pose proof (ok_typed _ (p_storage _ Hu) _ _ _ Hst) as [Hp Hl]. cbn [snd] in Hl.
    rewrite (HL p Hp). destruct (load_level_near (ticket_storage i) (CHUNK_REQUEST, l) l p p) as (l' & H1 & H2); [eauto|done| |].
    + rewrite distance_self. unfold LOAD_LIMIT. lia.
    + rewrite distance_self in H2. exists l'. split; [done|lia].
Qed.

(** ** A server with one player *)

Definition one_player : run ChunkSchedulingCoordinator :=
  let? c := coordinator_new some_order storage_new 2 2 in
  let? '(_, i) := push_player (ticket_ingress c) (Add (mk_chunk 0 0) 7) in
  Ok (with_ingress i c).

Lemma two_small : small 2.
Proof. split; lia. Qed.

Lemma one_player_reachable c :
  one_player = Ok c ->
  coordinator_reachable c /\ in_flight c = None /\
  player_positions (player_tickets (ticket_ingress c)) !! 7 = Some (mk_chunk 0 0).
Proof.
  assert (Hno : no_owned_tickets storage_new).
  { intros p k _. unfold held, entries_at. cbn [storage_new tickets]. by rewrite lookup_empty. }
  destruct (coordinator_new_ok some_order storage_new 2 2 storage_new_ok Hno two_small two_small) as (c0 & E0 & _ & Hf).
  unfold one_player. rewrite E0. cbn [obind]. intros H.
  pose proof (coordinator_start some_order storage_new 2 2 c0 storage_new_reachable Hno two_small two_small E0) as R0.
  destruct (push_player (ticket_ingress c0) _) as [[r i]|e|] eqn:Ei; [|done..]. cbn [obind] in H. injection H as <-.
  assert (Hp : is_chunk (mk_chunk 0 0)) by (split; vm_compute; split; congruence).
  split; [|split].
  - eapply coordinator_next; [exact R0|]. apply step_ingress. exact (op_player _ _ (Add (mk_chunk 0 0) 7) r Hp Ei).
  - exact Hf.
  - cbn [with_ingress ticket_ingress]. unfold push_player, apply_player_operation in Ei.
    pose proof (i_players _ _ _ (c_ingress _ (coordinator_reachable_ok _ R0))) as Hu.
    destruct (add_player_ok (E := exhausted) _ _ (mk_chunk 0 0) 7 Hu Hp) as (u & Hadd & _ & _ & Hpos).
    rewrite Hadd in Ei. cbn [obind] in Ei. unfold allocate_receipt in Ei. destruct (receipt_next _) as [r'|e|]; [|done..].
    cbn [obind] in Ei. injection Ei as <- <-. cbn [player_tickets put_update record_changes with_player_tickets].
    rewrite Hpos. apply lookup_insert_eq.
Qed.

Lemma one_player_runs : exists c, one_player = Ok c.
Proof.
  assert (H : match one_player with Ok _ => true | _ => false end = true) by (vm_compute; reflexivity).
  destruct one_player as [c|e|]; [by exists c|done..].
Qed.

Lemma scheduling_exact_witness :
  exists c c1 b, one_player = Ok c /\ begin_updates some_order c 2 2 = Ok c1 /\ in_flight c1 = Some b /\
    exists n out c3, finish_updates n some_order c1 b = Ok (out, c3) /\ get_level (load c3) (mk_chunk 12 0) = Some 138.
Proof.
  destruct one_player_runs as [c E].
  destruct (one_player_reachable c E) as (Hr & Hf & _).
  destruct (scheduling_exact some_order some_order c 2 2 Hr Hf two_small two_small) as (c1 & b & Hb & Hfl & _ & _ & Hfin).
  exists c, c1, b. split; [exact E|]. split; [exact Hb|]. split; [exact Hfl|].
  destruct (Hfin c1 (rtc_refl _ _)) as (_ & n & Hn). destruct (Hn n (le_n n)) as (out & c3 & H1 & _ & _ & _ & HL & _).
  exists n, out, c3. split; [exact H1|]. rewrite HL by (split; vm_compute; split; congruence).
  assert (Hl : match one_player with
    | Ok c => match begin_updates some_order c 2 2 with
              | Ok c1 => reference_level LOAD_LIMIT (load_sources (ticket_storage (ticket_ingress c1))) (mk_chunk 12 0)
              | _ => None
              end
    | _ => None
    end = Some 138) by (vm_compute; reflexivity).
  rewrite E, Hb in Hl. exact Hl.
Defined.

Lemma players_get_chunks_witness :
  exists c c1 b n out c3, one_player = Ok c /\ begin_updates some_order c 2 2 = Ok c1 /\ in_flight c1 = Some b /\
    finish_updates n some_order c1 b = Ok (out, c3) /\
    generation_status (get_level (load c3) (mk_chunk (-2) 1)) = Some Full /\
    is_entity_ticking (coordinator_simulation_level c3 (mk_chunk 2 2)) = true.
Proof.
  destruct one_player_runs as [c E].
  destruct (one_player_reachable c E) as (Hr & Hf & Hpos). pose proof (coordinator_reachable_ok c Hr) as Hok.
  destruct (begin_ok some_order c 2 2 Hok Hf two_small two_small) as (c1 & b & Hb & Hok1 & Hfl & _).
  destruct (finish_ok some_order c1 b Hok1 Hfl) as (n & Hn). destruct (Hn n (le_n n)) as (out & c3 & H1 & _).
  exists c, c1, b, n, out, c3. split; [exact E|]. split; [exact Hb|]. split; [exact Hfl|]. split; [exact H1|].
  destruct (players_get_chunks some_order some_order c 2 2 c1 b c1 n out c3 Hr Hf two_small two_small Hb Hfl (rtc_refl _ _) H1) as [Hp _].
  split.
  - apply (proj1 (Hp 7 (mk_chunk 0 0) (mk_chunk (-2) 1) Hpos ltac:(split; vm_compute; split; congruence))). vm_compute. congruence.
  - apply (proj2 (Hp 7 (mk_chunk 0 0) (mk_chunk 2 2) Hpos ltac:(split; vm_compute; split; congruence))). vm_compute. congruence.
Defined.
