(* ===== verification/PacketQueue.v ===== *)
(** * The inbound packet queue

    Model of [PacketQueue] of [steel-core/src/server/packet_processor.rs]:
    network tasks submit gameplay packets to per-session lanes, a pool of
    workers takes them out, and the game loop opens the queue after a tick and
    drains it before the next one.

    A method takes the queue's lock for its whole body, so it is one atomic
    step: it returns the new state, its result and the notifications it makes
    after releasing the lock ([Wakes]).  The ready and order heaps are the
    binary heaps of [Collections] under [Reverse].  [queue_ok] is the
    invariant: the heaps index exactly the fronts and the ordered packets of
    the lanes, sequences are unique and increasing, the accounting of
    outstanding packets and bytes is exact.  [PacketWorkers] puts the queue
    under its workers and game loop. *)

From Stdlib Require Import ZArith Lia Sorted.
From stdpp Require Import prelude list gmap.
From S2P Require Import Prelude Collections KeyedList Sums.

(** ** Data *)

Inductive ScheduledPacketExecution : Set := PlayerLocal | Serialized | Exclusive.

#[export] Instance ScheduledPacketExecution_eq_dec : EqDecision ScheduledPacketExecution.
Proof. solve_decision. Defined.

Inductive PacketPhase : Set :=
| Closed
| Open
| Draining (before_sequence : Z)
| Stopped.

#[export] Instance PacketPhase_eq_dec : EqDecision PacketPhase.
Proof. solve_decision. Defined.

Inductive PacketAdmissionError : Set := AdmissionStopped | PlayerPacketLimit | PlayerByteLimit.

#[export] Instance PacketAdmissionError_eq_dec : EqDecision PacketAdmissionError.
Proof. solve_decision. Defined.

Record PacketAdmissionLimits := MkLimits { per_player_packets : Z; per_player_bytes : Z }.

Definition MAX_OUTSTANDING_PACKETS_PER_PLAYER : Z := 8192.
Definition MAX_OUTSTANDING_BYTES_PER_PLAYER : Z := 32 * 1024 * 1024.
Definition PACKET_ADMISSION_OVERHEAD : Z := 256.

Definition PRODUCTION : PacketAdmissionLimits :=
  MkLimits MAX_OUTSTANDING_PACKETS_PER_PLAYER MAX_OUTSTANDING_BYTES_PER_PLAYER.

(** The notifications of a method: workers are woken through the condition
    variable, the game loop through [idle] and [progress], of which
    [notify_one] leaves a permit and [notify_waiters] only wakes who waits. *)
Inductive WorkerWake : Set := NoWake | NotifyOne | NotifyAll.
Record Wakes := MkWakes { wake_workers : WorkerWake; wake_idle : bool; wake_progress : WorkerWake }.
Definition no_wakes : Wakes := MkWakes NoWake false NoWake.
Definition wake_if (b : bool) (w : WorkerWake) : WorkerWake := if b then w else NoWake.

(** A [PlayerPacketLaneKey] is a session's 64-bit number. *)
Notation LaneKey := Z.

(** The order of [BinaryHeap<Reverse<(u64, K)>>] and of [BinaryHeap<Reverse<u64>>]. *)
Definition reverse_entry (a b : Z * LaneKey) : comparison := reverse (pair_cmp a b).
Definition reverse_sequence (a b : Z) : comparison := reverse (Z.compare a b).

Record PacketLanePause := MkPause { pause_key : LaneKey; generation : Z }.

Section Queue.
Context {T : Type}.

Record SequencedPacket := MkPacket {
  sequence : Z; execution : ScheduledPacketExecution; admission_bytes : Z; value : T }.

Record DeferredPacket := MkDeferred {
  deferred_execution : ScheduledPacketExecution; deferred_bytes : Z; deferred_value : T }.

Record PacketLane := MkLane {
  queued : list SequencedPacket;
  deferred : list DeferredPacket;
  lane_active : bool;
  pause_generation : option Z;
  outstanding_packets : Z;
  outstanding_bytes : Z }.

Definition new_lane : PacketLane := MkLane [] [] false None 0 0.

Record PacketQueueState := MkQueue {
  phase : PacketPhase;
  lanes : gmap LaneKey PacketLane;
  player_local_ready : list (Z * LaneKey);
  serialized_ready : list (Z * LaneKey);
  exclusive_ready : list (Z * LaneKey);
  serialized : list Z;
  exclusive : list Z;
  next_sequence : Z;
  next_pause_generation : Z;
  active : Z;
  serialized_active : bool;
  exclusive_active : bool;
  completed : Z }.

Definition with_limits : PacketQueueState :=
  MkQueue Closed ∅ [] [] [] [] [] 0 0 0 false false 0.

(** Field updates. *)
Definition set_phase p st := MkQueue p (lanes st) (player_local_ready st) (serialized_ready st)
  (exclusive_ready st) (serialized st) (exclusive st) (next_sequence st) (next_pause_generation st)
  (active st) (serialized_active st) (exclusive_active st) (completed st).
Definition set_lanes l st := MkQueue (phase st) l (player_local_ready st) (serialized_ready st)
  (exclusive_ready st) (serialized st) (exclusive st) (next_sequence st) (next_pause_generation st)
  (active st) (serialized_active st) (exclusive_active st) (completed st).
Definition set_heaps r1 r2 r3 o1 o2 st := MkQueue (phase st) (lanes st) r1 r2 r3 o1 o2
  (next_sequence st) (next_pause_generation st)
  (active st) (serialized_active st) (exclusive_active st) (completed st).
Definition set_next_sequence n st := MkQueue (phase st) (lanes st) (player_local_ready st)
  (serialized_ready st) (exclusive_ready st) (serialized st) (exclusive st) n
  (next_pause_generation st) (active st) (serialized_active st) (exclusive_active st) (completed st).
Definition set_next_pause_generation n st := MkQueue (phase st) (lanes st) (player_local_ready st)
  (serialized_ready st) (exclusive_ready st) (serialized st) (exclusive st) (next_sequence st)
  n (active st) (serialized_active st) (exclusive_active st) (completed st).
Definition set_activity a sa ea c st := MkQueue (phase st) (lanes st) (player_local_ready st)
  (serialized_ready st) (exclusive_ready st) (serialized st) (exclusive st) (next_sequence st)
  (next_pause_generation st) a sa ea c.

Definition set_lane (k : LaneKey) (o : option PacketLane) (m : gmap LaneKey PacketLane) :=
  partial_alter (fun _ => o) k m.

(** ** Heaps and selection *)

Definition ready (e : ScheduledPacketExecution) (st : PacketQueueState) : list (Z * LaneKey) :=
  match e with
  | PlayerLocal => player_local_ready st
  | Serialized => serialized_ready st
  | Exclusive => exclusive_ready st
  end.

Definition peek_ready e st : option (Z * LaneKey) := heap_peek reverse_entry (ready e st).
Definition peek_order (h : list Z) : option Z := heap_peek reverse_sequence h.

Definition mark_ready (st : PacketQueueState) (seq : Z) (key : LaneKey) (e : ScheduledPacketExecution) :=
  let entry := (seq, key) in
  match e with
  | PlayerLocal => set_heaps (heap_push (player_local_ready st) entry) (serialized_ready st)
      (exclusive_ready st) (serialized st) (exclusive st) st
  | Serialized => set_heaps (player_local_ready st) (heap_push (serialized_ready st) entry)
      (exclusive_ready st) (serialized st) (exclusive st) st
  | Exclusive => set_heaps (player_local_ready st) (serialized_ready st)
      (heap_push (exclusive_ready st) entry) (serialized st) (exclusive st) st
  end.

Definition mark_global_order (st : PacketQueueState) (seq : Z) (e : ScheduledPacketExecution) :=
  match e with
  | PlayerLocal => st
  | Serialized => set_heaps (player_local_ready st) (serialized_ready st) (exclusive_ready st)
      (heap_push (serialized st) seq) (exclusive st) st
  | Exclusive => set_heaps (player_local_ready st) (serialized_ready st) (exclusive_ready st)
      (serialized st) (heap_push (exclusive st) seq) st
  end.

Definition option_min (a b : option Z) : option Z :=
  match a, b with
  | Some x, Some y => Some (Z.min x y)
  | Some x, None => Some x
  | None, o => o
  end.

Definition next_ready_sequence (st : PacketQueueState) : option Z :=
  option_min (fst <$> peek_ready PlayerLocal st)
    (option_min (fst <$> peek_ready Serialized st) (fst <$> peek_ready Exclusive st)).

Definition Selection := (Z * LaneKey * ScheduledPacketExecution)%type.

(** The closure [consider] of [select_next]. *)
Definition consider (before_sequence next_exclusive : option Z) (entry : option (Z * LaneKey))
    (e : ScheduledPacketExecution) (selected : option Selection) : option Selection :=
  match entry with
  | None => selected
  | Some (seq, key) =>
      if match before_sequence with Some cutoff => cutoff <=? seq | None => false end
         || match next_exclusive with Some x => x <? seq | None => false end
      then selected
      else
        match selected with
        | Some (selected_sequence, _, _) =>
            if seq <? selected_sequence then Some (seq, key, e) else selected
        | None => Some (seq, key, e)
        end
  end.

Definition select_next (st : PacketQueueState) (before_sequence : option Z) : option Selection :=
  if exclusive_active st then None
  else
    let next_exclusive := peek_order (exclusive st) in
    let next_serialized := peek_order (serialized st) in
    let s1 := consider before_sequence next_exclusive (peek_ready PlayerLocal st) PlayerLocal None in
    let s2 :=
      if negb (serialized_active st)
         && match peek_ready Serialized st with
            | Some entry => bool_decide (Some entry.1 = next_serialized)
            | None => false
            end
      then consider before_sequence next_exclusive (peek_ready Serialized st) Serialized s1
      else s1 in
    if (active st =? 0)
       && match peek_ready Exclusive st with
          | Some entry => bool_decide (Some entry.1 = next_exclusive)
          | None => false
          end
    then consider before_sequence next_exclusive (peek_ready Exclusive st) Exclusive s2
    else s2.

Definition has_ready (st : PacketQueueState) : bool :=
  match next_ready_sequence st with Some _ => true | None => false end.

(** [matches!(state.phase, Open | Draining(_)) && next_ready_sequence(..).is_some()] *)
Definition should_wake_workers (st : PacketQueueState) : bool :=
  match phase st with Open | Draining _ => has_ready st | _ => false end.

(** ** Submission *)

Definition u64_max : Z := usize_max.
Definition saturating_sub (a b : Z) : Z := Z.max 0 (a - b).

(** [lanes.entry(key).or_insert_with(PacketLane::new)] *)
Definition lane_or_new (st : PacketQueueState) (key : LaneKey) : PacketLane :=
  default new_lane (lanes st !! key).

Definition is_paused (lane : PacketLane) : bool :=
  match pause_generation lane with Some _ => true | None => false end.

Definition try_submit (limits : PacketAdmissionLimits) (st : PacketQueueState) (key : LaneKey)
    (e : ScheduledPacketExecution) (bytes : Z) (v : T) : outcome PacketAdmissionError (PacketQueueState * Wakes) :=
  if decide (phase st = Stopped) then Err AdmissionStopped
  else
    let '(player_packets, player_bytes) :=
      match lanes st !! key with
      | Some lane => (outstanding_packets lane, outstanding_bytes lane)
      | None => (0, 0)
      end in
    if per_player_packets limits <=? player_packets then Err PlayerPacketLimit
    else if saturating_sub (per_player_bytes limits) player_bytes <? bytes then Err PlayerByteLimit
    else
      let lane := lane_or_new st key in
      if is_paused lane then
        let lane' := MkLane (queued lane) (deferred lane ++ [MkDeferred e bytes v]) (lane_active lane)
          (pause_generation lane) (outstanding_packets lane + 1) (outstanding_bytes lane + bytes) in
        Ok (set_lanes (<[key := lane']> (lanes st)) st, no_wakes)
      else
        let seq := next_sequence st in
        if seq =? u64_max then Panic
        else
          let became_ready := negb (lane_active lane) && match queued lane with [] => true | _ => false end in
          let lane' := MkLane (queued lane ++ [MkPacket seq e bytes v]) (deferred lane) (lane_active lane)
            (pause_generation lane) (outstanding_packets lane + 1) (outstanding_bytes lane + bytes) in
          let st1 := set_lanes (<[key := lane']> (lanes st)) (set_next_sequence (seq + 1) st) in
          let st2 := if became_ready then mark_ready st1 seq key e else st1 in
          let st3 := mark_global_order st2 seq e in
          Ok (st3, MkWakes (wake_if (became_ready && bool_decide (phase st3 = Open)) NotifyOne) false NoWake).

(** ** Phases *)

Definition is_some {A} (o : option A) : bool := match o with Some _ => true | None => false end.

Definition open (st : PacketQueueState) : PacketQueueState * Wakes :=
  if decide (phase st = Stopped) then (st, no_wakes)
  else
    let st' := set_phase Open st in
    (st', MkWakes (wake_if (is_some (select_next st' None)) NotifyAll) false NoWake).

(** The result is the cutoff; the wake of [drain_for_tick] is included. *)
Definition begin_tick_drain (st : PacketQueueState) : PacketQueueState * option Z * Wakes :=
  match phase st with
  | Stopped => (st, None, no_wakes)
  | Draining before =>
      (st, Some before, MkWakes (wake_if (is_some (select_next st (Some before))) NotifyAll) false NoWake)
  | Closed | Open =>
      let before := next_sequence st in
      let st' := set_phase (Draining before) st in
      (st', Some before, MkWakes (wake_if (is_some (select_next st' (Some before))) NotifyAll) false NoWake)
  end.

Definition tick_drain_complete (st : PacketQueueState) (before_sequence : Z) : bool :=
  if decide (phase st = Stopped) then true
  else if negb (active st =? 0) then false
  else match next_ready_sequence st with Some seq => before_sequence <=? seq | None => true end.

Definition finish_tick_drain (st : PacketQueueState) (before_sequence : Z) : PacketQueueState :=
  if decide (phase st = Draining before_sequence) then set_phase Closed st else st.

Definition lane_has_work (lane : PacketLane) : Prop := pause_generation lane = None /\ queued lane <> [].

#[export] Instance lane_has_work_dec lane : Decision (lane_has_work lane).
Proof.
  unfold lane_has_work. destruct (pause_generation lane); [right; naive_solver|].
  destruct (queued lane); [right; naive_solver|left; done].
Defined.

Definition has_work (st : PacketQueueState) : bool :=
  negb (active st =? 0)
  || bool_decide (Exists (fun kl => lane_has_work kl.2) (map_to_list (lanes st))).

Definition progress_baseline (st : PacketQueueState) : option Z :=
  if has_work st then Some (completed st) else None.

Definition has_progress_since (st : PacketQueueState) (done : Z) : bool :=
  negb (completed st =? done) || negb (has_work st) || bool_decide (phase st = Stopped).

(** ** Pausing, resuming, discarding *)

Definition lane_sequences (lane : PacketLane) : list Z := sequence <$> queued lane.

Definition retain_other (key : LaneKey) (h : list (Z * LaneKey)) : list (Z * LaneKey) :=
  filter (fun entry => entry.2 <> key) h.
Definition retain_not_in (seqs : list Z) (h : list Z) : list Z := filter (fun s => s ∉ seqs) h.

Definition withdraw_lane (key : LaneKey) (seqs : list Z) (st : PacketQueueState) : PacketQueueState :=
  set_heaps (retain_other key (player_local_ready st)) (retain_other key (serialized_ready st))
    (retain_other key (exclusive_ready st)) (retain_not_in seqs (serialized st))
    (retain_not_in seqs (exclusive st)) st.

Definition defer_packet (p : SequencedPacket) : DeferredPacket :=
  MkDeferred (execution p) (admission_bytes p) (value p).

Definition is_idle (st : PacketQueueState) : bool := active st =? 0.

Definition pause_lane (st : PacketQueueState) (key : LaneKey) :
    outcome Empty_set (PacketQueueState * option PacketLanePause * Wakes) :=
  if decide (phase st = Stopped) then Ok (st, None, no_wakes)
  else
    let lane := lane_or_new st key in
    if is_paused lane then Ok (st, None, no_wakes)
    else
      let g := next_pause_generation st in
      if g =? u64_max then Panic
      else
        let lane' := MkLane [] (deferred lane ++ (defer_packet <$> queued lane)) (lane_active lane)
          (Some g) (outstanding_packets lane) (outstanding_bytes lane) in
        let st' := withdraw_lane key (lane_sequences lane)
          (set_lanes (<[key := lane']> (lanes st)) (set_next_pause_generation (g + 1) st)) in
        Ok (st', Some (MkPause key g),
            MkWakes (wake_if (should_wake_workers st') NotifyAll) (is_idle st') NotifyOne).

(** The loop of [resume_lane] that gives deferred packets fresh sequences. *)
Fixpoint readmit (st : PacketQueueState) (seq : Z) (ds : list DeferredPacket) :
    PacketQueueState * list SequencedPacket :=
  match ds with
  | [] => (st, [])
  | d :: ds =>
      let '(st', ps) := readmit (mark_global_order st seq (deferred_execution d)) (seq + 1) ds in
      (st', MkPacket seq (deferred_execution d) (deferred_bytes d) (deferred_value d) :: ps)
  end.

Definition resume_lane (st : PacketQueueState) (pause : PacketLanePause) :
    outcome Empty_set (PacketQueueState * bool * Wakes) :=
  if decide (phase st = Stopped) then Ok (st, false, no_wakes)
  else
    match lanes st !! pause_key pause with
    | None => Ok (st, false, no_wakes)
    | Some lane =>
        if decide (pause_generation lane <> Some (generation pause)) then Ok (st, false, no_wakes)
        else
          let first_sequence := next_sequence st in
          let next := first_sequence + Z.of_nat (length (deferred lane)) in
          if u64_max <? next then Panic
          else
            let '(st1, ps) := readmit (set_next_sequence next st) first_sequence (deferred lane) in
            let lane' := MkLane (queued lane ++ ps) [] (lane_active lane) None
              (outstanding_packets lane) (outstanding_bytes lane) in
            let st2 := set_lanes (<[pause_key pause := lane']> (lanes st1)) st1 in
            let st3 :=
              if lane_active lane then st2
              else match ps with
                   | p :: _ => mark_ready st2 (sequence p) (pause_key pause) (execution p)
                   | [] => set_lanes (delete (pause_key pause) (lanes st2)) st2
                   end in
            Ok (st3, true, MkWakes (wake_if (should_wake_workers st3) NotifyAll) false NotifyOne)
    end.

Definition lane_held_packets (lane : PacketLane) : Z :=
  Z.of_nat (length (queued lane)) + Z.of_nat (length (deferred lane)).
Definition lane_held_bytes (lane : PacketLane) : Z :=
  list_sum admission_bytes (queued lane) + list_sum deferred_bytes (deferred lane).

(** Clears a lane's packets; [None] is a failed accounting assertion. *)
Definition clear_lane (lane : PacketLane) : option PacketLane :=
  if outstanding_packets lane <? lane_held_packets lane then None
  else if outstanding_bytes lane <? lane_held_bytes lane then None
  else Some (MkLane [] [] (lane_active lane) None
               (outstanding_packets lane - lane_held_packets lane)
               (outstanding_bytes lane - lane_held_bytes lane)).

Definition discard_lane (st : PacketQueueState) (key : LaneKey) :
    outcome Empty_set (PacketQueueState * Wakes) :=
  match lanes st !! key with
  | None => Ok (st, no_wakes)
  | Some lane =>
      match clear_lane lane with
      | None => Panic
      | Some lane' =>
          let lanes' := if lane_active lane then <[key := lane']> (lanes st) else delete key (lanes st) in
          let st' := withdraw_lane key (lane_sequences lane) (set_lanes lanes' st) in
          Ok (st', MkWakes (wake_if (should_wake_workers st') NotifyAll) (is_idle st') NotifyOne)
      end
  end.

Definition stop (st : PacketQueueState) : outcome Empty_set (PacketQueueState * Wakes) :=
  if bool_decide (map_Forall (fun _ lane => is_Some (clear_lane lane)) (lanes st)) then
    let lanes' := omap (fun lane => if lane_active lane then clear_lane lane else None) (lanes st) in
    let st' := set_phase Stopped (set_lanes lanes' (set_heaps [] [] [] [] [] st)) in
    Ok (st', MkWakes NotifyAll (is_idle st') NotifyAll)
  else Panic.

(** ** Taking work *)

Record PacketWork := MkWork {
  work_key : LaneKey; work_execution : ScheduledPacketExecution; work_bytes : Z; work_value : T }.

(** [assert!(heap.pop() == Some(Reverse(expected)))] *)
Definition pop_expected {A} `{!EqDecision A} (cmp : A -> A -> comparison) (h : list A) (expected : A) :
    outcome Empty_set (list A) :=
  match heap_pop cmp h with
  | Some (m, rest) => if decide (m = expected) then Ok rest else Panic
  | None => Panic
  end.

Definition pop_started (st : PacketQueueState) (seq : Z) (key : LaneKey) (e : ScheduledPacketExecution) :
    outcome Empty_set PacketQueueState :=
  match e with
  | PlayerLocal =>
      let? r := pop_expected reverse_entry (player_local_ready st) (seq, key) in
      Ok (set_heaps r (serialized_ready st) (exclusive_ready st) (serialized st) (exclusive st) st)
  | Serialized =>
      let? r := pop_expected reverse_entry (serialized_ready st) (seq, key) in
      let? o := pop_expected reverse_sequence (serialized st) seq in
      if serialized_active st then Panic
      else Ok (set_activity (active st) true (exclusive_active st) (completed st)
                 (set_heaps (player_local_ready st) r (exclusive_ready st) o (exclusive st) st))
  | Exclusive =>
      let? r := pop_expected reverse_entry (exclusive_ready st) (seq, key) in
      let? o := pop_expected reverse_sequence (exclusive st) seq in
      Ok (set_activity (active st) (serialized_active st) true (completed st)
            (set_heaps (player_local_ready st) (serialized_ready st) r (serialized st) o st))
  end.

Definition start_next (st : PacketQueueState) (before_sequence : option Z) :
    outcome Empty_set (option PacketWork * PacketQueueState) :=
  match select_next st before_sequence with
  | None => Ok (None, st)
  | Some (ready_sequence, key, e) =>
      match lanes st !! key with
      | None => Panic
      | Some lane =>
          if lane_active lane then Panic
          else
            match queued lane with
            | [] => Panic
            | packet :: rest =>
                if decide (ready_sequence = sequence packet /\ e = execution packet) then
                  let? st1 := pop_started st ready_sequence key e in
                  let lane' := MkLane rest (deferred lane) true (pause_generation lane)
                    (outstanding_packets lane) (outstanding_bytes lane) in
                  Ok (Some (MkWork key e (admission_bytes packet) (value packet)),
                      set_lanes (<[key := lane']> (lanes st1)) st1)
                else Panic
            end
      end
  end.

Inductive NextResult :=
| WorkerStop
| StartWork (work : PacketWork) (st : PacketQueueState)
| WaitForWork.

Definition phase_cutoff (st : PacketQueueState) : option (option Z) :=
  match phase st with
  | Open => Some None
  | Draining before => Some (Some before)
  | Closed | Stopped => None
  end.

(** One turn of the loop of [next], under the lock. *)
Definition next (st : PacketQueueState) : outcome Empty_set NextResult :=
  if decide (phase st = Stopped) then Ok WorkerStop
  else
    match phase_cutoff st with
    | None => Ok WaitForWork
    | Some before_sequence =>
        let? ' (work, st') := start_next st before_sequence in
        match work with
        | Some work =>
            Ok (StartWork work (set_activity (active st' + 1) (serialized_active st') (exclusive_active st')
                                  (completed st') st'))
        | None => Ok WaitForWork
        end
    end.

(** ** Completion *)

Definition finish_activity (st : PacketQueueState) (e : ScheduledPacketExecution) :
    outcome Empty_set PacketQueueState :=
  if active st <=? 0 then Panic
  else
    let st1 := set_activity (active st - 1) (serialized_active st) (exclusive_active st)
                 (wrapu 64 (completed st + 1)) st in
    match e with
    | PlayerLocal => Ok st1
    | Serialized =>
        if serialized_active st1
        then Ok (set_activity (active st1) false (exclusive_active st1) (completed st1) st1) else Panic
    | Exclusive =>
        if exclusive_active st1
        then Ok (set_activity (active st1) (serialized_active st1) false (completed st1) st1) else Panic
    end.

Definition finish_wake (e : ScheduledPacketExecution) : WorkerWake :=
  match e with Exclusive => NotifyAll | PlayerLocal | Serialized => NotifyOne end.

Definition finish_one (st : PacketQueueState) (key : LaneKey) (e : ScheduledPacketExecution) (bytes : Z) :
    outcome Empty_set (PacketQueueState * Wakes) :=
  let? st1 := finish_activity st e in
  match lanes st1 !! key with
  | None => Panic
  | Some lane =>
      if negb (lane_active lane) then Panic
      else if outstanding_packets lane <=? 0 then Panic
      else if outstanding_bytes lane <? bytes then Panic
      else
        let lane' := MkLane (queued lane) (deferred lane) false (pause_generation lane)
          (outstanding_packets lane - 1) (outstanding_bytes lane - bytes) in
        let st2 := set_lanes (<[key := lane']> (lanes st1)) st1 in
        let? st3 :=
          match queued lane' with
          | p :: _ => Ok (if is_paused lane' then st2 else mark_ready st2 (sequence p) key (execution p))
          | [] =>
              if is_paused lane' then Ok st2
              else if (outstanding_packets lane' =? 0) && (outstanding_bytes lane' =? 0)
              then Ok (set_lanes (delete key (lanes st2)) st2) else Panic
          end in
        Ok (st3, MkWakes (wake_if (should_wake_workers st3) (finish_wake e)) (is_idle st3) NotifyOne)
  end.

(** ** Heaps *)

Lemma reverse_entry_Eq a b : reverse_entry a b = Eq -> a = b.
Proof.
  unfold reverse_entry, reverse. intros H. apply pair_cmp_eq. by destruct (pair_cmp a b).
Qed.

Lemma reverse_entry_le a b : reverse_entry b a <> Gt -> a.1 <= b.1.
Proof.
  unfold reverse_entry, reverse, pair_cmp, then_with. intros H.
  destruct (Z.compare_spec b.1 a.1); [lia| |lia]. exfalso. by apply H.
Qed.

Lemma peek_ready_min e st s k : peek_ready e st = Some (s, k) ->
  (s, k) ∈ ready e st /\ forall s' k', (s', k') ∈ ready e st -> s <= s'.
Proof.
  intros H. split; [by apply (heap_peek_elem reverse_entry)|]. intros s' k' Hin.
  apply (reverse_entry_le (s, k) (s', k')). by apply (heap_peek_max reverse_entry) with (ready e st).
Qed.

Lemma peek_ready_intro e st s k : (s, k) ∈ ready e st ->
  (forall s' k', (s', k') ∈ ready e st -> s <= s' /\ (s' = s -> k' = k)) -> peek_ready e st = Some (s, k).
Proof.
  intros Hin Hmin. destruct (peek_ready e st) as [[s' k']|] eqn:E.
  - apply peek_ready_min in E as [Hin' Hle]. specialize (Hle _ _ Hin). destruct (Hmin _ _ Hin') as [H1 H2].
    assert (s' = s) by lia. by rewrite H, (H2 H).
  - apply heap_peek_none in E. rewrite E in Hin. by apply elem_of_nil in Hin.
Qed.

Lemma peek_ready_none e st : peek_ready e st = None <-> ready e st = [].
Proof. apply heap_peek_none. Qed.

Lemma peek_order_min h s : peek_order h = Some s -> s ∈ h /\ forall s', s' ∈ h -> s <= s'.
Proof.
  intros H. split; [by apply (heap_peek_elem reverse_sequence)|]. intros s' Hin.
  pose proof (heap_peek_max reverse_sequence h s s' H Hin) as Hc.
  unfold reverse_sequence, reverse in Hc. destruct (Z.compare_spec s' s); [lia| |lia]. exfalso. by apply Hc.
Qed.

Lemma peek_order_intro h s : s ∈ h -> (forall s', s' ∈ h -> s <= s') -> peek_order h = Some s.
Proof.
  intros Hin Hmin. destruct (peek_order h) as [s'|] eqn:E.
  - apply peek_order_min in E as [Hin' Hle]. specialize (Hle _ Hin). specialize (Hmin _ Hin'). f_equal. lia.
  - apply heap_peek_none in E. rewrite E in Hin. by apply elem_of_nil in Hin.
Qed.

Lemma pop_expected_peek {A} `{!EqDecision A} (cmp : A -> A -> comparison) h m :
  heap_peek cmp h = Some m -> exists rest, pop_expected cmp h m = Ok rest /\ h ≡ₚ m :: rest.
Proof.
  intros [rest Hp]%heap_peek_pop. exists rest. unfold pop_expected. rewrite Hp, decide_True by done.
  split; [done|by apply (heap_pop_perm cmp)].
Qed.

(** ** Selection *)

Definition blocked_by (next_exclusive : option Z) (s : Z) : bool :=
  match next_exclusive with Some x => x <? s | None => false end.
Definition past_cutoff (before : option Z) (s : Z) : bool :=
  match before with Some cutoff => cutoff <=? s | None => false end.

(** What a selection made so far satisfies: it is a candidate entry, and no
    candidate among those considered comes earlier. *)
Lemma consider_spec before nx entry e sel s k e' :
  consider before nx entry e sel = Some (s, k, e') ->
  (sel = Some (s, k, e') \/
    (entry = Some (s, k) /\ e' = e /\ past_cutoff before s = false /\ blocked_by nx s = false
     /\ forall s0 k0 e0, sel = Some (s0, k0, e0) -> s < s0)).
Proof.
  unfold consider. destruct entry as [[s1 k1]|]; [|by left].
  fold (past_cutoff before s1) (blocked_by nx s1).
  destruct (past_cutoff before s1) eqn:E1; [by left|]. destruct (blocked_by nx s1) eqn:E2; [by left|]. simpl.
  destruct sel as [[[s0 k0] e0]|].
  - destruct (Z.ltb_spec s1 s0) as [Hlt|Hge]; [|by left]. intros [= <- <- <-]. right.
    split_and!; try done. intros ??? [= <- _ _]. done.
  - intros [= <- <- <-]. right. split_and!; done.
Qed.

Lemma consider_le before nx entry e sel s0 k0 e0 : sel = Some (s0, k0, e0) ->
  exists s k e', consider before nx entry e sel = Some (s, k, e') /\ s <= s0.
Proof.
  intros ->. unfold consider. destruct entry as [[s1 k1]|]; [|by exists s0, k0, e0].
  destruct (_ || _); [by exists s0, k0, e0|].
  destruct (Z.ltb_spec s1 s0); [exists s1, k1, e|exists s0, k0, e0]; split; (done || lia).
Qed.

(** A candidate that no earlier selection precedes is picked. *)
Lemma consider_pick before nx s k e sel : past_cutoff before s = false -> blocked_by nx s = false ->
  (forall s0 k0 e0, sel = Some (s0, k0, e0) -> s < s0) -> consider before nx (Some (s, k)) e sel = Some (s, k, e).
Proof.
  intros H1 H2 H3. unfold consider. fold (past_cutoff before s) (blocked_by nx s). rewrite H1, H2. simpl.
  destruct sel as [[[s0 k0] e0]|]; [|done]. specialize (H3 _ _ _ eq_refl). by zbool.
Qed.

Lemma consider_keep before nx entry s k e sel e' : sel = Some (s, k, e') ->
  (forall s0 k0, entry = Some (s0, k0) -> s <= s0) -> consider before nx entry e sel = sel.
Proof.
  intros -> H. unfold consider. destruct entry as [[s0 k0]|]; [|done]. specialize (H _ _ eq_refl).
  destruct (_ || _); [done|]. by zbool.
Qed.

Definition order (e : ScheduledPacketExecution) (st : PacketQueueState) : list Z :=
  match e with PlayerLocal => [] | Serialized => serialized st | Exclusive => exclusive st end.

Record selectable (st : PacketQueueState) (before : option Z) (s : Z) (k : LaneKey) (e : ScheduledPacketExecution) : Prop := {
  sel_peek : peek_ready e st = Some (s, k);
  sel_no_exclusive : exclusive_active st = false;
  sel_cutoff : past_cutoff before s = false;
  sel_barrier : forall x, x ∈ exclusive st -> s <= x;
  sel_serialized : e = Serialized -> serialized_active st = false;
  sel_order : e <> PlayerLocal -> peek_order (order e st) = Some s;
  sel_alone : e = Exclusive -> active st = 0 }.

Lemma blocked_by_spec st s : blocked_by (peek_order (exclusive st)) s = false <-> forall x, x ∈ exclusive st -> s <= x.
Proof.
  unfold blocked_by. destruct (peek_order (exclusive st)) as [x|] eqn:E.
  - apply peek_order_min in E as [Hin Hmin]. rewrite Z.ltb_ge. split.
    + intros Hx y Hy. specialize (Hmin y Hy). lia.
    + intros H. by apply H.
  - apply heap_peek_none in E. rewrite E. split; [|done]. intros _ x Hx. by apply elem_of_nil in Hx.
Qed.

Lemma select_next_sound st before s k e : select_next st before = Some (s, k, e) -> selectable st before s k e.
Proof.
  unfold select_next. destruct (exclusive_active st) eqn:Ex; [done|]. cbv zeta. set (s1 := consider _ _ _ PlayerLocal _).
  assert (H1 : forall s k e, s1 = Some (s, k, e) -> selectable st before s k e).
  { intros ??? H. apply consider_spec in H as [?|(? & -> & ? & Hb & _)]; [done|].
    split; try done. by apply blocked_by_spec. }
  set (s2 := if _ && _ then consider _ _ _ Serialized _ else _).
  assert (H2 : forall s k e, s2 = Some (s, k, e) -> selectable st before s k e).
  { intros ???. unfold s2. destruct (serialized_active st) eqn:Es; [apply H1|].
    destruct (peek_ready Serialized st) as [[s' k']|] eqn:Ep; [|apply H1]. cbn [fst negb andb].
    case_bool_decide as Ho; [|apply H1]. intros H.
    apply consider_spec in H as [?|([= -> ->] & -> & ? & Hb & _)]; [by apply H1|].
    split; try done. by apply blocked_by_spec. }
  destruct (Z.eqb_spec (active st) 0) as [Ea|]; [|apply H2].
  destruct (peek_ready Exclusive st) as [[s' k']|] eqn:Ep; [|apply H2]. cbn [fst andb].
  case_bool_decide as Ho; [|apply H2]. intros H.
  apply consider_spec in H as [?|([= -> ->] & -> & ? & Hb & _)]; [by apply H2|].
  split; try done. by apply blocked_by_spec.
Qed.

(** ** The invariant *)

(** What a lane contributes to the ready heaps, and its sequences. *)
Definition ready_entry (o : option PacketLane) : option (Z * ScheduledPacketExecution) :=
  match o with
  | Some lane =>
      if lane_active lane || is_paused lane then None
      else match queued lane with p :: _ => Some (sequence p, execution p) | [] => None end
  | None => None
  end.

Definition seqs_of (o : option PacketLane) : list Z :=
  match o with Some lane => lane_sequences lane | None => [] end.

Definition queued_as (e : ScheduledPacketExecution) (o : option PacketLane) (s : Z) : Prop :=
  match o with
  | Some lane => exists p, p ∈ queued lane /\ sequence p = s /\ execution p = e
  | None => False
  end.

(** The heaps index the lanes. *)
Record index_ok (st : PacketQueueState) : Prop := {
  ready_spec : forall e s k, (s, k) ∈ ready e st <-> ready_entry (lanes st !! k) = Some (s, e);
  ready_nodup : forall e, NoDup (ready e st);
  order_spec : forall e s, e <> PlayerLocal -> s ∈ order e st <-> exists k, queued_as e (lanes st !! k) s;
  order_nodup : forall e, NoDup (order e st) }.

(** Sequences increase along a lane, are below the counter, and unique. *)
Record seqs_ok (m : gmap LaneKey PacketLane) (n : Z) : Prop := {
  seq_sorted : forall k, StronglySorted Z.lt (seqs_of (m !! k));
  seq_bound : forall k s, s ∈ seqs_of (m !! k) -> 0 <= s < n;
  seq_distinct : forall k1 k2 s, s ∈ seqs_of (m !! k1) -> s ∈ seqs_of (m !! k2) -> k1 = k2 }.

(** One lane, given its running packet if there is one. *)
Record lane_ok (limits : PacketAdmissionLimits) (next_gen : Z) (w : option PacketWork) (lane : PacketLane) : Prop := {
  lane_paused : is_paused lane = true -> queued lane = [];
  lane_unpaused : is_paused lane = false -> deferred lane = [];
  lane_running : lane_active lane = is_some w;
  lane_packets : outstanding_packets lane = lane_held_packets lane + (if is_some w then 1 else 0);
  lane_bytes : outstanding_bytes lane = lane_held_bytes lane + match w with Some w => work_bytes w | None => 0 end;
  lane_packet_limit : outstanding_packets lane <= per_player_packets limits;
  lane_byte_limit : outstanding_bytes lane <= per_player_bytes limits;
  lane_generation : forall g, pause_generation lane = Some g -> 0 <= g < next_gen;
  lane_queued_bytes : Forall (fun p => 0 <= admission_bytes p) (queued lane);
  lane_deferred_bytes : Forall (fun p => 0 <= deferred_bytes p) (deferred lane);
  lane_work_bytes : forall w', w = Some w' -> 0 <= work_bytes w' }.

(** A lane is kept only while it is running, paused or has packets. *)
Definition lane_needed (lane : PacketLane) : Prop :=
  lane_active lane = false -> is_paused lane = false -> queued lane <> [].

Definition is_execution (e : ScheduledPacketExecution) (w : PacketWork) : Prop := work_execution w = e.
#[export] Instance is_execution_dec e w : Decision (is_execution e w).
Proof. unfold is_execution. apply _. Defined.

(** The running packets: one per session, at most one serialized, an exclusive
    one alone. *)
Record works_ok (st : PacketQueueState) (ws : list PacketWork) : Prop := {
  works_keyed : keyed work_key ws;
  works_lanes : forall w, w ∈ ws -> is_Some (lanes st !! work_key w);
  works_count : active st = Z.of_nat (length ws);
  works_serialized : length (filter (is_execution Serialized) ws) = Nat.b2n (serialized_active st);
  works_exclusive : length (filter (is_execution Exclusive) ws) = Nat.b2n (exclusive_active st);
  works_alone : exclusive_active st = true -> length ws = 1%nat }.

Record queue_ok (limits : PacketAdmissionLimits) (st : PacketQueueState) (ws : list PacketWork) : Prop := {
  ok_index : index_ok st;
  ok_seqs : seqs_ok (lanes st) (next_sequence st);
  ok_lanes : forall k lane, lanes st !! k = Some lane ->
    lane_ok limits (next_pause_generation st) (lookup_key work_key k ws) lane;
  ok_needed : forall k lane, lanes st !! k = Some lane -> lane_needed lane;
  ok_works : works_ok st ws;
  ok_next : 0 <= next_sequence st <= u64_max;
  ok_generation : 0 <= next_pause_generation st <= u64_max }.

Lemma queued_as_seqs e o s : queued_as e o s -> s ∈ seqs_of o.
Proof. destruct o as [lane|]; [|done]. intros (p & Hp & <- & _). by apply list_elem_of_fmap_2. Qed.

Lemma seqs_queued_as o s : s ∈ seqs_of o -> exists e, queued_as e o s.
Proof.
  destruct o as [lane|]; [|intros H; by apply elem_of_nil in H].
  intros (p & -> & Hp)%list_elem_of_fmap. exists (execution p), p. done.
Qed.

Lemma ready_entry_queued o s e : ready_entry o = Some (s, e) -> queued_as e o s.
Proof.
  destruct o as [lane|]; [|done]. simpl. destruct (_ || _); [done|].
  destruct (queued lane) as [|p ps] eqn:E; [done|]. intros [= <- <-]. exists p. split; [by left|done].
Qed.

(** The front of a lane comes first. *)
Lemma ready_entry_first m n k s e s' : seqs_ok m n -> ready_entry (m !! k) = Some (s, e) ->
  s' ∈ seqs_of (m !! k) -> s <= s'.
Proof.
  intros Hs. pose proof (seq_sorted m n Hs k) as Hsort. destruct (m !! k) as [lane|]; [|done]. simpl in *.
  destruct (_ || _); [done|]. unfold lane_sequences in *. destruct (queued lane) as [|p ps]; [done|].
  intros [= <- <-]. cbn [fmap list_fmap] in *. apply StronglySorted_inv in Hsort as [_ Hf].
  rewrite Forall_forall in Hf. intros [->|Hin]%elem_of_cons; [lia|]. specialize (Hf _ Hin). lia.
Qed.

(** A lane that is neither running nor paused has its front ready. *)
Lemma ready_entry_exists lane s : lane_active lane = false -> is_paused lane = false ->
  s ∈ lane_sequences lane -> exists s0 e, ready_entry (Some lane) = Some (s0, e).
Proof.
  intros Ha Hp Hs. simpl. rewrite Ha, Hp. simpl. unfold lane_sequences in Hs.
  destruct (queued lane) as [|p ps]; [by apply elem_of_nil in Hs|]. by eexists _, _.
Qed.

(** A property of some natural sequence has a least witness. *)
Lemma least_sequence (P : Z -> Prop) : (forall s, P s -> 0 <= s) -> (forall s, Decision (exists x, P x /\ x < s)) ->
  forall s, P s -> exists m, P m /\ m <= s /\ forall x, P x -> m <= x.
Proof.
  intros Hpos Hdec s. remember (Z.to_nat s) as n eqn:En. revert s En.
  induction n as [n IH] using lt_wf_ind. intros s En Hs. destruct (Hdec s) as [(x & Hx & Hlt)|Hno].
  - destruct (IH (Z.to_nat x) ltac:(pose proof (Hpos _ Hx); lia) x eq_refl Hx) as (m & Hm & Hle & Hmin).
    exists m. split_and!; [done|lia|done].
  - exists s. split_and!; [done|lia|]. intros x Hx. destruct (Z.le_gt_cases s x); [done|]. destruct Hno. by exists x.
Qed.

Definition in_some_lane (m : gmap LaneKey PacketLane) (s : Z) : Prop := exists k, s ∈ seqs_of (m !! k).

Lemma in_some_lane_list m s : in_some_lane m s <-> s ∈ mjoin ((fun kl => lane_sequences kl.2) <$> map_to_list m).
Proof.
  unfold in_some_lane. rewrite list_elem_of_join. setoid_rewrite list_elem_of_fmap. split.
  - intros [k Hs]. destruct (m !! k) as [lane|] eqn:E; [|by apply elem_of_nil in Hs].
    exists (lane_sequences lane). split; [done|]. exists (k, lane). split; [done|]. by apply elem_of_map_to_list.
  - intros (l & Hs & [k lane] & -> & Hk%elem_of_map_to_list). exists k. by rewrite Hk.
Qed.

#[export] Instance in_some_lane_before_dec m s : Decision (exists x, in_some_lane m x /\ x < s).
Proof.
  destruct (decide (Exists (fun x => x < s) (mjoin ((fun kl => lane_sequences kl.2) <$> map_to_list m)))) as [H|H].
  - left. apply Exists_exists in H as (x & Hx & Hlt). exists x. split; [by apply in_some_lane_list|done].
  - right. intros (x & Hx%in_some_lane_list & Hlt). apply H, Exists_exists. by exists x.
Qed.

Lemma if_same {A} (b : bool) (x : A) : (if b then x else x) = x.
Proof. by destruct b. Qed.

Section Progress.
Context {limits : PacketAdmissionLimits} {st : PacketQueueState} {ws : list PacketWork} (Hok : queue_ok limits st ws).

Lemma ready_in_lane e s k : (s, k) ∈ ready e st -> s ∈ seqs_of (lanes st !! k).
Proof. intros H%(ready_spec st (ok_index _ _ _ Hok)). by eapply queued_as_seqs, ready_entry_queued. Qed.

Lemma ready_unique e1 e2 s k1 k2 : (s, k1) ∈ ready e1 st -> (s, k2) ∈ ready e2 st -> k1 = k2 /\ e1 = e2.
Proof.
  intros H1 H2. pose proof (seq_distinct _ _ (ok_seqs _ _ _ Hok) k1 k2 s (ready_in_lane _ _ _ H1) (ready_in_lane _ _ _ H2)) as ->.
  apply (ready_spec st (ok_index _ _ _ Hok)) in H1. apply (ready_spec st (ok_index _ _ _ Hok)) in H2.
  split; congruence.
Qed.

Lemma order_in_lane e s : s ∈ order e st -> in_some_lane (lanes st) s.
Proof.
  intros H. assert (e <> PlayerLocal) by (intros ->; by apply elem_of_nil in H).
  apply (order_spec st (ok_index _ _ _ Hok)) in H as [k Hk]; [|done]. exists k. by eapply queued_as_seqs.
Qed.

(** A lane with a packet and no running work has its front ready. *)
Lemma idle_lane_ready k lane s : lanes st !! k = Some lane -> lookup_key work_key k ws = None ->
  s ∈ lane_sequences lane -> exists s0 e, (s0, k) ∈ ready e st /\ s0 <= s.
Proof.
  intros Hk Hw Hs. pose proof (ok_lanes _ _ _ Hok k lane Hk) as Hl. rewrite Hw in Hl.
  assert (Hp : is_paused lane = false).
  { destruct (is_paused lane) eqn:E; [|done]. unfold lane_sequences in Hs.
    rewrite (lane_paused _ _ _ _ Hl E) in Hs. by apply elem_of_nil in Hs. }
  destruct (ready_entry_exists lane s (lane_running _ _ _ _ Hl) Hp Hs) as (s0 & e & Hr). rewrite <- Hk in Hr.
  exists s0, e. split; [by apply (ready_spec st (ok_index _ _ _ Hok))|].
  apply (ready_entry_first _ _ _ _ _ s (ok_seqs _ _ _ Hok) Hr). by rewrite Hk.
Qed.

Lemma least_ready_front m k : ws = [] -> m ∈ seqs_of (lanes st !! k) ->
  (forall x, in_some_lane (lanes st) x -> m <= x) -> exists e, peek_ready e st = Some (m, k).
Proof.
  intros Hws Hm Hmin. destruct (lanes st !! k) as [lane|] eqn:Ek; [|by apply elem_of_nil in Hm].
  destruct (idle_lane_ready k lane m Ek ltac:(by rewrite Hws) Hm) as (s0 & e & Hr & Hle).
  pose proof (Hmin s0 ltac:(by exists k; apply ready_in_lane with e)). assert (s0 = m) as -> by lia.
  exists e. apply peek_ready_intro; [done|]. intros s' k' Hin. split.
  - apply Hmin. exists k'. by apply ready_in_lane with e.
  - intros ->. by destruct (ready_unique _ _ _ _ _ Hin Hr).
Qed.

(** With nothing running, the queued packet of least sequence is selected. *)
Lemma select_next_least before s : ws = [] -> in_some_lane (lanes st) s -> past_cutoff before s = false ->
  exists m k e, select_next st before = Some (m, k, e) /\ m <= s /\ forall x, in_some_lane (lanes st) x -> m <= x.
Proof.
  intros Hws Hs Hcut.
  destruct (least_sequence (in_some_lane (lanes st))) with s as (m & [k Hk] & Hle & Hmin); [|apply _|done|].
  { intros x [k Hx]. pose proof (seq_bound _ _ (ok_seqs _ _ _ Hok) k x Hx). lia. }
  destruct (least_ready_front m k Hws Hk Hmin) as [e Hp]. exists m, k, e. split; [|done].
  pose proof (ok_works _ _ _ Hok) as Hw. rewrite Hws in Hw. destruct Hw as [_ _ Hc Hser Hex _]. cbn in Hc, Hser, Hex.
  assert (Hcut' : past_cutoff before m = false).
  { unfold past_cutoff in *. destruct before; [|done]. rewrite Z.leb_gt in *. lia. }
  assert (Hb : blocked_by (peek_order (exclusive st)) m = false).
  { apply blocked_by_spec. intros x Hx. apply Hmin. by apply (order_in_lane Exclusive). }
  assert (Hother : forall e' s' k', peek_ready e' st = Some (s', k') -> m <= s' /\ (e' <> e -> m < s')).
  { intros e' s' k' [Hin _]%peek_ready_min. assert (m <= s') by (apply Hmin; exists k'; by apply ready_in_lane with e').
    split; [done|]. intros Hne. assert (s' <> m); [|lia]. intros ->. apply peek_ready_min in Hp as [Hp _].
    by destruct (ready_unique _ _ _ _ _ Hin Hp). }
  assert (Hord : e <> PlayerLocal -> peek_order (order e st) = Some m).
  { intros Hne. apply peek_order_intro; [|intros x Hx; apply Hmin; by apply (order_in_lane e)].
    apply (order_spec st (ok_index _ _ _ Hok)); [done|]. exists k. apply ready_entry_queued.
    apply (ready_spec st (ok_index _ _ _ Hok)). by apply peek_ready_min. }
  unfold select_next. destruct (exclusive_active st); [done|]. destruct (serialized_active st); [done|].
  rewrite Hc. cbv zeta. cbn [negb andb Z.eqb length Z.of_nat]. destruct e; cbn [order] in Hord.
  - rewrite Hp. rewrite (consider_pick _ _ m k PlayerLocal None) by done.
    assert (Hk1 : forall e', consider before (peek_order (exclusive st)) (peek_ready e' st) e' (Some (m, k, PlayerLocal))
      = Some (m, k, PlayerLocal)).
    { intros e'. apply (consider_keep _ _ _ m k e' _ PlayerLocal); [done|].
      intros s0 k0 H0. by destruct (Hother _ _ _ H0). }
    by rewrite Hk1, if_same, Hk1, if_same.
  - rewrite Hp, Hord by done. cbn [fst]. rewrite bool_decide_true by done. rewrite consider_pick; [|done..|].
    + rewrite (consider_keep _ _ _ m k Exclusive _ Serialized); [by rewrite if_same|done|].
      intros s0 k0 H0. by destruct (Hother _ _ _ H0).
    + intros s0 k0 e0 H0. apply consider_spec in H0 as [?|(H0 & _)]; [done|].
      destruct (Hother _ _ _ H0) as [_ Hx]. by apply Hx.
  - rewrite Hp, Hord by done. cbn [fst]. rewrite bool_decide_true by done. apply consider_pick; [done|apply Z.ltb_irrefl|].
    intros s0 k0 e0 H0.
    assert (Hlt : forall e', e' <> Exclusive -> forall s0 k0, peek_ready e' st = Some (s0, k0) -> m < s0).
    { intros e' He' s1 k1 H1. destruct (Hother _ _ _ H1) as [_ Hx]. by apply Hx. }
    destruct (match peek_ready Serialized st with Some _ => _ | None => _ end).
    + apply consider_spec in H0 as [H0|(H0 & _)]; [|by apply Hlt in H0].
      apply consider_spec in H0 as [?|(H0 & _)]; [done|by apply Hlt in H0].
    + apply consider_spec in H0 as [?|(H0 & _)]; [done|by apply Hlt in H0].
Qed.
End Progress.

(** ** Updating one lane *)

Lemma ready_mark_ready e st s k e' :
  ready e (mark_ready st s k e') = if decide (e = e') then heap_push (ready e st) (s, k) else ready e st.
Proof. by destruct e, e'. Qed.
Lemma ready_mark_order e st s e' : ready e (mark_global_order st s e') = ready e st.
Proof. by destruct e, e'. Qed.
Lemma order_mark_ready e st s k e' : order e (mark_ready st s k e') = order e st.
Proof. by destruct e, e'. Qed.
Lemma order_mark_order e st s e' : order e (mark_global_order st s e') =
  if decide (e = e' /\ e <> PlayerLocal) then heap_push (order e st) s else order e st.
Proof. by destruct e, e'. Qed.
Lemma ready_withdraw e k seqs st : ready e (withdraw_lane k seqs st) = retain_other k (ready e st).
Proof. by destruct e. Qed.
Lemma order_withdraw e k seqs st : order e (withdraw_lane k seqs st) = retain_not_in seqs (order e st).
Proof. by destruct e. Qed.
Lemma ready_set_lanes e m st : ready e (set_lanes m st) = ready e st.
Proof. by destruct e. Qed.
Lemma order_set_lanes e m st : order e (set_lanes m st) = order e st.
Proof. by destruct e. Qed.
Lemma ready_set_next_sequence e n st : ready e (set_next_sequence n st) = ready e st.
Proof. by destruct e. Qed.
Lemma order_set_next_sequence e n st : order e (set_next_sequence n st) = order e st.
Proof. by destruct e. Qed.
Lemma ready_set_generation e n st : ready e (set_next_pause_generation n st) = ready e st.
Proof. by destruct e. Qed.
Lemma order_set_generation e n st : order e (set_next_pause_generation n st) = order e st.
Proof. by destruct e. Qed.

(** The fields that marking does not touch. *)
Definition same_frame (st st' : PacketQueueState) : Prop :=
  phase st' = phase st /\ lanes st' = lanes st /\ next_sequence st' = next_sequence st
  /\ next_pause_generation st' = next_pause_generation st /\ active st' = active st
  /\ serialized_active st' = serialized_active st /\ exclusive_active st' = exclusive_active st
  /\ completed st' = completed st.

Lemma mark_ready_frame st s k e : same_frame st (mark_ready st s k e).
Proof. by destruct e. Qed.
Lemma mark_order_frame st s e : same_frame st (mark_global_order st s e).
Proof. by destruct e. Qed.
Lemma same_frame_trans st1 st2 st3 : same_frame st1 st2 -> same_frame st2 st3 -> same_frame st1 st3.
Proof. unfold same_frame. intuition congruence. Qed.

(** Replacing the lane [k] by [o]: how the heaps must change. *)
Definition lanes_upd (m m' : gmap LaneKey PacketLane) (k : LaneKey) (o : option PacketLane) : Prop :=
  forall j, m' !! j = if decide (j = k) then o else m !! j.

Lemma lanes_upd_insert m k lane : lanes_upd m (<[k := lane]> m) k (Some lane).
Proof. intros j. case_decide; [subst; by rewrite lookup_insert_eq|by rewrite lookup_insert_ne]. Qed.
Lemma lanes_upd_delete m k : lanes_upd m (delete k m) k None.
Proof. intros j. case_decide; [subst; by rewrite lookup_delete_eq|by rewrite lookup_delete_ne]. Qed.

Definition ready_upd st st' k o : Prop := forall e,
  (forall s j, (s, j) ∈ ready e st' <-> (j <> k /\ (s, j) ∈ ready e st) \/ (j = k /\ ready_entry o = Some (s, e)))
  /\ NoDup (ready e st').

Definition order_upd st st' k o : Prop := forall e,
  (forall s, e <> PlayerLocal -> s ∈ order e st' <->
     (s ∈ order e st /\ ~ queued_as e (lanes st !! k) s) \/ queued_as e o s)
  /\ NoDup (order e st').

Lemma index_ok_update st st' n k o : index_ok st -> seqs_ok (lanes st) n ->
  lanes_upd (lanes st) (lanes st') k o -> ready_upd st st' k o -> order_upd st st' k o -> index_ok st'.
Proof.
  intros Hi Hs Hl Hr Ho. split.
  - intros e s j. rewrite (proj1 (Hr e)), (Hl j), (ready_spec st Hi). case_decide; subst; naive_solver.
  - intros e. apply Hr.
  - intros e s He. rewrite (proj1 (Ho e)), (order_spec st Hi) by done. setoid_rewrite Hl. split.
    + intros [[[j Hj] Hn]|Hk]; [exists j|exists k].
      * rewrite decide_False; [done|]. by intros ->.
      * by rewrite decide_True.
    + intros [j Hj]. case_decide; [by right|]. left. split; [by exists j|]. intros Hk.
      by pose proof (seq_distinct _ _ Hs j k s (queued_as_seqs _ _ _ Hj) (queued_as_seqs _ _ _ Hk)).
  - intros e. apply Ho.
Qed.

Lemma seqs_ok_update m m' n n' k o : seqs_ok m n -> lanes_upd m m' k o -> n <= n' -> 0 <= n ->
  StronglySorted Z.lt (seqs_of o) -> (forall s, s ∈ seqs_of o -> s ∈ seqs_of (m !! k) \/ n <= s < n') ->
  seqs_ok m' n'.
Proof.
  intros Hs Hl Hn Hn0 Hsort Hin. split.
  - intros j. rewrite (Hl j). case_decide; [done|]. apply (seq_sorted m n Hs).
  - intros j s. rewrite (Hl j). case_decide.
    + intros [Hk|?]%Hin; [|lia]. pose proof (seq_bound m n Hs k s Hk). lia.
    + intros Hj. pose proof (seq_bound m n Hs j s Hj). lia.
  - intros j1 j2 s. rewrite (Hl j1), (Hl j2).
    assert (Hx : forall j, j <> k -> s ∈ seqs_of o -> s ∈ seqs_of (m !! j) -> False).
    { intros j Hj [Hk|?]%Hin Hj'; [by apply Hj, (seq_distinct m n Hs j k s)|].
      pose proof (seq_bound m n Hs j s Hj'). lia. }
    repeat case_decide; subst; try done; intros H1 H2; [by destruct (Hx j2)|by destruct (Hx j1)|].
    by apply (seq_distinct m n Hs j1 j2 s).
Qed.

Lemma lane_ok_generation limits g g' w lane : g <= g' -> lane_ok limits g w lane -> lane_ok limits g' w lane.
Proof.
  intros Hg []. split; try done. intros g0 H0. specialize (lane_generation0 g0 H0). lia.
Qed.

Lemma queue_ok_update limits st ws st' ws' k o :
  queue_ok limits st ws -> lanes_upd (lanes st) (lanes st') k o ->
  ready_upd st st' k o -> order_upd st st' k o ->
  next_sequence st <= next_sequence st' <= u64_max ->
  next_pause_generation st <= next_pause_generation st' <= u64_max ->
  StronglySorted Z.lt (seqs_of o) ->
  (forall s, s ∈ seqs_of o -> s ∈ seqs_of (lanes st !! k) \/ next_sequence st <= s < next_sequence st') ->
  (forall j, j <> k -> lookup_key work_key j ws' = lookup_key work_key j ws) ->
  (forall lane, o = Some lane ->
     lane_ok limits (next_pause_generation st') (lookup_key work_key k ws') lane /\ lane_needed lane) ->
  works_ok st' ws' -> queue_ok limits st' ws'.
Proof.
  intros [Hi Hs Hls Hne Hw Hn Hg] Hl Hr Ho Hn' Hg' Hsort Hin Hlk Hlane Hw'. split; try done; try lia.
  - by eapply index_ok_update.
  - eapply seqs_ok_update; try done; lia.
  - intros j lane. rewrite (Hl j). case_decide; [subst; by intros []%Hlane|]. intros Hj. rewrite Hlk by done.
    eapply lane_ok_generation; [|by apply Hls]. lia.
  - intros j lane. rewrite (Hl j). case_decide; [by intros []%Hlane|]. apply Hne.
Qed.

(** How [ready_upd] and [order_upd] arise. *)
Lemma ready_upd_same st st' k o : index_ok st -> (forall e, ready e st' = ready e st) ->
  ready_entry o = ready_entry (lanes st !! k) -> ready_upd st st' k o.
Proof.
  intros Hi He Ho e. rewrite He. split; [|apply (ready_nodup st Hi)]. intros s j. rewrite Ho, (ready_spec st Hi).
  destruct (decide (j = k)); subst; naive_solver.
Qed.

Lemma ready_upd_push st st' k o s e0 : index_ok st -> ready_entry (lanes st !! k) = None ->
  ready_entry o = Some (s, e0) ->
  (forall e, ready e st' = if decide (e = e0) then heap_push (ready e st) (s, k) else ready e st) ->
  ready_upd st st' k o.
Proof.
  intros Hi Hno Ho He e. rewrite He.
  assert (Hk : forall e s, (s, k) ∉ ready e st) by (intros e' s' Hin; apply (ready_spec st Hi) in Hin; congruence).
  split; [intros s' j|]; case_decide; subst; unfold heap_push.
  - rewrite elem_of_app, list_elem_of_singleton, Ho. destruct (decide (j = k)); subst; naive_solver.
  - rewrite Ho. destruct (decide (j = k)); subst; naive_solver.
  - apply NoDup_app. split_and!; [apply (ready_nodup st Hi)| |apply NoDup_singleton].
    intros x Hx ->%list_elem_of_singleton. by apply Hk in Hx.
  - apply (ready_nodup st Hi).
Qed.

Lemma ready_upd_retain st st' k o : index_ok st -> ready_entry o = None ->
  (forall e, ready e st' = retain_other k (ready e st)) -> ready_upd st st' k o.
Proof.
  intros Hi Ho He e. rewrite He. unfold retain_other. split; [|apply NoDup_filter, (ready_nodup st Hi)].
  intros s j. rewrite list_elem_of_filter, Ho. simpl. naive_solver.
Qed.

#[local] Instance queued_as_dec e o s : Decision (queued_as e o s).
Proof.
  destruct o as [lane|]; [|right; tauto].
  destruct (decide (Exists (fun p => sequence p = s /\ execution p = e) (queued lane))) as [H|H];
    [left|right; intros H'; apply H]; revert H || revert H'; simpl; rewrite Exists_exists; naive_solver.
Defined.

Lemma order_upd_same st st' k o : index_ok st -> (forall e, order e st' = order e st) ->
  (forall e s, queued_as e o s <-> queued_as e (lanes st !! k) s) -> order_upd st st' k o.
Proof.
  intros Hi He Ho e. rewrite He. split; [|apply (order_nodup st Hi)]. intros s Hne. rewrite Ho.
  destruct (decide (queued_as e (lanes st !! k) s)) as [Hq|Hq]; [|tauto].
  split; [by right|]. intros _. apply (order_spec st Hi); [done|]. by exists k.
Qed.

(** Packets with the fresh sequences [l e] are appended to the lane. *)
Lemma order_upd_append st st' n k o (l : ScheduledPacketExecution -> list Z) : index_ok st -> seqs_ok (lanes st) n ->
  (forall e s, s ∈ l e -> n <= s) -> (forall e, NoDup (l e)) ->
  (forall e, order e st' = order e st ++ l e) ->
  (forall e s, e <> PlayerLocal -> queued_as e o s <-> queued_as e (lanes st !! k) s \/ s ∈ l e) ->
  l PlayerLocal = [] -> order_upd st st' k o.
Proof.
  intros Hi Hs Hn Hnd He Ho Hpl e. rewrite He. split.
  - intros s Hne. rewrite Ho, elem_of_app by done. assert (Hk : queued_as e (lanes st !! k) s -> s ∈ order e st)
      by (intros; apply (order_spec st Hi); [done|by exists k]).
    destruct (decide (queued_as e (lanes st !! k) s)); tauto.
  - apply NoDup_app. split_and!; [apply (order_nodup st Hi)| |done]. intros s Hx Hl.
    destruct (decide (e = PlayerLocal)) as [->|Hne]; [by rewrite Hpl in Hl; apply elem_of_nil in Hl|].
    apply (order_spec st Hi) in Hx as [j Hj]; [|done]. apply Hn in Hl.
    pose proof (seq_bound _ _ Hs j s (queued_as_seqs _ _ _ Hj)). lia.
Qed.

(** A packet with a fresh sequence is appended to the lane. *)
Lemma order_upd_push st st' n k o s e0 : index_ok st -> seqs_ok (lanes st) n -> n <= s ->
  (forall e, order e st' = if decide (e = e0 /\ e <> PlayerLocal) then heap_push (order e st) s else order e st) ->
  (forall e s', queued_as e o s' <-> queued_as e (lanes st !! k) s' \/ (e = e0 /\ s' = s)) ->
  order_upd st st' k o.
Proof.
  intros Hi Hs Hn He Ho.
  apply (order_upd_append _ _ n _ _ (fun e => if decide (e = e0 /\ e <> PlayerLocal) then [s] else [])); try done.
  - intros e s'. case_decide; [intros ->%list_elem_of_singleton; done|intros H0; by apply elem_of_nil in H0].
  - intros e. case_decide; [apply NoDup_singleton|constructor].
  - intros e. rewrite He. case_decide; [done|by rewrite app_nil_r].
  - intros e s' Hne. rewrite Ho. case_decide as Hd; [rewrite list_elem_of_singleton|rewrite elem_of_nil]; tauto.
  - rewrite decide_False; [done|tauto].
Qed.

(** All packets of the lane are withdrawn. *)
Lemma order_upd_retain st st' n k o lane : index_ok st -> seqs_ok (lanes st) n ->
  seqs_of (lanes st !! k) = lane_sequences lane -> (forall e s, ~ queued_as e o s) ->
  (forall e, order e st' = retain_not_in (lane_sequences lane) (order e st)) -> order_upd st st' k o.
Proof.
  intros Hi Hs Hl Ho He e. rewrite He. unfold retain_not_in. split; [|apply NoDup_filter, (order_nodup st Hi)].
  intros s Hne. rewrite list_elem_of_filter, <- Hl. split; [|intros [[Hin Hq]|[]%Ho]; split; [|done]].
  - intros [Hs' Hin]. left. split; [done|]. intros Hq. by apply Hs', (queued_as_seqs e).
  - intros Hk. apply Hq. apply (order_spec st Hi) in Hin as [j Hj]; [|done].
    by pose proof (seq_distinct _ _ Hs j k s (queued_as_seqs _ _ _ Hj) Hk) as ->.
Qed.

(** ** Each operation keeps the invariant *)

Definition same_activity (st st' : PacketQueueState) : Prop :=
  active st' = active st /\ serialized_active st' = serialized_active st
  /\ exclusive_active st' = exclusive_active st.

Lemma works_ok_upd st st' ws k o : works_ok st ws -> same_activity st st' -> lanes_upd (lanes st) (lanes st') k o ->
  (o = None -> lookup_key work_key k ws = None) -> works_ok st' ws.
Proof.
  intros [Hk Hl Hc Hs He Ha] (E1 & E2 & E3) Hu Ho. split; rewrite ?E1, ?E2, ?E3; try done.
  intros w Hw. rewrite (Hu (work_key w)). case_decide as Hkey; [|by apply Hl].
  destruct o as [lane|]; [done|]. specialize (Ho eq_refl). apply lookup_key_None in Ho.
  destruct Ho. rewrite <- Hkey. by apply list_elem_of_fmap_2.
Qed.

Lemma sorted_snoc l x : StronglySorted Z.lt l -> (forall y, y ∈ l -> y < x) -> StronglySorted Z.lt (l ++ [x]).
Proof.
  induction 1 as [|y l Hs IH Hf]; intros Hx; simpl; [by repeat constructor|]. constructor.
  - apply IH. intros z Hz. apply Hx. by right.
  - apply Forall_app. split; [done|]. constructor; [|done]. apply Hx. by left.
Qed.

Section Preserve.
Context {limits : PacketAdmissionLimits}.
Hypothesis Hlimits : 0 <= per_player_packets limits /\ 0 <= per_player_bytes limits.

Lemma no_lane_no_work st ws k : works_ok st ws -> lanes st !! k = None -> lookup_key work_key k ws = None.
Proof.
  intros Hw Hk. destruct (lookup_key work_key k ws) as [w|] eqn:E; [|done].
  apply lookup_key_elem in E as [Hin <-]. apply (works_lanes _ _ Hw) in Hin as [lane Hl]. congruence.
Qed.

Lemma lane_or_new_ok st ws k : queue_ok limits st ws ->
  lane_ok limits (next_pause_generation st) (lookup_key work_key k ws) (lane_or_new st k).
Proof using Hlimits.
  intros Hok. unfold lane_or_new. destruct (lanes st !! k) as [lane|] eqn:E; [by apply (ok_lanes _ _ _ Hok)|].
  rewrite (no_lane_no_work st ws k) by (apply Hok || done). destruct Hlimits. by split.
Qed.

Lemma lane_or_new_seqs st k : seqs_of (lanes st !! k) = lane_sequences (lane_or_new st k).
Proof. unfold lane_or_new. by destruct (lanes st !! k). Qed.
Lemma lane_or_new_ready st k : ready_entry (lanes st !! k) = ready_entry (Some (lane_or_new st k)).
Proof. unfold lane_or_new. by destruct (lanes st !! k). Qed.
Lemma lane_or_new_queued e st k s : queued_as e (lanes st !! k) s <-> queued_as e (Some (lane_or_new st k)) s.
Proof.
  unfold lane_or_new. destruct (lanes st !! k); [done|]. simpl. split; [done|]. intros (p & Hp & _).
  by apply elem_of_nil in Hp.
Qed.

Lemma submit_paused_ok st ws k e bytes v lane' : queue_ok limits st ws -> 0 <= bytes ->
  let lane := lane_or_new st k in
  is_paused lane = true -> outstanding_packets lane < per_player_packets limits ->
  bytes <= per_player_bytes limits - outstanding_bytes lane ->
  lane' = MkLane (queued lane) (deferred lane ++ [MkDeferred e bytes v]) (lane_active lane)
          (pause_generation lane) (outstanding_packets lane + 1) (outstanding_bytes lane + bytes) ->
  queue_ok limits (set_lanes (<[k := lane']> (lanes st)) st) ws.
Proof using Hlimits.
  intros Hok Hb lane Hp Hlp Hlb ->. pose proof (lane_or_new_ok st ws k Hok) as Hl. fold lane in Hl.
  assert (Hq : queued lane = []) by by apply Hl.
  eapply (queue_ok_update _ st ws _ ws k); [done|apply lanes_upd_insert|..]; try apply Hok; try done.
  - apply ready_upd_same; [apply Hok|intros e'; apply ready_set_lanes|].
    rewrite lane_or_new_ready. fold lane. simpl. by rewrite Hq, !if_same.
  - apply order_upd_same; [apply Hok|intros e'; apply order_set_lanes|]. intros e' s. rewrite lane_or_new_queued. done.
  - simpl. split; [lia|apply Hok].
  - simpl. split; [lia|apply Hok].
  - simpl. unfold lane_sequences. simpl. rewrite Hq. constructor.
  - simpl. unfold lane_sequences. simpl. rewrite Hq. intros s Hs. by apply elem_of_nil in Hs.
  - intros ? [= <-]. split; [|unfold lane_needed, is_paused in *; simpl; by destruct (pause_generation lane)].
    destruct Hl. split; simpl; try done; try lia.
    + unfold is_paused in *. simpl. by rewrite Hp.
    + unfold lane_held_packets in *. simpl. rewrite length_app. simpl. lia.
    + unfold lane_held_bytes in *. simpl. rewrite list_sum_app. simpl. lia.
    + apply Forall_app. split; [done|]. by repeat constructor.
  - eapply (works_ok_upd st); [apply Hok|done|apply lanes_upd_insert|done].
Qed.

Lemma seqs_bounded st ws k s : queue_ok limits st ws -> s ∈ lane_sequences (lane_or_new st k) -> s < next_sequence st.
Proof.
  intros Hok Hs. rewrite <- lane_or_new_seqs in Hs. by pose proof (seq_bound _ _ (ok_seqs _ _ _ Hok) k s Hs) as [_ ?].
Qed.

Lemma seqs_sorted st ws k : queue_ok limits st ws -> StronglySorted Z.lt (lane_sequences (lane_or_new st k)).
Proof. intros Hok. rewrite <- lane_or_new_seqs. apply (seq_sorted _ _ (ok_seqs _ _ _ Hok)). Qed.

(** A submission to a lane that is not paused, before the heaps are marked. *)
Definition submit_lane (lane : PacketLane) (seq : Z) e bytes v : PacketLane :=
  MkLane (queued lane ++ [MkPacket seq e bytes v]) (deferred lane) (lane_active lane)
    (pause_generation lane) (outstanding_packets lane + 1) (outstanding_bytes lane + bytes).

Definition became_ready (lane : PacketLane) : bool :=
  negb (lane_active lane) && match queued lane with [] => true | _ => false end.

Definition submit_state (st : PacketQueueState) k e bytes v : PacketQueueState :=
  let lane := lane_or_new st k in
  let seq := next_sequence st in
  let st1 := set_lanes (<[k := submit_lane lane seq e bytes v]> (lanes st)) (set_next_sequence (seq + 1) st) in
  mark_global_order (if became_ready lane then mark_ready st1 seq k e else st1) seq e.

Lemma submit_state_frame st k e bytes v : same_frame
  (set_lanes (<[k := submit_lane (lane_or_new st k) (next_sequence st) e bytes v]> (lanes st))
     (set_next_sequence (next_sequence st + 1) st)) (submit_state st k e bytes v).
Proof.
  unfold submit_state. cbv zeta. eapply same_frame_trans; [|apply mark_order_frame].
  destruct (became_ready _); [apply mark_ready_frame|done].
Qed.

Lemma queued_as_submit lane seq e bytes v e' s :
  queued_as e' (Some (submit_lane lane seq e bytes v)) s <-> queued_as e' (Some lane) s \/ (e' = e /\ s = seq).
Proof.
  simpl. setoid_rewrite elem_of_app. setoid_rewrite list_elem_of_singleton. split.
  - intros (p & [Hp| ->] & <- & <-); [left; by exists p|by right].
  - intros [(p & Hp & Hx)|[-> ->]]; [exists p; tauto|eexists; split; [by right|done]].
Qed.

Lemma submit_state_ready st ws k e bytes v : queue_ok limits st ws ->
  is_paused (lane_or_new st k) = false ->
  ready_upd st (submit_state st k e bytes v) k (Some (submit_lane (lane_or_new st k) (next_sequence st) e bytes v)).
Proof using Hlimits.
  intros Hok Hp. pose proof (lane_or_new_ready st k) as Hr0. unfold submit_state.
  set (lane := lane_or_new st k) in *. cbv zeta. destruct (became_ready lane) eqn:Eb.
  - unfold became_ready in Eb. apply andb_true_iff in Eb as [Ea Eq]. apply negb_true_iff in Ea.
    destruct (queued lane) eqn:Hq; [|done].
    apply (ready_upd_push _ _ _ _ (next_sequence st) e); [apply Hok| | |].
    + rewrite Hr0. simpl. by rewrite Hq, if_same.
    + simpl. change (is_paused (submit_lane lane (next_sequence st) e bytes v)) with (is_paused lane).
      by rewrite Ea, Hp, Hq.
    + intros e'. by rewrite ready_mark_order, ready_mark_ready, ready_set_lanes, ready_set_next_sequence.
  - apply ready_upd_same; [apply Hok| |].
    + intros e'. by rewrite ready_mark_order, ready_set_lanes, ready_set_next_sequence.
    + rewrite Hr0. simpl. change (is_paused (submit_lane lane (next_sequence st) e bytes v)) with (is_paused lane).
      unfold became_ready in Eb. destruct (lane_active lane); [done|]. by destruct (queued lane).
Qed.

Lemma submit_state_order st ws k e bytes v : queue_ok limits st ws ->
  order_upd st (submit_state st k e bytes v) k (Some (submit_lane (lane_or_new st k) (next_sequence st) e bytes v)).
Proof.
  intros Hok. apply (order_upd_push _ _ (next_sequence st) _ _ (next_sequence st) e); [apply Hok|apply Hok|done| |].
  - intros e'. unfold submit_state. cbv zeta. rewrite order_mark_order.
    assert (E : order e' (if became_ready (lane_or_new st k)
        then mark_ready (set_lanes (<[k := submit_lane (lane_or_new st k) (next_sequence st) e bytes v]> (lanes st))
               (set_next_sequence (next_sequence st + 1) st)) (next_sequence st) k e
        else set_lanes (<[k := submit_lane (lane_or_new st k) (next_sequence st) e bytes v]> (lanes st))
               (set_next_sequence (next_sequence st + 1) st)) = order e' st).
    { destruct (became_ready _); by rewrite ?order_mark_ready, order_set_lanes, order_set_next_sequence. }
    by rewrite E.
  - intros e' s. by rewrite queued_as_submit, lane_or_new_queued.
Qed.

Lemma submit_state_ok st ws k e bytes v : queue_ok limits st ws -> 0 <= bytes ->
  let lane := lane_or_new st k in
  is_paused lane = false -> outstanding_packets lane < per_player_packets limits ->
  bytes <= per_player_bytes limits - outstanding_bytes lane -> next_sequence st < u64_max ->
  queue_ok limits (submit_state st k e bytes v) ws.
Proof using Hlimits.
  intros Hok Hb lane Hp Hlp Hlb Hn. pose proof (lane_or_new_ok st ws k Hok) as Hl. fold lane in Hl.
  destruct (submit_state_frame st k e bytes v) as (_ & El & En & Eg & Ea & Esa & Eea & _). cbn in El, En, Eg, Ea, Esa, Eea.
  assert (Hu : lanes_upd (lanes st) (lanes (submit_state st k e bytes v)) k (Some (submit_lane lane (next_sequence st) e bytes v)))
    by (rewrite El; apply lanes_upd_insert).
  pose proof (ok_next _ _ _ Hok). pose proof (ok_generation _ _ _ Hok).
  eapply (queue_ok_update _ st ws _ ws k); [done|exact Hu|by eapply submit_state_ready|by eapply submit_state_order|..];
    rewrite ?En, ?Eg; [lia|lia| | |done| |].
  - cbn. unfold lane_sequences. cbn. rewrite fmap_app. apply sorted_snoc; [by apply seqs_sorted with ws|].
    intros y Hy. by apply (seqs_bounded st ws k).
  - intros s. rewrite lane_or_new_seqs. cbn. unfold lane_sequences. cbn.
    rewrite fmap_app, elem_of_app. intros [Hs|Hs]; [by left|]. apply list_elem_of_singleton in Hs as ->. right. cbn. lia.
  - intros ? [= <-]. split; [|intros _ _; cbn; by destruct (queued lane)].
    destruct Hl. split; cbn; try done; try lia.
    + unfold is_paused in *. cbn. by rewrite Hp.
    + unfold lane_held_packets in *. cbn. rewrite length_app. cbn. lia.
    + unfold lane_held_bytes in *. simpl. rewrite list_sum_app. simpl. lia.
    + apply Forall_app. split; [done|]. by repeat constructor.
  - eapply (works_ok_upd st); [apply Hok|done|exact Hu|done].
Qed.

(** What an accepted submission did. *)
Lemma try_submit_Ok st k e bytes v st' w : try_submit limits st k e bytes v = Ok (st', w) ->
  let lane := lane_or_new st k in
  phase st <> Stopped /\ outstanding_packets lane < per_player_packets limits
  /\ bytes <= Z.max 0 (per_player_bytes limits - outstanding_bytes lane)
  /\ if is_paused lane
     then w = no_wakes /\ st' = set_lanes (<[k := MkLane (queued lane) (deferred lane ++ [MkDeferred e bytes v])
           (lane_active lane) (pause_generation lane) (outstanding_packets lane + 1) (outstanding_bytes lane + bytes)]> (lanes st)) st
     else next_sequence st <> u64_max /\ st' = submit_state st k e bytes v
          /\ w = MkWakes (wake_if (became_ready lane && bool_decide (phase st = Open)) NotifyOne) false NoWake.
Proof.
  unfold try_submit. case_decide as Hs; [done|].
  set (lane := lane_or_new st k).
  assert (E : match lanes st !! k with Some lane => (outstanding_packets lane, outstanding_bytes lane) | None => (0, 0) end
    = (outstanding_packets lane, outstanding_bytes lane)) by (unfold lane, lane_or_new; by destruct (lanes st !! k)).
  rewrite E. destruct (Z.leb_spec (per_player_packets limits) (outstanding_packets lane)); [done|].
  unfold saturating_sub. destruct (Z.ltb_spec (Z.max 0 (per_player_bytes limits - outstanding_bytes lane)) bytes); [done|].
  destruct (is_paused lane); [by intros [= <- <-]|].
  destruct (Z.eqb_spec (next_sequence st) u64_max); [done|]. cbv zeta. intros [= <- <-].
  fold (submit_lane lane (next_sequence st) e bytes v) (became_ready lane) (submit_state st k e bytes v).
  pose proof (submit_state_frame st k e bytes v) as [Hph _]. unfold submit_state in Hph. cbv zeta in Hph.
  cbn in Hph. fold lane in Hph. split_and!; try done. by rewrite Hph.
Qed.

Lemma try_submit_ok st ws k e bytes v st' w : queue_ok limits st ws -> 0 <= bytes ->
  try_submit limits st k e bytes v = Ok (st', w) -> queue_ok limits st' ws.
Proof using Hlimits.
  intros Hok Hb H%try_submit_Ok. cbv zeta in H. destruct H as (_ & Hp & Hbytes & H).
  pose proof (lane_or_new_ok st ws k Hok) as Hl. pose proof (lane_byte_limit _ _ _ _ Hl).
  destruct (is_paused _) eqn:E.
  - destruct H as [_ ->]. eapply submit_paused_ok; try done. lia.
  - destruct H as (Hn & -> & _). pose proof (ok_next _ _ _ Hok). apply submit_state_ok; try done; lia.
Qed.

Lemma queue_ok_set_phase st ws p : queue_ok limits st ws -> queue_ok limits (set_phase p st) ws.
Proof.
  intros [[] Hs Hl Hn [] ? ?]. by split.
Qed.

Lemma open_ok st ws : queue_ok limits st ws -> queue_ok limits (open st).1 ws.
Proof. intros. unfold open. case_decide; [done|]. by apply queue_ok_set_phase. Qed.

Lemma begin_tick_drain_ok st ws : queue_ok limits st ws -> queue_ok limits (begin_tick_drain st).1.1 ws.
Proof. intros. unfold begin_tick_drain. destruct (phase st); try done; by apply queue_ok_set_phase. Qed.

Lemma finish_tick_drain_ok st ws c : queue_ok limits st ws -> queue_ok limits (finish_tick_drain st c) ws.
Proof. intros. unfold finish_tick_drain. case_decide; [|done]. by apply queue_ok_set_phase. Qed.

(** *** Pausing *)

Definition paused_lane (lane : PacketLane) (g : Z) : PacketLane :=
  MkLane [] (deferred lane ++ (defer_packet <$> queued lane)) (lane_active lane)
    (Some g) (outstanding_packets lane) (outstanding_bytes lane).

Lemma list_sum_defer ps : list_sum deferred_bytes (defer_packet <$> ps) = list_sum admission_bytes ps.
Proof. induction ps as [|p ps IH]; [done|]. simpl. by rewrite <- IH. Qed.

Lemma pause_lane_Ok st k st' r w : pause_lane st k = Ok (st', r, w) ->
  (st' = st /\ r = None /\ w = no_wakes) \/
  let lane := lane_or_new st k in let g := next_pause_generation st in
  phase st <> Stopped /\ is_paused lane = false /\ g <> u64_max /\ r = Some (MkPause k g)
  /\ w = MkWakes (wake_if (should_wake_workers st') NotifyAll) (is_idle st') NotifyOne
  /\ st' = withdraw_lane k (lane_sequences lane)
       (set_lanes (<[k := paused_lane lane g]> (lanes st)) (set_next_pause_generation (g + 1) st)).
Proof.
  unfold pause_lane. case_decide; [intros [= <- <- <-]; by left|]. destruct (is_paused _) eqn:Ep; [intros [= <- <- <-]; by left|].
  destruct (Z.eqb_spec (next_pause_generation st) u64_max); [done|]. intros [= <- <- <-]. right. cbv zeta. by split_and!.
Qed.

Lemma pause_lane_ok st ws k st' r w : queue_ok limits st ws -> pause_lane st k = Ok (st', r, w) -> queue_ok limits st' ws.
Proof using Hlimits.
  intros Hok [(-> & _)|H]%pause_lane_Ok; [done|]. cbv zeta in H. destruct H as (_ & Hp & Hg & _ & _ & ->).
  pose proof (lane_or_new_ok st ws k Hok) as Hl. set (lane := lane_or_new st k) in *.
  pose proof (ok_next _ _ _ Hok). pose proof (ok_generation _ _ _ Hok).
  assert (Hd : deferred lane = []) by by apply Hl.
  eapply (queue_ok_update _ st ws _ ws k); [done|apply lanes_upd_insert|..]; try done; try (cbn; lia).
  - apply ready_upd_retain; [apply Hok|cbn; by rewrite orb_true_r|].
    intros e. by rewrite ready_withdraw, ready_set_lanes, ready_set_generation.
  - apply (order_upd_retain _ _ (next_sequence st) _ _ lane); [apply Hok|apply Hok|apply lane_or_new_seqs| |].
    + intros e s (p & Hin & _). by apply elem_of_nil in Hin.
    + intros e. by rewrite order_withdraw, order_set_lanes, order_set_generation.
  - cbn. constructor.
  - intros s Hs. by apply elem_of_nil in Hs.
  - intros ? [= <-]. split; [|done]. destruct Hl. split; cbn [queued deferred paused_lane outstanding_packets
      outstanding_bytes lane_active pause_generation]; try done.
    + unfold lane_held_packets in *. simpl. rewrite length_app, length_fmap. lia.
    + unfold lane_held_bytes in *. simpl. rewrite list_sum_app, list_sum_defer, Hd in *. simpl in *. lia.
    + intros g [= <-]. cbn. lia.
    + rewrite Hd. simpl. apply Forall_fmap. by eapply Forall_impl.
  - eapply (works_ok_upd st); [apply Hok|done|apply lanes_upd_insert|done].
Qed.

(** *** Resuming *)

Definition execution_sequences (e : ScheduledPacketExecution) (ps : list SequencedPacket) : list Z :=
  if decide (e = PlayerLocal) then [] else sequence <$> filter (fun p => execution p = e) ps.

Lemma execution_sequences_elem e ps s : e <> PlayerLocal ->
  s ∈ execution_sequences e ps <-> exists p, p ∈ ps /\ sequence p = s /\ execution p = e.
Proof.
  intros He. unfold execution_sequences. rewrite decide_False, list_elem_of_fmap by done.
  setoid_rewrite list_elem_of_filter. naive_solver.
Qed.

Lemma execution_sequences_nodup e ps : NoDup (sequence <$> ps) -> NoDup (execution_sequences e ps).
Proof.
  intros Hn. unfold execution_sequences. case_decide; [constructor|].
  induction ps as [|p ps IH]; [constructor|]. cbn in Hn. apply NoDup_cons in Hn as [Hp Hn].
  rewrite filter_cons. case_decide; [|by apply IH]. cbn. apply NoDup_cons. split; [|by apply IH].
  intros (q & Hq & Hin)%list_elem_of_fmap. apply list_elem_of_filter in Hin as [_ Hin].
  apply Hp. rewrite Hq. by apply list_elem_of_fmap_2.
Qed.

Lemma readmit_spec ds : forall st s st' ps, readmit st s ds = (st', ps) ->
  same_frame st st' /\ (forall e, ready e st' = ready e st)
  /\ (forall e, order e st' = order e st ++ execution_sequences e ps)
  /\ sequence <$> ps = seqZ s (Z.of_nat (length ds)) /\ defer_packet <$> ps = ds.
Proof.
  clear dependent limits. induction ds as [|d ds IH]; intros st s st' ps; cbn [readmit].
  - intros [= <- <-]. split_and!; try done. intros e. unfold execution_sequences. rewrite filter_nil.
    case_decide; by rewrite app_nil_r.
  - destruct (readmit _ _ ds) as [st1 ps1] eqn:E. intros [= <- <-].
    destruct (IH _ _ _ _ E) as (Hf & Hr & Ho & Hs & Hd). split_and!.
    + eapply same_frame_trans; [apply mark_order_frame|done].
    + intros e. by rewrite Hr, ready_mark_order.
    + intros e. rewrite Ho, order_mark_order. unfold execution_sequences, heap_push.
      rewrite filter_cons. cbn [execution sequence].
      destruct (decide (e = PlayerLocal)); [rewrite decide_False by tauto; done|].
      destruct (decide (deferred_execution d = e)) as [He|He].
      * rewrite decide_True by done. by rewrite <- app_assoc.
      * rewrite decide_False by (intros [? _]; congruence). done.
    + cbn [length]. rewrite Nat2Z.inj_succ, seqZ_cons by lia. cbn. f_equal. rewrite Hs. f_equal; lia.
    + cbn. rewrite Hd. by destruct d.
Qed.

Definition resumed_lane (lane : PacketLane) (ps : list SequencedPacket) : PacketLane :=
  MkLane (queued lane ++ ps) [] (lane_active lane) None (outstanding_packets lane) (outstanding_bytes lane).

(** Re-admits the packets [ps] into the lane, whose lock-protected entry is
    marked ready or removed. *)
Definition resume_state (st1 : PacketQueueState) (k : LaneKey) (lane : PacketLane) (ps : list SequencedPacket) :=
  let st2 := set_lanes (<[k := resumed_lane lane ps]> (lanes st1)) st1 in
  if lane_active lane then st2
  else match ps with
       | p :: _ => mark_ready st2 (sequence p) k (execution p)
       | [] => set_lanes (delete k (lanes st2)) st2
       end.

Definition resumed_slot (lane : PacketLane) (ps : list SequencedPacket) : option PacketLane :=
  if lane_active lane then Some (resumed_lane lane ps)
  else match ps with [] => None | _ => Some (resumed_lane lane ps) end.

Lemma resume_lane_Ok st pause st' r w : resume_lane st pause = Ok (st', r, w) ->
  (st' = st /\ r = false /\ w = no_wakes) \/
  exists lane st1 ps, let n := next_sequence st + Z.of_nat (length (deferred lane)) in
    phase st <> Stopped /\ lanes st !! pause_key pause = Some lane /\ pause_generation lane = Some (generation pause)
    /\ n <= u64_max /\ readmit (set_next_sequence n st) (next_sequence st) (deferred lane) = (st1, ps)
    /\ st' = resume_state st1 (pause_key pause) lane ps /\ r = true
    /\ w = MkWakes (wake_if (should_wake_workers st') NotifyAll) false NotifyOne.
Proof.
  unfold resume_lane. case_decide; [intros [= <- <- <-]; by left|].
  destruct (lanes st !! pause_key pause) as [lane|] eqn:El; [|intros [= <- <- <-]; by left].
  case_decide as Hg; [intros [= <- <- <-]; by left|].
  destruct (Z.ltb_spec u64_max (next_sequence st + Z.of_nat (length (deferred lane)))); [done|].
  destruct (readmit _ _ _) as [st1 ps] eqn:Er. intros [= <- <- <-]. right. exists lane, st1, ps. cbv zeta.
  split_and!; try done.
Qed.

Lemma resume_state_frame st1 k lane ps : let st' := resume_state st1 k lane ps in
  lanes st' = set_lane k (resumed_slot lane ps) (lanes st1) /\ next_sequence st' = next_sequence st1
  /\ next_pause_generation st' = next_pause_generation st1 /\ same_activity st1 st' /\ phase st' = phase st1.
Proof.
  cbv zeta. unfold resume_state, resumed_slot, set_lane, same_activity. destruct (lane_active lane); [done|].
  destruct ps as [|p ps]; [cbn; by rewrite delete_insert_eq|].
  by destruct (execution p).
Qed.

Lemma order_resume_state e st1 k lane ps : order e (resume_state st1 k lane ps) = order e st1.
Proof.
  unfold resume_state. destruct (lane_active lane); [by rewrite order_set_lanes|].
  destruct ps as [|p ps]; [by rewrite !order_set_lanes|]. by rewrite order_mark_ready, order_set_lanes.
Qed.

Lemma lanes_upd_set m k o : lanes_upd m (set_lane k o m) k o.
Proof.
  intros j. unfold set_lane. case_decide; [subst; by rewrite lookup_partial_alter_eq|by rewrite lookup_partial_alter_ne].
Qed.

Lemma seqZ_sorted m n : StronglySorted Z.lt (seqZ m n).
Proof.
  unfold seqZ. generalize 0%nat. induction (Z.to_nat n) as [|i IH]; intros a; cbn; constructor; [apply IH|].
  rewrite Forall_fmap, Forall_forall. intros x Hx%elem_of_seq. cbn. lia.
Qed.

Lemma queued_as_resumed e lane ps s : queued lane = [] -> e <> PlayerLocal ->
  queued_as e (resumed_slot lane ps) s <-> s ∈ execution_sequences e ps.
Proof.
  intros Hq He. rewrite execution_sequences_elem by done. unfold resumed_slot.
  destruct (lane_active lane); [cbn; by rewrite Hq|]. destruct ps as [|p ps]; [|cbn; by rewrite Hq].
  split; [done|]. intros (p & Hp & _). by apply elem_of_nil in Hp.
Qed.

Lemma resume_ready st ws pause lane st1 ps n : queue_ok limits st ws ->
  lanes st !! pause_key pause = Some lane -> is_paused lane = true -> queued lane = [] ->
  readmit (set_next_sequence n st) (next_sequence st) (deferred lane) = (st1, ps) ->
  ready_upd st (resume_state st1 (pause_key pause) lane ps) (pause_key pause) (resumed_slot lane ps).
Proof.
  intros Hok Hl Hp Hq (_ & Hr & _)%readmit_spec.
  assert (E0 : ready_entry (lanes st !! pause_key pause) = None) by (rewrite Hl; cbn; by rewrite Hp, orb_true_r).
  assert (Hr' : forall e, ready e st1 = ready e st) by (intros e; by rewrite Hr, ready_set_next_sequence).
  unfold resume_state, resumed_slot. destruct (lane_active lane) eqn:Ea; [|destruct ps as [|p ps]].
  - apply ready_upd_same; [apply Hok|intros e; by rewrite ready_set_lanes|]. rewrite E0. cbn. by rewrite Ea.
  - apply ready_upd_same; [apply Hok|intros e; by rewrite !ready_set_lanes|]. by rewrite E0.
  - apply (ready_upd_push _ _ _ _ (sequence p) (execution p)); [apply Hok|done| |].
    + cbn. by rewrite Ea, Hq.
    + intros e. by rewrite ready_mark_ready, ready_set_lanes, Hr'.
Qed.

Lemma resumed_lane_ok g lane w ps : lane_ok limits g w lane -> is_paused lane = true ->
  defer_packet <$> ps = deferred lane -> lane_ok limits g w (resumed_lane lane ps).
Proof.
  intros [] Hp Hd. assert (Hq : queued lane = []) by auto.
  assert (Hlen : length (deferred lane) = length ps) by (rewrite <- Hd; apply length_fmap).
  split; cbn [queued deferred resumed_lane outstanding_packets outstanding_bytes lane_active pause_generation]; try done.
  - unfold lane_held_packets in *. simpl. rewrite Hq, Hlen in *. simpl in *. lia.
  - unfold lane_held_bytes in *. simpl. rewrite Hq, <- Hd, list_sum_defer in *. simpl in *. lia.
  - rewrite Hq. simpl. rewrite <- Hd in *. by rewrite Forall_fmap in *.
Qed.

Lemma resume_lane_ok st ws pause st' r w : queue_ok limits st ws ->
  resume_lane st pause = Ok (st', r, w) -> queue_ok limits st' ws.
Proof.
  intros Hok [(-> & _)|(lane & st1 & ps & H)]%resume_lane_Ok; [done|]. cbv zeta in H.
  destruct H as (_ & El & Hg & Hn & Er & -> & _ & _). set (k := pause_key pause) in *.
  assert (Hp : is_paused lane = true) by (unfold is_paused; by rewrite Hg).
  pose proof (ok_lanes _ _ _ Hok k lane El) as Hl. assert (Hq : queued lane = []) by by apply Hl.
  pose proof (resume_ready _ _ pause _ _ _ _ Hok El Hp Hq Er) as Hready. fold k in Hready.
  destruct (readmit_spec _ _ _ _ _ Er) as ((Eph & Elanes & En & Egen & E1 & E2 & E3 & _) & _ & Ho & Hs & Hd).
  cbn in Elanes, En, Egen, E1, E2, E3.
  destruct (resume_state_frame st1 k lane ps) as (Fl & Fn & Fg & (F1 & F2 & F3) & _).
  assert (Hu : lanes_upd (lanes st) (lanes (resume_state st1 k lane ps)) k (resumed_slot lane ps))
    by (rewrite Fl, Elanes; apply lanes_upd_set).
  assert (Hseqs : forall s, s ∈ seqs_of (resumed_slot lane ps) -> s ∈ sequence <$> ps).
  { unfold resumed_slot. destruct (lane_active lane), ps; cbn; unfold lane_sequences; cbn; by rewrite ?Hq. }
  assert (Hrange : forall s, s ∈ sequence <$> ps -> next_sequence st <= s < next_sequence st1).
  { intros s. rewrite Hs, elem_of_seqZ, En. lia. }
  pose proof (ok_next _ _ _ Hok). pose proof (ok_generation _ _ _ Hok).
  eapply (queue_ok_update _ st ws _ ws k); [done|exact Hu|exact Hready|..]; rewrite ?Fn, ?Fg; try done; try lia.
  - apply (order_upd_append _ _ (next_sequence st) _ _ (fun e => execution_sequences e ps)); [apply Hok|apply Hok|..].
    + intros e s He. destruct (decide (e = PlayerLocal)) as [->|]; [by apply elem_of_nil in He|].
      apply execution_sequences_elem in He as (p & Hin & <- & _); [|done]. apply Hrange. by apply list_elem_of_fmap_2.
    + intros e. apply execution_sequences_nodup. rewrite Hs. apply NoDup_seqZ.
    + intros e. by rewrite order_resume_state, Ho, order_set_next_sequence.
    + intros e s He. rewrite queued_as_resumed, El by done. simpl. rewrite Hq. set_solver.
    + done.
  - assert (Hsort : StronglySorted Z.lt (sequence <$> ps)) by (rewrite Hs; apply seqZ_sorted).
    unfold resumed_slot. destruct (lane_active lane), ps; cbn; unfold lane_sequences; cbn; rewrite ?Hq; try done; constructor.
  - intros s Hin%Hseqs%Hrange. by right.
  - unfold resumed_slot. intros lane' Hs'. assert (lane' = resumed_lane lane ps /\ (lane_active lane = false -> ps <> [])) as [-> Hne].
    { destruct (lane_active lane), ps; naive_solver. }
    rewrite Egen. split; [by apply resumed_lane_ok|]. intros Ha _. cbn in *. rewrite Hq. by apply Hne.
  - eapply (works_ok_upd st); [apply Hok|unfold same_activity; split_and!; congruence|exact Hu|].
    intros Hnone. destruct (lookup_key work_key k ws) as [w0|] eqn:Ew; [|done].
    pose proof (lane_running _ _ _ _ Hl) as Ha. cbn in Ha. unfold resumed_slot in Hnone. by rewrite Ha in Hnone.
Qed.

(** *** Discarding and stopping *)

Definition cleared_lane (lane : PacketLane) : PacketLane :=
  MkLane [] [] (lane_active lane) None (outstanding_packets lane - lane_held_packets lane)
    (outstanding_bytes lane - lane_held_bytes lane).

Lemma lane_held_nonneg g w lane : lane_ok limits g w lane -> 0 <= lane_held_packets lane /\ 0 <= lane_held_bytes lane.
Proof.
  intros []. unfold lane_held_packets, lane_held_bytes. split; [lia|].
  pose proof (list_sum_nonneg _ _ (proj1 (Forall_forall _ _) lane_queued_bytes0)).
  pose proof (list_sum_nonneg _ _ (proj1 (Forall_forall _ _) lane_deferred_bytes0)). lia.
Qed.

(** The accounting assertions hold. *)
Lemma clear_lane_ok g w lane : lane_ok limits g w lane ->
  clear_lane lane = Some (cleared_lane lane) /\ lane_ok limits g w (cleared_lane lane).
Proof.
  intros Hl. destruct (lane_held_nonneg _ _ _ Hl) as [Hh Hhb]. destruct Hl.
  assert (Hb : 0 <= match w with Some w => work_bytes w | None => 0 end).
  { destruct w as [w|]; [by apply lane_work_bytes0|done]. }
  assert (Hw : 0 <= (if is_some w then 1 else 0) <= 1) by by destruct w.
  unfold clear_lane. zbool. split; [done|]. split; cbn; try done; try lia; unfold lane_held_packets, lane_held_bytes in *; cbn; lia.
Qed.

Lemma discard_lane_Ok st ws k st' w : queue_ok limits st ws -> discard_lane st k = Ok (st', w) ->
  (lanes st !! k = None /\ st' = st /\ w = no_wakes) \/
  exists lane, lanes st !! k = Some lane /\
    w = MkWakes (wake_if (should_wake_workers st') NotifyAll) (is_idle st') NotifyOne /\
    st' = withdraw_lane k (lane_sequences lane)
      (set_lanes (set_lane k (if lane_active lane then Some (cleared_lane lane) else None) (lanes st)) st).
Proof.
  intros Hok. unfold discard_lane. destruct (lanes st !! k) as [lane|] eqn:El; [|intros [= <- <-]; by left].
  destruct (clear_lane_ok _ _ _ (ok_lanes _ _ _ Hok k lane El)) as [-> _]. intros [= <- <-]. right.
  exists lane. by destruct (lane_active lane).
Qed.

Lemma discard_lane_total st ws k : queue_ok limits st ws -> exists st' w, discard_lane st k = Ok (st', w).
Proof.
  intros Hok. unfold discard_lane. destruct (lanes st !! k) as [lane|] eqn:El; [|by eexists _, _].
  destruct (clear_lane_ok _ _ _ (ok_lanes _ _ _ Hok k lane El)) as [-> _]. by eexists _, _.
Qed.

Lemma discard_lane_ok st ws k st' w : queue_ok limits st ws -> discard_lane st k = Ok (st', w) -> queue_ok limits st' ws.
Proof.
  intros Hok H. destruct (discard_lane_Ok st ws k st' w Hok H) as [(_ & -> & _)|(lane & El & _ & ->)]; [done|].
  pose proof (ok_lanes _ _ _ Hok k lane El) as Hl. destruct (clear_lane_ok _ _ _ Hl) as [_ Hc].
  set (o := if lane_active lane then Some (cleared_lane lane) else None).
  assert (Hu : lanes_upd (lanes st) (set_lane k o (lanes st)) k o) by apply lanes_upd_set.
  pose proof (ok_next _ _ _ Hok). pose proof (ok_generation _ _ _ Hok).
  assert (Hq : forall s, s ∈ seqs_of o -> False).
  { unfold o. intros s. by destruct (lane_active lane); intros Hs%elem_of_nil. }
  eapply (queue_ok_update _ st ws _ ws k); [done|exact Hu|..]; try (cbn; lia).
  - apply ready_upd_retain; [apply Hok|unfold o; destruct (lane_active lane) eqn:Ea; [cbn; by rewrite Ea|done]|].
    intros e. by rewrite ready_withdraw, ready_set_lanes.
  - apply (order_upd_retain _ _ (next_sequence st) _ _ lane); [apply Hok|apply Hok|by rewrite El| |].
    + intros e s Hs. by apply (Hq s), (queued_as_seqs e).
    + intros e. by rewrite order_withdraw, order_set_lanes.
  - unfold o. destruct (lane_active lane); constructor.
  - intros s Hs. by destruct (Hq s).
  - done.
  - unfold o. intros lane'. destruct (lane_active lane) eqn:Ea; [|done]. intros [= <-]. split; [done|].
    intros Ha. cbn in Ha. congruence.
  - eapply (works_ok_upd st); [apply Hok|done|exact Hu|]. unfold o. pose proof (lane_running _ _ _ _ Hl) as Ha.
    destruct (lookup_key work_key k ws); [|done]. cbn in Ha. by rewrite Ha.
Qed.

Definition stopped_lanes (m : gmap LaneKey PacketLane) : gmap LaneKey PacketLane :=
  omap (fun lane => if lane_active lane then clear_lane lane else None) m.

Lemma stop_total st ws : queue_ok limits st ws -> exists w,
  stop st = Ok (set_phase Stopped (set_lanes (stopped_lanes (lanes st)) (set_heaps [] [] [] [] [] st)), w)
  /\ w = MkWakes NotifyAll (is_idle st) NotifyAll.
Proof.
  intros Hok. unfold stop. rewrite bool_decide_true; [by eexists|].
  intros k lane Hk. destruct (clear_lane_ok _ _ _ (ok_lanes _ _ _ Hok k lane Hk)) as [-> _]. by eexists.
Qed.

Lemma stopped_lanes_lookup st ws k lane' : queue_ok limits st ws -> stopped_lanes (lanes st) !! k = Some lane' <->
  exists lane, lanes st !! k = Some lane /\ lane_active lane = true /\ lane' = cleared_lane lane.
Proof.
  intros Hok. unfold stopped_lanes. rewrite lookup_omap. destruct (lanes st !! k) as [lane|] eqn:El; cbn;
    [|by split; [|intros (? & ? & _)]].
  destruct (clear_lane_ok _ _ _ (ok_lanes _ _ _ Hok k lane El)) as [-> _]. split.
  - destruct (lane_active lane) eqn:Ea; [|done]. intros [= <-]. by exists lane.
  - intros (? & [= <-] & -> & ->). done.
Qed.

Lemma stopped_lanes_empty st ws k : queue_ok limits st ws -> seqs_of (stopped_lanes (lanes st) !! k) = [].
Proof.
  intros Hok. destruct (stopped_lanes (lanes st) !! k) as [lane'|] eqn:E; [|done].
  by apply (stopped_lanes_lookup st ws) in E as (lane & _ & _ & ->).
Qed.

Lemma stop_ok st ws st' w : queue_ok limits st ws -> stop st = Ok (st', w) -> queue_ok limits st' ws.
Proof.
  intros Hok H. destruct (stop_total st ws Hok) as (w' & E & _). rewrite E in H. injection H as <- <-.
  assert (Hnone : forall e k s, ~ queued_as e (stopped_lanes (lanes st) !! k) s).
  { intros e k s Hs%queued_as_seqs. rewrite (stopped_lanes_empty st ws) in Hs by done. by apply elem_of_nil in Hs. }
  destruct Hok as [Hi Hs Hl Hne [Wk Wl Wc Ws We Wa] Hn Hg] eqn:EH. clear EH. split; try done.
  - split; cbn.
    + intros e s k. split; [intros Hin; destruct e; by apply elem_of_nil in Hin|]. by intros Hr%ready_entry_queued%Hnone.
    + intros e. destruct e; constructor.
    + intros e s He. split; [intros Hin; destruct e; by apply elem_of_nil in Hin|]. by intros [k Hq%Hnone].
    + intros e. destruct e; constructor.
  - cbn. split; [intros k; rewrite (stopped_lanes_empty st ws) by done; constructor|..].
    + intros k s Hin. rewrite (stopped_lanes_empty st ws) in Hin by done. by apply elem_of_nil in Hin.
    + intros k1 k2 s Hin. rewrite (stopped_lanes_empty st ws) in Hin by done. by apply elem_of_nil in Hin.
  - cbn. intros k lane' (lane & El & _ & ->)%(stopped_lanes_lookup st ws); [|done]. by apply clear_lane_ok, Hl.
  - cbn. intros k lane' (lane & El & Ha & ->)%(stopped_lanes_lookup st ws); [|done]. intros Ha'. cbn in Ha'. congruence.
  - split; try done. cbn. intros w Hw. destruct (Wl w Hw) as [lane El].
    exists (cleared_lane lane). apply (stopped_lanes_lookup st ws); [done|]. exists lane. split_and!; try done.
    rewrite (lane_running _ _ _ _ (Hl _ _ El)).
    assert (Hk : lookup_key work_key (work_key w) ws = Some w) by by apply lookup_key_Some. by rewrite Hk.
Qed.

(** *** Starting *)

Lemma pop_started_spec st s k e before : selectable st before s k e -> exists st1,
  pop_started st s k e = Ok st1 /\ phase st1 = phase st /\ lanes st1 = lanes st
  /\ next_sequence st1 = next_sequence st /\ next_pause_generation st1 = next_pause_generation st
  /\ active st1 = active st /\ completed st1 = completed st
  /\ serialized_active st1 = (serialized_active st || bool_decide (e = Serialized))
  /\ exclusive_active st1 = (exclusive_active st || bool_decide (e = Exclusive))
  /\ (forall e', if decide (e' = e) then ready e' st ≡ₚ (s, k) :: ready e' st1 else ready e' st1 = ready e' st)
  /\ (forall e', if decide (e' = e /\ e' <> PlayerLocal) then order e' st ≡ₚ s :: order e' st1
                else order e' st1 = order e' st).
Proof.
  intros [Hp Hx _ _ Hs Ho _]. destruct (pop_expected_peek reverse_entry (ready e st) (s, k) Hp) as (r & Er & Hr).
  destruct e; cbn [pop_started ready order] in *.
  - rewrite Er. eexists. split; [reflexivity|]. cbn. rewrite !orb_false_r. split_and!; try done; by intros [].
  - rewrite Er. destruct (pop_expected_peek reverse_sequence (serialized st) s (Ho ltac:(done))) as (o & Eo & Ho').
    cbn [obind]. rewrite Eo, Hs by done. cbn [obind]. eexists. split; [reflexivity|]. cbn.
    rewrite orb_false_r. split_and!; try done; by intros [].
  - rewrite Er. destruct (pop_expected_peek reverse_sequence (exclusive st) s (Ho ltac:(done))) as (o & Eo & Ho').
    cbn [obind]. rewrite Eo. cbn [obind]. eexists. split; [reflexivity|]. cbn. rewrite Hx, orb_false_r.
    split_and!; try done; by intros [].
Qed.

Definition started_lane (lane : PacketLane) (rest : list SequencedPacket) : PacketLane :=
  MkLane rest (deferred lane) true (pause_generation lane) (outstanding_packets lane) (outstanding_bytes lane).

(** The work taken out: the front of a lane that is neither running nor paused. *)
Lemma start_next_spec st ws before s k e : queue_ok limits st ws -> select_next st before = Some (s, k, e) ->
  exists lane p rest st1, lanes st !! k = Some lane /\ lane_active lane = false /\ is_paused lane = false
    /\ queued lane = p :: rest /\ sequence p = s /\ execution p = e /\ pop_started st s k e = Ok st1
    /\ start_next st before = Ok (Some (MkWork k e (admission_bytes p) (value p)),
         set_lanes (<[k := started_lane lane rest]> (lanes st1)) st1).
Proof.
  intros Hok Hsel. pose proof (select_next_sound _ _ _ _ _ Hsel) as Hs.
  destruct (pop_started_spec st s k e before Hs) as (st1 & Hpop & _).
  pose proof (sel_peek _ _ _ _ _ Hs) as [Hin _]%peek_ready_min.
  apply (ready_spec st (ok_index _ _ _ Hok)) in Hin. destruct (lanes st !! k) as [lane|] eqn:El; [|done].
  cbn in Hin. destruct (lane_active lane) eqn:Ea; [done|]. destruct (is_paused lane) eqn:Ep; [done|].
  destruct (queued lane) as [|p rest] eqn:Eq; [done|]. injection Hin as Hs' He'.
  exists lane, p, rest, st1. split_and!; try done. unfold start_next. rewrite Hsel, El, Ea, Eq.
  rewrite decide_True by done. by rewrite Hpop.
Qed.

Definition count_execution (e : ScheduledPacketExecution) (ws : list PacketWork) : nat :=
  length (filter (is_execution e) ws).

Definition same_execution (e e' : ScheduledPacketExecution) : bool :=
  match e, e' with
  | PlayerLocal, PlayerLocal | Serialized, Serialized | Exclusive, Exclusive => true
  | _, _ => false
  end.

Lemma same_execution_decide e e' : same_execution e e' = bool_decide (e = e').
Proof. by destruct e, e'. Qed.

Lemma count_execution_cons e w ws :
  count_execution e (w :: ws) = (Nat.b2n (same_execution (work_execution w) e) + count_execution e ws)%nat.
Proof.
  rewrite same_execution_decide. unfold count_execution. rewrite filter_cons.
  case_decide; [by rewrite bool_decide_true by done|by rewrite bool_decide_false by done].
Qed.

Lemma works_ok_start st ws k e w st' : queue_ok limits st ws -> (exists before s, selectable st before s k e) ->
  lookup_key work_key k ws = None -> work_key w = k -> work_execution w = e ->
  (forall j, is_Some (lanes st !! j) -> is_Some (lanes st' !! j)) -> is_Some (lanes st' !! k) ->
  active st' = active st + 1 -> serialized_active st' = (serialized_active st || bool_decide (e = Serialized)) ->
  exclusive_active st' = (exclusive_active st || bool_decide (e = Exclusive)) -> works_ok st' (w :: ws).
Proof.
  intros Hok (before & s & [_ Hx _ _ Hser _ Halone]) Hk Ew1 Ew2 Hl Hlk Ea Es Ee.
  destruct (ok_works _ _ _ Hok) as [Wk Wl Wc Ws We Wa]. apply lookup_key_None in Hk.
  split.
  - unfold keyed. rewrite fmap_cons. apply NoDup_cons. by rewrite Ew1.
  - intros w' [->|Hw]%elem_of_cons; [by rewrite Ew1|]. by apply Hl, Wl.
  - cbn [length]. lia.
  - fold (count_execution Serialized (w :: ws)). rewrite count_execution_cons, Es, Ew2.
    rewrite same_execution_decide. unfold count_execution.
    rewrite Ws. destruct (decide (e = Serialized)) as [He|He].
    + by rewrite (Hser He), bool_decide_true.
    + by rewrite bool_decide_false, orb_false_r.
  - fold (count_execution Exclusive (w :: ws)). rewrite count_execution_cons, Ee, Ew2, Hx.
    rewrite same_execution_decide. unfold count_execution.
    rewrite We, Hx. cbn. by rewrite Nat.add_0_r.
  - rewrite Ee, Hx. cbn. intros He%bool_decide_eq_true.
    specialize (Halone He). assert (length ws = 0%nat) by lia. cbn. lia.
Qed.

Lemma start_order st ws k lane p rest e : queue_ok limits st ws -> lanes st !! k = Some lane -> queued lane = p :: rest ->
  forall s, queued_as e (Some (started_lane lane rest)) s <-> queued_as e (lanes st !! k) s /\ s <> sequence p.
Proof.
  intros Hok El Eq s. pose proof (seq_sorted _ _ (ok_seqs _ _ _ Hok) k) as Hsort. rewrite El in *.
  cbn in *. unfold lane_sequences in Hsort. rewrite Eq in *. cbn in Hsort.
  apply StronglySorted_inv in Hsort as [_ Hf]. rewrite Forall_forall in Hf. split.
  - intros (q & Hq & <- & <-). split; [exists q; split; [by right|done]|].
    intros E. specialize (Hf (sequence q) ltac:(by apply list_elem_of_fmap_2)). lia.
  - intros [(q & [->|Hq]%elem_of_cons & <- & <-) Hne]; [done|]. by exists q.
Qed.

Lemma perm_cons_elem {A} (h r : list A) x : NoDup h -> h ≡ₚ x :: r -> NoDup r /\ forall y, y ∈ r <-> y ∈ h /\ y <> x.
Proof.
  intros Hn Hp. rewrite Hp in Hn. apply NoDup_cons in Hn as [Hx Hn]. split; [done|]. intros y.
  rewrite Hp, elem_of_cons. split; [intros Hy; split; [by right|by intros ->]|]. intros [[->|] ?]; done.
Qed.

Lemma sorted_nodup l : StronglySorted Z.lt l -> NoDup l.
Proof.
  induction 1 as [|x l Hs IH Hf]; constructor; [|done]. intros Hin. rewrite Forall_forall in Hf. specialize (Hf _ Hin). lia.
Qed.

Lemma queued_as_fun m n k e1 e2 s : seqs_ok m n -> queued_as e1 (m !! k) s -> queued_as e2 (m !! k) s -> e1 = e2.
Proof.
  intros Hs. pose proof (sorted_nodup _ (seq_sorted m n Hs k)) as Hn. destruct (m !! k) as [lane|]; [|done].
  intros (p & Hp & <- & <-) (q & Hq & E & <-). f_equal. by apply (NoDup_fmap_inj sequence (queued lane)).
Qed.

Lemma start_next_ok st ws before s k e w st' : queue_ok limits st ws -> select_next st before = Some (s, k, e) ->
  start_next st before = Ok (Some w, st') ->
  queue_ok limits (set_activity (active st' + 1) (serialized_active st') (exclusive_active st') (completed st') st') (w :: ws).
Proof.
  intros Hok Hsel Hst. pose proof (select_next_sound _ _ _ _ _ Hsel) as Hs.
  destruct (start_next_spec _ _ _ _ _ _ Hok Hsel) as (lane & p & rest & st1 & El & Ha & Hp & Hq & Es & Ee & Hpop & E).
  rewrite E in Hst. injection Hst as <- <-. clear E. pose proof (ok_lanes _ _ _ Hok k lane El) as Hl.
  destruct (pop_started_spec st s k e before Hs) as (st1' & E & _ & E2 & E3 & E4 & E5 & _ & E7 & E8 & Hr & Ho).
  rewrite Hpop in E. injection E as <-.
  assert (Hw : lookup_key work_key k ws = None).
  { pose proof (lane_running _ _ _ _ Hl) as H. rewrite Ha in H. by destruct (lookup_key _ k ws). }
  assert (Hu : lanes_upd (lanes st) (<[k := started_lane lane rest]> (lanes st1)) k (Some (started_lane lane rest)))
    by (rewrite E2; apply lanes_upd_insert).
  assert (Hin : (s, k) ∈ ready e st) by apply (peek_ready_min e st s k), (sel_peek _ _ _ _ _ Hs).
  pose proof (ok_next _ _ _ Hok). pose proof (ok_generation _ _ _ Hok).
  set (st' := set_activity _ _ _ _ _).
  assert (Hre : forall e', ready e' st' = ready e' st1) by by intros [].
  assert (Hoe : forall e', order e' st' = order e' st1) by by intros [].
  eapply (queue_ok_update _ st ws _ _ k); [done|exact Hu|..]; try (cbn; lia).
  - intros e'. rewrite Hre. specialize (Hr e'). case_decide; [subst e'|]; cbn [ready_entry started_lane lane_active orb].
    + destruct (perm_cons_elem _ _ _ (ready_nodup st (ok_index _ _ _ Hok) e) Hr) as [Hn Hx]. split; [|done].
      intros s' j. rewrite Hx. split; [intros [Hj Hne]; left; split; [|done]|intros [[Hj ?]|[_ ?]]; [split; [done|congruence]|done]].
      intros ->. apply Hne. apply (ready_spec st (ok_index _ _ _ Hok)) in Hj, Hin. congruence.
    + rewrite Hr. split; [|apply Hok]. intros s' j. split; [|intros [[]|[_ ?]]; done]. intros Hj. left. split; [|done].
      intros ->. apply (ready_spec st (ok_index _ _ _ Hok)) in Hj, Hin. congruence.
  - intros e'. rewrite Hoe. specialize (Ho e'). pose proof (start_order _ _ _ _ _ _ e' Hok El Hq) as Hqa.
    assert (Hk : forall s, e' <> PlayerLocal -> queued_as e' (lanes st !! k) s -> s ∈ order e' st)
      by (intros; apply (order_spec st (ok_index _ _ _ Hok)); [done|by exists k]).
    case_decide as Hd.
    + destruct (perm_cons_elem _ _ _ (order_nodup st (ok_index _ _ _ Hok) e') Ho) as [Hn Hx]. split; [|done].
      intros s' Hne. rewrite Hx, Hqa, Es. destruct (decide (queued_as e' (lanes st !! k) s')) as [Hqd|Hqd].
      * specialize (Hk _ Hne Hqd). tauto.
      * destruct (decide (s' = s)) as [->|]; [|tauto]. exfalso. apply Hqd. destruct Hd as [-> _].
        apply ready_entry_queued. by apply (ready_spec st (ok_index _ _ _ Hok)).
    + rewrite Ho. split; [|apply Hok]. intros s' Hne. rewrite Hqa, Es.
      destruct (decide (queued_as e' (lanes st !! k) s')) as [Hqd|Hqd]; [|tauto]. specialize (Hk _ Hne Hqd).
      assert (s' <> s); [|tauto]. intros ->. apply Hd. split; [|done].
      apply (ready_spec st (ok_index _ _ _ Hok)), ready_entry_queued in Hin.
      by apply (queued_as_fun _ _ _ _ _ _ (ok_seqs _ _ _ Hok) Hqd Hin).
  - pose proof (seq_sorted _ _ (ok_seqs _ _ _ Hok) k) as Hsort. rewrite El in Hsort. cbn in *.
    unfold lane_sequences in *. rewrite Hq in Hsort. by apply StronglySorted_inv in Hsort as [? _].
  - intros s' Hs'. left. rewrite El. cbn in *. unfold lane_sequences in *. rewrite Hq. by right.
  - intros j Hj. rewrite lookup_key_cons. cbn. by rewrite decide_False.
  - intros ? [= <-]. rewrite lookup_key_cons. cbn [work_key]. rewrite decide_True by done. split; [|done].
    rewrite Hw in Hl. destruct Hl. rewrite Hq, Forall_cons in lane_queued_bytes0. destruct lane_queued_bytes0 as [Hb Hbs].
    split; cbn; rewrite ?E4; try done.
    + unfold is_paused in *. cbn. rewrite Hp. done.
    + unfold lane_held_packets in *. rewrite Hq in *. simpl in *. lia.
    + unfold lane_held_bytes in *. rewrite Hq in *. simpl in *. lia.
    + intros ? [= <-]. done.
  - eapply works_ok_start; [exact Hok|exists before, s; exact Hs|exact Hw|done|done| | |cbn; lia|exact E7|exact E8].
    + intros j [l Hj]. cbn. rewrite (Hu j). destruct (decide (j = k)); eauto.
    + cbn. rewrite lookup_insert_eq. by eexists.
Qed.

(** [next] never panics; what each answer means. *)
Lemma take_next_spec st ws : queue_ok limits st ws ->
  (next st = Ok WorkerStop /\ phase st = Stopped) \/
  (next st = Ok WaitForWork /\ phase st <> Stopped /\
    forall before, phase_cutoff st = Some before -> select_next st before = None) \/
  (exists w st' before s, next st = Ok (StartWork w st') /\ phase st <> Stopped /\ phase_cutoff st = Some before
    /\ select_next st before = Some (s, work_key w, work_execution w) /\ queue_ok limits st' (w :: ws)
    /\ phase st' = phase st).
Proof.
  intros Hok. unfold next. case_decide as Hs; [by left|right].
  destruct (phase_cutoff st) as [before|] eqn:Ec; [|by left].
  destruct (select_next st before) as [[[s k] e]|] eqn:Esel.
  - destruct (start_next_spec _ _ _ _ _ _ Hok Esel) as (lane & p & rest & st1 & El & Ha & Hp & Hq & Es & Ee & Hpop & E).
    pose proof (start_next_ok _ _ _ _ _ _ _ _ Hok Esel E) as Hok'. rewrite E. cbn [obind]. right.
    eexists _, _, before, s. split; [reflexivity|]. split_and!; try done.
    destruct (pop_started_spec st s k e before (select_next_sound _ _ _ _ _ Esel)) as (st1' & E' & Eph & _).
    cbn. congruence.
  - left. unfold start_next. rewrite Esel. cbn [obind]. split_and!; [done|done|]. intros b [= ->]. done.
Qed.

(** *** Completion *)

Lemma queue_ok_perm st ws ws' : ws ≡ₚ ws' -> queue_ok limits st ws -> queue_ok limits st ws'.
Proof.
  intros Hp [Hi Hs Hl Hne [Wk Wl Wc Ws We Wa] Hn Hg].
  assert (Hk' : keyed work_key ws') by (unfold keyed; by rewrite <- Hp).
  split; try done.
  - intros k lane Hk. rewrite <- (lookup_key_perm work_key k ws ws') by done. by apply Hl.
  - split; try done.
    + intros w Hw. apply Wl. by rewrite Hp.
    + by rewrite <- Hp.
    + by rewrite <- Hp.
    + by rewrite <- Hp.
    + intros H. rewrite <- Hp. by apply Wa.
Qed.

Lemma finish_activity_spec st w ws : works_ok st (w :: ws) -> exists st1,
  finish_activity st (work_execution w) = Ok st1 /\ phase st1 = phase st /\ lanes st1 = lanes st
  /\ next_sequence st1 = next_sequence st /\ next_pause_generation st1 = next_pause_generation st
  /\ (forall e, ready e st1 = ready e st) /\ (forall e, order e st1 = order e st)
  /\ active st1 = active st - 1 /\ completed st1 = wrapu 64 (completed st + 1) /\ works_ok st1 ws.
Proof.
  intros [Wk Wl Wc Ws We Wa]. unfold keyed in Wk. rewrite fmap_cons in Wk. apply NoDup_cons in Wk as [_ Wk].
  fold (count_execution Serialized (w :: ws)) in Ws. fold (count_execution Exclusive (w :: ws)) in We.
  rewrite count_execution_cons in Ws, We. unfold finish_activity. cbn [length] in Wc. zbool.
  assert (Hl : forall w0, w0 ∈ ws -> is_Some (lanes st !! work_key w0)) by (intros; apply Wl; by right).
  assert (Hws : exclusive_active st = true -> ws = []).
  { intros H. specialize (Wa H). by destruct ws. }
  assert (Hex : exclusive_active st = true -> count_execution Exclusive ws = 0%nat) by by intros ->%Hws.
  unfold count_execution in *. destruct (work_execution w); cbn in Ws, We |- *.
  - eexists. split; [reflexivity|]. cbn. split_and!; try done; try (intros []; done).
    split; cbn; try done; [lia|]. intros H. specialize (Wa H). rewrite (Hws H) in We. by rewrite H in We.
  - destruct (serialized_active st); [|done]. cbn in Ws. eexists. split; [reflexivity|]. cbn.
    split_and!; try done; try (intros []; done). split; cbn; try done; [lia|lia|].
    intros H. specialize (Wa H). rewrite (Hws H) in We. by rewrite H in We.
  - destruct (exclusive_active st); [|done]. cbn in We. eexists. split; [reflexivity|]. cbn.
    split_and!; try done; try (intros []; done). split; cbn; try done; lia.
Qed.

Definition finished_lane (lane : PacketLane) (bytes : Z) : PacketLane :=
  MkLane (queued lane) (deferred lane) false (pause_generation lane)
    (outstanding_packets lane - 1) (outstanding_bytes lane - bytes).

Definition finished_slot (lane : PacketLane) (bytes : Z) : option PacketLane :=
  match queued lane with
  | [] => if is_paused lane then Some (finished_lane lane bytes) else None
  | _ => Some (finished_lane lane bytes)
  end.

Lemma finished_lane_ok g w lane : lane_ok limits g (Some w) lane -> lane_ok limits g None (finished_lane lane (work_bytes w)).
Proof.
  intros []. specialize (lane_work_bytes0 w eq_refl). unfold lane_held_packets, lane_held_bytes in *.
  split; simpl in *; try done; try lia;
    unfold lane_held_packets, lane_held_bytes; simpl; lia.
Qed.

(** The assertions of [finish_one] hold for running work. *)
Lemma finish_one_spec st w ws : queue_ok limits st (w :: ws) -> exists lane st' wk,
  lanes st !! work_key w = Some lane
  /\ finish_one st (work_key w) (work_execution w) (work_bytes w) = Ok (st', wk)
  /\ wk = MkWakes (wake_if (should_wake_workers st') (finish_wake (work_execution w))) (is_idle st') NotifyOne
  /\ phase st' = phase st /\ next_sequence st' = next_sequence st
  /\ next_pause_generation st' = next_pause_generation st /\ completed st' = wrapu 64 (completed st + 1)
  /\ lanes_upd (lanes st) (lanes st') (work_key w) (finished_slot lane (work_bytes w))
  /\ ready_upd st st' (work_key w) (finished_slot lane (work_bytes w))
  /\ (forall e, order e st' = order e st) /\ works_ok st' ws.
Proof.
  intros Hok. pose proof (ok_works _ _ _ Hok) as Hw.
  destruct (works_lanes _ _ Hw w ltac:(by left)) as [lane El]. pose proof (ok_lanes _ _ _ Hok _ _ El) as Hl.
  rewrite lookup_key_cons, decide_True in Hl by done.
  destruct (finish_activity_spec st w ws Hw) as (st1 & E1 & Eph & Elanes & En & Eg & Er & Eo & Ea & Ec & Hw').
  exists lane. unfold finish_one. rewrite E1. cbn [obind]. rewrite Elanes, El. pose proof (lane_running _ _ _ _ Hl) as Hra.
  cbn in Hra. rewrite Hra. cbn [negb]. pose proof (lane_packets _ _ _ _ Hl) as Hpk. pose proof (lane_bytes _ _ _ _ Hl) as Hby.
  cbn in Hpk, Hby. destruct (lane_held_nonneg _ _ _ Hl) as [Hh Hhb]. zbool. cbn [queued is_paused pause_generation].
  fold (finished_lane lane (work_bytes w)). unfold finished_slot. pose proof (ok_index _ _ _ Hok) as Hi.
  assert (E0 : ready_entry (lanes st !! work_key w) = None) by (rewrite El; cbn; by rewrite Hra).
  assert (Hu : forall o, lanes_upd (lanes st) (set_lane (work_key w) o (lanes st)) (work_key w) o)
    by (intros; apply lanes_upd_set).
  assert (Hwx : forall st' o, lanes st' = set_lane (work_key w) o (lanes st) -> same_activity st1 st' -> works_ok st' ws).
  { intros st' o E Ha. eapply (works_ok_upd st1); [done|done|rewrite Elanes, E; apply lanes_upd_set|].
    intros _. apply lookup_key_None. pose proof (works_keyed _ _ Hw) as Hk. unfold keyed in Hk.
    rewrite fmap_cons in Hk. by apply NoDup_cons in Hk as [? _]. }
  set (lane' := finished_lane lane (work_bytes w)) in *. assert (Eq' : queued lane' = queued lane) by done.
  destruct (queued lane) as [|p ps] eqn:Eq; [destruct (is_paused lane) eqn:Ep|].
  - change (is_paused lane') with (is_paused lane). rewrite Ep. cbn [obind].
    eexists _, _. split; [done|]. split; [reflexivity|]. split; [reflexivity|].
    split_and!; try done.
    + apply (Hu (Some lane')).
    + apply ready_upd_same; [done|intros e; by rewrite ready_set_lanes, Er|]. rewrite E0. cbn.
      unfold is_paused in *. cbn. by rewrite Ep.
    + by eapply (Hwx _ (Some lane')).
  - change (is_paused lane') with (is_paused lane). rewrite Ep.
    assert (deferred lane = []) as Ed by by apply Hl.
    assert (Hz : lane_held_packets lane = 0 /\ lane_held_bytes lane = 0)
      by (unfold lane_held_packets, lane_held_bytes; by rewrite Eq, Ed).
    unfold lane'. cbn [outstanding_packets outstanding_bytes finished_lane].
    replace (outstanding_packets lane - 1) with 0 by lia. replace (outstanding_bytes lane - work_bytes w) with 0 by lia.
    cbn [Z.eqb andb obind]. eexists _, _. split; [done|]. split; [reflexivity|]. split; [reflexivity|].
    split_and!; try done.
    + cbn. rewrite delete_insert_eq. apply (Hu None).
    + apply ready_upd_same; [done|intros e; by rewrite ?ready_set_lanes, Er|by rewrite E0].
    + eapply (Hwx _ None); [|done]. cbn. by rewrite delete_insert_eq.
  - assert (Ep : is_paused lane = false).
    { destruct (is_paused lane) eqn:Ep; [|done]. pose proof (lane_paused _ _ _ _ Hl Ep). congruence. }
    change (is_paused lane') with (is_paused lane). rewrite Ep. cbn [obind].
    eexists _, _. split; [done|]. split; [reflexivity|]. split; [reflexivity|].
    assert (Hf : same_frame st1 (mark_ready st1 (sequence p) (work_key w) (execution p))) by apply mark_ready_frame.
    destruct (mark_ready_frame (set_lanes (<[work_key w := lane']> (lanes st)) st1) (sequence p) (work_key w) (execution p))
      as (F1 & F2 & F3 & F4 & F5 & F6 & F7 & F8). cbn in F1, F2, F3, F4, F5, F6, F7, F8.
    split_and!; try congruence.
    + rewrite F2. apply (Hu (Some lane')).
    + apply (ready_upd_push _ _ _ _ (sequence p) (execution p)); [done|done| |].
      * cbn. change (is_paused lane') with (is_paused lane). by rewrite Ep, Eq.
      * intros e. by rewrite ready_mark_ready, ready_set_lanes, Er.
    + intros e. by rewrite order_mark_ready, order_set_lanes.
    + eapply (Hwx _ (Some lane')); [by rewrite F2|by split_and!].
Qed.

Lemma finish_one_ok st w ws st' wk : queue_ok limits st (w :: ws) ->
  finish_one st (work_key w) (work_execution w) (work_bytes w) = Ok (st', wk) -> queue_ok limits st' ws.
Proof.
  intros Hok H. destruct (finish_one_spec st w ws Hok) as (lane & st'' & wk' & El & E & _ & _ & En & Eg & _ & Hu & Hr & Ho & Hw).
  rewrite E in H. injection H as -> _. pose proof (ok_lanes _ _ _ Hok _ _ El) as Hl.
  rewrite lookup_key_cons, decide_True in Hl by done. apply finished_lane_ok in Hl as Hl'.
  pose proof (works_keyed _ _ (ok_works _ _ _ Hok)) as Hk. unfold keyed in Hk. rewrite fmap_cons in Hk.
  apply NoDup_cons in Hk as [Hk _]. apply lookup_key_None in Hk.
  pose proof (ok_next _ _ _ Hok). pose proof (ok_generation _ _ _ Hok).
  assert (Hs : seqs_of (finished_slot lane (work_bytes w)) = lane_sequences lane).
  { unfold finished_slot, lane_sequences. destruct (queued lane) eqn:Eq; [|cbn; unfold lane_sequences; cbn; by rewrite Eq].
    destruct (is_paused lane); [cbn; unfold lane_sequences; cbn; by rewrite Eq|done]. }
  eapply (queue_ok_update _ st (w :: ws) _ ws); [exact Hok|exact Hu|exact Hr| |lia|lia| | | | |done].
  - apply order_upd_same; [apply Hok|done|]. intros e s. rewrite El. unfold finished_slot.
    destruct (queued lane) eqn:Eq; [|cbn; by rewrite Eq]. destruct (is_paused lane); [cbn; by rewrite Eq|].
    cbn. rewrite Eq. split; [done|]. intros (p & Hp & _). by apply elem_of_nil in Hp.
  - rewrite Hs. pose proof (seq_sorted _ _ (ok_seqs _ _ _ Hok) (work_key w)) as Hsort. by rewrite El in Hsort.
  - rewrite Hs, El. by left.
  - intros j Hj. rewrite lookup_key_cons. by rewrite decide_False.
  - intros lane' Hs'. assert (lane' = finished_lane lane (work_bytes w) /\ (is_paused lane = false -> queued lane <> [])) as [-> Hne].
    { unfold finished_slot in Hs'. destruct (queued lane), (is_paused lane); naive_solver. }
    rewrite Hk. split; [by rewrite Eg|]. intros _ Hp. by apply Hne.
Qed.

(** ** Histories *)

(** A packet waiting in its lane, whether queued or deferred. *)
Definition waiting (o : option PacketLane) : list DeferredPacket :=
  match o with Some lane => (defer_packet <$> queued lane) ++ deferred lane | None => [] end.

Definition pending (st : PacketQueueState) (k : LaneKey) : list DeferredPacket := waiting (lanes st !! k).

Definition packet_of (w : PacketWork) : DeferredPacket :=
  MkDeferred (work_execution w) (work_bytes w) (work_value w).

Inductive QueueEvent :=
| Submitted (k : LaneKey) (d : DeferredPacket)
| Refused (k : LaneKey) (error : PacketAdmissionError)
| PhaseChanged
| LanePaused (k : LaneKey)
| LaneResumed (k : LaneKey)
| LaneDiscarded (k : LaneKey)
| QueueStopped
| Started (w : PacketWork)
| Finished (w : PacketWork).

(** The operations of the queue, with the packets that are running. *)
Inductive queue_step : PacketQueueState * list PacketWork -> QueueEvent -> PacketQueueState * list PacketWork -> Prop :=
| step_submit st ws k e bytes v st' wk : 0 <= bytes -> try_submit limits st k e bytes v = Ok (st', wk) ->
    queue_step (st, ws) (Submitted k (MkDeferred e bytes v)) (st', ws)
| step_refuse st ws k e bytes v error : try_submit limits st k e bytes v = Err error ->
    queue_step (st, ws) (Refused k error) (st, ws)
| step_open st ws : queue_step (st, ws) PhaseChanged ((open st).1, ws)
| step_begin_drain st ws : queue_step (st, ws) PhaseChanged ((begin_tick_drain st).1.1, ws)
| step_finish_drain st ws c : queue_step (st, ws) PhaseChanged (finish_tick_drain st c, ws)
| step_pause st ws k st' r wk : pause_lane st k = Ok (st', r, wk) -> queue_step (st, ws) (LanePaused k) (st', ws)
| step_resume st ws p st' r wk : resume_lane st p = Ok (st', r, wk) ->
    queue_step (st, ws) (LaneResumed (pause_key p)) (st', ws)
| step_discard st ws k st' wk : discard_lane st k = Ok (st', wk) -> queue_step (st, ws) (LaneDiscarded k) (st', ws)
| step_stop st ws st' wk : stop st = Ok (st', wk) -> queue_step (st, ws) QueueStopped (st', ws)
| step_start st ws w st' : next st = Ok (StartWork w st') -> queue_step (st, ws) (Started w) (st', w :: ws)
| step_finish st ws w ws' st' wk : ws ≡ₚ w :: ws' ->
    finish_one st (work_key w) (work_execution w) (work_bytes w) = Ok (st', wk) ->
    queue_step (st, ws) (Finished w) (st', ws').

(** A history of the queue since its creation. *)
Inductive run : list QueueEvent -> PacketQueueState -> list PacketWork -> Prop :=
| run_nil : run [] with_limits []
| run_snoc tr ev st ws st' ws' : run tr st ws -> queue_step (st, ws) ev (st', ws') -> run (tr ++ [ev]) st' ws'.

Lemma with_limits_ok : queue_ok limits with_limits [].
Proof.
  split; try done.
  - split; cbn.
    + intros [] s k; cbn; rewrite lookup_empty; split; try done; intros H; by apply elem_of_nil in H.
    + intros []; constructor.
    + intros e s _. split; [destruct e; intros H; by apply elem_of_nil in H|]. intros [k H]. by rewrite lookup_empty in H.
    + intros []; constructor.
  - split; intros k; cbn; rewrite lookup_empty; [constructor|intros s H; by apply elem_of_nil in H|].
    intros k2 s H. by apply elem_of_nil in H.
  - split; try done; [constructor|]. intros w H. by apply elem_of_nil in H.
Qed.

Lemma next_start st ws w st' : queue_ok limits st ws -> next st = Ok (StartWork w st') ->
  queue_ok limits st' (w :: ws) /\ exists before s, phase_cutoff st = Some before
    /\ select_next st before = Some (s, work_key w, work_execution w).
Proof.
  intros Hok H. destruct (take_next_spec st ws Hok) as [[E _]|[(E & _)|(w' & st'' & before & s & E & _ & Hc & Hsel & Hok' & _)]];
    rewrite E in H; try done. injection H as -> ->. split; [done|]. by exists before, s.
Qed.

Lemma queue_step_ok st ws ev st' ws' : queue_ok limits st ws -> queue_step (st, ws) ev (st', ws') -> queue_ok limits st' ws'.
Proof using Hlimits.
  intros Hok Hst. inversion Hst; subst.
  - by eapply try_submit_ok.
  - done.
  - by apply open_ok.
  - by apply begin_tick_drain_ok.
  - by apply finish_tick_drain_ok.
  - by eapply pause_lane_ok.
  - by eapply resume_lane_ok.
  - by eapply discard_lane_ok.
  - by eapply stop_ok.
  - by eapply next_start.
  - eapply finish_one_ok; [|done]. by eapply queue_ok_perm.
Qed.

Lemma run_ok tr st ws : run tr st ws -> queue_ok limits st ws.
Proof using Hlimits. induction 1; [apply with_limits_ok|by eapply queue_step_ok]. Qed.

(** *** What each operation does to the waiting packets *)

Lemma pending_upd st st' k o : lanes_upd (lanes st) (lanes st') k o ->
  forall j, pending st' j = if decide (j = k) then waiting o else pending st j.
Proof. intros Hu j. unfold pending. rewrite (Hu j). by case_decide. Qed.

Lemma pending_lane_or_new st k : pending st k = waiting (Some (lane_or_new st k)).
Proof. unfold pending, lane_or_new. by destruct (lanes st !! k). Qed.

Lemma pending_submit st ws k e bytes v st' wk : queue_ok limits st ws -> try_submit limits st k e bytes v = Ok (st', wk) ->
  forall j, pending st' j = if decide (j = k) then pending st k ++ [MkDeferred e bytes v] else pending st j.
Proof using Hlimits.
  intros Hok H%try_submit_Ok. cbv zeta in H. destruct H as (_ & _ & _ & H).
  pose proof (lane_or_new_ok st ws k Hok) as Hl. rewrite pending_lane_or_new. destruct (is_paused _) eqn:Ep.
  - destruct H as [_ ->]. intros j. erewrite (pending_upd st) by apply lanes_upd_insert. case_decide; [|done]. cbn. by rewrite <- app_assoc.
  - destruct H as (_ & -> & _). destruct (submit_state_frame st k e bytes v) as (_ & El & _). cbn in El.
    intros j. erewrite (pending_upd st) by (rewrite El; apply lanes_upd_insert). case_decide; [|done]. cbn.
    rewrite (lane_unpaused _ _ _ _ Hl) by done. rewrite fmap_app, !app_nil_r. done.
Qed.

Lemma pending_pause st ws k st' r wk : queue_ok limits st ws -> pause_lane st k = Ok (st', r, wk) ->
  forall j, pending st' j = pending st j.
Proof using Hlimits.
  intros Hok [(-> & _)|H]%pause_lane_Ok; [done|]. cbv zeta in H. destruct H as (_ & Hp & _ & _ & _ & ->). intros j.
  erewrite (pending_upd st) by apply lanes_upd_insert. case_decide; [subst|done].
  rewrite pending_lane_or_new. cbn. by rewrite (lane_unpaused _ _ _ _ (lane_or_new_ok st ws k Hok) Hp), app_nil_r.
Qed.

Lemma pending_resume st ws p st' r wk : queue_ok limits st ws -> resume_lane st p = Ok (st', r, wk) ->
  forall j, pending st' j = pending st j.
Proof.
  intros Hok [(-> & _)|(lane & st1 & ps & H)]%resume_lane_Ok; [done|]. cbv zeta in H.
  destruct H as (_ & El & Hg & _ & Er & -> & _ & _). intros j.
  destruct (readmit_spec _ _ _ _ _ Er) as ((_ & Elanes & _) & _ & _ & _ & Hd). cbn in Elanes.
  destruct (resume_state_frame st1 (pause_key p) lane ps) as (Fl & _).
  erewrite (pending_upd st) by (rewrite Fl, Elanes; apply lanes_upd_set). case_decide; [subst|done].
  assert (Hq : queued lane = []).
  { apply (ok_lanes _ _ _ Hok _ _ El). unfold is_paused. by rewrite Hg. }
  unfold pending. rewrite El. unfold resumed_slot. destruct (lane_active lane), ps; cbn in *; by rewrite Hq, <- Hd, ?app_nil_r.
Qed.

Lemma pending_discard st ws k st' wk : queue_ok limits st ws -> discard_lane st k = Ok (st', wk) ->
  forall j, pending st' j = if decide (j = k) then [] else pending st j.
Proof.
  intros Hok H j. destruct (discard_lane_Ok st ws k st' wk Hok H) as [(E & -> & _)|(lane & _ & _ & ->)].
  - case_decide; [subst; unfold pending; by rewrite E|done].
  - erewrite (pending_upd st) by apply lanes_upd_set. case_decide; [|done]. by destruct (lane_active lane).
Qed.

Lemma pending_stop st ws st' wk : queue_ok limits st ws -> stop st = Ok (st', wk) -> forall j, pending st' j = [].
Proof.
  intros Hok H j. destruct (stop_total st ws Hok) as (w' & E & _). rewrite E in H. injection H as <- _.
  unfold pending. cbn. destruct (stopped_lanes (lanes st) !! j) as [lane'|] eqn:El; [|done].
  by apply (stopped_lanes_lookup st ws) in El as (lane & _ & _ & ->).
Qed.

Lemma pending_start st ws w st' : queue_ok limits st ws -> next st = Ok (StartWork w st') ->
  forall j, pending st j = if decide (j = work_key w) then packet_of w :: pending st' j else pending st' j.
Proof.
  intros Hok H j. destruct (next_start st ws w st' Hok H) as (_ & before & s & Hc & Hsel).
  destruct (start_next_spec _ _ _ _ _ _ Hok Hsel) as (lane & p & rest & st1 & El & _ & _ & Hq & _ & Ee & Hpop & E).
  unfold next in H. assert (Hs : phase st <> Stopped) by (intros Hs; unfold phase_cutoff in Hc; by rewrite Hs in Hc).
  rewrite decide_False, Hc, E in H by done. cbn in H. injection H as Hw <-.
  destruct (pop_started_spec _ _ _ _ _ (select_next_sound _ _ _ _ _ Hsel)) as (st1' & E1 & _ & E2 & _).
  rewrite Hpop in E1. injection E1 as <-.
  set (st'' := set_activity _ _ _ _ _).
  rewrite (pending_upd st st'' (work_key w) (Some (started_lane lane rest))) by (cbn; rewrite E2, <- Hw; apply lanes_upd_insert).
  case_decide; [subst j|done]. unfold pending. rewrite El. cbn. rewrite Hq. rewrite <- Hw. unfold packet_of, defer_packet. cbn. by rewrite Ee.
Qed.

Lemma pending_finish st w ws st' wk : queue_ok limits st (w :: ws) ->
  finish_one st (work_key w) (work_execution w) (work_bytes w) = Ok (st', wk) -> forall j, pending st' j = pending st j.
Proof.
  intros Hok H j. destruct (finish_one_spec st w ws Hok) as (lane & st'' & wk' & El & E & _ & _ & _ & _ & _ & Hu & _).
  rewrite E in H. injection H as -> _. rewrite (pending_upd _ _ _ _ Hu). case_decide; [subst|done].
  unfold pending. rewrite El. unfold finished_slot. destruct (queued lane) eqn:Eq; [|cbn; by rewrite Eq].
  destruct (is_paused lane) eqn:Ep; [done|]. cbn.
  by rewrite Eq, (lane_unpaused _ _ _ _ (ok_lanes _ _ _ Hok _ _ El) Ep).
Qed.

(** What a session submitted that was not discarded, and what was started. *)
Definition ledger_step (k : LaneKey) (l : list DeferredPacket * list DeferredPacket) (ev : QueueEvent) :=
  let '(accepted, started) := l in
  match ev with
  | Submitted k' d => if decide (k' = k) then (accepted ++ [d], started) else l
  | Started w => if decide (work_key w = k) then (accepted, started ++ [packet_of w]) else l
  | LaneDiscarded k' => if decide (k' = k) then (take (length started) accepted, started) else l
  | QueueStopped => (take (length started) accepted, started)
  | _ => l
  end.

Definition ledger (k : LaneKey) (tr : list QueueEvent) : list DeferredPacket * list DeferredPacket :=
  foldl (ledger_step k) ([], []) tr.

(** C9: Each session's packets are handled in the order it submitted them,
    none twice and none lost: whatever the interleaving of submissions, pauses,
    resumptions, starts and completions, the packets accepted from a session
    and not discarded are those started, in order, followed by those waiting. *)
Theorem session_packets_in_order tr st ws : run tr st ws ->
  forall k, (ledger k tr).1 = (ledger k tr).2 ++ pending st k.
Proof using Hlimits.
  induction 1 as [|tr ev st ws st' ws' Hrun IH Hst]; [done|]. intros k. specialize (IH k).
  pose proof (run_ok _ _ _ Hrun) as Hok. unfold ledger in *. rewrite foldl_app. cbn [foldl].
  destruct (foldl (ledger_step k) ([], []) tr) as [accepted started]. cbn [fst snd] in IH. subst accepted.
  assert (Htake : take (length started) (started ++ pending st k) = started) by by rewrite take_app_length.
  inversion Hst; subst; cbn [ledger_step fst snd]; try done.
  - erewrite (pending_submit st ws' _ _ _ _ st') by eassumption. destruct (decide (k0 = k)) as [->|].
    + by rewrite decide_True, app_assoc by done.
    + by rewrite decide_False by done.
  - unfold open. by case_decide.
  - unfold begin_tick_drain. by destruct (phase st).
  - unfold finish_tick_drain. by case_decide.
  - by erewrite (pending_pause st ws' _ st') by eassumption.
  - by erewrite (pending_resume st ws' _ st') by eassumption.
  - erewrite (pending_discard st ws' _ st') by eassumption. destruct (decide (k0 = k)) as [->|].
    + rewrite decide_True by done. cbn. by rewrite Htake, app_nil_r.
    + by rewrite decide_False by done.
  - erewrite (pending_stop st ws' st') by eassumption. cbn. by rewrite Htake, app_nil_r.
  - erewrite (pending_start st ws _ st') by eassumption. destruct (decide (work_key w = k)) as [<-|].
    + rewrite decide_True by done. cbn. by rewrite <- app_assoc.
    + by rewrite decide_False by done.
  - eapply queue_ok_perm in Hok; [|done]. by erewrite (pending_finish st w ws' st') by eassumption.
Qed.

(** The packets of every lane, in one list. *)
Definition queued_anywhere (st : PacketQueueState) (p : SequencedPacket) : Prop :=
  exists k lane, lanes st !! k = Some lane /\ p ∈ queued lane.

Lemma queued_anywhere_seq st p : queued_anywhere st p -> in_some_lane (lanes st) (sequence p).
Proof. intros (k & lane & El & Hp). exists k. rewrite El. by apply list_elem_of_fmap_2. Qed.

(** C19: A started packet respects the order and the exclusions its kind
    asks for.  It is the front of its session's lane, which has nothing
    running; nothing exclusive runs, and no exclusive packet queued anywhere
    comes before it.  A serialized packet overlaps no serialized one and comes
    before all those queued.  An exclusive one overlaps nothing and comes
    before every queued packet.  During a drain it was submitted before the
    drain's cutoff. *)
Theorem start_respects_order tr st ws w st' : run tr st ws -> next st = Ok (StartWork w st') ->
  exists lane p rest, lanes st !! work_key w = Some lane /\ queued lane = p :: rest
    /\ defer_packet p = packet_of w /\ pause_generation lane = None
    /\ (forall w', w' ∈ ws -> work_key w' <> work_key w /\ work_execution w' <> Exclusive
          /\ (work_execution w = Serialized -> work_execution w' <> Serialized))
    /\ (work_execution w = Exclusive -> ws = [])
    /\ (forall q, queued_anywhere st q -> execution q = Exclusive \/ work_execution w = Exclusive
          \/ (execution q = Serialized /\ work_execution w = Serialized) -> sequence p <= sequence q)
    /\ (forall c, phase st = Draining c -> sequence p < c).
Proof using Hlimits.
  intros Hrun H. pose proof (run_ok _ _ _ Hrun) as Hok.
  destruct (next_start st ws w st' Hok H) as (_ & before & s & Hc & Hsel).
  destruct (start_next_spec _ _ _ _ _ _ Hok Hsel) as (lane & p & rest & st1 & El & Ha & Hp & Hq & Es & Ee & _ & E).
  pose proof (select_next_sound _ _ _ _ _ Hsel) as [_ Hx Hcut Hbar Hser Hord Halone]. exists lane, p, rest.
  assert (Hstop : phase st <> Stopped) by (intros Hs; unfold phase_cutoff in Hc; by rewrite Hs in Hc).
  assert (Hw : defer_packet p = packet_of w).
  { unfold next in H. rewrite decide_False, Hc, E in H by done. cbn in H. injection H as <- _.
    unfold defer_packet, packet_of. cbn. by rewrite Ee. }
  pose proof (ok_works _ _ _ Hok) as [Wk Wl Wc Ws We Wa].
  assert (Hcount : forall e, length (filter (is_execution e) ws) = 0%nat -> forall w', w' ∈ ws -> work_execution w' <> e).
  { intros e Hl w' Hw' He. apply nil_length_inv in Hl.
    assert (Hin : w' ∈ filter (is_execution e) ws) by by apply list_elem_of_filter. rewrite Hl in Hin. by apply elem_of_nil in Hin. }
  assert (Hq_order : forall e q, e <> PlayerLocal -> queued_anywhere st q -> execution q = e -> sequence q ∈ order e st).
  { intros e q He (k & l & Hk & Hin) Hqe. apply (order_spec st (ok_index _ _ _ Hok)); [done|]. exists k. rewrite Hk.
    by exists q. }
  split_and!; try done.
  - unfold is_paused in Hp. by destruct (pause_generation lane).
  - intros w' Hw'. split_and!.
    + intros Hk. pose proof (lane_running _ _ _ _ (ok_lanes _ _ _ Hok _ _ El)) as Hr. rewrite Ha in Hr.
      assert (Hl : lookup_key work_key (work_key w) ws = Some w') by by apply lookup_key_Some. by rewrite Hl in Hr.
    + apply (Hcount Exclusive); [|done]. by rewrite We, Hx.
    + intros He. apply (Hcount Serialized); [|done]. by rewrite Ws, (Hser He).
  - intros He. specialize (Halone He). destruct ws; [done|]. cbn in Wc. lia.
  - intros q Hqa [He|[He|[He1 He2]]].
    + rewrite Es. apply Hbar. by apply (Hq_order Exclusive).
    + assert (ws = []) as Hws by (specialize (Halone He); destruct ws; [done|cbn in Wc; lia]).
      destruct (select_next_least Hok before s Hws) as (m & k & e & Hsel' & _ & Hmin); [|done|].
      { exists (work_key w). rewrite El. unfold seqs_of, lane_sequences. rewrite Hq, <- Es. by left. }
      rewrite Hsel in Hsel'. injection Hsel' as <- _ _. rewrite Es. by apply Hmin, queued_anywhere_seq.
    + rewrite Es. specialize (Hord ltac:(congruence)). rewrite He2 in Hord. apply peek_order_min in Hord as [_ Hmin].
      apply Hmin. by apply (Hq_order Serialized).
  - intros c Hph. unfold phase_cutoff in Hc. rewrite Hph in Hc. injection Hc as <-.
    unfold past_cutoff in Hcut. rewrite Es. by apply Z.leb_gt in Hcut.
Qed.

(** The admission accounting is exact and bounded: a session's
    outstanding packets are those waiting and the one running, its
    outstanding bytes theirs, and neither exceeds its limit. *)
Theorem admission_exact_and_bounded tr st ws k lane : run tr st ws -> lanes st !! k = Some lane ->
  let running := packet_of <$> filter (fun w => work_key w = k) ws in
  let held := pending st k ++ running in
  outstanding_packets lane = Z.of_nat (length held) /\ outstanding_bytes lane = list_sum deferred_bytes held
  /\ outstanding_packets lane <= per_player_packets limits /\ outstanding_bytes lane <= per_player_bytes limits.
Proof using Hlimits.
  intros Hrun El running held. pose proof (run_ok _ _ _ Hrun) as Hok. pose proof (ok_lanes _ _ _ Hok k lane El) as [].
  assert (Hrn : running = match lookup_key work_key k ws with Some w => [packet_of w] | None => [] end).
  { pose proof (works_keyed _ _ (ok_works _ _ _ Hok)) as Hk. unfold running. clear -Hk.
    induction ws as [|w ws IH]; [done|]. unfold keyed in Hk. rewrite fmap_cons in Hk. apply NoDup_cons in Hk as [Hw Hk].
    rewrite filter_cons, lookup_key_cons. case_decide as E; [|by apply IH]. cbn. rewrite IH by done.
    destruct (lookup_key work_key k ws) eqn:El; [|done]. apply lookup_key_elem in El as [Hin Hk'].
    destruct Hw. rewrite E, <- Hk'. by apply list_elem_of_fmap_2. }
  unfold held, pending. rewrite El, Hrn, length_app, list_sum_app. cbn [waiting].
  rewrite length_app, list_sum_app, length_fmap, list_sum_defer. unfold lane_held_packets, lane_held_bytes in *.
  destruct (lookup_key work_key k ws); simpl in *; lia.
Qed.

(** C23: No assertion of the packet queue fails, whatever the history: taking
    work, completing running work, discarding and stopping never panic, and
    submitting, pausing and resuming only when a 64-bit counter is used up. *)
Theorem packet_queue_never_panics tr st ws : run tr st ws ->
  next st <> Panic /\ stop st <> Panic
  /\ (forall k, discard_lane st k <> Panic)
  /\ (forall w, w ∈ ws -> finish_one st (work_key w) (work_execution w) (work_bytes w) <> Panic)
  /\ (forall k e bytes v, try_submit limits st k e bytes v = Panic -> next_sequence st = u64_max)
  /\ (forall k, pause_lane st k = Panic -> next_pause_generation st = u64_max)
  /\ (forall p, resume_lane st p = Panic ->
        u64_max < next_sequence st + Z.of_nat (length (pending st (pause_key p)))).
Proof using Hlimits.
  intros Hrun. pose proof (run_ok _ _ _ Hrun) as Hok. split_and!.
  - destruct (take_next_spec st ws Hok) as [[-> _]|[(-> & _)|(? & ? & ? & ? & -> & _)]]; done.
  - by destruct (stop_total st ws Hok) as (? & -> & _).
  - intros k. by destruct (discard_lane_total st ws k Hok) as (? & ? & ->).
  - intros w (l1 & l2 & ->)%list_elem_of_split. eapply queue_ok_perm in Hok; [|symmetry; apply Permutation_middle].
    by destruct (finish_one_spec st w _ Hok) as (? & ? & ? & _ & -> & _).
  - intros k e bytes v. unfold try_submit. repeat case_match; try done; intros _; by apply Z.eqb_eq.
  - intros k. unfold pause_lane. case_decide; [done|]. destruct (is_paused _); [done|].
    destruct (Z.eqb_spec (next_pause_generation st) u64_max); done.
  - intros p. unfold resume_lane. case_decide; [done|]. destruct (lanes st !! pause_key p) as [lane|] eqn:El; [|done].
    case_decide; [done|]. destruct (Z.ltb_spec u64_max (next_sequence st + Z.of_nat (length (deferred lane)))); [|by case_match].
    intros _. unfold pending. rewrite El. cbn. rewrite length_app. lia.
Qed.
End Preserve.
End Queue.

Arguments PacketQueueState T : clear implicits.
Arguments PacketLane T : clear implicits.
Arguments PacketWork T : clear implicits.
Arguments NextResult T : clear implicits.
Arguments SequencedPacket T : clear implicits.
Arguments DeferredPacket T : clear implicits.
Arguments QueueEvent T : clear implicits.

(** ** A run of the queue: two sessions, a barrier, a pause *)

Module Example1.
Definition submitted (st : PacketQueueState Z) k e v : PacketQueueState Z :=
  match try_submit PRODUCTION st k e (64 + PACKET_ADMISSION_OVERHEAD) v with Ok (st', _) => st' | _ => st end.

Definition s1 := submitted with_limits 7 PlayerLocal 11.
Definition s2 := submitted s1 9 Exclusive 21.
Definition s3 := submitted s2 7 Serialized 12.
Definition s4 := (open s3).1.
Definition s5 := match next s4 with Ok (StartWork _ st) => st | _ => s4 end.
Definition first_work : PacketWork Z := MkWork 7 PlayerLocal 320 11.

Definition packet e v : DeferredPacket Z := MkDeferred e 320 v.
Definition trace4 : list (QueueEvent Z) :=
  [Submitted 7 (packet PlayerLocal 11); Submitted 9 (packet Exclusive 21);
   Submitted 7 (packet Serialized 12); PhaseChanged].

Lemma production_limits : 0 <= per_player_packets PRODUCTION /\ 0 <= per_player_bytes PRODUCTION.
Proof. cbv. done. Qed.

Lemma run4 : run (limits := PRODUCTION) trace4 s4 [].
Proof.
  apply (run_snoc [Submitted 7 (packet PlayerLocal 11); Submitted 9 (packet Exclusive 21); Submitted 7 (packet Serialized 12)]
    PhaseChanged s3 [] s4 []); [|apply step_open].
  apply (run_snoc [Submitted 7 (packet PlayerLocal 11); Submitted 9 (packet Exclusive 21)] _ s2 [] s3 []);
    [|eapply step_submit; [lia|vm_compute; reflexivity]].
  apply (run_snoc [Submitted 7 (packet PlayerLocal 11)] _ s1 [] s2 []);
    [|eapply step_submit; [lia|vm_compute; reflexivity]].
  apply (run_snoc [] _ with_limits [] s1 []); [constructor|].
  eapply step_submit; [lia|vm_compute; reflexivity].
Qed.

Lemma next4 : next s4 = Ok (StartWork first_work s5).
Proof. vm_compute. reflexivity. Qed.

(** The exclusive packet of session 9 waits for session 7's earlier one. *)
Example barrier_waits : next s5 = Ok WaitForWork.
Proof. vm_compute. reflexivity. Qed.

Lemma session_packets_in_order_witness : (ledger 7 trace4).1 = (ledger 7 trace4).2 ++ pending s4 7.
Proof. apply (session_packets_in_order production_limits trace4 s4 [] run4 7). Defined.

Lemma start_respects_order_witness : exists (lane : PacketLane Z) (p : SequencedPacket Z) rest, lanes s4 !! 7 = Some lane /\ queued lane = p :: rest
    /\ defer_packet p = packet_of first_work.
Proof.
  destruct (start_respects_order production_limits trace4 s4 [] first_work s5 run4 next4)
    as (lane & p & rest & H1 & H2 & H3 & _). by exists lane, p, rest.
Defined.

Lemma admission_exact_and_bounded_witness : exists lane, lanes s4 !! 7 = Some lane /\ outstanding_packets lane <= 8192.
Proof.
  destruct (lanes s4 !! 7) as [lane|] eqn:E; [|vm_compute in E; discriminate E]. exists lane. split; [reflexivity|].
  apply (admission_exact_and_bounded production_limits trace4 s4 [] 7 lane run4 E).
Defined.

Lemma packet_queue_never_panics_witness : next s4 <> Panic /\ stop s4 <> Panic.
Proof. destruct (packet_queue_never_panics production_limits trace4 s4 [] run4) as (H1 & H2 & _). by split. Defined.
End Example1.
