(* ===== verification/PacketWorkers.v ===== *)
(** * Packet workers and the game loop

    The packet queue of [PacketQueue] under the threads that use it
    ([steel-core/src/server/packet_processor.rs], [server/run_loop.rs]): a
    pool of workers blocking on the queue's condition variable, the game loop
    that opens the queue, waits for overload progress and drains it at a tick
    boundary, and any number of other tasks that submit, pause, resume,
    discard and stop.  A step is one critical section; notifications are
    delivered with the step that makes them.

    The theorems: no wake-up is lost, and in every fair execution a drain
    ends, with the queue stopped or no packet below its cutoff left. *)

From Stdlib Require Import ZArith Lia.
From stdpp Require Import prelude list gmap.
From S2P Require Import Prelude Collections KeyedList Sums PacketQueue.

Section Workers.
Context {T : Type} {limits : PacketAdmissionLimits}.
Hypothesis Hlimits : 0 <= per_player_packets limits /\ 0 <= per_player_bytes limits.

(** ** [PacketProcessor] *)

(** [schedule]: the queue after a packet arrived, and whether the player is
    disconnected for exceeding a limit. *)
Definition schedule (connection_closed : bool) (st : PacketQueueState T) (key : Z) (e : ScheduledPacketExecution)
    (payload_bytes : Z) (packet : T) : outcome Empty_set (PacketQueueState T * bool) :=
  if connection_closed then
    let? ' (st', _) := discard_lane st key in Ok (st', false)
  else
    let admission_bytes := Z.min usize_max (payload_bytes + PACKET_ADMISSION_OVERHEAD) in
    match try_submit limits st key e admission_bytes packet with
    | Ok (st', _) => Ok (st', false)
    | Err AdmissionStopped => Ok (st, false)
    | Err _ => let? ' (st', _) := discard_lane st key in Ok (st', true)
    | Panic => Panic
    end.

(** ** Threads *)

Inductive WorkerState :=
| Awake
| Sleeping
| Running (w : PacketWork T)
| Exited.

(** Where the game loop is: between ticks, checking or awaiting the end of a
    drain, running a tick, checking or awaiting overload progress. *)
Inductive LoopState : Set :=
| LoopOpen
| DrainCheck (before_sequence : Z)
| DrainWait (before_sequence : Z)
| LoopTicking
| ProgressCheck (done : Z)
| ProgressWait (done : Z).

Record System := MkSystem {
  queue : PacketQueueState T;
  workers : list WorkerState;
  game_loop : LoopState;
  idle_permit : bool;
  progress_permit : bool }.

Definition running_work (s : WorkerState) : option (PacketWork T) :=
  match s with Running w => Some w | _ => None end.
Definition works_of (ws : list WorkerState) : list (PacketWork T) := omap running_work ws.

(** The effect of [notify_one] and [notify_all] on the sleeping workers. *)
Definition wake_all (ws : list WorkerState) : list WorkerState :=
  (fun s => match s with Sleeping => Awake | _ => s end) <$> ws.

Inductive wakes_workers (ws : list WorkerState) : WorkerWake -> list WorkerState -> Prop :=
| wakes_none : wakes_workers ws NoWake ws
| wakes_one i : ws !! i = Some Sleeping -> wakes_workers ws NotifyOne (<[i := Awake]> ws)
| wakes_nobody : Sleeping ∉ ws -> wakes_workers ws NotifyOne ws
| wakes_everyone : wakes_workers ws NotifyAll (wake_all ws).

Definition wakes_loop (l : LoopState) (n : WorkerWake) : LoopState :=
  match l, n with ProgressWait d, NotifyAll => ProgressCheck d | _, _ => l end.

(** The queue becomes [q] with the notifications [wk], the workers having been
    set to [ws]. *)
Definition notified (s : System) (q : PacketQueueState T) (ws : list WorkerState) (wk : Wakes) (s' : System) : Prop :=
  wakes_workers ws (wake_workers wk) (workers s') /\
  s' = MkSystem q (workers s') (wakes_loop (game_loop s) (wake_progress wk))
         (idle_permit s || wake_idle wk)
         (progress_permit s || match wake_progress wk with NotifyOne => true | _ => false end).

Definition set_loop (l : LoopState) (s : System) : System :=
  MkSystem (queue s) (workers s) l (idle_permit s) (progress_permit s).
Definition set_worker (i : nat) (x : WorkerState) (s : System) : System :=
  MkSystem (queue s) (<[i := x]> (workers s)) (game_loop s) (idle_permit s) (progress_permit s).

Inductive Actor : Set := Worker (i : nat) | GameLoop | Environment.

#[export] Instance Actor_eq_dec : EqDecision Actor.
Proof. solve_decision. Defined.

Inductive step : System -> Actor -> System -> Prop :=
(* network tasks, handlers, shutdown *)
| env_submit s s' key e bytes v q wk : 0 <= bytes -> try_submit limits (queue s) key e bytes v = Ok (q, wk) ->
    notified s q (workers s) wk s' -> step s Environment s'
| env_refuse s : step s Environment s
| env_pause s s' key r q wk : pause_lane (queue s) key = Ok (q, r, wk) ->
    notified s q (workers s) wk s' -> step s Environment s'
| env_resume s s' pause r q wk : resume_lane (queue s) pause = Ok (q, r, wk) ->
    notified s q (workers s) wk s' -> step s Environment s'
| env_discard s s' key q wk : discard_lane (queue s) key = Ok (q, wk) ->
    notified s q (workers s) wk s' -> step s Environment s'
| env_stop s s' q wk : stop (queue s) = Ok (q, wk) ->
    notified s q (workers s) wk s' -> step s Environment s'
(* workers: [next] and the drop of [PacketWork] *)
| worker_start s i w q : workers s !! i = Some Awake -> next (queue s) = Ok (StartWork w q) ->
    step s (Worker i) (MkSystem q (<[i := Running w]> (workers s)) (game_loop s) (idle_permit s) (progress_permit s))
| worker_sleep s i : workers s !! i = Some Awake -> next (queue s) = Ok WaitForWork ->
    step s (Worker i) (set_worker i Sleeping s)
| worker_exit s i : workers s !! i = Some Awake -> next (queue s) = Ok WorkerStop ->
    step s (Worker i) (set_worker i Exited s)
| worker_finish s s' i w q wk : workers s !! i = Some (Running w) ->
    finish_one (queue s) (work_key w) (work_execution w) (work_bytes w) = Ok (q, wk) ->
    notified s q (<[i := Awake]> (workers s)) wk s' -> step s (Worker i) s'
(* [open_after_tick], [wait_for_overload_progress] *)
| loop_open s s' : game_loop s = LoopTicking ->
    notified (set_loop LoopOpen s) (open (queue s)).1 (workers s) (open (queue s)).2 s' -> step s GameLoop s'
| loop_overloaded s d : game_loop s = LoopOpen -> progress_baseline (queue s) = Some d ->
    step s GameLoop (set_loop (ProgressCheck d) s)
| loop_progressed s d : game_loop s = ProgressCheck d -> has_progress_since (queue s) d = true ->
    step s GameLoop (set_loop LoopOpen s)
| loop_await_progress s d : game_loop s = ProgressCheck d -> has_progress_since (queue s) d = false ->
    step s GameLoop (set_loop (ProgressWait d) s)
| loop_progress_permit s d : game_loop s = ProgressWait d -> progress_permit s = true ->
    step s GameLoop (MkSystem (queue s) (workers s) (ProgressCheck d) (idle_permit s) false)
(* [close_for_tick] *)
| loop_begin_drain s s' c : game_loop s = LoopOpen -> (begin_tick_drain (queue s)).1.2 = Some c ->
    notified (set_loop (DrainCheck c) s) (begin_tick_drain (queue s)).1.1 (workers s) (begin_tick_drain (queue s)).2 s' ->
    step s GameLoop s'
| loop_begin_stopped s : game_loop s = LoopOpen -> (begin_tick_drain (queue s)).1.2 = None ->
    step s GameLoop (set_loop LoopTicking s)
| loop_drained s c : game_loop s = DrainCheck c -> tick_drain_complete (queue s) c = true ->
    step s GameLoop (MkSystem (finish_tick_drain (queue s) c) (workers s) LoopTicking (idle_permit s) (progress_permit s))
| loop_await_idle s c : game_loop s = DrainCheck c -> tick_drain_complete (queue s) c = false ->
    step s GameLoop (set_loop (DrainWait c) s)
| loop_idle_permit s c : game_loop s = DrainWait c -> idle_permit s = true ->
    step s GameLoop (MkSystem (queue s) (workers s) (DrainCheck c) false (progress_permit s)).

Definition initial (n : nat) : System := MkSystem with_limits (replicate n Awake) LoopTicking false false.

Inductive reachable : System -> Prop :=
| reachable_initial n : (0 < n)%nat -> reachable (initial n)
| reachable_step s a s' : reachable s -> step s a s' -> reachable s'.

(** ** The invariant *)

(** Something the phase lets workers take is queued. *)
Definition takeable (q : PacketQueueState T) : Prop :=
  exists before s, phase_cutoff q = Some before /\ in_some_lane (lanes q) s /\ past_cutoff before s = false.

Definition someone_up (ws : list WorkerState) : Prop :=
  Awake ∈ ws \/ exists w, Running w ∈ ws.

Definition loop_phase (l : LoopState) (p : PacketPhase) : Prop :=
  match l with
  | LoopOpen | ProgressCheck _ | ProgressWait _ => p = Open \/ p = Stopped
  | DrainCheck c | DrainWait c => p = Draining c \/ p = Stopped
  | LoopTicking => p = Closed \/ p = Stopped
  end.

Record system_ok (s : System) : Prop := {
  sys_queue : queue_ok limits (queue s) (works_of (workers s));
  sys_some_worker : (0 < length (workers s))%nat;
  sys_exited : Exited ∈ workers s -> phase (queue s) = Stopped;
  sys_stopped : phase (queue s) = Stopped -> Sleeping ∉ workers s;
  sys_awake : takeable (queue s) -> someone_up (workers s);
  sys_phase : loop_phase (game_loop s) (phase (queue s));
  sys_cutoff : forall c, phase (queue s) = Draining c -> 0 <= c <= next_sequence (queue s);
  sys_idle : forall c, game_loop s = DrainWait c -> idle_permit s = true \/ works_of (workers s) <> []
    \/ (phase (queue s) <> Stopped /\ exists x, in_some_lane (lanes (queue s)) x /\ x < c);
  sys_progress : forall d, game_loop s = ProgressWait d -> progress_permit s = true
    \/ (completed (queue s) = d /\ phase (queue s) <> Stopped
        /\ (works_of (workers s) <> [] \/ exists x, in_some_lane (lanes (queue s)) x)) }.

Implicit Types (q : PacketQueueState T) (ws : list (PacketWork T)).

(** *** What the queue's operations do to the queued sequences *)

Lemma in_some_lane_upd (m m' : gmap Z (PacketLane T)) k o x : lanes_upd m m' k o ->
  in_some_lane m' x -> in_some_lane m x \/ x ∈ seqs_of o.
Proof. intros Hu [j Hj]. rewrite (Hu j) in Hj. case_decide; [by right|left; by exists j]. Qed.

Lemma in_some_lane_keep (m m' : gmap Z (PacketLane T)) k o x : lanes_upd m m' k o ->
  (x ∈ seqs_of (m !! k) -> x ∈ seqs_of o) -> in_some_lane m x -> in_some_lane m' x.
Proof.
  intros Hu Hk [j Hj]. exists j. rewrite (Hu j). case_decide; [subst; by apply Hk|done].
Qed.

Lemma submit_effect q ws key e bytes v q' wk : queue_ok limits q ws -> try_submit limits q key e bytes v = Ok (q', wk) ->
  phase q' = phase q /\ completed q' = completed q /\ next_sequence q <= next_sequence q'
  /\ (forall x, in_some_lane (lanes q) x -> in_some_lane (lanes q') x)
  /\ (forall x, in_some_lane (lanes q') x -> in_some_lane (lanes q) x \/
        (next_sequence q <= x /\ (phase q = Open -> ws = [] -> (exists y, in_some_lane (lanes q) y) \/ wake_workers wk = NotifyOne))).
Proof using Hlimits.
  intros Hok H%try_submit_Ok. cbv zeta in H. destruct H as (_ & _ & _ & H).
  destruct (is_paused (lane_or_new q key)) eqn:Ep.
  - destruct H as [_ ->]. cbn. split_and!; try done.
    + intros x. eapply in_some_lane_keep; [apply lanes_upd_insert|]. by rewrite lane_or_new_seqs.
    + intros x [Hx|Hx]%(in_some_lane_upd _ _ _ _ _ (lanes_upd_insert _ _ _)); [by left|]. left. exists key. by rewrite lane_or_new_seqs.
  - destruct H as (_ & -> & ->). destruct (submit_state_frame q key e bytes v) as (Eph & El & En & _ & _ & _ & _ & Ec).
    cbn in Eph, El, En, Ec. rewrite Eph, El, En, Ec. split_and!; try done; [lia| |].
    + intros x. eapply in_some_lane_keep; [apply lanes_upd_insert|]. rewrite lane_or_new_seqs. cbn. unfold lane_sequences.
      cbn. rewrite fmap_app. apply elem_of_app_l || (intros; apply elem_of_app; by left).
    + intros x [Hx|Hx]%(in_some_lane_upd _ _ _ _ _ (lanes_upd_insert _ _ _)); [by left|]. revert Hx. cbn. unfold lane_sequences.
      cbn. rewrite fmap_app, elem_of_app. intros [Hx|Hx]; [left; exists key; by rewrite lane_or_new_seqs|].
      apply list_elem_of_singleton in Hx as ->. cbn. right. split; [done|]. intros Hph Hws.
      assert (Ha : lane_active (lane_or_new q key) = false).
      { rewrite (lane_running _ _ _ _ (lane_or_new_ok Hlimits q ws key Hok)). by rewrite Hws. }
      unfold became_ready. rewrite Ha. destruct (queued (lane_or_new q key)) as [|p ps] eqn:Eq.
      * right. cbn. by rewrite bool_decide_true.
      * left. exists (sequence p), key. rewrite lane_or_new_seqs. unfold lane_sequences. rewrite Eq. by left.
Qed.

Lemma pause_effect q ws key q' r wk : queue_ok limits q ws -> pause_lane q key = Ok (q', r, wk) ->
  q' = q /\ wk = no_wakes \/
  phase q' = phase q /\ next_sequence q' = next_sequence q /\ active q' = active q
  /\ (forall x, in_some_lane (lanes q') x -> in_some_lane (lanes q) x)
  /\ wake_idle wk = is_idle q' /\ wake_progress wk = NotifyOne.
Proof.
  intros Hok [(-> & _ & ->)|H]%pause_lane_Ok; [by left|right]. cbv zeta in H. destruct H as (_ & _ & _ & _ & -> & ->).
  cbn. split_and!; try done.
  intros x [Hx|Hx]%(in_some_lane_upd _ _ _ _ _ (lanes_upd_insert _ _ _)); [done|by apply elem_of_nil in Hx].
Qed.

Lemma has_ready_intro (q : PacketQueueState T) e x : x ∈ ready e q -> has_ready q = true.
Proof.
  intros Hx. unfold has_ready, next_ready_sequence.
  assert (Hp : exists y, peek_ready e q = Some y).
  { destruct (peek_ready e q) as [y|] eqn:E; [by exists y|]. apply peek_ready_none in E. rewrite E in Hx. by apply elem_of_nil in Hx. }
  destruct Hp as [y Hp]. destruct e; rewrite Hp; repeat destruct (peek_ready _ q); done.
Qed.

Lemma resume_effect q ws pause q' r wk : queue_ok limits q ws -> resume_lane q pause = Ok (q', r, wk) ->
  q' = q /\ wk = no_wakes \/
  phase q' = phase q /\ next_sequence q <= next_sequence q' /\ wake_progress wk = NotifyOne
  /\ (forall x, in_some_lane (lanes q) x -> in_some_lane (lanes q') x)
  /\ (forall x, in_some_lane (lanes q') x -> in_some_lane (lanes q) x \/
        (next_sequence q <= x /\ (phase q = Open -> ws = [] -> wake_workers wk = NotifyAll))).
Proof.
  intros Hok H. pose proof (resume_lane_ok Hlimits _ _ _ _ _ _ Hok H) as Hok'. revert H.
  intros [(-> & _ & ->)|(lane & st1 & ps & H)]%resume_lane_Ok; [by left|right]. cbv zeta in H.
  destruct H as (_ & El & Hg & _ & Er & -> & _ & ->).
  assert (Hq : queued lane = []) by (apply (ok_lanes _ _ _ Hok _ _ El); unfold is_paused; by rewrite Hg).
  destruct (readmit_spec _ _ _ _ _ Er) as ((Eph & Elanes & En & _) & _ & _ & Hs & _). cbn in Eph, Elanes, En.
  destruct (resume_state_frame st1 (pause_key pause) lane ps) as (Fl & Fn & _ & _ & Fph).
  assert (Hu : lanes_upd (lanes q) (lanes (resume_state st1 (pause_key pause) lane ps)) (pause_key pause) (resumed_slot lane ps))
    by (rewrite Fl, Elanes; apply lanes_upd_set).
  split_and!; [congruence|lia|done| |].
  - intros x. eapply in_some_lane_keep; [exact Hu|]. rewrite El. cbn. unfold lane_sequences. rewrite Hq. intros Hx.
    by apply elem_of_nil in Hx.
  - intros x Hx. destruct (in_some_lane_upd _ _ _ _ _ Hu Hx) as [?|Hin]; [by left|right]. split.
    + assert (Hps : x ∈ sequence <$> ps).
      { revert Hin. unfold resumed_slot. destruct (lane_active lane), ps; cbn; unfold lane_sequences; cbn; by rewrite ?Hq. }
      rewrite Hs, elem_of_seqZ in Hps. lia.
    + intros Hph Hws. cbn. unfold should_wake_workers. rewrite Fph, Eph, Hph.
      destruct (lanes (resume_state st1 (pause_key pause) lane ps) !! pause_key pause) as [lane'|] eqn:El'.
      * rewrite (Hu (pause_key pause)), decide_True in El' by done.
        destruct (idle_lane_ready Hok' (pause_key pause) lane' x) as (s0 & e & Hr & _).
        { by rewrite (Hu (pause_key pause)), decide_True. }
        { by rewrite Hws. }
        { by rewrite El' in Hin. }
        by erewrite has_ready_intro.
      * rewrite (Hu (pause_key pause)), decide_True in El' by done. rewrite El' in Hin. by apply elem_of_nil in Hin.
Qed.

Lemma discard_effect q ws key q' wk : queue_ok limits q ws -> discard_lane q key = Ok (q', wk) ->
  q' = q /\ wk = no_wakes \/
  phase q' = phase q /\ next_sequence q' = next_sequence q /\ active q' = active q
  /\ (forall x, in_some_lane (lanes q') x -> in_some_lane (lanes q) x)
  /\ wake_idle wk = is_idle q' /\ wake_progress wk = NotifyOne.
Proof.
  intros Hok H. destruct (discard_lane_Ok q ws key q' wk Hok H) as [(_ & -> & ->)|(lane & El & -> & ->)]; [by left|right].
  cbn. split_and!; try done.
  intros x [Hx|Hx]%(in_some_lane_upd _ _ _ _ _ (lanes_upd_set _ _ _)); [done|].
  destruct (lane_active lane); by apply elem_of_nil in Hx.
Qed.

Lemma start_effect q ws w q' : queue_ok limits q ws -> next q = Ok (StartWork w q') ->
  phase q' = phase q /\ phase q <> Stopped /\ completed q' = completed q /\ next_sequence q' = next_sequence q
  /\ (forall x, in_some_lane (lanes q') x -> in_some_lane (lanes q) x).
Proof.
  intros Hok H. destruct (next_start Hlimits q ws w q' Hok H) as (_ & before & s & Hc & Hsel).
  destruct (start_next_spec _ _ _ _ _ _ Hok Hsel) as (lane & p & rest & st1 & El & _ & _ & Hq & _ & _ & Hpop & E).
  destruct (pop_started_spec _ _ _ _ _ (select_next_sound _ _ _ _ _ Hsel)) as (st1' & E1 & Eph & E2 & En & _ & _ & Ec & _).
  rewrite Hpop in E1. injection E1 as <-.
  assert (Hs : phase q <> Stopped) by (intros Hs; unfold phase_cutoff in Hc; by rewrite Hs in Hc).
  unfold next in H. rewrite decide_False, Hc, E in H by done. cbn in H. injection H as _ <-. cbn. split_and!; try done.
  intros x Hx. rewrite E2 in Hx. apply (in_some_lane_upd _ _ _ _ _ (lanes_upd_insert _ _ _)) in Hx as [Hx|Hx]; [done|].
  exists (work_key w). rewrite El. cbn in *. unfold lane_sequences in *. rewrite Hq. by right.
Qed.

Lemma finish_effect q w ws q' wk : queue_ok limits q (w :: ws) ->
  finish_one q (work_key w) (work_execution w) (work_bytes w) = Ok (q', wk) ->
  phase q' = phase q /\ next_sequence q' = next_sequence q
  /\ (forall x, in_some_lane (lanes q') x <-> in_some_lane (lanes q) x)
  /\ wake_idle wk = is_idle q' /\ wake_progress wk = NotifyOne.
Proof.
  intros Hok H. destruct (finish_one_spec q w ws Hok) as (lane & q'' & wk' & El & E & -> & Eph & En & _ & _ & Hu & _).
  rewrite E in H. injection H as -> <-. cbn. split_and!; try done.
  assert (Hseq : forall x, x ∈ seqs_of (finished_slot lane (work_bytes w)) <-> x ∈ lane_sequences lane).
  { intros x. unfold finished_slot, lane_sequences. destruct (queued lane) eqn:Eq; [|cbn; unfold lane_sequences; cbn; by rewrite Eq].
    destruct (is_paused lane); [cbn; unfold lane_sequences; cbn; by rewrite Eq|done]. }
  intros x. split.
  - intros [Hx|Hx]%(in_some_lane_upd _ _ _ _ _ Hu); [done|]. exists (work_key w). rewrite El. by apply Hseq.
  - apply (in_some_lane_keep _ _ _ _ _ Hu). rewrite El. intros Hx. by apply Hseq.
Qed.

(** *** Notifications *)

Lemma elem_of_insert {A} (l : list A) i x y : y ∈ <[i := x]> l -> y = x \/ y ∈ l.
Proof.
  rewrite !list_elem_of_lookup. intros [j Hj]. destruct (decide (j = i)) as [->|Hne].
  - destruct (decide (i < length l)%nat) as [Hi|Hi].
    + rewrite list_lookup_insert_eq in Hj by done. injection Hj as ->. by left.
    + rewrite list_insert_ge in Hj by lia. right. by exists i.
  - rewrite list_lookup_insert_ne in Hj by done. right. by exists j.
Qed.

Lemma works_of_split wks i x : wks !! i = Some x -> exists l1 l2,
  works_of wks = l1 ++ option_list (running_work x) ++ l2
  /\ forall y, works_of (<[i := y]> wks) = l1 ++ option_list (running_work y) ++ l2.
Proof.
  intros H. exists (works_of (take i wks)), (works_of (drop (S i) wks)).
  assert (Hx : forall z, omap running_work (z :: drop (S i) wks) = option_list (running_work z) ++ works_of (drop (S i) wks))
    by (intros z; cbn; by destruct (running_work z)).
  split.
  - rewrite <- (take_drop_middle wks i x H) at 1. unfold works_of. rewrite omap_app. f_equal. apply Hx.
  - intros y. rewrite insert_take_drop by (by apply lookup_lt_Some in H). unfold works_of. rewrite omap_app. f_equal. apply Hx.
Qed.

Lemma works_of_insert wks i x y : wks !! i = Some x -> running_work x = running_work y ->
  works_of (<[i := y]> wks) = works_of wks.
Proof. intros H E. destruct (works_of_split wks i x H) as (l1 & l2 & -> & ->). by rewrite E. Qed.

Lemma works_of_elem wks w : w ∈ works_of wks <-> Running w ∈ wks.
Proof.
  unfold works_of. rewrite list_elem_of_omap. split; [|intros H; by exists (Running w)].
  intros ([| |w'|] & Hin & E); try done. by injection E as ->.
Qed.

Lemma works_of_nil wks : works_of wks <> [] <-> exists w, Running w ∈ wks.
Proof.
  split.
  - destruct (works_of wks) as [|w ws] eqn:E; [done|]. intros _. exists w. apply works_of_elem. rewrite E. by left.
  - intros [w Hw%works_of_elem] E. rewrite E in Hw. by apply elem_of_nil in Hw.
Qed.

Lemma wakes_frame wks n wks' : wakes_workers wks n wks' ->
  works_of wks' = works_of wks /\ length wks' = length wks /\ (Exited ∈ wks' <-> Exited ∈ wks)
  /\ (Sleeping ∈ wks' -> Sleeping ∈ wks /\ n <> NotifyAll) /\ (someone_up wks -> someone_up wks').
Proof.
  intros []; [by split_and!| |by split_and!|].
  - split_and!.
    + by apply (works_of_insert _ i Sleeping).
    + apply length_insert.
    + split; [intros [?|?]%elem_of_insert; done|]. rewrite !list_elem_of_lookup. intros [j Hj]. exists j.
      rewrite list_lookup_insert_ne; [done|]. intros ->. congruence.
    + intros [?|?]%elem_of_insert; done.
    + intros [Ha|[w Hw]]; left; apply list_elem_of_lookup_2 with i, list_lookup_insert_eq; by eapply lookup_lt_Some.
  - unfold wake_all. split_and!.
    + unfold works_of. induction wks as [|x wks IH]; [done|]. cbn. rewrite IH. by destruct x.
    + apply length_fmap.
    + rewrite list_elem_of_fmap. split; [intros (x & E & Hx); by destruct x|intros Hx; by exists Exited].
    + intros (x & E & _)%list_elem_of_fmap. by destruct x.
    + intros [Ha|[w Hw]]; [left|right; exists w]; apply list_elem_of_fmap; eexists; (split; [|done]); done.
Qed.

Lemma wakes_someone wks n wks' : wakes_workers wks n wks' -> n <> NoWake -> (0 < length wks)%nat -> Exited ∉ wks ->
  someone_up wks'.
Proof.
  intros Hw Hn Hlen Hex.
  assert (Hhd : exists x, x ∈ wks) by (destruct wks as [|x wks]; [cbn in Hlen; lia|exists x; by left]).
  destruct Hw; try done.
  - left. apply list_elem_of_lookup_2 with i, list_lookup_insert_eq. by eapply lookup_lt_Some.
  - destruct Hhd as [[| |w|] Hx]; try done; [by left|right; by exists w].
  - destruct Hhd as [[| |w|] Hx]; try done; [left|left|right; exists w]; apply list_elem_of_fmap; eexists; (split; [|exact Hx]); done.
Qed.

Lemma notified_ok s q wks wk s' :
  queue_ok limits q (works_of wks) -> (0 < length wks)%nat -> (Exited ∈ wks -> phase q = Stopped) ->
  (phase q = Stopped -> Sleeping ∈ wks -> wake_workers wk = NotifyAll) ->
  (takeable q -> someone_up wks \/ wake_workers wk <> NoWake) ->
  loop_phase (game_loop s) (phase q) -> (forall c, phase q = Draining c -> 0 <= c <= next_sequence q) ->
  (forall c, game_loop s = DrainWait c -> idle_permit s = true \/ wake_idle wk = true \/ works_of wks <> []
     \/ (phase q <> Stopped /\ exists x, in_some_lane (lanes q) x /\ x < c)) ->
  (forall d, game_loop s = ProgressWait d -> progress_permit s = true \/ wake_progress wk <> NoWake
     \/ (completed q = d /\ phase q <> Stopped /\ (works_of wks <> [] \/ exists x, in_some_lane (lanes q) x))) ->
  notified s q wks wk s' -> system_ok s'.
Proof.
  intros Hq Hlen Hex Hst Htake Hph Hcut Hidle Hprog [Hw ->].
  destruct (wakes_frame _ _ _ Hw) as (E1 & E2 & E3 & E4 & E5).
  split; cbn [queue workers game_loop idle_permit progress_permit]; rewrite ?E1, ?E2; try done.
  - by rewrite E3.
  - intros Hs [H1 H2]%E4. by apply H2, Hst.
  - intros Ht. destruct (Htake Ht) as [?|Hn]; [by apply E5|]. eapply wakes_someone; try done.
    intros Hx%Hex. destruct Ht as (b & x & Hc & _). unfold phase_cutoff in Hc. by rewrite Hx in Hc.
  - destruct (game_loop s), (wake_progress wk); done.
  - intros c Hc. assert (game_loop s = DrainWait c) as Hd by (destruct (game_loop s), (wake_progress wk); done).
    destruct (Hidle c Hd) as [->|[->|H]]; [by left|left; apply orb_true_r|by right].
  - intros d Hd. assert (game_loop s = ProgressWait d /\ wake_progress wk <> NotifyAll) as [Hd' Hn]
      by (destruct (game_loop s), (wake_progress wk); done).
    destruct (Hprog d Hd') as [->|[Hne|H]]; [by left| |by right].
    left. destruct (wake_progress wk); try done. apply orb_true_r.
Qed.

Lemma asleep_works wks : ~ someone_up wks -> works_of wks = [].
Proof.
  intros H. destruct (works_of wks) eqn:E; [done|]. destruct H. right. apply works_of_nil. by rewrite E.
Qed.

Definition is_up (x : WorkerState) : bool := match x with Awake | Running _ => true | _ => false end.

#[local] Instance someone_up_dec wks : Decision (someone_up wks).
Proof.
  destruct (decide (Exists (fun x => is_up x = true) wks)) as [H|H].
  - left. apply Exists_exists in H as ([| |w|] & Hx & ?); try done; [by left|right; by exists w].
  - right. intros Hu. apply H, Exists_exists. destruct Hu as [Ha|[w Hw]]; [by exists Awake|by exists (Running w)].
Defined.

(** With nobody up, nothing takeable was queued. *)
Lemma nothing_takeable s : system_ok s -> ~ someone_up (workers s) -> forall before x,
  phase_cutoff (queue s) = Some before -> in_some_lane (lanes (queue s)) x -> past_cutoff before x = true.
Proof.
  intros Hs Hn before x Hc Hx. destruct (past_cutoff before x) eqn:E; [done|].
  destruct Hn. apply (sys_awake s Hs). by exists before, x.
Qed.

Lemma takeable_open q x : phase q = Open -> in_some_lane (lanes q) x -> takeable q.
Proof. intros Hp Hx. exists None, x. unfold phase_cutoff. by rewrite Hp. Qed.

Lemma takeable_phase q : takeable q -> phase q = Open \/ exists c, phase q = Draining c.
Proof. intros (b & x & Hc & _). unfold phase_cutoff in Hc. destruct (phase q); try done; eauto. Qed.

(** Adding sequences at the counter keeps [sys_awake] if a worker is woken
    when the queue is open. *)
Lemma takeable_grow s q' wk : system_ok s -> phase q' = phase (queue s) ->
  (forall x, in_some_lane (lanes q') x -> in_some_lane (lanes (queue s)) x \/
     (next_sequence (queue s) <= x /\ (phase (queue s) = Open -> works_of (workers s) = [] ->
        (exists y, in_some_lane (lanes (queue s)) y) \/ wake_workers wk <> NoWake))) ->
  takeable q' -> someone_up (workers s) \/ wake_workers wk <> NoWake.
Proof.
  intros Hs Hph Hgrow (before & x & Hc & Hx & Hb).
  destruct (decide (someone_up (workers s))) as [|Hn]; [by left|right].
  assert (Hc' : phase_cutoff (queue s) = Some before) by (unfold phase_cutoff in *; by rewrite Hph in Hc).
  destruct (Hgrow x Hx) as [Hold|[Hge Hwake]].
  - pose proof (nothing_takeable s Hs Hn before x Hc' Hold). congruence.
  - unfold phase_cutoff in Hc'. destruct (phase (queue s)) as [| |c|] eqn:Ep; try done.
    + destruct (Hwake eq_refl (asleep_works _ Hn)) as [[y Hy]|?]; [|done].
      destruct Hn. apply (sys_awake s Hs). by eapply takeable_open.
    + injection Hc' as <-. cbn in Hb. apply Z.leb_gt in Hb. pose proof (sys_cutoff s Hs c Ep). lia.
Qed.

Lemma env_grow_ok s q wk s' : system_ok s -> queue_ok limits q (works_of (workers s)) ->
  phase q = phase (queue s) -> next_sequence (queue s) <= next_sequence q ->
  (completed q = completed (queue s) \/ wake_progress wk <> NoWake) ->
  (forall x, in_some_lane (lanes (queue s)) x -> in_some_lane (lanes q) x) ->
  (forall x, in_some_lane (lanes q) x -> in_some_lane (lanes (queue s)) x \/
     (next_sequence (queue s) <= x /\ (phase (queue s) = Open -> works_of (workers s) = [] ->
        (exists y, in_some_lane (lanes (queue s)) y) \/ wake_workers wk <> NoWake))) ->
  notified s q (workers s) wk s' -> system_ok s'.
Proof.
  intros Hs Hq Hph Hn Hc Hkeep Hgrow. pose proof (takeable_grow s q wk Hs Hph Hgrow) as Htake.
  destruct Hs as [_ H1 H2 H3 _ H5 H6 H7 H8]. apply notified_ok; rewrite ?Hph; try done.
  - intros Hp Hx. by destruct (H3 Hp).
  - intros c Hd. specialize (H6 c Hd). lia.
  - intros c Hd. destruct (H7 c Hd) as [?|[?|(? & x & ? & ?)]]; [by left|tauto|right; right; right; eauto].
  - intros d Hd. destruct (H8 d Hd) as [?|(Hcd & ? & Hw)]; [by left|right].
    destruct Hc as [Hc|?]; [right|by left]. rewrite Hc. split_and!; try done. destruct Hw as [|[x ?]]; eauto.
Qed.

Lemma env_shrink_ok s q wk s' : system_ok s -> queue_ok limits q (works_of (workers s)) ->
  phase q = phase (queue s) -> next_sequence q = next_sequence (queue s) -> active q = active (queue s) ->
  (forall x, in_some_lane (lanes q) x -> in_some_lane (lanes (queue s)) x) ->
  wake_idle wk = is_idle q -> wake_progress wk = NotifyOne ->
  notified s q (workers s) wk s' -> system_ok s'.
Proof.
  intros Hs Hq Hph Hn Ha Hsub Hidle Hprog.
  assert (Htake : takeable q -> someone_up (workers s)).
  { intros (b & x & Hc & Hx & Hb). apply (sys_awake s Hs). exists b, x. split_and!; [|by apply Hsub|done].
    unfold phase_cutoff in *. by rewrite Hph in Hc. }
  destruct Hs as [Hok H1 H2 H3 _ H5 H6 H7 H8]. apply notified_ok; rewrite ?Hph, ?Hn, ?Hidle, ?Hprog; try done.
  - intros Hp Hx. by destruct (H3 Hp).
  - intros Ht. left. by apply Htake.
  - intros c Hd. right. pose proof (works_count _ _ (ok_works _ _ _ Hq)) as Hc. unfold is_idle.
    destruct (works_of (workers s)) as [|w ws]; [left; by rewrite Hc|right; by left].
  - intros d _. right. by left.
Qed.

Lemma no_wakes_notified s s' : notified s (queue s) (workers s) no_wakes s' -> s' = s.
Proof.
  intros [Hw E]. inversion Hw. rewrite E. destruct s as [? ? l ? ?]. cbn in *. subst. rewrite !orb_false_r. f_equal. by destruct l.
Qed.

Lemma step_environment_ok s s' : system_ok s -> step s Environment s' -> system_ok s'.
Proof using Hlimits.
  intros Hs Hst. pose proof (sys_queue s Hs) as Hok. inversion Hst; subst; [| done | | | |].
  - destruct (submit_effect _ _ _ _ _ _ _ _ Hok H0) as (E1 & E2 & E3 & E4 & E5).
    apply (env_grow_ok s q wk); try done; [by eapply try_submit_ok|by left|].
    intros x Hx. destruct (E5 x Hx) as [?|[? H']]; [by left|right]. split; [done|]. intros Hp Hw.
    destruct (H' Hp Hw) as [?| ->]; [by left|by right].
  - destruct (pause_effect _ _ _ _ _ _ Hok H) as [[-> ->]|(E1 & E2 & E3 & E4 & E5 & E6)];
      [by apply no_wakes_notified in H0 as ->|]. apply (env_shrink_ok s q wk); try done. by eapply pause_lane_ok.
  - destruct (resume_effect _ _ _ _ _ _ Hok H) as [[-> ->]|(E1 & E2 & E3 & E4 & E5)];
      [by apply no_wakes_notified in H0 as ->|].
    apply (env_grow_ok s q wk); try done; [by eapply resume_lane_ok|right; by rewrite E3|].
    intros x Hx. destruct (E5 x Hx) as [?|[? H']]; [by left|right]. split; [done|]. intros Hp Hw.
    right. by rewrite (H' Hp Hw).
  - destruct (discard_effect _ _ _ _ _ Hok H) as [[-> ->]|(E1 & E2 & E3 & E4 & E5 & E6)];
      [by apply no_wakes_notified in H0 as ->|]. apply (env_shrink_ok s q wk); try done. by eapply discard_lane_ok.
  - destruct (stop_total _ _ Hok) as (w' & E & Ew). pose proof H as Hstop. rewrite E in H. injection H as <- <-. subst w'.
    destruct Hs as [_ H1 H2 H3 _ H5 H6 H7 H8].
    eapply (notified_ok s _ (workers s) (MkWakes NotifyAll (is_idle (queue s)) NotifyAll));
      [by eapply stop_ok|done|done|done| | |done| | |done]; cbn.
    + by intros (b & x & Hc & _).
    + destruct (game_loop s); cbn; tauto.
    + intros c Hd. right. pose proof (works_count _ _ (ok_works _ _ _ Hok)) as Hc. unfold is_idle.
      destruct (works_of (workers s)) as [|w ws]; [left; by rewrite Hc|right; by left].
    + intros d _. right. by left.
Qed.

Lemma works_of_start wks i w : wks !! i = Some Awake -> works_of (<[i := Running w]> wks) ≡ₚ w :: works_of wks.
Proof.
  intros H. destruct (works_of_split wks i Awake H) as (l1 & l2 & -> & ->). cbn. symmetry. apply Permutation_middle.
Qed.

Lemma works_of_finish wks i w : wks !! i = Some (Running w) -> works_of wks ≡ₚ w :: works_of (<[i := Awake]> wks).
Proof.
  intros H. destruct (works_of_split wks i (Running w) H) as (l1 & l2 & -> & ->). cbn. symmetry. apply Permutation_middle.
Qed.

Lemma takeable_selected q ws : queue_ok limits q ws -> ws = [] -> takeable q ->
  exists before sel, phase_cutoff q = Some before /\ select_next q before = Some sel.
Proof.
  intros Hok Hws (before & x & Hc & Hx & Hb). exists before.
  destruct (select_next_least Hok before x Hws Hx Hb) as (m & k & e & Hsel & _). by exists (m, k, e).
Qed.

Lemma step_worker_ok s i s' : system_ok s -> step s (Worker i) s' -> system_ok s'.
Proof using Hlimits.
  intros Hs Hst. pose proof (sys_queue s Hs) as Hok. destruct Hs as [_ Q1 Q2 Q3 Q4 Q5 Q6 Q7 Q8].
  inversion Hst; subst; cbn in *;
    try match goal with H : next _ = _ |- _ => rename H into Hnx end;
    try match goal with H : finish_one _ _ _ _ = _ |- _ => rename H into Hfin end;
    match goal with H : workers s !! i = _ |- _ => rename H into Hi end.
  - destruct (start_effect _ _ _ _ Hok Hnx) as (E1 & E2 & E3 & E4 & E5).
    destruct (next_start Hlimits _ _ _ _ Hok Hnx) as [Hok' _].
    assert (Hne : works_of (<[i := Running w]> (workers s)) <> []).
    { intros E. pose proof (works_of_start _ i w Hi) as Hp. rewrite E in Hp. by apply Permutation_nil_cons in Hp. }
    split; cbn [queue workers game_loop idle_permit progress_permit set_worker]; rewrite ?E1, ?E3, ?E4; try done; try tauto.
    + eapply queue_ok_perm; [symmetry; by apply works_of_start|done].
    + by rewrite length_insert.
    + intros [?|?]%elem_of_insert; [done|by apply Q2].
    + intros _. right. by apply works_of_nil.
    + intros d Hd. destruct (Q8 d Hd) as [?|(? & ? & ?)]; tauto.
  - assert (Hw : works_of (<[i := Sleeping]> (workers s)) = works_of (workers s)) by by apply (works_of_insert _ i Awake).
    destruct (take_next_spec Hlimits _ _ Hok) as [[E _]|[(_ & Hns & Hsel)|(? & ? & ? & ? & E & _)]]; try congruence.
    split; cbn [queue workers game_loop idle_permit progress_permit set_worker]; rewrite ?Hw; try done.
    + by rewrite length_insert.
    + intros [?|?]%elem_of_insert; [done|by apply Q2].
    + intros Ht. destruct (decide (someone_up (<[i := Sleeping]> (workers s)))) as [|Hn]; [done|].
      apply asleep_works in Hn. rewrite Hw in Hn.
      destruct (takeable_selected _ _ Hok Hn Ht) as (b & sel & Hc & Hsl). by rewrite (Hsel b Hc) in Hsl.
  - assert (Hw : works_of (<[i := Exited]> (workers s)) = works_of (workers s)) by by apply (works_of_insert _ i Awake).
    destruct (take_next_spec Hlimits _ _ Hok) as [[_ E]|[(E & _)|(? & ? & ? & ? & E & _)]]; try congruence.
    split; cbn [queue workers game_loop idle_permit progress_permit set_worker]; rewrite ?Hw; try done.
    + by rewrite length_insert.
    + intros Hp [?|?]%elem_of_insert; [done|]. by apply Q3.
    + intros (b & x & Hc & _). unfold phase_cutoff in Hc. by rewrite E in Hc.
  - pose proof (works_of_finish _ _ _ Hi) as Hp. eapply queue_ok_perm in Hok; [|exact Hp].
    destruct (finish_effect _ _ _ _ _ Hok Hfin) as (E1 & E2 & E3 & E4 & E5).
    eapply (notified_ok s q (<[i := Awake]> (workers s)) wk); rewrite ?E1, ?E2, ?E4, ?E5; try done.
    + by eapply finish_one_ok.
    + by rewrite length_insert.
    + intros [?|?]%elem_of_insert; [done|by apply Q2].
    + intros Hp' [?|?]%elem_of_insert; [done|]. by apply Q3 in Hp'.
    + intros _. left. left. apply list_elem_of_lookup_2 with i, list_lookup_insert_eq. by eapply lookup_lt_Some.
    + intros c Hd. right. eapply finish_one_ok in Hok; [|done..].
      pose proof (works_count _ _ (ok_works _ _ _ Hok)) as Hc. unfold is_idle.
      destruct (works_of (<[i := Awake]> (workers s))); [left; by rewrite Hc|right; by left].
    + intros d _. right. by left.
Qed.

Lemma next_ready_min q c : (match next_ready_sequence q with Some seq => c <=? seq | None => true end) = true <->
  forall e x k, (x, k) ∈ ready e q -> c <= x.
Proof.
  assert (Hp : forall e, match fst <$> peek_ready e q with Some x => (exists k, (x, k) ∈ ready e q) /\ forall y k, (y, k) ∈ ready e q -> x <= y
    | None => ready e q = [] end).
  { intros e. destruct (peek_ready e q) as [[x k]|] eqn:E; cbn; [|by apply peek_ready_none].
    apply peek_ready_min in E as [Hin Hmin]. split; [by exists k|done]. }
  assert (Hn : forall e, ready e q = [] -> forall x k, (x, k) ∈ ready e q -> c <= x).
  { intros e E x k Hx. rewrite E in Hx. by apply elem_of_nil in Hx. }
  pose proof (Hp PlayerLocal) as P1. pose proof (Hp Serialized) as P2. pose proof (Hp Exclusive) as P3.
  unfold next_ready_sequence. clear Hp.
  assert (Hsplit : (forall e x k, (x, k) ∈ ready e q -> c <= x) <->
    (forall x k, (x, k) ∈ ready PlayerLocal q -> c <= x) /\ (forall x k, (x, k) ∈ ready Serialized q -> c <= x)
    /\ (forall x k, (x, k) ∈ ready Exclusive q -> c <= x)).
  { split; [intros H; split_and!; intros; by eapply H|intros (A1 & A2 & A3) []; eauto]. }
  rewrite Hsplit. clear Hsplit.
  assert (Hone : forall e (o : option Z), match o with Some x => (exists k, (x, k) ∈ ready e q) /\ forall y k, (y, k) ∈ ready e q -> x <= y
    | None => ready e q = [] end -> (forall x k, (x, k) ∈ ready e q -> c <= x) <-> match o with Some x => c <= x | None => True end).
  { intros e [x|] Hx; [|by split; [|intros _; apply Hn]]. destruct Hx as [[k Hk] Hmin]. split; [intros H; by eapply H|].
    intros Hle y j Hy. specialize (Hmin y j Hy). lia. }
  rewrite (Hone _ _ P1), (Hone _ _ P2), (Hone _ _ P3).
  destruct (fst <$> peek_ready PlayerLocal q), (fst <$> peek_ready Serialized q), (fst <$> peek_ready Exclusive q);
    cbn [option_min]; rewrite ?Z.leb_le; try lia; try tauto.
Qed.

(** What [tick_drain_complete] says: stopped, or nothing running and nothing
    queued before the cutoff. *)
Lemma tick_drain_complete_spec q ws c : queue_ok limits q ws -> tick_drain_complete q c = true <->
  phase q = Stopped \/ (ws = [] /\ forall x, in_some_lane (lanes q) x -> c <= x).
Proof.
  intros Hok. unfold tick_drain_complete. case_decide as Hs; [tauto|].
  pose proof (works_count _ _ (ok_works _ _ _ Hok)) as Hc. destruct (Z.eqb_spec (active q) 0) as [Ha|Ha]; cbn [negb].
  - assert (Hws : ws = []) by (destruct ws; [done|cbn in Hc; lia]). rewrite next_ready_min. split.
    + intros Hr. right. split; [done|]. intros x [k Hx]. destruct (lanes q !! k) as [lane|] eqn:El; [|by apply elem_of_nil in Hx].
      destruct (idle_lane_ready Hok k lane x El ltac:(by rewrite Hws) Hx) as (s0 & e & Hin & Hle).
      specialize (Hr e s0 k Hin). lia.
    + intros [?|[_ Hx]] e x k Hr; [done|]. apply Hx. exists k. by apply (ready_in_lane Hok e).
  - split; [done|]. intros [?|[-> _]]; [done|]. cbn in Hc. lia.
Qed.

Lemma in_some_lane_phase p q : in_some_lane (lanes (set_phase p q)) = in_some_lane (lanes q).
Proof. done. Qed.

Lemma has_work_spec q ws : queue_ok limits q ws -> has_work q = true -> ws <> [] \/ exists x, in_some_lane (lanes q) x.
Proof.
  intros Hok. unfold has_work. rewrite orb_true_iff. intros [Ha|Hl].
  - left. intros ->. pose proof (works_count _ _ (ok_works _ _ _ Hok)) as Hc. cbn in Hc. by rewrite Hc in Ha.
  - right. apply bool_decide_eq_true, Exists_exists in Hl as ([k lane] & Hin & [_ Hq]).
    apply elem_of_map_to_list in Hin. cbn in Hq. destruct (queued lane) as [|p ps] eqn:Eq; [done|].
    exists (sequence p), k. rewrite Hin. cbn. unfold lane_sequences. rewrite Eq. by left.
Qed.

(** Opening the queue and starting a drain wake the workers if anything can be
    taken. *)
Lemma phase_wake_ok q wake wks before : queue_ok limits q (works_of wks) -> phase_cutoff q = Some before ->
  wake = wake_if (is_some (select_next q before)) NotifyAll -> takeable q -> someone_up wks \/ wake <> NoWake.
Proof.
  intros Hok Hc -> Ht. destruct (decide (someone_up wks)) as [|Hn]; [by left|right].
  destruct (takeable_selected q _ Hok (asleep_works _ Hn) Ht) as (b & sel & Hc' & Hsel).
  rewrite Hc in Hc'. injection Hc' as <-. by rewrite Hsel.
Qed.

Lemma step_loop_ok s s' : system_ok s -> step s GameLoop s' -> system_ok s'.
Proof using Hlimits.
  intros Hs Hst. pose proof (sys_queue s Hs) as Hok. destruct Hs as [_ Q1 Q2 Q3 Q4 Q5 Q6 Q7 Q8].
  inversion Hst; subst; match goal with H : game_loop s = _ |- _ => rename H into Hl; rewrite Hl in Q5, Q7, Q8 end; cbn in Q5.
  - (* open *)
    pose proof (open_ok _ _ Hok) as Hok'. unfold open in *. case_decide as Hp; cbn [fst snd] in *.
    + eapply (notified_ok (set_loop LoopOpen s) (queue s) (workers s) no_wakes); cbn; try done;
        [by intros Hp' ?; destruct (Q3 Hp')|intros Ht; left; by apply Q4|by right].
    + destruct Q5 as [Hc|]; [|done].
      eapply (notified_ok (set_loop LoopOpen s) (set_phase Open (queue s)) (workers s));
        [done|done| | | | | | | |eassumption]; cbn; try done; [by intros ?%Q2| |by left].
      by apply (phase_wake_ok (set_phase Open (queue s)) _ _ None).
  - split; cbn; try done.
  - split; cbn; try done.
  - (* await progress *)
    split; cbn; try done. intros d0 [= <-]. right.
    match goal with H : has_progress_since _ _ = false |- _ => rename H into Hprog end.
    unfold has_progress_since in Hprog. apply orb_false_iff in Hprog as [Hprog Hns]. apply orb_false_iff in Hprog as [Hc Hw].
    apply negb_false_iff, Z.eqb_eq in Hc. apply negb_false_iff in Hw. apply bool_decide_eq_false in Hns.
    split_and!; [done|done|]. by apply has_work_spec.
  - split; cbn; try done.
  - (* begin drain *)
    pose proof (begin_tick_drain_ok _ _ Hok) as Hok'. unfold begin_tick_drain in *.
    match goal with H : notified _ _ _ _ _ |- _ => rename H into Hnot end.
    match goal with H : _ = Some c |- _ => rename H into Hcut end.
    destruct Q5 as [Hp|Hp]; rewrite Hp in *; cbn in Hcut, Hok', Hnot; [|done]. injection Hcut as <-.
    pose proof (ok_next _ _ _ Hok) as Hn.
    eapply (notified_ok (set_loop (DrainCheck (next_sequence (queue s))) s)
        (set_phase (Draining (next_sequence (queue s))) (queue s)) (workers s));
      [done|done| | | | | | | |exact Hnot]; cbn; try done; [by intros ?%Q2| |by left|intros c [= <-]; lia].
    by apply (phase_wake_ok (set_phase (Draining (next_sequence (queue s))) (queue s)) _ _ (Some (next_sequence (queue s)))).
  - (* drain refused: stopped *)
    match goal with H : _ = None |- _ => rename H into Hcut end. unfold begin_tick_drain in Hcut.
    destruct (phase (queue s)) eqn:Hp; try done. split; cbn; rewrite ?Hp; try done. by right.
  - (* drained *)
    pose proof (finish_tick_drain_ok _ _ c Hok) as Hok'. unfold finish_tick_drain in *.
    match goal with H : tick_drain_complete _ _ = true |- _ => rename H into Hd end. case_decide as Hp.
    + split; cbn; try done; [by intros ?%Q2; congruence| |by left]. by intros (b & x & Hc & _).
    + split; cbn; try done. destruct Q5; [done|by right].
  - (* await idle *)
    match goal with H : tick_drain_complete _ _ = false |- _ => rename H into Hd end.
    split; cbn; try done. intros c0 [= <-]. right.
    destruct (decide (works_of (workers s) = [])) as [Hw|]; [right|by left].
    assert (Hn : ~ tick_drain_complete (queue s) c = true) by congruence.
    rewrite (tick_drain_complete_spec _ _ c Hok) in Hn. split; [by intros Hp; apply Hn; left|].
    destruct (decide (exists x, in_some_lane (lanes (queue s)) x /\ x < c)) as [|Hno]; [done|]. destruct Hn. right.
    split; [done|]. intros x Hx. destruct (Z.le_gt_cases c x); [done|]. destruct Hno. by exists x.
  - split; cbn; try done.
Qed.

Lemma initial_ok n : (0 < n)%nat -> system_ok (initial n).
Proof using Hlimits.
  intros Hn. assert (Hw : works_of (replicate n Awake) = []).
  { clear Hn. induction n; [done|]. cbn. exact IHn. }
  split; cbn [queue workers game_loop idle_permit progress_permit initial]; rewrite ?Hw; try done.
  - by apply with_limits_ok.
  - by rewrite length_replicate.
  - by intros [? ?]%elem_of_replicate.
  - by intros (b & x & Hc & _).
  - by left.
Qed.

Lemma step_ok s a s' : system_ok s -> step s a s' -> system_ok s'.
Proof using Hlimits.
  destruct a; [apply step_worker_ok|apply step_loop_ok|apply step_environment_ok].
Qed.

Lemma system_reachable_ok s : reachable s -> system_ok s.
Proof using Hlimits. induction 1; [by apply initial_ok|by eapply step_ok]. Qed.

(** ** What remains of a drain *)

Definition before_count (c : Z) (o : option (PacketLane T)) : Z :=
  Z.of_nat (length (filter (fun x => x < c) (seqs_of o))).

Definition queued_before (c : Z) (m : gmap Z (PacketLane T)) : Z :=
  map_sum (fun _ lane => before_count c (Some lane)) m.

Lemma queued_before_upd c m m' k o : lanes_upd m m' k o ->
  queued_before c m' = queued_before c m - before_count c (m !! k) + before_count c o.
Proof.
  intros Hu. unfold queued_before.
  assert (E : m' = set_lane k o m).
  { apply map_eq. intros j. rewrite (Hu j). symmetry. apply (lanes_upd_set m k o j). }
  assert (Hw : weight_at (fun _ lane => before_count c (Some lane)) (m !! k) k = before_count c (m !! k))
    by by destruct (m !! k).
  rewrite E. destruct o as [lane|].
  - change (set_lane k (Some lane) m) with (<[k := lane]> m). rewrite map_sum_insert, Hw. done.
  - change (set_lane k None m) with (delete k m). rewrite map_sum_delete, Hw.
    change (before_count c None) with 0. lia.
Qed.

Lemma before_count_nonneg c o : 0 <= before_count c o.
Proof. unfold before_count. lia. Qed.

Lemma before_count_none c o : (forall x, x ∈ seqs_of o -> c <= x) -> before_count c o = 0.
Proof.
  intros H. unfold before_count. assert (E : filter (fun x => x < c) (seqs_of o) = []); [|by rewrite E].
  destruct (filter _ (seqs_of o)) as [|y l] eqn:E; [done|].
  assert (Hy : y ∈ filter (fun x => x < c) (seqs_of o)) by (rewrite E; by left).
  apply list_elem_of_filter in Hy as [Hlt Hy]. specialize (H y Hy). lia.
Qed.

Lemma queued_before_nonneg c m : 0 <= queued_before c m.
Proof. apply map_sum_nonneg. intros. apply before_count_nonneg. Qed.

Lemma queued_before_zero c m : queued_before c m = 0 -> forall x, in_some_lane m x -> c <= x.
Proof.
  intros Hz x [k Hx]. destruct (Z.le_gt_cases c x) as [|Hlt]; [done|]. exfalso.
  pose proof (queued_before_upd c m (delete k m) k None (lanes_upd_delete _ _)) as H.
  pose proof (queued_before_nonneg c (delete k m)). rewrite Hz in H.
  change (before_count c None) with 0 in H.
  assert (1 <= before_count c (m !! k)); [|lia]. unfold before_count.
  assert (Hin : x ∈ filter (fun x => x < c) (seqs_of (m !! k))) by (by apply list_elem_of_filter).
  destruct (filter _ _); [by apply elem_of_nil in Hin|]. cbn. lia.
Qed.

Lemma queued_before_submit c q ws key e bytes v q' wk : queue_ok limits q ws -> c <= next_sequence q ->
  try_submit limits q key e bytes v = Ok (q', wk) -> queued_before c (lanes q') = queued_before c (lanes q).
Proof.
  intros Hok Hc H%try_submit_Ok. cbv zeta in H. destruct H as (_ & _ & _ & H).
  destruct (is_paused (lane_or_new q key)).
  - destruct H as [_ ->]. cbn [lanes set_lanes withdraw_lane set_heaps set_next_pause_generation].
  rewrite (queued_before_upd c _ _ _ _ (lanes_upd_insert _ _ _)).
    assert (E : before_count c (lanes q !! key) = before_count c (Some (lane_or_new q key)))
      by (unfold before_count; by rewrite lane_or_new_seqs). rewrite E. unfold before_count. cbn. unfold lane_sequences. cbn. lia.
  - destruct H as (_ & -> & _). destruct (submit_state_frame q key e bytes v) as (_ & El & _). cbn in El.
    rewrite (queued_before_upd c (lanes q) _ key (Some (submit_lane (lane_or_new q key) (next_sequence q) e bytes v)))
      by (rewrite El; apply lanes_upd_insert).
    unfold before_count. rewrite lane_or_new_seqs. cbn. unfold lane_sequences. cbn.
    rewrite fmap_app, filter_app, length_app. cbn [fmap list_fmap sequence].
    rewrite filter_cons, decide_False by lia. rewrite filter_nil. cbn [length]. lia.
Qed.

Lemma queued_before_pause c q key q' r wk : pause_lane q key = Ok (q', r, wk) -> queued_before c (lanes q') <= queued_before c (lanes q).
Proof.
  intros [(-> & _)|H]%pause_lane_Ok; [done|]. cbv zeta in H. destruct H as (_ & _ & _ & _ & _ & ->).
  cbn [lanes set_lanes withdraw_lane set_heaps set_next_pause_generation].
  rewrite (queued_before_upd c _ _ _ _ (lanes_upd_insert _ _ _)).
  pose proof (before_count_nonneg c (lanes q !! key)).
  change (before_count c (Some (paused_lane (lane_or_new q key) (next_pause_generation q)))) with 0. lia.
Qed.

Lemma queued_before_resume c q ws pause q' r wk : queue_ok limits q ws -> c <= next_sequence q ->
  resume_lane q pause = Ok (q', r, wk) -> queued_before c (lanes q') = queued_before c (lanes q).
Proof.
  intros Hok Hc [(-> & _)|(lane & st1 & ps & H)]%resume_lane_Ok; [done|]. cbv zeta in H.
  destruct H as (_ & El & Hg & _ & Er & -> & _ & _).
  assert (Hq : queued lane = []) by (apply (ok_lanes _ _ _ Hok _ _ El); unfold is_paused; by rewrite Hg).
  destruct (readmit_spec _ _ _ _ _ Er) as ((_ & Elanes & _) & _ & _ & Hs & _). cbn in Elanes.
  destruct (resume_state_frame st1 (pause_key pause) lane ps) as (Fl & _).
  rewrite (queued_before_upd c (lanes q) _ (pause_key pause) (resumed_slot lane ps)) by (rewrite Fl, Elanes; apply lanes_upd_set).
  rewrite (before_count_none c (lanes q !! pause_key pause)), (before_count_none c (resumed_slot lane ps)); [lia| |].
  - intros x Hx. assert (Hps : x ∈ sequence <$> ps).
    { revert Hx. unfold resumed_slot. destruct (lane_active lane), ps; cbn; unfold lane_sequences; cbn; by rewrite ?Hq. }
    rewrite Hs, elem_of_seqZ in Hps. lia.
  - rewrite El. cbn. unfold lane_sequences. rewrite Hq. intros x Hx. by apply elem_of_nil in Hx.
Qed.

Lemma queued_before_discard c q ws key q' wk : queue_ok limits q ws -> discard_lane q key = Ok (q', wk) ->
  queued_before c (lanes q') <= queued_before c (lanes q).
Proof.
  intros Hok H. destruct (discard_lane_Ok q ws key q' wk Hok H) as [(_ & -> & _)|(lane & El & _ & ->)]; [done|].
  cbn [lanes set_lanes withdraw_lane set_heaps].
  rewrite (queued_before_upd c _ _ _ _ (lanes_upd_set _ _ _)).
  pose proof (before_count_nonneg c (lanes q !! key)). rewrite (before_count_none c (if lane_active lane then _ else _)); [lia|].
  intros x Hx. destruct (lane_active lane); by apply elem_of_nil in Hx.
Qed.

Lemma queued_before_start c q ws w q' : queue_ok limits q ws -> phase q = Draining c -> next q = Ok (StartWork w q') ->
  queued_before c (lanes q') = queued_before c (lanes q) - 1.
Proof.
  intros Hok Hph H. destruct (next_start Hlimits q ws w q' Hok H) as (_ & before & s & Hc & Hsel).
  destruct (start_next_spec _ _ _ _ _ _ Hok Hsel) as (lane & p & rest & st1 & El & _ & _ & Hq & Es & _ & Hpop & E).
  pose proof (select_next_sound _ _ _ _ _ Hsel) as Hs. pose proof (sel_cutoff _ _ _ _ _ Hs) as Hcut.
  destruct (pop_started_spec _ _ _ _ _ Hs) as (st1' & E1 & _ & E2 & _). rewrite Hpop in E1. injection E1 as <-.
  unfold phase_cutoff in Hc. rewrite Hph in Hc. injection Hc as <-. unfold past_cutoff in Hcut. apply Z.leb_gt in Hcut.
  unfold next in H. rewrite decide_False in H by congruence. unfold phase_cutoff in H. rewrite Hph, E in H. cbn in H.
  injection H as _ <-. set (q' := set_activity _ _ _ _ _).
  rewrite (queued_before_upd c (lanes q) (lanes q') (work_key w) (Some (started_lane lane rest))) by (cbn; rewrite E2; apply lanes_upd_insert).
  rewrite El. unfold before_count. cbn [seqs_of]. unfold lane_sequences. rewrite Hq.
  cbn [queued started_lane fmap list_fmap].
  rewrite filter_cons, decide_True by lia. cbn [length]. lia.
Qed.

Lemma queued_before_finish c q w ws q' wk : queue_ok limits q (w :: ws) ->
  finish_one q (work_key w) (work_execution w) (work_bytes w) = Ok (q', wk) -> queued_before c (lanes q') = queued_before c (lanes q).
Proof.
  intros Hok H. destruct (finish_one_spec q w ws Hok) as (lane & q'' & wk' & El & E & _ & _ & _ & _ & _ & Hu & _).
  rewrite E in H. injection H as -> <-. rewrite (queued_before_upd _ _ _ _ _ Hu), El. unfold before_count, finished_slot.
  destruct (queued lane) eqn:Eq; [|cbn; unfold lane_sequences; cbn; rewrite Eq; lia].
  destruct (is_paused lane); cbn; unfold lane_sequences; cbn; rewrite Eq; cbn; lia.
Qed.

Lemma queued_before_none c m : (forall x, in_some_lane m x -> c <= x) -> queued_before c m = 0.
Proof.
  intros H. unfold queued_before. rewrite (map_sum_ext _ (fun _ _ => 0)).
  - apply map_sum_zero.
  - intros k lane Hk. apply before_count_none. intros x Hx. apply H. exists k. by rewrite Hk.
Qed.

(** ** Draining *)

Definition in_drain (c : Z) (s : System) : Prop := game_loop s = DrainCheck c \/ game_loop s = DrainWait c.

(** A drain ended: the queue was stopped, or is closed with nothing running
    and nothing left from before the cutoff. *)
Definition drained (c : Z) (s : System) : Prop :=
  game_loop s = LoopTicking /\
  (phase (queue s) = Stopped \/
   (phase (queue s) = Closed /\ works_of (workers s) = [] /\ forall x, in_some_lane (lanes (queue s)) x -> c <= x)).

Definition rank (c : Z) (s : System) : Z :=
  (if decide (phase (queue s) = Stopped) then 0 else 2 * queued_before c (lanes (queue s)))
  + Z.of_nat (length (works_of (workers s))).

Lemma rank_nonneg c s : 0 <= rank c s.
Proof. unfold rank. pose proof (queued_before_nonneg c (lanes (queue s))). case_decide; lia. Qed.

Lemma notified_frame s q wks wk s' : notified s q wks wk s' ->
  queue s' = q /\ works_of (workers s') = works_of wks
  /\ (forall c, in_drain c s -> game_loop s' = game_loop s)
  /\ (idle_permit s = true -> idle_permit s' = true)
  /\ (forall i x, wks !! i = Some x -> x <> Sleeping -> workers s' !! i = Some x).
Proof.
  intros [Hw E]. destruct (wakes_frame _ _ _ Hw) as (E1 & _). split_and!; [by rewrite E|done| | |].
  - intros c Hd. rewrite E. cbn. by destruct Hd as [-> | ->].
  - intros Hp. rewrite E. cbn. by rewrite Hp.
  - intros i x Hi Hx. destruct Hw; try done.
    + rewrite list_lookup_insert_ne; [done|]. intros ->. congruence.
    + unfold wake_all. rewrite list_lookup_fmap, Hi. by destruct x.
Qed.

Lemma drain_cutoff c s : system_ok s -> in_drain c s -> phase (queue s) = Stopped \/
  (phase (queue s) = Draining c /\ c <= next_sequence (queue s)).
Proof.
  intros Hs Hd. pose proof (sys_phase s Hs) as Hp. assert (Hp' : phase (queue s) = Draining c \/ phase (queue s) = Stopped)
    by (destruct Hd as [E|E]; by rewrite E in Hp).
  destruct Hp' as [E|]; [right|by left]. split; [done|]. by apply (sys_cutoff s Hs).
Qed.

(** The rank of an environment step that changes the queue only. *)
Lemma rank_environment c s q wk s' : notified s q (workers s) wk s' -> in_drain c s ->
  (phase q = phase (queue s) \/ phase q = Stopped) -> (phase (queue s) <> Stopped -> queued_before c (lanes q) <= queued_before c (lanes (queue s))) ->
  in_drain c s' /\ rank c s' <= rank c s /\ works_of (workers s') = works_of (workers s).
Proof.
  intros Hn Hd Hph Hle. destruct (notified_frame _ _ _ _ _ Hn) as (E1 & E2 & E3 & _). split_and!; [|  |done].
  - unfold in_drain. by rewrite (E3 c Hd).
  - unfold rank. rewrite E1, E2. pose proof (queued_before_nonneg c (lanes (queue s))).
    destruct (decide (phase (queue s) = Stopped)) as [Hs|Hs].
    + rewrite decide_True by (destruct Hph; congruence). lia.
    + specialize (Hle Hs). case_decide; lia.
Qed.

Lemma rank_step_environment c s s' : system_ok s -> in_drain c s -> step s Environment s' ->
  in_drain c s' /\ rank c s' <= rank c s /\ works_of (workers s') = works_of (workers s).
Proof using Hlimits.
  intros Hs Hd Hst. pose proof (sys_queue s Hs) as Hok.
  assert (Hcut : phase (queue s) <> Stopped -> c <= next_sequence (queue s)).
  { intros Hns. destruct (drain_cutoff c s Hs Hd) as [|[_ ?]]; done. }
  inversion Hst; subst; [|by split_and!| | | |]; match goal with H : notified _ _ _ _ _ |- _ => rename H into Hn end.
  - match goal with H : try_submit _ _ _ _ _ _ = _ |- _ => rename H into Ho end.
    destruct (submit_effect _ _ _ _ _ _ _ _ Hok Ho) as (E1 & _).
    apply (rank_environment c s q wk s' Hn Hd); [by left|]. intros Hns.
    rewrite (queued_before_submit c _ _ _ _ _ _ _ _ Hok (Hcut Hns) Ho). lia.
  - match goal with H : pause_lane _ _ = _ |- _ => rename H into Ho end.
    apply (rank_environment c s q wk s' Hn Hd); [|intros _; by eapply queued_before_pause].
    destruct (pause_effect _ _ _ _ _ _ Hok Ho) as [[-> _]|(E1 & _)]; by left.
  - match goal with H : resume_lane _ _ = _ |- _ => rename H into Ho end.
    apply (rank_environment c s q wk s' Hn Hd).
    + destruct (resume_effect _ _ _ _ _ _ Hok Ho) as [[-> _]|(E1 & _)]; by left.
    + intros Hns. rewrite (queued_before_resume c _ _ _ _ _ _ Hok (Hcut Hns) Ho). lia.
  - match goal with H : discard_lane _ _ = _ |- _ => rename H into Ho end.
    apply (rank_environment c s q wk s' Hn Hd); [|intros _; by eapply queued_before_discard].
    destruct (discard_effect _ _ _ _ _ Hok Ho) as [[-> _]|(E1 & _)]; by left.
  - match goal with H : stop _ = _ |- _ => rename H into Ho end.
    destruct (stop_total _ _ Hok) as (w' & E & _). rewrite E in Ho. injection Ho as <- _.
    apply (rank_environment c s _ wk s' Hn Hd); [by right|]. intros _.
    rewrite queued_before_none; [apply queued_before_nonneg|]. intros x [k Hx]. cbn in Hx.
    rewrite (stopped_lanes_empty _ _ k Hok) in Hx. by apply elem_of_nil in Hx.
Qed.

(** A running worker's step, and the start of a packet, lower the rank. *)
Lemma rank_step_worker c s i s' : system_ok s -> in_drain c s -> step s (Worker i) s' ->
  in_drain c s' /\
  (rank c s' < rank c s \/
   (rank c s' = rank c s /\ works_of (workers s') = works_of (workers s) /\ workers s !! i = Some Awake
    /\ (works_of (workers s) = [] -> rank c s = 0))).
Proof using Hlimits.
  intros Hs Hd Hst. pose proof (sys_queue s Hs) as Hok. pose proof (drain_cutoff c s Hs Hd) as Hcut.
  inversion Hst; subst;
    try match goal with H : next _ = _ |- _ => rename H into Hnx end;
    match goal with H : workers s !! i = _ |- _ => rename H into Hi end.
  - split; [by destruct Hd; [left|right]|]. left. destruct (start_effect _ _ _ _ Hok Hnx) as (E1 & E2 & _).
    destruct Hcut as [|[Hph _]]; [done|]. unfold rank. cbn [queue workers]. rewrite E1, decide_False by done.
    rewrite (queued_before_start c _ _ _ _ Hok Hph Hnx).
    pose proof (Permutation_length (works_of_start _ i w Hi)) as Hlen. cbn [length] in Hlen. rewrite Hlen.
    rewrite decide_False by done. lia.
  - split; [by destruct Hd; [left|right]|]. right. assert (Hw : works_of (<[i := Sleeping]> (workers s)) = works_of (workers s))
      by by apply (works_of_insert _ i Awake). unfold rank. cbn [queue workers set_worker]. rewrite Hw. split_and!; try done.
    intros Hnil. destruct (take_next_spec Hlimits _ _ Hok) as [[E _]|[(_ & Hns & Hsel)|(? & ? & ? & ? & E & _)]]; try congruence.
    rewrite decide_False, Hnil by done. destruct Hcut as [|[Hph _]]; [done|].
    rewrite queued_before_none; [done|]. intros x Hx. destruct (Z.le_gt_cases c x); [done|]. exfalso.
    assert (Ht : takeable (queue s)).
    { exists (Some c), x. unfold phase_cutoff. rewrite Hph. split_and!; [done|done|]. cbn. by apply Z.leb_gt. }
    destruct (takeable_selected _ _ Hok Hnil Ht) as (b & sel & Hc & Hsl). by rewrite (Hsel b Hc) in Hsl.
  - split; [by destruct Hd; [left|right]|]. right. assert (Hw : works_of (<[i := Exited]> (workers s)) = works_of (workers s))
      by by apply (works_of_insert _ i Awake). unfold rank. cbn [queue workers set_worker]. rewrite Hw. split_and!; try done.
    intros Hnil. destruct (take_next_spec Hlimits _ _ Hok) as [[_ E]|[(E & _)|(? & ? & ? & ? & E & _)]]; try congruence.
    by rewrite decide_True, Hnil.
  - match goal with H : notified _ _ _ _ _ |- _ => rename H into Hn end.
    match goal with H : finish_one _ _ _ _ = _ |- _ => rename H into Hf end.
    destruct (notified_frame _ _ _ _ _ Hn) as (E1 & E2 & E3 & _). unfold in_drain. rewrite (E3 c Hd). split; [done|]. left.
    pose proof (works_of_finish _ _ _ Hi) as Hp. eapply queue_ok_perm in Hok; [|exact Hp].
    destruct (finish_effect _ _ _ _ _ Hok Hf) as (F1 & _). unfold rank. rewrite E1, E2, F1.
    rewrite (queued_before_finish c _ _ _ _ _ Hok Hf). apply Permutation_length in Hp. cbn [length] in Hp. lia.
Qed.

Lemma rank_step_loop c s s' : system_ok s -> in_drain c s -> step s GameLoop s' ->
  drained c s' \/ (in_drain c s' /\ rank c s' = rank c s /\ workers s' = workers s /\
    ((game_loop s = DrainCheck c /\ tick_drain_complete (queue s) c = false) \/
     (game_loop s = DrainWait c /\ game_loop s' = DrainCheck c))).
Proof.
  intros Hs Hd Hst. pose proof (sys_queue s Hs) as Hok.
  inversion Hst; subst; match goal with H : game_loop s = _ |- _ => rename H into Hl end;
    destruct Hd as [Hd|Hd]; rewrite Hl in Hd; try done; injection Hd as ->.
  - left. split; [done|]. cbn [queue workers]. match goal with H : tick_drain_complete _ _ = true |- _ => rename H into Hc end.
    apply (tick_drain_complete_spec _ _ c Hok) in Hc. unfold finish_tick_drain.
    pose proof (sys_phase s Hs) as Hp. rewrite Hl in Hp. cbn in Hp.
    destruct Hc as [Hc|[Hc1 Hc2]]; [left; rewrite decide_False by congruence; done|].
    destruct Hp as [Hp|Hp]; [right; by rewrite decide_True|left; rewrite decide_False by congruence; done].
  - right. split_and!; [by right|done|done|by left].
  - right. split_and!; [by left|done|done|by right].
Qed.

(** C22: No notification is lost.  In every reachable state: if the phase lets
    anything queued be taken, some worker is awake or handling a packet; if
    the game loop awaits the end of a drain with no permit left, a packet is
    running or still queued before the cutoff; if it awaits progress with no
    permit left, nothing completed since and there still is work. *)
Theorem no_lost_wakeup s : reachable s ->
  (takeable (queue s) -> someone_up (workers s))
  /\ (forall c, game_loop s = DrainWait c -> idle_permit s = false ->
        works_of (workers s) <> [] \/ (phase (queue s) = Draining c /\ exists x, in_some_lane (lanes (queue s)) x /\ x < c))
  /\ (forall d, game_loop s = ProgressWait d -> progress_permit s = false ->
        completed (queue s) = d /\ phase (queue s) = Open
        /\ (works_of (workers s) <> [] \/ (takeable (queue s) /\ someone_up (workers s)))).
Proof using Hlimits.
  intros Hr. pose proof (system_reachable_ok s Hr) as Hs. split_and!; [apply (sys_awake s Hs)| |].
  - intros c Hl Hp. destruct (sys_idle s Hs c Hl) as [?|[?|[Hns ?]]]; [congruence|by left|right].
    destruct (drain_cutoff c s Hs (or_intror Hl)) as [|[? _]]; done.
  - intros d Hl Hp. destruct (sys_progress s Hs d Hl) as [?|(Hc & Hns & Hw)]; [congruence|].
    pose proof (sys_phase s Hs) as Hph. rewrite Hl in Hph. destruct Hph as [Hph|]; [|done]. split_and!; [done|done|].
    destruct Hw as [|[x Hx]]; [by left|right]. assert (Ht : takeable (queue s)) by by eapply takeable_open.
    split; [done|by apply (sys_awake s Hs)].
Qed.

(** ** Fair executions *)

(** An infinite execution in which a worker that is awake or handling a packet
    eventually moves, and so does the game loop when it can. *)
Record fair_execution (σ : nat -> System) (α : nat -> Actor) : Prop := {
  exec_start : reachable (σ 0%nat);
  exec_step : forall n, step (σ n) (α n) (σ (S n));
  fair_workers : forall i n x, workers (σ n) !! i = Some x -> is_up x = true -> exists m, (n <= m)%nat /\ α m = Worker i;
  fair_loop : forall n c, game_loop (σ n) = DrainCheck c \/ (game_loop (σ n) = DrainWait c /\ idle_permit (σ n) = true) ->
    exists m, (n <= m)%nat /\ α m = GameLoop }.

(** The first time from [n] on at which [a] acts. *)
Lemma first_action (α : nat -> Actor) a n m : (n <= m)%nat -> α m = a ->
  exists k, (n <= k)%nat /\ α k = a /\ forall j, (n <= j < k)%nat -> α j <> a.
Proof.
  intros Hle Hm. induction m as [m IH] using lt_wf_ind.
  destruct (decide (Exists (fun j => α j = a) (seq n (m - n)))) as [H|H].
  - apply Exists_exists in H as (j & Hj & Ha). apply elem_of_seq in Hj. apply (IH j); [lia|lia|done].
  - exists m. split_and!; [done|done|]. intros j Hj Ha. apply H, Exists_exists. exists j. split; [|done].
    apply elem_of_seq. lia.
Qed.

Lemma path_induction (P : nat -> Prop) n m : (n <= m)%nat -> P n ->
  (forall j, (n <= j < m)%nat -> P j -> P (S j)) -> P m.
Proof.
  intros Hle Hn Hst. induction m as [|m IH]; [by assert (n = 0%nat) as <- by lia|].
  destruct (decide (n = S m)) as [<-|]; [done|]. apply Hst; [lia|]. apply IH; [lia|]. intros j Hj. apply Hst. lia.
Qed.

Lemma worker_persists s a s' i x : step s a s' -> a <> Worker i -> workers s !! i = Some x -> x <> Sleeping ->
  workers s' !! i = Some x.
Proof.
  intros Hst Ha Hi Hx. assert (Hins : forall j y, Worker j <> Worker i -> <[j := y]> (workers s) !! i = Some x)
    by (intros j y Hj; rewrite list_lookup_insert_ne; [done|congruence]).
  inversion Hst; subst; cbn [workers set_loop set_worker]; try done; try (by apply Hins);
    match goal with H : notified _ _ _ _ _ |- _ => apply notified_frame in H as (_ & _ & _ & _ & Hk) end;
    apply Hk; try done; by apply Hins.
Qed.

Lemma loop_persists c s a s' : step s a s' -> a <> GameLoop -> in_drain c s ->
  game_loop s' = game_loop s /\ (idle_permit s = true -> idle_permit s' = true).
Proof.
  intros Hst Ha Hd. inversion Hst; subst; try done;
    match goal with H : notified _ _ _ _ _ |- _ => apply notified_frame in H as (_ & _ & Hk & Hp & _) end;
    split; try done; by eapply Hk.
Qed.

Section Fair.
Context {σ : nat -> System} {α : nat -> Actor} (Hfair : fair_execution σ α) (c : Z).

Lemma exec_ok n : system_ok (σ n).
Proof using Hlimits Hfair.
  induction n as [|n IH]; [apply system_reachable_ok, (exec_start _ _ Hfair)|].
  by eapply step_ok; [|apply (exec_step _ _ Hfair)].
Qed.

(** One step of a drain: it ends, or the rank does not grow; it stays the same
    only if the running packets do. *)
Lemma drain_step j : in_drain c (σ j) -> drained c (σ (S j)) \/
  (in_drain c (σ (S j)) /\ (rank c (σ (S j)) < rank c (σ j) \/
     (rank c (σ (S j)) <= rank c (σ j) /\ works_of (workers (σ (S j))) = works_of (workers (σ j))))).
Proof using Hlimits Hfair.
  intros Hd. pose proof (exec_step _ _ Hfair j) as Hst. pose proof (exec_ok j) as Hok. destruct (α j) as [i| |].
  - destruct (rank_step_worker c _ _ _ Hok Hd Hst) as [Hd' [?|(Hr & Hw & _)]]; [tauto|]. right. split; [done|right]. split; [lia|done].
  - destruct (rank_step_loop c _ _ Hok Hd Hst) as [?|(Hd' & Hr & Hw & _)]; [by left|right]. split; [done|right]. rewrite Hw. split; [lia|done].
  - destruct (rank_step_environment c _ _ Hok Hd Hst) as (Hd' & Hr & Hw). right. split; [done|by right].
Qed.

Definition lowered (n : nat) : Prop :=
  exists k, (n <= k)%nat /\ (drained c (σ k) \/ (in_drain c (σ k) /\ rank c (σ k) < rank c (σ n))).

(** While the rank stays, an up worker that has not moved still is up, and
    what runs is the same. *)
Lemma waits_for_worker n m i x : (n <= m)%nat -> in_drain c (σ n) -> workers (σ n) !! i = Some x -> x <> Sleeping ->
  (forall j, (n <= j < m)%nat -> α j <> Worker i) ->
  lowered n \/ (in_drain c (σ m) /\ rank c (σ m) = rank c (σ n) /\ works_of (workers (σ m)) = works_of (workers (σ n))
               /\ workers (σ m) !! i = Some x).
Proof using Hlimits Hfair.
  intros Hle Hd Hi Hx Hno. apply (path_induction (fun m => lowered n \/ (in_drain c (σ m) /\ rank c (σ m) = rank c (σ n)
    /\ works_of (workers (σ m)) = works_of (workers (σ n)) /\ workers (σ m) !! i = Some x)) n m Hle); [by right|].
  intros j Hj [Hl|(Hd' & Hr & Hw & Hi')]; [by left|]. destruct (drain_step j Hd') as [He|(Hd'' & Hrank)].
  - left. exists (S j). split; [lia|by left].
  - destruct (Z.lt_ge_cases (rank c (σ (S j))) (rank c (σ n))) as [Hlt|Hge].
    + left. exists (S j). split; [lia|by right].
    + right. destruct Hrank as [|[Hr' Hw']]; [lia|]. split_and!; [done|lia|congruence|].
      eapply worker_persists; [apply (exec_step _ _ Hfair)|by apply Hno|done|done].
Qed.

(** As long as anything remains, the rank is lowered or the drain ends. *)
Lemma rank_lowered n : in_drain c (σ n) -> 0 < rank c (σ n) -> lowered n.
Proof using Hlimits Hfair.
  intros Hd Hpos. pose proof (exec_ok n) as Hok.
  assert (Hup : exists i x, workers (σ n) !! i = Some x /\ x <> Sleeping /\ is_up x = true /\
    (x = Awake -> works_of (workers (σ n)) = [])).
  { destruct (decide (works_of (workers (σ n)) = [])) as [Hnil|Hne].
    - assert (Hu : someone_up (workers (σ n))).
      { apply (sys_awake _ Hok). unfold rank in Hpos. rewrite Hnil in Hpos. case_decide as Hs; [cbn in Hpos; lia|].
        destruct (drain_cutoff c _ Hok Hd) as [|[Hph _]]; [done|].
        destruct (decide (exists x, in_some_lane (lanes (queue (σ n))) x /\ x < c)) as [(x & Hx & Hlt)|Hno].
        - exists (Some c), x. unfold phase_cutoff. rewrite Hph. split_and!; [done|done|]. cbn. by apply Z.leb_gt.
        - rewrite queued_before_none in Hpos; [cbn in Hpos; lia|]. intros x Hx.
          destruct (Z.le_gt_cases c x); [done|]. destruct Hno. by exists x. }
      destruct Hu as [(i & Hi)%list_elem_of_lookup|[w (i & Hi)%list_elem_of_lookup]]; exists i; eexists; by split_and!.
    - apply works_of_nil in Hne as [w (i & Hi)%list_elem_of_lookup]. exists i, (Running w). by split_and!. }
  destruct Hup as (i & x & Hi & Hx & Hu & Hnil).
  destruct (fair_workers _ _ Hfair i n x Hi Hu) as (m0 & Hm0 & Ha0).
  destruct (first_action α (Worker i) n m0 Hm0 Ha0) as (m & Hle & Ha & Hno).
  destruct (waits_for_worker n m i x Hle Hd Hi Hx Hno) as [|(Hd' & Hr & Hw & Hi')]; [done|].
  pose proof (exec_step _ _ Hfair m) as Hst. rewrite Ha in Hst.
  destruct (rank_step_worker c _ _ _ (exec_ok m) Hd' Hst) as [Hd'' [Hlt|(Hr' & Hw' & Hawake & Hz)]].
  - exists (S m). split; [lia|right]. split; [done|lia].
  - rewrite Hawake in Hi'. injection Hi' as <-. rewrite Hw in Hz. specialize (Hz (Hnil eq_refl)). lia.
Qed.

(** With nothing remaining, the game loop finds out. *)
Lemma quiet_persists n m : (n <= m)%nat -> in_drain c (σ n) -> rank c (σ n) = 0 ->
  (forall j, (n <= j < m)%nat -> α j <> GameLoop) ->
  in_drain c (σ m) /\ rank c (σ m) = 0 /\ game_loop (σ m) = game_loop (σ n)
  /\ (idle_permit (σ n) = true -> idle_permit (σ m) = true).
Proof using Hlimits Hfair.
  intros Hle Hd Hr Hno. apply (path_induction (fun m => in_drain c (σ m) /\ rank c (σ m) = 0 /\ game_loop (σ m) = game_loop (σ n)
    /\ (idle_permit (σ n) = true -> idle_permit (σ m) = true)) n m Hle); [done|].
  intros j Hj (Hd' & Hr' & Hl & Hp). pose proof (exec_step _ _ Hfair j) as Hst.
  destruct (loop_persists c _ _ _ Hst (Hno j Hj) Hd') as [Hl' Hp'].
  pose proof (rank_nonneg c (σ (S j))). destruct (drain_step j Hd') as [[He _]|[Hd'' Hrank]].
  - exfalso. rewrite He in Hl'. destruct Hd' as [E|E]; congruence.
  - split_and!; [done|lia|congruence|tauto].
Qed.

Lemma quiet_complete s : system_ok s -> in_drain c s -> rank c s = 0 -> tick_drain_complete (queue s) c = true
  /\ (game_loop s = DrainWait c -> idle_permit s = true).
Proof.
  intros Hs Hd Hr. unfold rank in Hr. pose proof (queued_before_nonneg c (lanes (queue s))).
  assert (Hw : works_of (workers s) = []).
  { destruct (works_of (workers s)); [done|]. cbn [length] in Hr. case_decide; lia. }
  split.
  - apply (tick_drain_complete_spec _ _ c (sys_queue s Hs)). case_decide; [by left|right].
    split; [done|]. apply queued_before_zero. lia.
  - intros Hl. destruct (sys_idle s Hs c Hl) as [|[?|(Hns & x & Hx & Hlt)]]; [done|done|].
    rewrite decide_False in Hr by done. assert (Hz : queued_before c (lanes (queue s)) = 0) by lia.
    pose proof (queued_before_zero c _ Hz x Hx). lia.
Qed.

Lemma quiet_ends n : in_drain c (σ n) -> rank c (σ n) = 0 -> exists m, (n <= m)%nat /\ drained c (σ m).
Proof using Hlimits Hfair.
  assert (Hcheck : forall n, game_loop (σ n) = DrainCheck c -> rank c (σ n) = 0 -> exists m, (n <= m)%nat /\ drained c (σ m)).
  { intros k Hl Hr. destruct (fair_loop _ _ Hfair k c (or_introl Hl)) as (m0 & Hm0 & Ha0).
    destruct (first_action α GameLoop k m0 Hm0 Ha0) as (m & Hle & Ha & Hno).
    destruct (quiet_persists k m Hle (or_introl Hl) Hr Hno) as (Hd' & Hr' & Hl' & _).
    pose proof (exec_step _ _ Hfair m) as Hst. rewrite Ha in Hst. exists (S m). split; [lia|].
    destruct (quiet_complete _ (exec_ok m) Hd' Hr') as [Hc _].
    destruct (rank_step_loop c _ _ (exec_ok m) Hd' Hst) as [|(_ & _ & _ & [[_ ?]|[? _]])]; [done|congruence|congruence]. }
  intros Hd Hr. destruct Hd as [Hl|Hl]; [by apply Hcheck|].
  destruct (quiet_complete _ (exec_ok n) (or_intror Hl) Hr) as [_ Hp].
  destruct (fair_loop _ _ Hfair n c (or_intror (conj Hl (Hp Hl)))) as (m0 & Hm0 & Ha0).
  destruct (first_action α GameLoop n m0 Hm0 Ha0) as (m & Hle & Ha & Hno).
  destruct (quiet_persists n m Hle (or_intror Hl) Hr Hno) as (Hd' & Hr' & Hl' & _).
  pose proof (exec_step _ _ Hfair m) as Hst. rewrite Ha in Hst.
  destruct (rank_step_loop c _ _ (exec_ok m) Hd' Hst) as [He|(_ & Hr'' & _ & [[? _]|[_ Hl'']])]; [exists (S m); split; [lia|done]|congruence|].
  destruct (Hcheck (S m) Hl'' ltac:(lia)) as (k & Hk & He). exists k. split; [lia|done].
Qed.

Lemma drain_ends n : in_drain c (σ n) -> exists m, (n <= m)%nat /\ drained c (σ m).
Proof using Hlimits Hfair.
  remember (Z.to_nat (rank c (σ n))) as r eqn:Er. revert n Er. induction r as [r IH] using lt_wf_ind.
  intros n Er Hd. pose proof (rank_nonneg c (σ n)). destruct (decide (rank c (σ n) = 0)) as [Hz|Hz]; [by apply quiet_ends|].
  destruct (rank_lowered n Hd ltac:(lia)) as (k & Hk & [He|[Hd' Hlt]]); [by exists k|].
  pose proof (rank_nonneg c (σ k)). destruct (IH (Z.to_nat (rank c (σ k))) ltac:(lia) k eq_refl Hd') as (m & Hm & He).
  exists m. split; [lia|done].
Qed.
End Fair.

(** C5: A tick boundary is always reached.  In every fair execution, however
    many packets other tasks keep submitting, a drain that started ends: the
    game loop goes on to its tick, and then either the queue was stopped, or it
    is closed, no handler runs, and no packet with a sequence number below the
    drain's cutoff is in a lane.  A packet leaves its lane when a handler takes
    it, or when a pause defers it or a discard drops it; those are not handled
    by the drain. *)
Theorem drain_completes σ α n c : fair_execution σ α -> in_drain c (σ n) ->
  exists m, (n <= m)%nat /\ drained c (σ m).
Proof using Hlimits. intros Hf Hd. by apply (drain_ends Hf). Qed.
End Workers.

Arguments WorkerState T : clear implicits.
Arguments System T : clear implicits.

(** ** A fair execution: one worker, one packet, one drain *)

Module Example1.
Notation LIM := PRODUCTION.
Definition fst_ok {A E} (d : A) (o : outcome E (A * Wakes)) : A := match o with Ok (a, _) => a | _ => d end.

Definition q0 : PacketQueueState Z := with_limits.
Definition q1 := (open q0).1.
Definition q2 := fst_ok q1 (try_submit LIM q1 7 PlayerLocal 320 11).
Definition q3 := (begin_tick_drain q2).1.1.
Definition job : PacketWork Z := MkWork 7 PlayerLocal 320 11.
Definition q4 := match next q3 with Ok (StartWork _ q) => q | _ => q3 end.
Definition q5 := fst_ok q4 (finish_one q4 7 PlayerLocal 320).
Definition q6 := finish_tick_drain q5 1.

Definition σ (n : nat) : System Z :=
  match n with
  | 0%nat => MkSystem q0 [Awake] LoopTicking false false
  | 1%nat => MkSystem q1 [Awake] LoopOpen false false
  | 2%nat => MkSystem q2 [Awake] LoopOpen false false
  | 3%nat => MkSystem q3 [Awake] (DrainCheck 1) false false
  | 4%nat => MkSystem q3 [Awake] (DrainWait 1) false false
  | 5%nat => MkSystem q4 [Running job] (DrainWait 1) false false
  | 6%nat => MkSystem q5 [Awake] (DrainWait 1) true true
  | 7%nat => MkSystem q5 [Awake] (DrainCheck 1) false true
  | 8%nat => MkSystem q6 [Awake] LoopTicking false true
  | _ => MkSystem q6 [Sleeping] LoopTicking false true
  end.

Definition α (n : nat) : Actor :=
  match n with
  | 0%nat | 2%nat | 3%nat | 6%nat | 7%nat => GameLoop
  | 4%nat | 5%nat | 8%nat => Worker 0
  | _ => Environment
  end.

Lemma step_0 : step (limits := LIM) (σ 0) GameLoop (σ 1).
Proof. apply loop_open; [done|]. split; [apply wakes_none|reflexivity]. Qed.

Lemma step_1 : step (limits := LIM) (σ 1) Environment (σ 2).
Proof.
  eapply (env_submit _ _ 7 PlayerLocal 320 11 q2); [lia|vm_compute; reflexivity|].
  split; [|reflexivity]. apply wakes_nobody. intros H. by apply list_elem_of_singleton in H.
Qed.

Lemma step_2 : step (limits := LIM) (σ 2) GameLoop (σ 3).
Proof.
  eapply (loop_begin_drain _ _ 1); [done|vm_compute; reflexivity|]. split; [|vm_compute; reflexivity].
  apply (wakes_everyone [Awake]).
Qed.

Lemma step_3 : step (limits := LIM) (σ 3) GameLoop (σ 4).
Proof. apply (loop_await_idle (σ 3) 1); [done|vm_compute; reflexivity]. Qed.

Lemma step_4 : step (limits := LIM) (σ 4) (Worker 0) (σ 5).
Proof. apply (worker_start (σ 4) 0 job q4); [done|vm_compute; reflexivity]. Qed.

Lemma step_5 : step (limits := LIM) (σ 5) (Worker 0) (σ 6).
Proof.
  eapply (worker_finish (σ 5) _ 0 job q5); [done|vm_compute; reflexivity|]. split; [|reflexivity]. apply (wakes_none [Awake]).
Qed.

Lemma step_6 : step (limits := LIM) (σ 6) GameLoop (σ 7).
Proof. by apply (loop_idle_permit (σ 6) 1). Qed.

Lemma step_7 : step (limits := LIM) (σ 7) GameLoop (σ 8).
Proof. apply (loop_drained (σ 7) 1); [done|vm_compute; reflexivity]. Qed.

Lemma step_8 : step (limits := LIM) (σ 8) (Worker 0) (σ 9).
Proof. apply (worker_sleep (σ 8) 0); [done|vm_compute; reflexivity]. Qed.

Lemma fair : fair_execution (limits := LIM) σ α.
Proof.
  split.
  - apply (reachable_initial 1). lia.
  - intros n. do 9 (destruct n as [|n]; [eauto using step_0, step_1, step_2, step_3, step_4, step_5, step_6, step_7, step_8|]).
    apply env_refuse.
  - intros i n x Hi Hx. exists (Nat.max n 8). split; [lia|].
    assert (Hn : (n <= 8)%nat).
    { do 9 (destruct n as [|n]; [lia|]). cbn in Hi. destruct i; [|done]. injection Hi as <-. done. }
    replace (Nat.max n 8) with 8%nat by lia. assert (i = 0%nat) as ->; [|done].
    destruct i; [done|]. by do 9 (destruct n as [|n]; [done|]).
  - intros n c Hl. exists 7%nat. split; [|done].
    assert ((n <= 7)%nat \/ game_loop (σ n) = LoopTicking) as [|E]; [|done|by rewrite E in Hl; destruct Hl as [|[]]].
    do 8 (destruct n as [|n]; [left; lia|]). right. by destruct n.
Qed.

Lemma drain_completes_witness : exists m, (3 <= m)%nat /\ drained 1 (σ m).
Proof. apply (drain_completes PacketQueue.Example1.production_limits σ α 3 1 fair). by left. Defined.

Lemma no_lost_wakeup_witness : takeable (queue (σ 3)) /\ someone_up (workers (σ 3)).
Proof.
  assert (takeable (queue (σ 3))) as Ht.
  { exists (Some 1), 0. split; [reflexivity|]. split; [|reflexivity]. exists 7. vm_compute. by left. }
  split; [exact Ht|]. revert Ht. apply (no_lost_wakeup PacketQueue.Example1.production_limits (σ 3)).
  eapply reachable_step; [|exact step_2]. eapply reachable_step; [|exact step_1].
  eapply reachable_step; [|exact step_0]. apply (reachable_initial 1). lia.
Defined.
End Example1.
