(* ===== verification/Strings.v ===== *)
(** * Operations on strings

    The operations of Rust's [str] the permission system takes to read and
    write its texts: splitting, joining, stripping, searching and slicing.  A
    [str] is the string of its UTF-8 bytes, as in [Identifier]; the characters
    searched for are ASCII, whose byte occurs in no other character. *)

From Stdlib Require Import Lia ZArith String Ascii.
From stdpp Require Import prelude list strings.
From S2P Require Import Prelude Identifier.

#[local] Open Scope string_scope.

(** ** Definitions *)

(** [str::split] by a character predicate; there is always a first part. *)
Fixpoint split_on (P : ascii -> bool) (s : string) : list string :=
  match s with
  | EmptyString => [EmptyString]
  | String c s =>
      if P c then EmptyString :: split_on P s
      else match split_on P s with
           | part :: parts => String c part :: parts
           | [] => [String c EmptyString]
           end
  end.

Definition split (c : ascii) (s : string) : list string := split_on (Ascii.eqb c) s.

Fixpoint join (sep : ascii) (parts : list string) : string :=
  match parts with
  | [] => EmptyString
  | [part] => part
  | part :: parts => part ++ String sep (join sep parts)
  end.

(** [str::contains(char)] *)
Definition contains_char (c : ascii) (s : string) : bool := negb (all_chars (fun x => negb (Ascii.eqb c x)) s).

(** [str::strip_prefix], [str::strip_suffix] and [str::starts_with(char)] *)
Fixpoint strip_prefix (prefix s : string) : option string :=
  match prefix, s with
  | EmptyString, _ => Some s
  | String a prefix, String b s => if Ascii.eqb a b then strip_prefix prefix s else None
  | _, EmptyString => None
  end.

Fixpoint strip_suffix (suffix s : string) : option string :=
  if String.eqb s suffix then Some EmptyString
  else match s with
       | EmptyString => None
       | String c s => match strip_suffix suffix s with Some p => Some (String c p) | None => None end
       end.

Definition starts_with (c : ascii) (s : string) : bool :=
  match s with String x _ => Ascii.eqb c x | EmptyString => false end.

(** [str::ends_with(char)] *)
Fixpoint ends_with (c : ascii) (s : string) : bool :=
  match s with
  | EmptyString => false
  | String x EmptyString => Ascii.eqb c x
  | String _ s => ends_with c s
  end.

(** [str::find(char)]: the byte index of the first occurrence. *)
Fixpoint find (c : ascii) (s : string) : option nat :=
  match s with
  | EmptyString => None
  | String x s => if Ascii.eqb c x then Some 0%nat else match find c s with Some i => Some (S i) | None => None end
  end.

(** [&s[a..b]]: panics on bounds that are out of order or past the end. *)
Definition slice {E} (s : string) (a b : nat) : outcome E string :=
  if ((a <=? b) && (b <=? String.length s))%nat then Ok (substring a (b - a) s) else Panic.

(** [str::split_once(char)] *)
Fixpoint split_once_at (sep : ascii) (s : string) : option (string * string) :=
  match s with
  | EmptyString => None
  | String c s =>
      if Ascii.eqb sep c then Some (EmptyString, s)
      else match split_once_at sep s with Some (a, b) => Some (String c a, b) | None => None end
  end.

(** ** Strings and their parts *)

Lemma string_app_cons c (s t : string) : String c s ++ t = String c (s ++ t).
Proof. reflexivity. Qed.

Lemma string_app_nil_l (s : string) : "" ++ s = s.
Proof. reflexivity. Qed.

#[local] Hint Rewrite string_app_cons string_app_nil_l : str.
#[local] Ltac str := autorewrite with str in *.

Lemma string_app_nil_r (s : string) : s ++ "" = s.
Proof. induction s as [|c s IH]; [done|]. str. by rewrite IH. Qed.

Lemma string_app_assoc (a b c : string) : (a ++ b) ++ c = a ++ (b ++ c).
Proof. induction a as [|x a IH]; [done|]. str. by rewrite IH. Qed.

Lemma string_app_inj_l (a b c : string) : a ++ b = a ++ c -> b = c.
Proof. induction a as [|x a IH]; [done|]. str. intros [= H]. by apply IH. Qed.

Lemma string_app_length (a b : string) : String.length (a ++ b) = (String.length a + String.length b)%nat.
Proof. induction a as [|x a IH]; [done|]. str. cbn. by rewrite IH. Qed.

Lemma split_on_not_nil P s : split_on P s <> [].
Proof. destruct s as [|c s]; [done|]. cbn. destruct (P c); [done|]. by destruct (split_on P s). Qed.

Lemma split_not_nil c s : split c s <> [].
Proof. apply split_on_not_nil. Qed.

Lemma split_cons c s : split c (String c s) = "" :: split c s.
Proof. unfold split. cbn. by rewrite Ascii.eqb_refl. Qed.

Lemma split_app c a b : split c (a ++ String c b) = (split c a ++ split c b)%list.
Proof.
  unfold split. induction a as [|x a IH]; str; cbn; [by rewrite Ascii.eqb_refl|].
  destruct (Ascii.eqb c x); [by rewrite IH|]. rewrite IH.
  pose proof (split_on_not_nil (Ascii.eqb c) a). by destruct (split_on (Ascii.eqb c) a).
Qed.

Lemma join_cons sep part parts : parts <> [] -> join sep (part :: parts) = part ++ String sep (join sep parts).
Proof. by destruct parts. Qed.

Lemma join_split c s : join c (split c s) = s.
Proof.
  unfold split. induction s as [|x s IH]; [done|]. cbn. pose proof (split_on_not_nil (Ascii.eqb c) s) as Hn.
  destruct (Ascii.eqb_spec c x) as [->|].
  - rewrite join_cons by done. str. by rewrite IH.
  - destruct (split_on (Ascii.eqb c) s) as [|part parts]; [done|]. destruct parts as [|q parts]; [cbn in *; by subst|].
    rewrite join_cons in IH |- * by done. str. by rewrite IH.
Qed.

Lemma split_inj c s t : split c s = split c t -> s = t.
Proof. intros H. rewrite <- (join_split c s), <- (join_split c t). by rewrite H. Qed.

Lemma join_app sep l1 l2 : l1 <> [] -> l2 <> [] -> join sep (l1 ++ l2)%list = join sep l1 ++ String sep (join sep l2).
Proof.
  intros H1 H2. induction l1 as [|a l1 IH]; [done|]. destruct l1 as [|b l1]; [cbn [app]; by rewrite (join_cons sep a l2)|].
  change ((a :: b :: l1) ++ l2)%list with (a :: ((b :: l1) ++ l2))%list.
  rewrite !join_cons by (by destruct l2). rewrite IH by done. by rewrite string_app_assoc.
Qed.

Lemma split_single c s : all_chars (fun x => negb (Ascii.eqb c x)) s = true -> split c s = [s].
Proof.
  unfold split. induction s as [|x s IH]; [done|]. cbn. intros [Hx Hs]%andb_true_iff.
  apply negb_true_iff in Hx. by rewrite Hx, (IH Hs).
Qed.

Lemma split_join c parts : parts <> [] -> Forall (fun s => all_chars (fun x => negb (Ascii.eqb c x)) s = true) parts ->
  split c (join c parts) = parts.
Proof.
  intros Hn. induction 1 as [|s parts Hs Hf IH]; [done|]. destruct parts as [|t parts]; [by apply split_single|].
  rewrite join_cons, split_app, split_single by done. cbn [app]. by rewrite IH.
Qed.

(** Parts hold no separator. *)
Lemma split_parts c s : Forall (fun p => all_chars (fun x => negb (Ascii.eqb c x)) p = true) (split c s).
Proof.
  unfold split. induction s as [|x s IH]; [by repeat constructor|]. cbn. destruct (Ascii.eqb c x) eqn:E; [by constructor|].
  destruct (split_on (Ascii.eqb c) s) as [|p ps]; [repeat constructor; cbn; by rewrite E|].
  apply Forall_cons in IH as [Hp Hps]. constructor; [|done]. cbn. by rewrite E.
Qed.

Lemma strip_prefix_spec p s r : strip_prefix p s = Some r <-> s = p ++ r.
Proof.
  revert s. induction p as [|a p IH]; intros s; cbn; str; [split; congruence|].
  destruct s as [|b s]; [done|]. destruct (Ascii.eqb_spec a b) as [->|Hn].
  - rewrite IH. split; [by intros ->|by intros [= ->]].
  - split; [done|]. intros [= -> _]. done.
Qed.

Lemma string_app_suffix_neq (p s : string) : p <> "" -> s <> p ++ s.
Proof.
  intros Hp E. apply (f_equal String.length) in E. rewrite string_app_length in E. destruct p; [done|]. cbn in E. lia.
Qed.

Lemma strip_suffix_spec suf s p : strip_suffix suf s = Some p <-> s = p ++ suf.
Proof.
  revert p. induction s as [|c s IH]; intros p; cbn [strip_suffix].
  - destruct (String.eqb_spec "" suf) as [<-|E]; split; try done; try (by intros [= <-]); by destruct p.
  - destruct (String.eqb_spec (String c s) suf) as [<-|E].
    { split; [by intros [= <-]|]. intros H. destruct (decide (p = "")) as [->|Hp]; [done|].
      by destruct (string_app_suffix_neq p (String c s) Hp). }
    destruct p as [|d p]; str; [split; [by destruct (strip_suffix suf s)|by intros <-]|].
    destruct (strip_suffix suf s) as [q|].
    + split; [intros [= -> ->]; f_equal; by apply IH|]. intros [= -> H]. apply IH in H. by simplify_eq.
    + split; [done|]. intros [= -> H]. by apply IH in H.
Qed.

(** A string that starts with another and a separator has its parts first. *)
Lemma strict_prefix_parts c p s :
  match strip_prefix p s with Some remaining => starts_with c remaining | None => false end = true <->
  exists rest, rest <> [] /\ split c s = (split c p ++ rest)%list.
Proof.
  split.
  - destruct (strip_prefix p s) as [[|x r]|] eqn:E; [done| |done]. cbn. intros ->%Ascii.eqb_eq.
    apply strip_prefix_spec in E as ->. exists (split x r). split; [apply split_not_nil|apply split_app].
  - intros (rest & Hn & E). assert (strip_prefix p s = Some (String c (join c rest))) as ->; [|cbn; apply Ascii.eqb_refl].
    apply strip_prefix_spec. rewrite <- (join_split c s), E, join_app, join_split by (done || apply split_not_nil). done.
Qed.

Lemma all_chars_impl (P Q : ascii -> bool) s : (forall c, P c = true -> Q c = true) ->
  all_chars P s = true -> all_chars Q s = true.
Proof. intros H. induction s as [|c s IH]; [done|]. cbn. intros [Hc Hs]%andb_true_iff. by rewrite (H _ Hc), (IH Hs). Qed.

Definition free_of (c : ascii) (s : string) : Prop := all_chars (fun x => negb (Ascii.eqb c x)) s = true.

Lemma free_of_app c a b : free_of c (a ++ b) <-> free_of c a /\ free_of c b.
Proof.
  unfold free_of. induction a as [|x a IH]; str; cbn; [tauto|]. rewrite !andb_true_iff, IH. tauto.
Qed.

Lemma find_none c s : find c s = None <-> free_of c s.
Proof.
  unfold free_of. induction s as [|x s IH]; [done|]. cbn. destruct (Ascii.eqb c x); [done|]. cbn. rewrite <- IH. by destruct (find c s).
Qed.

Lemma find_app c a b : free_of c a -> find c (a ++ String c b) = Some (String.length a).
Proof.
  unfold free_of. induction a as [|x a IH]; str; cbn; [by rewrite Ascii.eqb_refl|]. intros [Hx Ha]%andb_true_iff.
  apply negb_true_iff in Hx. by rewrite Hx, (IH Ha).
Qed.

Lemma find_spec c s i : find c s = Some i -> exists a b, s = a ++ String c b /\ free_of c a /\ String.length a = i.
Proof.
  revert i. induction s as [|x s IH]; intros i; [done|]. cbn. destruct (Ascii.eqb_spec c x) as [->|Hn].
  - intros [= <-]. by exists "", s.
  - destruct (find c s) as [j|]; [|done]. intros [= <-]. destruct (IH j eq_refl) as (a & b & -> & Ha & <-).
    exists (String x a), b. split_and!; [done| |done]. unfold free_of. cbn. rewrite Ha.
    by rewrite (proj2 (Ascii.eqb_neq c x)).
Qed.

Lemma ends_with_spec c s : ends_with c s = true <-> exists a, s = a ++ String c "".
Proof.
  split.
  - induction s as [|x s IH]; [done|]. cbn. destruct s as [|y s]; [intros ->%Ascii.eqb_eq; by exists ""|].
    intros [a ->]%IH. by exists (String x a).
  - intros [a ->]. induction a as [|x a IH]; cbn; [apply Ascii.eqb_refl|]. str. by destruct (a ++ String c "") eqn:E; [destruct a|].
Qed.

Lemma substring_prefix a b : substring 0 (String.length a) (a ++ b) = a.
Proof. induction a as [|x a IH]; [by destruct b|]. str. cbn. by rewrite IH. Qed.

Lemma substring_skip a b n : substring (String.length a) n (a ++ b) = substring 0 n b.
Proof. induction a as [|x a IH]; [done|]. str. cbn. by rewrite IH. Qed.

Lemma slice_prefix {E} a b : slice (E := E) (a ++ b) 0 (String.length a) = Ok a.
Proof.
  unfold slice. rewrite string_app_length. replace (_ && _)%nat with true by (symmetry; apply andb_true_iff; split; apply Nat.leb_le; lia).
  by rewrite Nat.sub_0_r, substring_prefix.
Qed.

Lemma slice_middle {E} a b c n m : n = String.length a -> m = (String.length a + String.length b)%nat ->
  slice (E := E) (a ++ b ++ c) n m = Ok b.
Proof.
  intros -> ->. unfold slice. rewrite !string_app_length.
  replace (_ && _)%nat with true by (symmetry; apply andb_true_iff; split; apply Nat.leb_le; lia).
  rewrite substring_skip. replace (_ - _)%nat with (String.length b) by lia. by rewrite substring_prefix.
Qed.

Lemma split_once_at_app c a b : free_of c a -> split_once_at c (a ++ String c b) = Some (a, b).
Proof.
  unfold free_of. induction a as [|x a IH]; str; cbn; [by rewrite Ascii.eqb_refl|]. intros [Hx Ha]%andb_true_iff.
  apply negb_true_iff in Hx. by rewrite Hx, (IH Ha).
Qed.

Lemma split_once_at_spec c s a b : split_once_at c s = Some (a, b) -> s = a ++ String c b /\ free_of c a.
Proof.
  revert a. induction s as [|x s IH]; intros a; [done|]. cbn. destruct (Ascii.eqb_spec c x) as [->|Hn].
  - by intros [= <- <-].
  - destruct (split_once_at c s) as [[a' b']|]; [|done]. intros [= <- <-]. destruct (IH a' eq_refl) as [-> Ha].
    split; [done|]. unfold free_of. cbn. rewrite Ha. by rewrite (proj2 (Ascii.eqb_neq c x)).
Qed.

Lemma contains_char_false c s : contains_char c s = false <-> free_of c s.
Proof. unfold contains_char, free_of. by rewrite negb_false_iff. Qed.
