(* ===== verification/PermissionKey.v ===== *)
(** * Permission keys

    Model of [steel-core/src/permission/key.rs]: dotted permission keys such as
    [minecraft.command.give] with an optional final wildcard.

    The operations work on the text; the theorems say what they mean on the
    sequence of segments. *)

From Stdlib Require Import Lia ZArith String Ascii.
From stdpp Require Import prelude list strings.
From S2P Require Import Prelude Identifier Strings.

#[local] Open Scope string_scope.

(** ** Keys *)

Record PermissionKey := mk_key { key_str : string }.
Record PermissionSegment := mk_segment { segment_str : string }.

#[export] Instance PermissionKey_eq_dec : EqDecision PermissionKey.
Proof. solve_decision. Defined.

Inductive PermissionKeyError : Set :=
| EmptyKey
| EmptySegment
| WildcardNotFinal
| InvalidWildcardSegment
| InvalidSegment.

#[export] Instance PermissionKeyError_eq_dec : EqDecision PermissionKeyError.
Proof. solve_decision. Defined.

Definition valid_segment_char (c : ascii) : bool :=
  in_range "a" "z" c || in_range "0" "9" c || Ascii.eqb c "_" || Ascii.eqb c "-".

Definition validate_permission_segment (segment : string) : outcome PermissionKeyError () :=
  if all_chars valid_segment_char segment then Ok () else Err InvalidSegment.

(** The loop of [parse] over the segments; the last one is alone in the list. *)
Fixpoint check_segments (segments : list string) : outcome PermissionKeyError () :=
  match segments with
  | [] => Ok ()
  | segment :: rest =>
      if String.eqb segment "" then Err EmptySegment
      else if String.eqb segment "*" then
        match rest with [] => check_segments rest | _ => Err WildcardNotFinal end
      else if contains_char "*" segment then Err InvalidWildcardSegment
      else let? _ := validate_permission_segment segment in check_segments rest
  end.

Definition parse (value : string) : outcome PermissionKeyError PermissionKey :=
  if String.eqb value "" then Err EmptyKey
  else let? _ := check_segments (split "." value) in Ok (mk_key value).

Definition parse_segment (value : string) : outcome PermissionKeyError PermissionSegment :=
  if String.eqb value "" then Err EmptySegment
  else if contains_char "*" value then Err InvalidWildcardSegment
  else let? _ := validate_permission_segment value in Ok (mk_segment value).

Definition push_segment (value : string) (segment : PermissionSegment) : string :=
  (if String.eqb value "" then value else value ++ ".") ++ segment_str segment.

Definition from_segments (segments : list PermissionSegment) : outcome PermissionKeyError PermissionKey :=
  let value := foldl push_segment "" segments in
  if String.eqb value "" then Err EmptyKey else Ok (mk_key value).

Definition child (k : PermissionKey) (segment : PermissionSegment) : outcome PermissionKeyError PermissionKey :=
  parse (key_str k ++ "." ++ segment_str segment).

Definition matches (self other : PermissionKey) : bool :=
  if String.eqb (key_str self) "*" then true
  else match strip_suffix ".*" (key_str self) with
       | None => bool_decide (self = other)
       | Some prefix =>
           match strip_prefix prefix (key_str other) with
           | Some remaining => starts_with "." remaining
           | None => false
           end
       end.

Definition specificity (self : PermissionKey) : nat :=
  if String.eqb (key_str self) "*" then 0
  else length (split "." (match strip_suffix ".*" (key_str self) with Some prefix => prefix | None => key_str self end)).

Definition scopes (self key : PermissionKey) : bool :=
  if decide (self = key) then true
  else match strip_prefix (key_str self) (key_str key) with
       | Some remaining => starts_with "." remaining
       | None => false
       end.

(** ** Keys as sequences of segments *)

Definition segment_ok (s : string) : Prop := s <> "" /\ all_chars valid_segment_char s = true.
Definition segments (k : PermissionKey) : list string := split "." (key_str k).

(** A key is a sequence of plain segments and perhaps a final wildcard. *)
Definition key_shape (k : PermissionKey) (stem : list string) (wild : bool) : Prop :=
  Forall segment_ok stem /\ segments k = (stem ++ (if wild then ["*"] else []))%list.
Definition key_ok (k : PermissionKey) : Prop := exists stem wild, key_shape k stem wild.

Lemma valid_not c : c = "*"%char \/ c = "."%char -> forall x, valid_segment_char x = true -> negb (Ascii.eqb c x) = true.
Proof. intros Hc x Hx. apply negb_true_iff, Ascii.eqb_neq. intros ->. by destruct Hc as [-> | ->]. Qed.

Lemma segment_ok_no s c : c = "*"%char \/ c = "."%char -> segment_ok s -> all_chars (fun x => negb (Ascii.eqb c x)) s = true.
Proof. intros Hc [_ H]. eapply all_chars_impl, H. by apply valid_not. Qed.

Lemma segment_ok_not_star s : segment_ok s -> s <> "*".
Proof. intros H ->. by destruct H. Qed.

Lemma check_segments_cons s rest : segment_ok s -> check_segments (s :: rest) = check_segments rest.
Proof.
  intros H. cbn. destruct (String.eqb_spec s ""); [by destruct H|].
  destruct (String.eqb_spec s "*"); [by destruct (segment_ok_not_star s)|].
  unfold contains_char. rewrite (segment_ok_no s "*") by auto. cbn. unfold validate_permission_segment. by rewrite (proj2 H).
Qed.

Lemma check_segments_ok segs : check_segments segs = Ok tt <->
  exists stem (wild : bool), Forall segment_ok stem /\ segs = (stem ++ (if wild then ["*"] else []))%list.
Proof.
  split.
  - induction segs as [|s segs IH]; [by exists [], false|]. cbn.
    destruct (String.eqb_spec s "") as [|Hs]; [done|]. destruct (String.eqb_spec s "*") as [->|Hw].
    { destruct segs; [|done]. by exists [], true. }
    destruct (contains_char "*" s); [done|]. unfold validate_permission_segment.
    destruct (all_chars valid_segment_char s) eqn:E; [|done]. intros (stem & wild & Hf & ->)%IH.
    exists (s :: stem), wild. split; [by constructor|done].
  - intros (stem & wild & Hf & ->). induction Hf as [|s stem Hs Hf IH]; [by destruct wild|].
    cbn [app]. by rewrite check_segments_cons.
Qed.

Lemma check_segments_not_panic segs : check_segments segs <> Panic.
Proof.
  induction segs as [|s segs IH]; cbn; [done|]. repeat (case_match; try done).
  unfold validate_permission_segment. by destruct (all_chars _ s).
Qed.

Lemma segments_not_nil k : segments k <> [].
Proof. apply split_not_nil. Qed.

Lemma key_ok_not_empty k : key_ok k -> key_str k <> "".
Proof.
  intros (stem & wild & Hf & E) H. unfold segments in E. rewrite H in E. change (split "." "") with [""] in E.
  destruct Hf as [|s stem [Hs _] Hf]; [by destruct wild|]. by injection E as <- _.
Qed.

Lemma segments_inj k1 k2 : segments k1 = segments k2 -> k1 = k2.
Proof. destruct k1, k2. unfold segments. cbn. by intros ->%split_inj. Qed.

(** Parsing accepts exactly the well-formed keys, and keeps the text. *)
Lemma parse_ok v k : parse v = Ok k <-> k = mk_key v /\ key_ok k.
Proof.
  unfold parse. split.
  - destruct (String.eqb_spec v "") as [|Hv]; [done|]. destruct (check_segments _) as [[]|e|] eqn:E; cbn; try done.
    intros [= <-]. apply check_segments_ok in E as (stem & wild & Hf & E). split; [done|]. by exists stem, wild.
  - intros [-> Hk]. destruct (String.eqb_spec v "") as [->|Hv]; [by destruct (key_ok_not_empty _ Hk)|].
    destruct Hk as (stem & wild & Hf & E). unfold segments in E. cbn in E.
    rewrite (proj2 (check_segments_ok _)); [done|]. by exists stem, wild.
Qed.

Lemma parse_segment_ok v s : parse_segment v = Ok s <-> s = mk_segment v /\ segment_ok v.
Proof.
  unfold parse_segment, validate_permission_segment. split.
  - destruct (String.eqb_spec v "") as [|Hv]; [done|]. destruct (contains_char "*" v); [done|].
    destruct (all_chars valid_segment_char v) eqn:E; [|done]. by intros [= <-].
  - intros [-> Hs]. destruct (String.eqb_spec v "") as [->|Hv]; [by destruct Hs|].
    unfold contains_char. rewrite (segment_ok_no v "*") by auto. cbn. by rewrite (proj2 Hs).
Qed.

(** A wildcard key's stem, as the text gives it. *)
Lemma strip_wildcard k stem wild : key_shape k stem wild ->
  (wild = true -> stem <> [] -> strip_suffix ".*" (key_str k) = Some (join "." stem)) /\
  (wild = false -> key_str k <> "*" /\ strip_suffix ".*" (key_str k) = None) /\
  (wild = true -> stem = [] -> key_str k = "*").
Proof.
  intros [Hf E]. unfold segments in E. pose proof (join_split "." (key_str k)) as J. rewrite E in J.
  split_and!; intros Hw; subst wild.
  - intros Hs. apply strip_suffix_spec. rewrite <- J. by rewrite join_app.
  - rewrite app_nil_r in E. split; [intros Hk; rewrite Hk in E; cbn in E; subst stem; by apply Forall_cons in Hf as [[_ ?] _]|].
    destruct (strip_suffix ".*" (key_str k)) as [p|] eqn:Ep; [|done]. apply strip_suffix_spec in Ep. exfalso. rewrite Ep in E.
    change ".*" with (String "." "*") in E. rewrite split_app in E. change (split "." "*") with ["*"] in E.
    rewrite <- E in Hf. apply Forall_app in Hf as [_ Hf]. by apply Forall_cons in Hf as [[_ ?] _].
  - intros ->. by rewrite <- J.
Qed.

Lemma split_join_ok stem : stem <> [] -> Forall segment_ok stem -> split "." (join "." stem) = stem.
Proof. intros Hn Hf. apply split_join; [done|]. eapply Forall_impl; [exact Hf|]. intros s Hs. apply segment_ok_no; auto. Qed.

Lemma matches_shape p stem wild k : key_shape p stem wild ->
  matches p k = true <->
  (if wild then exists rest, rest <> [] /\ segments k = (stem ++ rest)%list else segments k = stem).
Proof.
  intros Hp. destruct (strip_wildcard _ _ _ Hp) as (H1 & H2 & H3). unfold matches. destruct wild.
  - destruct stem as [|s stem].
    + rewrite H3 by done. cbn. split; [|done]. intros _. exists (segments k). split; [apply segments_not_nil|done].
    + rewrite H1 by done. destruct (String.eqb_spec (key_str p) "*") as [E|_].
      { destruct Hp as [_ Hp]. unfold segments in Hp. rewrite E in Hp. change (split "." "*") with ["*"] in Hp.
        injection Hp as _ Hp. by destruct stem. }
      rewrite strict_prefix_parts. rewrite split_join_ok by (done || apply Hp). done.
  - destruct H2 as [Hn ->]; [done|]. destruct (String.eqb_spec (key_str p) "*"); [done|].
    rewrite bool_decide_eq_true. destruct Hp as [_ Hp]. rewrite app_nil_r in Hp. rewrite <- Hp.
    split; [by intros ->|intros H; symmetry; by apply segments_inj].
Qed.

Lemma specificity_shape p stem wild : key_shape p stem wild -> specificity p = length stem.
Proof.
  intros Hp. destruct (strip_wildcard _ _ _ Hp) as (H1 & H2 & H3). unfold specificity. destruct wild.
  - destruct stem as [|s stem]; [by rewrite H3|]. rewrite H1 by done.
    destruct (String.eqb_spec (key_str p) "*") as [E|_].
    { destruct Hp as [_ Hp]. unfold segments in Hp. rewrite E in Hp. change (split "." "*") with ["*"] in Hp.
      injection Hp as _ Hp. by destruct stem. }
    by rewrite split_join_ok by (done || apply Hp).
  - destruct H2 as [Hn ->]; [done|]. destruct (String.eqb_spec (key_str p) "*"); [done|].
    destruct Hp as [_ Hp]. rewrite app_nil_r in Hp. by rewrite <- Hp.
Qed.

Lemma scopes_segments p k : scopes p k = true <-> exists rest, segments k = (segments p ++ rest)%list.
Proof.
  unfold scopes. destruct (decide (p = k)) as [->|Hn]; [split; [exists []; by rewrite app_nil_r|done]|].
  rewrite strict_prefix_parts. split; [intros (rest & _ & E); by exists rest|]. intros [rest E]. exists rest. split; [|done].
  intros ->. rewrite app_nil_r in E. by apply segments_inj in E.
Qed.

(** ** Building keys *)

Definition psegment_ok (s : PermissionSegment) : Prop := segment_ok (segment_str s).

Lemma string_app_not_empty (a b : string) : a <> "" -> a ++ b <> "".
Proof. by destruct a. Qed.

Lemma join_push a b parts : join "." ((a ++ String "." b) :: parts) = a ++ String "." (join "." (b :: parts)).
Proof. destruct parts as [|p parts]; [done|]. rewrite !join_cons by done. by rewrite string_app_assoc. Qed.

Lemma push_segments value segs : value <> "" ->
  foldl push_segment value segs = join "." (value :: map segment_str segs).
Proof.
  revert value. induction segs as [|s segs IH]; intros value Hv; [done|]. cbn [foldl map].
  assert (push_segment value s = value ++ String "." (segment_str s)) as ->.
  { unfold push_segment. destruct (String.eqb_spec value ""); [done|]. by rewrite string_app_assoc. }
  rewrite IH by (by apply string_app_not_empty). by rewrite join_push, (join_cons "." value).
Qed.

Lemma from_segments_ok segs : Forall psegment_ok segs -> segs <> [] ->
  exists k, from_segments segs = Ok k /\ key_ok k /\ segments k = map segment_str segs.
Proof.
  intros Hf Hn. destruct segs as [|s segs]; [done|]. pose proof (Forall_inv Hf) as [Hs _].
  assert (Forall segment_ok (map segment_str (s :: segs))) as Hm by (apply Forall_map; exact Hf).
  assert (foldl push_segment "" (s :: segs) = join "." (map segment_str (s :: segs))) as E.
  { cbn [foldl map]. by rewrite push_segments. }
  exists (mk_key (join "." (map segment_str (s :: segs)))). unfold from_segments. rewrite E.
  assert (segments (mk_key (join "." (map segment_str (s :: segs)))) = map segment_str (s :: segs)) as Hsegs.
  { unfold segments. cbn [key_str]. by rewrite split_join_ok. }
  assert (key_ok (mk_key (join "." (map segment_str (s :: segs))))) as Hok.
  { exists (map segment_str (s :: segs)), false. split; [done|]. by rewrite app_nil_r. }
  destruct (String.eqb_spec (join "." (map segment_str (s :: segs))) "") as [H|_]; [|done].
  by destruct (key_ok_not_empty _ Hok).
Qed.

Lemma child_segments k s : psegment_ok s -> segments (mk_key (key_str k ++ "." ++ segment_str s)) = (segments k ++ [segment_str s])%list.
Proof.
  intros Hs. unfold segments. cbn [key_str]. change ("." ++ segment_str s) with (String "." (segment_str s)).
  rewrite split_app. f_equal. apply split_single. apply segment_ok_no; auto.
Qed.

Lemma check_segments_wildcard stem s : Forall segment_ok stem ->
  check_segments ((stem ++ ["*"]) ++ [s])%list = Err WildcardNotFinal.
Proof.
  rewrite <- app_assoc. cbn [app]. intros Hf. induction Hf as [|x stem Hx Hf IH]; [done|]. cbn [app]. by rewrite check_segments_cons.
Qed.

Lemma child_shape k stem wild s : key_shape k stem wild -> psegment_ok s ->
  if wild then child k s = Err WildcardNotFinal
  else exists k', child k s = Ok k' /\ key_ok k' /\ segments k' = (segments k ++ [segment_str s])%list.
Proof.
  intros Hk Hs. pose proof (child_segments k s Hs) as E. destruct wild.
  - unfold child, parse. assert (key_str k ++ "." ++ segment_str s <> "") as Hne.
    { apply string_app_not_empty. eapply key_ok_not_empty. by exists stem, true. }
    destruct (String.eqb_spec (key_str k ++ "." ++ segment_str s) ""); [done|]. unfold segments in E. cbn [key_str] in E.
    rewrite E. destruct Hk as [Hf Ek]. unfold segments in Ek. rewrite Ek. by rewrite check_segments_wildcard.
  - eexists. split; [|split; [|exact E]].
    + apply parse_ok. split; [done|]. exists (stem ++ [segment_str s])%list, false. destruct Hk as [Hf Ek]. split.
      * apply Forall_app. split; [done|]. by constructor.
      * rewrite E, Ek. by rewrite !app_nil_r.
    + exists (stem ++ [segment_str s])%list, false. destruct Hk as [Hf Ek]. split.
      * apply Forall_app. split; [done|]. by constructor.
      * rewrite E, Ek. by rewrite !app_nil_r.
Qed.

(** Keys are well-formed by construction, whatever builds them.
    [PermissionKey::parse] returns for every text, and accepts it exactly when
    its dotted parts are plain segments with at most one wildcard, at the end;
    [PermissionSegment::parse] accepts exactly the plain segments; a non-empty
    list of segments builds the key with those parts; and [child] appends its
    segment to a key, except to a wildcard, which it refuses as such. *)
Theorem keys_well_formed :
  (forall v k, parse v = Ok k <-> k = mk_key v /\ key_ok k) /\
  (forall v s, parse_segment v = Ok s <-> s = mk_segment v /\ segment_ok v) /\
  (forall v, parse v <> Panic) /\
  (forall segs, Forall psegment_ok segs -> segs <> [] ->
     exists k, from_segments segs = Ok k /\ key_ok k /\ segments k = map segment_str segs) /\
  (forall k stem wild s, key_shape k stem wild -> psegment_ok s ->
     if wild then child k s = Err WildcardNotFinal
     else exists k', child k s = Ok k' /\ key_ok k' /\ segments k' = (segments k ++ [segment_str s])%list).
Proof.
  split_and!; [exact parse_ok|exact parse_segment_ok| |exact from_segments_ok|exact child_shape].
  intros v. unfold parse. destruct (String.eqb v ""); [done|]. pose proof (check_segments_not_panic (split "." v)).
  by destruct (check_segments (split "." v)).
Qed.

(** What a parsed pattern matches, on segments.  Working on the text
    with [strip_suffix] and [strip_prefix], [matches] gives what comparing
    segment by segment gives: a plain key matches itself alone, and a wildcard
    matches the keys with its plain segments first and at least one more, so
    never a key that only starts with the same characters; its [specificity]
    counts its plain segments, so among the patterns that match a key a more
    specific one has more segments of the key. *)
Theorem matches_by_segments v p w k : parse v = Ok p -> parse w = Ok k ->
  exists (stem : list string) (wild : bool), Forall segment_ok stem /\ segments p = (stem ++ if wild then ["*"] else [])%list /\
    specificity p = length stem /\
    (matches p k = true <->
     if wild then exists rest, rest <> [] /\ segments k = (stem ++ rest)%list else segments k = stem).
Proof.
  intros [-> (stem & wild & Hp)]%parse_ok _. exists stem, wild. destruct Hp as [Hf Hp]. split_and!; [done|done| |].
  - by eapply specificity_shape.
  - by apply matches_shape.
Qed.

Module Example1.

Definition give : PermissionKey := mk_key "minecraft.command.give".
Definition commands : PermissionKey := mk_key "minecraft.command.*".

Lemma keys_well_formed_witness :
  parse "minecraft.command.*" = Ok commands /\ parse "minecraft.*.give" = Err WildcardNotFinal /\ key_ok commands.
Proof.
  split; [reflexivity|]. split; [reflexivity|].
  apply (proj1 keys_well_formed "minecraft.command.*"). reflexivity.
Defined.

Lemma matches_by_segments_witness :
  matches commands give = true /\
  exists (stem : list string) (wild : bool), Forall segment_ok stem /\ segments commands = (stem ++ if wild then ["*"] else [])%list /\
    specificity commands = length stem /\
    (matches commands give = true <->
     if wild then exists rest, rest <> [] /\ segments give = (stem ++ rest)%list else segments give = stem).
Proof.
  split; [reflexivity|].
  apply (matches_by_segments "minecraft.command.*" _ "minecraft.command.give"); reflexivity.
Defined.

End Example1.
