(* ===== verification/PermissionContext.v ===== *)
(** * Permission contexts and rule expressions

    Model of [steel-core/src/permission/context.rs] and [rule_expression.rs]:
    the contexts a permission rule is restricted to, their canonical
    AND-chains, the active context they are matched against, and the text
    [permission{key=value,...}] of a rule.  [PermissionRuleContexts], the
    one-field struct around the chain's vector, is the vector here. *)

From Stdlib Require Import Lia ZArith String Ascii.
From stdpp Require Import prelude list gmap sorting strings.
From S2P Require Import Prelude Collections Identifier Strings PermissionKey.

#[local] Open Scope string_scope.

(** ** Data *)

Record PermissionDomain := mk_domain { domain_str : string }.
Record PermissionContextValue := mk_value { value_str : string }.
Record PermissionContextKey := mk_context_key { context_key_str : string }.

#[export] Instance PermissionDomain_eq_dec : EqDecision PermissionDomain.
Proof. solve_decision. Defined.
#[export] Instance PermissionContextValue_eq_dec : EqDecision PermissionContextValue.
Proof. solve_decision. Defined.
#[export] Instance PermissionContextKey_eq_dec : EqDecision PermissionContextKey.
Proof. solve_decision. Defined.

Inductive PermissionRuleContext :=
| Global
| Domain (domain : PermissionDomain)
| World (world : Identifier)
| Custom (key : PermissionContextKey) (value : PermissionContextValue)
| All (contexts : list PermissionRuleContext).

#[export] Instance PermissionRuleContext_eq_dec : EqDecision PermissionRuleContext.
Proof.
  refine (fix go a b : Decision (a = b) :=
    match a, b with
    | Global, Global => left eq_refl
    | Domain d, Domain d' => cast_if (decide (d = d'))
    | World w, World w' => cast_if (decide (w = w'))
    | Custom k v, Custom k' v' => cast_if_and (decide (k = k')) (decide (v = v'))
    | All l, All l' => cast_if (@list_eq_dec _ go l l')
    | _, _ => right _
    end); clear go; abstract congruence.
Defined.

Inductive PermissionContextKeyError :=
| InvalidFormat
| EmptyNamespace
| EmptyPath
| InvalidNamespaceKey
| InvalidPathKey
| InvalidUnqualified (source : PermissionKeyError).

Inductive PermissionRuleContextError :=
| InvalidDomain (domain : string)
| InvalidValue (value : string)
| DuplicateDomain
| DuplicateWorld
| DuplicateCustomKey (key : PermissionContextKey)
| WorldDomainMismatch (domain world_domain : string).

(** ** Parsing the parts *)

Definition parse_domain (value : string) : outcome PermissionRuleContextError PermissionDomain :=
  if String.eqb value "" || negb (validate_namespace value) then Err (InvalidDomain value) else Ok (mk_domain value).

(** [char::is_whitespace] for some character of the string: the characters
    with the Unicode property White_Space, as their UTF-8 bytes.  An encoded
    character never begins inside another. *)
Definition whitespace_codes : list (list N) :=
  map (fun b => [b]) [9; 10; 11; 12; 13; 32]%N ++
  [[194; 133]; [194; 160]; [225; 154; 128]]%N ++
  map (fun b => [226; 128; b]%N) [128; 129; 130; 131; 132; 133; 134; 135; 136; 137; 138; 168; 169; 175]%N ++
  [[226; 129; 159]; [227; 128; 128]]%N.

Fixpoint begins_with_bytes (code : list N) (s : string) : bool :=
  match code, s with
  | [], _ => true
  | b :: code, String c s => (N_of_ascii c =? b)%N && begins_with_bytes code s
  | _, EmptyString => false
  end.

Fixpoint any_whitespace (s : string) : bool :=
  match s with
  | EmptyString => false
  | String _ rest => existsb (fun code => begins_with_bytes code s) whitespace_codes || any_whitespace rest
  end.

(** [value.chars().any(|c| c.is_whitespace() || "{},=".contains(c))] *)
Definition unquotable (value : string) : bool :=
  any_whitespace value || contains_char "{" value || contains_char "}" value ||
  contains_char "," value || contains_char "=" value.

Definition parse_value (value : string) : outcome PermissionRuleContextError PermissionContextValue :=
  if String.eqb value "" || unquotable value then Err (InvalidValue value) else Ok (mk_value value).

Definition validate_namespaced_context_key (value : string) : outcome PermissionContextKeyError () :=
  match split_once_at ":" value with
  | None => Err InvalidFormat
  | Some (namespace, path) =>
      if String.eqb namespace "" then Err EmptyNamespace
      else if String.eqb path "" then Err EmptyPath
      else if contains_char ":" path then Err InvalidFormat
      else if existsb (String.eqb "") (split "." namespace) then Err InvalidNamespaceKey
      else if existsb (String.eqb "") (split_on (fun c => Ascii.eqb "." c || Ascii.eqb "/" c) path) then Err InvalidPathKey
      else if negb (validate_namespace namespace) then Err InvalidNamespaceKey
      else if negb (validate_path path) then Err InvalidPathKey
      else Ok ()
  end.

Definition parse_context_key (value : string) : outcome PermissionContextKeyError PermissionContextKey :=
  if contains_char ":" value then
    let? _ := validate_namespaced_context_key value in Ok (mk_context_key value)
  else match parse_segment value with
       | Ok _ => Ok (mk_context_key value)
       | Err e => Err (InvalidUnqualified e)
       | Panic => Panic
       end.

Definition domain (value : string) : outcome PermissionRuleContextError PermissionRuleContext :=
  let? d := parse_domain value in Ok (Domain d).

Definition custom (key : PermissionContextKey) (value : string) : outcome PermissionRuleContextError PermissionRuleContext :=
  let? v := parse_value value in Ok (Custom key v).

(** ** Canonical chains *)

(** The loop of [push_unique_context]: [Ok true] is its early [Ok(())]. *)
Fixpoint check_existing (context : PermissionRuleContext) (contexts : list PermissionRuleContext) : outcome PermissionRuleContextError bool :=
  match contexts with
  | [] => Ok false
  | existing :: rest =>
      match context, existing with
      | Domain value, Domain current => if decide (value = current) then Ok true else Err DuplicateDomain
      | World value, World current => if decide (value = current) then Ok true else Err DuplicateWorld
      | Custom key value, Custom current_key current_value =>
          if decide (key = current_key) then
            if decide (value = current_value) then Ok true else Err (DuplicateCustomKey key)
          else check_existing context rest
      | _, _ => check_existing context rest
      end
  end.

Definition push_unique_context (contexts : list PermissionRuleContext) (context : PermissionRuleContext) : outcome PermissionRuleContextError (list PermissionRuleContext) :=
  let? present := check_existing context contexts in
  if (present : bool) then Ok contexts
  else Ok (if decide (context ∈ contexts) then contexts else (contexts ++ [context])%list).

Fixpoint push_all (flattened contexts : list PermissionRuleContext) : outcome PermissionRuleContextError (list PermissionRuleContext) :=
  match contexts with
  | [] => Ok flattened
  | context :: rest => let? flattened := push_unique_context flattened context in push_all flattened rest
  end.

Fixpoint flatten (flattened contexts : list PermissionRuleContext) : outcome PermissionRuleContextError (list PermissionRuleContext) :=
  match contexts with
  | [] => Ok flattened
  | context :: rest =>
      let? flattened :=
        match context with
        | Global => Ok flattened
        | All contexts => push_all flattened contexts
        | _ => push_unique_context flattened context
        end in
      flatten flattened rest
  end.

Fixpoint find_domain (contexts : list PermissionRuleContext) : option string :=
  match contexts with
  | [] => None
  | Domain d :: _ => Some (domain_str d)
  | _ :: rest => find_domain rest
  end.

Fixpoint find_world_domain (contexts : list PermissionRuleContext) : option string :=
  match contexts with
  | [] => None
  | World w :: _ => Some (namespace w)
  | _ :: rest => find_world_domain rest
  end.

Definition is_domain (c : PermissionRuleContext) : bool := match c with Domain _ => true | _ => false end.

Definition normalize_world_domain (contexts : list PermissionRuleContext) : outcome PermissionRuleContextError (list PermissionRuleContext) :=
  match find_domain contexts, find_world_domain contexts with
  | Some d, Some w =>
      if String.eqb d w then Ok (List.filter (fun c => negb (is_domain c)) contexts) else Err (WorldDomainMismatch d w)
  | _, _ => Ok contexts
  end.

Definition rule_context_rank (c : PermissionRuleContext) : Z :=
  match c with Domain _ => 0 | World _ => 1 | Custom _ _ => 2 | Global => 3 | All _ => 4 end.

Definition compare_rule_contexts (left right : PermissionRuleContext) : comparison :=
  then_with (Z.compare (rule_context_rank left) (rule_context_rank right))
    (match left, right with
     | Domain l, Domain r => String.compare (domain_str l) (domain_str r)
     | World l, World r => then_with (String.compare (namespace l) (namespace r)) (String.compare (path l) (path r))
     | Custom lk lv, Custom rk rv =>
         then_with (String.compare (context_key_str lk) (context_key_str rk)) (String.compare (value_str lv) (value_str rv))
     | _, _ => Eq
     end).

(** The final [match] of [all]. *)
Definition chain (sorted : list PermissionRuleContext) : PermissionRuleContext :=
  match sorted with [] => Global | [context] => context | sorted => All sorted end.

(** [PermissionRuleContext::all] *)
Definition all (contexts : list PermissionRuleContext) : outcome PermissionRuleContextError PermissionRuleContext :=
  let? flattened := flatten [] contexts in
  let? flattened := normalize_world_domain flattened in
  Ok (chain (sort_by compare_rule_contexts flattened)).

Fixpoint context_specificity (c : PermissionRuleContext) : nat :=
  match c with
  | Global => 0
  | Domain _ | Custom _ _ => 1
  | World _ => 2
  | All contexts => list_sum (map context_specificity contexts)
  end.

(** ** The active context *)

Record PermissionContext := mk_context {
  active_domain : option PermissionDomain;
  active_world : option Identifier;
  custom_contexts : list PermissionRuleContext
}.

Definition global_context : PermissionContext := mk_context None None [].

Definition for_world (world : Identifier) : PermissionContext :=
  mk_context (Some (mk_domain (namespace world))) (Some world) [].

Fixpoint context_matches (self : PermissionRuleContext) (context : PermissionContext) : bool :=
  match self with
  | Global => true
  | Domain d => bool_decide (active_domain context = Some d)
  | World w => bool_decide (active_world context = Some w)
  | Custom _ _ => bool_decide (self ∈ custom_contexts context)
  | All contexts => forallb (fun constraint => context_matches constraint context) contexts
  end.

(** The loop of [add_custom_context]: [Ok true] is its early [Ok(())]. *)
Fixpoint check_custom (key : PermissionContextKey) (value : PermissionContextValue) (existing : list PermissionRuleContext) : outcome PermissionRuleContextError bool :=
  match existing with
  | [] => Ok false
  | Custom existing_key existing_value :: rest =>
      if decide (existing_key = key) then
        if decide (existing_value = value) then Ok true else Err (DuplicateCustomKey key)
      else check_custom key value rest
  | _ :: rest => check_custom key value rest
  end.

Definition add_custom_context (self : PermissionContext) (key : PermissionContextKey) (value : string) : outcome PermissionRuleContextError PermissionContext :=
  let? context := custom key value in
  match context with
  | Custom key value =>
      let? present := check_custom key value (custom_contexts self) in
      Ok (if (present : bool) then self
          else mk_context (active_domain self) (active_world self) (custom_contexts self ++ [context])%list)
  | _ => Ok self
  end.

Fixpoint append_rule_context (rule_context : PermissionRuleContext) (self : PermissionContext) : outcome PermissionRuleContextError PermissionContext :=
  match rule_context with
  | Global => Ok self
  | Domain d => Ok (mk_context (Some d) (active_world self) (custom_contexts self))
  | World w => Ok (mk_context (Some (mk_domain (namespace w))) (Some w) (custom_contexts self))
  | Custom key value => add_custom_context self key (value_str value)
  | All contexts =>
      (fix append_each (contexts : list PermissionRuleContext) (self : PermissionContext) : outcome PermissionRuleContextError PermissionContext :=
         match contexts with
         | [] => Ok self
         | context :: rest => let? self := append_rule_context context self in append_each rest self
         end) contexts self
  end.

Definition from_rule_context (rule_context : PermissionRuleContext) : outcome PermissionRuleContextError PermissionContext :=
  append_rule_context rule_context global_context.

(** ** Well-formed contexts *)

Definition typed_leaf (c : PermissionRuleContext) : Prop :=
  match c with
  | Domain d => parse_domain (domain_str d) = Ok d
  | World _ => True
  | Custom k v => parse_context_key (context_key_str k) = Ok k /\ parse_value (value_str v) = Ok v
  | _ => False
  end.

(** What a leaf constrains; a chain binds each of these once. *)
Definition slot (c : PermissionRuleContext) : Z * string :=
  match c with Custom k _ => (2, context_key_str k) | _ => (rule_context_rank c, "") end.

Definition canonical (l : list PermissionRuleContext) : Prop :=
  Forall typed_leaf l /\ StronglySorted (ord_le compare_rule_contexts) l /\ NoDup (map slot l) /\
  (find_domain l = None \/ find_world_domain l = None).

Definition well_formed (c : PermissionRuleContext) : Prop :=
  match c with
  | Global => True
  | All l => canonical l /\ (2 <= length l)%nat
  | c => typed_leaf c
  end.

(** An active world is in the active domain. *)
Definition context_ok (ctx : PermissionContext) : Prop :=
  match active_world ctx with Some w => active_domain ctx = Some (mk_domain (namespace w)) | None => True end.

(** *** The order *)

Definition sort_key (c : PermissionRuleContext) : Z * (string * string) :=
  (rule_context_rank c,
   match c with
   | Domain d => (domain_str d, "")
   | World w => (namespace w, path w)
   | Custom k v => (context_key_str k, value_str v)
   | _ => ("", "")
   end).

Definition pair_text_cmp (a b : string * string) : comparison :=
  then_with (String.compare a.1 b.1) (String.compare a.2 b.2).
Definition key_cmp (a b : Z * (string * string)) : comparison :=
  then_with (Z.compare a.1 b.1) (pair_text_cmp a.2 b.2).

#[local] Instance pair_text_cmp_laws : OrdLaws pair_text_cmp.
Proof.
  exact (then_with_laws _ _ (OrdLaws0 := contramap_laws String.compare fst) (OrdLaws1 := contramap_laws String.compare snd)).
Qed.

#[local] Instance key_cmp_laws : OrdLaws key_cmp.
Proof.
  exact (then_with_laws _ _ (OrdLaws0 := contramap_laws Z.compare fst) (OrdLaws1 := contramap_laws pair_text_cmp snd)).
Qed.

Lemma compare_by_key a b : compare_rule_contexts a b = key_cmp (sort_key a) (sort_key b).
Proof.
  unfold compare_rule_contexts, key_cmp, pair_text_cmp. destruct a, b; try done; cbn.
  by destruct (String.compare _ _).
Qed.

#[local] Instance compare_rule_contexts_laws : OrdLaws compare_rule_contexts.
Proof.
  pose proof (contramap_laws key_cmp sort_key) as [H1 H2]. split.
  - intros x y. rewrite !compare_by_key. apply H1.
  - intros x y z. rewrite !compare_by_key. apply H2.
Qed.

Lemma pair_text_cmp_eq a b : pair_text_cmp a b = Eq -> a = b.
Proof.
  destruct a as [a1 a2], b as [b1 b2]. unfold pair_text_cmp, then_with. cbn.
  destruct (String.compare a1 b1) eqn:E; try done. intros E2.
  by rewrite (String.compare_eq_iff _ _ E), (String.compare_eq_iff _ _ E2).
Qed.

Lemma compare_leaves_eq a b : typed_leaf a -> compare_rule_contexts a b = Eq -> a = b.
Proof.
  rewrite compare_by_key. unfold key_cmp, then_with. destruct (Z.compare_spec (sort_key a).1 (sort_key b).1) as [E| |]; try done.
  intros Ha H%pair_text_cmp_eq. destruct a as [|[]|[]|[] []|], b as [|[]|[]|[] []|]; try done; cbn in *; by simplify_eq.
Qed.

Lemma leaves_sort_unique l l' : Forall typed_leaf l -> l ≡ₚ l' ->
  sort_by compare_rule_contexts l = sort_by compare_rule_contexts l'.
Proof.
  intros Hl Hp. apply (StronglySorted_unique_strong (ord_le compare_rule_contexts)); [|by apply sort_by_sorted, _..|].
  - intros x1 x2 H1 _ H12 H21. rewrite (sort_by_perm compare_rule_contexts) in H1. rewrite Forall_forall in Hl.
    apply compare_leaves_eq; [by apply Hl|]. unfold ord_le in *. rewrite (ord_opp compare_rule_contexts x1 x2) in H21.
    by destruct (compare_rule_contexts x1 x2).
  - by rewrite !(sort_by_perm compare_rule_contexts).
Qed.

(** *** Pushing *)

Lemma check_existing_cases c l : typed_leaf c -> Forall typed_leaf l ->
  match check_existing c l with
  | Ok true => c ∈ l
  | Ok false => slot c ∉ map slot l
  | Err _ => exists e, e ∈ l /\ slot e = slot c /\ e <> c
  | Panic => False
  end.
Proof.
  intros Hc. induction 1 as [|e l He Hl IH]; cbn [check_existing]; [by apply not_elem_of_nil|].
  assert (slot c <> slot e -> match check_existing c l with
    | Ok true => c ∈ e :: l | Ok false => slot c ∉ map slot (e :: l)
    | Err _ => exists e0, e0 ∈ e :: l /\ slot e0 = slot c /\ e0 <> c | Panic => False end) as Hskip.
  { intros Hn. destruct (check_existing c l) as [[]|err|]; [by right| |by destruct IH as (e' & ? & ? & ?); exists e'; split_and!; [right|..]|done].
    cbn. by rewrite not_elem_of_cons. }
  destruct c as [|[d]|w|[k] v|], e as [|[d']|w'|[k'] v'|]; try done; try (by apply Hskip).
  - destruct (decide _) as [[= ->]|]; [by left|]. exists (Domain (mk_domain d')). split_and!; [by left|done|congruence].
  - destruct (decide _) as [->|]; [by left|]. exists (World w'). split_and!; [by left|done|congruence].
  - destruct (decide (mk_context_key k = _)) as [[= ->]|Hk]; [|apply Hskip; cbn; congruence].
    destruct (decide _) as [->|]; [by left|]. exists (Custom (mk_context_key k') v'). split_and!; [by left|done|congruence].
Qed.

Definition compatible (l : list PermissionRuleContext) : Prop := forall a b, a ∈ l -> b ∈ l -> slot a = slot b -> a = b.

Lemma push_all_cases cs : forall acc, Forall typed_leaf acc -> Forall typed_leaf cs -> NoDup (map slot acc) ->
  match push_all acc cs with
  | Ok r => compatible (acc ++ cs)%list /\ NoDup (map slot r) /\ forall x, x ∈ r <-> x ∈ acc \/ x ∈ cs
  | Err _ => ~ compatible (acc ++ cs)%list
  | Panic => False
  end.
Proof.
  induction cs as [|c cs IH]; intros acc Ha Hcs Hnd; cbn [push_all].
  { rewrite app_nil_r. split_and!; [|done|set_solver]. intros a b Hin Hin' E.
    apply list_elem_of_lookup in Hin as [i Hi], Hin' as [j Hj].
    assert (i = j) as ->; [|congruence]. eapply (NoDup_lookup (map slot acc)); [done| |]; rewrite list_lookup_fmap, ?Hi, ?Hj; cbn; by rewrite ?E. }
  apply Forall_cons in Hcs as [Hc Hcs]. pose proof (check_existing_cases c acc Hc Ha) as Hx. unfold push_unique_context.
  destruct (check_existing c acc) as [[]|e|]; cbn [obind].
  - specialize (IH acc Ha Hcs Hnd). destruct (push_all acc cs) as [r|e|]; [|intros H; apply IH|done].
    + destruct IH as (H1 & H2 & H3). split_and!; [|done|set_solver]. intros a b Hin Hin'. apply H1; set_solver.
    + intros a b Hin Hin'. apply H; set_solver.
  - destruct (decide (c ∈ acc)) as [Hin|Hin]; [destruct Hx; by apply list_elem_of_fmap_2|].
    assert (Forall typed_leaf (acc ++ [c])) as Ha' by (apply Forall_app; split; [done|by constructor]).
    assert (NoDup (map slot (acc ++ [c]))) as Hnd'.
    { rewrite map_app. apply NoDup_app. split_and!; [done| |apply NoDup_singleton]. intros x H1 H2%list_elem_of_singleton. by subst. }
    specialize (IH _ Ha' Hcs Hnd'). rewrite <- app_assoc in IH. destruct (push_all (acc ++ [c]) cs) as [r|e|]; [|done|done].
    destruct IH as (H1 & H2 & H3). split_and!; [done|done|set_solver].
  - intros H. destruct Hx as (e' & Hin & E & Hne). apply Hne, H; set_solver.
  - done.
Qed.

Definition leaves (c : PermissionRuleContext) : list PermissionRuleContext :=
  match c with Global => [] | All l => l | c => [c] end.
Definition all_leaves (cs : list PermissionRuleContext) : list PermissionRuleContext := concat (map leaves cs).

Lemma push_all_app a b : forall acc, push_all acc (a ++ b)%list = (let? acc := push_all acc a in push_all acc b).
Proof. induction a as [|x a IH]; intros acc; [done|]. cbn. destruct (push_unique_context acc x); cbn; [apply IH|done..]. Qed.

Lemma flatten_leaves cs : forall acc, flatten acc cs = push_all acc (all_leaves cs).
Proof.
  induction cs as [|c cs IH]; intros acc; [done|]. cbn [flatten]. unfold all_leaves. cbn [map concat]. rewrite push_all_app.
  destruct c; cbn [leaves push_all]; try (destruct (push_unique_context _ _); cbn; [apply IH|done..]); cbn [obind]; [apply IH|].
  destruct (push_all acc contexts); cbn; [apply IH|done..].
Qed.

Lemma well_formed_leaves c : well_formed c -> Forall typed_leaf (leaves c).
Proof. destruct c; cbn [leaves well_formed]; [by constructor|by intros; constructor..|by intros [[? _] _]]. Qed.

Lemma all_leaves_typed cs : Forall well_formed cs -> Forall typed_leaf (all_leaves cs).
Proof.
  induction 1 as [|c cs Hc Hcs IH]; [constructor|]. unfold all_leaves. cbn. apply Forall_app. split; [by apply well_formed_leaves|done].
Qed.

(** *** Normalising *)

Lemma find_domain_some l d : find_domain l = Some d -> Domain (mk_domain d) ∈ l.
Proof. induction l as [|[|[x]| | |] l IH]; cbn; try (intros; right; by apply IH); [done|]. intros [= ->]. by left. Qed.

Lemma find_world_some l d : find_world_domain l = Some d -> exists p, World (mk_id d p) ∈ l.
Proof.
  induction l as [|[| |[n p]| |] l IH]; cbn; try (intros H; destruct (IH H) as [p' ?]; exists p'; by right); [done|].
  intros [= ->]. exists p. by left.
Qed.

Lemma find_domain_in l d : NoDup (map slot l) -> Domain (mk_domain d) ∈ l -> find_domain l = Some d.
Proof.
  induction l as [|c l IH]; [by intros _ ?%not_elem_of_nil|]. cbn [map]. intros [Hn Hnd]%NoDup_cons [<-|Hin]%elem_of_cons; [done|].
  specialize (IH Hnd Hin). destruct c; cbn; try done. apply (list_elem_of_fmap_2 slot) in Hin. by destruct Hn.
Qed.

Lemma find_world_in l d p : NoDup (map slot l) -> World (mk_id d p) ∈ l -> find_world_domain l = Some d.
Proof.
  induction l as [|c l IH]; [by intros _ ?%not_elem_of_nil|]. cbn [map]. intros [Hn Hnd]%NoDup_cons [<-|Hin]%elem_of_cons; [done|].
  specialize (IH Hnd Hin). destruct c; cbn; try done. apply (list_elem_of_fmap_2 slot) in Hin. by destruct Hn.
Qed.

Lemma find_perm l l' : NoDup (map slot l) -> l ≡ₚ l' -> find_domain l = find_domain l' /\ find_world_domain l = find_world_domain l'.
Proof.
  intros Hnd Hp. assert (NoDup (map slot l')) as Hnd' by (by rewrite <- Hp). split.
  - destruct (find_domain l) as [d|] eqn:E.
    + apply find_domain_some in E. rewrite Hp in E. by rewrite (find_domain_in _ d).
    + destruct (find_domain l') as [d|] eqn:E'; [|done]. apply find_domain_some in E'. rewrite <- Hp in E'.
      by rewrite (find_domain_in _ d) in E.
  - destruct (find_world_domain l) as [d|] eqn:E.
    + apply find_world_some in E as [p E]. rewrite Hp in E. by rewrite (find_world_in _ d p).
    + destruct (find_world_domain l') as [d|] eqn:E'; [|done]. apply find_world_some in E' as [p E']. rewrite <- Hp in E'.
      by rewrite (find_world_in _ d p) in E.
Qed.

Lemma filter_elem (f : PermissionRuleContext -> bool) x l : x ∈ List.filter f l <-> x ∈ l /\ f x = true.
Proof. rewrite !list_elem_of_In. apply filter_In. Qed.

Lemma filter_perm (f : PermissionRuleContext -> bool) l l' : l ≡ₚ l' -> List.filter f l ≡ₚ List.filter f l'.
Proof. induction 1 as [|x l l' _ IH|x y l|]; cbn; [done| | |by etrans]; repeat case_match; try done; [by rewrite IH|by apply Permutation_swap]. Qed.

Lemma filter_slots (f : PermissionRuleContext -> bool) l : NoDup (map slot l) -> NoDup (map slot (List.filter f l)).
Proof.
  induction l as [|c l IH]; [done|]. cbn [map]. intros [Hn Hnd]%NoDup_cons. cbn. destruct (f c); [|by apply IH].
  cbn [map]. apply NoDup_cons. split; [|by apply IH]. intros (y & Hy & Hin)%list_elem_of_fmap_1. apply filter_elem in Hin as [Hin _].
  apply Hn. rewrite Hy. by apply (list_elem_of_fmap_2 slot).
Qed.

Lemma normalize_ok l r : Forall typed_leaf l -> NoDup (map slot l) -> normalize_world_domain l = Ok r ->
  Forall typed_leaf r /\ NoDup (map slot r) /\ (find_domain r = None \/ find_world_domain r = None) /\
  (l <> [] -> r <> []) /\
  (forall l', l ≡ₚ l' -> exists r', normalize_world_domain l' = Ok r' /\ r ≡ₚ r') /\
  (forall ctx, context_ok ctx -> forallb (fun c => context_matches c ctx) r = forallb (fun c => context_matches c ctx) l).
Proof.
  intros Hl Hnd. unfold normalize_world_domain.
  destruct (find_domain l) as [d|] eqn:Ed; destruct (find_world_domain l) as [w|] eqn:Ew.
  2-4: intros [= <-]; split_and!; auto; intros l' Hp; destruct (find_perm l l') as [E1 E2]; [done..|]; rewrite <- E1, <- E2, ?Ed, ?Ew; by eauto.
  destruct (String.eqb_spec d w) as [<-|]; [|done]. intros [= <-].
  apply find_world_some in Ew as [p Ew]. split_and!.
  - rewrite Forall_forall in Hl |- *. intros x [Hx _]%filter_elem. by apply Hl.
  - by apply filter_slots.
  - left. destruct (find_domain (List.filter _ l)) as [d'|] eqn:E; [|done]. by apply find_domain_some, filter_elem in E as [_ ?].
  - intros _ E. apply (not_elem_of_nil (World (mk_id d p))). rewrite <- E. by apply filter_elem.
  - intros l' Hp. destruct (find_perm l l') as [<- <-]; [done..|]. rewrite Ed.
    rewrite (find_world_in l d p Hnd Ew), String.eqb_refl. eexists. split; [done|]. by apply filter_perm.
  - intros ctx Hctx. apply eq_true_iff_eq. rewrite !forallb_forall.
    split; intros H x Hx; [|apply filter_In in Hx as [Hx _]; by apply H].
    destruct (is_domain x) eqn:Ex; [|by apply H, filter_In; rewrite Ex].
    assert (In (World (mk_id d p)) (List.filter (fun c => negb (is_domain c)) l)) as Hw by (apply filter_In; split; [by apply list_elem_of_In|done]).
    apply H in Hw. cbn in Hw. apply bool_decide_eq_true in Hw. unfold context_ok in Hctx. rewrite Hw in Hctx. cbn in Hctx.
    destruct x as [|[d']| | |]; try done. apply list_elem_of_In in Hx. apply find_domain_in in Hx; [|done].
    cbn. rewrite bool_decide_eq_true, Hctx. congruence.
Qed.

Lemma all_unfold cs : all cs =
  let? flattened := push_all [] (all_leaves cs) in
  let? flattened := normalize_world_domain flattened in
  Ok (chain (sort_by compare_rule_contexts flattened)).
Proof. unfold all. rewrite flatten_leaves. reflexivity. Qed.

Lemma chain_matches l ctx : context_matches (chain l) ctx = forallb (fun c => context_matches c ctx) l.
Proof. destruct l as [|c [|c' l]]; [done| |done]. symmetry. apply andb_true_r. Qed.

Lemma chain_well_formed l : canonical l -> well_formed (chain l).
Proof.
  intros Hc. destruct l as [|c [|c' l]]; [done| |split; [done|cbn; lia]]. destruct Hc as [Hc _]. apply Forall_inv in Hc. by destruct c.
Qed.

Lemma leaves_chain l : Forall typed_leaf l -> leaves (chain l) = l.
Proof. destruct l as [|c [|c' l]]; [done| |done]. intros Hc%Forall_inv. by destruct c. Qed.

Lemma forallb_perm {A} (f : A -> bool) l l' : l ≡ₚ l' -> forallb f l = forallb f l'.
Proof. intros Hp. apply eq_true_iff_eq. rewrite !forallb_forall. split; intros H x Hx; apply H; [by rewrite Hp|by rewrite <- Hp]. Qed.

Lemma forallb_same {A} (f : A -> bool) l l' : (forall x, x ∈ l <-> x ∈ l') -> forallb f l = forallb f l'.
Proof. intros Hp. apply eq_true_iff_eq. rewrite !forallb_forall. split; intros H x Hx; apply H, list_elem_of_In, Hp, list_elem_of_In, Hx. Qed.

Lemma leaves_match cs ctx : forallb (fun c => context_matches c ctx) (all_leaves cs) = forallb (fun c => context_matches c ctx) cs.
Proof.
  induction cs as [|c cs IH]; [done|]. unfold all_leaves. cbn [map concat forallb]. rewrite forallb_app. unfold all_leaves in IH. rewrite IH.
  f_equal. destruct c; cbn; by rewrite ?andb_true_r.
Qed.

Lemma canonical_sorted r : Forall typed_leaf r -> NoDup (map slot r) -> find_domain r = None \/ find_world_domain r = None ->
  canonical (sort_by compare_rule_contexts r).
Proof.
  intros Hf Hnd Hd. pose proof (sort_by_perm compare_rule_contexts r) as Hp. split_and!.
  - by rewrite Hp.
  - by apply sort_by_sorted, _.
  - by rewrite Hp.
  - destruct (find_perm _ _ Hnd (symmetry Hp)) as [<- <-]. done.
Qed.

(** What [all] does, on the leaves of its contexts. *)
Lemma all_ok cs c : Forall well_formed cs -> all cs = Ok c ->
  exists r, push_all [] (all_leaves cs) = Ok r /\ compatible (all_leaves cs) /\ NoDup (map slot r) /\ Forall typed_leaf r /\
    (forall x, x ∈ r <-> x ∈ all_leaves cs) /\
    exists n, normalize_world_domain r = Ok n /\ c = chain (sort_by compare_rule_contexts n).
Proof.
  intros Hcs. rewrite all_unfold. pose proof (all_leaves_typed cs Hcs) as Ht.
  pose proof (push_all_cases (all_leaves cs) [] ltac:(constructor) Ht ltac:(constructor)) as H.
  destruct (push_all [] (all_leaves cs)) as [r|e|]; cbn [obind]; try done. destruct H as (H1 & H2 & H3).
  destruct (normalize_world_domain r) as [n|e|] eqn:En; cbn [obind]; try done. intros [= <-].
  assert (forall x, x ∈ r <-> x ∈ all_leaves cs) as He by set_solver.
  exists r. split_and!; [done..| |done|by eauto]. rewrite Forall_forall in Ht |- *. intros x Hx. by apply Ht, He.
Qed.

(** *** Building the active context *)

Definition one_place (l : list PermissionRuleContext) : Prop := forall d w, Domain d ∈ l -> World w ∈ l -> False.

Lemma canonical_one_place l : canonical l -> one_place l.
Proof.
  intros (_ & _ & Hnd & Hd) [d] [n p] H1 H2. rewrite (find_domain_in l d), (find_world_in l n p) in Hd by done. by destruct Hd.
Qed.

(** The context holds what the leaves [p] ask, and nothing else. *)
Definition built (p : list PermissionRuleContext) (ctx : PermissionContext) : Prop :=
  Forall (fun c => context_matches c ctx = true) p /\ (forall c, c ∈ custom_contexts ctx -> c ∈ p) /\
  context_ok ctx /\ (forall w, active_world ctx = Some w -> World w ∈ p).

Lemma check_custom_fresh k v p : (forall v', Custom k v' ∉ p) -> check_custom k v p = Ok false.
Proof.
  induction p as [|c p IH]; intros H; [done|]. assert (check_custom k v p = Ok false) as E by (apply IH; set_solver).
  destruct c as [| | |k' v'|]; cbn; try done. destruct (decide (k' = k)) as [->|]; [|done]. destruct (H v'). by left.
Qed.

Lemma slot_fresh p c : NoDup (map slot (p ++ [c])%list) -> forall c', c' ∈ p -> slot c' <> slot c.
Proof.
  rewrite map_app. intros (_ & H & _)%NoDup_app c' Hin E. apply (H (slot c')); [by apply (list_elem_of_fmap_2 slot)|].
  rewrite E. by left.
Qed.

Lemma append_leaf p c ctx : typed_leaf c -> Forall typed_leaf p -> NoDup (map slot (p ++ [c])%list) -> one_place (p ++ [c])%list -> built p ctx ->
  exists ctx', append_rule_context c ctx = Ok ctx' /\ built (p ++ [c])%list ctx'.
Proof.
  intros Hc Hp Hnd Ho (Hm & Hcu & Hok & Hw). pose proof (slot_fresh p c Hnd) as Hf. rewrite Forall_forall in Hm, Hp.
  destruct c as [|d|w|k v|]; try done; cbn [append_rule_context].
  - eexists. split; [done|]. split_and!; cbn; try set_solver.
    + rewrite Forall_app, Forall_singleton. split; [|by apply bool_decide_eq_true]. apply Forall_forall. intros c Hin.
      specialize (Hm _ Hin). specialize (Hf _ Hin). specialize (Hp _ Hin). by destruct c.
    + unfold context_ok. cbn. destruct (active_world ctx) as [w|] eqn:E; [|done]. exfalso. apply (Ho d w); set_solver.
  - eexists. split; [done|]. split_and!; cbn; try set_solver.
    rewrite Forall_app, Forall_singleton. split; [|by apply bool_decide_eq_true]. apply Forall_forall. intros c Hin.
    specialize (Hm _ Hin). specialize (Hp _ Hin). specialize (Hf _ Hin). destruct c as [|d|w'| |]; try done.
    exfalso. apply (Ho d w); set_solver.
  - unfold add_custom_context, custom. destruct Hc as [_ ->]. cbn [obind]. rewrite check_custom_fresh; cbn [obind].
    2:{ intros v' Hin. apply (Hf _ (Hcu _ Hin)). done. }
    eexists. split; [done|]. split_and!; cbn; try set_solver.
    rewrite Forall_app, Forall_singleton. split; [|apply bool_decide_eq_true; set_solver]. apply Forall_forall. intros c Hin.
      specialize (Hm _ Hin). specialize (Hp _ Hin). destruct c as [| | |k' v'|]; try done. cbn in *.
      apply bool_decide_eq_true in Hm. apply bool_decide_eq_true. set_solver.
Qed.

Lemma append_leaves l : forall p ctx, Forall typed_leaf (p ++ l)%list -> NoDup (map slot (p ++ l)%list) -> one_place (p ++ l)%list -> built p ctx ->
  exists ctx', append_rule_context (All l) ctx = Ok ctx' /\ built (p ++ l)%list ctx'.
Proof.
  induction l as [|c l IH]; intros p ctx Ht Hnd Ho Hb; [rewrite app_nil_r; by exists ctx|].
  assert ((p ++ c :: l) = ((p ++ [c]) ++ l))%list as E by (by rewrite <- app_assoc). rewrite E in *.
  destruct (append_leaf p c ctx) as (ctx' & E1 & Hb'); [..|done|].
  - apply Forall_app in Ht as [[_ Ht]%Forall_app _]. by apply Forall_inv in Ht.
  - by apply Forall_app in Ht as [[? _]%Forall_app _].
  - rewrite map_app in Hnd. by apply NoDup_app in Hnd as [? _].
  - intros d w H1 H2. apply (Ho d w); set_solver.
  - destruct (IH (p ++ [c])%list ctx') as (ctx2 & E2 & Hb2); [done..|]. exists ctx2. split; [|done].
    cbn [append_rule_context] in E2 |- *. by rewrite E1.
Qed.

Lemma built_matches l ctx : built l ctx -> context_matches (All l) ctx = true.
Proof. intros [H _]. apply forallb_forall. intros x Hx. rewrite Forall_forall in H. by apply H, list_elem_of_In. Qed.

(** Building the active context a rule asks for succeeds, in a state the rule
    matches. *)
Lemma from_rule_context_matches c : well_formed c ->
  exists ctx, from_rule_context c = Ok ctx /\ context_ok ctx /\ context_matches c ctx = true.
Proof.
  unfold from_rule_context. intros Hc. destruct (decide (c = Global)) as [->|Hn]; [by exists global_context|].
  assert (built [] global_context) as Hb by (split_and!; [constructor|set_solver|done|done]).
  destruct (leaves c) as [|x l] eqn:El. { destruct c; try done. cbn in *. subst. destruct Hc as [_ Hc]. cbn in Hc. lia. }
  destruct c as [| | | |l']; [done|..].
  1-3: match goal with |- context [append_rule_context ?c _] => destruct (append_leaf [] c global_context) as (ctx & E & Hb') end;
    [done|constructor|apply NoDup_singleton| |done|]; [intros d' w' H1 H2; cbn in *; set_solver|];
    exists ctx; split_and!; [done|apply Hb'|]; apply built_matches in Hb'; cbn [forallb context_matches app] in *; by apply andb_true_iff in Hb' as [? _].
  destruct Hc as [Hc _]. destruct (append_leaves l' [] global_context) as (ctx & E & Hb').
  - apply Hc.
  - apply Hc.
  - by apply canonical_one_place.
  - done.
  - exists ctx. split_and!; [done|apply Hb'|by apply built_matches in Hb'].
Qed.

Lemma sort_sorted_id {A} (cmp : A -> A -> comparison) l : StronglySorted (ord_le cmp) l -> sort_by cmp l = l.
Proof.
  induction 1 as [|x l Hs IH Hx]; [done|]. cbn. unfold sort_by in IH. rewrite IH. destruct Hx as [|y l Hy Hx]; [done|].
  cbn. unfold ord_le in Hy. by destruct (cmp x y).
Qed.

Lemma push_all_fresh l : forall acc, Forall typed_leaf (acc ++ l)%list -> NoDup (map slot (acc ++ l)%list) -> push_all acc l = Ok (acc ++ l)%list.
Proof.
  induction l as [|c l IH]; intros acc Ht Hnd; [by rewrite app_nil_r|].
  assert ((acc ++ c :: l) = ((acc ++ [c]) ++ l))%list as E by (by rewrite <- app_assoc). rewrite E in *.
  assert (NoDup (map slot (acc ++ [c])%list)) as Hac by (rewrite map_app in Hnd; by apply NoDup_app in Hnd as [? _]).
  pose proof (slot_fresh acc c Hac) as Hf. apply Forall_app in Ht as H. destruct H as [[Ha Hc%Forall_inv]%Forall_app _].
  pose proof (check_existing_cases c acc Hc Ha) as Hx. cbn [push_all]. unfold push_unique_context.
  destruct (check_existing c acc) as [[]|e|]; cbn [obind]; [by destruct (Hf c)| |by destruct Hx as (e' & ? & ? & _); destruct (Hf e')|done].
  rewrite decide_False by (intros Hin; by apply (Hf c)). by rewrite IH.
Qed.

Lemma all_leaves_self s : Forall typed_leaf s -> all_leaves s = s.
Proof.
  unfold all_leaves. induction 1 as [|c s Hc Hs IH]; [done|]. cbn [map concat]. rewrite IH. by destruct c.
Qed.

(** A canonical list is its own chain. *)
Lemma all_of_leaves s : canonical s -> all s = Ok (chain s).
Proof.
  intros (Ht & Hs & Hnd & Hd). rewrite all_unfold, all_leaves_self by done.
  rewrite push_all_fresh by done. cbn [obind app]. assert (normalize_world_domain s = Ok s) as ->.
  { unfold normalize_world_domain. destruct Hd as [-> | ->]; [done|]. by destruct (find_domain s). }
  cbn [obind]. by rewrite sort_sorted_id.
Qed.

Lemma all_of_canonical s : canonical s -> all [chain s] = Ok (chain s).
Proof.
  intros Hc. transitivity (all s); [|by apply all_of_leaves]. rewrite !all_unfold, (all_leaves_self s) by apply Hc.
  unfold all_leaves. cbn [map concat]. by rewrite app_nil_r, leaves_chain by apply Hc.
Qed.

Lemma all_well_formed cs c : Forall well_formed cs -> all cs = Ok c ->
  well_formed c /\ forall x, x ∈ leaves c -> x ∈ all_leaves cs.
Proof.
  intros Hcs H. destruct (all_ok cs c Hcs H) as (r & _ & _ & Hnd & Ht & He & n & En & ->).
  destruct (normalize_ok r n Ht Hnd En) as (Htn & Hndn & Hd & _).
  split; [by apply chain_well_formed, canonical_sorted|]. intros x. rewrite leaves_chain by (by rewrite (sort_by_perm compare_rule_contexts)).
  rewrite (sort_by_perm compare_rule_contexts). intros Hx. apply He. unfold normalize_world_domain in En.
  destruct (find_domain r), (find_world_domain r); try (by simplify_eq).
  destruct (String.eqb _ _); [|done]. injection En as <-. by apply filter_elem in Hx as [Hx _].
Qed.

Lemma all_not_panic cs : Forall well_formed cs -> all cs <> Panic.
Proof.
  intros Hcs. rewrite all_unfold.
  pose proof (push_all_cases (all_leaves cs) [] ltac:(constructor) (all_leaves_typed cs Hcs) ltac:(constructor)) as H.
  destruct (push_all [] (all_leaves cs)) as [r|e|]; cbn [obind]; try done.
  unfold normalize_world_domain. destruct (find_domain r), (find_world_domain r); try done. by destruct (String.eqb _ _).
Qed.

Lemma all_leaves_perm cs cs' : cs ≡ₚ cs' -> all_leaves cs ≡ₚ all_leaves cs'.
Proof.
  unfold all_leaves. induction 1 as [|x l l' _ IH|x y l|]; cbn; [done|by rewrite IH| |by etrans]. by rewrite !app_assoc, (Permutation_app_comm (leaves x)).
Qed.

Lemma NoDup_slots l : NoDup (map slot l) -> NoDup l.
Proof. apply NoDup_fmap_1. Qed.

Lemma all_perm cs cs' c : Forall well_formed cs -> all cs = Ok c -> cs ≡ₚ cs' -> all cs' = Ok c.
Proof.
  intros Hcs H Hp. destruct (all_ok cs c Hcs H) as (r & _ & Hco & Hnd & Ht & He & n & En & ->).
  rewrite all_unfold. apply all_leaves_perm in Hp. pose proof (all_leaves_typed cs Hcs) as Ht'. rewrite Hp in Ht'.
  pose proof (push_all_cases (all_leaves cs') [] ltac:(constructor) Ht' ltac:(constructor)) as Hx.
  destruct (push_all [] (all_leaves cs')) as [r'|e|]; cbn [obind]; [| |done].
  2:{ destruct Hx. intros a b Ha Hb. cbn in *. rewrite <- Hp in Ha, Hb. by apply Hco. }
  destruct Hx as (_ & Hnd' & He'). assert (r ≡ₚ r') as Hr.
  { apply NoDup_Permutation; [by apply NoDup_slots..|]. intros x. rewrite He, He', Hp. set_solver. }
  destruct (normalize_ok r n Ht Hnd En) as (Htn & _ & _ & _ & Hn & _). destruct (Hn r' Hr) as (n' & -> & Hnn). cbn [obind].
  by rewrite (leaves_sort_unique n n').
Qed.

(** A chain of contexts is a canonical conjunction.  When
    [PermissionRuleContext::all] accepts contexts, its result is well-formed (flat,
    sorted, each key bound once, no domain beside a world); it is the same
    whatever the order the contexts come in, and it is its own chain; it matches an
    active context exactly when each of the contexts does, although the chain
    has dropped duplicates and a world's domain; and the active context built
    from it exists and is one it matches. *)
Theorem all_canonical cs c : Forall well_formed cs -> all cs = Ok c ->
  well_formed c /\ (forall cs', cs ≡ₚ cs' -> all cs' = Ok c) /\ all [c] = Ok c /\
  (forall ctx, context_ok ctx -> context_matches c ctx = forallb (fun c => context_matches c ctx) cs) /\
  exists ctx, from_rule_context c = Ok ctx /\ context_ok ctx /\ context_matches c ctx = true.
Proof.
  intros Hcs H. destruct (all_ok cs c Hcs H) as (r & _ & _ & Hnd & Ht & He & n & En & E).
  destruct (normalize_ok r n Ht Hnd En) as (Htn & Hndn & Hd & _ & _ & Hm).
  assert (canonical (sort_by compare_rule_contexts n)) as Hcan by (by apply canonical_sorted).
  assert (well_formed c) as Hc by (rewrite E; by apply chain_well_formed).
  split_and!; [done| | | |by apply from_rule_context_matches].
  - intros cs' Hp. by apply (all_perm cs).
  - rewrite E. by apply all_of_canonical.
  - intros ctx Hctx. rewrite E, chain_matches, (forallb_perm _ _ _ (sort_by_perm compare_rule_contexts n)), (Hm ctx Hctx).
    rewrite (forallb_same _ _ _ He). apply leaves_match.
Qed.

Module Example1.

Definition overworld : PermissionRuleContext := World (mk_id "lobby" "overworld").
Definition lobby : PermissionRuleContext := Domain (mk_domain "lobby").
Definition vip : PermissionRuleContext := Custom (mk_context_key "plugin:rank") (mk_value "vip").

Lemma all_canonical_witness :
  all [vip; lobby; overworld; vip] = Ok (All [overworld; vip]) /\
  all [lobby; overworld; vip; vip] = Ok (All [overworld; vip]).
Proof.
  assert (all [vip; lobby; overworld; vip] = Ok (All [overworld; vip])) as H by reflexivity.
  split; [exact H|]. apply (all_canonical [vip; lobby; overworld; vip]).
  - repeat (constructor; [done|]). constructor.
  - exact H.
  - exact (Permutation_app_comm [vip] [lobby; overworld; vip]).
Defined.

End Example1.

