(* ===== verification/RuleExpression.v ===== *)
(** * Permission rule and metadata expressions

    Model of [steel-core/src/permission/rule_expression.rs] and of the
    expressions of [metadata.rs]: the text [key{context=value,...}] that
    configuration files and commands use for a rule, its parser and its
    printer.  The two expressions differ in what parses their key. *)

From Stdlib Require Import Lia ZArith String Ascii.
From stdpp Require Import prelude list gmap sorting strings.
From S2P Require Import Prelude Collections Identifier Strings PermissionKey PermissionContext.

#[local] Open Scope string_scope.

(** ** Data *)

Record PermissionRuleExpression := mk_rule { rule_key : PermissionKey; rule_context : PermissionRuleContext }.
Record PermissionMetadataExpression := mk_metadata { metadata_key : Identifier; metadata_context : PermissionRuleContext }.

Inductive PermissionExpressionContextError :=
| EmptyContext
| InvalidContextEntry (entry : string)
| InvalidContextValue (key value : string)
| DuplicateContextKey (key : string)
| InvalidDomainEntry (value : string)
| InvalidWorldEntry (value : string)
| InvalidContextKey (key : string) (source : PermissionContextKeyError)
| InvalidRuleContext (source : PermissionRuleContextError).

(** [PermissionRuleExpressionError] and [PermissionMetadataExpressionError]:
    [InContext] stands for the constructors their [from_context_error] maps
    those of [PermissionExpressionContextError] to, one by one. *)
Inductive PermissionExpressionError (KeyError : Type) :=
| InvalidKey (value : string) (source : KeyError)
| UnclosedContext
| InContext (source : PermissionExpressionContextError).
Arguments InvalidKey {KeyError} value source.
Arguments UnclosedContext {KeyError}.
Arguments InContext {KeyError} source.

Inductive PermissionMetadataKeyError := MetaInvalidFormat | MetaEmptyNamespace | MetaEmptyPath | MetaInvalidNamespace | MetaInvalidPath.

(** ** Parsing *)

Definition parse_domain_context (value : string) : outcome PermissionExpressionContextError PermissionRuleContext :=
  if String.eqb value "" || negb (validate_namespace value) then Err (InvalidDomainEntry value)
  else map_err InvalidRuleContext (domain value).

Definition parse_world_context (value : string) : outcome PermissionExpressionContextError PermissionRuleContext :=
  match split_once_at ":" value with
  | None => Err (InvalidWorldEntry value)
  | Some (domain, name) =>
      if String.eqb domain "" || String.eqb name "" || (contains_char ":" name || contains_char "/" name) ||
         negb (validate_namespace domain) || negb (validate_path name)
      then Err (InvalidWorldEntry value)
      else Ok (World (mk_id domain name))
  end.

Definition parse_custom_context (key value : string) : outcome PermissionExpressionContextError PermissionRuleContext :=
  let? k := map_err (InvalidContextKey key) (parse_context_key key) in
  map_err InvalidRuleContext (custom k value).

Definition parse_keyed_context (key value : string) : outcome PermissionExpressionContextError PermissionRuleContext :=
  if String.eqb key "domain" then parse_domain_context value
  else if String.eqb key "world" then parse_world_context value
  else parse_custom_context key value.

(** The loop of [parse_context]; [seen_keys] holds the keys of the entries before. *)
Fixpoint parse_entries (seen_keys : gset string) (entries : list string) : outcome PermissionExpressionContextError (list PermissionRuleContext) :=
  match entries with
  | [] => Ok []
  | entry :: rest =>
      match split_once_at "=" entry with
      | None => Err (InvalidContextEntry entry)
      | Some (key, value) =>
          if String.eqb key "" || String.eqb value "" then Err (InvalidContextEntry entry)
          else if unquotable value then Err (InvalidContextValue key value)
          else if decide (key ∈ seen_keys) then Err (DuplicateContextKey key)
          else let? context := parse_keyed_context key value in
               let? contexts := parse_entries ({[key]} ∪ seen_keys) rest in
               Ok (context :: contexts)
      end
  end.

Definition parse_context (value : string) : outcome PermissionExpressionContextError PermissionRuleContext :=
  if String.eqb value "" then Err EmptyContext
  else let? contexts := parse_entries ∅ (split "," value) in
       map_err InvalidRuleContext (all contexts).

(** The common shape of the two [parse] functions. *)
Definition parse_expression {E K} (parse_key : string -> outcome E K) (value : string) : outcome (PermissionExpressionError E) (K * PermissionRuleContext) :=
  match find "{" value with
  | None => let? key := map_err (InvalidKey value) (parse_key value) in Ok (key, Global)
  | Some context_start =>
      if negb (ends_with "}" value) then Err UnclosedContext
      else
        let? key_value := slice value 0 context_start in
        let? key := map_err (InvalidKey key_value) (parse_key key_value) in
        let? context_value := slice value (context_start + 1) (String.length value - 1) in
        let? context := map_err InContext (parse_context context_value) in
        Ok (key, context)
  end.

Definition parse_rule (value : string) : outcome (PermissionExpressionError PermissionKeyError) PermissionRuleExpression :=
  let? p := parse_expression PermissionKey.parse value in Ok (mk_rule p.1 p.2).

Definition parse_permission_metadata_key (value : string) : outcome PermissionMetadataKeyError Identifier :=
  match split_once_at ":" value with
  | None => Err MetaInvalidFormat
  | Some (namespace, path) =>
      if String.eqb namespace "" then Err MetaEmptyNamespace
      else if String.eqb path "" then Err MetaEmptyPath
      else if contains_char ":" path then Err MetaInvalidFormat
      else if existsb (String.eqb "") (split "." namespace) then Err MetaInvalidNamespace
      else if existsb (String.eqb "") (split_on (fun c => Ascii.eqb "." c || Ascii.eqb "/" c) path) then Err MetaInvalidPath
      else if negb (validate_namespace namespace) then Err MetaInvalidNamespace
      else if negb (validate_path path) then Err MetaInvalidPath
      else Ok (mk_id namespace path)
  end.

Definition parse_metadata (value : string) : outcome (PermissionExpressionError PermissionMetadataKeyError) PermissionMetadataExpression :=
  let? p := parse_expression parse_permission_metadata_key value in Ok (mk_metadata p.1 p.2).

(** ** Printing *)

(** The text written and whether the next entry is still the first. *)
Definition write_context_entry (first : bool) (key value : string) : string * bool :=
  ((if first then "" else ",") ++ key ++ "=" ++ value, false).

Fixpoint write_context_entries (context : PermissionRuleContext) (first : bool) : string * bool :=
  match context with
  | Global => ("", first)
  | Domain d => write_context_entry first "domain" (domain_str d)
  | World w => write_context_entry first "world" (to_string w)
  | Custom key value => write_context_entry first (context_key_str key) (value_str value)
  | All contexts =>
      (fix write_each (contexts : list PermissionRuleContext) (first : bool) : string * bool :=
         match contexts with
         | [] => ("", first)
         | context :: rest =>
             let '(text, first) := write_context_entries context first in
             let '(more, first) := write_each rest first in
             (text ++ more, first)
         end) contexts first
  end.

Definition write_context (context : PermissionRuleContext) : string :=
  match context with
  | Global => ""
  | _ => "{" ++ (write_context_entries context true).1 ++ "}"
  end.

Definition display_rule (e : PermissionRuleExpression) : string :=
  key_str (rule_key e) ++ write_context (rule_context e).
Definition display_metadata (e : PermissionMetadataExpression) : string :=
  to_string (metadata_key e) ++ write_context (metadata_context e).

(** ** Characters *)

(** The characters of every key, domain and world. *)
Definition plain_char (c : ascii) : bool := valid_char c || Ascii.eqb c ":".
Definition plain (s : string) : Prop := all_chars plain_char s = true.

Definition reserved (c : ascii) : Prop := c = "{"%char \/ c = "}"%char \/ c = ","%char \/ c = "="%char.

Lemma plain_char_not_reserved c x : reserved c -> plain_char x = true -> Ascii.eqb c x = false.
Proof. intros Hc Hx. apply Ascii.eqb_neq. intros <-. by destruct Hc as [-> | [-> | [-> | ->]]]. Qed.

Lemma plain_free s c : plain s -> reserved c -> free_of c s.
Proof. intros Hs Hc. eapply all_chars_impl, Hs. intros x Hx. by rewrite (plain_char_not_reserved c x). Qed.

Lemma plain_no_whitespace s : plain s -> any_whitespace s = false.
Proof.
  unfold plain. induction s as [|c s IH]; [done|]. cbn [all_chars]. intros [Hc Hs]%andb_true_iff.
  cbn [any_whitespace]. rewrite (IH Hs), orb_false_r. clear IH Hs. destruct c as [[] [] [] [] [] [] [] []]; try discriminate Hc; reflexivity.
Qed.

Lemma plain_quotable s : plain s -> unquotable s = false.
Proof.
  intros Hs. unfold unquotable. rewrite plain_no_whitespace by done.
  rewrite !(proj2 (contains_char_false _ _)) by (apply plain_free; unfold reserved; auto). done.
Qed.

Lemma plain_app a b : plain a -> plain b -> plain (a ++ b).
Proof.
  intros Ha Hb. induction a as [|c a IH]; [done|]. apply andb_true_iff in Ha as [Hc Ha]. rewrite string_app_cons.
  apply andb_true_iff. split; [done|by apply IH].
Qed.

Lemma plain_cons c s : plain_char c = true -> plain s -> plain (String c s).
Proof. intros Hc Hs. by apply andb_true_iff. Qed.

Lemma namespace_plain s : validate_namespace s = true -> plain s.
Proof.
  unfold validate_namespace. intros [_ H]%andb_true_iff. eapply all_chars_impl, H. intros c Hc. unfold plain_char, valid_char. by rewrite Hc.
Qed.

Lemma path_plain s : validate_path s = true -> plain s.
Proof. intros H. eapply all_chars_impl, H. intros c Hc. unfold plain_char. by rewrite Hc. Qed.

Lemma segment_char_plain c : valid_segment_char c = true -> plain_char c = true.
Proof.
  unfold valid_segment_char, plain_char, valid_char, valid_namespace_char. intros H.
  destruct (in_range "a" "z" c), (in_range "0" "9" c), (Ascii.eqb c "_"), (Ascii.eqb c "-"); done.
Qed.

Lemma id_plain w : validate_namespace (namespace w) = true -> validate_path (path w) = true -> plain (to_string w).
Proof. intros Hn Hp. apply plain_app; [by apply namespace_plain|]. apply plain_cons; [done|by apply path_plain]. Qed.

Lemma context_key_plain s k : parse_context_key s = Ok k -> k = mk_context_key s /\ plain s /\ s <> "".
Proof.
  unfold parse_context_key. destruct (contains_char ":" s).
  - unfold validate_namespaced_context_key. destruct (split_once_at ":" s) as [[n p]|] eqn:E; [|done].
    repeat (case_match; [done|]). cbn [obind]. intros [= <-]. apply split_once_at_spec in E as [-> _].
    split_and!; [done| |by destruct n]. apply plain_app; [apply namespace_plain|apply plain_cons; [done|apply path_plain]];
      by apply negb_false_iff.
  - destruct (parse_segment s) as [t|e|] eqn:E; [|done..]. intros [= <-]. apply parse_segment_ok in E as [_ [Hs H]].
    split_and!; [done| |done]. eapply all_chars_impl, H. apply segment_char_plain.
Qed.

Lemma value_quotable s v : parse_value s = Ok v -> v = mk_value s /\ s <> "" /\ unquotable s = false.
Proof.
  unfold parse_value. destruct (String.eqb_spec s ""); [done|]. cbn. destruct (unquotable s); [done|]. by intros [= <-].
Qed.

Lemma key_free k : key_ok k -> free_of "{" (key_str k).
Proof.
  intros (stem & wild & Hf & E). unfold segments in E. rewrite <- (join_split "." (key_str k)), E.
  assert (Forall (free_of "{") (stem ++ (if wild then ["*"] else []))) as H.
  { apply Forall_app. split; [|by destruct wild; repeat constructor]. eapply Forall_impl; [exact Hf|].
    intros s [_ Hs]. eapply all_chars_impl, Hs. intros x Hx%segment_char_plain. rewrite plain_char_not_reserved; [done|by left|done]. }
  clear E Hf. induction H as [|s l Hs Hl IH]; [done|]. destruct l as [|t l]; [done|]. rewrite join_cons by done.
  apply free_of_app. split; [done|]. exact IH.
Qed.

(** ** Entries *)

Definition key_text (c : PermissionRuleContext) : string :=
  match c with Domain _ => "domain" | World _ => "world" | Custom k _ => context_key_str k | _ => "" end.
Definition value_text (c : PermissionRuleContext) : string :=
  match c with Domain d => domain_str d | World w => to_string w | Custom _ v => value_str v | _ => "" end.
Definition entry_text (c : PermissionRuleContext) : string := key_text c ++ String "=" (value_text c).

(** The leaves the syntax can name. *)
Definition printable (c : PermissionRuleContext) : Prop :=
  typed_leaf c /\
  match c with
  | World w => namespace w <> "" /\ path w <> "" /\ validate_namespace (namespace w) = true /\
               validate_path (path w) = true /\ free_of "/" (path w)
  | Custom k _ => context_key_str k <> "domain" /\ context_key_str k <> "world"
  | _ => True
  end.

Lemma to_string_split w : free_of ":" (namespace w) -> split_once_at ":" (to_string w) = Some (namespace w, path w).
Proof. intros Hn. unfold to_string. by apply split_once_at_app. Qed.

Lemma valid_no_colon s : all_chars valid_char s = true -> free_of ":" s.
Proof.
  intros H. eapply all_chars_impl, H. intros x Hx. apply negb_true_iff, Ascii.eqb_neq. by intros <-.
Qed.

Lemma namespace_no_colon s : validate_namespace s = true -> free_of ":" s.
Proof.
  unfold validate_namespace. intros [_ H]%andb_true_iff. apply valid_no_colon. eapply all_chars_impl, H.
  intros c Hc. unfold valid_char. by rewrite Hc.
Qed.

Lemma printable_texts c : printable c ->
  plain (key_text c) /\ key_text c <> "" /\ value_text c <> "" /\ unquotable (value_text c) = false.
Proof.
  intros [Ht Hp]. destruct c as [|[d]|w|[k] v|]; try done; cbn in *.
  - unfold parse_domain in Ht. destruct (String.eqb_spec d "") as [|Hd]; [done|]. cbn in Ht.
    destruct (validate_namespace d) eqn:E; [|done]. split_and!; [done..|]. by apply plain_quotable, namespace_plain.
  - destruct Hp as (Hn & _ & Hn' & Hp & _). split_and!; [done..| |by apply plain_quotable, id_plain].
    unfold to_string. by apply string_app_not_empty.
  - destruct Ht as [Hk Hv]. apply context_key_plain in Hk as (_ & Hk & Hk'). apply value_quotable in Hv as (_ & Hv & Hv'). by split_and!.
Qed.

(** A printed entry is read back as the context it came from. *)
Lemma parse_keyed_printable c : printable c -> parse_keyed_context (key_text c) (value_text c) = Ok c.
Proof.
  intros [Ht Hp]. destruct c as [|[d]|w|[k] v|]; try done; unfold parse_keyed_context; cbn [key_text value_text String.eqb].
  - cbn in Ht. unfold parse_domain in Ht. cbn. unfold parse_domain_context, domain, parse_domain. cbn [domain_str].
    by destruct (String.eqb d "" || negb (validate_namespace d)).
  - destruct Hp as (Hn & Hp & Hn' & Hp' & Hs). cbn. unfold parse_world_context.
    rewrite to_string_split by (by apply namespace_no_colon). rewrite Hn', Hp'.
    rewrite (proj2 (String.eqb_neq _ _) Hn), (proj2 (String.eqb_neq _ _) Hp), !(proj2 (contains_char_false _ _)); [by destruct w|done|].
    by apply valid_no_colon.
  - destruct Hp as [Hd Hw]. cbn [context_key_str] in *. rewrite (proj2 (String.eqb_neq _ _) Hd), (proj2 (String.eqb_neq _ _) Hw).
    destruct Ht as [Hk Hv]. unfold parse_custom_context, custom. cbn [context_key_str] in Hk. by rewrite Hk, Hv.
Qed.

Lemma printable_slots l : Forall printable l -> NoDup (map slot l) -> NoDup (map key_text l).
Proof.
  intros Hp Hnd. induction Hp as [|c l Hc Hp IH]; [constructor|]. cbn [map] in *. apply NoDup_cons in Hnd as [Hn Hnd].
  apply NoDup_cons. split; [|by apply IH]. intros (c' & E & Hin)%list_elem_of_fmap_1. apply Hn.
  assert (slot c = slot c') as ->; [|by apply (list_elem_of_fmap_2 slot)].
  rewrite Forall_forall in Hp. apply Hp in Hin. destruct Hc as [Hc Hc'], Hin as [Hi Hi'].
  destruct c as [| | |[]|], c' as [| | |[]|]; try done; cbn in *; try congruence; destruct Hc', Hi'; congruence.
Qed.

Lemma parse_entries_printable l : forall seen, Forall printable l -> NoDup (map key_text l) ->
  (forall k, k ∈ seen -> k ∉ map key_text l) -> parse_entries seen (map entry_text l) = Ok l.
Proof.
  induction l as [|c l IH]; intros seen Hp Hnd Hs; [done|]. cbn [map] in *. apply Forall_cons in Hp as [Hc Hp].
  apply NoDup_cons in Hnd as [Hn Hnd]. destruct (printable_texts c Hc) as (Hk & Hk' & Hv & Hq).
  cbn [parse_entries]. unfold entry_text at 1. rewrite split_once_at_app by (apply plain_free; [done|unfold reserved; auto]).
  rewrite (proj2 (String.eqb_neq _ _) Hk'), (proj2 (String.eqb_neq _ _) Hv), Hq. cbn [orb].
  rewrite decide_False by (intros Hin; apply (Hs _ Hin); by left). rewrite parse_keyed_printable by done. cbn [obind].
  rewrite IH; [done..|]. intros k [->%elem_of_singleton|Hin]%elem_of_union; [done|]. intros Hin'. apply (Hs _ Hin). by right.
Qed.

Lemma write_entries_join l : Forall typed_leaf l -> forall first,
  write_context_entries (All l) first =
  match l with [] => ("", first) | _ => ((if first then "" else ",") ++ join "," (map entry_text l), false) end.
Proof.
  assert (forall c first, typed_leaf c -> write_context_entries c first = ((if first then "" else ",") ++ entry_text c, false)) as Hleaf.
  { intros c first Hc. by destruct c. }
  induction 1 as [|c l Hc Hl IH]; intros first; [done|]. specialize (IH false). cbn [write_context_entries] in IH |- *.
  rewrite Hleaf by done. rewrite IH. destruct l as [|c' l]; [by rewrite string_app_nil_r|].
  cbn [map]. rewrite (join_cons "," (entry_text c)) by done. by rewrite string_app_assoc.
Qed.

Lemma write_context_leaves c : well_formed c -> c <> Global ->
  write_context c = "{" ++ join "," (map entry_text (leaves c)) ++ "}" /\ leaves c <> [].
Proof.
  intros Hc Hn. destruct c as [|d|w|k v|l]; [done|by split..|]. destruct Hc as [Hc Hl]. unfold write_context.
  rewrite write_entries_join by apply Hc. destruct l as [|c l]; [cbn in Hl; lia|]. by split.
Qed.

Lemma entry_free c ch : printable c -> ch = ","%char -> free_of ch (entry_text c).
Proof.
  intros Hc ->. destruct (printable_texts c Hc) as (Hk & _ & _ & Hq). apply free_of_app. split; [apply plain_free; [done|unfold reserved; auto]|].
  unfold unquotable in Hq. rewrite !orb_false_iff in Hq. destruct Hq as [[_ Hq] _]. by apply contains_char_false in Hq.
Qed.

Lemma canonical_single c : typed_leaf c -> canonical [c].
Proof. intros Hc. split_and!; [by repeat constructor..|apply NoDup_singleton|]. destruct c; auto. Qed.

Lemma well_formed_chain c : well_formed c -> canonical (leaves c) /\ c = chain (leaves c).
Proof.
  intros Hc. destruct c as [|d|w|k v|l]; [|by split; [apply canonical_single|]..|].
  { split; [|done]. split_and!; try constructor. done. }
  destruct Hc as [Hc Hl]. split; [done|]. destruct l as [|a [|b l]]; cbn in Hl; try lia. done.
Qed.

Lemma parse_context_printed c : well_formed c -> Forall printable (leaves c) -> c <> Global ->
  parse_context (join "," (map entry_text (leaves c))) = Ok c.
Proof.
  intros Hc Hp Hn. destruct (write_context_leaves c Hc Hn) as [_ Hne]. destruct (well_formed_chain c Hc) as [Hcan E].
  unfold parse_context. assert (join "," (map entry_text (leaves c)) <> "") as Hj.
  { destruct (leaves c) as [|a l]; [done|]. apply Forall_inv, printable_texts in Hp as (_ & Hk & _).
    destruct l as [|b l]; cbn [map]; [|rewrite join_cons by done]; apply string_app_not_empty; [done|]. unfold entry_text. by apply string_app_not_empty. }
  rewrite (proj2 (String.eqb_neq _ _) Hj). rewrite split_join.
  - rewrite parse_entries_printable; [|done|by apply printable_slots, Hcan|set_solver]. cbn [obind].
    rewrite all_of_leaves by done. by rewrite <- E.
  - by destruct (leaves c).
  - apply Forall_map. eapply Forall_impl; [exact Hp|]. intros x Hx. by apply entry_free.
Qed.

(** ** What parsing returns *)

Lemma parse_keyed_sound key value c : value <> "" -> unquotable value = false ->
  parse_keyed_context key value = Ok c -> printable c.
Proof.
  intros Hv Hq. unfold parse_keyed_context. destruct (String.eqb_spec key "domain") as [->|Hd].
  - unfold parse_domain_context, domain. destruct (_ || _) eqn:E; [done|]. unfold parse_domain. rewrite E. cbn. intros [= <-].
    split; [|done]. cbn. unfold parse_domain. by rewrite E.
  - destruct (String.eqb_spec key "world") as [->|Hw].
    + unfold parse_world_context. destruct (split_once_at ":" value) as [[d n]|]; [|done].
      destruct (_ || _) eqn:E; [done|]. intros [= <-]. rewrite !orb_false_iff, !negb_false_iff in E.
      destruct E as [[[[E1 E2] [_ E3]] E4] E5]. split; [done|]. cbn. split_and!; try done; [by apply String.eqb_neq..|by apply contains_char_false].
    + unfold parse_custom_context, custom. destruct (parse_context_key key) as [k|e|] eqn:Ek; [|done..]. cbn [obind map_err].
      unfold parse_value. rewrite Hq, orb_false_r, (proj2 (String.eqb_neq _ _) Hv). cbn. intros [= <-].
      pose proof (proj1 (context_key_plain _ _ Ek)) as ->. split; [split; [done|]|done]. cbn.
      unfold parse_value. by rewrite Hq, orb_false_r, (proj2 (String.eqb_neq _ _) Hv).
Qed.

Lemma parse_context_key_not_panic key : parse_context_key key <> Panic.
Proof.
  unfold parse_context_key, validate_namespaced_context_key, parse_segment, validate_permission_segment.
  repeat (case_match; cbn [obind]; try done).
Qed.

Lemma parse_keyed_not_panic key value : parse_keyed_context key value <> Panic.
Proof.
  unfold parse_keyed_context, parse_domain_context, parse_world_context, parse_custom_context, domain, custom, parse_domain, parse_value.
  pose proof (parse_context_key_not_panic key). destruct (String.eqb key "domain"); [|destruct (String.eqb key "world")].
  - by destruct (_ || _).
  - destruct (split_once_at ":" value) as [[]|]; [|done]. by destruct (_ || _).
  - destruct (parse_context_key key); cbn; try done. by destruct (_ || _).
Qed.

Lemma parse_entries_sound entries : forall seen l, parse_entries seen entries = Ok l -> Forall printable l.
Proof.
  induction entries as [|entry rest IH]; intros seen l; cbn [parse_entries]; [by intros [= <-]; constructor|].
  destruct (split_once_at "=" entry) as [[key value]|]; [|done]. destruct (String.eqb key "" || String.eqb value "") eqn:E; [done|].
  apply orb_false_iff in E as [_ Hv%String.eqb_neq]. destruct (unquotable value) eqn:Hq; [done|]. destruct (decide _); [done|].
  destruct (parse_keyed_context key value) as [c|e|] eqn:Ec; [|done..]. cbn [obind].
  destruct (parse_entries _ rest) as [cs|e|] eqn:Er; [|done..]. cbn [obind]. intros [= <-].
  constructor; [by eapply parse_keyed_sound|by eapply IH].
Qed.

Lemma parse_entries_not_panic entries : forall seen, parse_entries seen entries <> Panic.
Proof.
  induction entries as [|entry rest IH]; intros seen; cbn [parse_entries]; [done|]. destruct (split_once_at "=" entry) as [[key value]|]; [|done].
  repeat (case_match; [done|]). pose proof (parse_keyed_not_panic key value). destruct (parse_keyed_context key value) as [c|e|]; [|done..]. cbn [obind].
  specialize (IH ({[key]} ∪ seen)). by destruct (parse_entries _ rest).
Qed.

Lemma printable_well_formed l : Forall printable l -> Forall well_formed l.
Proof. intros H. eapply Forall_impl; [exact H|]. intros c [Hc _]. by destruct c. Qed.

Lemma parse_context_sound value c : parse_context value = Ok c -> well_formed c /\ Forall printable (leaves c).
Proof.
  unfold parse_context. destruct (String.eqb value ""); [done|].
  destruct (parse_entries ∅ (split "," value)) as [l|e|] eqn:E; [|done..]. cbn [obind]. apply parse_entries_sound in E.
  destruct (all l) as [c'|e|] eqn:Ea; [|done..]. cbn. intros [= ->].
  destruct (all_well_formed l c (printable_well_formed l E) Ea) as [Hc Hl]. split; [done|]. apply Forall_forall. intros x Hx%Hl.
  rewrite all_leaves_self in Hx; [by rewrite Forall_forall in E; apply E|]. eapply Forall_impl; [exact E|]. by intros y [Hy _].
Qed.

Lemma parse_context_not_panic value : parse_context value <> Panic.
Proof.
  unfold parse_context. destruct (String.eqb value ""); [done|]. pose proof (parse_entries_not_panic (split "," value) ∅).
  destruct (parse_entries ∅ (split "," value)) as [l|e|] eqn:E; [|done..]. cbn [obind]. apply parse_entries_sound in E.
  pose proof (all_not_panic l (printable_well_formed l E)). by destruct (all l).
Qed.

Lemma ends_with_app c a b : b <> "" -> ends_with c (a ++ b) = ends_with c b.
Proof.
  intros Hb. induction a as [|x a IH]; [done|]. rewrite string_app_cons. cbn. rewrite IH.
  destruct (a ++ b) eqn:E; [|done]. by destruct a.
Qed.

(** The braces found delimit a context; the slices are in range. *)
Lemma brace_shape v i : find "{" v = Some i -> ends_with "}" v = true ->
  exists s inner, v = s ++ String "{" (inner ++ "}") /\ free_of "{" s /\ String.length s = i.
Proof.
  intros (a & b & -> & Ha & Hl)%find_spec. rewrite ends_with_app by done. destruct b as [|x b]; [done|].
  change (String "{" (String x b)) with ("{" ++ String x b). rewrite ends_with_app by done. intros [inner E]%ends_with_spec.
  exists a, inner. split_and!; [|done..]. by rewrite E.
Qed.

Section Expressions.
Context {E K : Type} (parse_key : string -> outcome E K).

Lemma parse_braced s inner : free_of "{" s ->
  parse_expression parse_key (s ++ String "{" (inner ++ "}")) =
  let? key := map_err (InvalidKey s) (parse_key s) in
  let? context := map_err InContext (parse_context inner) in
  Ok (key, context).
Proof.
  intros Hs. unfold parse_expression. rewrite find_app by done.
  assert (ends_with "}" (s ++ String "{" (inner ++ "}")) = true) as ->.
  { apply ends_with_spec. exists (s ++ String "{" inner). by rewrite string_app_assoc. }
  cbn [negb].
  rewrite (slice_prefix s). cbn [obind]. destruct (parse_key s) as [k|e|]; cbn [obind map_err]; [|done..].
  change (String "{" (inner ++ "}")) with ("{" ++ inner ++ "}").
  assert (slice (E := PermissionExpressionError E) (s ++ "{" ++ inner ++ "}") (String.length s + 1) (String.length (s ++ "{" ++ inner ++ "}") - 1) = Ok inner) as ->; [|done].
  rewrite <- (string_app_assoc s "{"). apply slice_middle; rewrite !string_app_length; cbn; lia.
Qed.

Lemma parse_expression_sound value k c : parse_expression parse_key value = Ok (k, c) ->
  (exists s, parse_key s = Ok k /\ free_of "{" s) /\ well_formed c /\ Forall printable (leaves c).
Proof.
  destruct (find "{" value) as [i|] eqn:Ef.
  - destruct (ends_with "}" value) eqn:Ee; [|unfold parse_expression; by rewrite Ef, Ee].
    destruct (brace_shape value i Ef Ee) as (s & inner & -> & Hs & _). rewrite parse_braced by done.
    destruct (parse_key s) as [k'|e|] eqn:Ek; cbn [obind map_err]; [|done..].
    destruct (parse_context inner) as [c'|e|] eqn:Ec; cbn [obind map_err]; [|done..]. intros [= -> ->].
    split; [by exists s|by eapply parse_context_sound].
  - unfold parse_expression. rewrite Ef. destruct (parse_key value) as [k'|e|] eqn:Ek; cbn [obind map_err]; [|done..]. intros [= -> <-].
    split; [exists value; split; [done|by apply find_none]|by split].
Qed.

Lemma parse_expression_printed s k c : parse_key s = Ok k -> free_of "{" s -> well_formed c -> Forall printable (leaves c) ->
  parse_expression parse_key (s ++ write_context c) = Ok (k, c).
Proof.
  intros Hk Hs Hc Hp. destruct (decide (c = Global)) as [->|Hn].
  - cbn. rewrite string_app_nil_r. unfold parse_expression. rewrite (proj2 (find_none _ _) Hs), Hk. done.
  - destruct (write_context_leaves c Hc Hn) as [-> _]. change ("{" ++ ?x) with (String "{" x). rewrite parse_braced by done.
    rewrite Hk. cbn [obind map_err]. by rewrite parse_context_printed.
Qed.

Lemma parse_expression_not_panic value : (forall s, parse_key s <> Panic) -> parse_expression parse_key value <> Panic.
Proof.
  intros Hk. destruct (find "{" value) as [i|] eqn:Ef.
  - destruct (ends_with "}" value) eqn:Ee; [|unfold parse_expression; by rewrite Ef, Ee].
    destruct (brace_shape value i Ef Ee) as (s & inner & -> & Hs & _). rewrite parse_braced by done.
    specialize (Hk s). destruct (parse_key s) as [k'|e|] eqn:Ek; cbn [obind map_err]; [|done..].
    pose proof (parse_context_not_panic inner). by destruct (parse_context inner).
  - unfold parse_expression. rewrite Ef. specialize (Hk value). by destruct (parse_key value).
Qed.
End Expressions.

Lemma parse_not_panic v : PermissionKey.parse v <> Panic.
Proof.
  unfold PermissionKey.parse. destruct (String.eqb v ""); [done|]. pose proof (check_segments_not_panic (split "." v)).
  by destruct (check_segments (split "." v)).
Qed.

Lemma metadata_key_shape s i : parse_permission_metadata_key s = Ok i -> s = to_string i /\ free_of "{" s.
Proof.
  unfold parse_permission_metadata_key. destruct (split_once_at ":" s) as [[n p]|] eqn:Es; [|done].
  repeat (case_match; [done|]). intros [= <-]. apply split_once_at_spec in Es as [-> _]. split; [done|].
  apply plain_free; [|by left]. apply (id_plain (mk_id n p)); cbn; by apply negb_false_iff.
Qed.

Lemma metadata_key_not_panic s : parse_permission_metadata_key s <> Panic.
Proof. unfold parse_permission_metadata_key. repeat (case_match; try done). Qed.

(** ** Expressions *)

(** The expressions the syntax can write. *)
Definition expression_ok (e : PermissionRuleExpression) : Prop :=
  key_ok (rule_key e) /\ well_formed (rule_context e) /\ Forall printable (leaves (rule_context e)).

(** C36: rules survive being written and read back.  Parsing any text returns,
    without a panic; every expression it accepts prints to a text that parses
    to the same expression, and so does every expression built from a key and
    a canonical context the syntax can name.  It can name every context but a
    world whose path has a slash and a custom context whose key is [domain] or
    [world]: the latter is a valid key, prints, and is read back as another
    context. *)
Theorem rule_expression_roundtrip :
  (forall s, parse_rule s <> Panic) /\
  (forall s e, parse_rule s = Ok e -> expression_ok e) /\
  (forall e, expression_ok e -> parse_rule (display_rule e) = Ok e) /\
  (forall s e, parse_metadata s = Ok e -> parse_metadata (display_metadata e) = Ok e) /\
  (exists k, parse_context_key "domain" = Ok k /\ forall key, key_ok key ->
     let e := mk_rule key (Custom k (mk_value "lobby")) in
     custom k "lobby" = Ok (rule_context e) /\ parse_rule (display_rule e) = Ok (mk_rule key (Domain (mk_domain "lobby")))).
Proof.
  assert (forall e, expression_ok e -> parse_rule (display_rule e) = Ok e) as Hrt.
  { intros [key c] (Hk & Hc & Hp). cbn in *. unfold parse_rule, display_rule. cbn.
    rewrite (parse_expression_printed PermissionKey.parse (key_str key) key c); [done| |by apply key_free|done..].
    apply parse_ok. by destruct key. }
  split_and!; [| |exact Hrt| |].
  - intros s. unfold parse_rule. pose proof (parse_expression_not_panic PermissionKey.parse s parse_not_panic).
    by destruct (parse_expression _ s) as [[]| |].
  - intros s e. unfold parse_rule. destruct (parse_expression _ s) as [[k c]|?|] eqn:E; [|done..]. cbn. intros [= <-].
    apply parse_expression_sound in E as ((s' & Hk & _) & Hc & Hp). split; [|done]. cbn. by apply parse_ok in Hk as [_ Hk].
  - intros s e. unfold parse_metadata. destruct (parse_expression _ s) as [[i c]|?|] eqn:E; [|done..]. cbn. intros [= <-].
    apply parse_expression_sound in E as ((s' & Hk & _) & Hc & Hp). unfold display_metadata. cbn.
    destruct (metadata_key_shape _ _ Hk) as [-> Hf]. by rewrite (parse_expression_printed _ _ i c).
  - exists (mk_context_key "domain"). split; [reflexivity|]. intros key Hk. split; [reflexivity|].
    apply (Hrt (mk_rule key (Domain (mk_domain "lobby")))). split_and!; [done|reflexivity|].
    constructor; [by split|constructor].
Qed.

Module Example1.

Definition text : string := "minecraft.command.*{world=lobby:overworld,plugin:rank=vip,domain=lobby}".
Definition rule : PermissionRuleExpression :=
  mk_rule (mk_key "minecraft.command.*")
    (All [World (mk_id "lobby" "overworld"); Custom (mk_context_key "plugin:rank") (mk_value "vip")]).

Lemma rule_expression_roundtrip_witness :
  parse_rule text = Ok rule /\
  display_rule rule = "minecraft.command.*{world=lobby:overworld,plugin:rank=vip}" /\
  parse_rule (display_rule rule) = Ok rule /\
  parse_rule "give{domain=a,world=b:c}" = Err (InContext (InvalidRuleContext (WorldDomainMismatch "a" "b"))).
Proof.
  assert (parse_rule text = Ok rule) as H by reflexivity. split; [exact H|]. split; [reflexivity|]. split; [|reflexivity].
  apply rule_expression_roundtrip. apply (proj1 (proj2 rule_expression_roundtrip) text). exact H.
Defined.

End Example1.
