(* ===== verification/PermissionSet.v ===== *)
(** * Permission sets

    Model of [steel-core/src/permission/set.rs], [expression.rs] and the
    metadata sets of [metadata.rs]: flat lists of rules with their sources, and
    how the rule that decides a key is chosen among those that match. *)

From Stdlib Require Import Lia ZArith String Ascii.
From stdpp Require Import prelude list strings.
From S2P Require Import Prelude Collections Identifier Strings PermissionKey PermissionContext.

(** ** Rules *)

Inductive PermissionState : Set := Allow | Deny.

#[export] Instance PermissionState_eq_dec : EqDecision PermissionState.
Proof. solve_decision. Defined.

Record PermissionEntry := mk_entry {
  entry_key : PermissionKey;
  entry_context : PermissionRuleContext;
  entry_state : PermissionState
}.

Definition entry_allow (key : PermissionKey) : PermissionEntry := mk_entry key Global Allow.
Definition allow_with_context (key : PermissionKey) (context : PermissionRuleContext) : PermissionEntry := mk_entry key context Allow.
Definition entry_deny (key : PermissionKey) : PermissionEntry := mk_entry key Global Deny.
Definition deny_with_context (key : PermissionKey) (context : PermissionRuleContext) : PermissionEntry := mk_entry key context Deny.

Inductive PermissionResolutionSource :=
| Group (name : string) (priority : Z)
| Subject.

Definition group_name (s : PermissionResolutionSource) : option string :=
  match s with Group name _ => Some name | Subject => None end.
Definition group_priority (s : PermissionResolutionSource) : option Z :=
  match s with Group _ priority => Some priority | Subject => None end.
Definition rank (s : PermissionResolutionSource) : nat := match s with Group _ _ => 0 | Subject => 1 end.
Definition tie_priority (s : PermissionResolutionSource) : Z :=
  match s with Group _ priority => priority | Subject => 0 end.

(** ** The set *)

Record PermissionSet := mk_set { entries : list PermissionEntry; sources : list PermissionResolutionSource }.

Definition new : PermissionSet := mk_set [] [].
Definition from_entries (es : list PermissionEntry) : PermissionSet := mk_set es (repeat Subject (length es)).

Definition push_with_source (self : PermissionSet) (entry : PermissionEntry) (source : PermissionResolutionSource) : PermissionSet :=
  mk_set (entries self ++ [entry]) (sources self ++ [source]).
Definition push (self : PermissionSet) (entry : PermissionEntry) : PermissionSet := push_with_source self entry Subject.
Definition push_group (self : PermissionSet) (entry : PermissionEntry) (group : string) (priority : Z) : PermissionSet :=
  push_with_source self entry (Group group priority).

Definition allow (self : PermissionSet) key := push self (entry_allow key).
Definition allow_in (self : PermissionSet) key context := push self (allow_with_context key context).
Definition deny (self : PermissionSet) key := push self (entry_deny key).
Definition deny_in (self : PermissionSet) key context := push self (deny_with_context key context).

(** The loop of [retain_entries] over the zipped vectors. *)
Fixpoint retain_each (keep : PermissionEntry -> bool) (es : list PermissionEntry) (ss : list PermissionResolutionSource) (self : PermissionSet) : PermissionSet :=
  match es, ss with
  | entry :: es, source :: ss =>
      retain_each keep es ss (if keep entry then push_with_source self entry source else self)
  | _, _ => self
  end.
Definition retain_entries (self : PermissionSet) (keep : PermissionEntry -> bool) : PermissionSet :=
  retain_each keep (entries self) (sources self) new.

Definition other_rule (key : PermissionKey) (context : PermissionRuleContext) (entry : PermissionEntry) : bool :=
  bool_decide (entry_key entry <> key) || bool_decide (entry_context entry <> context).

Definition set_in (self : PermissionSet) key context state : PermissionSet :=
  push (retain_entries self (other_rule key context)) (mk_entry key context state).
Definition set (self : PermissionSet) key state : PermissionSet := set_in self key Global state.
Definition unset_in (self : PermissionSet) key context : PermissionSet * bool :=
  let new_set := retain_entries self (other_rule key context) in
  (new_set, bool_decide (length (entries new_set) <> length (entries self))).
Definition unset (self : PermissionSet) key : PermissionSet * bool := unset_in self key Global.

(** ** Choosing a rule *)

Record PermissionCandidate := mk_candidate {
  entry_index : nat;
  key_specificity : nat;
  cand_context_specificity : nat;
  cand_source : PermissionResolutionSource;
  cand_state : PermissionState
}.

(** [order()] and the comparison of its tuples. *)
#[local] Notation Order := (nat * nat * nat * Z)%type.
Definition order (c : PermissionCandidate) : Order :=
  (key_specificity c, cand_context_specificity c, rank (cand_source c), tie_priority (cand_source c)).

Definition order_cmp (a b : Order) : comparison :=
  let '(a1, a2, a3, a4) := a in
  let '(b1, b2, b3, b4) := b in
  then_with (Nat.compare a1 b1) (then_with (Nat.compare a2 b2) (then_with (Nat.compare a3 b3) (Z.compare a4 b4))).

Definition push_candidate (best : option PermissionCandidate) (index specificity context_spec : nat) (source : PermissionResolutionSource) (state : PermissionState) : option PermissionCandidate :=
  let candidate := mk_candidate index specificity context_spec source state in
  match best with
  | None => Some candidate
  | Some current =>
      match order_cmp (order candidate) (order current) with
      | Gt => Some candidate
      | Eq => if decide (cand_state current = Allow /\ state = Deny) then Some candidate else best
      | Lt => best
      end
  end.

Fixpoint best_key_from (es : list PermissionEntry) (ss : list PermissionResolutionSource) (index : nat) (key : PermissionKey) (context : PermissionContext) (best : option PermissionCandidate) : option PermissionCandidate :=
  match es, ss with
  | entry :: es, source :: ss =>
      best_key_from es ss (S index) key context
        (if negb (context_matches (entry_context entry) context) || negb (matches (entry_key entry) key) then best
         else push_candidate best index (specificity (entry_key entry)) (context_specificity (entry_context entry)) source (entry_state entry))
  | _, _ => best
  end.
Definition best_key_candidate (self : PermissionSet) key context : option PermissionCandidate :=
  best_key_from (entries self) (sources self) 0 key context None.

Fixpoint best_scoped_from (es : list PermissionEntry) (ss : list PermissionResolutionSource) (index : nat) (parent key : PermissionKey) (parent_scopes_key : bool) (context : PermissionContext) (best : option PermissionCandidate) : option PermissionCandidate :=
  match es, ss with
  | entry :: es, source :: ss =>
      best_scoped_from es ss (S index) parent key parent_scopes_key context
        (if negb (context_matches (entry_context entry) context) then best
         else
           let matches_parent := parent_scopes_key && matches (entry_key entry) parent in
           let matches_key := matches (entry_key entry) key in
           if negb matches_parent && negb matches_key then best
           else
             let specificity := (specificity (entry_key entry) + (if matches_key && negb matches_parent then 1 else 0))%nat in
             push_candidate best index specificity (context_specificity (entry_context entry)) source (entry_state entry))
  | _, _ => best
  end.
Definition best_scoped_key_candidate (self : PermissionSet) parent key context : option PermissionCandidate :=
  best_scoped_from (entries self) (sources self) 0 parent key (scopes parent key) context None.

Definition resolve_key_in (self : PermissionSet) key context : option PermissionState :=
  cand_state <$> best_key_candidate self key context.
Definition resolve_scoped_key_in (self : PermissionSet) parent key context : option PermissionState :=
  cand_state <$> best_scoped_key_candidate self parent key context.

Record PermissionResolution := mk_resolution {
  resolved_entry : PermissionEntry;
  resolved_source : PermissionResolutionSource;
  resolved_key_specificity : nat;
  resolved_context_specificity : nat
}.

(** [self.entries[index]] panics out of range. *)
Definition permission_resolution (self : PermissionSet) (c : PermissionCandidate) : outcome () PermissionResolution :=
  match entries self !! entry_index c with
  | Some entry => Ok (mk_resolution entry (cand_source c) (key_specificity c) (cand_context_specificity c))
  | None => Panic
  end.

Definition detailed (self : PermissionSet) (c : option PermissionCandidate) : outcome () (option PermissionResolution) :=
  match c with None => Ok None | Some c => let? r := permission_resolution self c in Ok (Some r) end.
Definition resolve_key_in_detailed (self : PermissionSet) key context : outcome () (option PermissionResolution) :=
  detailed self (best_key_candidate self key context).
Definition resolve_scoped_key_in_detailed (self : PermissionSet) parent key context : outcome () (option PermissionResolution) :=
  detailed self (best_scoped_key_candidate self parent key context).

(** ** Expressions *)

Inductive PermissionExpr :=
| Key (key : PermissionKey)
| ScopedKey (parent key : PermissionKey)
| AllOf (children : list PermissionExpr)
| AnyOf (children : list PermissionExpr).

Definition bitand (left right : PermissionExpr) : PermissionExpr :=
  match left, right with
  | AllOf l, AllOf r => AllOf (l ++ r)
  | AllOf l, r => AllOf (l ++ [r])
  | l, AllOf r => AllOf (l :: r)
  | l, r => AllOf [l; r]
  end.
Definition bitor (left right : PermissionExpr) : PermissionExpr :=
  match left, right with
  | AnyOf l, AnyOf r => AnyOf (l ++ r)
  | AnyOf l, r => AnyOf (l ++ [r])
  | l, AnyOf r => AnyOf (l :: r)
  | l, r => AnyOf [l; r]
  end.

(** The loops of [resolve_all] and [resolve_any]. *)
Fixpoint resolve_all_loop {A} (resolve : A -> option PermissionState) (children : list A) (saw_unset : bool) : option PermissionState :=
  match children with
  | [] => if saw_unset then None else Some Allow
  | child :: rest =>
      match resolve child with
      | Some Allow => resolve_all_loop resolve rest saw_unset
      | Some Deny => Some Deny
      | None => resolve_all_loop resolve rest true
      end
  end.
Definition resolve_all {A} (resolve : A -> option PermissionState) (children : list A) : option PermissionState :=
  match children with [] => Some Allow | _ => resolve_all_loop resolve children false end.

Fixpoint resolve_any_loop {A} (resolve : A -> option PermissionState) (children : list A) (saw_unset : bool) : option PermissionState :=
  match children with
  | [] => if saw_unset then None else Some Deny
  | child :: rest =>
      match resolve child with
      | Some Allow => Some Allow
      | Some Deny => resolve_any_loop resolve rest saw_unset
      | None => resolve_any_loop resolve rest true
      end
  end.
Definition resolve_any {A} (resolve : A -> option PermissionState) (children : list A) : option PermissionState :=
  match children with [] => Some Deny | _ => resolve_any_loop resolve children false end.

Fixpoint resolve_in (self : PermissionSet) (permission : PermissionExpr) (context : PermissionContext) : option PermissionState :=
  match permission with
  | Key key => resolve_key_in self key context
  | ScopedKey parent key => resolve_scoped_key_in self parent key context
  | AllOf children => resolve_all (fun child => resolve_in self child context) children
  | AnyOf children => resolve_any (fun child => resolve_in self child context) children
  end.

Definition allows_in (self : PermissionSet) permission context : bool :=
  bool_decide (resolve_in self permission context = Some Allow).
Definition allows (self : PermissionSet) permission : bool := allows_in self permission global_context.

(** ** The deciding rule *)

#[export] Instance nat_compare_laws : OrdLaws Nat.compare.
Proof. split; intros x y; [apply Nat.compare_antisym|]. intros z. rewrite !Nat.compare_le_iff || rewrite <- !Nat.compare_ngt_iff. lia. Qed.

Lemma then_with_eq a b : then_with a b = Eq <-> a = Eq /\ b = Eq.
Proof. destruct a; cbn; naive_solver. Qed.

#[export] Instance order_cmp_laws : OrdLaws order_cmp.
Proof.
  pose proof (then_with_laws _ _ (OrdLaws0 := contramap_laws Nat.compare (fun o : Order => o.1.1.1))
    (OrdLaws1 := then_with_laws _ _ (OrdLaws0 := contramap_laws Nat.compare (fun o : Order => o.1.1.2))
      (OrdLaws1 := then_with_laws _ _ (OrdLaws0 := contramap_laws Nat.compare (fun o : Order => o.1.2))
        (OrdLaws1 := contramap_laws Z.compare (fun o : Order => o.2))))) as [H1 H2].
  assert (forall a b, order_cmp a b = then_with (Nat.compare a.1.1.1 b.1.1.1) (then_with (Nat.compare a.1.1.2 b.1.1.2)
    (then_with (Nat.compare a.1.2 b.1.2) (Z.compare a.2 b.2)))) as E by (by intros [[[]]] [[[]]]).
  split; intros x y; [rewrite !E; apply H1|]. intros z. rewrite !E. apply H2.
Qed.

(** The weight of a rule for a question: the key specificity it takes part
    with, if it does. *)
Definition weigh_key (key : PermissionKey) (context : PermissionContext) (entry : PermissionEntry) : option nat :=
  if context_matches (entry_context entry) context && matches (entry_key entry) key then Some (specificity (entry_key entry)) else None.

(** A rule for the parent speaks for the key below it, one step less
    specifically than a rule that names only the key. *)
Definition weigh_scoped (parent key : PermissionKey) (context : PermissionContext) (entry : PermissionEntry) : option nat :=
  if negb (context_matches (entry_context entry) context) then None
  else if scopes parent key && matches (entry_key entry) parent then Some (specificity (entry_key entry))
  else if matches (entry_key entry) key then Some (specificity (entry_key entry) + 1)%nat
  else None.

Notation rule := (PermissionEntry * PermissionResolutionSource)%type.
Definition rules (self : PermissionSet) : list rule := zip (entries self) (sources self).
Definition rule_order (k : nat) (r : rule) : Order := (k, context_specificity (entry_context r.1), rank r.2, tie_priority r.2).

(** What an answer must be: of the rules that take part, one of the highest
    order, and a denying one if there is any of that order. *)
Definition resolved (weigh : PermissionEntry -> option nat) (rs : list rule) (answer : option PermissionState) : Prop :=
  match answer with
  | None => forall r, r ∈ rs -> weigh r.1 = None
  | Some state => exists r k, r ∈ rs /\ weigh r.1 = Some k /\ entry_state r.1 = state /\
      forall r' k', r' ∈ rs -> weigh r'.1 = Some k' ->
        order_cmp (rule_order k' r') (rule_order k r) <> Gt /\
        (order_cmp (rule_order k' r') (rule_order k r) = Eq -> entry_state r'.1 = Deny -> state = Deny)
  end.

#[local] Arguments order_cmp : simpl never.
#[local] Arguments rule_order : simpl never.

Lemma resolved_unique weigh rs a b : resolved weigh rs a -> resolved weigh rs b -> a = b.
Proof.
  destruct a as [a|], b as [b|]; cbn; try done.
  - intros (r & k & Hr & Hk & <- & Ha) (r' & k' & Hr' & Hk' & <- & Hb).
    destruct (Ha _ _ Hr' Hk') as [H1 H2], (Hb _ _ Hr Hk) as [H3 H4].
    assert (order_cmp (rule_order k' r') (rule_order k r) = Eq) as E.
    { rewrite (ord_opp order_cmp (rule_order k' r') (rule_order k r)) in H3. by destruct (order_cmp _ _). }
    specialize (H2 E). apply (ord_eq_sym order_cmp) in E. specialize (H4 E).
    destruct (entry_state r.1), (entry_state r'.1); try done; [by specialize (H2 eq_refl)|by specialize (H4 eq_refl)].
  - intros (r & k & Hr & Hk & _) Hb. by rewrite Hb in Hk.
  - intros Ha (r & k & Hr & Hk & _). by rewrite Ha in Hk.
Qed.

Lemma resolved_perm weigh rs rs' a : rs ≡ₚ rs' -> resolved weigh rs a -> resolved weigh rs' a.
Proof.
  intros Hp. destruct a as [a|]; cbn.
  - intros (r & k & Hr & Hk & He & Ha). exists r, k. split_and!; [by rewrite <- Hp|done..|]. intros r' k' Hr'. apply Ha. by rewrite Hp.
  - intros H r Hr. apply H. by rewrite Hp.
Qed.

(** *** The loop *)

(** The candidates met so far, and the best of them. *)
Definition candidate_of (weigh : PermissionEntry -> option nat) (es : list PermissionEntry) (rs : list rule) (c : PermissionCandidate) : Prop :=
  exists r, r ∈ rs /\ es !! entry_index c = Some r.1 /\ weigh r.1 = Some (key_specificity c) /\
    order c = rule_order (key_specificity c) r /\ cand_source c = r.2 /\ cand_state c = entry_state r.1.

Definition best_of (weigh : PermissionEntry -> option nat) (es : list PermissionEntry) (rs : list rule) (best : option PermissionCandidate) : Prop :=
  match best with
  | None => forall r, r ∈ rs -> weigh r.1 = None
  | Some c => candidate_of weigh es rs c /\
      forall r' k', r' ∈ rs -> weigh r'.1 = Some k' ->
        order_cmp (rule_order k' r') (order c) <> Gt /\
        (order_cmp (rule_order k' r') (order c) = Eq -> entry_state r'.1 = Deny -> cand_state c = Deny)
  end.

Lemma candidate_more weigh es rs rs' c : (forall r, r ∈ rs -> r ∈ rs') -> candidate_of weigh es rs c -> candidate_of weigh es rs' c.
Proof. intros H (r & Hr & Hc). exists r. split; [by apply H|done]. Qed.

Lemma best_of_skip weigh es rs best r : weigh r.1 = None -> best_of weigh es rs best -> best_of weigh es (rs ++ [r]) best.
Proof.
  intros Hw. destruct best as [c|]; cbn.
  - intros [Hc H]. split; [eapply candidate_more; [|exact Hc]; set_solver|]. intros r' k' [Hr'| ->%list_elem_of_singleton]%elem_of_app Hk; [by apply H|congruence].
  - intros H r' [Hr'| ->%list_elem_of_singleton]%elem_of_app; [by apply H|done].
Qed.

Lemma best_of_push weigh es rs best entry source k : es !! length rs = Some entry -> weigh entry = Some k -> best_of weigh es rs best ->
  best_of weigh es (rs ++ [(entry, source)])
    (push_candidate best (length rs) k (context_specificity (entry_context entry)) source (entry_state entry)).
Proof.
  intros Hi Hw Hb. set (new := mk_candidate (length rs) k (context_specificity (entry_context entry)) source (entry_state entry)).
  assert (candidate_of weigh es (rs ++ [(entry, source)]) new) as Hnew.
  { exists (entry, source). split_and!; [set_solver|done..]. }
  destruct best as [c|]; unfold push_candidate; fold new.
  2:{ split; [done|]. intros r' k' [Hr'| ->%list_elem_of_singleton]%elem_of_app Hk.
      - by rewrite (Hb r' Hr') in Hk.
      - cbn in Hk. assert (k' = k) as -> by congruence. change (rule_order k (entry, source)) with (order new). by rewrite (ord_refl order_cmp). }
  destruct Hb as [Hc H]. assert (candidate_of weigh es (rs ++ [(entry, source)]) c) as Hc' by (eapply candidate_more; [|exact Hc]; set_solver).
  assert (forall k', weigh (entry, source).1 = Some k' -> rule_order k' (entry, source) = order new) as Hk by (cbn; intros k'; rewrite Hw; by intros [= <-]).
  destruct (order_cmp (order new) (order c)) eqn:E; [destruct (decide _) as [[Ha Hd]|Hn]|..].
  - split; [done|]. intros r' k' [Hr'| ->%list_elem_of_singleton]%elem_of_app Hw'.
    + destruct (H r' k' Hr' Hw') as [H1 _]. split; [|done]. intros Hgt. apply H1. rewrite (ord_opp order_cmp (order c)), <- (ord_eq_l order_cmp _ _ _ E), <- ord_opp by apply _. done.
    + rewrite (Hk _ Hw'), (ord_refl order_cmp). done.
  - split; [done|]. intros r' k' [Hr'| ->%list_elem_of_singleton]%elem_of_app Hw'; [by apply H|]. rewrite (Hk _ Hw'), E.
    split; [done|]. intros _ Hd. destruct (cand_state c) eqn:Ec; [|done]. destruct Hn. by split.
  - split; [done|]. intros r' k' [Hr'| ->%list_elem_of_singleton]%elem_of_app Hw'; [by apply H|]. rewrite (Hk _ Hw'), E. done.
  - apply (ord_gt_lt order_cmp) in E. split; [done|]. intros r' k' [Hr'| ->%list_elem_of_singleton]%elem_of_app Hw'.
    + destruct (H r' k' Hr' Hw') as [H1 _]. by rewrite (ord_le_lt_trans order_cmp _ _ _ H1 E).
    + rewrite (Hk _ Hw'), (ord_refl order_cmp). done.
Qed.

Fixpoint scan (step : option PermissionCandidate -> nat -> PermissionEntry -> PermissionResolutionSource -> option PermissionCandidate)
    (es : list PermissionEntry) (ss : list PermissionResolutionSource) (index : nat) (best : option PermissionCandidate) : option PermissionCandidate :=
  match es, ss with
  | entry :: es, source :: ss => scan step es ss (S index) (step best index entry source)
  | _, _ => best
  end.

Definition weighs (weigh : PermissionEntry -> option nat) step : Prop := forall best index entry source,
  step best index entry source =
  match weigh entry with
  | None => best
  | Some k => push_candidate best index k (context_specificity (entry_context entry)) source (entry_state entry)
  end.

Lemma scan_best weigh step all_entries : weighs weigh step ->
  forall es ss rs best, (forall i, es !! i = all_entries !! (length rs + i)%nat) ->
  best_of weigh all_entries rs best -> best_of weigh all_entries (rs ++ zip es ss) (scan step es ss (length rs) best).
Proof.
  intros Hw. induction es as [|entry es IH]; intros ss rs best Hi Hb; [by rewrite app_nil_r|].
  destruct ss as [|source ss]; [by rewrite app_nil_r|]. cbn [scan zip zip_with].
  assert (((rs ++ (entry, source) :: zip es ss) = (rs ++ [(entry, source)]) ++ zip es ss)) as -> by (by rewrite <- app_assoc).
  assert (S (length rs) = length (rs ++ [(entry, source)])) as -> by (rewrite length_app; cbn; lia).
  apply IH.
  - intros i. specialize (Hi (S i)). change ((entry :: es) !! S i) with (es !! i) in Hi. rewrite Hi, length_app. f_equal. cbn. lia.
  - rewrite Hw. specialize (Hi 0%nat). rewrite Nat.add_0_r in Hi. symmetry in Hi. destruct (weigh entry) as [k|] eqn:E.
    + by apply best_of_push.
    + by apply best_of_skip.
Qed.

Lemma best_key_scan es ss index key context best : best_key_from es ss index key context best =
  scan (fun best index entry source =>
    if negb (context_matches (entry_context entry) context) || negb (matches (entry_key entry) key) then best
    else push_candidate best index (specificity (entry_key entry)) (context_specificity (entry_context entry)) source (entry_state entry))
    es ss index best.
Proof. revert ss index best. induction es as [|entry es IH]; intros [|source ss] index best; [done..|]. cbn [best_key_from scan]. apply IH. Qed.

Lemma best_scoped_scan es ss index parent key context best : best_scoped_from es ss index parent key (scopes parent key) context best =
  scan (fun best index entry source =>
    match weigh_scoped parent key context entry with
    | None => best
    | Some k => push_candidate best index k (context_specificity (entry_context entry)) source (entry_state entry)
    end) es ss index best.
Proof.
  revert ss index best. induction es as [|entry es IH]; intros [|source ss] index best; [done..|]. cbn [best_scoped_from scan].
  rewrite IH. f_equal. unfold weigh_scoped. destruct (context_matches (entry_context entry) context); [|done]. cbn [negb].
  destruct (scopes parent key && matches (entry_key entry) parent), (matches (entry_key entry) key); cbn [negb andb]; try done; by rewrite Nat.add_0_r.
Qed.

Lemma best_key_best self key context : best_of (weigh_key key context) (entries self) (rules self) (best_key_candidate self key context).
Proof.
  unfold best_key_candidate. rewrite best_key_scan. eapply (scan_best _ _ _ _ _ _ [] None); [done|].
  intros r Hr. by apply not_elem_of_nil in Hr.
  Unshelve. intros best index entry source. unfold weigh_key.
  by destruct (context_matches (entry_context entry) context), (matches (entry_key entry) key).
Qed.

Lemma best_scoped_best self parent key context :
  best_of (weigh_scoped parent key context) (entries self) (rules self) (best_scoped_key_candidate self parent key context).
Proof.
  unfold best_scoped_key_candidate. rewrite best_scoped_scan. eapply (scan_best _ _ _ _ _ _ [] None); [done|].
  intros r Hr. by apply not_elem_of_nil in Hr.
  Unshelve. by intros best index entry source.
Qed.

Lemma best_of_resolved weigh es rs best : best_of weigh es rs best -> resolved weigh rs (cand_state <$> best).
Proof.
  destruct best as [c|]; cbn; [|done]. intros [(r & Hr & _ & Hk & Ho & _ & Hs) H]. exists r, (key_specificity c).
  rewrite <- Ho. split_and!; [done..|]. exact H.
Qed.

(** The detailed answers find the deciding rule, with its source. *)
Lemma detailed_ok weigh self best : best_of weigh (entries self) (rules self) best ->
  exists d, detailed self best = Ok d /\ cand_state <$> best = (fun r => entry_state (resolved_entry r)) <$> d /\
    forall r, d = Some r -> (resolved_entry r, resolved_source r) ∈ rules self.
Proof.
  destruct best as [c|]; cbn; [|by exists None]. intros [([e s] & Hr & Hi & _ & _ & Hsrc & Hst) _]. cbn in *.
  unfold permission_resolution. rewrite Hi. cbn. eexists. split_and!; [done|cbn; by rewrite Hst|]. intros r [= <-]. cbn. by rewrite Hsrc.
Qed.

Lemma resolve_key_resolved self key context : resolved (weigh_key key context) (rules self) (resolve_key_in self key context).
Proof. unfold resolve_key_in. eapply best_of_resolved, best_key_best. Qed.

Lemma resolve_scoped_resolved self parent key context :
  resolved (weigh_scoped parent key context) (rules self) (resolve_scoped_key_in self parent key context).
Proof. unfold resolve_scoped_key_in. eapply best_of_resolved, best_scoped_best. Qed.

Lemma resolve_key_perm self other key context : rules self ≡ₚ rules other -> resolve_key_in self key context = resolve_key_in other key context.
Proof. intros Hp. eapply resolved_unique; [eapply resolved_perm; [exact Hp|]|]; apply resolve_key_resolved. Qed.

Lemma resolve_scoped_perm self other parent key context : rules self ≡ₚ rules other ->
  resolve_scoped_key_in self parent key context = resolve_scoped_key_in other parent key context.
Proof. intros Hp. eapply resolved_unique; [eapply resolved_perm; [exact Hp|]|]; apply resolve_scoped_resolved. Qed.

Lemma resolve_loops_ext {A} (f g : A -> option PermissionState) l : Forall (fun x => f x = g x) l ->
  resolve_all f l = resolve_all g l /\ resolve_any f l = resolve_any g l.
Proof.
  intros H. assert (forall saw, resolve_all_loop f l saw = resolve_all_loop g l saw /\ resolve_any_loop f l saw = resolve_any_loop g l saw) as Hl.
  { induction H as [|x l Hx Hl IH]; intros saw; [done|]. cbn. rewrite Hx. destruct (g x) as [[]|]; [split; [apply IH|done]|split; [done|apply IH]|apply IH]. }
  destruct l; [done|]. unfold resolve_all, resolve_any. apply Hl.
Qed.

(** No question depends on the order of the rules. *)
Lemma resolve_perm self other context : rules self ≡ₚ rules other ->
  forall permission, resolve_in self permission context = resolve_in other permission context.
Proof.
  intros Hp. fix IH 1. intros [key|parent key|children|children]; cbn [resolve_in].
  - by apply resolve_key_perm.
  - by apply resolve_scoped_perm.
  - apply resolve_loops_ext. induction children as [|c l IHl]; constructor; [apply IH|exact IHl].
  - apply resolve_loops_ext. induction children as [|c l IHl]; constructor; [apply IH|exact IHl].
Qed.

(** C25: the deciding rule is the best that matches.  The answer for a key,
    alone or under a parent, is unset exactly when no rule of the set takes
    part; otherwise it is the state of a rule whose key specificity, context
    specificity, source and priority, compared in that order, no other has more
    of, and a denial when a rule of the same standing denies.  So the answer does
    not depend on the order of the rules.  The detailed questions never index
    out of the set, and return the deciding rule with its source. *)
Theorem resolution_exact self context :
  (forall key, resolved (weigh_key key context) (rules self) (resolve_key_in self key context)) /\
  (forall parent key, resolved (weigh_scoped parent key context) (rules self) (resolve_scoped_key_in self parent key context)) /\
  (forall other, rules self ≡ₚ rules other -> forall parent key,
     resolve_key_in self key context = resolve_key_in other key context /\
     resolve_scoped_key_in self parent key context = resolve_scoped_key_in other parent key context) /\
  (forall parent key d, d = resolve_key_in_detailed self key context \/ d = resolve_scoped_key_in_detailed self parent key context ->
     exists r, d = Ok r /\ forall w, r = Some w -> (resolved_entry w, resolved_source w) ∈ rules self).
Proof.
  split_and!; [by intros; apply resolve_key_resolved|by intros; apply resolve_scoped_resolved| |].
  - intros other Hp parent key. split; [by apply resolve_key_perm|by apply resolve_scoped_perm].
  - intros parent key d [-> | ->];
      [destruct (detailed_ok _ self _ (best_key_best self key context)) as (r & Hr & _ & H)
      |destruct (detailed_ok _ self _ (best_scoped_best self parent key context)) as (r & Hr & _ & H)]; exists r; by split.
Qed.

(** ** Editing *)

(** Every operation keeps a source beside every rule. *)
Definition set_ok (self : PermissionSet) : Prop := length (entries self) = length (sources self).

Lemma push_rules self entry source : set_ok self ->
  set_ok (push_with_source self entry source) /\ rules (push_with_source self entry source) = rules self ++ [(entry, source)].
Proof.
  unfold set_ok, rules. cbn. intros H. split; [rewrite !length_app; cbn; lia|]. by rewrite zip_with_app.
Qed.

Lemma from_entries_ok es : set_ok (from_entries es) /\ rules (from_entries es) = map (fun e => (e, Subject)) es.
Proof.
  unfold set_ok, rules. cbn. split; [by rewrite repeat_length|]. induction es as [|e es IH]; [done|]. cbn. by f_equal.
Qed.

Lemma retain_rules keep es : forall ss self, set_ok self ->
  set_ok (retain_each keep es ss self) /\
  rules (retain_each keep es ss self) = rules self ++ List.filter (fun r => keep r.1) (zip es ss).
Proof.
  induction es as [|entry es IH]; intros ss self Hs; [by rewrite app_nil_r|].
  destruct ss as [|source ss]; [by rewrite app_nil_r|]. cbn [retain_each zip zip_with List.filter fst].
  destruct (keep entry); [|by apply IH]. destruct (push_rules self entry source Hs) as [Hs' Hr].
  destruct (IH ss _ Hs') as [H1 H2]. split; [done|]. by rewrite H2, Hr, <- app_assoc.
Qed.

Lemma rules_length self : set_ok self -> length (rules self) = length (entries self).
Proof. unfold set_ok, rules. intros H. rewrite length_zip_with. lia. Qed.

Lemma filter_shorter {A} (f : A -> bool) l : length (List.filter f l) <> length l <-> exists x, x ∈ l /\ f x = false.
Proof.
  induction l as [|x l IH]; [split; [done|by intros (x & ?%not_elem_of_nil & _)]|]. cbn [List.filter]. destruct (f x) eqn:E; cbn [length].
  - rewrite Nat.succ_inj_wd_neg, IH. split.
    + intros (y & Hy & Hf). exists y. split; [by right|done].
    + intros (y & [->|Hy]%elem_of_cons & Hf); [congruence|]. by exists y.
  - split; [intros _; exists x; split; [by left|done]|]. intros _. pose proof (List.filter_length_le f l). lia.
Qed.

(** Setting a rule leaves exactly one for its key and context, last; unsetting
    leaves none and says whether there was one; the other rules keep their
    sources and order. *)
Lemma edits_exact self key context state : set_ok self ->
  let others := List.filter (fun r => other_rule key context r.1) (rules self) in
  set_ok (set_in self key context state) /\ rules (set_in self key context state) = others ++ [(mk_entry key context state, Subject)] /\
  set_ok (unset_in self key context).1 /\ rules (unset_in self key context).1 = others /\
  ((unset_in self key context).2 = true <-> exists r, r ∈ rules self /\ entry_key r.1 = key /\ entry_context r.1 = context).
Proof.
  intros Hs others. assert (set_ok new) as Hnew by done.
  destruct (retain_rules (other_rule key context) (entries self) (sources self) new Hnew) as [H1 H2].
  change (zip (entries self) (sources self)) with (rules self) in H2. cbn [rules new entries sources zip zip_with app] in H2.
  change (retain_each (other_rule key context) (entries self) (sources self) new) with (retain_entries self (other_rule key context)) in *.
  destruct (push_rules _ (mk_entry key context state) Subject H1) as [H3 H4]. unfold set_in, unset_in, push. cbn [fst snd].
  split_and!; [done|by rewrite H4, H2|done|by rewrite H2|].
  rewrite bool_decide_eq_true, <- (rules_length self Hs), <- (rules_length _ H1), H2, filter_shorter. split.
  - intros (r & Hr & Hf). exists r. split; [done|]. unfold other_rule in Hf. apply orb_false_iff in Hf as [Hk Hc].
    apply bool_decide_eq_false in Hk, Hc. split; by apply dec_stable.
  - intros (r & Hr & <- & <-). exists r. split; [done|]. apply orb_false_iff. split; by apply bool_decide_eq_false_2; intros [].
Qed.

(** ** Expressions as three-valued logic *)

Definition strength (answer : option PermissionState) : nat :=
  match answer with Some Deny => 0 | None => 1 | Some Allow => 2 end.

Lemma strength_le answer : (strength answer <= 2)%nat.
Proof. destruct answer as [[]|]; cbn; lia. Qed.

Lemma strength_inj a b : strength a = strength b -> a = b.
Proof. by destruct a as [[]|], b as [[]|]. Qed.

Lemma resolve_all_strength {A} (resolve : A -> option PermissionState) children saw :
  strength (resolve_all_loop resolve children saw) =
  Nat.min (if saw then 1 else 2)%nat (foldr Nat.min 2%nat (map (fun c => strength (resolve c)) children)).
Proof.
  revert saw. induction children as [|c l IH]; intros saw; [by destruct saw|]. cbn [resolve_all_loop map foldr].
  destruct (resolve c) as [[]|]; rewrite ?IH; cbn [strength]; destruct saw; lia.
Qed.

Lemma resolve_any_strength {A} (resolve : A -> option PermissionState) children saw :
  strength (resolve_any_loop resolve children saw) =
  Nat.max (if saw then 1 else 0)%nat (foldr Nat.max 0%nat (map (fun c => strength (resolve c)) children)).
Proof.
  revert saw. induction children as [|c l IH]; intros saw; [by destruct saw|]. cbn [resolve_any_loop map foldr].
  assert (foldr Nat.max 0%nat (map (fun c => strength (resolve c)) l) <= 2)%nat as Hle.
  { clear. induction l as [|c l IH]; cbn; [lia|]. pose proof (strength_le (resolve c)). lia. }
  destruct (resolve c) as [[]|]; rewrite ?IH; cbn [strength]; destruct saw; lia.
Qed.

Lemma min_le l : (foldr Nat.min 2%nat l <= 2)%nat.
Proof. induction l; cbn; lia. Qed.

Lemma min_app l r : foldr Nat.min 2%nat (l ++ r) = Nat.min (foldr Nat.min 2%nat l) (foldr Nat.min 2%nat r).
Proof. induction l as [|x l IH]; cbn [foldr app]; [pose proof (min_le r); lia|]. rewrite IH. lia. Qed.

Lemma max_app l r : foldr Nat.max 0%nat (l ++ r) = Nat.max (foldr Nat.max 0%nat l) (foldr Nat.max 0%nat r).
Proof. induction l as [|x l IH]; cbn [foldr app]; [lia|]. rewrite IH. lia. Qed.

Section Kleene.
Context (self : PermissionSet) (context : PermissionContext).
Let value (e : PermissionExpr) : nat := strength (resolve_in self e context).

Lemma all_value children : value (AllOf children) = foldr Nat.min 2%nat (map value children).
Proof.
  unfold value at 1. cbn [resolve_in]. unfold resolve_all. destruct children as [|c l]; [done|].
  rewrite resolve_all_strength. pose proof (min_le (map value (c :: l))). unfold value in *. lia.
Qed.

Lemma any_value children : value (AnyOf children) = foldr Nat.max 0%nat (map value children).
Proof.
  unfold value at 1. cbn [resolve_in]. unfold resolve_any. destruct children as [|c l]; [done|]. rewrite resolve_any_strength. unfold value. lia.
Qed.

Lemma bitand_value left right : value (bitand left right) = Nat.min (value left) (value right).
Proof.
  pose proof (strength_le (resolve_in self left context)) as Hl. pose proof (strength_le (resolve_in self right context)) as Hr.
  change (strength (resolve_in self ?e context)) with (value e) in Hl, Hr.
  destruct left as [k|p k|l|l], right as [k'|p' k'|r|r]; cbn [bitand]; rewrite ?all_value, ?map_app, ?min_app; cbn [map foldr];
    rewrite ?all_value; rewrite ?all_value in Hl, Hr; lia.
Qed.

Lemma bitor_value left right : value (bitor left right) = Nat.max (value left) (value right).
Proof.
  destruct left as [k|p k|l|l], right as [k'|p' k'|r|r]; cbn [bitor]; rewrite ?any_value, ?map_app, ?max_app; cbn [map foldr];
    rewrite ?any_value; lia.
Qed.
End Kleene.

(** Permission expressions are three-valued logic.  Ordering the answers
    deny, unset, allow, [resolve_in] gives a conjunction the least of its
    children's answers and a disjunction the greatest, although it stops at the
    first child that settles it; the empty conjunction allows and the empty
    disjunction denies.  The operators [&] and [|], which merge nested lists
    instead of nesting, are the minimum and maximum of their operands, so
    [allows_in] turns them into the boolean operators. *)
Theorem expression_is_kleene self context :
  (forall children, strength (resolve_in self (AllOf children) context) =
     foldr Nat.min 2%nat (map (fun e => strength (resolve_in self e context)) children)) /\
  (forall children, strength (resolve_in self (AnyOf children) context) =
     foldr Nat.max 0%nat (map (fun e => strength (resolve_in self e context)) children)) /\
  (forall a b, strength (resolve_in self (bitand a b) context) =
     Nat.min (strength (resolve_in self a context)) (strength (resolve_in self b context))) /\
  (forall a b, strength (resolve_in self (bitor a b) context) =
     Nat.max (strength (resolve_in self a context)) (strength (resolve_in self b context))) /\
  (forall a b, allows_in self (bitand a b) context = allows_in self a context && allows_in self b context /\
     allows_in self (bitor a b) context = allows_in self a context || allows_in self b context).
Proof.
  split_and!; [apply all_value|apply any_value|apply bitand_value|apply bitor_value|].
  assert (forall e, allows_in self e context = (strength (resolve_in self e context) =? 2)%nat) as Hv.
  { intros e. unfold allows_in. by destruct (resolve_in self e context) as [[]|]. }
  intros a b. rewrite !Hv, bitand_value, bitor_value.
  by destruct (resolve_in self a context) as [[]|], (resolve_in self b context) as [[]|].
Qed.
