(* ===== verification/PermissionMetadata.v ===== *)
(** * Permission metadata

    Model of the metadata sets of [steel-core/src/permission/metadata.rs]: typed
    values attached to subjects and groups under namespaced keys, and how the
    entry that decides a key is chosen. *)

From Stdlib Require Import Lia ZArith String Ascii.
From stdpp Require Import prelude list strings.
From S2P Require Import Prelude Collections Identifier PermissionContext PermissionSet.

(** ** Data *)

Inductive PermissionMetadataValue :=
| Bool (value : bool)
| Integer (value : Z)
| Text (value : string).

Record PermissionMetadataEntry := mk_entry {
  entry_key : Identifier;
  entry_context : PermissionRuleContext;
  entry_value : PermissionMetadataValue
}.

Record PermissionMetadataSet := mk_set {
  entries : list PermissionMetadataEntry;
  sources : list PermissionResolutionSource
}.

(** ** Operations *)

Definition new : PermissionMetadataSet := mk_set [] [].
Definition from_entries (es : list PermissionMetadataEntry) : PermissionMetadataSet := mk_set es (repeat Subject (length es)).
Definition is_empty (self : PermissionMetadataSet) : bool := match entries self with [] => true | _ => false end.

Definition push_with_source (self : PermissionMetadataSet) entry source : PermissionMetadataSet :=
  mk_set (entries self ++ [entry]) (sources self ++ [source]).
Definition push (self : PermissionMetadataSet) entry : PermissionMetadataSet := push_with_source self entry Subject.
Definition push_group (self : PermissionMetadataSet) entry (group : string) (priority : Z) : PermissionMetadataSet :=
  push_with_source self entry (Group group priority).

Fixpoint retain_each (keep : PermissionMetadataEntry -> bool) (es : list PermissionMetadataEntry) (ss : list PermissionResolutionSource) (self : PermissionMetadataSet) : PermissionMetadataSet :=
  match es, ss with
  | entry :: es, source :: ss =>
      retain_each keep es ss (if keep entry then push_with_source self entry source else self)
  | _, _ => self
  end.
Definition retain_entries (self : PermissionMetadataSet) keep : PermissionMetadataSet :=
  retain_each keep (entries self) (sources self) new.

Definition other_entry (key : Identifier) (context : PermissionRuleContext) (entry : PermissionMetadataEntry) : bool :=
  bool_decide (entry_key entry <> key) || bool_decide (entry_context entry <> context).

Definition set_in (self : PermissionMetadataSet) key context value : PermissionMetadataSet :=
  push (retain_entries self (other_entry key context)) (mk_entry key context value).
Definition unset_in (self : PermissionMetadataSet) key context : PermissionMetadataSet * bool :=
  let new_set := retain_entries self (other_entry key context) in
  (new_set, bool_decide (length (entries new_set) <> length (entries self))).

Record PermissionMetadataCandidate := mk_candidate {
  entry_index : nat;
  cand_context_specificity : nat;
  cand_source : PermissionResolutionSource
}.

Definition order (c : PermissionMetadataCandidate) : nat * nat * Z * nat :=
  (cand_context_specificity c, rank (cand_source c), tie_priority (cand_source c), entry_index c).

Definition order_cmp (a b : nat * nat * Z * nat) : comparison :=
  let '(a1, a2, a3, a4) := a in
  let '(b1, b2, b3, b4) := b in
  then_with (Nat.compare a1 b1) (then_with (Nat.compare a2 b2) (then_with (Z.compare a3 b3) (Nat.compare a4 b4))).

Fixpoint best_from (es : list PermissionMetadataEntry) (ss : list PermissionResolutionSource) (index : nat) (key : Identifier) (context : PermissionContext) (best : option PermissionMetadataCandidate) : option PermissionMetadataCandidate :=
  match es, ss with
  | entry :: es, source :: ss =>
      best_from es ss (S index) key context
        (if bool_decide (entry_key entry <> key) || negb (context_matches (entry_context entry) context) then best
         else
           let candidate := mk_candidate index (context_specificity (entry_context entry)) source in
           match best with
           | None => Some candidate
           | Some current => match order_cmp (order candidate) (order current) with Gt => Some candidate | _ => best end
           end)
  | _, _ => best
  end.
Definition best_candidate (self : PermissionMetadataSet) key context : option PermissionMetadataCandidate :=
  best_from (entries self) (sources self) 0 key context None.

(** [self.entries[index]] panics out of range. *)
Definition resolve_in (self : PermissionMetadataSet) key context : outcome () (option PermissionMetadataValue) :=
  match best_candidate self key context with
  | None => Ok None
  | Some c => match entries self !! entry_index c with Some entry => Ok (Some (entry_value entry)) | None => Panic end
  end.

Record PermissionMetadataResolution := mk_resolution {
  resolved_entry : PermissionMetadataEntry;
  resolved_source : PermissionResolutionSource;
  resolved_context_specificity : nat;
  insertion_index : nat
}.

Definition resolve_in_detailed (self : PermissionMetadataSet) key context : outcome () (option PermissionMetadataResolution) :=
  match best_candidate self key context with
  | None => Ok None
  | Some c =>
      match entries self !! entry_index c with
      | Some entry => Ok (Some (mk_resolution entry (cand_source c) (cand_context_specificity c) (entry_index c)))
      | None => Panic
      end
  end.

(** ** The deciding entry *)

Notation meta := (PermissionMetadataEntry * PermissionResolutionSource)%type.
Definition metas (self : PermissionMetadataSet) : list meta := zip (entries self) (sources self).

Definition applies (key : Identifier) (context : PermissionContext) (m : meta) : Prop :=
  entry_key m.1 = key /\ context_matches (entry_context m.1) context = true.

Definition standing (m : meta) : nat * nat * Z :=
  (context_specificity (entry_context m.1), rank m.2, tie_priority m.2).

(** Of less standing, or of the same and earlier. *)
Definition loses (m : meta) (i : nat) (m' : meta) (j : nat) : Prop :=
  order_cmp (standing m, i) (standing m', j) = Lt.

Lemma order_cmp_opp a b : order_cmp b a = CompOpp (order_cmp a b).
Proof.
  destruct a as [[[a1 a2] a3] a4], b as [[[b1 b2] b3] b4]. cbn.
  rewrite (Nat.compare_antisym a1 b1), (Nat.compare_antisym a2 b2), (Z.compare_antisym a3 b3), (Nat.compare_antisym a4 b4).
  by destruct (Nat.compare a1 b1), (Nat.compare a2 b2), (Z.compare a3 b3), (Nat.compare a4 b4).
Qed.

Lemma order_cmp_lt a b : order_cmp a b = Lt <->
  let '(a1, a2, a3, a4) := a in let '(b1, b2, b3, b4) := b in
  (a1 < b1 \/ a1 = b1 /\ (a2 < b2 \/ a2 = b2 /\ (a3 < b3 \/ a3 = b3 /\ (a4 < b4)%nat)%Z))%nat.
Proof.
  destruct a as [[[a1 a2] a3] a4], b as [[[b1 b2] b3] b4]. cbn.
  destruct (Nat.compare_spec a1 b1), (Nat.compare_spec a2 b2), (Z.compare_spec a3 b3), (Nat.compare_spec a4 b4); cbn;
    split; intros; try done; try lia.
Qed.

Lemma order_cmp_trans a b c : order_cmp a b = Lt -> order_cmp b c = Lt -> order_cmp a c = Lt.
Proof.
  rewrite !order_cmp_lt. destruct a as [[[a1 a2] a3] a4], b as [[[b1 b2] b3] b4], c as [[[c1 c2] c3] c4]. lia.
Qed.

Definition best_of (key : Identifier) (context : PermissionContext) (ms : list meta) (best : option PermissionMetadataCandidate) : Prop :=
  match best with
  | None => forall m, m ∈ ms -> ~ applies key context m
  | Some c => exists m, ms !! entry_index c = Some m /\ applies key context m /\ order c = (standing m, entry_index c) /\
      forall j m', ms !! j = Some m' -> applies key context m' -> j <> entry_index c -> loses m' j m (entry_index c)
  end.

Lemma lookup_snoc_cases {A} (l : list A) x j y : (l ++ [x]) !! j = Some y -> l !! j = Some y /\ (j < length l)%nat \/ j = length l /\ y = x.
Proof.
  intros H. destruct (decide (j < length l)%nat) as [Hj|Hj]; [left; by rewrite lookup_app_l in H|].
  right. rewrite lookup_app_r in H by lia. destruct (j - length l)%nat eqn:E; [|done]. cbn in H. split; [lia|congruence].
Qed.

Lemma meta_of_skip key context ms best m : ~ applies key context m -> best_of key context ms best -> best_of key context (ms ++ [m]) best.
Proof.
  intros Hm. destruct best as [c|]; cbn.
  - intros (w & Hw & Ha & Ho & H). exists w. split_and!; [by apply lookup_app_l_Some|done..|].
    intros j m' [[Hj _]|[-> ->]]%lookup_snoc_cases Ha' Hne; [by apply H|done].
  - intros H m' [Hm'| ->%list_elem_of_singleton]%elem_of_app; [by apply H|done].
Qed.

Lemma meta_of_step key context ms best m : applies key context m -> best_of key context ms best ->
  let candidate := mk_candidate (length ms) (context_specificity (entry_context m.1)) m.2 in
  best_of key context (ms ++ [m])
    (match best with
     | None => Some candidate
     | Some current => match order_cmp (order candidate) (order current) with Gt => Some candidate | _ => best end
     end).
Proof.
  intros Hm Hb candidate. destruct best as [c|]; cbn [best_of] in Hb.
  - destruct Hb as (w & Hw & Ha & Ho & H). pose proof (lookup_lt_Some _ _ _ Hw) as Hlt.
    assert (order candidate = (standing m, length ms)) as Hc by done. rewrite Ho, Hc.
    destruct (order_cmp (standing m, length ms) (standing w, entry_index c)) eqn:E.
    + exfalso. unfold standing in E. cbn in E. destruct (Nat.compare_spec (length ms) (entry_index c)); [lia..|].
      by destruct (Nat.compare _ _), (Nat.compare _ _), (Z.compare _ _).
    + exists w. split_and!; [by apply lookup_app_l_Some|done..|].
      intros j m' [[Hj _]|[-> ->]]%lookup_snoc_cases Ha' Hne; [by apply H|done].
    + exists m. cbn [entry_index candidate]. split_and!; [by rewrite lookup_app_r, Nat.sub_diag|done..|].
      assert (loses w (entry_index c) m (length ms)) as Hl by (unfold loses; by rewrite order_cmp_opp, E).
      intros j m' [[Hj _]|[-> ->]]%lookup_snoc_cases Ha' Hne; [|done].
      destruct (decide (j = entry_index c)) as [->|Hj']; [by rewrite Hw in Hj; injection Hj as <-|].
      eapply order_cmp_trans; [by apply H|exact Hl].
  - exists m. cbn [entry_index candidate]. split_and!; [by rewrite lookup_app_r, Nat.sub_diag|done..|].
    intros j m' [[Hj _]|[-> ->]]%lookup_snoc_cases Ha' Hne; [|done]. destruct (Hb m'); [|done]. by apply list_elem_of_lookup_2 in Hj.
Qed.

Lemma best_from_best key context es : forall ss ms best, best_of key context ms best ->
  best_of key context (ms ++ zip es ss) (best_from es ss (length ms) key context best).
Proof.
  induction es as [|entry es IH]; intros ss ms best Hb; [by rewrite app_nil_r|]. destruct ss as [|source ss]; [by rewrite app_nil_r|].
  cbn [best_from zip zip_with]. assert (ms ++ (entry, source) :: zip es ss = (ms ++ [(entry, source)]) ++ zip es ss) as -> by (by rewrite <- app_assoc).
  assert (S (length ms) = length (ms ++ [(entry, source)])) as -> by (rewrite length_app; cbn; lia).
  apply IH. destruct (bool_decide (entry_key entry <> key) || negb (context_matches (entry_context entry) context)) eqn:E.
  - apply meta_of_skip; [|done]. intros [Hk Hc]. cbn in *. rewrite Hc, orb_false_r in E. by apply bool_decide_eq_true in E.
  - apply orb_false_iff in E as [Hk Hc]. apply bool_decide_eq_false in Hk. apply negb_false_iff in Hc.
    apply (meta_of_step key context ms best (entry, source)); [split; [by apply dec_stable|done]|done].
Qed.

(** The deciding metadata entry.  Resolving a key never indexes out of
    the set; it gives no value exactly when no entry applies, and otherwise the
    value of the entry that wins against every other that applies: by context
    specificity, then by source, then by group priority, and at last by coming
    later in the set.  The detailed answer has the same value. *)
Theorem metadata_resolution_exact self key context :
  (match resolve_in self key context with
  | Ok None => forall m, m ∈ metas self -> ~ applies key context m
  | Ok (Some value) => exists i m, metas self !! i = Some m /\ applies key context m /\ entry_value m.1 = value /\
      forall j m', metas self !! j = Some m' -> applies key context m' -> j <> i -> loses m' j m i
  | _ => False
  end) /\
  (forall r, resolve_in_detailed self key context = r ->
     match r with
     | Ok d => resolve_in self key context = Ok ((fun w => entry_value (resolved_entry w)) <$> d)
     | _ => False
     end).
Proof.
  assert (best_of key context (metas self) (best_candidate self key context)) as Hb.
  { apply (best_from_best key context (entries self) (sources self) [] None). intros m Hm. by apply not_elem_of_nil in Hm. }
  unfold resolve_in, resolve_in_detailed. destruct (best_candidate self key context) as [c|]; [|split; [exact Hb|by intros r <-]].
  destruct Hb as (m & Hi & Ha & _ & H). unfold metas in Hi. pose proof Hi as Hi'. rewrite lookup_zip_with in Hi'.
  destruct (entries self !! entry_index c) as [e|]; [|done]. cbn in Hi'. destruct (sources self !! entry_index c); [|done].
  cbn in Hi'. injection Hi' as <-. split; [exists (entry_index c), (e, p); done|by intros r <-].
Qed.
