(* ===== verification/PermissionGroups.v ===== *)
(** * Permission groups

    Model of [steel-core/src/permission/groups.rs] and [manager.rs]: named groups
    of rules that inherit from one another, the validation of their
    configuration, the permissions they give a subject, and the manager that
    replaces the configuration.

    A [BTreeMap] by name is a [gmap] whose iteration, where the order matters,
    goes through [btree_iter] in the order of the names.  The two recursions
    take fuel: their depth is bounded by the number of groups, and the theorems
    say that the fuel given is enough for every configuration. *)

From Stdlib Require Import Lia ZArith String Ascii Wellfounded.
From stdpp Require Import prelude list gmap strings sorting.
From S2P Require Import Prelude Collections Identifier PermissionKey PermissionContext RuleExpression PermissionSet PermissionMetadata.

#[local] Open Scope string_scope.

Definition btree_iter {V} (m : gmap string V) : list (string * V) :=
  sort_by (fun a b => String.compare a.1 b.1) (map_to_list m).

(** ** Configuration *)

Record PermissionMetadataRuleConfig := mk_metadata_rule { rule_key_text : string; rule_value : PermissionMetadataValue }.

Record PermissionGroupConfig := mk_group_config {
  config_priority : Z;
  config_inherits : list string;
  config_allow : list string;
  config_deny : list string;
  config_metadata : list PermissionMetadataRuleConfig
}.

Record PermissionGroupsConfig := mk_groups_config {
  config_default_groups : list string;
  config_groups : gmap string PermissionGroupConfig
}.

Definition OP_GROUP : string := "op".

Definition default_config : PermissionGroupsConfig :=
  mk_groups_config ["default"]
    (<[OP_GROUP := mk_group_config 0 [] ["*"] [] []]> (<["default" := mk_group_config 0 [] [] [] []]> ∅)).

Inductive PermissionConfigError :=
| MissingDefaultGroup (group : string)
| MissingRequiredGroup (group : string)
| MissingInheritedGroup (group inherited : string)
| InheritedGroupCycle (cycle : list string)
| InvalidPermissionExpression (group : string) (source : PermissionExpressionError PermissionKeyError)
| InvalidMetadataExpression (group : string) (source : PermissionExpressionError PermissionMetadataKeyError)
| InvalidGroupName (group : string) (source : PermissionKeyError).

Record PermissionGroup := mk_group {
  priority : Z;
  inherits : list string;
  permissions : PermissionSet;
  metadata : PermissionMetadataSet
}.

Record PermissionGroups := mk_groups {
  default_groups : list string;
  groups : gmap string PermissionGroup
}.

(** ** Validation *)

Definition validate_group_name (group : string) : outcome PermissionConfigError () :=
  match parse_segment group with
  | Ok _ => Ok ()
  | Err source => Err (InvalidGroupName group source)
  | Panic => Panic
  end.

Fixpoint validate_parent_names (config : PermissionGroupsConfig) (group : string) (parents : list string) : outcome PermissionConfigError () :=
  match parents with
  | [] => Ok ()
  | parent :: rest =>
      let? _ := validate_group_name parent in
      match config_groups config !! parent with
      | None => Err (MissingInheritedGroup group parent)
      | Some _ => validate_parent_names config group rest
      end
  end.

Fixpoint validate_parents (config : PermissionGroupsConfig) (entries : list (string * PermissionGroupConfig)) : outcome PermissionConfigError () :=
  match entries with
  | [] => Ok ()
  | (group, group_config) :: rest =>
      let? _ := validate_parent_names config group (config_inherits group_config) in
      validate_parents config rest
  end.

Definition position (group : string) (stack : list string) : option nat := fst <$> list_find (fun ancestor => ancestor = group) stack.

(** The names visited and those on the stack, the last called at the end. *)
Fixpoint validate_node (fuel : nat) (config : PermissionGroupsConfig) (group : string) (group_config : PermissionGroupConfig) (visited : gset string) (stack : list string) : outcome PermissionConfigError (gset string * list string) :=
  match fuel with
  | O => Panic
  | S fuel =>
      if decide (group ∈ visited) then Ok (visited, stack)
      else match position group stack with
      | Some cycle_start => Err (InheritedGroupCycle (drop cycle_start stack ++ [group])%list)
      | None =>
          let? st :=
            (fix validate_each (parents : list string) (visited : gset string) (stack : list string) : outcome PermissionConfigError (gset string * list string) :=
               match parents with
               | [] => Ok (visited, stack)
               | parent :: rest =>
                   match config_groups config !! parent with
                   | None => Err (MissingInheritedGroup group parent)
                   | Some parent_config =>
                       let? st := validate_node fuel config parent parent_config visited stack in
                       validate_each rest st.1 st.2
                   end
               end) (config_inherits group_config) visited (stack ++ [group])%list in
          Ok ({[group]} ∪ st.1, removelast st.2)
      end
  end.

Fixpoint validate_nodes (fuel : nat) (config : PermissionGroupsConfig) (entries : list (string * PermissionGroupConfig)) (visited : gset string) (stack : list string) : outcome PermissionConfigError () :=
  match entries with
  | [] => Ok ()
  | (group, group_config) :: rest =>
      let? st := validate_node fuel config group group_config visited stack in
      validate_nodes fuel config rest st.1 st.2
  end.

Definition depth_bound {V} (m : gmap string V) : nat := S (size m).

Definition validate_group_inheritance (config : PermissionGroupsConfig) : outcome PermissionConfigError () :=
  let? _ := validate_parents config (btree_iter (config_groups config)) in
  validate_nodes (depth_bound (config_groups config)) config (btree_iter (config_groups config)) ∅ [].

(** ** Parsing *)

Definition parse_group_rule (group rule : string) : outcome PermissionConfigError PermissionRuleExpression :=
  map_err (InvalidPermissionExpression group) (parse_rule rule).

Fixpoint parse_rules (state : PermissionState) (group : string) (rules : list string) (permissions : PermissionSet) : outcome PermissionConfigError PermissionSet :=
  match rules with
  | [] => Ok permissions
  | rule :: rest =>
      let? e := parse_group_rule group rule in
      parse_rules state group rest (PermissionSet.push permissions (PermissionSet.mk_entry (rule_key e) (rule_context e) state))
  end.

Definition parse_group_permissions (group : string) (allow deny : list string) : outcome PermissionConfigError PermissionSet :=
  let? permissions := parse_rules Allow group allow PermissionSet.new in
  parse_rules Deny group deny permissions.

Fixpoint parse_metadata_rules (group : string) (rules : list PermissionMetadataRuleConfig) (metadata : PermissionMetadataSet) : outcome PermissionConfigError PermissionMetadataSet :=
  match rules with
  | [] => Ok metadata
  | rule :: rest =>
      let? e := map_err (InvalidMetadataExpression group) (parse_metadata (rule_key_text rule)) in
      parse_metadata_rules group rest (PermissionMetadata.push metadata (PermissionMetadata.mk_entry (metadata_key e) (metadata_context e) (rule_value rule)))
  end.
Definition parse_group_metadata (group : string) (rules : list PermissionMetadataRuleConfig) : outcome PermissionConfigError PermissionMetadataSet :=
  parse_metadata_rules group rules PermissionMetadata.new.

Fixpoint check_defaults (config : PermissionGroupsConfig) (names : list string) : outcome PermissionConfigError () :=
  match names with
  | [] => Ok ()
  | group :: rest =>
      let? _ := validate_group_name group in
      match config_groups config !! group with
      | None => Err (MissingDefaultGroup group)
      | Some _ => check_defaults config rest
      end
  end.

Fixpoint parse_groups (entries : list (string * PermissionGroupConfig)) (groups : gmap string PermissionGroup) : outcome PermissionConfigError (gmap string PermissionGroup) :=
  match entries with
  | [] => Ok groups
  | (name, group) :: rest =>
      let? _ := validate_group_name name in
      let? permissions := parse_group_permissions name (config_allow group) (config_deny group) in
      let? metadata := parse_group_metadata name (config_metadata group) in
      parse_groups rest (<[name := mk_group (config_priority group) (config_inherits group) permissions metadata]> groups)
  end.

Definition from_config (config : PermissionGroupsConfig) : outcome PermissionConfigError PermissionGroups :=
  let? _ := check_defaults config (config_default_groups config) in
  match config_groups config !! OP_GROUP with
  | None => Err (MissingRequiredGroup OP_GROUP)
  | Some _ =>
      let? _ := validate_group_inheritance config in
      let? groups := parse_groups (btree_iter (config_groups config)) ∅ in
      Ok (mk_groups (config_default_groups config) groups)
  end.

(** ** Effective permissions *)

(** [append_group] and [append_group_metadata] differ in what a group adds to
    the effective set; the second component holds the appended names. *)
Fixpoint append_group_with {S} (contribute : string -> PermissionGroup -> S -> S) (fuel : nat) (self : PermissionGroups) (group_name : string) (st : S * gset string) : outcome () (S * gset string) :=
  match fuel with
  | O => Panic
  | Datatypes.S fuel =>
      if decide (group_name ∈ st.2) then Ok st
      else
        let st := (st.1, {[group_name]} ∪ st.2) in
        match groups self !! group_name with
        | None => Ok st
        | Some group =>
            let? st :=
              (fix append_each (parents : list string) (st : S * gset string) : outcome () (S * gset string) :=
                 match parents with
                 | [] => Ok st
                 | parent :: rest =>
                     let? st := append_group_with contribute fuel self parent st in
                     append_each rest st
                 end) (inherits group) st in
            Ok (contribute group_name group st.1, st.2)
        end
  end.

Fixpoint append_groups_with {S} (contribute : string -> PermissionGroup -> S -> S) (fuel : nat) (self : PermissionGroups) (names : list string) (st : S * gset string) : outcome () (S * gset string) :=
  match names with
  | [] => Ok st
  | group :: rest =>
      let? st := append_group_with contribute fuel self group st in
      append_groups_with contribute fuel self rest st
  end.

Definition push_group_rules (name : string) (group : PermissionGroup) (effective : PermissionSet) : PermissionSet :=
  foldl (fun effective entry => PermissionSet.push_group effective entry name (priority group)) effective
    (PermissionSet.entries (permissions group)).
Definition push_group_metadata (name : string) (group : PermissionGroup) (effective : PermissionMetadataSet) : PermissionMetadataSet :=
  foldl (fun effective entry => PermissionMetadata.push_group effective entry name (priority group)) effective
    (PermissionMetadata.entries (metadata group)).

Definition effective_permissions (self : PermissionGroups) (assigned_groups : list string) (subject : PermissionSet) : outcome () PermissionSet :=
  let fuel := depth_bound (groups self) in
  let? st := append_groups_with push_group_rules fuel self (default_groups self) (PermissionSet.new, ∅) in
  let? st := append_groups_with push_group_rules fuel self assigned_groups st in
  Ok (foldl PermissionSet.push st.1 (PermissionSet.entries subject)).

Definition effective_metadata (self : PermissionGroups) (assigned_groups : list string) (subject : PermissionMetadataSet) : outcome () PermissionMetadataSet :=
  let fuel := depth_bound (groups self) in
  let? st := append_groups_with push_group_metadata fuel self (default_groups self) (PermissionMetadata.new, ∅) in
  let? st := append_groups_with push_group_metadata fuel self assigned_groups st in
  Ok (foldl PermissionMetadata.push st.1 (PermissionMetadata.entries subject)).

(** ** Inheritance *)

Section Inheritance.
Context (config : PermissionGroupsConfig).

(** The parents of a group. *)
Definition parent_of (p g : string) : Prop := exists c, config_groups config !! g = Some c /\ p ∈ config_inherits c.

(** A sequence in which each name inherits the next. *)
Definition inherits_path (l : list string) : Prop :=
  forall i a b, l !! i = Some a -> l !! S i = Some b -> parent_of b a.
Definition is_cycle (l : list string) : Prop := inherits_path l /\ head l = last l /\ (2 <= length l)%nat.

(** Names whose ancestry is finite, without a cycle. *)
Definition checked (visited : gset string) : Prop := forall g, g ∈ visited -> Acc parent_of g.

(** Why an error of the traversal is right. *)
Definition real_error (e : PermissionConfigError) : Prop :=
  match e with
  | InheritedGroupCycle l => is_cycle l
  | MissingInheritedGroup g p => parent_of p g /\ config_groups config !! p = None
  | _ => False
  end.

Section Each.
Context (node : string -> PermissionGroupConfig -> gset string -> list string -> outcome PermissionConfigError (gset string * list string)) (group : string).

Fixpoint validate_each (parents : list string) (visited : gset string) (stack : list string) : outcome PermissionConfigError (gset string * list string) :=
  match parents with
  | [] => Ok (visited, stack)
  | parent :: rest =>
      match config_groups config !! parent with
      | None => Err (MissingInheritedGroup group parent)
      | Some parent_config =>
          let? st := node parent parent_config visited stack in
          validate_each rest st.1 st.2
      end
  end.
End Each.

Lemma validate_node_unfold fuel group cfg visited stack : validate_node (S fuel) config group cfg visited stack =
  if decide (group ∈ visited) then Ok (visited, stack)
  else match position group stack with
  | Some cycle_start => Err (InheritedGroupCycle (drop cycle_start stack ++ [group])%list)
  | None =>
      let? st := validate_each (validate_node fuel config) group (config_inherits cfg) visited (stack ++ [group])%list in
      Ok ({[group]} ∪ st.1, removelast st.2)
  end.
Proof. reflexivity. Qed.

(** The stack of ancestors a name is reached by. *)
Definition ancestors (stack : list string) (group : string) : Prop :=
  inherits_path (stack ++ [group])%list /\ NoDup stack /\ forall g, g ∈ stack -> is_Some (config_groups config !! g).

Definition node_result (visited : gset string) (stack : list string) (r : outcome PermissionConfigError (gset string * list string)) : Prop :=
  match r with
  | Ok (visited', stack') => stack' = stack /\ visited ⊆ visited' /\ checked visited'
  | Err e => real_error e
  | Panic => False
  end.

Lemma position_spec group stack : match position group stack with
  | Some i => stack !! i = Some group | None => group ∉ stack end.
Proof.
  unfold position. destruct (list_find (fun a => a = group) stack) as [[i a]|] eqn:E; cbn.
  - by apply list_find_Some in E as (Hi & -> & _).
  - intros Hin. apply list_find_None in E. rewrite Forall_forall in E. by apply (E group).
Qed.

Lemma inherits_path_drop i l : inherits_path l -> inherits_path (drop i l).
Proof. intros H j a b. rewrite !lookup_drop. replace (i + S j)%nat with (S (i + j)) by lia. apply H. Qed.

Lemma inherits_path_snoc l g p : inherits_path (l ++ [g])%list -> parent_of p g -> inherits_path ((l ++ [g]) ++ [p])%list.
Proof.
  intros H Hp i a b Ha Hb. destruct (decide (S i < length (l ++ [g]))%nat) as [Hi|Hi].
  - rewrite lookup_app_l in Ha by lia. rewrite lookup_app_l in Hb by lia. by apply (H i).
  - rewrite length_app in Hi. cbn in Hi. rewrite lookup_app_r in Hb by (rewrite length_app; cbn; lia).
    pose proof (lookup_lt_Some _ _ _ Hb) as Hlt. rewrite length_app in Hlt. cbn in Hlt.
    assert (i = length l) as -> by lia. rewrite length_app in Hb. cbn in Hb. replace (S (length l) - (length l + 1))%nat with 0%nat in Hb by lia.
    cbn in Hb. injection Hb as <-. rewrite lookup_app_l, lookup_app_r, Nat.sub_diag in Ha by (rewrite ?length_app; cbn; lia).
    cbn in Ha. by injection Ha as <-.
Qed.

Lemma cycle_found stack group i : ancestors stack group -> stack !! i = Some group -> is_cycle (drop i stack ++ [group])%list.
Proof.
  intros (Hp & _ & _) Hi. pose proof (lookup_lt_Some _ _ _ Hi) as Hlt. split_and!.
  - pose proof (inherits_path_drop i _ Hp) as H. by rewrite drop_app_le in H by lia.
  - rewrite last_snoc. rewrite (drop_S _ group) by done. done.
  - rewrite length_app, length_drop. cbn. lia.
Qed.

Lemma stack_small stack : NoDup stack -> (forall g, g ∈ stack -> is_Some (config_groups config !! g)) ->
  (length stack <= size (config_groups config))%nat.
Proof.
  intros Hnd Hin. rewrite <- size_dom, <- (size_list_to_set (C := gset string)) by done. apply subseteq_size.
  intros g Hg%elem_of_list_to_set. apply elem_of_dom. by apply Hin.
Qed.

Lemma validate_each_ok node group stack :
  (forall p c visited, parent_of p group -> config_groups config !! p = Some c -> checked visited ->
     node_result visited stack (node p c visited stack) /\
     forall st, node p c visited stack = Ok st -> p ∈ st.1) ->
  forall parents visited, (forall p, p ∈ parents -> parent_of p group) -> checked visited ->
  node_result visited stack (validate_each node group parents visited stack) /\
  forall st, validate_each node group parents visited stack = Ok st -> forall p, p ∈ parents -> p ∈ st.1.
Proof.
  intros Hnode. induction parents as [|p parents IH]; intros visited Hps Hv.
  { split; [done|]. intros st _ p Hp. by apply not_elem_of_nil in Hp. }
  cbn [validate_each]. assert (parent_of p group) as Hp by (apply Hps; by left).
  destruct (config_groups config !! p) as [c|] eqn:Ec; [|by split].
  destruct (Hnode p c visited Hp Ec Hv) as [H1 H2]. destruct (node p c visited stack) as [[v s]|e|]; cbn [obind]; [|by split..].
  destruct H1 as (-> & Hsub & Hc). specialize (H2 _ eq_refl). cbn [fst snd] in *.
  destruct (IH v) as [H3 H4]; [intros q Hq; apply Hps; by right|done|]. split.
  - destruct (validate_each node group parents v stack) as [[v' s']|e|]; [|done..].
    destruct H3 as (-> & Hsub' & Hc'). split_and!; [done|by etrans|done].
  - intros st Hst q [->|Hq]%elem_of_cons; [|by apply (H4 st)]. rewrite Hst in H3. destruct st as [v' s'].
    destruct H3 as (_ & Hsub' & _). by apply Hsub'.
Qed.

Lemma validate_node_ok fuel : forall group cfg visited stack, config_groups config !! group = Some cfg ->
  ancestors stack group -> checked visited -> (size (config_groups config) < fuel + length stack)%nat ->
  node_result visited stack (validate_node fuel config group cfg visited stack) /\
  forall st, validate_node fuel config group cfg visited stack = Ok st -> group ∈ st.1.
Proof.
  induction fuel as [|fuel IH]; intros group cfg visited stack Hg Ha Hv Hf.
  { destruct Ha as (_ & Hnd & Hin). pose proof (stack_small stack Hnd Hin). lia. }
  rewrite validate_node_unfold. destruct (decide (group ∈ visited)) as [Hin|Hin]; [split; [done|by intros st [= <-]]|].
  pose proof (position_spec group stack) as Hpos. destruct (position group stack) as [i|]; [split; [by apply cycle_found|done]|].
  assert (forall p, p ∈ config_inherits cfg -> parent_of p group) as Hps by (intros p Hp; by exists cfg).
  destruct (validate_each_ok (validate_node fuel config) group (stack ++ [group])%list) with (parents := config_inherits cfg) (visited := visited) as [H1 H2]; [|done..|].
  - intros p c v Hp Hc Hv'. apply IH; [done| |done|rewrite length_app; cbn; lia]. destruct Ha as (Ha1 & Ha2 & Ha3). split_and!.
    + by apply inherits_path_snoc.
    + apply NoDup_app. split_and!; [done| |apply NoDup_singleton]. intros x Hx ->%list_elem_of_singleton. done.
    + intros g [Hg'| ->%list_elem_of_singleton]%elem_of_app; [by apply Ha3|by eexists].
  - destruct (validate_each _ _ _ _ _) as [[v s]|e|]; cbn [obind fst snd]; [|by split..].
    destruct H1 as (-> & Hsub & Hc). specialize (H2 _ eq_refl). cbn [fst] in H2. split; [|intros st [= <-]; cbn; set_solver].
    split_and!; [apply removelast_last|set_solver|]. intros g [->%elem_of_singleton|Hg']%elem_of_union; [|by apply Hc].
    constructor. intros p (c & Hc' & Hp). apply Hc, H2. congruence.
Qed.
End Inheritance.

Lemma btree_iter_elem {V} (m : gmap string V) k v : (k, v) ∈ btree_iter m <-> m !! k = Some v.
Proof. unfold btree_iter. by rewrite (sort_by_perm _), elem_of_map_to_list. Qed.

Lemma validate_name_ok g : match validate_group_name g with
  | Ok _ => segment_ok g | Err e => (exists s, e = InvalidGroupName g s) /\ ~ segment_ok g | Panic => False end.
Proof.
  unfold validate_group_name. destruct (parse_segment g) as [s|e|] eqn:E.
  - by apply parse_segment_ok in E as [_ H].
  - split; [by exists e|]. intros H. pose proof (proj2 (parse_segment_ok g (mk_segment g)) (conj eq_refl H)). congruence.
  - unfold parse_segment, validate_permission_segment in E. by repeat case_match.
Qed.

Lemma acc_tc {A} (R : A -> A -> Prop) x : Acc R x -> Acc (tc R) x.
Proof.
  induction 1 as [x _ IH]. constructor. intros y Hy. induction Hy as [y x Hy|y z x Hy Hz IHz]; [by apply IH|].
  apply (Acc_inv (IHz IH)). by apply tc_once.
Qed.

Section Validation.
Context (config : PermissionGroupsConfig).
Local Notation parent_of := (parent_of config).

(** What an error of the validation says of the configuration. *)
Definition justified (e : PermissionConfigError) : Prop :=
  match e with
  | InheritedGroupCycle l => is_cycle config l
  | MissingInheritedGroup g p => parent_of p g /\ config_groups config !! p = None
  | InvalidGroupName p _ => (exists g, parent_of p g) /\ ~ segment_ok p
  | _ => False
  end.

Lemma validate_parent_names_ok group parents : (forall p, p ∈ parents -> parent_of p group) ->
  match validate_parent_names config group parents with
  | Ok _ => forall p, p ∈ parents -> segment_ok p /\ is_Some (config_groups config !! p)
  | Err e => justified e
  | Panic => False
  end.
Proof.
  induction parents as [|p parents IH]; intros Hps; cbn; [intros p Hp; by apply not_elem_of_nil in Hp|].
  pose proof (validate_name_ok p) as Hn. assert (parent_of p group) as Hp by (apply Hps; by left).
  destruct (validate_group_name p) as [[]|e|]; cbn [obind]; [|destruct Hn as [[s ->] Hn]; split; [by eexists|done]|done].
  destruct (config_groups config !! p) as [c|] eqn:E; [|by split]. specialize (IH (fun q Hq => Hps q (list_elem_of_further _ _ _ Hq))).
  destruct (validate_parent_names config group parents); [|done..]. intros q [->|Hq]%elem_of_cons; [by split; [|eexists]|by apply IH].
Qed.

Lemma validate_parents_ok entries : (forall g c, (g, c) ∈ entries -> config_groups config !! g = Some c) ->
  match validate_parents config entries with
  | Ok _ => forall g c p, (g, c) ∈ entries -> p ∈ config_inherits c -> segment_ok p /\ is_Some (config_groups config !! p)
  | Err e => justified e
  | Panic => False
  end.
Proof.
  induction entries as [|[g c] entries IH]; intros He; cbn; [intros g c p Hp; by apply not_elem_of_nil in Hp|].
  pose proof (validate_parent_names_ok g (config_inherits c)) as Hn. assert (forall p, p ∈ config_inherits c -> parent_of p g) as Hps.
  { intros p Hp. exists c. split; [apply He; by left|done]. }
  specialize (Hn Hps). destruct (validate_parent_names config g (config_inherits c)); cbn [obind]; [|done..].
  specialize (IH (fun g c Hg => He g c (list_elem_of_further _ _ _ Hg))).
  destruct (validate_parents config entries); [|done..]. intros g' c' p [[= -> ->]|Hg]%elem_of_cons Hp; [by apply Hn|by apply (IH g' c')].
Qed.

Lemma validate_nodes_ok entries : (forall g c, (g, c) ∈ entries -> config_groups config !! g = Some c) ->
  forall visited, checked config visited ->
  match validate_nodes (depth_bound (config_groups config)) config entries visited [] with
  | Ok _ => forall g c, (g, c) ∈ entries -> Acc parent_of g
  | Err e => real_error config e
  | Panic => False
  end.
Proof.
  intros He. induction entries as [|[g c] entries IH]; intros visited Hv; [intros g c Hg; by apply not_elem_of_nil in Hg|].
  cbn [validate_nodes]. destruct (validate_node_ok config (depth_bound (config_groups config)) g c visited []) as [H1 H2]; [apply He; by left| |done|unfold depth_bound; cbn; lia|].
  { split_and!; [|constructor|intros x Hx; by apply not_elem_of_nil in Hx]. intros i a b Ha Hb. by destruct i. }
  destruct (validate_node _ _ _ _ _ _) as [[v s]|e|]; cbn [obind fst snd]; [|done..]. destruct H1 as (-> & _ & Hc).
  specialize (H2 _ eq_refl). specialize (IH (fun g c Hg => He g c (list_elem_of_further _ _ _ Hg)) v Hc).
  destruct (validate_nodes _ _ _ _ _); [|done..]. intros g' c' [[= -> ->]|Hg]%elem_of_cons; [by apply Hc|by apply (IH g' c')].
Qed.

Lemma acyclic_no_cycle l : well_founded parent_of -> is_cycle config l -> False.
Proof.
  intros Hwf (Hp & Hh & Hl). destruct l as [|a l]; [cbn in Hl; lia|]. cbn [head] in Hh. rewrite last_lookup in Hh. cbn in Hl.
  assert (forall i b, (a :: l) !! S i = Some b -> tc parent_of b a) as Htc.
  { induction i as [|i IH]; intros b Hb; [apply tc_once; by apply (Hp 0%nat a b)|].
    destruct ((a :: l) !! S i) as [c|] eqn:E; [|apply lookup_ge_None in E; apply lookup_lt_Some in Hb; lia].
    eapply tc_l; [by apply (Hp (S i) c b)|by apply IH]. }
  cbn [length Nat.pred] in Hh. destruct (length l) as [|n] eqn:En; [lia|]. symmetry in Hh. apply Htc in Hh.
  assert (forall x, Acc (tc parent_of) x -> ~ tc parent_of x x) as Hirr by (induction 1 as [x _ IH]; intros H; by apply (IH x H)).
  by apply (Hirr a); [apply acc_tc|].
Qed.

Lemma validate_inheritance_ok :
  match validate_group_inheritance config with
  | Ok _ => (forall g p, parent_of p g -> segment_ok p /\ is_Some (config_groups config !! p)) /\ well_founded parent_of
  | Err e => justified e
  | Panic => False
  end.
Proof.
  unfold validate_group_inheritance. pose proof (validate_parents_ok (btree_iter (config_groups config))) as H1.
  specialize (H1 (fun g c => proj1 (btree_iter_elem _ g c))).
  destruct (validate_parents config _); cbn [obind]; [|done..].
  pose proof (validate_nodes_ok (btree_iter (config_groups config))) as H2.
  specialize (H2 (fun g c => proj1 (btree_iter_elem _ g c)) ∅ ltac:(intros g Hg; by apply not_elem_of_empty in Hg)).
  destruct (validate_nodes _ _ _ _ _) as [[]|e|]; [|by destruct e|done]. split.
  - intros g p (c & Hc & Hp). apply (H1 g c p); [by apply btree_iter_elem|done].
  - intros g. destruct (config_groups config !! g) as [c|] eqn:E; [apply (H2 g c); by apply btree_iter_elem|].
    constructor. intros p (c & Hc & _). congruence.
Qed.

(** C28: group inheritance is validated exactly.  The depth-first traversal
    always ends, within one level more than there are groups; the configuration
    is accepted exactly when every inherited name is a valid, configured group
    and inheritance is well-founded; and a refusal is true of it: the cycle
    reported is a sequence of groups each of which inherits the next, ending
    where it began, the missing group is inherited and not configured, and the
    invalid name is inherited. *)
Theorem inheritance_validated :
  validate_group_inheritance config <> Panic /\
  (validate_group_inheritance config = Ok () <->
     (forall g p, parent_of p g -> segment_ok p /\ is_Some (config_groups config !! p)) /\ well_founded parent_of) /\
  (forall e, validate_group_inheritance config = Err e -> justified e).
Proof.
  pose proof validate_inheritance_ok as H. destruct (validate_group_inheritance config) as [[]|e|]; [|split_and!; [done| |by intros ? [= <-]]|done].
  - split_and!; [done|by split|done].
  - split; [done|]. intros [Hn Hwf]. exfalso. destruct e; try done; cbn in H.
    + destruct H as [Hp Hnone]. destruct (Hn _ _ Hp) as [_ [? ?]]. congruence.
    + by apply (acyclic_no_cycle _ Hwf) in H.
    + destruct H as [[g Hp] Hbad]. by destruct (Hn _ _ Hp).
Qed.
End Validation.

(** ** Appending groups *)

Section Append.
Context {S : Type} (contribute : string -> PermissionGroup -> S -> S) (self : PermissionGroups).

(** [p] is inherited by the configured group [g]. *)
Definition inherited_by (p g : string) : Prop := exists group, groups self !! g = Some group /\ p ∈ inherits group.
Definition known (g : string) : Prop := is_Some (groups self !! g).

Definition contribute_name (s : S) (g : string) : S :=
  match groups self !! g with Some group => contribute g group s | None => s end.

Definition remaining (appended : gset string) : nat := size (dom (groups self) ∖ appended).

(** What appending a name adds: each new configured name once, everything
    inherited by a new name, nothing that is not inherited from it, and, when
    inheritance has no cycle, a group only after those it inherits. *)
Definition added (from : list string) (s : S) (appended : gset string) (done more : list string) (r : outcome () (S * gset string)) : Prop :=
  exists appended', r = Ok (foldl contribute_name s more, appended') /\ NoDup more /\ appended ⊆ appended' /\
    (forall x, x ∈ more <-> x ∈ appended' /\ x ∉ appended /\ known x) /\
    (forall x, x ∈ from -> x ∈ appended') /\
    (forall x, x ∈ appended' -> x ∈ appended \/ exists g, g ∈ from /\ rtc (flip inherited_by) g x) /\
    (forall x p, x ∈ appended' -> x ∉ appended -> inherited_by p x -> p ∈ appended') /\
    (well_founded inherited_by -> forall l1 x l2 p, more = (l1 ++ x :: l2)%list -> inherited_by p x -> known p -> p ∈ done \/ p ∈ l1).

(** The appended names that have not contributed are still being appended,
    and inherit [g]. *)
Definition pending (g : string) (appended : gset string) (done : list string) : Prop :=
  (forall x, x ∈ done -> x ∈ appended) /\
  (forall x, x ∈ appended -> known x -> x ∈ done \/ tc inherited_by g x).

Section EachParent.
Context (fuel : nat).

Fixpoint append_each (parents : list string) (st : S * gset string) : outcome () (S * gset string) :=
  match parents with
  | [] => Ok st
  | parent :: rest => let? st := append_group_with contribute fuel self parent st in append_each rest st
  end.
End EachParent.

Lemma append_each_groups fuel names st : append_groups_with contribute fuel self names st = append_each fuel names st.
Proof. revert st. induction names as [|g names IH]; intros st; [done|]. cbn. by destruct (append_group_with _ _ _ _ _); cbn; [rewrite IH|..]. Qed.

Lemma added_nil s appended done : added [] s appended done [] (Ok (s, appended)).
Proof.
  exists appended. split_and!; [done|constructor|done|..].
  - intros x. split; [by intros ?%not_elem_of_nil|tauto].
  - by intros x ?%not_elem_of_nil.
  - intros x Hx. by left.
  - by intros x p Hx Hn.
  - intros _ l1 x l2 p E. by destruct l1.
Qed.

Lemma added_already g s appended done : g ∈ appended -> added [g] s appended done [] (Ok (s, appended)).
Proof.
  intros Hg. destruct (added_nil s appended done) as (a & E & H1 & H2 & H3 & _ & H5 & H6 & H7). injection E as <-.
  exists appended. split_and!; [done..| | |done|done].
  - by intros x ->%list_elem_of_singleton.
  - intros x Hx. by left.
Qed.

Lemma foldl_app_names s l1 l2 : foldl contribute_name s (l1 ++ l2) = foldl contribute_name (foldl contribute_name s l1) l2.
Proof. apply foldl_app. Qed.

Lemma split_cases {A} (a b l1 l2 : list A) x : (a ++ b = l1 ++ x :: l2)%list ->
  (exists l, a = l1 ++ x :: l)%list \/ (exists l, l1 = a ++ l /\ b = l ++ x :: l2)%list.
Proof.
  revert l1. induction a as [|y a IH]; intros l1 E; [right; by exists l1|]. destruct l1 as [|z l1]; injection E as -> E.
  - left. exists a. done.
  - destruct (IH l1 E) as [[l ->]|(l & -> & Hb)]; [left; by exists l|right; by exists l].
Qed.

(** Two runs in sequence. *)
Lemma added_seq from1 from2 s appended done more1 more2 st r : added from1 s appended done more1 (Ok st) ->
  added from2 st.1 st.2 (done ++ more1) more2 r -> added (from1 ++ from2) s appended done (more1 ++ more2) r.
Proof.
  intros (a1 & E1 & N1 & S1 & M1 & F1 & R1 & C1 & O1) (a2 & -> & N2 & S2 & M2 & F2 & R2 & C2 & O2).
  injection E1 as ->. cbn [fst snd] in *. exists a2. split_and!.
  - by rewrite foldl_app_names.
  - apply NoDup_app. split_and!; [done| |done]. intros x Hx1 Hx2. apply M1 in Hx1 as (? & _). apply M2 in Hx2 as (_ & ? & _). done.
  - by etrans.
  - intros x. rewrite elem_of_app, M1, M2. split.
    + intros [(H1 & H2 & H3)|(H1 & H2 & H3)]; [split_and!; [by apply S2|done..]|]. split_and!; [done| |done]. intros H. by apply H2, S1.
    + intros (H1 & H2 & H3). destruct (decide (x ∈ a1)); [by left|by right].
  - intros x [Hx|Hx]%elem_of_app; [by apply S2, F1|by apply F2].
  - intros x Hx. destruct (R2 x Hx) as [H|(g & Hg & Hr)]; [|right; exists g; split; [by apply elem_of_app; right|done]].
    destruct (R1 x H) as [H'|(g & Hg & Hr)]; [by left|]. right. exists g. split; [by apply elem_of_app; left|done].
  - intros x p Hx Hn Hp. destruct (decide (x ∈ a1)) as [H|H]; [by apply S2, (C1 x)|by apply (C2 x)].
  - intros Hwf l1 x l2 p E Hp Hk. apply split_cases in E as [(l & ->)|(l & -> & ->)]; [by apply (O1 Hwf l1 x l p)|].
    destruct (O2 Hwf l x l2 p eq_refl Hp Hk) as [[H|H]%elem_of_app|H]; [by left|right; by apply elem_of_app; left|right; by apply elem_of_app; right].
Qed.

Lemma pending_more g from s appended done more st : pending g appended done -> added from s appended done more (Ok st) ->
  pending g st.2 (done ++ more).
Proof.
  intros [H1 H2] (a & E & _ & Hs & Hm & _). injection E as ->. cbn. split.
  - intros x [Hx|Hx]%elem_of_app; [by apply Hs, H1|by apply Hm in Hx as (? & _)].
  - intros x Hx Hk. rewrite elem_of_app. destruct (decide (x ∈ appended)) as [Hin|Hin].
    + destruct (H2 x Hin Hk); auto.
    + left. right. by apply Hm.
Qed.

Lemma remaining_le a b : a ⊆ b -> (remaining b <= remaining a)%nat.
Proof. intros H. unfold remaining. apply subseteq_size. set_solver. Qed.

Lemma append_each_ok fuel :
  (forall p s appended done, pending p appended done -> (remaining appended < fuel)%nat ->
     exists more, added [p] s appended done more (append_group_with contribute fuel self p (s, appended))) ->
  forall ps s appended done, (forall p, p ∈ ps -> pending p appended done) -> (remaining appended < fuel)%nat ->
  exists more, added ps s appended done more (append_each fuel ps (s, appended)).
Proof.
  intros Hnode. induction ps as [|p ps IH]; intros s appended done Hp Hf; [exists []; apply added_nil|].
  destruct (Hnode p s appended done) as [more1 H1]; [apply Hp; by left|done|]. cbn [append_each].
  pose proof H1 as (a & E & _ & Hs & _). rewrite E in *. cbn [obind].
  destruct (IH (foldl contribute_name s more1) a (done ++ more1)%list) as [more2 H2].
  - intros q Hq. by apply (pending_more q [p] s appended done more1 (foldl contribute_name s more1, a)); [apply Hp; right|].
  - pose proof (remaining_le _ _ Hs). lia.
  - exists (more1 ++ more2)%list. change (p :: ps) with ([p] ++ ps)%list. by eapply added_seq.
Qed.

Lemma append_unfold fuel g st : append_group_with contribute (Datatypes.S fuel) self g st =
  if decide (g ∈ st.2) then Ok st
  else match groups self !! g with
  | None => Ok (st.1, {[g]} ∪ st.2)
  | Some group => let? st := append_each fuel (inherits group) (st.1, {[g]} ∪ st.2) in Ok (contribute g group st.1, st.2)
  end.
Proof. reflexivity. Qed.

(** The group itself, after those it inherits. *)
Lemma added_group g group s appended done more st : groups self !! g = Some group -> g ∉ appended -> pending g appended done ->
  added (inherits group) s ({[g]} ∪ appended) done more (Ok st) ->
  added [g] s appended done (more ++ [g]) (Ok (contribute g group st.1, st.2)).
Proof.
  intros Hg Hn Hpend (a & E & N & Hs & Hm & F & R & C & O). injection E as ->. cbn [fst snd].
  assert (g ∉ more) as Hgm by (intros H; apply Hm in H as (_ & H & _); set_solver). exists a. split_and!.
  - rewrite foldl_app_names. cbn. unfold contribute_name at 2. by rewrite Hg.
  - apply NoDup_app. split_and!; [done| |apply NoDup_singleton]. intros x Hx ->%list_elem_of_singleton. done.
  - set_solver.
  - intros x. rewrite elem_of_app, Hm, list_elem_of_singleton. split.
    + intros [(H1 & H2 & H3)| ->]; [split_and!; [done|set_solver|done]|split_and!; [set_solver|done|by eexists]].
    + intros (H1 & H2 & H3). destruct (decide (x = g)) as [->|Hx]; [by right|left; split_and!; [done|set_solver|done]].
  - intros x ->%list_elem_of_singleton. set_solver.
  - intros x Hx. destruct (R x Hx) as [[->%elem_of_singleton|H]%elem_of_union|(p & Hp & Hr)].
    + right. exists g. split; [by left|done].
    + by left.
    + right. exists g. split; [by left|]. eapply rtc_l; [|exact Hr]. by exists group.
  - intros x p Hx Hnx Hp. destruct (decide (x = g)) as [->|Hne]; [|apply (C x); set_solver].
    destruct Hp as (group' & Hg' & Hp). rewrite Hg in Hg'. injection Hg' as <-. by apply F.
  - intros Hwf l1 x l2 p E Hp Hk. apply split_cases in E as [(l & ->)|(l & -> & E)]; [by apply (O Hwf l1 x l p)|].
    assert (x = g /\ l = []) as [-> ->] by (destruct l as [|y l]; [by injection E|by destruct l]). rewrite app_nil_r.
    pose proof Hp as (group' & Hg' & Hp'). rewrite Hg in Hg'. injection Hg' as <-. specialize (F p Hp').
    destruct (decide (p ∈ more)) as [|Hnm]; [by right|]. left.
    assert (forall y, tc inherited_by y y -> False) as Hirr.
    { intros y Hy. assert (forall z, Acc (tc inherited_by) z -> ~ tc inherited_by z z) as Hz by (induction 1 as [z _ IH]; intros H; by apply (IH z H)).
      by apply (Hz y); [apply acc_tc|]. }
    destruct (decide (p = g)) as [->|Hpg]; [by destruct (Hirr g); apply tc_once|].
    destruct (decide (p ∈ appended)) as [Hpa|Hpa]; [|destruct Hnm; apply Hm; split_and!; [done|set_solver|done]].
    destruct Hpend as [_ Hpend]. destruct (Hpend p Hpa Hk) as [|Htc]; [done|]. exfalso. apply (Hirr g).
    eapply tc_r; [exact Htc|exact Hp].
Qed.

Lemma append_group_ok fuel : forall g s appended done, pending g appended done -> (remaining appended < fuel)%nat ->
  exists more, added [g] s appended done more (append_group_with contribute fuel self g (s, appended)).
Proof.
  induction fuel as [|fuel IH]; intros g s appended done Hp Hf; [lia|]. rewrite append_unfold. cbn [fst snd].
  destruct (decide (g ∈ appended)) as [Hin|Hin]; [exists []; by apply added_already|].
  destruct (groups self !! g) as [group|] eqn:Hg.
  - destruct (append_each_ok fuel IH (inherits group) s ({[g]} ∪ appended) done) as [more H].
    + intros p Hpg. assert (inherited_by p g) as Hpg' by (by exists group). destruct Hp as [H1 H2]. split; [set_solver|].
      intros x [->%elem_of_singleton|Hx]%elem_of_union Hk; [right; by apply tc_once|].
      destruct (H2 x Hx Hk); [by left|]. right. by eapply tc_l.
    + assert (remaining ({[g]} ∪ appended) < remaining appended)%nat; [|lia]. unfold remaining. apply subset_size.
      apply elem_of_dom_2 in Hg. split; [set_solver|]. intros Hsub. specialize (Hsub g). set_solver.
    + pose proof H as (a & E & _). rewrite E in H |- *. cbn [obind]. exists (more ++ [g])%list. by apply (added_group g group s appended done more).
  - exists []. exists ({[g]} ∪ appended). split_and!; [done|constructor|set_solver|..].
    + intros x. split; [by intros ?%not_elem_of_nil|]. intros ([->%elem_of_singleton|H]%elem_of_union & Hn & [v Hv]); congruence.
    + intros x ->%list_elem_of_singleton. set_solver.
    + intros x [->%elem_of_singleton|H]%elem_of_union; [|by left]. right. exists g. split; [by left|done].
    + intros x p [->%elem_of_singleton|H]%elem_of_union Hn (group & Hgr & _); [congruence|done].
    + intros _ l1 x l2 p E. by destruct l1.
Qed.

Lemma append_groups_ok names s appended done : (forall p, p ∈ names -> pending p appended done) ->
  exists more, added names s appended done more (append_groups_with contribute (depth_bound (groups self)) self names (s, appended)).
Proof.
  intros Hp. rewrite append_each_groups. apply append_each_ok; [apply append_group_ok|done|].
  unfold depth_bound, remaining. assert (size (dom (groups self) ∖ appended) <= size (groups self))%nat; [|lia].
  rewrite <- size_dom. apply subseteq_size. set_solver.
Qed.

(** The names that contribute from empty, in their order. *)
Definition contributes (names order : list string) : Prop :=
  NoDup order /\ (forall g, g ∈ order <-> known g /\ exists root, root ∈ names /\ rtc (flip inherited_by) root g) /\
  (well_founded inherited_by -> forall l1 g l2 p, order = (l1 ++ g :: l2)%list -> inherited_by p g -> known p -> p ∈ l1).

Lemma append_from_empty defaults assigned s : exists order a1 a2 st,
  append_groups_with contribute (depth_bound (groups self)) self defaults (s, ∅) = Ok (st, a1) /\
  append_groups_with contribute (depth_bound (groups self)) self assigned (st, a1) = Ok (foldl contribute_name s order, a2) /\
  contributes (defaults ++ assigned) order.
Proof.
  destruct (append_groups_ok defaults s ∅ []) as [more1 H1].
  { intros p _. split; [by intros x ?%not_elem_of_nil|by intros x ?%not_elem_of_empty]. }
  pose proof H1 as (a1 & E1 & _). rewrite E1 in H1.
  destruct (append_groups_ok assigned (foldl contribute_name s more1) a1 more1) as [more2 H2].
  { intros p _. apply (pending_more p defaults s ∅ [] more1 (foldl contribute_name s more1, a1)); [|done].
    split; [by intros x ?%not_elem_of_nil|by intros x ?%not_elem_of_empty]. }
  pose proof (added_seq defaults assigned s ∅ [] more1 more2 _ _ H1 H2) as (a2 & E & N & _ & M & F & R & C & O).
  exists (more1 ++ more2)%list, a1, a2, (foldl contribute_name s more1). rewrite E1, E. split_and!; [done..|]. split_and!; [done| |].
  - assert (forall root, root ∈ a2 -> forall g, rtc (flip inherited_by) root g -> g ∈ a2) as Hcl.
    { intros root Hroot g Hr. revert Hroot. induction Hr as [|x y z Hxy _ IH]; intros Hx; [done|]. apply IH.
      apply (C x y Hx); [by intros ?%not_elem_of_empty|exact Hxy]. }
    intros g. rewrite M. split.
    + intros (Hg & _ & Hk). split; [done|]. by destruct (R g Hg) as [?%not_elem_of_empty|H].
    + intros (Hk & root & Hroot & Hr). split_and!; [by apply (Hcl root); [apply F|]|by intros ?%not_elem_of_empty|done].
  - intros Hwf l1 g l2 p E' Hp Hk. by destruct (O Hwf l1 g l2 p E' Hp Hk) as [?%not_elem_of_nil|].
Qed.
End Append.

(** ** What a subject is given *)

Definition group_rules (self : PermissionGroups) (g : string) : list (PermissionEntry * PermissionResolutionSource) :=
  match groups self !! g with
  | Some group => map (fun e => (e, Group g (priority group))) (PermissionSet.entries (permissions group))
  | None => []
  end.
Definition group_metas (self : PermissionGroups) (g : string) : list (PermissionMetadataEntry * PermissionResolutionSource) :=
  match groups self !! g with
  | Some group => map (fun e => (e, Group g (priority group))) (PermissionMetadata.entries (metadata group))
  | None => []
  end.

Lemma push_all_rules (f : PermissionEntry -> PermissionResolutionSource) es : forall eff, set_ok eff ->
  let eff' := foldl (fun eff e => PermissionSet.push_with_source eff e (f e)) eff es in
  set_ok eff' /\ rules eff' = (rules eff ++ map (fun e => (e, f e)) es)%list.
Proof.
  induction es as [|e es IH]; intros eff Hs; [by rewrite app_nil_r|]. cbn [foldl map].
  destruct (push_rules eff e (f e) Hs) as [H1 H2]. destruct (IH _ H1) as [H3 H4]. split; [done|]. by rewrite H4, H2, <- app_assoc.
Qed.

Lemma contribute_rules self order : forall eff, set_ok eff ->
  let eff' := foldl (contribute_name push_group_rules self) eff order in
  set_ok eff' /\ rules eff' = (rules eff ++ concat (map (group_rules self) order))%list.
Proof.
  induction order as [|g order IH]; intros eff Hs; [by rewrite app_nil_r|]. cbn [foldl map concat]. unfold contribute_name at 2 4, group_rules at 1.
  destruct (groups self !! g) as [group|]; [|by apply IH].
  destruct (push_all_rules (fun _ => Group g (priority group)) (PermissionSet.entries (permissions group)) eff Hs) as [H1 H2].
  destruct (IH (push_group_rules g group eff) H1) as [H3 H4]. split; [done|]. rewrite H4.
  by rewrite (H2 : rules (push_group_rules g group eff) = _), <- app_assoc.
Qed.

Definition metas_ok (self : PermissionMetadataSet) : Prop := length (PermissionMetadata.entries self) = length (PermissionMetadata.sources self).

Lemma push_all_metas (f : PermissionMetadataEntry -> PermissionResolutionSource) es : forall eff, metas_ok eff ->
  let eff' := foldl (fun eff e => PermissionMetadata.push_with_source eff e (f e)) eff es in
  metas_ok eff' /\ metas eff' = (metas eff ++ map (fun e => (e, f e)) es)%list.
Proof.
  induction es as [|e es IH]; intros eff Hs; [by rewrite app_nil_r|]. cbn [foldl map].
  assert (metas_ok (PermissionMetadata.push_with_source eff e (f e)) /\
    metas (PermissionMetadata.push_with_source eff e (f e)) = (metas eff ++ [(e, f e)])%list) as [H1 H2].
  { unfold metas_ok, metas in *. cbn. split; [rewrite !length_app; cbn; lia|]. by rewrite zip_with_app. }
  destruct (IH _ H1) as [H3 H4]. split; [done|]. by rewrite H4, H2, <- app_assoc.
Qed.

Lemma contribute_metas self order : forall eff, metas_ok eff ->
  let eff' := foldl (contribute_name push_group_metadata self) eff order in
  metas_ok eff' /\ metas eff' = (metas eff ++ concat (map (group_metas self) order))%list.
Proof.
  induction order as [|g order IH]; intros eff Hs; [by rewrite app_nil_r|]. cbn [foldl map concat]. unfold contribute_name at 2 4, group_metas at 1.
  destruct (groups self !! g) as [group|]; [|by apply IH].
  destruct (push_all_metas (fun _ => Group g (priority group)) (PermissionMetadata.entries (metadata group)) eff Hs) as [H1 H2].
  destruct (IH (push_group_metadata g group eff) H1) as [H3 H4]. split; [done|]. rewrite H4.
  by rewrite (H2 : metas (push_group_metadata g group eff) = _), <- app_assoc.
Qed.

Lemma effective_permissions_ok self assigned subject : exists order eff,
  effective_permissions self assigned subject = Ok eff /\ set_ok eff /\
  contributes self (default_groups self ++ assigned) order /\
  rules eff = (concat (map (group_rules self) order) ++ map (fun e => (e, Subject)) (PermissionSet.entries subject))%list.
Proof.
  destruct (append_from_empty push_group_rules self (default_groups self) assigned PermissionSet.new) as (order & a1 & a2 & st & E1 & E2 & H).
  destruct (contribute_rules self order PermissionSet.new eq_refl) as [H1 H2].
  destruct (push_all_rules (fun _ => Subject) (PermissionSet.entries subject) _ H1) as [H3 H4].
  exists order. unfold effective_permissions. rewrite E1. cbn [obind]. rewrite E2. cbn [obind fst]. eexists. split_and!; [done|exact H3|done|].
  unfold PermissionSet.push. by rewrite H4, H2.
Qed.

Lemma contributes_perm self names names' order order' : (forall g, g ∈ names <-> g ∈ names') ->
  contributes self names order -> contributes self names' order' -> order ≡ₚ order'.
Proof.
  intros Hn (N & H & _) (N' & H' & _). apply NoDup_Permutation; [done..|]. intros g. rewrite H, H'.
  split; intros (Hk & root & Hr & Hp); (split; [done|]); exists root; (split; [by apply Hn|done]).
Qed.

Lemma concat_perm {A B} (f : A -> list B) l l' : l ≡ₚ l' -> concat (map f l) ≡ₚ concat (map f l').
Proof.
  induction 1 as [|x l l' _ IH|x y l|]; cbn; [done|by rewrite IH| |by etrans]. by rewrite !app_assoc, (Permutation_app_comm (f y)).
Qed.

(** C30: the permissions of a subject are those of its groups and its own.
    Whatever the groups inherit, building them ends.  They are the rules of each
    configured group that is a default, assigned, or inherited from one, once
    each and with the group as their source, and then the subject's own rules,
    the groups inherited before those that inherit them when there is no cycle;
    the metadata is built alike, so an entry of a group comes after, and at equal
    standing wins against, those of the groups it inherits.  The answers do not
    depend on the order groups are assigned in. *)
Theorem effective_permissions_exact self assigned :
  (forall subject, exists order eff,
     effective_permissions self assigned subject = Ok eff /\ set_ok eff /\
     contributes self (default_groups self ++ assigned) order /\
     rules eff = (concat (map (group_rules self) order) ++ map (fun e => (e, Subject)) (PermissionSet.entries subject))%list) /\
  (forall subject, exists order eff,
     effective_metadata self assigned subject = Ok eff /\ metas_ok eff /\
     contributes self (default_groups self ++ assigned) order /\
     metas eff = (concat (map (group_metas self) order) ++ map (fun e => (e, Subject)) (PermissionMetadata.entries subject))%list) /\
  (forall subject assigned' eff eff', (forall g, g ∈ assigned <-> g ∈ assigned') ->
     effective_permissions self assigned subject = Ok eff -> effective_permissions self assigned' subject = Ok eff' ->
     forall permission context, PermissionSet.resolve_in eff permission context = PermissionSet.resolve_in eff' permission context).
Proof.
  split_and!; [intros subject; apply effective_permissions_ok| |].
  - intros subject.
    destruct (append_from_empty push_group_metadata self (default_groups self) assigned PermissionMetadata.new) as (order & a1 & a2 & st & E1 & E2 & H).
    destruct (contribute_metas self order PermissionMetadata.new eq_refl) as [H1 H2].
    destruct (push_all_metas (fun _ => Subject) (PermissionMetadata.entries subject) _ H1) as [H3 H4].
    exists order. unfold effective_metadata. rewrite E1. cbn [obind]. rewrite E2. cbn [obind fst]. eexists. split_and!; [done|exact H3|done|].
    unfold PermissionMetadata.push. by rewrite H4, H2.
  - intros subject assigned' eff eff' Ha E E' permission context.
    destruct (effective_permissions_ok self assigned subject) as (order & e & E1 & _ & H1 & R1). rewrite E in E1. injection E1 as <-.
    destruct (effective_permissions_ok self assigned' subject) as (order' & e & E1 & _ & H2 & R2). rewrite E' in E1. injection E1 as <-.
    apply resolve_perm. rewrite R1, R2. apply Permutation_app_tail, concat_perm.
    eapply (contributes_perm self _ _ order order'); [|exact H1|exact H2]. intros g. rewrite !elem_of_app, Ha. done.
Qed.

(** ** Parsed groups *)

(** Groups that can be served: what they name is configured, and inheritance
    has no cycle. *)
Definition groups_valid (self : PermissionGroups) : Prop :=
  (forall d, d ∈ default_groups self -> known self d) /\ known self OP_GROUP /\
  (forall p g, inherited_by self p g -> known self p) /\ well_founded (inherited_by self).

Definition parsed_from (name : string) (config : PermissionGroupConfig) (group : PermissionGroup) : Prop :=
  priority group = config_priority config /\ inherits group = config_inherits config /\
  parse_group_permissions name (config_allow config) (config_deny config) = Ok (permissions group) /\
  parse_group_metadata name (config_metadata config) = Ok (metadata group).

Lemma check_defaults_ok config names : check_defaults config names = Ok () ->
  forall d, d ∈ names -> is_Some (config_groups config !! d).
Proof.
  induction names as [|n names IH]; cbn; [intros _ d Hd; by apply not_elem_of_nil in Hd|].
  destruct (validate_group_name n) as [[]|e|]; cbn; try done. destruct (config_groups config !! n) eqn:E; [|done].
  intros H d [->|Hd]%elem_of_cons; [by eexists|by apply IH].
Qed.

Lemma parse_groups_ok entries : NoDup (map fst entries) -> forall acc r, parse_groups entries acc = Ok r ->
  forall name, (forall c, (name, c) ∈ entries -> exists g, r !! name = Some g /\ parsed_from name c g) /\
               (name ∉ map fst entries -> r !! name = acc !! name).
Proof.
  induction entries as [|[n c] entries IH]; intros Hnd acc r; cbn [parse_groups].
  { intros [= <-] name. split; [intros c Hc; by apply not_elem_of_nil in Hc|done]. }
  cbn [map fst] in Hnd. apply NoDup_cons in Hnd as [Hn Hnd]. destruct (validate_group_name n) as [[]|e|]; cbn [obind]; try done.
  destruct (parse_group_permissions n _ _) as [ps|e|] eqn:Ep; cbn [obind]; try done.
  destruct (parse_group_metadata n _) as [ms|e|] eqn:Em; cbn [obind]; try done. intros H name.
  destruct (IH Hnd _ _ H name) as [H1 H2]. split.
  - intros c' [[= -> ->]|Hc]%elem_of_cons; [|by apply H1]. rewrite H2, lookup_insert_eq by done. eexists. split; [done|]. by split_and!.
  - cbn [map fst]. rewrite not_elem_of_cons. intros [Hne Hni]. by rewrite H2, lookup_insert_ne.
Qed.

Lemma btree_iter_nodup {V} (m : gmap string V) : NoDup (map fst (btree_iter m)).
Proof. unfold btree_iter. rewrite (sort_by_perm _). apply NoDup_fst_map_to_list. Qed.

Lemma from_config_ok config self : from_config config = Ok self ->
  default_groups self = config_default_groups config /\ groups_valid self /\
  forall name, match config_groups config !! name, groups self !! name with
    | Some c, Some g => parsed_from name c g
    | None, None => True
    | _, _ => False
    end.
Proof.
  unfold from_config. intros H. destruct (check_defaults _ _) as [[]|e|] eqn:Ed; cbn [obind] in H; [|discriminate H..].
  pose proof (check_defaults_ok _ _ Ed) as Hd.
  destruct (config_groups config !! OP_GROUP) as [op|] eqn:Eop; [|discriminate H]. pose proof (validate_inheritance_ok config) as Hi.
  destruct (validate_group_inheritance config) as [[]|e|]; cbn [obind] in H; [|discriminate H..].
  destruct (parse_groups _ _) as [gs|e|] eqn:Eg; cbn [obind] in H; [|discriminate H..]. injection H as <-. cbn [default_groups groups].
  assert (forall name, match config_groups config !! name, gs !! name with
    | Some c, Some g => parsed_from name c g | None, None => True | _, _ => False end) as Hp.
  { intros name. destruct (parse_groups_ok _ (btree_iter_nodup _) _ _ Eg name) as [H1 H2].
    destruct (config_groups config !! name) as [c|] eqn:E.
    - destruct (H1 c) as (g & -> & Hg); [by apply btree_iter_elem|done].
    - rewrite H2; [by rewrite lookup_empty|]. intros ([n c] & -> & Hc%btree_iter_elem)%list_elem_of_fmap_1. cbn in E. congruence. }
  assert (forall name, is_Some (config_groups config !! name) -> is_Some (gs !! name)) as Hk.
  { intros name [c Hc]. specialize (Hp name). rewrite Hc in Hp. by destruct (gs !! name). }
  assert (forall p g, inherited_by (mk_groups (config_default_groups config) gs) p g -> parent_of config p g) as Hpar.
  { intros p g (group & Hg & Hin). cbn in Hg. specialize (Hp g). rewrite Hg in Hp. destruct (config_groups config !! g) as [c|] eqn:E; [|done].
    exists c. split; [done|]. by destruct Hp as (_ & <- & _). }
  destruct Hi as [Hcl Hwf]. split_and!; [done| |done]. unfold groups_valid. cbn [default_groups]. split_and!.
  - intros d Hin. by apply Hk, Hd.
  - apply Hk. by eexists.
  - intros p g Hin. apply Hk. by apply (Hcl g p), Hpar.
  - intros x. induction (Hwf x) as [x _ IH]. constructor. intros y Hy. by apply IH, Hpar.
Qed.

(** ** The manager

    [updates] serialises the updates, so each is one step.  The store is code
    outside: an update is given the answer its [save_groups] returns, if the
    manager has a store, and [saved] lists the configurations it accepted. *)

#[export] Instance PermissionMetadataValue_eq_dec : EqDecision PermissionMetadataValue.
Proof. solve_decision. Defined.
#[export] Instance PermissionMetadataRuleConfig_eq_dec : EqDecision PermissionMetadataRuleConfig.
Proof. solve_decision. Defined.
#[export] Instance PermissionGroupConfig_eq_dec : EqDecision PermissionGroupConfig.
Proof. solve_decision. Defined.
#[export] Instance PermissionGroupsConfig_eq_dec : EqDecision PermissionGroupsConfig.
Proof. solve_decision. Defined.

Record PermissionGroupManager := mk_manager {
  state_config : PermissionGroupsConfig;
  state_groups : PermissionGroups;
  has_store : bool;
  saved : list PermissionGroupsConfig
}.

Inductive PermissionGroupManagerError (StoreError : Type) :=
| Config (source : PermissionConfigError)
| Store (source : StoreError).
Arguments Config {StoreError} source.
Arguments Store {StoreError} source.

Inductive PermissionGroupUpdateError (StoreError E : Type) :=
| Edit (source : E)
| Manager (source : PermissionGroupManagerError StoreError).
Arguments Edit {StoreError E} source.
Arguments Manager {StoreError E} source.

Definition new_manager (config : PermissionGroupsConfig) (store : bool) : outcome PermissionConfigError PermissionGroupManager :=
  let? groups := from_config config in Ok (mk_manager config groups store []).

Section ManagerOps.
Context {StoreError : Type}.

Definition replace_config_locked (self : PermissionGroupManager) (config : PermissionGroupsConfig) (answer : outcome StoreError ()) : outcome (PermissionGroupManagerError StoreError) () * PermissionGroupManager :=
  match from_config config with
  | Err e => (Err (Config e), self)
  | Panic => (Panic, self)
  | Ok groups =>
      if has_store self then
        match answer with
        | Err e => (Err (Store e), self)
        | Panic => (Panic, self)
        | Ok _ => (Ok (), mk_manager config groups true (saved self ++ [config])%list)
        end
      else (Ok (), mk_manager config groups false (saved self))
  end.

Definition replace_config := replace_config_locked.

Definition update_config (self : PermissionGroupManager) (update : PermissionGroupsConfig -> PermissionGroupsConfig) answer :=
  replace_config_locked self (update (state_config self)) answer.

Definition try_update_config {T E} (self : PermissionGroupManager) (update : PermissionGroupsConfig -> outcome E (T * PermissionGroupsConfig)) answer : outcome (PermissionGroupUpdateError StoreError E) T * PermissionGroupManager :=
  match update (state_config self) with
  | Err e => (Err (Edit e), self)
  | Panic => (Panic, self)
  | Ok (result, config) =>
      if decide (config = state_config self) then (Ok result, self)
      else match replace_config_locked self config answer with
           | (Ok _, self) => (Ok result, self)
           | (Err e, self) => (Err (Manager e), self)
           | (Panic, self) => (Panic, self)
           end
  end.

(** Managers after any updates. *)
Inductive reachable_manager : PermissionGroupManager -> Prop :=
| reach_new config store m : new_manager config store = Ok m -> reachable_manager m
| reach_replace m config answer : reachable_manager m -> reachable_manager (replace_config m config answer).2
| reach_update m update answer : reachable_manager m -> reachable_manager (update_config m update answer).2
| reach_try T E m (update : PermissionGroupsConfig -> outcome E (T * PermissionGroupsConfig)) answer :
    reachable_manager m -> reachable_manager (try_update_config m update answer).2.

(** The groups served are those of the configuration, and the store's last
    configuration is the one served. *)
Definition manager_ok (m : PermissionGroupManager) : Prop :=
  from_config (state_config m) = Ok (state_groups m) /\
  (saved m = [] \/ has_store m = true /\ last (saved m) = Some (state_config m)).

(** An update that succeeds serves the new configuration; one that fails
    changes nothing. *)
Lemma replace_locked_ok m config answer : manager_ok m ->
  manager_ok (replace_config_locked m config answer).2 /\
  match (replace_config_locked m config answer).1 with
  | Ok _ => state_config (replace_config_locked m config answer).2 = config
  | _ => (replace_config_locked m config answer).2 = m
  end.
Proof.
  intros Hm. pose proof Hm as [Hc Hs]. unfold replace_config_locked. destruct (from_config config) as [gs|e|] eqn:E; [|split; [exact Hm|reflexivity]..].
  destruct (has_store m) eqn:Es; [destruct answer as [[]|e|]|].
  - split; [|reflexivity]. split; [exact E|]. right. split; [reflexivity|]. cbn [saved]. apply last_snoc.
  - split; [exact Hm|reflexivity].
  - split; [exact Hm|reflexivity].
  - split; [|reflexivity]. split; [exact E|]. left. cbn [saved]. by destruct Hs as [Hs|[Hs _]].
Qed.

Lemma try_update_ok {T E} m (update : PermissionGroupsConfig -> outcome E (T * PermissionGroupsConfig)) answer : manager_ok m ->
  manager_ok (try_update_config m update answer).2 /\
  match (try_update_config m update answer).1 with
  | Ok result => exists config, update (state_config m) = Ok (result, config) /\ state_config (try_update_config m update answer).2 = config
  | _ => (try_update_config m update answer).2 = m
  end.
Proof.
  intros Hm. unfold try_update_config. destruct (update (state_config m)) as [[result config]|e|]; [|by split..].
  destruct (decide (config = state_config m)) as [->|Hn]; [split; [done|by eexists]|].
  pose proof (replace_locked_ok m config answer Hm) as [H1 H2].
  destruct (replace_config_locked m config answer) as [[[]|e|] m']; cbn [fst snd] in *; [|by split..]. split; [done|by eexists].
Qed.

(** The groups served are valid.  Whatever updates a manager has
    accepted or refused, with or without a store, the groups it serves are
    those its configuration parses to: each group has the rules, metadata,
    priority and parents its own entry describes, the default groups, the
    operator group and every inherited group exist, and inheritance has no cycle.
    The store, once written, holds the configuration served last: an update
    the validation or the store refuses, or whose edit fails, changes nothing,
    and one that succeeds serves the edited configuration. *)
Theorem served_groups_valid m : reachable_manager m ->
  manager_ok m /\ groups_valid (state_groups m) /\
  (forall name, match config_groups (state_config m) !! name, groups (state_groups m) !! name with
     | Some c, Some g => parsed_from name c g
     | None, None => True
     | _, _ => False
     end) /\
  (forall T E (update : PermissionGroupsConfig -> outcome E (T * PermissionGroupsConfig)) answer,
     match (try_update_config m update answer).1 with
     | Ok result => exists config, update (state_config m) = Ok (result, config) /\ state_config (try_update_config m update answer).2 = config
     | _ => (try_update_config m update answer).2 = m
     end).
Proof.
  intros H. assert (manager_ok m) as Hm.
  { induction H as [config store m Hn|m config answer _ IH|m update answer _ IH|T E m update answer _ IH].
    - unfold new_manager in Hn. destruct (from_config config) as [gs|e|] eqn:E; [|discriminate Hn..]. injection Hn as <-. split; [exact E|by left].
    - by apply replace_locked_ok.
    - by apply replace_locked_ok.
    - by apply try_update_ok. }
  destruct (from_config_ok _ _ (proj1 Hm)) as (_ & H1 & H2). split_and!; [done|done|done|].
  intros T E update answer. by apply try_update_ok.
Qed.
End ManagerOps.

(** ** Subjects *)

Record PermissionSubjectState := mk_subject {
  subject_groups : list string;
  overrides : PermissionSet;
  metadata_overrides : PermissionMetadataSet
}.

Definition subject_is_empty (s : PermissionSubjectState) : bool :=
  bool_decide (subject_groups s = []) &&
  match PermissionSet.entries (overrides s) with [] => true | _ => false end &&
  PermissionMetadata.is_empty (metadata_overrides s).

(** [PermissionSubjectIndex], by the number of the UUID *)
Definition PermissionSubjectIndex : Type := gmap Z PermissionSubjectState.
Definition get_subject (self : PermissionSubjectIndex) (uuid : Z) : option PermissionSubjectState := self !! uuid.
Definition set_subject (self : PermissionSubjectIndex) (uuid : Z) (state : PermissionSubjectState) : PermissionSubjectIndex := <[uuid := state]> self.
Definition remove_subject (self : PermissionSubjectIndex) (uuid : Z) : option PermissionSubjectState * PermissionSubjectIndex :=
  (self !! uuid, delete uuid self).

Module Example1.

(** [mod] may use every command but [stop]; [admin] inherits [mod]. *)
Definition config : PermissionGroupsConfig :=
  mk_groups_config ["default"]
    (<["mod" := mk_group_config 10 ["default"] ["minecraft.command.*"] ["minecraft.command.stop{world=lobby:hub}"] []]>
    (<["admin" := mk_group_config 10 ["mod"; "default"] ["minecraft.command.stop"] [] [mk_metadata_rule "steel:prefix" (Text "admin")]]>
       (config_groups default_config))).

Definition served : PermissionGroups := match from_config config with Ok gs => gs | _ => mk_groups [] ∅ end.
Definition manager : PermissionGroupManager := mk_manager config served true [].

Definition effective (assigned : list string) : PermissionSet :=
  match effective_permissions served assigned PermissionSet.new with Ok eff => eff | _ => PermissionSet.new end.

Example admin_stops :
  let answer groups world := PermissionSet.resolve_in (effective groups) (Key (mk_key "minecraft.command.stop")) (for_world world) in
  answer ["admin"] (mk_id "survival" "overworld") = Some Allow /\
  answer ["admin"] (mk_id "lobby" "hub") = Some Deny /\
  answer ["mod"] (mk_id "survival" "overworld") = Some Allow /\
  answer [] (mk_id "survival" "overworld") = None /\
  map snd (rules (effective ["admin"])) = [Group "mod" 10; Group "mod" 10; Group "admin" 10].
Proof. vm_compute. done. Qed.

Example cycle_refused :
  validate_group_inheritance (mk_groups_config [] (<["a" := mk_group_config 0 ["b"] [] [] []]> (<["b" := mk_group_config 0 ["a"] [] [] []]> ∅))) =
  Err (InheritedGroupCycle ["a"; "b"; "a"]).
Proof. vm_compute. done. Qed.

Lemma served_groups_valid_witness :
  reachable_manager (StoreError := ()) manager /\ manager_ok manager /\ groups_valid (state_groups manager).
Proof.
  assert (reachable_manager (StoreError := ()) manager) as H by (apply (reach_new config true manager); vm_compute; reflexivity).
  split; [exact H|]. destruct (served_groups_valid (StoreError := ()) manager H) as (H1 & H2 & _). exact (conj H1 H2).
Defined.

End Example1.
