(* ===== verification/RegionFormat.v ===== *)
(** * The region file format

    Models [steel-core/src/chunk_saver/format.rs], the part that lays out a
    region file: the 8-byte file header, the table of 1024 chunk entries, the
    search for free sectors and the position and name of a region.

    An entry is 8 bytes: the sector of the chunk's data (u32, 0 when there is
    no chunk), the size of the data (u24) and the chunk's status.  The data
    of a chunk fills whole sectors of 4096 bytes, from sector 3 on. *)

From Stdlib Require Import Lia ZArith Ascii String.
From stdpp Require Import prelude list strings countable sorting pretty.
From S2P Require Import Prelude Io Collections Identifier Strings Position ChunkPyramid.

#[local] Open Scope list_scope.

(** ** Constants *)

Definition REGION_MAGIC : list Z := [83; 84; 76; 82].
Definition FORMAT_VERSION : Z := 23.
Definition REGION_SIZE : Z := 32.
Definition CHUNKS_PER_REGION : Z := REGION_SIZE * REGION_SIZE.
Definition SECTOR_SIZE : Z := 4096.
Definition FILE_HEADER_SIZE : Z := 8.
Definition CHUNK_TABLE_SIZE : Z := CHUNKS_PER_REGION * 8.
Definition TOTAL_HEADER_SIZE : Z := FILE_HEADER_SIZE + CHUNK_TABLE_SIZE.
Definition FIRST_DATA_SECTOR : Z := 3.
Definition MAX_CHUNK_SIZE : Z := 16 * 1024 * 1024.

(** [usize::div_ceil] *)
Definition usize_div_ceil (a b : Z) : Z := if 0 <? a mod b then a / b + 1 else a / b.

(** ** [ChunkEntry] *)

Record ChunkEntry := mk_entry {
  sector_offset : Z;
  size_bytes : Z;
  entry_status : ChunkStatus
}.

#[export] Instance ChunkEntry_eq_dec : EqDecision ChunkEntry.
Proof. solve_decision. Defined.

Definition entry_exists (e : ChunkEntry) : bool := negb (sector_offset e =? 0).

Definition empty_entry : ChunkEntry := mk_entry 0 0 Empty.

Definition sector_count (e : ChunkEntry) : Z :=
  if size_bytes e =? 0 then 0 else u32 (usize_div_ceil (size_bytes e) SECTOR_SIZE).

Definition entry_to_bytes (e : ChunkEntry) : list Z :=
  let offset_bytes := to_le_bytes 4 (sector_offset e) in
  let size := to_le_bytes 4 (size_bytes e) in
  let flags := u8 (Z.of_nat (get_index (entry_status e))) in
  offset_bytes ++ take 3 size ++ [flags].

(** The argument is an array of 8 bytes. *)
Definition entry_from_bytes (bytes : list Z) : option ChunkEntry :=
  let offset := from_le_bytes (take 4 bytes) in
  let size := from_le_bytes (take 3 (drop 4 bytes) ++ [0]) in
  let flags := default 0 (bytes !! 7%nat) in
  status ← (if offset =? 0 then Some Empty else from_index (Z.to_nat flags));
  Some (mk_entry offset size status).

(** ** [RegionHeader] *)

Record RegionHeader := mk_header { entries : list ChunkEntry }.

Definition header_new : RegionHeader :=
  mk_header (replicate (Z.to_nat CHUNKS_PER_REGION) empty_entry).

Definition chunk_index (local_x local_z : Z) : Z := local_z * REGION_SIZE + local_x.

Definition index_to_local (index : Z) : Z * Z := (index mod REGION_SIZE, index / REGION_SIZE).

(** [header.entries[index]] and its update; the index is below 1024. *)
Definition entry_at (h : RegionHeader) (index : Z) : ChunkEntry :=
  default empty_entry (entries h !! Z.to_nat index).
Definition set_entry (h : RegionHeader) (index : Z) (e : ChunkEntry) : RegionHeader :=
  mk_header (<[Z.to_nat index := e]> (entries h)).

Definition header_to_bytes (h : RegionHeader) : list Z := concat (entry_to_bytes <$> entries h).

(** The loop over [as_chunks::<8>]; the error is the index of the entry. *)
Fixpoint parse_entries (i : nat) (bytes : list Z) : outcome nat (list ChunkEntry) :=
  match bytes with
  | b0 :: b1 :: b2 :: b3 :: b4 :: b5 :: b6 :: b7 :: rest =>
      match entry_from_bytes [b0; b1; b2; b3; b4; b5; b6; b7] with
      | None => Err i
      | Some entry => let? es := parse_entries (S i) rest in Ok (entry :: es)
      end
  | _ => Ok []
  end.

Definition header_from_bytes (bytes : list Z) : outcome nat RegionHeader :=
  if decide (Z.of_nat (length bytes) = CHUNK_TABLE_SIZE)
  then let? es := parse_entries 0 bytes in Ok (mk_header es)
  else Panic.

(** ** Free sectors *)

Definition used_range (e : ChunkEntry) : Z * Z :=
  (sector_offset e, u32 (sector_offset e + sector_count e)).

Definition used_ranges (h : RegionHeader) : list (Z * Z) :=
  sort_by (contramap fst Z.compare) (used_range <$> filter (fun e => entry_exists e) (entries h)).

(** The loop: [inl] is the gap it returns, [inr] the sector it ends with. *)
Fixpoint gap_loop (sectors_needed : Z) (ranges : list (Z * Z)) (current_sector : Z) : Z + Z :=
  match ranges with
  | [] => inr current_sector
  | (start, end_) :: ranges =>
      if u32 (current_sector + sectors_needed) <=? start then inl current_sector
      else gap_loop sectors_needed ranges (Z.max current_sector end_)
  end.

Definition find_free_sectors (h : RegionHeader) (sectors_needed file_sectors : Z) : Z :=
  if sectors_needed =? 0 then FIRST_DATA_SECTOR
  else match gap_loop sectors_needed (used_ranges h) FIRST_DATA_SECTOR with
       | inl gap => gap
       | inr current_sector => Z.max current_sector file_sectors
       end.

(** ** [RegionPos] *)

Record RegionPos := mk_region { rx : Z; rz : Z }.

#[export] Instance RegionPos_eq_dec : EqDecision RegionPos.
Proof. solve_decision. Defined.
#[export] Program Instance RegionPos_countable : Countable RegionPos :=
  inj_countable' (fun p => (rx p, rz p)) (fun t => mk_region t.1 t.2) _.
Next Obligation. by intros []. Qed.

Definition from_chunk (chunk_x chunk_z : Z) : RegionPos :=
  mk_region (chunk_x / REGION_SIZE) (chunk_z / REGION_SIZE).

Definition local_chunk_pos (chunk_x chunk_z : Z) : Z * Z :=
  (chunk_x mod REGION_SIZE, chunk_z mod REGION_SIZE).

Definition filename (pos : RegionPos) : string :=
  "r." +:+ pretty (rx pos) +:+ "." +:+ pretty (rz pos) +:+ ".srg".

(** ** Entries and their bytes *)

(** What the table can hold: an empty entry has no status of its own, and
    the size is 24 bits wide. *)
Definition entry_wf (e : ChunkEntry) : Prop :=
  is_u 32 (sector_offset e) /\ 0 <= size_bytes e < 2 ^ 24 /\
  (sector_offset e = 0 -> entry_status e = Empty).

Lemma empty_entry_wf : entry_wf empty_entry.
Proof. split; [|split]; simpl; unfold is_u; lia || done. Qed.

Lemma from_get_index s : from_index (get_index s) = Some s.
Proof. by destruct s. Qed.

Lemma u8_status s : u8 (Z.of_nat (get_index s)) = Z.of_nat (get_index s).
Proof. by destruct s. Qed.

Lemma length_entry_to_bytes e : length (entry_to_bytes e) = 8%nat.
Proof. done. Qed.

Lemma take_le_bytes m n z : (m <= n)%nat -> take m (to_le_bytes n z) = to_le_bytes m z.
Proof.
  revert n z. induction m as [|m IH]; intros [|n] z Hm; simpl; [done|done|lia|].
  by rewrite IH by lia.
Qed.

Lemma from_le_bytes_snoc0 bs : from_le_bytes (bs ++ [0]) = from_le_bytes bs.
Proof. induction bs as [|b bs IH]; simpl; [done|]. by rewrite IH. Qed.

Lemma entry_round e : entry_wf e -> entry_from_bytes (entry_to_bytes e) = Some e.
Proof.
  intros (Ho & Hs & He). unfold entry_from_bytes, entry_to_bytes.
  rewrite take_app_le, firstn_all2 by (rewrite length_to_le_bytes; lia).
  rewrite drop_app_le, (drop_ge (to_le_bytes 4 _)) by (rewrite length_to_le_bytes; lia).
  rewrite app_nil_l, (take_le_bytes 3 4) by lia.
  rewrite (take_app_le _ _ 3), (firstn_all2 (n := 3)) by (rewrite length_to_le_bytes; lia).
  rewrite from_le_bytes_snoc0, !from_to_le_bytes, !Z.mod_small by (unfold is_u in Ho; simpl; lia).
  rewrite lookup_app_r by (rewrite length_to_le_bytes; lia).
  rewrite lookup_app_r by (rewrite !length_to_le_bytes; lia).
  rewrite !length_to_le_bytes. cbn [Nat.sub lookup list_lookup default from_option id].
  rewrite u8_status, Nat2Z.id, from_get_index.
  destruct e as [o s st]; cbn [sector_offset size_bytes entry_status] in *.
  destruct (Z.eqb_spec o 0); simpl; [|done]. by rewrite He.
Qed.

Lemma bytes_range bs n : Forall is_byte bs -> length bs = n -> 0 <= from_le_bytes bs < 2 ^ (8 * Z.of_nat n).
Proof. intros H <-. by apply from_le_bytes_range. Qed.

Lemma entry_from_bytes_wf bs e :
  Forall is_byte bs -> length bs = 8%nat -> entry_from_bytes bs = Some e -> entry_wf e.
Proof.
  intros Hb Hl. unfold entry_from_bytes.
  assert (H4 : 0 <= from_le_bytes (take 4 bs) < 2 ^ 32)
    by (apply (bytes_range _ 4); [by apply Forall_take | rewrite length_take; lia]).
  assert (H3 : 0 <= from_le_bytes (take 3 (drop 4 bs)) < 2 ^ 24)
    by (apply (bytes_range _ 3); [by apply Forall_take, Forall_drop | rewrite length_take, length_drop; lia]).
  rewrite from_le_bytes_snoc0. destruct (Z.eqb_spec (from_le_bytes (take 4 bs)) 0) as [E|E]; simpl.
  - intros [= <-]. split; [done|]. by split.
  - destruct (from_index _) as [st|]; simpl; [|done]. intros [= <-]. split; [done|]. by split.
Qed.

Lemma parse_entries_cons i x rest :
  length x = 8%nat ->
  parse_entries i (x ++ rest) =
    match entry_from_bytes x with
    | None => Err i
    | Some entry => let? es := parse_entries (S i) rest in Ok (entry :: es)
    end.
Proof. do 9 (destruct x as [|? x]; try done). Qed.

Lemma parse_entries_round i es :
  Forall entry_wf es -> parse_entries i (concat (entry_to_bytes <$> es)) = Ok es.
Proof.
  intros H. revert i. induction H as [|e es He _ IH]; intros i; [done|].
  cbn [fmap list_fmap concat]. rewrite parse_entries_cons by apply length_entry_to_bytes.
  by rewrite entry_round, IH.
Qed.

Lemma length_concat_entries es : length (concat (entry_to_bytes <$> es)) = (8 * length es)%nat.
Proof.
  induction es as [|e es IH]; [done|]. cbn [fmap list_fmap concat].
  rewrite length_app, IH, length_entry_to_bytes. simpl. lia.
Qed.

Definition header_wf (h : RegionHeader) : Prop :=
  length (entries h) = Z.to_nat CHUNKS_PER_REGION /\ Forall entry_wf (entries h).

Lemma length_header_to_bytes h : header_wf h -> length (header_to_bytes h) = Z.to_nat CHUNK_TABLE_SIZE.
Proof. intros [Hl _]. unfold header_to_bytes. rewrite length_concat_entries, Hl. done. Qed.

Lemma header_new_wf : header_wf header_new.
Proof.
  split; [apply length_replicate|]. apply Forall_replicate, empty_entry_wf.
Qed.

(** What was parsed from bytes is well formed. *)
Lemma parse_entries_wf n i bs es :
  (length bs = 8 * n)%nat -> Forall is_byte bs -> parse_entries i bs = Ok es ->
  length es = n /\ Forall entry_wf es.
Proof.
  revert i bs es. induction n as [|n IH]; intros i bs es Hl Hb.
  - destruct bs; [|simpl in *; lia]. by intros [= <-].
  - rewrite <- (take_drop 8 bs) in *. apply Forall_app in Hb as [Hb1 Hb2].
    rewrite length_app, length_drop in Hl.
    rewrite parse_entries_cons by (rewrite length_take in *; lia).
    destruct (entry_from_bytes _) as [e|] eqn:Ee; [|done].
    destruct (parse_entries (S i) _) as [es'| |] eqn:Ep; [|done..]. intros [= <-].
    apply IH in Ep as [<- Hwf]; [|rewrite length_take in Hl; rewrite length_drop; lia|done].
    split; [done|]. constructor; [|done].
    apply (entry_from_bytes_wf (take 8 bs)); [done| |done]. rewrite length_take in *. lia.
Qed.

Lemma parse_entries_no_panic i bs : parse_entries i bs <> Panic.
Proof.
  remember (length bs) as n eqn:Hn. revert i bs Hn.
  induction (lt_wf n) as [n _ IH]. intros i bs ->.
  do 8 (destruct bs as [|? bs]; [done|]). cbn [parse_entries].
  destruct (entry_from_bytes _); [|done].
  specialize (IH (length bs) ltac:(simpl; lia) (S i) bs eq_refl).
  destruct (parse_entries _ _); done.
Qed.

(** ** Positions within regions *)

Lemma chunk_index_range p :
  0 <= chunk_index (cx p mod REGION_SIZE) (cy p mod REGION_SIZE) < CHUNKS_PER_REGION.
Proof.
  unfold chunk_index, CHUNKS_PER_REGION, REGION_SIZE.
  pose proof (Z.mod_pos_bound (cx p) 32). pose proof (Z.mod_pos_bound (cy p) 32). lia.
Qed.

Definition region_of (p : ChunkPos) : RegionPos := from_chunk (cx p) (cy p).
Definition index_of (p : ChunkPos) : Z :=
  let '(local_x, local_z) := local_chunk_pos (cx p) (cy p) in chunk_index local_x local_z.

Lemma index_of_range p : 0 <= index_of p < CHUNKS_PER_REGION.
Proof. apply chunk_index_range. Qed.

(** A chunk is at one slot of one region, and the slot gives it back. *)
Lemma index_to_local_of p : index_to_local (index_of p) = local_chunk_pos (cx p) (cy p).
Proof.
  unfold index_to_local, index_of, local_chunk_pos, chunk_index, REGION_SIZE.
  pose proof (Z.mod_pos_bound (cx p) 32). pose proof (Z.mod_pos_bound (cy p) 32).
  rewrite Z.add_comm, Z.mod_add, Z.div_add, Z.mod_small, Z.div_small by lia. done.
Qed.

Lemma slot_inj p q : region_of p = region_of q -> index_of p = index_of q -> p = q.
Proof.
  intros Hr Hi. apply (f_equal index_to_local) in Hi. rewrite !index_to_local_of in Hi.
  unfold local_chunk_pos in Hi. unfold region_of, from_chunk in Hr.
  injection Hr as H1 H2. injection Hi as H3 H4. destruct p as [x z], q as [x' z']; simpl in *.
  unfold REGION_SIZE in *.
  f_equal; [rewrite (Z.div_mod x 32), (Z.div_mod x' 32) | rewrite (Z.div_mod z 32), (Z.div_mod z' 32)]; lia.
Qed.

(** *** Names *)

Lemma free_of_pretty_go x s : free_of "." s -> free_of "." (pretty_N_go x s).
Proof.
  revert s. induction (N.lt_wf_0 x) as [x _ IH]; intros s Hs.
  destruct (N.eq_0_gt_0_cases x) as [->|Hx]; [done|].
  rewrite pretty_N_go_step by done. apply IH; [by apply N.div_lt|].
  unfold free_of in *. cbn [all_chars]. rewrite Hs, andb_true_r.
  unfold pretty_N_char. repeat case_match; done.
Qed.

Lemma free_of_pretty_N (x : N) : free_of "." (pretty x).
Proof. unfold pretty, pretty_N. case_decide; [done|]. by apply free_of_pretty_go. Qed.

Lemma free_of_pretty (z : Z) : free_of "." (pretty z).
Proof.
  destruct z as [|p|p]; [done|apply (free_of_pretty_N (N.pos p))|].
  change (free_of "." ("-" +:+ pretty (N.pos p))). apply free_of_app. split; [done|]. apply free_of_pretty_N.
Qed.

Lemma filename_inj p q : filename p = filename q -> p = q.
Proof.
  unfold filename. intros H. apply string_app_inj_l in H.
  assert (Hx := split_once_at_app "." (pretty (rx p)) (pretty (rz p) +:+ ".srg") (free_of_pretty _)).
  assert (Hx' := split_once_at_app "." (pretty (rx q)) (pretty (rz q) +:+ ".srg") (free_of_pretty _)).
  rewrite string_app_cons, string_app_nil_l in H. rewrite (string_app_cons "." "" (pretty (rz q) +:+ ".srg")), string_app_nil_l in H.
  rewrite H, Hx' in Hx. injection Hx as E1 E2.
  assert (Hz := split_once_at_app "." (pretty (rz p)) "srg" (free_of_pretty _)).
  assert (Hz' := split_once_at_app "." (pretty (rz q)) "srg" (free_of_pretty _)).
  rewrite E2, Hz in Hz'. injection Hz' as E3.
  destruct p as [x z], q as [x' z']; simpl in *. apply (inj pretty) in E1, E3. congruence.
Qed.

(** ** Allocation *)

Definition entry_end (e : ChunkEntry) : Z := sector_offset e + sector_count e.

(** An entry whose data lies in the file, past the header. *)
Record entry_valid (file_sectors : Z) (e : ChunkEntry) : Prop := {
  v_offset : FIRST_DATA_SECTOR <= sector_offset e;
  v_size : 0 < size_bytes e <= MAX_CHUNK_SIZE;
  v_end : entry_end e <= file_sectors
}.

Definition entries_valid (file_sectors : Z) (es : list ChunkEntry) : Prop :=
  forall e, e ∈ es -> entry_exists e = true -> entry_valid file_sectors e.

(** A place for [n] sectors that no chunk uses. *)
Definition free_at (h : RegionHeader) (n s : Z) : Prop :=
  FIRST_DATA_SECTOR <= s /\
  forall e, e ∈ entries h -> entry_exists e = true -> s + n <= sector_offset e \/ entry_end e <= s.

Lemma usize_div_ceil_spec a b : 0 < b -> b * (usize_div_ceil a b - 1) < a <= b * usize_div_ceil a b.
Proof.
  intros Hb. unfold usize_div_ceil. pose proof (Z.div_mod a b). pose proof (Z.mod_pos_bound a b).
  destruct (Z.ltb_spec 0 (a mod b)); lia.
Qed.

Lemma usize_div_ceil_max a b c :
  0 < c -> usize_div_ceil (Z.max a b) c = Z.max (usize_div_ceil a c) (usize_div_ceil b c).
Proof.
  intros Hc. pose proof (usize_div_ceil_spec a c Hc). pose proof (usize_div_ceil_spec b c Hc).
  pose proof (usize_div_ceil_spec (Z.max a b) c Hc). nia.
Qed.

Lemma usize_div_ceil_mul a b : 0 < b -> usize_div_ceil (a * b) b = a.
Proof. intros Hb. pose proof (usize_div_ceil_spec (a * b) b Hb). nia. Qed.

Lemma sector_count_valid e :
  0 < size_bytes e <= MAX_CHUNK_SIZE -> sector_count e = usize_div_ceil (size_bytes e) SECTOR_SIZE.
Proof.
  intros Hs. unfold sector_count. rewrite (proj2 (Z.eqb_neq _ _)) by lia.
  pose proof (usize_div_ceil_spec (size_bytes e) SECTOR_SIZE ltac:(done)).
  unfold u32. rewrite wrapu_id; [done|]. unfold is_u, MAX_CHUNK_SIZE, SECTOR_SIZE in *. nia.
Qed.

Lemma sector_count_bounds e :
  0 < size_bytes e <= MAX_CHUNK_SIZE ->
  1 <= sector_count e <= 4096 /\ size_bytes e <= SECTOR_SIZE * sector_count e < size_bytes e + SECTOR_SIZE.
Proof.
  intros Hs. rewrite sector_count_valid by done.
  pose proof (usize_div_ceil_spec (size_bytes e) SECTOR_SIZE ltac:(done)).
  unfold MAX_CHUNK_SIZE, SECTOR_SIZE in *. nia.
Qed.

(** The overlap of a place with a used range. *)
Definition overlaps (n s : Z) (r : Z * Z) : Prop := r.1 < s + n /\ s < r.2.
Definition clear_of (n s : Z) (r : Z * Z) : Prop := s + n <= r.1 \/ r.2 <= s.

Lemma gap_loop_spec n fs rs cur :
  0 < n -> fs + n < 2 ^ 32 -> 0 <= cur <= fs ->
  Forall (fun r => r.1 < r.2 <= fs) rs -> StronglySorted (fun r r' => r.1 <= r'.1) rs ->
  match gap_loop n rs cur with
  | inl g => cur <= g <= fs /\ Forall (clear_of n g) rs /\ forall s, cur <= s < g -> Exists (overlaps n s) rs
  | inr c => cur <= c <= fs /\ Forall (fun r => r.2 <= c) rs /\
             forall s, cur <= s < c -> Exists (overlaps n s) rs
  end.
Proof.
  intros Hn Hfs. revert cur. induction rs as [|[a b] rs IH]; intros cur Hcur Hr Hs; cbn [gap_loop].
  - split; [lia|]. split; [done|]. intros; lia.
  - apply Forall_cons_1 in Hr as [Hab Hr]. simpl in Hab. apply StronglySorted_inv in Hs as [Hs Ha].
    unfold u32. rewrite wrapu_id by (unfold is_u; lia).
    destruct (Z.leb_spec (cur + n) a) as [Hgap|Hgap].
    + split; [lia|]. split; [|intros; lia]. constructor; [left; simpl; lia|].
      eapply Forall_impl; [exact Ha|]. intros [a' b'] Hle; left; simpl in *; lia.
    + specialize (IH (Z.max cur b) ltac:(lia) Hr Hs).
      assert (Hskip : forall s, cur <= s < b -> overlaps n s (a, b)) by (split; simpl; lia).
      destruct (gap_loop n rs (Z.max cur b)) as [g|c]; destruct IH as (H1 & H2 & H3);
        (split; [lia|]; split;
          [constructor; [|done]; unfold clear_of; simpl; lia
          |intros s Hs'; destruct (Z.lt_ge_cases s b); [left; apply Hskip; lia|right; apply H3; lia]]).
Qed.

Lemma used_ranges_elem h r :
  r ∈ used_ranges h <-> exists e, e ∈ entries h /\ entry_exists e = true /\ r = used_range e.
Proof.
  unfold used_ranges. rewrite (elem_of_Permutation_proper _ _ _ (sort_by_perm _ _)), list_elem_of_fmap.
  setoid_rewrite list_elem_of_filter. setoid_rewrite Is_true_true. naive_solver.
Qed.

Lemma used_ranges_sorted h : StronglySorted (fun r r' => r.1 <= r'.1) (used_ranges h).
Proof.
  unfold used_ranges. set (l := _ <$> _).
  pose proof (@sort_by_sorted _ (contramap fst Z.compare) (contramap_laws Z.compare fst) l) as H.
  clearbody l. induction H as [|r rs _ IH Hr]; constructor; [done|].
  eapply Forall_impl; [exact Hr|]. intros r' H. exact H.
Qed.

Lemma used_range_valid fs e :
  fs < 2 ^ 32 -> entry_valid fs e -> used_range e = (sector_offset e, entry_end e) /\ sector_offset e < entry_end e <= fs.
Proof.
  intros Hfs [H1 H2 H3]. pose proof (sector_count_bounds e H2) as [? _]. unfold used_range.
  unfold entry_end, FIRST_DATA_SECTOR in *. unfold u32. rewrite wrapu_id by (unfold is_u; lia).
  split; [done|lia].
Qed.

Lemma find_free_spec h n fs :
  0 < n -> FIRST_DATA_SECTOR <= fs -> fs + n < 2 ^ 32 -> entries_valid fs (entries h) ->
  let r := find_free_sectors h n fs in
  free_at h n r /\ r <= fs /\
  forall s, free_at h n s -> s < r ->
    r = fs /\ forall e, e ∈ entries h -> entry_exists e = true -> entry_end e <= s.
Proof.
  intros Hn H3 Hfs Hv r.
  assert (Hrange : forall e, e ∈ entries h -> entry_exists e = true ->
    (sector_offset e, entry_end e) ∈ used_ranges h).
  { intros e He Hx. apply used_ranges_elem. exists e. split; [done|]. split; [done|].
    by destruct (used_range_valid fs e ltac:(lia) (Hv e He Hx)) as [-> _]. }
  assert (Hall : Forall (fun r => r.1 < r.2 <= fs) (used_ranges h)).
  { apply Forall_forall. intros x (e & He & Hx & ->)%used_ranges_elem.
    by destruct (used_range_valid fs e ltac:(lia) (Hv e He Hx)) as [-> ?]. }
  pose proof (gap_loop_spec n fs (used_ranges h) FIRST_DATA_SECTOR Hn Hfs
    ltac:(unfold FIRST_DATA_SECTOR in *; lia) Hall (used_ranges_sorted h)) as Hg.
  assert (Hno : forall s, free_at h n s -> ~ Exists (overlaps n s) (used_ranges h)).
  { intros s [_ Hf] ([a b] & (e & He & Hx & Heq)%used_ranges_elem & Hov)%list.Exists_exists.
    destruct (used_range_valid fs e ltac:(lia) (Hv e He Hx)) as [Hu _]. rewrite Hu in Heq. injection Heq as -> ->.
    destruct Hov as [Ho1 Ho2]; simpl in *. specialize (Hf e He Hx). lia. }
  unfold r, find_free_sectors. rewrite (proj2 (Z.eqb_neq n 0)) by lia.
  destruct (gap_loop n (used_ranges h) FIRST_DATA_SECTOR) as [g|c]; destruct Hg as (Hg1 & Hg2 & Hg3);
    rewrite Forall_forall in Hg2.
  - split; [split; [lia|]|split; [lia|]].
    + intros e He Hx. apply (Hg2 _ (Hrange e He Hx)).
    + intros s Hs Hlt. exfalso. apply (Hno s Hs), Hg3. destruct Hs. lia.
  - rewrite Z.max_r by lia. split; [split; [lia|]|split; [lia|]].
    + intros e He Hx. right. apply (Hv e He Hx).
    + intros s Hs Hlt. split; [done|]. intros e He Hx. specialize (Hg2 _ (Hrange e He Hx)). simpl in Hg2.
      destruct (Z.lt_ge_cases s c) as [Hsc|Hsc]; [|lia]. exfalso. apply (Hno s Hs), Hg3. destruct Hs. lia.
Qed.
