(* ===== verification/Files.v ===== *)
(** * Files

    The operations of [tokio::fs] and of its [File] the region manager uses:
    open, create, seek, read, write, flush and rename.  A file system maps a
    path to the bytes of the file; a path is the name of a file of the base
    directory.  A write past the end of a file fills the gap with zeros.

    An operation may fail: [faults] is the schedule of the failures to come,
    [None] for an operation that succeeds and [Some k] for one that fails
    after [k] of the bytes it writes reached the file.  An empty schedule has
    no failures.  A failure [tokio] reports late is reported by the write
    itself. *)

From Stdlib Require Import Lia ZArith String.
From stdpp Require Import prelude list strings gmap.
From S2P Require Import Prelude Io.

#[local] Open Scope list_scope.

Record Fs := mk_fs { files : gmap string (list Z); faults : list (option nat) }.

(** An open file: its path and the position of its cursor. *)
Record File := mk_file { file_path : string; file_pos : Z }.

(** A computation threads a state and keeps what it did when it fails. *)
Definition St (S A : Type) : Type := S -> outcome io_error A * S.
Definition IO (A : Type) : Type := St Fs A.

Definition io_ret {S A} (a : A) : St S A := fun s => (Ok a, s).
Definition io_err {S A} (e : io_error) : St S A := fun s => (Err e, s).
Definition io_bind {S A B} (m : St S A) (k : A -> St S B) : St S B := fun s =>
  match m s with
  | (Ok a, s') => k a s'
  | (Err e, s') => (Err e, s')
  | (Panic, s') => (Panic, s')
  end.
Definition io_lift {S A} (o : outcome io_error A) : St S A := fun s => (o, s).

Declare Scope io_scope.
Delimit Scope io_scope with io.
Notation "x <~ m ;; k" := (io_bind m (fun x => k))
  (at level 100, m at next level, right associativity) : io_scope.
#[global] Open Scope io_scope.

(** ** Failures *)

Definition os_error : io_error := error_other "input/output error".
Definition not_found : io_error := error_other "no such file or directory".

Definition next_fault (s : Fs) : option nat * Fs :=
  match faults s with
  | [] => (None, s)
  | f :: rest => (f, mk_fs (files s) rest)
  end.

(** An operation that has an effect only when it succeeds. *)
Definition fallible {A} (m : IO A) : IO A := fun s =>
  match next_fault s with
  | (None, s') => m s'
  | (Some _, s') => (Err os_error, s')
  end.

(** ** Bytes at an offset *)

Definition read_at (offset n : Z) (content : list Z) : list Z :=
  take (Z.to_nat n) (drop (Z.to_nat offset) content).

Definition write_at (offset : Z) (data content : list Z) : list Z :=
  match data with
  | [] => content
  | _ => take (Z.to_nat offset) content
           ++ replicate (Z.to_nat offset - length content) 0
           ++ data
           ++ drop (Z.to_nat offset + length data) content
  end.

Definition content_of (s : Fs) (path : string) : list Z := default [] (files s !! path).
Definition set_content (path : string) (content : list Z) (s : Fs) : Fs :=
  mk_fs (<[path := content]> (files s)) (faults s).

(** ** Operations *)

Definition path_exists (path : string) : IO bool := fun s => (Ok (bool_decide (is_Some (files s !! path))), s).

Definition create_dir_all : IO unit := fallible (io_ret tt).

Definition open_file (path : string) : IO File := fallible (fun s =>
  match files s !! path with
  | Some _ => (Ok (mk_file path 0), s)
  | None => (Err not_found, s)
  end).

(** [OpenOptions] with [create] and [truncate]. *)
Definition create_file (path : string) : IO File := fallible (fun s =>
  (Ok (mk_file path 0), set_content path [] s)).

Definition rename_file (from to : string) : IO unit := fallible (fun s =>
  match files s !! from with
  | Some content => (Ok tt, mk_fs (<[to := content]> (delete from (files s))) (faults s))
  | None => (Err not_found, s)
  end).

Definition seek_start (file : File) (offset : Z) : IO File := fallible (io_ret (mk_file (file_path file) offset)).
Definition seek_current (file : File) (offset : Z) : IO File :=
  fallible (io_ret (mk_file (file_path file) (file_pos file + offset))).

(** [seek(SeekFrom::End(0))]: the length of the file. *)
Definition seek_end (file : File) : IO (Z * File) := fallible (fun s =>
  let len := Z.of_nat (length (content_of s (file_path file))) in (Ok (len, mk_file (file_path file) len), s)).

Definition file_read_exact (file : File) (n : Z) : IO (list Z * File) := fallible (fun s =>
  let bytes := read_at (file_pos file) n (content_of s (file_path file)) in
  if decide (Z.of_nat (length bytes) = n)
  then (Ok (bytes, mk_file (file_path file) (file_pos file + n)), s)
  else (Err eof_error, s)).

Definition write_all (file : File) (data : list Z) : IO File := fun s =>
  match next_fault s with
  | (None, s') =>
      (Ok (mk_file (file_path file) (file_pos file + Z.of_nat (length data))),
       set_content (file_path file) (write_at (file_pos file) data (content_of s' (file_path file))) s')
  | (Some k, s') =>
      (Err os_error,
       set_content (file_path file) (write_at (file_pos file) (take k data) (content_of s' (file_path file))) s')
  end.

Definition flush : IO unit := fallible (io_ret tt).

(** ** Facts about bytes at an offset *)

Lemma lookup_write_at o d c i :
  d <> [] ->
  write_at o d c !! i =
    (if decide (i < Z.to_nat o)%nat then (if decide (i < length c)%nat then c !! i else Some 0)
     else if decide (i < Z.to_nat o + length d)%nat then d !! (i - Z.to_nat o)%nat else c !! i).
Proof.
  intros Hd. unfold write_at. destruct d as [|x d]; [done|]. clear Hd.
  set (D := x :: d). clearbody D. set (n := Z.to_nat o). clearbody n.
  assert (Hlt : length (take n c) = (n `min` length c)%nat) by apply length_take.
  case_decide as H1.
  - case_decide as H2.
    + rewrite lookup_app_l by lia. by apply lookup_take_lt.
    + rewrite lookup_app_r, lookup_app_l by (rewrite ?length_replicate; lia).
      apply lookup_replicate. lia.
  - rewrite lookup_app_r, lookup_app_r by (rewrite ?length_replicate; lia).
    rewrite length_replicate, Hlt.
    replace (i - n `min` length c - (n - length c))%nat with (i - n)%nat by lia.
    case_decide as H2.
    + apply lookup_app_l. lia.
    + rewrite lookup_app_r, lookup_drop by lia. f_equal. lia.
Qed.

Lemma length_write_at o d c :
  d <> [] -> length (write_at o d c) = (length c `max` (Z.to_nat o + length d))%nat.
Proof.
  intros Hd. unfold write_at. destruct d as [|x d]; [done|].
  rewrite !length_app, length_take, length_replicate, length_drop. lia.
Qed.

Lemma lookup_read_at o n c i :
  read_at o n c !! i = (if decide (i < Z.to_nat n)%nat then c !! (Z.to_nat o + i)%nat else None).
Proof.
  unfold read_at. case_decide.
  - by rewrite lookup_take_lt, lookup_drop.
  - rewrite lookup_take_ge; [done|lia].
Qed.

Lemma length_read_at o n c : length (read_at o n c) = (Z.to_nat n `min` (length c - Z.to_nat o))%nat.
Proof. unfold read_at. by rewrite length_take, length_drop. Qed.

Lemma length_read_at_in o n c :
  0 <= o -> 0 <= n -> o + n <= Z.of_nat (length c) -> Z.of_nat (length (read_at o n c)) = n.
Proof. intros. rewrite length_read_at. lia. Qed.

(** Reading inside what was written. *)
Lemma read_write_inside o d c a n :
  0 <= o -> 0 <= a -> 0 <= n -> a + n <= Z.of_nat (length d) ->
  read_at (o + a) n (write_at o d c) = read_at a n d.
Proof.
  intros Ho Ha Hn Hl. apply list_eq. intros i. rewrite !lookup_read_at. case_decide; [|done].
  assert (d <> []) by (intros ->; simpl in *; lia).
  rewrite lookup_write_at by done. rewrite decide_False, decide_True by lia. f_equal. lia.
Qed.

Lemma read_at_all d : read_at 0 (Z.of_nat (length d)) d = d.
Proof. unfold read_at. rewrite drop_0, Nat2Z.id. by rewrite firstn_all. Qed.

Lemma read_at_prefix a b : read_at 0 (Z.of_nat (length a)) (a ++ b) = a.
Proof. unfold read_at. rewrite drop_0, Nat2Z.id. apply take_app_length. Qed.

(** Reading the old bytes outside of it. *)
Lemma read_write_outside o d c a n :
  0 <= o -> 0 <= a -> a + n <= Z.of_nat (length c) ->
  a + n <= o \/ o + Z.of_nat (length d) <= a ->
  read_at a n (write_at o d c) = read_at a n c.
Proof.
  intros Ho Ha Hl Hd. destruct (decide (d = [])) as [->|Hne]; [done|].
  apply list_eq. intros i. rewrite !lookup_read_at. case_decide as Hi; [|done].
  rewrite lookup_write_at by done. destruct Hd as [Hd|Hd].
  - rewrite decide_True by lia. rewrite decide_True by lia. done.
  - rewrite decide_False by lia. rewrite decide_False by lia. done.
Qed.

Lemma write_at_app o a b c :
  0 <= o -> a <> [] ->
  write_at (o + Z.of_nat (length a)) b (write_at o a c) = write_at o (a ++ b) c.
Proof.
  intros Ho Ha. destruct (decide (b = [])) as [->|Hb]; [by rewrite app_nil_r|].
  assert (a ++ b <> []) by (by destruct a).
  apply list_eq. intros i. rewrite !lookup_write_at, length_write_at, length_app by done.
  repeat case_decide; try lia; try done.
  - rewrite lookup_app_l; [done|lia].
  - rewrite lookup_app_r by lia. f_equal. lia.
Qed.

Lemma length_write_at_ge o d c : (length c <= length (write_at o d c))%nat.
Proof. destruct (decide (d = [])) as [->|]; [done|]. rewrite length_write_at by done. lia. Qed.

(** ** Facts about operations *)

Lemma content_set path c s path' :
  content_of (set_content path c s) path' = if decide (path = path') then c else content_of s path'.
Proof.
  unfold content_of, set_content. simpl. case_decide as H.
  - subst. by rewrite lookup_insert_eq.
  - by rewrite lookup_insert_ne.
Qed.

(** Without failures to come. *)
Lemma fallible_ok {A} (m : IO A) s : faults s = [] -> fallible m s = m s.
Proof. intros H. unfold fallible, next_fault. by rewrite H. Qed.

Lemma write_all_ok file data s :
  faults s = [] ->
  write_all file data s =
    (Ok (mk_file (file_path file) (file_pos file + Z.of_nat (length data))),
     set_content (file_path file) (write_at (file_pos file) data (content_of s (file_path file))) s).
Proof. intros H. unfold write_all, next_fault. by rewrite H. Qed.
