(* ===== verification/RegionManager.v ===== *)
(** * The region manager

    Models [steel-core/src/chunk_saver/region_manager.rs] (chunks in region
    files), [ram_only.rs] (chunks in memory) and the [ChunkStorage] of
    [storage/mod.rs] that dispatches to one of them.

    The manager keeps the open regions, each with its file, its table of
    entries and the number of chunks held from it; every operation runs under
    the lock of the regions, so it is one step, except [load_chunk], which
    gives the lock up while it decodes: [between] is what other tasks do
    meanwhile.

    Serialization ([wincode]), compression ([zstd]) and the materialization
    of a chunk ([ChunkStorage::try_persistent_to_chunk], for the storage's
    world) are parameters, and so is the order in which the map of open
    regions is iterated. *)

From Stdlib Require Import Lia ZArith String.
From stdpp Require Import prelude list strings gmap pretty.
From S2P Require Import Prelude Io Collections Identifier Strings Position ChunkPyramid RegionFormat Files.

#[local] Open Scope list_scope.

Record RegionHandle := mk_handle {
  file : File;
  header : RegionHeader;
  loaded_chunk_count : Z;
  header_dirty : bool;
  file_sectors : Z
}.

Record RegionManager := mk_manager {
  regions : gmap RegionPos RegionHandle;
  fs : Fs
}.

Definition set_header (h : RegionHandle) (hd : RegionHeader) : RegionHandle :=
  mk_handle (file h) hd (loaded_chunk_count h) (header_dirty h) (file_sectors h).
Definition set_count (h : RegionHandle) (n : Z) : RegionHandle :=
  mk_handle (file h) (header h) n (header_dirty h) (file_sectors h).
Definition set_dirty (h : RegionHandle) (b : bool) : RegionHandle :=
  mk_handle (file h) (header h) (loaded_chunk_count h) b (file_sectors h).
Definition set_file_sectors (h : RegionHandle) (n : Z) : RegionHandle :=
  mk_handle (file h) (header h) (loaded_chunk_count h) (header_dirty h) n.

Definition invalid_data (msg : string) : io_error := mk_error InvalidData msg.

(** ** Region files *)

Definition file_header : list Z := REGION_MAGIC ++ to_le_bytes 2 FORMAT_VERSION ++ [0; 0].

Definition create_region (pos : RegionPos) : IO RegionHandle :=
  _ <~ create_dir_all ;;
  (file <~ create_file (filename pos) ;;
  (file <~ write_all file file_header ;;
  (file <~ write_all file (header_to_bytes header_new) ;;
  (_ <~ flush ;;
   io_ret (mk_handle file header_new 0 false FIRST_DATA_SECTOR))))).

Definition write_header (file : File) (header : RegionHeader) : IO unit :=
  file <~ seek_start file FILE_HEADER_SIZE ;;
  (_ <~ write_all file (header_to_bytes header) ;;
   flush).

Definition read_chunk_data (file : File) (sector_offset size : Z) : IO (list Z) :=
  file <~ seek_start file (sector_offset * SECTOR_SIZE) ;;
  (r <~ file_read_exact file size ;; io_ret r.1).

Definition validate_chunk_entry (e : ChunkEntry) (file_sectors : Z) : outcome io_error unit :=
  if sector_offset e <? FIRST_DATA_SECTOR then
    Err (invalid_data ("chunk table entry points into the region header at sector " +:+ pretty (sector_offset e)))
  else if (size_bytes e =? 0) || (MAX_CHUNK_SIZE <? size_bytes e) then
    Err (invalid_data ("invalid chunk table entry size " +:+ pretty (size_bytes e)))
  else
    let end_sector := sector_offset e + sector_count e in
    if u32_max <? end_sector then Err (invalid_data "chunk table entry sector range overflowed")
    else if file_sectors <? end_sector then
      Err (invalid_data ("chunk table entry ends at sector " +:+ pretty end_sector +:+ ", past region end "
                         +:+ pretty file_sectors))
    else Ok tt.

(** [occupied[start..end]]: the slice, and filling it. *)
Definition occupied_slice (start end_ : nat) (occupied : list bool) : outcome io_error (list bool) :=
  if decide (start <= end_ /\ end_ <= length occupied)%nat
  then Ok (take (end_ - start) (drop start occupied)) else Panic.
Definition fill_slice (start end_ : nat) (occupied : list bool) : list bool :=
  take start occupied ++ replicate (end_ - start) true ++ drop end_ occupied.

Fixpoint validate_loop (index : nat) (es : list ChunkEntry) (file_sectors : Z) (occupied : list bool)
    : outcome io_error unit :=
  match es with
  | [] => Ok tt
  | e :: es =>
      if negb (entry_exists e) then validate_loop (S index) es file_sectors occupied
      else
        let? _ := validate_chunk_entry e file_sectors in
        let start := Z.to_nat (sector_offset e) in
        let end_ := (start + Z.to_nat (sector_count e))%nat in
        let? slice := occupied_slice start end_ occupied in
        if existsb id slice then
          Err (invalid_data ("chunk table entry " +:+ pretty index +:+ " overlaps another region allocation"))
        else validate_loop (S index) es file_sectors (fill_slice start end_ occupied)
  end.

Definition validate_region_entries (header : RegionHeader) (file_sectors : Z) : outcome io_error unit :=
  let n := Z.to_nat file_sectors in
  let reserved := (n `min` Z.to_nat FIRST_DATA_SECTOR)%nat in
  validate_loop 0 (entries header) file_sectors (replicate reserved true ++ replicate (n - reserved) false).

Definition invalid_status (index : nat) : io_error :=
  invalid_data ("region chunk table entry " +:+ pretty index +:+ " has an invalid status byte").

Definition backup_name (pos : RegionPos) (version : Z) : string :=
  filename pos +:+ ".v" +:+ pretty version +:+ ".bak".

Definition open_region (pos : RegionPos) : IO RegionHandle :=
  exists_ <~ path_exists (filename pos) ;;
  if negb exists_ then create_region pos
  else
    (file <~ open_file (filename pos) ;;
    (r <~ file_read_exact file FILE_HEADER_SIZE ;;
     let header_bytes := r.1 in
     if negb (bool_decide (take 4 header_bytes = REGION_MAGIC))
     then io_err (invalid_data "Invalid region file magic")
     else
       let version := from_le_bytes (take 2 (drop 4 header_bytes)) in
       if negb (version =? FORMAT_VERSION)
       then (_ <~ rename_file (filename pos) (backup_name pos version) ;; create_region pos)
       else
         (r <~ file_read_exact r.2 CHUNK_TABLE_SIZE ;;
         (header <~ io_lift (map_err invalid_status (header_from_bytes r.1)) ;;
         (r <~ seek_end r.2 ;;
          let file_sectors := u32 (usize_div_ceil r.1 SECTOR_SIZE) in
         (_ <~ io_lift (validate_region_entries header file_sectors) ;;
          io_ret (mk_handle r.2 header 0 false file_sectors))))))).

(** The data of a chunk, padded to whole sectors. *)
Definition write_padded (file : File) (sector_offset : Z) (data : list Z) : IO File :=
  let padding_needed := (SECTOR_SIZE - Z.of_nat (length data) mod SECTOR_SIZE) mod SECTOR_SIZE in
  file <~ seek_start file (sector_offset * SECTOR_SIZE) ;;
  (file <~ write_all file data ;;
   if 0 <? padding_needed then write_all file (replicate (Z.to_nat padding_needed) 0) else io_ret file).

(** The size of the file in sectors is a [&mut u32]: its new value is returned
    with the result, which may be an error. *)
Definition write_chunk_data (file : File) (sector_offset : Z) (data : list Z) (file_sectors : Z)
    : IO (outcome io_error unit * Z) := fun s =>
  match write_padded file sector_offset data s with
  | (Ok _, s) =>
      let sectors_used := u32 (usize_div_ceil (Z.of_nat (length data)) SECTOR_SIZE) in
      let end_sector := u32 (sector_offset + sectors_used) in
      let file_sectors := if file_sectors <? end_sector then end_sector else file_sectors in
      let '(result, s) := flush s in
      (Ok (result, file_sectors), s)
  | (Err e, s) => (Ok (Err e, file_sectors), s)
  | (Panic, s) => (Ok (Panic, file_sectors), s)
  end.

(** ** Operations of the manager *)

Definition M (A : Type) : Type := St RegionManager A.

Definition lift_io {A} (m : IO A) : M A := fun s =>
  let '(r, f) := m (fs s) in (r, mk_manager (regions s) f).
Definition lookup_region (pos : RegionPos) : M (option RegionHandle) := fun s => (Ok (regions s !! pos), s).
Definition put_region (pos : RegionPos) (h : RegionHandle) : M unit := fun s =>
  (Ok tt, mk_manager (<[pos := h]> (regions s)) (fs s)).
Definition remove_region (pos : RegionPos) : M unit := fun s =>
  (Ok tt, mk_manager (delete pos (regions s)) (fs s)).

(** The handle of a region, opened first when it is not open. *)
Definition get_or_open (pos : RegionPos) : M RegionHandle :=
  found <~ lookup_region pos ;;
  match found with
  | Some handle => io_ret handle
  | None => handle <~ lift_io (open_region pos) ;; (_ <~ put_region pos handle ;; io_ret handle)
  end.

(** Clears the slot of an undecodable chunk, when it is still that chunk. *)
Definition clear_corrupt_chunk_if_unchanged (region_pos : RegionPos) (index : Z) (expected_entry : ChunkEntry)
    : M bool :=
  found <~ lookup_region region_pos ;;
  match found with
  | None => io_err (error_other "region was released while clearing corrupt chunk data")
  | Some handle =>
      if negb (bool_decide (entry_at (header handle) index = expected_entry)) then io_ret false
      else
        let cleared := set_entry (header handle) index empty_entry in
        fun s =>
          let '(result, f) := write_header (file handle) cleared (fs s) in
          match result with
          | Ok _ => (Ok true, mk_manager (<[region_pos := set_dirty (set_header handle cleared) false]> (regions s)) f)
          | Err e => (Err e, mk_manager (<[region_pos := handle]> (regions s)) f)
          | Panic => (Panic, mk_manager (regions s) f)
          end
  end.

Definition acquire_chunk (pos : ChunkPos) : M bool :=
  let region_pos := region_of pos in
  let index := index_of pos in
  handle <~ get_or_open region_pos ;;
  (_ <~ put_region region_pos (set_count handle (loaded_chunk_count handle + 1)) ;;
   io_ret (entry_exists (entry_at (header handle) index))).

(** [usize::saturating_sub] *)
Definition saturating_sub (a b : Z) : Z := Z.max 0 (a - b).

Definition release_chunk (pos : ChunkPos) : M unit :=
  let region_pos := region_of pos in
  found <~ lookup_region region_pos ;;
  match found with
  | None => io_ret tt
  | Some handle =>
      let handle := set_count handle (saturating_sub (loaded_chunk_count handle) 1) in
      if loaded_chunk_count handle =? 0 then
        _ <~ remove_region region_pos ;;
        (if header_dirty handle then lift_io (write_header (file handle) (header handle)) else io_ret tt)
      else put_region region_pos handle
  end.

Definition chunk_exists (pos : ChunkPos) : M bool :=
  let region_pos := region_of pos in
  let index := index_of pos in
  found <~ lookup_region region_pos ;;
  match found with
  | Some handle => io_ret (entry_exists (entry_at (header handle) index))
  | None => lift_io (
      exists_ <~ path_exists (filename region_pos) ;;
      if negb exists_ then io_ret false
      else
        (file <~ open_file (filename region_pos) ;;
        (file <~ seek_start file FILE_HEADER_SIZE ;;
        (file <~ seek_current file (index * 8) ;;
        (r <~ file_read_exact file 8 ;;
         match entry_from_bytes r.1 with
         | None => io_err (invalid_data "chunk table entry has an invalid status byte")
         | Some entry => io_ret (entry_exists entry)
         end)))))
  end.

Fixpoint flush_loop (open : list (RegionPos * RegionHandle)) : M unit :=
  match open with
  | [] => io_ret tt
  | (pos, handle) :: open =>
      if header_dirty handle then
        _ <~ lift_io (write_header (file handle) (header handle)) ;;
        (_ <~ put_region pos (set_dirty handle false) ;; flush_loop open)
      else flush_loop open
  end.

Fixpoint close_loop (open : list (RegionPos * RegionHandle)) : M unit :=
  match open with
  | [] => io_ret tt
  | (_, handle) :: open =>
      if header_dirty handle then
        _ <~ lift_io (write_header (file handle) (header handle)) ;; close_loop open
      else close_loop open
  end.

(** [regions.drain()]: the map is empty afterwards, also on an error. *)
Definition drain_regions : M unit := fun s => (Ok tt, mk_manager ∅ (fs s)).

(** Where the chunk goes: its old sectors when it fits in them. *)
Definition choose_sectors (header : RegionHeader) (old_entry : ChunkEntry) (sectors_needed file_sectors : Z) : Z :=
  if entry_exists old_entry && (sectors_needed <=? sector_count old_entry) then sector_offset old_entry
  else find_free_sectors header sectors_needed file_sectors.

(** The save once the region's handle is there: the chunk, its entry, and the
    header when the region is to be closed. *)
Definition store_chunk (region_pos : RegionPos) (index : Z) (we_opened_region : bool) (compressed : list Z)
    (status : ChunkStatus) (handle : RegionHandle) : M bool :=
  let sectors_needed := u32 (usize_div_ceil (Z.of_nat (length compressed)) SECTOR_SIZE) in
  let old_entry := entry_at (header handle) index in
  let sector_offset := choose_sectors (header handle) old_entry sectors_needed (file_sectors handle) in
  written <~ lift_io (write_chunk_data (file handle) sector_offset compressed (file_sectors handle)) ;;
  let handle := set_file_sectors handle written.2 in
  (_ <~ put_region region_pos handle ;;
  (_ <~ io_lift written.1 ;;
   let entry := mk_entry sector_offset (u32 (Z.of_nat (length compressed))) status in
   let handle := set_header handle (set_entry (header handle) index entry) in
   if we_opened_region && (loaded_chunk_count handle =? 0) then
     (_ <~ put_region region_pos handle ;;
     (_ <~ lift_io (write_header (file handle) (header handle)) ;;
     (_ <~ remove_region region_pos ;;
      io_ret true)))
   else
     (_ <~ put_region region_pos (set_dirty handle true) ;;
      io_ret true))).

Section Storage.
Context {Persistent Loaded : Type}.
Context (serialize : Persistent -> list Z + string).
Context (compress : list Z -> outcome io_error (list Z)).
Context (decompress : list Z -> list Z + string).
Context (deserialize : list Z -> Persistent + string).
Context (try_persistent_to_chunk : Persistent -> ChunkPos -> ChunkStatus -> Z -> Z -> Loaded + io_error).
Context (iteration : gmap RegionPos RegionHandle -> list (RegionPos * RegionHandle)).

Definition flush_all : M unit := fun s => flush_loop (iteration (regions s)) s.

Definition close_all : M unit := fun s =>
  (_ <~ drain_regions ;; close_loop (iteration (regions s))) s.

Record PreparedChunkSave := mk_prepared {
  pos : ChunkPos;
  status : ChunkStatus;
  persistent : Persistent;
  handled_runtime_entity_ids : list Z
}.

Definition encode_chunk (prepared : PreparedChunkSave) : outcome io_error (list Z) :=
  match serialize (persistent prepared) with
  | inr e => Err (invalid_data e)
  | inl data =>
      let? compressed := compress data in
      if MAX_CHUNK_SIZE <? Z.of_nat (length compressed) then
        Err (invalid_data ("Chunk too large: " +:+ pretty (length compressed) +:+ " bytes (max "
                           +:+ pretty MAX_CHUNK_SIZE +:+ ")"))
      else Ok compressed
  end.

Definition save_chunk_data (prepared : PreparedChunkSave) : M bool :=
  let region_pos := region_of (pos prepared) in
  let index := index_of (pos prepared) in
  compressed <~ io_lift (encode_chunk prepared) ;;
  (found <~ lookup_region region_pos ;;
   let we_opened_region := negb (bool_decide (is_Some found)) in
  (handle <~ get_or_open region_pos ;;
   store_chunk region_pos index we_opened_region compressed (status prepared) handle)).

Definition decode_chunk (compressed : list Z) (pos : ChunkPos) (status : ChunkStatus) (min_y height : Z)
    : Loaded + string :=
  match decompress compressed with
  | inr e => inr ("zstd decode failed: " +:+ e)
  | inl data =>
      match deserialize data with
      | inr e => inr ("chunk decode failed: " +:+ e)
      | inl persistent =>
          match try_persistent_to_chunk persistent pos status min_y height with
          | inr e => inr ("chunk materialization failed: " +:+ error_message e)
          | inl loaded => inl loaded
          end
      end
  end.

(** [load_chunk] up to the release of the lock. *)
Definition load_read (pos : ChunkPos) (min_y height : Z) : M (option (list Z * ChunkEntry)) :=
  if (height <=? 0) || negb (Z.rem height 16 =? 0) || negb (Z.rem min_y 16 =? 0) then
    io_err (mk_error InvalidInput ("chunk world range must be section-aligned, got min_y=" +:+ pretty min_y
                                   +:+ ", height=" +:+ pretty height))
  else
    found <~ lookup_region (region_of pos) ;;
    match found with
    | None => io_ret None
    | Some handle =>
        let entry := entry_at (header handle) (index_of pos) in
        if negb (entry_exists entry) then io_ret None
        else
          _ <~ io_lift (validate_chunk_entry entry (file_sectors handle)) ;;
          (compressed <~ lift_io (read_chunk_data (file handle) (sector_offset entry) (size_bytes entry)) ;;
           io_ret (Some (compressed, entry)))
    end.

(** ... and from the end of the decoding. *)
Definition load_finish (pos : ChunkPos) (entry : ChunkEntry) (decoded : Loaded + string) : M (option Loaded) :=
  match decoded with
  | inl loaded => io_ret (Some loaded)
  | inr error =>
      cleared <~ clear_corrupt_chunk_if_unchanged (region_of pos) (index_of pos) entry ;;
      if negb cleared
      then io_err (invalid_data ("corrupt chunk payload was superseded before it could be removed: " +:+ error))
      else io_ret None
  end.

Definition load_chunk (between : RegionManager -> RegionManager) (pos : ChunkPos) (min_y height : Z)
    : M (option Loaded) :=
  read <~ load_read pos min_y height ;;
  match read with
  | None => io_ret None
  | Some (compressed, entry) => fun s =>
      load_finish pos entry (decode_chunk compressed pos (entry_status entry) min_y height) (between s)
  end.

(** ** Chunks in memory *)

Definition RamOnlyStorage : Type := gmap ChunkPos PreparedChunkSave.

Definition ram_chunk_exists (p : ChunkPos) : St RamOnlyStorage bool := fun s => (Ok (bool_decide (is_Some (s !! p))), s).

Definition ram_save_chunk_data (prepared : PreparedChunkSave) : St RamOnlyStorage bool := fun s =>
  (Ok true, <[pos prepared := prepared]> s).

Definition ram_load_chunk (p : ChunkPos) (min_y height : Z) : St RamOnlyStorage (option Loaded) :=
  exists_ <~ ram_chunk_exists p ;;
  if exists_ then fun s =>
    match s !! p with
    | Some saved =>
        match try_persistent_to_chunk (persistent saved) p (status saved) min_y height with
        | inl loaded => (Ok (Some loaded), s)
        | inr e => (Err e, s)
        end
    | None => (Ok None, s)
    end
  else io_ret None.

(** ** [ChunkStorage] *)

Inductive ChunkStorage :=
| Disk (rm : RegionManager)
| RamOnly (ram : RamOnlyStorage).

Definition on_storage {A} (disk : M A) (ram : St RamOnlyStorage A) : St ChunkStorage A := fun s =>
  match s with
  | Disk rm => let '(r, rm) := disk rm in (r, Disk rm)
  | RamOnly m => let '(r, m) := ram m in (r, RamOnly m)
  end.

Definition storage_load_chunk (between : RegionManager -> RegionManager) (p : ChunkPos) (min_y height : Z) :=
  on_storage (load_chunk between p min_y height) (ram_load_chunk p min_y height).
Definition storage_save_chunk_data (prepared : PreparedChunkSave) :=
  on_storage (save_chunk_data prepared) (ram_save_chunk_data prepared).
Definition storage_chunk_exists (p : ChunkPos) := on_storage (chunk_exists p) (ram_chunk_exists p).
Definition storage_acquire_chunk (p : ChunkPos) := on_storage (acquire_chunk p) (ram_chunk_exists p).
Definition storage_release_chunk (p : ChunkPos) := on_storage (release_chunk p) (io_ret tt).
Definition storage_flush_all := on_storage flush_all (io_ret tt).
Definition storage_close_all := on_storage close_all (io_ret tt).
End Storage.

Arguments PreparedChunkSave : clear implicits.
Arguments RamOnlyStorage : clear implicits.
Arguments ChunkStorage : clear implicits.
