(* ===== verification/RegionStore.v ===== *)
(** * What the region files store

    The contract of the region manager: every slot of every region holds at
    most one chunk, its bytes and its status ([stored]), whatever the regions
    that are open.  The allocation invariant ([open_ok]) keeps the chunks of
    a region in disjoint sectors of its file, past the header; it survives
    any failure of the file system, so a save that fails costs no other chunk.
    Without failures the manager behaves as the map of chunks in memory. *)

From Stdlib Require Import Lia ZArith Ascii String.
From stdpp Require Import prelude list strings gmap pretty.
From S2P Require Import Prelude Io Collections Identifier Strings Position ChunkPyramid RegionFormat Files RegionManager.

#[local] Open Scope list_scope.

(** ** The abstraction *)

Definition sectors (c : list Z) : Z := usize_div_ceil (Z.of_nat (length c)) SECTOR_SIZE.

(** The file starts with this version's header. *)
Definition opens (c : list Z) : Prop :=
  TOTAL_HEADER_SIZE <= Z.of_nat (length c) /\
  take 4 (read_at 0 FILE_HEADER_SIZE c) = REGION_MAGIC /\
  from_le_bytes (take 2 (drop 4 (read_at 0 FILE_HEADER_SIZE c))) = FORMAT_VERSION.

#[export] Instance opens_dec c : Decision (opens c).
Proof. unfold opens. solve_decision. Defined.

Definition table_of (c : list Z) : list Z := read_at FILE_HEADER_SIZE CHUNK_TABLE_SIZE c.

Definition disk_header (c : list Z) : option RegionHeader :=
  if decide (opens c) then
    match header_from_bytes (table_of c) with
    | Ok hd => match validate_region_entries hd (u32 (sectors c)) with Ok _ => Some hd | _ => None end
    | _ => None
    end
  else None.

Definition chunk_data (c : list Z) (e : ChunkEntry) : option (ChunkStatus * list Z) :=
  if entry_exists e then Some (entry_status e, read_at (sector_offset e * SECTOR_SIZE) (size_bytes e) c) else None.

Definition file_slot (f : Fs) (rp : RegionPos) (i : Z) : option (ChunkStatus * list Z) :=
  c ← files f !! filename rp; hd ← disk_header c; chunk_data c (entry_at hd i).

Definition handle_slot (f : Fs) (rp : RegionPos) (h : RegionHandle) (i : Z) : option (ChunkStatus * list Z) :=
  chunk_data (content_of f (filename rp)) (entry_at (header h) i).

Definition slot (s : RegionManager) (rp : RegionPos) (i : Z) : option (ChunkStatus * list Z) :=
  match regions s !! rp with
  | Some h => handle_slot (fs s) rp h i
  | None => file_slot (fs s) rp i
  end.

(** The chunk a load would find. *)
Definition stored (s : RegionManager) (p : ChunkPos) : option (ChunkStatus * list Z) :=
  slot s (region_of p) (index_of p).

(** ** The allocation of a file *)

Record allocated (n : Z) (c : list Z) (es : list ChunkEntry) : Prop := {
  al_valid : entries_valid n es;
  al_data : forall e, e ∈ es -> entry_exists e = true ->
    sector_offset e * SECTOR_SIZE + size_bytes e <= Z.of_nat (length c);
  al_disjoint : forall i j e e', i <> j -> es !! i = Some e -> es !! j = Some e' ->
    entry_exists e = true -> entry_exists e' = true ->
    entry_end e <= sector_offset e' \/ entry_end e' <= sector_offset e
}.

Record open_ok (f : Fs) (rp : RegionPos) (h : RegionHandle) : Prop := {
  o_path : file_path (file h) = filename rp;
  o_file : is_Some (files f !! filename rp);
  o_opens : opens (content_of f (filename rp));
  o_header : header_wf (header h);
  o_sectors : FIRST_DATA_SECTOR <= file_sectors h <= sectors (content_of f (filename rp));
  o_alloc : allocated (file_sectors h) (content_of f (filename rp)) (entries (header h))
}.

(** A closed file is complete when its table is made of bytes and the chunks
    of a valid table are in the file. *)
Definition complete (c : list Z) : Prop :=
  forall hd, opens c -> header_from_bytes (table_of c) = Ok hd ->
    header_wf hd /\
    (validate_region_entries hd (u32 (sectors c)) = Ok tt -> allocated (sectors c) c (entries hd)).

Definition bounded (limit : Z) (s : RegionManager) : Prop :=
  (forall rp h, regions s !! rp = Some h -> file_sectors h <= limit) /\
  (forall rp c, files (fs s) !! filename rp = Some c -> sectors c <= limit).

Record store_ok (s : RegionManager) : Prop := {
  s_open : forall rp h, regions s !! rp = Some h -> open_ok (fs s) rp h;
  s_closed : forall rp c, regions s !! rp = None -> files (fs s) !! filename rp = Some c -> complete c
}.

(** ** Entries of a header *)

Lemma entry_at_lookup hd i e :
  header_wf hd -> 0 <= i < CHUNKS_PER_REGION -> entry_at hd i = e <-> entries hd !! Z.to_nat i = Some e.
Proof.
  intros [Hl _] Hi. unfold entry_at.
  destruct (lookup_lt_is_Some_2 (entries hd) (Z.to_nat i)) as [e' He]; [lia|]. rewrite He. simpl. naive_solver.
Qed.

Lemma entry_at_elem hd i : header_wf hd -> 0 <= i < CHUNKS_PER_REGION -> entry_at hd i ∈ entries hd.
Proof. intros Hw Hi. eapply list_elem_of_lookup_2. by apply entry_at_lookup. Qed.

Lemma entry_at_set hd i j e :
  header_wf hd -> 0 <= i < CHUNKS_PER_REGION -> 0 <= j ->
  entry_at (set_entry hd i e) j = if decide (i = j) then e else entry_at hd j.
Proof.
  intros [Hl _] Hi Hj. unfold entry_at, set_entry. simpl. case_decide as Hij.
  - subst. rewrite list_lookup_insert_eq by lia. done.
  - rewrite list_lookup_insert_ne by lia. done.
Qed.

Lemma set_entry_wf hd i e : header_wf hd -> entry_wf e -> header_wf (set_entry hd i e).
Proof.
  intros [Hl Hf] He. split; simpl; [by rewrite length_insert|]. by apply Forall_insert.
Qed.

Lemma chunk_data_empty c : chunk_data c empty_entry = None.
Proof. done. Qed.

(** ** Writing chunks *)

(** The other chunks of the region stay clear of [n] sectors at [s]. *)
Definition clear_for (es : list ChunkEntry) (i : nat) (s n : Z) : Prop :=
  forall j e, j <> i -> es !! j = Some e -> entry_exists e = true -> s + n <= sector_offset e \/ entry_end e <= s.

Lemma chunk_end n c es e :
  allocated n c es -> e ∈ es -> entry_exists e = true ->
  FIRST_DATA_SECTOR <= sector_offset e /\ 0 < size_bytes e <= MAX_CHUNK_SIZE /\
  sector_offset e * SECTOR_SIZE + size_bytes e <= entry_end e * SECTOR_SIZE.
Proof.
  intros Ha He Hx. destruct (al_valid _ _ _ Ha e He Hx) as [H1 H2 H3].
  pose proof (sector_count_bounds e H2). unfold entry_end. split; [done|]. split; [done|]. lia.
Qed.

Lemma other_chunk_kept n c es i j e s k d :
  allocated n c es -> clear_for es i s k -> 0 <= s -> Z.of_nat (length d) <= k * SECTOR_SIZE ->
  j <> i -> es !! j = Some e ->
  chunk_data (write_at (s * SECTOR_SIZE) d c) e = chunk_data c e.
Proof.
  intros Ha Hc Hs Hd Hj He. unfold chunk_data. destruct (entry_exists e) eqn:Hx; [|done]. do 2 f_equal.
  pose proof (list_elem_of_lookup_2 _ _ _ He) as Hin.
  destruct (chunk_end _ _ _ _ Ha Hin Hx) as (H1 & H2 & H3). pose proof (al_data _ _ _ Ha _ Hin Hx).
  unfold SECTOR_SIZE, FIRST_DATA_SECTOR in *.
  apply read_write_outside; [lia|lia|lia|]. destruct (Hc j e Hj He Hx); lia.
Qed.

Lemma allocated_grow n c c' es : allocated n c es -> (length c <= length c')%nat -> allocated n c' es.
Proof. intros [Hv Hd Hj] Hl. split; [done| |done]. intros e He Hx. specialize (Hd e He Hx). lia. Qed.

Lemma allocated_more n n' c es : allocated n c es -> n <= n' -> allocated n' c es.
Proof.
  intros [Hv Hd Hj] Hn. split; [|done|done]. intros e He Hx. destruct (Hv e He Hx). split; try done. lia.
Qed.

(** A chunk is put where the others leave room. *)
Lemma allocated_set n c es i e :
  allocated n c es -> (i < length es)%nat -> entry_exists e = true -> entry_valid n e ->
  clear_for es i (sector_offset e) (sector_count e) ->
  sector_offset e * SECTOR_SIZE + size_bytes e <= Z.of_nat (length c) ->
  allocated n c (<[i := e]> es).
Proof.
  intros [Hv Hd Hj] Hi Hx Hve Hc Hl. split.
  - intros e' (j & He')%list_elem_of_lookup Hx'. apply list_lookup_insert_Some in He' as [(-> & -> & _)|(Hij & He')]; [done|].
    apply Hv; [by eapply list_elem_of_lookup_2|done].
  - intros e' (j & He')%list_elem_of_lookup Hx'. apply list_lookup_insert_Some in He' as [(-> & -> & _)|(Hij & He')]; [done|].
    apply Hd; [by eapply list_elem_of_lookup_2|done].
  - intros j k e1 e2 Hjk H1 H2 Hx1 Hx2.
    apply list_lookup_insert_Some in H1 as [(<- & <- & _)|(Hij & H1)];
      apply list_lookup_insert_Some in H2 as [(<- & <- & _)|(Hik & H2)]; [done| | |exact (Hj j k e1 e2 Hjk H1 H2 Hx1 Hx2)].
    + apply (Hc k e2); [by intros ->|done|done].
    + apply or_comm, (Hc j e1); [by intros ->|done|done].
Qed.

Lemma allocated_clear n c es i : allocated n c es -> allocated n c (<[i := empty_entry]> es).
Proof.
  intros [Hv Hd Hj].
  assert (Hl : forall j e, <[i := empty_entry]> es !! j = Some e -> entry_exists e = true -> es !! j = Some e).
  { intros j e [(-> & <- & _)|(Hij & He)]%list_lookup_insert_Some; [done|]. done. }
  split.
  - intros e (j & He)%list_elem_of_lookup Hx. apply Hv; [|done]. eapply list_elem_of_lookup_2. eauto.
  - intros e (j & He)%list_elem_of_lookup Hx. apply Hd; [|done]. eapply list_elem_of_lookup_2. eauto.
  - intros j k e1 e2 Hjk H1 H2 Hx1 Hx2. eapply (Hj j k); eauto.
Qed.

(** ** Where a chunk is put *)

Lemma choose_sectors_spec n c hd i k :
  header_wf hd -> allocated n c (entries hd) -> 0 <= i < CHUNKS_PER_REGION ->
  0 < k -> FIRST_DATA_SECTOR <= n -> n + k < 2 ^ 32 ->
  let s := choose_sectors hd (entry_at hd i) k n in
  FIRST_DATA_SECTOR <= s <= n /\ clear_for (entries hd) (Z.to_nat i) s k.
Proof.
  intros Hw Ha Hi Hk Hn Hlim s. unfold s, choose_sectors.
  pose proof (entry_at_elem hd i Hw Hi) as Hin. pose proof (proj1 (entry_at_lookup hd i _ Hw Hi) eq_refl) as Hlk.
  set (old := entry_at hd i) in *. destruct (entry_exists old) eqn:Hx; simpl;
    [destruct (Z.leb_spec k (sector_count old)) as [Hle|Hle]|].
  - destruct (al_valid _ _ _ Ha old Hin Hx) as [H1 H2 H3]. pose proof (sector_count_bounds old H2).
    unfold entry_end in H3. split; [lia|]. intros j e Hj He Hxe.
    destruct (al_disjoint _ _ _ Ha (Z.to_nat i) j old e ltac:(done) Hlk He Hx Hxe) as [Hd1|Hd1];
      unfold entry_end in *; [left; lia|by right].
  - destruct (find_free_spec hd k n Hk Hn Hlim (al_valid _ _ _ Ha)) as ([Hf1 Hf2] & Hf3 & _).
    split; [done|]. intros j e _ He Hxe. apply Hf2; [by eapply list_elem_of_lookup_2|done].
  - destruct (find_free_spec hd k n Hk Hn Hlim (al_valid _ _ _ Ha)) as ([Hf1 Hf2] & Hf3 & _).
    split; [done|]. intros j e _ He Hxe. apply Hf2; [by eapply list_elem_of_lookup_2|done].
Qed.

(** ** Files under failures *)

Definition no_faults (f : Fs) : Prop := faults f = [].

Lemma fallible_ret {A} (a : A) f :
  exists f', files f' = files f /\ (no_faults f -> no_faults f') /\
    (fallible (io_ret a) f = (Ok a, f') \/ fallible (io_ret a) f = (Err os_error, f') /\ ~ no_faults f).
Proof.
  unfold fallible, next_fault, no_faults. destruct (faults f) as [|[k|] fl] eqn:E.
  - exists f. split; [done|]. split; [done|]. by left.
  - exists (mk_fs (files f) fl). split; [done|]. split; [done|]. by right.
  - exists (mk_fs (files f) fl). split; [done|]. split; [done|]. by left.
Qed.

Lemma write_all_cases file0 data f :
  exists d f', files f' = <[file_path file0 := write_at (file_pos file0) d (content_of f (file_path file0))]> (files f) /\
    (no_faults f -> no_faults f') /\
    (write_all file0 data f = (Ok (mk_file (file_path file0) (file_pos file0 + Z.of_nat (length data))), f') /\ d = data
     \/ write_all file0 data f = (Err os_error, f') /\ (exists k, d = take k data) /\ ~ no_faults f).
Proof.
  unfold write_all, next_fault, no_faults, content_of. destruct (faults f) as [|[k|] fl] eqn:E; simpl.
  - eexists data, (set_content _ _ f). split; [done|]. split; [done|]. by left.
  - eexists (take k data), (set_content _ _ (mk_fs (files f) fl)). split; [done|]. split; [done|].
    right. split; [done|]. split; [by eexists|done].
  - eexists data, (set_content _ _ (mk_fs (files f) fl)). split; [done|]. split; [done|]. by left.
Qed.

Lemma insert_same f path c : files f !! path = Some c -> <[path := c]> (files f) = files f.
Proof. apply insert_id. Qed.

Lemma content_some f path c : files f !! path = Some c -> content_of f path = c.
Proof. intros H. unfold content_of. by rewrite H. Qed.

(** Run the operation at the head of a computation, in both outcomes. *)
Ltac run_fallible f' Hf Hn :=
  match goal with
  | |- context [fallible (io_ret ?a) ?f] =>
      let H := fresh in
      destruct (fallible_ret a f) as (f' & Hf & Hn & [H|[H ?]]); rewrite H; clear H
  end.

Lemma length_padded (data : list Z) :
  let padding := (SECTOR_SIZE - Z.of_nat (length data) mod SECTOR_SIZE) mod SECTOR_SIZE in
  Z.of_nat (length (data ++ replicate (Z.to_nat padding) 0)) =
    usize_div_ceil (Z.of_nat (length data)) SECTOR_SIZE * SECTOR_SIZE.
Proof.
  intros padding. rewrite length_app, length_replicate. unfold padding, usize_div_ceil, SECTOR_SIZE.
  rewrite Nat2Z.inj_add. set (n := Z.of_nat (length data)). clearbody n.
  pose proof (Z.div_mod n 4096 ltac:(lia)). pose proof (Z.mod_pos_bound n 4096 ltac:(lia)).
  destruct (Z.ltb_spec 0 (n mod 4096)).
  - rewrite (Z.mod_small (4096 - n mod 4096) 4096) by lia. lia.
  - replace (n mod 4096) with 0 by lia. rewrite Z.sub_0_r, Z_mod_same_full, Z2Nat.inj_0. lia.
Qed.

Definition padded (data : list Z) : list Z :=
  data ++ replicate (Z.to_nat ((SECTOR_SIZE - Z.of_nat (length data) mod SECTOR_SIZE) mod SECTOR_SIZE)) 0.
Definition sectors_for (data : list Z) : Z := usize_div_ceil (Z.of_nat (length data)) SECTOR_SIZE.

Lemma length_padded_sectors data : Z.of_nat (length (padded data)) = sectors_for data * SECTOR_SIZE.
Proof. apply length_padded. Qed.

Lemma sectors_for_pos data : data <> [] -> 0 < sectors_for data.
Proof.
  intros Hd. unfold sectors_for. pose proof (usize_div_ceil_spec (Z.of_nat (length data)) SECTOR_SIZE ltac:(done)).
  destruct data; [done|]. unfold SECTOR_SIZE in *. simpl in *. nia.
Qed.

(** What a write of a chunk may leave: a beginning [d] of the padded data. *)
Lemma write_padded_cases file0 s data f c :
  files f !! file_path file0 = Some c -> data <> [] -> 0 <= s ->
  exists d r f', write_padded file0 s data f = (r, f') /\
    files f' = <[file_path file0 := write_at (s * SECTOR_SIZE) d c]> (files f) /\
    Z.of_nat (length d) <= sectors_for data * SECTOR_SIZE /\
    (no_faults f -> no_faults f') /\
    ((exists file', r = Ok file') /\ d = padded data \/ r = Err os_error /\ ~ no_faults f).
Proof.
  intros Hc Hne Hs. pose proof (length_padded_sectors data) as Hpad. pose proof (sectors_for_pos data Hne) as Hk.
  unfold write_padded, io_bind, seek_start.
  run_fallible f1 Hf1 Hn1.
  2:{ exists [], (Err os_error), f1. rewrite Hf1. split_and!; eauto; [symmetry; by apply insert_id|].
      simpl. unfold SECTOR_SIZE. lia. }
  assert (Hcc : content_of f1 (file_path file0) = c) by (apply content_some; by rewrite Hf1).
  destruct (write_all_cases (mk_file (file_path file0) (s * SECTOR_SIZE)) data f1)
    as (d & f2 & Hf2 & Hn2 & Hd); simpl in Hf2; rewrite Hcc, Hf1 in Hf2.
  unfold padded in *. set (pn := (SECTOR_SIZE - Z.of_nat (length data) mod SECTOR_SIZE) mod SECTOR_SIZE) in *.
  rewrite length_app in Hpad. destruct Hd as [[-> ->]|(-> & [k ->] & Hnn)].
  2:{ exists (take k data), (Err os_error), f2. split_and!; eauto; [|right; tauto]. rewrite length_take. lia. }
  destruct (Z.ltb_spec 0 pn) as [Hp|Hp].
  - destruct (write_all_cases (mk_file (file_path file0) (s * SECTOR_SIZE + Z.of_nat (length data)))
      (replicate (Z.to_nat pn) 0) f2) as (d3 & f3 & Hf3 & Hn3 & Hd3); simpl in Hf3.
    assert (Hc2 : content_of f2 (file_path file0) = write_at (s * SECTOR_SIZE) data c)
      by (unfold content_of; by rewrite Hf2, lookup_insert_eq).
    rewrite Hc2, Hf2, insert_insert_eq, write_at_app in Hf3 by (unfold SECTOR_SIZE; lia || done).
    exists (data ++ d3). cbn [file_path file_pos] in *. destruct Hd3 as [[-> ->]|(-> & [k ->] & Hnn)];
      do 2 eexists; (split; [reflexivity|]); split_and!; eauto; try (right; tauto);
      rewrite length_app, ?length_take; lia.
  - exists data. replace (Z.to_nat pn) with 0%nat by lia. cbn [replicate]. rewrite app_nil_r.
    do 2 eexists; (split; [reflexivity|]); split_and!; eauto. lia.
Qed.

Lemma write_chunk_data_cases file0 s data n f c :
  files f !! file_path file0 = Some c -> data <> [] -> 0 <= s -> s + sectors_for data < 2 ^ 32 ->
  exists d r n' f', write_chunk_data file0 s data n f = (Ok (r, n'), f') /\
    files f' = <[file_path file0 := write_at (s * SECTOR_SIZE) d c]> (files f) /\
    Z.of_nat (length d) <= sectors_for data * SECTOR_SIZE /\
    (n' = n \/ n' = Z.max n (s + sectors_for data) /\ d = padded data) /\
    (r = Ok tt /\ d = padded data /\ n' = Z.max n (s + sectors_for data) \/ exists e, r = Err e) /\
    (no_faults f -> r = Ok tt /\ no_faults f').
Proof.
  intros Hc Hne Hs Hlim. pose proof (sectors_for_pos data Hne) as Hk.
  destruct (write_padded_cases file0 s data f c Hc Hne Hs) as (d & r & f1 & Hw & Hf1 & Hd & Hn1 & Hr).
  unfold write_chunk_data. rewrite Hw. fold (sectors_for data). exists d.
  destruct Hr as [[[file' ->] ->]|[-> Hnn]]; [|exists (Err os_error), n, f1; split_and!; eauto; tauto].
  assert (Hu1 : u32 (sectors_for data) = sectors_for data) by (apply wrapu_id; unfold is_u; lia).
  assert (Hu2 : u32 (s + sectors_for data) = s + sectors_for data) by (apply wrapu_id; unfold is_u; lia).
  rewrite Hu1, Hu2.
  assert (Hmax : (if n <? s + sectors_for data then s + sectors_for data else n) = Z.max n (s + sectors_for data))
    by (destruct (Z.ltb_spec n (s + sectors_for data)); lia).
  rewrite Hmax. unfold flush. destruct (fallible_ret tt f1) as (f2 & Hf2 & Hn2 & [H|[H Hnn]]); rewrite H;
    do 3 eexists; (split; [reflexivity|]); rewrite Hf2; split_and!; eauto; tauto.
Qed.

(** A header is written over the table of the file; a failure leaves it
    half written. *)
Lemma write_header_cases file0 hd f c :
  files f !! file_path file0 = Some c -> header_wf hd ->
  exists d r f', write_header file0 hd f = (r, f') /\
    files f' = <[file_path file0 := write_at FILE_HEADER_SIZE d c]> (files f) /\
    Z.of_nat (length d) <= CHUNK_TABLE_SIZE /\
    (r = Ok tt /\ d = header_to_bytes hd \/ r = Err os_error) /\
    (no_faults f -> r = Ok tt /\ no_faults f').
Proof.
  intros Hc Hw. pose proof (f_equal Z.of_nat (length_header_to_bytes hd Hw)) as Hl.
  rewrite Z2Nat.id in Hl by done. unfold write_header, io_bind, seek_start.
  run_fallible f1 Hf1 Hn1.
  2:{ exists [], (Err os_error), f1. rewrite Hf1. split_and!; eauto; [symmetry; by apply insert_id|done|tauto]. }
  assert (Hcc : content_of f1 (file_path file0) = c) by (apply content_some; by rewrite Hf1).
  destruct (write_all_cases (mk_file (file_path file0) FILE_HEADER_SIZE) (header_to_bytes hd) f1)
    as (d & f2 & Hf2 & Hn2 & Hd); simpl in Hf2; rewrite Hcc, Hf1 in Hf2.
  exists d. destruct Hd as [[-> ->]|(-> & [k ->] & Hnn)].
  - unfold flush. run_fallible f3 Hf3 Hn3; do 2 eexists; (split; [reflexivity|]); rewrite Hf3;
      split_and!; eauto; try tauto; lia.
  - do 2 eexists; (split; [reflexivity|]); split_and!; eauto; [|tauto].
    rewrite length_take. lia.
Qed.

(** ** The validation of a table *)

Definition apart (e e' : ChunkEntry) : Prop :=
  entry_exists e = true -> entry_exists e' = true ->
  entry_end e <= sector_offset e' \/ entry_end e' <= sector_offset e.

Lemma apart_sym e e' : apart e e' -> apart e' e.
Proof. unfold apart. naive_solver. Qed.

Lemma pairs_lookup es :
  ForallOrdPairs apart es <->
  forall i j e e', i <> j -> es !! i = Some e -> es !! j = Some e' -> apart e e'.
Proof.
  split.
  - intros H. induction H as [|x l Hx H IH]; [done|]. rewrite Forall_forall in Hx.
    intros [|i] [|j] e e' Hij He He'; simpl in *; [done| | |].
    + injection He as <-. apply Hx. by eapply list_elem_of_lookup_2.
    + injection He' as <-. apply apart_sym, Hx. by eapply list_elem_of_lookup_2.
    + apply (IH i j); [lia|done..].
  - induction es as [|x l IH]; intros H; constructor.
    + apply Forall_forall. intros e (j & He)%list_elem_of_lookup. by apply (H 0%nat (S j)).
    + apply IH. intros i j e e' Hij He He'. apply (H (S i) (S j)); [lia|done..].
Qed.

Lemma existsb_lookup l : existsb id l = true <-> exists s, l !! s = Some true.
Proof.
  induction l as [|b l IH]; simpl; [naive_solver|]. rewrite orb_true_iff, IH. split.
  - intros [H|[s H]]; [exists 0%nat; simpl; by rewrite <- H|by exists (S s)].
  - intros [[|s] H]; simpl in *; [left; by injection H|right; by exists s].
Qed.

Lemma lookup_fill start end_ occ s :
  (start <= end_)%nat -> (end_ <= length occ)%nat ->
  fill_slice start end_ occ !! s = if decide (start <= s < end_)%nat then Some true else occ !! s.
Proof.
  intros H1 H2. unfold fill_slice. destruct (decide (s < start)%nat).
  - rewrite decide_False by lia. rewrite lookup_app_l by (rewrite length_take; lia). by apply lookup_take_lt.
  - rewrite lookup_app_r by (rewrite length_take; lia). rewrite length_take.
    case_decide.
    + rewrite lookup_app_l by (rewrite length_replicate; lia). apply lookup_replicate. lia.
    + rewrite lookup_app_r by (rewrite length_replicate; lia). rewrite length_replicate, lookup_drop. f_equal. lia.
Qed.

Lemma length_fill start end_ occ :
  (start <= end_)%nat -> (end_ <= length occ)%nat -> length (fill_slice start end_ occ) = length occ.
Proof. intros. unfold fill_slice. rewrite !length_app, length_take, length_replicate, length_drop. lia. Qed.

(** The sectors of the file taken by the header and the chunks seen so far. *)
Definition occupies (n : Z) (seen : list ChunkEntry) (occ : list bool) : Prop :=
  length occ = Z.to_nat n /\
  forall s, occ !! s = Some true <->
    Z.of_nat s < n /\ (Z.of_nat s < FIRST_DATA_SECTOR \/
      exists e, e ∈ seen /\ entry_exists e = true /\ sector_offset e <= Z.of_nat s < entry_end e).

Lemma validate_chunk_entry_valid e n :
  n < 2 ^ 32 -> 0 <= size_bytes e -> validate_chunk_entry e n = Ok tt <-> entry_valid n e.
Proof.
  intros Hn Hs. unfold validate_chunk_entry, u32_max.
  destruct (Z.ltb_spec (sector_offset e) FIRST_DATA_SECTOR); [split; [done|intros []; lia]|].
  destruct (Z.eqb_spec (size_bytes e) 0); simpl; [split; [done|intros []; lia]|].
  destruct (Z.ltb_spec MAX_CHUNK_SIZE (size_bytes e)); [split; [done|intros []; lia]|].
  destruct (Z.ltb_spec 4294967295 (sector_offset e + sector_count e));
    [split; [done|intros []; unfold entry_end in *; lia]|].
  destruct (Z.ltb_spec n (sector_offset e + sector_count e)); [split; [done|intros []; unfold entry_end in *; lia]|].
  split; [intros _|done]. split; unfold entry_end; lia.
Qed.

Lemma validate_chunk_entry_no_panic e n : validate_chunk_entry e n <> Panic.
Proof. unfold validate_chunk_entry. repeat case_match; done. Qed.

(** An entry meets an occupied sector when it is not apart from one seen. *)
Lemma slice_occupied n seen occ e :
  n < 2 ^ 32 -> occupies n seen occ -> entries_valid n seen -> entry_valid n e -> entry_exists e = true ->
  let start := Z.to_nat (sector_offset e) in
  let end_ := (start + Z.to_nat (sector_count e))%nat in
  existsb id (take (end_ - start) (drop start occ)) = false <-> Forall (apart e) seen.
Proof.
  intros Hn [Hl Ho] Hs He Hx start end_. rewrite <- not_true_iff_false, existsb_lookup, Forall_forall.
  destruct He as [H1 H2 H3]. pose proof (sector_count_bounds e H2) as [Hcnt _]. unfold entry_end, FIRST_DATA_SECTOR in *.
  split.
  - intros Hno e' Hin _ Hx'. destruct (Hs e' Hin Hx') as [H1' H2' H3']. pose proof (sector_count_bounds e' H2') as [Hcnt' _].
    unfold entry_end, FIRST_DATA_SECTOR in *. destruct (Z.le_gt_cases (sector_offset e + sector_count e) (sector_offset e')); [by left|].
    destruct (Z.le_gt_cases (sector_offset e' + sector_count e') (sector_offset e)); [by right|]. exfalso. apply Hno.
    exists (Z.to_nat (Z.max (sector_offset e) (sector_offset e')) - start)%nat.
    rewrite lookup_take_lt, lookup_drop by lia. apply Ho. split; [lia|]. right. exists e'.
    unfold entry_end. split_and!; try done; lia.
  - intros Hap [s Hsl]. apply lookup_take_Some in Hsl as [Hsl Hlt]. rewrite lookup_drop in Hsl.
    apply Ho in Hsl as (Hsn & [?|(e' & Hin & Hx' & Hr)]); [lia|]. specialize (Hap e' Hin Hx Hx').
    unfold entry_end in *. lia.
Qed.

Lemma occupies_fill n seen occ e :
  occupies n seen occ -> entry_valid n e -> entry_exists e = true ->
  let start := Z.to_nat (sector_offset e) in
  let end_ := (start + Z.to_nat (sector_count e))%nat in
  occupies n (e :: seen) (fill_slice start end_ occ).
Proof.
  intros [Hl Ho] [H1 H2 H3] Hx start end_. pose proof (sector_count_bounds e H2) as [Hcnt _].
  unfold FIRST_DATA_SECTOR in *. assert (end_ <= length occ)%nat by (unfold entry_end in *; lia).
  split; [by rewrite length_fill by lia|]. intros s. rewrite lookup_fill by lia. case_decide as Hd.
  - split; [intros _|done]. split; [unfold entry_end in *; lia|]. right. exists e. unfold entry_end.
    split; [by left|]. split; [done|]. lia.
  - rewrite Ho. setoid_rewrite elem_of_cons. unfold entry_end in *. split; [naive_solver|].
    intros (Hsn & [?|(e' & [->|Hin] & Hx' & Hr)]); [naive_solver|lia|]. split; [done|]. right. by exists e'.
Qed.

Lemma valid_nil n : entries_valid n [].
Proof. intros e []%elem_of_nil. Qed.

Lemma valid_cons n e es :
  entries_valid n (e :: es) <-> (entry_exists e = true -> entry_valid n e) /\ entries_valid n es.
Proof. unfold entries_valid. setoid_rewrite elem_of_cons. naive_solver. Qed.

Lemma apart_absent e seen : entry_exists e = false -> Forall (apart e) seen.
Proof. intros H. apply Forall_forall. intros e' _ H'. congruence. Qed.

Lemma validate_loop_spec index n es seen occ :
  n < 2 ^ 32 -> Forall (fun e => 0 <= size_bytes e) es -> occupies n seen occ -> entries_valid n seen ->
  validate_loop index es n occ <> Panic /\
  (validate_loop index es n occ = Ok tt <->
   entries_valid n es /\ ForallOrdPairs apart es /\ Forall (fun e => Forall (apart e) seen) es).
Proof.
  intros Hn Hes. revert index seen occ. induction Hes as [|e es He _ IH]; intros index seen occ Ho Hs; cbn [validate_loop].
  { split; [done|]. split; [|done]. intros _. split; [apply valid_nil|]. by split; constructor. }
  assert (Hpairs : ForallOrdPairs apart (e :: es) <-> Forall (apart e) es /\ ForallOrdPairs apart es)
    by (split; [by inversion 1|by intros []; constructor]).
  rewrite valid_cons, Hpairs, Forall_cons. clear Hpairs.
  destruct (entry_exists e) eqn:Hx; cbn [negb].
  2:{ destruct (IH (S index) seen occ Ho Hs) as [IH1 IH2]. split; [done|]. rewrite IH2.
      pose proof (apart_absent e es Hx). pose proof (apart_absent e seen Hx). naive_solver. }
  pose proof (validate_chunk_entry_no_panic e n) as Hnp. pose proof (validate_chunk_entry_valid e n Hn He) as Hval.
  destruct (validate_chunk_entry e n) as [[]| |]; cbn [obind];
    [|split; [done|]; split; [done|intros ((Hv & _) & _); exfalso; destruct Hval as [_ Hval]; by specialize (Hval (Hv eq_refl))]|done].
  assert (Hv : entry_valid n e) by by apply Hval. clear Hval Hnp.
  assert (Hin : (Z.to_nat (sector_offset e) <= Z.to_nat (sector_offset e) + Z.to_nat (sector_count e) /\
    Z.to_nat (sector_offset e) + Z.to_nat (sector_count e) <= length occ)%nat).
  { destruct Hv as [H1 H2 H3]. pose proof (sector_count_bounds e H2). destruct Ho as [Hl _].
    unfold entry_end, FIRST_DATA_SECTOR in *. lia. }
  unfold occupied_slice. rewrite decide_True by done. cbn [obind].
  pose proof (slice_occupied n seen occ e Hn Ho Hs Hv Hx) as Hsl. cbv zeta in Hsl.
  destruct (existsb id _).
  - split; [done|]. split; [done|]. intros (_ & _ & Hf & _). exfalso. by apply Hsl in Hf.
  - assert (Hap : Forall (apart e) seen) by by apply Hsl.
    destruct (IH (S index) (e :: seen) _ (occupies_fill n seen occ e Ho Hv Hx)) as [IH1 IH2].
    { apply valid_cons. split; [by intros _|done]. }
    split; [done|]. rewrite IH2, !Forall_forall. setoid_rewrite Forall_forall. setoid_rewrite elem_of_cons.
    rewrite Forall_forall in Hap. split.
    + intros (H1 & H2 & H3). split_and!; try done; [intros e' He'; by apply apart_sym, H3; [|left]|naive_solver].
    + intros ((_ & H1) & (H2 & H3) & _ & H4). split_and!; try done.
      intros e' He' e'' [->|Hin']; [by apply apart_sym, H2|by apply H4].
Qed.

(** A table is accepted when its chunks are in the file and apart. *)
Lemma validate_table_spec n hd :
  FIRST_DATA_SECTOR <= n < 2 ^ 32 -> header_wf hd ->
  validate_region_entries hd n <> Panic /\
  (validate_region_entries hd n = Ok tt <->
   entries_valid n (entries hd) /\ ForallOrdPairs apart (entries hd)).
Proof.
  intros Hn [_ Hw]. unfold validate_region_entries.
  destruct (validate_loop_spec 0 n (entries hd) []
    (replicate (Z.to_nat n `min` Z.to_nat FIRST_DATA_SECTOR) true
     ++ replicate (Z.to_nat n - Z.to_nat n `min` Z.to_nat FIRST_DATA_SECTOR) false)) as [H1 H2].
  - lia.
  - eapply Forall_impl; [exact Hw|]. intros e (_ & H & _). lia.
  - split; [rewrite length_app, !length_replicate; lia|]. intros s. unfold FIRST_DATA_SECTOR in *.
    destruct (decide (s < 3)%nat).
    + rewrite lookup_app_l by (rewrite length_replicate; lia).
      rewrite lookup_replicate. split; [lia|]. intros _. split; [done|lia].
    + rewrite lookup_app_r by (rewrite length_replicate; lia).
      rewrite lookup_replicate. split; [by intros [? _]|]. intros (_ & [?|(e & []%elem_of_nil & _)]). lia.
  - apply valid_nil.
  - split; [done|]. rewrite H2. split; [naive_solver|]. intros [? ?]. split_and!; try done.
    apply Forall_forall. by constructor.
Qed.

(** ** Names of files *)

Lemma filename_parts p : length (split "." (filename p)) = 4%nat.
Proof.
  change (filename p) with ("r" +:+ String "."%char (pretty (rx p) +:+ String "."%char (pretty (rz p) +:+ String "."%char "srg"))).
  rewrite !split_app, !(split_single _ (pretty _)) by apply free_of_pretty. done.
Qed.

Lemma backup_parts p v : length (split "." (backup_name p v)) = 6%nat.
Proof.
  unfold backup_name.
  change (".v" +:+ pretty v +:+ ".bak") with (String "."%char (("v" +:+ pretty v) +:+ String "."%char "bak")).
  assert (Hv : free_of "." ("v" +:+ pretty v)) by (apply free_of_app; split; [done|apply free_of_pretty]).
  rewrite !split_app, !length_app, filename_parts, (split_single _ ("v" +:+ _)) by done. done.
Qed.

Lemma backup_not_region p v q : backup_name p v <> filename q.
Proof. intros H. pose proof (backup_parts p v) as Hp. by rewrite H, filename_parts in Hp. Qed.

(** ** Reading a table *)

Lemma header_of_image hd : header_wf hd -> header_from_bytes (header_to_bytes hd) = Ok hd.
Proof.
  intros Hw. unfold header_from_bytes. rewrite decide_True.
  - unfold header_to_bytes. rewrite parse_entries_round by apply Hw. by destruct hd.
  - rewrite length_header_to_bytes by done. by rewrite Z2Nat.id.
Qed.

Lemma allocated_pairs n c es : allocated n c es -> ForallOrdPairs apart es.
Proof. intros Ha. apply pairs_lookup. intros i j e e' Hij He He' Hx Hx'. by eapply (al_disjoint _ _ _ Ha i j). Qed.

Lemma sectors_min c : opens c -> FIRST_DATA_SECTOR <= sectors c.
Proof.
  intros [Hl _]. unfold sectors. pose proof (usize_div_ceil_spec (Z.of_nat (length c)) SECTOR_SIZE ltac:(done)).
  unfold TOTAL_HEADER_SIZE, FILE_HEADER_SIZE, CHUNK_TABLE_SIZE, CHUNKS_PER_REGION, REGION_SIZE, SECTOR_SIZE, FIRST_DATA_SECTOR in *. lia.
Qed.

Lemma u32_sectors c : sectors c < 2 ^ 32 -> u32 (sectors c) = sectors c.
Proof.
  intros H. apply wrapu_id. split; [|done]. unfold sectors in *.
  pose proof (usize_div_ceil_spec (Z.of_nat (length c)) SECTOR_SIZE ltac:(done)). unfold SECTOR_SIZE in *. lia.
Qed.

Lemma disk_header_image c hd :
  opens c -> table_of c = header_to_bytes hd -> header_wf hd -> sectors c < 2 ^ 32 ->
  allocated (sectors c) c (entries hd) -> disk_header c = Some hd.
Proof.
  intros Ho Ht Hw Hs Ha. unfold disk_header. rewrite decide_True, Ht, header_of_image, u32_sectors by done.
  pose proof (sectors_min c Ho) as Hm. destruct (validate_table_spec (sectors c) hd (conj Hm Hs) Hw) as [_ [_ Hv]].
  rewrite Hv; [done|]. split; [apply (al_valid _ _ _ Ha)|by eapply allocated_pairs].
Qed.

(** ** New region files *)

Definition blank : list Z := file_header ++ header_to_bytes header_new.

Lemma length_blank : Z.of_nat (length blank) = TOTAL_HEADER_SIZE.
Proof. unfold blank. rewrite length_app, length_header_to_bytes by apply header_new_wf. done. Qed.

Lemma opens_blank : opens blank.
Proof.
  split; [by rewrite length_blank|]. unfold blank. change FILE_HEADER_SIZE with (Z.of_nat (length file_header)).
  by rewrite read_at_prefix.
Qed.

Lemma table_blank : table_of blank = header_to_bytes header_new.
Proof.
  unfold table_of, blank, read_at. rewrite drop_app_length' by done.
  apply firstn_all2. rewrite length_header_to_bytes by apply header_new_wf. lia.
Qed.

Lemma sectors_blank : sectors blank = FIRST_DATA_SECTOR.
Proof. unfold sectors. by rewrite length_blank. Qed.

Lemma header_new_absent e : e ∈ entries header_new -> e = empty_entry.
Proof. cbn [header_new entries]. by intros [-> _]%elem_of_replicate. Qed.

Lemma allocated_new n c : allocated n c (entries header_new).
Proof.
  split.
  - by intros e ->%header_new_absent.
  - by intros e ->%header_new_absent.
  - intros i j e e' _ He%list_elem_of_lookup_2%header_new_absent _. by subst.
Qed.

Lemma disk_header_blank : disk_header blank = Some header_new.
Proof.
  apply disk_header_image; [apply opens_blank|apply table_blank|apply header_new_wf|by rewrite sectors_blank|].
  apply allocated_new.
Qed.

(** A file whose creation failed has no chunk either. *)
Lemma disk_header_partial k hd : disk_header (take k blank) = Some hd -> hd = header_new.
Proof.
  destruct (decide (length blank <= k)%nat).
  - rewrite firstn_all2 by done. rewrite disk_header_blank. by intros [= <-].
  - unfold disk_header. rewrite decide_False; [done|]. intros [Hl _].
    pose proof length_blank. rewrite length_take in Hl. lia.
Qed.

Lemma entry_at_new i : entry_at header_new i = empty_entry.
Proof.
  unfold entry_at, header_new. cbn [entries]. destruct (replicate _ _ !! _) eqn:E; [|done].
  by apply lookup_replicate in E as [-> _].
Qed.

Lemma create_file_cases path f :
  exists f', (no_faults f -> no_faults f') /\
    (create_file path f = (Ok (mk_file path 0), f') /\ files f' = <[path := []]> (files f)
     \/ create_file path f = (Err os_error, f') /\ files f' = files f /\ ~ no_faults f).
Proof.
  unfold create_file, fallible, next_fault, no_faults. destruct (faults f) as [|[k|] fl] eqn:E; eexists.
  - split; [|by left]. done.
  - split; [|by right]. done.
  - split; [|by left]. done.
Qed.

Lemma write_at_start d : write_at 0 d [] = d.
Proof. destruct d; [done|]. unfold write_at. rewrite drop_nil, app_nil_r. done. Qed.

Lemma take_blank_header k : exists k', take k file_header = take k' blank.
Proof.
  exists (k `min` length file_header)%nat. unfold blank.
  rewrite take_app_le by lia. destruct (decide (k <= length file_header)%nat); [by rewrite Nat.min_l|].
  by rewrite Nat.min_r, !firstn_all2 by lia.
Qed.

Lemma take_blank_table k : exists k', file_header ++ take k (header_to_bytes header_new) = take k' blank.
Proof. exists (length file_header + k)%nat. unfold blank. by rewrite take_app_add. Qed.

Lemma write_table_blank d :
  write_at (Z.of_nat (length file_header)) d file_header = file_header ++ d.
Proof.
  pose proof (write_at_app 0 file_header d [] ltac:(lia) ltac:(done)) as H.
  by rewrite !write_at_start, Z.add_0_l in H.
Qed.

Lemma create_region_cases rp f :
  exists r f', create_region rp f = (r, f') /\
    (files f' = files f \/ exists k, files f' = <[filename rp := take k blank]> (files f)) /\
    (r = Ok (mk_handle (mk_file (filename rp) TOTAL_HEADER_SIZE) header_new 0 false FIRST_DATA_SECTOR) /\
       files f' = <[filename rp := blank]> (files f)
     \/ r = Err os_error) /\
    (no_faults f -> r <> Err os_error /\ no_faults f').
Proof.
  unfold create_region, create_dir_all, io_bind.
  run_fallible f1 Hf1 Hn1; [|do 2 eexists; split_and!; eauto; tauto].
  destruct (create_file_cases (filename rp) f1) as (f2 & Hn2 & [[-> Hf2]|(-> & Hf2 & Hnn)]);
    [|do 2 eexists; split_and!; eauto; [left; congruence|tauto]].
  rewrite Hf1 in Hf2.
  destruct (write_all_cases (mk_file (filename rp) 0) file_header f2) as (d & f3 & Hf3 & Hn3 & Hd); simpl in Hf3.
  rewrite (content_some f2 _ []), Hf2, insert_insert_eq in Hf3 by (rewrite Hf2; apply lookup_insert_eq).
  destruct Hd as [[-> ->]|(-> & [k ->] & Hnn)].
  2:{ do 2 eexists. split_and!; eauto; [|tauto]. right. destruct (take_blank_header k) as [k' Hk].
      exists k'. by rewrite Hf3, <- Hk, write_at_start. }
  destruct (write_all_cases (mk_file (filename rp) (0 + Z.of_nat (length file_header))) (header_to_bytes header_new) f3)
    as (d & f4 & Hf4 & Hn4 & Hd); cbn [file_path file_pos] in *.
  rewrite write_at_start in Hf3.
  rewrite (content_some f3 _ file_header), Hf3, insert_insert_eq, write_table_blank in Hf4
    by (rewrite Hf3; apply lookup_insert_eq).
  destruct Hd as [[-> ->]|(-> & [k ->] & Hnn)].
  - assert (Hblank : exists k, blank = take k blank) by (exists (length blank); by rewrite firstn_all2).
    destruct Hblank as [kb Hkb]. unfold flush. run_fallible f5 Hf5 Hn5; do 2 eexists; rewrite Hf5;
      (split_and!; eauto; [right; exists kb; by rewrite <- Hkb|intros ?; split; [try done; tauto|tauto]]).
  - do 2 eexists. split_and!; eauto; [|tauto]. right. destruct (take_blank_table k) as [k' Hk].
    exists k'. by rewrite Hf4, Hk.
Qed.

Lemma disk_header_complete c hd :
  complete c -> disk_header c = Some hd ->
  opens c /\ header_from_bytes (table_of c) = Ok hd /\ header_wf hd /\ allocated (sectors c) c (entries hd).
Proof.
  unfold disk_header. intros Hc. case_decide as Ho; [|done].
  destruct (header_from_bytes (table_of c)) as [hd'| |] eqn:Hh; [|done..].
  destruct (Hc hd' Ho Hh) as [Hw Ha]. destruct (validate_region_entries _ _) as [[]| |]; [|done..].
  intros [= <-]. auto.
Qed.

Lemma partial_complete k : complete (take k blank).
Proof.
  intros hd Ho Hh. destruct (decide (length blank <= k)%nat) as [Hk|Hk].
  - rewrite firstn_all2 in * by done. rewrite table_blank, header_of_image in Hh by apply header_new_wf.
    injection Hh as <-. split; [apply header_new_wf|]. intros _. apply allocated_new.
  - destruct Ho as [Hl _]. pose proof length_blank. rewrite length_take in Hl. lia.
Qed.

Lemma file_slot_partial f rp k i : files f !! filename rp = Some (take k blank) -> file_slot f rp i = None.
Proof.
  intros H. unfold file_slot. rewrite H. simpl. destruct (disk_header _) as [hd|] eqn:E; [|done]. simpl.
  apply disk_header_partial in E as ->. by rewrite entry_at_new.
Qed.

Lemma sectors_partial k : sectors (take k blank) <= FIRST_DATA_SECTOR.
Proof.
  rewrite <- sectors_blank. unfold sectors.
  pose proof (usize_div_ceil_spec (Z.of_nat (length (take k blank))) SECTOR_SIZE ltac:(done)) as H1.
  pose proof (usize_div_ceil_spec (Z.of_nat (length blank)) SECTOR_SIZE ltac:(done)) as H2.
  rewrite length_take in *. unfold SECTOR_SIZE in *. nia.
Qed.

Lemma fallible_run {A} (m : IO A) f :
  exists f', files f' = files f /\ (no_faults f -> no_faults f') /\
    (fallible m f = m f' \/ fallible m f = (Err os_error, f') /\ ~ no_faults f).
Proof.
  unfold fallible, next_fault, no_faults. destruct (faults f) as [|[k|] fl] eqn:E.
  - exists f. auto.
  - exists (mk_fs (files f) fl). split; [done|]. split; [done|]. by right.
  - exists (mk_fs (files f) fl). split; [done|]. split; [done|]. by left.
Qed.

(** The table of the file is that of the handle, or is still to be written. *)
Definition synced (f : Fs) (rp : RegionPos) (h : RegionHandle) : Prop :=
  header_dirty h = false -> header_from_bytes (table_of (content_of f (filename rp))) = Ok (header h).

(** Opening changes no chunk: neither of this region nor of another. *)
Record opened (f : Fs) (rp : RegionPos) (r : outcome io_error RegionHandle) (f' : Fs) : Prop := {
  od_others : forall rp', rp' <> rp -> files f' !! filename rp' = files f !! filename rp';
  od_panic : r <> Panic;
  od_ok : forall h, r = Ok h -> open_ok f' rp h /\ synced f' rp h /\ loaded_chunk_count h = 0 /\ header_dirty h = false /\
    (forall i, handle_slot f' rp h i = file_slot f rp i) /\
    (file_sectors h = FIRST_DATA_SECTOR \/ exists c, files f !! filename rp = Some c /\ file_sectors h = sectors c);
  od_err : forall e, r = Err e -> (forall i, file_slot f' rp i = file_slot f rp i) /\
    (forall c, files f' !! filename rp = Some c -> complete c);
  od_faults : no_faults f -> no_faults f' /\
    (forall e, r = Err e -> exists c, files f !! filename rp = Some c /\ disk_header c = None);
  od_bound : forall c, files f' !! filename rp = Some c -> sectors c <= FIRST_DATA_SECTOR \/ files f !! filename rp = Some c
}.

Lemma filename_ne rp rp' : rp' <> rp -> filename rp <> filename rp'.
Proof. intros H E. by apply H, filename_inj. Qed.

(** A region without a file, or with one that is replaced. *)
Lemma create_opened f f1 rp :
  (forall i, file_slot f rp i = None) -> files f1 !! filename rp = None ->
  (forall rp', rp' <> rp -> files f1 !! filename rp' = files f !! filename rp') ->
  (no_faults f -> no_faults f1) ->
  exists r f', create_region rp f1 = (r, f') /\ opened f rp r f'.
Proof.
  intros Hslot Hf1 Ho Hn1. destruct (create_region_cases rp f1) as (r & f' & Hr & Hfiles & Hres & Hn).
  exists r, f'. split; [done|]. split.
  - intros rp' Hne. rewrite <- Ho by done.
    destruct Hfiles as [->|[k ->]]; [done|]. by rewrite lookup_insert_ne by by apply filename_ne.
  - destruct Hres as [[-> _]| ->]; done.
  - intros h ->. destruct Hres as [[[= ->] Hb]|]; [|done].
    assert (Hc : content_of f' (filename rp) = blank) by (apply content_some; rewrite Hb; apply lookup_insert_eq).
    split_and!; try done.
    + split; cbn [file file_path header file_sectors]; rewrite ?Hc; auto using opens_blank, header_new_wf, allocated_new;
        [rewrite Hb, lookup_insert_eq; by eexists|by rewrite sectors_blank].
    + intros _. cbn [header]. rewrite Hc, table_blank. apply header_of_image, header_new_wf.
    + intros i. rewrite Hslot. unfold handle_slot. cbn [header]. by rewrite entry_at_new.
    + by left.
  - intros e ->. destruct Hres as [[[=] _]|]. destruct Hfiles as [Hsame|[k Hk]].
    + split; [|rewrite Hsame, Hf1; done]. intros i. rewrite Hslot. unfold file_slot. by rewrite Hsame, Hf1.
    + split.
      * intros i. rewrite Hslot. apply file_slot_partial with k. rewrite Hk. apply lookup_insert_eq.
      * rewrite Hk, lookup_insert_eq. intros c [= <-]. apply partial_complete.
  - intros Hnf. destruct (Hn (Hn1 Hnf)) as [Hne Hn']. split; [done|]. intros e ->.
    destruct Hres as [[[=] _]|[= ->]]. done.
  - destruct Hfiles as [->|[k ->]]; [by rewrite Hf1|]. rewrite lookup_insert_eq. intros c [= <-]. left. apply sectors_partial.
Qed.

Lemma unchanged_opened f f' rp e :
  files f' = files f -> (forall c, files f !! filename rp = Some c -> complete c) ->
  (no_faults f -> no_faults f' /\ exists c, files f !! filename rp = Some c /\ disk_header c = None) ->
  opened f rp (Err e) f'.
Proof.
  intros Hf Hc Hn. split; try done.
  - intros rp' _. by rewrite Hf.
  - intros e' _. split; [|by rewrite Hf]. intros i. unfold file_slot. by rewrite Hf.
  - intros Hnf. destruct (Hn Hnf) as [? ?]. split; [done|]. auto.
  - rewrite Hf. by right.
Qed.

Lemma file_slot_none f rp c i : files f !! filename rp = Some c -> disk_header c = None -> file_slot f rp i = None.
Proof. intros H1 H2. unfold file_slot. rewrite H1. simpl. by rewrite H2. Qed.


(** Reading [n] bytes at the cursor: the bytes, or an error. *)
Lemma read_exact_cases file0 n f :
  let bytes := read_at (file_pos file0) n (content_of f (file_path file0)) in
  exists f', files f' = files f /\ (no_faults f -> no_faults f') /\
    (file_read_exact file0 n f = (Ok (bytes, mk_file (file_path file0) (file_pos file0 + n)), f') /\ Z.of_nat (length bytes) = n
     \/ exists e, file_read_exact file0 n f = (Err e, f') /\ (no_faults f -> Z.of_nat (length bytes) <> n)).
Proof.
  intros bytes. unfold file_read_exact. cbv zeta.
  match goal with |- context [fallible ?m f] => destruct (fallible_run m f) as (f1 & Hf1 & Hn1 & H) end.
  assert (Hc : content_of f1 (file_path file0) = content_of f (file_path file0)) by (unfold content_of; by rewrite Hf1).
  rewrite Hc in H. fold bytes in H. exists f1. split; [done|]. split; [done|].
  destruct H as [->|[-> Hnn]]; [|right; eexists; split; [done|tauto]].
  destruct (decide (Z.of_nat (length bytes) = n)); [by left|]. right. by eexists.
Qed.

Lemma disk_header_closed c : ~ opens c -> disk_header c = None.
Proof. intros H. unfold disk_header. by rewrite decide_False. Qed.

Lemma opens_table c :
  Z.of_nat (length (table_of c)) = CHUNK_TABLE_SIZE -> TOTAL_HEADER_SIZE <= Z.of_nat (length c).
Proof.
  unfold table_of. rewrite length_read_at. unfold TOTAL_HEADER_SIZE, FILE_HEADER_SIZE, CHUNK_TABLE_SIZE.
  unfold CHUNKS_PER_REGION, REGION_SIZE. lia.
Qed.

Lemma header_from_table c : opens c -> Z.of_nat (length (table_of c)) = CHUNK_TABLE_SIZE.
Proof.
  intros [Hl _]. unfold table_of. apply length_read_at_in; [done..|]. exact Hl.
Qed.

Lemma header_from_no_panic bs : Z.of_nat (length bs) = CHUNK_TABLE_SIZE -> header_from_bytes bs <> Panic.
Proof.
  intros Hl. unfold header_from_bytes. rewrite decide_True by exact Hl.
  pose proof (parse_entries_no_panic 0 bs). by destruct (parse_entries 0 bs).
Qed.

Lemma read_table c : read_at (0 + FILE_HEADER_SIZE) CHUNK_TABLE_SIZE c = table_of c.
Proof. unfold table_of. by rewrite Z.add_0_l. Qed.

Lemma file_slot_some f rp c hd i :
  files f !! filename rp = Some c -> disk_header c = Some hd -> file_slot f rp i = chunk_data c (entry_at hd i).
Proof. unfold file_slot. intros -> H. unfold mbind, option_bind. by rewrite H. Qed.

(** The end of [open_region]: the table is parsed and validated. *)
Lemma open_table_opened f f1 rp c pos_ :
  files f !! filename rp = Some c -> opens c -> sectors c < 2 ^ 32 -> complete c ->
  files f1 = files f -> (no_faults f -> no_faults f1) ->
  exists r f',
    (header <~ io_lift (map_err invalid_status (header_from_bytes (table_of c))) ;;
     (r <~ seek_end (mk_file (filename rp) pos_) ;;
      let file_sectors := u32 (usize_div_ceil r.1 SECTOR_SIZE) in
      (_ <~ io_lift (validate_region_entries header file_sectors) ;;
       io_ret (mk_handle r.2 header 0 false file_sectors)))) f1 = (r, f') /\ opened f rp r f'.
Proof.
  intros Hc Ho Hs Hcomp Hf1 Hn1. assert (Hall : forall c', files f !! filename rp = Some c' -> complete c')
    by (rewrite Hc; by intros c' [= <-]).
  unfold io_bind, io_lift.
  assert (Hdisk : disk_header c = match header_from_bytes (table_of c) with
    | Ok hd => match validate_region_entries hd (sectors c) with Ok _ => Some hd | _ => None end | _ => None end)
    by (unfold disk_header; by rewrite decide_True, u32_sectors).
  destruct (header_from_bytes (table_of c)) as [hd|i|] eqn:Hh; cbn [map_err].
  2:{ do 2 eexists. split; [done|]. apply unchanged_opened; eauto. }
  2:{ by destruct (header_from_no_panic (table_of c) (header_from_table c Ho)). }
  destruct (Hcomp hd Ho Hh) as [Hw Ha]. rewrite u32_sectors in Ha by done.
  unfold seek_end. match goal with |- context [fallible ?m f1] => destruct (fallible_run m f1) as (f2 & Hf2 & Hn2 & [H|[H Hnn]]) end;
    rewrite H; clear H; [|do 2 eexists; split; [done|]; apply unchanged_opened; [congruence|done|tauto]].
  assert (Hcc : content_of f2 (filename rp) = c) by (apply content_some; congruence).
  cbn [file_path]. rewrite Hcc. cbn [fst snd]. fold (sectors c). rewrite u32_sectors by done.
  pose proof (sectors_min c Ho) as Hmin.
  destruct (validate_table_spec (sectors c) hd (conj Hmin Hs) Hw) as [Hnp _].
  destruct (validate_region_entries hd (sectors c)) as [[]|e|]; [|do 2 eexists; split; [done|]; apply unchanged_opened; try done; [congruence|]|done].
  2:{ intros Hnf. split; [tauto|]. by exists c. }
  specialize (Ha eq_refl). do 2 eexists. split; [done|]. split; try done.
  - intros rp' _. by rewrite Hf2, Hf1.
  - intros h [= <-].
    split_and!; try done.
    + split; cbn [file file_path header file_sectors]; rewrite ?Hcc; try done. rewrite Hf2, Hf1, Hc. by eexists.
    + intros _. cbn [header]. by rewrite Hcc.
    + intros i. rewrite (file_slot_some f rp c hd) by done. unfold handle_slot. by rewrite Hcc.
    + right. by exists c.
  - intros Hnf. split; [tauto|]. done.
  - rewrite Hf2, Hf1. by right.
Qed.

Lemma file_slot_closed f rp c : files f !! filename rp = Some c -> ~ opens c -> forall i, file_slot f rp i = None.
Proof. intros Hc Ho i. eapply file_slot_none; [done|]. by apply disk_header_closed. Qed.

(** An old version's file is set aside and a new one takes its place. *)
Lemma replace_opened f f1 rp c v :
  files f !! filename rp = Some c -> ~ opens c -> complete c -> files f1 = files f -> (no_faults f -> no_faults f1) ->
  exists r f', (_ <~ rename_file (filename rp) (backup_name rp v) ;; create_region rp) f1 = (r, f') /\ opened f rp r f'.
Proof.
  intros Hc Ho Hcomp Hf1 Hn1. pose proof (file_slot_closed f rp c Hc Ho) as Hslot. unfold io_bind, rename_file.
  match goal with |- context [fallible ?m f1] => destruct (fallible_run m f1) as (f2 & Hf2 & Hn2 & [H|[H Hnn]]) end;
    rewrite H; clear H.
  2:{ do 2 eexists. split; [done|]. apply unchanged_opened; [congruence| |tauto]. rewrite Hc. by intros c' [= <-]. }
  rewrite Hf2, Hf1, Hc. apply create_opened; cbn [files]; [done| | |exact (fun H => Hn2 (Hn1 H))].
  - rewrite lookup_insert_ne by by apply backup_not_region. apply lookup_delete_eq.
  - intros rp' Hne. rewrite lookup_insert_ne by by apply backup_not_region.
    apply lookup_delete_ne. by apply filename_ne.
Qed.

Lemma reject_opened f f' rp c e :
  files f !! filename rp = Some c -> complete c -> files f' = files f ->
  (no_faults f -> no_faults f' /\ ~ opens c) -> opened f rp (Err e) f'.
Proof.
  intros Hc Hcomp Hf Hn. apply unchanged_opened; [done|rewrite Hc; by intros c' [= <-]|].
  intros Hnf. destruct (Hn Hnf) as [? Ho]. split; [done|]. exists c. split; [done|]. by apply disk_header_closed.
Qed.

Lemma open_region_opened f rp :
  (forall c, files f !! filename rp = Some c -> complete c /\ sectors c < 2 ^ 32) ->
  exists r f', open_region rp f = (r, f') /\ opened f rp r f'.
Proof.
  intros Hall. unfold open_region. unfold io_bind at 1. unfold path_exists.
  destruct (files f !! filename rp) as [c|] eqn:Hc.
  2:{ rewrite bool_decide_false by by intros []. cbn [negb].
      apply create_opened; try done. intros i. unfold file_slot. by rewrite Hc. }
  rewrite bool_decide_true by by eexists. cbn [negb]. destruct (Hall c eq_refl) as [Hcomp Hs]. clear Hall.
  unfold io_bind at 1. unfold open_file.
  match goal with |- context [fallible ?m f] => destruct (fallible_run m f) as (f1 & Hf1 & Hn1 & [H|[H Hnn]]) end;
    rewrite H; clear H; [|do 2 eexists; split; [done|]; apply (reject_opened f _ rp c); [done..|tauto]].
  rewrite Hf1, Hc. cbv beta iota. unfold io_bind at 1.
  destruct (read_exact_cases (mk_file (filename rp) 0) FILE_HEADER_SIZE f1) as (f2 & Hf2 & Hn2 & Hr).
  assert (Hc1 : content_of f1 (filename rp) = c) by (apply content_some; congruence).
  cbn [file_path file_pos] in Hr. rewrite Hc1 in Hr.
  destruct Hr as [[-> Hl]|(e & -> & Hl)].
  2:{ do 2 eexists. split; [done|]. apply (reject_opened f _ rp c); [done|done|congruence|]. intros Hnf. split; [tauto|].
      intros [Hlen _]. apply (Hl (Hn1 Hnf)), length_read_at_in; [done..|].
      unfold TOTAL_HEADER_SIZE, CHUNK_TABLE_SIZE, CHUNKS_PER_REGION, REGION_SIZE in *. lia. }
  cbn [fst snd]. set (hb := read_at 0 FILE_HEADER_SIZE c) in *.
  destruct (bool_decide_reflect (take 4 hb = REGION_MAGIC)) as [Hm|Hm]; cbn [negb].
  2:{ do 2 eexists. split; [done|]. apply (reject_opened f _ rp c); [done|done|congruence|]. intros Hnf. split; [tauto|].
      by intros (_ & ? & _). }
  destruct (Z.eqb_spec (from_le_bytes (take 2 (drop 4 hb))) FORMAT_VERSION) as [Hv|Hv]; cbn [negb].
  2:{ apply replace_opened with c; try done; [|congruence|tauto]. by intros (_ & _ & ?). }
  unfold io_bind at 1.
  destruct (read_exact_cases (mk_file (filename rp) (0 + FILE_HEADER_SIZE)) CHUNK_TABLE_SIZE f2) as (f3 & Hf3 & Hn3 & Hr).
  assert (Hc2 : content_of f2 (filename rp) = c) by (apply content_some; congruence).
  cbn [file_path file_pos] in Hr. rewrite Hc2 in Hr. rewrite read_table in Hr.
  destruct Hr as [[-> Hlt]|(e & -> & Hlt)].
  - assert (Ho : opens c) by (split; [by apply opens_table|done]).
    destruct (open_table_opened f f3 rp c (0 + FILE_HEADER_SIZE + CHUNK_TABLE_SIZE) Hc Ho Hs Hcomp ltac:(congruence) ltac:(tauto)) as (r & f' & Hr & Hod).
    exists r, f'. split; [exact Hr|done].
  - do 2 eexists. split; [done|]. apply (reject_opened f _ rp c); [done|done|congruence|]. intros Hnf. split; [tauto|].
    intros Ho. apply (Hlt (Hn2 (Hn1 Hnf))). by apply header_from_table.
Qed.

(** ** The table and its sectors *)

(** Sectors are given out first fit: the first gap that is large enough, or
    the end of the file. *)
Theorem sectors_first_fit h n fs :
  0 < n -> FIRST_DATA_SECTOR <= fs -> fs + n < 2 ^ 32 -> entries_valid fs (entries h) ->
  let r := find_free_sectors h n fs in
  free_at h n r /\ r <= fs /\
  (forall s, free_at h n s -> s < r ->
     r = fs /\ forall e, e ∈ entries h -> entry_exists e = true -> entry_end e <= s).
Proof. apply find_free_spec. Qed.

(** C32: a table is accepted exactly when its chunks lie in the file, past the
    header, and apart. *)
Theorem table_accepted_exactly hd n :
  FIRST_DATA_SECTOR <= n < 2 ^ 32 -> header_wf hd ->
  validate_region_entries hd n <> Panic /\
  (validate_region_entries hd n = Ok tt <->
   (forall e, e ∈ entries hd -> entry_exists e = true -> entry_valid n e) /\
   (forall i j e e', i <> j -> entries hd !! i = Some e -> entries hd !! j = Some e' ->
      entry_exists e = true -> entry_exists e' = true ->
      entry_end e <= sector_offset e' \/ entry_end e' <= sector_offset e)).
Proof.
  intros Hn Hw. destruct (validate_table_spec n hd Hn Hw) as [H1 H2]. split; [done|]. rewrite H2, pairs_lookup. done.
Qed.

(** A well-formed table is read back from its bytes, and a table of bytes
    is refused or read as a well-formed one. *)
Theorem table_roundtrip :
  (forall hd, header_wf hd -> header_from_bytes (header_to_bytes hd) = Ok hd) /\
  (forall bs, Forall is_byte bs -> Z.of_nat (length bs) = CHUNK_TABLE_SIZE ->
     header_from_bytes bs <> Panic /\ forall hd, header_from_bytes bs = Ok hd -> header_wf hd).
Proof.
  split; [apply header_of_image|]. intros bs Hb Hl. unfold header_from_bytes. rewrite decide_True by done.
  pose proof (parse_entries_no_panic 0 bs). destruct (parse_entries 0 bs) as [es| |] eqn:E; cbn [obind]; [|done..].
  split; [done|]. intros hd [= <-]. apply (parse_entries_wf (Z.to_nat CHUNKS_PER_REGION) 0 bs); [|done|done].
  unfold CHUNK_TABLE_SIZE in Hl. lia.
Qed.

Lemma largest_entry_bytes s st : entry_to_bytes (mk_entry s MAX_CHUNK_SIZE st) = entry_to_bytes (mk_entry s 0 st).
Proof. reflexivity. Qed.

(** C40: the largest chunk the encoder lets through does not survive the table:
    its size is 24 bits wide, so the entry is read back with size 0 and the
    region is refused. *)
Theorem largest_chunk_is_refused hd i s st n :
  header_wf hd -> 0 <= i < CHUNKS_PER_REGION -> FIRST_DATA_SECTOR <= s -> s + 4096 <= n -> n < 2 ^ 32 ->
  let e := mk_entry s MAX_CHUNK_SIZE st in
  validate_chunk_entry e n = Ok tt /\
  header_from_bytes (header_to_bytes (set_entry hd i e)) = Ok (set_entry hd i (mk_entry s 0 st)) /\
  validate_region_entries (set_entry hd i (mk_entry s 0 st)) n <> Ok tt.
Proof.
  intros Hw Hi Hs Hn Hlim e. unfold FIRST_DATA_SECTOR in Hs.
  assert (Hw' : header_wf (set_entry hd i (mk_entry s 0 st))).
  { destruct Hw as [Hl Hf]. split; cbn [set_entry entries]; [by rewrite length_insert|]. apply Forall_insert; [done|].
    split; [|split]; cbn [sector_offset size_bytes entry_status]; [split; lia|lia|lia]. }
  split; [|split].
  - apply validate_chunk_entry_valid; [done|done|]. split; [done|done|]. unfold entry_end.
    assert (Hc : sector_count e = 4096) by reflexivity. rewrite Hc. cbn [e sector_offset]. lia.
  - rewrite <- (header_of_image _ Hw'). unfold header_to_bytes. do 2 f_equal. unfold set_entry. cbn [entries].
    unfold e. by rewrite !list_fmap_insert, largest_entry_bytes.
  - intros Hv. destruct (validate_table_spec n _ ltac:(unfold FIRST_DATA_SECTOR; lia) Hw') as [_ [Hok _]].
    destruct (Hok Hv) as [Hval _]. specialize (Hval (mk_entry s 0 st)).
    destruct Hval as [_ Hsz _]; [| |cbn [size_bytes] in Hsz; lia].
    + cbn [set_entry entries]. apply list_elem_of_lookup. exists (Z.to_nat i). apply list_lookup_insert_eq.
      destruct Hw as [-> _]. lia.
    + unfold entry_exists. cbn [sector_offset]. by rewrite (proj2 (Z.eqb_neq s 0)) by lia.
Qed.

Module Example1.
(** One chunk of two sectors at sector 5, in a file of 9. *)
Definition one_chunk : RegionHeader := set_entry header_new 7 (mk_entry 5 5000 Full).

Lemma one_chunk_entries e : e ∈ entries one_chunk -> e = mk_entry 5 5000 Full \/ e = empty_entry.
Proof.
  intros (i & Hi)%list_elem_of_lookup. unfold one_chunk, set_entry in Hi. cbn [entries] in Hi.
  apply list_lookup_insert_Some in Hi as [(_ & <- & _)|(_ & Hi)]; [by left|]. right.
  by apply header_new_absent, list_elem_of_lookup_2 with i.
Qed.

Lemma one_chunk_valid : entries_valid 9 (entries one_chunk).
Proof. intros e [->| ->]%one_chunk_entries; [|done]. intros _. split; [done|done|]. vm_compute. discriminate. Qed.

Lemma one_chunk_wf : header_wf one_chunk.
Proof.
  apply set_entry_wf; [apply header_new_wf|]. split; [|split]; [split; [discriminate|reflexivity]|split; [discriminate|reflexivity]|discriminate].
Qed.

Example two_sectors : find_free_sectors one_chunk 2 9 = 3 /\ find_free_sectors one_chunk 3 9 = 9.
Proof. split; vm_compute; reflexivity. Qed.

Lemma sectors_first_fit_witness :
  free_at one_chunk 2 (find_free_sectors one_chunk 2 9) /\ find_free_sectors one_chunk 2 9 <= 9.
Proof.
  destruct (sectors_first_fit one_chunk 2 9 eq_refl) as (H1 & H2 & _); [discriminate|reflexivity|exact one_chunk_valid|].
  split; [exact H1|exact H2].
Defined.

Lemma table_accepted_exactly_witness : validate_region_entries one_chunk 9 <> Panic.
Proof.
  apply (table_accepted_exactly one_chunk 9); [split; [discriminate|reflexivity]|exact one_chunk_wf].
Defined.

Lemma largest_chunk_is_refused_witness :
  header_from_bytes (header_to_bytes (set_entry header_new 0 (mk_entry 3 MAX_CHUNK_SIZE Full))) =
    Ok (set_entry header_new 0 (mk_entry 3 0 Full)).
Proof.
  destruct (largest_chunk_is_refused header_new 0 3 Full 4099 header_new_wf) as (_ & H & _);
    [split; [discriminate|reflexivity]|discriminate|discriminate|reflexivity|exact H].
Defined.
End Example1.
