(* ===== verification/RegionStorage.v ===== *)
(** * The chunk storage

    The operations of the region manager on what it stores.  Under any
    failure of the file system saving, loading and acquiring keep the
    allocation of every file, and no chunk but the one saved changes.
    Without failures the storage on disk answers as the storage in memory. *)

From Stdlib Require Import Lia ZArith Ascii String.
From stdpp Require Import prelude list strings gmap pretty.
From S2P Require Import Prelude Io Collections Identifier Strings Position ChunkPyramid RegionFormat Files RegionManager RegionStore.

#[local] Open Scope list_scope.

(** ** Changes to one region *)

Lemma content_eq f f' path : files f' !! path = files f !! path -> content_of f' path = content_of f path.
Proof. unfold content_of. by intros ->. Qed.

Lemma open_ok_file f f' rp h :
  files f' !! filename rp = files f !! filename rp -> open_ok f rp h -> open_ok f' rp h.
Proof.
  intros Hf [H1 H2 H3 H4 H5 H6]. pose proof (content_eq _ _ _ Hf) as Hc.
  split; rewrite ?Hc, ?Hf; done.
Qed.

Lemma synced_file f f' rp h : files f' !! filename rp = files f !! filename rp -> synced f rp h -> synced f' rp h.
Proof. intros Hf. unfold synced. by rewrite (content_eq _ _ _ Hf). Qed.

Lemma slot_file s s' rp i :
  regions s' !! rp = regions s !! rp -> files (fs s') !! filename rp = files (fs s) !! filename rp ->
  slot s' rp i = slot s rp i.
Proof.
  intros Hr Hf. unfold slot, handle_slot, file_slot. by rewrite Hr, Hf, (content_eq _ _ _ Hf).
Qed.

(** [s'] is [s] but for the region [rp]. *)
Definition only_region (rp : RegionPos) (s s' : RegionManager) : Prop :=
  (forall rp', rp' <> rp -> regions s' !! rp' = regions s !! rp') /\
  (forall rp', rp' <> rp -> files (fs s') !! filename rp' = files (fs s) !! filename rp').

Lemma only_region_trans rp s1 s2 s3 : only_region rp s1 s2 -> only_region rp s2 s3 -> only_region rp s1 s3.
Proof. intros [H1 H2] [H3 H4]. split; intros rp' Hne; [by rewrite H3, H1|by rewrite H4, H2]. Qed.

Lemma only_region_slot rp s s' rp' i : only_region rp s s' -> rp' <> rp -> slot s' rp' i = slot s rp' i.
Proof. intros [H1 H2] Hne. apply slot_file; auto. Qed.

Lemma put_only rp h s f' :
  (forall rp', rp' <> rp -> files f' !! filename rp' = files (fs s) !! filename rp') ->
  only_region rp s (mk_manager (<[rp := h]> (regions s)) f').
Proof. intros Hf. split; [|exact Hf]. intros rp' Hne. simpl. by rewrite lookup_insert_ne. Qed.

Lemma insert_others rp c (f f' : Fs) :
  files f' = <[filename rp := c]> (files f) ->
  forall rp', rp' <> rp -> files f' !! filename rp' = files f !! filename rp'.
Proof. intros -> rp' Hne. apply lookup_insert_ne. by apply filename_ne. Qed.

(** The state of a region after a step: open and sound, or closed and
    complete. *)
Definition region_ok (s : RegionManager) (rp : RegionPos) : Prop :=
  match regions s !! rp with
  | Some h => open_ok (fs s) rp h
  | None => forall c, files (fs s) !! filename rp = Some c -> complete c
  end.

Lemma store_ok_regions s : store_ok s <-> forall rp, region_ok s rp.
Proof.
  split.
  - intros [Ho Hc] rp. unfold region_ok. destruct (regions s !! rp) eqn:E; eauto.
  - intros H. split; intros rp; specialize (H rp); unfold region_ok in H; intros x Hx; rewrite Hx in H; auto.
Qed.

Lemma region_ok_file s s' rp :
  regions s' !! rp = regions s !! rp -> files (fs s') !! filename rp = files (fs s) !! filename rp ->
  region_ok s rp -> region_ok s' rp.
Proof.
  intros Hr Hf. unfold region_ok. rewrite Hr. destruct (regions s !! rp); [by apply open_ok_file|].
  by rewrite Hf.
Qed.

Lemma store_ok_step rp s s' : store_ok s -> only_region rp s s' -> region_ok s' rp -> store_ok s'.
Proof.
  rewrite !store_ok_regions. intros Hs [H1 H2] Hr rp'. destruct (decide (rp' = rp)) as [->|Hne]; [done|].
  apply (region_ok_file s); auto.
Qed.

(** The size of a region, when it is below the limit. *)
Definition region_bounded (limit : Z) (s : RegionManager) (rp : RegionPos) : Prop :=
  (forall h, regions s !! rp = Some h -> file_sectors h <= limit) /\
  (forall c, files (fs s) !! filename rp = Some c -> sectors c <= limit).

Lemma bounded_regions limit s : bounded limit s <-> forall rp, region_bounded limit s rp.
Proof. unfold bounded, region_bounded. naive_solver. Qed.

Lemma bounded_step limit limit' rp s s' :
  bounded limit s -> limit <= limit' -> only_region rp s s' -> region_bounded limit' s' rp -> bounded limit' s'.
Proof.
  rewrite !bounded_regions. intros Hs Hl [H1 H2] Hr rp'. destruct (decide (rp' = rp)) as [->|Hne]; [done|].
  destruct (Hs rp') as [Hb1 Hb2]. split; [rewrite H1 by done|rewrite H2 by done]; intros x Hx;
    [specialize (Hb1 _ Hx)|specialize (Hb2 _ Hx)]; lia.
Qed.

(** Without failures, and every header on disk or marked dirty. *)
Definition region_clean (s : RegionManager) (rp : RegionPos) : Prop :=
  match regions s !! rp with
  | Some h => synced (fs s) rp h
  | None => forall c, files (fs s) !! filename rp = Some c -> is_Some (disk_header c)
  end.

Definition clean (s : RegionManager) : Prop := no_faults (fs s) /\ forall rp, region_clean s rp.

Lemma clean_step rp s s' :
  clean s -> only_region rp s s' -> no_faults (fs s') -> region_clean s' rp -> clean s'.
Proof.
  intros [_ Hs] [H1 H2] Hn Hr. split; [done|]. intros rp'. destruct (decide (rp' = rp)) as [->|Hne]; [done|].
  specialize (Hs rp'). unfold region_clean in *. rewrite H1 by done.
  destruct (regions s !! rp'); [by apply (synced_file (fs s)); [apply H2|]|by rewrite H2].
Qed.

(** ** Opening a region *)

Lemma put_slot rp h s f i : slot (mk_manager (<[rp := h]> (regions s)) f) rp i = handle_slot f rp h i.
Proof. unfold slot. simpl. by rewrite lookup_insert_eq. Qed.

Lemma get_or_open_spec s rp limit :
  store_ok s -> bounded limit s -> FIRST_DATA_SECTOR <= limit < 2 ^ 32 ->
  exists r s', get_or_open rp s = (r, s') /\ r <> Panic /\ store_ok s' /\ bounded limit s' /\ only_region rp s s' /\
    (forall i, slot s' rp i = slot s rp i) /\
    (forall h, r = Ok h -> regions s' !! rp = Some h /\
       (s' = s \/ regions s !! rp = None /\ loaded_chunk_count h = 0 /\ synced (fs s') rp h /\ header_dirty h = false)) /\
    (forall e, r = Err e -> regions s' = regions s) /\
    (clean s -> clean s' /\ exists h, r = Ok h).
Proof.
  intros Hs Hb Hlim. unfold get_or_open, io_bind, lookup_region.
  destruct (regions s !! rp) as [h|] eqn:Hr.
  { exists (Ok h), s. split_and!; try done; [|by eauto]. intros h' [= <-]. auto. }
  pose proof (s_closed s Hs rp) as Hc. destruct (Hb) as [_ Hbf].
  destruct (open_region_opened (fs s) rp) as (r & f' & Hop & Ho).
  { intros c Hfc. split; [by apply Hc|]. specialize (Hbf _ _ Hfc). lia. }
  unfold lift_io. rewrite Hop. destruct Ho as [Hoth Hnp Hok Herr Hnf Hbd].
  assert (Hcb : forall c, files f' !! filename rp = Some c -> sectors c <= limit).
  { intros c Hfc. destruct (Hbd c Hfc) as [?|?]; [lia|eauto]. }
  destruct r as [h|e|]; [| |done].
  - destruct (Hok h eq_refl) as (Hoo & Hsy & Hcnt & Hd & Hsl & Hsec).
    assert (Honly : only_region rp s (mk_manager (<[rp := h]> (regions s)) f')) by by apply put_only.
    exists (Ok h), (mk_manager (<[rp := h]> (regions s)) f'). split; [done|]. split; [done|]. split.
    { apply (store_ok_step rp s); try done. unfold region_ok. simpl. by rewrite lookup_insert_eq. }
    split. { apply (bounded_step limit limit rp s); try done. split; [|done]. simpl. rewrite lookup_insert_eq.
      intros h' [= <-]. destruct Hsec as [->|(c & Hfc & ->)]; [lia|eauto]. }
    split; [done|]. split; [intros i; rewrite put_slot, Hsl; unfold slot; by rewrite Hr|].
    split; [intros h' [= <-]; simpl; rewrite lookup_insert_eq; auto 6|]. split; [done|].
    intros Hcl. split; [|by eexists]. apply (clean_step rp s); try done; [by apply Hnf, Hcl|].
    unfold region_clean. simpl. by rewrite lookup_insert_eq.
  - destruct (Herr e eq_refl) as [Hsl Hcomp].
    assert (Honly : only_region rp s (mk_manager (regions s) f')) by by split.
    exists (Err e), (mk_manager (regions s) f'). split; [done|]. split; [done|]. split.
    { apply (store_ok_step rp s); try done. unfold region_ok. simpl. by rewrite Hr. }
    split. { apply (bounded_step limit limit rp s); try done. split; [|done]. simpl. by rewrite Hr. }
    split; [done|]. split; [intros i; unfold slot; simpl; by rewrite Hr, Hsl|]. split; [done|]. split; [done|].
    intros [Hn Hcl]. destruct (Hnf Hn) as [_ Hno]. destruct (Hno e eq_refl) as (c & Hfc & Hdh).
    specialize (Hcl rp). unfold region_clean in Hcl. rewrite Hr in Hcl. destruct (Hcl c Hfc). congruence.
Qed.

(** ** Writing to an open region *)

Lemma opens_write o d c : opens c -> FILE_HEADER_SIZE <= o -> opens (write_at o d c).
Proof.
  intros (Hl & Hm & Hv) Ho. pose proof (length_write_at_ge o d c). unfold FILE_HEADER_SIZE in *.
  assert (Hr : read_at 0 FILE_HEADER_SIZE (write_at o d c) = read_at 0 FILE_HEADER_SIZE c).
  { unfold TOTAL_HEADER_SIZE, FILE_HEADER_SIZE, CHUNK_TABLE_SIZE, CHUNKS_PER_REGION, REGION_SIZE in *.
    apply read_write_outside; lia. }
  split; [lia|]. unfold FILE_HEADER_SIZE in Hr. unfold FILE_HEADER_SIZE. by rewrite Hr.
Qed.

Lemma table_write o d c : opens c -> TOTAL_HEADER_SIZE <= o -> table_of (write_at o d c) = table_of c.
Proof.
  intros (Hl & _) Ho. unfold table_of.
  unfold TOTAL_HEADER_SIZE, FILE_HEADER_SIZE, CHUNK_TABLE_SIZE, CHUNKS_PER_REGION, REGION_SIZE in *.
  apply read_write_outside; lia.
Qed.

Lemma sector_past_header s : FIRST_DATA_SECTOR <= s -> TOTAL_HEADER_SIZE <= s * SECTOR_SIZE.
Proof.
  unfold FIRST_DATA_SECTOR, TOTAL_HEADER_SIZE, FILE_HEADER_SIZE, CHUNK_TABLE_SIZE, CHUNKS_PER_REGION, REGION_SIZE, SECTOR_SIZE. lia.
Qed.

Lemma chunk_kept_by_table n c es e d :
  allocated n c es -> e ∈ es -> Z.of_nat (length d) <= CHUNK_TABLE_SIZE ->
  chunk_data (write_at FILE_HEADER_SIZE d c) e = chunk_data c e.
Proof.
  intros Ha He Hd. unfold chunk_data. destruct (entry_exists e) eqn:Hx; [|done]. do 2 f_equal.
  destruct (chunk_end _ _ _ _ Ha He Hx) as (H1 & H2 & _). pose proof (al_data _ _ _ Ha e He Hx).
  pose proof (sector_past_header _ H1). unfold TOTAL_HEADER_SIZE in *.
  apply read_write_outside; [done| | |]; unfold FILE_HEADER_SIZE in *; lia.
Qed.

Lemma open_content f rp h : open_ok f rp h -> files f !! filename rp = Some (content_of f (filename rp)).
Proof. intros [_ [c Hc] _ _ _ _]. unfold content_of. by rewrite Hc. Qed.

Lemma content_inserted f f' path c : files f' = <[path := c]> (files f) -> content_of f' path = c.
Proof. intros H. apply content_some. rewrite H. apply lookup_insert_eq. Qed.

Lemma sectors_write s d c k :
  0 <= s -> Z.of_nat (length d) <= k * SECTOR_SIZE ->
  sectors (write_at (s * SECTOR_SIZE) d c) <= Z.max (sectors c) (s + k).
Proof.
  intros Hs Hd. destruct (decide (d = [])) as [->|Hne]; [simpl; lia|].
  unfold sectors. rewrite length_write_at by done.
  pose proof (usize_div_ceil_spec (Z.of_nat (length c)) SECTOR_SIZE ltac:(done)) as H1.
  match goal with |- usize_div_ceil ?x _ <= _ => pose proof (usize_div_ceil_spec x SECTOR_SIZE ltac:(done)) as H2 end.
  unfold SECTOR_SIZE in *. lia.
Qed.

Lemma sectors_write_exact s data c :
  0 <= s -> data <> [] ->
  sectors (write_at (s * SECTOR_SIZE) (padded data) c) = Z.max (sectors c) (s + sectors_for data).
Proof.
  intros Hs Hne. pose proof (length_padded_sectors data) as Hp. pose proof (sectors_for_pos data Hne).
  unfold sectors. rewrite length_write_at by (intros E; rewrite E in Hp; unfold SECTOR_SIZE in *; simpl in Hp; lia).
  assert (Hl : Z.of_nat (length c `max` (Z.to_nat (s * SECTOR_SIZE) + length (padded data)))
    = Z.max (Z.of_nat (length c)) ((s + sectors_for data) * SECTOR_SIZE)) by (unfold SECTOR_SIZE in *; lia).
  rewrite Hl, usize_div_ceil_max, usize_div_ceil_mul by done. done.
Qed.

Lemma sectors_table d c :
  opens c -> Z.of_nat (length d) <= CHUNK_TABLE_SIZE -> sectors (write_at FILE_HEADER_SIZE d c) = sectors c.
Proof.
  intros [Hl _] Hd. unfold sectors. destruct (decide (d = [])) as [->|Hne]; [done|].
  rewrite length_write_at by done. do 2 f_equal. unfold TOTAL_HEADER_SIZE, FILE_HEADER_SIZE in *. lia.
Qed.

(** The table of an open region is written, perhaps in part. *)
Lemma open_ok_table f f' rp h d :
  open_ok f rp h -> Z.of_nat (length d) <= CHUNK_TABLE_SIZE ->
  files f' = <[filename rp := write_at FILE_HEADER_SIZE d (content_of f (filename rp))]> (files f) ->
  open_ok f' rp h /\ forall i, 0 <= i < CHUNKS_PER_REGION -> handle_slot f' rp h i = handle_slot f rp h i.
Proof.
  intros [H1 H2 H3 H4 H5 H6] Hd Hf. pose proof (content_inserted _ _ _ _ Hf) as Hc. split.
  - split; rewrite ?Hc; try done; [rewrite Hf, lookup_insert_eq; by eexists|by apply opens_write|by rewrite sectors_table|].
    eapply allocated_grow; [exact H6|]. apply length_write_at_ge.
  - intros i Hi. unfold handle_slot. rewrite Hc. eapply chunk_kept_by_table; [done|by apply entry_at_elem|done].
Qed.

(** Where the chunk of slot [i] may be written. *)
Record place (h : RegionHandle) (i s k : Z) : Prop := {
  pl_slot : 0 <= i < CHUNKS_PER_REGION;
  pl_count : 0 < k;
  pl_start : FIRST_DATA_SECTOR <= s <= file_sectors h;
  pl_clear : clear_for (entries (header h)) (Z.to_nat i) s k
}.

Lemma open_ok_chunk f f' rp h i s k d n :
  open_ok f rp h -> place h i s k -> Z.of_nat (length d) <= k * SECTOR_SIZE -> file_sectors h <= n <= sectors (content_of f' (filename rp)) ->
  files f' = <[filename rp := write_at (s * SECTOR_SIZE) d (content_of f (filename rp))]> (files f) ->
  open_ok f' rp (set_file_sectors h n) /\
  forall j, 0 <= j < CHUNKS_PER_REGION -> j <> i -> handle_slot f' rp h j = handle_slot f rp h j.
Proof.
  intros [H1 H2 H3 H4 H5 H6] [Hi Hk Hs Hcl] Hd Hn Hf. pose proof (content_inserted _ _ _ _ Hf) as Hc.
  pose proof (sector_past_header s ltac:(lia)) as Hp. split.
  - rewrite Hc in Hn. split; cbn [set_file_sectors file header file_sectors]; rewrite ?Hc; try done;
      [rewrite Hf, lookup_insert_eq; by eexists|apply opens_write; [done|unfold TOTAL_HEADER_SIZE, CHUNK_TABLE_SIZE, CHUNKS_PER_REGION, REGION_SIZE in *; lia]|lia|].
    eapply allocated_more, (proj1 Hn). eapply allocated_grow; [exact H6|]. apply length_write_at_ge.
  - intros j Hj Hne. unfold handle_slot. rewrite Hc. unfold FIRST_DATA_SECTOR in *.
    eapply other_chunk_kept; [done|done|lia|done| |by apply entry_at_lookup]. lia.
Qed.

Lemma sectors_for_bounds data :
  0 < Z.of_nat (length data) <= MAX_CHUNK_SIZE ->
  0 < sectors_for data <= 4096 /\ Z.of_nat (length data) <= sectors_for data * SECTOR_SIZE.
Proof.
  intros Hd. unfold sectors_for. pose proof (usize_div_ceil_spec (Z.of_nat (length data)) SECTOR_SIZE ltac:(done)).
  unfold MAX_CHUNK_SIZE, SECTOR_SIZE in *. nia.
Qed.

Lemma read_padded s data c :
  0 <= s -> read_at (s * SECTOR_SIZE) (Z.of_nat (length data)) (write_at (s * SECTOR_SIZE) (padded data) c) = data.
Proof.
  intros Hs. rewrite <- (Z.add_0_r (s * SECTOR_SIZE)) at 1. rewrite read_write_inside.
  - unfold padded. apply read_at_prefix.
  - unfold SECTOR_SIZE. lia.
  - done.
  - lia.
  - unfold padded. rewrite length_app. lia.
Qed.

(** The new entry, once its data is in the file. *)
Lemma open_ok_entry f f' rp h i s data st :
  open_ok f rp h -> place h i s (sectors_for data) ->
  0 < Z.of_nat (length data) < 2 ^ 24 -> s + sectors_for data < 2 ^ 32 ->
  files f' = <[filename rp := write_at (s * SECTOR_SIZE) (padded data) (content_of f (filename rp))]> (files f) ->
  let e := mk_entry s (Z.of_nat (length data)) st in
  let n := Z.max (file_sectors h) (s + sectors_for data) in
  let h' := set_header (set_file_sectors h n) (set_entry (header h) i e) in
  open_ok f' rp h' /\
  forall j, 0 <= j < CHUNKS_PER_REGION ->
    handle_slot f' rp h' j = if decide (j = i) then Some (st, data) else handle_slot f rp h j.
Proof.
  intros Hh Hp Hd Hlim Hf e n h'. pose proof (length_padded_sectors data) as Hpad.
  assert (Hn : file_sectors h <= n <= sectors (content_of f' (filename rp))).
  { rewrite (content_inserted _ _ _ _ Hf), sectors_write_exact; [|destruct Hp; unfold FIRST_DATA_SECTOR in *; lia|intros ->; simpl in Hd; lia].
    pose proof (o_sectors _ _ _ Hh). lia. }
  destruct (open_ok_chunk f f' rp h i s (sectors_for data) (padded data) n Hh Hp ltac:(lia) ltac:(exact Hn) Hf) as [Ho Hsl].
  destruct Ho as [H1 H2 H3 H4 H5 H6]. destruct Hp as [Hi Hk Hs Hcl]. cbn [set_file_sectors file header file_sectors] in *.
  pose proof (content_inserted _ _ _ _ Hf) as Hc. unfold FIRST_DATA_SECTOR in Hs.
  assert (Hx : entry_exists e = true) by (unfold entry_exists; cbn [e sector_offset]; rewrite (proj2 (Z.eqb_neq s 0)) by lia; done).
  assert (Hmax : 0 < size_bytes e <= MAX_CHUNK_SIZE) by (cbn [e size_bytes]; unfold MAX_CHUNK_SIZE; lia).
  assert (Hcnt : sector_count e = sectors_for data) by by apply sector_count_valid.
  split.
  - split; cbn [h' set_header file header file_sectors set_file_sectors]; try done.
    + apply set_entry_wf; [done|]. split; [|split]; cbn [e sector_offset size_bytes entry_status]; [split; lia|lia|lia].
    + unfold set_entry. cbn [entries]. apply allocated_set; try done.
      * destruct H4 as [-> _]. lia.
      * split; [unfold FIRST_DATA_SECTOR; cbn [e sector_offset]; lia|done|].
        unfold entry_end. rewrite Hcnt. cbn [e sector_offset]. lia.
      * rewrite Hcnt. exact Hcl.
      * rewrite Hc, length_write_at by (intros E; rewrite E in Hpad; unfold SECTOR_SIZE in *; simpl in Hpad; lia).
        cbn [e sector_offset size_bytes]. pose proof (sectors_for_bounds data ltac:(unfold MAX_CHUNK_SIZE; lia)). lia.
  - intros j Hj. unfold handle_slot. cbn [h' set_header header]. rewrite entry_at_set by (done || lia).
    destruct (decide (i = j)) as [->|Hij].
    + rewrite decide_True by done. unfold chunk_data. rewrite Hx. cbn [e entry_status sector_offset size_bytes].
      by rewrite Hc, read_padded by lia.
    + rewrite decide_False by congruence. apply (Hsl j); congruence.
Qed.

Lemma table_written hd c : opens c -> header_wf hd -> table_of (write_at FILE_HEADER_SIZE (header_to_bytes hd) c) = header_to_bytes hd.
Proof.
  intros _ Hw. unfold table_of. rewrite <- (Z.add_0_r FILE_HEADER_SIZE) at 1.
  pose proof (f_equal Z.of_nat (length_header_to_bytes hd Hw)) as Hl. rewrite Z2Nat.id in Hl by done.
  rewrite read_write_inside by (done || lia). rewrite <- Hl. apply read_at_all.
Qed.

(** A region whose table is on disk can be closed. *)
Lemma close_complete f rp h :
  open_ok f rp h -> sectors (content_of f (filename rp)) < 2 ^ 32 ->
  header_from_bytes (table_of (content_of f (filename rp))) = Ok (header h) ->
  disk_header (content_of f (filename rp)) = Some (header h) /\ complete (content_of f (filename rp)).
Proof.
  intros [H1 H2 H3 H4 [H5 H5'] H6] Hlim Ht. apply (allocated_more _ _ _ _ H6) in H5' as Ha.
  pose proof (sectors_min _ H3) as Hmin. split.
  - unfold disk_header. rewrite decide_True, Ht, u32_sectors by done.
    destruct (validate_table_spec _ _ (conj Hmin Hlim) H4) as [_ [_ ->]]; [done|].
    split; [apply (al_valid _ _ _ Ha)|by eapply allocated_pairs].
  - intros hd _ Hh. rewrite Ht in Hh. injection Hh as <-. done.
Qed.

(** What a written header leaves of an open region. *)
Lemma write_header_open f rp h :
  open_ok f rp h ->
  exists r f', write_header (file h) (header h) f = (r, f') /\ r <> Panic /\
    open_ok f' rp h /\ (forall rp', rp' <> rp -> files f' !! filename rp' = files f !! filename rp') /\
    sectors (content_of f' (filename rp)) = sectors (content_of f (filename rp)) /\
    (forall i, 0 <= i < CHUNKS_PER_REGION -> handle_slot f' rp h i = handle_slot f rp h i) /\
    (r = Ok tt -> header_from_bytes (table_of (content_of f' (filename rp))) = Ok (header h)) /\
    (no_faults f -> r = Ok tt /\ no_faults f').
Proof.
  intros Ho. destruct Ho as [Hp Hf Hop Hw Hs Ha] eqn:E. clear E.
  destruct (write_header_cases (file h) (header h) f (content_of f (filename rp))) as (d & r & f' & Hwr & Hf' & Hd & Hr & Hn);
    [rewrite Hp; by apply open_content with h|done|]. rewrite Hp in Hf'.
  destruct (open_ok_table f f' rp h d Ho Hd Hf') as [Ho' Hsl]. pose proof (content_inserted _ _ _ _ Hf') as Hc.
  exists r, f'. split; [done|]. split; [destruct Hr as [[-> _]| ->]; done|]. split; [done|].
  split; [by eapply insert_others|]. rewrite Hc. split; [by apply sectors_table|]. split; [done|].
  split; [|done]. intros ->. destruct Hr as [[_ ->]|[=]]. rewrite table_written by done. by apply header_of_image.
Qed.

Definition others_same (rp : RegionPos) (f f' : Fs) : Prop :=
  forall rp', rp' <> rp -> files f' !! filename rp' = files f !! filename rp'.

Record stepped (limit : Z) (rp : RegionPos) (s s' : RegionManager) : Prop := {
  st_ok : store_ok s';
  st_bounded : bounded limit s';
  st_only : only_region rp s s'
}.

Lemma put_step limit limit' s rp h f :
  store_ok s -> bounded limit s -> limit <= limit' -> others_same rp (fs s) f ->
  open_ok f rp h -> file_sectors h <= limit' -> sectors (content_of f (filename rp)) <= limit' ->
  stepped limit' rp s (mk_manager (<[rp := h]> (regions s)) f).
Proof.
  intros Hs Hb Hl Ho Hok H1 H2. pose proof (put_only rp h s f Ho) as Honly. split; [| |done].
  - apply (store_ok_step rp s); [done..|]. unfold region_ok. cbn [regions fs]. by rewrite lookup_insert_eq.
  - apply (bounded_step limit limit' rp s); [done..|]. split; cbn [regions fs].
    + rewrite lookup_insert_eq. by intros h' [= <-].
    + rewrite (open_content _ _ _ Hok). by intros c [= <-].
Qed.

Lemma delete_step limit limit' s rp f :
  store_ok s -> bounded limit s -> limit <= limit' -> others_same rp (fs s) f ->
  complete (content_of f (filename rp)) -> is_Some (files f !! filename rp) -> sectors (content_of f (filename rp)) <= limit' ->
  stepped limit' rp s (mk_manager (delete rp (regions s)) f).
Proof.
  intros Hs Hb Hl Ho Hok [c Hc] H2. rewrite (content_some _ _ _ Hc) in *.
  assert (Honly : only_region rp s (mk_manager (delete rp (regions s)) f)).
  { split; [|exact Ho]. intros rp' Hne. cbn [regions]. by apply lookup_delete_ne. }
  split; [| |done].
  - apply (store_ok_step rp s); [done..|]. unfold region_ok. cbn [regions fs]. rewrite lookup_delete_eq, Hc.
    by intros c' [= <-].
  - apply (bounded_step limit limit' rp s); [done..|]. split; cbn [regions fs].
    + by rewrite lookup_delete_eq.
    + rewrite Hc. by intros c' [= <-].
Qed.

Lemma open_slots s rp h i : regions s !! rp = Some h -> slot s rp i = handle_slot (fs s) rp h i.
Proof. intros H. unfold slot. by rewrite H. Qed.

Lemma closed_slot f rp hd rs i :
  is_Some (files f !! filename rp) -> disk_header (content_of f (filename rp)) = Some hd ->
  slot (mk_manager (delete rp rs) f) rp i = chunk_data (content_of f (filename rp)) (entry_at hd i).
Proof.
  intros [c Hc] Hd. unfold slot. cbn [regions fs]. rewrite lookup_delete_eq. unfold file_slot.
  rewrite (content_some _ _ _ Hc) in *. rewrite Hc. simpl. by rewrite Hd.
Qed.


Lemma usize_div_ceil_le a b c : 0 < c -> a <= b -> usize_div_ceil a c <= usize_div_ceil b c.
Proof. intros Hc Hab. pose proof (usize_div_ceil_max a b c Hc) as H. rewrite Z.max_r in H by done. lia. Qed.

Lemma bounded_more limit limit' s : bounded limit s -> limit <= limit' -> bounded limit' s.
Proof. intros [H1 H2] Hl. split; intros; [specialize (H1 _ _ H)|specialize (H2 _ _ H)]; lia. Qed.

(** ** Saving *)

(** The result of a save: whatever fails, the other chunks are those before. *)
Record saved (limit : Z) (rp : RegionPos) (i : Z) (v : ChunkStatus * list Z) (closing : bool) (n : Z)
    (s : RegionManager) (r : outcome io_error bool) (s' : RegionManager) : Prop := {
  sv_panic : r <> Panic;
  sv_step : stepped limit rp s s';
  sv_others : forall j, 0 <= j < CHUNKS_PER_REGION -> j <> i -> slot s' rp j = slot s rp j;
  sv_ok : forall b, r = Ok b -> b = true /\ slot s' rp i = Some v;
  sv_region : forall b, r = Ok b ->
    if closing then regions s' !! rp = None
    else exists h, regions s' !! rp = Some h /\ loaded_chunk_count h = n;
  sv_clean : clean s -> r = Ok true /\ clean s'
}.

(** After the data: the entry is in memory, to be written later ... *)
Lemma save_dirty limit s rp i v h h2 f :
  regions s !! rp = Some h -> stepped limit rp s (mk_manager (<[rp := set_dirty h2 true]> (regions s)) f) ->
  (forall j, 0 <= j < CHUNKS_PER_REGION -> handle_slot f rp h2 j = if decide (j = i) then Some v else handle_slot (fs s) rp h j) ->
  0 <= i < CHUNKS_PER_REGION -> (no_faults (fs s) -> no_faults f) ->
  saved limit rp i v false (loaded_chunk_count h2) s (Ok true) (mk_manager (<[rp := set_dirty h2 true]> (regions s)) f).
Proof.
  intros Hr Hst Hsl Hi Hn. split; [done|done| | | |].
  - intros j Hj Hne. rewrite put_slot, (open_slots s rp h) by done. change (handle_slot f rp h2 j = handle_slot (fs s) rp h j).
    rewrite Hsl by done. by rewrite decide_False.
  - intros b [= <-]. split; [done|]. rewrite put_slot. change (handle_slot f rp h2 i = Some v).
    rewrite Hsl by done. by rewrite decide_True.
  - intros b _. cbn [regions]. rewrite lookup_insert_eq. by eexists.
  - intros Hc. split; [done|]. apply (clean_step rp s); [done|apply Hst|apply Hn, Hc|].
    unfold region_clean. cbn [regions fs]. rewrite lookup_insert_eq. unfold synced. done.
Qed.

(** ... or with the header, and the region is closed. *)
Lemma save_closing limit s rp i v n h h2 f :
  regions s !! rp = Some h -> stepped limit rp s (mk_manager (<[rp := h2]> (regions s)) f) -> limit < 2 ^ 32 ->
  store_ok s -> bounded limit s -> others_same rp (fs s) f ->
  (forall j, 0 <= j < CHUNKS_PER_REGION -> handle_slot f rp h2 j = if decide (j = i) then Some v else handle_slot (fs s) rp h j) ->
  0 <= i < CHUNKS_PER_REGION -> (no_faults (fs s) -> no_faults f) ->
  exists r s', (_ <~ lift_io (write_header (file h2) (header h2)) ;; (_ <~ remove_region rp ;; io_ret true))
      (mk_manager (<[rp := h2]> (regions s)) f) = (r, s') /\ saved limit rp i v true n s r s'.
Proof.
  intros Hr Hst Hlim Hs Hb Ho Hsl Hi Hn. pose proof (st_ok _ _ _ _ Hst) as Hok. pose proof (st_bounded _ _ _ _ Hst) as Hbd.
  assert (Hopen : open_ok f rp h2) by (apply (s_open _ Hok); cbn [regions]; apply lookup_insert_eq).
  destruct (write_header_open f rp h2 Hopen) as (r & f' & Hw & Hnp & Hopen' & Ho' & Hsec & Hsl' & Htab & Hn').
  assert (Hoth : others_same rp (fs s) f') by (intros rp' Hne; by rewrite Ho', Ho).
  assert (Hb2 : file_sectors h2 <= limit) by (apply (proj1 Hbd rp); cbn [regions]; apply lookup_insert_eq).
  assert (Hb3 : sectors (content_of f (filename rp)) <= limit) by (apply (proj2 Hbd rp), (open_content f rp h2); done).
  unfold io_bind, lift_io. cbn [fs regions]. rewrite Hw. destruct r as [[]|e|]; [| |done].
  - assert (Ht := Htab eq_refl). destruct (close_complete f' rp h2 Hopen' ltac:(lia) Ht) as [Hdh Hcomp].
    exists (Ok true), (mk_manager (delete rp (regions s)) f'). split; [unfold remove_region, io_ret; cbn [regions fs]; by rewrite delete_insert_eq|].
    assert (Hin : is_Some (files f' !! filename rp)) by apply (o_file _ _ _ Hopen').
    assert (Hslots : forall j, 0 <= j < CHUNKS_PER_REGION -> slot (mk_manager (delete rp (regions s)) f') rp j
      = if decide (j = i) then Some v else slot s rp j).
    { intros j Hj. rewrite (closed_slot _ _ _ _ _ Hin Hdh), (open_slots s rp h) by done.
      rewrite <- Hsl by done. rewrite <- Hsl' by done. done. }
    split; [done| | | | |].
    + apply (delete_step limit limit); [done|done|lia|done|done|done|lia].
    + intros j Hj Hne. rewrite Hslots by done. by rewrite decide_False.
    + intros b [= <-]. split; [done|]. rewrite Hslots by done. by rewrite decide_True.
    + intros b _. cbn [regions]. apply lookup_delete_eq.
    + intros Hc. split; [done|].
      apply (clean_step rp s); [done| |apply Hn', Hn, Hc|]; [split; [intros rp' Hne; cbn [regions]; by apply lookup_delete_ne|exact Hoth]|].
      unfold region_clean. cbn [regions fs]. rewrite lookup_delete_eq. intros c Hc'.
      rewrite (content_some _ _ _ Hc') in Hdh. by eexists.
  - exists (Err e), (mk_manager (<[rp := h2]> (regions s)) f'). split; [done|]. split; [done| | |done|done|].
    + apply (put_step limit limit); [done|done|lia|done|done|lia|lia].
    + intros j Hj Hne. rewrite put_slot, (open_slots s rp h), Hsl', Hsl by done. by rewrite decide_False.
    + intros [Hnf _]. by destruct (Hn' (Hn Hnf)).
Qed.

Lemma lift_bind {A B} (m : IO A) (k : A -> M B) s r f :
  m (fs s) = (Ok r, f) -> (x <~ lift_io m ;; k x) s = k r (mk_manager (regions s) f).
Proof. intros H. unfold io_bind, lift_io. by rewrite H. Qed.

Lemma put_bind {B} rp h (k : M B) s : (_ <~ put_region rp h ;; k) s = k (mk_manager (<[rp := h]> (regions s)) (fs s)).
Proof. done. Qed.

Lemma entry_of_length n : 0 <= n < 2 ^ 24 -> u32 n = n.
Proof. intros H. apply wrapu_id. unfold is_u. lia. Qed.

(** The file grows by what is written, and the handle knows of it. *)
Lemma written_sizes limit f f' rp h i s data d n :
  open_ok f rp h -> place h i s (sectors_for data) -> data <> [] ->
  file_sectors h <= limit -> sectors (content_of f (filename rp)) <= limit -> sectors_for data <= 4096 ->
  Z.of_nat (length d) <= sectors_for data * SECTOR_SIZE ->
  (n = file_sectors h \/ n = Z.max (file_sectors h) (s + sectors_for data) /\ d = padded data) ->
  files f' = <[filename rp := write_at (s * SECTOR_SIZE) d (content_of f (filename rp))]> (files f) ->
  sectors (content_of f' (filename rp)) <= limit + 4096 /\
  file_sectors h <= n <= sectors (content_of f' (filename rp)).
Proof.
  intros Ho [_ _ Hpos _] Hne Hfs Hsec Hk Hdl Hn Hf. rewrite (content_inserted _ _ _ _ Hf). unfold FIRST_DATA_SECTOR in Hpos.
  pose proof (sectors_write s d (content_of f (filename rp)) (sectors_for data) ltac:(lia) Hdl).
  pose proof (o_sectors _ _ _ Ho). split; [lia|].
  destruct Hn as [->|[-> ->]]; [|rewrite sectors_write_exact by (lia || done); lia].
  pose proof (length_write_at_ge (s * SECTOR_SIZE) d (content_of f (filename rp))).
  assert (sectors (content_of f (filename rp)) <= sectors (write_at (s * SECTOR_SIZE) d (content_of f (filename rp))))
    by (apply usize_div_ceil_le; [done|lia]). lia.
Qed.

Lemma store_chunk_spec limit s rp i opened_ data st h :
  store_ok s -> bounded limit s -> regions s !! rp = Some h -> limit + 4096 < 2 ^ 32 ->
  0 <= i < CHUNKS_PER_REGION -> 0 < Z.of_nat (length data) < 2 ^ 24 ->
  exists r s', store_chunk rp i opened_ data st h s = (r, s') /\ 
    saved (limit + 4096) rp i (st, data) (opened_ && (loaded_chunk_count h =? 0)) (loaded_chunk_count h) s r s'.
Proof.
  intros Hs Hb Hr Hlim Hi Hd. pose proof (s_open s Hs rp h Hr) as Ho. pose proof (proj1 Hb rp h Hr) as Hfs.
  pose proof (proj2 Hb rp _ (open_content _ _ _ Ho)) as Hsec.
  destruct (sectors_for_bounds data ltac:(unfold MAX_CHUNK_SIZE; lia)) as [Hk _].
  destruct (choose_sectors_spec (file_sectors h) _ (header h) i (sectors_for data)
    (o_header _ _ _ Ho) (o_alloc _ _ _ Ho) Hi ltac:(lia) (proj1 (o_sectors _ _ _ Ho)) ltac:(lia)) as [Hpos Hclear].
  unfold store_chunk. fold (sectors_for data). rewrite (entry_of_length (sectors_for data)) by lia.
  set (pos_ := choose_sectors (header h) _ _ _) in *.
  assert (Hpl : place h i pos_ (sectors_for data)) by (split; [done|lia|done|done]).
  assert (Hne : data <> []) by (intros ->; simpl in Hd; lia). unfold FIRST_DATA_SECTOR in Hpos.
  destruct (write_chunk_data_cases (file h) pos_ data (file_sectors h) (fs s) (content_of (fs s) (filename rp)))
    as (d & r & n' & f & Hw & Hf & Hdl & Hn' & Hr' & Hnf); [rewrite (o_path _ _ _ Ho); by apply open_content with h|done|lia|lia|].
  rewrite (o_path _ _ _ Ho) in Hf. pose proof (insert_others rp _ _ _ Hf) as Hoth.
  destruct (written_sizes limit (fs s) f rp h i pos_ data d n' Ho Hpl Hne Hfs Hsec ltac:(lia) Hdl Hn' Hf) as [Hsec' Hgrow].
  rewrite (lift_bind _ _ _ _ _ Hw), put_bind. cbn [fst snd].
  destruct Hr' as [(-> & -> & ->)|[e ->]].
  - unfold io_bind at 1, io_lift. cbn [regions fs set_file_sectors loaded_chunk_count set_header header].
    rewrite entry_of_length by lia.
    destruct (open_ok_entry (fs s) f rp h i pos_ data st Ho Hpl Hd ltac:(lia) Hf) as [Hok Hsl]. cbv zeta in Hok, Hsl.
    set (h2 := set_header _ _) in *. assert (Hf2 : file_sectors h2 <= limit + 4096) by (cbn [h2 set_header set_file_sectors file_sectors] in *; lia).
    destruct (opened_ && (loaded_chunk_count h =? 0)).
    + rewrite put_bind. cbn [regions fs]. rewrite insert_insert_eq.
      apply (save_closing (limit + 4096) s rp i (st, data) _ h); try done; try tauto; try lia.
      * by apply (put_step limit); [done|done|lia|..].
      * eapply bounded_more; [done|lia].
    + rewrite put_bind. cbn [regions fs]. rewrite insert_insert_eq. do 2 eexists. split; [done|].
      apply (save_dirty (limit + 4096) s rp i (st, data) h h2); [done|..|done|done|tauto].
      apply (put_step limit); [done|done|lia|done| |done|done]. destruct Hok as [? ? ? ? ? ?]. by split.
  - destruct (open_ok_chunk (fs s) f rp h i pos_ (sectors_for data) d n' Ho Hpl Hdl Hgrow Hf) as [Hok Hsl].
    do 2 eexists. split; [done|]. cbn [regions fs]. split; [done| | |done|done|].
    + by apply (put_step limit); [done|done|lia|..|cbn [set_file_sectors file_sectors]; lia|].
    + intros j Hj Hji. rewrite put_slot, (open_slots s rp h) by done. by apply Hsl.
    + intros [Hnf' _]. by destruct (Hnf Hnf').
Qed.

(** ** Writing headers and closing *)

Definition slots_same (s s' : RegionManager) : Prop :=
  forall rp i, 0 <= i < CHUNKS_PER_REGION -> slot s' rp i = slot s rp i.

Lemma slots_same_refl s : slots_same s s.
Proof. done. Qed.

Lemma slots_same_trans s1 s2 s3 : slots_same s1 s2 -> slots_same s2 s3 -> slots_same s1 s3.
Proof. intros H1 H2 rp i Hi. by rewrite H2, H1. Qed.

Lemma slots_same_step rp s s' :
  only_region rp s s' -> (forall i, 0 <= i < CHUNKS_PER_REGION -> slot s' rp i = slot s rp i) -> slots_same s s'.
Proof.
  intros Ho Hr rp' i Hi. destruct (decide (rp' = rp)) as [->|Hne]; [by apply Hr|]. by eapply only_region_slot.
Qed.

(** Everything the storage guarantees between operations without failures. *)
Record sound (limit : Z) (s : RegionManager) : Prop := {
  so_ok : store_ok s;
  so_bounded : bounded limit s;
  so_clean : clean s
}.

Lemma sound_more limit limit' s : sound limit s -> limit <= limit' -> sound limit' s.
Proof. intros [H1 H2 H3] Hl. split; [done| |done]. by eapply bounded_more. Qed.

Lemma stepped_sound limit rp s s' : stepped limit rp s s' -> clean s' -> sound limit s'.
Proof. intros [H1 H2 _] Hc. by split. Qed.

Definition dirty_write (h : RegionHandle) (f f' : Fs) : Prop :=
  if header_dirty h then write_header (file h) (header h) f = (Ok tt, f') else f' = f.

(** The table of an open region reaches the disk. *)
Lemma table_on_disk limit s rp h :
  sound limit s -> limit < 2 ^ 32 -> regions s !! rp = Some h ->
  exists f', dirty_write h (fs s) f' /\ open_ok f' rp h /\ others_same rp (fs s) f' /\ no_faults f' /\
    sectors (content_of f' (filename rp)) <= limit /\
    (forall i, 0 <= i < CHUNKS_PER_REGION -> handle_slot f' rp h i = handle_slot (fs s) rp h i) /\
    header_from_bytes (table_of (content_of f' (filename rp))) = Ok (header h).
Proof.
  intros [Hs Hb [Hn Hc]] Hlim Hr. pose proof (s_open s Hs rp h Hr) as Ho.
  pose proof (proj2 Hb rp _ (open_content _ _ _ Ho)) as Hsec.
  specialize (Hc rp). unfold region_clean in Hc. rewrite Hr in Hc. unfold dirty_write.
  destruct (header_dirty h) eqn:Hd.
  - destruct (write_header_open (fs s) rp h Ho) as (r & f' & Hw & _ & Ho' & Hoth & Hsec' & Hsl & Ht & Hn').
    destruct (Hn' Hn) as [-> Hnf]. exists f'. rewrite Hsec'. auto 8.
  - exists (fs s). split_and!; try done. by apply Hc.
Qed.

Lemma close_one limit s rp h :
  sound limit s -> limit < 2 ^ 32 -> regions s !! rp = Some h ->
  exists f', dirty_write h (fs s) f' /\
    sound limit (mk_manager (delete rp (regions s)) f') /\ slots_same s (mk_manager (delete rp (regions s)) f').
Proof.
  intros Hs Hlim Hr. destruct (table_on_disk limit s rp h Hs Hlim Hr) as (f' & Hw & Ho & Hoth & Hn & Hsec & Hsl & Ht).
  exists f'. split; [done|]. destruct (close_complete f' rp h Ho ltac:(lia) Ht) as [Hdh Hcomp].
  pose proof (o_file _ _ _ Ho) as Hin. destruct Hs as [Hok Hb Hc].
  pose proof (delete_step limit limit s rp f' Hok Hb ltac:(lia) Hoth Hcomp Hin Hsec) as Hst. split.
  - apply (stepped_sound limit rp s); [done|]. apply (clean_step rp s); [done|apply Hst|done|].
    unfold region_clean. cbn [regions fs]. rewrite lookup_delete_eq. intros c Hc'.
    rewrite (content_some _ _ _ Hc') in Hdh. by eexists.
  - apply (slots_same_step rp); [apply Hst|]. intros i Hi.
    rewrite (closed_slot _ _ _ _ _ Hin Hdh), (open_slots s rp h) by done. by rewrite <- Hsl.
Qed.

Lemma flush_one limit s rp h :
  sound limit s -> limit < 2 ^ 32 -> regions s !! rp = Some h ->
  exists f', dirty_write h (fs s) f' /\
    sound limit (mk_manager (<[rp := set_dirty h false]> (regions s)) f') /\
    slots_same s (mk_manager (<[rp := set_dirty h false]> (regions s)) f').
Proof.
  intros Hs Hlim Hr. destruct (table_on_disk limit s rp h Hs Hlim Hr) as (f' & Hw & Ho & Hoth & Hn & Hsec & Hsl & Ht).
  exists f'. split; [done|]. destruct Hs as [Hok Hb Hc].
  assert (Ho' : open_ok f' rp (set_dirty h false)) by (destruct Ho; by split).
  pose proof (put_step limit limit s rp (set_dirty h false) f' Hok Hb ltac:(lia) Hoth Ho' (proj1 Hb rp h Hr) Hsec) as Hst. split.
  - apply (stepped_sound limit rp s); [done|]. apply (clean_step rp s); [done|apply Hst|done|].
    unfold region_clean. cbn [regions fs]. rewrite lookup_insert_eq. by intros _.
  - apply (slots_same_step rp); [apply Hst|]. intros i Hi. rewrite put_slot, (open_slots s rp h) by done. by apply Hsl.
Qed.

Lemma sound_close_all_step limit l s :
  sound limit s -> limit < 2 ^ 32 -> NoDup l.*1 -> regions s = list_to_map l ->
  exists f', close_loop l (mk_manager ∅ (fs s)) = (Ok tt, mk_manager ∅ f') /\
    sound limit (mk_manager ∅ f') /\ slots_same s (mk_manager ∅ f').
Proof.
  revert s. induction l as [|[rp h] l IH]; intros s Hs Hlim Hnd Hreg.
  { exists (fs s). split; [done|]. simpl in Hreg. destruct s as [rs f]; simpl in *. subst rs. done. }
  apply NoDup_cons in Hnd as [Hnin Hnd]. simpl in Hreg, Hnin.
  assert (Hr : regions s !! rp = Some h) by (rewrite Hreg; apply lookup_insert_eq).
  destruct (close_one limit s rp h Hs Hlim Hr) as (f1 & Hw & Hs1 & Hsl1).
  assert (Hdel : delete rp (regions s) = list_to_map l).
  { rewrite Hreg. apply delete_insert_id. by apply not_elem_of_list_to_map_1. }
  rewrite Hdel in Hs1, Hsl1. destruct (IH _ Hs1 Hlim Hnd eq_refl) as (f' & Hl & Hs' & Hsl').
  exists f'. split; [|split; [done|by eapply slots_same_trans]].
  cbn [fs] in Hl. cbn [close_loop]. unfold dirty_write in Hw. destruct (header_dirty h); [|by subst f1].
  by rewrite (lift_bind _ _ (mk_manager ∅ (fs s)) _ _ Hw).
Qed.

Lemma sound_flush_step limit l s :
  sound limit s -> limit < 2 ^ 32 -> NoDup l.*1 -> (forall rp h, (rp, h) ∈ l -> regions s !! rp = Some h) ->
  exists s', flush_loop l s = (Ok tt, s') /\ sound limit s' /\ slots_same s s' /\
    forall rp, loaded_chunk_count <$> regions s' !! rp = loaded_chunk_count <$> regions s !! rp.
Proof.
  revert s. induction l as [|[rp h] l IH]; intros s Hs Hlim Hnd Hreg; [by exists s|].
  apply NoDup_cons in Hnd as [Hnin Hnd]. simpl in Hnin.
  assert (Hr : regions s !! rp = Some h) by (apply Hreg; by left).
  cbn [flush_loop]. destruct (header_dirty h) eqn:Hd.
  - destruct (flush_one limit s rp h Hs Hlim Hr) as (f1 & Hw & Hs1 & Hsl1). unfold dirty_write in Hw. rewrite Hd in Hw.
    rewrite (lift_bind _ _ _ _ _ Hw), put_bind. cbn [regions fs].
    destruct (IH _ Hs1 Hlim Hnd) as (s' & Hl & Hs' & Hsl' & Hcnt).
    { intros rp' h' Hin. cbn [regions]. rewrite lookup_insert_ne; [apply Hreg; by right|].
      intros <-. apply Hnin, list_elem_of_fmap. by exists (rp, h'). }
    exists s'. split; [done|]. split; [done|]. split; [by eapply slots_same_trans|]. intros rp'. rewrite Hcnt. cbn [regions].
    destruct (decide (rp = rp')) as [<-|Hne]; [by rewrite lookup_insert_eq, Hr|by rewrite lookup_insert_ne].
  - apply IH; [done|done|done|]. intros rp' h' Hin. apply Hreg. by right.
Qed.

(** ** The operations *)

Definition held (s : RegionManager) (rp : RegionPos) : Z :=
  match regions s !! rp with Some h => loaded_chunk_count h | None => 0 end.

(** A region is open exactly while chunks are held from it. *)
Definition held_ok (s : RegionManager) : Prop :=
  forall rp h, regions s !! rp = Some h -> 1 <= loaded_chunk_count h.

Lemma held_ok_step rp s s' :
  held_ok s -> only_region rp s s' -> (forall h, regions s' !! rp = Some h -> 1 <= loaded_chunk_count h) -> held_ok s'.
Proof.
  intros Hh [Ho _] Hr rp' h Hh'. destruct (decide (rp' = rp)) as [->|Hne]; [by apply Hr|].
  rewrite Ho in Hh' by done. by apply (Hh rp').
Qed.

Lemma held_step rp s s' rp' : only_region rp s s' -> rp' <> rp -> held s' rp' = held s rp'.
Proof. intros [Ho _] Hne. unfold held. by rewrite Ho. Qed.

Lemma stored_same s s' p : slots_same s s' -> stored s' p = stored s p.
Proof. intros H. apply H, index_of_range. Qed.

Lemma chunk_data_exists c e : bool_decide (is_Some (chunk_data c e)) = entry_exists e.
Proof. unfold chunk_data. by destruct (entry_exists e). Qed.

Lemma open_ok_count f rp h n : open_ok f rp h -> open_ok f rp (set_count h n).
Proof. intros []. by split. Qed.

(** Holding more or fewer chunks of an open region. *)
Lemma count_step limit s rp h n :
  sound limit s -> regions s !! rp = Some h -> 1 <= n ->
  let s' := mk_manager (<[rp := set_count h n]> (regions s)) (fs s) in
  sound limit s' /\ slots_same s s' /\ only_region rp s s' /\ held s' rp = n /\
  (forall h', regions s' !! rp = Some h' -> 1 <= loaded_chunk_count h').
Proof.
  intros [Hs Hb Hc] Hr Hn s'. pose proof (s_open s Hs rp h Hr) as Ho.
  assert (Hst : stepped limit rp s s').
  { apply (put_step limit limit); [done|done|lia|done|by apply open_ok_count|apply (proj1 Hb rp h Hr)|].
    apply (proj2 Hb rp), (open_content _ _ _ Ho). }
  split; [|split; [|split; [apply Hst|split]]].
  - apply (stepped_sound limit rp s); [done|]. apply (clean_step rp s); [done|apply Hst|apply Hc|].
    destruct Hc as [_ Hc]. specialize (Hc rp). unfold region_clean in *. cbn [s' regions fs].
    rewrite lookup_insert_eq. by rewrite Hr in Hc.
  - apply (slots_same_step rp); [apply Hst|]. intros i _. unfold s'. by rewrite put_slot, (open_slots s rp h).
  - unfold held, s'. cbn [regions]. by rewrite lookup_insert_eq.
  - unfold s'. cbn [regions]. rewrite lookup_insert_eq. by intros h' [= <-].
Qed.

Lemma acquire_spec limit s p :
  sound limit s -> held_ok s -> FIRST_DATA_SECTOR <= limit < 2 ^ 32 ->
  exists s', acquire_chunk p s = (Ok (bool_decide (is_Some (stored s p))), s') /\
    sound limit s' /\ held_ok s' /\ slots_same s s' /\
    forall rp, held s' rp = held s rp + (if decide (rp = region_of p) then 1 else 0).
Proof.
  intros [Hs Hb Hc] Hh Hlim. unfold acquire_chunk. set (rp := region_of p).
  destruct (get_or_open_spec s rp limit Hs Hb Hlim) as (r & s1 & Hg & _ & Hs1 & Hb1 & Ho1 & Hsl1 & Hok & _ & Hcl).
  destruct (Hcl Hc) as [Hc1 [h ->]]. destruct (Hok h eq_refl) as [Hr1 Hcase].
  assert (Hcnt : loaded_chunk_count h = held s rp).
  { unfold held. destruct Hcase as [->|(-> & -> & _)]; [by rewrite Hr1|done]. }
  assert (Hpos : 0 <= held s rp).
  { unfold held. destruct (regions s !! rp) as [h'|] eqn:E; [|done]. specialize (Hh _ _ E). lia. }
  destruct (count_step limit s1 rp h (loaded_chunk_count h + 1) ltac:(by split) Hr1 ltac:(lia)) as (Hs2 & Hsl2 & Ho2 & Hh2 & Hc2).
  unfold io_bind at 1. rewrite Hg. rewrite put_bind. eexists. split; [|split; [exact Hs2|]].
  - unfold io_ret. do 2 f_equal. rewrite <- (chunk_data_exists (content_of (fs s1) (filename rp))).
    unfold stored. fold rp. rewrite <- Hsl1. unfold slot. by rewrite Hr1.
  - split; [|split].
    + apply (held_ok_step rp s); [done|by eapply only_region_trans|done].
    + eapply slots_same_trans; [|exact Hsl2]. apply (slots_same_step rp); [done|]. intros i _. apply Hsl1.
    + intros rp'. case_decide as Hd; [rewrite Hd, Hh2; lia|].
      rewrite (held_step rp s1), (held_step rp s) by done. lia.
Qed.

Lemma release_spec limit s p :
  sound limit s -> held_ok s -> limit < 2 ^ 32 ->
  exists s', release_chunk p s = (Ok tt, s') /\ sound limit s' /\ held_ok s' /\ slots_same s s' /\
    forall rp, held s' rp = if decide (rp = region_of p) then saturating_sub (held s rp) 1 else held s rp.
Proof.
  intros Hs Hh Hlim. unfold release_chunk, io_bind, lookup_region. set (rp := region_of p).
  destruct (regions s !! rp) as [h|] eqn:Hr.
  2:{ exists s. split; [done|]. split; [done|]. split; [done|]. split; [done|]. intros rp'.
      case_decide as Hd; [|done]. subst rp'. unfold held. by rewrite Hr. }
  pose proof (Hh rp h Hr) as Hpos. unfold saturating_sub. rewrite Z.max_r by lia.
  cbn [set_count loaded_chunk_count]. destruct (Z.eqb_spec (loaded_chunk_count h - 1) 0) as [H0|H0].
  - destruct (close_one limit s rp h Hs Hlim Hr) as (f' & Hw & Hs' & Hsl').
    exists (mk_manager (delete rp (regions s)) f'). split.
    { unfold remove_region, lift_io, dirty_write in *. cbn [header_dirty file header set_count fs regions].
      destruct (header_dirty h); [idtac|by subst]. cbn [regions fs]. by rewrite Hw. }
    assert (Ho : forall rp', rp' <> rp -> delete rp (regions s) !! rp' = regions s !! rp')
      by (intros rp' Hne; by apply lookup_delete_ne).
    split; [done|]. split; [|split; [done|]].
    + intros rp' h' Hr'. cbn [regions] in Hr'. apply lookup_delete_Some in Hr' as [_ Hr']. by apply (Hh rp').
    + intros rp'. unfold held. cbn [regions]. case_decide as Hd; [|by rewrite Ho].
      subst rp'. rewrite lookup_delete_eq, Hr. lia.
  - destruct (count_step limit s rp h (loaded_chunk_count h - 1) Hs Hr ltac:(lia)) as (Hs' & Hsl & Ho & Hh' & Hc').
    eexists. split; [reflexivity|]. split; [done|]. split; [by apply (held_ok_step rp s)|]. split; [done|].
    intros rp'. case_decide as Hd; [|by apply (held_step rp)]. subst rp'. rewrite Hh'. unfold held. rewrite Hr. lia.
Qed.

(** *** Asking for a chunk *)

Lemma parse_lookup k bs es n e :
  parse_entries k bs = Ok es -> es !! n = Some e -> entry_from_bytes (take 8 (drop (8 * n) bs)) = Some e.
Proof.
  revert k bs es. induction n as [|n IH]; intros k bs es Hp He;
    do 8 (destruct bs as [|? bs]; [injection Hp as <-; done|]); cbn [parse_entries] in Hp;
    destruct (entry_from_bytes _) as [e0|] eqn:E0; try done;
    destruct (parse_entries (S k) bs) as [es'| |] eqn:Ep; try done; injection Hp as <-.
  - by injection He as <-.
  - replace (8 * S n)%nat with (8 + 8 * n)%nat by lia. apply (IH _ _ _ Ep He).
Qed.

Lemma header_from_parse bs hd : header_from_bytes bs = Ok hd -> parse_entries 0 bs = Ok (entries hd).
Proof.
  unfold header_from_bytes. case_decide; [|done]. destruct (parse_entries 0 bs) as [es| |]; cbn [obind]; [|done..].
  by intros [= <-].
Qed.

Lemma table_entry c hd i :
  opens c -> header_from_bytes (table_of c) = Ok hd -> header_wf hd -> 0 <= i < CHUNKS_PER_REGION ->
  entry_from_bytes (read_at (FILE_HEADER_SIZE + i * 8) 8 c) = Some (entry_at hd i).
Proof.
  intros Ho Hh Hw Hi. apply header_from_parse in Hh as Ep.
  pose proof (proj1 (entry_at_lookup hd i _ Hw Hi) eq_refl) as Hlk.
  rewrite <- (parse_lookup _ _ _ _ _ Ep Hlk). f_equal. destruct Ho as [Hlen _]. apply list_eq. intros j.
  unfold table_of, FILE_HEADER_SIZE. rewrite lookup_read_at.
  destruct (decide (j < 8)%nat) as [Hj|Hj].
  - rewrite decide_True, lookup_take_lt, lookup_drop, lookup_read_at by lia. rewrite decide_True.
    + f_equal. lia.
    + unfold CHUNK_TABLE_SIZE. lia.
  - rewrite decide_False by lia. symmetry. apply lookup_take_ge. lia.
Qed.

Lemma sound_closed limit s rp c :
  sound limit s -> regions s !! rp = None -> files (fs s) !! filename rp = Some c ->
  exists hd, disk_header c = Some hd /\ opens c /\ header_from_bytes (table_of c) = Ok hd /\ header_wf hd.
Proof.
  intros [Hs _ [_ Hc]] Hr Hf. specialize (Hc rp). unfold region_clean in Hc. rewrite Hr in Hc.
  destruct (Hc c Hf) as [hd Hd]. exists hd.
  destruct (disk_header_complete c hd (s_closed s Hs rp c Hr Hf) Hd) as (? & ? & ? & _). done.
Qed.

Lemma chunk_exists_spec limit s p :
  sound limit s -> chunk_exists p s = (Ok (bool_decide (is_Some (stored s p))), s).
Proof.
  intros Hs. pose proof (index_of_range p) as Hi. unfold chunk_exists, io_bind at 1, lookup_region, stored, slot.
  destruct (regions s !! region_of p) as [h|] eqn:Hr.
  { unfold io_ret, handle_slot. by rewrite chunk_data_exists. }
  pose proof (proj1 (so_clean _ _ Hs)) as Hn. unfold file_slot.
  unfold lift_io, io_bind, path_exists. destruct (files (fs s) !! filename (region_of p)) as [c|] eqn:Hf.
  2:{ rewrite bool_decide_false by by intros []. destruct s. done. }
  rewrite bool_decide_true by by eexists. cbn [negb].
  unfold open_file, seek_start, seek_current, file_read_exact. rewrite fallible_ok, Hf by done. do 3 (rewrite fallible_ok by done; unfold io_ret at 1; cbv beta iota; cbn [file_path file_pos]).
  rewrite (content_some _ _ _ Hf).
  destruct (sound_closed limit s _ c Hs Hr Hf) as (hd & Hd & Ho & Hh & Hw).
  rewrite decide_True.
  - cbn [fst]. rewrite (table_entry c hd) by done. unfold io_ret. simpl. rewrite Hd. simpl.
    rewrite chunk_data_exists. by destruct s.
  - destruct Ho as [Hl _]. apply length_read_at_in; unfold TOTAL_HEADER_SIZE, FILE_HEADER_SIZE, CHUNK_TABLE_SIZE in *; lia.
Qed.

(** *** Discarding a chunk *)

(** A cleared slot, or nothing changed: never another chunk. *)
Lemma clear_spec limit s rp i e :
  store_ok s -> bounded limit s -> 0 <= i < CHUNKS_PER_REGION ->
  exists r s', clear_corrupt_chunk_if_unchanged rp i e s = (r, s') /\ r <> Panic /\ stepped limit rp s s' /\
    (forall j, 0 <= j < CHUNKS_PER_REGION -> j <> i -> slot s' rp j = slot s rp j) /\
    (r = Ok true -> slot s' rp i = None /\ exists h, regions s !! rp = Some h /\ entry_at (header h) i = e) /\
    (r <> Ok true -> slot s' rp i = slot s rp i).
Proof.
  intros Hs Hb Hi. assert (Hself : stepped limit rp s s) by by split.
  unfold clear_corrupt_chunk_if_unchanged. unfold io_bind, lookup_region.
  destruct (regions s !! rp) as [h|] eqn:Hr; [|do 2 eexists; split; [done|]; done].
  case_bool_decide as He; cbn [negb]; [|do 2 eexists; split; [done|]; done].
  pose proof (s_open s Hs rp h Hr) as Ho. pose proof (proj1 Hb rp h Hr) as Hfs.
  pose proof (proj2 Hb rp _ (open_content _ _ _ Ho)) as Hsec.
  set (hd := set_entry (header h) i empty_entry).
  assert (Hw : header_wf hd) by (apply set_entry_wf; [apply Ho|apply empty_entry_wf]).
  destruct (write_header_cases (file h) hd (fs s) (content_of (fs s) (filename rp))) as (d & r & f & Hwr & Hf & Hd & Hres & _);
    [rewrite (o_path _ _ _ Ho); by apply open_content with h|done|]. rewrite (o_path _ _ _ Ho) in Hf.
  destruct (open_ok_table _ _ _ _ _ Ho Hd Hf) as [Ho' Hsl]. pose proof (insert_others rp _ _ _ Hf) as Hoth.
  assert (Hsec' : sectors (content_of f (filename rp)) <= limit)
    by (rewrite (content_inserted _ _ _ _ Hf), sectors_table; [done|apply Ho|done]).
  rewrite Hwr. destruct Hres as [[-> _]| ->].
  - assert (Ho2 : open_ok f rp (set_dirty (set_header h hd) false)).
    { destruct Ho' as [? ? ? ? ? Ha]. split; try done. by apply allocated_clear. }
    do 2 eexists. split; [reflexivity|]. split; [done|]. split; [by apply (put_step limit)|].
    split; [|split; [intros _; split|done]].
    + intros j Hj Hne. rewrite put_slot, (open_slots s rp h) by done. rewrite <- Hsl by done.
      unfold handle_slot. cbn [set_dirty set_header header]. unfold hd. rewrite entry_at_set by (apply Ho || lia).
      by rewrite decide_False.
    + rewrite put_slot. unfold handle_slot. cbn [set_dirty set_header header]. unfold hd.
      rewrite entry_at_set by (apply Ho || lia). by rewrite decide_True.
    + by exists h.
  - do 2 eexists. split; [reflexivity|]. split; [done|]. split; [by apply (put_step limit)|].
    split; [|split; [done|]]; intros; rewrite put_slot, (open_slots s rp h) by done; by apply Hsl.
Qed.

(** *** Saving and loading *)

(** A region saved to stays open exactly when it was. *)
Lemma held_after s s' rp n :
  held_ok s -> n = held s rp ->
  (if negb (bool_decide (is_Some (regions s !! rp))) && (n =? 0) then regions s' !! rp = None
   else exists h, regions s' !! rp = Some h /\ loaded_chunk_count h = n) ->
  held s' rp = held s rp /\ forall h, regions s' !! rp = Some h -> 1 <= loaded_chunk_count h.
Proof.
  intros Hh -> Hreg. unfold held in *. destruct (regions s !! rp) as [h0|] eqn:Hr0.
  - rewrite bool_decide_true in Hreg by by eexists. destruct Hreg as (h & Hr & Hn). pose proof (Hh rp h0 Hr0).
    rewrite Hr. split; [lia|]. intros h' [= <-]. lia.
  - rewrite bool_decide_false in Hreg by by intros []. simpl in Hreg. by rewrite Hreg.
Qed.

Section Codec.
Context {Persistent Loaded : Type}.
Context (serialize : Persistent -> list Z + string).
Context (compress : list Z -> outcome io_error (list Z)).
Context (decompress : list Z -> list Z + string).
Context (deserialize : list Z -> Persistent + string).
Context (try_persistent_to_chunk : Persistent -> ChunkPos -> ChunkStatus -> Z -> Z -> Loaded + io_error).

Notation encode := (encode_chunk serialize compress).
Notation decode := (decode_chunk decompress deserialize try_persistent_to_chunk).
Notation save := (save_chunk_data serialize compress).
Notation load := (load_chunk decompress deserialize try_persistent_to_chunk).

(** The bytes of a chunk that fits an entry of the table. *)
Definition encodes (prepared : PreparedChunkSave Persistent) (data : list Z) : Prop :=
  encode prepared = Ok data /\ 0 < Z.of_nat (length data) < 2 ^ 24.

Lemma region_stored rp s s' p :
  only_region rp s s' -> region_of p <> rp -> stored s' p = stored s p.
Proof. intros Ho Hne. unfold stored. by eapply only_region_slot. Qed.

(** A save changes the chunk it saves and no other, whatever fails. *)
Lemma save_spec limit s prepared data :
  store_ok s -> bounded limit s -> FIRST_DATA_SECTOR <= limit -> limit + 4096 < 2 ^ 32 -> encodes prepared data ->
  exists r s', save prepared s = (r, s') /\ r <> Panic /\ store_ok s' /\ bounded (limit + 4096) s' /\
    (forall q, q <> pos prepared -> stored s' q = stored s q) /\
    (forall b, r = Ok b -> b = true /\ stored s' (pos prepared) = Some (status prepared, data)) /\
    (clean s -> held_ok s -> r = Ok true /\ clean s' /\ held_ok s' /\ forall rp, held s' rp = held s rp).
Proof.
  intros Hs Hb Hlim Hmax [He Hd]. unfold save_chunk_data. set (rp := region_of (pos prepared)). set (i := index_of (pos prepared)).
  unfold io_bind at 1, io_lift. rewrite He. unfold io_bind at 1, lookup_region.
  assert (Hi : 0 <= i < CHUNKS_PER_REGION) by apply index_of_range.
  destruct (get_or_open_spec s rp limit Hs Hb ltac:(lia)) as (r & s1 & Hg & Hnp & Hs1 & Hb1 & Ho1 & Hsl1 & Hok & _ & Hcl).
  assert (Hst1 : forall q, stored s1 q = stored s q).
  { intros q. unfold stored. destruct (decide (region_of q = rp)) as [->|Hne]; [apply Hsl1|by apply (only_region_slot rp)]. }
  unfold io_bind at 1. rewrite Hg. destruct r as [h|e|]; [| |done].
  2:{ do 2 eexists. split; [reflexivity|]. split; [done|]. split; [done|]. split; [eapply bounded_more; [done|lia]|].
      split; [done|]. split; [done|]. intros Hc. by destruct (Hcl Hc) as [_ [h [=]]]. }
  destruct (Hok h eq_refl) as [Hr1 Hcase]. set (opened_ := negb (bool_decide (is_Some (regions s !! rp)))).
  destruct (store_chunk_spec limit s1 rp i opened_ data (status prepared) h Hs1 Hb1 Hr1 Hmax Hi Hd) as (r & s' & -> & Hsv).
  destruct Hsv as [Hp [Hs' Hb' Ho'] Hoth Hres Hreg Hcln]. do 2 eexists. split; [reflexivity|].
  split; [done|]. split; [done|]. split; [done|]. split; [|split].
  - intros q Hq. rewrite <- Hst1. destruct (decide (region_of q = rp)) as [Hrq|Hne]; [|by apply (region_stored rp)].
    unfold stored. rewrite Hrq. apply Hoth; [apply index_of_range|]. intros Hiq. by apply Hq, slot_inj.
  - intros b ->. by apply Hres.
  - intros Hc Hh. destruct (Hcl Hc) as [Hc1 _]. destruct (Hcln Hc1) as [-> Hc']. split; [done|]. split; [done|].
    specialize (Hreg true eq_refl). assert (Hcnt : loaded_chunk_count h = held s rp).
    { unfold held. destruct Hcase as [->|(-> & -> & _)]; [by rewrite Hr1|done]. }
    assert (Ho2 : only_region rp s s') by by eapply only_region_trans.
    destruct (held_after s s' rp _ Hh Hcnt Hreg) as [Hrp1 Hrp2].
    split; [by apply (held_ok_step rp s)|].
    intros rp'. destruct (decide (rp' = rp)) as [->|Hne]; [done|by apply (held_step rp)].
Qed.

(** What a load reads, under failures: nothing changes. *)
Lemma load_read_spec s p min_y height :
  store_ok s ->
  exists r s', load_read p min_y height s = (r, s') /\ r <> Panic /\
    regions s' = regions s /\ files (fs s') = files (fs s) /\
    forall data e, r = Ok (Some (data, e)) -> stored s p = Some (entry_status e, data).
Proof.
  intros Hs. unfold load_read. case_match; [do 2 eexists; split; [done|]; done|].
  unfold io_bind at 1, lookup_region, stored. destruct (regions s !! region_of p) as [h|] eqn:Hr; [|do 2 eexists; split; [done|]; done].
  rewrite (open_slots s _ h) by done. unfold handle_slot.
  set (e := entry_at _ _). unfold chunk_data. destruct (entry_exists e); cbn [negb]; [|do 2 eexists; split; [done|]; done].
  unfold io_bind at 1, io_lift. pose proof (validate_chunk_entry_no_panic e (file_sectors h)).
  destruct (validate_chunk_entry e (file_sectors h)); [|do 2 eexists; split; [done|]; done|done].
  unfold lift_io, read_chunk_data, io_bind, seek_start.
  run_fallible f1 Hf1 Hn1; [|do 2 eexists; split; [done|]; done].
  match goal with |- context [file_read_exact ?fl ?n f1] =>
    destruct (read_exact_cases fl n f1) as (f2 & Hf2 & _ & [[-> _]|(e' & -> & _)]) end;
    do 2 eexists; (split; [reflexivity|]); cbn [regions fs]; rewrite Hf2; [|done].
  split_and!; try done. intros data e' [= <- <-]. cbn [file_path file_pos].
  rewrite (o_path _ _ _ (s_open s Hs _ h Hr)). do 3 f_equal. apply content_eq. by rewrite Hf1.
Qed.

Lemma same_stored s s' p : regions s' = regions s -> files (fs s') = files (fs s) -> stored s' p = stored s p.
Proof. intros H1 H2. unfold stored. apply slot_file; by rewrite ?H1, ?H2. Qed.

Lemma same_ok s s' : regions s' = regions s -> files (fs s') = files (fs s) -> store_ok s -> store_ok s'.
Proof.
  rewrite !store_ok_regions. intros H1 H2 H rp. apply (region_ok_file s); by rewrite ?H1, ?H2.
Qed.

Lemma same_bounded limit s s' : regions s' = regions s -> files (fs s') = files (fs s) -> bounded limit s -> bounded limit s'.
Proof. unfold bounded. by intros -> ->. Qed.

(** Without failures a load of a held chunk reads its bytes. *)
Lemma load_read_clean limit s p min_y height :
  sound limit s -> limit < 2 ^ 32 -> 0 < held s (region_of p) ->
  0 < height -> Z.rem height 16 = 0 -> Z.rem min_y 16 = 0 ->
  match stored s p with
  | None => load_read p min_y height s = (Ok None, s)
  | Some (st, data) => exists e, load_read p min_y height s = (Ok (Some (data, e)), s) /\ entry_status e = st
  end.
Proof.
  intros Hs Hlim Hheld Hh H16 Hy. pose proof (index_of_range p) as Hi.
  unfold held in Hheld. destruct (regions s !! region_of p) as [h|] eqn:Hr; [|done].
  unfold stored. rewrite (open_slots s _ h) by done. unfold handle_slot.
  set (e := entry_at (header h) (index_of p)).
  assert (Hrun : load_read p min_y height s =
    (if negb (entry_exists e) then io_ret None
     else (_ <~ io_lift (validate_chunk_entry e (file_sectors h)) ;;
          (compressed <~ lift_io (read_chunk_data (file h) (sector_offset e) (size_bytes e)) ;;
           io_ret (Some (compressed, e))))) s).
  { unfold load_read. rewrite (proj2 (Z.leb_gt _ _)), H16, Hy by done. cbn [orb negb Z.eqb].
    unfold io_bind at 1, lookup_region. by rewrite Hr. }
  rewrite Hrun. clear Hrun.
  destruct (s_open s (so_ok _ _ Hs) _ h Hr) as [Hp Hf Hop Hw Hsec Ha].
  pose proof (entry_at_elem (header h) (index_of p) Hw Hi) as Hin. pose proof (proj1 (so_clean _ _ Hs)) as Hn.
  assert (Hfl : file_sectors h < 2 ^ 32) by (pose proof (proj1 (so_bounded _ _ Hs) _ _ Hr); lia).
  unfold chunk_data. destruct (entry_exists e) eqn:Hx; cbn [negb]; [|done].
  pose proof (al_valid _ _ _ Ha e Hin Hx) as Hv. pose proof (al_data _ _ _ Ha e Hin Hx) as Hdata.
  assert (Hsz : 0 <= size_bytes e) by (destruct Hv; lia).
  exists e. split; [|done]. unfold io_bind at 1, io_lift. rewrite (proj2 (validate_chunk_entry_valid e _ Hfl Hsz) Hv).
  unfold lift_io, read_chunk_data, io_bind, seek_start, file_read_exact.
  do 2 (rewrite fallible_ok by done; unfold io_ret at 1; cbv beta iota; cbn [file_path file_pos]). rewrite Hp.
  rewrite decide_True; [by destruct s|]. destruct Hv. unfold FIRST_DATA_SECTOR, SECTOR_SIZE in *.
  apply length_read_at_in; lia.
Qed.

(** Corrupt data is discarded from its own slot only, and only when the slot
    was not written to since. *)
Lemma load_finish_spec limit s p e decoded :
  store_ok s -> bounded limit s ->
  exists r s', load_finish (Loaded := Loaded) p e decoded s = (r, s') /\ r <> Panic /\ store_ok s' /\ bounded limit s' /\
    (forall q, q <> p -> stored s' q = stored s q) /\
    (stored s' p = stored s p \/
     stored s' p = None /\ (exists error, decoded = inr error) /\
       exists h, regions s !! region_of p = Some h /\ entry_at (header h) (index_of p) = e).
Proof.
  intros Hs Hb. unfold load_finish. destruct decoded as [loaded|error]; [do 2 eexists; split; [done|]; auto 8|].
  destruct (clear_spec limit s (region_of p) (index_of p) e Hs Hb (index_of_range p))
    as (r & s' & Hc & Hnp & [Hs' Hb' Ho'] & Hoth & Htrue & Hfalse).
  unfold io_bind. rewrite Hc. assert (Hq : forall q, q <> p -> stored s' q = stored s q).
  { intros q Hq. destruct (decide (region_of q = region_of p)) as [Hrq|Hne]; [|by apply (region_stored (region_of p))].
    unfold stored. rewrite Hrq. apply Hoth; [apply index_of_range|]. intros Hiq. by apply Hq, slot_inj. }
  destruct r as [[]|e'|]; [| | |done]; do 2 eexists; (split; [reflexivity|]); split_and!; try done.
  - right. destruct (Htrue eq_refl) as [H1 H2]. split; [done|]. split; [by eexists|done].
  - left. by apply Hfalse.
  - left. by apply Hfalse.
Qed.
End Codec.
