(* ===== verification/StorageRefinement.v ===== *)
(** * Chunks on disk as chunks in memory

    [ChunkStorage] promises its callers a map of chunks: what was saved at a
    position is what is loaded from it.  The storage in memory is that map;
    the theorems here show that the storage on disk answers a sequence of
    calls that keeps to the [protocol] as the one in memory does, that a
    failing disk costs no chunk but the one being saved, and when data is discarded as corrupt.

    The laws of the codecs ([wincode] and [zstd] decode what they encode) are
    the hypotheses of the section. *)

From Stdlib Require Import Lia ZArith Ascii String.
From stdpp Require Import prelude list strings gmap pretty.
From S2P Require Import Prelude Io Collections Identifier Strings Position ChunkPyramid RegionFormat Files RegionManager RegionStore RegionStorage.

#[local] Open Scope list_scope.

Section Refinement.
Context {Persistent Loaded : Type}.
Context (serialize : Persistent -> list Z + string).
Context (compress : list Z -> outcome io_error (list Z)).
Context (decompress : list Z -> list Z + string).
Context (deserialize : list Z -> Persistent + string).
Context (try_persistent_to_chunk : Persistent -> ChunkPos -> ChunkStatus -> Z -> Z -> Loaded + io_error).
Context (iteration : gmap RegionPos RegionHandle -> list (RegionPos * RegionHandle)).
Context (min_y height : Z).

(** ** Calls *)

Inductive StorageCall :=
| Acquire (p : ChunkPos)
| Release (p : ChunkPos)
| Exists (p : ChunkPos)
| Save (prepared : PreparedChunkSave Persistent)
| Load (p : ChunkPos)
| FlushAll
| CloseAll.

Inductive Answer :=
| Done
| Flag (b : bool)
| Chunk (c : option Loaded).

Definition answer {S A} (f : A -> Answer) (m : St S A) : St S Answer := a <~ m ;; io_ret (f a).

Definition call (c : StorageCall) : St (ChunkStorage Persistent) Answer :=
  match c with
  | Acquire p => answer Flag (storage_acquire_chunk p)
  | Release p => answer (fun _ => Done) (storage_release_chunk p)
  | Exists p => answer Flag (storage_chunk_exists p)
  | Save prepared => answer Flag (storage_save_chunk_data serialize compress prepared)
  | Load p => answer Chunk (storage_load_chunk decompress deserialize try_persistent_to_chunk id p min_y height)
  | FlushAll => answer (fun _ => Done) (storage_flush_all iteration)
  | CloseAll => answer (fun _ => Done) (storage_close_all iteration)
  end.

(** The results of a sequence of calls, and the storage after them. *)
Fixpoint calls (cs : list StorageCall) (s : ChunkStorage Persistent)
    : list (outcome io_error Answer) * ChunkStorage Persistent :=
  match cs with
  | [] => ([], s)
  | c :: cs => let '(r, s) := call c s in let '(rs, s) := calls cs s in (r :: rs, s)
  end.

(** A chunk is loaded while chunks of its region are held, and a saved chunk
    can be encoded, fits an entry of the table and can be materialized. *)
Definition saveable (prepared : PreparedChunkSave Persistent) : Prop :=
  (exists data, encodes serialize compress prepared data) /\
  (exists loaded, try_persistent_to_chunk (persistent prepared) (pos prepared) (status prepared) min_y height = inl loaded).

Definition hold (held : RegionPos -> Z) (c : StorageCall) : RegionPos -> Z := fun rp =>
  match c with
  | Acquire p => held rp + (if decide (rp = region_of p) then 1 else 0)
  | Release p => if decide (rp = region_of p) then saturating_sub (held rp) 1 else held rp
  | CloseAll => 0
  | _ => held rp
  end.

Definition allowed (held : RegionPos -> Z) (c : StorageCall) : Prop :=
  match c with
  | Save prepared => saveable prepared
  | Load p => 0 < held (region_of p)
  | _ => True
  end.

Fixpoint protocol (held : RegionPos -> Z) (cs : list StorageCall) : Prop :=
  match cs with
  | [] => True
  | c :: cs => allowed held c /\ protocol (hold held c) cs
  end.

(** ** The relation *)

Definition bytes_of (prepared : PreparedChunkSave Persistent) (v : ChunkStatus * list Z) : Prop :=
  encodes serialize compress prepared v.2 /\ v.1 = status prepared.

Definition holds (p : ChunkPos) (saved : option (PreparedChunkSave Persistent)) (v : option (ChunkStatus * list Z)) : Prop :=
  match saved, v with
  | None, None => True
  | Some prepared, Some v => pos prepared = p /\ saveable prepared /\ bytes_of prepared v
  | _, _ => False
  end.

Record refines (limit : Z) (held_ : RegionPos -> Z) (rm : RegionManager) (ram : RamOnlyStorage Persistent) : Prop := {
  rf_sound : sound limit rm;
  rf_held : held_ok rm;
  rf_count : forall rp, held rm rp = held_ rp;
  rf_chunks : forall p, holds p (ram !! p) (stored rm p)
}.

Lemma holds_exists p saved v : holds p saved v -> bool_decide (is_Some v) = bool_decide (is_Some saved).
Proof.
  destruct saved, v; simpl; intros H; try done.
Qed.

Context (zstd_inverse : forall data z, compress data = Ok z -> decompress z = inl data).
Context (wincode_inverse : forall p data, serialize p = inl data -> deserialize data = inl p).
Context (iteration_perm : forall m, Permutation (iteration m) (map_to_list m)).
Context (valid_range : 0 < height /\ Z.rem height 16 = 0 /\ Z.rem min_y 16 = 0).

Lemma encode_ok prepared data :
  encode_chunk serialize compress prepared = Ok data ->
  exists raw, serialize (persistent prepared) = inl raw /\ compress raw = Ok data.
Proof.
  unfold encode_chunk. destruct (serialize (persistent prepared)) as [raw|]; [|done].
  destruct (compress raw) as [z| |] eqn:Ez; cbn [obind]; [|done..].
  case_match; [done|]. intros [= <-]. by exists raw.
Qed.

(** A saved chunk decodes to what the storage in memory materializes. *)
Lemma decode_saved prepared data :
  encode_chunk serialize compress prepared = Ok data ->
  forall loaded, try_persistent_to_chunk (persistent prepared) (pos prepared) (status prepared) min_y height = inl loaded ->
  decode_chunk decompress deserialize try_persistent_to_chunk data (pos prepared) (status prepared) min_y height = inl loaded.
Proof.
  intros He loaded Hl. destruct (encode_ok _ _ He) as (raw & Hs & Hc). unfold decode_chunk.
  by rewrite (zstd_inverse _ _ Hc), (wincode_inverse _ _ Hs), Hl.
Qed.

Lemma iteration_nodup m : NoDup (iteration m).*1.
Proof. rewrite iteration_perm. apply NoDup_fst_map_to_list. Qed.

Lemma iteration_map m : m = list_to_map (iteration m).
Proof.
  symmetry. rewrite (list_to_map_proper (iteration m) (map_to_list m)); [apply list_to_map_to_list|apply iteration_nodup|apply iteration_perm].
Qed.

(** ** Each call *)

Lemma call_disk {A} (disk : M A) ram (f : A -> Answer) rm :
  answer f (on_storage (Persistent := Persistent) disk ram) (Disk rm) =
    (let '(r, rm') := disk rm in (let? a := r in Ok (f a), Disk rm')).
Proof. unfold answer, on_storage, io_bind. destruct (disk rm) as [[a|e|] rm']; done. Qed.

Lemma call_ram {A} (disk : M A) ram (f : A -> Answer) (m : RamOnlyStorage Persistent) :
  answer f (on_storage disk ram) (RamOnly m) = (let '(r, m') := ram m in (let? a := r in Ok (f a), RamOnly m')).
Proof. unfold answer, on_storage, io_bind. destruct (ram m) as [[a|e|] m']; done. Qed.

(** The step both storages take, with the same answer. *)
Definition simulated (limit : Z) (held_ : RegionPos -> Z) (c : StorageCall) (rm : RegionManager)
    (ram : RamOnlyStorage Persistent) : Prop :=
  exists a rm' ram', call c (Disk rm) = (Ok a, Disk rm') /\ call c (RamOnly ram) = (Ok a, RamOnly ram') /\
    refines (limit + 4096) (hold held_ c) rm' ram'.

Lemma refines_same limit held_ held_' rm rm' ram :
  refines limit held_ rm ram -> sound limit rm' -> held_ok rm' -> slots_same rm rm' ->
  (forall rp, held rm' rp = held_' rp) -> refines (limit + 4096) held_' rm' ram.
Proof.
  intros [_ _ _ Hch] Hs Hh Hsl Hc. split; [eapply sound_more; [done|lia]|done|done|].
  intros p. by rewrite (stored_same rm).
Qed.

Section Calls.
Context (limit : Z) (held_ : RegionPos -> Z) (rm : RegionManager) (ram : RamOnlyStorage Persistent).
Context (Href : refines limit held_ rm ram) (Hmin : FIRST_DATA_SECTOR <= limit) (Hmax : limit + 4096 < 2 ^ 32).

Lemma acquire_simulated p : simulated limit held_ (Acquire p) rm ram.
Proof using All.
  destruct (acquire_spec limit rm p (rf_sound _ _ _ _ Href) (rf_held _ _ _ _ Href) ltac:(lia)) as (rm' & Ha & Hs & Hh & Hsl & Hc).
  eexists _, rm', ram. unfold call, storage_acquire_chunk. rewrite call_disk, call_ram, Ha. split; [reflexivity|]. split.
  - unfold ram_chunk_exists. cbn [obind]. by rewrite (holds_exists p _ _ (rf_chunks _ _ _ _ Href p)).
  - eapply refines_same; [exact Href|done|done|done|]. intros rp. rewrite Hc. cbn [hold]. by rewrite (rf_count _ _ _ _ Href).
Qed.

Lemma release_simulated p : simulated limit held_ (Release p) rm ram.
Proof using All.
  destruct (release_spec limit rm p (rf_sound _ _ _ _ Href) (rf_held _ _ _ _ Href) ltac:(lia)) as (rm' & Ha & Hs & Hh & Hsl & Hc).
  eexists _, rm', ram. unfold call, storage_release_chunk. rewrite call_disk, call_ram, Ha. split; [reflexivity|]. split; [done|].
  eapply refines_same; [exact Href|done|done|done|]. intros rp. rewrite Hc. cbn [hold]. by rewrite !(rf_count _ _ _ _ Href).
Qed.

Lemma exists_simulated p : simulated limit held_ (Exists p) rm ram.
Proof using All.
  eexists _, rm, ram. unfold call, storage_chunk_exists. rewrite call_disk, call_ram, (chunk_exists_spec limit) by apply Href.
  split; [reflexivity|]. split.
  - unfold ram_chunk_exists. cbn [obind]. by rewrite (holds_exists p _ _ (rf_chunks _ _ _ _ Href p)).
  - eapply refines_same; [exact Href|apply Href|apply Href|apply slots_same_refl|]. intros rp. cbn [hold]. apply Href.
Qed.

Lemma save_simulated prepared : saveable prepared -> simulated limit held_ (Save prepared) rm ram.
Proof using All.
  intros Hsv. destruct Hsv as [[data Hd] Hl] eqn:E. clear E. destruct (rf_sound _ _ _ _ Href) as [Hs Hb Hc].
  destruct (save_spec serialize compress limit rm prepared data Hs Hb Hmin Hmax Hd)
    as (r & rm' & Hsave & _ & Hs' & Hb' & Hoth & Hok & Hcl).
  destruct (Hcl Hc (rf_held _ _ _ _ Href)) as (-> & Hc' & Hh' & Hcnt). destruct (Hok true eq_refl) as [_ Hst].
  eexists _, rm', (<[pos prepared := prepared]> ram). unfold call, storage_save_chunk_data.
  rewrite call_disk, call_ram, Hsave. split; [reflexivity|]. split; [done|].
  split; [by split|done|intros rp; rewrite Hcnt; apply Href|].
  unfold RamOnlyStorage in *. intros q. destruct (decide (q = pos prepared)) as [->|Hne].
  - rewrite (lookup_insert_eq ram), Hst. simpl. split; [done|]. split; [done|]. by split.
  - rewrite (lookup_insert_ne ram), Hoth by done. apply Href.
Qed.

Lemma load_simulated p : 0 < held_ (region_of p) -> simulated limit held_ (Load p) rm ram.
Proof using All.
  intros Hheld. rewrite <- (rf_count _ _ _ _ Href) in Hheld. destruct valid_range as (Hh & H16 & Hy).
  pose proof (load_read_clean limit rm p min_y height (rf_sound _ _ _ _ Href) ltac:(lia) Hheld Hh H16 Hy) as Hread.
  pose proof (rf_chunks _ _ _ _ Href p) as Hp.
  assert (Hend : refines (limit + 4096) (hold held_ (Load p)) rm ram).
  { eapply refines_same; [exact Href|apply Href|apply Href|apply slots_same_refl|]. intros rp. cbn [hold]. apply Href. }
  unfold simulated, call, storage_load_chunk, load_chunk.
  destruct (ram !! p) as [prepared|] eqn:Hr, (stored rm p) as [[st data]|] eqn:Hst; simpl in Hp; try done.
  - destruct Hp as (<- & (_ & [loaded Hload]) & [[Henc _] Hstat]). simpl in Henc, Hstat. subst st.
    destruct Hread as (e & Hread & He).
    eexists (Chunk (Some loaded)), rm, ram. split; [|split; [|done]].
    + rewrite call_disk. unfold io_bind at 1. rewrite Hread. cbv beta iota. rewrite He.
      by rewrite (decode_saved prepared data Henc loaded Hload).
    + rewrite call_ram. unfold ram_load_chunk, ram_chunk_exists, io_bind. rewrite Hr, bool_decide_true by by eexists.
      cbv beta iota. by rewrite Hr, Hload.
  - eexists (Chunk None), rm, ram. split; [|split; [|done]].
    + rewrite call_disk. unfold io_bind at 1. by rewrite Hread.
    + rewrite call_ram. unfold ram_load_chunk, ram_chunk_exists, io_bind. rewrite Hr, bool_decide_false by by intros []. done.
Qed.

Lemma flush_simulated : simulated limit held_ FlushAll rm ram.
Proof using All.
  destruct (sound_flush_step limit (iteration (regions rm)) rm (rf_sound _ _ _ _ Href) ltac:(lia) (iteration_nodup _))
    as (rm' & Hf & Hs & Hsl & Hcnt).
  { intros rp h Hin. rewrite iteration_perm in Hin. by apply elem_of_map_to_list. }
  eexists _, rm', ram. unfold call, storage_flush_all. rewrite call_disk, call_ram. unfold flush_all. rewrite Hf.
  split; [reflexivity|]. split; [done|].
  assert (Hheld : forall rp, held rm' rp = held rm rp).
  { intros rp. unfold held. specialize (Hcnt rp). destruct (regions rm' !! rp), (regions rm !! rp); naive_solver. }
  eapply refines_same; [exact Href|done| |done|intros rp; rewrite Hheld; apply Href].
  intros rp h Hr. pose proof (rf_held _ _ _ _ Href rp) as Hh. specialize (Hcnt rp). rewrite Hr in Hcnt.
  destruct (regions rm !! rp) as [h0|]; [|done]. injection Hcnt as ->. by apply Hh.
Qed.

Lemma close_simulated : simulated limit held_ CloseAll rm ram.
Proof using All.
  destruct (sound_close_all_step limit (iteration (regions rm)) rm (rf_sound _ _ _ _ Href) ltac:(lia)
    (iteration_nodup _) (iteration_map _)) as (f' & Hf & Hs & Hsl).
  eexists _, (mk_manager ∅ f'), ram. unfold call, storage_close_all. rewrite call_disk, call_ram.
  unfold close_all, drain_regions. unfold io_bind at 1. rewrite Hf. split; [reflexivity|]. split; [done|].
  eapply refines_same; [exact Href|done| |done|intros rp; done]. intros rp h. done.
Qed.

Lemma call_simulated c : allowed held_ c -> simulated limit held_ c rm ram.
Proof using All.
  destruct c; cbn [allowed]; intros Ha.
  - apply acquire_simulated.
  - apply release_simulated.
  - apply exists_simulated.
  - by apply save_simulated.
  - by apply load_simulated.
  - apply flush_simulated.
  - apply close_simulated.
Qed.
End Calls.

Lemma calls_refine limit held_ rm ram cs :
  refines limit held_ rm ram -> FIRST_DATA_SECTOR <= limit -> limit + 4096 * Z.of_nat (length cs) < 2 ^ 32 ->
  protocol held_ cs ->
  exists rs rm' ram' held', calls cs (Disk rm) = (Ok <$> rs, Disk rm') /\ calls cs (RamOnly ram) = (Ok <$> rs, RamOnly ram') /\
    refines (limit + 4096 * Z.of_nat (length cs)) held' rm' ram'.
Proof using All.
  revert limit held_ rm ram. induction cs as [|c cs IH]; intros limit held_ rm ram Href Hmin Hmax Hp.
  - exists [], rm, ram, held_. split; [done|]. split; [done|]. simpl. rewrite Z.add_0_r. done.
  - destruct Hp as [Ha Hp]. cbn [length] in *.
    destruct (call_simulated limit held_ rm ram Href Hmin ltac:(lia) c Ha) as (a & rm1 & ram1 & H1 & H2 & Href1).
    destruct (IH _ _ _ _ Href1 ltac:(lia) ltac:(lia) Hp) as (rs & rm' & ram' & held' & H3 & H4 & Href').
    exists (a :: rs), rm', ram', held'. cbn [calls]. rewrite H1, H2, H3, H4. split; [done|]. split; [done|].
    by replace (limit + 4096 * Z.of_nat (S (length cs))) with (limit + 4096 + 4096 * Z.of_nat (length cs)) by lia.
Qed.

(** C2: the storage on disk answers a sequence of calls as the one in memory:
    the same results, none of them an error.  The calls follow the protocol of
    the storage ([protocol]): a chunk is loaded only while chunks of its region
    are acquired, and a chunk that is saved can be encoded, fits an entry of the
    table and can be read back.  The region files stay below 2^32 sectors, of
    which each call adds 4096 at most. *)
Theorem disk_storage_answers_as_memory limit held_ rm ram cs :
  refines limit held_ rm ram -> FIRST_DATA_SECTOR <= limit -> limit + 4096 * Z.of_nat (length cs) < 2 ^ 32 ->
  protocol held_ cs ->
  (calls cs (Disk rm)).1 = (calls cs (RamOnly ram)).1 /\
  forall r, r ∈ (calls cs (Disk rm)).1 -> exists a, r = Ok a.
Proof using All.
  intros Href Hmin Hmax Hp. destruct (calls_refine limit held_ rm ram cs Href Hmin Hmax Hp) as (rs & rm' & ram' & held' & H1 & H2 & _).
  rewrite H1, H2. split; [done|]. intros r (a & -> & _)%list_elem_of_fmap. by exists a.
Qed.
End Refinement.

(** ** Restarting *)

Section Restart.
Context (iteration : gmap RegionPos RegionHandle -> list (RegionPos * RegionHandle)).
Context (iteration_perm : forall m, Permutation (iteration m) (map_to_list m)).

(** The manager of a new server over the same files. *)
Definition restarted (s : RegionManager) : RegionManager := mk_manager ∅ (fs s).

(** Closing all regions writes what is needed for a new manager over the
    same files to store exactly the chunks the old one stored. *)
Theorem closing_keeps_chunks limit s :
  sound limit s -> limit < 2 ^ 32 ->
  exists s', close_all iteration s = (Ok tt, s') /\ s' = restarted s' /\ forall p, stored s' p = stored s p.
Proof using All.
  intros Hs Hlim.
  destruct (sound_close_all_step limit (iteration (regions s)) s Hs Hlim) as (f' & Hc & _ & Hsl).
  - by apply iteration_nodup.
  - by apply iteration_map.
  - exists (mk_manager ∅ f'). unfold close_all, drain_regions. unfold io_bind at 1. rewrite Hc.
    split; [done|]. split; [done|]. intros p. by apply stored_same.
Qed.
End Restart.

(** ** Failures *)

Section Failures.
Context {Persistent Loaded : Type}.
Context (serialize : Persistent -> list Z + string).
Context (compress : list Z -> outcome io_error (list Z)).
Context (decompress : list Z -> list Z + string).
Context (deserialize : list Z -> Persistent + string).
Context (try_persistent_to_chunk : Persistent -> ChunkPos -> ChunkStatus -> Z -> Z -> Loaded + io_error).

(** C7: whatever operations of the file system fail during a save, no other
    chunk changes and the files stay sound; a save that succeeds stores its
    chunk. *)
Theorem failed_save_spares_other_chunks limit s prepared data :
  store_ok s -> bounded limit s -> FIRST_DATA_SECTOR <= limit -> limit + 4096 < 2 ^ 32 ->
  encodes serialize compress prepared data ->
  exists r s', save_chunk_data serialize compress prepared s = (r, s') /\ r <> Panic /\ store_ok s' /\
    (forall q, q <> pos prepared -> stored s' q = stored s q) /\
    (forall b, r = Ok b -> stored s' (pos prepared) = Some (status prepared, data)).
Proof.
  intros Hs Hb Hmin Hmax Hd.
  destruct (save_spec serialize compress limit s prepared data Hs Hb Hmin Hmax Hd) as (r & s' & H1 & H2 & H3 & _ & H4 & H5 & _).
  exists r, s'. split_and!; try done. intros b Hr. by apply (H5 b).
Qed.

(** What other tasks do while a chunk is decoded keeps the storage sound. *)
Definition keeps (limit : Z) (between : RegionManager -> RegionManager) : Prop :=
  forall m, store_ok m -> bounded limit m -> store_ok (between m) /\ bounded limit (between m).

(** C18: a load, whatever fails and whatever other tasks do while it decodes,
    discards at most the chunk it loads: only when the stored data did not
    decode and the entry is still the one that was read. *)
Theorem load_discards_only_corrupt_data limit s between p min_y height :
  store_ok s -> bounded limit s -> keeps limit between ->
  exists r s' sm, load_chunk decompress deserialize try_persistent_to_chunk between p min_y height s = (r, s') /\
    r <> Panic /\ store_ok s' /\
    (exists s1, (forall q, stored s1 q = stored s q) /\ (sm = s1 \/ sm = between s1)) /\
    (forall q, q <> p -> stored s' q = stored sm q) /\
    (stored s' p = stored sm p \/
     stored s' p = None /\
     exists data e error h, stored s p = Some (entry_status e, data) /\
       decode_chunk decompress deserialize try_persistent_to_chunk data p (entry_status e) min_y height = inr error /\
       regions sm !! region_of p = Some h /\ entry_at (header h) (index_of p) = e).
Proof.
  intros Hs Hb Hk. destruct (load_read_spec s p min_y height Hs) as (r & s1 & Hr & Hnp & Hreg & Hfs & Hdata).
  assert (Hst : forall q, stored s1 q = stored s q) by (intros q; by apply same_stored).
  assert (Hs1 : store_ok s1) by by apply (same_ok s). assert (Hb1 : bounded limit s1) by by apply (same_bounded limit s).
  unfold load_chunk. unfold io_bind at 1. rewrite Hr. destruct r as [[[data e]|]|e|]; [| | |done].
  - destruct (Hk s1 Hs1 Hb1) as [Hs2 Hb2].
    destruct (load_finish_spec limit (between s1) p e
      (decode_chunk decompress deserialize try_persistent_to_chunk data p (entry_status e) min_y height) Hs2 Hb2)
      as (r & s' & Hf & Hnp' & Hs' & _ & Hoth & Hp).
    exists r, s', (between s1). split_and!; [done|done|done|by exists s1; auto|done|].
    destruct Hp as [?|(Hn & [error He] & h & Hh & Heq)]; [by left|]. right. split; [done|].
    exists data, e, error, h. auto.
  - exists (Ok None), s1, s1. split_and!; [done|done|done|by exists s1; auto|done|by left].
  - exists (Err e), s1, s1. split_and!; [done|done|done|by exists s1; auto|done|by left].
Qed.
End Failures.

(** ** An example

    A toy codec: a chunk is a list of numbers, compression puts a 7 in front,
    and a chunk that starts with 0 cannot be materialized. *)

Module Example1.
Definition toy_serialize (p : list Z) : list Z + string := inl p.
Definition toy_compress (d : list Z) : outcome io_error (list Z) := Ok (7 :: d).
Definition toy_decompress (z : list Z) : list Z + string :=
  match z with 7 :: d => inl d | _ => inr "bad frame"%string end.
Definition toy_deserialize (d : list Z) : list Z + string := inl d.
Definition toy_materialize (p : list Z) (_ : ChunkPos) (_ : ChunkStatus) (_ _ : Z) : list Z + io_error :=
  match p with 0 :: _ => inr (invalid_data "bad chunk") | _ => inl p end.

Definition toy_calls := calls toy_serialize toy_compress toy_decompress toy_deserialize toy_materialize map_to_list 0 16.
Definition toy_save := save_chunk_data toy_serialize toy_compress.
Definition toy_load := load_chunk toy_decompress toy_deserialize toy_materialize.

Definition origin : ChunkPos := mk_chunk 0 0.
Definition neighbour : ChunkPos := mk_chunk 1 0.
Definition fresh : RegionManager := mk_manager ∅ (mk_fs ∅ []).
Definition chunk_at (p : ChunkPos) (data : list Z) : PreparedChunkSave (list Z) := mk_prepared p Full data [].

Definition session : list (StorageCall (Persistent := list Z)) :=
  [Acquire origin; Save (chunk_at origin [1; 2; 3]); Load origin; Save (chunk_at neighbour [4]); Exists neighbour;
   Release origin; Acquire neighbour; Load neighbour].

Example session_answers :
  (toy_calls session (Disk fresh)).1 =
    [Ok (Flag false); Ok (Flag true); Ok (Chunk (Some [1; 2; 3])); Ok (Flag true); Ok (Flag true);
     Ok Done; Ok (Flag true); Ok (Chunk (Some [4]))].
Proof. vm_compute. reflexivity. Qed.

Lemma fresh_refines :
  refines (Persistent := list Z) (Loaded := list Z) toy_serialize toy_compress toy_materialize 0 16 FIRST_DATA_SECTOR (fun _ => 0) fresh ∅.
Proof.
  split.
  - split; [|split; [done|]|split; [done|]].
    + split; [done|]. intros rp c _ H. done.
    + intros rp c H. done.
    + intros rp. unfold region_clean, fresh. cbn [regions fs files]. rewrite lookup_empty. intros c H. by rewrite lookup_empty in H.
  - intros rp h H. done.
  - done.
  - intros p. unfold stored, slot, file_slot, fresh. cbn [regions fs files]. by rewrite !lookup_empty.
Qed.

Lemma toy_saveable p x data : x <> 0 -> Z.of_nat (length data) < 1000 ->
  saveable toy_serialize toy_compress toy_materialize 0 16 (chunk_at p (x :: data)).
Proof.
  intros Hx Hl. split.
  - exists (7 :: x :: data). split; [|cbn [length]; lia].
    unfold encode_chunk, toy_serialize, toy_compress. cbn [persistent chunk_at obind length].
    rewrite (proj2 (Z.ltb_ge _ _)); [done|]. unfold MAX_CHUNK_SIZE. lia.
  - exists (x :: data). destruct x; [done|done|done].
Qed.

Lemma toy_session_protocol : protocol toy_serialize toy_compress toy_materialize 0 16 (fun _ => 0) session.
Proof.
  unfold session. do 8 (cbn [protocol]; split;
    [cbn [allowed]; first [exact I | apply toy_saveable; [done|cbn [length]; lia] | reflexivity]|]). exact I.
Qed.

Lemma disk_storage_answers_as_memory_witness :
  (toy_calls session (Disk fresh)).1 = (toy_calls session (RamOnly ∅)).1.
Proof.
  apply (disk_storage_answers_as_memory toy_serialize toy_compress toy_decompress toy_deserialize toy_materialize
    map_to_list 0 16) with (limit := FIRST_DATA_SECTOR) (held_ := fun _ => 0).
  - intros data z [= <-]. reflexivity.
  - intros p data [= <-]. reflexivity.
  - reflexivity.
  - split; [reflexivity|split; reflexivity].
  - exact fresh_refines.
  - reflexivity.
  - reflexivity.
  - exact toy_session_protocol.
Defined.

(** The manager after a sequence of calls. *)
Definition after (cs : list StorageCall) : RegionManager :=
  match (toy_calls cs (Disk fresh)).2 with Disk rm => rm | RamOnly _ => fresh end.

Definition session_limit : Z := FIRST_DATA_SECTOR + 4096 * Z.of_nat (length session).

Lemma after_session : sound session_limit (after session).
Proof.
  destruct (calls_refine toy_serialize toy_compress toy_decompress toy_deserialize toy_materialize map_to_list 0 16)
    with (limit := FIRST_DATA_SECTOR) (held_ := fun _ : RegionPos => 0) (rm := fresh)
      (ram := ∅ : RamOnlyStorage (list Z)) (cs := session)
    as (rs & rm' & ram' & held' & E & _ & Href);
    [by intros data z [= <-]|by intros q data [= <-]|done|done|exact fresh_refines|done|done|exact toy_session_protocol|].
  unfold after, toy_calls. rewrite E. apply Href.
Qed.

Lemma closing_keeps_chunks_witness :
  exists s', close_all map_to_list (after session) = (Ok tt, s') /\ stored s' origin = Some (Full, [7; 1; 2; 3]).
Proof.
  destruct (closing_keeps_chunks map_to_list (fun m => reflexivity _) session_limit (after session) after_session eq_refl)
    as (s' & E & _ & H).
  exists s'. split; [exact E|]. rewrite H. vm_compute. reflexivity.
Defined.

(** The disk fills up while a third chunk is written. *)
Definition with_faults (s : RegionManager) (fl : list (option nat)) : RegionManager :=
  mk_manager (regions s) (mk_fs (files (fs s)) fl).

Lemma with_faults_ok limit s fl : sound limit s -> store_ok (with_faults s fl) /\ bounded limit (with_faults s fl).
Proof. intros [H1 H2 _]. split; [by apply (same_ok s)|by apply (same_bounded _ s)]. Qed.

Definition full_disk : RegionManager := with_faults (after session) [None; Some 1%nat].
Definition far : ChunkPos := mk_chunk 2 0.

Lemma full_disk_ok : store_ok full_disk /\ bounded session_limit full_disk.
Proof. exact (with_faults_ok _ _ _ after_session). Qed.

Lemma toy_encodes p data : Z.of_nat (length data) < 1000 ->
  encodes toy_serialize toy_compress (chunk_at p data) (7 :: data).
Proof.
  intros Hl. split; [|cbn [length]; lia].
  unfold encode_chunk, toy_serialize, toy_compress. cbn [persistent chunk_at obind length].
  rewrite (proj2 (Z.ltb_ge _ _)); [done|]. unfold MAX_CHUNK_SIZE. lia.
Qed.

Example full_disk_fails : (toy_save (chunk_at far [5]) full_disk).1 = Err os_error.
Proof. vm_compute. reflexivity. Qed.

Lemma failed_save_spares_other_chunks_witness :
  exists r s', toy_save (chunk_at far [5]) full_disk = (r, s') /\ stored s' origin = Some (Full, [7; 1; 2; 3]).
Proof.
  destruct full_disk_ok as [Hs Hb].
  destruct (failed_save_spares_other_chunks toy_serialize toy_compress session_limit full_disk (chunk_at far [5]) [7; 5])
    as (r & s' & E & _ & _ & H & _); [exact Hs|exact Hb|discriminate|reflexivity|exact (toy_encodes far [5] eq_refl)|].
  exists r, s'. split; [exact E|]. rewrite H by discriminate. vm_compute. reflexivity.
Defined.

(** A chunk that cannot be materialized. *)
Definition corrupt : RegionManager := (toy_save (chunk_at far [0]) (after session)).2.
Definition corrupt_limit : Z := session_limit + 4096.

Lemma corrupt_ok : store_ok corrupt /\ bounded corrupt_limit corrupt.
Proof.
  destruct after_session as [H1 H2 _].
  destruct (save_spec toy_serialize toy_compress session_limit (after session) (chunk_at far [0]) [7; 0] H1 H2)
    as (r & s' & E & _ & H3 & H4 & _); [done|done|by apply toy_encodes|].
  unfold corrupt, toy_save. rewrite E. by split.
Qed.

Example corrupt_load : (toy_load id far 0 16 corrupt).1 = Ok None /\ stored (toy_load id far 0 16 corrupt).2 far = None.
Proof. split; vm_compute; reflexivity. Qed.

Lemma load_discards_only_corrupt_data_witness :
  exists r s', toy_load id far 0 16 corrupt = (r, s') /\ stored s' origin = Some (Full, [7; 1; 2; 3]).
Proof.
  destruct corrupt_ok as [Hs Hb].
  destruct (load_discards_only_corrupt_data toy_decompress toy_deserialize toy_materialize corrupt_limit corrupt id far 0 16 Hs Hb)
    as (r & s' & sm & E & _ & _ & (s1 & H1 & H2) & H & _); [intros m Hm Hm'; split; [exact Hm|exact Hm']|].
  exists r, s'. split; [exact E|]. rewrite H by discriminate. destruct H2 as [->| ->]; [|unfold id];
    rewrite H1; vm_compute; reflexivity.
Defined.

(** A save that ends while the corrupt data is decoded, with the same size
    and status, leaves the same entry: the load discards the new chunk. *)
Definition saves_meanwhile (m : RegionManager) : RegionManager := (toy_save (chunk_at far [9]) m).2.

Example fresh_save_discarded :
  stored (saves_meanwhile corrupt) far = Some (Full, [7; 9]) /\
  stored (toy_load saves_meanwhile far 0 16 corrupt).2 far = None.
Proof. split; vm_compute; reflexivity. Qed.
End Example1.
