(* ===== verification/Random.v ===== *)
(** * Sources of random numbers

    Models [steel-utils/src/random/mod.rs], [gaussian.rs] and
    [weighted_random.rs]: the trait every generator implements, with its
    provided methods, and the helpers over any generator.  A method on
    [&mut self] takes the generator and returns the value with the next one.

    A method that may loop for ever takes fuel, and returns [Err OutOfFuel]
    when it uses it up.  Plain additions of [i32] wrap, as in a release
    build.

    The class [BoundedDraws] is what the helpers draw from; [InRange] says that
    a draw is within its bound and [Returns] that it ends.  A list of integers
    is the generator that draws them in turn.  *)

From Stdlib Require Import Lia ZArith SpecFloat.
From stdpp Require Import prelude list.
From S2P Require Import Prelude Floats.

(** ** Splitters *)

Record LegacyRandomSplitter := { legacy_seed : Z }.
Record XoroshiroSplitter := { split_lo : Z; split_hi : Z }.
Inductive RandomSplitter :=
| SplitXoroshiro (s : XoroshiroSplitter)
| SplitLegacy (s : LegacyRandomSplitter).

(** ** The trait *)

Class BoundedDraws (R : Type) : Type := next_i32_bounded : nat -> Z -> R -> run (Z * R).

Class Random (R : Type) : Type := {
  fork : R -> R * R;
  next_i32 : R -> Z * R;
  random_bounded :: BoundedDraws R;
  next_i64 : R -> Z * R;
  next_f32 : R -> f32 * R;
  next_f64 : R -> f64 * R;
  next_bool : R -> bool * R;
  next_positional : R -> RandomSplitter * R;
  consume_count : Z -> R -> R
}.

Section Provided.
Context {R : Type} `{!Random R}.

Definition next_i32_between (fuel : nat) (min max : Z) (r : R) : run (Z * R) :=
  let? '(v, r) := next_i32_bounded fuel (i32 (i32 (max - min) + 1)) r in
  Ok (i32 (v + min), r).

Definition next_i32_between_exclusive (fuel : nat) (min max : Z) (r : R) : run (Z * R) :=
  let? '(v, r) := next_i32_bounded fuel (i32 (max - min)) r in
  Ok (i32 (min + v), r).

Definition triangle (min max : f64) (r : R) : f64 * R :=
  let (a, r) := next_f64 r in
  let (b, r) := next_f64 r in
  (f64_add min (f64_mul max (f64_sub a b)), r).

Definition triangle_f32 (min max : f32) (r : R) : f32 * R :=
  let (a, r) := next_f32 r in
  let (b, r) := next_f32 r in
  (f32_add min (f32_mul max (f32_sub a b)), r).

(** The [consume_count] a generator gets unless it has its own *)
Definition consume_each (count : Z) (r : R) : R :=
  Nat.iter (Z.to_nat count) (fun r => (next_i32 r).2) r.
End Provided.

(** [get_seed] of a position *)
Definition get_seed (x y z : Z) : Z :=
  let l := Z.lxor (Z.lxor (i32 (x * 3129871)) (i64 (z * 116129781))) y in
  let l := i64 (i64 (i64 (l * l) * 42317861) + i64 (l * 11)) in
  Z.shiftr l 16.

(** ** Normally distributed numbers *)

Section Gaussian.
Context {R : Type} `{!Random R} (ln : f64 -> f64).
Context (stored_next_gaussian : R -> option f64) (set_stored_next_gaussian : option f64 -> R -> R).

Definition one : f64 := f64_of_int 1.
Definition two : f64 := f64_of_int 2.

Fixpoint gaussian_loop (fuel : nat) (r : R) : run (f64 * R) :=
  match fuel with
  | O => Err OutOfFuel
  | S fuel =>
      let (a, r) := next_f64 r in
      let d := f64_sub (f64_mul two a) one in
      let (b, r) := next_f64 r in
      let e := f64_sub (f64_mul two b) one in
      let f := f64_add (f64_mul d d) (f64_mul e e) in
      if SFltb f one && negb (SFeqb f (S754_zero false)) then
        let g := f64_sqrt (f64_div (f64_mul (SFopp two) (ln f)) f) in
        Ok (f64_mul d g, set_stored_next_gaussian (Some (f64_mul e g)) r)
      else gaussian_loop fuel r
  end.

Definition calculate_gaussian (fuel : nat) (r : R) : run (f64 * R) :=
  match stored_next_gaussian r with
  | Some gaussian => Ok (gaussian, set_stored_next_gaussian None r)
  | None => gaussian_loop fuel r
  end.
End Gaussian.

(** ** Shuffling *)

(** [<[T]>::swap] *)
Definition swap {A} (i j : nat) (l : list A) : run (list A) :=
  match l !! i, l !! j with
  | Some x, Some y => Ok (<[i := y]> (<[j := x]> l))
  | _, _ => Panic
  end.

Section Shuffle.
Context {R A : Type} `{!BoundedDraws R}.

(** The loop, from the number of positions that remain down to 2 *)
Fixpoint shuffle_from (fuel remaining : nat) (items : list A) (r : R) : run (list A * R) :=
  match remaining with
  | S (S _ as before) =>
      let? '(v, r) := next_i32_bounded fuel (Z.of_nat remaining) r in
      let swap_to := Z.to_nat (u64 v) in
      let? items := swap (remaining - 1) swap_to items in
      shuffle_from fuel before items r
  | _ => Ok (items, r)
  end.

Definition shuffle (fuel : nat) (items : list A) (r : R) : run (list A * R) :=
  if Z.of_nat (length items) <=? i32_max then shuffle_from fuel (length items) items r
  else Panic.
End Shuffle.

(** ** Weighted choice *)

Section Weighted.
Context {R T : Type} `{!BoundedDraws R} (weight : T -> Z).

Definition sum_weights (items : list T) : Z := foldr (fun x n => weight x + n) 0 items.

Definition get_total_weight (items : list T) : run Z :=
  let total := sum_weights items in
  if total <=? i32_max then Ok (i32 total) else Panic.

Fixpoint get_weighted_item (items : list T) (index : Z) : option T :=
  match items with
  | [] => None
  | item :: items =>
      let index := i32 (index - weight item) in
      if index <? 0 then Some item else get_weighted_item items index
  end.

Definition get_random_item (fuel : nat) (items : list T) (r : R) : run (option T * R) :=
  let? total_weight := get_total_weight items in
  if total_weight <? 0 then Panic
  else if total_weight =? 0 then Ok (None, r)
  else
    let? '(selection, r) := next_i32_bounded fuel total_weight r in
    Ok (get_weighted_item items selection, r).
End Weighted.

(** ** What a generator promises *)

(** Every draw lies within its bound. *)
Class InRange (R : Type) `{!BoundedDraws R} (wf : R -> Prop) : Prop :=
  draw_in_range : forall fuel bound r, wf r -> 0 < bound <= i32_max ->
    match next_i32_bounded fuel bound r with
    | Ok (v, r') => 0 <= v < bound /\ wf r'
    | Err OutOfFuel => True
    | Panic => False
    end.

(** Some amount of fuel is enough for a draw, and so is any larger one. *)
Class Returns (R : Type) `{!BoundedDraws R} (wf : R -> Prop) : Prop :=
  draw_returns : forall bound r, wf r -> 0 < bound <= i32_max -> exists enough v r',
    forall fuel, (enough <= fuel)%nat -> next_i32_bounded fuel bound r = Ok (v, r').

(** ** Shuffles *)

#[export] Instance Scripted : BoundedDraws (list Z) := fun _ _ draws =>
  match draws with
  | d :: draws => Ok (d, draws)
  | [] => Err OutOfFuel
  end.

(** The draws a shuffle of [n] items may make, each within its bound *)
Fixpoint choices (n : nat) (draws : list Z) : Prop :=
  match n with
  | S (S _ as m) =>
      match draws with
      | d :: draws => 0 <= d < Z.of_nat n /\ choices m draws
      | [] => False
      end
  | _ => draws = []
  end.

Lemma insert_cons_perm {A} (l : list A) i x y : l !! i = Some x -> x :: <[i := y]> l ≡ₚ y :: l.
Proof.
  intros Hi. rewrite <- (take_drop_middle l i x Hi) at 2.
  rewrite insert_take_drop by (by eapply lookup_lt_Some).
  rewrite <- !Permutation_middle. constructor.
Qed.

Lemma swap_some {A} (l : list A) i j x y :
  l !! i = Some x -> l !! j = Some y ->
  exists l', swap i j l = Ok l' /\ l' ≡ₚ l /\ l' !! i = Some y /\
    forall k, (i < k)%nat -> (j < k)%nat -> l' !! k = l !! k.
Proof.
  intros Hi Hj. unfold swap. rewrite Hi, Hj. eexists. split; [done|].
  pose proof (lookup_lt_Some _ _ _ Hi). pose proof (lookup_lt_Some _ _ _ Hj).
  assert (Hi' : <[j := x]> l !! i = Some x).
  { destruct (decide (i = j)) as [->|]; [by apply list_lookup_insert_eq|].
    by rewrite list_lookup_insert_ne. }
  split; [|split].
  - apply (Permutation_cons_inv (a := x)). by rewrite (insert_cons_perm _ i x y), insert_cons_perm.
  - apply list_lookup_insert_eq. by rewrite length_insert.
  - intros k ? ?. by rewrite !list_lookup_insert_ne by lia.
Qed.

Lemma usize_draw v : 0 <= v <= i32_max -> Z.to_nat (u64 v) = Z.to_nat v.
Proof. intros. unfold u64, i32_max in *. by rewrite wrapu_id by (unfold is_u; lia). Qed.

(** One round swaps the last remaining position with the one drawn. *)
Lemma shuffle_round {A} n (l : list A) v :
  (S n < length l)%nat -> Z.of_nat (length l) <= i32_max -> 0 <= v < Z.of_nat (S (S n)) ->
  exists y l', l !! Z.to_nat v = Some y /\ l' ≡ₚ l /\ l' !! S n = Some y /\
    drop (S (S n)) l' = drop (S (S n)) l /\
    forall (R : Type) (B : BoundedDraws R) fuel (r r' : R),
      next_i32_bounded fuel (Z.of_nat (S (S n))) r = Ok (v, r') ->
      shuffle_from fuel (S (S n)) l r = shuffle_from fuel (S n) l' r'.
Proof.
  intros Hn Hl Hv. destruct (lookup_lt_is_Some_2 l (S n)) as [x Hx]; [done|].
  destruct (lookup_lt_is_Some_2 l (Z.to_nat v)) as [y Hy]; [lia|].
  destruct (swap_some l _ _ x y Hx Hy) as (l' & Hs & Hp & Hy' & Hk).
  exists y, l'. split; [done|]. split; [done|]. split; [done|]. split.
  - apply list_eq. intros k. rewrite !lookup_drop. apply Hk; lia.
  - intros R B fuel r r' Hd. cbn [shuffle_from]. rewrite Hd. cbn [obind]. rewrite usize_draw by lia.
    replace (S (S n) - 1)%nat with (S n) by lia. by rewrite Hs.
Qed.

Lemma drop_at {A} (l p : list A) n y :
  l !! n = Some y -> p !! n = Some y -> drop (S n) l = drop (S n) p -> drop n l = drop n p.
Proof. intros Hl Hp Hd. by rewrite (drop_S l y n Hl), (drop_S p y n Hp), Hd. Qed.

Lemma drop_eq_lookup {A} (l p : list A) n k : drop n l = drop n p -> (n <= k)%nat -> l !! k = p !! k.
Proof.
  intros Hd Hk. replace k with (n + (k - n))%nat by lia. by rewrite <- !lookup_drop, Hd.
Qed.

Lemma perm_drop_one {A} (l p : list A) n : (n <= 1)%nat -> l ≡ₚ p -> drop n l = drop n p -> l = p.
Proof.
  intros Hn Hp Hd. destruct n as [|[|]]; [done| |lia].
  destruct l as [|x l], p as [|y p]; [done|by apply Permutation_nil_cons in Hp| |].
  - by symmetry in Hp; apply Permutation_nil_cons in Hp.
  - simpl in Hd. unfold drop in Hd. subst p. f_equal.
    change (x :: l) with ([x] ++ l) in Hp. change (y :: l) with ([y] ++ l) in Hp.
    by apply Permutation_app_inv_r, Permutation_length_1 in Hp.
Qed.

Lemma shuffle_keeps {A} n fuel (l p : list A) draws :
  (n <= length l)%nat -> Z.of_nat (length l) <= i32_max -> choices n draws ->
  shuffle_from fuel n l draws = Ok (p, []) -> drop n p = drop n l.
Proof.
  revert l draws. induction n as [|[|n] IH]; intros l ds Hn Hl Hc Hs;
    [by simplify_eq/=|by simplify_eq/=|].
  destruct ds as [|d ds]; [done|]. destruct Hc as [Hd Hc].
  destruct (shuffle_round n l d) as (y & l' & Hy & Hp & Hy' & Hk & He); [lia|done..|].
  rewrite (He _ _ _ _ ds) in Hs by done. pose proof (Permutation_length Hp).
  rewrite <- Hk. apply list_eq. intros k. rewrite !lookup_drop.
  apply (drop_eq_lookup _ _ (S n)); [|lia]. by apply (IH l' ds); [lia|lia|..].
Qed.

(** Whatever the last position is to hold, exactly one draw brings it there. *)
Lemma shuffle_from_choices {A} n fuel (l p : list A) :
  NoDup l -> l ≡ₚ p -> (n <= length l)%nat -> Z.of_nat (length l) <= i32_max -> drop n l = drop n p ->
  exists draws, (choices n draws /\ shuffle_from fuel n l draws = Ok (p, [])) /\
    forall draws', choices n draws' /\ shuffle_from fuel n l draws' = Ok (p, []) -> draws = draws'.
Proof.
  revert l. induction n as [|[|n] IH]; intros l Hnd Hp Hn Hl Hd.
  1,2: assert (l = p) as -> by (eapply perm_drop_one; [|done..]; lia);
    exists []; split; [done|]; by intros ? [-> _].
  pose proof (Permutation_length Hp) as Hlen.
  destruct (lookup_lt_is_Some_2 p (S n)) as [y Hy]; [lia|].
  assert (y ∈ l) as [j Hj]%list_elem_of_lookup by (rewrite Hp; by eapply list_elem_of_lookup_2).
  assert (j < S (S n))%nat as Hjn.
  { destruct (decide (S (S n) <= j)%nat) as [Hge|]; [|lia].
    rewrite (drop_eq_lookup l p _ j Hd Hge) in Hj.
    pose proof (NoDup_lookup p j (S n) y ltac:(by rewrite <- Hp) Hj Hy). lia. }
  destruct (shuffle_round n l (Z.of_nat j)) as (y' & l' & Hy' & Hp' & Hl' & Hk & He); [lia|done|lia|].
  rewrite Nat2Z.id in Hy'. assert (y' = y) as -> by congruence. pose proof (Permutation_length Hp').
  destruct (IH l') as (ds & [Hc Hs] & Hu); [by rewrite Hp'|by rewrite Hp'|lia|lia| |].
  { apply (drop_at _ _ _ y); [done..|]. by rewrite Hk. }
  exists (Z.of_nat j :: ds). split; [split; [split; [lia|done]|]|].
  { by rewrite (He _ _ _ _ ds). }
  intros [|d ds'] [Hc' Hs']; [done|]. destruct Hc' as [Hd' Hc'].
  destruct (shuffle_round n l d) as (z & l2 & Hz & Hp2 & Hl2 & Hk2 & He2); [lia|done..|].
  rewrite (He2 _ _ _ _ ds') in Hs' by done. pose proof (Permutation_length Hp2).
  assert (z = y) as ->.
  { pose proof (drop_eq_lookup p l2 (S n) (S n) ltac:(eapply shuffle_keeps; [..|done]; [lia|lia|done]) ltac:(lia)).
    congruence. }
  assert (Z.of_nat j = d) as <- by (pose proof (NoDup_lookup l _ _ y Hnd Hz Hj); lia).
  f_equal. apply Hu. split; [done|]. by rewrite <- (He _ _ fuel (Z.of_nat j :: ds') ds'), (He2 _ _ _ _ ds').
Qed.

(** Any generator that keeps its promises shuffles, by a permutation. *)
Section ShuffleReturns.
Context {R A : Type} `{!BoundedDraws R} (wf : R -> Prop) `{!InRange R wf} `{!Returns R wf}.

Lemma draw_ok bound r : wf r -> 0 < bound <= i32_max -> exists enough v r',
  0 <= v < bound /\ wf r' /\
  forall fuel, (enough <= fuel)%nat -> next_i32_bounded fuel bound r = Ok (v, r').
Proof.
  intros Hr Hb. destruct (draw_returns (wf := wf) bound r Hr Hb) as (n & v & r' & He).
  pose proof (draw_in_range (wf := wf) n bound r Hr Hb) as Hd. rewrite He in Hd by done.
  exists n, v, r'. by destruct Hd.
Qed.

Lemma shuffle_from_returns n (l : list A) r :
  wf r -> (n <= length l)%nat -> Z.of_nat (length l) <= i32_max -> exists enough p r',
  p ≡ₚ l /\ wf r' /\ forall fuel, (enough <= fuel)%nat -> shuffle_from fuel n l r = Ok (p, r').
Proof.
  revert l r. induction n as [|[|n] IH]; intros l r Hr Hn Hl; [by exists 0%nat, l, r..|].
  destruct (draw_ok (Z.of_nat (S (S n))) r Hr) as (k & v & r1 & Hv & Hr1 & Hd); [lia|].
  destruct (shuffle_round n l v) as (y & l' & _ & Hp & _ & _ & He); [lia|done..|].
  pose proof (Permutation_length Hp).
  destruct (IH l' r1) as (m & p & r2 & Hpp & Hr2 & Hs); [done|lia|lia|].
  exists (k `max` m)%nat, p, r2. split; [by rewrite Hpp|]. split; [done|].
  intros fuel Hf. rewrite (He _ _ fuel r r1) by (apply Hd; lia). apply Hs. lia.
Qed.
End ShuffleReturns.

(** ** Weighted choices *)

Section WeightedFacts.
Context {T : Type} (weight : T -> Z).

Lemma sum_weights_nonneg items : Forall (fun x => 0 <= weight x) items -> 0 <= sum_weights weight items.
Proof. unfold sum_weights. induction 1; simpl; lia. Qed.

(** The item chosen is the one whose share of the total holds the index. *)
Lemma weighted_item_exact items index :
  Forall (fun x => 0 <= weight x) items -> sum_weights weight items <= i32_max ->
  0 <= index < sum_weights weight items -> exists i x, items !! i = Some x /\
    get_weighted_item weight items index = Some x /\
    sum_weights weight (take i items) <= index < sum_weights weight (take (S i) items).
Proof.
  revert index. induction items as [|x items IH]; intros index Hw Hs Hi; [unfold sum_weights in Hi; simpl in Hi; lia|].
  apply Forall_cons in Hw as [Hx Hw]. pose proof (sum_weights_nonneg items Hw).
  unfold sum_weights in Hs, Hi, H; simpl in Hs, Hi. cbn [get_weighted_item].
  assert (i32 (index - weight x) = index - weight x) as ->
    by (apply wraps_id; [done|]; unfold is_s, i32_max in *; lia).
  destruct (Z.ltb_spec (index - weight x) 0).
  - exists 0%nat, x. split; [done|]. split; [done|]. unfold sum_weights. simpl. lia.
  - destruct (IH (index - weight x)) as (i & y & Hy & Hg & Hr); [done|unfold sum_weights; lia..|].
    exists (S i), y. split; [done|]. split; [done|]. unfold sum_weights in *. simpl in *. lia.
Qed.
End WeightedFacts.

(** ** Counting draws *)

Definition drawn {R} (m : run (Z * R)) : option Z :=
  match m with Ok (v, _) => Some v | _ => None end.

(** A set of [k] integers given by an injection *)
Lemma count_image (P : Z -> Prop) `{!forall i, Decision (P i)} lo n k (f : Z -> Z) :
  0 <= k -> (forall i, lo <= i < lo + n -> P i <-> exists q, 0 <= q < k /\ i = f q) ->
  (forall q, 0 <= q < k -> lo <= f q < lo + n) ->
  (forall q q', 0 <= q < k -> 0 <= q' < k -> f q = f q' -> q = q') ->
  length (filter P (seqZ lo n)) = Z.to_nat k.
Proof.
  intros Hk HP Hr Hf. transitivity (length (f <$> seqZ 0 k)); [|by rewrite length_fmap, length_seqZ].
  apply Permutation_length.
  apply NoDup_Permutation.
  - apply NoDup_filter, NoDup_seqZ.
  - apply (NoDup_fmap_2_strong f); [|apply NoDup_seqZ].
    intros q q' Hq%elem_of_seqZ Hq'%elem_of_seqZ. apply Hf; lia.
  - intros i. rewrite list_elem_of_filter, list_elem_of_fmap, elem_of_seqZ. split.
    + intros [Hi Hl]. apply (HP i) in Hi as (q & Hq & ->); [|done].
      exists q. split; [done|]. apply elem_of_seqZ. lia.
    + intros (q & -> & Hq%elem_of_seqZ). assert (lo <= f q < lo + n) by (apply Hr; lia).
      split; [|done]. apply HP; [done|]. exists q. split; [lia|done].
Qed.
