(* ===== verification/LegacyRandom.v ===== *)
(** * The linear congruential generator

    Models [steel-utils/src/random/legacy_random.rs]: [java.util.Random].  The
    draw with a bound is [bit_bounded] over the draw of 31 bits, which the
    generator of the decoration stage shares ([Xoroshiro.WorldgenRandom]).

    - [consume_count_is_loop]: skipping ahead by repeated squaring is drawing
      and discarding.
    - [orbit_reaches_zero]: the generator passes through the state 0, so that
      every bounded draw ends.
    - [bit_bounded_uniform]: every result has equally many of the words it is
      drawn from. *)

From Stdlib Require Import Lia ZArith SpecFloat.
From stdpp Require Import prelude list.
From S2P Require Import Prelude Floats Random.

(** ** Bounded draws from words of 31 bits *)

Section BitBounded.
Context {R : Type} (next31 : R -> Z * R).

Fixpoint bounded_loop (fuel : nat) (bound : Z) (r : R) : run (Z * R) :=
  match fuel with
  | O => Err OutOfFuel
  | S fuel =>
      let (i, r) := next31 r in
      let j := Z.rem i bound in
      if 0 <=? i32 (i32 (i - j) + i32 (bound - 1)) then Ok (j, r)
      else bounded_loop fuel bound r
  end.

Definition bit_bounded (fuel : nat) (bound : Z) (r : R) : run (Z * R) :=
  if Z.land bound (i32 (bound - 1)) =? 0 then
    let (x, r) := next31 r in
    Ok (i32 (Z.shiftr (i64 (bound * x)) 31), r)
  else bounded_loop fuel bound r.
End BitBounded.

(** ** The generator *)

Definition LCG_A : Z := 0x5DEECE66D.
Definition LCG_C : Z := 0xB.
Definition LCG_MASK : Z := 0xFFFFFFFFFFFF.

Record LegacyRandom := { seed : Z; lcg_gaussian : f64 }.

Definition legacy_from_seed (s : Z) : LegacyRandom :=
  {| seed := Z.land (Z.lxor (i64 s) LCG_A) LCG_MASK; lcg_gaussian := S754_nan |}.

Definition with_seed (s : Z) (r : LegacyRandom) : LegacyRandom :=
  {| seed := s; lcg_gaussian := lcg_gaussian r |}.

Definition set_seed (s : Z) (r : LegacyRandom) : LegacyRandom :=
  {| seed := Z.land (Z.lxor s 0x5DEECE66D) 0xFFFFFFFFFFFF; lcg_gaussian := S754_nan |}.

Definition next_random (r : LegacyRandom) : Z * LegacyRandom :=
  let l := u64 (seed r) in
  let m := Z.land (u64 (u64 (l * LCG_A) + LCG_C)) LCG_MASK in
  (i64 m, with_seed (i64 m) r).

Definition next (bits : Z) (r : LegacyRandom) : Z * LegacyRandom :=
  let (x, r) := next_random r in
  (i32 (Z.shiftr x (48 - bits)), r).

(** The loop of [skip]; a [u64] has at most 64 bits. *)
Fixpoint skip_loop (fuel : nat) (k acc_a acc_c base_a base_c : Z) : Z * Z :=
  match fuel with
  | O => (acc_a, acc_c)
  | S fuel =>
      if 0 <? k then
        let '(acc_a, acc_c) :=
          if Z.land k 1 =? 1 then
            (Z.land (u64 (base_a * acc_a)) LCG_MASK,
             Z.land (u64 (u64 (base_a * acc_c) + base_c)) LCG_MASK)
          else (acc_a, acc_c) in
        let base_c' := Z.land (u64 (u64 (base_a * base_c) + base_c)) LCG_MASK in
        let base_a' := Z.land (u64 (base_a * base_a)) LCG_MASK in
        skip_loop fuel (Z.shiftr k 1) acc_a acc_c base_a' base_c'
      else (acc_a, acc_c)
  end.

Definition skip (count : Z) (r : LegacyRandom) : LegacyRandom :=
  let '(acc_a, acc_c) := skip_loop 64 count 1 0 LCG_A LCG_C in
  let s := u64 (seed r) in
  with_seed (i64 (Z.land (u64 (u64 (acc_a * s) + acc_c)) LCG_MASK)) r.

Definition legacy_next_i32 (r : LegacyRandom) : Z * LegacyRandom := next 32 r.

Definition legacy_next_i64 (r : LegacyRandom) : Z * LegacyRandom :=
  let (i, r) := legacy_next_i32 r in
  let (j, r) := legacy_next_i32 r in
  (i64 (i64 (Z.shiftl i 32) + j), r).

Definition legacy_fork (r : LegacyRandom) : LegacyRandom * LegacyRandom :=
  let (s, r) := legacy_next_i64 r in
  (legacy_from_seed (u64 s), r).

#[export] Instance legacy_bounded : BoundedDraws LegacyRandom := bit_bounded (next 31).

Definition legacy_next_f32 (r : LegacyRandom) : f32 * LegacyRandom :=
  let (x, r) := next 24 r in
  (f32_mul (f32_of_int x) (f32_literal 59604645 (10 ^ 15)), r).

Definition legacy_next_f64 (r : LegacyRandom) : f64 * LegacyRandom :=
  let (hi, r) := next 26 r in
  let (lo, r) := next 27 r in
  let combined := Z.shiftl hi 27 + lo in
  (f64_mul (f64_of_int combined) (f64_div (f64_of_int 1) (f64_of_int (Z.shiftl 1 53))), r).

Definition legacy_next_bool (r : LegacyRandom) : bool * LegacyRandom :=
  let (x, r) := next 1 r in
  (negb (x =? 0), r).

Definition legacy_next_positional (r : LegacyRandom) : RandomSplitter * LegacyRandom :=
  let (s, r) := legacy_next_i64 r in
  (SplitLegacy {| legacy_seed := s |}, r).

Definition legacy_consume_count (count : Z) (r : LegacyRandom) : LegacyRandom :=
  if 0 <? count then skip (u64 count) r else r.

#[export] Instance legacy_random : Random LegacyRandom := {
  fork := legacy_fork;
  next_i32 := legacy_next_i32;
  next_i64 := legacy_next_i64;
  next_f32 := legacy_next_f32;
  next_f64 := legacy_next_f64;
  next_bool := legacy_next_bool;
  next_positional := legacy_next_positional;
  consume_count := legacy_consume_count
}.

Definition legacy_stored_gaussian (r : LegacyRandom) : option f64 :=
  if is_nan (lcg_gaussian r) then None else Some (lcg_gaussian r).
Definition legacy_store_gaussian (value : option f64) (r : LegacyRandom) : LegacyRandom :=
  {| seed := seed r; lcg_gaussian := default S754_nan value |}.

Definition legacy_next_gaussian (ln : f64 -> f64) : nat -> LegacyRandom -> run (f64 * LegacyRandom) :=
  calculate_gaussian ln legacy_stored_gaussian legacy_store_gaussian.

(** ** Seeds of large features *)

Definition set_large_feature_seed (s chunk_x chunk_z : Z) (r : LegacyRandom) : LegacyRandom :=
  let r := set_seed s r in
  let (x_mul, r) := legacy_next_i64 r in
  let (z_mul, r) := legacy_next_i64 r in
  set_seed (Z.lxor (Z.lxor (i64 (chunk_x * x_mul)) (i64 (chunk_z * z_mul))) s) r.

Definition set_large_feature_with_salt (s x z salt : Z) (r : LegacyRandom) : LegacyRandom :=
  set_seed (i64 (i64 (i64 (i64 (x * 341873128712) + i64 (z * 132897987541)) + s) + salt)) r.

(** ** Bounded draws are in range and uniform *)

Section BitBoundedFacts.
Context {R : Type} (next31 : R -> Z * R).

(** A word is accepted unless it lies in the last, incomplete, run of [bound]. *)
Lemma bounded_loop_step fuel bound r :
  0 <= (next31 r).1 < 2 ^ 31 -> 0 < bound <= i32_max ->
  bounded_loop next31 (S fuel) bound r =
  if (next31 r).1 - (next31 r).1 mod bound + bound <=? 2 ^ 31
  then Ok ((next31 r).1 mod bound, (next31 r).2)
  else bounded_loop next31 fuel bound (next31 r).2.
Proof.
  intros Hi Hb. cbn [bounded_loop]. destruct (next31 r) as [i r']. cbn [fst snd] in *.
  unfold i32_max in Hb. rewrite Z.rem_mod_nonneg by lia.
  pose proof (Z.mod_pos_bound i bound ltac:(lia)). pose proof (Z.mod_le i bound ltac:(lia) ltac:(lia)).
  unfold i32. rewrite !(wraps_id 32 (i - _)), (wraps_id 32 (bound - 1)) by (try done; unfold is_s; lia).
  assert ((0 <=? wraps 32 (i - i mod bound + (bound - 1))) = (i - i mod bound + bound <=? 2 ^ 31)) as ->; [|done].
  destruct (Z.leb_spec (i - i mod bound + bound) (2 ^ 31)).
  - rewrite wraps_id by (try done; unfold is_s; lia). apply Z.leb_le. lia.
  - apply Z.leb_gt. unfold wraps.
    rewrite (Z.mod_eq _ (2 ^ 32)) by done.
    assert ((i - i mod bound + (bound - 1) + 2 ^ (32 - 1)) / 2 ^ 32 = 1) as ->; [|lia].
    symmetry. apply (Z.div_unique _ _ 1 (i - i mod bound + (bound - 1) + 2 ^ 31 - 2 ^ 32)); lia.
Qed.

Lemma bit_bounded_pow2 fuel bound r :
  0 <= (next31 r).1 < 2 ^ 31 -> 0 < bound <= i32_max -> Z.land bound (i32 (bound - 1)) = 0 ->
  bit_bounded next31 fuel bound r = Ok (bound * (next31 r).1 / 2 ^ 31, (next31 r).2).
Proof.
  intros Hi Hb Hp. unfold bit_bounded. rewrite Hp. destruct (next31 r) as [x r']. cbn [fst snd] in *.
  unfold i32_max in Hb. simpl. unfold i64, i32.
  rewrite (wraps_id 64) by (try done; unfold is_s; simpl; nia).
  rewrite Z.shiftr_div_pow2 by done.
  assert (0 <= bound * x / 2 ^ 31 < bound).
  { split; [apply Z.div_pos; nia|]. apply Z.div_lt_upper_bound; nia. }
  rewrite (wraps_id 32) by (try done; unfold is_s; lia). done.
Qed.
End BitBoundedFacts.

(** A power of two divides the range of the words. *)
Lemma pow2_split bound : 0 < bound <= i32_max -> Z.land bound (i32 (bound - 1)) = 0 ->
  2 ^ 31 = bound * (2 ^ 31 / bound).
Proof.
  intros Hb Hl. unfold i32_max in Hb. unfold i32 in Hl. rewrite wraps_id in Hl by (try done; unfold is_s; lia).
  pose proof (Z.log2_spec bound ltac:(lia)) as [Hlo Hhi]. pose proof (Z.log2_nonneg bound).
  assert (bound = 2 ^ Z.log2 bound) as Hp.
  { destruct (Z.eq_dec bound (2 ^ Z.log2 bound)); [done|].
    assert (Z.log2 (bound - 1) = Z.log2 bound) as Heq by (apply Z.log2_unique; lia).
    assert (Z.testbit (Z.land bound (bound - 1)) (Z.log2 bound) = true) as Ht; [|by rewrite Hl, Z.bits_0 in Ht].
    rewrite Z.land_spec, Z.bit_log2 by lia. rewrite <- Heq. apply Z.bit_log2. pose proof (Z.pow_gt_1 2 1). lia. }
  assert (Z.log2 bound < 31) by (apply Z.log2_lt_pow2; lia).
  rewrite Hp at 1. set (l := Z.log2 bound) in *. rewrite Hp.
  replace (2 ^ 31) with (2 ^ (31 - l) * 2 ^ l) by (rewrite <- Z.pow_add_r by lia; f_equal; lia).
  rewrite Z.div_mul by (apply Z.pow_nonzero; lia). lia.
Qed.

(** Exactly [2^31 / bound] words give each result. *)
Lemma bit_bounded_count bound v : 0 < bound <= i32_max -> 0 <= v < bound ->
  length (filter (fun i => drawn (bit_bounded (fun i : Z => (i, i)) 1 bound i) = Some v) (seqZ 0 (2 ^ 31))) =
  Z.to_nat (2 ^ 31 / bound).
Proof.
  intros Hb Hv. pose proof Hb as Hb'. unfold i32_max in Hb'.
  pose proof (Z.mul_div_le (2 ^ 31) bound ltac:(lia)) as Hle.
  assert (0 <= 2 ^ 31 / bound) by (apply Z.div_pos; lia).
  destruct (Z.eq_dec (Z.land bound (i32 (bound - 1))) 0) as [Hp|Hp].
  - pose proof (pow2_split bound Hb Hp) as Hs. set (w := 2 ^ 31 / bound) in *.
    apply (count_image _ 0 _ _ (fun q => v * w + q)); [done| |nia|lia].
    intros i Hi. rewrite bit_bounded_pow2 by (done || simpl; lia). simpl.
    assert (Hdiv : bound * i / 2 ^ 31 = i / w) by (rewrite Hs, Z.div_mul_cancel_l by nia; done).
    rewrite Z.add_0_l in Hi. split.
    + intros [= He]. simpl in Hdiv. rewrite Hdiv in He. exists (i - v * w). pose proof (Z.div_mod i w ltac:(nia)).
      pose proof (Z.mod_pos_bound i w ltac:(nia)). nia.
    + intros (q & Hq & ->). f_equal. simpl in Hdiv. rewrite Hdiv. rewrite Z.div_add_l, Z.div_small by nia. lia.
  - apply (count_image _ 0 _ _ (fun q => bound * q + v)); [done| |nia|nia].
    intros i Hi. unfold bit_bounded. rewrite (proj2 (Z.eqb_neq _ _)) by done.
    rewrite bounded_loop_step by (done || simpl; lia). cbn [fst snd].
    pose proof (Z.div_mod i bound ltac:(lia)) as Hdm. pose proof (Z.mod_pos_bound i bound ltac:(lia)).
    destruct (Z.leb_spec (i - i mod bound + bound) (2 ^ 31)); cbn [drawn bounded_loop].
    + split.
      * intros [= <-]. exists (i / bound). split; [|lia]. split; [apply Z.div_pos; lia|].
        assert (i / bound + 1 <= 2 ^ 31 / bound); [|lia]. apply Z.div_le_lower_bound; lia.
      * intros (q & Hq & Hiq). f_equal. rewrite Hiq, Z.add_comm, Z.mul_comm, Z.mod_add by lia. by apply Z.mod_small.
    + split; [done|]. intros (q & Hq & Hiq).
      assert (i mod bound = v) as Hm by (rewrite Hiq, Z.add_comm, Z.mul_comm, Z.mod_add by lia; by apply Z.mod_small).
      nia.
Qed.

(** ** The state *)

Definition M : Z := 2 ^ 48.
Definition lcg (s : Z) : Z := (LCG_A * s + LCG_C) mod M.
Definition seeded (r : LegacyRandom) : Prop := 0 <= seed r < M.

Lemma mask_mod z : Z.land (u64 z) LCG_MASK = z mod M.
Proof.
  change LCG_MASK with (Z.ones 48). rewrite Z.land_ones by done. unfold u64, wrapu.
  apply Z.mod_mod_divide. by exists (2 ^ 16).
Qed.

Lemma u64_add_l a b : u64 (u64 a + b) = u64 (a + b).
Proof. unfold u64, wrapu. by rewrite Z.add_mod_idemp_l. Qed.

Lemma mod_range z : 0 <= z mod M < M.
Proof. by apply Z.mod_pos_bound. Qed.

Lemma masked_range z : 0 <= Z.land z LCG_MASK < M.
Proof. change LCG_MASK with (Z.ones 48). rewrite Z.land_ones by done. apply mod_range. Qed.

Lemma i64_state z : 0 <= z < M -> i64 z = z.
Proof. intros. apply wraps_id; [done|]. unfold is_s, M in *. simpl. lia. Qed.

Lemma u64_state z : 0 <= z < M -> u64 z = z.
Proof. intros. apply wrapu_id. unfold is_u, M in *. lia. Qed.

Lemma next_random_eq r : seeded r -> next_random r = (lcg (seed r), with_seed (lcg (seed r)) r).
Proof.
  intros Hr. unfold next_random. rewrite u64_add_l, mask_mod, u64_state, Z.mul_comm by done.
  by rewrite i64_state by apply mod_range.
Qed.

Lemma lcg_range s : 0 <= lcg s < M.
Proof. apply mod_range. Qed.

Lemma seeded_new s : seeded (legacy_from_seed s).
Proof. apply masked_range. Qed.

Lemma seeded_set s r : seeded (set_seed s r).
Proof. apply masked_range. Qed.

(** A draw of [bits] bits is the top of the next state. *)
Lemma next_eq bits r : seeded r -> 0 < bits < 32 ->
  next bits r = (lcg (seed r) / 2 ^ (48 - bits), with_seed (lcg (seed r)) r) /\
  0 <= lcg (seed r) / 2 ^ (48 - bits) < 2 ^ bits.
Proof.
  intros Hr Hb. unfold next. rewrite next_random_eq, Z.shiftr_div_pow2 by (done || lia).
  pose proof (lcg_range (seed r)) as Hl.
  assert (0 <= lcg (seed r) / 2 ^ (48 - bits) < 2 ^ bits) as Hq.
  { split; [apply Z.div_pos; [lia|]; apply Z.pow_pos_nonneg; lia|].
    apply Z.div_lt_upper_bound; [apply Z.pow_pos_nonneg; lia|].
    rewrite <- Z.pow_add_r by lia. replace (48 - bits + bits) with 48 by lia. apply Hl. }
  split; [|done]. f_equal. apply wraps_id; [done|]. unfold is_s.
  assert (2 ^ bits <= 2 ^ (32 - 1)) by (apply Z.pow_le_mono_r; lia). lia.
Qed.

Lemma next_seeded bits r : seeded r -> seeded (next bits r).2.
Proof.
  intros Hr. unfold next. rewrite next_random_eq by done. simpl. apply lcg_range.
Qed.

(** ** Skipping *)

(** The affine map [s -> a s + c] is [n] steps. *)
Definition steps (n : nat) (a c : Z) : Prop :=
  forall s, 0 <= s < M -> (a * s + c) mod M = Nat.iter n lcg s.

Lemma iter_lcg_range n s : 0 <= s < M -> 0 <= Nat.iter n lcg s < M.
Proof. destruct n; [done|]. intros _. apply lcg_range. Qed.

Lemma steps_zero : steps 0 1 0.
Proof. intros s Hs. simpl. rewrite Z.mod_small; lia. Qed.

Lemma steps_one : steps 1 LCG_A LCG_C.
Proof. done. Qed.

Lemma steps_compose n m a c b d : steps n a c -> steps m b d ->
  steps (m + n) ((b * a) mod M) ((b * c + d) mod M).
Proof.
  intros Hn Hm s Hs. rewrite Nat.iter_add, <- Hn by done. rewrite <- Hm by apply mod_range.
  rewrite Z.add_mod_idemp_r, <- (Z.add_mod_idemp_l (_ * s)), Z.mul_mod_idemp_l, Z.add_mod_idemp_l by done.
  rewrite <- (Z.add_mod_idemp_l (b * _)), Z.mul_mod_idemp_r, Z.add_mod_idemp_l by done. f_equal. lia.
Qed.

Lemma skip_loop_steps fuel k n m a c b d :
  0 <= k < 2 ^ Z.of_nat fuel -> steps n a c -> steps m b d ->
  let '(a', c') := skip_loop fuel k a c b d in steps (n + Z.to_nat k * m) a' c'.
Proof.
  revert k n m a c b d. induction fuel as [|fuel IH]; intros k n m a c b d Hk Hn Hm.
  { simpl in *. assert (k = 0) as -> by lia. by rewrite Nat.add_0_r. }
  cbn [skip_loop]. destruct (Z.ltb_spec 0 k) as [Hpos|].
  2: { assert (k = 0) as -> by lia. by rewrite Nat.add_0_r. }
  rewrite !u64_add_l, !mask_mod. change 1 with (Z.ones 1) at 1. rewrite Z.land_ones by done.
  rewrite Z.shiftr_div_pow2 by done. change (2 ^ 1) with 2.
  assert (Hk2 : 0 <= k / 2 < 2 ^ Z.of_nat fuel).
  { rewrite Nat2Z.inj_succ, Z.pow_succ_r in Hk by lia. split; [apply Z.div_pos; lia|].
    apply Z.div_lt_upper_bound; lia. }
  pose proof (steps_compose _ _ _ _ _ _ Hm Hm) as Hmm.
  pose proof (Z.div_mod k 2 ltac:(lia)). pose proof (Z.mod_pos_bound k 2 ltac:(lia)).
  destruct (Z.eqb_spec (k mod 2) 1) as [Ho|Ho].
  - pose proof (steps_compose _ _ _ _ _ _ Hn Hm) as Hnm.
    specialize (IH (k / 2) _ _ _ _ _ _ Hk2 Hnm Hmm). destruct (skip_loop _ _ _ _ _ _) as [a' c'].
    replace (n + Z.to_nat k * m)%nat with (m + n + Z.to_nat (k / 2) * (m + m))%nat; [done|].
    replace (Z.to_nat k) with (1 + 2 * Z.to_nat (k / 2))%nat by lia. lia.
  - specialize (IH (k / 2) _ _ _ _ _ _ Hk2 Hn Hmm). destruct (skip_loop _ _ _ _ _ _) as [a' c'].
    replace (n + Z.to_nat k * m)%nat with (n + Z.to_nat (k / 2) * (m + m))%nat; [done|].
    replace (Z.to_nat k) with (2 * Z.to_nat (k / 2))%nat by lia. lia.
Qed.

Lemma skip_eq count r : seeded r -> is_u 64 count ->
  skip count r = with_seed (Nat.iter (Z.to_nat count) lcg (seed r)) r.
Proof.
  intros Hr Hc. unfold skip.
  pose proof (skip_loop_steps 64 count 0 1 1 0 LCG_A LCG_C Hc steps_zero steps_one) as Hs.
  destruct (skip_loop _ _ _ _ _ _) as [a c]. rewrite u64_add_l, mask_mod, u64_state, i64_state by (done || apply mod_range).
  f_equal. rewrite Hs by done. f_equal. lia.
Qed.

Lemma with_seed_id r : with_seed (seed r) r = r.
Proof. by destruct r. Qed.

Lemma next_i32_state r : seeded r -> (next_i32 r).2 = with_seed (lcg (seed r)) r.
Proof. intros Hr. change (next_i32 r) with (next 32 r). unfold next. by rewrite next_random_eq. Qed.

Lemma consume_each_eq n r : seeded r ->
  Nat.iter n (fun r => (next_i32 r).2) r = with_seed (Nat.iter n lcg (seed r)) r.
Proof.
  intros Hr. induction n as [|n IH]; [symmetry; apply with_seed_id|]. rewrite !Nat.iter_succ, IH.
  by rewrite next_i32_state by apply (iter_lcg_range n (seed r) Hr).
Qed.

(** ** Every bounded draw returns *)

(** The maps of 1, 2, 4, ... steps *)
Fixpoint doublings (n : nat) (a c : Z) : list (Z * Z) :=
  match n with
  | O => []
  | S n => (a, c) :: doublings n ((a * a) mod M) ((a * c + c) mod M)
  end.

Lemma doublings_steps n a c m e x y :
  steps m a c -> doublings n a c !! e = Some (x, y) -> steps (2 ^ e * m) x y.
Proof.
  revert a c m e. induction n as [|n IH]; intros a c m e Hs He; [done|].
  destruct e as [|e]; simpl in He; [simplify_eq; by replace (2 ^ 0 * m)%nat with m by (simpl; lia)|].
  replace (2 ^ S e * m)%nat with (2 ^ e * (m + m))%nat by (simpl; lia).
  apply (IH _ _ _ _ (steps_compose _ _ _ _ _ _ Hs Hs) He).
Qed.

(** [2^e] steps leave the low [e] bits and flip the next one. *)
Lemma doublings_flip : forallb (fun '(e, (a, c)) => (a mod 2 =? 1) && (c mod 2 ^ (Z.of_nat e + 1) =? 2 ^ Z.of_nat e))
  (imap pair (doublings 48 LCG_A LCG_C)) = true.
Proof. vm_compute. reflexivity. Qed.

Lemma clear_bit e a c s : doublings 48 LCG_A LCG_C !! e = Some (a, c) ->
  (2 ^ Z.of_nat e | s) -> ~ (2 ^ (Z.of_nat e + 1) | s) -> (2 ^ (Z.of_nat e + 1) | a * s + c).
Proof.
  intros He [k Hk] Hn. pose proof doublings_flip as Hf. rewrite forallb_forall in Hf.
  specialize (Hf (e, (a, c))). rewrite <- list_elem_of_In in Hf. specialize (Hf ltac:(apply elem_of_lookup_imap; eauto)).
  apply andb_true_iff in Hf as [Ha%Z.eqb_eq Hc%Z.eqb_eq].
  set (p := 2 ^ Z.of_nat e) in *. assert (0 < p) by (apply Z.pow_pos_nonneg; lia).
  assert (Hp : 2 ^ (Z.of_nat e + 1) = 2 * p) by (rewrite Z.pow_add_r by lia; unfold p; lia).
  rewrite Hp in *. pose proof (Z.div_mod c (2 * p) ltac:(lia)) as Hcd. rewrite Hc in Hcd.
  pose proof (Z.div_mod a 2 ltac:(lia)) as Had. rewrite Ha in Had.
  pose proof (Z.div_mod k 2 ltac:(lia)) as Hkd. pose proof (Z.mod_pos_bound k 2 ltac:(lia)).
  assert (k mod 2 = 1) as Hko.
  { destruct (Z.eq_dec (k mod 2) 0) as [Hz|]; [|lia]. destruct Hn. exists (k / 2). rewrite Hk, Hkd at 1. rewrite Hz. lia. }
  rewrite Hko in Hkd. set (a2 := a / 2) in *. set (k2 := k / 2) in *. set (c2 := c / (2 * p)) in *.
  exists (2 * a2 * k2 + a2 + k2 + 1 + c2). rewrite Hcd, Had, Hk, Hkd. lia.
Qed.

Lemma orbit_clears e s : (e <= 48)%nat -> 0 <= s < M -> exists n, (2 ^ Z.of_nat e | Nat.iter n lcg s).
Proof.
  intros He Hs. induction e as [|e IH]; [exists 0%nat; apply Z.divide_1_l|].
  destruct IH as [n Hn]; [lia|]. set (t := Nat.iter n lcg s) in *.
  assert (0 <= t < M) as Ht by by apply iter_lcg_range.
  rewrite Nat2Z.inj_succ. change (Z.succ (Z.of_nat e)) with (Z.of_nat e + 1).
  destruct (Z.eq_dec (t mod 2 ^ (Z.of_nat e + 1)) 0) as [Hz|Hz].
  { exists n. apply Z.mod_divide; [apply Z.pow_nonzero; lia|done]. }
  destruct (doublings 48 LCG_A LCG_C !! e) as [[a c]|] eqn:Ed.
  2: { apply lookup_ge_None in Ed. vm_compute in Ed. lia. }
  exists (2 ^ e * 1 + n)%nat. rewrite Nat.iter_add. fold t.
  rewrite <- (doublings_steps _ _ _ _ _ _ _ steps_one Ed t Ht).
  rewrite Z.mod_eq by done. apply Z.divide_sub_r.
  - apply (clear_bit e a c t Ed Hn). rewrite <- Z.mod_divide; [done|apply Z.pow_nonzero; lia].
  - apply Z.divide_mul_l. exists (2 ^ (48 - (Z.of_nat e + 1))). rewrite <- Z.pow_add_r by lia. unfold M. f_equal. lia.
Qed.

(** From every state the generator comes to the state 0. *)
Lemma orbit_reaches_zero s : 0 <= s < M -> exists n, Nat.iter n lcg s = 0.
Proof.
  intros Hs. destruct (orbit_clears 48 s) as [n [k Hk]]; [done..|]. exists n.
  pose proof (iter_lcg_range n s Hs) as Hr. change (2 ^ Z.of_nat 48) with M in Hk. unfold M in *. nia.
Qed.

(** [bit_bounded] keeps the promises of bounded draws if its words are in range. *)
Section Promises.
Context {R : Type} (next31 : R -> Z * R) (wf : R -> Prop).
Context (word_range : forall r, wf r -> 0 <= (next31 r).1 < 2 ^ 31) (word_wf : forall r, wf r -> wf (next31 r).2).

Lemma bounded_loop_range fuel bound r : wf r -> 0 < bound <= i32_max ->
  match bounded_loop next31 fuel bound r with
  | Ok (v, r') => 0 <= v < bound /\ wf r'
  | Err OutOfFuel => True
  | Panic => False
  end.
Proof.
  intros Hr Hb. revert r Hr. induction fuel as [|fuel IH]; intros r Hr; [done|].
  rewrite bounded_loop_step by auto. destruct (_ <=? _); [|by apply IH, word_wf].
  split; [apply Z.mod_pos_bound; lia|by apply word_wf].
Qed.

Lemma bit_bounded_range fuel bound r : wf r -> 0 < bound <= i32_max ->
  match bit_bounded next31 fuel bound r with
  | Ok (v, r') => 0 <= v < bound /\ wf r'
  | Err OutOfFuel => True
  | Panic => False
  end.
Proof.
  intros Hr Hb. destruct (Z.eq_dec (Z.land bound (i32 (bound - 1))) 0) as [Hp|Hp].
  - rewrite bit_bounded_pow2 by auto. pose proof (word_range r Hr). split; [|by apply word_wf].
    split; [apply Z.div_pos; lia|]. apply Z.div_lt_upper_bound; nia.
  - unfold bit_bounded. rewrite (proj2 (Z.eqb_neq _ _)) by done. by apply bounded_loop_range.
Qed.

(** The loop ends at a word that is 0, if not before. *)
Lemma bounded_loop_ends n bound r : wf r -> 0 < bound <= i32_max ->
  (next31 (Nat.iter n (fun r => (next31 r).2) r)).1 = 0 -> exists v r',
  forall fuel, (S n <= fuel)%nat -> bounded_loop next31 fuel bound r = Ok (v, r').
Proof.
  intros Hr Hb. revert r Hr. induction n as [|n IH]; intros r Hr Hz.
  - simpl in Hz. eexists _, _. intros [|fuel] Hf; [lia|]. rewrite bounded_loop_step, Hz by auto.
    rewrite Z.mod_0_l by lia. unfold i32_max in Hb. by zbool.
  - rewrite Nat.iter_succ_r in Hz. destruct (IH (next31 r).2) as (v & r' & He); [by apply word_wf|done|].
    destruct ((next31 r).1 - (next31 r).1 mod bound + bound <=? 2 ^ 31) eqn:Ea.
    + eexists _, _. intros [|fuel] Hf; [lia|]. by rewrite bounded_loop_step, Ea by auto.
    + exists v, r'. intros [|fuel] Hf; [lia|]. rewrite bounded_loop_step, Ea by auto. apply He. lia.
Qed.
End Promises.

Lemma word31_range r : seeded r -> 0 <= (next 31 r).1 < 2 ^ 31.
Proof. intros Hr. by destruct (next_eq 31 r Hr) as [-> ?]. Qed.

#[export] Instance legacy_in_range : InRange LegacyRandom seeded.
Proof. intros fuel bound r. apply bit_bounded_range; [apply word31_range|apply next_seeded]. Qed.

#[export] Instance legacy_returns : Returns LegacyRandom seeded.
Proof.
  intros bound r Hr Hb. unfold next_i32_bounded, legacy_bounded, bit_bounded.
  destruct (_ =? 0).
  { destruct (next 31 r) as [x r']. by exists 0%nat, (i32 (Z.shiftr (i64 (bound * x)) 31)), r'. }
  destruct (orbit_reaches_zero (lcg (seed r)) (lcg_range _)) as [n Hn].
  destruct (bounded_loop_ends (next 31) seeded word31_range (next_seeded 31) n bound r Hr Hb) as (v & r' & He); [|eauto].
  assert (Hit : forall k, Nat.iter k (fun r => (next 31 r).2) r = with_seed (Nat.iter k lcg (seed r)) r).
  { induction k as [|k IH]; [symmetry; apply with_seed_id|]. rewrite !Nat.iter_succ, IH. unfold next.
    by rewrite next_random_eq by apply (iter_lcg_range k (seed r) Hr). }
  rewrite Hit. pose proof (next_eq 31 (with_seed (Nat.iter n lcg (seed r)) r) (iter_lcg_range n (seed r) Hr)) as [-> _]; [lia|].
  cbn [fst seed with_seed]. rewrite <- Nat.iter_succ, Nat.iter_succ_r, Hn. done.
Qed.

(** ** Fractions *)

(** A draw in [0, 1) is a whole number of the last place, exactly. *)
Lemma legacy_f32_exact r : seeded r -> exists n, 0 <= n < 2 ^ 24 /\
  (legacy_next_f32 r).1 = binary_normalize 24 128 n (-24) false.
Proof.
  intros Hr. destruct (next_eq 24 r Hr) as [He Hn]; [lia|]. eexists. split; [exact Hn|].
  unfold legacy_next_f32. rewrite He. cbn [fst].
  change (f32_literal 59604645 (10 ^ 15)) with (binary_normalize 24 128 1 (- (24)) false).
  apply (mul_pow2_exact 24 128); done.
Qed.

Lemma legacy_f64_exact r : seeded r -> exists n, 0 <= n < 2 ^ 53 /\
  (legacy_next_f64 r).1 = binary_normalize 53 1024 n (-53) false.
Proof.
  intros Hr. unfold legacy_next_f64. destruct (next_eq 26 r Hr) as [He Hn]; [lia|]. rewrite He.
  destruct (next_eq 27 (with_seed (lcg (seed r)) r)) as [He2 Hn2]; [apply lcg_range|lia|]. rewrite He2.
  eexists. split; [|cbn [fst]; change (f64_div _ _) with (binary_normalize 53 1024 1 (- (53)) false);
    apply (mul_pow2_exact 53 1024); [done|done| |done|done]]; rewrite Z.shiftl_mul_pow2 by done; lia.
Qed.

(** ** Properties *)

(** C31: Skipping ahead by repeated squaring leaves the generator as drawing and
    discarding every number does, for every count and every state. *)
Theorem consume_count_is_loop count r : seeded r -> is_s 32 count ->
  consume_count count r = consume_each count r.
Proof.
  intros Hr Hc. unfold is_s in Hc. unfold consume_each. rewrite consume_each_eq by done.
  unfold consume_count, legacy_random, legacy_consume_count. destruct (Z.ltb_spec 0 count).
  - assert (u64 count = count) as Hu by (apply wrapu_id; unfold is_u; lia).
    rewrite skip_eq by (try done; apply wrapu_range; lia). by rewrite Hu.
  - replace (Z.to_nat count) with 0%nat by lia. symmetry. apply with_seed_id.
Qed.

(** C24: Every draw with a positive bound returns, whatever the state and the
    bound, with a value below the bound; a larger amount of fuel changes
    nothing. *)
Theorem legacy_draws_return bound r : seeded r -> 0 < bound <= i32_max -> exists enough v r',
  0 <= v < bound /\ seeded r' /\
  forall fuel, (enough <= fuel)%nat -> next_i32_bounded fuel bound r = Ok (v, r').
Proof. apply draw_ok; apply _. Qed.

Module Example1.
Definition start : LegacyRandom := legacy_from_seed 0.

Lemma consume_count_is_loop_witness : consume_count 100 start = consume_each 100 start.
Proof. apply (consume_count_is_loop 100 start); [apply seeded_new|unfold is_s; lia]. Defined.

Lemma legacy_draws_return_witness : exists enough v r', 0 <= v < 15 /\ seeded r' /\
  forall fuel, (enough <= fuel)%nat -> next_i32_bounded fuel 15 start = Ok (v, r').
Proof. apply (legacy_draws_return 15 start); [apply seeded_new|unfold i32_max; lia]. Defined.

(** The values of the sources' tests *)
Lemma draws_of_seed_0 : (next_i32 start).1 = -1155484576 /\ (next_i64 start).1 = -4962768465676381896 /\
  drawn (next_i32_bounded 1 15 (next_i32 start).2) = Some 13.
Proof. vm_compute. auto. Qed.
End Example1.
