(* ===== verification/Xoroshiro.v ===== *)
(** * The xoroshiro generator

    Models [steel-utils/src/random/xoroshiro.rs] and the generator of the
    decoration stage over it, [worldgen_random.rs].

    - [xoroshiro_never_degenerates]: no generator that can be built ever has
      the state 0, and draws never bring two states together.
    - [xoro_bounded_count]: every result of a bounded draw has equally many of
      the words it is drawn from.
    - [decoration_seeds_distinct]: columns have decoration seeds of their own.

    Whether the rejection loop ends depends on the words to come: it returns
    at the first one that is accepted ([xoro_first_accepted]). *)

From Stdlib Require Import Lia ZArith SpecFloat Znumtheory Zpow_facts.
From stdpp Require Import prelude list.
From S2P Require Import Prelude Floats Random LegacyRandom.

Definition GOLDEN_RATIO_64 : Z := 0x9E3779B97F4A7C15.
Definition SILVER_RATIO_64 : Z := 0x6A09E667F3BCC909.

Record Xoroshiro := { seed_lo : Z; seed_hi : Z; xoro_gaussian : f64 }.

(** [u64::rotate_left] *)
Definition rotate_left (x n : Z) : Z := Z.lor (u64 (Z.shiftl x n)) (Z.shiftr x (64 - n)).

Definition mix_stafford_13 (z : Z) : Z :=
  let z := u64 (Z.lxor z (Z.shiftr z 30) * 0xBF58476D1CE4E5B9) in
  let z := u64 (Z.lxor z (Z.shiftr z 27) * 0x94D049BB133111EB) in
  Z.lxor z (Z.shiftr z 31).

Definition xoro_new (lo hi : Z) : Xoroshiro :=
  let '(lo, hi) := if Z.lor lo hi =? 0 then (GOLDEN_RATIO_64, SILVER_RATIO_64) else (lo, hi) in
  {| seed_lo := lo; seed_hi := hi; xoro_gaussian := S754_nan |}.

Definition upgrade_seed_to_128_bit (seed : Z) : Z * Z :=
  let lo := Z.lxor seed SILVER_RATIO_64 in
  (lo, u64 (lo + GOLDEN_RATIO_64)).

Definition xoro_from_seed (seed : Z) : Xoroshiro :=
  let (lo, hi) := upgrade_seed_to_128_bit seed in
  xoro_new (mix_stafford_13 lo) (mix_stafford_13 hi).

Definition from_seed_unmixed (seed : Z) : Xoroshiro :=
  let (lo, hi) := upgrade_seed_to_128_bit seed in
  xoro_new lo hi.

Definition xoro_set_seed (seed : Z) (r : Xoroshiro) : Xoroshiro := xoro_from_seed (u64 seed).

Definition xoro_next_random (r : Xoroshiro) : Z * Xoroshiro :=
  let l := seed_lo r in
  let m := seed_hi r in
  let n := u64 (rotate_left (u64 (l + m)) 17 + l) in
  let m := Z.lxor m l in
  (n, {| seed_lo := Z.lxor (Z.lxor (rotate_left l 49) m) (u64 (Z.shiftl m 21));
         seed_hi := rotate_left m 28;
         xoro_gaussian := xoro_gaussian r |}).

Definition xoro_next (bits : Z) (r : Xoroshiro) : Z * Xoroshiro :=
  let (n, r) := xoro_next_random r in
  (Z.shiftr n (64 - bits), r).

Definition xoro_fork (r : Xoroshiro) : Xoroshiro * Xoroshiro :=
  let (lo, r) := xoro_next_random r in
  let (hi, r) := xoro_next_random r in
  (xoro_new lo hi, r).

Definition xoro_next_i32 (r : Xoroshiro) : Z * Xoroshiro :=
  let (n, r) := xoro_next_random r in (i32 n, r).

(** ** Bounded draws from words of 32 bits *)

Section WordBounded.
Context {R : Type} (next_word : R -> Z * R).

Definition LOW_32 : Z := 0xFFFFFFFF.

(** The product [m] of a word and the bound *)
Definition word_product (w bound : Z) : Z := u64 (Z.land (u64 w) LOW_32 * u64 bound).

(** The loop while [n], the low half of [m], is below [i] *)
Fixpoint xoro_loop (fuel : nat) (bound i m : Z) (r : R) : run (Z * R) :=
  if Z.land m LOW_32 <? i then
    match fuel with
    | O => Err OutOfFuel
    | S fuel =>
        let (w, r) := next_word r in
        xoro_loop fuel bound i (word_product w bound) r
    end
  else Ok (i32 (Z.shiftr m 32), r).

Definition xoro_bounded (fuel : nat) (bound : Z) (r : R) : run (Z * R) :=
  let (w, r) := next_word r in
  let m := word_product w bound in
  if Z.land m LOW_32 <? u64 bound then
    let i := Z.rem (u32 (u32 (Z.lnot bound) + 1)) (u32 bound) in
    xoro_loop fuel bound i m r
  else Ok (i32 (Z.shiftr m 32), r).
End WordBounded.

#[export] Instance xoroshiro_bounded : BoundedDraws Xoroshiro := xoro_bounded xoro_next_i32.

Definition xoro_next_i64 (r : Xoroshiro) : Z * Xoroshiro :=
  let (n, r) := xoro_next_random r in (i64 n, r).

Definition xoro_next_f32 (r : Xoroshiro) : f32 * Xoroshiro :=
  let (x, r) := xoro_next 24 r in
  (f32_mul (f32_of_int x) (f32_literal 59604645 (10 ^ 15)), r).

Definition xoro_next_f64 (r : Xoroshiro) : f64 * Xoroshiro :=
  let (x, r) := xoro_next 53 r in
  (f64_mul (f64_of_int x) (f64_from_f32 (f32_literal 1110223 (10 ^ 22))), r).

Definition xoro_next_bool (r : Xoroshiro) : bool * Xoroshiro :=
  let (n, r) := xoro_next_random r in
  (negb (Z.land n 1 =? 0), r).

Definition xoro_next_positional (r : Xoroshiro) : RandomSplitter * Xoroshiro :=
  let (lo, r) := xoro_next_random r in
  let (hi, r) := xoro_next_random r in
  (SplitXoroshiro {| split_lo := lo; split_hi := hi |}, r).

#[export] Instance xoroshiro_random : Random Xoroshiro := {
  fork := xoro_fork;
  next_i32 := xoro_next_i32;
  next_i64 := xoro_next_i64;
  next_f32 := xoro_next_f32;
  next_f64 := xoro_next_f64;
  next_bool := xoro_next_bool;
  next_positional := xoro_next_positional;
  consume_count count := Nat.iter (Z.to_nat count) (fun r => (xoro_next_i32 r).2)
}.

Definition xoro_stored_gaussian (r : Xoroshiro) : option f64 :=
  if is_nan (xoro_gaussian r) then None else Some (xoro_gaussian r).
Definition xoro_store_gaussian (value : option f64) (r : Xoroshiro) : Xoroshiro :=
  {| seed_lo := seed_lo r; seed_hi := seed_hi r; xoro_gaussian := default S754_nan value |}.

Definition xoro_next_gaussian (ln : f64 -> f64) : nat -> Xoroshiro -> run (f64 * Xoroshiro) :=
  calculate_gaussian ln xoro_stored_gaussian xoro_store_gaussian.

(** ** The generator of the decoration stage *)

Record WorldgenRandom := { source : Xoroshiro; worldgen_gaussian : option f64 }.

Definition worldgen_from_seed (seed : Z) : WorldgenRandom :=
  {| source := xoro_from_seed seed; worldgen_gaussian := None |}.

Definition with_source (s : Xoroshiro) (r : WorldgenRandom) : WorldgenRandom :=
  {| source := s; worldgen_gaussian := worldgen_gaussian r |}.

Definition worldgen_set_seed (seed : Z) (r : WorldgenRandom) : WorldgenRandom :=
  with_source (xoro_set_seed seed (source r)) r.

Definition next_bits (bits : Z) (r : WorldgenRandom) : Z * WorldgenRandom :=
  let (n, s) := xoro_next_i64 (source r) in
  (Z.shiftr (u64 n) (64 - bits), with_source s r).

Definition worldgen_next_i32 (r : WorldgenRandom) : Z * WorldgenRandom :=
  let (n, r) := next_bits 32 r in (i32 n, r).

Definition worldgen_next_i64 (r : WorldgenRandom) : Z * WorldgenRandom :=
  let (upper, r) := worldgen_next_i32 r in
  let (lower, r) := worldgen_next_i32 r in
  (i64 (i64 (Z.shiftl upper 32) + lower), r).

Definition set_decoration_seed (seed block_x block_z : Z) (r : WorldgenRandom) : Z * WorldgenRandom :=
  let r := worldgen_set_seed seed r in
  let (x_scale, r) := worldgen_next_i64 r in
  let x_scale := Z.lor x_scale 1 in
  let (z_scale, r) := worldgen_next_i64 r in
  let z_scale := Z.lor z_scale 1 in
  let decoration_seed := Z.lxor (i64 (i64 (block_x * x_scale) + i64 (block_z * z_scale))) seed in
  (decoration_seed, worldgen_set_seed decoration_seed r).

Definition set_feature_seed (decoration_seed feature_index step : Z) (r : WorldgenRandom) : WorldgenRandom :=
  worldgen_set_seed (i64 (i64 (decoration_seed + feature_index) + i64 (10000 * step))) r.

Definition worldgen_fork (r : WorldgenRandom) : WorldgenRandom * WorldgenRandom :=
  let (forked, s) := xoro_fork (source r) in
  ({| source := forked; worldgen_gaussian := None |}, with_source s r).

(** The draw of 31 bits of [next_i32_bounded] *)
Definition worldgen_next31 (r : WorldgenRandom) : Z * WorldgenRandom :=
  let (n, r) := next_bits 31 r in (i32 n, r).

#[export] Instance worldgen_bounded : BoundedDraws WorldgenRandom := bit_bounded worldgen_next31.

Definition worldgen_next_f32 (r : WorldgenRandom) : f32 * WorldgenRandom :=
  let (x, r) := next_bits 24 r in
  (f32_mul (f32_of_int x) (f32_literal 59604645 (10 ^ 15)), r).

Definition worldgen_next_f64 (r : WorldgenRandom) : f64 * WorldgenRandom :=
  let (hi, r) := next_bits 26 r in
  let (lo, r) := next_bits 27 r in
  let combined := Z.shiftl hi 27 + lo in
  (f64_mul (f64_of_int combined) (f64_div (f64_of_int 1) (f64_of_int (Z.shiftl 1 53))), r).

Definition worldgen_next_bool (r : WorldgenRandom) : bool * WorldgenRandom :=
  let (n, r) := next_bits 1 r in (negb (n =? 0), r).

Definition worldgen_next_positional (r : WorldgenRandom) : RandomSplitter * WorldgenRandom :=
  let (splitter, s) := xoro_next_positional (source r) in (splitter, with_source s r).

#[export] Instance worldgen_random : Random WorldgenRandom := {
  fork := worldgen_fork;
  next_i32 := worldgen_next_i32;
  next_i64 := worldgen_next_i64;
  next_f32 := worldgen_next_f32;
  next_f64 := worldgen_next_f64;
  next_bool := worldgen_next_bool;
  next_positional := worldgen_next_positional;
  consume_count count := Nat.iter (Z.to_nat count) (fun r => (worldgen_next_i32 r).2)
}.

Definition worldgen_store_gaussian (value : option f64) (r : WorldgenRandom) : WorldgenRandom :=
  {| source := source r; worldgen_gaussian := value |}.

Definition worldgen_next_gaussian (ln : f64 -> f64) : nat -> WorldgenRandom -> run (f64 * WorldgenRandom) :=
  calculate_gaussian ln worldgen_gaussian worldgen_store_gaussian.

(** ** The state *)

Definition valid (r : Xoroshiro) : Prop :=
  is_u 64 (seed_lo r) /\ is_u 64 (seed_hi r) /\ ~ (seed_lo r = 0 /\ seed_hi r = 0).

Lemma is_u_lxor w a b : 0 <= w -> is_u w a -> is_u w b -> is_u w (Z.lxor a b).
Proof.
  intros Hw Ha Hb. assert (Z.lxor a b = wrapu w (Z.lxor a b)) as ->; [|by apply wrapu_range].
  unfold wrapu. rewrite <- Z.land_ones by done. apply Z.bits_inj'. intros i Hi. bits.
  destruct (Z.ltb_spec i w); [by rewrite andb_true_r|].
  by rewrite (testbit_high w a), (testbit_high w b) by (done || lia).
Qed.

Lemma u64_word z : is_u 64 (u64 z).
Proof. by apply wrapu_range. Qed.

Lemma shiftr_range w x n : 0 <= w -> 0 <= n -> is_u w x -> is_u w (Z.shiftr x n).
Proof.
  intros Hw Hn [H0 H1]. rewrite Z.shiftr_div_pow2 by done. assert (0 < 2 ^ n) by (apply Z.pow_pos_nonneg; lia).
  split; [by apply Z.div_pos|]. apply Z.le_lt_trans with x; [|done]. apply Z.div_le_upper_bound; nia.
Qed.

Lemma rotate_range x n : is_u 64 x -> 0 <= n <= 64 -> is_u 64 (rotate_left x n).
Proof. intros. apply is_u_lor; [done|apply u64_word|apply shiftr_range; (done || lia)]. Qed.

Lemma rotate_bit x n i : is_u 64 x -> 0 < n < 64 -> 0 <= i < 64 ->
  Z.testbit (rotate_left x n) i = Z.testbit x (if i <? n then i + (64 - n) else i - n).
Proof.
  intros Hx Hn Hi. unfold rotate_left, u64, wrapu. rewrite <- Z.land_ones by done. bits.
  rewrite (proj2 (Z.ltb_lt i 64)), andb_true_r by lia. destruct (Z.ltb_spec i n).
  - by rewrite Z.testbit_neg_r by lia.
  - rewrite (testbit_high 64 x (i + (64 - n))) by (done || lia). apply orb_false_r.
Qed.

Lemma word_bits x y : is_u 64 x -> is_u 64 y ->
  (forall i, 0 <= i < 64 -> Z.testbit x i = Z.testbit y i) -> x = y.
Proof.
  intros Hx Hy He. apply Z.bits_inj'. intros i Hi. destruct (Z.lt_ge_cases i 64); [by apply He|].
  by rewrite !(testbit_high 64) by (done || lia).
Qed.

Lemma rotate_inj x y n : is_u 64 x -> is_u 64 y -> 0 < n < 64 -> rotate_left x n = rotate_left y n -> x = y.
Proof.
  intros Hx Hy Hn He. apply word_bits; [done..|]. intros i Hi.
  pose proof (f_equal (fun z => Z.testbit z (if i <? 64 - n then i + n else i - (64 - n))) He) as Hb. simpl in Hb.
  destruct (Z.ltb_spec i (64 - n)).
  - rewrite !rotate_bit in Hb by (done || lia). rewrite (proj2 (Z.ltb_ge (i + n) n)) in Hb by lia.
    by replace (i + n - n) with i in Hb by lia.
  - rewrite !rotate_bit in Hb by (done || lia). rewrite (proj2 (Z.ltb_lt (i - (64 - n)) n)) in Hb by lia.
    by replace (i - (64 - n) + (64 - n)) with i in Hb by lia.
Qed.

Lemma rotate_zero n : 0 <= n <= 64 -> rotate_left 0 n = 0.
Proof. intros. unfold rotate_left. by rewrite Z.shiftl_0_l, Z.shiftr_0_l. Qed.

Lemma lxor_cancel_r a b c : Z.lxor a c = Z.lxor b c -> a = b.
Proof.
  intros He. apply (f_equal (fun z => Z.lxor z c)) in He.
  by rewrite !Z.lxor_assoc, !Z.lxor_nilpotent, !Z.lxor_0_r in He.
Qed.

(** The linear part of a step loses nothing. *)
Lemma step_inj r r' : is_u 64 (seed_lo r) -> is_u 64 (seed_hi r) -> is_u 64 (seed_lo r') -> is_u 64 (seed_hi r') ->
  seed_lo (xoro_next_random r).2 = seed_lo (xoro_next_random r').2 ->
  seed_hi (xoro_next_random r).2 = seed_hi (xoro_next_random r').2 ->
  seed_lo r = seed_lo r' /\ seed_hi r = seed_hi r'.
Proof.
  intros Hl Hh Hl' Hh' Hlo Hhi. simpl in *.
  apply rotate_inj in Hhi; [|by apply is_u_lxor..|done]. rewrite Hhi in Hlo.
  apply lxor_cancel_r, lxor_cancel_r, rotate_inj in Hlo; [|done..]. split; [done|].
  rewrite Hlo in Hhi. by apply lxor_cancel_r in Hhi.
Qed.

Lemma step_valid r : valid r -> valid (xoro_next_random r).2.
Proof.
  intros (Hl & Hh & Hn). simpl. split; [|split]; cbn [seed_lo seed_hi].
  - apply is_u_lxor; [done| |apply u64_word].
    apply is_u_lxor; [done|by apply rotate_range|by apply is_u_lxor].
  - apply rotate_range; [by apply is_u_lxor|done].
  - intros [Hlo Hhi]. apply Hn.
    set (z := {| seed_lo := 0; seed_hi := 0; xoro_gaussian := S754_nan |}).
    apply (step_inj r z); [done|done|done|done| |]; simpl; [rewrite Hlo|rewrite Hhi]; vm_compute; reflexivity.
Qed.

Lemma new_valid lo hi : is_u 64 lo -> is_u 64 hi -> valid (xoro_new lo hi).
Proof.
  intros Hl Hh. unfold xoro_new. destruct (Z.eqb_spec (Z.lor lo hi) 0) as [|Hn].
  { unfold valid, is_u, GOLDEN_RATIO_64, SILVER_RATIO_64. simpl. lia. }
  split; [done|]. split; [done|]. simpl. intros [-> ->]. done.
Qed.

Lemma mix_range z : is_u 64 (mix_stafford_13 z).
Proof. apply is_u_lxor; [done|apply u64_word|apply shiftr_range; [done..|apply u64_word]]. Qed.

Lemma from_seed_valid s : valid (xoro_from_seed s).
Proof. apply new_valid; apply mix_range. Qed.

Lemma unmixed_valid s : is_u 64 s -> valid (from_seed_unmixed s).
Proof. intros Hs. apply new_valid; [by apply is_u_lxor|apply u64_word]. Qed.

Lemma next_word_range r : is_u 64 (xoro_next_random r).1.
Proof. apply u64_word. Qed.

Lemma fork_valid r : valid r -> valid (xoro_fork r).1 /\ valid (xoro_fork r).2.
Proof.
  intros Hr. unfold xoro_fork. pose proof (next_word_range r). pose proof (step_valid r Hr) as H1.
  destruct (xoro_next_random r) as [lo r1]. pose proof (next_word_range r1). pose proof (step_valid r1 H1).
  destruct (xoro_next_random r1) as [hi r2]. split; [by apply new_valid|done].
Qed.

(** ** Bounded draws *)

Lemma word_low w : Z.land (u64 w) LOW_32 = w mod 2 ^ 32.
Proof.
  change LOW_32 with (Z.ones 32). rewrite Z.land_ones by done. unfold u64, wrapu.
  apply Z.mod_mod_divide. by exists (2 ^ 32).
Qed.

Lemma product_eq w bound : 0 < bound <= i32_max -> word_product w bound = (w mod 2 ^ 32) * bound.
Proof.
  intros Hb. unfold i32_max in Hb. unfold word_product. rewrite word_low. unfold u64.
  pose proof (Z.mod_pos_bound w (2 ^ 32) ltac:(lia)).
  rewrite (wrapu_id 64 bound) by (unfold is_u; lia). apply wrapu_id. unfold is_u. nia.
Qed.

(** The remainder the loop compares with is [2^32 mod bound]. *)
Lemma threshold_eq bound : 0 < bound <= i32_max ->
  Z.rem (u32 (u32 (Z.lnot bound) + 1)) (u32 bound) = 2 ^ 32 mod bound.
Proof.
  intros Hb. unfold i32_max in Hb. unfold u32. rewrite (wrapu_id 32 bound) by (unfold is_u; lia).
  assert (wrapu 32 (wrapu 32 (Z.lnot bound) + 1) = 2 ^ 32 - bound) as ->.
  { unfold wrapu. rewrite Z.add_mod_idemp_l by done. unfold Z.lnot.
    symmetry. apply (Z.mod_unique _ _ (-1)); lia. }
  rewrite Z.rem_mod_nonneg by lia. replace (2 ^ 32 - bound) with (2 ^ 32 + -1 * bound) by lia.
  by rewrite Z.mod_add by lia.
Qed.

(** A word is accepted if its product is not among the first [2^32 mod bound]
    of its residues. *)
Definition accepted (bound w : Z) : bool := 2 ^ 32 mod bound <=? (w mod 2 ^ 32 * bound) mod 2 ^ 32.
Definition choice (bound w : Z) : Z := w mod 2 ^ 32 * bound / 2 ^ 32.

Lemma choice_range bound w : 0 < bound -> 0 <= choice bound w < bound.
Proof.
  intros. unfold choice. pose proof (Z.mod_pos_bound w (2 ^ 32) ltac:(lia)).
  split; [apply Z.div_pos; nia|]. apply Z.div_lt_upper_bound; nia.
Qed.

Section WordFacts.
Context {R : Type} (next_word : R -> Z * R).

Lemma low_product w bound : 0 < bound <= i32_max ->
  Z.land (word_product w bound) LOW_32 = (w mod 2 ^ 32 * bound) mod 2 ^ 32.
Proof. intros. rewrite product_eq by done. change LOW_32 with (Z.ones 32). by rewrite Z.land_ones. Qed.

Lemma high_product w bound : 0 < bound <= i32_max -> i32 (Z.shiftr (word_product w bound) 32) = choice bound w.
Proof.
  intros Hb. rewrite product_eq, Z.shiftr_div_pow2 by done. apply wraps_id; [done|].
  pose proof (choice_range bound w ltac:(lia)). unfold choice, is_s, i32_max in *. lia.
Qed.

Lemma xoro_loop_unfold fuel bound w r : 0 < bound <= i32_max ->
  xoro_loop next_word fuel bound (2 ^ 32 mod bound) (word_product w bound) r =
  if accepted bound w then Ok (choice bound w, r)
  else match fuel with
       | O => Err OutOfFuel
       | S fuel => xoro_loop next_word fuel bound (2 ^ 32 mod bound) (word_product (next_word r).1 bound) (next_word r).2
       end.
Proof.
  intros Hb. assert (accepted bound w = negb ((w mod 2 ^ 32 * bound) mod 2 ^ 32 <? 2 ^ 32 mod bound)) as ->
    by (unfold accepted; by rewrite Z.leb_antisym).
  destruct fuel; cbn [xoro_loop]; rewrite low_product, high_product by done;
    destruct (_ <? _); try done. by destruct (next_word r).
Qed.

(** The shortcut before the loop changes nothing. *)
Lemma xoro_bounded_loop fuel bound r : 0 < bound <= i32_max ->
  xoro_bounded next_word fuel bound r =
  xoro_loop next_word fuel bound (2 ^ 32 mod bound) (word_product (next_word r).1 bound) (next_word r).2.
Proof.
  intros Hb. unfold xoro_bounded. destruct (next_word r) as [w r']. cbn [fst snd]. rewrite threshold_eq by done.
  unfold u64. unfold i32_max in Hb. rewrite (wrapu_id 64 bound) by (unfold is_u; lia).
  destruct (Z.ltb_spec (Z.land (word_product w bound) LOW_32) bound) as [|Hge]; [done|].
  rewrite xoro_loop_unfold by done. rewrite low_product in Hge by done.
  pose proof (Z.mod_pos_bound (2 ^ 32) bound ltac:(lia)). unfold accepted.
  rewrite (proj2 (Z.leb_le _ _)) by lia. by rewrite high_product.
Qed.

(** The generator after [n] draws *)
Definition after (n : nat) (r : R) : R := Nat.iter n (fun r => (next_word r).2) r.
Definition word_at (n : nat) (r : R) : Z := (next_word (after n r)).1.

Lemma after_S n r : after (S n) r = after n (next_word r).2.
Proof. unfold after. by rewrite Nat.iter_succ_r. Qed.

Lemma xoro_first_accepted n fuel bound r : 0 < bound <= i32_max -> (n <= fuel)%nat ->
  (forall k, (k < n)%nat -> accepted bound (word_at k r) = false) -> accepted bound (word_at n r) = true ->
  xoro_bounded next_word fuel bound r = Ok (choice bound (word_at n r), after (S n) r).
Proof.
  intros Hb. revert fuel r. induction n as [|n IH]; intros fuel r Hf Hk Hn;
    rewrite xoro_bounded_loop, xoro_loop_unfold by done.
  - unfold word_at in Hn. simpl in Hn. by rewrite Hn.
  - pose proof (Hk 0%nat ltac:(lia)) as H0. unfold word_at in H0. simpl in H0. rewrite H0.
    destruct fuel as [|fuel]; [lia|]. rewrite <- xoro_bounded_loop by done.
    unfold word_at. rewrite (after_S (S n)), after_S. apply IH; [lia| |].
    + intros k Hkn. specialize (Hk (S k) ltac:(lia)). unfold word_at in *. by rewrite after_S in Hk.
    + unfold word_at in *. by rewrite after_S in Hn.
Qed.

Lemma xoro_bounded_range (wf : R -> Prop) fuel bound r :
  (forall r, wf r -> wf (next_word r).2) -> wf r -> 0 < bound <= i32_max ->
  match xoro_bounded next_word fuel bound r with
  | Ok (v, r') => 0 <= v < bound /\ wf r'
  | Err OutOfFuel => True
  | Panic => False
  end.
Proof.
  intros Hw Hr Hb. revert r Hr. induction fuel as [|fuel IH]; intros r Hr;
    rewrite xoro_bounded_loop, xoro_loop_unfold by done;
    (destruct (accepted _ _); [split; [apply choice_range; lia|by apply Hw]|]); [done|].
  rewrite <- xoro_bounded_loop by done. by apply IH, Hw.
Qed.
End WordFacts.

(** Exactly [2^32 / bound] words give each result. *)
Lemma xoro_bounded_count bound v : 0 < bound <= i32_max -> 0 <= v < bound ->
  length (filter (fun w => drawn (xoro_bounded (fun i : Z => (i, i)) 0 bound w) = Some v) (seqZ (- 2 ^ 31) (2 ^ 32))) =
  Z.to_nat (2 ^ 32 / bound).
Proof.
  intros Hb Hv. pose proof Hb as Hb'. unfold i32_max in Hb'.
  set (K := 2 ^ 32 / bound). set (t := 2 ^ 32 mod bound).
  pose proof (Z.div_mod (2 ^ 32) bound ltac:(lia)) as Hdm. fold K t in Hdm.
  pose proof (Z.mod_pos_bound (2 ^ 32) bound ltac:(lia)) as Ht. fold t in Ht.
  assert (HK : 0 <= K) by (apply Z.div_pos; lia).
  set (first := (v * 2 ^ 32 + t + bound - 1) / bound).
  pose proof (Z.div_mod (v * 2 ^ 32 + t + bound - 1) bound ltac:(lia)) as Hfd. fold first in Hfd.
  pose proof (Z.mod_pos_bound (v * 2 ^ 32 + t + bound - 1) bound ltac:(lia)) as Hfm.
  assert (Hfirst : v * 2 ^ 32 + t <= first * bound < v * 2 ^ 32 + t + bound) by lia.
  assert (Hlast : first + K <= 2 ^ 32) by nia.
  assert (0 <= first) by nia.
  apply (count_image _ _ _ _ (fun q => i32 (first + q))); [done| | |].
  - intros w Hw. rewrite xoro_bounded_loop, xoro_loop_unfold by done. cbn [fst snd].
    set (l := w mod 2 ^ 32). assert (0 <= l < 2 ^ 32) as Hl by (apply Z.mod_pos_bound; lia).
    assert (w = i32 l) as Hwl.
    { unfold i32, l. rewrite <- (wraps_wrapu 32) by done. unfold wrapu. rewrite Z.mod_mod by done.
      change (w mod 2 ^ 32) with (wrapu 32 w). rewrite wraps_wrapu by done. symmetry. apply wraps_id; [done|unfold is_s; lia]. }
    pose proof (Z.div_mod (l * bound) (2 ^ 32) ltac:(lia)) as Hpd.
    pose proof (Z.mod_pos_bound (l * bound) (2 ^ 32) ltac:(lia)) as Hpm.
    unfold accepted, choice. fold l t. destruct (Z.leb_spec t ((l * bound) mod 2 ^ 32)); cbn [drawn].
    + split.
      * intros [= He]. exists (l - first). split; [nia|]. rewrite Hwl at 1. f_equal. lia.
      * intros (q & Hq & Hwq). assert (l = first + q) as Hlq.
        { unfold l. rewrite Hwq. unfold i32. change (wrapu 32 (wraps 32 (first + q)) = first + q).
          rewrite wrapu_wraps by done. apply wrapu_id. unfold is_u. lia. }
        f_equal. symmetry. apply (Z.div_unique _ _ v (l * bound - v * 2 ^ 32)); nia.
    + split; [done|]. intros (q & Hq & Hwq). assert (l = first + q) as Hlq.
      { unfold l. rewrite Hwq. unfold i32. change (wrapu 32 (wraps 32 (first + q)) = first + q).
        rewrite wrapu_wraps by done. apply wrapu_id. unfold is_u. lia. }
      assert (l * bound / 2 ^ 32 = v) by (symmetry; apply (Z.div_unique _ _ v (l * bound - v * 2 ^ 32)); nia).
      nia.
  - intros q Hq. pose proof (wraps_range 32 (first + q) ltac:(lia)) as Hr. unfold is_s in Hr. unfold i32. lia.
  - intros q q' Hq Hq' He. unfold i32 in He. apply (f_equal (wrapu 32)) in He.
    rewrite !wrapu_wraps, !wrapu_id in He by (done || (unfold is_u; lia)). lia.
Qed.

#[export] Instance xoroshiro_in_range : InRange Xoroshiro valid.
Proof.
  intros fuel bound r Hr. apply xoro_bounded_range; [|done]. intros s Hs.
  unfold xoro_next_i32. pose proof (step_valid s Hs). by destruct (xoro_next_random s).
Qed.

Definition worldgen_valid (r : WorldgenRandom) : Prop := valid (source r).

Lemma next_bits_range bits r : 0 <= bits <= 64 -> is_u bits (next_bits bits r).1.
Proof.
  intros Hb. unfold next_bits. destruct (xoro_next_i64 (source r)) as [n s]. cbn [fst].
  pose proof (u64_word n) as [H0 H1]. unfold is_u. rewrite Z.shiftr_div_pow2 by lia.
  assert (0 < 2 ^ (64 - bits)) by (apply Z.pow_pos_nonneg; lia). split; [by apply Z.div_pos|].
  apply Z.div_lt_upper_bound; [done|]. rewrite <- Z.pow_add_r by lia. by replace (64 - bits + bits) with 64 by lia.
Qed.

Lemma next_bits_valid bits r : worldgen_valid r -> worldgen_valid (next_bits bits r).2.
Proof.
  intros Hr. unfold next_bits, xoro_next_i64. pose proof (step_valid (source r) Hr).
  by destruct (xoro_next_random (source r)).
Qed.

#[export] Instance worldgen_in_range : InRange WorldgenRandom worldgen_valid.
Proof.
  intros fuel bound r. apply bit_bounded_range; clear; intros r Hr; unfold worldgen_next31.
  - pose proof (next_bits_range 31 r ltac:(lia)) as Hb. destruct (next_bits 31 r) as [n s]. cbn [fst] in *.
    unfold is_u in Hb. unfold i32. rewrite wraps_id by (try done; unfold is_s; lia). done.
  - pose proof (next_bits_valid 31 r Hr). by destruct (next_bits 31 r).
Qed.

Lemma odd_scale_inj a x y : is_s 32 x -> is_s 32 y -> i64 (x * Z.lor a 1) = i64 (y * Z.lor a 1) -> x = y.
Proof.
  unfold is_s. intros Hx Hy He. set (o := Z.lor a 1) in *.
  assert (Hodd : Z.gcd o 2 = 1).
  { assert (o mod 2 = 1) as Ho.
    { unfold o. rewrite <- (Z.land_ones _ 1) by done. apply Z.bits_inj'. intros i Hi. bits.
      destruct (Z.eq_dec i 0) as [->|]; [by rewrite orb_true_r|].
      rewrite (proj2 (Z.ltb_ge i 1)), andb_false_r by lia. symmetry. apply (testbit_high 1); [done|lia]. }
    rewrite Z.gcd_comm. rewrite <- Z.gcd_mod, Ho by done. done. }
  assert (Hr : Z.gcd (2 ^ 64) o = 1).
  { by apply Zgcd_1_rel_prime, rel_prime_sym, rel_prime_Zpower_r, Zgcd_1_rel_prime. }
  apply (f_equal (wrapu 64)) in He. unfold i64 in He. rewrite !wrapu_wraps in He by done. unfold wrapu in He.
  assert (Hd : (2 ^ 64 | o * (x - y))).
  { apply Z.mod_divide; [done|]. replace (o * (x - y)) with (x * o - y * o) by lia.
    rewrite Zminus_mod, He, Z.sub_diag. done. }
  apply Z.gauss in Hd as [k Hk]; [|done]. destruct (Z.eq_dec k 0); nia.
Qed.

(** ** Properties *)

(** Every way to build a generator *)
Inductive reachable : Xoroshiro -> Prop :=
| reach_seed s : reachable (xoro_from_seed s)
| reach_unmixed s : is_u 64 s -> reachable (from_seed_unmixed s)
| reach_new lo hi : is_u 64 lo -> is_u 64 hi -> reachable (xoro_new lo hi)
| reach_draw r : reachable r -> reachable (xoro_next_random r).2
| reach_fork r : reachable r -> reachable (xoro_fork r).1
| reach_gaussian r value : reachable r -> reachable (xoro_store_gaussian value r).

Lemma reachable_valid r : reachable r -> valid r.
Proof.
  induction 1; [apply from_seed_valid|by apply unmixed_valid|by apply new_valid|by apply step_valid|
    by apply fork_valid|done].
Qed.

(** No generator ever has the state 0, in which it would stay, and two
    generators with the same next state had the same state. *)
Theorem xoroshiro_never_degenerates r : reachable r ->
  ~ (seed_lo r = 0 /\ seed_hi r = 0) /\
  forall r', reachable r' ->
    seed_lo (xoro_next_random r).2 = seed_lo (xoro_next_random r').2 ->
    seed_hi (xoro_next_random r).2 = seed_hi (xoro_next_random r').2 ->
    seed_lo r = seed_lo r' /\ seed_hi r = seed_hi r'.
Proof.
  intros Hr%reachable_valid. split; [by destruct Hr as (_ & _ & ?)|].
  intros r' Hr'%reachable_valid. destruct Hr as (? & ? & _), Hr' as (? & ? & _). by apply step_inj.
Qed.

(** The draws of the decoration stage depend on the seed alone. *)
Lemma worldgen_draw r r' : source r = source r' ->
  (worldgen_next_i64 r).1 = (worldgen_next_i64 r').1 /\
  source (worldgen_next_i64 r).2 = source (worldgen_next_i64 r').2.
Proof.
  intros He. unfold worldgen_next_i64, worldgen_next_i32, next_bits. rewrite He.
  destruct (xoro_next_i64 (source r')) as [n s]. cbn [source with_source].
  destruct (xoro_next_i64 s) as [m s']. cbn [source with_source fst snd]. split; exact eq_refl.
Qed.

Lemma decoration_seed_eq s x z r :
  let r1 := worldgen_from_seed (u64 s) in
  let a := (worldgen_next_i64 r1).1 in
  let b := (worldgen_next_i64 (worldgen_next_i64 r1).2).1 in
  (set_decoration_seed s x z r).1 = Z.lxor (i64 (i64 (x * Z.lor a 1) + i64 (z * Z.lor b 1))) s.
Proof.
  cbv zeta. unfold set_decoration_seed.
  assert (source (worldgen_set_seed s r) = source (worldgen_from_seed (u64 s))) as He by reflexivity.
  revert He. generalize (worldgen_set_seed s r) (worldgen_from_seed (u64 s)). intros r0 r0' He.
  destruct (worldgen_draw r0 r0' He) as [H1 H2]. destruct (worldgen_next_i64 r0) as [a r1].
  destruct (worldgen_next_i64 r0') as [a' r1']. cbn [fst snd] in *. subst a'.
  destruct (worldgen_draw r1 r1' H2) as [H3 _].
  destruct (worldgen_next_i64 r1) as [b r2]. cbn [fst] in *. by rewrite H3.
Qed.

Lemma i64_add_cancel a b c : i64 (a + c) = i64 (b + c) -> i64 a = i64 b.
Proof.
  intros He. apply wraps_cong; [done|]. apply (f_equal (wrapu 64)) in He. unfold i64 in He.
  rewrite !wrapu_wraps in He by done. unfold wrapu in He.
  apply (f_equal (fun t => (t - c) mod 2 ^ 64)) in He. by rewrite !Zminus_mod_idemp_l, !Z.add_simpl_r in He.
Qed.

Lemma i64_i64 z : i64 (i64 z) = i64 z.
Proof. apply wraps_id; [done|by apply wraps_range]. Qed.

(** Columns with different x have different decoration seeds, since the
    scale of x is odd. *)
Theorem decoration_seeds_distinct s x x' z r r' : is_s 32 x -> is_s 32 x' ->
  (set_decoration_seed s x z r).1 = (set_decoration_seed s x' z r').1 -> x = x'.
Proof.
  intros Hx Hx' He. rewrite !decoration_seed_eq in He. apply lxor_cancel_r, i64_add_cancel in He.
  rewrite !i64_i64 in He. by eapply odd_scale_inj.
Qed.

Module Example1.
Lemma xoroshiro_never_degenerates_witness :
  ~ (seed_lo (xoro_from_seed 0) = 0 /\ seed_hi (xoro_from_seed 0) = 0).
Proof. exact (proj1 (xoroshiro_never_degenerates (xoro_from_seed 0) (reach_seed 0))). Defined.

Definition spare : WorldgenRandom := worldgen_from_seed 0.

(** The value of the sources' test *)
Lemma decoration_seed_of_test :
  (set_decoration_seed 13579 (-6695392) 5868656 spare).1 = 7632291757650236667.
Proof. vm_compute. reflexivity. Qed.

Lemma words_of_seed_0 : (next_i32 (xoro_from_seed 0)).1 = -160476802 /\
  drawn (next_i32_bounded 1 10 (xoro_from_seed 0)) = Some 9.
Proof. vm_compute. auto. Qed.
End Example1.
