(* ===== verification/RandomSource.v ===== *)
(** * Random sources, positional and named

    Models the enums of [steel-utils/src/random/mod.rs] that dispatch to a
    generator, the splitters of [legacy_random.rs] and [xoroshiro.rs] that
    make a source for a position, a name or a seed, and the precomputed hashes
    of names in [name_hash.rs].  Text is its list of bytes.

    The properties of the component are stated here, for any source. *)

From Stdlib Require Import Lia ZArith SpecFloat.
From stdpp Require Import prelude list strings.
From S2P Require Import Prelude Io Floats Random LegacyRandom Xoroshiro.

(** ** Hashes of names *)

Record NameHash := { md5_lo : Z; md5_hi : Z; java_hash : Z }.

Definition java_hash_code (s : list Z) : Z := foldl (fun hash b => i32 (i32 (hash * 31) + b)) 0 s.

Definition MD5_S : list Z :=
  [7; 12; 17; 22; 7; 12; 17; 22; 7; 12; 17; 22; 7; 12; 17; 22; 5; 9; 14; 20; 5; 9; 14; 20; 5; 9;
   14; 20; 5; 9; 14; 20; 4; 11; 16; 23; 4; 11; 16; 23; 4; 11; 16; 23; 4; 11; 16; 23; 6; 10; 15;
   21; 6; 10; 15; 21; 6; 10; 15; 21; 6; 10; 15; 21].

Definition MD5_T : list Z :=
  [0xd76aa478; 0xe8c7b756; 0x242070db; 0xc1bdceee; 0xf57c0faf; 0x4787c62a; 0xa8304613; 0xfd469501;
   0x698098d8; 0x8b44f7af; 0xffff5bb1; 0x895cd7be; 0x6b901122; 0xfd987193; 0xa679438e; 0x49b40821;
   0xf61e2562; 0xc040b340; 0x265e5a51; 0xe9b6c7aa; 0xd62f105d; 0x02441453; 0xd8a1e681; 0xe7d3fbc8;
   0x21e1cde6; 0xc33707d6; 0xf4d50d87; 0x455a14ed; 0xa9e3e905; 0xfcefa3f8; 0x676f02d9; 0x8d2a4c8a;
   0xfffa3942; 0x8771f681; 0x6d9d6122; 0xfde5380c; 0xa4beea44; 0x4bdecfa9; 0xf6bb4b60; 0xbebfbc70;
   0x289b7ec6; 0xeaa127fa; 0xd4ef3085; 0x04881d05; 0xd9d4d039; 0xe6db99e5; 0x1fa27cf8; 0xc4ac5665;
   0xf4292244; 0x432aff97; 0xab9423a7; 0xfc93a039; 0x655b59c3; 0x8f0ccc92; 0xffeff47d; 0x85845dd1;
   0x6fa87e4f; 0xfe2ce6e0; 0xa3014314; 0x4e0811a1; 0xf7537e82; 0xbd3af235; 0x2ad7d2bb; 0xeb86d391].

(** [block[at + i] = bytes[i]] for each [i] *)
Fixpoint put_bytes (at_ : nat) (bytes : list Z) (block : list Z) : list Z :=
  match bytes with
  | [] => block
  | b :: bytes => put_bytes (S at_) bytes (<[at_ := b]> block)
  end.

(** The padded block of a message *)
Definition md5_block (data : list Z) : list Z :=
  let block := put_bytes 0 data (replicate 64 0) in
  let block := <[length data := 0x80]> block in
  put_bytes 56 (to_le_bytes 8 (Z.of_nat (length data) * 8)) block.

Definition md5_words (block : list Z) : list Z :=
  (fun i => from_le_bytes (take 4 (drop (i * 4) block))) <$> seq 0 16.

(** [u32::rotate_left] and [!] *)
Definition rotate_left_32 (x n : Z) : Z := Z.lor (u32 (Z.shiftl x n)) (Z.shiftr x (32 - n)).
Definition not_32 (x : Z) : Z := u32 (Z.lnot x).

Definition md5_round (m : list Z) (abcd : Z * Z * Z * Z) (i : nat) : Z * Z * Z * Z :=
  let '(a, b, c, d) := abcd in
  let '(f, g) :=
    if (i <? 16)%nat then (Z.lor (Z.land b c) (Z.land (not_32 b) d), i)
    else if (i <? 32)%nat then (Z.lor (Z.land d b) (Z.land (not_32 d) c), (5 * i + 1) mod 16)%nat
    else if (i <? 48)%nat then (Z.lxor (Z.lxor b c) d, (3 * i + 5) mod 16)%nat
    else (Z.lxor c (Z.lor b (not_32 d)), (7 * i) mod 16)%nat in
  let x := u32 (u32 (u32 (a + f) + nth i MD5_T 0) + nth g m 0) in
  (d, u32 (b + rotate_left_32 x (nth i MD5_S 0)), b, c).

Definition const_md5 (data : list Z) : run (list Z) :=
  if (length data <? 56)%nat then
    let m := md5_words (md5_block data) in
    let '(a, b, c, d) := foldl (md5_round m) (0x67452301, 0xefcdab89, 0x98badcfe, 0x10325476) (seq 0 64) in
    Ok (to_le_bytes 4 (u32 (a + 0x67452301)) ++ to_le_bytes 4 (u32 (b + 0xefcdab89)) ++
        to_le_bytes 4 (u32 (c + 0x98badcfe)) ++ to_le_bytes 4 (u32 (d + 0x10325476)))
  else Panic.

Definition name_hash_new (name : list Z) : run NameHash :=
  let? digest := const_md5 name in
  Ok {| md5_lo := from_be_bytes (take 8 digest); md5_hi := from_be_bytes (drop 8 digest);
        java_hash := java_hash_code name |}.

(** ** Sources *)

Inductive RandomSource :=
| SourceXoroshiro (r : Xoroshiro)
| SourceLegacy (r : LegacyRandom).

(** The call of a method on the generator of a source *)
Definition dispatch {A} (f : Xoroshiro -> A * Xoroshiro) (g : LegacyRandom -> A * LegacyRandom)
    (r : RandomSource) : A * RandomSource :=
  match r with
  | SourceXoroshiro r => let (v, r) := f r in (v, SourceXoroshiro r)
  | SourceLegacy r => let (v, r) := g r in (v, SourceLegacy r)
  end.

Definition dispatch_run {A} (f : Xoroshiro -> run (A * Xoroshiro)) (g : LegacyRandom -> run (A * LegacyRandom))
    (r : RandomSource) : run (A * RandomSource) :=
  match r with
  | SourceXoroshiro r => let? '(v, r) := f r in Ok (v, SourceXoroshiro r)
  | SourceLegacy r => let? '(v, r) := g r in Ok (v, SourceLegacy r)
  end.

#[export] Instance source_bounded : BoundedDraws RandomSource := fun fuel bound =>
  dispatch_run (next_i32_bounded fuel bound) (next_i32_bounded fuel bound).

Definition source_fork (r : RandomSource) : RandomSource * RandomSource :=
  match r with
  | SourceXoroshiro r => let (f, r) := xoro_fork r in (SourceXoroshiro f, SourceXoroshiro r)
  | SourceLegacy r => let (f, r) := legacy_fork r in (SourceLegacy f, SourceLegacy r)
  end.

#[export] Instance source_random : Random RandomSource := {
  fork := source_fork;
  next_i32 := dispatch next_i32 next_i32;
  next_i64 := dispatch next_i64 next_i64;
  next_f32 := dispatch next_f32 next_f32;
  next_f64 := dispatch next_f64 next_f64;
  next_bool := dispatch next_bool next_bool;
  next_positional := dispatch next_positional next_positional;
  consume_count count r :=
    match r with
    | SourceXoroshiro r => SourceXoroshiro (consume_count count r)
    | SourceLegacy r => SourceLegacy (consume_count count r)
    end
}.

Definition source_next_gaussian (ln : f64 -> f64) (fuel : nat) : RandomSource -> run (f64 * RandomSource) :=
  dispatch_run (xoro_next_gaussian ln fuel) (legacy_next_gaussian ln fuel).

(** ** Splitters *)

Module LegacySplitter.
Definition at_ (x y z : Z) (s : LegacyRandomSplitter) : RandomSource :=
  SourceLegacy (legacy_from_seed (Z.lxor (u64 (get_seed x y z)) (u64 (legacy_seed s)))).
Definition with_hash_of (h : NameHash) (s : LegacyRandomSplitter) : RandomSource :=
  SourceLegacy (legacy_from_seed (Z.lxor (u64 (java_hash h)) (u64 (legacy_seed s)))).
Definition with_seed (seed : Z) (s : LegacyRandomSplitter) : RandomSource :=
  SourceLegacy (legacy_from_seed seed).
End LegacySplitter.

Module XoroSplitter.
Definition at_ (x y z : Z) (s : XoroshiroSplitter) : RandomSource :=
  SourceXoroshiro (xoro_new (Z.lxor (u64 (get_seed x y z)) (split_lo s)) (split_hi s)).
Definition with_hash_of (h : NameHash) (s : XoroshiroSplitter) : RandomSource :=
  SourceXoroshiro (xoro_new (Z.lxor (md5_lo h) (split_lo s)) (Z.lxor (md5_hi h) (split_hi s))).
Definition with_seed (seed : Z) (s : XoroshiroSplitter) : RandomSource :=
  SourceXoroshiro (xoro_new (Z.lxor seed (split_lo s)) (Z.lxor seed (split_hi s))).
End XoroSplitter.

Definition split_at (x y z : Z) (s : RandomSplitter) : RandomSource :=
  match s with
  | SplitXoroshiro s => XoroSplitter.at_ x y z s
  | SplitLegacy s => LegacySplitter.at_ x y z s
  end.
Definition split_with_hash_of (h : NameHash) (s : RandomSplitter) : RandomSource :=
  match s with
  | SplitXoroshiro s => XoroSplitter.with_hash_of h s
  | SplitLegacy s => LegacySplitter.with_hash_of h s
  end.
Definition split_with_seed (seed : Z) (s : RandomSplitter) : RandomSource :=
  match s with
  | SplitXoroshiro s => XoroSplitter.with_seed seed s
  | SplitLegacy s => LegacySplitter.with_seed seed s
  end.

(** ** Facts *)

Lemma i32_sum_l a b : i32 (i32 a + b) = i32 (a + b).
Proof.
  apply wraps_cong; [done|]. change ((i32 a + b) mod 2 ^ 32) with (wrapu 32 (i32 a + b)).
  unfold wrapu. rewrite <- Z.add_mod_idemp_l by done. change (i32 a mod 2 ^ 32) with (wrapu 32 (i32 a)).
  unfold i32. rewrite wrapu_wraps by done. unfold wrapu. by rewrite Z.add_mod_idemp_l.
Qed.

(** The hash of a name is the polynomial of its bytes in 31. *)
Fixpoint java_polynomial (s : list Z) : Z :=
  match s with
  | [] => 0
  | b :: s => b * 31 ^ Z.of_nat (length s) + java_polynomial s
  end.

Lemma java_hash_polynomial s : java_hash_code s = i32 (java_polynomial s).
Proof.
  unfold java_hash_code. assert (Hg : forall h, foldl (fun hash b => i32 (i32 (hash * 31) + b)) (i32 h) s =
    i32 (h * 31 ^ Z.of_nat (length s) + java_polynomial s)); [|exact (Hg 0)].
  induction s as [|b s IH]; intros h; simpl foldl.
  { simpl. f_equal. lia. }
  rewrite i32_sum_l. assert (i32 (i32 h * 31 + b) = i32 (h * 31 + b)) as ->.
  { apply wraps_cong; [done|]. rewrite <- (Z.add_mod_idemp_l (i32 h * 31)), <- Z.mul_mod_idemp_l by done.
    change (i32 h mod 2 ^ 32) with (wrapu 32 (wraps 32 h)). rewrite wrapu_wraps by done. unfold wrapu.
    by rewrite Z.mul_mod_idemp_l, Z.add_mod_idemp_l. }
  rewrite IH. simpl length. simpl java_polynomial. rewrite Nat2Z.inj_succ, Z.pow_succ_r by lia. f_equal. lia.
Qed.

Definition source_wf (r : RandomSource) : Prop :=
  match r with SourceXoroshiro r => valid r | SourceLegacy r => seeded r end.

#[export] Instance source_in_range : InRange RandomSource source_wf.
Proof.
  intros fuel bound [r|r] Hr Hb; unfold next_i32_bounded, source_bounded, dispatch_run.
  - pose proof (draw_in_range (R := Xoroshiro) fuel bound r Hr Hb) as Hd.
    by destruct (next_i32_bounded fuel bound r) as [[v r']|[]|].
  - pose proof (draw_in_range (R := LegacyRandom) fuel bound r Hr Hb) as Hd.
    by destruct (next_i32_bounded fuel bound r) as [[v r']|[]|].
Qed.

(** Splitters of valid generators make valid sources. *)
Definition splitter_wf (s : RandomSplitter) : Prop :=
  match s with
  | SplitXoroshiro s => is_u 64 (split_lo s) /\ is_u 64 (split_hi s)
  | SplitLegacy s => is_s 64 (legacy_seed s)
  end.
Definition hash_wf (h : NameHash) : Prop := is_u 64 (md5_lo h) /\ is_u 64 (md5_hi h).

Lemma split_at_wf x y z s : splitter_wf s -> source_wf (split_at x y z s).
Proof.
  destruct s as [s|s]; [|intros _; apply seeded_new]. intros [Hl Hh].
  apply new_valid; [|done]. apply is_u_lxor; [done|apply u64_word|done].
Qed.

Lemma split_hash_wf h s : hash_wf h -> splitter_wf s -> source_wf (split_with_hash_of h s).
Proof.
  intros [Hm Hn]. destruct s as [s|s]; [|intros _; apply seeded_new]. intros [Hl Hh].
  apply new_valid; by apply is_u_lxor.
Qed.

Lemma split_seed_wf seed s : is_u 64 seed -> splitter_wf s -> source_wf (split_with_seed seed s).
Proof.
  intros Hs. destruct s as [s|s]; [|intros _; apply seeded_new]. intros [Hl Hh].
  apply new_valid; by apply is_u_lxor.
Qed.

(** ** Properties *)

(** C26: Bounded draws are uniform, in both algorithms: of the words a draw may be
    made from, exactly the same number give each value below the bound. *)
Theorem bounded_draws_uniform bound v : 0 < bound <= i32_max -> 0 <= v < bound ->
  length (filter (fun i => drawn (bit_bounded (fun i : Z => (i, i)) 1 bound i) = Some v)
    (seqZ 0 (2 ^ 31))) = Z.to_nat (2 ^ 31 / bound) /\
  length (filter (fun w => drawn (xoro_bounded (fun i : Z => (i, i)) 0 bound w) = Some v)
    (seqZ (- 2 ^ 31) (2 ^ 32))) = Z.to_nat (2 ^ 32 / bound).
Proof. intros Hb Hv. split; [by apply bit_bounded_count|by apply xoro_bounded_count]. Qed.

(** A shuffle is fair: each order of the items comes from exactly one sequence
    of draws; and it ends in a permutation with every generator whose draws
    return in range. *)
Theorem shuffles_fair {A} (items : list A) : Z.of_nat (length items) <= i32_max ->
  (forall fuel p, NoDup items -> items ≡ₚ p -> exists! draws,
    choices (length items) draws /\ shuffle fuel items draws = Ok (p, [])) /\
  (forall r, seeded r -> exists enough p r', p ≡ₚ items /\ seeded r' /\
    forall fuel, (enough <= fuel)%nat -> shuffle fuel items r = Ok (p, r')).
Proof.
  intros Hl. unfold shuffle. rewrite (proj2 (Z.leb_le _ _)) by done. split.
  - intros fuel p Hn Hp. apply shuffle_from_choices; [done..|].
    pose proof (Permutation_length Hp). by rewrite !drop_ge by lia.
  - intros r Hr. by apply (shuffle_from_returns seeded).
Qed.

Module Example1.
Lemma bounded_draws_uniform_witness :
  length (filter (fun i => drawn (bit_bounded (fun i : Z => (i, i)) 1 6 i) = Some 2)
    (seqZ 0 (2 ^ 31))) = Z.to_nat (2 ^ 31 / 6).
Proof. refine (proj1 (bounded_draws_uniform 6 2 _ _)); [unfold i32_max; lia|lia]. Defined.

Lemma shuffles_fair_witness : exists! draws,
  choices 3 draws /\ shuffle 0 ["a"; "b"; "c"]%string draws = Ok (["c"; "a"; "b"]%string, []).
Proof.
  refine (proj1 (shuffles_fair ["a"; "b"; "c"]%string _) 0%nat _ _ _).
  - unfold i32_max. simpl. lia.
  - repeat constructor; set_solver.
  - symmetry. apply (Permutation_app_comm ["c"%string] ["a"; "b"]%string).
Defined.

(** [TEST STRING], as in the sources' tests *)
Definition test_string : list Z := [84; 69; 83; 84; 32; 83; 84; 82; 73; 78; 71].
Lemma md5_of_test_string : const_md5 test_string =
  Ok [45; 125; 104; 116; 50; 117; 138; 142; 238; 202; 123; 126; 93; 81; 142; 127].
Proof. vm_compute. reflexivity. Qed.
End Example1.
