(* ===== verification/CommandReader.v ===== *)
(** * Reading commands

    Models [steel-core/src/command/brigadier/reader.rs], the errors of
    [error.rs], and the built-in parsers of [argument.rs].  Text is the list
    of its Unicode scalar values; a [str] is indexed by the bytes of its UTF-8
    form, and slicing it inside a character panics.

    A method on [&mut self] is a [Parser]: it takes the reader and returns the
    outcome with the reader as it is left, after an error too.

    [reader_at pre post] is the reader that has read [pre] and has [post] to
    read, with both cursors where they belong; every method is an equation on
    such readers ([read_at], [skip_while_at], [read_quoted_at], ...), so no
    slice ever panics ([reader_never_panics]). *)

From Stdlib Require Import Lia ZArith SpecFloat.
From stdpp Require Import prelude list.
From S2P Require Import Prelude Floats.

(** ** Text *)

Definition text := list Z.

(** [char::len_utf8], [char::len_utf16] *)
Definition len_utf8 (c : Z) : nat :=
  if c <? 0x80 then 1 else if c <? 0x800 then 2 else if c <? 0x10000 then 3 else 4.
Definition len_utf16 (c : Z) : nat := if c <? 0x10000 then 1 else 2.

Definition byte_len (t : text) : nat := sum_list (len_utf8 <$> t).
Definition utf16_len (t : text) : nat := sum_list (len_utf16 <$> t).

(** The text before and after a byte index, if it is the boundary of a
    character *)
Fixpoint byte_split (t : text) (n : nat) : option (text * text) :=
  match n, t with
  | O, _ => Some ([], t)
  | _, [] => None
  | _, c :: t =>
      if (len_utf8 c <=? n)%nat then
        match byte_split t (n - len_utf8 c) with
        | Some (a, b) => Some (c :: a, b)
        | None => None
        end
      else None
  end.

Definition slice_to (t : text) (n : nat) : option text := fst <$> byte_split t n.
Definition slice_from (t : text) (n : nat) : option text := snd <$> byte_split t n.
Definition slice_between (t : text) (a b : nat) : option text :=
  if (a <=? b)%nat then
    match slice_from t a with Some rest => slice_to rest (b - a) | None => None end
  else None.

Fixpoint strip_text_prefix (prefix t : text) : option text :=
  match prefix, t with
  | [], _ => Some t
  | a :: prefix, b :: t => if a =? b then strip_text_prefix prefix t else None
  | _, [] => None
  end.

(** [java::is_whitespace] *)
Definition is_whitespace (c : Z) : bool :=
  ((0x9 <=? c) && (c <=? 0xd)) || ((0x1c <=? c) && (c <=? 0x20)) || (c =? 0x1680) ||
  ((0x2000 <=? c) && (c <=? 0x2006)) || ((0x2008 <=? c) && (c <=? 0x200a)) ||
  (c =? 0x2028) || (c =? 0x2029) || (c =? 0x205f) || (c =? 0x3000).

Definition is_ascii_digit (c : Z) : bool := (48 <=? c) && (c <=? 57).
Definition is_ascii_alphanumeric (c : Z) : bool :=
  is_ascii_digit c || ((65 <=? c) && (c <=? 90)) || ((97 <=? c) && (c <=? 122)).

(** ** Numbers *)

Fixpoint digits_value (acc : Z) (t : text) : option Z :=
  match t with
  | [] => Some acc
  | c :: t => if is_ascii_digit c then digits_value (acc * 10 + (c - 48)) t else None
  end.

(** [i32::from_str], [i64::from_str] *)
Definition parse_integer (lo hi : Z) (t : text) : option Z :=
  let checked v := if (lo <=? v) && (v <=? hi) then Some v else None in
  match t with
  | [] => None
  | [c] => if (c =? 45) || (c =? 43) then None else digits_value 0 t ≫= checked
  | c :: rest =>
      if c =? 45 then digits_value 0 rest ≫= (fun v => checked (- v))
      else if c =? 43 then digits_value 0 rest ≫= checked
      else digits_value 0 t ≫= checked
  end.

Fixpoint split_dot (t : text) : text * option text :=
  match t with
  | [] => ([], None)
  | c :: t => if c =? 46 then ([], Some t) else let (a, b) := split_dot t in (c :: a, b)
  end.

(** [f32::from_str], [f64::from_str] on texts of digits, dots and minus signs *)
Definition parse_float (prec emax : Z) (t : text) : option spec_float :=
  let (negative, t) := match t with c :: rest => if c =? 45 then (true, rest) else (false, t) | [] => (false, t) end in
  let (whole, fraction) := split_dot t in
  let fraction := default [] fraction in
  if (length whole + length fraction =? 0)%nat then None
  else
    match digits_value 0 (whole ++ fraction) with
    | Some (Zpos n) =>
        Some (SFdiv prec emax (S754_finite negative n 0)
          (S754_finite false (Z.to_pos (10 ^ Z.of_nat (length fraction))) 0))
    | Some _ => Some (S754_zero negative)
    | None => None
    end.

(** ** Errors *)

Section Reader.
Context {TextComponent : Type}.

Inductive CommandSyntaxErrorKind :=
| UnknownCommand
| UnknownArgument
| Dynamic (message : TextComponent)
| ExpectedStartOfQuote
| ExpectedEndOfQuote
| InvalidEscape (character : Z)
| InvalidBool (value : text)
| InvalidInt (value : text)
| ExpectedInt
| InvalidLong (value : text)
| ExpectedLong
| InvalidDouble (value : text)
| ExpectedDouble
| InvalidFloat (value : text)
| ExpectedFloat
| ExpectedBool
| ExpectedSymbol (symbol : Z)
| LiteralIncorrect (expected : text)
| IntegerTooLow (found minimum : Z)
| IntegerTooHigh (found maximum : Z)
| LongTooLow (found minimum : Z)
| LongTooHigh (found maximum : Z)
| FloatTooLow (found minimum : f32)
| FloatTooHigh (found maximum : f32)
| DoubleTooLow (found minimum : f64)
| DoubleTooHigh (found maximum : f64)
| ExpectedArgumentSeparator.

Record CommandErrorContext := { err_input : text; err_cursor : nat; err_byte_cursor : nat }.
Record CommandSyntaxError := { err_kind : CommandSyntaxErrorKind; err_context : option CommandErrorContext }.

(** ** The reader *)

Record ReaderCursor := { c_byte : nat; c_utf16 : nat }.
Record StringReader := { input : text; total_length : nat; cursor : ReaderCursor }.

Definition reader_new (t : text) : StringReader :=
  {| input := t; total_length := utf16_len t; cursor := {| c_byte := 0; c_utf16 := 0 |} |}.

Definition with_cursor (c : ReaderCursor) (r : StringReader) : StringReader :=
  {| input := input r; total_length := total_length r; cursor := c |}.

Definition Parser (A : Type) : Type := StringReader -> outcome CommandSyntaxError A * StringReader.
Definition pret {A} (a : A) : Parser A := fun r => (Ok a, r).
Definition pbind {A B} (m : Parser A) (k : A -> Parser B) : Parser B := fun r =>
  match m r with
  | (Ok a, r) => k a r
  | (Err e, r) => (Err e, r)
  | (Panic, r) => (Panic, r)
  end.
Definition or_panic {A} (o : option A) : Parser A := fun r =>
  (match o with Some a => Ok a | None => Panic end, r).
Notation "'let!' x ':=' m 'in' k" := (pbind m (fun x => k))
  (at level 10, x name, m at level 100, k at level 200).

Definition get_reader : Parser StringReader := fun r => (Ok r, r).

Definition can_read (r : StringReader) : bool := (c_byte (cursor r) <? byte_len (input r))%nat.

Definition can_read_length (length : nat) (r : StringReader) : bool :=
  let end_ := (c_utf16 (cursor r) + length)%nat in
  (Z.of_nat end_ <=? usize_max) && (end_ <=? total_length r)%nat.

Definition remaining_length (r : StringReader) : nat := total_length r - c_utf16 (cursor r).

Definition remaining : Parser text := fun r => or_panic (slice_from (input r) (c_byte (cursor r))) r.
Definition read_so_far : Parser text := fun r => or_panic (slice_to (input r) (c_byte (cursor r))) r.

Definition peek : Parser (option Z) := let! t := remaining in pret (head t).

Definition read : Parser (option Z) :=
  let! c := peek in
  match c with
  | None => pret None
  | Some c => fun r =>
      (Ok (Some c), with_cursor {| c_byte := c_byte (cursor r) + len_utf8 c;
                                   c_utf16 := c_utf16 (cursor r) + len_utf16 c |} r)
  end.

Definition skip : Parser bool :=
  let! c := read in pret (match c with Some _ => true | None => false end).

Definition read_remaining : Parser text :=
  let! t := remaining in fun r =>
  (Ok t, with_cursor {| c_byte := byte_len (input r); c_utf16 := total_length r |} r).

Definition advance_bytes (bytes : nat) : Parser bool :=
  let! t := remaining in
  match slice_to t bytes with
  | None => pret false
  | Some consumed => fun r =>
      (Ok true, with_cursor {| c_byte := c_byte (cursor r) + bytes;
                               c_utf16 := c_utf16 (cursor r) + utf16_len consumed |} r)
  end.

Definition checkpoint : Parser ReaderCursor := fun r => (Ok (cursor r), r).
Definition restore (c : ReaderCursor) : Parser unit := fun r => (Ok tt, with_cursor c r).

Definition error_at (kind : CommandSyntaxErrorKind) (r : StringReader) : CommandSyntaxError :=
  {| err_kind := kind;
     err_context := Some {| err_input := input r; err_cursor := c_utf16 (cursor r);
                            err_byte_cursor := c_byte (cursor r) |} |}.

Definition fail {A} (kind : CommandSyntaxErrorKind) : Parser A := fun r => (Err (error_at kind r), r).

(** [while self.peek().is_some_and(P) { self.skip(); }]; each round reads a
    character. *)
Fixpoint skip_while_loop (fuel : nat) (P : Z -> bool) : Parser unit :=
  match fuel with
  | O => pret tt
  | S fuel =>
      let! c := peek in
      match c with
      | Some c => if P c then let! _ := skip in skip_while_loop fuel P else pret tt
      | None => pret tt
      end
  end.
Definition skip_while (P : Z -> bool) : Parser unit := fun r => skip_while_loop (length (input r)) P r.

Definition skip_whitespace : Parser unit := skip_while is_whitespace.

(** [&self.input[start.byte..self.cursor.byte]] *)
Definition text_since (start : ReaderCursor) : Parser text := fun r =>
  or_panic (slice_between (input r) (c_byte start) (c_byte (cursor r))) r.

Definition is_allowed_in_unquoted_string (c : Z) : bool :=
  is_ascii_alphanumeric c || (c =? 95) || (c =? 45) || (c =? 46) || (c =? 43).
Definition is_allowed_number (c : Z) : bool := is_ascii_digit c || (c =? 46) || (c =? 45).
Definition is_quoted_string_start (c : Z) : bool := (c =? 34) || (c =? 39).
Definition SYNTAX_ESCAPE : Z := 92.

Definition read_unquoted_string : Parser text :=
  let! start := checkpoint in
  let! _ := skip_while is_allowed_in_unquoted_string in
  text_since start.

Definition read_unquoted_token : Parser text :=
  let! start := checkpoint in
  let! _ := skip_while (fun c => negb (is_whitespace c)) in
  text_since start.

(** The loop of [read_string_until]; each round reads a character. *)
Fixpoint until_loop (fuel : nat) (terminator : Z) (result : text) (escaped : bool) : Parser text :=
  match fuel with
  | O => fail ExpectedEndOfQuote
  | S fuel =>
      let! r := get_reader in
      if can_read r then
        let! character_start := checkpoint in
        let! c := read in
        match c with
        | None => fail ExpectedEndOfQuote
        | Some c =>
            if escaped then
              if (c =? terminator) || (c =? SYNTAX_ESCAPE)
              then until_loop fuel terminator (result ++ [c]) false
              else let! _ := restore character_start in fail (InvalidEscape c)
            else if c =? SYNTAX_ESCAPE then until_loop fuel terminator result true
            else if c =? terminator then pret result
            else until_loop fuel terminator (result ++ [c]) false
        end
      else fail ExpectedEndOfQuote
  end.
Definition read_string_until (terminator : Z) : Parser text := fun r =>
  until_loop (S (length (input r))) terminator [] false r.

Definition read_quoted_string : Parser text :=
  let! next := peek in
  match next with
  | None => pret []
  | Some terminator =>
      if is_quoted_string_start terminator then
        let! _ := skip in read_string_until terminator
      else fail ExpectedStartOfQuote
  end.

Definition read_string : Parser text :=
  let! next := peek in
  match next with
  | None => pret []
  | Some next =>
      if is_quoted_string_start next then let! _ := skip in read_string_until next
      else read_unquoted_string
  end.

Definition read_number {T} (parse : text -> option T) (expected : CommandSyntaxErrorKind)
    (invalid : text -> CommandSyntaxErrorKind) : Parser T :=
  let! start := checkpoint in
  let! _ := skip_while is_allowed_number in
  let! number := text_since start in
  match number with
  | [] => fail expected
  | _ =>
      match parse number with
      | Some value => pret value
      | None => let! _ := restore start in fail (invalid number)
      end
  end.

Definition read_int : Parser Z := read_number (parse_integer i32_min i32_max) ExpectedInt InvalidInt.
Definition read_long : Parser Z := read_number (parse_integer i64_min i64_max) ExpectedLong InvalidLong.
Definition read_double : Parser f64 := read_number (parse_float 53 1024) ExpectedDouble InvalidDouble.
Definition read_float : Parser f32 := read_number (parse_float 24 128) ExpectedFloat InvalidFloat.

Definition text_true : text := [116; 114; 117; 101].
Definition text_false : text := [102; 97; 108; 115; 101].

Definition read_boolean : Parser bool :=
  let! start := checkpoint in
  let! value := read_string in
  if decide (value = text_true) then pret true
  else if decide (value = text_false) then pret false
  else if decide (value = []) then fail ExpectedBool
  else let! _ := restore start in fail (InvalidBool value).

Definition expect (expected : Z) : Parser unit :=
  let! c := peek in
  if decide (c = Some expected) then let! _ := skip in pret tt
  else fail (ExpectedSymbol expected).

Definition try_read_literal (literal : text) : Parser bool :=
  let! t := remaining in
  match strip_text_prefix literal t with
  | None => pret false
  | Some rest =>
      if match head rest with Some c => negb (c =? 32) | None => false end then pret false
      else fun r =>
        (Ok true, with_cursor {| c_byte := c_byte (cursor r) + byte_len literal;
                                 c_utf16 := c_utf16 (cursor r) + utf16_len literal |} r)
  end.

(** ** The built-in argument parsers *)

Inductive StringType := Word | QuotablePhrase | GreedyPhrase.

Inductive ArgumentType :=
| ArgBool
| ArgInteger (minimum maximum : Z)
| ArgLong (minimum maximum : Z)
| ArgFloat (minimum maximum : f32)
| ArgDouble (minimum maximum : f64)
| ArgString (t : StringType).

Inductive PrimitiveArgumentValue :=
| PBool (v : bool)
| PInteger (v : Z)
| PLong (v : Z)
| PFloat (v : f32)
| PDouble (v : f64)
| PString (v : text).

(** A number between its bounds; the reader is restored when it is not. *)
Definition bounded_number {T} (read_value : Parser T) (lt : T -> T -> bool) (minimum maximum : T)
    (too_low too_high : T -> T -> CommandSyntaxErrorKind) : Parser T :=
  let! start := checkpoint in
  let! value := read_value in
  if lt value minimum then let! _ := restore start in fail (too_low value minimum)
  else if lt maximum value then let! _ := restore start in fail (too_high value maximum)
  else pret value.

Definition parse_value (t : ArgumentType) : Parser PrimitiveArgumentValue :=
  match t with
  | ArgBool => let! v := read_boolean in pret (PBool v)
  | ArgInteger lo hi => let! v := bounded_number read_int Z.ltb lo hi IntegerTooLow IntegerTooHigh in pret (PInteger v)
  | ArgLong lo hi => let! v := bounded_number read_long Z.ltb lo hi LongTooLow LongTooHigh in pret (PLong v)
  | ArgFloat lo hi => let! v := bounded_number read_float SFltb lo hi FloatTooLow FloatTooHigh in pret (PFloat v)
  | ArgDouble lo hi => let! v := bounded_number read_double SFltb lo hi DoubleTooLow DoubleTooHigh in pret (PDouble v)
  | ArgString Word => let! t := read_unquoted_string in pret (PString t)
  | ArgString QuotablePhrase => let! t := read_string in pret (PString t)
  | ArgString GreedyPhrase => let! t := read_remaining in pret (PString t)
  end.
End Reader.

Notation "'let!' x ':=' m 'in' k" := (pbind m (fun x => k))
  (at level 10, x name, m at level 100, k at level 200).
Arguments CommandSyntaxErrorKind : clear implicits.
Arguments CommandSyntaxError : clear implicits.

(** ** Slices at character boundaries *)

Lemma len_utf8_pos c : (1 <= len_utf8 c)%nat.
Proof. unfold len_utf8. repeat case_match; lia. Qed.

Lemma byte_len_app a b : byte_len (a ++ b) = (byte_len a + byte_len b)%nat.
Proof. unfold byte_len. by rewrite fmap_app, sum_list_with_app || (induction a; simpl; lia). Qed.

Lemma utf16_len_app a b : utf16_len (a ++ b) = (utf16_len a + utf16_len b)%nat.
Proof. unfold utf16_len. by rewrite fmap_app, sum_list_with_app || (induction a; simpl; lia). Qed.

Lemma byte_split_cons c t n : (len_utf8 c <= n)%nat ->
  byte_split (c :: t) n = match byte_split t (n - len_utf8 c) with Some (a, b) => Some (c :: a, b) | None => None end.
Proof.
  intros Hn. pose proof (len_utf8_pos c). destruct n as [|n]; [lia|]. cbn [byte_split].
  by rewrite (proj2 (Nat.leb_le _ _)).
Qed.

Lemma byte_split_app a b : byte_split (a ++ b) (byte_len a) = Some (a, b).
Proof.
  induction a as [|c a IH]; [by destruct b|]. change (byte_len (c :: a)) with (len_utf8 c + byte_len a)%nat.
  rewrite <- app_comm_cons, byte_split_cons by lia.
  replace (len_utf8 c + byte_len a - len_utf8 c)%nat with (byte_len a) by lia. by rewrite IH.
Qed.

Lemma slice_from_app a b : slice_from (a ++ b) (byte_len a) = Some b.
Proof. unfold slice_from. by rewrite byte_split_app. Qed.

Lemma slice_to_app a b : slice_to (a ++ b) (byte_len a) = Some a.
Proof. unfold slice_to. by rewrite byte_split_app. Qed.

Lemma slice_between_app a w b : slice_between (a ++ w ++ b) (byte_len a) (byte_len (a ++ w)) = Some w.
Proof.
  unfold slice_between. rewrite byte_len_app, (proj2 (Nat.leb_le _ _)) by lia.
  rewrite slice_from_app. replace (_ + _ - _)%nat with (byte_len w) by lia. apply slice_to_app.
Qed.

Lemma byte_split_some t n a b : byte_split t n = Some (a, b) -> t = a ++ b /\ n = byte_len a.
Proof.
  revert n a. induction t as [|c t IH]; intros [|n] a Hs; simpl in Hs; simplify_eq; [done..|].
  destruct (Nat.leb_spec (len_utf8 c) (S n)); [|done].
  destruct (byte_split t (S n - len_utf8 c)) as [[a' b']|] eqn:Es; simplify_eq.
  apply IH in Es as [-> He]. split; [done|]. change (byte_len (c :: a')) with (len_utf8 c + byte_len a')%nat. lia.
Qed.

Lemma strip_text_some prefix t rest : strip_text_prefix prefix t = Some rest <-> t = prefix ++ rest.
Proof.
  revert t. induction prefix as [|a p IH]; intros [|b t]; simpl; [naive_solver..|].
  destruct (Z.eqb_spec a b) as [->|]; [rewrite IH|]; naive_solver.
Qed.

Lemma byte_len_zero t : byte_len t = 0%nat -> t = [].
Proof.
  destruct t as [|c t]; [done|]. change (byte_len (c :: t)) with (len_utf8 c + byte_len t)%nat.
  pose proof (len_utf8_pos c). lia.
Qed.

Lemma byte_len_one c : byte_len [c] = len_utf8 c.
Proof. apply Nat.add_0_r. Qed.

Lemma utf16_len_one c : utf16_len [c] = len_utf16 c.
Proof. apply Nat.add_0_r. Qed.

(** ** Readers with their cursors in place *)

Section Placed.
Context {TextComponent : Type}.

Definition place (pre : text) : ReaderCursor := {| c_byte := byte_len pre; c_utf16 := utf16_len pre |}.

Definition reader_at (pre post : text) : StringReader :=
  {| input := pre ++ post; total_length := utf16_len (pre ++ post); cursor := place pre |}.

Lemma reader_new_at t : reader_new t = reader_at [] t.
Proof. done. Qed.

Lemma can_read_at pre post : can_read (reader_at pre post) = negb (bool_decide (post = [])).
Proof.
  unfold can_read. simpl. rewrite byte_len_app. destruct (Nat.ltb_spec (byte_len pre) (byte_len pre + byte_len post)).
  - rewrite bool_decide_false; [done|]. intros ->. unfold byte_len in H at 3. simpl in H. lia.
  - rewrite bool_decide_true; [done|]. apply byte_len_zero. lia.
Qed.

Notation Parser := (@Parser TextComponent).

Lemma pbind_ok {A B} (m : Parser A) (k : A -> Parser B) r a r' :
  m r = (Ok a, r') -> pbind m k r = k a r'.
Proof. intros Hm. unfold pbind. by rewrite Hm. Qed.

Lemma remaining_at pre post : @remaining TextComponent (reader_at pre post) = (Ok post, reader_at pre post).
Proof. unfold remaining, or_panic. cbn [input cursor c_byte reader_at place]. by rewrite slice_from_app. Qed.

Lemma read_so_far_at pre post : @read_so_far TextComponent (reader_at pre post) = (Ok pre, reader_at pre post).
Proof. unfold read_so_far, or_panic. cbn [input cursor c_byte reader_at place]. by rewrite slice_to_app. Qed.

Lemma peek_at pre post : @peek TextComponent (reader_at pre post) = (Ok (head post), reader_at pre post).
Proof. unfold peek. by rewrite (pbind_ok _ _ _ _ _ (remaining_at pre post)). Qed.

Lemma snoc_at pre c post : with_cursor {| c_byte := byte_len pre + len_utf8 c; c_utf16 := utf16_len pre + len_utf16 c |}
  (reader_at pre (c :: post)) = reader_at (pre ++ [c]) post.
Proof.
  unfold with_cursor, reader_at, place. cbn [input total_length]. rewrite <- !app_assoc.
  rewrite (byte_len_app pre [c]), (utf16_len_app pre [c]), byte_len_one, utf16_len_one. done.
Qed.

Lemma read_at pre c post : @read TextComponent (reader_at pre (c :: post)) = (Ok (Some c), reader_at (pre ++ [c]) post).
Proof. unfold read. rewrite (pbind_ok _ _ _ _ _ (peek_at pre (c :: post))). simpl head. cbv iota beta. by rewrite <- snoc_at. Qed.

Lemma read_at_end pre : @read TextComponent (reader_at pre []) = (Ok None, reader_at pre []).
Proof. unfold read. by rewrite (pbind_ok _ _ _ _ _ (peek_at pre [])). Qed.

Lemma skip_at pre c post : @skip TextComponent (reader_at pre (c :: post)) = (Ok true, reader_at (pre ++ [c]) post).
Proof. unfold skip. by rewrite (pbind_ok _ _ _ _ _ (read_at pre c post)). Qed.

Lemma skip_at_end pre : @skip TextComponent (reader_at pre []) = (Ok false, reader_at pre []).
Proof. unfold skip. by rewrite (pbind_ok _ _ _ _ _ (read_at_end pre)). Qed.

Lemma read_remaining_at pre post : @read_remaining TextComponent (reader_at pre post) = (Ok post, reader_at (pre ++ post) []).
Proof.
  unfold read_remaining. rewrite (pbind_ok _ _ _ _ _ (remaining_at pre post)).
  unfold with_cursor, reader_at, place. cbn [input total_length]. by rewrite (app_nil_r (pre ++ post)).
Qed.

Lemma advanced_at pre w post :
  with_cursor {| c_byte := byte_len pre + byte_len w; c_utf16 := utf16_len pre + utf16_len w |}
    (reader_at pre (w ++ post)) = reader_at (pre ++ w) post.
Proof.
  unfold with_cursor, reader_at, place. cbn [input total_length]. rewrite <- app_assoc.
  by rewrite (byte_len_app pre w), (utf16_len_app pre w).
Qed.

Lemma advance_at pre w post : @advance_bytes TextComponent (byte_len w) (reader_at pre (w ++ post)) =
  (Ok true, reader_at (pre ++ w) post).
Proof.
  unfold advance_bytes. rewrite (pbind_ok _ _ _ _ _ (remaining_at pre _)), slice_to_app.
  by rewrite <- advanced_at.
Qed.

Lemma advance_cases bytes pre post : (exists w post', post = w ++ post' /\ bytes = byte_len w /\
    @advance_bytes TextComponent bytes (reader_at pre post) = (Ok true, reader_at (pre ++ w) post')) \/
  @advance_bytes TextComponent bytes (reader_at pre post) = (Ok false, reader_at pre post).
Proof.
  destruct (byte_split post bytes) as [[w post']|] eqn:Es.
  - apply byte_split_some in Es as [-> ->]. left. exists w, post'. by rewrite advance_at.
  - right. unfold advance_bytes. rewrite (pbind_ok _ _ _ _ _ (remaining_at pre post)). unfold slice_to. by rewrite Es.
Qed.

(** The longest prefix whose characters satisfy [P], and the rest *)
Fixpoint span (P : Z -> bool) (t : text) : text * text :=
  match t with
  | [] => ([], [])
  | c :: rest => if P c then let (a, b) := span P rest in (c :: a, b) else ([], t)
  end.

Lemma span_app P t : t = (span P t).1 ++ (span P t).2.
Proof. induction t as [|c t IH]; [done|]. simpl. destruct (P c); [|done]. destruct (span P t). simpl in *. by rewrite IH at 1. Qed.

Lemma span_all P w post : Forall (fun c => P c = true) w -> match head post with Some c => P c = false | None => True end ->
  span P (w ++ post) = (w, post).
Proof.
  induction 1 as [|c w Hc Hw IH]; intros Hp; simpl.
  - destruct post as [|c post]; [done|]. simpl in *. by rewrite Hp.
  - by rewrite Hc, IH.
Qed.

Lemma skip_loop_at fuel P pre post : (length post <= fuel)%nat ->
  @skip_while_loop TextComponent fuel P (reader_at pre post) = (Ok tt, reader_at (pre ++ (span P post).1) (span P post).2).
Proof.
  revert pre post. induction fuel as [|fuel IH]; intros pre post Hl.
  - destruct post; [|simpl in Hl; lia]. cbn [span fst snd]. by rewrite (app_nil_r pre).
  - cbn [skip_while_loop]. rewrite (pbind_ok _ _ _ _ _ (peek_at pre post)).
    destruct post as [|c post]; [cbn [span fst snd]; by rewrite (app_nil_r pre)|]. cbn [head span].
    destruct (P c); [|cbn [fst snd]; by rewrite (app_nil_r pre)].
    rewrite (pbind_ok _ _ _ _ _ (skip_at pre c post)), IH by (simpl in Hl; lia).
    destruct (span P post) as [a b]. cbn [fst snd]. by rewrite <- (app_assoc pre [c]).
Qed.

Lemma skip_while_at P pre post :
  @skip_while TextComponent P (reader_at pre post) = (Ok tt, reader_at (pre ++ (span P post).1) (span P post).2).
Proof. apply skip_loop_at. simpl. rewrite length_app. lia. Qed.

Lemma text_since_at pre w post :
  @text_since TextComponent (place pre) (reader_at (pre ++ w) post) =
  (Ok w, reader_at (pre ++ w) post).
Proof.
  unfold text_since, or_panic. cbn [input cursor c_byte reader_at place]. by rewrite <- app_assoc, slice_between_app.
Qed.

Lemma checkpoint_at {A} pre post (k : ReaderCursor -> Parser A) :
  (let! start := checkpoint in k start) (reader_at pre post) = k (place pre) (reader_at pre post).
Proof. done. Qed.

Lemma restore_at {A} pre w post (k : unit -> Parser A) :
  (let! u := restore (place pre) in k u) (reader_at (pre ++ w) post) = k tt (reader_at pre (w ++ post)).
Proof.
  unfold pbind, restore, with_cursor. cbn [input total_length reader_at]. by rewrite <- app_assoc.
Qed.

(** Skipping and taking what was skipped *)
Lemma skipped_at {A} P pre post (k : text -> Parser A) :
  (let! u := skip_while P in let! t := text_since (place pre) in k t) (reader_at pre post) =
  k (span P post).1 (reader_at (pre ++ (span P post).1) (span P post).2).
Proof.
  rewrite (pbind_ok _ _ _ _ _ (skip_while_at P pre post)). by rewrite (pbind_ok _ _ _ _ _ (text_since_at _ _ _)).
Qed.
End Placed.

(** ** Readers only move forward *)

Section Safety.
Context {TextComponent : Type}.
Notation Parser := (@Parser TextComponent).

(** From any place the method returns, without panicking, at that place or
    further on, with the input unchanged. *)
Definition forward {A} (m : Parser A) : Prop := forall pre post, exists o w post',
  post = w ++ post' /\ o <> Panic /\ m (reader_at pre post) = (o, reader_at (pre ++ w) post').

Lemma forward_still {A} (m : Parser A) : (forall pre post, exists o, o <> Panic /\
  m (reader_at pre post) = (o, reader_at pre post)) -> forward m.
Proof. intros Hm pre post. destruct (Hm pre post) as (o & Ho & He). exists o, [], post. by rewrite (app_nil_r pre). Qed.

Lemma forward_pret {A} (a : A) : forward (pret a).
Proof. apply forward_still. by exists (Ok a). Qed.

Lemma forward_fail {A} kind : forward (fail (A := A) kind).
Proof. apply forward_still. intros. by eexists (Err _). Qed.

Lemma forward_peek : forward peek.
Proof. apply forward_still. intros pre post. exists (Ok (head post)). by rewrite peek_at. Qed.

Lemma forward_checkpoint : forward checkpoint.
Proof. apply forward_still. intros pre post. by exists (Ok (place pre)). Qed.

Lemma forward_remaining : forward remaining.
Proof. apply forward_still. intros pre post. exists (Ok post). by rewrite remaining_at. Qed.

Lemma forward_read : forward read.
Proof.
  intros pre [|c post]; [exists (Ok None), [], []|exists (Ok (Some c)), [c], post].
  - by rewrite read_at_end, (app_nil_r pre).
  - by rewrite read_at.
Qed.

Lemma forward_bind {A B} (m : Parser A) (k : A -> Parser B) :
  forward m -> (forall a, forward (k a)) -> forward (pbind m k).
Proof.
  intros Hm Hk pre post. destruct (Hm pre post) as (o & w & post' & -> & Ho & He). unfold pbind. rewrite He.
  destruct o as [a|e|]; [|by exists (Err e), w, post'|done].
  destruct (Hk a (pre ++ w) post') as (o' & w' & post2 & -> & Ho' & ->).
  exists o', (w ++ w'), post2. by rewrite (app_assoc w w'), (app_assoc pre w).
Qed.

Lemma forward_skip : forward skip.
Proof. apply forward_bind; [apply forward_read|intros; apply forward_pret]. Qed.

Lemma forward_read_remaining : forward read_remaining.
Proof. intros pre post. exists (Ok post), post, []. by rewrite read_remaining_at, (app_nil_r post). Qed.

Lemma forward_skip_while P : forward (skip_while P).
Proof.
  intros pre post. exists (Ok tt), (span P post).1, (span P post).2. rewrite skip_while_at. by rewrite <- span_app.
Qed.

(** A method that takes what it skipped may restore the place it started from. *)
Lemma forward_skipped {A} P (k : ReaderCursor -> text -> Parser A) :
  (forall pre w post, w = (span P (w ++ post)).1 -> exists o w' post', w ++ post = w' ++ post' /\ o <> Panic /\
    k (place pre) w (reader_at (pre ++ w) post) = (o, reader_at (pre ++ w') post')) ->
  forward (let! start := checkpoint in let! u := skip_while P in let! t := text_since start in k start t).
Proof.
  intros Hk pre post. rewrite checkpoint_at, skipped_at.
  destruct (Hk pre (span P post).1 (span P post).2) as (o & w' & post' & He & Ho & ->); [by rewrite <- span_app|].
  exists o, w', post'. by rewrite <- span_app in He.
Qed.

Lemma forward_unquoted : forward read_unquoted_string.
Proof.
  unfold read_unquoted_string. intros pre post. rewrite checkpoint_at.
  rewrite (pbind_ok _ _ _ _ _ (skip_while_at _ pre post)), text_since_at.
  eexists (Ok _), _, _. split; [apply span_app|done].
Qed.

Lemma forward_token : forward read_unquoted_token.
Proof.
  unfold read_unquoted_token. intros pre post. rewrite checkpoint_at.
  rewrite (pbind_ok _ _ _ _ _ (skip_while_at _ pre post)), text_since_at.
  eexists (Ok _), _, _. split; [apply span_app|done].
Qed.

Lemma forward_number {T} (parse : text -> option T) expected invalid : forward (read_number parse expected invalid).
Proof.
  unfold read_number. apply forward_skipped. intros pre w post _. destruct w as [|c w].
  { exists (Err (error_at expected (reader_at (pre ++ []) post))), [], post. done. }
  destruct (parse (c :: w)) as [v|]; [by exists (Ok v), (c :: w), post|].
  rewrite restore_at. eexists (Err _), [], ((c :: w) ++ post). split; [done|]. split; [done|].
  by rewrite (app_nil_r pre).
Qed.

Lemma get_reader_at {A} pre post (k : StringReader -> Parser A) :
  (let! r := get_reader in k r) (reader_at pre post) = k (reader_at pre post) (reader_at pre post).
Proof. done. Qed.

Lemma forward_until fuel q result escaped : forward (until_loop fuel q result escaped).
Proof.
  revert result escaped. induction fuel as [|fuel IH]; intros result escaped; [apply forward_fail|].
  intros pre post. cbn [until_loop]. rewrite get_reader_at, can_read_at.
  destruct post as [|c post]; [apply forward_fail|]. rewrite bool_decide_false by done. cbn [negb]. rewrite checkpoint_at.
  rewrite (pbind_ok _ _ _ _ _ (read_at pre c post)).
  assert (Hgo : forall m : Parser text, forward m -> exists o w post', c :: post = w ++ post' /\ o <> Panic /\
    m (reader_at (pre ++ [c]) post) = (o, reader_at (pre ++ w) post')).
  { intros m Hm. destruct (Hm (pre ++ [c]) post) as (o & w & post' & -> & Ho & ->).
    exists o, (c :: w), post'. by rewrite <- (app_assoc pre [c]). }
  destruct escaped.
  - destruct (_ || _); [apply Hgo, IH|]. rewrite (restore_at pre [c] post).
    eexists (Err _), [], (c :: post). split; [done|]. split; [done|]. by rewrite (app_nil_r pre).
  - destruct (_ =? _); [apply Hgo, IH|]. destruct (_ =? _); [apply Hgo, forward_pret|apply Hgo, IH].
Qed.

Lemma forward_read_until q : forward (read_string_until q).
Proof. intros pre post. unfold read_string_until. apply forward_until. Qed.

Lemma forward_quoted : forward read_quoted_string.
Proof.
  apply forward_bind; [apply forward_peek|]. intros [c|]; [|apply forward_pret].
  destruct (is_quoted_string_start c); [|apply forward_fail].
  apply forward_bind; [apply forward_skip|]. intros _. apply forward_read_until.
Qed.

Lemma forward_string : forward read_string.
Proof.
  apply forward_bind; [apply forward_peek|]. intros [c|]; [|apply forward_pret].
  destruct (is_quoted_string_start c); [|apply forward_unquoted].
  apply forward_bind; [apply forward_skip|]. intros _. apply forward_read_until.
Qed.

(** A method that may restore the place it started from, after another *)
Lemma forward_restoring {A B} (m : Parser A) (k : ReaderCursor -> A -> Parser B) :
  forward m ->
  (forall pre w post a, exists o w' post', w ++ post = w' ++ post' /\ o <> Panic /\
    k (place pre) a (reader_at (pre ++ w) post) = (o, reader_at (pre ++ w') post')) ->
  forward (let! start := checkpoint in let! a := m in k start a).
Proof.
  intros Hm Hk pre post. rewrite checkpoint_at. destruct (Hm pre post) as (o & w & post' & -> & Ho & He).
  unfold pbind. rewrite He. destruct o as [a|e|]; [apply Hk|by exists (Err e), w, post'|done].
Qed.

Lemma restored {A} pre w post kind : exists (o : outcome (CommandSyntaxError TextComponent) A) w' post',
  w ++ post = w' ++ post' /\ o <> Panic /\
  (let! u := restore (place pre) in fail kind) (reader_at (pre ++ w) post) = (o, reader_at (pre ++ w') post').
Proof. rewrite restore_at. eexists (Err _), [], (w ++ post). by rewrite (app_nil_r pre). Qed.

Lemma stayed {A} pre w post (o : outcome (CommandSyntaxError TextComponent) A) : o <> Panic ->
  exists o' w' post', w ++ post = w' ++ post' /\ o' <> Panic /\
  (o, reader_at (pre ++ w) post) = (o', reader_at (pre ++ w') post').
Proof. intros Ho. by exists o, w, post. Qed.

Lemma forward_boolean : forward read_boolean.
Proof.
  apply forward_restoring; [apply forward_string|]. intros pre w post t.
  repeat case_decide; [by apply stayed..|apply restored].
Qed.

Lemma forward_bounded {T} (m : Parser T) lt lo hi low high : forward m -> forward (bounded_number m lt lo hi low high).
Proof.
  intros Hm. apply forward_restoring; [done|]. intros pre w post v.
  destruct (lt v lo); [apply restored|]. destruct (lt hi v); [apply restored|by apply stayed].
Qed.

Lemma forward_parse_value t : forward (parse_value t).
Proof.
  destruct t as [| | | | |[]]; apply forward_bind; intros; try apply forward_pret.
  - apply forward_boolean.
  - apply forward_bounded, forward_number.
  - apply forward_bounded, forward_number.
  - apply forward_bounded, forward_number.
  - apply forward_bounded, forward_number.
  - apply forward_unquoted.
  - apply forward_string.
  - apply forward_read_remaining.
Qed.

(** A literal is read if it is there and ends at a space or at the end. *)
Lemma literal_cases literal pre post :
  (exists post', post = literal ++ post' /\ match head post' with Some c => c = 32 | None => True end /\
    @try_read_literal TextComponent literal (reader_at pre post) = (Ok true, reader_at (pre ++ literal) post')) \/
  @try_read_literal TextComponent literal (reader_at pre post) = (Ok false, reader_at pre post).
Proof.
  unfold try_read_literal. rewrite (pbind_ok _ _ _ _ _ (remaining_at pre post)).
  destruct (strip_text_prefix literal post) as [rest|] eqn:Es; [|by right]. apply strip_text_some in Es as ->.
  destruct (head rest) as [c|] eqn:Eh; [destruct (Z.eqb_spec c 32); [|by right]|];
    left; exists rest; (split; [done|]); rewrite Eh; (split; [done|]); by rewrite <- advanced_at.
Qed.

Lemma literal_at literal pre post : match head post with Some c => c = 32 | None => True end ->
  @try_read_literal TextComponent literal (reader_at pre (literal ++ post)) = (Ok true, reader_at (pre ++ literal) post).
Proof.
  intros Hh. unfold try_read_literal. rewrite (pbind_ok _ _ _ _ _ (remaining_at pre _)).
  rewrite (proj2 (strip_text_some literal (literal ++ post) post) eq_refl).
  replace (match head post with Some c => negb (c =? 32) | None => false end) with false by (by destruct (head post); subst).
  by rewrite <- advanced_at.
Qed.

Lemma forward_literal literal : forward (try_read_literal literal).
Proof.
  intros pre post. destruct (literal_cases literal pre post) as [(post' & -> & _ & ->)| ->].
  - by exists (Ok true), literal, post'.
  - exists (Ok false), [], post. by rewrite (app_nil_r pre).
Qed.

Lemma forward_expect c : forward (expect c).
Proof.
  apply forward_bind; [apply forward_peek|]. intros x. case_decide; [|apply forward_fail].
  apply forward_bind; [apply forward_skip|]. intros; apply forward_pret.
Qed.

Lemma forward_advance n : forward (advance_bytes n).
Proof.
  intros pre post. destruct (@advance_cases TextComponent n pre post) as [(w & post' & -> & _ & ->)| ->].
  - by exists (Ok true), w, post'.
  - exists (Ok false), [], post. by rewrite (app_nil_r pre).
Qed.
End Safety.

#[export] Hint Resolve forward_pret forward_fail forward_peek forward_read forward_skip forward_remaining
  forward_skip_while forward_unquoted forward_token forward_number forward_quoted forward_string forward_boolean
  forward_parse_value forward_literal forward_expect forward_advance forward_read_remaining : reader.

(** ** Quoted strings *)

(** The text of [s] between quotes [q] *)
Definition escape (q : Z) (s : text) : text :=
  s ≫= (fun c => if (c =? q) || (c =? SYNTAX_ESCAPE) then [SYNTAX_ESCAPE; c] else [c]).
Definition quoted (q : Z) (s : text) : text := q :: escape q s ++ [q].

Section Quoted.
Context {TextComponent : Type}.

Lemma until_step fuel q result escaped pre c post :
  @until_loop TextComponent (S fuel) q result escaped (reader_at pre (c :: post)) =
  (if escaped then
     if (c =? q) || (c =? SYNTAX_ESCAPE)
     then until_loop fuel q (result ++ [c]) false
     else let! u := restore (place pre) in fail (InvalidEscape c)
   else if c =? SYNTAX_ESCAPE then until_loop fuel q result true
   else if c =? q then pret result
   else until_loop fuel q (result ++ [c]) false) (reader_at (pre ++ [c]) post).
Proof.
  cbn [until_loop]. rewrite get_reader_at, can_read_at, bool_decide_false by done. cbn [negb].
  rewrite checkpoint_at, (pbind_ok _ _ _ _ _ (read_at pre c post)). by destruct escaped.
Qed.

Lemma until_escaped s fuel q result pre post :
  is_quoted_string_start q = true -> (length (escape q s) < fuel)%nat ->
  @until_loop TextComponent fuel q result false (reader_at pre (escape q s ++ q :: post)) =
  (Ok (result ++ s), reader_at (pre ++ escape q s ++ [q]) post).
Proof.
  intros Hq. assert (q <> SYNTAX_ESCAPE) as Hne.
  { intros ->. done. }
  revert fuel result pre. induction s as [|c s IH]; intros [|fuel] result pre Hl; [simpl in Hl; lia| |simpl in Hl; lia|].
  - change (escape q [] ++ q :: post) with (q :: post). rewrite until_step.
    rewrite (proj2 (Z.eqb_neq _ _) Hne), Z.eqb_refl. by rewrite (app_nil_r result).
  - unfold escape in *. cbn [mbind list_bind] in *. destruct (_ || _) eqn:Ec.
    + simpl in Hl. destruct fuel as [|fuel]; [lia|]. rewrite <- !app_comm_cons, until_step, Z.eqb_refl.
      cbn [app]. rewrite until_step, Ec, IH by (simpl in *; lia). f_equal; [by rewrite <- app_assoc|].
      f_equal. by rewrite <- !(app_assoc pre).
    + simpl in Hl. apply orb_false_iff in Ec as [E1 E2]. cbn [app]. rewrite until_step, E1, E2, IH by lia.
      f_equal; [by rewrite <- app_assoc|]. f_equal. by rewrite <- (app_assoc pre [c]).
Qed.

(** A quoted string, with the quote and the backslash escaped, is read back
    as it was, whatever follows it. *)
Theorem quoted_roundtrip q s pre post : is_quoted_string_start q = true ->
  @read_string TextComponent (reader_at pre (quoted q s ++ post)) = (Ok s, reader_at (pre ++ quoted q s) post).
Proof.
  intros Hq. unfold read_string, quoted. rewrite <- app_comm_cons, <- app_assoc.
  rewrite (pbind_ok _ _ _ _ _ (peek_at pre _)). cbn [head]. rewrite Hq.
  rewrite (pbind_ok _ _ _ _ _ (skip_at pre q _)). unfold read_string_until. cbn [app].
  rewrite until_escaped; [|done|cbn [input reader_at]; rewrite !length_app; simpl; lia].
  f_equal. f_equal. by rewrite <- (app_assoc pre [q]).
Qed.

Lemma read_number_at {T} (parse : text -> option T) expected invalid pre post :
  @read_number TextComponent T parse expected invalid (reader_at pre post) =
  let w := (span is_allowed_number post).1 in
  match w with
  | [] => (Err (error_at expected (reader_at pre post)), reader_at pre post)
  | _ =>
      match parse w with
      | Some v => (Ok v, reader_at (pre ++ w) (span is_allowed_number post).2)
      | None => (Err (error_at (invalid w) (reader_at pre post)), reader_at pre post)
      end
  end.
Proof.
  unfold read_number. rewrite checkpoint_at, skipped_at. pose proof (span_app is_allowed_number post) as Hs.
  destruct (span is_allowed_number post) as [[|c w] rest]; cbn [fst snd] in *.
  - by rewrite (app_nil_r pre), Hs.
  - destruct (parse (c :: w)); [done|]. rewrite restore_at, <- Hs. done.
Qed.

(** A number that is refused is not read. *)
Lemma refused_number {T} (parse : text -> option T) expected invalid lt lo hi low high pre post :
  match @bounded_number TextComponent T (read_number parse expected invalid) lt lo hi low high (reader_at pre post) with
  | (Ok v, r) => parse (span is_allowed_number post).1 = Some v /\ lt v lo = false /\ lt hi v = false /\
      r = reader_at (pre ++ (span is_allowed_number post).1) (span is_allowed_number post).2
  | (Err _, r) => r = reader_at pre post
  | (Panic, _) => False
  end.
Proof.
  unfold bounded_number. rewrite checkpoint_at. pose proof (span_app is_allowed_number post) as Hs.
  unfold pbind at 1. rewrite read_number_at.
  destruct (span is_allowed_number post) as [[|c w] rest]; cbn [fst snd] in *; [done|].
  destruct (parse (c :: w)) as [v|]; [|done].
  destruct (lt v lo) eqn:El; [by rewrite restore_at, <- Hs|].
  destruct (lt hi v) eqn:Eh; [by rewrite restore_at, <- Hs|]. done.
Qed.
End Quoted.

(** ** Any sequence of calls *)

(** The public methods of the reader *)
Inductive ReaderCall :=
| CallPeek
| CallRead
| CallSkip
| CallReadRemaining
| CallAdvanceBytes (bytes : nat)
| CallSkipWhitespace
| CallUnquotedToken
| CallQuotedString
| CallExpect (c : Z)
| CallLiteral (literal : text)
| CallParse (t : ArgumentType).

Section Calls.
Context {TextComponent : Type}.

Definition discard {A} (m : @Parser TextComponent A) : @Parser TextComponent unit := let! x := m in pret tt.

Definition call (c : ReaderCall) : @Parser TextComponent unit :=
  match c with
  | CallPeek => discard peek
  | CallRead => discard read
  | CallSkip => discard skip
  | CallReadRemaining => discard read_remaining
  | CallAdvanceBytes bytes => discard (advance_bytes bytes)
  | CallSkipWhitespace => skip_whitespace
  | CallUnquotedToken => discard read_unquoted_token
  | CallQuotedString => discard read_quoted_string
  | CallExpect c => expect c
  | CallLiteral literal => discard (try_read_literal literal)
  | CallParse t => discard (parse_value t)
  end.

Lemma forward_call c : forward (call c).
Proof.
  destruct c; unfold call, discard, skip_whitespace;
    first [solve [eauto with reader] | apply forward_bind; intros; eauto with reader].
Qed.

(** The outcomes of a sequence of calls, errors of one not keeping the next
    from being made, and the reader they leave *)
Fixpoint calls (cs : list ReaderCall) (r : StringReader) : list (outcome (CommandSyntaxError TextComponent) unit) * StringReader :=
  match cs with
  | [] => ([], r)
  | c :: cs => let (o, r) := call c r in let (os, r) := calls cs r in (o :: os, r)
  end.

(** Whatever text is read and whatever is called, in any order and after any
    errors, no call panics, and both cursors stay at the boundary of the same
    character. *)
Theorem reader_never_panics t cs : exists pre post,
  t = pre ++ post /\ (calls cs (reader_new t)).2 = reader_at pre post /\ Panic ∉ (calls cs (reader_new t)).1.
Proof.
  rewrite reader_new_at. change t with ([] ++ t) at 1. generalize (@nil Z) as pre, t as post.
  induction cs as [|c cs IH]; intros pre post; [exists pre, post; split; [done|]; split; [done|]; apply not_elem_of_nil|].
  cbn [calls]. destruct (forward_call c pre post) as (o & w & post' & -> & Ho & ->).
  destruct (IH (pre ++ w) post') as (a & b & He & Hr & Hp). rewrite (app_assoc pre w).
  destruct (calls cs _) as [os r]. exists a, b. split; [done|]. split; [done|]. simpl in *.
  apply not_elem_of_cons. done.
Qed.
End Calls.

Lemma quoted_roundtrip_witness : is_quoted_string_start 34 = true /\
  @read_string unit (reader_at [97] (quoted 34 [98; 34; 92] ++ [32])) = (Ok [98; 34; 92], reader_at ([97] ++ quoted 34 [98; 34; 92]) [32]).
Proof. split; [done|]. by apply (quoted_roundtrip 34 [98; 34; 92] [97] [32]). Defined.
