(* ===== verification/CommandGraph.v ===== *)
(** * The graph of commands

    Models [steel-core/src/command/brigadier/node.rs], the normalization of
    [builder.rs] and the registration of [dispatcher.rs].  The dispatcher owns
    an arena of nodes; a node is named by its dispatcher and its index.  A tree
    of nodes is normalized (siblings of one name are merged), checked against
    the arena, and only then merged into it.

    Predicates and modifiers are compared by address: an [Arc] is its address
    with its value.

    [register_keeps_arena]: the arena stays well-formed: children and redirect
    targets exist, siblings have different names, and no redirect is left to be
    resolved.  What was registered stays where it was. *)

From Stdlib Require Import Lia ZArith.
From stdpp Require Import prelude list.
From S2P Require Import Prelude CommandReader.

(** What a command runtime supplies ([runtime.rs]) *)
Class CommandRuntime : Type := {
  Source : Type;
  Argument : Type;
  ArgumentValue : Type;
  Executor : Type;
  Modifier : Type;
  SuggestionProvider : Type;
  TextComponent : Type;
  argument_eqb : Argument -> Argument -> bool;
  parse_argument : Argument -> Source -> @Parser TextComponent ArgumentValue
}.

(** The standalone runtime of [runtime.rs]: the built-in parsers *)
Definition BrigadierRuntime (S E M P T : Type) (eqb : ArgumentType -> ArgumentType -> bool)
    : CommandRuntime := {|
  Source := S;
  Argument := ArgumentType;
  ArgumentValue := PrimitiveArgumentValue;
  Executor := E;
  Modifier := M;
  SuggestionProvider := P;
  TextComponent := T;
  argument_eqb := eqb;
  parse_argument a _ := parse_value a
|}.

Record Arc (A : Type) := mk_arc { arc_addr : positive; arc_val : A }.
Arguments mk_arc {A}.
Arguments arc_addr {A}.
Arguments arc_val {A}.
Definition ptr_eq {A} (a b : Arc A) : bool := Pos.eqb (arc_addr a) (arc_addr b).

Record NodeId := mk_id { dispatcher : Z; index : nat }.
#[export] Instance NodeId_eq_dec : EqDecision NodeId.
Proof. solve_decision. Defined.

Inductive CommandRedirectTarget :=
| RedirectNode (id : NodeId)
| CommandRoot.
#[export] Instance CommandRedirectTarget_eq_dec : EqDecision CommandRedirectTarget.
Proof. solve_decision. Defined.

Inductive NodeKind := KindRoot | KindLiteral | KindArgument.
Inductive CommandRequirementKind := Authorization | ContextKind.
#[export] Instance CommandRequirementKind_eq_dec : EqDecision CommandRequirementKind.
Proof. solve_decision. Defined.

Inductive RegistrationErrorKind :=
| ArgumentRoot
| NodeKindCollision (name : text) (existing incoming : NodeKind)
| ArgumentTypeCollision (name : text)
| RequirementCollision (name : text)
| RedirectCollision (name : text)
| RedirectWithChildren (name : text)
| InvalidRedirectTarget (target : NodeId).

Definition same_pointer {A} (a b : option (Arc A)) : bool :=
  match a, b with
  | None, None => true
  | Some a, Some b => ptr_eq a b
  | _, _ => false
  end.

Section Graph.
Context `{!CommandRuntime}.

(** ** Requirements *)

Record CommandRequirement := {
  predicate : option (Arc (Source -> bool));
  req_kind : option CommandRequirementKind
}.

Definition allow_all : CommandRequirement := {| predicate := None; req_kind := None |}.
Definition authorization (addr : positive) (p : Source -> bool) : CommandRequirement :=
  {| predicate := Some (mk_arc addr p); req_kind := Some Authorization |}.
Definition contextual (addr : positive) (p : Source -> bool) : CommandRequirement :=
  {| predicate := Some (mk_arc addr p); req_kind := Some ContextKind |}.

Definition allows (r : CommandRequirement) (source : Source) : bool :=
  match predicate r with Some p => arc_val p source | None => true end.

Definition is_authorization (r : CommandRequirement) : bool :=
  match req_kind r with Some Authorization => true | _ => false end.

(** [and]; the predicate of both is a new [Arc]. *)
Definition requirement_and (addr : positive) (a b : CommandRequirement) : CommandRequirement :=
  {| req_kind :=
       match req_kind a, req_kind b with
       | Some Authorization, _ | _, Some Authorization => Some Authorization
       | Some ContextKind, _ | _, Some ContextKind => Some ContextKind
       | None, None => None
       end;
     predicate :=
       match predicate a, predicate b with
       | None, None => None
       | Some p, None | None, Some p => Some p
       | Some p, Some q => Some (mk_arc addr (fun s => arc_val p s && arc_val q s))
       end |}.

Definition requirement_compatible (a b : CommandRequirement) : bool :=
  bool_decide (req_kind a = req_kind b) && same_pointer (predicate a) (predicate b).

(** ** Nodes *)

Record CommandRedirect := {
  target : CommandRedirectTarget;
  modifier : option (Arc Modifier);
  forks : bool
}.

Definition redirect_compatible (a b : CommandRedirect) : bool :=
  bool_decide (target a = target b) && Bool.eqb (forks a) (forks b) && same_pointer (modifier a) (modifier b).

Definition redirects_are_compatible (a b : option CommandRedirect) : bool :=
  match a, b with
  | None, None => true
  | Some a, Some b => redirect_compatible a b
  | _, _ => false
  end.

Record ArgumentData := { argument_type : Argument; custom_suggestions : option SuggestionProvider }.

Inductive CommandNodeData :=
| DataRoot
| DataLiteral (name : text)
| DataArgument (name : text) (data : ArgumentData).

Definition data_name (d : CommandNodeData) : text :=
  match d with DataRoot => [] | DataLiteral name | DataArgument name _ => name end.
Definition data_kind (d : CommandNodeData) : NodeKind :=
  match d with DataRoot => KindRoot | DataLiteral _ => KindLiteral | DataArgument _ _ => KindArgument end.

Definition collision_with (a b : CommandNodeData) : option RegistrationErrorKind :=
  let collision := Some (NodeKindCollision (data_name b) (data_kind a) (data_kind b)) in
  match a, b with
  | DataLiteral first, DataLiteral second => if decide (first = second) then None else collision
  | DataArgument first first_data, DataArgument second second_data =>
      if decide (first = second) then
        if argument_eqb (argument_type first_data) (argument_type second_data) then None
        else Some (ArgumentTypeCollision (data_name b))
      else collision
  | _, _ => collision
  end.

(** What a node of the arena and a node yet to be registered have in common *)
Record NodeBody := {
  data : CommandNodeData;
  executor : option Executor;
  requirement : CommandRequirement;
  execution_requirement : CommandRequirement;
  redirect : option CommandRedirect
}.

Record CommandNode := { body : NodeBody; children : list NodeId }.

Definition root_body : NodeBody :=
  {| data := DataRoot; executor := None; requirement := allow_all; execution_requirement := allow_all;
     redirect := None |}.
Definition root_node : CommandNode := {| body := root_body; children := [] |}.

Definition name (n : CommandNode) : text := data_name (data (body n)).

Definition can_execute (n : CommandNode) (source : Source) : bool :=
  match executor (body n) with Some _ => true | None => false end &&
  allows (requirement (body n)) source && allows (execution_requirement (body n)) source.

(** [CommandNode::redirect]; a target that was not resolved is unreachable. *)
Definition node_redirect (n : CommandNode) : run (option NodeId) :=
  match redirect (body n) with
  | None => Ok None
  | Some r => match target r with RedirectNode id => Ok (Some id) | CommandRoot => Panic end
  end.

(** [validate_compatible], of a node and of a tree *)
Definition validate_compatible (self incoming : NodeBody) : outcome RegistrationErrorKind unit :=
  match collision_with (data self) (data incoming) with
  | Some kind => Err kind
  | None =>
      if negb (requirement_compatible (requirement self) (requirement incoming))
      then Err (RequirementCollision (data_name (data incoming)))
      else if negb (requirement_compatible (execution_requirement self) (execution_requirement incoming))
      then Err (RequirementCollision (data_name (data incoming)))
      else if negb (redirects_are_compatible (redirect self) (redirect incoming))
      then Err (RedirectCollision (data_name (data incoming)))
      else Ok tt
  end.

(** [if incoming.executor.is_some() { self.executor = incoming.executor.take(); }] *)
Definition take_executor (self incoming : NodeBody) : NodeBody :=
  {| data := data self;
     executor := match executor incoming with Some e => Some e | None => executor self end;
     requirement := requirement self;
     execution_requirement := execution_requirement self;
     redirect := redirect self |}.

(** ** Trees yet to be registered *)

(** [CommandNodeBuilder] and [UnregisteredCommandNode], which have the same
    fields *)
Inductive CommandTree := Tree (b : NodeBody) (subtrees : list CommandTree).

Definition tree_body (t : CommandTree) : NodeBody := match t with Tree b _ => b end.
Definition subtrees (t : CommandTree) : list CommandTree := match t with Tree _ ts => ts end.
Definition tree_name (t : CommandTree) : text := data_name (data (tree_body t)).

Definition literal (n : text) : CommandTree :=
  Tree {| data := DataLiteral n; executor := None; requirement := allow_all;
          execution_requirement := allow_all; redirect := None |} [].
Definition argument (n : text) (a : Argument) : CommandTree :=
  Tree {| data := DataArgument n {| argument_type := a; custom_suggestions := None |}; executor := None;
          requirement := allow_all; execution_requirement := allow_all; redirect := None |} [].
Definition then_ (child t : CommandTree) : CommandTree := Tree (tree_body t) (subtrees t ++ [child]).
Definition with_body (f : NodeBody -> NodeBody) (t : CommandTree) : CommandTree := Tree (f (tree_body t)) (subtrees t).
Definition executes_with_executor (e : Executor) : CommandTree -> CommandTree := with_body (fun b =>
  {| data := data b; executor := Some e; requirement := requirement b;
     execution_requirement := execution_requirement b; redirect := redirect b |}).
Definition requires (r : CommandRequirement) : CommandTree -> CommandTree := with_body (fun b =>
  {| data := data b; executor := executor b; requirement := r;
     execution_requirement := execution_requirement b; redirect := redirect b |}).
Definition also_requires (addr : positive) (r : CommandRequirement) : CommandTree -> CommandTree := with_body (fun b =>
  {| data := data b; executor := executor b; requirement := requirement_and addr (requirement b) r;
     execution_requirement := execution_requirement b; redirect := redirect b |}).
Definition also_requires_execution (addr : positive) (r : CommandRequirement) : CommandTree -> CommandTree :=
  with_body (fun b =>
  {| data := data b; executor := executor b; requirement := requirement b;
     execution_requirement := requirement_and addr (execution_requirement b) r; redirect := redirect b |}).
Definition redirects_to (r : CommandRedirect) : CommandTree -> CommandTree := with_body (fun b =>
  {| data := data b; executor := executor b; requirement := requirement b;
     execution_requirement := execution_requirement b; redirect := Some r |}).
Definition redirects (t : CommandRedirectTarget) : CommandTree -> CommandTree :=
  redirects_to {| target := t; modifier := None; forks := false |}.
Definition redirects_with_modifier (t : CommandRedirectTarget) (m : Arc Modifier) (fork : bool) : CommandTree -> CommandTree :=
  redirects_to {| target := t; modifier := Some m; forks := fork |}.

(** The first of [nodes] named [n] *)
Definition find_named (n : text) (nodes : list CommandTree) : option (nat * CommandTree) :=
  list_find (fun t => tree_name t = n) nodes.

(** [merge_or_push], given the merge into an existing node *)
Definition merge_or_push_with (merge : CommandTree -> outcome RegistrationErrorKind CommandTree)
    (incoming : CommandTree) (nodes : list CommandTree) : outcome RegistrationErrorKind (list CommandTree) :=
  match find_named (tree_name incoming) nodes with
  | None => Ok (nodes ++ [incoming])
  | Some (i, existing) => let? merged := merge existing in Ok (<[i := merged]> nodes)
  end.

(** [self.merge(incoming)] *)
Fixpoint merge (incoming : CommandTree) (self : CommandTree) : outcome RegistrationErrorKind CommandTree :=
  match incoming with
  | Tree b ts =>
      let? ok := validate_compatible (tree_body self) b in
      let? merged :=
        (fix merge_all ts nodes :=
           match ts with
           | [] => Ok nodes
           | t :: ts => let? nodes := merge_or_push_with (merge t) t nodes in merge_all ts nodes
           end) ts (subtrees self) in
      Ok (Tree (take_executor (tree_body self) b) merged)
  end.

Definition merge_or_push (nodes : list CommandTree) (incoming : CommandTree) : outcome RegistrationErrorKind (list CommandTree) :=
  merge_or_push_with (merge incoming) incoming nodes.

Fixpoint normalize (t : CommandTree) : outcome RegistrationErrorKind CommandTree :=
  match t with
  | Tree b ts =>
      let? nodes :=
        (fix normalize_all ts nodes :=
           match ts with
           | [] => Ok nodes
           | t :: ts =>
               let? t := normalize t in
               let? nodes := merge_or_push nodes t in
               normalize_all ts nodes
           end) ts [] in
      if match redirect b with Some _ => true | None => false end && negb (bool_decide (nodes = []))
      then Err (RedirectWithChildren (data_name (data b)))
      else Ok (Tree b nodes)
  end.

(** ** The dispatcher *)

Record CommandDispatcher := { disp_id : Z; nodes : list CommandNode }.

Definition dispatcher_new (id : Z) : CommandDispatcher := {| disp_id := id; nodes := [root_node] |}.

Definition root (d : CommandDispatcher) : NodeId := mk_id (disp_id d) 0.

Definition node (d : CommandDispatcher) (id : NodeId) : option CommandNode :=
  if dispatcher id =? disp_id d then nodes d !! index id else None.

Definition named (d : CommandDispatcher) (n : text) (id : NodeId) : bool :=
  match nodes d !! index id with Some c => bool_decide (name c = n) | None => false end.

Definition find_child (d : CommandDispatcher) (parent : NodeId) (n : text) : option NodeId :=
  match node d parent with
  | None => None
  | Some p => snd <$> list_find (fun id => named d n id = true) (children p)
  end.

Fixpoint validate_redirects (d : CommandDispatcher) (t : CommandTree) : outcome RegistrationErrorKind unit :=
  match t with
  | Tree b ts =>
      let? ok :=
        match redirect b with
        | Some r =>
            match target r with
            | RedirectNode id => match node d id with None => Err (InvalidRedirectTarget id) | Some _ => Ok tt end
            | CommandRoot => Ok tt
            end
        | None => Ok tt
        end in
      (fix validate_all ts :=
         match ts with
         | [] => Ok tt
         | t :: ts => let? ok := validate_redirects d t in validate_all ts
         end) ts
  end.

Definition resolve_redirect (command_root : NodeId) (b : NodeBody) : NodeBody :=
  {| data := data b; executor := executor b; requirement := requirement b;
     execution_requirement := execution_requirement b;
     redirect :=
       match redirect b with
       | Some r =>
           Some (if decide (target r = CommandRoot)
                 then {| target := RedirectNode command_root; modifier := modifier r; forks := forks r |}
                 else r)
       | None => None
       end |}.

Fixpoint resolve_command_root (command_root : NodeId) (t : CommandTree) : CommandTree :=
  match t with
  | Tree b ts => Tree (resolve_redirect command_root b) (resolve_command_root command_root <$> ts)
  end.

Fixpoint validate_merge (d : CommandDispatcher) (incoming : CommandTree) (parent : NodeId)
    : outcome RegistrationErrorKind unit :=
  match find_child d parent (tree_name incoming) with
  | None => Ok tt
  | Some existing_id =>
      match nodes d !! index existing_id with
      | None => Panic
      | Some existing =>
          match incoming with
          | Tree b ts =>
              let? ok := validate_compatible (body existing) b in
              (fix validate_all ts :=
                 match ts with
                 | [] => Ok tt
                 | t :: ts => let? ok := validate_merge d t existing_id in validate_all ts
                 end) ts
          end
      end
  end.

(** [self.nodes[i] = f(self.nodes[i])] *)
Definition update_node (i : nat) (f : CommandNode -> CommandNode) (d : CommandDispatcher)
    : outcome RegistrationErrorKind CommandDispatcher :=
  match nodes d !! i with
  | Some n => Ok {| disp_id := disp_id d; nodes := <[i := f n]> (nodes d) |}
  | None => Panic
  end.

Definition push_node (n : CommandNode) (d : CommandDispatcher) : CommandDispatcher :=
  {| disp_id := disp_id d; nodes := nodes d ++ [n] |}.

Definition add_child (c : NodeId) (n : CommandNode) : CommandNode :=
  {| body := body n; children := children n ++ [c] |}.
Definition replace_executor (b : NodeBody) (n : CommandNode) : CommandNode :=
  {| body := take_executor (body n) b; children := children n |}.

Fixpoint apply_merge (incoming : CommandTree) (d : CommandDispatcher) (parent : NodeId)
    : outcome RegistrationErrorKind (NodeId * CommandDispatcher) :=
  match incoming with
  | Tree b ts =>
      let apply_all id :=
        (fix apply_all ts d :=
           match ts with
           | [] => Ok d
           | t :: ts => let? '(_, d) := apply_merge t d id in apply_all ts d
           end) ts in
      match find_child d parent (data_name (data b)) with
      | Some existing_id =>
          let? d := update_node (index existing_id) (replace_executor b) d in
          let? d := apply_all existing_id d in
          Ok (existing_id, d)
      | None =>
          let id := mk_id (disp_id d) (length (nodes d)) in
          let d := push_node {| body := b; children := [] |} d in
          let? d := update_node (index parent) (add_child id) d in
          let? d := apply_all id d in
          Ok (id, d)
      end
  end.

Definition register (d : CommandDispatcher) (builder : CommandTree)
    : outcome RegistrationErrorKind (NodeId * CommandDispatcher) :=
  let? t := normalize builder in
  match data_kind (data (tree_body t)) with
  | KindLiteral =>
      let? ok := validate_redirects d t in
      let command_root := default (mk_id (disp_id d) (length (nodes d))) (find_child d (root d) (tree_name t)) in
      let t := resolve_command_root command_root t in
      let? ok := validate_merge d t (root d) in
      apply_merge t d (root d)
  | _ => Err ArgumentRoot
  end.
End Graph.

(** ** Well-formed arenas *)

Section Arena.
Context `{!CommandRuntime}.

Lemma tree_ind' (P : CommandTree -> Prop) :
  (forall b ts, Forall P ts -> P (Tree b ts)) -> forall t, P t.
Proof.
  intros Hstep. fix IH 1. intros [b ts]. apply Hstep. induction ts as [|t ts IHts]; constructor; [apply IH|done].
Qed.

(** A predicate on every body of a tree *)
Fixpoint bodies (P : NodeBody -> Prop) (t : CommandTree) : Prop :=
  match t with
  | Tree b ts => P b /\ (fix all ts := match ts with [] => True | t :: ts => bodies P t /\ all ts end) ts
  end.

Lemma bodies_tree P b ts : bodies P (Tree b ts) <-> P b /\ Forall (bodies P) ts.
Proof.
  simpl. assert (He : (fix all ts := match ts with [] => True | t :: ts => bodies P t /\ all ts end) ts <-> Forall (bodies P) ts);
    [|by rewrite He].
  induction ts as [|t ts IH]; [done|]. by rewrite Forall_cons, <- IH.
Qed.

Lemma bodies_impl (P Q : NodeBody -> Prop) t : (forall b, P b -> Q b) -> bodies P t -> bodies Q t.
Proof.
  intros HPQ. induction t as [b ts IH] using tree_ind'. rewrite !bodies_tree. intros [Hb Hts]. split; [auto|].
  rewrite Forall_forall in *. auto.
Qed.

(** The redirect of a body goes to one of the first [lim] nodes. *)
Definition redirect_ok (id : Z) (lim : nat) (b : NodeBody) : Prop :=
  match redirect b with
  | Some r => match target r with RedirectNode t => dispatcher t = id /\ (index t < lim)%nat | CommandRoot => False end
  | None => True
  end.

Definition child_name (d : CommandDispatcher) (id : NodeId) : option text := name <$> nodes d !! index id.

Record node_ok (d : CommandDispatcher) (i : nat) (n : CommandNode) : Prop := {
  ok_root : data (body n) = DataRoot <-> i = 0%nat;
  ok_redirect : redirect_ok (disp_id d) (length (nodes d)) (body n);
  ok_children : Forall (fun c => dispatcher c = disp_id d /\ (i < index c < length (nodes d))%nat) (children n);
  ok_names : NoDup (child_name d <$> children n)
}.

Record arena_ok (d : CommandDispatcher) : Prop := {
  arena_root : is_Some (nodes d !! 0%nat);
  arena_nodes : forall i n, nodes d !! i = Some n -> node_ok d i n
}.

(** What a registration leaves as it was *)
Record same_node (n n' : CommandNode) : Prop := {
  same_data : data (body n') = data (body n);
  same_requirement : requirement (body n') = requirement (body n);
  same_execution : execution_requirement (body n') = execution_requirement (body n);
  same_redirect : redirect (body n') = redirect (body n);
  same_children : exists l, children n' = children n ++ l
}.

Record extends (d d' : CommandDispatcher) : Prop := {
  ext_id : disp_id d' = disp_id d;
  ext_nodes : forall i n, nodes d !! i = Some n -> exists n', nodes d' !! i = Some n' /\ same_node n n'
}.

Lemma same_node_refl n : same_node n n.
Proof. split; [done..|]. exists []. by rewrite app_nil_r. Qed.

Lemma same_node_trans a b c : same_node a b -> same_node b c -> same_node a c.
Proof.
  intros [? ? ? ? [l Hl]] [? ? ? ? [l' Hl']]. split; [congruence..|]. exists (l ++ l'). by rewrite app_assoc, <- Hl.
Qed.

#[export] Instance extends_preorder : PreOrder extends.
Proof.
  split.
  - intros d. split; [done|]. intros i n Hn. exists n. split; [done|apply same_node_refl].
  - intros a b c [H1 H2] [H3 H4]. split; [congruence|]. intros i n Hn.
    destruct (H2 i n Hn) as (n' & Hn' & Hs). destruct (H4 i n' Hn') as (n2 & Hn2 & Hs2).
    exists n2. split; [done|by eapply same_node_trans].
Qed.

Lemma extends_length d d' : extends d d' -> (length (nodes d) <= length (nodes d'))%nat.
Proof.
  intros [_ He]. destruct (decide (length (nodes d) = 0)%nat) as [|Hne]; [lia|].
  destruct (lookup_lt_is_Some_2 (nodes d) (length (nodes d) - 1)) as [n Hn]; [lia|].
  destruct (He _ _ Hn) as (n' & Hn' & _). apply lookup_lt_Some in Hn'. lia.
Qed.

Lemma extends_child_name d d' c : extends d d' -> (index c < length (nodes d))%nat -> child_name d' c = child_name d c.
Proof.
  intros He Hc. unfold child_name. destruct (lookup_lt_is_Some_2 _ _ Hc) as [n Hn].
  destruct (ext_nodes _ _ He _ _ Hn) as (n' & -> & Hs). rewrite Hn. simpl. unfold name. by rewrite (same_data _ _ Hs).
Qed.

Lemma redirect_ok_weaken id lim lim' b : (lim <= lim')%nat -> redirect_ok id lim b -> redirect_ok id lim' b.
Proof. unfold redirect_ok. intros Hl. repeat case_match; naive_solver lia. Qed.

(** A node that is as it was is well-formed in a larger arena. *)
Lemma node_ok_extends d d' i n : arena_ok d -> extends d d' -> nodes d !! i = Some n -> node_ok d' i n.
Proof.
  intros Hd He Hn. destruct (arena_nodes _ Hd _ _ Hn) as [Hr Hre Hc Hnm]. pose proof (extends_length _ _ He).
  split; [done| | |].
  - rewrite (ext_id _ _ He). by eapply redirect_ok_weaken.
  - rewrite (ext_id _ _ He). eapply Forall_impl; [done|]. simpl. intros c [? ?]. split; [done|lia].
  - erewrite list_fmap_ext; [done|]. intros k c Hk. apply extends_child_name; [done|].
    rewrite Forall_forall in Hc. apply list_elem_of_lookup_2, Hc in Hk. lia.
Qed.

Lemma find_child_some d parent n id : find_child d parent n = Some id -> exists p,
  node d parent = Some p /\ id ∈ children p /\ child_name d id = Some n.
Proof.
  unfold find_child. destruct (node d parent) as [p|]; [|done]. intros Hf. exists p. split; [done|].
  apply fmap_Some in Hf as ([i x] & Hf & ->). apply list_find_Some in Hf as (Hi & Hx & _). simpl.
  split; [by eapply list_elem_of_lookup_2|]. unfold named in Hx. unfold child_name.
  destruct (nodes d !! index x) as [c|]; [|done]. simpl. by apply bool_decide_eq_true in Hx as ->.
Qed.

Lemma find_child_none d parent p n c : node d parent = Some p -> find_child d parent n = None ->
  c ∈ children p -> child_name d c <> Some n.
Proof.
  unfold find_child. intros -> Hf Hc He. apply fmap_None, list_find_None in Hf. rewrite Forall_forall in Hf.
  apply (Hf c Hc). unfold named. unfold child_name in He. destruct (nodes d !! index c); [|done]. simpl in He.
  simplify_eq. by apply bool_decide_eq_true.
Qed.

Lemma node_some d id n : node d id = Some n <-> dispatcher id = disp_id d /\ nodes d !! index id = Some n.
Proof. unfold node. destruct (Z.eqb_spec (dispatcher id) (disp_id d)); naive_solver. Qed.

Lemma arena_child d i n c : arena_ok d -> nodes d !! i = Some n -> c ∈ children n -> exists m,
  node d c = Some m /\ (i < index c)%nat.
Proof.
  intros Hd Hn Hc. destruct (arena_nodes _ Hd _ _ Hn) as [_ _ Hch _]. rewrite Forall_forall in Hch.
  destruct (Hch c Hc) as [Hi Hl]. destruct (lookup_lt_is_Some_2 (nodes d) (index c)) as [m Hm]; [lia|].
  exists m. rewrite node_some. split; [done|lia].
Qed.

Lemma dispatcher_new_ok id : arena_ok (dispatcher_new id).
Proof.
  split; [by eexists|]. intros [|i] n Hn; simpl in Hn; [|done]. simplify_eq. split; [done|done|by constructor|by constructor].
Qed.

Lemma lookup_insert_cases {A} (l : list A) i x j y : <[i := x]> l !! j = Some y ->
  (j = i /\ y = x) \/ (j <> i /\ l !! j = Some y).
Proof.
  intros Hj. destruct (decide (j = i)) as [->|Hne].
  - pose proof (lookup_lt_Some _ _ _ Hj) as Hl. rewrite length_insert in Hl.
    rewrite list_lookup_insert_eq in Hj by done. naive_solver.
  - rewrite list_lookup_insert_ne in Hj by done. naive_solver.
Qed.

Lemma replace_executor_ok d i n b : arena_ok d -> nodes d !! i = Some n -> exists d',
  update_node i (replace_executor b) d = Ok d' /\ arena_ok d' /\ extends d d' /\ length (nodes d') = length (nodes d).
Proof.
  intros Hd Hn. unfold update_node. rewrite Hn. eexists. split; [done|].
  set (d' := {| disp_id := _; nodes := _ |}).
  assert (He : extends d d').
  { split; [done|]. intros j m Hm. simpl. destruct (decide (j = i)) as [->|Hne].
    - exists (replace_executor b n). rewrite list_lookup_insert_eq by (by eapply lookup_lt_Some).
      simplify_eq. split; [done|]. split; [done..|]. exists []. by rewrite app_nil_r.
    - exists m. rewrite list_lookup_insert_ne by done. split; [done|apply same_node_refl]. }
  split; [|split; [done|simpl; by rewrite length_insert]]. split.
  - destruct (arena_root _ Hd) as [r Hr]. destruct (ext_nodes _ _ He _ _ Hr) as (r' & Hr' & _). by eexists.
  - intros j m Hm. simpl in Hm. destruct (lookup_insert_cases _ _ _ _ _ Hm) as [[-> ->]|[_ Hold]];
      [|by eapply node_ok_extends].
    destruct (node_ok_extends _ _ _ _ Hd He Hn) as [H1 H2 H3 H4]. by split.
Qed.

Lemma add_node_ok d parent p b : arena_ok d -> node d parent = Some p -> data b <> DataRoot ->
  redirect_ok (disp_id d) (S (length (nodes d))) b -> find_child d parent (data_name (data b)) = None ->
  let id := mk_id (disp_id d) (length (nodes d)) in exists d',
  update_node (index parent) (add_child id) (push_node {| body := b; children := [] |} d) = Ok d' /\
  arena_ok d' /\ extends d d' /\ node d' id = Some {| body := b; children := [] |} /\
  (exists p', node d' parent = Some p' /\ id ∈ children p').
Proof.
  intros Hd Hp Hb Hr Hf id. pose proof Hp as [Hpi Hpn]%node_some. pose proof (lookup_lt_Some _ _ _ Hpn) as Hlt.
  unfold update_node, push_node. cbn [nodes disp_id]. rewrite lookup_app_l, Hpn by done. eexists. split; [done|].
  set (new := {| body := b; children := [] |}). set (d' := {| disp_id := _; nodes := _ |}).
  assert (Hlen : length (nodes d') = S (length (nodes d))) by (simpl; rewrite length_insert, length_app; simpl; lia).
  assert (Hnew : nodes d' !! length (nodes d) = Some new).
  { simpl. rewrite list_lookup_insert_ne by lia. by rewrite lookup_app_r, Nat.sub_diag. }
  assert (Hpar : nodes d' !! index parent = Some (add_child id p)).
  { simpl. apply list_lookup_insert_eq. rewrite length_app. lia. }
  assert (He : extends d d').
  { split; [done|]. intros j m Hm. destruct (decide (j = index parent)) as [->|Hne].
    - exists (add_child id p). simplify_eq. split; [done|]. split; [done..|]. by eexists.
    - exists m. split; [|apply same_node_refl]. simpl. rewrite list_lookup_insert_ne by done.
      rewrite lookup_app_l; [done|]. by eapply lookup_lt_Some. }
  assert (Hidn : child_name d' id = Some (data_name (data b))) by (unfold child_name; simpl index; by rewrite Hnew).
  split; [|split; [done|split]].
  - split.
    + destruct (arena_root _ Hd) as [r Hr0]. destruct (ext_nodes _ _ He _ _ Hr0) as (r' & Hr' & _). by eexists.
    + intros j m Hm. simpl in Hm. destruct (lookup_insert_cases _ _ _ _ _ Hm) as [[-> ->]|[Hne Hold]].
      * destruct (node_ok_extends _ _ _ _ Hd He Hpn) as [H1 H2 H3 H4]. split; [done|done| |].
        -- apply Forall_app. split; [done|]. constructor; [|done]. rewrite Hlen. split; [done|]. simpl. lia.
        -- simpl children. rewrite fmap_app. apply NoDup_app. split; [done|]. split; [|apply NoDup_singleton].
           intros x Hx Hin. apply list_elem_of_singleton in Hin. rewrite Hidn in Hin. subst x.
           apply list_elem_of_fmap in Hx as (c & Hc & Hcin).
           destruct (arena_child _ _ _ _ Hd Hpn Hcin) as (m & Hm' & _).
           apply (find_child_none _ _ _ _ _ Hp Hf Hcin). rewrite Hc. symmetry. apply extends_child_name; [done|].
           apply node_some in Hm' as [_ Hm']. by eapply lookup_lt_Some.
      * destruct (decide (j = length (nodes d))) as [->|Hj].
        -- rewrite lookup_app_r, Nat.sub_diag in Hold by lia. simplify_eq/=. split.
           ++ simpl. destruct (arena_root _ Hd) as [r Hr0]. apply lookup_lt_Some in Hr0. split; [done|lia].
           ++ simpl. rewrite length_insert, length_app. simpl. by rewrite Nat.add_1_r.
           ++ by constructor.
           ++ by constructor.
        -- rewrite lookup_app_l in Hold; [by eapply node_ok_extends|].
           apply lookup_lt_Some in Hold. rewrite length_app in Hold. simpl in Hold. lia.
  - by apply node_some.
  - exists (add_child id p). rewrite node_some. split; [done|]. simpl. set_solver.
Qed.

(** ** Registration *)

Definition merge_ok (lim : nat) (id : Z) (b : NodeBody) : Prop := data b <> DataRoot /\ redirect_ok id lim b.

(** Merging a list of trees below a node that exists *)
Lemma apply_all_ok ts lim :
  Forall (fun t => forall d parent p, arena_ok d -> node d parent = Some p -> bodies (merge_ok lim (disp_id d)) t ->
    (lim <= length (nodes d) + (if find_child d parent (tree_name t) then 0 else 1))%nat -> exists id d',
    apply_merge t d parent = Ok (id, d') /\ arena_ok d' /\ extends d d' /\
    exists p', node d' parent = Some p' /\ id ∈ children p' /\ child_name d' id = Some (tree_name t)) ts ->
  forall d parent p, arena_ok d -> node d parent = Some p -> Forall (bodies (merge_ok lim (disp_id d))) ts ->
  (lim <= length (nodes d))%nat -> exists d',
  (fix apply_all ts d :=
     match ts with
     | [] => Ok d
     | t :: ts => let? '(_, d) := apply_merge t d parent in apply_all ts d
     end) ts d = Ok d' /\ arena_ok d' /\ extends d d'.
Proof.
  induction 1 as [|t ts Ht _ IH]; intros d parent p Hd Hp Hb Hl; [by exists d|].
  apply Forall_cons in Hb as [Hbt Hbs].
  destruct (Ht d parent p Hd Hp Hbt) as (id & d1 & -> & Hd1 & He1 & p1 & Hp1 & _); [destruct (find_child _ _ _); lia|].
  cbn [obind]. destruct (IH d1 parent p1 Hd1 Hp1) as (d2 & -> & Hd2 & He2).
  - by rewrite (ext_id _ _ He1).
  - pose proof (extends_length _ _ He1). lia.
  - exists d2. split; [done|]. split; [done|]. by etrans.
Qed.

Lemma apply_merge_ok t lim : forall d parent p, arena_ok d -> node d parent = Some p -> bodies (merge_ok lim (disp_id d)) t ->
  (lim <= length (nodes d) + (if find_child d parent (tree_name t) then 0 else 1))%nat -> exists id d',
  apply_merge t d parent = Ok (id, d') /\ arena_ok d' /\ extends d d' /\
  exists p', node d' parent = Some p' /\ id ∈ children p' /\ child_name d' id = Some (tree_name t).
Proof.
  induction t as [b ts IH] using tree_ind'. intros d parent p Hd Hp [[Hdata Hred] Hts]%bodies_tree Hl.
  pose proof (apply_all_ok ts lim IH) as Hall. cbn [apply_merge]. unfold tree_name in *. cbn [tree_body] in *.
  destruct (find_child d parent (data_name (data b))) as [ex|] eqn:Ef.
  - destruct (find_child_some _ _ _ _ Ef) as (p' & Hp' & Hin & Hnm). simplify_eq.
    pose proof Hp as [Hpi Hpn]%node_some. destruct (arena_child _ _ _ _ Hd Hpn Hin) as (n & [Hxi Hxn]%node_some & _).
    destruct (replace_executor_ok d (index ex) n b Hd Hxn) as (d1 & -> & Hd1 & He1 & Hl1). cbn [obind].
    destruct (ext_nodes _ _ He1 _ _ Hxn) as (n1 & Hn1 & _).
    destruct (Hall d1 ex n1 Hd1) as (d2 & -> & Hd2 & He2); [|by rewrite (ext_id _ _ He1)|lia|].
    { apply node_some. by rewrite (ext_id _ _ He1). }
    cbn [obind]. exists ex, d2. split; [done|]. split; [done|]. assert (He : extends d d2) by by etrans. split; [done|].
    destruct (ext_nodes _ _ He _ _ Hpn) as (p2 & Hp2 & [_ _ _ _ [l Hch]]). exists p2. rewrite node_some.
    split; [by rewrite (ext_id _ _ He)|]. split; [rewrite Hch; set_solver|].
    rewrite <- Hnm. apply extends_child_name; [done|]. by eapply lookup_lt_Some.
  - destruct (add_node_ok d parent p b Hd Hp Hdata) as (d1 & -> & Hd1 & He1 & Hid & p1 & Hp1 & Hin); [|done|].
    { eapply redirect_ok_weaken; [|done]. lia. }
    cbn [obind]. set (id := mk_id (disp_id d) (length (nodes d))) in *.
    pose proof Hid as [_ Hidn]%node_some. pose proof (lookup_lt_Some _ _ _ Hidn).
    destruct (Hall d1 id _ Hd1 Hid) as (d2 & -> & Hd2 & He2); [by rewrite (ext_id _ _ He1)|simpl in *; lia|].
    cbn [obind]. exists id, d2. split; [done|]. split; [done|]. split; [by etrans|].
    pose proof Hp1 as [Hpi Hpn]%node_some.
    destruct (ext_nodes _ _ He2 _ _ Hpn) as (p2 & Hp2 & [_ _ _ _ [l Hch]]). exists p2. rewrite node_some.
    split; [by rewrite (ext_id _ _ He2)|]. split; [rewrite Hch; set_solver|].
    rewrite (extends_child_name d1) by done. unfold child_name. by rewrite Hidn.
Qed.

Definition not_root (b : NodeBody) : Prop := data b <> DataRoot.

(** [merge] and [normalize] over lists of trees *)
Definition merge_all := fix merge_all (ts nodes : list CommandTree) : outcome RegistrationErrorKind (list CommandTree) :=
  match ts with
  | [] => Ok nodes
  | t :: ts => let? nodes := merge_or_push_with (merge t) t nodes in merge_all ts nodes
  end.

Definition normalize_all := fix normalize_all (ts nodes : list CommandTree) : outcome RegistrationErrorKind (list CommandTree) :=
  match ts with
  | [] => Ok nodes
  | t :: ts => let? t := normalize t in let? nodes := merge_or_push nodes t in normalize_all ts nodes
  end.

Lemma validate_compatible_no_panic a b : validate_compatible a b <> Panic.
Proof. unfold validate_compatible. repeat case_match; done. Qed.

(** What a step over trees promises: no panic, and bodies that are not roots *)
Definition keeps_bodies {A} (o : outcome RegistrationErrorKind A) (Q : A -> Prop) : Prop :=
  match o with Ok a => Q a | Err _ => True | Panic => False end.

Lemma keeps_bind {A B} (o : outcome RegistrationErrorKind A) (k : A -> outcome RegistrationErrorKind B) Q Q' :
  keeps_bodies o Q -> (forall a, Q a -> keeps_bodies (k a) Q') -> keeps_bodies (obind o k) Q'.
Proof. destruct o; simpl; auto. Qed.

Lemma merge_or_push_keeps m t ts : bodies not_root t -> Forall (bodies not_root) ts ->
  (forall self, bodies not_root self -> keeps_bodies (m self) (bodies not_root)) ->
  keeps_bodies (merge_or_push_with m t ts) (Forall (bodies not_root)).
Proof.
  intros Ht Hts Hm. unfold merge_or_push_with. destruct (find_named _ ts) as [[i e]|] eqn:Ef.
  - apply list_find_Some in Ef as (Hi & _ & _). eapply keeps_bind; [apply Hm|].
    + rewrite Forall_forall in Hts. by eapply Hts, list_elem_of_lookup_2.
    + intros e' He'. simpl. by apply Forall_insert.
  - simpl. apply Forall_app. by split; [|constructor].
Qed.

Lemma merge_keeps t : bodies not_root t -> forall self, bodies not_root self -> keeps_bodies (merge t self) (bodies not_root).
Proof.
  induction t as [b ts IH] using tree_ind'. intros [Hb Hts]%bodies_tree [sb sts] [Hsb Hsts]%bodies_tree.
  cbn [merge tree_body subtrees]. pose proof (validate_compatible_no_panic sb b).
  destruct (validate_compatible sb b) as [[]| |]; [|done|done]. cbn [obind].
  apply (keeps_bind _ _ (Forall (bodies not_root))).
  - change (keeps_bodies (merge_all ts sts) (Forall (bodies not_root))).
    clear -IH Hts Hsts. revert sts Hsts. induction IH as [|t ts Ht _ IHts]; intros sts Hsts; [done|].
    apply Forall_cons in Hts as [Htb Hts]. cbn [merge_all]. eapply keeps_bind; [apply merge_or_push_keeps; [done..|]; by apply Ht|].
    intros sts' Hsts'. by apply IHts.
  - intros ts' Hts'. simpl. by apply bodies_tree.
Qed.

Lemma normalize_keeps t : bodies not_root t -> keeps_bodies (normalize t) (bodies not_root).
Proof.
  induction t as [b ts IH] using tree_ind'. intros [Hb Hts]%bodies_tree. cbn [normalize].
  apply (keeps_bind _ _ (Forall (bodies not_root))).
  - change (keeps_bodies (normalize_all ts []) (Forall (bodies not_root))). generalize (Forall_nil_2 (bodies not_root)).
    clear -IH Hts. generalize (@nil CommandTree) as acc. induction IH as [|t ts Ht _ IHts]; intros acc Hacc; [done|].
    apply Forall_cons in Hts as [Htb Hts]. cbn [normalize_all]. eapply keeps_bind; [by apply Ht|]. intros t' Ht'.
    eapply keeps_bind; [apply merge_or_push_keeps; [done..|]; by apply merge_keeps|]. intros acc' Hacc'. by apply IHts.
  - intros ts' Hts'. destruct (_ && _); [done|]. by apply bodies_tree.
Qed.

(** Redirects that were validated are resolved to nodes that exist. *)
Definition redirect_valid (d : CommandDispatcher) (b : NodeBody) : Prop :=
  match redirect b with
  | Some r => match target r with RedirectNode t => is_Some (node d t) | CommandRoot => True end
  | None => True
  end.

(** [validate_redirects] and [validate_merge] over lists of trees *)
Definition validate_redirects_all d := fix validate_all (ts : list CommandTree) : outcome RegistrationErrorKind unit :=
  match ts with
  | [] => Ok tt
  | t :: ts => let? ok := validate_redirects d t in validate_all ts
  end.

Definition validate_merge_all d parent := fix validate_all (ts : list CommandTree) : outcome RegistrationErrorKind unit :=
  match ts with
  | [] => Ok tt
  | t :: ts => let? ok := validate_merge d t parent in validate_all ts
  end.

Lemma validate_redirects_ok d t : keeps_bodies (validate_redirects d t) (fun _ => bodies (redirect_valid d) t).
Proof.
  induction t as [b ts IH] using tree_ind'. cbn [validate_redirects].
  apply (keeps_bind _ _ (fun _ => redirect_valid d b)).
  - unfold redirect_valid. destruct (redirect b) as [r|]; [|done]. destruct (target r) as [t|]; [|done].
    destruct (node d t); [by eexists|done].
  - intros _ Hb. assert (Hall : keeps_bodies (validate_redirects_all d ts) (fun _ => Forall (bodies (redirect_valid d)) ts)).
    { clear -IH. induction IH as [|t ts Ht _ IHts]; [by constructor|]. cbn [validate_redirects_all].
      eapply keeps_bind; [exact Ht|]. intros u Hbt. fold (validate_redirects_all d).
      destruct (validate_redirects_all d ts); [by constructor|done|done]. }
    change (keeps_bodies (validate_redirects_all d ts) (fun _ => bodies (redirect_valid d) (Tree b ts))).
    destruct (validate_redirects_all d ts); [by apply bodies_tree|done|done].
Qed.

Lemma resolve_ok d cr lim t : (length (nodes d) <= lim)%nat -> dispatcher cr = disp_id d -> (index cr < lim)%nat ->
  bodies not_root t -> bodies (redirect_valid d) t -> bodies (merge_ok lim (disp_id d)) (resolve_command_root cr t).
Proof.
  intros Hl Hc Hi. induction t as [b ts IH] using tree_ind'. intros [Hb Hts]%bodies_tree [Hr Hrs]%bodies_tree.
  cbn [resolve_command_root]. apply bodies_tree. split.
  - split; [done|]. unfold redirect_ok, redirect_valid in *. unfold resolve_redirect. cbn [redirect].
    destruct (redirect b) as [r|]; [|done]. case_decide as Hd; [done|]. destruct (target r) as [t|]; [|done].
    destruct Hr as [n [Hn Hlk]%node_some]. split; [done|]. apply lookup_lt_Some in Hlk. lia.
  - apply Forall_fmap. rewrite Forall_forall in *. intros t Ht. by apply IH; [|apply Hts|apply Hrs].
Qed.

Lemma resolve_name cr t : tree_name (resolve_command_root cr t) = tree_name t.
Proof. by destruct t. Qed.

Lemma validate_merge_no_panic d t : arena_ok d -> forall parent, validate_merge d t parent <> Panic.
Proof.
  intros Hd. induction t as [b ts IH] using tree_ind'. intros parent. cbn [validate_merge].
  destruct (find_child d parent _) as [ex|] eqn:Ef; [|done].
  destruct (find_child_some _ _ _ _ Ef) as (p & [_ Hp]%node_some & Hin & _).
  destruct (arena_child _ _ _ _ Hd Hp Hin) as (n & [_ ->]%node_some & _).
  pose proof (validate_compatible_no_panic (body n) b). destruct (validate_compatible (body n) b); [|done|done].
  cbn [obind]. change (validate_merge_all d ex ts <> Panic). clear -IH. induction IH as [|t ts Ht _ IHts]; [done|].
  cbn [validate_merge_all]. specialize (Ht ex). by destruct (validate_merge d t ex).
Qed.

(** C17: Registering a tree either changes nothing, with an error, or leaves
    a well-formed arena (children and redirect targets exist, siblings have
    different names, nothing is left to resolve) in which every node there
    was keeps its data, requirements, redirect and children, and the new
    command is a child of the root.  It never panics. *)
Theorem register_keeps_arena d builder : arena_ok d -> bodies not_root builder ->
  match register d builder with
  | Ok (id, d') => arena_ok d' /\ extends d d' /\
      exists r n, node d' (root d') = Some r /\ id ∈ children r /\ node d' id = Some n /\ name n = tree_name builder
  | Err _ => True
  | Panic => False
  end.
Proof.
  intros Hd Hb. unfold register. pose proof (normalize_keeps builder Hb) as Hn.
  assert (Hname : forall t, normalize builder = Ok t -> tree_name t = tree_name builder).
  { destruct builder as [b ts]. cbn [normalize]. intros t.
    change ((let? nodes := normalize_all ts [] in
      if match redirect b with Some _ => true | None => false end && negb (bool_decide (nodes = []))
      then Err (RedirectWithChildren (data_name (data b))) else Ok (Tree b nodes)) = Ok t -> tree_name t = tree_name (Tree b ts)).
    destruct (normalize_all ts []); cbn [obind]; [|done|done].
    destruct (_ && _); [done|]. intros [= <-]. done. }
  destruct (normalize builder) as [t| |]; [|done|done]. cbn [obind]. specialize (Hname t eq_refl). simpl in Hn.
  destruct (data_kind _); [done| |done]. pose proof (validate_redirects_ok d t) as Hv.
  destruct (validate_redirects d t); [|done|done]. cbn [obind]. simpl in Hv.
  set (cr := default _ _). set (t' := resolve_command_root cr t).
  pose proof (validate_merge_no_panic d t' Hd (root d)). destruct (validate_merge d t' (root d)); [|done|done]. cbn [obind].
  destruct (arena_root _ Hd) as [rn Hrn]. assert (Hroot : node d (root d) = Some rn) by by apply node_some.
  set (lim := (length (nodes d) + (if find_child d (root d) (tree_name t) then 0 else 1))%nat).
  assert (Hcr : dispatcher cr = disp_id d /\ (index cr < lim)%nat).
  { unfold cr, lim. destruct (find_child d (root d) (tree_name t)) as [ex|] eqn:Ef; [|simpl; split; [done|lia]].
    destruct (find_child_some _ _ _ _ Ef) as (p & [_ Hp]%node_some & Hin & _).
    destruct (arena_child _ _ _ _ Hd Hp Hin) as (n & [? Hlk]%node_some & _). apply lookup_lt_Some in Hlk. simpl. split; [done|lia]. }
  destruct (apply_merge_ok t' lim d (root d) rn Hd Hroot) as (id & d' & -> & Hd' & He & p' & Hp' & Hin & Hnm).
  - destruct Hcr. apply resolve_ok; [lia|done..].
  - unfold t'. rewrite resolve_name. lia.
  - split; [done|]. split; [done|]. exists p'.
    pose proof Hp' as [Hpi Hpn]%node_some. destruct (arena_child _ _ _ _ Hd' Hpn Hin) as (n & Hidn & _). exists n.
    split; [|split; [done|split; [done|]]].
    + unfold root in *. by rewrite (ext_id _ _ He).
    + unfold child_name in Hnm. apply node_some in Hidn as [_ Hidn]. rewrite Hidn in Hnm. simpl in Hnm. simplify_eq.
      by rewrite Hnm, <- Hname, <- (resolve_name cr t).
Qed.
End Arena.

(** ** An example

    Sources have a level and a callback, and the world is the list of the
    results that were reported. *)
Module Demo.
Definition World := list (bool * Z).
Record Src := { level : nat; src_callback : option (bool -> Z -> World -> World) }.

#[export] Instance runtime : CommandRuntime := BrigadierRuntime Src nat nat unit unit (fun _ _ => true).

Definition w_tp : text := [116; 112].
Definition w_home : text := [104; 111; 109; 101].
Definition w_wait : text := [119; 97; 105; 116].

Definition operator : CommandRequirement := authorization 1 (fun s => Nat.leb 2 (level s)).

Definition literal_body (n : text) (e : option nat) (r : CommandRequirement) : NodeBody :=
  {| data := DataLiteral n; executor := e; requirement := r; execution_requirement := allow_all; redirect := None |}.

(** [tp home] needs level 2; [wait] does not. *)
Definition commands : CommandDispatcher :=
  {| disp_id := 1;
     nodes :=
       [ {| body := root_body; children := [mk_id 1 1; mk_id 1 3] |};
         {| body := literal_body w_tp None allow_all; children := [mk_id 1 2] |};
         {| body := literal_body w_home (Some 0%nat) operator; children := [] |};
         {| body := literal_body w_wait (Some 1%nat) allow_all; children := [] |} ] |}.

Lemma commands_ok : arena_ok commands.
Proof.
  split; [by eexists|]. intros i n Hn.
  destruct i as [|[|[|[|i]]]]; simpl in Hn; simplify_eq; split; try done;
    repeat constructor; simpl; try (by lia); try set_solver.
Qed.

(** [tp] with an argument and a redirect to the root *)
Definition tp_tree : CommandTree :=
  then_ (then_ (redirects CommandRoot (literal w_wait)) (argument [120] ArgBool))
    (executes_with_executor 0%nat (literal w_tp)).

Lemma register_keeps_arena_witness :
  match register commands tp_tree with Ok (id, d') => index id = 1%nat /\ length (nodes d') = 6%nat | _ => False end /\
  match register commands tp_tree with
  | Ok (id, d') => arena_ok d' /\ extends commands d' /\
      exists r n, node d' (root d') = Some r /\ id ∈ children r /\ node d' id = Some n /\ name n = w_tp
  | Err _ => True
  | Panic => False
  end.
Proof.
  split; [vm_compute; by split|].
  apply (register_keeps_arena commands tp_tree); [apply commands_ok|repeat split; done].
Defined.
End Demo.
