(* ===== verification/CommandParse.v ===== *)
(** * Parsing commands

    Models [steel-core/src/command/brigadier/string_range.rs], [context.rs] and
    the parsing and [context_chain] of [dispatcher.rs], over the graph of
    [CommandGraph].

    [parse_nodes] calls itself after it has read a character, so fuel of one
    more than the characters left is enough ([parse_nodes_ok]).

    The argument parsers are those of the runtime; what parsing needs of them
    is the law [RuntimeLaws]: they only move the reader forward and do not
    panic.  The built-in parsers keep it ([primitive_laws]).

    [parse_describes_path]: parsing returns, and the result is a path through
    the graph whose every node allows the source. *)

From Stdlib Require Import Lia ZArith.
From stdpp Require Import prelude list.
From S2P Require Import Prelude CommandReader CommandGraph.

(** ** Ranges *)

Record StringRange := { sr_start : nat; sr_end : nat }.

Definition range_at (position : nat) : StringRange := {| sr_start := position; sr_end := position |}.

(** [StringRange::between]; [None] is a failed assertion. *)
Definition between (start end_ : nat) : option StringRange :=
  if (start <=? end_)%nat then Some {| sr_start := start; sr_end := end_ |} else None.

Definition encompassing (first second : StringRange) : StringRange :=
  {| sr_start := if (sr_start first <? sr_start second)%nat then sr_start first else sr_start second;
     sr_end := if (sr_end second <? sr_end first)%nat then sr_end first else sr_end second |}.

Definition range_is_empty (r : StringRange) : bool := (sr_start r =? sr_end r)%nat.

Section Parse.
Context `{!CommandRuntime}.

Notation Parser := (@Parser TextComponent).
Notation CommandSyntaxError := (CommandSyntaxError TextComponent).

(** ** Contexts *)

Record ParsedArgument := { arg_range : StringRange; arg_value : ArgumentValue }.
Definition ParsedArguments := list (text * ParsedArgument).

(** [ParsedArguments::insert] *)
Fixpoint insert_argument (name : text) (a : ParsedArgument) (values : ParsedArguments) : ParsedArguments :=
  match values with
  | [] => [(name, a)]
  | (n, old) :: values =>
      if decide (n = name) then (n, a) :: values else (n, old) :: insert_argument name a values
  end.

(** [ParsedArguments::argument]; [None] is the error [missing_argument]. *)
Definition get_argument (name : text) (values : ParsedArguments) : option ArgumentValue :=
  (fun p => arg_value (snd (snd p))) <$> list_find (fun p => fst p = name) values.

Record ParsedCommandNode := { parsed_node : NodeId; parsed_range : StringRange }.

Inductive ParsedCommandContext := mk_parsed {
  p_source : Source;
  p_root : NodeId;
  p_arguments : ParsedArguments;
  p_executor : option Executor;
  p_nodes : list ParsedCommandNode;
  p_range : StringRange;
  p_child : option ParsedCommandContext;
  p_modifier : option (Arc Modifier);
  p_forks : bool
}.

Definition parsed_new (source : Source) (root : NodeId) (start : nat) : ParsedCommandContext :=
  {| p_source := source; p_root := root; p_arguments := []; p_executor := None; p_nodes := [];
     p_range := range_at start; p_child := None; p_modifier := None; p_forks := false |}.

Definition set_executor (e : option Executor) (c : ParsedCommandContext) : ParsedCommandContext :=
  {| p_source := p_source c; p_root := p_root c; p_arguments := p_arguments c; p_executor := e;
     p_nodes := p_nodes c; p_range := p_range c; p_child := p_child c; p_modifier := p_modifier c;
     p_forks := p_forks c |}.

Definition with_node (id : NodeId) (range : StringRange) (r : option CommandRedirect) (c : ParsedCommandContext)
    : ParsedCommandContext :=
  {| p_source := p_source c; p_root := p_root c; p_arguments := p_arguments c; p_executor := p_executor c;
     p_nodes := p_nodes c ++ [{| parsed_node := id; parsed_range := range |}];
     p_range := encompassing (p_range c) range;
     p_child := p_child c;
     p_modifier := match r with Some r => modifier r | None => None end;
     p_forks := match r with Some r => forks r | None => false end |}.

Definition with_argument (name : text) (range : StringRange) (value : ArgumentValue) (c : ParsedCommandContext)
    : ParsedCommandContext :=
  {| p_source := p_source c; p_root := p_root c;
     p_arguments := insert_argument name {| arg_range := range; arg_value := value |} (p_arguments c);
     p_executor := p_executor c; p_nodes := p_nodes c; p_range := p_range c; p_child := p_child c;
     p_modifier := p_modifier c; p_forks := p_forks c |}.

Definition set_child (child c : ParsedCommandContext) : ParsedCommandContext :=
  {| p_source := p_source c; p_root := p_root c; p_arguments := p_arguments c; p_executor := p_executor c;
     p_nodes := p_nodes c; p_range := p_range c; p_child := Some child; p_modifier := p_modifier c;
     p_forks := p_forks c |}.

Record ParseError := { failed_node : NodeId; failed_error : CommandSyntaxError }.

Record ParseResults := { res_context : ParsedCommandContext; res_reader : StringReader; res_errors : list ParseError }.

(** ** Parsing *)

(** [parse_node]; it returns the context with the node. *)
Definition parse_node (d : CommandDispatcher) (id : NodeId) (context : ParsedCommandContext) : Parser ParsedCommandContext :=
  match nodes d !! index id with
  | None => or_panic None
  | Some n =>
      let! start := checkpoint in
      match data (body n) with
      | DataRoot => or_panic None
      | DataLiteral literal =>
          let! found := try_read_literal literal in
          if negb found then fail (LiteralIncorrect literal)
          else
            let! stop := checkpoint in
            let! range := or_panic (between (c_utf16 start) (c_utf16 stop)) in
            pret (with_node id range (redirect (body n)) context)
      | DataArgument name argument_data =>
          let! value := parse_argument (argument_type argument_data) (p_source context) in
          let! stop := checkpoint in
          let! range := or_panic (between (c_utf16 start) (c_utf16 stop)) in
          pret (with_node id range (redirect (body n)) (with_argument name range value context))
      end
  end.

(** The first word of what remains *)
Definition next_token (t : text) : text := (span (fun c => negb (c =? 32)) t).1.

(** The loop of [relevant_nodes] *)
Fixpoint relevant_children (d : CommandDispatcher) (token : text) (ids arguments : list NodeId) : run (list NodeId) :=
  match ids with
  | [] => Ok arguments
  | id :: ids =>
      match nodes d !! index id with
      | None => Panic
      | Some n =>
          match data (body n) with
          | DataLiteral literal =>
              if decide (literal = token) then Ok [id] else relevant_children d token ids arguments
          | DataArgument _ _ => relevant_children d token ids (arguments ++ [id])
          | DataRoot => relevant_children d token ids arguments
          end
      end
  end.

Definition relevant_nodes (d : CommandDispatcher) (parent : NodeId) (reader : StringReader) : run (list NodeId) :=
  match node d parent with
  | None => Ok []
  | Some p =>
      match fst (@remaining TextComponent reader) with
      | Ok rest => relevant_children d (next_token rest) (children p) []
      | _ => Panic
      end
  end.

Definition is_better_parse (candidate current : ParseResults) : bool :=
  if negb (can_read (res_reader candidate)) && can_read (res_reader current) then true
  else if can_read (res_reader candidate) && negb (can_read (res_reader current)) then false
  else bool_decide (res_errors candidate = []) && negb (bool_decide (res_errors current = [])).

Definition best_parse (best : ParseResults) (potentials : list ParseResults) : ParseResults :=
  foldl (fun best potential => if is_better_parse potential best then potential else best) best potentials.

(** What the loop over the children does with one child *)
Inductive ChildOutcome :=
| Skipped
| Failed (e : ParseError)
| Potential (r : ParseResults)
| Redirected (r : ParseResults).

(** The executor of a node, if the source may run it *)
Definition node_executor (n : CommandNode) (source : Source) : option Executor :=
  match executor (body n) with
  | Some e => if allows (execution_requirement (body n)) source then Some e else None
  | None => None
  end.

(** The body of the loop of [parse_nodes], given the recursive call *)
Definition parse_child (d : CommandDispatcher)
    (parse_nodes : NodeId -> StringReader -> ParsedCommandContext -> run ParseResults)
    (id : NodeId) (original_reader : StringReader) (context_so_far : ParsedCommandContext) : run ChildOutcome :=
  match nodes d !! index id with
  | None => Panic
  | Some child =>
      if negb (allows (requirement (body child)) (p_source context_so_far)) then Ok Skipped
      else
        match parse_node d id context_so_far original_reader with
        | (Panic, _) => Panic
        | (Err error, _) => Ok (Failed {| failed_node := id; failed_error := error |})
        | (Ok context, reader) =>
            match fst (@peek TextComponent reader) with
            | Ok next =>
                if can_read reader && negb (bool_decide (next = Some 32))
                then Ok (Failed {| failed_node := id; failed_error := error_at ExpectedArgumentSeparator reader |})
                else
                  let context := set_executor (node_executor child (p_source context)) context in
                  let? target := node_redirect child in
                  let required_remaining := match target with Some _ => 1%nat | None => 2%nat end in
                  if can_read_length required_remaining reader then
                    match @skip TextComponent reader with
                    | (Ok _, reader) =>
                        match target with
                        | Some target =>
                            let child_context := parsed_new (p_source context) target (c_utf16 (cursor reader)) in
                            let? parse := parse_nodes target reader child_context in
                            Ok (Redirected {| res_context := set_child (res_context parse) context;
                                              res_reader := res_reader parse;
                                              res_errors := res_errors parse |})
                        | None =>
                            let? parse := parse_nodes id reader context in
                            Ok (Potential parse)
                        end
                    | _ => Panic
                    end
                  else Ok (Potential {| res_context := context; res_reader := reader; res_errors := [] |})
            | _ => Panic
            end
        end
  end.

(** The loop of [parse_nodes] and the choice after it *)
Fixpoint try_children (d : CommandDispatcher)
    (parse_nodes : NodeId -> StringReader -> ParsedCommandContext -> run ParseResults)
    (original_reader : StringReader) (context_so_far : ParsedCommandContext)
    (ids : list NodeId) (errors : list ParseError) (potentials : list ParseResults) : run ParseResults :=
  match ids with
  | [] =>
      match potentials with
      | [] => Ok {| res_context := context_so_far; res_reader := original_reader; res_errors := errors |}
      | best :: potentials => Ok (best_parse best potentials)
      end
  | id :: ids =>
      let? o := parse_child d parse_nodes id original_reader context_so_far in
      match o with
      | Skipped => try_children d parse_nodes original_reader context_so_far ids errors potentials
      | Failed e => try_children d parse_nodes original_reader context_so_far ids (errors ++ [e]) potentials
      | Potential r => try_children d parse_nodes original_reader context_so_far ids errors (potentials ++ [r])
      | Redirected r => Ok r
      end
  end.

Fixpoint parse_nodes (fuel : nat) (d : CommandDispatcher) (parent : NodeId) (original_reader : StringReader)
    (context_so_far : ParsedCommandContext) : run ParseResults :=
  match fuel with
  | O => Err OutOfFuel
  | S fuel =>
      let? ids := relevant_nodes d parent original_reader in
      try_children d (parse_nodes fuel d) original_reader context_so_far ids [] []
  end.

Definition parse_reader (d : CommandDispatcher) (reader : StringReader) (source : Source) : run ParseResults :=
  parse_nodes (S (length (input reader))) d (root d) reader
    (parsed_new source (root d) (c_utf16 (cursor reader))).

Definition parse (d : CommandDispatcher) (t : text) (source : Source) : run ParseResults :=
  parse_reader d (reader_new t) source.

(** ** Contexts to be executed *)

Inductive CommandContext := mk_command {
  c_source : Source;
  c_input : text;
  c_root : NodeId;
  c_arguments : ParsedArguments;
  c_executor : option Executor;
  c_nodes : list ParsedCommandNode;
  c_range : StringRange;
  c_child : option CommandContext;
  c_modifier : option (Arc Modifier);
  c_forks : bool
}.

Fixpoint build (c : ParsedCommandContext) (t : text) : CommandContext :=
  match c with
  | mk_parsed source root arguments executor nodes range child modifier forks =>
      mk_command source t root arguments executor nodes range
        (match child with Some child => Some (build child t) | None => None end) modifier forks
  end.

Record ContextChain := { contexts : list CommandContext; position : nat }.

(** The contexts from [c] on, in order *)
Fixpoint flatten (c : CommandContext) : list CommandContext :=
  c :: match c with mk_command _ _ _ _ _ _ _ (Some child) _ _ => flatten child | _ => [] end.

Definition try_flatten (c : CommandContext) : option ContextChain :=
  match last (flatten c) with
  | Some l => match c_executor l with Some _ => Some {| contexts := flatten c; position := 0 |} | None => None end
  | None => None
  end.

Definition context_chain (d : CommandDispatcher) (parse : ParseResults) : outcome CommandSyntaxError ContextChain :=
  let reader := res_reader parse in
  if can_read reader then
    match res_errors parse with
    | [e] => Err (failed_error e)
    | _ => Err (error_at (if range_is_empty (p_range (res_context parse)) then UnknownCommand else UnknownArgument) reader)
    end
  else if negb (dispatcher (p_root (res_context parse)) =? disp_id d) then Err (error_at UnknownCommand reader)
  else
    match try_flatten (build (res_context parse) (input reader)) with
    | Some chain => Ok chain
    | None => Err (error_at UnknownCommand reader)
    end.
End Parse.

(** ** What parsing needs of the argument parsers *)

Class RuntimeLaws `{!CommandRuntime} : Prop :=
  parse_forward : forall a source, forward (parse_argument a source).

#[export] Instance primitive_laws S E M P C eqb : @RuntimeLaws (BrigadierRuntime S E M P C eqb).
Proof. intros a source. apply forward_parse_value. Qed.

(** ** The path of a parse *)

Section Describes.
Context `{!CommandRuntime}.
Context (d : CommandDispatcher) (source : Source).

(** [id] is a child of [parent] that allows the source. *)
Definition child_allowed (parent id : NodeId) : Prop := exists p n,
  node d parent = Some p /\ id ∈ children p /\ node d id = Some n /\ allows (requirement (body n)) source = true.

Inductive path (from : NodeId) : list NodeId -> NodeId -> Prop :=
| path_nil : path from [] from
| path_snoc ids mid id : path from ids mid -> child_allowed mid id -> path from (ids ++ [id]) id.

(** A context whose nodes lead from its root to [at_], with what the last of
    them supplies *)
Record segment (c : ParsedCommandContext) (at_ : NodeId) : Prop := {
  seg_source : p_source c = source;
  seg_path : path (p_root c) (parsed_node <$> p_nodes c) at_;
  seg_last :
    match p_nodes c with
    | [] => p_executor c = None /\ p_modifier c = None /\ p_forks c = false
    | _ => exists n, node d at_ = Some n /\ p_executor c = node_executor n source /\
        p_modifier c = (redirect (body n) ≫= modifier) /\
        p_forks c = match redirect (body n) with Some r => forks r | None => false end
    end
}.

(** The context and those its redirects lead to *)
Inductive describes : ParsedCommandContext -> Prop :=
| describes_end c at_ : segment c at_ -> p_child c = None -> describes c
| describes_redirect c at_ n child : segment c at_ -> node d at_ = Some n ->
    node_redirect n = Ok (Some (p_root child)) -> p_child c = Some child -> describes child -> describes c.

Lemma segment_new id start : segment (parsed_new source id start) id.
Proof. split; [done|constructor|done]. Qed.

Lemma segment_node c at_ : arena_ok d -> is_Some (node d (p_root c)) -> segment c at_ -> is_Some (node d at_).
Proof. intros Hd Hr [_ Hp _]. destruct Hp as [|? mid ? _ (p & n & _ & _ & Hn & _)]; [done|by eexists]. Qed.
End Describes.

Section ParseOk.
Context `{!CommandRuntime, !RuntimeLaws}.
Context (d : CommandDispatcher) (Hd : arena_ok d) (source : Source).

Notation Parser := (@Parser TextComponent).

(** What [parse_node] adds to a context *)
Definition adds_node (c : ParsedCommandContext) (id : NodeId) (n : CommandNode) (c' : ParsedCommandContext) : Prop :=
  p_source c' = p_source c /\ p_root c' = p_root c /\ p_child c' = p_child c /\
  (exists range, p_nodes c' = p_nodes c ++ [{| parsed_node := id; parsed_range := range |}]) /\
  p_modifier c' = (redirect (body n) ≫= modifier) /\
  p_forks c' = match redirect (body n) with Some r => forks r | None => false end.

Lemma with_node_adds c id n range : adds_node c id n (with_node id range (redirect (body n)) c).
Proof.
  unfold adds_node. cbn. repeat split. by eexists.
Qed.

Lemma between_places pre w : between (utf16_len pre) (utf16_len (pre ++ w)) =
  Some {| sr_start := utf16_len pre; sr_end := utf16_len (pre ++ w) |}.
Proof. unfold between. rewrite (proj2 (Nat.leb_le _ _)); [done|]. rewrite utf16_len_app. lia. Qed.

Lemma parse_node_ok id n c pre post : node d id = Some n -> data (body n) <> DataRoot ->
  exists o w post', post = w ++ post' /\ parse_node d id c (reader_at pre post) = (o, reader_at (pre ++ w) post') /\
  match o with Ok c' => adds_node c id n c' | Err _ => True | Panic => False end.
Proof.
  intros [_ Hn]%node_some Hdata. unfold parse_node. rewrite Hn.
  destruct (data (body n)) as [|lit|nm [a sugg]]; [done| |]; rewrite checkpoint_at.
  - destruct (@literal_cases TextComponent lit pre post) as [(post' & -> & _ & He)|He].
    + rewrite (pbind_ok _ _ _ _ _ He). cbn [negb]. rewrite checkpoint_at. cbn [c_utf16 place].
      rewrite between_places. eexists (Ok _), lit, post'. split; [done|]. split; [done|]. apply with_node_adds.
    + rewrite (pbind_ok _ _ _ _ _ He). cbn [negb]. eexists (Err _), [], post. split; [done|]. rewrite (app_nil_r pre). done.
  - cbn [argument_type]. destruct (parse_forward a (p_source c) pre post) as (o & w & post' & -> & Ho & He).
    unfold pbind at 1. rewrite He. destruct o as [v|e|]; [|by exists (Err e), w, post'|done].
    rewrite checkpoint_at. cbn [c_utf16 place]. rewrite between_places.
    eexists (Ok _), w, post'. split; [done|]. split; [done|].
    destruct (with_node_adds (with_argument nm {| sr_start := utf16_len pre; sr_end := utf16_len (pre ++ w) |} v c) id n
      {| sr_start := utf16_len pre; sr_end := utf16_len (pre ++ w) |}) as (H1 & H2 & H3 & H4 & H5 & H6).
    repeat split; done.
Qed.

(** The context after a child was read, with its executor *)
Lemma adds_segment c parent id n c' : node d id = Some n -> child_allowed d source parent id ->
  segment d source c parent -> adds_node c id n c' ->
  segment d source (set_executor (node_executor n (p_source c)) c') id.
Proof.
  intros Hn Hc [Hs Hp _] (H1 & H2 & H3 & [range H4] & H5 & H6). split.
  - cbn. by rewrite H1.
  - cbn. rewrite H2, H4, fmap_app. by eapply path_snoc.
  - cbn. rewrite H4. destruct (p_nodes c ++ _) eqn:E; [by destruct (p_nodes c)|]. rewrite Hs. by exists n.
Qed.

Lemma relevant_children_ok token ids : forall arguments,
  Forall (fun id => is_Some (nodes d !! index id)) ids ->
  exists l, relevant_children d token ids arguments = Ok l /\ forall id, id ∈ l -> id ∈ ids \/ id ∈ arguments.
Proof.
  induction ids as [|id ids IH]; intros arguments Hall; [exists arguments; by split; [|right]|].
  apply Forall_cons in Hall as [[n Hn] Hall]. cbn [relevant_children]. rewrite Hn.
  destruct (data (body n)) as [|lit|nm a].
  - destruct (IH arguments Hall) as (l & -> & Hl). exists l. split; [done|]. set_solver.
  - case_decide; [exists [id]; split; [done|]; set_solver|].
    destruct (IH arguments Hall) as (l & -> & Hl). exists l. split; [done|]. set_solver.
  - destruct (IH (arguments ++ [id]) Hall) as (l & -> & Hl). exists l. split; [done|]. set_solver.
Qed.

Lemma relevant_nodes_ok parent p pre post : node d parent = Some p -> exists l,
  relevant_nodes d parent (reader_at pre post) = Ok l /\ Forall (fun id => id ∈ children p) l.
Proof.
  intros Hp. unfold relevant_nodes. rewrite Hp, remaining_at. cbn [fst].
  destruct (relevant_children_ok (next_token post) (children p) []) as (l & -> & Hl).
  - apply Forall_forall. intros id Hid. apply node_some in Hp as [_ Hp].
    destruct (arena_child _ _ _ _ Hd Hp Hid) as (m & [_ Hm]%node_some & _). by eexists.
  - exists l. split; [done|]. apply Forall_forall. intros id Hid. destruct (Hl id Hid) as [|Hn]; [done|by apply not_elem_of_nil in Hn].
Qed.

(** A result that was parsed below [c] from [reader_at pre post] *)
Definition result_ok (c : ParsedCommandContext) (pre post : text) (r : ParseResults) : Prop :=
  describes d source (res_context r) /\ p_root (res_context r) = p_root c /\
  exists w post', post = w ++ post' /\ res_reader r = reader_at (pre ++ w) post'.

Lemma result_after c c' pre w post r : p_root c' = p_root c -> result_ok c' (pre ++ w) post r -> result_ok c pre (w ++ post) r.
Proof.
  intros Hr (H1 & H2 & w' & post' & -> & H3). split; [done|]. split; [congruence|]. exists (w ++ w'), post'.
  split; [by rewrite app_assoc|by rewrite app_assoc].
Qed.

(** What the loop does with a child, the recursive call keeping its promise *)
Lemma parse_child_ok rec parent p id c pre post :
  (forall parent c w post', is_Some (node d parent) -> segment d source c parent -> p_child c = None -> post = w ++ post' -> w <> [] ->
    exists r, rec parent (reader_at (pre ++ w) post') c = Ok r /\ result_ok c (pre ++ w) post' r) ->
  node d parent = Some p -> id ∈ children p -> segment d source c parent -> p_child c = None ->
  exists o, parse_child d rec id (reader_at pre post) c = Ok o /\
  match o with Potential r | Redirected r => result_ok c pre post r | Skipped | Failed _ => True end.
Proof.
  intros Hrec Hp Hid Hseg Hchild. pose proof Hp as [_ Hpn]%node_some.
  destruct (arena_child _ _ _ _ Hd Hpn Hid) as (n & Hn & Hlt). pose proof Hn as [_ Hnn]%node_some.
  destruct (arena_nodes _ Hd _ _ Hnn) as [Hroot Hred _ _].
  assert (Hdata : data (body n) <> DataRoot) by (intros He; apply Hroot in He; lia).
  unfold parse_child. rewrite Hnn. destruct (allows (requirement (body n)) (p_source c)) eqn:Ea; [|by exists Skipped].
  cbn [negb]. rewrite (seg_source _ _ _ _ Hseg) in Ea.
  assert (Hallow : child_allowed d source parent id) by (exists p, n; done).
  destruct (parse_node_ok id n c pre post Hn Hdata) as (o & w & post' & -> & -> & Ho).
  destruct o as [c'|e|]; [|by eexists|done]. rewrite peek_at. cbn [fst]. rewrite can_read_at.
  destruct (_ && _); [by eexists|].
  pose proof (adds_segment c parent id n c' Hn Hallow Hseg Ho) as Hs'. destruct Ho as (Ho1 & Ho2 & Ho3 & _).
  assert (Hsc : p_source c' = source) by (rewrite Ho1; apply Hseg). rewrite Hsc. rewrite (seg_source _ _ _ _ Hseg) in Hs'.
  set (c2 := set_executor _ c') in *. assert (Hc2 : p_root c2 = p_root c /\ p_child c2 = None) by (cbn; by rewrite Ho2, Ho3).
  destruct Hc2 as [Hc2r Hc2c].
  assert (Htarget : exists target, node_redirect n = Ok target /\ match target with Some t => is_Some (node d t) | None => True end).
  { unfold node_redirect. unfold redirect_ok in Hred. destruct (redirect (body n)) as [r|]; [|by exists None].
    destruct (target r) as [t|]; [|done]. exists (Some t). split; [done|]. destruct Hred as [H1 H2].
    destruct (lookup_lt_is_Some_2 _ _ H2) as [m Hm]. exists m. by apply node_some. }
  destruct Htarget as (target & Ht & Htn). rewrite Ht. cbn [obind].
  destruct (can_read_length _ _) eqn:Ec.
  - destruct post' as [|x post'].
    { exfalso. unfold can_read_length in Ec. cbn in Ec. rewrite (app_nil_r (pre ++ w)) in Ec.
      apply andb_true_iff in Ec as [_ Ec]. apply Nat.leb_le in Ec. destruct target; lia. }
    rewrite skip_at. rewrite <- (app_assoc pre w).
    assert (Hsplit : w ++ x :: post' = (w ++ [x]) ++ post') by by rewrite <- app_assoc.
    destruct target as [t|].
    + destruct (Hrec t (parsed_new source t (utf16_len (pre ++ w ++ [x]))) (w ++ [x]) post' Htn (segment_new _ _ _ _) eq_refl Hsplit)
        as (r & He & Hr1 & Hr2 & Hr3); [by destruct w|].
      cbn [p_source set_executor cursor reader_at place c_utf16]. replace (p_source c2) with source by (symmetry; apply Hs').
      rewrite He. eexists. split; [done|]. rewrite Hsplit. apply (result_after c c2); [done|]. split; [|split; [done|done]].
      cbn. eapply describes_redirect; [| exact Hn | by rewrite Ht, Hr2 | done | done]. by destruct Hs'; split.
    + destruct (Hrec id c2 (w ++ [x]) post') as (r & He & Hr); [by eexists|done|done|done|by destruct w|].
      rewrite He. eexists. split; [done|]. rewrite Hsplit. by apply (result_after c c2).
  - eexists. split; [done|]. split; [|split; [done|by exists w, post']]. by eapply describes_end.
Qed.

Lemma best_parse_in P best potentials : P best -> Forall P potentials -> P (best_parse best potentials).
Proof.
  unfold best_parse. intros Hb Hall. revert best Hb. induction Hall as [|r rs Hr _ IH]; intros best Hb; [done|].
  cbn [foldl]. apply IH. by destruct (is_better_parse r best).
Qed.

Lemma try_children_ok rec parent p c pre post :
  (forall parent c w post', is_Some (node d parent) -> segment d source c parent -> p_child c = None -> post = w ++ post' -> w <> [] ->
    exists r, rec parent (reader_at (pre ++ w) post') c = Ok r /\ result_ok c (pre ++ w) post' r) ->
  node d parent = Some p -> segment d source c parent -> p_child c = None ->
  forall ids errors potentials, Forall (fun id => id ∈ children p) ids -> Forall (result_ok c pre post) potentials ->
  exists r, try_children d rec (reader_at pre post) c ids errors potentials = Ok r /\ result_ok c pre post r.
Proof.
  intros Hrec Hp Hseg Hc ids. induction ids as [|id ids IH]; intros errors potentials Hids Hpot; cbn [try_children].
  - destruct Hpot as [|best potentials Hbest Hpot]; eexists; (split; [done|]).
    + split; [by eapply describes_end|]. split; [done|]. exists [], post. by rewrite (app_nil_r pre).
    + by apply best_parse_in.
  - apply Forall_cons in Hids as [Hid Hids].
    destruct (parse_child_ok rec parent p id c pre post Hrec Hp Hid Hseg Hc) as (o & -> & Ho). cbn [obind].
    destruct o; [by apply IH|by apply IH| |by eexists].
    apply IH; [done|]. apply Forall_app. split; [done|by constructor].
Qed.

Lemma parse_nodes_ok fuel : forall parent c pre post, (length post < fuel)%nat ->
  is_Some (node d parent) -> segment d source c parent -> p_child c = None ->
  exists r, parse_nodes fuel d parent (reader_at pre post) c = Ok r /\ result_ok c pre post r.
Proof.
  induction fuel as [|fuel IH]; intros parent c pre post Hl [p Hp] Hseg Hc; [lia|]. cbn [parse_nodes].
  destruct (relevant_nodes_ok parent p pre post Hp) as (l & -> & Hall). cbn [obind].
  apply try_children_ok with (parent := parent) (p := p); [|done..].
  intros parent' c' w post' Hp' Hs' Hc' -> Hw. apply IH; [|done..]. rewrite length_app in Hl. destruct w; [done|]. simpl in Hl. lia.
Qed.
End ParseOk.

(** ** The whole parse *)

Section Whole.
Context `{!CommandRuntime, !RuntimeLaws}.
Context (d : CommandDispatcher) (Hd : arena_ok d) (source : Source).

Notation CommandSyntaxError := (CommandSyntaxError TextComponent).

Lemma arena_node_root : is_Some (node d (root d)).
Proof. destruct (arena_root _ Hd) as [r Hr]. exists r. by apply node_some. Qed.

Lemma parse_returns t : exists r, parse d t source = Ok r /\
  describes d source (res_context r) /\ p_root (res_context r) = root d /\
  exists pre post, t = pre ++ post /\ res_reader r = reader_at pre post.
Proof.
  unfold parse, parse_reader. rewrite reader_new_at. cbn [cursor reader_at place c_utf16 input app].
  change (utf16_len []) with 0%nat. fold (reader_at [] t).
  destruct (parse_nodes_ok d Hd source (S (length t)) (root d) (parsed_new source (root d) 0) [] t)
    as (r & -> & H1 & H2 & pre & post & Ht & H3).
  - lia.
  - apply arena_node_root.
  - apply segment_new.
  - done.
  - exists r. split; [done|]. split; [done|]. split; [done|]. by exists pre, post.
Qed.

(** A context that is to be executed: its nodes allow the source, and its
    executor is one the source may run. *)
Definition stage_allowed (t : text) (c : CommandContext) : Prop :=
  c_source c = source /\ c_input c = t /\
  Forall (fun p => exists n, node d (parsed_node p) = Some n /\ allows (requirement (body n)) source = true) (c_nodes c) /\
  match c_executor c with
  | None => True
  | Some e => exists p n, last (c_nodes c) = Some p /\ node d (parsed_node p) = Some n /\
      executor (body n) = Some e /\ can_execute n source = true
  end.

Lemma path_allowed from ids at_ : path d source from ids at_ ->
  Forall (fun id => exists n, node d id = Some n /\ allows (requirement (body n)) source = true) ids /\
  (ids = [] \/ last ids = Some at_).
Proof.
  induction 1 as [|ids mid id Hp [IH _] (p & n & _ & _ & Hn & Ha)]; [split; [done|by left]|].
  split; [|right; apply last_snoc]. apply Forall_app. split; [done|]. constructor; [by exists n|done].
Qed.

Lemma segment_allowed c at_ t : segment d source c at_ -> stage_allowed t (build c t).
Proof.
  intros [Hs Hp Hl]. apply path_allowed in Hp as [Hall Hat]. rewrite Forall_fmap in Hall.
  destruct c as [src rt args ex ns rng ch md fk]. cbn in *. split; [done|]. split; [done|]. split; [done|].
  destruct ex as [e|]; [|done]. cbn. destruct ns as [|p ns]; [naive_solver|].
  destruct Hat as [?|Hat]; [done|]. rewrite fmap_last in Hat. destruct (last (p :: ns)) as [q|] eqn:Eq; [|done].
  cbn in Hat. injection Hat as Hat. destruct Hl as (n & Hn & He & _).
  exists q, n. split; [done|]. split; [by rewrite Hat|]. unfold node_executor in He.
  destruct (executor (body n)) as [e'|] eqn:Ee; [|done]. destruct (allows (execution_requirement (body n)) source) eqn:Ea; [|done].
  injection He as <-. split; [done|]. unfold can_execute. rewrite Ee, Ea.
  rewrite Forall_forall in Hall. destruct (Hall q) as (n' & Hn' & Hq).
  { apply last_Some_elem_of. by rewrite Eq. }
  rewrite Hat in Hn'. simplify_eq. by rewrite Hq.
Qed.

Lemma flatten_allowed c t : describes d source c -> Forall (stage_allowed t) (flatten (build c t)).
Proof.
  induction 1 as [c at_ Hs Hc|c at_ n child Hs _ _ Hc _ IH]; pose proof (segment_allowed _ _ t Hs) as Ha;
    destruct c as [src rt args ex ns rng ch md fk]; cbn in Hc; subst ch; cbn in *; by constructor.
Qed.

(** *** Commands of literals *)

(** Words joined by spaces *)
Fixpoint sentence (ws : list text) : text :=
  match ws with
  | [] => []
  | [w] => w
  | w :: ws => w ++ 32 :: sentence ws
  end.

Definition is_word (w : text) : Prop := w <> [] /\ Forall (fun c => negb (c =? 32) = true) w.

(** Literals that lead from a node to its descendant; only the last may be a
    redirect. *)
Fixpoint literal_path (parent : NodeId) (steps : list (NodeId * text)) : Prop :=
  match steps with
  | [] => True
  | (id, w) :: steps => exists p n,
      node d parent = Some p /\ id ∈ children p /\ node d id = Some n /\
      data (body n) = DataLiteral w /\ is_word w /\ allows (requirement (body n)) source = true /\
      (steps = [] \/ redirect (body n) = None) /\ literal_path id steps
  end.

Lemma relevant_literal token id n ids : forall arguments,
  Forall (fun id => is_Some (nodes d !! index id)) ids -> NoDup (child_name d <$> ids) ->
  id ∈ ids -> nodes d !! index id = Some n -> data (body n) = DataLiteral token ->
  relevant_children d token ids arguments = Ok [id].
Proof.
  induction ids as [|i ids IH]; intros arguments Hall Hnd Hin Hn Hdata; [by apply not_elem_of_nil in Hin|].
  apply Forall_cons in Hall as [[m Hm] Hall]. cbn [relevant_children]. rewrite Hm.
  cbn [fmap list_fmap] in Hnd. apply NoDup_cons in Hnd as [Hi Hnd].
  destruct (decide (i = id)) as [->|Hne].
  - rewrite Hn in Hm. injection Hm as <-. rewrite Hdata. by rewrite decide_True.
  - apply elem_of_cons in Hin as [?|Hin]; [done|].
    assert (Hnm : name m <> token).
    { intros He. apply Hi. apply list_elem_of_fmap. exists id. split; [|done]. unfold child_name. rewrite Hm, Hn. cbn.
      unfold name. rewrite Hdata. cbn. by f_equal. }
    unfold name in Hnm. destruct (data (body m)) as [|lit|nm a]; cbn in Hnm; [by apply IH| |by apply IH].
    rewrite decide_False by done. by apply IH.
Qed.

Lemma next_token_word w post : is_word w -> match head post with Some c => c = 32 | None => True end ->
  next_token (w ++ post) = w.
Proof.
  intros [_ Hw] Hp. unfold next_token. rewrite span_all; [done|done|]. by destruct (head post); subst.
Qed.

(** One literal is read: the child that the loop looks at, and its outcome *)
Lemma literal_step rec parent id w p n c pre post :
  node d parent = Some p -> id ∈ children p -> node d id = Some n -> data (body n) = DataLiteral w -> is_word w ->
  allows (requirement (body n)) source = true -> p_source c = source ->
  match head post with Some c => c = 32 | None => True end ->
  relevant_nodes d parent (reader_at pre (w ++ post)) = Ok [id] /\
  exists range, parse_child d rec id (reader_at pre (w ++ post)) c =
    (let context := set_executor (node_executor n source) (with_node id range (redirect (body n)) c) in
     let reader := reader_at (pre ++ w) post in
     let? target := node_redirect n in
     if can_read_length (match target with Some _ => 1%nat | None => 2%nat end) reader then
       match @skip TextComponent reader with
       | (Ok _, reader) =>
           match target with
           | Some target =>
               let? parse := rec target reader (parsed_new source target (c_utf16 (cursor reader))) in
               Ok (Redirected {| res_context := set_child (res_context parse) context;
                                 res_reader := res_reader parse; res_errors := res_errors parse |})
           | None => let? parse := rec id reader context in Ok (Potential parse)
           end
       | _ => Panic
       end
     else Ok (Potential {| res_context := context; res_reader := reader; res_errors := [] |})).
Proof.
  intros Hp Hid Hn Hdata Hw Ha Hs Hh. pose proof Hp as [_ Hpn]%node_some. pose proof Hn as [_ Hnn]%node_some.
  destruct (arena_nodes _ Hd _ _ Hpn) as [_ _ _ Hnames]. split.
  - unfold relevant_nodes. rewrite Hp, remaining_at. cbn [fst]. rewrite next_token_word by done.
    eapply relevant_literal; [|done..]. apply Forall_forall. intros i Hi.
    destruct (arena_child _ _ _ _ Hd Hpn Hi) as (m & [_ Hm]%node_some & _). by eexists.
  - exists {| sr_start := utf16_len pre; sr_end := utf16_len (pre ++ w) |}.
    unfold parse_child. rewrite Hnn, Hs, Ha. cbn [negb]. unfold parse_node. rewrite Hnn, Hdata, checkpoint_at.
    rewrite (pbind_ok _ _ _ _ _ (literal_at w pre post Hh)). cbn [negb]. rewrite checkpoint_at. cbn [c_utf16 place].
    rewrite between_places. cbn [or_panic pbind pret]. unfold pbind, or_panic, pret. rewrite peek_at, can_read_at. cbn [fst].
    replace (negb (bool_decide (post = [])) && negb (bool_decide (head post = Some 32))) with false
      by (destruct post; cbn in Hh; subst; done).
    cbn [p_source set_executor with_node]. by rewrite Hs.
Qed.

Lemma can_read_length_at n pre post : can_read_length n (reader_at pre post) =
  (Z.of_nat (utf16_len pre + n) <=? usize_max) && (n <=? utf16_len post)%nat.
Proof.
  unfold can_read_length. cbn [cursor total_length reader_at place c_utf16]. f_equal. rewrite utf16_len_app.
  apply eq_true_iff_eq. rewrite !Nat.leb_le. lia.
Qed.

Lemma utf16_len_pos c t : (1 <= utf16_len (c :: t))%nat.
Proof. change (utf16_len (c :: t)) with (len_utf16 c + utf16_len t)%nat. unfold len_utf16. case_match; lia. Qed.

Lemma sentence_head w ws : is_word w -> exists c t, sentence (w :: ws) = c :: t.
Proof. intros [Hw _]. destruct w as [|c w]; [done|]. destruct ws; simpl; eauto. Qed.

Lemma parse_literals steps : forall fuel parent c pre id n,
  (length (sentence steps.*2) < fuel)%nat -> literal_path parent steps -> last steps.*1 = Some id -> node d id = Some n ->
  p_source c = source -> p_child c = None -> Z.of_nat (utf16_len (pre ++ sentence steps.*2)) <= usize_max ->
  exists c', parse_nodes fuel d parent (reader_at pre (sentence steps.*2)) c =
    Ok {| res_context := c'; res_reader := reader_at (pre ++ sentence steps.*2) []; res_errors := [] |} /\
  p_root c' = p_root c /\ p_executor c' = node_executor n source /\ p_child c' = None /\
  parsed_node <$> p_nodes c' = (parsed_node <$> p_nodes c) ++ steps.*1.
Proof.
  induction steps as [|[i w] steps IH]; intros [|fuel] parent c pre id n Hf Hpath Hlast Hn Hs Hc Hmax; [done..|lia|].
  destruct Hpath as (p & m & Hp & Hi & Hm & Hdata & Hw & Ha & Hred & Hpath). cbn [parse_nodes].
  destruct steps as [|[i2 w2] steps].
  - cbn in Hlast. injection Hlast as ->. assert (m = n) as -> by congruence. cbn [fmap list_fmap sentence snd] in *.
    replace w with (w ++ []) by apply app_nil_r.
    destruct (literal_step (parse_nodes fuel d) parent id w p n c pre [] Hp Hi Hn Hdata Hw Ha Hs I) as (-> & range & He).
    cbn [obind try_children]. rewrite He. cbn zeta. pose proof Hn as [_ Hnn]%node_some.
    destruct (arena_nodes _ Hd _ _ Hnn) as [_ Hro _ _].
    assert (exists target, node_redirect n = Ok target) as [target ->].
    { unfold node_redirect, redirect_ok in *. destruct (redirect (body n)) as [r|]; [|by eexists]. destruct (target r); [by eexists|done]. }
    cbn [obind]. rewrite can_read_length_at.
    replace (_ <=? utf16_len [])%nat with false by (by destruct target). rewrite andb_false_r. cbn [obind].
    rewrite (app_nil_r w). eexists. split; [done|]. cbn. rewrite Hc, fmap_app. done.
  - destruct Hred as [?|Hred]; [done|].
    assert (Hw2 : is_word w2) by (destruct Hpath as (? & ? & _ & _ & _ & _ & ? & _); done).
    destruct (sentence_head w2 steps.*2 Hw2) as (x & t & Hx).
    set (rest := (i2, w2) :: steps) in *. change (sentence ((i, w) :: rest).*2) with (w ++ 32 :: sentence rest.*2) in *.
    change (sentence rest.*2) with (sentence (w2 :: steps.*2)) in *.
    destruct (literal_step (parse_nodes fuel d) parent i w p m c pre (32 :: sentence (w2 :: steps.*2)) Hp Hi Hm Hdata Hw Ha Hs eq_refl)
      as (-> & range & He).
    cbn [obind try_children]. rewrite He. cbn zeta. unfold node_redirect. rewrite Hred. cbn [obind]. cbv iota.
    rewrite can_read_length_at.
    assert (Hlen : (2 <= utf16_len (32%Z :: sentence (w2 :: steps.*2)))%nat).
    { rewrite Hx. change (utf16_len (32 :: x :: t)) with (1 + utf16_len (x :: t))%nat. pose proof (utf16_len_pos x t). lia. }
    rewrite !utf16_len_app in Hmax. rewrite utf16_len_app. rewrite (proj2 (Z.leb_le _ _)), (proj2 (Nat.leb_le _ _)) by lia.
    cbn [andb]. rewrite skip_at. set (c2 := set_executor _ _).
    destruct (IH fuel i c2 ((pre ++ w) ++ [32]) id n) as (c' & -> & H1 & H2 & H3 & H4); [| |done|done|done|done| |].
    + rewrite length_app in Hf. simpl in Hf |- *. lia.
    + done.
    + rewrite !utf16_len_app. change (utf16_len [32]) with 1%nat.
      change (utf16_len (32 :: sentence (w2 :: steps.*2))) with (1 + utf16_len (sentence (w2 :: steps.*2)))%nat in Hmax.
      change (sentence rest.*2) with (sentence (w2 :: steps.*2)). lia.
    + cbn [obind app best_parse foldl]. exists c'. rewrite <- !app_assoc. cbn [app]. split; [done|].
      split; [done|]. split; [done|]. split; [done|]. rewrite H4. cbn. rewrite fmap_app, <- app_assoc. done.
Qed.

(** A parse is turned into a chain whose stages are allowed, or refused. *)
Lemma context_chain_allowed r pre post : describes d source (res_context r) -> p_root (res_context r) = root d ->
  res_reader r = reader_at pre post ->
  match context_chain d r with
  | Ok chain => post = [] /\ position chain = 0%nat /\ Forall (stage_allowed pre) (contexts chain) /\
      exists c e, last (contexts chain) = Some c /\ c_executor c = Some e
  | Err _ => True
  | Panic => False
  end.
Proof.
  intros Hdesc Hroot Hr. unfold context_chain. rewrite Hr, can_read_at. destruct (decide (post = [])) as [->|Hne];
    [rewrite bool_decide_true by done|rewrite bool_decide_false by done]; cbn [negb]; cbv iota.
  - rewrite Hroot. unfold root. cbn [dispatcher]. rewrite Z.eqb_refl. cbn [negb]. cbv iota. unfold try_flatten.
    replace (input (reader_at pre [])) with pre by exact (eq_sym (app_nil_r pre)).
    destruct (last (flatten (build (res_context r) pre))) as [c|] eqn:El; [|done].
    destruct (c_executor c) as [e|] eqn:Ee; [|done]. cbn [contexts position].
    split; [done|]. split; [done|]. split; [by apply flatten_allowed|]. by exists c, e.
  - by destruct (res_errors r) as [|? [|? ?]].
Qed.

(** C6: Parsing returns for every text and every source, without panicking:
    the result stops somewhere in the text and describes a path from the root
    of the dispatcher, through redirects, all of whose nodes allow the source.
    When it is turned into a chain to be executed, the whole text was read,
    every stage's nodes allow the source, and the last stage's executor is that
    of the last node read, which the source may execute. *)
Theorem only_allowed_commands_run t : exists r, parse d t source = Ok r /\
  describes d source (res_context r) /\ p_root (res_context r) = root d /\
  (exists pre post, t = pre ++ post /\ res_reader r = reader_at pre post) /\
  match context_chain d r with
  | Ok chain => res_reader r = reader_at t [] /\ position chain = 0%nat /\
      Forall (stage_allowed t) (contexts chain) /\
      exists c e, last (contexts chain) = Some c /\ c_executor c = Some e
  | Err _ => True
  | Panic => False
  end.
Proof.
  destruct (parse_returns t) as (r & He & Hdesc & Hroot & pre & post & Ht & Hr). exists r.
  split; [done|]. split; [done|]. split; [done|]. split; [by exists pre, post|].
  pose proof (context_chain_allowed r pre post Hdesc Hroot Hr) as Hc. destruct (context_chain d r); [|done|done].
  destruct Hc as (-> & Hp & Hall & Hlast). rewrite app_nil_r in Ht. by subst pre.
Qed.

(** C29: The words of a path of literals in the arena, joined by spaces, are
    parsed to the nodes of that path, and give a chain of one stage with the
    executor of the last of them.  The source is allowed every node of the path
    ([literal_path]) and the executor of the last one, and only the last literal
    may be a redirect. *)
Theorem literal_command_found steps id n e : literal_path (root d) steps -> last steps.*1 = Some id ->
  node d id = Some n -> executor (body n) = Some e -> allows (execution_requirement (body n)) source = true ->
  Z.of_nat (utf16_len (sentence steps.*2)) <= usize_max ->
  exists r chain c, parse d (sentence steps.*2) source = Ok r /\ context_chain d r = Ok chain /\
  contexts chain = [c] /\ c_executor c = Some e /\ parsed_node <$> c_nodes c = steps.*1.
Proof.
  intros Hpath Hlast Hn He Ha Hmax.
  destruct (parse_literals steps (S (length (sentence steps.*2))) (root d) (parsed_new source (root d) 0) [] id n)
    as (c & Hr & H1 & H2 & H3 & H4); [lia|done..|].
  destruct c as [src rt args ex ns rng ch md fk]. cbn in H2, H3, H4. unfold node_executor in H2. rewrite He, Ha in H2. subst ch ex.
  unfold parse, parse_reader. rewrite reader_new_at. cbn [cursor reader_at place c_utf16 input app].
  change (utf16_len []) with 0%nat. fold (reader_at [] (sentence steps.*2)). rewrite Hr. eexists.
  refine (ex_intro _ _ (ex_intro _ _ (conj eq_refl _))).
  unfold context_chain. cbn [res_reader res_context res_errors]. rewrite can_read_at, bool_decide_true by done. cbn [negb]. cbv iota.
  rewrite H1. cbn [p_root parsed_new root dispatcher]. rewrite Z.eqb_refl. cbn [negb]. cbv iota.
  unfold try_flatten. cbn. split; [done|]. done.
Qed.
End Whole.

(** ** Examples *)

Module ParseDemo.
Import Demo.

#[export] Instance demo_laws : RuntimeLaws.
Proof. apply primitive_laws. Qed.

Definition an_operator : Src := {| level := 3; src_callback := None |}.
Definition a_guest : Src := {| level := 0; src_callback := None |}.

Definition steps : list (NodeId * text) := [(mk_id 1 1, w_tp); (mk_id 1 2, w_home)].
Definition tp_home : text := sentence steps.*2.

(** A guest may not use [tp home], nor leave out its last word. *)
Example guest_refused :
  match parse commands tp_home a_guest with
  | Ok r => match context_chain commands r with Err e => err_kind e = UnknownArgument | _ => False end
  | _ => False
  end.
Proof. vm_compute. done. Qed.

Lemma only_allowed_commands_run_witness : arena_ok commands /\ exists r chain,
  parse commands tp_home an_operator = Ok r /\ context_chain commands r = Ok chain /\
  Forall (stage_allowed commands an_operator tp_home) (contexts chain).
Proof.
  split; [apply commands_ok|].
  destruct (only_allowed_commands_run commands commands_ok an_operator tp_home) as (r & He & _ & _ & _ & Hc). exists r.
  assert (Hok : match parse commands tp_home an_operator with
    | Ok r => match context_chain commands r with Ok _ => true | _ => false end | _ => false end = true) by (vm_compute; done).
  rewrite He in Hok. destruct (context_chain commands r) as [chain| |]; [|done|done]. exists chain.
  destruct Hc as (_ & _ & Hall & _). done.
Defined.

Lemma literal_command_found_witness : exists r chain c, parse commands tp_home an_operator = Ok r /\
  context_chain commands r = Ok chain /\ contexts chain = [c] /\ c_executor c = Some 0%nat /\
  parsed_node <$> c_nodes c = [mk_id 1 1; mk_id 1 2].
Proof.
  apply (literal_command_found commands commands_ok an_operator steps (mk_id 1 2)
    {| body := literal_body w_home (Some 0%nat) operator; children := [] |} 0%nat); try done.
  assert (Hw : is_word w_tp /\ is_word w_home) by (split; (split; [done|by repeat constructor])). destruct Hw.
  exists {| body := root_body; children := [mk_id 1 1; mk_id 1 3] |}, {| body := literal_body w_tp None allow_all; children := [mk_id 1 2] |}.
  do 6 (split; [reflexivity || set_solver || done|]). split; [by right|].
  exists {| body := literal_body w_tp None allow_all; children := [mk_id 1 2] |},
    {| body := literal_body w_home (Some 0%nat) operator; children := [] |}.
  do 6 (split; [reflexivity || set_solver || done|]). split; [by left|done].
Defined.
End ParseDemo.
