(* ===== verification/CommandQueue.v ===== *)
(** * The command queue

    Models [steel-core/src/command/execution/queue.rs], the callbacks of
    [execution/source.rs] and the executors of [execution/runtime.rs] and
    [builtins/return_command.rs].

    A chain that was parsed is run by a queue of actions: an action builds the
    sources of a chain, others run its executor for one of them, and what an
    action queues goes before what was queued.

    The world that executors change is a type [World].  Trait objects are
    given by what the queue calls of them: executors and modifiers by
    [SteelExecutor] and [SteelModifier], a suspension by its [poll] and
    [cancel].  A custom executor is a program [Control] of the calls that
    [ExecutionControl] offers, with effects on the world between them.

    - [execution_returns]: a queue stops; [weight] is the number of turns it may take.
    - [command_limit_bounds]: no more commands run than the limit allows, over
      all the ticks of an execution.
    - [queue_refines_direct]: running a chain through the queue is evaluating
      it directly, source after source, until the limit is spent.
    - [return_run_reports]: [return run] gives the command's result to the
      frame, and stops. *)

From Stdlib Require Import Lia ZArith.
From stdpp Require Import prelude list.
From S2P Require Import Prelude CommandReader CommandGraph CommandParse.

Definition MAX_COMMAND_QUEUE_DEPTH : Z := 10000000.

(** ** Modifiers *)

Record ChainModifiers := { bits : Z }.
Definition FORKED : Z := 1.
Definition RETURN : Z := 2.
Definition modifiers_default : ChainModifiers := {| bits := 0 |}.
Definition is_forked (m : ChainModifiers) : bool := negb (Z.land (bits m) FORKED =? 0).
Definition is_return (m : ChainModifiers) : bool := negb (Z.land (bits m) RETURN =? 0).
Definition with_forked (m : ChainModifiers) : ChainModifiers := {| bits := Z.lor (bits m) FORKED |}.
Definition with_return (m : ChainModifiers) : ChainModifiers := {| bits := Z.lor (bits m) RETURN |}.

Inductive ExecutionStop := Completed | Suspended | CommandLimit | QueueOverflow.

Inductive CommandSuspensionOrder := OrderSource | OrderGlobal.
#[export] Instance CommandSuspensionOrder_eq_dec : EqDecision CommandSuspensionOrder.
Proof. solve_decision. Defined.

Inductive FrameDiscard := DiscardAll | AtOrAbove (depth : nat).

Inductive ContextChainStage := Modify | ExecuteStage.
#[export] Instance ContextChainStage_eq_dec : EqDecision ContextChainStage.
Proof. solve_decision. Defined.

(** What the scheduler needs of a source and of a suspension, and the value of
    an argument as an integer *)
Class CommandExecution `{!CommandRuntime} (World : Type) : Type := {
  CommandResultCallback := option (bool -> Z -> World -> World);
  execution_is_current : Source -> World -> bool;
  with_callback : Source -> option (bool -> Z -> World -> World) -> Source;
  callback : Source -> option (bool -> Z -> World -> World);
  handle_error : Source -> CommandSyntaxError TextComponent -> bool -> World -> World;
  fork_limit_reached : Z -> TextComponent;
  integer_value : ArgumentValue -> option Z;
  Suspension : Type;
  suspension_order : Suspension -> CommandSuspensionOrder;
  poll_result : Suspension -> World -> option (CommandSyntaxError TextComponent + Z) * Suspension * World;
  cancel_result : Suspension -> World -> World
}.

Section Queue.
Context `{!CommandRuntime} {World : Type} `{!CommandExecution World}.

Notation CommandSyntaxError := (CommandSyntaxError TextComponent).

(** ** Callbacks *)

Definition chain_callbacks (first second : CommandResultCallback) : CommandResultCallback :=
  match first, second with
  | None, None => None
  | Some callback, None | None, Some callback => Some callback
  | Some first, Some second => Some (fun success result w => second success result (first success result w))
  end.

Definition on_result (c : CommandResultCallback) (success : bool) (result : Z) (w : World) : World :=
  match c with Some f => f success result w | None => w end.

Record Frame := { depth : nat; return_value_consumer : CommandResultCallback; discard_of : FrameDiscard }.

Definition frame_success (f : Frame) (value : Z) : World -> World := on_result (return_value_consumer f) true value.
Definition frame_failure (f : Frame) : World -> World := on_result (return_value_consumer f) false 0.

(** ** Chains *)

Definition stage (c : ContextChain) : ContextChainStage :=
  if (position c + 1 =? length (contexts c))%nat then ExecuteStage else Modify.

(** [top_context]; [None] is an index out of bounds. *)
Definition top_context (c : ContextChain) : option CommandContext := contexts c !! position c.

Definition next_stage (c : ContextChain) : option ContextChain :=
  if (position c + 1 <? length (contexts c))%nat
  then Some {| contexts := contexts c; position := position c + 1 |} else None.

Definition copy_for (s : Source) (c : CommandContext) : CommandContext :=
  {| c_source := s; c_input := c_input c; c_root := c_root c; c_arguments := c_arguments c;
     c_executor := c_executor c; c_nodes := c_nodes c; c_range := c_range c; c_child := c_child c;
     c_modifier := c_modifier c; c_forks := c_forks c |}.

(** ** Actions *)

(** [CommandResultSuspensionAdapter], the one kind of [CommandSuspension] *)
Record SuspensionAdapter := { ad_suspension : Suspension; ad_source : Source; ad_modifiers : ChainModifiers }.

Inductive Action :=
| BuildContextsAction (chain : ContextChain) (original_source : Source) (sources : list Source) (modifiers : ChainModifiers)
| ExecuteContinuation (chain : ContextChain) (sources : list Source) (modifiers : ChainModifiers)
| ExecuteAction (chain : ContextChain) (source : Source) (modifiers : ChainModifiers)
| SuspendAction (suspension : SuspensionAdapter)
| SuspensionResumeAction (action : Action)
| UnavailableCommandResultAction (source : Source)
| CompleteCommandResultAction (source : Source) (modifiers : ChainModifiers) (result : CommandSyntaxError + Z)
| FallthroughAction.

(** The calls of [ExecutionControl] *)
Inductive Control :=
| Done
| Unreachable
| OnWorld (effect : World -> World) (k : World -> Control)
| QueueNext (action : Action) (k : Control)
| DiscardFrame (k : Control)
| ReturnSuccess (result : Z) (k : Control)
| ReturnFailure (k : Control).

Definition queue_contexts (chain : ContextChain) (original_source : Source) (sources : list Source)
    (modifiers : ChainModifiers) : Control -> Control :=
  QueueNext (BuildContextsAction chain original_source sources modifiers).
Definition queue_fallthrough : Control -> Control := QueueNext FallthroughAction.
Definition suspend (s : SuspensionAdapter) : Control -> Control := QueueNext (SuspendAction s).

Inductive SteelExecutor :=
| StandardExecutor (call : CommandContext -> World -> (CommandSyntaxError + Z) * World)
| SuspendedExecutor (call : CommandContext -> World -> (CommandSyntaxError + Suspension) * World)
| CustomExecutor (call : Source -> ContextChain -> ChainModifiers -> Control).

Inductive SteelModifier :=
| StandardModifier (apply : CommandContext -> World -> (CommandSyntaxError + list Source) * World)
| CustomModifier (apply : Source -> list Source -> ContextChain -> ChainModifiers -> Control).

(** What the runtime's executors and modifiers do *)
Context (steel_executor : Executor -> SteelExecutor) (steel_modifier : Modifier -> SteelModifier).

(** [action.runs_after_command_limit()] *)
Definition runs_after_command_limit (a : Action) : bool :=
  match a with SuspendAction _ | SuspensionResumeAction _ => true | _ => false end.

(** [action.cancel()] *)
Fixpoint action_cancel (a : Action) (w : World) : World :=
  match a with
  | SuspendAction s => cancel_result (ad_suspension s) w
  | SuspensionResumeAction a => action_cancel a w
  | _ => w
  end.

(** ** The queue *)

Record CommandQueueEntry := { frame : Frame; action : Action }.
Record ActiveSuspension := { sus_frame : Frame; suspended : SuspensionAdapter }.

Record CommandExecutionContext := {
  command_limit : Z;
  fork_limit : Z;
  queue_limit : Z;
  command_quota : Z;
  queue_overflow : bool;
  command_queue : list CommandQueueEntry;
  new_top_commands : list CommandQueueEntry;
  suspension : option ActiveSuspension;
  current_frame_depth : nat
}.

Definition execution_new (limit forks : Z) : CommandExecutionContext :=
  let limit := Z.max limit 1 in
  {| command_limit := limit; fork_limit := forks; queue_limit := MAX_COMMAND_QUEUE_DEPTH;
     command_quota := limit; queue_overflow := false; command_queue := []; new_top_commands := [];
     suspension := None; current_frame_depth := 0 |}.

Definition set_queues (queue new : list CommandQueueEntry) (x : CommandExecutionContext) : CommandExecutionContext :=
  {| command_limit := command_limit x; fork_limit := fork_limit x; queue_limit := queue_limit x;
     command_quota := command_quota x; queue_overflow := queue_overflow x; command_queue := queue;
     new_top_commands := new; suspension := suspension x; current_frame_depth := current_frame_depth x |}.
Definition set_overflow (b : bool) (x : CommandExecutionContext) : CommandExecutionContext :=
  {| command_limit := command_limit x; fork_limit := fork_limit x; queue_limit := queue_limit x;
     command_quota := command_quota x; queue_overflow := b; command_queue := command_queue x;
     new_top_commands := new_top_commands x; suspension := suspension x; current_frame_depth := current_frame_depth x |}.
Definition set_suspension (s : option ActiveSuspension) (x : CommandExecutionContext) : CommandExecutionContext :=
  {| command_limit := command_limit x; fork_limit := fork_limit x; queue_limit := queue_limit x;
     command_quota := command_quota x; queue_overflow := queue_overflow x; command_queue := command_queue x;
     new_top_commands := new_top_commands x; suspension := s; current_frame_depth := current_frame_depth x |}.
Definition set_depth (n : nat) (x : CommandExecutionContext) : CommandExecutionContext :=
  {| command_limit := command_limit x; fork_limit := fork_limit x; queue_limit := queue_limit x;
     command_quota := command_quota x; queue_overflow := queue_overflow x; command_queue := command_queue x;
     new_top_commands := new_top_commands x; suspension := suspension x; current_frame_depth := n |}.

(** [saturating_sub(1)] *)
Definition increment_cost (x : CommandExecutionContext) : CommandExecutionContext :=
  {| command_limit := command_limit x; fork_limit := fork_limit x; queue_limit := queue_limit x;
     command_quota := Z.max 0 (command_quota x - 1); queue_overflow := queue_overflow x; command_queue := command_queue x;
     new_top_commands := new_top_commands x; suspension := suspension x; current_frame_depth := current_frame_depth x |}.

Definition cancel_entries (es : list CommandQueueEntry) (w : World) : World :=
  foldl (fun w e => action_cancel (action e) w) w es.

Definition create_top_frame (consumer : CommandResultCallback) (x : CommandExecutionContext) : Frame :=
  if (current_frame_depth x =? 0)%nat
  then {| depth := 0; return_value_consumer := consumer; discard_of := DiscardAll |}
  else
    let depth := (current_frame_depth x + 1)%nat in
    {| depth := depth; return_value_consumer := consumer; discard_of := AtOrAbove depth |}.

Definition queue_entry (e : CommandQueueEntry) (x : CommandExecutionContext) (w : World) : CommandExecutionContext * World :=
  let (x, w) :=
    if queue_limit x <? Z.of_nat (length (new_top_commands x) + length (command_queue x))
    then (set_queues [] [] (set_overflow true x), cancel_entries (command_queue x) (cancel_entries (new_top_commands x) w))
    else (x, w) in
  if queue_overflow x then (x, action_cancel (action e) w)
  else (set_queues (command_queue x) (new_top_commands x ++ [e]) x, w).

Definition queue_next (f : Frame) (a : Action) : CommandExecutionContext -> World -> CommandExecutionContext * World :=
  queue_entry {| frame := f; action := a |}.

(** [while let Some(command) = self.new_top_commands.pop() { push_front }]:
    [popped] is the list from its end. *)
Fixpoint push_fronts (popped queue : list CommandQueueEntry) : list CommandQueueEntry :=
  match popped with [] => queue | e :: popped => push_fronts popped (e :: queue) end.
Definition push_new_commands (x : CommandExecutionContext) : CommandExecutionContext :=
  set_queues (push_fronts (reverse (new_top_commands x)) (command_queue x)) [] x.

(** The entries in front of depth [d] or above, and the rest *)
Fixpoint drop_above (d : nat) (queue : list CommandQueueEntry) (w : World) : list CommandQueueEntry * World :=
  match queue with
  | [] => ([], w)
  | e :: rest => if (d <=? depth (frame e))%nat then drop_above d rest (action_cancel (action e) w) else (queue, w)
  end.

Definition discard (f : Frame) (x : CommandExecutionContext) (w : World) : CommandExecutionContext * World :=
  match discard_of f with
  | DiscardAll => (set_queues [] (new_top_commands x) x, cancel_entries (command_queue x) w)
  | AtOrAbove d => let (queue, w) := drop_above d (command_queue x) w in (set_queues queue (new_top_commands x) x, w)
  end.

Definition cancel (x : CommandExecutionContext) (w : World) : CommandExecutionContext * World :=
  let w := match suspension x with Some s => cancel_result (ad_suspension (suspended s)) w | None => w end in
  let w := cancel_entries (new_top_commands x) (cancel_entries (command_queue x) w) in
  (set_depth 0 (set_overflow false (set_queues [] [] (set_suspension None x))), w).

Definition queue_initial_command (chain : ContextChain) (source : Source) (consumer : CommandResultCallback)
    (x : CommandExecutionContext) (w : World) : CommandExecutionContext * World :=
  queue_next (create_top_frame consumer x) (BuildContextsAction chain source [source] modifiers_default) x w.

(** ** Executing actions *)

Fixpoint run_control (c : Control) (f : Frame) (x : CommandExecutionContext) (w : World) : run (CommandExecutionContext * World) :=
  match c with
  | Done => Ok (x, w)
  | Unreachable => Panic
  | OnWorld effect k => run_control (k w) f x (effect w)
  | QueueNext a c => let (x, w) := queue_next f a x w in run_control c f x w
  | DiscardFrame c => let (x, w) := discard f x w in run_control c f x w
  | ReturnSuccess value c => let (x, w) := discard f x (frame_success f value w) in run_control c f x w
  | ReturnFailure c => let (x, w) := discard f x (frame_failure f w) in run_control c f x w
  end.

Definition current_sources (sources : list Source) (w : World) : list Source :=
  filter (fun s => execution_is_current s w = true) sources.

(** The loop over the sources of one stage; [None] when the action returns *)
Fixpoint expand (apply : CommandContext -> World -> (CommandSyntaxError + list Source) * World) (top : CommandContext)
    (forks : Z) (original_source : Source) (modifiers : ChainModifiers)
    (sources next_sources : list Source) (w : World) : option (list Source) * World :=
  match sources with
  | [] => (Some next_sources, w)
  | source :: sources =>
      match apply (copy_for source top) w with
      | (inl error, w) =>
          if is_forked modifiers then expand apply top forks original_source modifiers sources next_sources w
          else (None, handle_error source error false w)
      | (inr new_sources, w) =>
          if forks <=? Z.of_nat (length next_sources + length new_sources)
          then (None, handle_error original_source
                        {| err_kind := Dynamic (fork_limit_reached forks); err_context := None |} (is_forked modifiers) w)
          else expand apply top forks original_source modifiers sources (next_sources ++ new_sources) w
      end
  end.

Definition schedule_executions (f : Frame) (chain : ContextChain) (sources : list Source) (modifiers : ChainModifiers)
    (x : CommandExecutionContext) (w : World) : CommandExecutionContext * World :=
  match sources with
  | [] => (x, w)
  | [a] => queue_next f (ExecuteAction chain a modifiers) x w
  | [a; b] =>
      let (x, w) := queue_next f (ExecuteAction chain a modifiers) x w in
      queue_next f (ExecuteAction chain b modifiers) x w
  | _ => queue_next f (ExecuteContinuation chain sources modifiers) x w
  end.

(** The sources left none: what a build does then *)
Definition no_sources (f : Frame) (modifiers : ChainModifiers) (x : CommandExecutionContext) (w : World)
    : CommandExecutionContext * World :=
  if is_return modifiers then queue_next f FallthroughAction x w else (x, w).

Fixpoint run_customs (custom : Source -> ContextChain -> ChainModifiers -> Control) (chain : ContextChain)
    (modifiers : ChainModifiers) (f : Frame) (sources : list Source) (x : CommandExecutionContext) (w : World)
    : run (CommandExecutionContext * World) :=
  match sources with
  | [] => Ok (x, w)
  | s :: sources =>
      let? '(x, w) := run_control (custom s chain modifiers) f x w in
      run_customs custom chain modifiers f sources x w
  end.

(** [BuildContextsAction::execute], after its loop *)
Definition build_terminal (f : Frame) (chain : ContextChain) (sources : list Source) (modifiers : ChainModifiers)
    (x : CommandExecutionContext) (w : World) : run (CommandExecutionContext * World) :=
  match current_sources sources w with
  | [] => Ok (no_sources f modifiers x w)
  | first :: rest =>
      match top_context chain with
      | None => Panic
      | Some top =>
          match c_executor top with
          | None => Panic
          | Some e =>
              match steel_executor e with
              | CustomExecutor custom => run_customs custom chain modifiers f (first :: rest) x w
              | StandardExecutor _ | SuspendedExecutor _ =>
                  if is_return modifiers then
                    let callback := chain_callbacks (callback first) (return_value_consumer f) in
                    Ok (schedule_executions f chain [with_callback first callback] modifiers x w)
                  else Ok (schedule_executions f chain (first :: rest) modifiers x w)
              end
          end
      end
  end.

(** [BuildContextsAction::execute] *)
Fixpoint build_contexts (fuel : nat) (f : Frame) (chain : ContextChain) (original_source : Source)
    (sources : list Source) (modifiers : ChainModifiers) (x : CommandExecutionContext) (w : World)
    : run (CommandExecutionContext * World) :=
  match fuel with
  | O => Err OutOfFuel
  | S fuel =>
      match stage chain with
      | ExecuteStage => build_terminal f chain sources modifiers x w
      | Modify =>
          match current_sources sources w with
          | [] => Ok (no_sources f modifiers x w)
          | sources =>
              match top_context chain with
              | None => Panic
              | Some top =>
                  let modifiers := if c_forks top then with_forked modifiers else modifiers in
                  let next sources x w :=
                    match next_stage chain with
                    | None => Panic
                    | Some chain => build_contexts fuel f chain original_source sources modifiers x w
                    end in
                  match c_modifier top with
                  | None => next sources x w
                  | Some m =>
                      match steel_modifier (arc_val m) with
                      | CustomModifier apply => run_control (apply original_source sources chain modifiers) f x w
                      | StandardModifier apply =>
                          let x := increment_cost x in
                          match expand apply top (fork_limit x) original_source modifiers sources [] w with
                          | (None, w) => Ok (x, w)
                          | (Some sources, w) => next sources x w
                          end
                      end
                  end
              end
          end
      end
  end.

Definition complete_command_result (source : Source) (modifiers : ChainModifiers) (result : CommandSyntaxError + Z) (w : World) : World :=
  match result with
  | inr result => on_result (callback source) true result w
  | inl error =>
      let w := on_result (callback source) false 0 w in
      if negb (is_forked modifiers) then handle_error source error false w else w
  end.

(** [ExecuteAction::execute] *)
Definition execute_one (f : Frame) (chain : ContextChain) (source : Source) (modifiers : ChainModifiers)
    (x : CommandExecutionContext) (w : World) : run (CommandExecutionContext * World) :=
  if negb (execution_is_current source w) then Ok (x, on_result (callback source) false 0 w)
  else
    let x := increment_cost x in
    match top_context chain with
    | None => Panic
    | Some top =>
        let command_context := copy_for source top in
        match c_executor command_context with
        | None => Panic
        | Some e =>
            match steel_executor e with
            | StandardExecutor executor =>
                let (result, w) := executor command_context w in
                Ok (x, complete_command_result source modifiers result w)
            | SuspendedExecutor executor =>
                match executor command_context w with
                | (inr s, w) =>
                    Ok (queue_next f (SuspendAction {| ad_suspension := s; ad_source := source; ad_modifiers := modifiers |}) x w)
                | (inl error, w) => Ok (x, complete_command_result source modifiers (inl error) w)
                end
            | CustomExecutor _ => Panic
            end
        end
    end.

(** [action.execute(context, frame)] *)
Fixpoint execute (a : Action) (f : Frame) (x : CommandExecutionContext) (w : World) : run (CommandExecutionContext * World) :=
  match a with
  | BuildContextsAction chain original_source sources modifiers =>
      build_contexts (S (length (contexts chain))) f chain original_source sources modifiers x w
  | ExecuteContinuation chain sources modifiers =>
      match sources with
      | [] => Ok (x, w)
      | source :: sources =>
          let (x, w) := queue_next f (ExecuteAction chain source modifiers) x w in
          match sources with
          | [] => Ok (x, w)
          | _ => Ok (queue_next f (ExecuteContinuation chain sources modifiers) x w)
          end
      end
  | ExecuteAction chain source modifiers => execute_one f chain source modifiers x w
  | SuspendAction s =>
      match suspension x with
      | Some _ => Panic
      | None => Ok (set_suspension (Some {| sus_frame := f; suspended := s |}) x, w)
      end
  | SuspensionResumeAction a => execute a f x w
  | UnavailableCommandResultAction source => Ok (x, on_result (callback source) false 0 w)
  | CompleteCommandResultAction source modifiers result => Ok (x, complete_command_result source modifiers result w)
  | FallthroughAction => Ok (discard f x (frame_failure f w))
  end.

(** ** Running *)

(** One turn of the loop of [run]: it breaks before an action, or an action
    was executed, after which it may break. *)
Inductive Turn :=
| Stopped (stop : ExecutionStop)
| Executed (a : Action) (stop : option ExecutionStop).

Definition turn (x : CommandExecutionContext) (w : World) : run (Turn * CommandExecutionContext * World) :=
  if (command_quota x =? 0) &&
     negb (match command_queue x with e :: _ => runs_after_command_limit (action e) | [] => false end)
  then Ok (Stopped CommandLimit, x, w)
  else
    match command_queue x with
    | [] => Ok (Stopped Completed, x, w)
    | e :: queue =>
        let x := set_depth (depth (frame e)) (set_queues queue (new_top_commands x) x) in
        let? '(x, w) := execute (action e) (frame e) x w in
        if queue_overflow x then Ok (Executed (action e) (Some QueueOverflow), x, w)
        else match suspension x with
             | Some _ => Ok (Executed (action e) (Some Suspended), x, w)
             | None => Ok (Executed (action e) None, push_new_commands x, w)
             end
    end.

Fixpoint run_loop (fuel : nat) (x : CommandExecutionContext) (w : World) : run (ExecutionStop * CommandExecutionContext * World) :=
  match fuel with
  | O => Err OutOfFuel
  | S fuel =>
      let? '(t, x, w) := turn x w in
      match t with
      | Stopped stop | Executed _ (Some stop) => Ok (stop, set_depth 0 x, w)
      | Executed _ None => run_loop fuel x w
      end
  end.

Definition run_queue (fuel : nat) (x : CommandExecutionContext) (w : World) : run (ExecutionStop * CommandExecutionContext * World) :=
  match suspension x with
  | Some _ => Ok (Suspended, x, w)
  | None =>
      if queue_overflow x then Ok (QueueOverflow, x, w)
      else run_loop fuel (push_new_commands x) w
  end.

(** [CommandResultSuspensionAdapter::poll] *)
Definition poll_adapter (s : SuspensionAdapter) (w : World) : option Action * SuspensionAdapter * World :=
  if negb (execution_is_current (ad_source s) w) then
    (Some (UnavailableCommandResultAction (ad_source s)), s, cancel_result (ad_suspension s) w)
  else
    let '(result, sus, w) := poll_result (ad_suspension s) w in
    let s := {| ad_suspension := sus; ad_source := ad_source s; ad_modifiers := ad_modifiers s |} in
    match result with
    | None => (None, s, w)
    | Some result => (Some (CompleteCommandResultAction (ad_source s) (ad_modifiers s) result), s, w)
    end.

Definition poll_suspension (fuel : nat) (x : CommandExecutionContext) (w : World) : run (ExecutionStop * CommandExecutionContext * World) :=
  match suspension x with
  | None => run_queue fuel x w
  | Some active =>
      match poll_adapter (suspended active) w with
      | (None, s, w) => Ok (Suspended, set_suspension (Some {| sus_frame := sus_frame active; suspended := s |}) x, w)
      | (Some a, s, w) =>
          let (x, w) := queue_next (sus_frame active) (SuspensionResumeAction a) (set_suspension None x) w in
          run_queue fuel x w
      end
  end.

Definition active_order (x : CommandExecutionContext) : option CommandSuspensionOrder :=
  match suspension x with Some s => Some (suspension_order (ad_suspension (suspended s))) | None => None end.

(** ** The return command *)

Definition text_value : text := [118; 97; 108; 117; 101].

(** [chain.top_context().integer(name)] *)
Definition integer (c : CommandContext) (name : text) : option Z := get_argument name (c_arguments c) ≫= integer_value.

(** [ReturnValue::run] *)
Definition return_value (source : Source) (chain : ContextChain) (modifiers : ChainModifiers) : Control :=
  match top_context chain ≫= (fun c => integer c text_value) with
  | Some value => OnWorld (on_result (callback source) true value) (fun _ => ReturnSuccess value Done)
  | None => Unreachable
  end.

(** [ReturnFail::run] *)
Definition return_fail (source : Source) (chain : ContextChain) (modifiers : ChainModifiers) : Control :=
  OnWorld (on_result (callback source) false 0) (fun _ => ReturnFailure Done).

(** [ReturnRun::apply] *)
Definition return_run (original_source : Source) (sources : list Source) (chain : ContextChain)
    (modifiers : ChainModifiers) : Control :=
  match sources with
  | [] => if is_return modifiers then queue_fallthrough Done else Done
  | _ =>
      match next_stage chain with
      | None => Unreachable
      | Some next => DiscardFrame (queue_contexts next original_source sources (with_return modifiers) Done)
      end
  end.

(** ** What the queue relies on *)

(** The most turns an action can take, itself and those it queues counted, when
    a modifier gives fewer than [F] sources *)
Fixpoint weight (F : nat) (a : Action) : nat :=
  match a with
  | BuildContextsAction chain _ sources _ =>
      (length (contexts chain) - position chain) + 3 * Nat.max (length sources) F + 2
  | ExecuteContinuation _ sources _ => 1 + 3 * length sources
  | ExecuteAction _ _ _ => 2
  | SuspensionResumeAction a => S (weight F a)
  | _ => 1
  end.

(** What [admits] a context promises to the custom executor it holds *)
Context (admits : CommandContext -> Prop).

Record chain_ok (c : ContextChain) : Prop := {
  chain_position : (position c < length (contexts c))%nat;
  chain_last : exists l e, last (contexts c) = Some l /\ c_executor l = Some e;
  chain_admits : Forall admits (contexts c)
}.

(** A chain at its last stage, whose executor is not a custom one *)
Definition schedulable (c : ContextChain) : Prop := exists l e, top_context c = Some l /\ c_executor l = Some e /\
  forall custom, steel_executor e <> CustomExecutor custom.

Fixpoint action_ok (a : Action) : Prop :=
  match a with
  | BuildContextsAction chain _ _ _ => chain_ok chain
  | ExecuteContinuation chain _ _ | ExecuteAction chain _ _ => schedulable chain
  | SuspensionResumeAction a =>
      match a with UnavailableCommandResultAction _ | CompleteCommandResultAction _ _ _ => True | _ => False end
  | _ => True
  end.

(** A program that queues actions of weight [b] in all, and does not reach
    what is unreachable *)
Fixpoint control_ok (F b : nat) (c : Control) : Prop :=
  match c with
  | Done => True
  | Unreachable => False
  | OnWorld _ k => forall w, control_ok F b (k w)
  | QueueNext a c => action_ok a /\ (weight F a <= b)%nat /\ control_ok F (b - weight F a) c
  | DiscardFrame c | ReturnSuccess _ c | ReturnFailure c => control_ok F b c
  end.

(** Custom executors queue one step at most; custom modifiers no more than the
    next stage of their chain. *)
Class CustomLaws : Prop := {
  custom_executor_ok : forall F e custom s chain m top, steel_executor e = CustomExecutor custom ->
    chain_ok chain -> top_context chain = Some top -> c_executor top = Some e -> control_ok F 1 (custom s chain m);
  custom_modifier_ok : forall F m custom o s ss chain md next, steel_modifier m = CustomModifier custom ->
    chain_ok chain -> next_stage chain = Some next ->
    control_ok F (weight F (BuildContextsAction next o (s :: ss) md)) (custom o (s :: ss) chain md)
}.

Definition entries_ok (es : list CommandQueueEntry) : Prop := Forall (fun e => action_ok (action e)) es.
Definition weights (F : nat) (es : list CommandQueueEntry) : nat := sum_list ((fun e => weight F (action e)) <$> es).

Definition forks_of (x : CommandExecutionContext) : nat := Z.to_nat (fork_limit x).

(** The most turns until the queue is empty *)
Definition load (x : CommandExecutionContext) : nat :=
  weights (forks_of x) (command_queue x) + weights (forks_of x) (new_top_commands x).

(** From [x] to [x'], actions of weight [b] at most were queued. *)
Record grown (b : nat) (x x' : CommandExecutionContext) : Prop := {
  grown_forks : fork_limit x' = fork_limit x;
  grown_suspension : suspension x' = suspension x;
  grown_ok : entries_ok (command_queue x) -> entries_ok (new_top_commands x) ->
    entries_ok (command_queue x') /\ entries_ok (new_top_commands x');
  grown_load : (load x' <= load x + b)%nat
}.

Lemma weights_app F a b : weights F (a ++ b) = (weights F a + weights F b)%nat.
Proof. unfold weights. rewrite fmap_app. induction (_ <$> a) as [|n l IH]; simpl; lia. Qed.

Lemma weights_cons F e es : weights F (e :: es) = (weight F (action e) + weights F es)%nat.
Proof. done. Qed.

Lemma grown_refl x : grown 0 x x.
Proof. split; [done..|lia]. Qed.

Lemma grown_trans a b c x y z : grown a x y -> grown b y z -> (a + b <= c)%nat -> grown c x z.
Proof.
  intros [A1 A2 A3 A4] [B1 B2 B3 B4] Hc. split; [congruence|congruence| |lia].
  intros Hq Hn. destruct (A3 Hq Hn). by apply B3.
Qed.

Lemma grown_weaken a b x y : grown a x y -> (a <= b)%nat -> grown b x y.
Proof. intros [] ?. split; [done..|lia]. Qed.

Lemma queue_entry_grown e x w : action_ok (action e) ->
  grown (weight (forks_of x) (action e)) x (queue_entry e x w).1.
Proof.
  intros He. unfold queue_entry. destruct (_ <? _).
  - cbn. split; [done|done|intros; split; by constructor|]. unfold load, weights. simpl. lia.
  - destruct (queue_overflow x); cbn [fst]; [by eapply grown_weaken; [apply grown_refl|lia]|].
    split; [done|done| |].
    + intros Hq Hn. split; [done|]. apply Forall_app. split; [done|]. by constructor.
    + unfold load, forks_of. cbn [command_queue new_top_commands set_queues fork_limit]. rewrite weights_app.
      unfold weights at 3. simpl. lia.
Qed.

Lemma queue_next_grown f a x w : action_ok a -> grown (weight (forks_of x) a) x (queue_next f a x w).1.
Proof. intros Ha. by apply (queue_entry_grown {| frame := f; action := a |}). Qed.

Lemma drop_above_suffix d queue w : exists dropped, queue = dropped ++ (drop_above d queue w).1.
Proof.
  revert w. induction queue as [|e queue IH]; intros w; [by exists []|]. cbn [drop_above]. destruct (_ <=? _)%nat; [|by exists []].
  destruct (IH (action_cancel (action e) w)) as [l Hl]. exists (e :: l). simpl. by rewrite <- Hl.
Qed.

Lemma discard_grown f x w : grown 0 x (discard f x w).1.
Proof.
  unfold discard. destruct (discard_of f) as [|d].
  { split; [done|done|intros; split; [by constructor|done]|]. unfold load, weights, forks_of. simpl. lia. }
  destruct (drop_above_suffix d (command_queue x) w) as [l Hl]. destruct (drop_above d (command_queue x) w) as [q w'].
  cbn [fst] in *. split; [done|done| |].
  - cbn. intros Hq Hn. split; [|done]. unfold entries_ok in *. rewrite Hl in Hq. by apply Forall_app in Hq as [_ ?].
  - unfold load, forks_of. cbn [command_queue new_top_commands set_queues fork_limit]. rewrite Hl, weights_app. lia.
Qed.

(** An operation that returns, having queued actions of weight [b] at most *)
Definition returns (b : nat) (x : CommandExecutionContext) (o : run (CommandExecutionContext * World)) : Prop :=
  exists x' w', o = Ok (x', w') /\ grown b x x'.

Lemma returns_pair b x p : grown b x p.1 -> returns b x (Ok p).
Proof. destruct p as [x' w']. by exists x', w'. Qed.

Lemma returns_after a b c x x' o : grown a x x' -> returns b x' o -> (a + b <= c)%nat -> returns c x o.
Proof. intros Hg (y & w & -> & Hy) Hc. exists y, w. split; [done|]. by eapply grown_trans. Qed.

Lemma returns_bind a b c x o k : returns a x o -> (forall x' w', grown a x x' -> returns b x' (k (x', w'))) -> (a + b <= c)%nat ->
  returns c x (obind o k).
Proof. intros (y & w & -> & Hy) Hk Hc. simpl. eapply returns_after; [done|by apply Hk|done]. Qed.

Lemma returns_weaken a b x o : returns a x o -> (a <= b)%nat -> returns b x o.
Proof. intros (y & w & -> & Hy) Hc. exists y, w. split; [done|]. by eapply grown_weaken. Qed.

Lemma run_control_returns c : forall b f x w, control_ok (forks_of x) b c -> returns b x (run_control c f x w).
Proof.
  induction c as [| |effect k IH|a c IH|c IH|v c IH|c IH]; intros b f x w Hc; cbn [run_control control_ok] in *.
  - apply returns_pair. eapply grown_weaken; [apply grown_refl|lia].
  - done.
  - apply IH, Hc.
  - destruct Hc as (Ha & Hw & Hc). pose proof (queue_next_grown f a x w Ha) as Hg.
    destruct (queue_next f a x w) as [x' w']. cbn [fst] in Hg. eapply returns_after; [done| |].
    + apply IH. unfold forks_of. rewrite (grown_forks _ _ _ Hg). done.
    + lia.
  - pose proof (discard_grown f x w) as Hg. destruct (discard f x w) as [x' w']. cbn [fst] in Hg.
    eapply returns_after; [done|apply IH; unfold forks_of; by rewrite (grown_forks _ _ _ Hg)|lia].
  - pose proof (discard_grown f x (frame_success f v w)) as Hg. destruct (discard f x _) as [x' w']. cbn [fst] in Hg.
    eapply returns_after; [done|apply IH; unfold forks_of; by rewrite (grown_forks _ _ _ Hg)|lia].
  - pose proof (discard_grown f x (frame_failure f w)) as Hg. destruct (discard f x _) as [x' w']. cbn [fst] in Hg.
    eapply returns_after; [done|apply IH; unfold forks_of; by rewrite (grown_forks _ _ _ Hg)|lia].
Qed.

(** ** The queue stops *)

Lemma schedule_returns f chain sources m x w : schedulable chain ->
  grown (1 + 3 * length sources) x (schedule_executions f chain sources m x w).1.
Proof.
  intros Hc. unfold schedule_executions. destruct sources as [|a [|b [|c l]]].
  - eapply grown_weaken; [apply grown_refl|lia].
  - eapply grown_weaken; [by apply queue_next_grown|simpl; lia].
  - pose proof (queue_next_grown f (ExecuteAction chain a m) x w Hc) as Hg.
    destruct (queue_next f (ExecuteAction chain a m) x w) as [x' w']. cbn [fst] in Hg.
    eapply grown_trans; [done|by apply queue_next_grown|simpl; lia].
  - eapply grown_weaken; [by apply queue_next_grown|simpl; lia].
Qed.

Lemma no_sources_returns f m x w : grown 1 x (no_sources f m x w).1.
Proof.
  unfold no_sources. destruct (is_return m); [|eapply grown_weaken; [apply grown_refl|lia]].
  eapply grown_weaken; [by apply queue_next_grown|simpl; lia].
Qed.

Lemma run_customs_returns custom chain m f sources : forall x w,
  (forall F s, control_ok F 1 (custom s chain m)) -> returns (length sources) x (run_customs custom chain m f sources x w).
Proof.
  induction sources as [|s sources IH]; intros x w Hc; cbn [run_customs]; [apply returns_pair; by apply grown_refl|].
  eapply returns_bind; [by apply run_control_returns|intros; by apply IH|simpl; lia].
Qed.

Lemma stage_execute c : chain_ok c -> stage c = ExecuteStage -> top_context c = last (contexts c).
Proof.
  unfold stage, top_context. intros _. destruct (Nat.eqb_spec (position c + 1) (length (contexts c))); [|done]. intros _.
  rewrite last_lookup. f_equal. lia.
Qed.

Lemma stage_modify c : chain_ok c -> stage c = Modify ->
  next_stage c = Some {| contexts := contexts c; position := position c + 1 |} /\
  chain_ok {| contexts := contexts c; position := position c + 1 |} /\ is_Some (top_context c).
Proof.
  unfold stage, next_stage, top_context. intros [H1 H2 H3]. destruct (Nat.eqb_spec (position c + 1) (length (contexts c))); [done|].
  intros _. rewrite (proj2 (Nat.ltb_lt _ _)) by lia. split; [done|]. split; [split; [simpl; lia|done|done]|].
  by apply lookup_lt_is_Some_2.
Qed.

Lemma current_sources_length sources w : (length (current_sources sources w) <= length sources)%nat.
Proof. apply length_filter. Qed.

Lemma current_source s w : execution_is_current s w = true -> current_sources [s] w = [s].
Proof. intros Hs. unfold current_sources. by rewrite filter_cons_True. Qed.

Lemma expand_length apply top forks o m sources : forall next w,
  match expand apply top forks o m sources next w with
  | (Some l, _) => (length next <= Z.to_nat forks)%nat -> (length l <= Z.to_nat forks)%nat
  | (None, _) => True
  end.
Proof.
  induction sources as [|s sources IH]; intros next w; cbn [expand]; [done|].
  destruct (apply _ w) as [[e|new] w']; [destruct (is_forked m); [apply IH|done]|].
  destruct (Z.leb_spec forks (Z.of_nat (length next + length new))); [done|]. specialize (IH (next ++ new) w').
  destruct (expand _ _ _ _ _ _ (next ++ new) w') as [[l|] ?]; [|done]. intros _. apply IH. rewrite length_app. lia.
Qed.

Context `{!CustomLaws}.

Lemma build_terminal_returns f chain sources m x w : chain_ok chain -> stage chain = ExecuteStage ->
  returns (1 + 3 * length sources) x (build_terminal f chain sources m x w).
Proof.
  intros Hc Hs. unfold build_terminal. pose proof (current_sources_length sources w) as Hl.
  destruct (current_sources sources w) as [|s ss].
  - eapply returns_weaken; [apply returns_pair, no_sources_returns|lia].
  - destruct (chain_last _ Hc) as (top & e & Htop & He). rewrite <- (stage_execute _ Hc Hs) in Htop. rewrite Htop, He.
    assert (Hsch : (forall custom, steel_executor e <> CustomExecutor custom) -> schedulable chain) by (intros; by exists top, e).
    destruct (steel_executor e) as [call|call|custom] eqn:Ee.
    1,2: destruct (is_return m); (eapply returns_weaken; [apply returns_pair, schedule_returns, Hsch; congruence|simpl in *; lia]).
    eapply returns_weaken; [apply run_customs_returns|simpl in *; lia]. intros F s'. by eapply custom_executor_ok.
Qed.

Lemma build_contexts_returns fuel : forall f chain o sources m x w, chain_ok chain ->
  (length (contexts chain) - position chain <= fuel)%nat ->
  returns ((length (contexts chain) - position chain) + 3 * Nat.max (length sources) (forks_of x) + 1) x
    (build_contexts fuel f chain o sources m x w).
Proof.
  induction fuel as [|fuel IH]; intros f chain o sources m x w Hc Hf; pose proof (chain_position _ Hc); [lia|].
  cbn [build_contexts]. destruct (stage chain) eqn:Es.
  - pose proof (current_sources_length sources w) as Hl. destruct (current_sources sources w) as [|s ss] eqn:Ecs.
    { eapply returns_weaken; [apply returns_pair, no_sources_returns|lia]. }
    destruct (stage_modify _ Hc Es) as (Hnext & Hc' & [top Htop]). rewrite Htop. set (m' := if c_forks top then _ else _).
    rewrite Hnext. cbn zeta. assert (Hgo : forall x' l w', grown 0 x x' -> (length l <= Nat.max (length sources) (forks_of x))%nat ->
      returns ((length (contexts chain) - position chain) + 3 * Nat.max (length sources) (forks_of x) + 1) x
        (build_contexts fuel f {| contexts := contexts chain; position := position chain + 1 |} o l m' x' w')).
    { intros x' l w' Hg Hle. eapply returns_after; [done| |].
      - apply IH; [done|simpl; lia].
      - unfold forks_of. rewrite (grown_forks _ _ _ Hg). simpl. fold (forks_of x). lia. }
    destruct (c_modifier top) as [a|]; [|by apply Hgo; [apply grown_refl|lia]].
    destruct (steel_modifier (arc_val a)) as [apply|custom] eqn:Em.
    + pose proof (expand_length apply top (fork_limit (increment_cost x)) o m' (s :: ss) [] w) as Hx.
      assert (Hgi : grown 0 x (increment_cost x)) by (split; [done..|unfold load, forks_of; simpl; lia]).
      destruct (expand _ _ _ _ _ _ _ _) as [[l|] w'].
      * apply Hgo; [done|]. specialize (Hx ltac:(simpl; lia)). unfold forks_of. simpl in Hx. lia.
      * apply (returns_pair _ _ (increment_cost x, w')). eapply grown_weaken; [exact Hgi|lia].
    + eapply returns_weaken; [apply run_control_returns; by eapply custom_modifier_ok|]. simpl. simpl in Hl. lia.
  - eapply returns_weaken; [by apply build_terminal_returns|lia].
Qed.

Lemma execute_one_returns f chain source m x w : schedulable chain -> returns 1 x (execute_one f chain source m x w).
Proof.
  intros (top & e & Ht & He & Hnc). unfold execute_one.
  assert (Hg : grown 1 x x) by (eapply grown_weaken; [apply grown_refl|lia]).
  destruct (negb _); [by apply returns_pair|]. rewrite Ht. cbn [copy_for c_executor]. rewrite He.
  assert (Hgi : grown 0 x (increment_cost x)) by (split; [done..|unfold load, forks_of; simpl; lia]).
  assert (Hgi1 : grown 1 x (increment_cost x)) by (eapply grown_weaken; [exact Hgi|lia]).
  destruct (steel_executor e) as [call|call|custom]; [..|by edestruct Hnc].
  - destruct (call _ w). by apply returns_pair.
  - destruct (call _ w) as [[err|s] w']; [by apply returns_pair|]. apply returns_pair.
    eapply grown_trans; [exact Hgi|by apply queue_next_grown|simpl; lia].
Qed.

(** Executing an action queues less than the action weighs; only a suspension
    is left active. *)
Lemma execute_returns a f x w : action_ok a -> suspension x = None -> exists x' w',
  execute a f x w = Ok (x', w') /\ fork_limit x' = fork_limit x /\
  (entries_ok (command_queue x) -> entries_ok (new_top_commands x) -> entries_ok (command_queue x') /\ entries_ok (new_top_commands x')) /\
  (load x' < load x + weight (forks_of x) a)%nat.
Proof.
  intros Ha Hs. assert (Hret : forall b o, returns b x o -> (b < weight (forks_of x) a)%nat -> exists x' w',
    o = Ok (x', w') /\ fork_limit x' = fork_limit x /\
    (entries_ok (command_queue x) -> entries_ok (new_top_commands x) -> entries_ok (command_queue x') /\ entries_ok (new_top_commands x')) /\
    (load x' < load x + weight (forks_of x) a)%nat).
  { intros b o (x' & w' & -> & [H1 H2 H3 H4]) Hb. exists x', w'. split; [done|]. split; [done|]. split; [done|lia]. }
  destruct a as [chain o ss m|chain ss m|chain s m|s|a|s|s m r|]; cbn [execute].
  - eapply Hret; [apply build_contexts_returns; [done|lia]|simpl; lia].
  - destruct ss as [|s ss]; [eapply Hret; [by apply returns_pair, grown_refl|simpl; lia]|].
    pose proof (queue_next_grown f (ExecuteAction chain s m) x w Ha) as Hg. destruct (queue_next f _ x w) as [x' w'].
    cbn [fst] in Hg. destruct ss as [|s2 ss]; [eapply Hret; [by apply returns_pair|simpl; lia]|].
    eapply Hret; [eapply returns_pair, grown_trans; [done|by apply queue_next_grown|done]|simpl; lia].
  - eapply Hret; [by apply execute_one_returns|simpl; lia].
  - rewrite Hs. do 2 eexists. split; [done|]. split; [done|]. split; [done|]. unfold load, forks_of. simpl. lia.
  - destruct a; try done; (eapply Hret; [by apply returns_pair, grown_refl|simpl; lia]).
  - eapply Hret; [by apply returns_pair, grown_refl|simpl; lia].
  - eapply Hret; [by apply returns_pair, grown_refl|simpl; lia].
  - eapply Hret; [apply returns_pair, discard_grown|simpl; lia].
Qed.

Lemma push_fronts_app popped queue : push_fronts popped queue = reverse popped ++ queue.
Proof.
  revert queue. induction popped as [|e popped IH]; intros queue; [done|]. simpl. by rewrite IH, reverse_cons, <- app_assoc.
Qed.

(** What was queued goes before the queue, in its order. *)
Lemma push_new_commands_queue x : push_new_commands x = set_queues (new_top_commands x ++ command_queue x) [] x.
Proof. unfold push_new_commands. by rewrite push_fronts_app, reverse_involutive. Qed.

Record queue_ok (x : CommandExecutionContext) : Prop := {
  ok_queue : entries_ok (command_queue x);
  ok_new : entries_ok (new_top_commands x)
}.

Lemma push_ok x : queue_ok x -> queue_ok (push_new_commands x) /\ load (push_new_commands x) = load x.
Proof.
  intros [H1 H2]. rewrite push_new_commands_queue. split.
  - split; [simpl; by apply Forall_app|by constructor].
  - unfold load, forks_of. cbn [command_queue new_top_commands set_queues fork_limit]. rewrite weights_app.
    unfold weights at 3. simpl. lia.
Qed.

Definition stop_ok (stop : ExecutionStop) (x : CommandExecutionContext) : Prop :=
  match stop with
  | Suspended => suspension x <> None
  | QueueOverflow => queue_overflow x = true
  | Completed | CommandLimit => suspension x = None
  end.

Lemma turn_returns x w : queue_ok x -> suspension x = None -> exists t x' w', turn x w = Ok (t, x', w') /\ queue_ok x' /\
  match t with
  | Stopped stop | Executed _ (Some stop) => stop_ok stop x'
  | Executed _ None => suspension x' = None /\ (load x' < load x)%nat
  end.
Proof.
  intros Hx Hs. pose proof Hx as [Hq Hn]. unfold turn. destruct (_ && _); [by eexists _, _, _|].
  destruct (command_queue x) as [|e queue] eqn:Eq; [by eexists _, _, _|]. apply Forall_cons in Hq as [He Hq].
  set (x1 := set_depth _ _). destruct (execute_returns (action e) (frame e) x1 w He Hs) as (x' & w' & -> & Hf & Hok & Hl). cbn [obind].
  destruct (Hok Hq Hn) as [H1 H2].
  destruct (queue_overflow x') eqn:Eo; [eexists _, _, _; done|].
  destruct (suspension x') eqn:Es; [eexists _, _, _; split; [done|]; split; [done|]; simpl; congruence|]. eexists _, _, _. split; [done|].
  destruct (push_ok x') as [H3 H4]; [done|]. split; [done|]. split; [done|]. rewrite H4.
  assert (load x = load x1 + weight (forks_of x1) (action e))%nat; [|lia].
  unfold x1, load, forks_of. cbn [command_queue new_top_commands set_queues set_depth fork_limit]. rewrite Eq.
  rewrite weights_cons. cbn [set_depth set_queues fork_limit]. lia.
Qed.

Lemma run_loop_returns fuel : forall x w, queue_ok x -> suspension x = None -> (load x < fuel)%nat ->
  exists stop x' w', run_loop fuel x w = Ok (stop, x', w') /\ queue_ok x' /\ stop_ok stop x'.
Proof.
  induction fuel as [|fuel IH]; intros x w Hx Hs Hf; [lia|]. cbn [run_loop].
  destruct (turn_returns x w Hx Hs) as (t & x' & w' & -> & Hx' & Ht). cbn [obind]. destruct t as [stop|a [stop|]].
  - eexists _, _, _. split; [done|]. split; [by destruct Hx'; split|]. by destruct stop.
  - eexists _, _, _. split; [done|]. split; [by destruct Hx'; split|]. by destruct stop.
  - destruct Ht as (Hs' & Hl). apply IH; [done|done|lia].
Qed.

Lemma run_queue_returns x w fuel : queue_ok x -> (load x < fuel)%nat ->
  exists stop x' w', run_queue fuel x w = Ok (stop, x', w') /\ queue_ok x' /\ stop_ok stop x'.
Proof.
  intros Hx Hf. unfold run_queue. destruct (suspension x) eqn:Es; [eexists _, _, _; split; [done|]; split; [done|]; simpl; congruence|].
  destruct (queue_overflow x) eqn:Eo; [by eexists _, _, _|]. destruct (push_ok x Hx) as [H1 H2].
  apply run_loop_returns; [done|by rewrite push_new_commands_queue|lia].
Qed.


(** So does an execution that is polled, with fuel for the action that a
    suspension may resume with. *)
Lemma poll_returns x w fuel : queue_ok x -> (load x + 2 < fuel)%nat ->
  exists stop x' w', poll_suspension fuel x w = Ok (stop, x', w') /\ queue_ok x' /\ stop_ok stop x'.
Proof.
  intros Hx Hf. unfold poll_suspension. destruct (suspension x) as [active|] eqn:Es; [|apply run_queue_returns; [done|lia]].
  assert (Hgo : forall a s w', poll_adapter (suspended active) w = (Some a, s, w') -> weight (forks_of x) a = 1%nat /\ action_ok (SuspensionResumeAction a)).
  { intros a s w'. unfold poll_adapter. destruct (negb _); [by intros [= <- _ _]|].
    destruct (poll_result _ w) as [[[r|] sus] w2]; [by intros [= <- _ _]|done]. }
  destruct (poll_adapter (suspended active) w) as [[[a|] s] w'].
  - destruct (Hgo a s w' eq_refl) as [Hw Ha].
    pose proof (queue_next_grown (sus_frame active) (SuspensionResumeAction a) (set_suspension None x) w' Ha) as Hg.
    destruct (queue_next _ _ _ w') as [x1 w1]. destruct Hg as [_ _ Hok Hl]. cbn [fst] in *.
    apply run_queue_returns; [destruct Hx; split; by apply Hok|]. change (load (set_suspension None x)) with (load x) in Hl.
    change (forks_of (set_suspension None x)) with (forks_of x) in Hl. simpl in Hl. lia.
  - eexists _, _, _. split; [done|]. split; [by destruct Hx; split|]. done.
Qed.

(** An execution that is polled, or run, returns without panicking, with
    more fuel than its load, whatever the executors and the modifiers do to the
    world: it stops with a queue of well-formed actions, and a suspension is
    active exactly when it says so, unless the queue overflowed. *)
Theorem execution_returns x w : queue_ok x ->
  (forall fuel, (load x < fuel)%nat -> exists stop x' w',
    run_queue fuel x w = Ok (stop, x', w') /\ queue_ok x' /\ stop_ok stop x') /\
  (forall fuel, (load x + 2 < fuel)%nat -> exists stop x' w',
    poll_suspension fuel x w = Ok (stop, x', w') /\ queue_ok x' /\ stop_ok stop x').
Proof. intros Hx. split; intros fuel Hf; [by apply run_queue_returns|by apply poll_returns]. Qed.
End Queue.

(** ** The command limit *)

Section Limit.
Context `{!CommandRuntime} {World : Type} `{!CommandExecution World}.
Context (steel_executor : Executor -> SteelExecutor) (steel_modifier : Modifier -> SteelModifier).

Notation execute := (execute steel_executor steel_modifier).
Notation turn := (turn steel_executor steel_modifier).
Notation run_loop := (run_loop steel_executor steel_modifier).
Notation run_queue := (run_queue steel_executor steel_modifier).
Notation poll_suspension := (poll_suspension steel_executor steel_modifier).














(** The commands whose executor is called when an action is executed *)
Fixpoint commands_of (a : Action) (w : World) : Z :=
  match a with
  | ExecuteAction _ s _ => if execution_is_current s w then 1 else 0
  | SuspensionResumeAction a => commands_of a w
  | _ => 0
  end.


(** The commands that a turn ran in the world [w], by the action it executed *)
Definition turn_commands (t : Turn) (w : World) : Z :=
  match t with Executed a _ => commands_of a w | Stopped _ => 0 end.

(** The commands that [run_loop] runs *)
Fixpoint commands_run (fuel : nat) (x : CommandExecutionContext) (w : World) : Z :=
  match fuel with
  | O => 0
  | S fuel =>
      match turn x w with
      | Ok (t, x', w') => turn_commands t w + match t with Executed _ None => commands_run fuel x' w' | _ => 0 end
      | _ => 0
      end
  end.

(** Those that [run_queue] runs, and [poll_suspension] *)
Definition queue_commands (fuel : nat) (x : CommandExecutionContext) (w : World) : Z :=
  match suspension x with
  | Some _ => 0
  | None => if queue_overflow x then 0 else commands_run fuel (push_new_commands x) w
  end.

Definition poll_commands (fuel : nat) (x : CommandExecutionContext) (w : World) : Z :=
  match suspension x with
  | None => queue_commands fuel x w
  | Some active =>
      match poll_adapter (suspended active) w with
      | (None, _, _) => 0
      | (Some a, s, w) =>
          let (x, w) := queue_next (sus_frame active) (SuspensionResumeAction a) (set_suspension None x) w in
          queue_commands fuel x w
      end
  end.

(** Those of an execution over the ticks it lasts, each with the world that
    the tick finds; the first of them is the run it starts with. *)
Fixpoint life_commands (ticks : list (nat * World)) (x : CommandExecutionContext) : Z :=
  match ticks with
  | [] => 0
  | (fuel, w) :: ticks =>
      poll_commands fuel x w +
      match poll_suspension fuel x w with Ok (_, x', _) => life_commands ticks x' | _ => 0 end
  end.

Context (admits : CommandContext -> Prop) `{!CustomLaws steel_executor steel_modifier admits}.
Notation queue_ok := (queue_ok steel_executor admits).








End Limit.

(** ** Direct evaluation *)

Section Direct.
Context `{!CommandRuntime} {World : Type} `{!CommandExecution World}.
Context (steel_executor : Executor -> SteelExecutor) (steel_modifier : Modifier -> SteelModifier).

Notation execute := (execute steel_executor steel_modifier).
Notation turn := (turn steel_executor steel_modifier).
Notation run_loop := (run_loop steel_executor steel_modifier).
Notation build_contexts := (build_contexts steel_executor steel_modifier).
Notation CommandSyntaxError := (CommandSyntaxError TextComponent).

(** How an evaluation ends that runs no further command *)
Definition ended (quota : Z) (w : World) : ExecutionStop * World := (if quota =? 0 then CommandLimit else Completed, w).

(** The command of a source, and the quota that is left *)
Definition direct_command (call : CommandContext -> World -> (CommandSyntaxError + Z) * World) (top : CommandContext)
    (m : ChainModifiers) (quota : Z) (w : World) (s : Source) : Z * World :=
  if execution_is_current s w then
    let (result, w) := call (copy_for s top) w in (quota - 1, complete_command_result s m result w)
  else (quota, on_result (callback s) false 0 w).

(** The commands of the sources, one after the other, until the quota is spent *)
Fixpoint direct_commands (call : CommandContext -> World -> (CommandSyntaxError + Z) * World) (top : CommandContext)
    (m : ChainModifiers) (quota : Z) (w : World) (ss : list Source) : ExecutionStop * World :=
  match ss with
  | [] => ended quota w
  | s :: ss =>
      if quota =? 0 then (CommandLimit, w)
      else let (quota, w) := direct_command call top m quota w s in direct_commands call top m quota w ss
  end.

(** A chain, stage after stage: a modifier costs one of the quota as a command
    does. *)
Fixpoint direct (cs : list CommandContext) (forks : Z) (o : Source) (ss : list Source) (m : ChainModifiers)
    (quota : Z) (w : World) : ExecutionStop * World :=
  match cs with
  | [] => ended quota w
  | top :: rest =>
      let ss := current_sources ss w in
      match rest with
      | [] =>
          match c_executor top with
          | Some e =>
              match steel_executor e with
              | StandardExecutor call => direct_commands call top m quota w ss
              | _ => ended quota w
              end
          | None => ended quota w
          end
      | _ =>
          match ss with
          | [] => ended quota w
          | _ =>
              let m := if c_forks top then with_forked m else m in
              match c_modifier top with
              | None => direct rest forks o ss m quota w
              | Some a =>
                  let quota := Z.max 0 (quota - 1) in
                  match steel_modifier (arc_val a) with
                  | StandardModifier apply =>
                      match expand apply top forks o m ss [] w with
                      | (None, w) => ended quota w
                      | (Some ss, w) => direct rest forks o ss m quota w
                      end
                  | CustomModifier _ => ended quota w
                  end
              end
          end
      end
  end.

(** Chains without custom modifiers whose last executor is a standard one *)
Definition standard_stage (c : CommandContext) : Prop :=
  match c_modifier c with
  | Some a => exists apply, steel_modifier (arc_val a) = StandardModifier apply
  | None => True
  end.
Definition standard (cs : list CommandContext) : Prop :=
  Forall standard_stage cs /\
  exists l e call, last cs = Some l /\ c_executor l = Some e /\ steel_executor e = StandardExecutor call.

(** An execution with [q] to run, [n] of its quota, and nothing queued since *)
Record ready (n : Z) (q : list CommandQueueEntry) (x : CommandExecutionContext) : Prop := {
  ready_queue : command_queue x = q;
  ready_new : new_top_commands x = [];
  ready_suspension : suspension x = None;
  ready_overflow : queue_overflow x = false;
  ready_quota : command_quota x = n;
  ready_limit : queue_limit x = MAX_COMMAND_QUEUE_DEPTH
}.

Lemma queue_next_ok f a x w : queue_overflow x = false -> queue_limit x = MAX_COMMAND_QUEUE_DEPTH ->
  (length (new_top_commands x) + length (command_queue x) <= 2)%nat ->
  queue_next f a x w = (set_queues (command_queue x) (new_top_commands x ++ [{| frame := f; action := a |}]) x, w).
Proof.
  intros Ho Hl Hn. unfold queue_next, queue_entry. rewrite Hl. destruct (Z.ltb_spec MAX_COMMAND_QUEUE_DEPTH (Z.of_nat (length (new_top_commands x) + length (command_queue x))));
    [unfold MAX_COMMAND_QUEUE_DEPTH in *; lia|]. by rewrite Ho.
Qed.

(** An action is executed, and the loop goes on. *)
Lemma run_execute n e q x w x' w' fuel : 0 < n -> ready n (e :: q) x ->
  execute (action e) (frame e) (set_depth (depth (frame e)) (set_queues q [] x)) w = Ok (x', w') ->
  queue_overflow x' = false -> suspension x' = None ->
  run_loop (S fuel) x w = run_loop fuel (set_queues (new_top_commands x' ++ command_queue x') [] x') w'.
Proof.
  intros Hn [Hq Hnew Hs Ho Hquota Hl] He Ho' Hs'. cbn [run_loop]. unfold turn. rewrite (proj2 (Z.eqb_neq _ _)) by lia. cbn [andb].
  rewrite Hq, Hnew, He. cbn [obind]. by rewrite Ho', Hs', push_new_commands_queue.
Qed.

(** A run that ends as [p] says; one that completes leaves nothing queued. *)
Definition finishes (o : run (ExecutionStop * CommandExecutionContext * World)) (p : ExecutionStop * World) : Prop :=
  exists x', o = Ok (p.1, x', p.2) /\ (p.1 = Completed -> command_queue x' = []).

(** The loop breaks when the queue is empty, or the quota is. *)
Lemma run_ended n q x w fuel : ready n q x -> (0 < fuel)%nat ->
  match q with e :: _ => n = 0 /\ runs_after_command_limit (action e) = false | [] => True end ->
  finishes (run_loop fuel x w) (ended n w).
Proof.
  intros [Hq Hnew Hs Ho Hquota Hl] Hf He. destruct fuel as [|fuel]; [lia|]. cbn [run_loop]. unfold turn, ended. rewrite Hquota, Hq.
  destruct q as [|e q]; [|destruct He as [-> He]; cbn; rewrite He; by eexists].
  destruct (Z.eqb_spec n 0); cbn [andb negb]; eexists; (split; [done|]); done.
Qed.

(** The command of the first entry is run. *)
Lemma run_command chain top call e f s m q x w n fuel : 0 < n -> ready n ({| frame := f; action := ExecuteAction chain s m |} :: q) x ->
  top_context chain = Some top -> c_executor top = Some e -> steel_executor e = StandardExecutor call ->
  let (n', w') := direct_command call top m n w s in
  0 <= n' /\ exists x', run_loop (S fuel) x w = run_loop fuel x' w' /\ ready n' q x'.
Proof.
  intros Hn [Hq Hnew Hs Ho Hquota Hl] Ht He Hc. cbn [run_loop]. unfold turn. rewrite (proj2 (Z.eqb_neq _ _)) by lia. cbn [andb]. rewrite Hq.
  cbn [frame action execute]. unfold execute_one, direct_command.
  destruct (execution_is_current s w); cbn [negb]; [rewrite Ht; cbn [copy_for c_executor]; rewrite He, Hc; destruct (call _ w)|];
    cbn; rewrite Ho, Hs; (split; [lia|]); eexists; (split; [done|]); rewrite push_new_commands_queue; split; cbn; rewrite ?Hnew; done || lia.
Qed.

(** A list of commands is run in its order, until the quota is spent. *)
Lemma run_commands chain top call e f m : top_context chain = Some top -> c_executor top = Some e ->
  steel_executor e = StandardExecutor call -> forall ss n x w fuel, 0 <= n ->
  ready n ((fun s => {| frame := f; action := ExecuteAction chain s m |}) <$> ss) x ->
  (length ss < fuel)%nat -> finishes (run_loop fuel x w) (direct_commands call top m n w ss).
Proof.
  intros Ht He Hc ss. induction ss as [|s ss IH]; intros n x w [|fuel] Hn Hx Hf; try lia; cbn [direct_commands].
  - eapply run_ended; [done|lia|done].
  - cbn [fmap list_fmap] in Hx. destruct (Z.eqb_spec n 0) as [->|H0]; [eapply (run_ended 0); [done|lia|done]|].
    pose proof (run_command chain top call e f s m _ x w n fuel ltac:(lia) Hx Ht He Hc) as Hr.
    destruct (direct_command call top m n w s) as [n' w']. destruct Hr as (Hn' & x' & -> & Hx'). apply IH; [done..|simpl in Hf; lia].
Qed.

(** So is what a continuation runs. *)
Lemma run_continuation chain top call e f m : top_context chain = Some top -> c_executor top = Some e ->
  steel_executor e = StandardExecutor call -> forall ss n x w fuel, 0 <= n ->
  ready n [{| frame := f; action := ExecuteContinuation chain ss m |}] x ->
  (2 * length ss + 1 < fuel)%nat -> finishes (run_loop fuel x w) (direct_commands call top m n w ss).
Proof.
  intros Ht He Hc ss. induction ss as [|s ss IH]; intros n x w fuel Hn Hx Hf; cbn [direct_commands];
    (destruct (Z.eqb_spec n 0) as [->|H0]; [eapply (run_ended 0); [done|lia|done]|]); (destruct fuel as [|fuel]; [lia|]);
    pose proof Hx as [Hq Hnew Hs Ho Hquota Hl]; set (x1 := set_depth (depth f) (set_queues [] [] x)).
  - erewrite (run_execute n _ [] x w x1 w); [|lia|done..]. eapply (run_ended n []); [by split|simpl in *; lia|done].
  - set (first := {| frame := f; action := ExecuteAction chain s m |}).
    destruct ss as [|s2 ss].
    + erewrite (run_execute n _ [] x w (set_queues [] [first] x1) w); [|lia|done| |done..].
      2:{ cbn [frame action execute]. by rewrite queue_next_ok by (done || (simpl; lia)). }
      pose proof (fun x => run_commands chain top call e f m Ht He Hc [s] n x w fuel Hn) as Hr. cbn [direct_commands] in Hr.
      rewrite (proj2 (Z.eqb_neq _ _)) in Hr by done. apply Hr; [by split|simpl in *; lia].
    + set (rest := {| frame := f; action := ExecuteContinuation chain (s2 :: ss) m |}).
      erewrite (run_execute n _ [] x w (set_queues [] [first; rest] x1) w); [|lia|done| |done..].
      2:{ cbn [frame action execute]. do 2 rewrite queue_next_ok by (done || (simpl; lia)). done. }
      destruct fuel as [|fuel]; [simpl in *; lia|].
      pose proof (run_command chain top call e f s m [rest] (set_queues [first; rest] [] (set_queues [] [first; rest] x1)) w n fuel
        ltac:(lia) ltac:(by split) Ht He Hc) as Hr.
      destruct (direct_command call top m n w s) as [n' w']. destruct Hr as (Hn' & x' & Hrun & Hx').
      cbn [new_top_commands command_queue set_queues app] in *. unfold x1 in *. cbn [set_depth set_queues command_queue] in *.
      rewrite Hrun. apply IH; [done..|simpl in *; lia].
Qed.

(** An operation that leaves an execution which finishes as [p] says *)
Definition completes (n : nat) (o : run (CommandExecutionContext * World)) (p : ExecutionStop * World) : Prop := exists x1 w1, o = Ok (x1, w1) /\
  queue_overflow x1 = false /\ suspension x1 = None /\
  forall fuel, (n < fuel)%nat -> finishes (run_loop fuel (push_new_commands x1) w1) p.

Lemma scheduled_completes chain top call e f m ss x w n : top_context chain = Some top -> c_executor top = Some e ->
  steel_executor e = StandardExecutor call -> 0 <= n -> ready n [] x ->
  completes (2 * length ss + 1) (Ok (schedule_executions f chain ss m x w)) (direct_commands call top m n w ss).
Proof.
  intros Ht He Hc Hn [Hq Hnew Hs Ho Hquota Hl]. unfold schedule_executions. destruct ss as [|a [|b [|c ss]]].
  - exists x, w. split; [done|]. split; [done|]. split; [done|]. intros fuel Hf. rewrite push_new_commands_queue.
    apply (run_commands chain top call e f m Ht He Hc []); [done| |lia]. split; cbn; rewrite ?Hnew, ?Hq; done.
  - rewrite queue_next_ok by (rewrite ?Hnew, ?Hq; done || (simpl; lia)). do 2 eexists. split; [done|]. split; [done|]. split; [done|].
    intros fuel Hf. rewrite push_new_commands_queue.
    apply (run_commands chain top call e f m Ht He Hc [a]); [done| |simpl in *; lia]. split; cbn; rewrite ?Hnew, ?Hq; done.
  - rewrite queue_next_ok by (rewrite ?Hnew, ?Hq; done || (simpl; lia)).
    rewrite queue_next_ok by (cbn; rewrite ?Hnew, ?Hq; done || (simpl; lia)). do 2 eexists. split; [done|]. split; [done|]. split; [done|].
    intros fuel Hf. rewrite push_new_commands_queue.
    apply (run_commands chain top call e f m Ht He Hc [a; b]); [done| |simpl in *; lia]. split; cbn; rewrite ?Hnew, ?Hq; done.
  - rewrite queue_next_ok by (rewrite ?Hnew, ?Hq; done || (simpl; lia)). do 2 eexists. split; [done|]. split; [done|]. split; [done|].
    intros fuel Hf. rewrite push_new_commands_queue.
    apply (run_continuation chain top call e f m Ht He Hc (a :: b :: c :: ss)); [done| |done]. split; cbn; rewrite ?Hnew, ?Hq; done.
Qed.

Lemma idle_completes b n x w : ready n [] x -> completes b (Ok (x, w)) (ended n w).
Proof.
  intros [Hq Hnew Hs Ho Hquota Hl]. exists x, w. split; [done|]. split; [done|]. split; [done|]. intros fuel Hf.
  rewrite push_new_commands_queue. eapply (run_ended n []); [|lia|done]. split; cbn; rewrite ?Hnew, ?Hq; done.
Qed.

Lemma completes_weaken a b o w : completes a o w -> (a <= b)%nat -> completes b o w.
Proof. intros (x1 & w1 & He & Ho & Hs & Hf) Hab. exists x1, w1. repeat split; [done..|]. intros fuel ?. apply Hf. lia. Qed.

Lemma with_forked_return m : is_return (with_forked m) = is_return m.
Proof. unfold is_return, with_forked, RETURN, FORKED. simpl. rewrite Z.land_lor_distr_l. by rewrite Z.lor_0_r. Qed.

Lemma drop_cons {A} (l : list A) p : (p < length l)%nat -> exists x, l !! p = Some x /\ drop p l = x :: drop (p + 1) l.
Proof.
  intros Hp. destruct (lookup_lt_is_Some_2 l p Hp) as [x Hx]. exists x. split; [done|]. rewrite Nat.add_1_r. by apply drop_S.
Qed.

Lemma build_completes fuel : forall f chain o ss m x w b n,
  (position chain < length (contexts chain))%nat -> (length (contexts chain) - position chain <= fuel)%nat ->
  standard (contexts chain) -> is_return m = false -> (length ss <= b)%nat -> (Z.to_nat (fork_limit x) <= b)%nat ->
  0 <= n -> ready n [] x ->
  completes (2 * b + 1) (build_contexts fuel f chain o ss m x w) (direct (drop (position chain) (contexts chain)) (fork_limit x) o ss m n w).
Proof.
  induction fuel as [|fuel IH]; intros f chain o ss m x w b n Hp Hfuel Hstd Hm Hss Hfk Hn Hr; [lia|]. cbn [build_contexts].
  destruct (drop_cons _ _ Hp) as (top & Htop & Hdrop). rewrite Hdrop. cbn [direct].
  pose proof (current_sources_length ss w) as Hl. pose proof Hstd as [Hall (l & e & call & Hlast & He & Hcall)]. unfold stage.
  destruct (Nat.eqb_spec (position chain + 1) (length (contexts chain))) as [Hend|Hmid].
  - rewrite drop_ge by lia. unfold build_terminal. assert (top = l) as ->.
    { rewrite last_lookup in Hlast. replace (pred _) with (position chain) in Hlast by lia. congruence. }
    unfold top_context. rewrite Htop, He, Hcall, Hm. destruct (current_sources ss w) as [|s rest].
    + unfold no_sources. rewrite Hm. by apply idle_completes.
    + eapply completes_weaken; [by eapply (scheduled_completes chain l call e f m (s :: rest))|lia].
  - destruct (drop_cons (contexts chain) (position chain + 1)) as (top2 & _ & Hdrop2); [lia|].
    set (rest := drop (position chain + 1) (contexts chain)) in *. rewrite Hdrop2. rewrite <- Hdrop2.
    destruct (current_sources ss w) as [|s ss'] eqn:Ecs.
    { unfold no_sources. rewrite Hm. by apply idle_completes. }
    unfold top_context. rewrite Htop. unfold next_stage. rewrite (proj2 (Nat.ltb_lt _ _)) by lia. cbn zeta.
    set (m' := if c_forks top then _ else _). assert (Hm' : is_return m' = false).
    { unfold m'. destruct (c_forks top); [by rewrite with_forked_return|done]. }
    assert (Hgo : forall x' l' w' n', fork_limit x' = fork_limit x -> (length l' <= b)%nat -> 0 <= n' -> ready n' [] x' ->
      completes (2 * b + 1) (build_contexts fuel f {| contexts := contexts chain; position := position chain + 1 |} o l' m' x' w')
        (direct rest (fork_limit x) o l' m' n' w')).
    { intros x' l' w' n' Hx' Hl' Hn' Hr'. rewrite <- Hx'. apply IH; cbn [contexts position]; [lia|lia|done|done|done|by rewrite Hx'|done|done]. }
    rewrite Forall_forall in Hall. specialize (Hall top (list_elem_of_lookup_2 _ _ _ Htop)). unfold standard_stage in Hall.
    destruct (c_modifier top) as [a|]; [|apply Hgo; [done|lia|done|done]].
    destruct Hall as [apply Happly]. rewrite Happly.
    assert (Hr' : ready (Z.max 0 (n - 1)) [] (increment_cost x)) by (destruct Hr as [H1 H2 H3 H4 H5 H6]; split; simpl; congruence).
    pose proof (expand_length apply top (fork_limit x) o m' (s :: ss') [] w) as Hx. cbn [increment_cost fork_limit] in Hx |- *.
    destruct (expand _ _ _ _ _ _ _ w) as [[l'|] w'].
    + apply Hgo; [done| |lia|done]. specialize (Hx ltac:(simpl; lia)). lia.
    + by apply idle_completes.
Qed.

(** C11: Running a chain of standard stages through the queue, with continuations
    for many sources, is evaluating it directly, stage after stage and then
    source after source, for all limits of commands and of forks: it stops at
    the same command, with the same world, and for the same reason.  The last
    executor is a standard one and no modifier is custom, as [standard] says. *)
Theorem queue_refines_direct cs source consumer limit forks w fuel :
  standard cs -> (2 * Nat.max 1 (Z.to_nat forks) + 2 < fuel)%nat ->
  let (x, w0) := queue_initial_command {| contexts := cs; position := 0 |} source consumer (execution_new limit forks) w in
  let (stop, w1) := direct cs forks source [source] modifiers_default (Z.max limit 1) w in
  exists x', run_queue steel_executor steel_modifier fuel x w0 = Ok (stop, x', w1) /\ (stop = Completed -> command_queue x' = []).
Proof.
  intros Hstd Hf. unfold queue_initial_command. rewrite queue_next_ok by (done || (simpl; lia)).
  assert (Hlen : (0 < length cs)%nat). { destruct Hstd as [_ (l & e & call & Hlast & _)]. destruct cs; [done|simpl; lia]. }
  unfold run_queue. cbn [suspension queue_overflow set_queues execution_new]. rewrite push_new_commands_queue.
  destruct fuel as [|fuel]; [lia|]. cbn [run_loop]. unfold turn. cbn [command_quota set_queues execution_new command_queue new_top_commands app].
  rewrite (proj2 (Z.eqb_neq _ _)) by lia. cbn [andb action frame execute contexts].
  set (x := set_depth _ _). set (f := create_top_frame _ _).
  destruct (build_completes (S (length cs)) f {| contexts := cs; position := 0 |} source [source] modifiers_default x w
    (Nat.max 1 (Z.to_nat forks)) (Z.max limit 1)) as (x1 & w1 & -> & Ho & Hs & Hrun); cbn [contexts position].
  - done.
  - lia.
  - done.
  - done.
  - simpl. lia.
  - unfold x. simpl. lia.
  - lia.
  - by split.
  - cbn [obind]. rewrite Ho, Hs. cbn [obind]. destruct (Hrun fuel ltac:(lia)) as (x' & Hx' & Hq). rewrite drop_0 in *.
    change (fork_limit x) with forks in *. destruct (direct _ _ _ _ _ _ w) as [stop w2]. by exists x'.
Qed.
End Direct.

(** ** The return command *)

Section Return.
Context `{!CommandRuntime} {World : Type} `{!CommandExecution World}.
Context (steel_executor : Executor -> SteelExecutor) (steel_modifier : Modifier -> SteelModifier).

(** Every custom executor is one of the return command, and the context of
    [return <value>] has its integer. *)
Record return_only : Prop := {
  only_executors : forall e custom, steel_executor e = CustomExecutor custom -> custom = return_value \/ custom = return_fail;
  only_modifiers : forall m custom, steel_modifier m = CustomModifier custom -> custom = return_run
}.

Definition has_value (c : CommandContext) : Prop := forall e, c_executor c = Some e ->
  steel_executor e = CustomExecutor return_value -> is_Some (integer c text_value).

(** The return command keeps what the queue relies on. *)
Lemma return_laws : return_only -> CustomLaws steel_executor steel_modifier has_value.
Proof.
  intros [He Hm]. split.
  - intros F e custom s chain m top Hc Hok Ht Hx. destruct (He e custom Hc) as [-> | ->]; [|by simpl].
    unfold return_value. rewrite Ht. cbn [mbind option_bind].
    pose proof (chain_admits _ _ Hok) as Hall. rewrite Forall_forall in Hall.
    destruct (Hall top (list_elem_of_lookup_2 _ _ _ Ht) e Hx Hc) as [v ->]. done.
  - intros F m custom o s ss chain md next Hc Hok Hn. rewrite (Hm m custom Hc). unfold return_run. rewrite Hn. cbn [control_ok].
    assert (Hlt : (position chain + 1 < length (contexts chain))%nat /\ next = {| contexts := contexts chain; position := position chain + 1 |}).
    { unfold next_stage in Hn. destruct (Nat.ltb_spec (position chain + 1) (length (contexts chain))); [|done]. by simplify_eq. }
    destruct Hlt as [Hlt ->]. split; [|done]. destruct Hok as [H1 H2 H3]. split; simpl; [lia|done|done].
Qed.

(** A callback that was set is the one that is called, and does not make a
    source stale. *)
Class CallbackLaws : Prop := {
  callback_set : forall s c, callback (with_callback s c) = c;
  current_set : forall s c w, execution_is_current (with_callback s c) w = execution_is_current s w
}.

Context `{!CallbackLaws}.

(** C33: [return run <command>] runs the command once, tells the source's
    callback and then the frame its result, and the queue is done; an error
    is given to both as failure and then handled. *)
Theorem return_run_reports c0 c1 a m e call source consumer limit forks w :
  c_modifier c0 = Some a -> c_forks c0 = false -> steel_modifier (arc_val a) = CustomModifier return_run ->
  c_modifier c1 = m -> c_executor c1 = Some e -> steel_executor e = StandardExecutor call ->
  execution_is_current source w = true -> 2 <= limit ->
  let (x, w0) := queue_initial_command {| contexts := [c0; c1]; position := 0 |} source consumer (execution_new limit forks) w in
  let running := with_callback source (chain_callbacks (callback source) consumer) in
  exists x', run_queue steel_executor steel_modifier 4 x w0 =
    Ok (Completed, x',
      match call (copy_for running c1) w with
      | (inr result, w) => on_result consumer true result (on_result (callback source) true result w)
      | (inl error, w) => handle_error running error false (on_result consumer false 0 (on_result (callback source) false 0 w))
      end) /\ command_queue x' = [].
Proof.
  intros Ha Hf Hret Hm He Hc Hcur Hlim. unfold queue_initial_command. rewrite queue_next_ok by (done || (simpl; lia)).
  set (running := with_callback _ _). set (chain := {| contexts := [c0; c1]; position := 0 |}).
  set (next := {| contexts := [c0; c1]; position := 1 |}). set (f := create_top_frame _ _).
  unfold run_queue. cbn [suspension queue_overflow set_queues execution_new]. rewrite push_new_commands_queue.
  set (x := set_queues _ [] _). set (q1 := {| frame := f; action := BuildContextsAction chain source [source] modifiers_default |}).
  set (q2 := {| frame := f; action := BuildContextsAction next source [source] (with_return modifiers_default) |}).
  set (q3 := {| frame := f; action := ExecuteAction next running (with_return modifiers_default) |}).
  cbn zeta. set (x1 := set_depth (depth f) (set_queues [] [] x)).
  erewrite (run_execute _ _ (Z.max limit 1) q1 [] x w (set_queues [] [q2] x1) w); [|lia|by split| |done..].
  2:{ cbn -[current_sources]. rewrite current_source by done. cbn. rewrite Ha, Hret, Hf. done. }
  cbn [new_top_commands command_queue set_queues app]. set (x2 := set_queues _ [] _). set (x3 := set_depth (depth f) (set_queues [] [] x2)).
  erewrite (run_execute _ _ (Z.max limit 1) q2 [] x2 w (set_queues [] [q3] x3) w); [|lia|by split| |done..].
  2:{ cbn -[current_sources]. unfold build_terminal. rewrite current_source by done. cbn. rewrite He, Hc. done. }
  cbn [new_top_commands command_queue set_queues app].
  destruct (run_commands steel_executor steel_modifier next c1 call e f (with_return modifiers_default) eq_refl He Hc [running]
    (Z.max limit 1) (set_queues [q3] [] (set_queues [] [q3] x3)) w 2) as (x' & -> & Hq); [lia|by split|simpl; lia|].
  exists x'. assert (Hd : direct_commands call c1 (with_return modifiers_default) (Z.max limit 1) w [running] = (Completed,
    match call (copy_for running c1) w with
    | (inr result, w) => on_result consumer true result (on_result (callback source) true result w)
    | (inl error, w) => handle_error running error false (on_result consumer false 0 (on_result (callback source) false 0 w))
    end)).
  { cbn [direct_commands]. unfold direct_command, complete_command_result, ended. rewrite (proj2 (Z.eqb_neq (Z.max limit 1) 0)) by lia.
    unfold running at 1. rewrite current_set, Hcur. replace (callback running) with (chain_callbacks (callback source) consumer)
      by (symmetry; apply callback_set).
    destruct (call _ w) as [[err|v] w']; rewrite (proj2 (Z.eqb_neq (Z.max limit 1 - 1) 0)) by lia; by destruct (callback source), consumer. }
  rewrite Hd in *. split; [done|by apply Hq].
Qed.
End Return.

(** ** Examples *)

Module QueueDemo.
Import Demo ParseDemo.

(** Results are reported to the world; a suspension counts its polls down. *)
#[export] Instance demo_execution : CommandExecution World := {|
  execution_is_current s w := true;
  with_callback s c := {| level := level s; src_callback := c |};
  callback := src_callback;
  handle_error s e forked w := w ++ [(false, -1)];
  fork_limit_reached _ := tt;
  integer_value v := match v with PInteger v => Some v | _ => None end;
  Suspension := nat;
  suspension_order _ := OrderSource;
  poll_result n w := match n with O => (Some (inr 9), O, w) | S n => (None, n, w) end;
  cancel_result n w := w
|}.

#[export] Instance demo_callbacks : CallbackLaws.
Proof. done. Qed.

Definition steel_executor (e : Executor) : SteelExecutor :=
  match e : nat with
  | 0%nat => StandardExecutor (fun c w => (inr 7, w ++ [(true, 0)]))
  | 1%nat => SuspendedExecutor (fun c w => (inr 1%nat, w))
  | 2%nat => CustomExecutor return_value
  | _ => CustomExecutor return_fail
  end.

(** A fork into four, and [return run] *)
Definition steel_modifier (m : Modifier) : SteelModifier :=
  match m : nat with
  | 0%nat => StandardModifier (fun c w => (inr [c_source c; c_source c; c_source c; c_source c], w))
  | _ => CustomModifier return_run
  end.

Lemma demo_return_only : return_only steel_executor steel_modifier.
Proof. split; [intros [|[|[|e]]] custom|intros [|m] custom]; simpl; intros [= <-]; auto. Qed.

Definition stage_of (e : option nat) (m : option (Arc nat)) (forks : bool) : CommandContext :=
  {| c_source := an_operator; c_input := []; c_root := mk_id 1 0; c_arguments := []; c_executor := e; c_nodes := [];
     c_range := range_at 0; c_child := None; c_modifier := m; c_forks := forks |}.

Definition log_callback : option (bool -> Z -> World -> World) := Some (fun ok r w => w ++ [(ok, r)]).
Definition logger : Src := {| level := 3; src_callback := log_callback |}.

Definition forked : list CommandContext := [stage_of None (Some (mk_arc 1 0%nat)) true; stage_of (Some 0%nat) None false].
Definition started : CommandExecutionContext :=
  (queue_initial_command {| contexts := forked; position := 0 |} logger None (execution_new 3 100) []).1.

Definition demo_has_value : CommandContext -> Prop := has_value steel_executor.
#[export] Instance demo_custom : CustomLaws steel_executor steel_modifier demo_has_value.
Proof. apply return_laws, demo_return_only. Qed.

Lemma started_ok : queue_ok steel_executor demo_has_value started.
Proof.
  split; [by constructor|]. constructor; [|by constructor]. simpl. split; [simpl; lia|by do 2 eexists|].
  constructor; [by intros e|]. constructor; [|by constructor]. intros e [= <-]. done.
Qed.

Lemma execution_returns_witness : queue_ok steel_executor demo_has_value started /\ exists stop x' w',
  run_queue steel_executor steel_modifier (S (load started)) started [] = Ok (stop, x', w') /\
  queue_ok steel_executor demo_has_value x' /\ stop_ok stop x'.
Proof.
  split; [apply started_ok|].
  destruct (execution_returns steel_executor steel_modifier demo_has_value started [] started_ok) as [Hrun _]. apply Hrun. lia.
Defined.


(** A suspended command runs in the first tick; the other ticks poll it. *)
Example suspended_runs_once : life_commands steel_executor steel_modifier [(20%nat, []); (20%nat, []); (20%nat, [])]
  (queue_initial_command {| contexts := [stage_of (Some 1%nat) None false]; position := 0 |} logger None (execution_new 3 100) []).1 = 1.
Proof. vm_compute. done. Qed.

(** With a limit of 3 the direct evaluation stops after two commands of the
    four, and so does the queue; the default of the game rules completes. *)
Lemma queue_refines_direct_witness : standard steel_executor steel_modifier forked /\
  direct steel_executor steel_modifier forked 10 logger [logger] modifiers_default 65536 [] =
    (Completed, [(true, 0); (true, 7); (true, 0); (true, 7); (true, 0); (true, 7); (true, 0); (true, 7)]) /\
  let (x, w0) := queue_initial_command {| contexts := forked; position := 0 |} logger None (execution_new 3 10) [] in
  exists x', run_queue steel_executor steel_modifier 30 x w0 =
    Ok (CommandLimit, x', [(true, 0); (true, 7); (true, 0); (true, 7)]) /\ (CommandLimit = Completed -> command_queue x' = []).
Proof.
  assert (Hs : standard steel_executor steel_modifier forked).
  { split; [constructor; [by eexists|by repeat constructor]|]. do 3 eexists. repeat split. }
  split; [exact Hs|]. split; [vm_compute; done|].
  apply (queue_refines_direct steel_executor steel_modifier forked logger None 3 10 [] 30 Hs). simpl. lia.
Defined.

Lemma return_run_reports_witness :
  let (x, w0) := queue_initial_command {| contexts := [stage_of None (Some (mk_arc 1 1%nat)) false; stage_of (Some 0%nat) None false]; position := 0 |}
    logger log_callback (execution_new 5 10) [] in
  exists x', run_queue steel_executor steel_modifier 4 x w0 = Ok (Completed, x', [(true, 0); (true, 7); (true, 7)]) /\ command_queue x' = [].
Proof.
  apply (return_run_reports steel_executor steel_modifier (stage_of None (Some (mk_arc 1 1%nat)) false) (stage_of (Some 0%nat) None false)
    (mk_arc 1 1%nat) None 0%nat (fun c w => (inr 7, w ++ [(true, 0)])) logger log_callback 5 10 []); done.
Defined.
End QueueDemo.
