(* ===== verification/CommandTick.v ===== *)
(** * Commands of the server

    Models [steel-core/src/command/queue/requests.rs] and [pending.rs], the
    owners of [command/sender.rs], and the parts of [server/run_loop.rs] that
    take commands from the request queue, run them, and resume those that are
    suspended.

    Connections submit requests at any time; the server's tick resumes
    suspended executions and then takes requests.  A command whose execution is
    suspended holds back the later commands of its sender, or all of them.

    The state of a player and of the game rules is in the world
    ([CommandServer]); the dispatcher is an argument.

    [blocks_exact]: what holds commands back is counted exactly.

    - [server_steps_return]: whatever is submitted, and in whatever order the
      server's steps come, no step panics or runs forever.
    - [commands_in_order]: the commands of a sender start in the order they
      were submitted, none is lost, and none starts before an earlier one is
      done. *)

From Stdlib Require Import Lia ZArith.
From stdpp Require Import prelude list gmap.
From S2P Require Import Prelude CommandReader CommandGraph CommandParse CommandQueue.

Definition DEFAULT_COMMAND_REQUEST_CAPACITY : Z := 1024.
Definition DEFAULT_SUGGESTION_REQUEST_CAPACITY : Z := 1024.
Definition COMMAND_REQUESTS_PER_TICK : nat := 128.
Definition COMMAND_RESUMPTIONS_PER_TICK : nat := 128.

(** ** Senders *)

(** An [Arc<Player>]: its address and the id of its profile *)
Record PlayerRef := { player_address : Z; player_uuid : Z }.

Inductive CommandSender := SenderPlayer (p : PlayerRef) | SenderConsole | SenderRcon.

Inductive CommandSenderKey := KeyPlayer (uuid : Z) | KeyConsole | KeyRcon.
#[export] Instance CommandSenderKey_eq_dec : EqDecision CommandSenderKey.
Proof. solve_decision. Defined.
#[export] Instance CommandSenderKey_countable : Countable CommandSenderKey.
Proof.
  refine (inj_countable' (fun k => match k with KeyPlayer u => inl u | KeyConsole => inr true | KeyRcon => inr false end)
    (fun s => match s with inl u => KeyPlayer u | inr true => KeyConsole | inr false => KeyRcon end) _).
  by intros [].
Defined.

(** A [DomainResidenceToken] is the number of a stay. *)
Inductive CommandSuggestionKey :=
| SuggestPlayer (uuid session_address : Z) (residence : option Z)
| SuggestConsole
| SuggestRcon.
#[export] Instance CommandSuggestionKey_eq_dec : EqDecision CommandSuggestionKey.
Proof. solve_decision. Defined.

Record CommandExecutionOwner := { sender : CommandSender; player_residence : option Z }.

Definition get_player (s : CommandSender) : option PlayerRef :=
  match s with SenderPlayer p => Some p | _ => None end.

Definition sender_key (s : CommandSender) : CommandSenderKey :=
  match s with SenderPlayer p => KeyPlayer (player_uuid p) | SenderConsole => KeyConsole | SenderRcon => KeyRcon end.
Definition owner_key (o : CommandExecutionOwner) : CommandSenderKey := sender_key (sender o).

Definition suggestion_key (o : CommandExecutionOwner) : CommandSuggestionKey :=
  match sender o with
  | SenderPlayer p => SuggestPlayer (player_uuid p) (player_address p) (player_residence o)
  | SenderConsole => SuggestConsole
  | SenderRcon => SuggestRcon
  end.

(** ** Requests *)

Inductive CommandRequest :=
| RequestExecute (owner : CommandExecutionOwner) (command : text)
| RequestSuggestions (owner : CommandExecutionOwner) (transaction_id : Z) (input : text).

Section Requests.
Context {K E S : Type} `{!EqDecision K}.

Inductive PendingRequest := PendingExecute (e : E) | PendingSuggestions (s : S).

Record PendingRequestQueues := {
  executions : list E;
  suggestions : list (K * S);
  execution_capacity : Z;
  suggestion_capacity : Z;
  prefer_execution : bool
}.

Definition requests_new (execution_capacity suggestion_capacity : Z) : PendingRequestQueues :=
  {| executions := []; suggestions := []; execution_capacity := execution_capacity;
     suggestion_capacity := suggestion_capacity; prefer_execution := true |}.

Definition set_requests (es : list E) (ss : list (K * S)) (prefer : bool) (q : PendingRequestQueues) : PendingRequestQueues :=
  {| executions := es; suggestions := ss; execution_capacity := execution_capacity q;
     suggestion_capacity := suggestion_capacity q; prefer_execution := prefer |}.

(** [None] is [CommandQueueFull], the queue being as it was. *)
Definition submit_execution (e : E) (q : PendingRequestQueues) : option PendingRequestQueues :=
  if execution_capacity q <=? Z.of_nat (length (executions q)) then None
  else Some (set_requests (executions q ++ [e]) (suggestions q) (prefer_execution q) q).

(** The first entry of a key is replaced; [None] if there is none. *)
Fixpoint replace_suggestion (k : K) (s : S) (l : list (K * S)) : option (list (K * S)) :=
  match l with
  | [] => None
  | (k', s') :: l =>
      if decide (k' = k) then Some ((k', s) :: l) else cons (k', s') <$> replace_suggestion k s l
  end.

Definition submit_suggestions (k : K) (s : S) (q : PendingRequestQueues) : option PendingRequestQueues :=
  match replace_suggestion k s (suggestions q) with
  | Some l => Some (set_requests (executions q) l (prefer_execution q) q)
  | None =>
      if suggestion_capacity q <=? Z.of_nat (length (suggestions q)) then None
      else Some (set_requests (executions q) (suggestions q ++ [(k, s)]) (prefer_execution q) q)
  end.

(** [position] and [remove]: the first allowed execution, and the others *)
Definition pop_allowed_execution (allowed : E -> bool) (q : PendingRequestQueues) : option (E * PendingRequestQueues) :=
  match list_find (fun e => allowed e = true) (executions q) with
  | Some (i, e) => Some (e, set_requests (delete i (executions q)) (suggestions q) (prefer_execution q) q)
  | None => None
  end.

Definition pop_front_where (allowed : E -> bool) (q : PendingRequestQueues) : option (PendingRequest * PendingRequestQueues) :=
  if prefer_execution q then
    match pop_allowed_execution allowed q with
    | Some (e, q) => Some (PendingExecute e, set_requests (executions q) (suggestions q) false q)
    | None =>
        match suggestions q with
        | (_, s) :: l => Some (PendingSuggestions s, set_requests (executions q) l true q)
        | [] => None
        end
    end
  else
    match suggestions q with
    | (_, s) :: l => Some (PendingSuggestions s, set_requests (executions q) l true q)
    | [] =>
        match pop_allowed_execution allowed q with
        | Some (e, q) => Some (PendingExecute e, set_requests (executions q) (suggestions q) false q)
        | None => None
        end
    end.

Definition requests_clear (q : PendingRequestQueues) : PendingRequestQueues := set_requests [] [] true q.
End Requests.
Arguments PendingRequest : clear implicits.
Arguments PendingRequestQueues : clear implicits.

(** [CommandRequestQueue]; its mutex makes each method one step. *)
Definition CommandRequestQueue := PendingRequestQueues CommandSuggestionKey CommandRequest CommandRequest.

Definition request_queue_new : CommandRequestQueue :=
  requests_new DEFAULT_COMMAND_REQUEST_CAPACITY DEFAULT_SUGGESTION_REQUEST_CAPACITY.

Definition submit (r : CommandRequest) (q : CommandRequestQueue) : option CommandRequestQueue :=
  match r with
  | RequestExecute _ _ => submit_execution r q
  | RequestSuggestions owner _ _ => submit_suggestions (suggestion_key owner) r q
  end.

Definition pop_front_runnable (allowed : CommandExecutionOwner -> bool) (q : CommandRequestQueue)
    : option (CommandRequest * CommandRequestQueue) :=
  match pop_front_where (fun r => match r with RequestExecute owner _ => allowed owner | _ => false end) q with
  | Some (PendingExecute r, q) | Some (PendingSuggestions r, q) => Some (r, q)
  | None => None
  end.

(** ** Suspended executions *)

(** What commands need of the server *)
Class CommandServer `{!CommandRuntime} (World : Type) : Type := {
  domain_residence_token : PlayerRef -> World -> Z;
  command_world_for_player : PlayerRef -> World -> bool;
  is_domain_residence_current : PlayerRef -> Z -> World -> bool;
  source_new : CommandSender -> World -> Source;
  sequence_limit : Source -> Z;
  source_fork_limit : Source -> Z;
  send_suggestions : PlayerRef -> Z -> text -> World -> World
}.

Section Tick.
Context `{!CommandRuntime} {World : Type} `{!CommandExecution World} `{!CommandServer World}.
Context (steel_executor : Executor -> SteelExecutor) (steel_modifier : Modifier -> SteelModifier).

Definition capture (s : CommandSender) (w : World) : CommandExecutionOwner :=
  {| sender := s;
     player_residence :=
       match get_player s with
       | Some p => if command_world_for_player p w then Some (domain_residence_token p w) else None
       | None => None
       end |}.

Definition owner_is_current (o : CommandExecutionOwner) (w : World) : bool :=
  match sender o with
  | SenderPlayer p =>
      match player_residence o with
      | Some residence => command_world_for_player p w && is_domain_residence_current p residence w
      | None => false
      end
  | _ => true
  end.

Record PendingCommandExecution := {
  pending_owner : CommandExecutionOwner;
  pending_order : CommandSuspensionOrder;
  execution : CommandExecutionContext
}.

Record PendingCommandExecutionQueue := {
  queued : list PendingCommandExecution;
  blocked_sources : gmap CommandSenderKey Z;
  global_barriers : Z
}.

Definition pending_new : PendingCommandExecutionQueue := {| queued := []; blocked_sources := ∅; global_barriers := 0 |}.

Definition set_queued (l : list PendingCommandExecution) (p : PendingCommandExecutionQueue) : PendingCommandExecutionQueue :=
  {| queued := l; blocked_sources := blocked_sources p; global_barriers := global_barriers p |}.

Definition retain_barrier (k : CommandSenderKey) (order : CommandSuspensionOrder) (p : PendingCommandExecutionQueue)
    : PendingCommandExecutionQueue :=
  {| queued := queued p;
     blocked_sources := <[k := default 0 (blocked_sources p !! k) + 1]> (blocked_sources p);
     global_barriers := if decide (order = OrderGlobal) then global_barriers p + 1 else global_barriers p |}.

Definition release_barrier (k : CommandSenderKey) (order : CommandSuspensionOrder) (p : PendingCommandExecutionQueue)
    : PendingCommandExecutionQueue :=
  {| queued := queued p;
     blocked_sources :=
       match blocked_sources p !! k with
       | Some count =>
           let count := count - 1 in
           if count =? 0 then delete k (blocked_sources p) else <[k := count]> (blocked_sources p)
       | None => blocked_sources p
       end;
     global_barriers := if decide (order = OrderGlobal) then Z.max 0 (global_barriers p - 1) else global_barriers p |}.

Definition push_suspended (owner : CommandExecutionOwner) (x : CommandExecutionContext) (p : PendingCommandExecutionQueue)
    : bool * PendingCommandExecutionQueue :=
  match active_order x with
  | None => (false, p)
  | Some order =>
      let p := retain_barrier (owner_key owner) order p in
      (true, set_queued (queued p ++ [{| pending_owner := owner; pending_order := order; execution := x |}]) p)
  end.

Definition blocks (k : CommandSenderKey) (p : PendingCommandExecutionQueue) : bool :=
  (0 <? global_barriers p) || match blocked_sources p !! k with Some _ => true | None => false end.

(** Fuel for an execution that is polled *)
Definition poll_fuel (x : CommandExecutionContext) : nat := load x + 3.

(** One round of the loop of [tick]: whether an execution was polled, and
    whether it finished *)
Definition tick_one (p : PendingCommandExecutionQueue) (w : World) : run (bool * bool * PendingCommandExecutionQueue * World) :=
  match queued p with
  | [] => Ok (false, false, p, w)
  | pending :: rest =>
      let p := set_queued rest p in
      let owner := pending_owner pending in
      if negb (owner_is_current owner w) then
        let (_, w) := cancel (execution pending) w in
        Ok (true, true, release_barrier (owner_key owner) (pending_order pending) p, w)
      else
        let? '(stop, x, w) := poll_suspension steel_executor steel_modifier (poll_fuel (execution pending)) (execution pending) w in
        match stop with
        | Suspended =>
            match active_order x with
            | None => Ok (true, true, release_barrier (owner_key owner) (pending_order pending) p, snd (cancel x w))
            | Some order =>
                let p :=
                  if decide (order = pending_order pending) then p
                  else retain_barrier (owner_key owner) order (release_barrier (owner_key owner) (pending_order pending) p) in
                Ok (true, false, set_queued (queued p ++ [{| pending_owner := owner; pending_order := order; execution := x |}]) p, w)
            end
        | _ => Ok (true, true, release_barrier (owner_key owner) (pending_order pending) p, snd (cancel x w))
        end
  end.

Record PendingCommandExecutionStats := { polled : Z; finished : Z; pending_count : Z }.

Fixpoint tick_loop (rounds : nat) (p : PendingCommandExecutionQueue) (polled finished : Z) (w : World)
    : run (PendingCommandExecutionStats * PendingCommandExecutionQueue * World) :=
  match rounds with
  | O => Ok ({| polled := polled; finished := finished; pending_count := Z.of_nat (length (queued p)) |}, p, w)
  | S rounds =>
      let? '(a, b, p, w) := tick_one p w in
      if a then tick_loop rounds p (polled + 1) (if b then finished + 1 else finished) w
      else Ok ({| polled := polled; finished := finished; pending_count := Z.of_nat (length (queued p)) |}, p, w)
  end.

Definition pending_tick (limit : nat) (p : PendingCommandExecutionQueue) (w : World)
    : run (PendingCommandExecutionStats * PendingCommandExecutionQueue * World) :=
  tick_loop (Nat.min (length (queued p)) limit) p 0 0 w.

Definition cancel_all (p : PendingCommandExecutionQueue) (w : World) : PendingCommandExecutionQueue * World :=
  (pending_new, foldl (fun w pending => snd (cancel (execution pending) w)) w (queued p)).

(** ** The server *)

Context (d : CommandDispatcher).

(** [strip_prefix('/')] *)
Definition strip_slash (command : text) : text := default command (strip_text_prefix [47] command).

(** [Server::execute_command_request] *)
Definition execute_command_request (owner : CommandExecutionOwner) (command : text) (p : PendingCommandExecutionQueue) (w : World)
    : run (PendingCommandExecutionQueue * World) :=
  let source := source_new (sender owner) w in
  let? r := parse d (strip_slash command) source in
  match context_chain d r with
  | Panic => Panic
  | Err error => Ok (p, handle_error source error false w)
  | Ok chain =>
      let x := execution_new (sequence_limit source) (source_fork_limit source) in
      let (x, w) := queue_initial_command chain source None x w in
      let? '(stop, x, w) := run_queue steel_executor steel_modifier (S (load x)) x w in
      match stop with
      | Suspended =>
          match push_suspended owner x p with
          | (true, p) => Ok (p, w)
          | (false, p) => Ok (p, snd (cancel x w))
          end
      | _ => Ok (p, snd (cancel x w))
      end
  end.

Record CommandState := { requests : CommandRequestQueue; pending : PendingCommandExecutionQueue; world : World }.

(** One round of the loop of [tick_command_requests]: the request that was
    taken *)
Definition take_request (s : CommandState) : run (option CommandRequest * CommandState) :=
  match pop_front_runnable (fun owner => negb (blocks (owner_key owner) (pending s))) (requests s) with
  | None => Ok (None, s)
  | Some (r, q) =>
      match r with
      | RequestExecute owner command =>
          if negb (owner_is_current owner (world s)) then Ok (Some r, {| requests := q; pending := pending s; world := world s |})
          else
            let? '(p, w) := execute_command_request owner command (pending s) (world s) in
            Ok (Some r, {| requests := q; pending := p; world := w |})
      | RequestSuggestions owner transaction_id input =>
          let w :=
            if negb (owner_is_current owner (world s)) then world s
            else match get_player (sender owner) with
                 | Some p => send_suggestions p transaction_id input (world s)
                 | None => world s
                 end in
          Ok (Some r, {| requests := q; pending := pending s; world := w |})
      end
  end.

Fixpoint tick_requests_loop (rounds : nat) (s : CommandState) : run CommandState :=
  match rounds with
  | O => Ok s
  | S rounds =>
      let? '(r, s) := take_request s in
      match r with
      | None => Ok s
      | Some _ => tick_requests_loop rounds s
      end
  end.

Definition tick_command_requests : CommandState -> run CommandState := tick_requests_loop COMMAND_REQUESTS_PER_TICK.

Definition tick_pending_command_executions (s : CommandState) : run CommandState :=
  let? '(_, p, w) := pending_tick COMMAND_RESUMPTIONS_PER_TICK (pending s) (world s) in
  Ok {| requests := requests s; pending := p; world := w |}.
End Tick.

(** ** Barriers *)

Section Barriers.
Context `{!CommandRuntime} {World : Type} `{!CommandExecution World} `{!CommandServer World}.
Context (steel_executor : Executor -> SteelExecutor) (steel_modifier : Modifier -> SteelModifier).

Definition count_key (k : CommandSenderKey) (l : list (CommandSenderKey * CommandSuspensionOrder)) : Z :=
  Z.of_nat (length (filter (fun e => e.1 = k) l)).
Definition count_global (l : list (CommandSenderKey * CommandSuspensionOrder)) : Z :=
  Z.of_nat (length (filter (fun e => e.2 = OrderGlobal) l)).

(** The barriers are those of [l]. *)
Record counts (l : list (CommandSenderKey * CommandSuspensionOrder)) (p : PendingCommandExecutionQueue) : Prop := {
  counts_sources : forall k, blocked_sources p !! k = if decide (count_key k l = 0) then None else Some (count_key k l);
  counts_global : global_barriers p = count_global l
}.

Definition barrier_of (q : PendingCommandExecution) : CommandSenderKey * CommandSuspensionOrder :=
  (owner_key (pending_owner q), pending_order q).

Definition barriers_ok (p : PendingCommandExecutionQueue) : Prop := counts (barrier_of <$> queued p) p.

Lemma count_key_cons k e l : count_key k (e :: l) = (if decide (e.1 = k) then 1 else 0) + count_key k l.
Proof. unfold count_key. rewrite filter_cons. destruct (decide _); simpl length; lia. Qed.

Lemma count_global_cons e l : count_global (e :: l) = (if decide (e.2 = OrderGlobal) then 1 else 0) + count_global l.
Proof. unfold count_global. rewrite filter_cons. destruct (decide _); simpl length; lia. Qed.

Lemma count_key_app k a b : count_key k (a ++ b) = count_key k a + count_key k b.
Proof. unfold count_key. rewrite filter_app, length_app. lia. Qed.

Lemma count_global_app a b : count_global (a ++ b) = count_global a + count_global b.
Proof. unfold count_global. rewrite filter_app, length_app. lia. Qed.

Lemma counts_perm l l' p : (forall k, count_key k l = count_key k l') -> count_global l = count_global l' -> counts l p -> counts l' p.
Proof. intros Hk Hg [H1 H2]. split; [intros k; by rewrite <- Hk|congruence]. Qed.

Lemma counts_rotate e l p : counts (e :: l) p -> counts (l ++ [e]) p.
Proof.
  apply counts_perm; [intros k; rewrite count_key_app, !count_key_cons|rewrite count_global_app, !count_global_cons].
  - change (count_key k []) with 0. lia.
  - change (count_global []) with 0. lia.
Qed.

Lemma counts_retain l k o p : counts l p -> counts (l ++ [(k, o)]) (retain_barrier k o p).
Proof.
  intros [H1 H2]. split.
  - intros k'. rewrite count_key_app, count_key_cons. change (count_key k' []) with 0. cbn [retain_barrier blocked_sources fst].
    destruct (decide (k = k')) as [<-|Hne].
    + rewrite lookup_insert_eq, H1. assert (0 <= count_key k l) by (unfold count_key; lia).
      rewrite (decide_False (P := count_key k l + (1 + 0) = 0)) by lia. destruct (decide _) as [->|]; simpl; f_equal; lia.
    + rewrite lookup_insert_ne, H1 by done. by replace (count_key k' l + (0 + 0)) with (count_key k' l) by lia.
  - rewrite count_global_app, count_global_cons. change (count_global []) with 0. cbn [retain_barrier global_barriers snd].
    destruct (decide _); lia.
Qed.

Lemma counts_release l k o p : counts ((k, o) :: l) p -> counts l (release_barrier k o p).
Proof.
  intros [H1 H2]. split.
  - intros k'. cbn [release_barrier blocked_sources]. pose proof (H1 k) as Hk. rewrite count_key_cons in Hk. cbn [fst] in Hk.
    rewrite (decide_True (P := k = k)) in Hk by done. assert (0 <= count_key k l) by (unfold count_key; lia).
    rewrite (decide_False (P := 1 + count_key k l = 0)) in Hk by lia. rewrite Hk. replace (1 + count_key k l - 1) with (count_key k l) by lia.
    destruct (Z.eqb_spec (count_key k l) 0) as [Hz|Hz]; destruct (decide (k = k')) as [<-|Hne].
    + by rewrite lookup_delete_eq, Hz.
    + rewrite lookup_delete_ne, H1, count_key_cons by done. cbn [fst]. by rewrite (decide_False (P := k = k')).
    + rewrite lookup_insert_eq. by rewrite decide_False.
    + rewrite lookup_insert_ne, H1, count_key_cons by done. cbn [fst]. by rewrite (decide_False (P := k = k')).
  - cbn [release_barrier global_barriers]. rewrite H2, count_global_cons. cbn [snd]. assert (0 <= count_global l) by (unfold count_global; lia).
    destruct (decide _); lia.
Qed.

Lemma counts_queued l q p : counts l p -> counts l (set_queued q p).
Proof. by intros [H1 H2]. Qed.

Lemma push_suspended_barriers owner x p : barriers_ok p -> barriers_ok (push_suspended owner x p).2.
Proof.
  unfold push_suspended, barriers_ok. intros Hp. destruct (active_order x) as [o|]; [|done]. cbn [snd queued set_queued retain_barrier].
  rewrite fmap_app. by apply counts_queued, (counts_retain _ (owner_key owner)).
Qed.

Lemma tick_one_barriers p w a b p' w' : barriers_ok p -> tick_one steel_executor steel_modifier p w = Ok (a, b, p', w') -> barriers_ok p'.
Proof.
  unfold barriers_ok, tick_one. intros Hp. destruct (queued p) as [|pend rest] eqn:Eq; [by intros [= <- <- <- <-]; rewrite Eq|].
  cbn [fmap list_fmap] in Hp. change (barrier_of pend) with (owner_key (pending_owner pend), pending_order pend) in Hp.
  assert (Hrel : counts (barrier_of <$> rest) (release_barrier (owner_key (pending_owner pend)) (pending_order pend) (set_queued rest p)))
    by (by apply counts_release, counts_queued).
  destruct (negb _); [destruct (cancel _ w) as [? w2]; by intros [= <- <- <- <-]|].
  destruct (poll_suspension _ _ _ _ w) as [[[stop x] w2]| |]; cbn [obind]; [|done|done].
  destruct stop; [by intros [= <- <- <- <-]| |by intros [= <- <- <- <-]..].
  destruct (active_order x) as [o|]; [|by intros [= <- <- <- <-]]. intros [= <- <- <- <-].
  cbn [queued set_queued]. destruct (decide (o = pending_order pend)) as [->|Hne]; cbn [queued set_queued retain_barrier release_barrier];
    rewrite fmap_app; apply counts_queued.
  - by apply counts_queued, (counts_rotate (owner_key (pending_owner pend), pending_order pend)).
  - by apply (counts_retain _ (owner_key (pending_owner pend))).
Qed.

Lemma blocks_exact p k : barriers_ok p ->
  blocks k p = true <-> exists q, q ∈ queued p /\ (owner_key (pending_owner q) = k \/ pending_order q = OrderGlobal).
Proof.
  intros [H1 H2]. unfold blocks. rewrite H1, H2. unfold count_global, count_key.
  assert (Hex : forall (P : CommandSenderKey * CommandSuspensionOrder -> Prop) `{!forall e, Decision (P e)},
    length (filter P (barrier_of <$> queued p)) <> 0%nat <-> exists q, q ∈ queued p /\ P (barrier_of q)).
  { intros P HP. rewrite length_zero_iff_nil. split.
    - intros Hne. destruct (filter P _) as [|e l] eqn:Ef; [done|]. assert (He : e ∈ filter P (barrier_of <$> queued p)) by (rewrite Ef; set_solver).
      apply list_elem_of_filter in He as [He Hin]. apply list_elem_of_fmap in Hin as (q & -> & Hq). by exists q.
    - intros (q & Hq & Hp) He. assert (Hin : barrier_of q ∈ filter P (barrier_of <$> queued p)).
      { apply list_elem_of_filter. split; [done|]. by apply list_elem_of_fmap_2. }
      rewrite He in Hin. by apply not_elem_of_nil in Hin. }
  split.
  - intros Hb. apply orb_true_iff in Hb as [Hb|Hb].
    + apply Z.ltb_lt in Hb. destruct (proj1 (Hex (fun e => e.2 = OrderGlobal) _)) as (q & Hq & Ho); [lia|]. exists q. by split; [|right].
    + destruct (decide _) as [|Hn]; [done|]. destruct (proj1 (Hex (fun e => e.1 = k) _)) as (q & Hq & Ho); [lia|]. exists q. by split; [|left].
  - intros (q & Hq & [Ho|Ho]); apply orb_true_iff; [right|left].
    + pose proof (proj2 (Hex (fun e => e.1 = k) _)) as Hl. rewrite decide_False; [done|]. assert (length (filter (fun e => e.1 = k) (barrier_of <$> queued p)) <> 0%nat); [|lia].
      apply Hl. by exists q.
    + apply Z.ltb_lt. pose proof (proj2 (Hex (fun e => e.2 = OrderGlobal) _)) as Hl.
      assert (length (filter (fun e => e.2 = OrderGlobal) (barrier_of <$> queued p)) <> 0%nat); [|lia]. apply Hl. by exists q.
Qed.

(** ** Any order of steps *)

Context (d : CommandDispatcher).

Notation execute_command_request := (execute_command_request steel_executor steel_modifier d).
Notation take_request := (take_request steel_executor steel_modifier d).
Notation tick_one := (tick_one steel_executor steel_modifier).

(** What can happen to the commands of the server: a connection submits a
    request, the tick takes one or resumes an execution, and the rest of the
    server changes the world. *)
Inductive ServerEvent :=
| Submit (r : CommandRequest)
| TakeRequest
| Resume
| Elapse (w : World).

(** The state after an event, with the request that was accepted and the one
    that was taken *)
Definition server_step (ev : ServerEvent) (s : CommandState) : run (option CommandRequest * option CommandRequest * CommandState) :=
  match ev with
  | Submit r =>
      Ok (match submit r (requests s) with
          | Some q => (Some r, None, {| requests := q; pending := pending s; world := world s |})
          | None => (None, None, s)
          end)
  | TakeRequest => let? '(r, s) := take_request s in Ok (None, r, s)
  | Resume => let? '(_, _, p, w) := tick_one (pending s) (world s) in
      Ok (None, None, {| requests := requests s; pending := p; world := w |})
  | Elapse w => Ok (None, None, {| requests := requests s; pending := pending s; world := w |})
  end.

(** The requests accepted and those taken, in their order *)
Fixpoint server_run (evs : list ServerEvent) (s : CommandState) : run (list CommandRequest * list CommandRequest * CommandState) :=
  match evs with
  | [] => Ok ([], [], s)
  | ev :: evs =>
      let? '(a, t, s) := server_step ev s in
      let? '(accepted, taken, s) := server_run evs s in
      Ok (option_list a ++ accepted, option_list t ++ taken, s)
  end.

Definition state_new (w : World) : CommandState := {| requests := request_queue_new; pending := pending_new; world := w |}.

(** The commands among requests that are a sender's *)
Definition is_command_of (k : CommandSenderKey) (r : CommandRequest) : Prop :=
  match r with RequestExecute owner _ => owner_key owner = k | RequestSuggestions _ _ _ => False end.
#[export] Instance is_command_of_dec (k : CommandSenderKey) (r : CommandRequest) : Decision (is_command_of k r).
Proof. destruct r; simpl; apply _. Defined.
Definition commands_of (k : CommandSenderKey) (rs : list CommandRequest) : list CommandRequest := filter (is_command_of k) rs.

Lemma commands_of_app k a b : commands_of k (a ++ b) = commands_of k a ++ commands_of k b.
Proof. apply filter_app. Qed.

Lemma submit_commands k r q : match submit r q with
  | Some q' => commands_of k (executions q') = commands_of k (executions q) ++ commands_of k [r]
  | None => True
  end.
Proof.
  destruct r as [owner command|owner tid t]; cbn [submit].
  - unfold submit_execution. destruct (_ <=? _); [done|]. apply commands_of_app.
  - unfold submit_suggestions. destruct (replace_suggestion _ _ _); [by rewrite app_nil_r|].
    destruct (_ <=? _); [done|]. by rewrite app_nil_r.
Qed.

(** Each queue holds its kind of requests. *)
Record requests_ok (q : CommandRequestQueue) : Prop := {
  executions_ok : Forall (fun r => match r with RequestExecute _ _ => True | _ => False end) (executions q);
  suggestions_ok : Forall (fun e => match e.2 with RequestSuggestions _ _ _ => True | _ => False end) (suggestions q)
}.

Lemma replace_suggestion_ok key r l l' : replace_suggestion key r l = Some l' ->
  match r with RequestSuggestions _ _ _ => True | _ => False end ->
  Forall (fun e : CommandSuggestionKey * CommandRequest => match e.2 with RequestSuggestions _ _ _ => True | _ => False end) l ->
  Forall (fun e : CommandSuggestionKey * CommandRequest => match e.2 with RequestSuggestions _ _ _ => True | _ => False end) l'.
Proof.
  intros Hr Hok. revert l' Hr. induction l as [|[key' r'] l IH]; intros l' Hr Hl; simpl in Hr; [done|].
  apply Forall_cons in Hl as [He Hl]. case_decide; simplify_eq; [by constructor|].
  apply fmap_Some in Hr as (l2 & Hl2 & ->). constructor; [done|]. by apply IH.
Qed.

Lemma submit_ok r q : requests_ok q -> match submit r q with Some q' => requests_ok q' | None => True end.
Proof.
  intros [H1 H2]. destruct r as [owner command|owner tid t]; cbn [submit].
  - unfold submit_execution. destruct (_ <=? _); [done|]. split; [|done]. apply Forall_app. split; [done|by constructor].
  - unfold submit_suggestions. destruct (replace_suggestion _ _ _) as [l|] eqn:Er; [split; [done|by eapply replace_suggestion_ok]|].
    destruct (_ <=? _); [done|]. split; [done|]. apply Forall_app. split; [done|by constructor].
Qed.

Lemma find_commands k (allowed : CommandExecutionOwner -> bool) rs i r :
  (forall a b, owner_key a = owner_key b -> allowed a = allowed b) ->
  list_find (fun r => match r with RequestExecute owner _ => allowed owner | _ => false end = true) rs = Some (i, r) ->
  (exists owner command, r = RequestExecute owner command /\ allowed owner = true) /\
  commands_of k rs = commands_of k [r] ++ commands_of k (delete i rs).
Proof.
  intros Hkey Hf. apply list_find_Some in Hf as (Hi & Hr & Hbefore). destruct r as [owner command|]; [|done].
  split; [by eexists _, _|]. rewrite <- (take_drop_middle _ _ _ Hi) at 1. rewrite delete_take_drop. rewrite !commands_of_app.
  change (RequestExecute owner command :: drop (S i) rs) with ([RequestExecute owner command] ++ drop (S i) rs). rewrite commands_of_app.
  rewrite !(app_assoc (commands_of k _) (commands_of k _)). f_equal.
  destruct (decide (owner_key owner = k)) as [<-|Hne].
  - assert (Hnil : commands_of (owner_key owner) (take i rs) = []); [|by rewrite Hnil, app_nil_r].
    destruct (commands_of (owner_key owner) (take i rs)) as [|r l] eqn:Ec; [done|]. exfalso.
    assert (Hin : r ∈ commands_of (owner_key owner) (take i rs)) by (rewrite Ec; set_solver).
    apply list_elem_of_filter in Hin as [Hk Hin]. apply list_elem_of_lookup in Hin as [j Hj].
    apply lookup_take_Some in Hj as [Hj Hlt]. destruct r as [o c|]; [|done]. apply (Hbefore j _ Hj Hlt). simpl in Hk.
    by rewrite (Hkey o owner).
  - unfold commands_of at 2 3. rewrite filter_cons_False by done. by rewrite app_nil_r.
Qed.

(** What is taken is the first of its sender's commands. *)
Lemma pop_commands k allowed q q' r : (forall a b, owner_key a = owner_key b -> allowed a = allowed b) ->
  requests_ok q -> pop_front_runnable allowed q = Some (r, q') ->
  requests_ok q' /\ commands_of k (executions q) = commands_of k [r] ++ commands_of k (executions q') /\
  match r with RequestExecute owner _ => allowed owner = true | _ => True end.
Proof.
  intros Hkey [H1 H2]. unfold pop_front_runnable, pop_front_where.
  set (P := fun r => match r with RequestExecute owner _ => allowed owner | _ => false end).
  assert (Hexec : forall e q2, pop_allowed_execution P q = Some (e, q2) -> requests_ok (set_requests (executions q2) (suggestions q2) false q2) /\
    commands_of k (executions q) = commands_of k [e] ++ commands_of k (executions q2) /\
    match e with RequestExecute owner _ => allowed owner = true | _ => True end).
  { intros e q2. unfold pop_allowed_execution. destruct (list_find _ (executions q)) as [[i e']|] eqn:Ef; [|done]. intros [= -> <-].
    destruct (find_commands k allowed _ _ _ Hkey Ef) as [(owner & command & -> & Ha) Hc]. split; [|split; [done|done]].
    split; [|done]. by apply Forall_delete. }
  assert (Hsugg : forall key s l, suggestions q = (key, s) :: l -> requests_ok (set_requests (executions q) l true q) /\
    commands_of k (executions q) = commands_of k [s] ++ commands_of k (executions q) /\
    match s with RequestExecute owner _ => allowed owner = true | _ => True end).
  { intros key s l Hs. rewrite Hs in H2. apply Forall_cons in H2 as [Hk H2]. simpl in Hk. destruct s; [done|]. by split. }
  destruct (prefer_execution q).
  - destruct (pop_allowed_execution P q) as [[e q2]|] eqn:Ep; [intros [= <- <-]; by apply (Hexec _ _ eq_refl)|].
    destruct (suggestions q) as [|[key s] l]; [done|]. intros [= <- <-]. by eapply Hsugg.
  - destruct (suggestions q) as [|[key s] l]; [|intros [= <- <-]; by eapply Hsugg].
    destruct (pop_allowed_execution P q) as [[e q2]|] eqn:Ep; [intros [= <- <-]; by apply (Hexec _ _ eq_refl)|done].
Qed.

Lemma execute_request_barriers owner command p w p' w' : barriers_ok p ->
  execute_command_request owner command p w = Ok (p', w') -> barriers_ok p'.
Proof.
  intros Hp. unfold CommandTick.execute_command_request. destruct (parse d _ _) as [r| |]; cbn [obind]; [|done|done].
  destruct (context_chain d r) as [chain|e|]; [|by intros [= <- <-]|done].
  destruct (queue_initial_command _ _ _ _ w) as [x w1]. destruct (run_queue _ _ _ x w1) as [[[stop x'] w2]| |]; cbn [obind]; [|done|done].
  destruct stop; [by intros [= <- <-]| |by intros [= <- <-]..].
  pose proof (push_suspended_barriers owner x' p Hp) as Hpush. destruct (push_suspended owner x' p) as [b p2]. cbn [snd] in Hpush.
  by destruct b; intros [= <- <-].
Qed.

Definition state_ok (s : CommandState) : Prop := requests_ok (requests s) /\ barriers_ok (pending s).

Lemma state_new_ok w : state_ok (state_new w).
Proof. repeat split; try by constructor. Qed.

Lemma option_list_commands k (o : option CommandRequest) : commands_of k (option_list o) = match o with Some r => commands_of k [r] | None => [] end.
Proof. by destruct o. Qed.

Lemma take_request_ok s r s' : state_ok s -> take_request s = Ok (r, s') -> state_ok s' /\
  (forall k, commands_of k (executions (requests s)) = commands_of k (option_list r) ++ commands_of k (executions (requests s'))) /\
  (forall owner command, r = Some (RequestExecute owner command) -> blocks (owner_key owner) (pending s) = false).
Proof.
  intros [Hreq Hbar]. unfold CommandTick.take_request. set (allowed := fun owner => _).
  assert (Hkey : forall a b, owner_key a = owner_key b -> allowed a = allowed b) by (unfold allowed; intros a b He; by rewrite He).
  destruct (pop_front_runnable allowed (requests s)) as [[q1 q2]|] eqn:Ep; [|intros [= <- <-]; split; [by split|by split]].
  pose proof (fun k => pop_commands k allowed _ _ _ Hkey Hreq Ep) as Hpop. destruct (Hpop KeyConsole) as (Hok & _ & Ha).
  assert (Hc : forall k, commands_of k (executions (requests s)) = commands_of k [q1] ++ commands_of k (executions q2)) by (intros k; apply Hpop).
  destruct q1 as [owner command|owner tid t].
  - assert (Hb : blocks (owner_key owner) (pending s) = false) by (apply negb_true_iff, Ha).
    destruct (negb (owner_is_current owner (world s))).
    + intros [= <- <-]. split; [done|]. split; [done|]. by intros o c [= <- <-].
    + destruct (execute_command_request owner command (pending s) (world s)) as [[p w]| |] eqn:Ee; cbn [obind]; [|done|done].
      intros [= <- <-]. split; [split; [done|by eapply execute_request_barriers]|]. split; [done|]. by intros o c [= <- <-].
  - intros [= <- <-]. split; [done|]. split; [done|]. done.
Qed.

Lemma server_step_ok ev s a t s' : state_ok s -> server_step ev s = Ok (a, t, s') -> state_ok s' /\ forall k,
  commands_of k (executions (requests s)) ++ commands_of k (option_list a) =
  commands_of k (option_list t) ++ commands_of k (executions (requests s')).
Proof.
  intros Hs. pose proof Hs as [Hreq Hbar]. destruct ev as [r| | |w]; cbn [server_step].
  - pose proof (submit_ok r (requests s) Hreq) as Hok. pose proof (fun k => submit_commands k r (requests s)) as Hc.
    destruct (submit r (requests s)) as [q|]; intros [= <- <- <-]; [|split; [done|]; intros k; by rewrite app_nil_r].
    split; [done|]. intros k. cbn. by rewrite Hc.
  - destruct (take_request s) as [[r s2]| |] eqn:Et; cbn [obind]; [|done|done]. intros [= <- <- <-].
    destruct (take_request_ok _ _ _ Hs Et) as (Hs2 & Hc & _). split; [done|]. intros k. cbn. by rewrite app_nil_r, Hc.
  - destruct (tick_one (pending s) (world s)) as [[[[x y] p] w]| |] eqn:Et; cbn [obind]; [|done|done]. intros [= <- <- <-].
    split; [split; [done|by eapply tick_one_barriers]|]. intros k. cbn. by rewrite app_nil_r.
  - intros [= <- <- <-]. split; [done|]. intros k. cbn. by rewrite app_nil_r.
Qed.

Lemma server_run_ok evs : forall s acc taken s', state_ok s -> server_run evs s = Ok (acc, taken, s') -> state_ok s' /\ forall k,
  commands_of k (executions (requests s)) ++ commands_of k acc = commands_of k taken ++ commands_of k (executions (requests s')).
Proof.
  induction evs as [|ev evs IH]; intros s acc taken s' Hs; cbn [server_run].
  - intros [= <- <- <-]. split; [done|]. intros k. by rewrite app_nil_r.
  - destruct (server_step ev s) as [[[a t] s1]| |] eqn:E1; cbn [obind]; [|done|done].
    destruct (server_run evs s1) as [[[acc1 taken1] s2]| |] eqn:E2; cbn [obind]; [|done|done]. intros [= <- <- <-].
    destruct (server_step_ok _ _ _ _ _ Hs E1) as [Hs1 H1]. destruct (IH _ _ _ _ Hs1 E2) as [Hs2 H2]. split; [done|]. intros k.
    rewrite !commands_of_app, app_assoc, H1, <- !app_assoc. f_equal. apply H2.
Qed.

(** C8: Whatever the events, the commands of a sender that were accepted are
    those that were taken, in that order, and then those still waiting; and a
    command is taken only when no execution of its sender is suspended, nor one
    that holds back every sender. *)
Theorem commands_in_order evs w acc taken s : server_run evs (state_new w) = Ok (acc, taken, s) ->
  (forall k, commands_of k acc = commands_of k taken ++ commands_of k (executions (requests s))) /\
  (forall owner command s', take_request s = Ok (Some (RequestExecute owner command), s') ->
    forall q, q ∈ queued (pending s) -> owner_key (pending_owner q) <> owner_key owner /\ pending_order q = OrderSource).
Proof.
  intros Hrun. destruct (server_run_ok _ _ _ _ _ (state_new_ok w) Hrun) as [Hs Hc]. split; [done|].
  intros owner command s' Ht q Hq. destruct (take_request_ok _ _ _ Hs Ht) as (_ & _ & Hb). specialize (Hb _ _ eq_refl).
  pose proof (blocks_exact _ (owner_key owner) (proj2 Hs)) as Hx. rewrite Hb in Hx.
  split; [intros He|destruct (pending_order q) eqn:Eo; [done|]]; (assert (false = true); [|done]); apply Hx; exists q; tauto.
Qed.
End Barriers.

(** ** Steps return *)

Section ServerReturns.
Context `{!CommandRuntime, !RuntimeLaws} {World : Type} `{!CommandExecution World} `{!CommandServer World}.
Context (steel_executor : Executor -> SteelExecutor) (steel_modifier : Modifier -> SteelModifier).
Context (admits : CommandContext -> Prop) `{!CustomLaws steel_executor steel_modifier admits}.
Context (d : CommandDispatcher) (Hd : arena_ok d).

(** The contexts that are parsed are those that custom executors admit. *)
Context (Hadmits : forall t source r chain, parse d t source = Ok r -> context_chain d r = Ok chain -> Forall admits (contexts chain)).

Definition pending_ok (p : PendingCommandExecutionQueue) : Prop :=
  Forall (fun q => queue_ok steel_executor admits (execution q)) (queued p).

Lemma execute_request_returns owner command p w : pending_ok p -> exists p' w',
  execute_command_request steel_executor steel_modifier d owner command p w = Ok (p', w') /\ pending_ok p'.
Proof.
  intros Hp. unfold execute_command_request. set (source := source_new _ w).
  destruct (parse_returns d Hd source (strip_slash command)) as (r & He & Hdesc & Hroot & pre & post & _ & Hr). rewrite He. cbn [obind].
  pose proof (context_chain_allowed d source r pre post Hdesc Hroot Hr) as Hc.
  destruct (context_chain d r) as [chain|e|] eqn:Ec; [|by do 2 eexists|done].
  destruct Hc as (_ & Hpos & _ & Hlast).
  assert (Hchain : chain_ok admits chain).
  { split; [|done|by eapply Hadmits]. rewrite Hpos. destruct Hlast as (c & e & Hl & _). destruct (contexts chain); [done|simpl; lia]. }
  set (x0 := execution_new _ _). pose proof (queue_next_grown steel_executor admits (create_top_frame None x0)
    (BuildContextsAction chain source [source] modifiers_default) x0 w Hchain) as Hg. unfold queue_initial_command.
  destruct (queue_next _ _ x0 w) as [x w1]. cbn [fst] in Hg. destruct Hg as [_ _ Hok _].
  assert (Hx : queue_ok steel_executor admits x) by (split; apply Hok; by constructor).
  destruct (run_queue_returns steel_executor steel_modifier admits x w1 (S (load x)) Hx) as (stop & x' & w2 & -> & Hx' & Hstop); [lia|].
  cbn [obind]. destruct stop; [by do 2 eexists| |by do 2 eexists..].
  unfold push_suspended. destruct (active_order x') as [o|] eqn:Eo; [|by do 2 eexists].
  do 2 eexists. split; [done|]. unfold pending_ok. cbn. apply Forall_app. split; [done|by constructor].
Qed.

Lemma tick_one_returns p w : pending_ok p -> exists a b p' w',
  tick_one steel_executor steel_modifier p w = Ok (a, b, p', w') /\ pending_ok p'.
Proof.
  unfold pending_ok, tick_one. intros Hp. destruct (queued p) as [|pend rest] eqn:Eq; [exists false, false, p, w; by rewrite Eq|].
  apply Forall_cons in Hp as [Hx Hrest]. destruct (negb _); [destruct (cancel _ w); by do 4 eexists|].
  destruct (poll_returns steel_executor steel_modifier admits (execution pend) w (poll_fuel (execution pend)) Hx)
    as (stop & x' & w' & -> & Hx' & Hstop); [unfold poll_fuel; lia|]. cbn [obind].
  destruct stop; [by do 4 eexists| |by do 4 eexists..]. destruct (active_order x') as [o|]; [|by do 4 eexists].
  do 4 eexists. split; [done|]. destruct (decide _); cbn; (apply Forall_app; split; [done|by constructor]).
Qed.

Lemma tick_loop_returns rounds : forall p a b w, pending_ok p -> exists st p' w',
  tick_loop steel_executor steel_modifier rounds p a b w = Ok (st, p', w') /\ pending_ok p'.
Proof.
  induction rounds as [|rounds IH]; intros p a b w Hp; cbn [tick_loop]; [by do 3 eexists|].
  destruct (tick_one_returns p w Hp) as (x & y & p' & w' & -> & Hp'). cbn [obind].
  destruct x; [by apply IH|by do 3 eexists].
Qed.

Lemma take_request_returns s : pending_ok (pending s) -> exists r s',
  take_request steel_executor steel_modifier d s = Ok (r, s') /\ pending_ok (pending s').
Proof.
  intros Hp. unfold take_request. destruct (pop_front_runnable _ _) as [[[owner command|owner tid t] q]|]; [| |by do 2 eexists].
  - destruct (negb _); [by do 2 eexists|]. destruct (execute_request_returns owner command (pending s) (world s) Hp) as (p' & w' & -> & Hp').
    by do 2 eexists.
  - by do 2 eexists.
Qed.

Lemma tick_requests_returns rounds : forall s, pending_ok (pending s) -> exists s',
  tick_requests_loop steel_executor steel_modifier d rounds s = Ok s'.
Proof.
  induction rounds as [|rounds IH]; intros s Hp; cbn [tick_requests_loop]; [by eexists|].
  destruct (take_request_returns s Hp) as (r & s' & -> & Hp'). cbn [obind]. destruct r; [by apply IH|by eexists].
Qed.

Lemma server_step_returns ev s : pending_ok (pending s) -> exists a t s',
  server_step steel_executor steel_modifier d ev s = Ok (a, t, s') /\ pending_ok (pending s').
Proof.
  intros Hp. destruct ev as [r| | |w]; cbn [server_step].
  - destruct (submit r (requests s)); by do 3 eexists.
  - destruct (take_request_returns s Hp) as (r & s' & -> & Hp'). by do 3 eexists.
  - destruct (tick_one_returns (pending s) (world s) Hp) as (a & b & p' & w' & -> & Hp'). by do 3 eexists.
  - by do 3 eexists.
Qed.

(** C13: Whatever is submitted and in whatever order the steps come, every step
    returns, and so do the two parts of the server's tick from wherever that
    leads: no command line, no executor and no suspension makes the tick panic
    or run forever, if the custom executors keep to their law. *)
Theorem server_steps_return evs w : exists acc taken s,
  server_run steel_executor steel_modifier d evs (state_new w) = Ok (acc, taken, s) /\
  (exists s', tick_pending_command_executions steel_executor steel_modifier s = Ok s') /\
  (exists s', tick_command_requests steel_executor steel_modifier d s = Ok s').
Proof.
  assert (Hgo : forall s, pending_ok (pending s) -> exists acc taken s', server_run steel_executor steel_modifier d evs s = Ok (acc, taken, s') /\
    pending_ok (pending s')).
  { induction evs as [|ev evs IH]; intros s Hp; cbn [server_run]; [by do 3 eexists|].
    destruct (server_step_returns ev s Hp) as (a & t & s1 & -> & Hp1). cbn [obind].
    destruct (IH s1 Hp1) as (acc & taken & s2 & -> & Hp2). by do 3 eexists. }
  destruct (Hgo (state_new w)) as (acc & taken & s & He & Hp); [by constructor|]. do 3 eexists. split; [done|]. split.
  - unfold tick_pending_command_executions, pending_tick.
    destruct (tick_loop_returns (Nat.min (length (queued (pending s))) COMMAND_RESUMPTIONS_PER_TICK) (pending s) 0 0 (world s) Hp)
      as (st & p' & w' & -> & _). by eexists.
  - by apply tick_requests_returns.
Qed.
End ServerReturns.

(** ** Examples *)

Module TickDemo.
Import Demo ParseDemo QueueDemo.

#[export] Instance demo_server : CommandServer World := {|
  domain_residence_token _ _ := 5;
  command_world_for_player _ _ := true;
  is_domain_residence_current _ r _ := r =? 5;
  source_new _ _ := logger;
  sequence_limit _ := 20;
  source_fork_limit _ := 10;
  send_suggestions _ _ _ w := w
|}.

Definition console : CommandExecutionOwner := capture SenderConsole [].
Definition wait_request : CommandRequest := RequestExecute console (47 :: w_wait).
Definition tp_request : CommandRequest := RequestExecute console tp_home.

(** [wait] is suspended, and [tp home] is not taken until it is done. *)
Definition demo_events : list (@ServerEvent World) :=
  [Submit wait_request; Submit tp_request; TakeRequest; TakeRequest; Resume; TakeRequest; Resume; TakeRequest].

Example demo_waits :
  match server_run steel_executor steel_modifier commands (take 6 demo_events) (state_new []) with
  | Ok (_, taken, s) => taken = [wait_request] /\ length (queued (pending s)) = 1%nat /\ blocks KeyConsole (pending s) = true
  | _ => False
  end.
Proof. vm_compute. done. Qed.

Lemma commands_in_order_witness : exists acc taken s,
  server_run steel_executor steel_modifier commands demo_events (state_new []) = Ok (acc, taken, s) /\
  taken = [wait_request; tp_request] /\ world s = [(true, 9); (true, 0); (true, 7)] /\
  forall k, commands_of k acc = commands_of k taken ++ commands_of k (executions (requests s)).
Proof.
  assert (Hrun : match server_run steel_executor steel_modifier commands demo_events (state_new []) with
    | Ok (_, taken, s) => taken = [wait_request; tp_request] /\ world s = [(true, 9); (true, 0); (true, 7)] | _ => False end)
    by (vm_compute; done).
  revert Hrun. generalize (eq_refl (server_run steel_executor steel_modifier commands demo_events (state_new []))).
  generalize (server_run steel_executor steel_modifier commands demo_events (state_new [])) at 2 3 4 as o.
  intros [[[acc taken] s]| |] Er Hrun; [|destruct Hrun|destruct Hrun]. exists acc, taken, s. destruct Hrun as [-> Hw].
  split; [reflexivity|]. split; [reflexivity|]. split; [exact Hw|].
  exact (proj1 (commands_in_order steel_executor steel_modifier commands demo_events [] acc [wait_request; tp_request] s Er)).
Defined.

Lemma demo_admits t source r chain : parse commands t source = Ok r -> context_chain commands r = Ok chain ->
  Forall demo_has_value (contexts chain).
Proof.
  intros Hp Hc. destruct (parse_returns commands commands_ok source t) as (r' & He & Hdesc & Hroot & pre & post & _ & Hr).
  assert (r = r') as -> by congruence. pose proof (context_chain_allowed commands source r' pre post Hdesc Hroot Hr) as Ha.
  rewrite Hc in Ha. destruct Ha as (_ & _ & Hall & _). eapply Forall_impl; [exact Hall|]. intros c (_ & _ & _ & Hex) e He' Hcustom.
  rewrite He' in Hex. destruct Hex as (p & n & _ & [_ Hn]%node_some & Hen & _).
  destruct (index (parsed_node p)) as [|[|[|[|i]]]]; simpl in Hn; simplify_eq; simpl in Hen; simplify_eq; done.
Qed.

Lemma server_steps_return_witness : exists acc taken s,
  server_run steel_executor steel_modifier commands demo_events (state_new []) = Ok (acc, taken, s) /\
  (exists s', tick_pending_command_executions steel_executor steel_modifier s = Ok s') /\
  (exists s', tick_command_requests steel_executor steel_modifier commands s = Ok s').
Proof.
  apply (server_steps_return steel_executor steel_modifier demo_has_value commands commands_ok demo_admits demo_events []).
Defined.
End TickDemo.
